(* ===== verification/_CoqProject ===== *)
-Q . S2P
Prelude.v
Mem.v
Array.v
Dict.v
Chan.v
ChanInv.v
ChanOps.v
ChanClose.v
ChanProps.v
ChanCb.v
ChanCbOps.v
ChanCbProps.v
Alts.v
AltsProps.v
Timer.v
TimerProps.v
Wsdq.v
WsdqProps.v
Mutex.v
MutexProps.v
Pool.v
PoolInv.v
PoolProps.v
Roots.v
RootsProps.v
LoopQ.v
LoopQProps.v
Schema.v
SchemaProps.v
SchemaVal.v
SchemaValProps.v
SchemaTerm.v
Json.v
JsonProps.v
JsonRound.v
JsonTypes.v
Http.v
HttpProps.v
HttpPool.v
HttpPoolProps.v
Io.v
IoProps.v
