(* ===== verification/Prelude.v ===== *)
(** * libgoc: a verified model of the runtime

    libgoc is a Go-style runtime in C: fibers that a pool of worker threads runs, channels
    and select between them, timeouts, reader-writer mutexes, and the containers
    [goc_array] and [goc_dict] on a garbage-collected heap.  This library translates that
    code into executable definitions and proves what makes it correct.

    ** The program and the files that model it

    - Prelude.v: words of 64 bits with their wrap-around, the outcomes of a C computation
      ([res]: a value, an [ABORT], undefined behaviour, an endless loop), the state monad
      [prog] over them, list accesses that fail out of range, and the shared tactics.
    - Mem.v (gc.c, [goc_malloc]): the heap as the containers see it, blocks of words.
    - Array.v (goc_array.c): the growable array, one definition per function; the header is
      passed and returned where C mutates it through a pointer, so slices share a block.
    - Dict.v (goc_dict.c): the hash dictionary with tombstones and its array of keys.
    - Chan.v (channel.c, channel_internal.h, chan_type.h, parts of internal.h): channels,
      the linked lists of waiters, waking and claiming, closing.  ChanInv.v is the invariant
      of the channel world, ChanOps.v and ChanClose.v say what every operation does to it,
      ChanProps.v has the transition system of all calls and the theorems.
    - ChanCb.v, ChanCbOps.v, ChanCbProps.v ([goc_put_cb], [goc_take_cb] in channel.c, loop.c
      428-440 and 890-1160): callback puts and takes and the loop thread's rounds over them.
    - Alts.v, AltsProps.v (alts.c): select for fibers and threads, over the world of Chan.v.
    - Timer.v, TimerProps.v (loop.c 546-790, timeout.c): the heap of timers, timeouts.
    - Wsdq.v, WsdqProps.v (wsdq.c): the work-stealing deque, one step per access to shared
      memory, and the injector queue.
    - Mutex.v, MutexProps.v (mutex.c): reader-writer mutexes built on gate channels.
    - Pool.v, PoolInv.v, PoolProps.v (pool.c, the launch of fibers in fiber.c): the spawn
      throttle, posting to worker queues, wake-ups, stealing, the scheduling loop, and the
      destruction of a pool, as interleaved threads.
    - LoopQ.v, LoopQProps.v (loop.c 36-430, 1076-1440, [loop_shutdown]): the callback queue
      of the loop thread with its coalesced wake-ups, submission, and shutdown.
    - Roots.v, RootsProps.v (gc.c 177-352 and the end of [goc_shutdown]): the bitmap of
      fiber stacks that the collector scans while all threads are stopped.
    - Schema.v, SchemaProps.v (goc_schema.c 1-850 and the constructors, goc_schema.h,
      goc_schema_internal.h): values as the validator sees them, schema nodes, their
      hierarchy, methods, names and constructors, with the invariant of all calls.
    - SchemaVal.v, SchemaValProps.v, SchemaTerm.v (goc_schema.c 888-1597 and
      [goc_schema_validate] and its relatives): validation with the paths and messages of
      its errors, what a verdict means, and termination.
    - Json.v, JsonProps.v, JsonRound.v, JsonTypes.v (goc_json.c): values written as JSON
      under a schema and read back; trees and parsing, round trips and errors, the built-in
      serializers and complex numbers.
    - Http.v, HttpProps.v (goc_http.c, its text functions): routes, headers, the responses
      the server writes and the client parses, the requests the client writes, URLs.
    - HttpPool.v, HttpPoolProps.v (goc_http.c 115-380, 2065-3540): the connections of the
      HTTP client, its slots, the sweeps of idle connections and the request fiber.
    - Io.v, IoProps.v (goc_io.c 181-600 and 4378-5356, gc.c 376-379 and 534-585): operations
      on files and names as steps between a request to libuv and its callback, and the
      registry of live requests.

    A fiber that parks on a channel leaves an entry there (Chan); whoever wakes it posts it
    to a worker (Pool), which runs it from its deque or injector (Wsdq); closing a channel
    runs callbacks of timers and mutexes (Timer, Mutex); the pool registers the stack of a
    fiber while it lives (Roots).  Where one model ends at another component it records what
    it hands over: fibers posted, callbacks posted, channels closed, grants sent.

    ** What the theorems show

    - Safety and invariants of all reachable states, by induction on the steps:
      [chan_calls_safe], [alts_calls_safe], [pool_safe], [timer_events_safe], and with them
      that no call dereferences a dangling entry, spins forever or runs out of fuel.
    - Behaviour of single operations on every branch: [put_behaviour], [take_behaviour],
      [close_behaviour], [alts_behaviour], [mutex_call_behaviour], [throttle_behaviour],
      [timer_fire_behaviour], [concat_behaviour].
    - Refinement of an abstract specification: [array_history_refines] (sequences),
      [dict_history_refines] (ordered maps), [wsdq_refines_deque], [injector_fifo],
      [cbq_fifo] (the callback queue).
    - Equivalence: [roots_scan_exact], the walk of chunks, words and bits against the set of
      registered fibers; [hierarchy_queries], the walks of the schema hierarchy against
      reachability; [probe_agrees], probing against validating.
    - Schemas: [validate_meaning] (a verdict is what the schema says, kind by kind),
      [base_types], [validate_terminates], [error_path], [registry_names],
      [method_dispatch].
    - Callback puts and takes: [cb_calls_safe], [callbacks_accounted] (none lost, each
      completed once), [pending_call_behaviour], [wakeups_empty_queue].
    - JSON: [json_roundtrip] and [complex_roundtrip] (what is written is read back),
      [stringify_error_path], [serialize_ends], and the table [builtin_serializers].
    - HTTP: [response_roundtrip], [url_roundtrip], [request_fits_and_lines] (no header is
      injected by an extra header), [routing]; [connections_accounted] (every slot of the
      client is held, idle or lost to a retried connect; no check fails), [requests_end].
    - Files: [file_ops_protocol] (one request at a time, files closed, one result),
      [file_contents] (what is read is what is delivered), [registry_bag].
    - Ordering, fairness and progress: [alts_locks_no_deadlock], [alts_one_winner],
      [mutex_exclusion], [mutex_fair], [pool_no_lost_wakeup], [cbq_no_lost_wakeup],
      [steal_finds_work], [destroy_completes], [wsdq_calls_finish], [wakeups_empty_queue].
    - Bounds and errors: [array_growth_amortized], [timeout_deadline],
      [register_lowest_free], [error_path], and the lemma [submit_refused].
    - Defects, proved on the model: [push_head_full7_out_of_bounds], [concat_behaviour],
      [alts_put_skips_taker], [buffered_take_wakes_no_putter], [wsdq_first_pop_loses_entry],
      [destroy_frees_under_waker], [shutdown_drains_512], [hwm_wraps],
      [property_names_probe], [derive_cycle_hangs], [waited_callback_has_no_channel],
      [retried_connects_lose_slots], [slot_wakeup_lost], [destroyed_pool_dangles],
      [failed_allocation_releases_twice], [path_injects_header], [ipv6_url_without_port],
      [short_write_succeeds], [large_result_cut], [late_registration_leaks],
      [stream_chunk_lost].

    ** Assumptions, bounds and fuel

    - Memory is sequentially consistent.  A critical section under a mutex is one step where
      nothing else reads what it writes; where other threads do (deque, pool, roots), every
      access is a step of its own.
    - The owner of a deque is its worker; the pool uses the deque through its abstract
      behaviour (push, pop and steal as single steps), which [wsdq_refines_deque] justifies
      except for the pop of a never used deque, which [wsdq_first_pop_loses_entry] shows.
    - The garbage collector grants or refuses requests ([GC] in Mem.v) and zeroes blocks;
      a string behind a pointer does not change while it is a key ([CStrings] in Dict.v);
      libuv wakes a loop after [uv_async_send]; coroutine switches succeed.
    - A value a schema validates is null or points to a box, an array, a dictionary or a
      string that the heap knows ([obj] in Schema.v); the bytes of a string are not taken
      for the header of a container.  The reader and writer of yyjson convert between text
      and trees ([YYJson]); that a document is read back as written is [YYJsonOk].  Arithmetic on long doubles, their printing and regular
      expressions are the C library's ([LongDouble], [Regex]).
    - Loops that are not structural carry fuel, and the theorems show that it suffices:
      a list walk gets the number of allocated entries, a probe the capacity of the table,
      a sift the length of the heap, the scan of the root bitmap its 4096 words, the
      rounding of capacities 64 doublings, a walk of the schema hierarchy the number of
      schemas, the loop over header lines the length of the head, and validation what
      [validate_terminates] says.
    - A step of a request fiber runs from one wait to the next; the counters of the HTTP
      client are checked where they are changed.  The theorems about its connections assume
      that the allocator has memory ([failed_allocation_releases_twice] shows why) and that
      no pool is destroyed under a request ([destroyed_pool_dangles]).

    ** Not modelled

    - The task queues of workers and the closing of their libuv loops (rest of pool.c), and
      the registry of channels and the boxed values of gc.c: lists and casts that the other components do
      not depend on.  The effects of a user's callback are calls of their own.
      [goc_json_serialize_runtime] and [goc_json_to_json_tuple] have no caller.
    - The accept loops and connection fibers of the HTTP server: callbacks of libuv streams
      around the vendored parser of requests.
    - The streams, handles, datagrams and processes of goc_io.c: calls of libuv one by one,
      and what files hold, which is the operating system's.  goc_stats.c and goc_debug.c only report;
      minicoro, yyjson, regex and picohttpparser are vendored. *)

From stdpp Require Export base tactics list gmap strings.
From Stdlib Require Export ZArith Lia.

#[global] Open Scope Z_scope.

(** ** Machine words

    [size_t], [uint64_t] and [uintptr_t] are 64 bits wide.  A word is a [Z]
    in [0, 2^64), and every C operation that can wrap is written with the
    wrapping operators below. *)

Definition WORD : Z := 18446744073709551616.
Definition SIZE_MAX : Z := 18446744073709551615.
Definition wrap64 (z : Z) : Z := z mod WORD.

Declare Scope word_scope.
Delimit Scope word_scope with word.
Notation "a +% b" := (wrap64 (a + b)) (at level 50, left associativity) : word_scope.
Notation "a -% b" := (wrap64 (a - b)) (at level 50, left associativity) : word_scope.
Notation "a *% b" := (wrap64 (a * b)) (at level 40, left associativity) : word_scope.
#[global] Open Scope word_scope.

Definition is_word (z : Z) : Prop := 0 <= z < WORD.

Create HintDb word.

Lemma wrap64_small z : 0 <= z < WORD → wrap64 z = z.
Proof. apply Z.mod_small. Qed.

Lemma wrap64_word z : is_word (wrap64 z).
Proof. unfold is_word, wrap64. apply Z.mod_pos_bound. reflexivity. Qed.

#[export] Hint Resolve wrap64_word : word.

(** [word_simpl] removes every [wrap64] whose argument [lia] proves in range. *)
Ltac word_bounds := unfold is_word, SIZE_MAX, WORD in *; lia.
Ltac word_simpl :=
  repeat match goal with
  | |- context [wrap64 ?z] => rewrite (wrap64_small z) by word_bounds
  | H : context [wrap64 ?z] |- _ => rewrite (wrap64_small z) in H by word_bounds
  end.

(** Linear arithmetic with division and remainder by constants. *)
Ltac dlia := Z.div_mod_to_equations; lia.

(** ** Outcomes

    [abort] is the [ABORT] macro of internal.h (message, then [abort()]);
    [ub] is an access the C standard leaves undefined: a dereference outside
    an allocated block; [hang] is a loop that never exits. *)

Inductive res (A : Type) : Type :=
| ok (a : A)
| abort (msg : string)
| ub
| hang.
Arguments ok {A} a.
Arguments abort {A} msg.
Arguments ub {A}.
Arguments hang {A}.

#[export] Instance res_ret : MRet res := @ok.
#[export] Instance res_bind : MBind res := λ A B f r,
  match r with ok a => f a | abort m => abort m | ub => ub | hang => hang end.

(** State passing with outcomes: the programs of the memory-manipulating
    components. *)
Definition prog (S A : Type) : Type := S → res (A * S).

#[export] Instance prog_ret {S} : MRet (prog S) := λ A a s, ok (a, s).
#[export] Instance prog_bind {S} : MBind (prog S) := λ A B f m s,
  match m s with
  | ok (a, s') => f a s'
  | abort msg => abort msg
  | ub => ub
  | hang => hang
  end.

Definition ABORT {S A} (msg : string) : prog S A := λ _, abort msg.
Definition UB {S A} : prog S A := λ _, ub.
Definition HANG {S A} : prog S A := λ _, hang.
Definition of_res {S A} (r : res A) : prog S A :=
  match r with ok a => mret a | abort m => ABORT m | ub => UB | hang => HANG end.
Definition of_option {S A} (o : option A) : prog S A :=
  match o with Some a => mret a | None => UB end.

Lemma res_bind_inv {A B} (a : res A) (f : A → res B) b : a ≫= f = ok b → ∃ x, a = ok x ∧ f x = ok b.
Proof. destruct a as [x| | |]; try done. by exists x. Qed.

Lemma prog_bind_ok {S A B} (m : prog S A) (f : A → prog S B) s a s' :
  m s = ok (a, s') → (m ≫= f) s = f a s'.
Proof. intros H. unfold mbind, prog_bind. by rewrite H. Qed.

Lemma prog_bind_ub {S A B} (m : prog S A) (f : A → prog S B) s :
  m s = ub → (m ≫= f) s = ub.
Proof. intros H. unfold mbind, prog_bind. by rewrite H. Qed.

Lemma bind_of_res {S A B} (a : A) (f : A → prog S B) s : (of_res (ok a) ≫= f) s = f a s.
Proof. done. Qed.

Lemma bind_of_option {S A B} (a : A) (f : A → prog S B) s :
  (of_option (Some a) ≫= f) s = f a s.
Proof. done. Qed.

(** Runs the leading pure step of a program. *)
Ltac prog_step := first [rewrite bind_of_res | rewrite bind_of_option]; cbv beta.

Lemma prog_bind_inv {S A B} (m : prog S A) (f : A → prog S B) s b s'' :
  (m ≫= f) s = ok (b, s'') → ∃ a s', m s = ok (a, s') ∧ f a s' = ok (b, s'').
Proof.
  unfold mbind, prog_bind. destruct (m s) as [[a s']|?| |]; try done. eauto.
Qed.

(** ** Arrays indexed by words

    Reads and writes of a C array of known length; [None] is out of range.
    The bound is tested before the index is converted, so that evaluation
    never builds a large unary number. *)

Definition in_range {A} (l : list A) (i : Z) : bool :=
  (0 <=? i) && (i <? Z.of_nat (length l)).

Definition zget {A} (l : list A) (i : Z) : option A :=
  if in_range l i then l !! Z.to_nat i else None.

Definition zset {A} (l : list A) (i : Z) (x : A) : option (list A) :=
  if in_range l i then Some (<[Z.to_nat i := x]> l) else None.

(** [memcpy (dst + doff) (src + soff) n], in elements. *)
Definition zcopy {A} (dst : list A) (doff : Z) (src : list A) (soff n : Z) : option (list A) :=
  if (0 <=? n) && (0 <=? doff) && (doff + n <=? Z.of_nat (length dst))
     && (0 <=? soff) && (soff + n <=? Z.of_nat (length src))
  then Some (take (Z.to_nat doff) dst
             ++ take (Z.to_nat n) (drop (Z.to_nat soff) src)
             ++ drop (Z.to_nat (doff + n)) dst)
  else None.

Lemma in_range_spec {A} (l : list A) i :
  in_range l i = true ↔ 0 <= i < Z.of_nat (length l).
Proof. unfold in_range. rewrite andb_true_iff, Z.leb_le, Z.ltb_lt. done. Qed.

Lemma zget_in {A} (l : list A) i :
  0 <= i < Z.of_nat (length l) → zget l i = l !! Z.to_nat i.
Proof. intros H%in_range_spec. unfold zget. by rewrite H. Qed.

Lemma zset_in {A} (l : list A) i x :
  0 <= i < Z.of_nat (length l) → zset l i x = Some (<[Z.to_nat i := x]> l).
Proof. intros H%in_range_spec. unfold zset. by rewrite H. Qed.

Lemma zget_Some {A} (l : list A) i x :
  zget l i = Some x ↔ 0 <= i ∧ l !! Z.to_nat i = Some x.
Proof.
  unfold zget. destruct (in_range l i) eqn:E.
  - apply in_range_spec in E. split; [intros ?; split; [lia|done]|by intros [_ ?]].
  - split; [done|]. intros [? Hl]. apply lookup_lt_Some in Hl.
    assert (in_range l i = true) by (apply in_range_spec; lia). congruence.
Qed.

Lemma zset_Some {A} (l l' : list A) i x :
  zset l i x = Some l' ↔ 0 <= i < Z.of_nat (length l) ∧ l' = <[Z.to_nat i := x]> l.
Proof.
  unfold zset. destruct (in_range l i) eqn:E.
  - apply in_range_spec in E. split; [intros [= <-]; done|by intros [_ ->]].
  - split; [done|]. intros [?%in_range_spec _]. congruence.
Qed.

Lemma zget_is_Some {A} (l : list A) i :
  0 <= i < Z.of_nat (length l) → ∃ x, zget l i = Some x.
Proof.
  intros H. rewrite zget_in by done.
  destruct (lookup_lt_is_Some_2 l (Z.to_nat i)) as [x Hx]; [lia|eauto].
Qed.

Lemma zcopy_in {A} (dst src : list A) doff soff n :
  0 <= n → 0 <= doff → doff + n <= Z.of_nat (length dst) →
  0 <= soff → soff + n <= Z.of_nat (length src) →
  zcopy dst doff src soff n =
    Some (take (Z.to_nat doff) dst ++ take (Z.to_nat n) (drop (Z.to_nat soff) src)
          ++ drop (Z.to_nat (doff + n)) dst).
Proof.
  intros. unfold zcopy.
  rewrite !(proj2 (Z.leb_le _ _)) by lia. done.
Qed.

(** ** Windows of a list: the live region of an array inside its buffer *)

Definition window {A} (l : list A) (off n : nat) : list A := take n (drop off l).

Lemma window_length {A} (l : list A) off n :
  (off + n <= length l)%nat → length (window l off n) = n.
Proof. intros. unfold window. rewrite length_take, length_drop. lia. Qed.

Lemma window_lookup {A} (l : list A) off n i :
  (i < n)%nat → window l off n !! i = l !! (off + i)%nat.
Proof. intros. unfold window. rewrite lookup_take_lt by done. apply lookup_drop. Qed.

Lemma window_snoc {A} (l : list A) off n x :
  l !! (off + n)%nat = Some x → window l off (S n) = window l off n ++ [x].
Proof.
  intros H. unfold window. apply take_S_r. by rewrite lookup_drop.
Qed.

Lemma window_cons {A} (l : list A) off n x :
  l !! off = Some x → window l off (S n) = x :: window l (S off) n.
Proof.
  intros H. unfold window.
  by rewrite (drop_S l x off H).
Qed.

Lemma window_insert_out {A} (l : list A) off n i x :
  (i < off ∨ off + n <= i)%nat → window (<[i:=x]> l) off n = window l off n.
Proof.
  intros H. unfold window. destruct H.
  - by rewrite drop_insert_lt.
  - rewrite drop_insert_ge by lia. apply take_insert_ge. lia.
Qed.

Lemma window_insert_in {A} (l : list A) off n i x :
  (i < n)%nat → window (<[(off + i)%nat:=x]> l) off n = <[i:=x]> (window l off n).
Proof.
  intros H. unfold window. rewrite drop_insert_ge by lia.
  replace (off + i - off)%nat with i by lia. by rewrite take_insert_lt.
Qed.

Lemma window_sub {A} (l : list A) off n s m :
  (s + m <= n)%nat → window l (off + s) m = window (window l off n) s m.
Proof.
  intros. unfold window. rewrite skipn_firstn_comm, take_take, drop_drop.
  by rewrite Nat.min_l by lia.
Qed.

(** ** Least witnesses and counting *)

Lemma least_witness (P : nat → Prop) `{∀ n, Decision (P n)} n :
  P n → ∃ k, (k <= n)%nat ∧ P k ∧ ∀ j, (j < k)%nat → ¬ P j.
Proof.
  induction n as [n IH] using lt_wf_ind. intros Hn.
  destruct (decide (Exists P (seq 0 n))) as [He|He].
  - apply Exists_exists in He as (k & Hk%elem_of_seq & HPk).
    destruct (IH k) as (k' & ? & ? & ?); [lia|done|]. exists k'. split_and!; [lia|done|done].
  - exists n. split_and!; [lia|done|]. intros j Hj HPj. apply He, Exists_exists.
    exists j. split; [apply elem_of_seq; lia|done].
Qed.

(** Number of elements with a property. *)
Definition count {A} (P : A → Prop) `{∀ x, Decision (P x)} (l : list A) : nat :=
  length (filter P l).

Lemma count_insert {A} (P : A → Prop) `{∀ x, Decision (P x)} (l : list A) i x y :
  l !! i = Some y →
  (count P (<[i:=x]> l) + (if decide (P y) then 1 else 0)
   = count P l + (if decide (P x) then 1 else 0))%nat.
Proof.
  intros Hi. pose proof (lookup_lt_Some _ _ _ Hi). unfold count.
  rewrite insert_take_drop by done. rewrite <- (take_drop_middle l i y Hi) at 3.
  rewrite !filter_app, !length_app, !filter_cons.
  repeat case_decide; simpl; lia.
Qed.

Lemma count_le {A} (P : A → Prop) `{∀ x, Decision (P x)} (l : list A) :
  (count P l <= length l)%nat.
Proof. apply length_filter. Qed.

Lemma count_lt_exists {A} (P : A → Prop) `{∀ x, Decision (P x)} (l : list A) :
  (count P l < length l)%nat → ∃ i x, l !! i = Some x ∧ ¬ P x.
Proof.
  unfold count. induction l as [|a l IH]; simpl; [lia|].
  rewrite filter_cons. case_decide as Ha.
  - simpl. intros Hl. destruct IH as (i & x & Hi & Hx); [lia|]. by exists (S i), x.
  - intros _. by exists 0%nat, a.
Qed.

Lemma count_replicate {A} (P : A → Prop) `{∀ x, Decision (P x)} n x :
  ¬ P x → count P (replicate n x) = 0%nat.
Proof.
  intros Hx. unfold count. induction n as [|n IH]; [done|]. simpl.
  by rewrite filter_cons_False.
Qed.
