(* ===== verification/Mem.v ===== *)
(** Word memory: the garbage-collected heap as the containers see it.

    A heap is a finite map from blocks to arrays of 64-bit words; a [void**]
    is a block with a word offset, so that two arrays can share one buffer
    (slices) and a pointer can point into the middle of a block
    ([goc_array_to_c]).  The collector itself (Boehm GC) is outside the
    repository: [GC_malloc] is a parameter that grants or refuses a request of
    a given size, and a granted block is zero-filled, which is its documented
    behaviour.  [goc_malloc] (src/gc.c) turns a refusal into an abort. *)

From S2P Require Import Prelude.

(** Which requests, by size in bytes, the collector grants. *)
Class GC := { gc_grants : Z → bool }.

(** A [void**] into a block. *)
Record bptr := mk_bptr { blk : positive; off : Z }.

Record mem := mk_mem {
  bufs : gmap positive (list Z);
  next_blk : positive
}.

Definition mem_empty : mem := {| bufs := ∅; next_blk := 1%positive |}.

Definition ptr_add (p : option bptr) (i : Z) : option bptr :=
  (λ q, {| blk := blk q; off := off q + i |}) <$> p.

Section ops.
Context `{GC}.

(** src/gc.c [goc_malloc]: [n] bytes, zero-filled, or an abort. *)
Definition goc_malloc (n : Z) : prog mem (option bptr) := λ m,
  if gc_grants n then
    ok (Some {| blk := next_blk m; off := 0 |},
        {| bufs := <[next_blk m := replicate (Z.to_nat (n / 8)) 0]> (bufs m);
           next_blk := Pos.succ (next_blk m) |})
  else abort "goc_malloc: allocation failed".

(** include/goc.h [goc_new_n(void*, n)]. *)
Definition goc_new_n (n : Z) : prog mem (option bptr) := goc_malloc (n *% 8).
End ops.

(** [p[i]] *)
Definition load (p : option bptr) (i : Z) : prog mem Z := λ m,
  match p with
  | Some q =>
      match bufs m !! blk q with
      | Some l => match zget l (off q + i) with Some x => ok (x, m) | None => ub end
      | None => ub
      end
  | None => ub
  end.

(** [p[i] = x] *)
Definition store (p : option bptr) (i x : Z) : prog mem () := λ m,
  match p with
  | Some q =>
      match bufs m !! blk q with
      | Some l =>
          match zset l (off q + i) x with
          | Some l' => ok (tt, {| bufs := <[blk q := l']> (bufs m); next_blk := next_blk m |})
          | None => ub
          end
      | None => ub
      end
  | None => ub
  end.

(** [memcpy(dst, src, n * sizeof(void* ))] between distinct blocks. *)
Definition memcpy_words (dst src : option bptr) (n : Z) : prog mem () := λ m,
  match dst, src with
  | Some d, Some s =>
      match bufs m !! blk d, bufs m !! blk s with
      | Some ld, Some ls =>
          match zcopy ld (off d) ls (off s) ((n *% 8) / 8) with
          | Some l' => ok (tt, {| bufs := <[blk d := l']> (bufs m); next_blk := next_blk m |})
          | None => ub
          end
      | _, _ => ub
      end
  | _, _ => ub
  end.

#[global] Arguments load : simpl never.
#[global] Arguments store : simpl never.
#[global] Arguments memcpy_words : simpl never.
#[global] Arguments goc_malloc : simpl never.
#[global] Arguments goc_new_n : simpl never.

(** Every allocated block is below the allocation frontier. *)
Definition mem_wf (m : mem) : Prop :=
  ∀ b, is_Some (bufs m !! b) → (b < next_blk m)%positive.

(** [frame m m' P]: every block of [m] that satisfies [P] is unchanged in [m']. *)
Definition mem_frame (P : positive → Prop) (m m' : mem) : Prop :=
  ∀ b, P b → is_Some (bufs m !! b) → bufs m' !! b = bufs m !! b.

Lemma mem_wf_empty : mem_wf mem_empty.
Proof. intros b [x Hx]. simpl in Hx. by rewrite lookup_empty in Hx. Qed.

Lemma mem_fresh m : mem_wf m → bufs m !! next_blk m = None.
Proof.
  intros Hwf. destruct (bufs m !! next_blk m) eqn:E; [|done].
  specialize (Hwf _ (mk_is_Some _ _ E)). lia.
Qed.

Lemma mem_wf_alloc m l :
  mem_wf m →
  mem_wf {| bufs := <[next_blk m := l]> (bufs m); next_blk := Pos.succ (next_blk m) |}.
Proof.
  intros Hwf b. simpl. rewrite lookup_insert. case_decide; [lia|].
  intros Hb%Hwf. lia.
Qed.

Lemma mem_wf_update m b l :
  mem_wf m → is_Some (bufs m !! b) →
  mem_wf {| bufs := <[b := l]> (bufs m); next_blk := next_blk m |}.
Proof.
  intros Hwf Hb b'. simpl. rewrite lookup_insert. case_decide; [subst; eauto|apply Hwf].
Qed.

Lemma frame_refl P m : mem_frame P m m.
Proof. by intros b. Qed.

Lemma frame_trans P m1 m2 m3 :
  mem_frame P m1 m2 → mem_frame P m2 m3 → mem_frame P m1 m3.
Proof.
  intros H1 H2 b Hb Hs. rewrite H2, H1; auto. by rewrite H1.
Qed.

Lemma frame_weaken (P Q : positive → Prop) m m' :
  (∀ b, P b → Q b) → mem_frame Q m m' → mem_frame P m m'.
Proof. intros HPQ HQ b Hb. by apply HQ, HPQ. Qed.

Lemma frame_alloc P m l :
  mem_wf m →
  mem_frame P m {| bufs := <[next_blk m := l]> (bufs m); next_blk := Pos.succ (next_blk m) |}.
Proof.
  intros Hwf b _ Hb. simpl. rewrite lookup_insert_ne; [done|].
  apply Hwf in Hb. lia.
Qed.

Lemma frame_update (P : positive → Prop) m b l :
  ¬ P b → mem_frame P m {| bufs := <[b := l]> (bufs m); next_blk := next_blk m |}.
Proof.
  intros HP b' Hb' _. simpl. rewrite lookup_insert_ne; [done|]. by intros ->.
Qed.

Create HintDb mem.
#[export] Hint Resolve mem_wf_empty mem_wf_alloc mem_wf_update frame_refl
  frame_alloc frame_update : mem.

Lemma goc_new_n_ok `{GC} m n :
  mem_wf m → 0 <= n → n * 8 < WORD → gc_grants (n * 8) = true →
  goc_new_n n m =
    ok (Some {| blk := next_blk m; off := 0 |},
        {| bufs := <[next_blk m := replicate (Z.to_nat n) 0]> (bufs m);
           next_blk := Pos.succ (next_blk m) |}).
Proof.
  intros Hwf H0 Hn Hgc. unfold goc_new_n, goc_malloc. word_simpl. rewrite Hgc.
  by rewrite Z.div_mul by lia.
Qed.

Lemma load_ok m q l i x :
  bufs m !! blk q = Some l → zget l (off q + i) = Some x →
  load (Some q) i m = ok (x, m).
Proof. intros Hl Hx. unfold load. by rewrite Hl, Hx. Qed.

Lemma load_inv p i m x m' : load p i m = ok (x, m') → m' = m.
Proof.
  unfold load. destruct p as [q|]; [|done]. destruct (bufs m !! blk q); [|done].
  destruct (zget _ _); [|done]. by intros [= _ <-].
Qed.

Lemma store_ok m q l i x :
  bufs m !! blk q = Some l → 0 <= off q + i < Z.of_nat (length l) →
  store (Some q) i x m =
    ok (tt, {| bufs := <[blk q := <[Z.to_nat (off q + i) := x]> l]> (bufs m);
               next_blk := next_blk m |}).
Proof. intros Hl Hi. unfold store. by rewrite Hl, zset_in. Qed.

(** Words allocated so far (no block is ever returned by the program itself). *)
Definition alloc_total (m : mem) : Z :=
  map_fold (λ _ l acc, Z.of_nat (length l) + acc) 0 (bufs m).

Lemma total_insert_new (M : gmap positive (list Z)) b l :
  M !! b = None →
  map_fold (λ _ (l : list Z) acc, Z.of_nat (length l) + acc) 0 (<[b:=l]> M) =
  Z.of_nat (length l) + map_fold (λ _ (l : list Z) acc, Z.of_nat (length l) + acc) 0 M.
Proof.
  intros Hb. rewrite (map_fold_insert_L (λ _ (l : list Z) acc, Z.of_nat (length l) + acc)); [done| |done].
  intros; simpl; lia.
Qed.

Lemma alloc_total_alloc m l :
  mem_wf m →
  alloc_total {| bufs := <[next_blk m := l]> (bufs m); next_blk := Pos.succ (next_blk m) |} =
  Z.of_nat (length l) + alloc_total m.
Proof. intros Hwf. apply total_insert_new. by apply mem_fresh. Qed.

Lemma alloc_total_update m b l l' :
  bufs m !! b = Some l → length l' = length l →
  alloc_total {| bufs := <[b := l']> (bufs m); next_blk := next_blk m |} = alloc_total m.
Proof.
  intros Hb Hl. unfold alloc_total; simpl.
  rewrite <- insert_delete_eq, total_insert_new by apply lookup_delete_eq.
  rewrite <- (insert_delete_id (bufs m) b l Hb) at 2.
  rewrite total_insert_new by apply lookup_delete_eq. lia.
Qed.
