(* ===== verification/Array.v ===== *)
(** goc_array (src/goc_array.c): the growable double-ended array.

    Module [Array] has one definition per function of the file, over the word
    memory of Mem.v, with the header passed and returned where the C code
    mutates it through a pointer.  The lemmas establish the representation
    invariant [wf], the functional behaviour of each operation on the abstract
    sequence [elems], what each operation leaves untouched in memory, and the
    bound on capacity; [deque_op] runs whole histories of operations against
    the sequence specification. *)

From S2P Require Import Prelude Mem.

Module Array.

(** [struct goc_array] (src/goc_types.h). *)
Record goc_array := mk_array {
  data : option bptr;
  head : Z;
  len : Z;
  cap : Z
}.

Definition GOC_ARRAY_INIT_CAP : Z := 8.

Section ops.
Context `{GC}.

(** Room for one more element: capacity doubles and the elements move to a
    quarter (tail growth) or three quarters (head growth) of the slack. *)
Definition array_grow (arr : goc_array) (grow_for_head : bool) : prog mem goc_array :=
  let new_cap := if cap arr <? GOC_ARRAY_INIT_CAP
                 then GOC_ARRAY_INIT_CAP else cap arr *% 2 in
  new_data ← goc_new_n new_cap;
  let slack := new_cap -% len arr in
  let new_head := if grow_for_head then (slack *% 3) / 4 else slack / 4 in
  (if 0 <? len arr
   then memcpy_words (ptr_add new_data new_head) (ptr_add (data arr) (head arr)) (len arr)
   else mret tt);;
  mret {| data := new_data; head := new_head; len := len arr; cap := new_cap |}.

Definition goc_array_make (initial_cap : Z) : prog mem goc_array :=
  let cap := if initial_cap <? GOC_ARRAY_INIT_CAP
             then GOC_ARRAY_INIT_CAP else initial_cap in
  d ← goc_new_n cap;
  mret {| data := d; head := cap / 4; len := 0; cap := cap |}.

Definition goc_array_from (items : option bptr) (n : Z) : goc_array :=
  {| data := items; head := 0; len := n; cap := n |}.

Definition goc_array_copy (arr : goc_array) : prog mem goc_array :=
  if len arr =? 0 then goc_array_make 0
  else
    buf ← goc_new_n (len arr);
    memcpy_words buf (ptr_add (data arr) (head arr)) (len arr);;
    mret (goc_array_from buf (len arr)).

Definition goc_array_len (arr : goc_array) : Z := len arr.

Definition goc_array_get (arr : goc_array) (i : Z) : prog mem Z :=
  if len arr <=? i then ABORT "goc_array_get: index out of bounds"
  else load (data arr) (head arr +% i).

Definition goc_array_set (arr : goc_array) (i val : Z) : prog mem () :=
  if len arr <=? i then ABORT "goc_array_set: index out of bounds"
  else store (data arr) (head arr +% i) val.

Definition goc_array_push (arr : goc_array) (val : Z) : prog mem goc_array :=
  a ← (if cap arr <=? head arr +% len arr then array_grow arr false else mret arr);
  store (data a) (head a +% len a) val;;
  mret {| data := data a; head := head a; len := len a +% 1; cap := cap a |}.

Definition goc_array_pop (arr : goc_array) : prog mem (Z * goc_array) :=
  if len arr =? 0 then ABORT "goc_array_pop: array is empty"
  else
    let l := len arr -% 1 in
    v ← load (data arr) (head arr +% l);
    mret (v, {| data := data arr; head := head arr; len := l; cap := cap arr |}).

Definition goc_array_push_head (arr : goc_array) (val : Z) : prog mem goc_array :=
  a ← (if head arr =? 0 then array_grow arr true else mret arr);
  let h := head a -% 1 in
  store (data a) h val;;
  mret {| data := data a; head := h; len := len a +% 1; cap := cap a |}.

Definition goc_array_pop_head (arr : goc_array) : prog mem (Z * goc_array) :=
  if len arr =? 0 then ABORT "goc_array_pop_head: array is empty"
  else
    val ← load (data arr) (head arr);
    mret (val, {| data := data arr; head := head arr +% 1; len := len arr -% 1;
                  cap := cap arr |}).

Definition goc_array_concat (a b : goc_array) : prog mem goc_array :=
  let total := len a +% len b in
  out ← goc_array_make total;
  (if 0 <? len a
   then memcpy_words (ptr_add (data out) (head out)) (ptr_add (data a) (head a)) (len a)
   else mret tt);;
  (if 0 <? len b
   then memcpy_words (ptr_add (data out) (head out +% len a))
                     (ptr_add (data b) (head b)) (len b)
   else mret tt);;
  mret {| data := data out; head := head out; len := total; cap := cap out |}.

Definition goc_array_slice (arr : goc_array) (start end_ : Z) : prog mem goc_array :=
  if (end_ <? start) || (len arr <? end_)
  then ABORT "goc_array_slice: invalid range"
  else mret {| data := data arr; head := head arr +% start; len := end_ -% start;
               cap := cap arr |}.

Definition goc_array_to_c (arr : goc_array) : option bptr :=
  if len arr =? 0 then None else ptr_add (data arr) (head arr).
End ops.

(** ** Representation *)

(** The buffer behind the array's data pointer, from that pointer on. *)
Definition backing (arr : goc_array) (m : mem) : list Z :=
  match data arr with
  | Some q => from_option (drop (Z.to_nat (off q))) [] (bufs m !! blk q)
  | None => []
  end.

(** The abstract sequence: [data[head .. head+len-1]]. *)
Definition elems (arr : goc_array) (m : mem) : list Z :=
  window (backing arr m) (Z.to_nat (head arr)) (Z.to_nat (len arr)).

Record wf (arr : goc_array) (m : mem) : Prop := {
  wf_mem : mem_wf m;
  wf_head : 0 <= head arr;
  wf_len : 0 <= len arr;
  wf_fit : head arr + len arr <= cap arr;
  wf_cap : cap arr * 8 < WORD;
  wf_off : from_option (λ q, 0 <= off q) True (data arr);
  wf_alloc : from_option (λ q, is_Some (bufs m !! blk q)) True (data arr);
  wf_buf : cap arr <= Z.of_nat (length (backing arr m))
}.

(** Blocks an array does not live in. *)
Definition away (arr : goc_array) (b : positive) : Prop :=
  from_option (λ q, b ≠ blk q) True (data arr).

(** ** Memory lemmas at the level of the backing buffer *)

Lemma backing_load arr m j x :
  from_option (λ q, 0 <= off q) True (data arr) → 0 <= j →
  backing arr m !! Z.to_nat j = Some x → load (data arr) j m = ok (x, m).
Proof.
  unfold backing. destruct (data arr) as [q|]; simpl; [|by rewrite lookup_nil].
  destruct (bufs m !! blk q) as [l|] eqn:El; simpl; [|by rewrite lookup_nil].
  intros Ho Hj Hx. eapply load_ok; [done|]. rewrite lookup_drop in Hx.
  apply zget_Some. split; [lia|]. by rewrite Z2Nat.inj_add by lia.
Qed.

(** What a write through [data] does: one slot of the backing buffer. *)
Record written (arr : goc_array) (j v : Z) (m m' : mem) : Prop := {
  written_backing : backing arr m' = <[Z.to_nat j := v]> (backing arr m);
  written_wf : mem_wf m → mem_wf m';
  written_dom : ∀ b, is_Some (bufs m !! b) → is_Some (bufs m' !! b);
  written_frame : mem_frame (away arr) m m';
  written_total : alloc_total m' = alloc_total m;
  written_next : next_blk m' = next_blk m
}.

Lemma backing_store arr m j v :
  from_option (λ q, 0 <= off q) True (data arr) →
  0 <= j < Z.of_nat (length (backing arr m)) →
  ∃ m', store (data arr) j v m = ok (tt, m') ∧ written arr j v m m'.
Proof.
  unfold backing. destruct (data arr) as [q|] eqn:Ed; simpl; [|lia].
  destruct (bufs m !! blk q) as [l|] eqn:El; simpl; [|lia].
  rewrite length_drop. intros Ho Hj. eexists. split.
  { apply store_ok; [done|lia]. }
  split; simpl.
  - unfold backing. rewrite Ed. simpl. rewrite lookup_insert_eq, El. simpl.
    rewrite drop_insert_ge by lia. f_equal. lia.
  - intros Hwf. apply mem_wf_update; [done|]. by rewrite El.
  - intros b. rewrite lookup_insert. by case_decide.
  - apply frame_update. unfold away. rewrite Ed. simpl. auto.
  - eapply alloc_total_update; [done|]. apply length_insert.
  - done.
Qed.

(** Arrays whose block is framed keep their contents. *)
Lemma backing_frame (P : positive → Prop) arr m m' :
  mem_frame P m m' → from_option (λ q, P (blk q)) True (data arr) →
  cap arr <= Z.of_nat (length (backing arr m)) → 0 < cap arr →
  backing arr m' = backing arr m.
Proof.
  intros HF. unfold backing. destruct (data arr) as [q|]; simpl; [|done].
  intros HP Hc Hpos. destruct (bufs m !! blk q) as [l|] eqn:El; simpl in Hc; [|lia].
  rewrite HF by (by rewrite ?El). by rewrite El.
Qed.

Lemma elems_frame (P : positive → Prop) arr m m' :
  mem_frame P m m' → from_option (λ q, P (blk q)) True (data arr) →
  wf arr m → elems arr m' = elems arr m.
Proof.
  intros HF HP Hwf. destruct Hwf. unfold elems.
  destruct (decide (0 < cap arr)) as [Hc|Hc].
  - by rewrite (backing_frame P arr m m').
  - replace (Z.to_nat (len arr)) with 0%nat by lia. done.
Qed.

Lemma wf_frame (P : positive → Prop) arr m m' :
  mem_frame P m m' → mem_wf m' → from_option (λ q, P (blk q)) True (data arr) →
  wf arr m → wf arr m'.
Proof.
  intros HF Hm' HP Hwf. destruct Hwf. split; try done.
  { destruct (data arr); [|done]. simpl in *. by rewrite HF. }
  destruct (decide (0 < cap arr)) as [Hc|Hc]; [|lia].
  by rewrite (backing_frame P arr m m').
Qed.

Lemma elems_length arr m : wf arr m → length (elems arr m) = Z.to_nat (len arr).
Proof. intros []. apply window_length. lia. Qed.

Lemma elems_lookup arr m i x :
  wf arr m → 0 <= i < len arr → elems arr m !! Z.to_nat i = Some x →
  backing arr m !! Z.to_nat (head arr + i) = Some x.
Proof.
  intros [] Hi. unfold elems. rewrite window_lookup by lia.
  by rewrite Z2Nat.inj_add by lia.
Qed.

Lemma elems_is_Some arr m i :
  wf arr m → 0 <= i < len arr → ∃ x, elems arr m !! Z.to_nat i = Some x.
Proof.
  intros Hwf Hi. destruct (lookup_lt_is_Some_2 (elems arr m) (Z.to_nat i)) as [x ?]; [|eauto].
  rewrite elems_length by done. lia.
Qed.

Lemma memcpy_backing arr m d o ld n :
  from_option (λ q, 0 <= off q) True (data arr) →
  bufs m !! d = Some ld → 0 <= o → o + n <= Z.of_nat (length ld) →
  0 <= head arr → 0 < n → n * 8 < WORD →
  head arr + n <= Z.of_nat (length (backing arr m)) →
  memcpy_words (Some {| blk := d; off := o |}) (ptr_add (data arr) (head arr)) n m =
    ok (tt, {| bufs := <[d := take (Z.to_nat o) ld
                              ++ window (backing arr m) (Z.to_nat (head arr)) (Z.to_nat n)
                              ++ drop (Z.to_nat (o + n)) ld]> (bufs m);
               next_blk := next_blk m |}).
Proof.
  intros Hoff Hd Ho Hon Hh Hn Hw Hb. unfold memcpy_words, backing in *.
  destruct (data arr) as [q|]; simpl in *; [|lia].
  destruct (bufs m !! blk q) as [ls|] eqn:Els; simpl in *; [|lia].
  rewrite length_drop in Hb. rewrite Hd. word_simpl. rewrite Z.div_mul by lia.
  rewrite zcopy_in by lia. unfold window. rewrite drop_drop.
  by rewrite Z2Nat.inj_add by lia.
Qed.

Definition grown_cap (c : Z) : Z := if c <? GOC_ARRAY_INIT_CAP then 8 else c * 2.

Definition grown_head (c l : Z) (for_head : bool) : Z :=
  if for_head then (grown_cap c - l) * 3 / 4 else (grown_cap c - l) / 4.

(** The memory after a fresh block with contents [nl] has been allocated. *)
Definition fresh_mem (m : mem) (nl : list Z) : mem :=
  {| bufs := <[next_blk m := nl]> (bufs m); next_blk := Pos.succ (next_blk m) |}.

Definition fresh_array (m : mem) (h l c : Z) : goc_array :=
  {| data := Some {| blk := next_blk m; off := 0 |}; head := h; len := l; cap := c |}.

(** What a (re)allocation gives: a fresh block holding the elements [xs]. *)
Record placed (xs : list Z) (a' : goc_array) (m m' : mem) : Prop := {
  pl_wf : wf a' m';
  pl_elems : elems a' m' = xs;
  pl_data : data a' = Some {| blk := next_blk m; off := 0 |};
  pl_frame : mem_frame (λ _, True) m m';
  pl_total : alloc_total m' = cap a' + alloc_total m;
  pl_next : next_blk m' = Pos.succ (next_blk m)
}.

Lemma backing_fresh m h l c nl : backing (fresh_array m h l c) (fresh_mem m nl) = nl.
Proof. unfold backing. simpl. rewrite lookup_insert_eq. simpl. apply drop_0. Qed.

Lemma fresh_placed m h l c nl :
  mem_wf m → 0 <= h → 0 <= l → h + l <= c → c * 8 < WORD → length nl = Z.to_nat c →
  placed (window nl (Z.to_nat h) (Z.to_nat l)) (fresh_array m h l c) m (fresh_mem m nl).
Proof.
  intros Hm Hh Hl Hf Hc Hnl. split; simpl; try done.
  - split; simpl; try done; [by apply mem_wf_alloc|by rewrite lookup_insert_eq|].
    rewrite backing_fresh. lia.
  - unfold elems. by rewrite backing_fresh.
  - by apply frame_alloc.
  - unfold fresh_mem. rewrite alloc_total_alloc by done. lia.
Qed.

(** The middle of a zeroed block after a [memcpy] of [xs] at [h]. *)
Definition patched (c h : Z) (xs : list Z) : list Z :=
  take (Z.to_nat h) (replicate (Z.to_nat c) 0) ++ xs
  ++ drop (Z.to_nat h + length xs) (replicate (Z.to_nat c) 0).

Lemma patched_length c h xs :
  0 <= h → h + Z.of_nat (length xs) <= c → length (patched c h xs) = Z.to_nat c.
Proof.
  intros. unfold patched. rewrite !length_app, length_take, length_drop, length_replicate. lia.
Qed.

Lemma patched_window c h xs :
  0 <= h → h + Z.of_nat (length xs) <= c →
  window (patched c h xs) (Z.to_nat h) (length xs) = xs.
Proof.
  intros. unfold patched, window.
  rewrite drop_app_length' by (rewrite length_take, length_replicate; lia).
  by rewrite take_app_length'.
Qed.

Lemma patched_nil c h : 0 <= h <= c → patched c h [] = replicate (Z.to_nat c) 0.
Proof. intros. unfold patched. simpl. rewrite Nat.add_0_r. apply take_drop. Qed.

Section proofs.
Context `{GC}.

(** Allocation of [c] zeroed words followed by the copy of the live elements of
    [arr] to offset [h], as [array_grow], [goc_array_copy] and
    [goc_array_concat] do it. *)
Lemma alloc_and_copy arr m c h :
  wf arr m → 0 <= h → h + len arr <= c → c * 8 < WORD →
  (if 0 <? len arr
   then memcpy_words (Some {| blk := next_blk m; off := h |})
                     (ptr_add (data arr) (head arr)) (len arr)
   else mret tt) (fresh_mem m (replicate (Z.to_nat c) 0)) =
  ok (tt, fresh_mem m (patched c h (elems arr m))).
Proof.
  intros Hwf Hh Hf Hc. pose proof (elems_length arr m Hwf) as Hlen.
  pose proof Hwf as [Hm Hh' Hl Hf' Hc' Ho Hal Hb].
  destruct (Z.ltb_spec 0 (len arr)) as [Hpos|Hz].
  - assert (Hbk : backing arr (fresh_mem m (replicate (Z.to_nat c) 0)) = backing arr m).
    { apply (backing_frame (λ _, True)); [by apply frame_alloc|by destruct (data arr)|lia|lia]. }
    rewrite (memcpy_backing arr _ _ _ (replicate (Z.to_nat c) 0)); try done; try lia.
    + rewrite Hbk. fold (elems arr m). unfold fresh_mem, patched; simpl.
      rewrite insert_insert_eq, Hlen. by rewrite <- Z2Nat.inj_add by lia.
    + apply lookup_insert_eq.
    + rewrite length_replicate. lia.
    + rewrite Hbk. lia.
  - destruct (elems arr m); simpl in Hlen; [|lia]. by rewrite patched_nil by lia.
Qed.

Lemma array_grow_ok arr m for_head :
  wf arr m → grown_cap (cap arr) * 8 < WORD → gc_grants (grown_cap (cap arr) * 8) = true →
  let a' := fresh_array m (grown_head (cap arr) (len arr) for_head) (len arr)
                        (grown_cap (cap arr)) in
  let m' := fresh_mem m (patched (grown_cap (cap arr))
                          (grown_head (cap arr) (len arr) for_head) (elems arr m)) in
  array_grow arr for_head m = ok (a', m') ∧ placed (elems arr m) a' m m'.
Proof.
  intros Hwf Hw Hgc. pose proof (elems_length arr m Hwf) as Hlen.
  pose proof Hwf as [Hm Hh Hl Hf Hc Ho Hal Hb].
  set (nc := grown_cap (cap arr)) in *.
  assert (Hnc : 0 <= len arr <= nc ∧ 8 <= nc).
  { unfold nc, grown_cap, GOC_ARRAY_INIT_CAP. destruct (Z.ltb_spec (cap arr) 8); lia. }
  set (nh := grown_head (cap arr) (len arr) for_head).
  assert (Hnh : 0 <= nh ∧ nh + len arr <= nc).
  { unfold nh, grown_head. fold nc. destruct for_head; dlia. }
  intros a' m'. unfold m'. split.
  - unfold array_grow.
    replace (if cap arr <? GOC_ARRAY_INIT_CAP then GOC_ARRAY_INIT_CAP else cap arr *% 2) with nc.
    2:{ unfold nc, grown_cap, GOC_ARRAY_INIT_CAP in *. destruct (Z.ltb_spec (cap arr) 8); [done|].
        by word_simpl. }
    erewrite prog_bind_ok; [|apply goc_new_n_ok; try done; lia].
    cbv zeta. rewrite (wrap64_small (nc - len arr)) by word_bounds.
    rewrite (wrap64_small ((nc - len arr) * 3)) by word_bounds.
    replace (if for_head then (nc - len arr) * 3 / 4 else (nc - len arr) / 4) with nh by done.
    erewrite prog_bind_ok; [|apply (alloc_and_copy arr m nc nh); try done; lia]. done.
  - replace (elems arr m) with (window (patched nc nh (elems arr m)) (Z.to_nat nh) (Z.to_nat (len arr))) at 1.
    + apply fresh_placed; try done; try lia. apply patched_length; lia.
    + rewrite <- Hlen. apply patched_window; lia.
Qed.

(** What a write of one slot next to the live region gives. *)
Record extended (xs : list Z) (arr a' : goc_array) (m m' : mem) : Prop := {
  ex_wf : wf a' m';
  ex_elems : elems a' m' = xs;
  ex_data : data a' = data arr;
  ex_cap : cap a' = cap arr;
  ex_frame : mem_frame (away arr) m m';
  ex_total : alloc_total m' = alloc_total m;
  ex_next : next_blk m' = next_blk m
}.

Lemma wf_shift arr m m' h l j v :
  wf arr m → written arr j v m m' → 0 <= h → 0 <= l → h + l <= cap arr →
  wf {| data := data arr; head := h; len := l; cap := cap arr |} m'.
Proof.
  intros [] Hw Hh Hl Hf. split; simpl; try done.
  - by apply (written_wf _ _ _ _ _ Hw).
  - destruct (data arr); [|done]. by apply (written_dom _ _ _ _ _ Hw).
  - change (backing {| data := data arr; head := h; len := l; cap := cap arr |} m')
      with (backing arr m').
    rewrite (written_backing _ _ _ _ _ Hw), length_insert. done.
Qed.

Lemma append_slot arr m v :
  wf arr m → head arr + len arr < cap arr →
  ∃ m', store (data arr) (head arr + len arr) v m = ok (tt, m') ∧
    extended (elems arr m ++ [v]) arr
      {| data := data arr; head := head arr; len := len arr + 1; cap := cap arr |} m m'.
Proof.
  intros Hwf Hroom. pose proof Hwf as [Hm Hh Hl Hf Hc Ho Hal Hb].
  destruct (backing_store arr m (head arr + len arr) v) as (m' & Hst & Hw); [done|lia|].
  exists m'. split; [done|]. split; simpl; try done; [..|by eapply written_frame
    |by eapply written_total|by eapply written_next].
  - by eapply wf_shift; [..|lia|lia|lia].
  - unfold elems at 1. simpl.
    change (backing _ m') with (backing arr m').
    rewrite (written_backing _ _ _ _ _ Hw).
    replace (Z.to_nat (len arr + 1)) with (S (Z.to_nat (len arr))) by lia.
    rewrite Z2Nat.inj_add by lia. rewrite (window_snoc _ _ _ v).
    + by rewrite window_insert_out by lia.
    + apply list_lookup_insert_eq. lia.
Qed.

Lemma prepend_slot arr m v :
  wf arr m → 0 < head arr →
  ∃ m', store (data arr) (head arr - 1) v m = ok (tt, m') ∧
    extended (v :: elems arr m) arr
      {| data := data arr; head := head arr - 1; len := len arr + 1; cap := cap arr |} m m'.
Proof.
  intros Hwf Hroom. pose proof Hwf as [Hm Hh Hl Hf Hc Ho Hal Hb].
  destruct (backing_store arr m (head arr - 1) v) as (m' & Hst & Hw); [done|lia|].
  exists m'. split; [done|]. split; simpl; try done; [..|by eapply written_frame
    |by eapply written_total|by eapply written_next].
  - by eapply wf_shift; [..|lia|lia|lia].
  - unfold elems at 1. simpl.
    change (backing _ m') with (backing arr m').
    rewrite (written_backing _ _ _ _ _ Hw).
    replace (Z.to_nat (len arr + 1)) with (S (Z.to_nat (len arr))) by lia.
    rewrite (window_cons _ _ _ v) by (apply list_lookup_insert_eq; lia).
    f_equal. replace (S (Z.to_nat (head arr - 1))) with (Z.to_nat (head arr)) by lia.
    by rewrite window_insert_out by lia.
Qed.

(** The outcome of a push at either end: the elements, and the shape of the
    header, which is a function of the old one. *)
Record pushed (xs : list Z) (arr a' : goc_array) (grow : bool) (h : Z) (m m' : mem) : Prop := {
  pu_wf : wf a' m';
  pu_elems : elems a' m' = xs;
  pu_len : len a' = len arr + 1;
  pu_head : head a' = h;
  pu_cap : cap a' = if grow then grown_cap (cap arr) else cap arr;
  pu_data : data a' = if grow then Some {| blk := next_blk m; off := 0 |} else data arr;
  pu_frame : mem_frame (away arr) m m';
  pu_total : alloc_total m' = (if grow then grown_cap (cap arr) else 0) + alloc_total m;
  pu_next : (next_blk m <= next_blk m')%positive
}.

(** The collector can serve a growth of [arr], and its size does not overflow. *)
Definition can_grow (arr : goc_array) : Prop :=
  grown_cap (cap arr) * 8 < WORD ∧ gc_grants (grown_cap (cap arr) * 8) = true.

Lemma extended_pushed xs arr a' m m' h :
  extended xs arr a' m m' → len a' = len arr + 1 → head a' = h →
  pushed xs arr a' false h m m'.
Proof. intros [] ? ?. split; try done. by rewrite ex_next0. Qed.

Lemma placed_extended_pushed ys xs arr a1 a' m m1 m' h :
  placed ys a1 m m1 → cap a1 = grown_cap (cap arr) →
  extended xs a1 a' m1 m' → len a' = len arr + 1 → head a' = h → mem_wf m →
  pushed xs arr a' true h m m'.
Proof.
  intros [] Hc [] ? ? Hm. split; try done; try congruence; try lia.
  intros b Hb Hs. rewrite <- (pl_frame0 b) by done. apply ex_frame0.
  - unfold away. rewrite pl_data0. simpl. apply Hm in Hs. lia.
  - by rewrite pl_frame0.
Qed.

(** [goc_array_push] appends; it reallocates exactly when the tail is full. *)
Lemma goc_array_push_ok arr m v :
  wf arr m → (cap arr <= head arr + len arr → can_grow arr) →
  ∃ a' m', goc_array_push arr v m = ok (a', m') ∧
    pushed (elems arr m ++ [v]) arr a' (cap arr <=? head arr + len arr)
      (if cap arr <=? head arr + len arr then grown_head (cap arr) (len arr) false
       else head arr) m m'.
Proof.
  intros Hwf Hg. pose proof Hwf as [Hm Hh Hl Hf Hc Ho Hal Hb]. unfold goc_array_push.
  rewrite (wrap64_small (head arr + len arr)) by word_bounds.
  destruct (Z.leb_spec (cap arr) (head arr + len arr)) as [Hfull|Hroom].
  - destruct (Hg Hfull) as [Hw Hgc].
    destruct (array_grow_ok arr m false) as [Hgr Hpl]; [done..|].
    set (a1 := fresh_array _ _ _ _) in *. set (m1 := fresh_mem _ _) in *. pose proof (pl_wf _ _ _ _ Hpl) as Hwf1.
    erewrite prog_bind_ok by done.
    assert (Hr : head a1 + len a1 < cap a1).
    { simpl. unfold grown_head, grown_cap, GOC_ARRAY_INIT_CAP in *.
      destruct (Z.ltb_spec (cap arr) 8); dlia. }
    destruct (append_slot a1 m1 v Hwf1 Hr) as (m2 & Hst & Hex).
    destruct Hwf1. rewrite (wrap64_small (head a1 + len a1)) by word_bounds.
    rewrite (wrap64_small (len a1 + 1)) by word_bounds.
    erewrite prog_bind_ok by done. eexists _, _. split; [done|].
    rewrite (pl_elems _ _ _ _ Hpl) in Hex. by eapply placed_extended_pushed.
  - destruct (append_slot arr m v Hwf Hroom) as (m2 & Hst & Hex).
    erewrite prog_bind_ok by done.
    rewrite (wrap64_small (head arr + len arr)), (wrap64_small (len arr + 1)) by word_bounds.
    erewrite prog_bind_ok by done. eexists _, _. split; [done|]. by eapply extended_pushed.
Qed.

(** [goc_array_push_head] prepends, unless the array is the full seven-slot one
    for which growth leaves no head room. *)
Lemma goc_array_push_head_ok arr m v :
  wf arr m → (head arr = 0 → can_grow arr) → ¬ (cap arr = 7 ∧ len arr = 7) →
  ∃ a' m', goc_array_push_head arr v m = ok (a', m') ∧
    pushed (v :: elems arr m) arr a' (head arr =? 0)
      ((if head arr =? 0 then grown_head (cap arr) (len arr) true else head arr) - 1) m m'.
Proof.
  intros Hwf Hg H7. pose proof Hwf as [Hm Hh Hl Hf Hc Ho Hal Hb]. unfold goc_array_push_head.
  destruct (Z.eqb_spec (head arr) 0) as [Hfull|Hroom].
  - destruct (Hg Hfull) as [Hw Hgc].
    destruct (array_grow_ok arr m true) as [Hgr Hpl]; [done..|].
    set (a1 := fresh_array _ _ _ _) in *. set (m1 := fresh_mem _ _) in *. pose proof (pl_wf _ _ _ _ Hpl) as Hwf1.
    erewrite prog_bind_ok by done.
    assert (Hr : 0 < head a1).
    { simpl. unfold grown_head, grown_cap, GOC_ARRAY_INIT_CAP in *.
      destruct (Z.ltb_spec (cap arr) 8); dlia. }
    destruct (prepend_slot a1 m1 v Hwf1 Hr) as (m2 & Hst & Hex).
    destruct Hwf1. rewrite (wrap64_small (head a1 - 1)) by word_bounds.
    rewrite (wrap64_small (len a1 + 1)) by word_bounds.
    erewrite prog_bind_ok by done. eexists _, _. split; [done|].
    rewrite (pl_elems _ _ _ _ Hpl) in Hex. by eapply placed_extended_pushed.
  - destruct (prepend_slot arr m v Hwf) as (m2 & Hst & Hex); [lia|].
    erewrite prog_bind_ok by done.
    rewrite (wrap64_small (head arr - 1)), (wrap64_small (len arr + 1)) by word_bounds.
    erewrite prog_bind_ok by done. eexists _, _. split; [done|]. by eapply extended_pushed.
Qed.

(** Sub-ranges of the live region, sharing the buffer. *)
Lemma wf_sub arr m s l :
  wf arr m → 0 <= s → 0 <= l → s + l <= len arr →
  wf {| data := data arr; head := head arr + s; len := l; cap := cap arr |} m ∧
  elems {| data := data arr; head := head arr + s; len := l; cap := cap arr |} m =
    window (elems arr m) (Z.to_nat s) (Z.to_nat l).
Proof.
  intros [] Hs Hl Hsl. split; [split; simpl; try done; lia|].
  unfold elems. simpl. rewrite Z2Nat.inj_add by lia.
  apply window_sub. lia.
Qed.

Lemma goc_array_get_ok arr m i x :
  wf arr m → 0 <= i → elems arr m !! Z.to_nat i = Some x → goc_array_get arr i m = ok (x, m).
Proof.
  intros Hwf Hi Hx. pose proof (lookup_lt_Some _ _ _ Hx) as Hlt.
  rewrite elems_length in Hlt by done. unfold goc_array_get.
  destruct (Z.leb_spec (len arr) i); [lia|].
  pose proof Hwf as []. rewrite wrap64_small by word_bounds.
  apply backing_load; [done|lia|]. by apply elems_lookup; [|lia|].
Qed.

Lemma goc_array_set_ok arr m i v :
  wf arr m → 0 <= i < len arr →
  ∃ m', goc_array_set arr i v m = ok (tt, m') ∧
    extended (<[Z.to_nat i := v]> (elems arr m)) arr arr m m' ∧
    written arr (head arr + i) v m m'.
Proof.
  intros Hwf Hi. pose proof Hwf as [Hm Hh Hl Hf Hc Ho Hal Hb]. unfold goc_array_set.
  destruct (Z.leb_spec (len arr) i); [lia|]. rewrite wrap64_small by word_bounds.
  destruct (backing_store arr m (head arr + i) v) as (m' & Hst & Hw); [done|lia|].
  exists m'. split; [done|]. split; [|done].
  split; try done; [..|by eapply written_frame|by eapply written_total|by eapply written_next].
  - pose proof (wf_shift arr m m' (head arr) (len arr) _ _ Hwf Hw) as Hs.
    destruct arr; simpl in *. apply Hs; lia.
  - unfold elems. rewrite (written_backing _ _ _ _ _ Hw), Z2Nat.inj_add by lia.
    apply window_insert_in. lia.
Qed.

Lemma goc_array_pop_ok arr m :
  wf arr m → 0 < len arr →
  ∃ v, goc_array_pop arr m =
         ok ((v, {| data := data arr; head := head arr; len := len arr - 1; cap := cap arr |}), m) ∧
    elems arr m =
      elems {| data := data arr; head := head arr; len := len arr - 1; cap := cap arr |} m ++ [v].
Proof.
  intros Hwf Hl. destruct (elems_is_Some arr m (len arr - 1)) as [v Hv]; [done|lia|].
  exists v. pose proof Hwf as [Hm Hh _ Hf Hc Ho Hal Hb]. unfold goc_array_pop.
  destruct (Z.eqb_spec (len arr) 0); [lia|].
  rewrite (wrap64_small (len arr - 1)), (wrap64_small (head arr + _)) by word_bounds.
  split.
  - erewrite prog_bind_ok; [done|]. apply backing_load; [done|lia|].
    by apply elems_lookup; [|lia|].
  - apply elems_lookup in Hv; [|done|lia]. unfold elems. simpl.
    change (backing _ m) with (backing arr m).
    replace (Z.to_nat (len arr)) with (S (Z.to_nat (len arr - 1))) by lia.
    apply window_snoc. by rewrite <- Z2Nat.inj_add by lia.
Qed.

Lemma goc_array_pop_head_ok arr m :
  wf arr m → 0 < len arr →
  ∃ v, goc_array_pop_head arr m =
         ok ((v, {| data := data arr; head := head arr + 1; len := len arr - 1;
                    cap := cap arr |}), m) ∧
    elems arr m =
      v :: elems {| data := data arr; head := head arr + 1; len := len arr - 1;
                    cap := cap arr |} m.
Proof.
  intros Hwf Hl. destruct (elems_is_Some arr m 0) as [v Hv]; [done|lia|].
  exists v. pose proof Hwf as [Hm Hh _ Hf Hc Ho Hal Hb]. unfold goc_array_pop_head.
  destruct (Z.eqb_spec (len arr) 0); [lia|].
  rewrite (wrap64_small (len arr - 1)), (wrap64_small (head arr + 1)) by word_bounds.
  apply elems_lookup in Hv; [|done|lia]. rewrite Z.add_0_r in Hv. split.
  - erewrite prog_bind_ok; [done|]. by apply backing_load; [|lia|].
  - unfold elems. simpl. change (backing _ m) with (backing arr m).
    replace (Z.to_nat (len arr)) with (S (Z.to_nat (len arr - 1))) by lia.
    replace (Z.to_nat (head arr + 1)) with (S (Z.to_nat (head arr))) by lia.
    by apply window_cons.
Qed.

Definition make_cap (c : Z) : Z := if c <? GOC_ARRAY_INIT_CAP then 8 else c.

Lemma goc_array_make_ok c m :
  mem_wf m → 0 <= c → make_cap c * 8 < WORD → gc_grants (make_cap c * 8) = true →
  goc_array_make c m =
    ok (fresh_array m (make_cap c / 4) 0 (make_cap c),
        fresh_mem m (replicate (Z.to_nat (make_cap c)) 0)) ∧
  placed [] (fresh_array m (make_cap c / 4) 0 (make_cap c)) m
         (fresh_mem m (replicate (Z.to_nat (make_cap c)) 0)).
Proof.
  intros Hm Hc Hw Hgc.
  assert (0 <= make_cap c / 4 <= make_cap c ∧ 8 <= make_cap c).
  { unfold make_cap, GOC_ARRAY_INIT_CAP. destruct (Z.ltb_spec c 8); dlia. }
  split.
  - unfold goc_array_make. change (if c <? _ then _ else c) with (make_cap c).
    erewrite prog_bind_ok; [|apply goc_new_n_ok; try done; lia]. done.
  - apply (fresh_placed m (make_cap c / 4) 0); try done; try lia. by rewrite length_replicate.
Qed.

(** [goc_array_copy]: the same elements in a block of their own. *)
Lemma goc_array_copy_ok arr m :
  wf arr m → gc_grants (make_cap 0 * 8) = true → gc_grants (len arr * 8) = true →
  ∃ a' m', goc_array_copy arr m = ok (a', m') ∧ placed (elems arr m) a' m m' ∧
    len a' = len arr ∧ cap a' = (if len arr =? 0 then 8 else len arr).
Proof.
  intros Hwf Hg0 Hg. pose proof (elems_length arr m Hwf) as Hlen.
  pose proof Hwf as [Hm Hh Hl Hf Hc Ho Hal Hb]. unfold goc_array_copy.
  destruct (Z.eqb_spec (len arr) 0) as [Hz|Hnz].
  - destruct (goc_array_make_ok 0 m) as [-> Hpl]; [done|lia|done|done|].
    eexists _, _. split; [done|]. destruct (elems arr m); simpl in Hlen; [|lia].
    split_and!; [done|done|done].
  - erewrite prog_bind_ok; [|apply goc_new_n_ok; try done; word_bounds].
    pose proof (alloc_and_copy arr m (len arr) 0 Hwf) as Hcp.
    destruct (Z.ltb_spec 0 (len arr)); [|lia].
    erewrite prog_bind_ok; [|apply Hcp; word_bounds].
    eexists _, _. split; [done|]. split_and!; try done.
    replace (elems arr m) with
      (window (patched (len arr) 0 (elems arr m)) (Z.to_nat 0) (Z.to_nat (len arr))) at 1.
    + apply (fresh_placed m 0 (len arr) (len arr)); try done; try lia.
      apply patched_length; lia.
    + rewrite <- Hlen. apply patched_window; lia.
Qed.

Lemma goc_array_slice_ok arr m start end_ :
  wf arr m → 0 <= start → start <= end_ → end_ <= len arr →
  goc_array_slice arr start end_ m =
    ok ({| data := data arr; head := head arr + start; len := end_ - start;
           cap := cap arr |}, m).
Proof.
  intros [] H1 H2 H3. unfold goc_array_slice.
  rewrite (proj2 (Z.ltb_ge end_ start)), (proj2 (Z.ltb_ge (len arr) end_)) by lia. simpl.
  rewrite !wrap64_small by word_bounds. done.
Qed.
End proofs.

(** ** Histories of operations against the sequence specification *)

Inductive deque_op :=
| OpPush (v : Z)
| OpPushHead (v : Z)
| OpPop
| OpPopHead
| OpGet (i : N)
| OpSet (i : N) (v : Z).

Definition is_push (o : deque_op) : Z :=
  match o with OpPush _ | OpPushHead _ => 1 | _ => 0 end.

Fixpoint pushes (ops : list deque_op) : Z :=
  match ops with [] => 0 | o :: ops => is_push o + pushes ops end.

(** The specification: a sequence, with the values each operation returns. *)
Definition spec_op (o : deque_op) (xs : list Z) : res (list Z * list Z) :=
  match o with
  | OpPush v => ok (xs ++ [v], [])
  | OpPushHead v => ok (v :: xs, [])
  | OpPop => match rev xs with
             | [] => abort "goc_array_pop: array is empty"
             | v :: r => ok (rev r, [v])
             end
  | OpPopHead => match xs with
                 | [] => abort "goc_array_pop_head: array is empty"
                 | v :: r => ok (r, [v])
                 end
  | OpGet i => match zget xs (Z.of_N i) with
               | Some x => ok (xs, [x])
               | None => abort "goc_array_get: index out of bounds"
               end
  | OpSet i v => match zset xs (Z.of_N i) v with
                 | Some xs' => ok (xs', [])
                 | None => abort "goc_array_set: index out of bounds"
                 end
  end.

Fixpoint spec_ops (ops : list deque_op) (xs : list Z) : res (list Z * list Z) :=
  match ops with
  | [] => ok (xs, [])
  | o :: ops =>
      '(xs1, out1) ← spec_op o xs;
      '(xs2, out2) ← spec_ops ops xs1;
      ok (xs2, out1 ++ out2)
  end.

Section history.
Context `{GC}.

Definition run_op (o : deque_op) (a : goc_array) : prog mem (goc_array * list Z) :=
  match o with
  | OpPush v => a' ← goc_array_push a v; mret (a', [])
  | OpPushHead v => a' ← goc_array_push_head a v; mret (a', [])
  | OpPop => r ← goc_array_pop a; mret (r.2, [r.1])
  | OpPopHead => r ← goc_array_pop_head a; mret (r.2, [r.1])
  | OpGet i => x ← goc_array_get a (Z.of_N i); mret (a, [x])
  | OpSet i v => goc_array_set a (Z.of_N i) v;; mret (a, [])
  end.

Fixpoint run_ops (ops : list deque_op) (a : goc_array) : prog mem (goc_array * list Z) :=
  match ops with
  | [] => mret (a, [])
  | o :: ops =>
      r1 ← run_op o a;
      r2 ← run_ops ops r1.1;
      mret (r2.1, r1.2 ++ r2.2)
  end.

(** The invariant of a history: after [n] pushes the free slots at either end,
    together with the pushes made, pay for the capacity; the words allocated
    since [base] are at most twice the capacity; the blocks of [P] are not the
    array's. *)
Record hist (P : positive → Prop) (n base c0 : Z) (a : goc_array) (m : mem) : Prop := {
  hi_wf : wf a m;
  hi_min : 8 <= cap a;
  hi_pay_head : cap a <= 8 * (n + head a) + 6;
  hi_pay_tail : cap a <= 8 * (n + (cap a - head a - len a)) + 6;
  hi_cap : cap a <= c0 + 16 * n;
  hi_total : alloc_total m <= base + 2 * cap a;
  hi_away : ∀ b, P b → away a b ∧ (b < next_blk m)%positive
}.

(** Requests of up to [B] words are granted. *)
Definition serves (B : Z) : Prop :=
  B * 8 < WORD ∧ ∀ n, 0 <= n <= B → gc_grants (n * 8) = true.

Lemma serves_can_grow B n base c0 P a m :
  serves B → 16 * n + 12 <= B → hist P n base c0 a m →
  cap a <= 8 * n + 6 → can_grow a.
Proof.
  intros [HB Hgc] Hn [] Hc. unfold can_grow, grown_cap, GOC_ARRAY_INIT_CAP.
  destruct (Z.ltb_spec (cap a) 8); [lia|]. split; [lia|apply Hgc; lia].
Qed.

Lemma hist_pushed P n base c0 a m xs a' grow h m' :
  hist P n base c0 a m → 12 <= c0 → pushed xs a a' grow h m m' →
  (grow = true → cap a <= 8 * n + 6) →
  cap a' <= 8 * (n + 1 + head a') + 6 →
  cap a' <= 8 * (n + 1 + (cap a' - head a' - len a')) + 6 →
  hist P (n + 1) base c0 a' m' ∧ mem_frame P m m'.
Proof.
  intros [] Hc0 [] Hg H1 H2.
  assert (Hgc : grown_cap (cap a) = 2 * cap a).
  { unfold grown_cap, GOC_ARRAY_INIT_CAP. destruct (Z.ltb_spec (cap a) 8); lia. }
  split.
  - split; try done; try (destruct grow; lia).
    intros b Hb. destruct (hi_away0 b Hb) as [Ha Hlt]. unfold away in *. rewrite pu_data0.
    destruct grow; simpl; split; try done; lia.
  - eapply frame_weaken; [|done]. intros b Hb. by apply hi_away0.
Qed.

(** Popping or overwriting keeps the invariant. *)
Lemma hist_narrow P n base c0 a a' m m' :
  hist P n base c0 a m → wf a' m' → data a' = data a → cap a' = cap a →
  head a <= head a' → head a' + len a' <= head a + len a →
  alloc_total m' = alloc_total m → next_blk m' = next_blk m →
  hist P n base c0 a' m'.
Proof.
  intros [] Hwf Hd Hc Hh Hl Ht Hn. split; try done; try lia.
  unfold away. rewrite Hd, Hn. done.
Qed.

Lemma run_op_step P B n base c0 o a m :
  serves B → 12 <= c0 → 16 * n + 12 <= B → 0 <= n → hist P n base c0 a m →
  match spec_op o (elems a m) with
  | ok (xs, outs) => ∃ a' m', run_op o a m = ok ((a', outs), m') ∧ elems a' m' = xs ∧
                     hist P (n + is_push o) base c0 a' m' ∧ mem_frame P m m'
  | abort msg => run_op o a m = abort msg
  | _ => False
  end.
Proof.
  intros HB Hc0 Hn Hn0 Hh. pose proof Hh as [Hwf Hmin Hph Hpt Hcap Htot Haw].
  pose proof (elems_length a m Hwf) as Hlen. pose proof Hwf as [Hm Hhd Hl Hf Hc Ho Hal Hb].
  destruct o as [v|v| | |i|i v]; simpl.
  - destruct (goc_array_push_ok a m v Hwf) as (a' & m' & Hr & Hp).
    { intros. eapply serves_can_grow; [done..|lia]. }
    exists a', m'. erewrite prog_bind_ok by done. split; [done|].
    split; [apply (pu_elems _ _ _ _ _ _ _ Hp)|]. pose proof Hp as [].
    eapply hist_pushed; [done..| | |]; unfold grown_head, grown_cap, GOC_ARRAY_INIT_CAP in *;
      destruct (Z.leb_spec (cap a) (head a + len a)), (Z.ltb_spec (cap a) 8); try dlia; done.
  - destruct (goc_array_push_head_ok a m v Hwf) as (a' & m' & Hr & Hp); [|lia|].
    { intros. eapply serves_can_grow; [done..|lia]. }
    exists a', m'. erewrite prog_bind_ok by done. split; [done|].
    split; [apply (pu_elems _ _ _ _ _ _ _ Hp)|]. pose proof Hp as [].
    eapply hist_pushed; [done..| | |]; unfold grown_head, grown_cap, GOC_ARRAY_INIT_CAP in *;
      destruct (Z.eqb_spec (head a) 0), (Z.ltb_spec (cap a) 8); try dlia; done.
  - destruct (rev (elems a m)) as [|v r] eqn:Er.
    + apply (f_equal length) in Er. rewrite length_rev in Er. simpl in Er.
      unfold goc_array_pop. replace (len a) with 0 by lia. done.
    + destruct (goc_array_pop_ok a m Hwf) as (v' & Hr & He).
      { apply (f_equal length) in Er. rewrite length_rev in Er. simpl in Er. lia. }
      set (a' := {| data := data a |}) in *.
      rewrite He, rev_app_distr in Er. simpl in Er. injection Er as -> <-.
      exists a', m. erewrite prog_bind_ok by done. rewrite rev_involutive, Z.add_0_r.
      split_and!; [done|done| |apply frame_refl].
      assert (Hl' : 0 < len a) by (rewrite He, length_app in Hlen; simpl in Hlen; lia).
      destruct (wf_sub a m 0 (len a - 1) Hwf) as [Hw' _]; [lia..|]. rewrite Z.add_0_r in Hw'.
      eapply hist_narrow; try done; simpl; lia.
  - destruct (elems a m) as [|v r] eqn:Er.
    + simpl in Hlen. unfold goc_array_pop_head. replace (len a) with 0 by lia. done.
    + simpl in Hlen. destruct (goc_array_pop_head_ok a m Hwf) as (v' & Hr & He); [lia|].
      rewrite Er in He. injection He as <- He.
      eexists _, m. erewrite prog_bind_ok by done. rewrite Z.add_0_r.
      split_and!; [done|done| |apply frame_refl].
      destruct (wf_sub a m 1 (len a - 1) Hwf) as [Hw' _]; [lia..|].
      eapply hist_narrow; try done; simpl; lia.
  - destruct (zget (elems a m) (Z.of_N i)) as [x|] eqn:Ex.
    + apply zget_Some in Ex as [Hi Hx]. exists a, m.
      erewrite prog_bind_ok by (by apply goc_array_get_ok). rewrite Z.add_0_r.
      split_and!; [done|done|done|apply frame_refl].
    + unfold goc_array_get. destruct (Z.leb_spec (len a) (Z.of_N i)); [done|].
      destruct (zget_is_Some (elems a m) (Z.of_N i)); [lia|congruence].
  - destruct (zset (elems a m) (Z.of_N i) v) as [xs|] eqn:Ex.
    + apply zset_Some in Ex as [Hi ->].
      destruct (goc_array_set_ok a m (Z.of_N i) v Hwf) as (m' & Hr & Hx & _); [lia|].
      exists a, m'. erewrite prog_bind_ok by done. rewrite Z.add_0_r. pose proof Hx as [].
      split_and!; [done|done| |].
      * by eapply hist_narrow.
      * eapply frame_weaken; [|done]. intros b Hb'. by apply Haw.
    + unfold goc_array_set. destruct (Z.leb_spec (len a) (Z.of_N i)); [done|].
      rewrite zset_in in Ex by lia. done.
Qed.

Lemma pushes_nonneg ops : 0 <= pushes ops.
Proof. induction ops as [|[] ops IH]; simpl; lia. Qed.

Lemma run_ops_refine P B base c0 ops n a m :
  serves B → 12 <= c0 → 0 <= n → 16 * (n + pushes ops) + 12 <= B → hist P n base c0 a m →
  match spec_ops ops (elems a m) with
  | ok (xs, outs) => ∃ a' m', run_ops ops a m = ok ((a', outs), m') ∧ elems a' m' = xs ∧
                     hist P (n + pushes ops) base c0 a' m' ∧ mem_frame P m m'
  | abort msg => run_ops ops a m = abort msg
  | _ => False
  end.
Proof.
  intros HB Hc0. revert n a m. induction ops as [|o ops IH]; intros n a m Hn Hb Hh; simpl.
  - exists a, m. rewrite Z.add_0_r. split_and!; [done..|apply frame_refl].
  - pose proof (pushes_nonneg ops). simpl in Hb.
    pose proof (run_op_step P B n base c0 o a m HB Hc0) as Hstep.
    assert (0 <= is_push o) by (destruct o; simpl; lia).
    destruct (spec_op o (elems a m)) as [[xs1 out1]|msg| |]; simpl; [| |apply Hstep; solve [done|lia]..].
    + destruct Hstep as (a1 & m1 & Hr1 & <- & Hh1 & Hf1); [solve [done|lia]..|].
      erewrite prog_bind_ok by done. simpl.
      specialize (IH (n + is_push o) a1 m1).
      destruct (spec_ops ops (elems a1 m1)) as [[xs2 out2]|msg| |]; simpl; [| |apply IH; solve [done|lia]..].
      * destruct IH as (a2 & m2 & Hr2 & He2 & Hh2 & Hf2); [lia|lia|done|].
        exists a2, m2. erewrite prog_bind_ok by done. rewrite Z.add_assoc.
        split_and!; [done..|by eapply frame_trans].
      * unfold mbind, prog_bind. by rewrite IH by (done || lia).
    + unfold mbind, prog_bind. by rewrite Hstep by (done || lia).
Qed.

Lemma hist_fresh P m c :
  mem_wf m → 8 <= c → c * 8 < WORD → (∀ b, P b → (b < next_blk m)%positive) →
  hist P 0 (alloc_total m) (Z.max c 12) (fresh_array m (c / 4) 0 c)
       (fresh_mem m (replicate (Z.to_nat c) 0)).
Proof.
  intros Hm Hc Hw HP.
  destruct (fresh_placed m (c / 4) 0 c (replicate (Z.to_nat c) 0)); try done; try dlia.
  { by rewrite length_replicate. }
  split; try done; simpl in *; try dlia.
  intros b Hb%HP. unfold away. simpl. split; [|]; lia.
Qed.

(** *** Isolation: no operation writes outside the array's own block *)

(** [P] is protected from [a] in [m]: allocated blocks, none of them [a]'s. *)
Definition shielded (P : positive → Prop) (a : goc_array) (m : mem) : Prop :=
  ∀ b, P b → away a b ∧ (b < next_blk m)%positive.

(** A step that keeps [P] protected and unchanged. *)
Definition keeps (P : positive → Prop) (a' : goc_array) (m m' : mem) : Prop :=
  shielded P a' m' ∧ mem_frame P m m'.

Lemma goc_new_n_keeps P n m p m' h l c a :
  shielded P a m → goc_new_n n m = ok (p, m') →
  keeps P {| data := p; head := h; len := l; cap := c |} m m'.
Proof.
  unfold goc_new_n, goc_malloc. intros HP. destruct (gc_grants _); [|done].
  intros [= <- <-]. split.
  - intros b Hb. destruct (HP b Hb). unfold away. simpl. split; lia.
  - intros b Hb _. simpl. rewrite lookup_insert_ne; [done|]. destruct (HP b Hb). lia.
Qed.

Lemma store_keeps P a j v m m' u :
  shielded P a m → store (data a) j v m = ok (u, m') →
  mem_frame P m m' ∧ next_blk m' = next_blk m.
Proof.
  unfold store. intros HP. destruct (data a) as [q|] eqn:Ed; [|done].
  destruct (bufs m !! blk q); [|done]. destruct (zset _ _ _); [|done].
  intros [= <- <-]. split; [|done]. apply frame_update. intros Hq.
  destruct (HP _ Hq) as [Ha _]. unfold away in Ha. rewrite Ed in Ha. done.
Qed.

Lemma memcpy_keeps P a i src n m m' u :
  shielded P a m → memcpy_words (ptr_add (data a) i) src n m = ok (u, m') →
  mem_frame P m m' ∧ next_blk m' = next_blk m.
Proof.
  unfold memcpy_words. intros HP. destruct (data a) as [q|] eqn:Ed; [|done].
  destruct src as [s'|]; [|done]. simpl.
  destruct (bufs m !! blk q); [|done]. destruct (bufs m !! blk s'); [|done].
  destruct (zcopy _ _ _ _ _); [|done].
  intros [= <- <-]. split; [|done]. apply frame_update. intros Hq.
  destruct (HP _ Hq) as [Ha _]. unfold away in Ha. rewrite Ed in Ha. done.
Qed.

Lemma array_grow_keeps P a fh m a' m' :
  shielded P a m → array_grow a fh m = ok (a', m') → keeps P a' m m'.
Proof.
  unfold array_grow. intros HP (p & m1 & Hal & Hr)%prog_bind_inv. revert Hr. cbv zeta.
  set (c := if cap a <? _ then _ else _) in *. set (h := if fh then _ else _).
  set (a1 := {| data := p; head := h; len := len a; cap := c |}).
  destruct (goc_new_n_keeps P c m p m1 h (len a) c a HP Hal) as [HP1 HF1].
  intros (u & m2 & Hcp & [= <- <-])%prog_bind_inv. fold a1 in HP1 |- *.
  assert (mem_frame P m1 m2 ∧ next_blk m2 = next_blk m1) as [HF2 Hn].
  { destruct (0 <? len a); [by eapply (memcpy_keeps P a1)|].
    injection Hcp as <- <-. split; [apply frame_refl|done]. }
  split; [|by eapply frame_trans]. intros b Hb. rewrite Hn. by apply HP1.
Qed.

Lemma run_op_keeps P o a m a' outs m' :
  shielded P a m → run_op o a m = ok ((a', outs), m') → keeps P a' m m'.
Proof.
  intros HP. destruct o as [v|v| | |i|i v]; simpl;
    intros (r & m1 & Hop & Hret)%prog_bind_inv; injection Hret as <- <- <-.
  - revert Hop. unfold goc_array_push. intros (a1 & m2 & Hg & Hs)%prog_bind_inv.
    assert (keeps P a1 m m2) as [HP1 HF1].
    { destruct (cap a <=? _); [by eapply array_grow_keeps|].
      injection Hg as <- <-. split; [done|apply frame_refl]. }
    apply prog_bind_inv in Hs as (u & m3 & Hst & [= <- <-]).
    destruct (store_keeps P a1 _ _ _ _ _ HP1 Hst) as [HF2 Hn].
    split; [|by eapply frame_trans]. intros b Hb. rewrite Hn. by apply HP1.
  - revert Hop. unfold goc_array_push_head. intros (a1 & m2 & Hg & Hs)%prog_bind_inv.
    assert (keeps P a1 m m2) as [HP1 HF1].
    { destruct (head a =? 0); [by eapply array_grow_keeps|].
      injection Hg as <- <-. split; [done|apply frame_refl]. }
    apply prog_bind_inv in Hs as (u & m3 & Hst & [= <- <-]).
    destruct (store_keeps P a1 _ _ _ _ _ HP1 Hst) as [HF2 Hn].
    split; [|by eapply frame_trans]. intros b Hb. rewrite Hn. by apply HP1.
  - revert Hop. unfold goc_array_pop. destruct (len a =? 0); [done|].
    intros (v & m2 & Hl & [= <- <-])%prog_bind_inv.
    apply load_inv in Hl as ->. split; [done|apply frame_refl].
  - revert Hop. unfold goc_array_pop_head. destruct (len a =? 0); [done|].
    intros (v & m2 & Hl & [= <- <-])%prog_bind_inv.
    apply load_inv in Hl as ->. split; [done|apply frame_refl].
  - revert Hop. unfold goc_array_get. destruct (len a <=? _); [done|].
    intros Hl. apply load_inv in Hl as ->. split; [done|apply frame_refl].
  - revert Hop. unfold goc_array_set. destruct (len a <=? _); [done|].
    intros Hst. destruct (store_keeps P a _ _ _ _ _ HP Hst) as [HF Hn].
    split; [|done]. intros b Hb. rewrite Hn. by apply HP.
Qed.

Lemma run_ops_keeps P ops a m a' outs m' :
  shielded P a m → run_ops ops a m = ok ((a', outs), m') → keeps P a' m m'.
Proof.
  revert a m outs. induction ops as [|o ops IH]; intros a m outs HP; simpl.
  - intros [= <- <- <-]. split; [done|apply frame_refl].
  - intros ([a1 o1] & m1 & H1 & ([a2 o2] & m2 & H2 & [= <- <- <-])%prog_bind_inv)%prog_bind_inv.
    apply (run_op_keeps P) in H1 as [HP1 HF1]; [|done].
    apply IH in H2 as [HP2 HF2]; [|done]. split; [done|]. by eapply frame_trans.
Qed.
End history.

(** ** Concatenation *)

Lemma memcpy_overrun d o src n m ld :
  bufs m !! d = Some ld → 0 <= n → n * 8 < WORD → Z.of_nat (length ld) < o + n →
  memcpy_words (Some {| blk := d; off := o |}) src n m = ub.
Proof.
  intros Hd Hn Hw Hover. unfold memcpy_words. simpl. destruct src as [s|]; [|done].
  rewrite Hd. destruct (bufs m !! blk s); [|done]. word_simpl. rewrite Z.div_mul by lia.
  unfold zcopy. simpl. rewrite (proj2 (Z.leb_gt (o + n) _)) by lia.
  by rewrite !andb_false_r.
Qed.

Section concat.
Context `{GC}.

Lemma patched_app c h xs ys :
  0 <= h → h + Z.of_nat (length xs) <= c →
  take (Z.to_nat h + length xs) (patched c h xs) ++ ys
    ++ drop (Z.to_nat h + length xs + length ys) (patched c h xs) = patched c h (xs ++ ys).
Proof.
  intros Hh Hf. unfold patched.
  assert (Hl : length (take (Z.to_nat h) (replicate (Z.to_nat c) 0)) = Z.to_nat h).
  { rewrite length_take, length_replicate. lia. }
  set (pre := take _ _) in *. rewrite !(app_assoc pre xs), <- !(app_assoc xs ys).
  rewrite take_app_length' by (rewrite length_app; lia).
  rewrite drop_app_ge by (rewrite length_app; lia).
  rewrite drop_drop, !length_app, Hl, <- !app_assoc. do 4 f_equal. lia.
Qed.

(** The second [memcpy] of [goc_array_concat]. *)
Lemma copy_behind b m c h xs :
  wf b m → 0 <= h → h + Z.of_nat (length xs) + len b <= c →
  (if 0 <? len b
   then memcpy_words (Some {| blk := next_blk m; off := h + Z.of_nat (length xs) |})
                     (ptr_add (data b) (head b)) (len b)
   else mret tt) (fresh_mem m (patched c h xs)) =
  ok (tt, fresh_mem m (patched c h (xs ++ elems b m))).
Proof.
  intros Hwb Hh Hf. pose proof (elems_length b m Hwb) as Hlb.
  pose proof Hwb as [Hm Hhb Hb0 Hfb Hcb Hob Hab Hbb].
  rewrite <- (patched_app c h xs (elems b m)) by lia.
  destruct (Z.ltb_spec 0 (len b)) as [Hpos|Hz].
  - assert (Hbk : backing b (fresh_mem m (patched c h xs)) = backing b m).
    { apply (backing_frame (λ _, True)); [by apply frame_alloc|by destruct (data b)|lia|lia]. }
    rewrite (memcpy_backing b _ _ _ (patched c h xs)); try done; try lia.
    + rewrite Hbk. fold (elems b m). unfold fresh_mem; simpl. rewrite insert_insert_eq.
      replace (Z.to_nat (h + Z.of_nat (length xs) + len b))
        with (Z.to_nat h + length xs + length (elems b m))%nat by lia.
      by replace (Z.to_nat (h + Z.of_nat (length xs))) with (Z.to_nat h + length xs)%nat by lia.
    + apply lookup_insert_eq.
    + rewrite patched_length; lia.
    + rewrite Hbk. lia.
  - destruct (elems b m); simpl in Hlb; [|lia]. rewrite Nat.add_0_r. simpl.
    by rewrite take_drop.
Qed.

Lemma goc_array_concat_small a b m :
  wf a m → wf b m → len a + len b <= 6 → gc_grants 64 = true →
  ∃ out m', goc_array_concat a b m = ok (out, m') ∧
    wf out m' ∧ elems out m' = elems a m ++ elems b m ∧ mem_frame (λ _, True) m m'.
Proof.
  intros Hwa Hwb Hsm Hgc. pose proof (elems_length a m Hwa) as Hla.
  pose proof (elems_length b m Hwb) as Hlb.
  pose proof Hwa as [Hm _ Ha0 _ _ _ _ _]. pose proof (wf_len _ _ Hwb) as Hb0.
  unfold goc_array_concat. cbv zeta.
  rewrite (wrap64_small (len a + len b)) by word_bounds.
  assert (Hmc : make_cap (len a + len b) = 8).
  { unfold make_cap, GOC_ARRAY_INIT_CAP. destruct (Z.ltb_spec (len a + len b) 8); lia. }
  destruct (goc_array_make_ok (len a + len b) m) as [Hmk _]; rewrite ?Hmc; try done; try lia.
  rewrite Hmc in Hmk. erewrite prog_bind_ok by done.
  erewrite prog_bind_ok; [|apply (alloc_and_copy a m 8 2); try done; lia].
  simpl (head _). change (8 / 4) with 2. rewrite (wrap64_small (2 + len a)) by word_bounds.
  pose proof (copy_behind b m 8 2 (elems a m) Hwb) as Hcp.
  replace (Z.of_nat (length (elems a m))) with (len a) in Hcp by lia.
  erewrite prog_bind_ok; [|apply Hcp; lia].
  eexists _, _. split; [done|].
  destruct (fresh_placed m 2 (len a + len b) 8 (patched 8 2 (elems a m ++ elems b m)))
    as [W E D F _ _]; try done; try lia.
  { apply patched_length; rewrite ?length_app; lia. }
  split_and!; [done| |done].
  etransitivity; [exact E|].
  replace (Z.to_nat (len a + len b)) with (length (elems a m ++ elems b m))
    by (rewrite length_app; lia).
  apply patched_window; rewrite ?length_app; lia.
Qed.

Lemma goc_array_concat_overrun a b m :
  wf a m → wf b m → 7 <= len a + len b → (len a + len b) * 8 < WORD →
  (∀ n, gc_grants n = true) →
  goc_array_concat a b m = ub.
Proof.
  intros Hwa Hwb Hbig Hw Hgc.
  pose proof Hwa as [Hm _ Ha0 _ Hca _ _ _]. pose proof Hwb as [_ Hhb Hb0 Hfb Hcb Hob Hab Hbb].
  unfold goc_array_concat. cbv zeta.
  rewrite (wrap64_small (len a + len b)) by word_bounds.
  set (c := make_cap (len a + len b)).
  assert (Hc : 8 <= c ∧ len a + len b <= c ∧ c < c / 4 + (len a + len b) ∧ c * 8 < WORD).
  { unfold c, make_cap, GOC_ARRAY_INIT_CAP, WORD in *.
    destruct (Z.ltb_spec (len a + len b) 8); dlia. }
  destruct (goc_array_make_ok (len a + len b) m) as [Hmk _]; try done; try lia.
  fold c in Hmk. erewrite prog_bind_ok by done.
  destruct (decide (c < c / 4 + len a)) as [Hover|Hfit].
  - apply prog_bind_ub. destruct (Z.ltb_spec 0 (len a)); [|dlia].
    apply (memcpy_overrun (next_blk m) (c / 4) _ _ _ (replicate (Z.to_nat c) 0));
      [apply lookup_insert_eq|lia|word_bounds|rewrite length_replicate; lia].
  - erewrite prog_bind_ok; [|apply (alloc_and_copy a m c (c / 4)); try done; dlia].
    simpl (head _). rewrite (wrap64_small (c / 4 + len a)) by (unfold WORD in *; dlia).
    apply prog_bind_ub. destruct (Z.ltb_spec 0 (len b)); [|dlia].
    apply (memcpy_overrun (next_blk m) (c / 4 + len a) _ _ _ (patched c (c / 4) (elems a m)));
      [apply lookup_insert_eq|lia|word_bounds|].
    rewrite patched_length; rewrite ?elems_length by done; dlia.
Qed.
End concat.

(** ** Properties *)

(** A collector that grants every request, for concrete executions. *)
Definition gc_all : GC := {| gc_grants := λ _, true |}.

(** [make] followed by a history of operations. *)
Definition session `{GC} (c0 : Z) (ops : list deque_op) : prog mem (goc_array * list Z) :=
  a ← goc_array_make c0; run_ops ops a.

Section session_proofs.
Context `{GC}.

Lemma session_refine c0 ops m :
  mem_wf m → 0 <= c0 → serves (Z.max c0 12 + 16 * pushes ops) →
  match spec_ops ops [] with
  | ok (xs, outs) => ∃ a m', session c0 ops m = ok ((a, outs), m') ∧ elems a m' = xs ∧
                     hist (λ b, (b < next_blk m)%positive) (pushes ops) (alloc_total m)
                          (Z.max (make_cap c0) 12) a m' ∧
                     mem_frame (λ b, (b < next_blk m)%positive) m m'
  | abort msg => session c0 ops m = abort msg
  | _ => False
  end.
Proof.
  intros Hm Hc0 Hs. pose proof Hs as [Hw Hgc]. pose proof (pushes_nonneg ops).
  assert (Hmc : 8 <= make_cap c0 <= Z.max c0 12).
  { unfold make_cap, GOC_ARRAY_INIT_CAP. destruct (Z.ltb_spec c0 8); lia. }
  destruct (goc_array_make_ok c0 m) as [Hmk Hpl]; [done|done|lia|apply Hgc; lia|].
  unfold session. erewrite prog_bind_ok by done.
  set (P := λ b, (b < next_blk m)%positive).
  pose proof (run_ops_refine P _ (alloc_total m) (Z.max (make_cap c0) 12) ops 0
    (fresh_array m (make_cap c0 / 4) 0 (make_cap c0))
    (fresh_mem m (replicate (Z.to_nat (make_cap c0)) 0)) Hs) as Hr.
  rewrite (pl_elems _ _ _ _ Hpl), Z.add_0_l in Hr.
  assert (HF : mem_frame P m (fresh_mem m (replicate (Z.to_nat (make_cap c0)) 0)))
    by (by apply frame_alloc).
  destruct (spec_ops ops []) as [[xs outs]|msg| |].
  - destruct Hr as (a & m' & Hr & He & Hh & Hf); [lia|lia|lia|apply hist_fresh; [done|lia|lia|done]|].
    exists a, m'. split_and!; [done..|by eapply frame_trans].
  - apply Hr; [lia|lia|lia|apply hist_fresh; [done|lia|lia|done]].
  - apply Hr; [lia|lia|lia|apply hist_fresh; [done|lia|lia|done]].
  - apply Hr; [lia|lia|lia|apply hist_fresh; [done|lia|lia|done]].
Qed.
End session_proofs.

(** C10: For every history of pushes and pops at both ends, reads and writes on
    an array made by [goc_array_make], the program computes what the sequence
    specification computes: it succeeds with the same returned values and the
    same elements, or aborts with the same message; it never accesses memory
    outside its buffer.  The collector is assumed to serve requests linear in
    the number of pushes. *)
Theorem array_history_refines `{GC} (c0 : Z) (ops : list deque_op) (m : mem) :
  mem_wf m → 0 <= c0 → serves (Z.max c0 12 + 16 * pushes ops) →
  match spec_ops ops [] with
  | ok (xs, outs) =>
      ∃ a m', session c0 ops m = ok ((a, outs), m') ∧ wf a m' ∧ elems a m' = xs
  | abort msg => session c0 ops m = abort msg
  | _ => False
  end.
Proof.
  intros Hm Hc0 Hs. pose proof (session_refine c0 ops m Hm Hc0 Hs) as Hr.
  destruct (spec_ops ops []) as [[xs outs]|msg| |]; [|done..].
  destruct Hr as (a & m' & Hr & He & [] & _). eauto 10.
Qed.

Definition ops_example : list deque_op :=
  [OpPush 1; OpPush 2; OpPushHead 3; OpPop; OpGet 1; OpSet 0 7; OpPopHead; OpPush 5].

Lemma array_history_refines_witness :
  ∃ a m', @session gc_all 0 ops_example mem_empty = ok ((a, [2; 1; 7]), m') ∧
    wf a m' ∧ elems a m' = [1; 5].
Proof.
  apply (@array_history_refines gc_all 0 ops_example mem_empty).
  - apply mem_wf_empty.
  - lia.
  - split; [reflexivity|done].
Defined.

(** Growth is paid for by pushes: after any history with [n] pushes on an
    array made with capacity [c0], the capacity is at most [max(c0,12) + 16 n]
    and all the buffers allocated on the way add up to at most twice that, so
    allocation is amortised constant per push. *)
Theorem array_growth_amortized `{GC} (c0 : Z) (ops : list deque_op) (m : mem) a outs m' :
  mem_wf m → 0 <= c0 → serves (Z.max c0 12 + 16 * pushes ops) →
  session c0 ops m = ok ((a, outs), m') →
  cap a <= Z.max c0 12 + 16 * pushes ops ∧
  alloc_total m' - alloc_total m <= 2 * (Z.max c0 12 + 16 * pushes ops).
Proof.
  intros Hm Hc0 Hs Hrun. pose proof (session_refine c0 ops m Hm Hc0 Hs) as Hr.
  destruct (spec_ops ops []) as [[xs outs']|msg| |]; [|congruence|done..].
  destruct Hr as (a1 & m1 & Hr & _ & [] & _).
  assert (Hmc : Z.max (make_cap c0) 12 <= Z.max c0 12).
  { unfold make_cap, GOC_ARRAY_INIT_CAP. destruct (Z.ltb_spec c0 8); lia. }
  rewrite Hrun in Hr. injection Hr as <- <- <-. lia.
Qed.

Definition session_result : goc_array * list Z * mem :=
  match @session gc_all 0 ops_example mem_empty with
  | ok r => r
  | _ => (fresh_array mem_empty 0 0 0, [], mem_empty)
  end.

Lemma array_growth_amortized_witness :
  cap session_result.1.1 <= Z.max 0 12 + 16 * pushes ops_example ∧
  alloc_total session_result.2 - alloc_total mem_empty
    <= 2 * (Z.max 0 12 + 16 * pushes ops_example).
Proof.
  apply (@array_growth_amortized gc_all 0 ops_example mem_empty _ [2; 1; 7]).
  - apply mem_wf_empty.
  - lia.
  - split; [reflexivity|done].
  - vm_compute. reflexivity.
Defined.

(** [goc_array_push_head] on a full array of seven slots (the shape
    [goc_array_copy] gives a seven-element array) writes before the start of
    the new buffer: growth to eight slots leaves no head room, and the head
    index wraps below zero. *)
Theorem push_head_full7_out_of_bounds `{GC} (arr : goc_array) (m : mem) (v : Z) :
  wf arr m → cap arr = 7 → len arr = 7 → gc_grants 64 = true →
  goc_array_push_head arr v m = ub.
Proof.
  intros Hwf Hc Hl Hgc. pose proof Hwf as [Hm Hh _ Hf _ _ _ _].
  destruct (array_grow_ok arr m true Hwf) as [Hgr Hpl]; rewrite ?Hc; [done..|].
  unfold goc_array_push_head. replace (head arr) with 0 by lia. simpl (0 =? 0).
  erewrite prog_bind_ok by done. apply prog_bind_ub. unfold store. simpl.
  rewrite lookup_insert_eq, Hc, Hl. unfold zset, in_range.
  rewrite patched_length; [done|done|]. rewrite elems_length by done. rewrite Hl. done.
Qed.

Definition mem7 : mem :=
  {| bufs := {[1%positive := [1; 2; 3; 4; 5; 6; 7]]}; next_blk := 2%positive |}.
Definition arr7 : goc_array := goc_array_from (Some {| blk := 1; off := 0 |}) 7.

Lemma mem7_wf : mem_wf mem7.
Proof.
  intros b [x Hx]. cbn [mem7 bufs] in Hx. apply lookup_singleton_Some in Hx as [<- _]. done.
Qed.

Lemma arr7_wf : wf arr7 mem7.
Proof. split; [apply mem7_wf|..]; simpl; done || lia. Qed.

Lemma push_head_full7_out_of_bounds_witness : @goc_array_push_head gc_all arr7 9 mem7 = ub.
Proof. apply push_head_full7_out_of_bounds; [apply arr7_wf|reflexivity..]. Defined.

(** [goc_array_concat] yields the concatenation, in a fresh buffer, when the
    two arrays have at most six elements together; from seven elements on it
    writes past the end of the buffer, because [goc_array_make] reserves a
    quarter of the capacity at the head and the copy starts behind it. *)
Theorem concat_behaviour `{GC} (a b : goc_array) (m : mem) :
  wf a m → wf b m → (len a + len b) * 8 < WORD → (∀ n, gc_grants n = true) →
  if len a + len b <=? 6
  then ∃ out m', goc_array_concat a b m = ok (out, m') ∧ wf out m' ∧
         elems out m' = elems a m ++ elems b m ∧ mem_frame (λ _, True) m m'
  else goc_array_concat a b m = ub.
Proof.
  intros Ha Hb Hw Hgc. destruct (Z.leb_spec (len a + len b) 6).
  - by apply goc_array_concat_small.
  - apply goc_array_concat_overrun; try done. lia.
Qed.

Definition arr3 : goc_array :=
  {| data := Some {| blk := 1; off := 0 |}; head := 2; len := 3; cap := 7 |}.

Lemma arr3_wf : wf arr3 mem7.
Proof. destruct arr7_wf. by split. Qed.

Lemma concat_behaviour_witness :
  (∃ out m', @goc_array_concat gc_all arr3 arr3 mem7 = ok (out, m') ∧ wf out m' ∧
     elems out m' = elems arr3 mem7 ++ elems arr3 mem7 ∧ mem_frame (λ _, True) mem7 m') ∧
  @goc_array_concat gc_all arr3 arr7 mem7 = ub.
Proof.
  split.
  - apply (@concat_behaviour gc_all arr3 arr3 mem7);
      [apply arr3_wf|apply arr3_wf|reflexivity|done].
  - apply (@concat_behaviour gc_all arr3 arr7 mem7);
      [apply arr3_wf|apply arr7_wf|reflexivity|done].
Defined.

(** A copy made by [goc_array_copy] is independent: it has the elements of
    the original in a block of its own, and no history of operations on either
    of the two changes the elements of the other. *)
Theorem copy_isolated `{GC} (arr : goc_array) (m : mem) :
  wf arr m → gc_grants 64 = true → gc_grants (len arr * 8) = true →
  ∃ c m', goc_array_copy arr m = ok (c, m') ∧ wf c m' ∧
    elems c m' = elems arr m ∧ elems arr m' = elems arr m ∧
    (∀ ops c2 outs m2, run_ops ops c m' = ok ((c2, outs), m2) →
       elems arr m2 = elems arr m) ∧
    (∀ ops a2 outs m2, run_ops ops arr m' = ok ((a2, outs), m2) →
       elems c m2 = elems arr m).
Proof.
  intros Hwf Hg0 Hg. destruct (goc_array_copy_ok arr m Hwf Hg0 Hg) as (c & m' & Hr & Hpl & _).
  destruct Hpl as [Hwc He Hd HF Htot Hn]. pose proof (wf_mem _ _ Hwf) as Hm.
  assert (HF' : elems arr m' = elems arr m).
  { eapply elems_frame; [done|by destruct (data arr)|done]. }
  assert (Hwf' : wf arr m').
  { eapply wf_frame; [done|by destruct Hwc|by destruct (data arr)|done]. }
  exists c, m'. split_and!; [done..| |].
  - intros ops c2 outs m2 Hrun. rewrite <- HF'.
    apply (run_ops_keeps (λ b, (b < next_blk m)%positive)) in Hrun as [_ Hk].
    + eapply elems_frame; [done| |done]. pose proof (wf_alloc _ _ Hwf) as Ha.
      destruct (data arr) as [q|]; simpl; [|done]. by apply Hm.
    + intros b Hb. unfold away. rewrite Hd. simpl. split; lia.
  - intros ops a2 outs m2 Hrun. rewrite <- He.
    apply (run_ops_keeps (λ b, b = next_blk m)) in Hrun as [_ Hk].
    + eapply elems_frame; [done| |done]. by rewrite Hd.
    + intros b ->. split; [|lia]. pose proof (wf_alloc _ _ Hwf) as Ha. unfold away.
      destruct (data arr) as [q|]; simpl in *; [|done]. apply Hm in Ha. lia.
Qed.

Lemma copy_isolated_witness :
  ∃ c m', @goc_array_copy gc_all arr3 mem7 = ok (c, m') ∧ wf c m' ∧
    elems c m' = elems arr3 mem7 ∧ elems arr3 m' = elems arr3 mem7 ∧
    (∀ ops c2 outs m2, @run_ops gc_all ops c m' = ok ((c2, outs), m2) →
       elems arr3 m2 = elems arr3 mem7) ∧
    (∀ ops a2 outs m2, @run_ops gc_all ops arr3 m' = ok ((a2, outs), m2) →
       elems c m2 = elems arr3 mem7).
Proof. apply copy_isolated; [apply arr3_wf|reflexivity..]. Defined.

(** A slice shares the buffer of its parent: it denotes the sub-sequence
    [start, end), and a write through the slice is a write to the parent at the
    shifted index and to nothing else. *)
Theorem slice_aliases (arr : goc_array) (m : mem) (start end_ i v : Z) :
  wf arr m → 0 <= start → start <= end_ → end_ <= len arr → 0 <= i < end_ - start →
  ∃ s m', goc_array_slice arr start end_ m = ok (s, m) ∧ wf s m ∧
    elems s m = take (Z.to_nat (end_ - start)) (drop (Z.to_nat start) (elems arr m)) ∧
    goc_array_set s i v m = ok (tt, m') ∧
    elems arr m' = <[Z.to_nat (start + i) := v]> (elems arr m).
Proof.
  intros Hwf H1 H2 H3 Hi. destruct (wf_sub arr m start (end_ - start) Hwf) as [Hws Hes]; [lia..|].
  set (s := {| data := data arr |}) in *.
  destruct (goc_array_set_ok s m i v Hws Hi) as (m' & Hset & _ & Hw).
  exists s, m'. split_and!; [by apply goc_array_slice_ok|done|done|done|].
  pose proof (written_backing _ _ _ _ _ Hw) as Hbk.
  change (backing s) with (backing arr) in Hbk. simpl in Hbk. destruct Hwf.
  unfold elems. rewrite Hbk, <- Z.add_assoc, Z2Nat.inj_add by lia. apply window_insert_in. lia.
Qed.

Lemma slice_aliases_witness :
  ∃ s m', goc_array_slice arr7 2 5 mem7 = ok (s, mem7) ∧ wf s mem7 ∧
    elems s mem7 = take (Z.to_nat (5 - 2)) (drop (Z.to_nat 2) (elems arr7 mem7)) ∧
    goc_array_set s 1 99 mem7 = ok (tt, m') ∧
    elems arr7 m' = <[Z.to_nat (2 + 1) := 99]> (elems arr7 mem7).
Proof. apply slice_aliases; [apply arr7_wf|simpl; lia..]. Defined.

End Array.
