(* ===== verification/Dict.v ===== *)
(** goc_dict (src/goc_dict.c): the insertion-ordered hash dictionary.

    Module [Dict] has one definition per function of the file: open addressing
    with linear probing and tombstones over two parallel tables, and a sidecar
    [goc_array] of key pointers that records insertion order.  A key is a
    [char*]: its address is what the tables hold ([NULL] and the tombstone are
    the addresses 0 and 1) and its contents, which the dictionary hashes and
    compares, are read through the parameter [cstr].  The lemmas establish the
    probe invariant of the table and show that the dictionary is an ordered map
    from strings. *)

From S2P Require Import Prelude Mem Array.
Import Array.

Module Dict.

(** The contents of the C strings in memory: strings handed to a dictionary are
    not modified while they are in it. *)
Class CStrings := { cstr : Z → string }.

(** [struct goc_dict] (src/goc_types.h). *)
Record goc_dict := mk_dict {
  table : list Z;
  table_keys : list Z;
  table_cap : Z;
  occupied : Z;
  keys : goc_array;
  dlen : Z
}.

Definition GOC_DICT_TOMBSTONE : Z := 1.
Definition GOC_DICT_MIN_CAP : Z := 8.

(** The doubling loop of [_goc_dict_round_cap]; [None] when the fuel ends first. *)
Fixpoint round_cap_loop (fuel : nat) (cap requested_cap : Z) : option Z :=
  match fuel with
  | O => None
  | S fuel => if cap <? requested_cap then round_cap_loop fuel (cap *% 2) requested_cap
              else Some cap
  end.

(** 62 doublings reach any size up to [2^63]. *)
Definition _goc_dict_round_cap (requested_cap : Z) : res Z :=
  match round_cap_loop 62 GOC_DICT_MIN_CAP requested_cap with
  | Some cap => ok cap
  | None => hang
  end.

(** FNV-1a over the bytes of the string, masked to the table size. *)
Fixpoint fnv1a (h : Z) (s : string) : Z :=
  match s with
  | EmptyString => h
  | String c s => fnv1a (Z.lxor h (Z.of_N (Ascii.N_of_ascii c)) *% 1099511628211) s
  end.

Definition _goc_dict_hash (s : string) (cap : Z) : Z :=
  Z.land (fnv1a 1469598103934665603 s) (cap -% 1).

Section ops.
Context `{GC, CStrings}.

(** [_goc_dict_alloc_table] and [_goc_dict_alloc_keys]: [cap] zeroed slots. *)
Definition _goc_dict_alloc_table (cap : Z) : prog mem (list Z) :=
  if gc_grants (cap *% 8) then mret (replicate (Z.to_nat cap) 0)
  else ABORT "goc_malloc: allocation failed".

(** The probe loop: linear probing that remembers the first tombstone. *)
Fixpoint probe_loop (fuel : nat) (tk : list Z) (cap : Z) (key : Z)
    (idx first_tombstone : Z) : res Z :=
  match fuel with
  | O => hang
  | S fuel =>
      match zget tk idx with
      | None => ub
      | Some current =>
          let next := Z.land (idx +% 1) (cap -% 1) in
          if current =? 0
          then ok (if first_tombstone =? SIZE_MAX then idx else first_tombstone)
          else if current =? GOC_DICT_TOMBSTONE
          then probe_loop fuel tk cap key next
                 (if first_tombstone =? SIZE_MAX then idx else first_tombstone)
          else if String.eqb (cstr current) (cstr key) then ok idx
          else probe_loop fuel tk cap key next first_tombstone
      end
  end.

(** A table of [cap] slots is exhausted after [cap] probes: a longer run of the
    loop only repeats itself. *)
Definition _goc_dict_probe (d : goc_dict) (key : Z) : res Z :=
  probe_loop (S (length (table_keys d))) (table_keys d) (table_cap d) key
             (_goc_dict_hash (cstr key) (table_cap d)) SIZE_MAX.

(** [while (new_table_keys[dst] != NULL) dst = (dst + 1) & (new_cap - 1);] *)
Fixpoint rehash_slot (fuel : nat) (ntk : list Z) (new_cap dst : Z) : res Z :=
  match fuel with
  | O => hang
  | S fuel =>
      match zget ntk dst with
      | None => ub
      | Some 0 => ok dst
      | Some _ => rehash_slot fuel ntk new_cap (Z.land (dst +% 1) (new_cap -% 1))
      end
  end.

(** The reinsertion loop of [_goc_dict_rehash] over the old slots. *)
Fixpoint rehash_loop (old : list (Z * Z)) (new_cap : Z) (ntk ntv : list Z)
    : res (list Z * list Z) :=
  match old with
  | [] => ok (ntk, ntv)
  | (key, val) :: old =>
      if (key =? 0) || (key =? GOC_DICT_TOMBSTONE) then rehash_loop old new_cap ntk ntv
      else
        dst ← rehash_slot (S (length ntk)) ntk new_cap (_goc_dict_hash (cstr key) new_cap);
        match zset ntk dst key, zset ntv dst val with
        | Some ntk', Some ntv' => rehash_loop old new_cap ntk' ntv'
        | _, _ => ub
        end
  end.

Definition _goc_dict_rehash (d : goc_dict) (new_cap : Z) : prog mem goc_dict :=
  new_table ← _goc_dict_alloc_table new_cap;
  new_table_keys ← _goc_dict_alloc_table new_cap;
  r ← of_res (rehash_loop (zip (table_keys d) (table d)) new_cap new_table_keys new_table);
  mret {| table := r.2; table_keys := r.1; table_cap := new_cap; occupied := dlen d;
          keys := keys d; dlen := dlen d |}.

Definition _goc_dict_make_internal (initial_cap : Z) : prog mem goc_dict :=
  cap ← of_res (_goc_dict_round_cap initial_cap);
  t ← _goc_dict_alloc_table cap;
  tk ← _goc_dict_alloc_table cap;
  ks ← goc_array_make initial_cap;
  mret {| table := t; table_keys := tk; table_cap := cap; occupied := 0; keys := ks; dlen := 0 |}.

Definition _goc_dict_is_live_slot (d : goc_dict) (slot : Z) : prog mem bool :=
  current ← of_option (zget (table_keys d) slot);
  mret (negb (current =? 0) && negb (current =? GOC_DICT_TOMBSTONE)).

Definition goc_dict_make (initial_cap : Z) : prog mem goc_dict :=
  _goc_dict_make_internal initial_cap.

Definition goc_dict_contains (d : goc_dict) (key : Z) : prog mem bool :=
  slot ← of_res (_goc_dict_probe d key);
  current ← of_option (zget (table_keys d) slot);
  mret (negb (current =? 0) && negb (current =? GOC_DICT_TOMBSTONE)).

Definition goc_dict_get (d : goc_dict) (key not_found : Z) : prog mem Z :=
  slot ← of_res (_goc_dict_probe d key);
  current ← of_option (zget (table_keys d) slot);
  if (current =? 0) || (current =? GOC_DICT_TOMBSTONE) then mret not_found
  else of_option (zget (table d) slot).

Definition goc_dict_len (d : goc_dict) : Z := dlen d.

Definition goc_dict_set (d : goc_dict) (key val : Z) : prog mem goc_dict :=
  d ← (if table_cap d *% 3 <? occupied d *% 4
       then _goc_dict_rehash d (table_cap d *% 2) else mret d);
  slot ← of_res (_goc_dict_probe d key);
  current ← of_option (zget (table_keys d) slot);
  tv ← of_option (zset (table d) slot val);
  if negb (current =? 0) && negb (current =? GOC_DICT_TOMBSTONE)
  then mret {| table := tv; table_keys := table_keys d; table_cap := table_cap d;
               occupied := occupied d; keys := keys d; dlen := dlen d |}
  else
    tk ← of_option (zset (table_keys d) slot key);
    ks ← goc_array_push (keys d) key;
    mret {| table := tv; table_keys := tk; table_cap := table_cap d;
            occupied := if current =? 0 then occupied d +% 1 else occupied d;
            keys := ks; dlen := dlen d +% 1 |}.

(** The loop of [goc_dict_pop] that nulls the first occurrence of [current]. *)
Fixpoint null_first (count : nat) (i : Z) (ks : goc_array) (current : Z) : prog mem () :=
  match count with
  | O => mret tt
  | S count =>
      stored_key ← goc_array_get ks i;
      if stored_key =? current then goc_array_set ks i 0
      else null_first count (i + 1) ks current
  end.

Definition goc_dict_pop (d : goc_dict) (key not_found : Z) : prog mem (Z * goc_dict) :=
  slot ← of_res (_goc_dict_probe d key);
  current ← of_option (zget (table_keys d) slot);
  if (current =? 0) || (current =? GOC_DICT_TOMBSTONE) then mret (not_found, d)
  else
    val ← of_option (zget (table d) slot);
    tv ← of_option (zset (table d) slot 0);
    tk ← of_option (zset (table_keys d) slot GOC_DICT_TOMBSTONE);
    null_first (Z.to_nat (goc_array_len (keys d))) 0 (keys d) current;;
    mret (val, {| table := tv; table_keys := tk; table_cap := table_cap d;
                  occupied := occupied d; keys := keys d; dlen := dlen d -% 1 |}).

Definition goc_dict_copy (d : goc_dict) : prog mem goc_dict :=
  c ← _goc_dict_make_internal (table_cap d);
  tv ← of_option (zcopy (table c) 0 (table d) 0 (table_cap d));
  tk ← of_option (zcopy (table_keys c) 0 (table_keys d) 0 (table_cap d));
  ks ← goc_array_copy (keys d);
  mret {| table := tv; table_keys := tk; table_cap := table_cap c;
          occupied := occupied d; keys := ks; dlen := dlen d |}.

(** [goc_dict_set] of each pair in turn, as the bulk constructors do. *)
Fixpoint set_all (d : goc_dict) (kvs : list (Z * Z)) : prog mem goc_dict :=
  match kvs with
  | [] => mret d
  | (k, v) :: kvs => d' ← goc_dict_set d k v; set_all d' kvs
  end.

Definition _goc_dict_of_impl (kvs : list (Z * Z)) : prog mem goc_dict :=
  d ← _goc_dict_make_internal (Z.of_nat (length kvs)); set_all d kvs.

Definition goc_dict_zip_c (ks vs : list Z) : prog mem goc_dict :=
  d ← _goc_dict_make_internal (Z.of_nat (length ks));
  if (length vs <? length ks)%nat then UB else set_all d (zip ks vs).

(** The loop of [_goc_dict_zip_impl] over two arrays of the same length. *)
Fixpoint zip_loop (count : nat) (i : Z) (d : goc_dict) (ks vs : goc_array) : prog mem goc_dict :=
  match count with
  | O => mret d
  | S count =>
      key ← goc_array_get ks i;
      val ← goc_array_get vs i;
      d' ← goc_dict_set d key val;
      zip_loop count (i + 1) d' ks vs
  end.

Definition _goc_dict_zip_impl (ks vs : goc_array) : prog mem goc_dict :=
  let n_keys := goc_array_len ks in
  let n_vals := goc_array_len vs in
  if negb (n_keys =? n_vals) then ABORT "goc_dict_zip: key/value length mismatch"
  else
    d ← _goc_dict_make_internal n_keys;
    zip_loop (Z.to_nat n_keys) 0 d ks vs.

(** The selection loop of [goc_dict_select_c]. *)
Fixpoint select_loop (d result : goc_dict) (ks : list Z) : prog mem goc_dict :=
  match ks with
  | [] => mret result
  | key :: ks =>
      slot ← of_res (_goc_dict_probe d key);
      live ← _goc_dict_is_live_slot d slot;
      if live : bool then
        v ← of_option (zget (table d) slot);
        result' ← goc_dict_set result key v;
        select_loop d result' ks
      else select_loop d result ks
  end.

Definition goc_dict_select_c (d : goc_dict) (ks : list Z) : prog mem goc_dict :=
  result ← _goc_dict_make_internal (table_cap d); select_loop d result ks.

(** The loop over the key array shared by [goc_dict_entries], [goc_dict_keys],
    [goc_dict_vals] and [_goc_dict_merge_many]: [f] is run on each live key and
    its value, in insertion order; nulled keys are skipped. *)
Fixpoint walk {A} (count : nat) (i : Z) (d : goc_dict) (f : Z → Z → A → prog mem A)
    (acc : A) : prog mem A :=
  match count with
  | O => mret acc
  | S count =>
      key ← goc_array_get (keys d) i;
      if key =? 0 then walk count (i + 1) d f acc
      else
        slot ← of_res (_goc_dict_probe d key);
        live ← _goc_dict_is_live_slot d slot;
        if live : bool then
          v ← of_option (zget (table d) slot);
          acc' ← f key v acc;
          walk count (i + 1) d f acc'
        else walk count (i + 1) d f acc
  end.

Definition for_each {A} (d : goc_dict) (f : Z → Z → A → prog mem A) (acc : A) : prog mem A :=
  walk (Z.to_nat (goc_array_len (keys d))) 0 d f acc.

(** [goc_dict_entries]: the entry structs, in the order they are pushed. *)
Definition goc_dict_entries (d : goc_dict) : prog mem (list (Z * Z)) :=
  for_each d (λ k v acc, mret (acc ++ [(k, v)])) [].

Definition goc_dict_keys (d : goc_dict) : prog mem goc_array :=
  a ← goc_array_make (goc_dict_len d);
  for_each d (λ k _ a, goc_array_push a k) a.

Definition goc_dict_vals (d : goc_dict) : prog mem goc_array :=
  a ← goc_array_make (goc_dict_len d);
  for_each d (λ _ v a, goc_array_push a v) a.

Definition goc_dict_from_entries (entries : list (Z * Z)) : prog mem goc_dict :=
  d ← _goc_dict_make_internal (Z.of_nat (length entries)); set_all d entries.

Fixpoint merge_loop (merged : goc_dict) (dicts : list goc_dict) : prog mem goc_dict :=
  match dicts with
  | [] => mret merged
  | source :: dicts =>
      merged' ← for_each source (λ k v d, goc_dict_set d k v) merged;
      merge_loop merged' dicts
  end.

Definition _goc_dict_merge_many (dicts : list goc_dict) : prog mem goc_dict :=
  match dicts with
  | [] => _goc_dict_make_internal 0
  | d0 :: rest => merged ← goc_dict_copy d0; merge_loop merged rest
  end.
End ops.

(** ** Capacities and probe positions *)

Definition good_cap (c : Z) : Prop := ∃ p, 3 <= p <= 60 ∧ c = 2 ^ p.

Lemma good_cap_bounds c : good_cap c → 8 <= c <= 2 ^ 60.
Proof.
  intros (p & Hp & ->). split.
  - change 8 with (2 ^ 3). apply Z.pow_le_mono_r; lia.
  - apply Z.pow_le_mono_r; lia.
Qed.

Lemma good_cap_word c : good_cap c → 8 <= c ∧ c * 16 <= WORD.
Proof. intros H%good_cap_bounds. unfold WORD. lia. Qed.

(** Masking with [cap - 1] is reduction modulo the capacity. *)
Lemma land_mask c x : good_cap c → Z.land x (c -% 1) = x mod c.
Proof.
  intros Hc. pose proof (good_cap_word c Hc). rewrite wrap64_small by word_bounds.
  destruct Hc as (p & Hp & ->).
  replace (2 ^ p - 1) with (Z.ones p) by (rewrite Z.ones_equiv; lia).
  apply Z.land_ones. lia.
Qed.

Section table.
Context `{CStrings}.

Definition live (k : Z) : Prop := k ≠ 0 ∧ k ≠ GOC_DICT_TOMBSTONE.

#[global] Instance live_dec k : Decision (live k).
Proof. unfold live. apply _. Defined.

Definition nonnull (k : Z) : Prop := k ≠ 0.
#[global] Instance nonnull_dec k : Decision (nonnull k).
Proof. unfold nonnull. apply _. Defined.

(** The [j]-th slot probed for the string [s] in a table of [n] slots. *)
Definition probe_pos (n : nat) (s : string) (j : nat) : nat :=
  Z.to_nat ((_goc_dict_hash s (Z.of_nat n) + Z.of_nat j) mod Z.of_nat n).

Lemma probe_pos_lt n s j : (0 < n)%nat → (probe_pos n s j < n)%nat.
Proof. intros. unfold probe_pos. pose proof (Z.mod_pos_bound
  (_goc_dict_hash s (Z.of_nat n) + Z.of_nat j) (Z.of_nat n)). lia. Qed.

Lemma probe_pos_0 n s : good_cap (Z.of_nat n) →
  Z.of_nat (probe_pos n s 0) = _goc_dict_hash s (Z.of_nat n).
Proof.
  intros Hc. pose proof (good_cap_bounds _ Hc). unfold probe_pos, _goc_dict_hash.
  rewrite land_mask by done. rewrite Z.add_0_r, Z.mod_mod by lia.
  pose proof (Z.mod_pos_bound (fnv1a 1469598103934665603 s) (Z.of_nat n)). lia.
Qed.

Lemma probe_pos_next n s j : good_cap (Z.of_nat n) →
  Z.land (Z.of_nat (probe_pos n s j) +% 1) (Z.of_nat n -% 1) = Z.of_nat (probe_pos n s (S j)).
Proof.
  intros Hc. pose proof (good_cap_word _ Hc) as [H8 Hw].
  pose proof (probe_pos_lt n s j). rewrite wrap64_small by word_bounds.
  rewrite land_mask by done. unfold probe_pos.
  rewrite !Z2Nat.id by (apply Z.mod_pos_bound; lia).
  rewrite Z.add_mod_idemp_l by lia. f_equal. lia.
Qed.

(** Every slot is probed within the first [n] steps. *)
Lemma probe_pos_surj n s i : (i < n)%nat → ∃ j, (j < n)%nat ∧ probe_pos n s j = i.
Proof.
  intros Hi. set (h := _goc_dict_hash s (Z.of_nat n)). set (N := Z.of_nat n).
  exists (Z.to_nat ((Z.of_nat i - h) mod N)).
  pose proof (Z.mod_pos_bound (Z.of_nat i - h) N). split; [lia|].
  unfold probe_pos. fold h N. rewrite Z2Nat.id by lia.
  rewrite Z.add_mod_idemp_r by lia. replace (h + (Z.of_nat i - h)) with (Z.of_nat i) by lia.
  rewrite Z.mod_small by lia. lia.
Qed.

(** ** The probe invariant *)

(** [before tk s j]: the first [j] probes for [s] meet no empty slot. *)
Definition before (tk : list Z) (s : string) (j : nat) : Prop :=
  ∀ j', (j' < j)%nat → tk !! probe_pos (length tk) s j' ≠ Some 0.

Record tinv (tk : list Z) : Prop := {
  ti_cap : good_cap (Z.of_nat (length tk));
  ti_reach : ∀ i k, tk !! i = Some k → live k →
    ∃ j, (j < length tk)%nat ∧ i = probe_pos (length tk) (cstr k) j ∧ before tk (cstr k) j;
  ti_uniq : ∀ i i' k k', tk !! i = Some k → tk !! i' = Some k' → live k → live k' →
    cstr k = cstr k' → i = i'
}.

(** The slot of a string, if it is in the table. *)
Definition tfind (tk : list Z) (s : string) : option nat :=
  fst <$> list_find (λ k, live k ∧ cstr k = s) tk.

Lemma tfind_Some tk s i :
  tinv tk → tfind tk s = Some i ↔ ∃ k, tk !! i = Some k ∧ live k ∧ cstr k = s.
Proof.
  intros Ht. unfold tfind. split.
  - intros ([i' k] & Hf & Hi')%fmap_Some. simpl in Hi'. subst i'.
    apply list_find_Some in Hf as (Hi & [? ?] & _). by exists k.
  - intros (k & Hi & Hk & Hs).
    destruct (list_find (λ k, live k ∧ cstr k = s) tk) as [[i' k']|] eqn:Ef.
    + apply list_find_Some in Ef as (Hi' & [? ?] & _). simpl. f_equal.
      eapply (ti_uniq _ Ht); [done|done|done|done|congruence].
    + apply list_find_None in Ef. rewrite Forall_lookup in Ef. by destruct (Ef i k Hi).
Qed.

Lemma tfind_None tk s :
  tfind tk s = None ↔ ∀ i k, tk !! i = Some k → live k → cstr k ≠ s.
Proof.
  unfold tfind. rewrite fmap_None, list_find_None, Forall_lookup. naive_solver.
Qed.

(** A table with an empty slot: the number of probes until the first one. *)
Lemma first_null tk s :
  good_cap (Z.of_nat (length tk)) → (count nonnull tk < length tk)%nat →
  ∃ N, (N < length tk)%nat ∧ tk !! probe_pos (length tk) s N = Some 0 ∧ before tk s N.
Proof.
  intros Hc Hn. apply count_lt_exists in Hn as (i & x & Hi & Hx).
  assert (x = 0) as -> by (unfold nonnull in Hx; lia).
  destruct (probe_pos_surj (length tk) s i) as (j & Hj & <-); [by eapply lookup_lt_Some|].
  destruct (least_witness (λ j, tk !! probe_pos (length tk) s j = Some 0) j Hi)
    as (N & ? & ? & Hb).
  exists N. split_and!; [lia|done|]. exact Hb.
Qed.
(** ** The probe sequence *)

(** A slot where [s] may be stored: free, and reached through full slots. *)
Definition insertable (tk : list Z) (s : string) (i : nat) : Prop :=
  ∃ j x, (j < length tk)%nat ∧ i = probe_pos (length tk) s j ∧ before tk s j ∧
    tk !! i = Some x ∧ ¬ live x.

Definition tombstone_seen (tk : list Z) (s : string) (ft : Z) : Prop :=
  ft = SIZE_MAX ∨ ∃ i, ft = Z.of_nat i ∧ insertable tk s i.

Definition unmatched (tk : list Z) (s : string) (j : nat) : Prop :=
  ∀ j' k, (j' < j)%nat → tk !! probe_pos (length tk) s j' = Some k → ¬ (live k ∧ cstr k = s).

Lemma unmatched_None tk s N :
  tinv tk → tk !! probe_pos (length tk) s N = Some 0 → unmatched tk s N → tfind tk s = None.
Proof.
  intros Ht HN Hu. apply tfind_None. intros i k Hi Hk Hs.
  destruct (ti_reach _ Ht i k Hi Hk) as (j & Hj & -> & Hb). rewrite Hs in *.
  destruct (decide (j < N)%nat) as [Hlt|Hge]; [by apply (Hu j k)|].
  destruct (decide (j = N)) as [->|Hne]; [destruct Hk; congruence|].
  by apply (Hb N); [lia|].
Qed.

Lemma SIZE_MAX_eqb (tk : list Z) i : good_cap (Z.of_nat (length tk)) → (i < length tk)%nat →
  (Z.of_nat i =? SIZE_MAX) = false.
Proof. intros [_ ?]%good_cap_word ?. apply Z.eqb_neq. word_bounds. Qed.

Lemma tombstone_seen_pick tk s ft j x :
  tinv tk → tombstone_seen tk s ft → (j < length tk)%nat → before tk s j →
  tk !! probe_pos (length tk) s j = Some x → ¬ live x →
  ∃ i, (if ft =? SIZE_MAX then Z.of_nat (probe_pos (length tk) s j) else ft) = Z.of_nat i ∧
    insertable tk s i.
Proof.
  intros Ht [->|(i & -> & Hi)] Hj Hb Hx Hl.
  - exists (probe_pos (length tk) s j). split; [done|]. by exists j, x.
  - exists i. split; [|done]. pose proof Hi as (j' & x' & ? & -> & ? & Hx' & ?).
    erewrite SIZE_MAX_eqb; [done|apply (ti_cap _ Ht)|by eapply lookup_lt_Some].
Qed.

Lemma probe_loop_spec tk key N :
  let s := cstr key in
  tinv tk → (N < length tk)%nat →
  tk !! probe_pos (length tk) s N = Some 0 → before tk s N →
  ∀ fuel j ft, (j <= N < j + fuel)%nat → unmatched tk s j → tombstone_seen tk s ft →
  ∃ i, probe_loop fuel tk (Z.of_nat (length tk)) key
         (Z.of_nat (probe_pos (length tk) s j)) ft = ok (Z.of_nat i) ∧
    (if tfind tk s is Some i' then i = i' else insertable tk s i).
Proof.
  intros s Ht HN Hnull Hb fuel. induction fuel as [|fuel IH]; intros j ft Hj Hu Hft; [lia|].
  pose proof (ti_cap _ Ht) as Hc.
  assert (Hlt : (probe_pos (length tk) s j < length tk)%nat) by (apply probe_pos_lt; lia).
  destruct (lookup_lt_is_Some_2 _ _ Hlt) as [x Hx]. simpl.
  rewrite zget_in, Nat2Z.id, Hx by lia.
  assert (Hbj : before tk s j) by (intros j' ?; apply Hb; lia).
  destruct (Z.eqb_spec x 0) as [->|Hx0].
  { destruct (tombstone_seen_pick tk s ft j 0) as (i & Hi & Hins); try done; [lia|by intros []|].
    exists i. split; [by rewrite Hi|]. rewrite (unmatched_None tk s j); done. }
  assert (HjN : j ≠ N) by (intros ->; congruence).
  rewrite (probe_pos_next (length tk) s j Hc).
  destruct (Z.eqb_spec x GOC_DICT_TOMBSTONE) as [->|Hx1].
  - destruct (tombstone_seen_pick tk s ft j 1) as (i & Hi & Hins); try done; [lia|by intros []|].
    rewrite Hi. apply IH; [lia| |right; eauto].
    intros j' k ? Hk. destruct (decide (j' = j)) as [->|]; [|apply (Hu j'); [lia|done]].
    simplify_eq. by intros [[_ []] _].
  - fold s. destruct (String.eqb_spec (cstr x) s) as [Hs|Hs].
    + exists (probe_pos (length tk) s j). split; [done|].
      rewrite (proj2 (tfind_Some tk s (probe_pos (length tk) s j) Ht)); [done|]. by exists x.
    + apply IH; [lia| |done].
      intros j' k ? Hk. destruct (decide (j' = j)) as [->|]; [|apply (Hu j'); [lia|done]].
      simplify_eq. by intros [_ ?].
Qed.

(** With a free slot left the probe terminates: on the slot of the string, or on
    one where it may be stored. *)
Lemma probe_ok d key :
  tinv (table_keys d) → table_cap d = Z.of_nat (length (table_keys d)) →
  (count nonnull (table_keys d) < length (table_keys d))%nat →
  ∃ i, _goc_dict_probe d key = ok (Z.of_nat i) ∧
    (if tfind (table_keys d) (cstr key) is Some i' then i = i'
     else insertable (table_keys d) (cstr key) i).
Proof.
  intros Ht Hcap Hn. pose proof (ti_cap _ Ht) as Hc.
  destruct (first_null (table_keys d) (cstr key) Hc Hn) as (N & HN & Hnull & Hb).
  unfold _goc_dict_probe. rewrite Hcap, <- probe_pos_0 by done.
  apply (probe_loop_spec _ key N); try done; [lia|intros j' k ?; lia|by left].
Qed.
(** ** Updates of the table *)

Lemma before_insert tk s j i x :
  x ≠ 0 → before tk s j → before (<[i:=x]> tk) s j.
Proof.
  intros Hx Hb j' Hj'. rewrite length_insert, list_lookup_insert.
  case_decide; [congruence|]. by apply Hb.
Qed.

(** Storing a new key where the probe says keeps the invariant. *)
Lemma tinv_insert tk i k :
  tinv tk → live k → tfind tk (cstr k) = None → insertable tk (cstr k) i →
  tinv (<[i:=k]> tk).
Proof.
  intros Ht Hk Hf (j & x & Hj & -> & Hb & Hx & Hnl). rewrite tfind_None in Hf.
  pose proof Ht as [Hc Hr Hu]. split; rewrite ?length_insert; [done|..].
  - intros i' k'. rewrite list_lookup_insert. case_decide as Hi.
    + intros [= <-] _. destruct Hi as [<- _]. exists j. split_and!; [done|done|].
      apply before_insert; [apply Hk|done].
    + intros Hi' Hk'. destruct (Hr _ _ Hi' Hk') as (j' & ? & ? & ?). exists j'.
      split_and!; [done|done|]. apply before_insert; [apply Hk|done].
  - intros i1 i2 k1 k2. rewrite !list_lookup_insert.
    repeat case_decide; intros; simplify_eq; destruct_and?; subst; try done.
    + by destruct (Hf i2 k2).
    + by destruct (Hf i1 k1).
    + by eapply Hu.
Qed.

(** A deleted key leaves a tombstone, over which the other probes still run. *)
Lemma tinv_tombstone tk i : tinv tk → tinv (<[i:=GOC_DICT_TOMBSTONE]> tk).
Proof.
  intros Ht. pose proof Ht as [Hc Hr Hu]. split; rewrite ?length_insert; [done|..].
  - intros i' k'. rewrite list_lookup_insert. case_decide as Hi.
    + intros [= <-] [_ []]. done.
    + intros Hi' Hk'. destruct (Hr _ _ Hi' Hk') as (j' & ? & ? & ?). exists j'.
      split_and!; [done|done|]. by apply before_insert.
  - intros i1 i2 k1 k2. rewrite !list_lookup_insert. unfold live.
    repeat case_decide; intros; simplify_eq; destruct_and?; try done. eapply Hu; done.
Qed.

Lemma tinv_empty n : good_cap (Z.of_nat n) → tinv (replicate n 0).
Proof.
  intros Hc. split; rewrite ?length_replicate; [done|..].
  - intros i k [-> _]%lookup_replicate [[] _]. done.
  - intros i i' k k' [-> _]%lookup_replicate _ [[] _]. done.
Qed.

(** The bindings: the value stored beside the key of a string. *)
Definition tget (tk tv : list Z) (s : string) : option Z :=
  tfind tk s ≫= λ i, tv !! i.

Lemma tfind_insert tk i k s :
  tinv tk → tinv (<[i:=k]> tk) → live k → (i < length tk)%nat →
  tfind tk (cstr k) = None → (∀ x, tk !! i = Some x → ¬ live x) →
  tfind (<[i:=k]> tk) s = if decide (s = cstr k) then Some i else tfind tk s.
Proof.
  intros Ht Ht' Hk Hi Hf Hnl. case_decide as Hs.
  - apply tfind_Some; [done|]. exists k. by rewrite list_lookup_insert_eq.
  - destruct (tfind tk s) as [i'|] eqn:E.
    + apply tfind_Some in E as (k' & Hk' & ? & <-); [|done]. apply tfind_Some; [done|].
      exists k'. rewrite list_lookup_insert_ne; [done|]. intros ->. by destruct (Hnl k').
    + apply tfind_None. rewrite tfind_None in E. intros i' k'. rewrite list_lookup_insert.
      case_decide; [intros [= <-]; by intros _ ?|apply E].
Qed.

Lemma tfind_delete tk i k s :
  tinv tk → tk !! i = Some k → live k →
  tfind (<[i:=GOC_DICT_TOMBSTONE]> tk) s = if decide (s = cstr k) then None else tfind tk s.
Proof.
  intros Ht Hi Hk. pose proof (tinv_tombstone tk i Ht) as Ht'. case_decide as Hs.
  - apply tfind_None. intros i' k'. rewrite list_lookup_insert.
    case_decide as Hd; [intros [= <-] [_ []]; done|]. intros Hi' Hk' Hs'. apply Hd.
    split; [|by eapply lookup_lt_Some]. eapply (ti_uniq _ Ht); try done. congruence.
  - destruct (tfind tk s) as [i'|] eqn:E.
    + apply tfind_Some in E as (k' & Hk' & ? & <-); [|done]. apply tfind_Some; [done|].
      exists k'. rewrite list_lookup_insert_ne; [done|]. intros ->. congruence.
    + apply tfind_None. rewrite tfind_None in E. intros i' k'. rewrite list_lookup_insert.
      case_decide; [intros [= <-]; by intros [_ []]|apply E].
Qed.
(** ** Bindings: the live slots as key/value pairs *)

Definition live_pair (kv : Z * Z) : Prop := live kv.1.
#[global] Instance live_pair_dec kv : Decision (live_pair kv).
Proof. unfold live_pair. apply _. Defined.

Definition pairs (tk tv : list Z) : list (Z * Z) := filter live_pair (zip tk tv).

Definition pair_if (k v : Z) : list (Z * Z) := if decide (live k) then [(k, v)] else [].

Lemma pairs_insert tk tv i k v k0 v0 :
  tk !! i = Some k0 → tv !! i = Some v0 →
  pair_if k0 v0 ++ pairs (<[i:=k]> tk) (<[i:=v]> tv) ≡ₚ pair_if k v ++ pairs tk tv.
Proof.
  intros Hk Hv. unfold pairs. rewrite <- insert_zip_with.
  assert (Hz : zip tk tv !! i = Some (k0, v0)) by (rewrite lookup_zip_with, Hk; simpl; by rewrite Hv).
  rewrite insert_take_drop by (by eapply lookup_lt_Some).
  rewrite <- (take_drop_middle (zip tk tv) i _ Hz) at 3.
  rewrite !filter_app, !filter_cons. unfold live_pair, pair_if. simpl.
  repeat case_decide; simpl; try done; try apply Permutation_middle;
    try (symmetry; apply Permutation_middle).
  by rewrite <- !Permutation_middle, (Permutation_swap (k, v)).
Qed.

Lemma elem_of_pairs tk tv k v :
  length tv = length tk →
  (k, v) ∈ pairs tk tv ↔ live k ∧ ∃ i, tk !! i = Some k ∧ tv !! i = Some v.
Proof.
  intros Hl. unfold pairs. rewrite list_elem_of_filter, list_elem_of_lookup.
  unfold live_pair. simpl. f_equiv. f_equiv. intros i. rewrite lookup_zip_with_Some. naive_solver.
Qed.

Lemma tfind_pairs tk tv s i v :
  tinv tk → length tv = length tk → tfind tk s = Some i → tv !! i = Some v →
  ∃ k, tk !! i = Some k ∧ cstr k = s ∧ (k, v) ∈ pairs tk tv.
Proof.
  intros Ht Hl (k & ? & ? & ?)%tfind_Some Hv; [|done].
  exists k. rewrite elem_of_pairs by done. eauto 10.
Qed.

Lemma pairs_keys tk tv : length tv = length tk → (pairs tk tv).*1 = filter live tk.
Proof.
  revert tv. induction tk as [|k tk IH]; intros [|v tv]; simpl; try done.
  intros [= Hl]. unfold pairs. simpl. rewrite !filter_cons. unfold live_pair at 1. simpl.
  repeat case_decide; simpl; try done; [f_equal|]; by apply IH.
Qed.

Lemma filter_live_NoDup tk : tinv tk → NoDup (cstr <$> filter live tk).
Proof.
  intros [_ _ Hu]. revert Hu. induction tk as [|k tk IH]; intros Hu; [constructor|].
  assert (IH' : NoDup (cstr <$> filter live tk)).
  { apply IH. intros i i' k1 k2 H1 H2 ? ? ?.
    pose proof (Hu (S i) (S i') k1 k2 H1 H2). naive_solver. }
  rewrite filter_cons. case_decide; [|done]. constructor; [|done].
  intros (k' & Heq & Hk')%list_elem_of_fmap. apply list_elem_of_filter in Hk' as [? [i Hi]%list_elem_of_lookup].
  assert (0%nat = S i) by (by eapply (Hu 0%nat (S i) k k')). done.
Qed.

Lemma pairs_NoDup tk tv : tinv tk → length tv = length tk → NoDup (cstr <$> (pairs tk tv).*1).
Proof. intros. rewrite pairs_keys by done. by apply filter_live_NoDup. Qed.

(** ** Rehashing *)

Lemma rehash_slot_spec tk s N :
  good_cap (Z.of_nat (length tk)) → (N < length tk)%nat →
  tk !! probe_pos (length tk) s N = Some 0 → before tk s N →
  ∀ fuel j, (j <= N < j + fuel)%nat →
  rehash_slot fuel tk (Z.of_nat (length tk)) (Z.of_nat (probe_pos (length tk) s j))
  = ok (Z.of_nat (probe_pos (length tk) s N)).
Proof.
  intros Hc HN Hnull Hb fuel. induction fuel as [|fuel IH]; intros j Hj; [lia|].
  assert (Hlt : (probe_pos (length tk) s j < length tk)%nat) by (apply probe_pos_lt; lia).
  destruct (lookup_lt_is_Some_2 _ _ Hlt) as [x Hx]. simpl.
  rewrite zget_in, Nat2Z.id, Hx by lia.
  destruct (decide (j = N)) as [->|HjN]; [by simplify_eq|].
  assert (x ≠ 0) by (intros ->; apply (Hb j); [lia|done]).
  destruct x; [done|rewrite (probe_pos_next (length tk) s j Hc); apply IH; lia..].
Qed.

Definition live_or_null (tk : list Z) : Prop := Forall (λ k, k ≠ GOC_DICT_TOMBSTONE) tk.

Lemma live_or_null_count tk tv : length tv = length tk → live_or_null tk →
  count nonnull tk = length (pairs tk tv).
Proof.
  intros Hl Hn. rewrite <- (length_fmap fst), pairs_keys by done. unfold count. f_equal.
  clear Hl. induction Hn as [|k tk Hk _ IH]; [done|].
  rewrite !filter_cons, IH. unfold live, nonnull. repeat case_decide; naive_solver.
Qed.
Lemma filter_live_cons k v l : filter live_pair ((k, v) :: l) = pair_if k v ++ filter live_pair l.
Proof. unfold pair_if. rewrite filter_cons. change (live_pair (k, v)) with (live k). by repeat case_decide. Qed.

Lemma rehash_loop_ok old : ∀ ntk ntv,
  tinv ntk → length ntv = length ntk → live_or_null ntk →
  NoDup (cstr <$> (pairs ntk ntv ++ filter live_pair old).*1) →
  (length (pairs ntk ntv ++ filter live_pair old) < length ntk)%nat →
  ∃ tk tv, rehash_loop old (Z.of_nat (length ntk)) ntk ntv = ok (tk, tv) ∧
    tinv tk ∧ live_or_null tk ∧ length tk = length ntk ∧ length tv = length ntk ∧
    pairs tk tv ≡ₚ pairs ntk ntv ++ filter live_pair old.
Proof.
  induction old as [|[k v] old IH]; intros ntk ntv Ht Hl Hn Hnd Hlen.
  { exists ntk, ntv. rewrite app_nil_r. by split_and!. }
  rewrite filter_live_cons in *. unfold pair_if in *. cbn [rehash_loop]. rewrite length_app in Hlen.
  destruct (decide (live k)) as [Hk|Hk].
  2:{ replace ((k =? 0) || (k =? GOC_DICT_TOMBSTONE)) with true;
        [apply IH; try done; rewrite length_app; done|].
      unfold live in Hk. symmetry. apply orb_true_iff. rewrite !Z.eqb_eq. lia. }
  replace ((k =? 0) || (k =? GOC_DICT_TOMBSTONE)) with false.
  2:{ destruct Hk. symmetry. apply orb_false_iff. by rewrite !Z.eqb_neq. }
  simpl in Hlen. pose proof (ti_cap _ Ht) as Hc.
  destruct (first_null ntk (cstr k) Hc) as (N & HN & Hnull & Hb).
  { rewrite (live_or_null_count ntk ntv) by done. lia. }
  rewrite <- probe_pos_0 by done.
  rewrite (rehash_slot_spec ntk (cstr k) N) by (done || lia). simpl.
  set (i := probe_pos (length ntk) (cstr k) N) in *.
  assert (Hi : (i < length ntk)%nat) by (by eapply lookup_lt_Some).
  rewrite !zset_in by lia. rewrite Nat2Z.id.
  destruct (lookup_lt_is_Some_2 ntv i) as [v0 Hv0]; [lia|].
  pose proof (pairs_insert ntk ntv i k v 0 v0 Hnull Hv0) as Hp.
  unfold pair_if in Hp. rewrite (decide_True (P := live k)) in Hp by done.
  rewrite (decide_False (P := live 0)) in Hp by (by intros []). simpl in Hp.
  assert (Hfresh : tfind ntk (cstr k) = None).
  { apply tfind_None. intros i' k' Hi' Hk' Hs.
    destruct (lookup_lt_is_Some_2 ntv i') as [v' Hv']; [rewrite Hl; by eapply lookup_lt_Some|].
    assert ((k', v') ∈ pairs ntk ntv) as Hin by (rewrite elem_of_pairs by done; eauto).
    rewrite fmap_app, fmap_app in Hnd. apply NoDup_app in Hnd as (_ & Hd & _).
    apply (Hd (cstr k)); [|simpl; constructor]. rewrite <- Hs.
    apply (list_elem_of_fmap_2 cstr), (list_elem_of_fmap_2 fst _ _ Hin). }
  assert (Hmid : pairs ntk ntv ++ [(k, v)] ++ filter live_pair old
                 ≡ₚ ((k, v) :: pairs ntk ntv) ++ filter live_pair old)
    by (simpl; by rewrite <- Permutation_middle).
  destruct (IH (<[i:=k]> ntk) (<[i:=v]> ntv)) as (tk & tv & Hr & ? & ? & ? & ? & Hperm).
  - apply tinv_insert; try done. exists N, 0. split_and!; try done. by intros [].
  - by rewrite !length_insert.
  - apply Forall_insert; [done|]. apply Hk.
  - by rewrite Hp, <- Hmid.
  - rewrite length_app, length_insert, Hp. simpl. lia.
  - rewrite length_insert in *. exists tk, tv. split_and!; try done.
    by rewrite Hperm, Hp, <- Hmid.
Qed.
(** ** The specification: an ordered map from strings

    A dictionary stands for the list of its entries in insertion order: the key
    pointer given when the entry was created, and the current value. *)

Definition afind (l : list (Z * Z)) (s : string) : option (Z * Z) :=
  snd <$> list_find (λ kv, cstr kv.1 = s) l.

Definition aset (l : list (Z * Z)) (key val : Z) : list (Z * Z) :=
  if afind l (cstr key) is Some _
  then (λ kv, if decide (cstr kv.1 = cstr key) then (kv.1, val) else kv) <$> l
  else l ++ [(key, val)].

Definition apop (l : list (Z * Z)) (s : string) : list (Z * Z) :=
  filter (λ kv, cstr kv.1 ≠ s) l.

Definition adistinct (l : list (Z * Z)) : Prop := NoDup (cstr <$> l.*1).

Lemma adistinct_cons k v l :
  adistinct ((k, v) :: l) ↔ (∀ kv, kv ∈ l → cstr kv.1 ≠ cstr k) ∧ adistinct l.
Proof.
  unfold adistinct. rewrite !fmap_cons, NoDup_cons, <- list_fmap_compose. f_equiv.
  rewrite list_elem_of_fmap. unfold compose. naive_solver.
Qed.

Lemma afind_Some l s k v : adistinct l → afind l s = Some (k, v) ↔ (k, v) ∈ l ∧ cstr k = s.
Proof.
  unfold afind. induction l as [|[k0 v0] l IH]; intros Hd.
  { split; [done|]. intros [[]%not_elem_of_nil _]. }
  apply adistinct_cons in Hd as [Hne Hd]. specialize (IH Hd). simpl.
  case_decide as Hs; simpl in Hs.
  - simpl. split; [intros [= <- <-]; split; [constructor|done]|].
    intros [[[= <- <-]|Hin]%elem_of_cons Hk]; [done|]. apply Hne in Hin. simpl in Hin. congruence.
  - rewrite <- option_fmap_compose, elem_of_cons.
    assert (Hc : snd ∘ prod_map S id = (snd : nat * (Z * Z) → Z * Z)) by done. rewrite Hc, IH.
    naive_solver.
Qed.

Lemma afind_None l s : afind l s = None ↔ ∀ kv, kv ∈ l → cstr kv.1 ≠ s.
Proof. unfold afind. by rewrite fmap_None, list_find_None, Forall_forall. Qed.

Lemma adistinct_perm l l' : l ≡ₚ l' → adistinct l → adistinct l'.
Proof. unfold adistinct. intros Hp. by rewrite Hp. Qed.

Lemma aset_update_perm l k v0 v R :
  adistinct l → l ≡ₚ (k, v0) :: R →
  (λ kv, if decide (cstr kv.1 = cstr k) then (kv.1, v) else kv) <$> l ≡ₚ (k, v) :: R.
Proof.
  intros Hd Hp. rewrite Hp. simpl. rewrite decide_True by done. constructor.
  apply (adistinct_perm _ _ Hp), adistinct_cons in Hd as [Hne _]. clear Hp.
  induction R as [|[k' v'] R IH]; [done|]. simpl. rewrite decide_False.
  - constructor. apply IH. intros kv ?. apply Hne. by constructor.
  - apply (Hne (k', v')). constructor.
Qed.

Lemma update_keys s val (l : list (Z * Z)) :
  ((λ kv, if decide (cstr kv.1 = s) then (kv.1, val) else kv) <$> l).*1 = l.*1.
Proof.
  rewrite <- list_fmap_compose. apply list_fmap_ext. intros i kv _. simpl. by case_decide.
Qed.

Lemma apop_fresh l k : (∀ kv, kv ∈ l → cstr kv.1 ≠ cstr k) → apop l (cstr k) = l.
Proof.
  intros Hne. unfold apop. induction l as [|kv l IH]; [done|].
  rewrite filter_cons_True by (apply Hne; constructor). f_equal.
  apply IH. intros; apply Hne; by constructor.
Qed.

Lemma apop_cons k v l :
  adistinct ((k, v) :: l) → apop ((k, v) :: l) (cstr k) = l.
Proof.
  intros [Hne _]%adistinct_cons. unfold apop. rewrite filter_cons_False by (simpl; by intros []).
  by apply apop_fresh.
Qed.

Lemma apop_middle k v l1 l2 :
  adistinct (l1 ++ (k, v) :: l2) → apop (l1 ++ (k, v) :: l2) (cstr k) = l1 ++ l2.
Proof.
  intros Hd. apply (adistinct_perm _ ((k, v) :: l1 ++ l2)) in Hd; [|by rewrite <- Permutation_middle].
  apply adistinct_cons in Hd as [Hne _]. unfold apop. rewrite filter_app, filter_cons_False by (simpl; by intros []).
  pose proof (apop_fresh l1 k) as H1. pose proof (apop_fresh l2 k) as H2. unfold apop in *.
  rewrite H1, H2; [done|..]; intros; apply Hne, elem_of_app; auto.
Qed.

(** The tables of [d] hold the entries [l]. *)
Record trep (d : goc_dict) (l : list (Z * Z)) : Prop := {
  tr_inv : tinv (table_keys d);
  tr_len : length (table d) = length (table_keys d);
  tr_cap : table_cap d = Z.of_nat (length (table_keys d));
  tr_occ : occupied d = Z.of_nat (count nonnull (table_keys d));
  tr_load : 4 * occupied d <= 3 * table_cap d + 4;
  tr_dlen : dlen d = Z.of_nat (length l);
  tr_pairs : pairs (table_keys d) (table d) ≡ₚ l
}.

Lemma trep_distinct d l : trep d l → adistinct l.
Proof.
  intros [Ht Hl _ _ _ _ Hp]. eapply adistinct_perm; [done|]. by apply pairs_NoDup.
Qed.

(** What a probe of a well-formed dictionary finds. *)
Record probed (d : goc_dict) (l : list (Z * Z)) (key : Z) (i : nat) (k v : Z) : Prop := {
  pr_slot : _goc_dict_probe d key = ok (Z.of_nat i);
  pr_lt : (i < length (table_keys d))%nat;
  pr_key : table_keys d !! i = Some k;
  pr_val : table d !! i = Some v;
  pr_find : afind l (cstr key) = if decide (live k) then Some (k, v) else None;
  pr_same : live k → cstr k = cstr key;
  pr_free : ¬ live k → tfind (table_keys d) (cstr key) = None ∧
                       insertable (table_keys d) (cstr key) i
}.

Lemma trep_room d l : trep d l → (count nonnull (table_keys d) < length (table_keys d))%nat.
Proof. intros [Ht]. pose proof (good_cap_bounds _ (ti_cap _ Ht)). lia. Qed.

Lemma trep_probe d l key : trep d l → ∃ i k v, probed d l key i k v.
Proof.
  intros Hr. pose proof (trep_room d l Hr) as Hroom. pose proof (trep_distinct d l Hr) as Hd.
  pose proof Hr as [Ht Hlen Hcap Hocc Hload Hdl Hp].
  destruct (probe_ok d key Ht Hcap Hroom) as (i & Hi & Hcase).
  destruct (tfind (table_keys d) (cstr key)) as [i'|] eqn:E.
  - subst i'. pose proof E as (k & Hk & Hlive & Hs)%tfind_Some; [|done].
    pose proof (lookup_lt_Some _ _ _ Hk).
    destruct (lookup_lt_is_Some_2 (table d) i) as [v Hv]; [lia|]. exists i, k, v.
    split; try done. rewrite decide_True by done. apply afind_Some; [done|].
    split; [|done]. rewrite <- Hp. apply elem_of_pairs; eauto.
  - pose proof Hcase as (j & k & Hj & Hi' & Hb & Hk & Hnl).
    pose proof (lookup_lt_Some _ _ _ Hk).
    destruct (lookup_lt_is_Some_2 (table d) i) as [v Hv]; [lia|]. exists i, k, v.
    split; try done. rewrite decide_False by done. apply afind_None.
    intros [k' v']. rewrite <- Hp. intros [Hl' (i' & Hk' & _)]%elem_of_pairs; [|done].
    rewrite tfind_None in E. by apply (E i' k').
Qed.
Lemma live_test k :
  negb (k =? 0) && negb (k =? GOC_DICT_TOMBSTONE) = bool_decide (live k).
Proof.
  unfold live, GOC_DICT_TOMBSTONE. case_bool_decide as Hk;
    destruct (Z.eqb_spec k 0), (Z.eqb_spec k 1); simpl; try done; lia.
Qed.

Lemma dead_test k : (k =? 0) || (k =? GOC_DICT_TOMBSTONE) = negb (bool_decide (live k)).
Proof. rewrite <- live_test. by destruct (k =? 0), (k =? GOC_DICT_TOMBSTONE). Qed.

(** *** Tables after an insertion, an update and a deletion *)

Definition with_tables (d : goc_dict) tk tv occ n : goc_dict :=
  {| table := tv; table_keys := tk; table_cap := table_cap d; occupied := occ;
     keys := keys d; dlen := n |}.

Lemma pair_if_live k v : live k → pair_if k v = [(k, v)].
Proof. intros. unfold pair_if. by rewrite decide_True. Qed.

Lemma pair_if_dead k v : ¬ live k → pair_if k v = [].
Proof. intros. unfold pair_if. by rewrite decide_False. Qed.

Lemma trep_insert d l key val i k v :
  trep d l → live key → probed d l key i k v → ¬ live k →
  4 * occupied d <= 3 * table_cap d →
  trep (with_tables d (<[i:=key]> (table_keys d)) (<[i:=val]> (table d))
          (if k =? 0 then occupied d + 1 else occupied d) (dlen d + 1))
       (l ++ [(key, val)]).
Proof.
  intros [Ht Hlen Hcap Hocc Hload Hdl Hp] Hkey [Hs Hlt Hk Hv _ _ Hfree] Hd Hroom.
  destruct (Hfree Hd) as [Hnone Hins].
  pose proof (count_insert nonnull (table_keys d) i key k Hk) as Hcnt.
  rewrite (decide_True (P := nonnull key)) in Hcnt by apply Hkey.
  pose proof (pairs_insert (table_keys d) (table d) i key val k v Hk Hv) as Hpi.
  rewrite pair_if_dead, pair_if_live in Hpi by done. simpl in Hpi.
  split; simpl; rewrite ?length_insert, ?length_app; simpl; try done; try lia.
  - by apply tinv_insert.
  - destruct (decide (nonnull k)) as [Hn|Hn]; unfold nonnull in Hn;
      destruct (Z.eqb_spec k 0); first [lia | tauto].
  - destruct (Z.eqb_spec k 0); lia.
  - rewrite Hpi, Hp. apply Permutation_cons_append.
Qed.

Lemma trep_update d l key val i k v :
  trep d l → probed d l key i k v → live k →
  trep (with_tables d (table_keys d) (<[i:=val]> (table d)) (occupied d) (dlen d)) (aset l key val).
Proof.
  intros Hr [Hs Hlt Hk Hv Hf Hsame _] Hd. pose proof (trep_distinct d l Hr) as Hdist.
  destruct Hr as [Ht Hlen Hcap Hocc Hload Hdl Hp].
  rewrite decide_True in Hf by done. unfold aset. rewrite Hf. rewrite <- (Hsame Hd) in *.
  apply afind_Some in Hf as [Hin _]; [|done].
  apply elem_of_Permutation in Hin as [R HR].
  pose proof (pairs_insert (table_keys d) (table d) i k val k v Hk Hv) as Hpi.
  rewrite !pair_if_live, list_insert_id in Hpi by done. simpl in Hpi.
  split; simpl; rewrite ?length_insert, ?length_fmap; try done.
  rewrite (aset_update_perm l k v val R Hdist HR).
  apply (Permutation_cons_inv (a := (k, v))). rewrite Hpi, Hp, HR. apply Permutation_swap.
Qed.

Lemma trep_delete d l key i k v :
  trep d l → probed d l key i k v → live k →
  trep (with_tables d (<[i:=GOC_DICT_TOMBSTONE]> (table_keys d)) (<[i:=0]> (table d))
          (occupied d) (dlen d - 1)) (apop l (cstr key)).
Proof.
  intros Hr [Hs Hlt Hk Hv Hf Hsame _] Hd. pose proof (trep_distinct d l Hr) as Hdist.
  destruct Hr as [Ht Hlen Hcap Hocc Hload Hdl Hp].
  rewrite decide_True in Hf by done. rewrite <- (Hsame Hd) in *.
  apply afind_Some in Hf as [Hin _]; [|done].
  apply list_elem_of_split in Hin as (l1 & l2 & ->). rewrite apop_middle by done.
  pose proof (pairs_insert (table_keys d) (table d) i GOC_DICT_TOMBSTONE 0 k v Hk Hv) as Hpi.
  rewrite (pair_if_live k), (pair_if_dead GOC_DICT_TOMBSTONE) in Hpi by (done || by intros []).
  pose proof (count_insert nonnull (table_keys d) i GOC_DICT_TOMBSTONE k Hk) as Hcnt.
  rewrite !(decide_True (P := nonnull _)) in Hcnt by (done || apply Hd).
  simpl in Hpi. split; simpl; rewrite ?length_insert; try done; try lia.
  - by apply tinv_tombstone.
  - rewrite length_app in *. simpl in *. lia.
  - apply (Permutation_cons_inv (a := (k, v))). by rewrite Hpi, Hp, Permutation_middle.
Qed.
Lemma trep_dlen_occ d l : trep d l → dlen d <= occupied d.
Proof.
  intros [Ht Hlen Hcap Hocc Hload Hdl Hp]. rewrite Hdl, Hocc. apply inj_le.
  rewrite <- Hp, <- (length_fmap fst), pairs_keys by done. unfold count.
  clear. induction (table_keys d) as [|k tk IH]; [done|].
  rewrite !filter_cons. unfold live at 1, nonnull at 1. repeat case_decide; simpl; lia.
Qed.
End table.

Section dict.
Context `{GC, CStrings}.

Lemma alloc_table_ok c m :
  0 <= c → c * 8 < WORD → gc_grants (c * 8) = true →
  _goc_dict_alloc_table c m = ok (replicate (Z.to_nat c) 0, m).
Proof. intros. unfold _goc_dict_alloc_table. word_simpl. by rewrite H3. Qed.

Lemma rehash_ok d l m :
  trep d l → good_cap (2 * table_cap d) → gc_grants (2 * table_cap d * 8) = true →
  ∃ d', _goc_dict_rehash d (table_cap d *% 2) m = ok (d', m) ∧ trep d' l ∧ keys d' = keys d ∧
    table_cap d' = 2 * table_cap d ∧ occupied d' = dlen d.
Proof.
  intros Hr Hg Hgc. pose proof (trep_dlen_occ d l Hr) as Hdo. pose proof (trep_distinct d l Hr) as Hdist.
  pose proof Hr as [Ht Hlen Hcap Hocc Hload Hdl Hp].
  pose proof (good_cap_word _ Hg) as [H8 Hw]. pose proof (good_cap_bounds _ (ti_cap _ Ht)).
  rewrite (Z.mul_comm (table_cap d)), wrap64_small by word_bounds.
  set (c := 2 * table_cap d) in *. unfold _goc_dict_rehash.
  erewrite prog_bind_ok by (apply alloc_table_ok; word_bounds || done).
  erewrite prog_bind_ok by (apply alloc_table_ok; word_bounds || done).
  set (z := replicate (Z.to_nat c) 0).
  assert (Hz : Z.of_nat (length z) = c) by (unfold z; rewrite length_replicate; lia).
  assert (Hpz : pairs z z = []).
  { apply (fmap_nil_inv fst). rewrite pairs_keys by done. unfold z.
    apply length_zero_iff_nil, count_replicate. by intros []. }
  destruct (rehash_loop_ok (zip (table_keys d) (table d)) z z)
    as (tk & tv & Hrl & Ht' & Hn' & Hl1 & Hl2 & Hp').
  - apply tinv_empty. rewrite <- Hz in Hg. unfold z in Hg. by rewrite length_replicate in Hg.
  - done.
  - by apply Forall_replicate.
  - rewrite Hpz. apply (adistinct_perm _ _ (symmetry Hp)), Hdist.
  - rewrite Hpz. simpl. change (filter live_pair _) with (pairs (table_keys d) (table d)).
    rewrite Hp. lia.
  - rewrite Hpz in Hp'. change (filter live_pair _) with (pairs (table_keys d) (table d)) in Hp'.
    simpl in Hp'. rewrite Hz in Hrl. rewrite Hrl. unfold of_res. eexists. split; [done|]. simpl.
    split; [|split_and!; done]. assert (Hpl : pairs tk tv ≡ₚ l) by (by rewrite Hp', Hp).
    split; simpl; try done; try lia.
    rewrite (live_or_null_count tk tv), Hpl by (done || lia). lia.
Qed.
(** ** The dictionary and its key array

    [dict_ok P n base c l d m]: [d] holds the entries [l] in this order after at
    most [n] insertions; its capacities are bounded in terms of [c] and [n], and
    its key array shares no block with [P]. *)
Record dict_ok (P : positive → Prop) (n base c : Z) (l : list (Z * Z))
    (d : goc_dict) (m : mem) : Prop := {
  dk_trep : trep d l;
  dk_hist : hist P n base c (keys d) m;
  dk_order : filter nonnull (elems (keys d) m) = l.*1;
  dk_occ : occupied d <= n;
  dk_tcap : table_cap d <= 2 * c + 3 * n
}.

(** The collector serves [n] insertions. *)
Definition budget (c n : Z) : Prop := serves (2 * c + 16 * n).

Lemma hist_mono P n n' base c a m : n <= n' → hist P n base c a m → hist P n' base c a m.
Proof. intros ? []. split; try done; lia. Qed.

Lemma budget_mono c n n' : 0 <= c → 0 <= n <= n' → budget c n' → budget c n.
Proof. intros ?? [Hw Hg]. split; [lia|]. intros. apply Hg. lia. Qed.

Lemma push_hist P n base c a m k :
  12 <= c → 0 <= n → budget c (n + 1) → hist P n base c a m →
  ∃ a' m', goc_array_push a k m = ok (a', m') ∧ elems a' m' = elems a m ++ [k] ∧
    hist P (n + 1) base c a' m' ∧ mem_frame P m m'.
Proof.
  intros Hc Hn Hb Hh.
  destruct (run_op_step P (2 * c + 16 * (n + 1)) n base c (OpPush k) a m) as (a' & m' & Hr & He & Hh' & Hf);
    [done|done|lia|done|done|].
  simpl in Hr. apply prog_bind_inv in Hr as (a1 & m1 & Hp & [= -> ->]). eauto 10.
Qed.

Lemma set_hist P n base c a m i k :
  12 <= c → 0 <= n → budget c n → hist P n base c a m → (i < length (elems a m))%nat →
  ∃ m', goc_array_set a (Z.of_nat i) k m = ok (tt, m') ∧ elems a m' = <[i:=k]> (elems a m) ∧
    hist P n base c a m' ∧ mem_frame P m m'.
Proof.
  intros Hc Hn Hb Hh Hi.
  pose proof (run_op_step P (2 * c + 16 * n) n base c (OpSet (N.of_nat i) k) a m) as Hs.
  simpl in Hs. rewrite zset_in in Hs by lia.
  destruct Hs as (a' & m' & Hr & He & Hh' & Hf); [done|done|lia|done|done|].
  apply prog_bind_inv in Hr as ([] & m1 & Hp & [= <- <-]). rewrite nat_N_Z in Hp.
  rewrite Z.add_0_r in Hh'. exists m1. split_and!; try done.
  rewrite He. f_equal. lia.
Qed.

(** The doubled table stays a power of two and is granted. *)
Lemma double_good P n base c l d m :
  12 <= c → 0 <= n → budget c n → dict_ok P n base c l d m →
  3 * table_cap d < 4 * occupied d →
  good_cap (2 * table_cap d) ∧ gc_grants (2 * table_cap d * 8) = true ∧
  2 * table_cap d <= 2 * c + 3 * n.
Proof.
  intros Hc Hn [Hw Hg] [[Ht _ Hcap _ _ _ _] _ _ Hocc _] Hfull.
  assert (Hle : 2 * table_cap d <= 2 * c + 3 * n) by lia.
  split_and!; [|apply Hg; lia|done].
  destruct (ti_cap _ Ht) as (p & Hp & Hpow). rewrite <- Hcap in Hpow.
  exists (p + 1). rewrite Hpow, Z.pow_add_r by lia. split; [|lia].
  assert (2 ^ p < 2 ^ 60); [|pose proof (Z.pow_lt_mono_r_iff 2 p 60); lia].
  rewrite <- Hpow. unfold WORD in Hw. lia.
Qed.

(** [goc_dict_set]: the rehash guard, then the probe. *)
Lemma grow_ok P n base c l d m :
  12 <= c → 0 <= n → budget c n → dict_ok P n base c l d m →
  ∃ d', (if table_cap d *% 3 <? occupied d *% 4
         then _goc_dict_rehash d (table_cap d *% 2) else mret d) m = ok (d', m) ∧
    dict_ok P n base c l d' m ∧ keys d' = keys d ∧ 4 * occupied d' <= 3 * table_cap d'.
Proof.
  intros Hc Hn Hb Hd. pose proof Hd as [Htr Hh Ho Hocc Htc]. pose proof Htr as [Ht _ Hcap Hoc Hload _ _].
  pose proof (good_cap_word _ (ti_cap _ Ht)) as [H8 Hw].
  rewrite (wrap64_small (table_cap d * 3)), (wrap64_small (occupied d * 4)) by word_bounds.
  destruct (Z.ltb_spec (table_cap d * 3) (occupied d * 4)).
  - destruct (double_good P n base c l d m) as (Hg & Hgc & Hle); [done..|lia|].
    destruct (rehash_ok d l m Htr Hg Hgc) as (d' & Hr & Htr' & Hk & Hc' & Ho').
    pose proof (trep_dlen_occ d l Htr). exists d'. split_and!; [done| |done|lia].
    split; rewrite ?Hk; try done; lia.
  - exists d. split_and!; try done. lia.
Qed.

(** The specification of [goc_dict_set], every branch. *)
Lemma goc_dict_set_ok P n base c l d m key val :
  12 <= c → 0 <= n → budget c (n + 1) → dict_ok P n base c l d m → live key →
  ∃ d' m', goc_dict_set d key val m = ok (d', m') ∧
    dict_ok P (n + 1) base c (aset l key val) d' m' ∧ mem_frame P m m'.
Proof.
  intros Hc Hn Hb Hd Hkey. unfold goc_dict_set.
  destruct (grow_ok P n base c l d m) as (d1 & Hg & Hd1 & Hk1 & Hroom);
    [done|done|eapply budget_mono, Hb; lia|done|].
  erewrite prog_bind_ok by done. clear d Hg Hd Hk1. pose proof Hd1 as [Htr Hh Ho Hocc Htc].
  destruct (trep_probe d1 l key Htr) as (i & k & v & Hpr). pose proof Hpr as [Hs Hlt Hk Hv Hf Hsame _].
  rewrite Hs. pose proof Htr as [Ht Hlen Hcap Hoc _ Hdl _].
  pose proof (good_cap_word _ (ti_cap _ Ht)) as [_ Hw]. pose proof (trep_dlen_occ _ _ Htr).
  prog_step. rewrite (zget_in (table_keys d1)), Nat2Z.id, Hk by lia. prog_step.
  rewrite (zset_in (table d1)), Nat2Z.id by lia. prog_step. rewrite live_test.
  case_bool_decide as Hlive.
  - exists (with_tables d1 (table_keys d1) (<[i:=val]> (table d1)) (occupied d1) (dlen d1)), m.
    split_and!; [done| |apply frame_refl].
    split; simpl; try done; try lia; [by eapply trep_update|by eapply hist_mono; [|done]; lia|].
    unfold aset. destruct (afind l (cstr key)); [|by rewrite decide_True in Hf].
    by rewrite update_keys.
  - rewrite zset_in, Nat2Z.id by lia. prog_step.
    destruct (push_hist P n base c (keys d1) m key) as (a' & m' & Hp & He & Hh' & Hfr); [done..|].
    erewrite prog_bind_ok by done. eexists _, m'. split_and!; [done| |done].
    pose proof (trep_insert d1 l key val i k v Htr Hkey Hpr Hlive Hroom) as Htr'.
    rewrite (wrap64_small (dlen d1 + 1)) by word_bounds.
    rewrite (wrap64_small (occupied d1 + 1)) by word_bounds.
    unfold aset. rewrite Hf, decide_False by done.
    split; simpl; try done.
    + destruct Htr'. split; done.
    + rewrite He, filter_app, Ho, filter_cons_True, fmap_app by apply Hkey. done.
    + destruct (k =? 0); lia.
    + lia.
Qed.
Lemma goc_dict_get_ok P n base c l d m key nf :
  dict_ok P n base c l d m →
  goc_dict_get d key nf m = ok (from_option snd nf (afind l (cstr key)), m).
Proof.
  intros [Htr _ _ _ _]. destruct (trep_probe d l key Htr) as (i & k & v & Hpr).
  destruct Hpr as [Hs Hlt Hk Hv Hf _ _]. pose proof (tr_len _ _ Htr).
  unfold goc_dict_get. rewrite Hs. prog_step. rewrite (zget_in (table_keys d)), Nat2Z.id, Hk by lia. prog_step.
  rewrite dead_test, Hf. case_bool_decide; simpl.
  - rewrite decide_True by done. by rewrite zget_in, Nat2Z.id, Hv by lia.
  - by rewrite decide_False.
Qed.

Lemma goc_dict_contains_ok P n base c l d m key :
  dict_ok P n base c l d m →
  goc_dict_contains d key m = ok (bool_decide (is_Some (afind l (cstr key))), m).
Proof.
  intros [Htr _ _ _ _]. destruct (trep_probe d l key Htr) as (i & k & v & [Hs Hlt Hk Hv Hf _ _]).
  unfold goc_dict_contains. rewrite Hs. prog_step. rewrite (zget_in (table_keys d)), Nat2Z.id, Hk by lia. prog_step.
  rewrite live_test, Hf. do 2 f_equal. case_decide as Hl.
  - rewrite bool_decide_true, bool_decide_true; done.
  - rewrite bool_decide_false, bool_decide_false; [done|by intros []|done].
Qed.

(** The scan of [goc_dict_pop] nulls the first occurrence of the key. *)
Lemma null_first_ok P n base c a m i k :
  12 <= c → 0 <= n → budget c n → hist P n base c a m →
  elems a m !! i = Some k → (∀ j, (j < i)%nat → elems a m !! j ≠ Some k) →
  ∀ cnt j, (j <= i)%nat → (j + cnt = length (elems a m))%nat →
  ∃ m', null_first cnt (Z.of_nat j) a k m = ok (tt, m') ∧
    elems a m' = <[i:=0]> (elems a m) ∧ hist P n base c a m' ∧ mem_frame P m m'.
Proof.
  intros Hc Hn Hb Hh Hi Hfirst cnt. pose proof (lookup_lt_Some _ _ _ Hi).
  induction cnt as [|cnt IH]; intros j Hj Hcnt; [lia|].
  destruct (lookup_lt_is_Some_2 (elems a m) j) as [x Hx]; [lia|]. simpl.
  erewrite prog_bind_ok by (apply (goc_array_get_ok a m (Z.of_nat j) x);
    [apply Hh|lia|by rewrite Nat2Z.id]).
  destruct (Z.eqb_spec x k) as [->|Hne].
  - assert (j = i) as ->. { destruct (decide (j = i)); [done|]. by destruct (Hfirst j); [lia|]. }
    by apply set_hist.
  - replace (Z.of_nat j + 1) with (Z.of_nat (S j)) by lia. apply IH; [|lia].
    destruct (decide (j = i)); [|lia]. congruence.
Qed.

(** Nulling the pointer of an entry removes it from the order. *)
Lemma order_pop es (l1 l2 : list (Z * Z)) k v :
  filter nonnull es = (l1 ++ (k, v) :: l2).*1 → nonnull k → k ∉ l1.*1 →
  ∃ i, es !! i = Some k ∧ (∀ j, (j < i)%nat → es !! j ≠ Some k) ∧
    filter nonnull (<[i:=0]> es) = (l1 ++ l2).*1.
Proof.
  revert l1. induction es as [|x es IH]; intros l1 Hf Hk Hnot.
  { destruct l1; done. }
  rewrite filter_cons in Hf. destruct (decide (nonnull x)) as [Hx|Hx].
  - destruct l1 as [|[k1 v1] l1]; simpl in Hf.
    + injection Hf as -> Hf. exists 0%nat. simpl. split_and!; [done|lia|].
      rewrite filter_cons_False; [done|]. by intros [].
    + injection Hf as -> Hf. rewrite fmap_cons, not_elem_of_cons in Hnot.
      destruct (IH l1) as (i & Hi & Hfirst & Hr); [done..|tauto|].
      exists (S i). simpl. split_and!; [done| |].
      * intros [|j] Hj; simpl; [intros [= ->]; tauto|]. apply Hfirst. lia.
      * rewrite filter_cons_True by done. by rewrite Hr.
  - destruct (IH l1) as (i & Hi & Hfirst & Hr); [done..|].
    exists (S i). simpl. split_and!; [done| |].
    + intros [|j] Hj; simpl; [intros [= ->]; tauto|]. apply Hfirst. lia.
    + by rewrite filter_cons_False.
Qed.

Lemma adistinct_not_before k v l1 l2 : adistinct (l1 ++ (k, v) :: l2) → k ∉ l1.*1.
Proof.
  unfold adistinct. rewrite !fmap_app. intros (_ & Hd & _)%NoDup_app Hin.
  apply (Hd (cstr k)); [by apply list_elem_of_fmap_2|simpl; constructor].
Qed.

Lemma goc_dict_pop_ok P n base c l d m key nf :
  12 <= c → 0 <= n → budget c n → dict_ok P n base c l d m →
  ∃ d' m', goc_dict_pop d key nf m = ok ((from_option snd nf (afind l (cstr key)), d'), m') ∧
    dict_ok P n base c (apop l (cstr key)) d' m' ∧ mem_frame P m m'.
Proof.
  intros Hc Hn Hb Hd. pose proof Hd as [Htr Hh Ho Hocc Htc].
  destruct (trep_probe d l key Htr) as (i & k & v & Hpr). pose proof Hpr as [Hs Hlt Hk Hv Hf Hsame _].
  pose proof (trep_distinct _ _ Htr) as Hdist. pose proof Htr as [Ht Hlen Hcap Hoc _ Hdl _].
  unfold goc_dict_pop. rewrite Hs. prog_step. rewrite (zget_in (table_keys d)), Nat2Z.id, Hk by lia. prog_step.
  rewrite dead_test, Hf. case_bool_decide as Hlive; simpl.
  2:{ exists d, m. rewrite decide_False by done. split_and!; [done| |apply frame_refl].
      replace (apop l (cstr key)) with l; [done|]. symmetry. apply apop_fresh.
      apply afind_None. by rewrite Hf, decide_False. }
  rewrite decide_True in Hf by done. rewrite decide_True by done.
  pose proof (trep_delete d l key i k v Htr Hpr Hlive) as Htr'.
  pose proof Hf as [Hin Hs']%afind_Some; [|done].
  apply list_elem_of_split in Hin as (l1 & l2 & ->).
  destruct (order_pop _ l1 l2 k v Ho) as (io & Hio & Hfirst & Hord);
    [apply Hlive|by eapply adistinct_not_before|].
  assert (Hlk : Z.to_nat (goc_array_len (keys d)) = length (elems (keys d) m))
    by (by rewrite elems_length; [|apply Hh]).
  destruct (null_first_ok P n base c (keys d) m io k Hc Hn Hb Hh Hio Hfirst
    (length (elems (keys d) m)) 0) as (m' & Hnf & He & Hh' & Hfr); [lia|done|].
  rewrite (zget_in (table d)), Nat2Z.id, Hv by lia. prog_step.
  rewrite (zset_in (table d)), Nat2Z.id by lia. prog_step.
  rewrite (zset_in (table_keys d)), Nat2Z.id by lia. prog_step.
  rewrite Hlk. erewrite prog_bind_ok by exact Hnf.
  eexists _, m'. split_and!; [done| |done].
  rewrite length_app in Hdl. simpl in Hdl. pose proof (trep_dlen_occ _ _ Htr).
  pose proof (good_cap_word _ (ti_cap _ Ht)) as [_ Hw]. pose proof (trep_room _ _ Htr).
  rewrite wrap64_small by word_bounds.
  split; simpl; try done. rewrite He, Hord, <- (Hsame Hlive). by rewrite apop_middle.
Qed.
(** ** Creation *)

Lemma round_cap_loop_ok r fuel : ∀ p,
  3 <= p <= 63 → r <= 2 ^ 63 → 63 - p < Z.of_nat fuel → (p = 3 ∨ 2 ^ (p - 1) < r) →
  ∃ q, round_cap_loop fuel (2 ^ p) r = Some (2 ^ q) ∧ 3 <= q <= 63 ∧ r <= 2 ^ q ∧
    (q = 3 ∨ 2 ^ (q - 1) < r).
Proof.
  induction fuel as [|fuel IH]; intros p Hp Hr Hf Hmin; [lia|]. simpl.
  destruct (Z.ltb_spec (2 ^ p) r) as [Hlt|Hge]; [|exists p; split_and!; (done || lia)].
  assert (p < 63) by (apply (Z.pow_lt_mono_r_iff 2); lia).
  assert (2 ^ p < 2 ^ 63) by (apply Z.pow_lt_mono_r; lia).
  replace (2 ^ p *% 2) with (2 ^ (p + 1)).
  - apply IH; [lia|done|lia|]. right. by replace (p + 1 - 1) with p by lia.
  - rewrite Z.pow_add_r by lia. rewrite wrap64_small; [lia|].
    assert (2 ^ 63 * 2 = WORD) by done. lia.
Qed.

Lemma round_cap_loop_diverges r fuel cap :
  2 ^ 63 < r → (cap = 0 ∨ ∃ p, 0 <= p <= 63 ∧ cap = 2 ^ p) → round_cap_loop fuel cap r = None.
Proof.
  intros Hr. revert cap. induction fuel as [|fuel IH]; intros cap Hcap; [done|]. simpl.
  assert (Hlt : cap < r).
  { destruct Hcap as [->|(p & Hp & ->)]; [lia|].
    assert (2 ^ p <= 2 ^ 63) by (apply Z.pow_le_mono_r; lia). lia. }
  destruct (Z.ltb_spec cap r); [|lia]. apply IH.
  destruct Hcap as [->|(p & Hp & ->)]; [left; by vm_compute|].
  destruct (decide (p = 63)) as [->|Hne]; [left; by vm_compute|]. right. exists (p + 1). split; [lia|].
  rewrite Z.pow_add_r by lia. rewrite wrap64_small; [lia|].
  assert (2 ^ p <= 2 ^ 62) by (apply Z.pow_le_mono_r; lia).
  assert (2 ^ 62 * 4 = WORD) by done. lia.
Qed.

Lemma round_cap_small r : r <= 2 ^ 60 → ∃ c, _goc_dict_round_cap r = ok c ∧ good_cap c ∧
  r <= c ∧ c <= 2 * Z.max r 8.
Proof.
  intros Hr. unfold _goc_dict_round_cap.
  destruct (round_cap_loop_ok r 62 3) as (q & Hq & Hb & Hle & Hmin); [lia|lia|lia|by left|].
  change GOC_DICT_MIN_CAP with (2 ^ 3). rewrite Hq. exists (2 ^ q). split; [done|].
  assert (Hh : 2 ^ q = 2 * 2 ^ (q - 1)) by (rewrite <- Z.pow_succ_r by lia; f_equal; lia).
  split_and!; [|done|destruct Hmin as [->|]; lia].
  exists q. split; [|done]. destruct Hmin as [->|Hm]; [lia|].
  assert (q - 1 < 60); [|lia]. apply (Z.pow_lt_mono_r_iff 2); lia.
Qed.

Definition room (c : Z) : Z := Z.max (make_cap c) 12.

Lemma goc_dict_make_ok c m :
  mem_wf m → 0 <= c → budget (room c) 0 →
  ∃ d m', goc_dict_make c m = ok (d, m') ∧
    dict_ok (λ b, (b < next_blk m)%positive) 0 (alloc_total m) (room c) [] d m' ∧
    mem_frame (λ b, (b < next_blk m)%positive) m m'.
Proof.
  intros Hm Hc [Hw Hg]. unfold room in *.
  assert (Hmc : 8 <= make_cap c ∧ c <= make_cap c).
  { unfold make_cap, GOC_ARRAY_INIT_CAP. destruct (Z.ltb_spec c 8); lia. }
  destruct (round_cap_small c) as (tc & Hrc & Hgood & Hle & Hub); [unfold WORD in Hw; lia|].
  pose proof (good_cap_word _ Hgood) as [H8 Hcw].
  destruct (goc_array_make_ok c m) as [Hmk Hpl]; [done|lia|lia|apply Hg; lia|].
  unfold goc_dict_make, _goc_dict_make_internal. rewrite Hrc. prog_step.
  erewrite prog_bind_ok by (apply alloc_table_ok; [lia|word_bounds|apply Hg; lia]).
  erewrite prog_bind_ok by (apply alloc_table_ok; [lia|word_bounds|apply Hg; lia]).
  erewrite prog_bind_ok by done. eexists _, _. split_and!; [done| |by apply frame_alloc].
  set (z := replicate (Z.to_nat tc) 0).
  assert (Hz : Z.of_nat (length z) = tc) by (unfold z; rewrite length_replicate; lia).
  assert (Hcz : count nonnull z = 0%nat) by (apply count_replicate; by intros []).
  split; simpl; try lia.
  - assert (Ht : tinv z) by (apply tinv_empty; by rewrite Z2Nat.id by lia).
    split; simpl; try done; try lia.
    replace (pairs z z) with (@nil (Z * Z)); [done|]. symmetry.
    apply (fmap_nil_inv fst). rewrite pairs_keys by done.
    apply length_zero_iff_nil, count_replicate. by intros [].
  - apply hist_fresh; [done|lia|lia|done].
  - by rewrite (pl_elems _ _ _ _ Hpl).
Qed.
(** ** Iteration in insertion order *)

(** [walk] visits exactly the entries, in order, whatever the loop body does, as
    long as it leaves the dictionary's own key array alone. *)
Lemma walk_ok {A} d l (I : list (Z * Z) → A → mem → Prop) f es :
  trep d l →
  (∀ dn acc m, I dn acc m → wf (keys d) m ∧ elems (keys d) m = es) →
  (∀ dn k v rest acc m, l = dn ++ (k, v) :: rest → I dn acc m →
     ∃ acc' m', f k v acc m = ok (acc', m') ∧ I (dn ++ [(k, v)]) acc' m') →
  ∀ cnt j dn rest acc m, (j + cnt = length es)%nat → filter nonnull (drop j es) = rest.*1 →
    l = dn ++ rest → I dn acc m →
    ∃ acc' m', walk cnt (Z.of_nat j) d f acc m = ok (acc', m') ∧ I l acc' m'.
Proof.
  intros Htr HI Hf cnt. induction cnt as [|cnt IH]; intros j dn rest acc m Hj Hrest Hl Hacc.
  { exists acc, m. rewrite drop_ge in Hrest by lia. destruct rest; [|done].
    rewrite app_nil_r in Hl. by subst. }
  destruct (HI _ _ _ Hacc) as [Hwf He].
  destruct (lookup_lt_is_Some_2 es j) as [x Hx]; [lia|]. simpl.
  erewrite prog_bind_ok by (apply (goc_array_get_ok _ m (Z.of_nat j) x);
    [done|lia|by rewrite He, Nat2Z.id]).
  replace (Z.of_nat j + 1) with (Z.of_nat (S j)) by lia.
  rewrite (drop_S es x j Hx), filter_cons in Hrest.
  destruct (Z.eqb_spec x 0) as [Hx0|Hx0].
  { rewrite decide_False in Hrest by (by intros []). apply (IH (S j) dn rest); [lia|done..]. }
  rewrite decide_True in Hrest by done. destruct rest as [|[k v] rest]; [done|].
  simpl in Hrest. injection Hrest as -> Hrest.
  assert (Hin : (k, v) ∈ l) by (rewrite Hl; apply elem_of_app; right; constructor).
  destruct (trep_probe d l k Htr) as (i & k' & v' & [Hs Hlt Hk Hv Hfd _ _]).
  rewrite (proj2 (afind_Some l (cstr k) k v (trep_distinct _ _ Htr))) in Hfd by done.
  case_decide as Hlive; [|done]. injection Hfd as <- <-.
  rewrite Hs. prog_step. unfold _goc_dict_is_live_slot. rewrite (zget_in (table_keys d)), Nat2Z.id, Hk by lia.
  erewrite (prog_bind_ok (of_option (Some k) ≫= _)) by done. rewrite live_test, bool_decide_true by done.
  rewrite (zget_in (table d)), Nat2Z.id, Hv by (rewrite (tr_len _ _ Htr); lia). prog_step.
  destruct (Hf dn k v rest acc m Hl Hacc) as (acc' & m' & Hr & Hacc').
  erewrite prog_bind_ok by done. apply (IH (S j) (dn ++ [(k, v)]) rest); [lia|done| |done].
  by rewrite <- app_assoc.
Qed.

Lemma for_each_ok {A} d l (I : list (Z * Z) → A → mem → Prop) f acc m :
  trep d l → filter nonnull (elems (keys d) m) = l.*1 →
  (∀ dn acc m', I dn acc m' → wf (keys d) m' ∧ elems (keys d) m' = elems (keys d) m) →
  (∀ dn k v rest acc m, l = dn ++ (k, v) :: rest → I dn acc m →
     ∃ acc' m', f k v acc m = ok (acc', m') ∧ I (dn ++ [(k, v)]) acc' m') →
  I [] acc m → ∃ acc' m', for_each d f acc m = ok (acc', m') ∧ I l acc' m'.
Proof.
  intros Htr Ho HI Hf Hacc. unfold for_each.
  apply (walk_ok d l I f (elems (keys d) m) Htr HI Hf _ 0 [] l); try done.
  rewrite elems_length; [done|]. by apply (HI _ _ _ Hacc).
Qed.

Lemma goc_dict_entries_ok P n base c l d m :
  dict_ok P n base c l d m → goc_dict_entries d m = ok (l, m).
Proof.
  intros [Htr Hh Ho _ _].
  destruct (for_each_ok d l (λ dn acc m', acc = dn ∧ m' = m) 
      (λ k v acc, mret (acc ++ [(k, v)]) : prog mem _) [] m)
    as (acc & m' & Hr & -> & ->); try done.
  - intros dn acc m' [-> ->]. split; [apply Hh|done].
  - intros dn k v rest acc m' _ [-> ->]. eauto.
Qed.

(** Collecting a projection of the entries into a fresh array. *)
Lemma collect_ok P n base c l d m (g : Z → Z → Z) :
  dict_ok P n base c l d m → budget (room (dlen d)) (dlen d) →
  ∃ a m', (a ← goc_array_make (goc_dict_len d);
           for_each d (λ k v a, goc_array_push a (g k v)) a) m = ok (a, m') ∧
    wf a m' ∧ elems a m' = (λ kv, g kv.1 kv.2) <$> l ∧
    elems (keys d) m' = elems (keys d) m.
Proof.
  intros [Htr Hh Ho _ _] Hb. pose proof Hb as [Hw Hg]. pose proof (tr_dlen _ _ Htr) as Hdl.
  pose proof (hi_wf _ _ _ _ _ _ Hh) as Hwf. pose proof (wf_mem _ _ Hwf) as Hm.
  assert (Hmc : 8 <= make_cap (dlen d) <= room (dlen d)).
  { unfold room, make_cap, GOC_ARRAY_INIT_CAP. destruct (Z.ltb_spec (dlen d) 8); lia. }
  destruct (goc_array_make_ok (dlen d) m) as [Hmk Hpl]; [done|lia|lia|apply Hg; lia|].
  unfold goc_dict_len. erewrite prog_bind_ok by done.
  set (Q := λ b, (b < next_blk m)%positive).
  set (m0 := fresh_mem _ _) in *. set (a0 := fresh_array _ _ _ _) in *.
  assert (HQ : from_option (λ q, Q (blk q)) True (data (keys d))).
  { pose proof (wf_alloc _ _ Hwf). destruct (data (keys d)); [|done]. simpl in *. by apply Hm. }
  set (I := λ dn a m', hist Q (Z.of_nat (length dn)) (alloc_total m) (room (dlen d)) a m' ∧
    elems a m' = (λ kv : Z * Z, g kv.1 kv.2) <$> dn ∧ mem_frame Q m m').
  assert (HI : ∀ dn a m', I dn a m' → wf (keys d) m' ∧ elems (keys d) m' = elems (keys d) m).
  { intros dn a m' (Hh' & _ & Hf). split; [|by eapply elems_frame].
    eapply wf_frame; [done| |done|done]. apply Hh'. }
  assert (HI0 : I [] a0 m0).
  { split_and!; [apply hist_fresh; done || lia|apply Hpl|].
    by apply frame_alloc. }
  destruct (HI _ _ _ HI0) as [_ He0].
  destruct (for_each_ok d l I (λ k v a, goc_array_push a (g k v)) a0 m0)
    as (a & m' & Hr & HIl); [done|by rewrite He0|by rewrite He0| |done|].
  - intros dn k v rest a m1 Hl (Hh1 & He1 & Hf1).
    apply (f_equal length) in Hl. rewrite length_app in Hl. simpl in Hl.
    destruct (push_hist Q (Z.of_nat (length dn)) (alloc_total m) (room (dlen d)) a m1 (g k v))
      as (a' & m2 & Hp & He2 & Hh2 & Hf2); [unfold room; lia|lia| |done|].
    { eapply budget_mono, Hb; unfold room; lia. }
    exists a', m2. split; [done|]. split_and!.
    + rewrite length_app. simpl. by replace (Z.of_nat (length dn + 1)) with (Z.of_nat (length dn) + 1) by lia.
    + by rewrite He2, He1, fmap_app.
    + by eapply frame_trans.
  - exists a, m'. destruct (HI _ _ _ HIl) as [_ Hel]. destruct HIl as (Hh' & He' & _).
    split_and!; [done|apply Hh'|done|done].
Qed.
(** ** Bulk construction *)

Definition aset_all (l kvs : list (Z * Z)) : list (Z * Z) :=
  foldl (λ l kv, aset l kv.1 kv.2) l kvs.

Lemma set_all_ok P base c kvs : ∀ n l d m,
  12 <= c → 0 <= n → budget c (n + Z.of_nat (length kvs)) → dict_ok P n base c l d m →
  Forall (λ kv, live kv.1) kvs →
  ∃ d' m', set_all d kvs m = ok (d', m') ∧
    dict_ok P (n + Z.of_nat (length kvs)) base c (aset_all l kvs) d' m' ∧ mem_frame P m m'.
Proof.
  induction kvs as [|[k v] kvs IH]; intros n l d m Hc Hn Hb Hd Hk.
  { exists d, m. rewrite Z.add_0_r. split_and!; [done|done|apply frame_refl]. }
  apply Forall_cons in Hk as [Hk Hks]. rewrite length_cons, Nat2Z.inj_succ in *.
  cbn [set_all].
  destruct (goc_dict_set_ok P n base c l d m k v) as (d1 & m1 & Hs & Hd1 & Hf1);
    [done|done|eapply budget_mono, Hb; lia|done..|].
  erewrite prog_bind_ok by done.
  destruct (IH (n + 1) (aset l k v) d1 m1) as (d2 & m2 & Hr & Hd2 & Hf2);
    [done|lia|eapply budget_mono, Hb; lia|done..|].
  exists d2, m2. split_and!; [done| |by eapply frame_trans].
  by replace (n + Z.succ (Z.of_nat (length kvs))) with (n + 1 + Z.of_nat (length kvs)) by lia.
Qed.

Lemma aset_all_distinct l kvs : adistinct (l ++ kvs) → aset_all l kvs = l ++ kvs.
Proof.
  revert l. induction kvs as [|[k v] kvs IH]; intros l Hd; [by rewrite app_nil_r|].
  unfold aset_all in *. simpl.
  assert (Hn : afind l (cstr k) = None).
  { apply afind_None. apply (adistinct_perm _ ((k, v) :: l ++ kvs)) in Hd;
      [|by rewrite <- Permutation_middle].
    apply adistinct_cons in Hd as [Hne _]. intros kv Hin. apply Hne, elem_of_app. by left. }
  unfold aset at 2. rewrite Hn, IH by (by rewrite <- app_assoc). by rewrite <- app_assoc.
Qed.

(** ** Histories *)

Inductive dict_op :=
| DSet (key val : Z)
| DGet (key not_found : Z)
| DPop (key not_found : Z)
| DContains (key : Z)
| DLen
| DEntries.

Inductive dict_obs :=
| ObVal (v : Z)
| ObBool (b : bool)
| ObEntries (l : list (Z * Z)).

Definition is_set (o : dict_op) : Z := match o with DSet _ _ => 1 | _ => 0 end.
Fixpoint sets (ops : list dict_op) : Z :=
  match ops with [] => 0 | o :: ops => is_set o + sets ops end.

(** Keys passed to [goc_dict_set] are strings: neither [NULL] nor the sentinel. *)
Definition valid_op (o : dict_op) : Prop := match o with DSet k _ => live k | _ => True end.

Definition spec_dict_op (o : dict_op) (l : list (Z * Z)) : list (Z * Z) * list dict_obs :=
  match o with
  | DSet k v => (aset l k v, [])
  | DGet k nf => (l, [ObVal (from_option snd nf (afind l (cstr k)))])
  | DPop k nf => (apop l (cstr k), [ObVal (from_option snd nf (afind l (cstr k)))])
  | DContains k => (l, [ObBool (bool_decide (is_Some (afind l (cstr k))))])
  | DLen => (l, [ObVal (Z.of_nat (length l))])
  | DEntries => (l, [ObEntries l])
  end.

Fixpoint spec_dict_ops (ops : list dict_op) (l : list (Z * Z)) : list (Z * Z) * list dict_obs :=
  match ops with
  | [] => (l, [])
  | o :: ops => let '(l1, out1) := spec_dict_op o l in
                let '(l2, out2) := spec_dict_ops ops l1 in (l2, out1 ++ out2)
  end.

Definition run_dict_op (o : dict_op) (d : goc_dict) : prog mem (goc_dict * list dict_obs) :=
  match o with
  | DSet k v => d' ← goc_dict_set d k v; mret (d', [])
  | DGet k nf => v ← goc_dict_get d k nf; mret (d, [ObVal v])
  | DPop k nf => r ← goc_dict_pop d k nf; mret (r.2, [ObVal r.1])
  | DContains k => b ← goc_dict_contains d k; mret (d, [ObBool b])
  | DLen => mret (d, [ObVal (goc_dict_len d)])
  | DEntries => l ← goc_dict_entries d; mret (d, [ObEntries l])
  end.

Fixpoint run_dict_ops (ops : list dict_op) (d : goc_dict) : prog mem (goc_dict * list dict_obs) :=
  match ops with
  | [] => mret (d, [])
  | o :: ops => r1 ← run_dict_op o d;
                r2 ← run_dict_ops ops r1.1;
                mret (r2.1, r1.2 ++ r2.2)
  end.

Definition dict_session (c0 : Z) (ops : list dict_op) : prog mem (goc_dict * list dict_obs) :=
  d ← goc_dict_make c0; run_dict_ops ops d.

Lemma run_dict_op_ok P n base c l d m o :
  12 <= c → 0 <= n → budget c (n + is_set o) → dict_ok P n base c l d m → valid_op o →
  ∃ d' m', run_dict_op o d m = ok ((d', (spec_dict_op o l).2), m') ∧
    dict_ok P (n + is_set o) base c (spec_dict_op o l).1 d' m'.
Proof.
  intros Hc Hn Hb Hd Hv. destruct o as [k v|k nf|k nf|k| |]; simpl in *; rewrite ?Z.add_0_r in *.
  - destruct (goc_dict_set_ok P n base c l d m k v) as (d' & m' & Hs & Hd' & _); [done..|].
    exists d', m'. by erewrite prog_bind_ok by done.
  - exists d, m. by erewrite prog_bind_ok by (by eapply goc_dict_get_ok).
  - destruct (goc_dict_pop_ok P n base c l d m k nf) as (d' & m' & Hs & Hd' & _); [done..|].
    exists d', m'. by erewrite prog_bind_ok by done.
  - exists d, m. by erewrite prog_bind_ok by (by eapply goc_dict_contains_ok).
  - exists d, m. unfold goc_dict_len. by rewrite (tr_dlen _ _ (dk_trep _ _ _ _ _ _ _ Hd)).
  - exists d, m. by erewrite prog_bind_ok by (by eapply goc_dict_entries_ok).
Qed.

Lemma sets_nonneg ops : 0 <= sets ops.
Proof. induction ops as [|[] ops IH]; simpl; lia. Qed.

Lemma run_dict_ops_ok P base c ops : ∀ n l d m,
  12 <= c → 0 <= n → budget c (n + sets ops) → dict_ok P n base c l d m → Forall valid_op ops →
  ∃ d' m', run_dict_ops ops d m = ok ((d', (spec_dict_ops ops l).2), m') ∧
    dict_ok P (n + sets ops) base c (spec_dict_ops ops l).1 d' m'.
Proof.
  induction ops as [|o ops IH]; intros n l d m Hc Hn Hb Hd Hv; simpl in *.
  { exists d, m. by rewrite Z.add_0_r. }
  apply Forall_cons in Hv as [Hv Hvs]. pose proof (sets_nonneg ops).
  assert (0 <= is_set o) by (destruct o; simpl; lia).
  destruct (run_dict_op_ok P n base c l d m o) as (d1 & m1 & Hr1 & Hd1);
    [done|done|eapply budget_mono, Hb; lia|done..|].
  destruct (spec_dict_op o l) as [l1 out1]. simpl in *.
  destruct (IH (n + is_set o) l1 d1 m1) as (d2 & m2 & Hr2 & Hd2);
    [done|lia|eapply budget_mono, Hb; lia|done..|].
  destruct (spec_dict_ops ops l1) as [l2 out2]. simpl in *.
  erewrite prog_bind_ok by done. simpl. erewrite prog_bind_ok by done.
  exists d2, m2. simpl. by rewrite Z.add_assoc.
Qed.
End dict.

(** ** Properties *)

(** Three strings at four addresses: 10 and 13 both hold ["a"]. *)
Definition names : CStrings :=
  {| cstr := λ p, match p with 10 | 13 => "a" | 11 => "b" | 12 => "c" | _ => "" end%string |}.

(** C9: A dictionary made by [goc_dict_make] is an ordered map from strings: for
    every history of [set], [get], [pop], [contains], [len] and [entries], the
    program returns what the ordered-map specification returns (updates keep an
    entry's place, deleted entries vanish from the order, equal strings at
    different addresses are the same key) and never loops in a probe, reads
    outside its tables or aborts.  Keys that are set are neither [NULL] nor the
    tombstone address; the collector serves requests linear in the number of
    insertions. *)
Theorem dict_history_refines `{GC, CStrings} (c0 : Z) (ops : list dict_op) (m : mem) :
  mem_wf m → 0 <= c0 → budget (room c0) (sets ops) → Forall valid_op ops →
  ∃ d m', dict_session c0 ops m = ok ((d, (spec_dict_ops ops []).2), m') ∧
    trep d (spec_dict_ops ops []).1 ∧ table_cap d <= 2 * room c0 + 3 * sets ops.
Proof.
  intros Hm Hc Hb Hv. pose proof (sets_nonneg ops).
  destruct (goc_dict_make_ok c0 m) as (d & m1 & Hmk & Hd & _);
    [done|done|eapply budget_mono, Hb; unfold room; lia|].
  assert (H12 : 12 <= room c0) by (unfold room; lia).
  destruct (run_dict_ops_ok _ _ _ ops 0 [] d m1 H12 (Z.le_refl 0) Hb Hd Hv)
    as (d' & m' & Hr & Hd').
  exists d', m'. unfold dict_session. erewrite prog_bind_ok by done.
  destruct Hd' as [? _ _ _ ?]. by split_and!.
Qed.

Definition dict_ops_example : list dict_op :=
  [DSet 10 1; DSet 11 2; DSet 12 3; DSet 13 4; DPop 11 0; DGet 10 0; DSet 11 5;
   DEntries; DContains 12; DPop 12 0; DContains 12; DLen].

Lemma dict_history_refines_witness :
  ∃ d m', @dict_session gc_all names 0 dict_ops_example mem_empty
          = ok ((d, [ObVal 2; ObVal 4; ObEntries [(10, 4); (12, 3); (11, 5)]; ObBool true;
                     ObVal 3; ObBool false; ObVal 2]), m') ∧
    @trep names d [(10, 4); (11, 5)] ∧ table_cap d <= 39.
Proof.
  apply (@dict_history_refines gc_all names 0 dict_ops_example mem_empty).
  - apply mem_wf_empty.
  - lia.
  - split; [reflexivity|done].
  - repeat constructor; simpl; unfold live, GOC_DICT_TOMBSTONE; lia.
Defined.

(** [goc_dict_keys] and [goc_dict_vals] return fresh arrays with the keys and
    the values of the live entries in insertion order, and leave the dictionary's
    own key array as it was. *)
Theorem dict_keys_vals_ordered `{GC, CStrings} P n base c l d m :
  dict_ok P n base c l d m → budget (room (dlen d)) (dlen d) →
  (∃ a m', goc_dict_keys d m = ok (a, m') ∧ wf a m' ∧ elems a m' = l.*1 ∧
     elems (keys d) m' = elems (keys d) m) ∧
  (∃ a m', goc_dict_vals d m = ok (a, m') ∧ wf a m' ∧ elems a m' = l.*2 ∧
     elems (keys d) m' = elems (keys d) m).
Proof.
  intros Hd Hb. split.
  - apply (collect_ok P n base c l d m (λ k _, k) Hd Hb).
  - apply (collect_ok P n base c l d m (λ _ v, v) Hd Hb).
Qed.

Definition dict0 : goc_dict :=
  match @goc_dict_make gc_all 0 mem_empty with
  | ok (d, _) => d
  | _ => {| table := []; table_keys := []; table_cap := 0; occupied := 0;
            keys := goc_array_from None 0; dlen := 0 |}
  end.
Definition dict0_mem : mem :=
  match @goc_dict_make gc_all 0 mem_empty with ok (_, m) => m | _ => mem_empty end.

Lemma dict0_ok :
  @dict_ok names (λ b, (b < 1)%positive) 0 0 12 [] dict0 dict0_mem.
Proof.
  destruct (@goc_dict_make_ok gc_all names 0 mem_empty) as (d & m & Hr & Hd & _);
    [apply mem_wf_empty|lia|split; [reflexivity|done]|].
  unfold dict0, dict0_mem. by rewrite Hr.
Qed.

Lemma dict_keys_vals_ordered_witness :
  (∃ a m', @goc_dict_keys gc_all names dict0 dict0_mem = ok (a, m') ∧ wf a m' ∧
     elems a m' = [] ∧ elems (keys dict0) m' = elems (keys dict0) dict0_mem) ∧
  (∃ a m', @goc_dict_vals gc_all names dict0 dict0_mem = ok (a, m') ∧ wf a m' ∧
     elems a m' = [] ∧ elems (keys dict0) m' = elems (keys dict0) dict0_mem).
Proof.
  apply (@dict_keys_vals_ordered gc_all names (λ b, (b < 1)%positive) 0 0 12 []).
  - apply dict0_ok.
  - split; [reflexivity|done].
Defined.

(** [goc_dict_from_entries] inserts the entries in order, later entries
    overriding earlier ones with the same string; applied to what
    [goc_dict_entries] returned it rebuilds the same ordered entries. *)
Theorem dict_from_entries_roundtrip `{GC, CStrings} (es : list (Z * Z)) (m : mem) :
  mem_wf m → Forall (λ kv, live kv.1) es →
  budget (room (Z.of_nat (length es))) (Z.of_nat (length es)) →
  ∃ d m', goc_dict_from_entries es m = ok (d, m') ∧
    goc_dict_entries d m' = ok (aset_all [] es, m') ∧
    (adistinct es → goc_dict_entries d m' = ok (es, m')).
Proof.
  intros Hm Hk Hb.
  destruct (goc_dict_make_ok (Z.of_nat (length es)) m) as (d & m1 & Hmk & Hd & _);
    [done|lia|eapply budget_mono, Hb; unfold room; lia|].
  assert (H12 : 12 <= room (Z.of_nat (length es))) by (unfold room; lia).
  destruct (set_all_ok _ _ _ es 0 [] d m1 H12 (Z.le_refl 0) Hb Hd Hk)
    as (d' & m' & Hr & Hd' & _).
  exists d', m'. unfold goc_dict_from_entries. erewrite prog_bind_ok by exact Hmk.
  pose proof (goc_dict_entries_ok _ _ _ _ _ _ _ Hd') as He. split_and!; [done..|].
  intros Hdist. by rewrite (aset_all_distinct [] es) in He.
Qed.

Lemma dict_from_entries_roundtrip_witness :
  ∃ d m', @goc_dict_from_entries gc_all names [(10, 1); (11, 2); (13, 3)] mem_empty = ok (d, m') ∧
    @goc_dict_entries names d m' = ok ([(10, 3); (11, 2)], m') ∧
    (@adistinct names [(10, 1); (11, 2); (13, 3)] →
     @goc_dict_entries names d m' = ok ([(10, 1); (11, 2); (13, 3)], m')).
Proof.
  apply (@dict_from_entries_roundtrip gc_all names [(10, 1); (11, 2); (13, 3)] mem_empty).
  - apply mem_wf_empty.
  - repeat constructor; simpl; unfold GOC_DICT_TOMBSTONE; lia.
  - split; [reflexivity|done].
Defined.

(** [_goc_dict_round_cap] returns the least power of two that is at least 8
    and at least the request; for a request above [2^63] its doubling wraps to 0
    and the loop never ends. *)
Theorem round_cap_least_power (r : Z) :
  (r <= 2 ^ 63 → ∃ q, _goc_dict_round_cap r = ok (2 ^ q) ∧ 3 <= q <= 63 ∧ r <= 2 ^ q ∧
     ∀ q', 3 <= q' → r <= 2 ^ q' → q <= q') ∧
  (2 ^ 63 < r → _goc_dict_round_cap r = hang ∧
     ∀ fuel, round_cap_loop fuel GOC_DICT_MIN_CAP r = None).
Proof.
  unfold _goc_dict_round_cap. change GOC_DICT_MIN_CAP with (2 ^ 3). split.
  - intros Hr. destruct (round_cap_loop_ok r 62 3) as (q & -> & Hq & Hle & Hmin);
      [lia|done|lia|by left|]. exists q. split_and!; try done; try lia.
    intros q' Hq' Hle'. destruct Hmin as [->|Hm]; [lia|].
    assert (q - 1 < q'); [|lia]. apply (Z.pow_lt_mono_r_iff 2); lia.
  - intros Hr. assert (Hd : ∀ fuel, round_cap_loop fuel (2 ^ 3) r = None).
    { intros fuel. apply round_cap_loop_diverges; [done|]. right. exists 3. split; [lia|done]. }
    by rewrite Hd.
Qed.

Lemma round_cap_least_power_witness :
  (∃ q, _goc_dict_round_cap 9 = ok (2 ^ q) ∧ 3 <= q <= 63 ∧ 9 <= 2 ^ q ∧
     ∀ q', 3 <= q' → 9 <= 2 ^ q' → q <= q') ∧ _goc_dict_round_cap (2 ^ 63 + 1) = hang.
Proof.
  split.
  - apply (proj1 (round_cap_least_power 9)). lia.
  - apply (proj2 (round_cap_least_power (2 ^ 63 + 1))). lia.
Defined.

End Dict.
