(* ===== verification/Chan.v ===== *)
(** Channels (src/channel.c, src/channel_internal.h, src/chan_type.h) and the
    parts of src/internal.h they use: [goc_entry], [goc_sync_t] and
    [try_claim_wake].

    Module [Chan] models every channel operation over a [world] that holds the
    channels, the heap of waiter entries (linked through [next]), the shared
    fired flags of selects, the park word of each fiber, and what the
    operations hand to the scheduler: fibers posted to run queues, callbacks
    posted to the loop, semaphores posted.  An operation runs under the
    channel's lock and is one transition; a blocking operation is split where
    it blocks, into the part that parks and the part that runs after the
    wake-up. *)

From S2P Require Import Prelude.

Module Chan.

(** ** Data *)

(** [goc_status_t] (include/goc.h). *)
Inductive goc_status := GOC_CLOSED | GOC_OK | GOC_EMPTY.

(** [goc_entry_kind] (src/internal.h). *)
Inductive goc_entry_kind := GOC_FIBER | GOC_CALLBACK | GOC_SYNC.

(** [goc_chan_close_state_t] (src/chan_type.h). *)
Inductive close_state := GOC_CHAN_OPEN | GOC_CHAN_CLOSE_REQUESTED | GOC_CHAN_CLOSING.

#[export] Instance goc_status_eq : EqDecision goc_status.
Proof. solve_decision. Defined.
#[export] Instance goc_entry_kind_eq : EqDecision goc_entry_kind.
Proof. solve_decision. Defined.
#[export] Instance close_state_eq : EqDecision close_state.
Proof. solve_decision. Defined.

(** [struct goc_entry]: one parked waiter.  [coro] names the fiber, whose initial
    entry is reached by [mco_get_user_data]; [result_slot] always points to a
    cell that belongs to this entry alone, [cb_result] here, or is null. *)
Record goc_entry := mk_entry {
  kind : goc_entry_kind;
  cancelled : bool;
  woken : bool;
  fired : option positive;
  next : option positive;
  home_worker_idx : Z;
  coro : positive;
  result_slot : bool;
  ok_ : goc_status;
  arm_idx : Z;
  cb : bool;
  put_cb : bool;
  cb_result : Z;
  put_val : Z;
  ech : option positive;
  is_put : bool;
  free_on_drain : bool;
  sync_sem_ptr : positive;
  parked_gen : Z
}.

(** [(goc_entry){ 0 }]. *)
Definition entry0 : goc_entry :=
  {| kind := GOC_FIBER; cancelled := false; woken := false; fired := None; next := None;
     home_worker_idx := 0; coro := 1; result_slot := false; ok_ := GOC_CLOSED; arm_idx := 0;
     cb := false; put_cb := false; cb_result := 0; put_val := 0; ech := None; is_put := false;
     free_on_drain := false; sync_sem_ptr := 1; parked_gen := 0 |}.

Definition set_cancelled (e : goc_entry) : goc_entry :=
  mk_entry (kind e) true (woken e) (fired e) (next e) (home_worker_idx e) (coro e) (result_slot e)
    (ok_ e) (arm_idx e) (cb e) (put_cb e) (cb_result e) (put_val e) (ech e) (is_put e)
    (free_on_drain e) (sync_sem_ptr e) (parked_gen e).
Definition set_woken (e : goc_entry) : goc_entry :=
  mk_entry (kind e) (cancelled e) true (fired e) (next e) (home_worker_idx e) (coro e)
    (result_slot e) (ok_ e) (arm_idx e) (cb e) (put_cb e) (cb_result e) (put_val e) (ech e)
    (is_put e) (free_on_drain e) (sync_sem_ptr e) (parked_gen e).
Definition set_next (n : option positive) (e : goc_entry) : goc_entry :=
  mk_entry (kind e) (cancelled e) (woken e) (fired e) n (home_worker_idx e) (coro e)
    (result_slot e) (ok_ e) (arm_idx e) (cb e) (put_cb e) (cb_result e) (put_val e) (ech e)
    (is_put e) (free_on_drain e) (sync_sem_ptr e) (parked_gen e).
(** [if (e->result_slot != NULL) *e->result_slot = v;] *)
Definition set_result (v : Z) (e : goc_entry) : goc_entry :=
  mk_entry (kind e) (cancelled e) (woken e) (fired e) (next e) (home_worker_idx e) (coro e)
    (result_slot e) (ok_ e) (arm_idx e) (cb e) (put_cb e)
    (if result_slot e then v else cb_result e) (put_val e) (ech e) (is_put e)
    (free_on_drain e) (sync_sem_ptr e) (parked_gen e).
Definition set_ok (s : goc_status) (e : goc_entry) : goc_entry :=
  mk_entry (kind e) (cancelled e) (woken e) (fired e) (next e) (home_worker_idx e) (coro e)
    (result_slot e) s (arm_idx e) (cb e) (put_cb e) (cb_result e) (put_val e) (ech e) (is_put e)
    (free_on_drain e) (sync_sem_ptr e) (parked_gen e).
Definition set_gen (g : Z) (e : goc_entry) : goc_entry :=
  mk_entry (kind e) (cancelled e) (woken e) (fired e) (next e) (home_worker_idx e) (coro e)
    (result_slot e) (ok_ e) (arm_idx e) (cb e) (put_cb e) (cb_result e) (put_val e) (ech e)
    (is_put e) (free_on_drain e) (sync_sem_ptr e) g.

(** [struct goc_chan], without its lock, debug tag and telemetry counters.
    [on_close] is the installed callback with its user data. *)
Record goc_chan := mk_chan {
  buf : list Z;
  buf_size : Z;
  buf_head : Z;
  buf_count : Z;
  item_count : Z;
  takers : option positive;
  takers_tail : option positive;
  putters : option positive;
  putters_tail : option positive;
  closed : bool;
  dead_count : Z;
  close_guard : close_state;
  on_close : option Z
}.

Definition set_ring (b : list Z) (h n i : Z) (c : goc_chan) : goc_chan :=
  mk_chan b (buf_size c) h n i (takers c) (takers_tail c) (putters c) (putters_tail c) (closed c)
    (dead_count c) (close_guard c) (on_close c).
Definition set_takers (p t : option positive) (c : goc_chan) : goc_chan :=
  mk_chan (buf c) (buf_size c) (buf_head c) (buf_count c) (item_count c) p t (putters c)
    (putters_tail c) (closed c) (dead_count c) (close_guard c) (on_close c).
Definition set_putters (p t : option positive) (c : goc_chan) : goc_chan :=
  mk_chan (buf c) (buf_size c) (buf_head c) (buf_count c) (item_count c) (takers c)
    (takers_tail c) p t (closed c) (dead_count c) (close_guard c) (on_close c).
Definition set_closed (c : goc_chan) : goc_chan :=
  mk_chan (buf c) (buf_size c) (buf_head c) (buf_count c) (item_count c) (takers c)
    (takers_tail c) (putters c) (putters_tail c) true (dead_count c) (close_guard c) (on_close c).
Definition set_dead (d : Z) (c : goc_chan) : goc_chan :=
  mk_chan (buf c) (buf_size c) (buf_head c) (buf_count c) (item_count c) (takers c)
    (takers_tail c) (putters c) (putters_tail c) (closed c) d (close_guard c) (on_close c).
Definition set_guard (g : close_state) (c : goc_chan) : goc_chan :=
  mk_chan (buf c) (buf_size c) (buf_head c) (buf_count c) (item_count c) (takers c)
    (takers_tail c) (putters c) (putters_tail c) (closed c) (dead_count c) g (on_close c).
Definition set_on_close (o : option Z) (c : goc_chan) : goc_chan :=
  mk_chan (buf c) (buf_size c) (buf_head c) (buf_count c) (item_count c) (takers c)
    (takers_tail c) (putters c) (putters_tail c) (closed c) (dead_count c) (close_guard c) o.

(** The initial entry of a fiber, as channel operations see it: its park word, its
    preferred worker ([SIZE_MAX] for none) and the number of workers of its pool. *)
Record fiber := mk_fiber {
  parked : Z;
  fhome : Z;
  fpool : option Z
}.

Record world := mk_world {
  ents : gmap positive goc_entry;
  flags : gmap positive bool;
  fibers : gmap positive fiber;
  chans : gmap positive goc_chan;
  syncs : gmap positive bool;
  live_channels : gset positive;
  runq : list (positive * option Z);
  cbq : list (positive * Z);
  loopq : list positive;
  closelog : list (positive * Z);
  loop_running : bool;
  next_id : positive
}.

Definition set_ents f (w : world) : world :=
  mk_world (f (ents w)) (flags w) (fibers w) (chans w) (syncs w) (live_channels w) (runq w)
    (cbq w) (loopq w) (closelog w) (loop_running w) (next_id w).
Definition set_flags f (w : world) : world :=
  mk_world (ents w) (f (flags w)) (fibers w) (chans w) (syncs w) (live_channels w) (runq w)
    (cbq w) (loopq w) (closelog w) (loop_running w) (next_id w).
Definition set_fibers f (w : world) : world :=
  mk_world (ents w) (flags w) (f (fibers w)) (chans w) (syncs w) (live_channels w) (runq w)
    (cbq w) (loopq w) (closelog w) (loop_running w) (next_id w).
Definition set_chans f (w : world) : world :=
  mk_world (ents w) (flags w) (fibers w) (f (chans w)) (syncs w) (live_channels w) (runq w)
    (cbq w) (loopq w) (closelog w) (loop_running w) (next_id w).
Definition set_syncs f (w : world) : world :=
  mk_world (ents w) (flags w) (fibers w) (chans w) (f (syncs w)) (live_channels w) (runq w)
    (cbq w) (loopq w) (closelog w) (loop_running w) (next_id w).
Definition set_live f (w : world) : world :=
  mk_world (ents w) (flags w) (fibers w) (chans w) (syncs w) (f (live_channels w)) (runq w)
    (cbq w) (loopq w) (closelog w) (loop_running w) (next_id w).
Definition push_runq x (w : world) : world :=
  mk_world (ents w) (flags w) (fibers w) (chans w) (syncs w) (live_channels w) (runq w ++ [x])
    (cbq w) (loopq w) (closelog w) (loop_running w) (next_id w).
Definition push_cbq x (w : world) : world :=
  mk_world (ents w) (flags w) (fibers w) (chans w) (syncs w) (live_channels w) (runq w)
    (cbq w ++ [x]) (loopq w) (closelog w) (loop_running w) (next_id w).
Definition push_loopq x (w : world) : world :=
  mk_world (ents w) (flags w) (fibers w) (chans w) (syncs w) (live_channels w) (runq w)
    (cbq w) (loopq w ++ [x]) (closelog w) (loop_running w) (next_id w).
Definition push_closelog x (w : world) : world :=
  mk_world (ents w) (flags w) (fibers w) (chans w) (syncs w) (live_channels w) (runq w)
    (cbq w) (loopq w) (closelog w ++ [x]) (loop_running w) (next_id w).
Definition bump_id (w : world) : world :=
  mk_world (ents w) (flags w) (fibers w) (chans w) (syncs w) (live_channels w) (runq w)
    (cbq w) (loopq w) (closelog w) (loop_running w) (Pos.succ (next_id w)).

(** ** Access to the world: a dangling pointer is undefined behaviour *)

Definition modify (f : world → world) : prog world () := λ w, ok (tt, f w).
Definition get_ent (p : positive) : prog world goc_entry := λ w, of_option (ents w !! p) w.
Definition upd_ent (p : positive) (f : goc_entry → goc_entry) : prog world () :=
  e ← get_ent p; modify (set_ents (<[p := f e]>)).
Definition get_chan (c : positive) : prog world goc_chan := λ w, of_option (chans w !! c) w.
Definition upd_chan (c : positive) (f : goc_chan → goc_chan) : prog world () :=
  ch ← get_chan c; modify (set_chans (<[c := f ch]>)).
Definition get_fiber (i : positive) : prog world fiber := λ w, of_option (fibers w !! i) w.
Definition set_parked (i : positive) (v : Z) : prog world () :=
  f ← get_fiber i; modify (set_fibers (<[i := mk_fiber v (fhome f) (fpool f)]>)).
Definition get_flag (a : positive) : prog world bool := λ w, of_option (flags w !! a) w.
Definition free (p : positive) : prog world () :=
  _ ← get_ent p; modify (set_ents (delete p)).

(** A fresh identity, for anything allocated. *)
Definition fresh : prog world positive := λ w, ok (next_id w, bump_id w).

(** [malloc] of an entry followed by its initialisation. *)
Definition new_entry (e : goc_entry) : prog world positive :=
  p ← fresh; modify (set_ents (<[p := e]>));; mret p.

(** ** [goc_sync_t] *)

Definition goc_sync_init : prog world positive :=
  s ← fresh; modify (set_syncs (<[s := false]>));; mret s.
Definition goc_sync_post (s : positive) : prog world () :=
  _ ← (λ w, of_option (syncs w !! s) w); modify (set_syncs (<[s := true]>)).
(** Returns once [ready] is set; until then the thread stays blocked. *)
Definition goc_sync_wait (s : positive) : prog world () :=
  r ← (λ w, of_option (syncs w !! s) w);
  if r : bool then mret tt else HANG.
Definition goc_sync_destroy (s : positive) : prog world () := modify (set_syncs (delete s)).

(** ** Claiming and waking a waiter *)

(** [try_claim_wake]: the shared fired flag first, then the entry's own. *)
Definition try_claim_wake (p : positive) : prog world bool :=
  e ← get_ent p;
  won ← match fired e with
        | None => mret true
        | Some a => f ← get_flag a;
                    if f : bool then mret false
                    else modify (set_flags (<[a := true]>));; mret true
        end;
  if won : bool then
    if woken e then mret false else upd_ent p set_woken;; mret true
  else mret false.

(** The yield gate of the pool worker that resumed fiber [i]
    (src/pool.c, after [mco_resume]): an odd park word becomes even. *)
Definition yield_gate (i : positive) : prog world () :=
  f ← get_fiber i;
  if Z.odd (parked f) then set_parked i (parked f +% 1) else mret tt.

(** The park word an entry's waker waits for: [(e->parked_gen << 1) + 2]. *)
Definition want_of (e : goc_entry) : Z := wrap64 (Z.shiftl (parked_gen e) 1) +% 2.

(** The spin on a fiber's park word.  While the fiber is between releasing the
    lock and its yield, the only write to the word is the yield gate of its
    worker, which [sched_yield] lets run. *)
Fixpoint wait_loop (fuel : nat) (i : positive) (want : Z) : prog world bool :=
  match fuel with
  | O => HANG
  | S fuel =>
      f ← get_fiber i;
      if parked f =? want then mret true
      else if (parked f =? 0) || (want <? parked f) then mret false
      else yield_gate i;; wait_loop fuel i want
  end.

(** Two reads decide: after the gate the word is even and only the fiber, which
    does not run before it is posted, could change it again. *)
Definition wait_for_fiber_suspended (i : positive) (want : Z) : prog world bool :=
  wait_loop 2 i want.

Definition post_to_run_queue (i : positive) : prog world () := modify (push_runq (i, None)).
Definition post_to_specific_worker (idx : Z) (i : positive) : prog world () :=
  modify (push_runq (i, Some idx)).

(** [if (fe->home_worker_idx != SIZE_MAX && fe->pool && ...)], as [wake],
    [goc_put] and [goc_close_internal] post a fiber. *)
Definition post_home (i : positive) : prog world () :=
  f ← get_fiber i;
  match fpool f with
  | Some n => if negb (fhome f =? SIZE_MAX) && (fhome f <? n)
              then post_to_specific_worker (fhome f) i else post_to_run_queue i
  | None => post_to_run_queue i
  end.

Definition post_callback (p : positive) (v : Z) : prog world () := modify (push_cbq (p, v)).

Definition bump_dead (c : positive) : prog world () :=
  upd_chan c (λ ch, set_dead (dead_count ch +% 1) ch).

Definition wake (c p : positive) (value : Z) : prog world bool :=
  e ← get_ent p;
  if cancelled e then bump_dead c;; mret false
  else
    claimed ← try_claim_wake p;
    if negb claimed then bump_dead c;; mret false
    else
      upd_ent p (set_result value);;
      upd_ent p (set_ok GOC_OK);;
      match kind e with
      | GOC_FIBER =>
          suspended ← wait_for_fiber_suspended (coro e) (want_of e);
          if negb suspended then mret false else post_home (coro e);; mret true
      | GOC_CALLBACK => post_callback p value;; mret true
      | GOC_SYNC => goc_sync_post (sync_sem_ptr e);; mret true
      end.

(** [wake_claim]: on success, the fiber the caller has to wait for and post. *)
Definition wake_claim (c p : positive) (value : Z) : prog world (option (option positive)) :=
  e ← get_ent p;
  if cancelled e then bump_dead c;; mret None
  else
    stale ← match kind e with
            | GOC_FIBER => f ← get_fiber (coro e);
                           mret ((parked f =? 0) || (want_of e <? parked f))
            | _ => mret false
            end;
    if stale : bool then bump_dead c;; mret None
    else
      claimed ← try_claim_wake p;
      if negb claimed then bump_dead c;; mret None
      else
        upd_ent p (set_result value);;
        upd_ent p (set_ok GOC_OK);;
        match kind e with
        | GOC_FIBER => mret (Some (Some (coro e)))
        | GOC_CALLBACK => post_callback p value;; mret (Some None)
        | GOC_SYNC => goc_sync_post (sync_sem_ptr e);; mret (Some None)
        end.

(** ** Waiter lists *)

Inductive side := Takers | Putters.
#[export] Instance side_eq : EqDecision side.
Proof. solve_decision. Defined.

Definition head_of (s : side) (ch : goc_chan) : option positive :=
  match s with Takers => takers ch | Putters => putters ch end.
Definition tail_of (s : side) (ch : goc_chan) : option positive :=
  match s with Takers => takers_tail ch | Putters => putters_tail ch end.
Definition set_list (s : side) (h t : option positive) (ch : goc_chan) : goc_chan :=
  match s with Takers => set_takers h t ch | Putters => set_putters h t ch end.

(** The walk of [chan_list_append] to the real last node. *)
Fixpoint find_last (fuel : nat) (cur : positive) : prog world positive :=
  match fuel with
  | O => HANG
  | S fuel => e ← get_ent cur;
              match next e with None => mret cur | Some n => find_last fuel n end
  end.

Definition chan_list_append (s : side) (c p : positive) : prog world () :=
  upd_ent p (set_next None);;
  ch ← get_chan c;
  match tail_of s ch, head_of s ch with
  | Some t, h => upd_ent t (set_next (Some p));; upd_chan c (set_list s h (Some p))
  | None, None => upd_chan c (set_list s (Some p) (Some p))
  | None, Some h =>
      last ← (λ w, find_last (S (size (ents w))) h w);
      upd_ent last (set_next (Some p));;
      upd_chan c (set_list s (Some h) (Some p))
  end.

(** [*pp = n; if (n == NULL) tail = NULL;], with [pp] at the head of the list. *)
Definition pop_head (s : side) (c : positive) (n : option positive) : prog world () :=
  upd_chan c (λ ch, set_list s n (match n with None => None | _ => tail_of s ch end) ch).

(** The loop the four matching functions share: entries are removed from the
    head of the list until one of them is woken by [attempt]. *)
Fixpoint scan_waiters {A} (fuel : nat) (s : side) (c : positive)
    (attempt : positive → goc_entry → prog world (option A)) : prog world (option A) :=
  match fuel with
  | O => HANG
  | S fuel =>
      ch ← get_chan c;
      match head_of s ch with
      | None => mret None
      | Some p =>
          e ← get_ent p;
          if cancelled e then pop_head s c (next e);; scan_waiters fuel s c attempt
          else
            r ← attempt p e;
            pop_head s c (next e);;
            match r with Some a => mret (Some a) | None => scan_waiters fuel s c attempt end
      end
  end.

(** A list is never longer than the heap it lives in. *)
Definition scan {A} (s : side) (c : positive)
    (attempt : positive → goc_entry → prog world (option A)) : prog world (option A) :=
  λ w, scan_waiters (S (size (ents w))) s c attempt w.

Definition chan_put_to_taker (c : positive) (val : Z) : prog world bool :=
  r ← scan Takers c (λ p _, b ← wake c p val; mret (if b : bool then Some tt else None));
  mret (bool_decide (is_Some r)).

Definition chan_take_from_putter (c : positive) : prog world (option Z) :=
  scan Putters c (λ p e, b ← wake c p 0; mret (if b : bool then Some (put_val e) else None)).

(** The fiber to post after the lock is released, with its park word. *)
Definition claim : Type := option positive * Z.

Definition chan_put_to_taker_claim (c : positive) (val : Z) : prog world (option claim) :=
  scan Takers c (λ p e, r ← wake_claim c p val; mret ((λ fe, (fe, want_of e)) <$> r)).

Definition chan_take_from_putter_claim (c : positive) : prog world (option (Z * claim)) :=
  scan Putters c (λ p e, r ← wake_claim c p 0; mret ((λ fe, (put_val e, (fe, want_of e))) <$> r)).

Definition chan_put_to_buffer (c : positive) (val : Z) : prog world bool :=
  ch ← get_chan c;
  if buf_size ch <=? buf_count ch then mret false
  else
    let tail := (buf_head ch +% buf_count ch) mod buf_size ch in
    b ← of_option (zset (buf ch) tail val);
    upd_chan c (set_ring b (buf_head ch) (buf_count ch +% 1) (item_count ch +% 1));;
    mret true.

Definition chan_take_from_buffer (c : positive) : prog world (option Z) :=
  ch ← get_chan c;
  if buf_count ch =? 0 then mret None
  else
    v ← of_option (zget (buf ch) (buf_head ch));
    upd_chan c (set_ring (buf ch) ((buf_head ch +% 1) mod buf_size ch) (buf_count ch -% 1)
                  (if 0 <? item_count ch then item_count ch - 1 else item_count ch));;
    mret (Some v).

(** ** Compaction *)

Definition GOC_DEAD_COUNT_THRESHOLD : Z := 8.

(** [*pp = n], where [pp] is the head field or the [next] field of an entry. *)
Definition store_pp (s : side) (c : positive) (pp : option positive) (n : option positive)
    : prog world () :=
  match pp with
  | None => upd_chan c (λ ch, set_list s n (tail_of s ch) ch)
  | Some q => upd_ent q (set_next n)
  end.

Definition load_pp (s : side) (c : positive) (pp : option positive) : prog world (option positive) :=
  match pp with
  | None => ch ← get_chan c; mret (head_of s ch)
  | Some q => e ← get_ent q; mret (next e)
  end.

(** One list of [compact_dead_entries]; returns the last entry that stays. *)
Fixpoint compact_loop (fuel : nat) (s : side) (c : positive) (pp last : option positive)
    : prog world (option positive) :=
  match fuel with
  | O => HANG
  | S fuel =>
      cur ← load_pp s c pp;
      match cur with
      | None => mret last
      | Some p =>
          e ← get_ent p;
          if cancelled e then
            store_pp s c pp (next e);;
            (if free_on_drain e then free p else mret tt);;
            compact_loop fuel s c pp last
          else compact_loop fuel s c (Some p) (Some p)
      end
  end.

Definition compact_list (s : side) (c : positive) : prog world () :=
  last ← (λ w, compact_loop (S (size (ents w))) s c None None w);
  upd_chan c (λ ch, set_list s (head_of s ch) last ch).

Definition compact_dead_entries (c : positive) : prog world () :=
  compact_list Takers c;; compact_list Putters c;; upd_chan c (set_dead 0).

Definition maybe_compact (c : positive) : prog world () :=
  ch ← get_chan c;
  if GOC_DEAD_COUNT_THRESHOLD <=? dead_count ch then compact_dead_entries c else mret tt.

(** ** Creation and the close callback *)

Definition chan_register (c : positive) : prog world () := modify (set_live ({[c]} ∪.)).
Definition chan_unregister (c : positive) : prog world () := modify (set_live (.∖ {[c]})).

Definition new_chan (buf_size : Z) : goc_chan :=
  {| buf := replicate (Z.to_nat buf_size) 0; buf_size := buf_size; buf_head := 0; buf_count := 0;
     item_count := 0; takers := None; takers_tail := None; putters := None; putters_tail := None;
     closed := false; dead_count := 0; close_guard := GOC_CHAN_OPEN; on_close := None |}.

Definition goc_chan_make (buf_size : Z) : prog world positive :=
  c ← fresh; modify (set_chans (<[c := new_chan buf_size]>));; chan_register c;; mret c.

(** Calling a close callback, recorded with the channel it is called for. *)
Definition call_on_close (c : positive) (cb : Z) : prog world () := modify (push_closelog (c, cb)).

Definition chan_set_on_close (c : positive) (cb : option Z) : prog world () :=
  ch ← get_chan c;
  if closed ch then match cb with Some f => call_on_close c f | None => mret tt end
  else upd_chan c (set_on_close cb).

(** ** Closing *)

(** One pass of the wake loop of [goc_close_internal] over a waiter list: the
    fibers to post after the lock is released, and whether a cancelled entry was
    met. *)
Fixpoint close_pass (fuel : nat) (p : option positive) (to_post : list (positive * Z))
    (cancelled_found : bool) : prog world (list (positive * Z) * bool) :=
  match fuel with
  | O => HANG
  | S fuel =>
      match p with
      | None => mret (to_post, cancelled_found)
      | Some p =>
          e ← get_ent p;
          if cancelled e then close_pass fuel (next e) to_post true
          else
            claimed ← try_claim_wake p;
            if claimed : bool then
              upd_ent p (set_ok GOC_CLOSED);;
              match kind e with
              | GOC_FIBER =>
                  close_pass fuel (next e) (to_post ++ [(coro e, want_of e)]) cancelled_found
              | GOC_CALLBACK =>
                  (match fired e with
                   | None => post_callback p 0
                   | Some a => old ← get_flag a;
                               modify (set_flags (<[a := true]>));;
                               if old : bool then mret tt else post_callback p 0
                   end);;
                  close_pass fuel (next e) to_post cancelled_found
              | GOC_SYNC =>
                  goc_sync_post (sync_sem_ptr e);;
                  close_pass fuel (next e) to_post cancelled_found
              end
            else close_pass fuel (next e) to_post cancelled_found
      end
  end.

(** Posting the collected fibers once the lock is released. *)
Fixpoint post_all (to_post : list (positive * Z)) : prog world () :=
  match to_post with
  | [] => mret tt
  | (i, want) :: rest =>
      suspended ← wait_for_fiber_suspended i want;
      (if suspended : bool then post_home i else mret tt);;
      post_all rest
  end.

(** The waiter lists are cleared before the lock is released. *)
Definition clear_waiters (c : positive) : prog world () :=
  upd_chan c (set_takers None None);;
  upd_chan c (set_putters None None);;
  upd_chan c (set_dead 0).

(** The channel leaves the registry, then its close callback runs. *)
Definition unregister_and_call (c : positive) : prog world () :=
  ch ← get_chan c;
  chan_unregister c;;
  match on_close ch with Some f => call_on_close c f | None => mret tt end.

(** The body of [goc_close_internal] once the close is claimed. *)
Definition close_claimed (c : positive) : prog world () :=
  upd_chan c set_closed;;
  ch ← get_chan c;
  r1 ← (λ w, close_pass (S (size (ents w))) (takers ch) [] false w);
  r2 ← (λ w, close_pass (S (size (ents w))) (putters ch) r1.1 r1.2 w);
  (if r2.2 : bool then compact_dead_entries c else mret tt);;
  clear_waiters c;;
  post_all r2.1;;
  unregister_and_call c.

(** [goc_close_internal]: the compare-and-swap from [CLOSE_REQUESTED], or from
    [OPEN] on the direct path; any other state is a duplicate close. *)
Definition goc_close_internal (c : positive) : prog world () :=
  ch ← get_chan c;
  match close_guard ch with
  | GOC_CHAN_CLOSE_REQUESTED | GOC_CHAN_OPEN =>
      upd_chan c (set_guard GOC_CHAN_CLOSING);; close_claimed c
  | GOC_CHAN_CLOSING => mret tt
  end.

Definition on_close_dispatch (c : positive) : prog world () :=
  ch ← get_chan c;
  match close_guard ch with
  | GOC_CHAN_CLOSING => mret tt
  | _ => goc_close_internal c
  end.

(** Where the caller runs: in a fiber (on a worker, or -1), on the loop thread,
    or on another thread. *)
Inductive ctx := InFiber (i : positive) (worker : Z) | OnLoop | OnThread.

(** [post_on_loop_checked(on_close_dispatch, ch)]: refused once the loop is down. *)
Definition post_close_on_loop (c : positive) : prog world bool := λ w,
  if loop_running w then ok (true, push_loopq c w) else ok (false, w).

Definition goc_close (cx : ctx) (c : option positive) : prog world () :=
  match c with
  | None => mret tt
  | Some c =>
      ch ← get_chan c;
      match close_guard ch with
      | GOC_CHAN_OPEN =>
          upd_chan c (set_guard GOC_CHAN_CLOSE_REQUESTED);;
          match cx with
          | OnLoop => goc_close_internal c
          | _ => posted ← post_close_on_loop c;
                 if posted : bool then mret tt
                 else ABORT "goc_close: failed to dispatch on loop"
          end
      | _ => mret tt
      end
  end.

(** ** Taking and putting *)

(** A call returns, or parks on an entry and continues when it is woken. *)
Inductive outcome (A : Type) := Ret (a : A) | Park (p : positive).
Arguments Ret {A} a.
Arguments Park {A} p.

Definition goc_val : Type := Z * goc_status.

(** [current_worker >= 0 ? (size_t)current_worker : SIZE_MAX] *)
Definition home_of (worker : Z) : Z := if 0 <=? worker then worker else SIZE_MAX.

(** The generation handshake of the slow paths: the next generation, and the odd
    word of a park in progress. *)
Definition begin_park (i : positive) : prog world Z :=
  f ← get_fiber i;
  let gen := Z.shiftr (parked f) 1 +% 1 in
  set_parked i (Z.lor (wrap64 (Z.shiftl gen 1)) 1);;
  mret gen.

Definition fiber_waiter (i : positive) (worker : Z) (slot : bool) (v gen : Z) : goc_entry :=
  {| kind := GOC_FIBER; cancelled := false; woken := false; fired := None; next := None;
     home_worker_idx := home_of worker; coro := i; result_slot := slot; ok_ := GOC_CLOSED;
     arm_idx := 0; cb := false; put_cb := false; cb_result := 0; put_val := v; ech := None;
     is_put := false; free_on_drain := false; sync_sem_ptr := 1; parked_gen := gen |}.

Definition goc_take (cx : ctx) (c : positive) : prog world (outcome goc_val) :=
  match cx with
  | InFiber i worker =>
      maybe_compact c;;
      b ← chan_take_from_buffer c;
      match b with
      | Some v => mret (Ret (v, GOC_OK))
      | None =>
          r ← chan_take_from_putter_claim c;
          match r with
          | Some (v, (fe, want)) =>
              (match fe with
               | Some j => suspended ← wait_for_fiber_suspended j want;
                           if suspended : bool then post_to_run_queue j else mret tt
               | None => mret tt
               end);;
              mret (Ret (v, GOC_OK))
          | None =>
              ch ← get_chan c;
              if closed ch then mret (Ret (0, GOC_CLOSED))
              else
                gen ← begin_park i;
                p ← new_entry (fiber_waiter i worker true 0 gen);
                chan_list_append Takers c p;;
                mret (Park p)
          end
      end
  | _ => ABORT "goc_take: called from OS thread (not in fiber context)"
  end.

(** After [mco_yield] returns in [goc_take]. *)
Definition goc_take_resume (i p : positive) : prog world goc_val :=
  set_parked i 0;;
  e ← get_ent p;
  free p;;
  mret (cb_result e, ok_ e).

Definition goc_put (cx : ctx) (c : positive) (val : Z) : prog world (outcome goc_status) :=
  match cx with
  | InFiber i worker =>
      maybe_compact c;;
      ch ← get_chan c;
      if closed ch then mret (Ret GOC_CLOSED)
      else
        r ← chan_put_to_taker_claim c val;
        match r with
        | Some (fe, want) =>
            (match fe with
             | Some j => suspended ← wait_for_fiber_suspended j want;
                         if suspended : bool then post_home j else mret tt
             | None => mret tt
             end);;
            mret (Ret GOC_OK)
        | None =>
            b ← chan_put_to_buffer c val;
            if b : bool then mret (Ret GOC_OK)
            else
              gen ← begin_park i;
              p ← new_entry (fiber_waiter i worker false val gen);
              chan_list_append Putters c p;;
              mret (Park p)
        end
  | _ => ABORT "goc_put: called from OS thread (not in fiber context)"
  end.

Definition goc_put_resume (i p : positive) : prog world goc_status :=
  set_parked i 0;;
  e ← get_ent p;
  free p;;
  mret (ok_ e).

Definition sync_waiter (s : positive) (slot : bool) (v : Z) : goc_entry :=
  {| kind := GOC_SYNC; cancelled := false; woken := false; fired := None; next := None;
     home_worker_idx := 0; coro := 1; result_slot := slot; ok_ := GOC_CLOSED; arm_idx := 0;
     cb := false; put_cb := false; cb_result := 0; put_val := v; ech := None; is_put := false;
     free_on_drain := false; sync_sem_ptr := s; parked_gen := 0 |}.

Definition goc_take_sync (cx : ctx) (c : positive) : prog world (outcome goc_val) :=
  match cx with
  | InFiber _ _ => ABORT "goc_take_sync: called from fiber context"
  | _ =>
      b ← chan_take_from_buffer c;
      match b with
      | Some v => mret (Ret (v, GOC_OK))
      | None =>
          r ← chan_take_from_putter c;
          match r with
          | Some v => mret (Ret (v, GOC_OK))
          | None =>
              ch ← get_chan c;
              if closed ch then mret (Ret (0, GOC_CLOSED))
              else
                s ← goc_sync_init;
                p ← new_entry (sync_waiter s true 0);
                chan_list_append Takers c p;;
                mret (Park p)
          end
      end
  end.

(** After [goc_sync_wait] returns: the entry was on the caller's stack. *)
Definition goc_take_sync_resume (p : positive) : prog world goc_val :=
  e ← get_ent p;
  goc_sync_wait (sync_sem_ptr e);;
  goc_sync_destroy (sync_sem_ptr e);;
  free p;;
  mret (cb_result e, ok_ e).

Definition goc_put_sync (cx : ctx) (c : positive) (val : Z) : prog world (outcome goc_status) :=
  match cx with
  | InFiber _ _ => ABORT "goc_put_sync: called from fiber context"
  | _ =>
      ch ← get_chan c;
      if closed ch then mret (Ret GOC_CLOSED)
      else
        t ← chan_put_to_taker c val;
        if t : bool then mret (Ret GOC_OK)
        else
          b ← chan_put_to_buffer c val;
          if b : bool then mret (Ret GOC_OK)
          else
            s ← goc_sync_init;
            p ← new_entry (sync_waiter s false val);
            chan_list_append Putters c p;;
            mret (Park p)
  end.

Definition goc_put_sync_resume (p : positive) : prog world goc_status :=
  e ← get_ent p;
  goc_sync_wait (sync_sem_ptr e);;
  goc_sync_destroy (sync_sem_ptr e);;
  free p;;
  mret (ok_ e).

Definition goc_take_try (c : positive) : prog world goc_val :=
  b ← chan_take_from_buffer c;
  match b with
  | Some v => mret (v, GOC_OK)
  | None =>
      r ← chan_take_from_putter c;
      match r with
      | Some v => mret (v, GOC_OK)
      | None =>
          ch ← get_chan c;
          mret (0, if closed ch then GOC_CLOSED else GOC_EMPTY)
      end
  end.

(** [goc_take_all], [goc_take_all_sync]: the results so far, and where the loop blocks
    the waiter and the channels that are left. *)
Inductive takes :=
| TDone (vs : list goc_val)
| TPark (vs : list goc_val) (p : positive) (rest : list positive).
Fixpoint take_all_from (take : positive → prog world (outcome goc_val)) (vs : list goc_val) (chs : list positive) : prog world takes :=
  match chs with
  | [] => mret (TDone vs)
  | c :: rest =>
      r ← take c;
      match r with
      | Ret v => take_all_from take (vs ++ [v]) rest
      | Park p => mret (TPark vs p rest)
      end
  end.
Definition goc_take_all (cx : ctx) (chs : list positive) : prog world takes := take_all_from (goc_take cx) [] chs.
Definition goc_take_all_resume (i : positive) (worker : Z) (vs : list goc_val) (p : positive) (rest : list positive) : prog world takes :=
  v ← goc_take_resume i p; take_all_from (goc_take (InFiber i worker)) (vs ++ [v]) rest.
Definition goc_take_all_sync (cx : ctx) (chs : list positive) : prog world takes := take_all_from (goc_take_sync cx) [] chs.
Definition goc_take_all_sync_resume (cx : ctx) (vs : list goc_val) (p : positive) (rest : list positive) : prog world takes :=
  v ← goc_take_sync_resume p; take_all_from (goc_take_sync cx) (vs ++ [v]) rest.

(** [goc_yield]: the running fiber posts itself to the next worker. *)
Definition goc_yield (cx : ctx) : prog world () :=
  match cx with
  | InFiber i worker =>
      f ← get_fiber i;
      match fpool f with
      | None => mret tt
      | Some n =>
          let target := if (0 <=? worker) && (1 <? n) then (worker + 1) mod n
                        else if negb (fhome f =? SIZE_MAX) then fhome f else 0 in
          post_to_specific_worker target i
      end
  | _ => ABORT "goc_yield: called from OS thread (not in fiber context)"
  end.

End Chan.
