(* ===== verification/ChanInv.v ===== *)
(** The invariant of the channel world, and what the list, claim, scan and
    compaction steps of src/channel.c do to it.

    [world_ok L w]: in world [w] the entries linked on side [s] of channel [c]
    are the list [L c s]; every pointer leads to an allocated entry, a waiter that
    can still be woken has its fiber parked or parking (or its semaphore alive),
    a fiber is posted at most once and only after its waiter was claimed. *)

From S2P Require Import Prelude Chan.
Import Chan.

Module ChanInv.

(** ** Linked lists in the entry heap *)

Fixpoint chain (h : gmap positive goc_entry) (p : option positive) (l : list positive) : Prop :=
  match l with
  | [] => p = None
  | x :: l => p = Some x ∧ ∃ e, h !! x = Some e ∧ chain h (next e) l
  end.

Definition same_next (h h' : gmap positive goc_entry) (l : list positive) : Prop :=
  ∀ x e, x ∈ l → h !! x = Some e → ∃ e', h' !! x = Some e' ∧ next e' = next e.

Lemma chain_ext h h' p l : same_next h h' l → chain h p l → chain h' p l.
Proof.
  revert p. induction l as [|x l IH]; intros p Hs; [done|].
  intros (-> & e & He & Hc). split; [done|].
  destruct (Hs x e) as (e' & He' & Hn); [constructor|done|]. exists e'. split; [done|].
  rewrite Hn. apply IH; [|done]. intros y ey Hy. apply Hs. by constructor.
Qed.

Lemma same_next_insert h p e e' l :
  h !! p = Some e → next e' = next e → same_next h (<[p:=e']> h) l.
Proof.
  intros He Hn x ex _ Hx. rewrite lookup_insert. case_decide; [subst|eauto].
  exists e'. split; [done|]. congruence.
Qed.

Lemma same_next_out h p e' l : p ∉ l → same_next h (<[p:=e']> h) l.
Proof.
  intros Hp x ex Hx Hh. exists ex. rewrite lookup_insert_ne; [done|]. by intros ->.
Qed.

Lemma chain_lookup h p l x : chain h p l → x ∈ l → is_Some (h !! x).
Proof.
  revert p. induction l as [|y l IH]; intros p Hc Hx; [by apply not_elem_of_nil in Hx|].
  destruct Hc as (_ & e & He & Hc). apply elem_of_cons in Hx as [->|Hx]; eauto.
Qed.

Lemma chain_size h p l : chain h p l → NoDup l → (length l <= size h)%nat.
Proof.
  intros Hc Hn. rewrite <- (size_list_to_set (C := gset positive)) by done.
  rewrite <- size_dom. apply subseteq_size. intros x Hx%elem_of_list_to_set.
  apply elem_of_dom. by eapply chain_lookup.
Qed.

Lemma chain_snoc h p l x e :
  chain h p l → h !! x = Some e → next e = None → x ∉ l → NoDup l →
  match last l with
  | None => chain h (Some x) [x]
  | Some t => ∀ et, h !! t = Some et → chain (<[t := set_next (Some x) et]> h) p (l ++ [x])
  end.
Proof.
  revert p. induction l as [|y l IH]; intros p Hc Hx Hn Hnin Hnd; simpl.
  { split; [done|]. exists e. split; [done|]. by rewrite Hn. }
  destruct Hc as (-> & ey & Hy & Hc). apply NoDup_cons in Hnd as [Hy' Hnd].
  rewrite not_elem_of_cons in Hnin. destruct Hnin as [Hxy Hnin].
  specialize (IH (next ey) Hc Hx Hn Hnin Hnd). destruct l as [|z l]; simpl in *.
  - intros et Het. assert (et = ey) as -> by congruence.
    split; [done|]. exists (set_next (Some x) ey).
    rewrite lookup_insert_eq. split; [done|]. simpl. split; [done|]. exists e.
    rewrite lookup_insert_ne by congruence. split; [done|]. by rewrite Hn.
  - destruct (last (z :: l)) as [t|] eqn:El; [|by apply last_None in El].
    intros et Het. specialize (IH et Het). split; [done|]. exists ey.
    rewrite lookup_insert_ne; [done|]. intros ->. apply Hy'.
    apply last_Some in El as (l' & ->). apply elem_of_app. right. constructor.
Qed.

(** ** Claimable waiters *)

Definition flag_clear (fl : gmap positive bool) (e : goc_entry) : bool :=
  match fired e with
  | None => true
  | Some a => match fl !! a with Some false => true | _ => false end
  end.

(** An entry that a matching operation can still wake. *)
Definition claimable (fl : gmap positive bool) (e : goc_entry) : bool :=
  negb (cancelled e) && negb (woken e) && flag_clear fl e.

Definition claim_flags (e : goc_entry) (fl : gmap positive bool) : gmap positive bool :=
  match fired e with None => fl | Some a => <[a := true]> fl end.

Definition claimed (p : positive) (e : goc_entry) (w : world) : world :=
  set_ents (<[p := set_woken e]>) (set_flags (claim_flags e) w).

(** The fired flag of a woken arm is up, and every fired flag exists. *)
Definition flags_ok (fl : gmap positive bool) (e : goc_entry) : Prop :=
  ∀ a, fired e = Some a → is_Some (fl !! a) ∧ (woken e = true → fl !! a = Some true).

Lemma get_ent_ok p w e : ents w !! p = Some e → get_ent p w = ok (e, w).
Proof. intros H. unfold get_ent. by rewrite H. Qed.
Lemma get_chan_ok c w ch : chans w !! c = Some ch → get_chan c w = ok (ch, w).
Proof. intros H. unfold get_chan. by rewrite H. Qed.
Lemma get_fiber_ok i w f : fibers w !! i = Some f → get_fiber i w = ok (f, w).
Proof. intros H. unfold get_fiber. by rewrite H. Qed.
Lemma upd_ent_ok p f w e :
  ents w !! p = Some e → upd_ent p f w = ok (tt, set_ents (<[p := f e]>) w).
Proof. intros H. unfold upd_ent. by erewrite prog_bind_ok by (by apply get_ent_ok). Qed.
Lemma upd_chan_ok c f w ch :
  chans w !! c = Some ch → upd_chan c f w = ok (tt, set_chans (<[c := f ch]>) w).
Proof. intros H. unfold upd_chan. by erewrite prog_bind_ok by (by apply get_chan_ok). Qed.

Lemma try_claim_wake_true p w e :
  ents w !! p = Some e → claimable (flags w) e = true →
  try_claim_wake p w = ok (true, claimed p e w).
Proof.
  intros He Hc. unfold claimable, flag_clear in Hc. unfold try_claim_wake, claimed, claim_flags.
  erewrite prog_bind_ok by (by apply get_ent_ok).
  destruct (cancelled e), (woken e); try done. simpl in Hc.
  destruct (fired e) as [a|] eqn:Ef.
  - destruct (flags w !! a) as [[]|] eqn:Ea; try done.
    erewrite prog_bind_ok.
    2:{ unfold get_flag. unfold mbind, prog_bind. rewrite Ea. done. }
    simpl. erewrite prog_bind_ok by (apply (upd_ent_ok p set_woken (set_flags (<[a:=true]>) w) e); done).
    done.
  - erewrite prog_bind_ok by done. simpl.
    erewrite prog_bind_ok by (apply (upd_ent_ok p set_woken w e); done). by destruct w.
Qed.

Lemma try_claim_wake_false p w e :
  ents w !! p = Some e → flags_ok (flags w) e → cancelled e = false →
  claimable (flags w) e = false → try_claim_wake p w = ok (false, w).
Proof.
  intros He Hf Hc Hn. unfold claimable, flag_clear in Hn. unfold try_claim_wake.
  erewrite prog_bind_ok by (by apply get_ent_ok). rewrite Hc in Hn. simpl in Hn.
  destruct (fired e) as [a|] eqn:Ef.
  - destruct (Hf a Ef) as [[b Hb] Hw].
    erewrite prog_bind_ok.
    2:{ unfold get_flag, mbind, prog_bind. rewrite Hb. simpl.
        destruct b; [done|]. destruct (woken e); [by rewrite Hw in Hb|].
        rewrite Hb in Hn. done. }
    done.
  - erewrite prog_bind_ok by done. simpl. by destruct (woken e).
Qed.
(** ** The invariant of the world *)

Record ring_ok (ch : goc_chan) : Prop := {
  ro_len : Z.of_nat (length (buf ch)) = buf_size ch;
  ro_size : 0 <= buf_size ch < 2 ^ 60;
  ro_head : 0 <= buf_head ch ∧ (buf_size ch = 0 ∨ buf_head ch < buf_size ch);
  ro_count : 0 <= buf_count ch <= buf_size ch;
  ro_items : item_count ch = buf_count ch
}.

Record chan_ok (h : gmap positive goc_entry) (ch : goc_chan) (l : side → list positive) : Prop := {
  co_ring : ring_ok ch;
  co_chain : ∀ s, chain h (head_of s ch) (l s);
  co_tail : ∀ s, tail_of s ch = None ∨ tail_of s ch = last (l s);
  co_closed : closed ch = true → ∀ s, l s = []
}.

Record entry_ok (w : world) (e : goc_entry) : Prop := {
  eo_flags : flags_ok (flags w) e;
  eo_fiber : kind e = GOC_FIBER → is_Some (fibers w !! coro e);
  eo_park : kind e = GOC_FIBER → claimable (flags w) e = true →
    parked_gen e = 1 ∧ ∃ f, fibers w !! coro e = Some f ∧ (parked f = 3 ∨ parked f = 4);
  eo_sync : kind e = GOC_SYNC → claimable (flags w) e = true → is_Some (syncs w !! sync_sem_ptr e);
  eo_drain : cancelled e = true ∨ is_Some (fired e) → free_on_drain e = false
}.

(** No waiter of fiber [i] can be woken. *)
Definition quiet (w : world) (i : positive) : Prop :=
  ∀ p e, ents w !! p = Some e → kind e = GOC_FIBER → coro e = i → claimable (flags w) e = false.

(** A select whose flag is up has exactly one arm that was woken. *)
Definition select_ok (h : gmap positive goc_entry) (fl : gmap positive bool) : Prop :=
  ∀ a, fl !! a = Some true → ∃ p e, h !! p = Some e ∧ fired e = Some a ∧ woken e = true ∧
    ∀ q e', h !! q = Some e' → fired e' = Some a → woken e' = true → q = p.

(** Only the fired flag and the woken mark of the entries matter. *)
Lemma select_ok_ext h h' fl :
  (∀ p e, h !! p = Some e → is_Some (fired e) →
     ∃ e', h' !! p = Some e' ∧ fired e' = fired e ∧ woken e' = woken e) →
  (∀ p e', h' !! p = Some e' → woken e' = true → is_Some (fired e') →
     ∃ e, h !! p = Some e ∧ fired e = fired e' ∧ woken e = true) →
  select_ok h fl → select_ok h' fl.
Proof.
  intros Hf Hb Hs a Ha. destruct (Hs a Ha) as (p & e & Hp & Hfe & Hw & Hu).
  destruct (Hf p e Hp) as (e' & Hp' & Hfe' & Hw'); [by rewrite Hfe|].
  exists p, e'. split_and!; [done|congruence|congruence|].
  intros q eq Hq Hfq Hwq. destruct (Hb q eq Hq Hwq) as (e0 & Hq0 & Hf0 & Hw0); [by rewrite Hfq|].
  apply (Hu q e0 Hq0); [congruence|done].
Qed.

(** Claiming an entry that can be claimed. *)
Lemma select_ok_claim h fl p e e' :
  (∀ q e1, h !! q = Some e1 → flags_ok fl e1) → select_ok h fl → h !! p = Some e →
  claimable fl e = true → fired e' = fired e → woken e' = true →
  select_ok (<[p := e']> h) (claim_flags e fl).
Proof.
  intros Hfl Hs Hp Hc Hfe Hw a. unfold claim_flags.
  assert (Hnw : woken e = false) by (unfold claimable in Hc; by destruct (cancelled e), (woken e)).
  assert (Hold : ∀ b, fl !! b = Some true → fired e ≠ Some b).
  { intros b Hb Heb. unfold claimable, flag_clear in Hc. rewrite Heb, Hb in Hc.
    by rewrite andb_false_r in Hc. }
  assert (Hkeep : fl !! a = Some true → ∃ p0 e0, <[p := e']> h !! p0 = Some e0 ∧ fired e0 = Some a ∧
    woken e0 = true ∧ ∀ q e1, <[p := e']> h !! q = Some e1 → fired e1 = Some a → woken e1 = true → q = p0).
  { intros Ha. destruct (Hs a Ha) as (p0 & e0 & Hp0 & Hf0 & Hw0 & Hu). exists p0, e0.
    assert (p0 ≠ p) by (intros ->; congruence). rewrite lookup_insert_ne by done. split_and!; try done.
    intros q e1. rewrite lookup_insert. case_decide; [|apply Hu]. intros [= <-]. rewrite Hfe.
    intros Hfa. by destruct (Hold a Ha). }
  destruct (fired e) as [b|] eqn:Hb; [|done]. rewrite lookup_insert. case_decide; [|done]. subst b.
  intros _. exists p, e'. rewrite lookup_insert_eq. split_and!; try done.
  intros q e1. rewrite lookup_insert. case_decide; [done|]. intros Hq Hfq Hwq.
  destruct (Hfl q e1 Hq a Hfq) as [_ Ht]. by destruct (Hold a (Ht Hwq)).
Qed.

(** [L c s] lists the entries linked on side [s] of channel [c]. *)
Record world_ok (L : positive → side → list positive) (w : world) : Prop := {
  wo_chan : ∀ c ch, chans w !! c = Some ch → chan_ok (ents w) ch (L c);
  wo_none : ∀ c s, chans w !! c = None → L c s = [];
  wo_nodup : ∀ c s, NoDup (L c s);
  wo_disj : ∀ c s c' s' p, p ∈ L c s → p ∈ L c' s' → c = c' ∧ s = s';
  wo_ent : ∀ p e, ents w !! p = Some e → entry_ok w e;
  wo_wait : ∀ c s p e, p ∈ L c s → ents w !! p = Some e → fired e = None →
    claimable (flags w) e = true;
  wo_posted : ∀ i t, (i, t) ∈ runq w →
    (∃ f, fibers w !! i = Some f ∧ parked f = 4) ∧ quiet w i;
  wo_runq : NoDup (runq w).*1;
  wo_uniq : ∀ p p' e e', ents w !! p = Some e → ents w !! p' = Some e' →
    kind e = GOC_FIBER → kind e' = GOC_FIBER → coro e = coro e' →
    claimable (flags w) e = true → claimable (flags w) e' = true →
    p = p' ∨ (is_Some (fired e) ∧ fired e = fired e');
  wo_suniq : ∀ p p' e e', ents w !! p = Some e → ents w !! p' = Some e' →
    kind e = GOC_SYNC → kind e' = GOC_SYNC → sync_sem_ptr e = sync_sem_ptr e' →
    p = p' ∨ (is_Some (fired e) ∧ fired e = fired e');
  wo_sync_old : ∀ p e, ents w !! p = Some e → kind e = GOC_SYNC → (sync_sem_ptr e < next_id w)%positive;
  wo_fresh_ent : ∀ p, is_Some (ents w !! p) → (p < next_id w)%positive;
  wo_fresh_chan : ∀ c, is_Some (chans w !! c) → (c < next_id w)%positive;
  wo_fresh_flag : ∀ a, is_Some (flags w !! a) → (a < next_id w)%positive;
  wo_fresh_sync : ∀ a, is_Some (syncs w !! a) → (a < next_id w)%positive;
  wo_select : select_ok (ents w) (flags w)
}.

Lemma wo_linked L w c s p : world_ok L w → p ∈ L c s → ∃ e, ents w !! p = Some e.
Proof.
  intros Hw Hp. destruct (chans w !! c) as [ch|] eqn:Hc.
  - eapply chain_lookup; [|done]. apply (wo_chan _ _ Hw c ch Hc).
  - rewrite (wo_none _ _ Hw c s Hc) in Hp. by apply not_elem_of_nil in Hp.
Qed.

Definition relist (L : positive → side → list positive) (c : positive)
    (l : side → list positive) : positive → side → list positive :=
  λ c', if decide (c' = c) then l else L c'.

(** A channel's record and lists change, and nothing is linked that was not. *)
Lemma world_ok_chan L w c ch ch' l :
  world_ok L w → chans w !! c = Some ch → chan_ok (ents w) ch' l →
  (∀ s, NoDup (l s)) → (∀ s p, p ∈ l s → p ∈ L c s) →
  world_ok (relist L c l) (set_chans (<[c := ch']>) w).
Proof.
  intros Hw Hc Hch Hnd Hsub.
  assert (Hin : ∀ c' s p, p ∈ relist L c l c' s → p ∈ L c' s).
  { intros c' s p. unfold relist. case_decide; [subst; apply Hsub|done]. }
  destruct Hw as [H1 H2 H3 H4 H5 H6 H7 H8 H9 Hsu Hso H10 H11 H12 H13 Hsel]. split; simpl; try done.
  - intros c' ch1. unfold relist. destruct (decide (c' = c)) as [->|Hne].
    + rewrite lookup_insert_eq. by intros [= <-].
    + rewrite lookup_insert_ne by done. apply H1.
  - intros c' s. unfold relist. destruct (decide (c' = c)) as [->|Hne].
    + by rewrite lookup_insert_eq.
    + rewrite lookup_insert_ne by done. apply H2.
  - intros c' s. unfold relist. case_decide; [done|apply H3].
  - intros c1 s1 c2 s2 p Hp1%Hin Hp2%Hin. by eapply H4.
  - intros p e Hp. destruct (H5 p e Hp). by split.
  - intros c' s p e Hp%Hin. by eapply H6.
  - intros c' Hc'. apply H11. rewrite lookup_insert in Hc'. case_decide; [subst; eauto|done].
Qed.

Lemma relist_id L c c' s : relist L c (L c) c' s = L c' s.
Proof. unfold relist. by case_decide; subst. Qed.

(** [L] matters only pointwise. *)
Lemma world_ok_ext L L' w : (∀ c s, L c s = L' c s) → world_ok L w → world_ok L' w.
Proof.
  intros HL [H1 H2 H3 H4 H5 H6 H7 H8 H9 Hsu Hso H10 H11 H12 H13 Hsel]. split; try done.
  - intros c ch Hc. destruct (H1 c ch Hc) as [? Hch Ht Hcl]. split; [done|..].
    + intros s. rewrite <- HL. apply Hch.
    + intros s. rewrite <- HL. apply Ht.
    + intros ? s. rewrite <- HL. by apply Hcl.
  - intros c s. rewrite <- HL. apply H2.
  - intros c s. rewrite <- HL. apply H3.
  - intros c s c' s' p. rewrite <- !HL. apply H4.
  - intros c s p e. rewrite <- HL. apply H6.
Qed.

(** A change of a channel's record that keeps its lists. *)
Lemma world_ok_same_lists L w c ch ch' :
  world_ok L w → chans w !! c = Some ch → ring_ok ch' →
  (∀ s, head_of s ch' = head_of s ch) → (∀ s, tail_of s ch' = tail_of s ch) →
  (closed ch' = true → closed ch = true) →
  world_ok L (set_chans (<[c := ch']>) w).
Proof.
  intros Hw Hc Hr Hh Ht Hcl. pose proof (wo_chan _ _ Hw c ch Hc) as [? ? ? ?].
  apply (world_ok_ext (relist L c (L c))); [intros; apply relist_id|].
  eapply world_ok_chan; try done.
  - split; [done|intros s; by rewrite Hh|intros s; by rewrite Ht|]. auto.
  - intros s. apply (wo_nodup _ _ Hw).
Qed.
(** *** Claiming a waiter *)

(** [e'] is [e] after a successful claim. *)
Record marks (e e' : goc_entry) : Prop := {
  mk_kind : kind e' = kind e;
  mk_cancelled : cancelled e' = cancelled e;
  mk_woken : woken e' = true;
  mk_fired : fired e' = fired e;
  mk_next : next e' = next e;
  mk_coro : coro e' = coro e;
  mk_sync : sync_sem_ptr e' = sync_sem_ptr e;
  mk_drain : free_on_drain e' = free_on_drain e
}.

Definition home_target (f : fiber) : option Z :=
  match fpool f with
  | Some n => if negb (fhome f =? SIZE_MAX) && (fhome f <? n) then Some (fhome f) else None
  | None => None
  end.

(** The fiber is suspended ([parked] is 4) and posted. *)
Definition posted (i : positive) (t : option Z) (w : world) : world :=
  match fibers w !! i with
  | Some f => push_runq (i, t) (set_fibers (<[i := mk_fiber 4 (fhome f) (fpool f)]>) w)
  | None => w
  end.

(** What waking [e] hands to the scheduler. *)
Definition notified (p : positive) (e : goc_entry) (v : Z) (t : option Z) (w : world) : world :=
  match kind e with
  | GOC_FIBER => posted (coro e) t w
  | GOC_CALLBACK => push_cbq (p, v) w
  | GOC_SYNC => set_syncs (<[sync_sem_ptr e := true]>) w
  end.

Definition unlinked (L : positive → side → list positive) (p : positive) : Prop :=
  ∀ c s, p ∉ L c s.

Lemma claim_flags_mono e fl e1 :
  claimable (claim_flags e fl) e1 = true → claimable fl e1 = true.
Proof.
  unfold claimable, flag_clear, claim_flags. destruct (fired e) as [a|]; [|done].
  destruct (fired e1) as [a1|]; [|done]. rewrite lookup_insert. case_decide; [|done].
  by destruct (cancelled e1), (woken e1).
Qed.

Lemma claim_flags_self e fl : is_Some (fired e) → ∀ e1, fired e1 = fired e →
  claimable (claim_flags e fl) e1 = false.
Proof.
  intros [a Ha] e1 He1. unfold claimable, flag_clear, claim_flags. rewrite He1, Ha, lookup_insert_eq.
  by rewrite andb_false_r.
Qed.

Lemma claim_flags_is_Some e fl a : is_Some (fl !! a) → is_Some (claim_flags e fl !! a).
Proof. unfold claim_flags. destruct (fired e); [|done]. rewrite lookup_insert. by case_decide. Qed.

Lemma claim_flags_true e fl a : fl !! a = Some true → claim_flags e fl !! a = Some true.
Proof. unfold claim_flags. destruct (fired e); [|done]. rewrite lookup_insert. by case_decide. Qed.

Lemma claimable_woken fl e : woken e = true → claimable fl e = false.
Proof. unfold claimable. intros ->. by rewrite andb_false_r. Qed.

Lemma claim_entry_ok w w' e :
  (∀ a, is_Some (flags w !! a) → is_Some (flags w' !! a)) →
  (∀ a, flags w !! a = Some true → flags w' !! a = Some true) →
  (∀ e1, claimable (flags w') e1 = true → claimable (flags w) e1 = true) →
  (∀ i f, fibers w !! i = Some f → ∃ f', fibers w' !! i = Some f' ∧
     (parked f = 3 ∨ parked f = 4 → parked f' = 3 ∨ parked f' = 4)) →
  (∀ a, is_Some (syncs w !! a) → is_Some (syncs w' !! a)) →
  entry_ok w e → entry_ok w' e.
Proof.
  intros Hs Ht Hc Hf Hy [Hfl Hfib Hpark Hsync Hdr]. split; try done.
  - intros a Ha. destruct (Hfl a Ha) as [? ?]. split; [by apply Hs|]. intros ?. apply Ht. auto.
  - intros Hk. destruct (Hfib Hk) as [f Hf']. destruct (Hf _ _ Hf') as (f' & ? & _). eauto.
  - intros Hk Hcl%Hc. destruct (Hpark Hk Hcl) as (Hg & f & Hf' & Hp). split; [done|].
    destruct (Hf _ _ Hf') as (f' & ? & Hp'). eauto.
  - intros Hk Hcl%Hc. apply Hy. auto.
Qed.
Lemma world_ok_claim_step L w w' p e e' :
  world_ok L w → ents w !! p = Some e → claimable (flags w) e = true → unlinked L p → marks e e' →
  chans w' = chans w → next_id w' = next_id w →
  ents w' = <[p := e']> (ents w) → flags w' = claim_flags e (flags w) →
  (∀ i f, fibers w !! i = Some f → ∃ f', fibers w' !! i = Some f' ∧
     (parked f = 3 ∨ parked f = 4 → parked f' = 3 ∨ parked f' = 4) ∧
     (parked f = 4 → parked f' = 4)) →
  (∀ a, is_Some (syncs w !! a) ↔ is_Some (syncs w' !! a)) →
  runq w' = runq w ∨
    (kind e = GOC_FIBER ∧ (∃ t, runq w' = runq w ++ [(coro e, t)]) ∧
     ∃ f, fibers w' !! coro e = Some f ∧ parked f = 4) →
  world_ok L w'.
Proof.
  intros Hw Hp Hcl Hun Hm Hch Hid Hen Hfl Hfb Hsy Hrq.
  assert (Hmono : ∀ e1, claimable (flags w') e1 = true → claimable (flags w) e1 = true).
  { intros e1. rewrite Hfl. apply claim_flags_mono. }
  assert (Hdead : claimable (flags w') e' = false) by (apply claimable_woken, (mk_woken _ _ Hm)).
  assert (Hold : ∀ q e1, ents w' !! q = Some e1 → claimable (flags w') e1 = true →
            ents w !! q = Some e1 ∧ q ≠ p ∧ claimable (flags w) e1 = true).
  { intros q e1. rewrite Hen, lookup_insert. case_decide; [intros [= <-]; congruence|]. auto. }
  assert (Hany : ∀ q e1, ents w' !! q = Some e1 → ∃ e0, ents w !! q = Some e0 ∧
            kind e1 = kind e0 ∧ fired e1 = fired e0 ∧ sync_sem_ptr e1 = sync_sem_ptr e0).
  { intros q e1. rewrite Hen, lookup_insert. case_decide; [|eauto 10]. intros [= <-]. subst q.
    exists e. destruct Hm. by split_and!. }
  assert (Hquiet : ∀ i, quiet w i → quiet w' i).
  { intros i Hq q e1 Hq1 Hk Hc. destruct (claimable (flags w') e1) eqn:E; [|done].
    destruct (Hold q e1 Hq1 E) as (Ho & _ & Hcl1). by rewrite (Hq q e1 Ho Hk Hc) in Hcl1. }
  assert (Hself : kind e = GOC_FIBER → quiet w' (coro e)).
  { intros Hk q e1 Hq1 Hk1 Hc1. destruct (claimable (flags w') e1) eqn:E; [|done].
    destruct (Hold q e1 Hq1 E) as (Ho & Hne & Hcl1).
    destruct (wo_uniq _ _ Hw p q e e1 Hp Ho Hk Hk1 (eq_sym Hc1) Hcl Hcl1) as [?|[Hs Heq]]; [done|].
    rewrite Hfl, (claim_flags_self e _ Hs e1 (eq_sym Heq)) in E. done. }
  pose proof Hw as [H1 H2 H3 H4 H5 H6 H7 H8 H9 Hsu Hso H10 H11 H12 H13 Hsel].
  split; rewrite ?Hch, ?Hid; try done.
  - intros c ch Hc. destruct (H1 c ch Hc) as [? Hcn ? ?]. split; try done.
    intros s. eapply chain_ext; [|apply Hcn]. rewrite Hen. apply same_next_out, Hun.
  - intros q e1. rewrite Hen, lookup_insert. case_decide as Hq.
    + intros [= <-]. destruct (H5 p e Hp) as [Hf1 Hf2 _ _ Hf5]. split.
      * intros a. rewrite (mk_fired _ _ Hm), Hfl. intros Ha. unfold claim_flags. rewrite Ha, lookup_insert_eq.
        split; [eauto|done].
      * rewrite (mk_kind _ _ Hm), (mk_coro _ _ Hm). intros Hk. destruct (Hf2 Hk) as [f Hf].
        destruct (Hfb _ _ Hf) as (f' & ? & _). eauto.
      * congruence.
      * congruence.
      * by rewrite (mk_cancelled _ _ Hm), (mk_drain _ _ Hm), (mk_fired _ _ Hm).
    + intros Hq1. eapply (claim_entry_ok w); [..|by eapply H5].
      * intros a. rewrite Hfl. apply claim_flags_is_Some.
      * intros a. rewrite Hfl. apply claim_flags_true.
      * done.
      * intros i f Hf. destruct (Hfb i f Hf) as (f' & ? & ? & _). eauto.
      * intros a. apply Hsy.
  - intros c s q e1 Hq. rewrite Hen, lookup_insert_ne by (intros <-; by apply (Hun c s)).
    intros Hq1 Hnf. pose proof (H6 c s q e1 Hq Hq1 Hnf) as Hc1. unfold claimable, flag_clear in *.
    by rewrite Hnf in *.
  - intros i t Hin.
    assert (Hor : (i, t) ∈ runq w ∨ kind e = GOC_FIBER ∧ i = coro e ∧
                  ∃ f, fibers w' !! coro e = Some f ∧ parked f = 4).
    { destruct Hrq as [Hr|(Hk & (t' & Hr) & Hf)]; rewrite Hr in Hin; [by left|].
      apply elem_of_app in Hin as [?|[= -> ->]%list_elem_of_singleton]; eauto. }
    destruct Hor as [Hin'|(Hk & -> & Hf)]; [|eauto].
    destruct (H7 i t Hin') as [(f & Hf & H4') Hq]. split; [|auto].
    destruct (Hfb i f Hf) as (f' & ? & _ & ?). eauto.
  - destruct Hrq as [->|(Hk & (t & ->) & _)]; [done|]. rewrite fmap_app. apply NoDup_app.
    split_and!; [done| |apply NoDup_singleton].
    intros i [[i' t'] [-> Hin]]%list_elem_of_fmap Hi%list_elem_of_singleton. simpl in Hi. subst i'.
    destruct (H7 _ _ Hin) as [_ Hq]. rewrite (Hq p e Hp Hk eq_refl) in Hcl. done.
  - intros q1 q2 e1 e2 Hq1 Hq2 Hk1 Hk2 Hc Hcl1 Hcl2.
    destruct (Hold q1 e1 Hq1 Hcl1) as (? & _ & ?), (Hold q2 e2 Hq2 Hcl2) as (? & _ & ?). by eapply H9.
  - intros q1 q2 e1 e2 Hq1 Hq2 Hk1 Hk2 Hs.
    destruct (Hany q1 e1 Hq1) as (o1 & Ho1 & A1 & B1 & C1), (Hany q2 e2 Hq2) as (o2 & Ho2 & A2 & B2 & C2).
    rewrite B1, B2. eapply Hsu; try done; congruence.
  - intros q e1 Hq1 Hk1. destruct (Hany q e1 Hq1) as (o1 & Ho1 & A1 & B1 & C1).
    rewrite C1. eapply Hso; [done|congruence].
  - intros q. rewrite Hen, lookup_insert. case_decide; [subst; eauto|apply H10].
  - intros a Ha. apply H12. revert Ha. rewrite Hfl. unfold claim_flags.
    destruct (fired e) as [b|] eqn:Ef; [|done]. rewrite lookup_insert. case_decide; [|done].
    subst b. intros _. by apply (eo_flags _ _ (H5 p e Hp) a).
  - intros a Ha. apply H13. by apply Hsy.
  - rewrite Hen, Hfl. eapply select_ok_claim; try done; [intros q e1 Hq1; apply (H5 q e1 Hq1)|apply Hm..].
Qed.

Lemma posted_parts i t w f :
  fibers w !! i = Some f →
  posted i t w = push_runq (i, t) (set_fibers (<[i := mk_fiber 4 (fhome f) (fpool f)]>) w).
Proof. intros Hf. unfold posted. by rewrite Hf. Qed.

Lemma fibers_gate (w : world) i f g j fj :
  fibers w !! i = Some f → fibers w !! j = Some fj →
  ∃ f', (<[i := mk_fiber 4 (fhome g) (fpool g)]> (fibers w)) !! j = Some f' ∧
     (parked fj = 3 ∨ parked fj = 4 → parked f' = 3 ∨ parked f' = 4) ∧ (parked fj = 4 → parked f' = 4).
Proof.
  intros Hf Hj. rewrite lookup_insert. case_decide; [eexists; split; [done|]; simpl; auto|eauto].
Qed.

(** Claiming an unlinked waiter and notifying it keeps the invariant. *)
Lemma world_ok_claim L w p e e' v t :
  world_ok L w → ents w !! p = Some e → claimable (flags w) e = true → unlinked L p → marks e e' →
  world_ok L (notified p e v t (set_ents (<[p := e']>) (set_flags (claim_flags e) w))).
Proof.
  intros Hw Hp Hcl Hun Hm. pose proof (wo_ent _ _ Hw p e Hp) as [_ Hfib _ Hsync _].
  unfold notified. destruct (kind e) eqn:Hk.
  - destruct (Hfib eq_refl) as [f Hf]. rewrite (posted_parts _ _ _ f) by done.
    eapply (world_ok_claim_step L w _ p e e'); try done; simpl.
    + intros i fi Hi. by eapply fibers_gate.
    + right. split; [done|]. rewrite lookup_insert_eq. split; [eauto|]. eexists. by split.
  - eapply (world_ok_claim_step L w _ p e e'); try done; simpl; [eauto 10|by left].
  - eapply (world_ok_claim_step L w _ p e e'); try done; simpl; [eauto 10| |by left].
    intros a. rewrite lookup_insert. case_decide; [|done]. subst. split; [eauto|].
    intros _. by apply Hsync.
Qed.
(** *** The wake functions on a well-formed world *)

Lemma wait_ok i f w :
  fibers w !! i = Some f → parked f = 3 ∨ parked f = 4 →
  wait_for_fiber_suspended i 4 w =
    ok (true, set_fibers (<[i := mk_fiber 4 (fhome f) (fpool f)]>) w).
Proof.
  intros Hf Hp. unfold wait_for_fiber_suspended. cbn [wait_loop].
  erewrite prog_bind_ok by (by apply get_fiber_ok). destruct Hp as [Hp|Hp]; rewrite Hp; simpl.
  - unfold yield_gate, set_parked.
    assert (Hg : (f ← get_fiber i; if Z.odd (parked f) then
                   f0 ← get_fiber i; modify (set_fibers (<[i := mk_fiber (parked f +% 1) (fhome f0) (fpool f0)]>))
                 else mret tt) w = ok (tt, set_fibers (<[i := mk_fiber 4 (fhome f) (fpool f)]>) w)).
    { erewrite prog_bind_ok by (by apply get_fiber_ok). rewrite Hp. simpl.
      by erewrite prog_bind_ok by (by apply get_fiber_ok). }
    erewrite prog_bind_ok by exact Hg.
    erewrite prog_bind_ok by (apply (get_fiber_ok _ _ (mk_fiber 4 (fhome f) (fpool f)));
      simpl; by rewrite lookup_insert_eq). done.
  - unfold set_fibers. rewrite insert_id; [by destruct w|].
    rewrite Hf. f_equal. destruct f; simpl in *. by subst.
Qed.

Lemma want_of_gen1 e : parked_gen e = 1 → want_of e = 4.
Proof. unfold want_of. intros ->. done. Qed.

Lemma post_home_ok i f w :
  fibers w !! i = Some f → post_home i w = ok (tt, push_runq (i, home_target f) w).
Proof.
  intros Hf. unfold post_home, home_target. erewrite prog_bind_ok by (by apply get_fiber_ok).
  destruct (fpool f) as [n|]; [|done]. by destruct (negb (fhome f =? SIZE_MAX) && (fhome f <? n)).
Qed.

(** A successful wake's entry. *)
Definition delivered (v : Z) (e : goc_entry) : goc_entry := set_ok GOC_OK (set_result v (set_woken e)).

Lemma delivered_marks v e : marks e (delivered v e).
Proof. by split. Qed.

Definition marked (p : positive) (e e' : goc_entry) (w : world) : world :=
  set_ents (<[p := e']>) (set_flags (claim_flags e) w).

Definition home_of_entry (e : goc_entry) (w : world) : option Z :=
  match fibers w !! coro e with Some f => home_target f | None => None end.

(** The claim, the result and the status. *)
Lemma claim_and_write p w e v :
  ents w !! p = Some e → claimable (flags w) e = true →
  ∃ w1 w2, try_claim_wake p w = ok (true, w1) ∧ upd_ent p (set_result v) w1 = ok (tt, w2) ∧
    upd_ent p (set_ok GOC_OK) w2 = ok (tt, marked p e (delivered v e) w).
Proof.
  intros He Hc. eexists _, _. split; [by apply try_claim_wake_true|]. split.
  - apply upd_ent_ok. simpl. by rewrite lookup_insert_eq.
  - erewrite upd_ent_ok by (simpl; by rewrite lookup_insert_eq). do 2 f_equal.
    unfold marked, claimed, set_ents, set_flags. destruct w. simpl. f_equal. by rewrite !insert_insert_eq.
Qed.

Lemma wake_ok L c p w e v :
  world_ok L w → ents w !! p = Some e → claimable (flags w) e = true →
  wake c p v w = ok (true, notified p e v (home_of_entry e w) (marked p e (delivered v e) w)).
Proof.
  intros Hw He Hc. unfold wake. erewrite prog_bind_ok by (by apply get_ent_ok).
  assert (cancelled e = false) as -> by (unfold claimable in Hc; by destruct (cancelled e)).
  destruct (claim_and_write p w e v He Hc) as (w1 & w2 & H1 & H2 & H3).
  erewrite prog_bind_ok by exact H1. simpl.
  erewrite prog_bind_ok by exact H2. erewrite prog_bind_ok by exact H3.
  pose proof (wo_ent _ _ Hw p e He) as [_ _ Hpark Hsync _]. unfold notified, home_of_entry.
  destruct (kind e).
  - destruct (Hpark eq_refl Hc) as (Hg & f & Hf & Hp). rewrite want_of_gen1 by done.
    erewrite prog_bind_ok by (apply wait_ok; done). simpl.
    erewrite prog_bind_ok by (apply (post_home_ok _ (mk_fiber 4 (fhome f) (fpool f)));
      simpl; by rewrite lookup_insert_eq).
    rewrite (posted_parts _ _ _ f), Hf by done. done.
  - by erewrite prog_bind_ok by done.
  - unfold goc_sync_post. destruct (Hsync eq_refl Hc) as [b Hb].
    erewrite prog_bind_ok; [done|]. unfold mbind, prog_bind. simpl. rewrite Hb. done.
Qed.

Lemma bump_dead_ok c w ch :
  chans w !! c = Some ch →
  bump_dead c w = ok (tt, set_chans (<[c := set_dead (dead_count ch +% 1) ch]>) w).
Proof. intros Hc. unfold bump_dead. by rewrite (upd_chan_ok _ _ _ ch). Qed.

Lemma wake_fail L c ch p w e v :
  world_ok L w → chans w !! c = Some ch → ents w !! p = Some e → cancelled e = false →
  claimable (flags w) e = false →
  wake c p v w = ok (false, set_chans (<[c := set_dead (dead_count ch +% 1) ch]>) w).
Proof.
  intros Hw Hch He Hcan Hc. unfold wake. erewrite prog_bind_ok by (by apply get_ent_ok).
  rewrite Hcan. erewrite prog_bind_ok by (apply (try_claim_wake_false p w e); try done;
    apply (wo_ent _ _ Hw p e He)). simpl.
  by erewrite prog_bind_ok by (by apply bump_dead_ok).
Qed.

(** What [wake_claim] leaves to its caller. *)
Definition claim_of (e : goc_entry) : option positive :=
  match kind e with GOC_FIBER => Some (coro e) | _ => None end.
Definition claim_notified (p : positive) (e : goc_entry) (v : Z) (w : world) : world :=
  match kind e with GOC_FIBER => w | _ => notified p e v None w end.

Lemma wake_claim_ok L c p w e v :
  world_ok L w → ents w !! p = Some e → claimable (flags w) e = true →
  wake_claim c p v w =
    ok (Some (claim_of e), claim_notified p e v (marked p e (delivered v e) w)).
Proof.
  intros Hw He Hc. unfold wake_claim. erewrite prog_bind_ok by (by apply get_ent_ok).
  assert (cancelled e = false) as -> by (unfold claimable in Hc; by destruct (cancelled e)).
  pose proof (wo_ent _ _ Hw p e He) as [_ _ Hpark Hsync _].
  destruct (claim_and_write p w e v He Hc) as (w1 & w2 & H1 & H2 & H3).
  unfold claim_notified, notified, claim_of.
  assert (Hst : (match kind e with
            | GOC_FIBER => f ← get_fiber (coro e); mret ((parked f =? 0) || (want_of e <? parked f))
            | _ => mret false
            end) w = ok (false, w)).
  { destruct (kind e); [|done..]. destruct (Hpark eq_refl Hc) as (Hg & f & Hf & Hp).
    erewrite prog_bind_ok by (by apply get_fiber_ok). rewrite want_of_gen1 by done.
    by destruct Hp as [-> | ->]. }
  erewrite prog_bind_ok by exact Hst. simpl.
  erewrite prog_bind_ok by exact H1. simpl.
  erewrite prog_bind_ok by exact H2. erewrite prog_bind_ok by exact H3.
  destruct (kind e).
  - done.
  - by erewrite prog_bind_ok by done.
  - unfold goc_sync_post. destruct (Hsync eq_refl Hc) as [b Hb].
    erewrite prog_bind_ok; [done|]. unfold mbind, prog_bind. simpl. rewrite Hb. done.
Qed.

Lemma wake_claim_fail L c ch p w e v :
  world_ok L w → chans w !! c = Some ch → ents w !! p = Some e → cancelled e = false →
  claimable (flags w) e = false →
  wake_claim c p v w = ok (None, set_chans (<[c := set_dead (dead_count ch +% 1) ch]>) w).
Proof.
  intros Hw Hch He Hcan Hc. unfold wake_claim. erewrite prog_bind_ok by (by apply get_ent_ok).
  rewrite Hcan. pose proof (wo_ent _ _ Hw p e He) as [Hfl Hfib _ _ _].
  assert (∃ b, (match kind e with
            | GOC_FIBER => f ← get_fiber (coro e); mret ((parked f =? 0) || (want_of e <? parked f))
            | _ => mret false
            end) w = ok (b, w)) as [b Hb].
  { destruct (kind e); [|eauto..]. destruct (Hfib eq_refl) as [f Hf].
    erewrite prog_bind_ok by (by apply get_fiber_ok). eauto. }
  erewrite prog_bind_ok by exact Hb. destruct b.
  - by erewrite prog_bind_ok by (by apply bump_dead_ok).
  - erewrite prog_bind_ok by (apply (try_claim_wake_false p w e); done). simpl.
    by erewrite prog_bind_ok by (by apply bump_dead_ok).
Qed.
(** *** Scanning a waiter list *)

Definition on_side (s : side) (l : list positive) (l0 : side → list positive) : side → list positive :=
  λ s', if decide (s' = s) then l else l0 s'.

Lemma set_chans_twice c x y w :
  set_chans (<[c := x]>) (set_chans (<[c := y]>) w) = set_chans (<[c := x]>) w.
Proof. unfold set_chans. simpl. f_equal. apply insert_insert_eq. Qed.

Lemma set_chans_id c ch w : chans w !! c = Some ch → set_chans (<[c := ch]>) w = w.
Proof. intros H. unfold set_chans. rewrite insert_id by done. by destruct w. Qed.

(** Channel [ch] with another list on side [s] and another dead count. *)
Definition trimmed (s : side) (h t : option positive) (d : Z) (ch : goc_chan) : goc_chan :=
  set_dead d (set_list s h t ch).

Lemma trimmed_ring s h t d ch : ring_ok (trimmed s h t d ch) ↔ ring_ok ch.
Proof. destruct s; split; intros []; by split. Qed.
Lemma trimmed_head s h t d ch : head_of s (trimmed s h t d ch) = h.
Proof. by destruct s. Qed.
Lemma trimmed_tail s h t d ch : tail_of s (trimmed s h t d ch) = t.
Proof. by destruct s. Qed.
Lemma trimmed_closed s h t d ch : closed (trimmed s h t d ch) = closed ch.
Proof. by destruct s. Qed.
Lemma trimmed_other s s' h t d ch : s' ≠ s →
  head_of s' (trimmed s h t d ch) = head_of s' ch ∧ tail_of s' (trimmed s h t d ch) = tail_of s' ch.
Proof. by destruct s, s'. Qed.
Lemma trimmed_trimmed s h t d h' t' d' ch :
  trimmed s h' t' d' (trimmed s h t d ch) = trimmed s h' t' d' ch.
Proof. by destruct s. Qed.
Lemma trimmed_id s ch : trimmed s (head_of s ch) (tail_of s ch) (dead_count ch) ch = ch.
Proof. by destruct s, ch. Qed.

Lemma chain_head h p l : chain h p l → p = head l.
Proof. destruct l; simpl; [done|]. by intros [-> _]. Qed.

(** Dropping a prefix of one list. *)
Lemma world_ok_trim L w c ch s l1 l2 t d :
  world_ok L w → chans w !! c = Some ch → L c s = l1 ++ l2 →
  t = None ∨ t = last l2 →
  world_ok (relist L c (on_side s l2 (L c))) (set_chans (<[c := trimmed s (head l2) t d ch]>) w).
Proof.
  intros Hw Hc Hl Ht. pose proof (wo_chan _ _ Hw c ch Hc) as [Hr Hch Htl Hcl].
  assert (Hsub : ∀ s' p, p ∈ on_side s l2 (L c) s' → p ∈ L c s').
  { intros s' p. unfold on_side. case_decide; [subst|done]. rewrite Hl, elem_of_app. by right. }
  eapply world_ok_chan; try done.
  - split.
    + by apply trimmed_ring.
    + intros s'. unfold on_side. case_decide as Hs.
      * subst. rewrite trimmed_head. specialize (Hch s). rewrite Hl in Hch. clear -Hch.
        revert Hch. generalize (head_of s ch). induction l1 as [|x l1 IH]; intros p Hp; simpl in Hp.
        { by rewrite <- (chain_head _ _ _ Hp). }
        destruct Hp as (_ & e & _ & Hp). by eapply IH.
      * destruct (trimmed_other s s' (head l2) t d ch Hs) as [-> _]. apply Hch.
    + intros s'. unfold on_side. case_decide as Hs; [subst; by rewrite trimmed_tail|].
      destruct (trimmed_other s s' (head l2) t d ch Hs) as [_ ->]. apply Htl.
    + rewrite trimmed_closed. intros Hclo s'. specialize (Hcl Hclo). unfold on_side.
      case_decide; [|apply Hcl]. subst. rewrite Hcl in Hl. by destruct l1, l2.
  - intros s'. unfold on_side. case_decide; [|apply (wo_nodup _ _ Hw)].
    pose proof (wo_nodup _ _ Hw c s) as Hn. rewrite Hl in Hn. by apply NoDup_app in Hn as (_ & _ & ?).
Qed.

(** What the matching functions assume of their attempt to wake an entry. *)
Record attempt_ok {A} (c : positive) (attempt : positive → goc_entry → prog world (option A))
    (ret : goc_entry → A) (eff : positive → goc_entry → world → world) : Prop := {
  at_fail : ∀ L w ch p e, world_ok L w → chans w !! c = Some ch → ents w !! p = Some e →
    cancelled e = false → claimable (flags w) e = false →
    attempt p e w = ok (None, set_chans (<[c := set_dead (dead_count ch +% 1) ch]>) w);
  at_succ : ∀ L w p e, world_ok L w → ents w !! p = Some e → claimable (flags w) e = true →
    attempt p e w = ok (Some (ret e), eff p e w);
  at_comm : ∀ p e f w, eff p e (set_chans f w) = set_chans f (eff p e w);
  at_chans : ∀ p e w, chans (eff p e w) = chans w
}.

Definition dead_entry (w : world) (p : positive) : Prop :=
  ∃ e, ents w !! p = Some e ∧ claimable (flags w) e = false.

Lemma pop_head_ok s c n w ch : chans w !! c = Some ch →
  pop_head s c n w =
    ok (tt, set_chans (<[c := set_list s n (match n with None => None | _ => tail_of s ch end) ch]>) w).
Proof. intros Hc. unfold pop_head. by rewrite (upd_chan_ok _ _ _ ch). Qed.

Lemma last_cons_tail (x : positive) l t :
  (t = None ∨ t = last (x :: l)) →
  (match head l with None => None | _ => t end) = None ∨
  (match head l with None => None | _ => t end) = last l.
Proof. destruct l; simpl; [by left|]. done. Qed.

Lemma set_list_trimmed s n t h t' d ch :
  set_list s n t (trimmed s h t' d ch) = trimmed s n t d ch.
Proof. by destruct s. Qed.
Lemma set_dead_trimmed s h t d d' ch : set_dead d' (trimmed s h t d ch) = trimmed s h t d' ch.
Proof. by destruct s. Qed.
Lemma trimmed_dead s h t d ch : dead_count (trimmed s h t d ch) = d.
Proof. by destruct s. Qed.
Section scan.
Context {A : Type} (c : positive) (attempt : positive → goc_entry → prog world (option A)).
Context (ret : goc_entry → A) (eff : positive → goc_entry → world → world).
Hypothesis Hatt : attempt_ok c attempt ret eff.

(** The outcome of a scan of the list [l] of side [s] of [ch]: no entry can be
    woken and the list is empty now, or the first that can be is woken, and it and
    those before it are unlinked. *)
Definition scanned (s : side) (ch : goc_chan) (l : list positive) (w : world)
    (r : res (option A * world)) : Prop :=
  (Forall (dead_entry w) l ∧
     ∃ d, r = ok (None, set_chans (<[c := trimmed s None None d ch]>) w)) ∨
  (∃ l1 p e l2 d t, l = l1 ++ p :: l2 ∧ Forall (dead_entry w) l1 ∧ ents w !! p = Some e ∧
     claimable (flags w) e = true ∧ (t = None ∨ t = last l2) ∧
     r = ok (Some (ret e), set_chans (<[c := trimmed s (head l2) t d ch]>) (eff p e w))).

Lemma scan_loop s ch w : ∀ l fuel L t d,
  let w0 := set_chans (<[c := trimmed s (head l) t d ch]>) w in
  world_ok L w0 → L c s = l → (t = None ∨ t = last l) → (length l < fuel)%nat →
  scanned s ch l w (scan_waiters fuel s c attempt w0).
Proof.
  induction l as [|p l IH]; intros [|fuel] L t d w0 Hw HL Ht Hfuel; simpl in Hfuel; try lia.
  - left. split; [constructor|]. exists d. cbn [scan_waiters].
    erewrite prog_bind_ok by (apply get_chan_ok; simpl; apply lookup_insert_eq).
    rewrite trimmed_head. simpl. unfold mret, prog_ret. unfold w0.
    assert (t = None) as -> by (by destruct Ht). done.
  - destruct (wo_linked L w0 c s p Hw) as [e He]; [rewrite HL; constructor|].
    assert (Hc0 : chans w0 !! c = Some (trimmed s (Some p) t d ch)) by (simpl; apply lookup_insert_eq).
    pose proof (wo_chan _ _ Hw c _ Hc0) as [_ Hch _ _]. specialize (Hch s).
    rewrite trimmed_head, HL in Hch. destruct Hch as (_ & e' & He' & Hch).
    assert (e' = e) as -> by congruence. pose proof (chain_head _ _ _ Hch) as Hnext.
    pose proof (last_cons_tail p l t Ht) as Htl. set (t1 := match head l with None => None | _ => t end) in *.
    assert (Hpop : ∀ d' w1, chans w1 !! c = Some (trimmed s (Some p) t d' ch) →
              pop_head s c (next e) w1 = ok (tt, set_chans (<[c := trimmed s (head l) t1 d' ch]>) w1)).
    { intros d' w1 Hw1. rewrite (pop_head_ok _ _ _ _ _ Hw1), set_list_trimmed, trimmed_tail, Hnext. done. }
    cbn [scan_waiters]. erewrite prog_bind_ok by (by apply get_chan_ok).
    rewrite trimmed_head. erewrite prog_bind_ok by (by apply get_ent_ok).
    assert (Hrec : claimable (flags w) e = false → ∀ d',
      scanned s ch (p :: l) w
        (scan_waiters fuel s c attempt (set_chans (<[c := trimmed s (head l) t1 d' ch]>) w))).
    { intros Hd d'.
      pose proof (world_ok_trim L w0 c _ s [p] l t1 d' Hw Hc0 HL Htl) as Hw1.
      rewrite trimmed_trimmed in Hw1. unfold w0 in Hw1. rewrite set_chans_twice in Hw1.
      destruct (IH fuel _ t1 d' Hw1) as [[Hall (d2 & Hr)]|(l1 & q & eq & l2 & d2 & t2 & -> & Hall & Hq & Hc & Ht2 & Hr)].
      - unfold relist, on_side. rewrite decide_True by done. by rewrite decide_True.
      - done.
      - lia.
      - left. split; [constructor; [by exists e|done]|]. eauto.
      - right. exists (p :: l1), q, eq, l2, d2, t2. split_and!; try done. constructor; [by exists e|done]. }
    destruct (cancelled e) eqn:Hcan.
    { erewrite prog_bind_ok by (by apply Hpop). unfold w0. rewrite set_chans_twice. apply Hrec.
      unfold claimable. by rewrite Hcan. }
    destruct (claimable (flags w) e) eqn:Hcl.
    + erewrite prog_bind_ok by (by eapply (at_succ _ _ _ _ Hatt)).
      erewrite prog_bind_ok.
      2:{ apply Hpop. rewrite (at_chans _ _ _ _ Hatt). done. }
      right. exists [], p, e, l, d, t1. split_and!; try done.
      unfold mret, prog_ret, w0. by rewrite (at_comm _ _ _ _ Hatt), set_chans_twice.
    + erewrite prog_bind_ok by (by eapply (at_fail _ _ _ _ Hatt)).
      erewrite prog_bind_ok.
      2:{ apply (Hpop (dead_count (trimmed s (Some p) t d ch) +% 1)). simpl.
          by rewrite lookup_insert_eq, set_dead_trimmed. }
      unfold w0. rewrite !set_chans_twice. by apply Hrec.
Qed.

Lemma scan_ok s ch L w :
  world_ok L w → chans w !! c = Some ch → scanned s ch (L c s) w (scan s c attempt w).
Proof.
  intros Hw Hc. pose proof (wo_chan _ _ Hw c ch Hc) as [_ Hch Htl _].
  pose proof (chain_head _ _ _ (Hch s)) as Hhd.
  assert (Hw0 : set_chans (<[c := trimmed s (head (L c s)) (tail_of s ch) (dead_count ch) ch]>) w = w).
  { rewrite <- Hhd, trimmed_id. by apply set_chans_id. }
  pose proof (scan_loop s ch w (L c s) (S (size (ents w))) L (tail_of s ch) (dead_count ch)) as Hs.
  cbv zeta in Hs. rewrite Hw0 in Hs. apply Hs; try done.
  pose proof (chain_size _ _ _ (Hch s) (wo_nodup _ _ Hw c s)). lia.
Qed.
End scan.
(** *** Relinking: changes of [next] alone *)

Definition renext (h h' : gmap positive goc_entry) (l : list positive) : Prop :=
  ∀ p, match h !! p with
       | None => h' !! p = None
       | Some e => ∃ n, h' !! p = Some (set_next n e) ∧ (p ∉ l → n = next e)
       end.

Lemma set_next_id e : set_next (next e) e = e.
Proof. by destruct e. Qed.

Lemma set_next_claimable fl n e : claimable fl (set_next n e) = claimable fl e.
Proof. done. Qed.

Lemma renext_refl h l : renext h h l.
Proof. intros p. destruct (h !! p) as [e|]; [|done]. exists (next e). by rewrite set_next_id. Qed.

Lemma renext_trans h1 h2 h3 l : renext h1 h2 l → renext h2 h3 l → renext h1 h3 l.
Proof.
  intros H12 H23 p. specialize (H12 p). specialize (H23 p). destruct (h1 !! p) as [e|].
  - destruct H12 as (n & H2 & Hn). rewrite H2 in H23. destruct H23 as (n' & -> & Hn').
    exists n'. split; [done|]. intros Hp. simpl in Hn'. by rewrite Hn', Hn.
  - by rewrite H12 in H23.
Qed.

Lemma renext_insert h p e n l : h !! p = Some e → p ∈ l → renext h (<[p := set_next n e]> h) l.
Proof.
  intros Hp Hl q. destruct (decide (q = p)) as [->|Hne].
  - rewrite Hp, lookup_insert_eq. by exists n.
  - rewrite lookup_insert_ne by done. apply renext_refl.
Qed.

Lemma renext_lookup h h' l p e' :
  renext h h' l → h' !! p = Some e' → ∃ e n, h !! p = Some e ∧ e' = set_next n e.
Proof.
  intros Hr Hp. specialize (Hr p). destruct (h !! p) as [e|]; [|congruence].
  destruct Hr as (n & Hn & _). exists e, n. split; [done|]. congruence.
Qed.

Lemma renext_same_next h h' l l' : renext h h' l → (∀ p, p ∈ l' → p ∉ l) → same_next h h' l'.
Proof.
  intros Hr Hd p e Hp He. specialize (Hr p). rewrite He in Hr. destruct Hr as (n & Hn & Heq).
  exists (set_next n e). split; [done|]. simpl. by apply Heq, Hd.
Qed.

(** Relinking the list of one side of one channel keeps the invariant, as long as
    no entry of another list is touched or linked. *)
Lemma world_ok_relink L w h' c ch ch' s l0 l' :
  world_ok L w → chans w !! c = Some ch → renext (ents w) h' l0 →
  chan_ok h' ch' (on_side s l' (L c)) → NoDup l' →
  (∀ p c' s', p ∈ l0 → p ∈ L c' s' → c' = c ∧ s' = s) →
  (∀ p c' s', p ∈ l' → p ∈ L c' s' → c' = c ∧ s' = s) →
  (∀ p e, p ∈ l' → ents w !! p = Some e → fired e = None → claimable (flags w) e = true) →
  world_ok (relist L c (on_side s l' (L c)))
    (set_chans (<[c := ch']>) (set_ents (λ _, h') w)).
Proof.
  intros Hw Hc Hr Hch Hnd Hl0 Hl' Hwait.
  set (L' := relist L c (on_side s l' (L c))).
  assert (Hin : ∀ c' s' p, p ∈ L' c' s' → p ∈ l' ∧ c' = c ∧ s' = s ∨ p ∈ L c' s' ∧ ¬ (c' = c ∧ s' = s)).
  { intros c' s' p. unfold L', relist, on_side. repeat case_decide; subst; naive_solver. }
  pose proof Hw as [H1 H2 H3 H4 H5 H6 H7 H8 H9 Hsu Hso H10 H11 H12 H13 Hsel]. split; simpl; try done.
  - intros c' ch1. unfold L', relist. destruct (decide (c' = c)) as [->|Hne].
    + rewrite lookup_insert_eq. by intros [= <-].
    + rewrite lookup_insert_ne by done. intros Hc'. destruct (H1 c' ch1 Hc') as [? Hcn ? ?].
      split; try done. intros s'. eapply chain_ext; [|apply Hcn].
      eapply renext_same_next; [done|]. intros p Hp Hp'. by destruct (Hl0 p c' s' Hp' Hp).
  - intros c' s'. unfold L', relist. destruct (decide (c' = c)) as [->|Hne].
    + by rewrite lookup_insert_eq.
    + rewrite lookup_insert_ne by done. apply H2.
  - intros c' s'. unfold L', relist, on_side. repeat case_decide; try done; apply H3.
  - intros c1 s1 c2 s2 p [(Ha & -> & ->)|[Ha Hna]]%Hin [(Hb & -> & ->)|[Hb Hnb]]%Hin; [done|..].
    + destruct (Hl' p c2 s2 Ha Hb) as [-> ->]. tauto.
    + destruct (Hl' p c1 s1 Hb Ha) as [-> ->]. tauto.
    + by eapply H4.
  - intros p e' Hp. destruct (renext_lookup _ _ _ _ _ Hr Hp) as (e & n & He & ->).
    destruct (H5 p e He). by split.
  - intros c' s' p e' Hp He' Hf. destruct (renext_lookup _ _ _ _ _ Hr He') as (e & n & He & ->).
    apply Hin in Hp as [(Hp & -> & ->)|[Hp _]]; [by apply (Hwait p e)|apply (H6 c' s' p e Hp He Hf)].
  - intros i t Hit. destruct (H7 i t Hit) as [Hf Hq]. split; [done|].
    intros p e' Hp Hk Hco. destruct (renext_lookup _ _ _ _ _ Hr Hp) as (e & n & He & ->).
    apply (Hq p e He Hk Hco).
  - intros p1 p2 e1' e2' Hp1 Hp2.
    destruct (renext_lookup _ _ _ _ _ Hr Hp1) as (e1 & n1 & He1 & ->).
    destruct (renext_lookup _ _ _ _ _ Hr Hp2) as (e2 & n2 & He2 & ->). apply (H9 p1 p2 e1 e2 He1 He2).
  - intros p1 p2 e1' e2' Hp1 Hp2.
    destruct (renext_lookup _ _ _ _ _ Hr Hp1) as (e1 & n1 & He1 & ->).
    destruct (renext_lookup _ _ _ _ _ Hr Hp2) as (e2 & n2 & He2 & ->). apply (Hsu p1 p2 e1 e2 He1 He2).
  - intros p e' Hp. destruct (renext_lookup _ _ _ _ _ Hr Hp) as (e & n & He & ->). apply (Hso p e He).
  - intros p [e' Hp]. destruct (renext_lookup _ _ _ _ _ Hr Hp) as (e & n & He & ->). eauto.
  - intros c' Hc'. apply H11. rewrite lookup_insert in Hc'. case_decide; [subst; eauto|done].
  - eapply select_ok_ext; [..|exact Hsel].
    + intros p e He _. specialize (Hr p). rewrite He in Hr. destruct Hr as (n & Hn & _). eauto.
    + intros p e' Hp Hwk _. destruct (renext_lookup _ _ _ _ _ Hr Hp) as (e & n & He & ->).
      exists e. by split_and!.
Qed.

(** The case where entries are only dropped. *)
Lemma world_ok_renext L w h' c ch ch' s l' :
  world_ok L w → chans w !! c = Some ch → renext (ents w) h' (L c s) →
  chan_ok h' ch' (on_side s l' (L c)) →
  NoDup l' → (∀ p, p ∈ l' → p ∈ L c s) →
  world_ok (relist L c (on_side s l' (L c)))
    (set_chans (<[c := ch']>) (set_ents (λ _, h') w)).
Proof.
  intros Hw Hc Hr Hch Hnd Hsub. eapply world_ok_relink; try done.
  - intros p c' s' Hp Hp'. by apply (wo_disj _ _ Hw _ _ _ _ p).
  - intros p c' s' Hp%Hsub Hp'. by apply (wo_disj _ _ Hw _ _ _ _ p).
  - intros p e Hp%Hsub. by apply (wo_wait _ _ Hw c s).
Qed.

(** *** Compaction *)

Definition uncancelled (h : gmap positive goc_entry) (p : positive) : Prop :=
  match h !! p with Some e => cancelled e = false | None => False end.
#[global] Instance uncancelled_dec h p : Decision (uncancelled h p).
Proof. unfold uncancelled. destruct (h !! p); apply _. Defined.

Lemma load_pp_ok s c w ch k r :
  chans w !! c = Some ch → chain (ents w) (head_of s ch) (k ++ r) →
  load_pp s c (last k) w = ok (head r, w).
Proof.
  intros Hc Hch. unfold load_pp. destruct (last k) as [q|] eqn:Hl.
  - apply last_Some in Hl as (k' & ->). rewrite <- app_assoc in Hch. simpl in Hch.
    assert (∃ e, ents w !! q = Some e ∧ next e = head r) as (e & He & Hn).
    { revert Hch. generalize (head_of s ch). clear. induction k' as [|x k IH]; intros p; simpl.
      - intros (_ & e & He & Hr). exists e. split; [done|]. by apply (chain_head _ _ _ Hr).
      - intros (_ & e & _ & Hr). by eapply IH. }
    erewrite prog_bind_ok by (by apply get_ent_ok). by rewrite Hn.
  - apply last_None in Hl as ->. erewrite prog_bind_ok by (by apply get_chan_ok).
    by rewrite (chain_head _ _ _ Hch).
Qed.

(** Unlinking the entry after the kept prefix [k]. *)
Lemma chain_unlink h p k x r e q eq :
  chain h p (k ++ x :: r) → NoDup (k ++ x :: r) → last k = Some q → h !! q = Some eq →
  h !! x = Some e → chain (<[q := set_next (next e) eq]> h) p (k ++ r).
Proof.
  revert p. induction k as [|y k IH]; intros p Hch Hnd Hl Hq Hx; [done|].
  destruct Hch as (-> & ey & Hy & Hch). simpl in Hnd. apply NoDup_cons in Hnd as [Hyn Hnd].
  destruct k as [|z k]; simpl in Hl.
  - injection Hl as ->. assert (ey = eq) as -> by congruence. simpl in *.
    destruct Hch as (_ & e' & He' & Hr). assert (e' = e) as -> by congruence.
    split; [done|]. exists (set_next (next e) eq). rewrite lookup_insert_eq. split; [done|]. simpl.
    eapply chain_ext; [|done]. apply same_next_out. intros Hin. apply Hyn. by constructor.
  - split; [done|]. exists ey.
    assert (Hqy : q ≠ y).
    { intros ->. apply Hyn. assert (Hin : y ∈ z :: k) by (by apply last_Some_elem_of).
      apply (elem_of_app (z :: k)). by left. }
    rewrite lookup_insert_ne by done. split; [done|]. apply IH; try done.
Qed.
Lemma set_ents_twice h h' w : set_ents (λ _, h) (set_ents (λ _, h') w) = set_ents (λ _, h) w.
Proof. done. Qed.

Lemma set_ents_id w : set_ents (λ _, ents w) w = w.
Proof. by destruct w. Qed.

Lemma uncancelled_renext h h' l p : renext h h' l → uncancelled h' p ↔ uncancelled h p.
Proof.
  intros Hr. specialize (Hr p). unfold uncancelled. destruct (h !! p) as [e|].
  - by destruct Hr as (n & -> & _).
  - by rewrite Hr.
Qed.

Lemma filter_uncancelled_renext h h' l (r : list positive) :
  renext h h' l → filter (uncancelled h') r = filter (uncancelled h) r.
Proof. intros Hr. apply list_filter_iff. intros p. by eapply uncancelled_renext. Qed.

(** [*pp = e->next] unlinks [x], the entry after the kept prefix [k]. *)
Lemma store_pp_ok s c t d ch0 k x r w l e :
  let at_list h := trimmed s h t d ch0 in
  chans w !! c = Some (at_list (head (k ++ x :: r))) →
  chain (ents w) (head (k ++ x :: r)) (k ++ x :: r) → NoDup (k ++ x :: r) →
  (∀ p, p ∈ k ++ x :: r → p ∈ l) → ents w !! x = Some e →
  ∃ h1, store_pp s c (last k) (next e) w =
          ok (tt, set_chans (<[c := at_list (head (k ++ r))]>) (set_ents (λ _, h1) w)) ∧
    renext (ents w) h1 l ∧ chain h1 (head (k ++ r)) (k ++ r).
Proof.
  intros at_list Hc Hch Hnd Hsub He. unfold store_pp. destruct (last k) as [q|] eqn:Hl.
  - assert (Hq : q ∈ k) by (by apply last_Some_elem_of).
    destruct (chain_lookup _ _ _ q Hch) as [eq Heq]; [apply elem_of_app; by left|].
    assert (Hhd : head (k ++ r) = head (k ++ x :: r)) by (by destruct k).
    exists (<[q := set_next (next e) eq]> (ents w)). rewrite Hhd. split_and!.
    + rewrite (upd_ent_ok _ _ _ eq) by done. do 2 f_equal. symmetry. by apply set_chans_id.
    + apply renext_insert; [done|]. apply Hsub, elem_of_app. by left.
    + by eapply chain_unlink.
  - apply last_None in Hl as ->. simpl in *. exists (ents w).
    destruct Hch as (_ & e' & He' & Hr). assert (e' = e) as -> by congruence.
    pose proof (chain_head _ _ _ Hr) as Hn.
    rewrite (upd_chan_ok _ _ _ _ Hc). unfold at_list. rewrite trimmed_tail, set_list_trimmed, set_ents_id, Hn.
    split_and!; [done|apply renext_refl|by rewrite <- Hn].
Qed.

Lemma compact_loop_ok s c t d ch0 : ∀ r fuel k w l,
  let at_list h := trimmed s h t d ch0 in
  chans w !! c = Some (at_list (head (k ++ r))) →
  chain (ents w) (head (k ++ r)) (k ++ r) → NoDup (k ++ r) →
  (∀ p, p ∈ k ++ r → p ∈ l) →
  (∀ p e, p ∈ r → ents w !! p = Some e → cancelled e = true → free_on_drain e = false) →
  (length r < fuel)%nat →
  let l' := k ++ filter (uncancelled (ents w)) r in
  ∃ h', compact_loop fuel s c (last k) (last k) w =
          ok (last l', set_chans (<[c := at_list (head l')]>) (set_ents (λ _, h') w)) ∧
    renext (ents w) h' l ∧ chain h' (head l') l'.
Proof.
  induction r as [|x r IH]; intros [|fuel] k w l at_list Hc Hch Hnd Hsub Hdr Hfuel l'; simpl in Hfuel; try lia;
    unfold at_list in *; clear at_list.
  - exists (ents w). unfold l'. rewrite app_nil_r in *. cbn [compact_loop].
    erewrite prog_bind_ok.
    2:{ eapply (load_pp_ok s c w _ k []); [done|]. by rewrite trimmed_head, app_nil_r. }
    split_and!; [|apply renext_refl|done].
    rewrite set_ents_id, set_chans_id; done.
  - cbn [compact_loop].
    erewrite prog_bind_ok by (eapply (load_pp_ok s c w _ k (x :: r)); [done|]; by rewrite trimmed_head).
    simpl. destruct (chain_lookup _ _ _ x Hch) as [e He]; [apply elem_of_app; right; constructor|].
    erewrite prog_bind_ok by (by apply get_ent_ok). unfold l'. clear l'. rewrite filter_cons.
    assert (Hun : uncancelled (ents w) x ↔ cancelled e = false) by (unfold uncancelled; by rewrite He).
    destruct (cancelled e) eqn:Hcan.
    + rewrite decide_False by (rewrite Hun; done).
      assert (Hnd' : NoDup (k ++ r)).
      { apply NoDup_app in Hnd as (? & Hd & [? ?]%NoDup_cons). apply NoDup_app. split_and!; try done.
        intros y Hy Hy'. apply (Hd y Hy). by constructor. }
      assert (Hsub' : ∀ p, p ∈ k ++ r → p ∈ l).
      { intros p Hp. apply Hsub. rewrite elem_of_app in *. destruct Hp; [by left|right; by constructor]. }
      destruct (store_pp_ok s c t d ch0 k x r w l e) as (h1 & Hst & Hr1 & Hch1); try done.
      erewrite prog_bind_ok by exact Hst.
      rewrite (Hdr x e) by (done || constructor). erewrite prog_bind_ok by done.
      destruct (IH fuel k (set_chans (<[c := trimmed s (head (k ++ r)) t d ch0]>) (set_ents (λ _, h1) w)) l)
        as (h2 & Hr2 & Hre2 & Hch2); simpl; [by rewrite lookup_insert_eq|done..| |lia|].
      { intros p e' Hp Hp' Hcan'. destruct (renext_lookup _ _ _ _ _ Hr1 Hp') as (e0 & n & He0 & ->).
        apply (Hdr p e0); [by constructor|done|done]. }
      simpl in *. rewrite (filter_uncancelled_renext _ _ _ r Hr1) in *.
      exists h2. split_and!; [|by eapply renext_trans|done].
      rewrite Hr2. f_equal. f_equal. change (set_ents (λ _, h2)
        (set_chans (<[c := trimmed s (head (k ++ r)) t d ch0]>) (set_ents (λ _, h1) w)))
        with (set_chans (<[c := trimmed s (head (k ++ r)) t d ch0]>) (set_ents (λ _, h2) w)). apply set_chans_twice.
    + rewrite decide_True by (by apply Hun).
      destruct (IH fuel (k ++ [x]) w l) as (h2 & Hr2 & Hre2 & Hch2); rewrite <- ?app_assoc; simpl; try done; [|lia|].
      { intros p e' Hp. apply Hdr. by constructor. }
      rewrite <- app_assoc in Hr2, Hch2. rewrite last_snoc in Hr2. simpl in *. exists h2. by split_and!.
Qed.
(** The two worlds differ in links, dead counts and nothing else. *)
Record tidied (w w' : world) : Prop := {
  td_ents : ∀ p, match ents w !! p with
                 | None => ents w' !! p = None
                 | Some e => ∃ n, ents w' !! p = Some (set_next n e)
                 end;
  td_chans : ∀ c, match chans w !! c with
                  | None => chans w' !! c = None
                  | Some ch => ∃ h1 t1 h2 t2 d, chans w' !! c =
                      Some (set_dead d (set_takers h1 t1 (set_putters h2 t2 ch)))
                  end;
  td_flags : flags w' = flags w;
  td_fibers : fibers w' = fibers w;
  td_syncs : syncs w' = syncs w;
  td_live : live_channels w' = live_channels w;
  td_runq : runq w' = runq w;
  td_cbq : cbq w' = cbq w;
  td_loopq : loopq w' = loopq w;
  td_closelog : closelog w' = closelog w;
  td_running : loop_running w' = loop_running w;
  td_next : next_id w' = next_id w
}.

Lemma tidied_refl w : tidied w w.
Proof.
  split; try done.
  - intros p. destruct (ents w !! p) as [e|]; [|done]. exists (next e). by rewrite set_next_id.
  - intros c. destruct (chans w !! c) as [ch|] eqn:E; [|done].
    exists (takers ch), (takers_tail ch), (putters ch), (putters_tail ch), (dead_count ch).
    by destruct ch.
Qed.

Lemma tidied_trans w1 w2 w3 : tidied w1 w2 → tidied w2 w3 → tidied w1 w3.
Proof.
  intros [E1 C1 ? ? ? ? ? ? ? ? ? ?] [E2 C2 ? ? ? ? ? ? ? ? ? ?]. split; try congruence.
  - intros p. specialize (E1 p). specialize (E2 p). destruct (ents w1 !! p) as [e|].
    + destruct E1 as (n & H1). rewrite H1 in E2. destruct E2 as (n' & H2). by exists n'.
    + by rewrite E1 in E2.
  - intros c. specialize (C1 c). specialize (C2 c). destruct (chans w1 !! c) as [ch|].
    + destruct C1 as (h1 & t1 & h2 & t2 & d & H1). rewrite H1 in C2.
      destruct C2 as (h1' & t1' & h2' & t2' & d' & H2). by exists h1', t1', h2', t2', d'.
    + by rewrite C1 in C2.
Qed.

Lemma tidied_chan w w' c ch : tidied w w' → chans w !! c = Some ch →
  ∃ h1 t1 h2 t2 d, chans w' !! c = Some (set_dead d (set_takers h1 t1 (set_putters h2 t2 ch))).
Proof. intros [_ Hc _ _ _ _ _ _ _ _ _ _] H. specialize (Hc c). by rewrite H in Hc. Qed.

(** Whether an entry can be woken. *)
Definition live (w : world) (p : positive) : bool :=
  match ents w !! p with Some e => claimable (flags w) e | None => false end.

(** The waiters of one side of a channel that can be woken, oldest first. *)
Definition lv (L : positive → side → list positive) (w : world) (c : positive) (s : side)
    : list positive := filter (λ p, live w p = true) (L c s).

Lemma tidied_live w w' p : tidied w w' → live w' p = live w p.
Proof.
  intros [He _ Hf _ _ _ _ _ _ _ _ _]. specialize (He p). unfold live. rewrite Hf.
  destruct (ents w !! p) as [e|]; [|by rewrite He]. destruct He as (n & ->). done.
Qed.

Lemma trimmed_tidied s h t d ch : ∃ h1 t1 h2 t2 d',
  trimmed s h t d ch = set_dead d' (set_takers h1 t1 (set_putters h2 t2 ch)).
Proof.
  destruct s.
  - exists h, t, (putters ch), (putters_tail ch), d. done.
  - exists (takers ch), (takers_tail ch), h, t, d. done.
Qed.

Lemma tidied_trim w c ch s h t d h' :
  chans w !! c = Some ch → (∃ l, renext (ents w) h' l) →
  tidied w (set_chans (<[c := trimmed s h t d ch]>) (set_ents (λ _, h') w)).
Proof.
  intros Hc [l Hr]. split; try done; simpl.
  - intros p. specialize (Hr p). destruct (ents w !! p); [|done]. destruct Hr as (n & -> & _). eauto.
  - intros c'. destruct (decide (c' = c)) as [->|Hne].
    + rewrite Hc, lookup_insert_eq. destruct (trimmed_tidied s h t d ch) as (h1 & t1 & h2 & t2 & d' & ->).
      by exists h1, t1, h2, t2, d'.
    + rewrite lookup_insert_ne by done. destruct (chans w !! c') as [ch'|]; [|done].
      exists (takers ch'), (takers_tail ch'), (putters ch'), (putters_tail ch'), (dead_count ch').
      by destruct ch'.
Qed.

Lemma compact_list_ok L w c ch s :
  world_ok L w → chans w !! c = Some ch →
  ∃ w' L', compact_list s c w = ok (tt, w') ∧ world_ok L' w' ∧ tidied w w' ∧
    (∀ c' s', L' c' s' = L c' s' ∨ L' c' s' = filter (uncancelled (ents w)) (L c' s')).
Proof.
  intros Hw Hc. pose proof (wo_chan _ _ Hw c ch Hc) as [Hring Hch Htl Hcl].
  pose proof (chain_head _ _ _ (Hch s)) as Hhd. pose proof (wo_nodup _ _ Hw c s) as Hnd.
  destruct (compact_loop_ok s c (tail_of s ch) (dead_count ch) ch (L c s) (S (size (ents w))) [] w (L c s))
    as (h' & Hr & Hre & Hch'); simpl; try done.
  - by rewrite <- Hhd, trimmed_id.
  - by rewrite <- Hhd.
  - intros p e _ He Hca. apply (wo_ent _ _ Hw p e He). by left.
  - pose proof (chain_size _ _ _ (Hch s) Hnd). lia.
  - simpl in Hr, Hch'. set (l' := filter (uncancelled (ents w)) (L c s)) in *.
    unfold compact_list. erewrite prog_bind_ok by exact Hr.
    erewrite upd_chan_ok by (simpl; apply lookup_insert_eq).
    rewrite trimmed_head, set_list_trimmed, set_chans_twice.
    exists (set_chans (<[c := trimmed s (head l') (last l') (dead_count ch) ch]>) (set_ents (λ _, h') w)),
      (relist L c (on_side s l' (L c))).
    split_and!; [done| |apply tidied_trim; eauto|].
    + apply world_ok_renext with ch; try done.
      * split.
        -- by apply trimmed_ring.
        -- intros s'. unfold on_side. case_decide as Hs; [subst; by rewrite trimmed_head|].
           destruct (trimmed_other s s' (head l') (last l') (dead_count ch) ch Hs) as [-> _].
           eapply chain_ext; [|apply Hch]. eapply renext_same_next; [done|].
           intros p Hp Hp'. destruct (wo_disj _ _ Hw c s' c s p Hp Hp') as [_ ?]. done.
        -- intros s'. unfold on_side. case_decide as Hs; [subst; rewrite trimmed_tail; by right|].
           destruct (trimmed_other s s' (head l') (last l') (dead_count ch) ch Hs) as [_ ->]. apply Htl.
        -- rewrite trimmed_closed. intros Hclo s'. unfold on_side, l'. rewrite (Hcl Hclo s), (Hcl Hclo s').
           by case_decide.
      * by apply NoDup_filter.
      * intros p Hp. by apply list_elem_of_filter in Hp as [_ ?].
    + intros c' s'. unfold relist, on_side. destruct (decide (c' = c)) as [->|]; [|by left].
      destruct (decide (s' = s)) as [->|]; [by right|by left].
Qed.

Lemma lv_tidied L L' w w' c s :
  tidied w w' → L' c s = L c s ∨ L' c s = filter (uncancelled (ents w)) (L c s) →
  lv L' w' c s = lv L w c s.
Proof.
  intros Ht HL. unfold lv.
  assert (Hf : filter (λ p, live w' p = true) (L' c s) = filter (λ p, live w p = true) (L' c s)).
  { apply list_filter_iff. intros p. by rewrite (tidied_live w w'). }
  rewrite Hf. destruct HL as [->| ->]; [done|].
  induction (L c s) as [|p l IH]; [done|]. rewrite !filter_cons.
  destruct (decide (uncancelled (ents w) p)) as [Hu|Hu].
  - rewrite filter_cons. by rewrite IH.
  - rewrite IH. rewrite decide_False; [done|]. intros Hl. apply Hu. unfold live in Hl.
    unfold uncancelled. destruct (ents w !! p) as [e|]; [|done]. unfold claimable in Hl.
    by destruct (cancelled e).
Qed.

(** *** Appending *)

Lemma find_last_ok h l : ∀ fuel x w,
  ents w = h → chain h (Some x) (x :: l) → (length l < fuel)%nat →
  find_last fuel x w = ok (default x (last (x :: l)), w).
Proof.
  induction l as [|y l IH]; intros [|fuel] x w Hh Hch Hf; simpl in Hf; try lia;
    destruct Hch as (_ & e & He & Hch); cbn [find_last];
    erewrite prog_bind_ok by (apply get_ent_ok; by rewrite Hh).
  - simpl in Hch. by rewrite Hch.
  - pose proof Hch as (Hn & _). rewrite Hn. rewrite (IH fuel y w); [|done|by rewrite <- Hn|lia].
    destruct l; [done|]. simpl. by destruct (last (p :: l)) eqn:E; [|apply last_None in E].
Qed.

(** Linking [p] after the real last entry, whatever the tail pointer says. *)
Lemma append_ok L w c ch s p e :
  world_ok L w → chans w !! c = Some ch → closed ch = false → ents w !! p = Some e → unlinked L p →
  (fired e = None → claimable (flags w) e = true) →
  ∃ w', chan_list_append s c p w = ok (tt, w') ∧ tidied w w' ∧
    world_ok (relist L c (on_side s (L c s ++ [p]) (L c))) w'.
Proof.
  intros Hw Hc Hopen Hp Hun Hcl. pose proof (wo_chan _ _ Hw c ch Hc) as [Hring Hch Htl _].
  pose proof (wo_nodup _ _ Hw c s) as Hnd. pose proof (chain_head _ _ _ (Hch s)) as Hhd.
  set (h0 := <[p := set_next None e]> (ents w)).
  assert (Hch0 : ∀ s', chain h0 (head_of s' ch) (L c s')).
  { intros s'. eapply chain_ext; [|apply Hch]. apply same_next_out, Hun. }
  assert (Hp0 : h0 !! p = Some (set_next None e)) by (unfold h0; apply lookup_insert_eq).
  assert (Hr0 : renext (ents w) h0 (p :: L c s)) by (apply renext_insert; [done|constructor]).
  (* the heap and the channel after the append *)
  assert (∃ h1 d, chan_list_append s c p w =
            ok (tt, set_chans (<[c := trimmed s (head (L c s ++ [p])) (Some p) d ch]>) (set_ents (λ _, h1) w)) ∧
          renext (ents w) h1 (p :: L c s) ∧ chain h1 (head (L c s ++ [p])) (L c s ++ [p]))
    as (h1 & d & Hr & Hre & Hch1).
  { pose proof (chain_snoc h0 (head_of s ch) (L c s) p _ (Hch0 s) Hp0 eq_refl (Hun c s) Hnd) as Hsn.
    unfold chan_list_append. erewrite prog_bind_ok by (by apply (upd_ent_ok _ _ _ e)).
    erewrite prog_bind_ok by (by apply get_chan_ok).
    assert (Hset : ∀ h, set_list s h (Some p) ch = trimmed s h (Some p) (dead_count ch) ch)
      by (by destruct s, ch).
    destruct (last (L c s)) as [t|] eqn:Hlast.
    - assert (Ht : t ∈ L c s) by (by apply last_Some_elem_of).
      destruct (chain_lookup _ _ _ t (Hch0 s) Ht) as [et Het]. specialize (Hsn et Het).
      assert (Hhd' : head (L c s ++ [p]) = head_of s ch) by (rewrite Hhd; by destruct (L c s)).
      assert (Hre1 : renext (ents w) (<[t := set_next (Some p) et]> h0) (p :: L c s)).
      { eapply renext_trans; [done|]. apply renext_insert; [done|]. by constructor. }
      exists (<[t := set_next (Some p) et]> h0), (dead_count ch). rewrite Hhd'. split_and!; [|done|done].
      destruct (Htl s) as [Htn|Htn]; [rewrite Htn|rewrite Htn, Hlast].
      + destruct (L c s) as [|x l] eqn:HL; [done|]. rewrite Hhd. change (head (x :: l)) with (Some x). cbv iota.
        erewrite prog_bind_ok.
        2:{ apply (find_last_ok h0 l); [done| |].
            - specialize (Hch0 s). by rewrite HL, Hhd in Hch0.
            - pose proof (chain_size _ _ _ (Hch0 s)) as Hsz. rewrite HL in Hsz. specialize (Hsz Hnd).
              simpl in *. fold h0. lia. }
        rewrite Hlast. cbn [from_option id]. erewrite prog_bind_ok by (by apply (upd_ent_ok _ _ _ et)).
        erewrite upd_chan_ok by done. by rewrite Hset.
      + erewrite prog_bind_ok by (by apply (upd_ent_ok _ _ _ et)).
        erewrite upd_chan_ok by done. by rewrite Hset.
    - apply last_None in Hlast as HL. exists h0, (dead_count ch). rewrite HL in *. simpl in *.
      assert (tail_of s ch = None) as -> by (destruct (Htl s) as [?|Hx]; [done|by rewrite HL in Hx]). rewrite Hhd.
      erewrite upd_chan_ok by done. rewrite Hset. split; [done|]. split; [exact Hr0|exact Hsn]. }
  exists (set_chans (<[c := trimmed s (head (L c s ++ [p])) (Some p) d ch]>) (set_ents (λ _, h1) w)).
  split_and!; [done|apply tidied_trim; eauto|].
  eapply (world_ok_relink L w h1 c ch _ s (p :: L c s)); try done.
  - split.
    + by apply trimmed_ring.
    + intros s'. unfold on_side. case_decide as Hs; [subst; by rewrite trimmed_head|].
      destruct (trimmed_other s s' (head (L c s ++ [p])) (Some p) d ch Hs) as [-> _].
      eapply chain_ext; [|apply Hch]. eapply renext_same_next; [done|].
      intros q Hq [->|Hq']%elem_of_cons; [by apply (Hun c s')|].
      by destruct (wo_disj _ _ Hw c s' c s q Hq Hq').
    + intros s'. unfold on_side. case_decide as Hs; [subst; rewrite trimmed_tail, last_snoc; by right|].
      destruct (trimmed_other s s' (head (L c s ++ [p])) (Some p) d ch Hs) as [_ ->]. apply Htl.
    + rewrite trimmed_closed. congruence.
  - apply NoDup_app. split_and!; [done| |apply NoDup_singleton].
    intros q Hq Hqp%list_elem_of_singleton. subst q. by apply (Hun c s).
  - intros q c' s' [->|Hq]%elem_of_cons Hq'; [by destruct (Hun c' s')|]. by apply (wo_disj _ _ Hw _ _ _ _ q).
  - intros q c' s' [Hq|Hqp%list_elem_of_singleton]%elem_of_app Hq'; [|subst q; by destruct (Hun c' s')].
    by apply (wo_disj _ _ Hw _ _ _ _ q).
  - intros q eq [Hq|Hqp%list_elem_of_singleton]%elem_of_app Heq; [by apply (wo_wait _ _ Hw c s q)|].
    subst q. intros. assert (eq = e) as -> by congruence. auto.
Qed.

(** *** Allocating a waiter *)

Lemma unlinked_fresh L w p : world_ok L w → (next_id w <= p)%positive → unlinked L p.
Proof.
  intros Hw Hp c s Hin. destruct (wo_linked L w c s p Hw Hin) as [e He].
  assert (p < next_id w)%positive by (apply (wo_fresh_ent _ _ Hw); eauto). lia.
Qed.

Lemma world_ok_alloc L w w' p e :
  world_ok L w → (next_id w <= p < next_id w')%positive → woken e = false →
  ents w' = <[p := e]> (ents w) → chans w' = chans w → flags w' = flags w → runq w' = runq w →
  (∀ a, is_Some (syncs w' !! a) → (a < next_id w')%positive) →
  entry_ok w' e →
  (∀ q eq, ents w !! q = Some eq → entry_ok w eq → entry_ok w' eq) →
  (∀ i t f, (i, t) ∈ runq w → fibers w !! i = Some f → parked f = 4 →
     fibers w' !! i = Some f ∧ (kind e = GOC_FIBER → coro e ≠ i)) →
  (kind e = GOC_FIBER → ∀ q e', ents w !! q = Some e' → kind e' = GOC_FIBER → coro e' = coro e →
     claimable (flags w) e' = true → is_Some (fired e) ∧ fired e = fired e') →
  (kind e = GOC_SYNC → (sync_sem_ptr e < next_id w')%positive ∧
     ∀ q e', ents w !! q = Some e' → kind e' = GOC_SYNC → sync_sem_ptr e' = sync_sem_ptr e →
     is_Some (fired e) ∧ fired e = fired e') →
  world_ok L w'.
Proof.
  intros Hw Hp Hnw Hen Hch Hfl Hrq Hsy He Hold Hpost Huniq Hsync. pose proof (unlinked_fresh L w p Hw (proj1 Hp)) as Hun.
  pose proof Hw as [H1 H2 H3 H4 H5 H6 H7 H8 H9 Hsu Hso H10 H11 H12 H13 Hsel].
  assert (Hpn : ents w !! p = None).
  { destruct (ents w !! p) eqn:E; [|done]. assert (p < next_id w)%positive by (apply H10; eauto). lia. }
  split; rewrite ?Hch, ?Hfl, ?Hrq; try done.
  - intros c ch Hc. destruct (H1 c ch Hc) as [? Hcn ? ?]. split; try done.
    intros s. eapply chain_ext; [|apply Hcn]. rewrite Hen. apply same_next_out, Hun.
  - intros q eq. rewrite Hen, lookup_insert. case_decide; [by intros [= <-]|]. intros Hq. by eapply Hold; eauto.
  - intros c s q eq Hq. rewrite Hen, lookup_insert_ne by (intros <-; by apply (Hun c s)). by eapply H6.
  - intros i t Hit. destruct (H7 i t Hit) as [(f & Hf & Hf4) Hq].
    destruct (Hpost i t f Hit Hf Hf4) as [Hf' Hne]. split; [eauto|].
    intros q eq. rewrite Hen, Hfl, lookup_insert. case_decide; [|by eapply Hq].
    intros [= <-] Hk Hc. by destruct (Hne Hk).
  - intros q1 q2 e1 e2. rewrite Hen, !lookup_insert. repeat case_decide; simplify_eq; intros; simplify_eq.
    + by left.
    + right. by eapply Huniq.
    + right. destruct (Huniq ltac:(done) q1 e1) as [? Heq]; try done. split; [|done]. by rewrite <- Heq.
    + by eapply H9.
  - intros q1 q2 e1 e2. rewrite Hen, !lookup_insert. repeat case_decide; simplify_eq; intros; simplify_eq.
    + by left.
    + right. by eapply Hsync.
    + right. destruct (Hsync ltac:(done)) as [_ Hs]. destruct (Hs q1 e1) as [? Heq]; try done.
      split; [|done]. by rewrite <- Heq.
    + by eapply Hsu.
  - intros q e1. rewrite Hen, lookup_insert. case_decide.
    + intros [= <-] Hk. by apply Hsync.
    + intros Hq Hk. pose proof (Hso q e1 Hq Hk). lia.
  - intros q. rewrite Hen, lookup_insert. case_decide; [subst; lia|]. intros Hq%H10. lia.
  - intros c Hc%H11. lia.
  - intros a Ha%H12. lia.
  - rewrite Hen. eapply select_ok_ext; [..|exact Hsel].
    + intros q e1 Hq _. exists e1. rewrite lookup_insert_ne by congruence. done.
    + intros q e1. rewrite lookup_insert. case_decide; [intros [= <-]; congruence|eauto].
Qed.

(** A fiber that is running has a park word of 0, so no waiter of it can be woken. *)
Lemma running_quiet L w i f q e' :
  world_ok L w → fibers w !! i = Some f → parked f = 0 →
  ents w !! q = Some e' → kind e' = GOC_FIBER → coro e' = i → claimable (flags w) e' = false.
Proof.
  intros Hw Hf H0 Hq Hk Hc. destruct (claimable (flags w) e') eqn:E; [|done].
  destruct (eo_park _ _ (wo_ent _ _ Hw q e' Hq) Hk E) as (_ & f' & Hf' & Hp).
  subst i. assert (f' = f) as -> by congruence. lia.
Qed.

(** The world in which fiber [i] has announced its park and allocated [e]. *)
Definition fiber_parking (i : positive) (f : fiber) (e : goc_entry) (w : world) : world :=
  set_ents (<[next_id w := e]>) (bump_id (set_fibers (<[i := mk_fiber 3 (fhome f) (fpool f)]>) w)).

Lemma begin_park_ok i f w : fibers w !! i = Some f → parked f = 0 →
  begin_park i w = ok (1, set_fibers (<[i := mk_fiber 3 (fhome f) (fpool f)]>) w).
Proof.
  intros Hf H0. unfold begin_park. erewrite prog_bind_ok by (by apply get_fiber_ok). rewrite H0.
  unfold set_parked. erewrite (prog_bind_ok (get_fiber i ≫= _)); [done|].
  by erewrite prog_bind_ok by (by apply get_fiber_ok).
Qed.

Lemma park_fiber_ok L w i f worker slot v :
  world_ok L w → fibers w !! i = Some f → parked f = 0 →
  world_ok L (fiber_parking i f (fiber_waiter i worker slot v 1) w).
Proof.
  intros Hw Hf H0. set (e := fiber_waiter i worker slot v 1).
  eapply (world_ok_alloc L w _ (next_id w) e); try done; simpl; [lia|..].
  - intros a Ha%(wo_fresh_sync _ _ Hw). lia.
  - split; simpl; try done.
    + intros _. rewrite lookup_insert_eq. eauto.
    + intros _ _. split; [done|]. rewrite lookup_insert_eq. eexists. split; [done|]. by left.
  - intros q eq Hq [Hfl Hfib Hpark Hsync Hdr]. split; try done; simpl.
    + intros Hk. rewrite lookup_insert. case_decide; [eauto|auto].
    + intros Hk Hcl. destruct (Hpark Hk Hcl) as (Hg & fb & Hfb & Hp). split; [done|].
      rewrite lookup_insert_ne; [eauto|]. intros Hi.
      assert (claimable (flags w) eq = false) by (by eapply (running_quiet L w i f)). congruence.
  - intros j t fj Hj Hfj Hp4. assert (i ≠ j) by (intros ->; simplify_eq; congruence).
    by rewrite lookup_insert_ne.
  - intros _ q e' Hq Hk Hc Hcl.
    by rewrite (running_quiet L w i f q e') in Hcl.
Qed.

(** The world in which a thread has allocated its semaphore and its entry. *)
Definition sync_parking (slot : bool) (v : Z) (w : world) : world :=
  set_ents (<[Pos.succ (next_id w) := sync_waiter (next_id w) slot v]>)
    (bump_id (set_syncs (<[next_id w := false]>) (bump_id w))).

Lemma park_sync_ok L w slot v : world_ok L w → world_ok L (sync_parking slot v w).
Proof.
  intros Hw. eapply (world_ok_alloc L w _ (Pos.succ (next_id w)) (sync_waiter (next_id w) slot v));
    try done; simpl; [lia|..].
  - intros a. rewrite lookup_insert. case_decide; [subst; lia|]. intros Ha%(wo_fresh_sync _ _ Hw). lia.
  - split; simpl; try done. intros _ _. rewrite lookup_insert_eq. eauto.
  - intros q eq Hq [Hfl Hfib Hpark Hsync Hdr]. split; try done; simpl.
    intros Hk Hcl. rewrite lookup_insert. case_decide; [eauto|auto].
  - intros _. split; [lia|]. intros q e' Hq Hk Hs. pose proof (wo_sync_old _ _ Hw q e' Hq Hk). lia.
Qed.

End ChanInv.
