(* ===== verification/ChanOps.v ===== *)
(** What each channel operation of src/channel.c does to a well-formed world, on
    every branch, and that it keeps the world well formed. *)

From S2P Require Import Prelude Chan ChanInv.
Import Chan ChanInv.

Module ChanOps.

(** ** The ring buffer is a bounded queue *)

Definition ring_at (ch : goc_chan) (k : nat) : Z :=
  default 0 (buf ch !! Z.to_nat ((buf_head ch + Z.of_nat k) mod buf_size ch)).

(** The buffered values, oldest first. *)
Definition ring (ch : goc_chan) : list Z :=
  ring_at ch <$> seq 0 (Z.to_nat (buf_count ch)).

Lemma ring_length ch : length (ring ch) = Z.to_nat (buf_count ch).
Proof. unfold ring. by rewrite length_fmap, length_seq. Qed.

Lemma ring_slot_inj h n i j :
  0 < n → 0 <= i < n → 0 <= j < n → (h + i) mod n = (h + j) mod n → i = j.
Proof.
  intros Hn Hi Hj He. assert (Hm : (i - j) mod n = 0).
  { replace (i - j) with ((h + i) - (h + j)) by lia. rewrite Zminus_mod, He, Z.sub_diag. by rewrite Z.mod_0_l by lia. }
  apply Z.mod_divide in Hm as [q Hq]; [|lia].
  assert (q = 0) by nia. lia.
Qed.

Lemma put_to_buffer_full c v w ch :
  chans w !! c = Some ch → buf_size ch <= buf_count ch → chan_put_to_buffer c v w = ok (false, w).
Proof.
  intros Hc Hf. unfold chan_put_to_buffer. erewrite prog_bind_ok by (by apply get_chan_ok).
  by rewrite (proj2 (Z.leb_le _ _) Hf).
Qed.

(** Appending to the ring: the slot written is in range and free. *)
Lemma put_to_buffer_ok c v w ch :
  chans w !! c = Some ch → ring_ok ch → buf_count ch < buf_size ch →
  ∃ b, chan_put_to_buffer c v w =
         ok (true, set_chans (<[c := set_ring b (buf_head ch) (buf_count ch + 1) (buf_count ch + 1) ch]>) w) ∧
    ring_ok (set_ring b (buf_head ch) (buf_count ch + 1) (buf_count ch + 1) ch) ∧
    ring (set_ring b (buf_head ch) (buf_count ch + 1) (buf_count ch + 1) ch) = ring ch ++ [v].
Proof.
  intros Hc [Hl Hs Hh Hn Hi] Hlt. set (tail := (buf_head ch + buf_count ch) mod buf_size ch).
  assert (Ht : 0 <= tail < buf_size ch) by (apply Z.mod_pos_bound; lia).
  set (b := <[Z.to_nat tail := v]> (buf ch)). exists b. split_and!.
  - unfold chan_put_to_buffer. erewrite prog_bind_ok by (by apply get_chan_ok).
    destruct (Z.leb_spec (buf_size ch) (buf_count ch)); [lia|]. rewrite Hi.
    rewrite !wrap64_small by (unfold WORD; lia). fold tail. rewrite zset_in by lia. prog_step.
    by erewrite prog_bind_ok by (by apply upd_chan_ok).
  - split; simpl; try lia. unfold b. by rewrite length_insert.
  - unfold ring. simpl. rewrite Z2Nat.inj_add by lia. rewrite Nat.add_comm. change (1 + ?n)%nat with (S n).
    rewrite seq_S, fmap_app. f_equal.
    + apply list_fmap_ext. intros i k Hk. apply lookup_seq in Hk as [-> Hk]. unfold ring_at. simpl.
      unfold b. rewrite list_lookup_insert_ne; [done|]. intros Heq%Z2Nat.inj; [|lia|apply Z.mod_pos_bound; lia].
      apply ring_slot_inj in Heq; lia.
    + simpl. unfold ring_at, b. simpl. rewrite Z2Nat.id by lia. fold tail.
      rewrite list_lookup_insert_eq by lia. done.
Qed.

Lemma take_from_buffer_empty c w ch :
  chans w !! c = Some ch → buf_count ch = 0 → chan_take_from_buffer c w = ok (None, w).
Proof.
  intros Hc H0. unfold chan_take_from_buffer. erewrite prog_bind_ok by (by apply get_chan_ok).
  by rewrite H0.
Qed.

Lemma take_from_buffer_ok c w ch :
  chans w !! c = Some ch → ring_ok ch → 0 < buf_count ch →
  ∃ v ch', chan_take_from_buffer c w = ok (Some v, set_chans (<[c := ch']>) w) ∧
    (∃ h, ch' = set_ring (buf ch) h (buf_count ch - 1) (buf_count ch - 1) ch) ∧
    ring_ok ch' ∧ ring ch = v :: ring ch'.
Proof.
  intros Hc [Hl Hs Hh Hn Hi] Hlt.
  destruct (lookup_lt_is_Some_2 (buf ch) (Z.to_nat (buf_head ch))) as [v Hv]; [lia|].
  set (h := (buf_head ch + 1) mod buf_size ch).
  assert (Hhb : 0 <= h < buf_size ch) by (apply Z.mod_pos_bound; lia).
  exists v, (set_ring (buf ch) h (buf_count ch - 1) (buf_count ch - 1) ch). split_and!.
  - unfold chan_take_from_buffer. erewrite prog_bind_ok by (by apply get_chan_ok).
    destruct (Z.eqb_spec (buf_count ch) 0); [lia|]. rewrite zget_in by lia. rewrite Hv. prog_step.
    rewrite Hi, (proj2 (Z.ltb_lt _ _) Hlt). rewrite !wrap64_small by (unfold WORD; lia). fold h.
    by erewrite prog_bind_ok by (by apply upd_chan_ok).
  - eauto.
  - split; simpl; try done; lia.
  - unfold ring. simpl. replace (Z.to_nat (buf_count ch)) with (S (Z.to_nat (buf_count ch - 1))) by lia.
    simpl. f_equal.
    + unfold ring_at. rewrite Z.add_0_r, Z.mod_small by lia. by rewrite Hv.
    + rewrite <- fmap_S_seq, <- list_fmap_compose. apply list_fmap_ext. intros i k Hk.
      unfold compose, ring_at. simpl. unfold h. rewrite Z.add_mod_idemp_l by lia. do 4 f_equal. lia.
Qed.

(** ** Matching with a waiter *)

Lemma notified_set_chans p e v t f w :
  notified p e v t (set_chans f w) = set_chans f (notified p e v t w).
Proof. unfold notified, posted. destruct (kind e); simpl; [|done..]. by destruct (fibers w !! coro e). Qed.

Lemma notified_chans p e v t w : chans (notified p e v t w) = chans w.
Proof. unfold notified, posted. destruct (kind e); simpl; [|done..]. by destruct (fibers w !! coro e). Qed.

(** The effect of [wake] and of [wake_claim] on the entry they claim. *)
Definition wake_eff (v : Z) (p : positive) (e : goc_entry) (w : world) : world :=
  notified p e v (home_of_entry e w) (marked p e (delivered v e) w).
Definition claim_eff (v : Z) (p : positive) (e : goc_entry) (w : world) : world :=
  claim_notified p e v (marked p e (delivered v e) w).

Lemma wake_eff_comm v p e f w : wake_eff v p e (set_chans f w) = set_chans f (wake_eff v p e w).
Proof. unfold wake_eff. rewrite <- notified_set_chans. done. Qed.
Lemma claim_eff_comm v p e f w : claim_eff v p e (set_chans f w) = set_chans f (claim_eff v p e w).
Proof. unfold claim_eff, claim_notified. destruct (kind e); [done|..]; by rewrite <- notified_set_chans. Qed.
Lemma claim_eff_chans v p e w : chans (claim_eff v p e w) = chans w.
Proof. unfold claim_eff, claim_notified. destruct (kind e); [done|..]; by rewrite notified_chans. Qed.

Lemma put_to_taker_attempt c v :
  attempt_ok c (λ p _, b ← wake c p v; mret (if b : bool then Some tt else None)) (λ _, tt) (wake_eff v).
Proof.
  split.
  - intros L w ch p e Hw Hc He Hcan Hcl. by erewrite prog_bind_ok by (by eapply wake_fail).
  - intros L w p e Hw He Hcl. by erewrite prog_bind_ok by (by eapply wake_ok).
  - intros. apply wake_eff_comm.
  - intros. unfold wake_eff. by rewrite notified_chans.
Qed.

Lemma take_from_putter_attempt c :
  attempt_ok c (λ p e, b ← wake c p 0; mret (if b : bool then Some (put_val e) else None))
    put_val (wake_eff 0).
Proof.
  split.
  - intros L w ch p e Hw Hc He Hcan Hcl. by erewrite prog_bind_ok by (by eapply wake_fail).
  - intros L w p e Hw He Hcl. by erewrite prog_bind_ok by (by eapply wake_ok).
  - intros. apply wake_eff_comm.
  - intros. unfold wake_eff. by rewrite notified_chans.
Qed.

Lemma put_claim_attempt c v :
  attempt_ok c (λ p e, r ← wake_claim c p v; mret ((λ fe, (fe, want_of e)) <$> r))
    (λ e, (claim_of e, want_of e)) (claim_eff v).
Proof.
  split.
  - intros L w ch p e Hw Hc He Hcan Hcl. by erewrite prog_bind_ok by (by eapply wake_claim_fail).
  - intros L w p e Hw He Hcl. by erewrite prog_bind_ok by (by eapply wake_claim_ok).
  - intros. apply claim_eff_comm.
  - intros. apply claim_eff_chans.
Qed.

Lemma take_claim_attempt c :
  attempt_ok c (λ p e, r ← wake_claim c p 0; mret ((λ fe, (put_val e, (fe, want_of e))) <$> r))
    (λ e, (put_val e, (claim_of e, want_of e))) (claim_eff 0).
Proof.
  split.
  - intros L w ch p e Hw Hc He Hcan Hcl. by erewrite prog_bind_ok by (by eapply wake_claim_fail).
  - intros L w p e Hw He Hcl. by erewrite prog_bind_ok by (by eapply wake_claim_ok).
  - intros. apply claim_eff_comm.
  - intros. apply claim_eff_chans.
Qed.

(** The waiter [p] is woken with value [v]: its entry holds the value and the
    status, and its owner, and nobody else, is told exactly once. *)
Record woken_with (v : Z) (p : positive) (w w' : world) : Prop := {
  ww_entry : ∃ e n, ents w !! p = Some e ∧ live w p = true ∧
    ents w' !! p = Some (delivered v (set_next n e)) ∧
    match kind e with
    | GOC_FIBER => ∃ t, runq w' = runq w ++ [(coro e, t)] ∧ cbq w' = cbq w ∧ syncs w' = syncs w
    | GOC_CALLBACK => runq w' = runq w ∧ cbq w' = cbq w ++ [(p, v)] ∧ syncs w' = syncs w
    | GOC_SYNC => runq w' = runq w ∧ cbq w' = cbq w ∧ syncs w' = <[sync_sem_ptr e := true]> (syncs w)
    end;
  ww_others : ∀ q, q ≠ p → match ents w !! q with
                            | None => ents w' !! q = None
                            | Some e => ∃ n, ents w' !! q = Some (set_next n e)
                            end;
  ww_live : ∀ q, live w' q = true → live w q = true ∧ q ≠ p;
  ww_alone : (∃ e, ents w !! p = Some e ∧ fired e = None) → ∀ q, q ≠ p → live w' q = live w q;
  ww_closelog : closelog w' = closelog w;
  ww_loopq : loopq w' = loopq w
}.

Lemma notified_parts p e v t w :
  ents (notified p e v t w) = ents w ∧ flags (notified p e v t w) = flags w ∧
  closelog (notified p e v t w) = closelog w ∧ loopq (notified p e v t w) = loopq w.
Proof. unfold notified, posted. destruct (kind e); simpl; [|done..]. by destruct (fibers w !! coro e). Qed.

Lemma woken_with_match L w p e v t f :
  world_ok L w → ents w !! p = Some e → claimable (flags w) e = true →
  woken_with v p w (set_chans f (notified p e v t (marked p e (delivered v e) w))).
Proof.
  intros Hw He Hc. set (w1 := marked p e (delivered v e) w).
  destruct (notified_parts p e v t w1) as (Hen & Hfl & Hcl & Hlq).
  assert (Hlive : ∀ q, live (set_chans f (notified p e v t w1)) q =
                       match (<[p := delivered v e]> (ents w)) !! q with
                       | Some e1 => claimable (claim_flags e (flags w)) e1 | None => false end).
  { intros q. unfold live. simpl. by rewrite Hen, Hfl. }
  split; simpl; try (by rewrite ?Hcl, ?Hlq).
  - exists e, (next e). rewrite Hen, set_next_id. simpl. rewrite lookup_insert_eq. unfold live. rewrite He.
    split_and!; try done. unfold notified, posted. destruct (kind e) eqn:Hk; simpl; [|done..].
    destruct (eo_fiber _ _ (wo_ent _ _ Hw p e He) Hk) as [fb Hf]. rewrite Hf. simpl. eauto.
  - intros q Hq. rewrite Hen. simpl. rewrite lookup_insert_ne by done.
    destruct (ents w !! q) as [e1|]; [|done]. exists (next e1). by rewrite set_next_id.
  - intros q. rewrite Hlive, lookup_insert. case_decide as Hq.
    + by rewrite claimable_woken.
    + unfold live. destruct (ents w !! q) as [e1|]; [|done]. intros ?%claim_flags_mono. eauto.
  - intros (e0 & He0 & Hf) q Hq. assert (e0 = e) as -> by congruence. rewrite Hlive.
    rewrite lookup_insert_ne by done. unfold live, claim_flags. by rewrite Hf.
Qed.

(** The world after a match on side [s] of [c], with the list trimmed. *)
Lemma matched_ok L w c ch s l1 p e l2 tl d v t :
  world_ok L w → chans w !! c = Some ch → L c s = l1 ++ p :: l2 → ents w !! p = Some e →
  claimable (flags w) e = true → (tl = None ∨ tl = last l2) →
  world_ok (relist L c (on_side s l2 (L c)))
    (set_chans (<[c := trimmed s (head l2) tl d ch]>) (notified p e v t (marked p e (delivered v e) w))).
Proof.
  intros Hw Hc HL He Hcl Htl.
  assert (Hw1 : world_ok (relist L c (on_side s l2 (L c)))
                  (set_chans (<[c := trimmed s (head l2) tl d ch]>) w)).
  { eapply world_ok_trim; [done|done| |done]. by rewrite HL, cons_middle, app_assoc. }
  rewrite <- notified_set_chans.
  refine (world_ok_claim _ (set_chans (<[c := trimmed s (head l2) tl d ch]>) w) p e _ v t Hw1 He Hcl _
            (delivered_marks v e)).
  intros c' s'. unfold relist, on_side. pose proof (wo_nodup _ _ Hw c s) as Hnd. rewrite HL in Hnd.
  assert (Hp : p ∈ L c s) by (rewrite HL; apply elem_of_app; right; constructor).
  apply NoDup_app in Hnd as (_ & _ & [Hn _]%NoDup_cons).
  repeat case_decide; subst; [done|..]; intros Hin; by destruct (wo_disj _ _ Hw _ _ _ _ p Hp Hin).
Qed.

(** The first waiter that can be woken. *)
Lemma lv_first L w c s l1 p e l2 :
  L c s = l1 ++ p :: l2 → Forall (dead_entry w) l1 → ents w !! p = Some e →
  claimable (flags w) e = true →
  lv L w c s = p :: filter (λ q, live w q = true) l2.
Proof.
  intros HL Hd He Hc. unfold lv. rewrite HL, filter_app, filter_cons_True.
  - replace (filter _ l1) with (@nil positive); [done|]. symmetry. clear HL.
    induction Hd as [|q l (eq & Hq & Hcq) _ IH]; [done|]. rewrite filter_cons_False; [done|].
    unfold live. rewrite Hq. by rewrite Hcq.
  - unfold live. by rewrite He.
Qed.

Lemma lv_none L w c s : Forall (dead_entry w) (L c s) → lv L w c s = [].
Proof.
  intros Hd. unfold lv. induction Hd as [|q l (eq & Hq & Hcq) _ IH]; [done|].
  rewrite filter_cons_False; [done|]. unfold live. by rewrite Hq, Hcq.
Qed.

(** After a match the waiters left are those of before that can still be woken. *)
Lemma lv_after L w w' c s l2 p v rest :
  lv L w c s = p :: rest → rest = filter (λ q, live w q = true) l2 → woken_with v p w w' →
  (∀ c' s', NoDup (L c' s')) →
  ∀ c' s', lv (relist L c (on_side s l2 (L c))) w' c' s' =
    filter (λ q, live w' q = true)
      (if decide (c' = c ∧ s' = s) then rest else lv L w c' s').
Proof.
  intros Hlv Hrest Hww Hnd c' s'.
  assert (Hff : ∀ l : list positive, filter (λ q, live w' q = true) l =
            filter (λ q, live w' q = true) (filter (λ q, live w q = true) l)).
  { intros l. rewrite list_filter_filter. apply list_filter_iff. intros q. split; [|by intros [? ?]].
    intros Hq. split; [done|]. by apply (ww_live _ _ _ _ Hww). }
  unfold lv at 1. unfold relist, on_side.
  destruct (decide (c' = c)) as [->|Hc]; [destruct (decide (s' = s)) as [->|Hs]|].
  - rewrite decide_True by done. by rewrite Hff, Hrest.
  - rewrite decide_False by naive_solver. by rewrite Hff.
  - rewrite decide_False by naive_solver. by rewrite Hff.
Qed.
(** Channels may differ in links and dead counts only. *)
Definition chans_tidy (w w' : world) : Prop :=
  ∀ c, match chans w !! c with
       | None => chans w' !! c = None
       | Some ch => ∃ h1 t1 h2 t2 d, chans w' !! c =
           Some (set_dead d (set_takers h1 t1 (set_putters h2 t2 ch)))
       end.

(** The outcome of looking for a waiter on side [s] of [c] to hand [v] to. *)
Inductive match_case {A} (L : positive → side → list positive) (w : world) (c : positive)
    (s : side) (v : Z) (ret : goc_entry → A) : option A → world → Prop :=
| match_none L1 w1 :
    lv L w c s = [] → world_ok L1 w1 → tidied w w1 →
    (∀ c' s', lv L1 w1 c' s' = lv L w c' s') →
    match_case L w c s v ret None w1
| match_some L1 w1 p e rest :
    lv L w c s = p :: rest → ents w !! p = Some e → world_ok L1 w1 → woken_with v p w w1 →
    chans_tidy w w1 →
    (∀ c' s', lv L1 w1 c' s' = filter (λ q, live w1 q = true)
                (if decide (c' = c ∧ s' = s) then rest else lv L w c' s')) →
    match_case L w c s v ret (Some (ret e)) w1.

Lemma chans_tidy_trim w w1 c ch s h t d :
  chans w !! c = Some ch → chans w1 = chans w →
  chans_tidy w (set_chans (<[c := trimmed s h t d ch]>) w1).
Proof.
  intros Hc Hw1. pose proof (tidied_trim w c ch s h t d (ents w) Hc
    (ex_intro _ [] (renext_refl _ _))) as [_ Ht _ _ _ _ _ _ _ _ _ _].
  intros c'. specialize (Ht c'). simpl in *. by rewrite Hw1.
Qed.

(** A scan that found nobody. *)
Lemma scan_none_case {A} L w c ch s v (ret : goc_entry → A) d :
  world_ok L w → chans w !! c = Some ch → Forall (dead_entry w) (L c s) →
  match_case L w c s v ret None (set_chans (<[c := trimmed s None None d ch]>) w).
Proof.
  intros Hw Hc Hd. pose proof (world_ok_trim L w c ch s (L c s) [] None d Hw Hc) as Hw1.
  rewrite app_nil_r in Hw1. specialize (Hw1 eq_refl (or_introl eq_refl)). simpl in Hw1.
  pose proof (tidied_trim w c ch s None None d (ents w) Hc (ex_intro _ [] (renext_refl _ _))) as Ht.
  rewrite set_ents_id in Ht. eapply match_none; [by apply lv_none|done|done|].
  intros c' s'. unfold lv. rewrite (list_filter_iff _ (λ p, live w p = true)).
  - unfold relist, on_side. destruct (decide (c' = c)) as [->|]; [|done].
    destruct (decide (s' = s)) as [->|]; [|done]. pose proof (lv_none L w c s Hd) as Hn.
    unfold lv in Hn. by rewrite Hn.
  - intros p. by rewrite (tidied_live w).
Qed.

(** A scan that woke somebody. *)
Lemma scan_some_case {A} L w c ch s v (ret : goc_entry → A) l1 p e l2 tl d t :
  world_ok L w → chans w !! c = Some ch → L c s = l1 ++ p :: l2 → Forall (dead_entry w) l1 →
  ents w !! p = Some e → claimable (flags w) e = true → (tl = None ∨ tl = last l2) →
  match_case L w c s v ret (Some (ret e))
    (set_chans (<[c := trimmed s (head l2) tl d ch]>) (notified p e v t (marked p e (delivered v e) w))).
Proof.
  intros Hw Hc HL Hd He Hcl Htl.
  pose proof (lv_first L w c s l1 p e l2 HL Hd He Hcl) as Hlv.
  pose proof (woken_with_match L w p e v t (<[c := trimmed s (head l2) tl d ch]>) Hw He Hcl) as Hww.
  eapply match_some; [done|done|by eapply matched_ok|done| |].
  - apply chans_tidy_trim; [done|]. by rewrite notified_chans.
  - eapply lv_after; try done. intros. apply (wo_nodup _ _ Hw).
Qed.

Lemma put_to_taker_case L w c ch v :
  world_ok L w → chans w !! c = Some ch →
  ∃ r w1, chan_put_to_taker c v w = ok (bool_decide (is_Some r), w1) ∧
    match_case L w c Takers v (λ _, tt) r w1.
Proof.
  intros Hw Hc. unfold chan_put_to_taker.
  destruct (scan_ok c _ _ _ (put_to_taker_attempt c v) Takers ch L w Hw Hc)
    as [[Hd (d & Hr)]|(l1 & p & e & l2 & d & tl & HL & Hd & He & Hcl & Htl & Hr)].
  - eexists None, _. erewrite prog_bind_ok by exact Hr. split; [done|]. by apply scan_none_case.
  - eexists (Some tt), _. erewrite prog_bind_ok by exact Hr. split; [done|].
    unfold wake_eff. by eapply (scan_some_case L w c ch Takers v (λ _, tt)).
Qed.

Lemma take_from_putter_case L w c ch :
  world_ok L w → chans w !! c = Some ch →
  ∃ r w1, chan_take_from_putter c w = ok (r, w1) ∧ match_case L w c Putters 0 put_val r w1.
Proof.
  intros Hw Hc. unfold chan_take_from_putter.
  destruct (scan_ok c _ _ _ (take_from_putter_attempt c) Putters ch L w Hw Hc)
    as [[Hd (d & Hr)]|(l1 & p & e & l2 & d & tl & HL & Hd & He & Hcl & Htl & Hr)].
  - eexists None, _. split; [exact Hr|]. by apply scan_none_case.
  - eexists (Some (put_val e)), _. split; [exact Hr|]. unfold wake_eff.
    by eapply (scan_some_case L w c ch Putters 0 put_val).
Qed.

(** The caller of the claim variants, after the lock is released. *)
Definition post_claimed (post : positive → prog world ()) (cl : claim) : prog world () :=
  match cl.1 with
  | Some j => suspended ← wait_for_fiber_suspended j cl.2;
              if suspended : bool then post j else mret tt
  | None => mret tt
  end.

Lemma post_claimed_ok L w p e v f post t :
  world_ok L w → ents w !! p = Some e → claimable (flags w) e = true →
  (∀ fb w1, fibers w1 !! coro e = Some (mk_fiber 4 (fhome fb) (fpool fb)) →
     fibers w !! coro e = Some fb → post (coro e) w1 = ok (tt, push_runq (coro e, t) w1)) →
  post_claimed post (claim_of e, want_of e) (set_chans f (claim_eff v p e w)) =
    ok (tt, set_chans f (notified p e v (if claim_of e is Some _ then t else None) (marked p e (delivered v e) w))).
Proof.
  intros Hw He Hcl Hpost. unfold post_claimed, claim_eff, claim_notified, claim_of. simpl.
  pose proof (wo_ent _ _ Hw p e He) as [_ _ Hpark _ _].
  destruct (kind e) eqn:Hk; [|done..].
  destruct (Hpark eq_refl Hcl) as (Hg & fb & Hf & Hp). rewrite want_of_gen1 by done.
  erewrite prog_bind_ok by (apply wait_ok; done).
  rewrite (Hpost fb) by (simpl; rewrite ?lookup_insert_eq; done).
  unfold notified. rewrite Hk, (posted_parts _ _ _ fb); done.
Qed.
Lemma woken_with_tidied v p w w0 w1 : tidied w w0 → woken_with v p w0 w1 → woken_with v p w w1.
Proof.
  intros Ht [(e0 & n & He0 & Hl & He1 & Hk) Ho Hlive Hal Hcl Hlq].
  pose proof Ht as [Te _ _ _ Ts _ Tr Tc Tl Tcl _ _].
  split; try congruence.
  - pose proof (Te p) as Hp. rewrite (tidied_live w w0) in Hl by done.
    destruct (ents w !! p) as [e|] eqn:Ee; [|congruence]. destruct Hp as (n0 & Hp).
    assert (e0 = set_next n0 e) as -> by congruence. exists e, n. rewrite Tr, Tc, Ts in Hk. by split_and!.
  - intros q Hq. specialize (Ho q Hq). specialize (Te q). destruct (ents w !! q) as [e|].
    + destruct Te as (n1 & Hn1). rewrite Hn1 in Ho. by destruct Ho as (n2 & ->); eauto.
    + by rewrite Te in Ho.
  - intros q Hq. rewrite <- (tidied_live w w0) by done. by apply Hlive.
  - intros (e & He & Hf) q Hq. rewrite <- (tidied_live w w0) by done. apply Hal; [|done].
    specialize (Te p). rewrite He in Te. destruct Te as (n1 & Hn1). by exists (set_next n1 e).
Qed.

(** What an operation can observe of a channel besides its waiters. *)
Record cobs := mk_cobs { oq : list Z; osize : Z; oclosed : bool; oguard : close_state; ohook : option Z }.
Definition obs (ch : goc_chan) : cobs :=
  {| oq := ring ch; osize := buf_size ch; oclosed := closed ch; oguard := close_guard ch;
     ohook := on_close ch |}.
Definition obs_at (w : world) (c : positive) : option cobs := obs <$> chans w !! c.
Definition set_oq (q : list Z) (o : cobs) : cobs :=
  {| oq := q; osize := osize o; oclosed := oclosed o; oguard := oguard o; ohook := ohook o |}.

Lemma chans_tidy_obs w w' c : chans_tidy w w' → obs_at w' c = obs_at w c.
Proof.
  intros Ht. specialize (Ht c). unfold obs_at. destruct (chans w !! c) as [ch|]; [|by rewrite Ht].
  destruct Ht as (h1 & t1 & h2 & t2 & d & ->). done.
Qed.

Lemma tidied_obs w w' c : tidied w w' → obs_at w' c = obs_at w c.
Proof. intros Ht. apply chans_tidy_obs. intros c'. apply (td_chans _ _ Ht). Qed.

(** Every entry is still there with its contents (links aside). *)
Definition kept (w w' : world) : Prop :=
  ∀ q e, ents w !! q = Some e → ∃ n, ents w' !! q = Some (set_next n e).

Lemma kept_refl w w' : ents w' = ents w → kept w w'.
Proof. intros He q e Hq. exists (next e). by rewrite He, set_next_id. Qed.

Lemma tidied_kept w w' : tidied w w' → kept w w'.
Proof. intros Ht q e Hq. pose proof (td_ents _ _ Ht q) as He. by rewrite Hq in He. Qed.

Lemma kept_trans w1 w2 w3 : kept w1 w2 → kept w2 w3 → kept w1 w3.
Proof.
  intros H12 H23 q e Hq. destruct (H12 q e Hq) as (n & Hn). destruct (H23 q _ Hn) as (n' & Hn').
  by exists n'.
Qed.

(** The entry of a caller that parks: last in its list, told nothing yet. *)
Record parks (c : positive) (s : side) (k : goc_entry_kind) (v : Z) (p : positive)
    (L : positive → side → list positive) (w : world)
    (L' : positive → side → list positive) (w' : world) : Prop := {
  pk_new : ents w !! p = None;
  pk_entry : ∃ e, ents w' !! p = Some e ∧ kind e = k ∧ put_val e = v ∧ fired e = None ∧
    (s = Takers → result_slot e = true);
  pk_lv : ∀ c' s', lv L' w' c' s' = if decide (c' = c ∧ s' = s) then lv L w c s ++ [p] else lv L w c' s';
  pk_obs : ∀ c', obs_at w' c' = obs_at w c';
  pk_kept : kept w w';
  pk_live : ∀ q, q ≠ p → live w' q = live w q;
  pk_runq : runq w' = runq w;
  pk_cbq : cbq w' = cbq w;
  pk_closelog : closelog w' = closelog w;
  pk_loopq : loopq w' = loopq w
}.

(** The branches of a put of [v] on [c]. *)
Inductive put_case (L : positive → side → list positive) (w : world) (c : positive) (o : cobs)
    (k : goc_entry_kind) (v : Z) :
    outcome goc_status → (positive → side → list positive) → world → Prop :=
| put_closed L' w' :
    oclosed o = true → tidied w w' → (∀ c' s', lv L' w' c' s' = lv L w c' s') →
    put_case L w c o k v (Ret GOC_CLOSED) L' w'
| put_to_waiter L' w' p rest :
    oclosed o = false → lv L w c Takers = p :: rest → woken_with v p w w' →
    (∀ c', obs_at w' c' = obs_at w c') →
    (∀ c' s', lv L' w' c' s' = filter (λ q, live w' q = true)
                (if decide (c' = c ∧ s' = Takers) then rest else lv L w c' s')) →
    put_case L w c o k v (Ret GOC_OK) L' w'
| put_buffered L' w' :
    oclosed o = false → lv L w c Takers = [] → Z.of_nat (length (oq o)) < osize o →
    obs_at w' c = Some (set_oq (oq o ++ [v]) o) → (∀ c', c' ≠ c → obs_at w' c' = obs_at w c') →
    (∀ c' s', lv L' w' c' s' = lv L w c' s') →
    (∀ p, live w' p = live w p) → kept w w' →
    runq w' = runq w → cbq w' = cbq w → closelog w' = closelog w → loopq w' = loopq w →
    put_case L w c o k v (Ret GOC_OK) L' w'
| put_parked L' w' p :
    oclosed o = false → lv L w c Takers = [] → Z.of_nat (length (oq o)) = osize o →
    parks c Putters k v p L w L' w' →
    put_case L w c o k v (Park p) L' w'.

(** The branches of a take from [c]; [dflt] is what a call that cannot block returns. *)
Inductive take_case (L : positive → side → list positive) (w : world) (c : positive) (o : cobs)
    (k : goc_entry_kind) :
    outcome goc_val → (positive → side → list positive) → world → Prop :=
| take_buffered L' w' v q :
    oq o = v :: q → obs_at w' c = Some (set_oq q o) → (∀ c', c' ≠ c → obs_at w' c' = obs_at w c') →
    (∀ c' s', lv L' w' c' s' = lv L w c' s') →
    (∀ p, live w' p = live w p) → kept w w' →
    runq w' = runq w → cbq w' = cbq w → closelog w' = closelog w → loopq w' = loopq w →
    take_case L w c o k (Ret (v, GOC_OK)) L' w'
| take_from_waiter L' w' p e rest :
    oq o = [] → lv L w c Putters = p :: rest → ents w !! p = Some e → woken_with 0 p w w' →
    (∀ c', obs_at w' c' = obs_at w c') →
    (∀ c' s', lv L' w' c' s' = filter (λ q, live w' q = true)
                (if decide (c' = c ∧ s' = Putters) then rest else lv L w c' s')) →
    take_case L w c o k (Ret (put_val e, GOC_OK)) L' w'
| take_closed L' w' :
    oq o = [] → lv L w c Putters = [] → oclosed o = true → tidied w w' →
    (∀ c' s', lv L' w' c' s' = lv L w c' s') →
    take_case L w c o k (Ret (0, GOC_CLOSED)) L' w'
| take_parked L' w' p :
    oq o = [] → lv L w c Putters = [] → oclosed o = false →
    parks c Takers k 0 p L w L' w' →
    take_case L w c o k (Park p) L' w'.
Lemma set_dead_tidied L w c ch d :
  world_ok L w → chans w !! c = Some ch →
  world_ok L (set_chans (<[c := set_dead d ch]>) w) ∧ tidied w (set_chans (<[c := set_dead d ch]>) w).
Proof.
  intros Hw Hc. split.
  - eapply world_ok_same_lists; try done. pose proof (co_ring _ _ _ (wo_chan _ _ Hw c ch Hc)) as []. by split.
  - pose proof (tidied_trim w c ch Takers (takers ch) (takers_tail ch) d (ents w) Hc
      (ex_intro _ [] (renext_refl _ _))) as Ht. rewrite set_ents_id in Ht.
    by replace (trimmed Takers (takers ch) (takers_tail ch) d ch) with (set_dead d ch) in Ht by (by destruct ch).
Qed.

Lemma compact_dead_entries_ok L w c ch :
  world_ok L w → chans w !! c = Some ch →
  ∃ w' L', compact_dead_entries c w = ok (tt, w') ∧ world_ok L' w' ∧ tidied w w' ∧
    (∀ c' s', lv L' w' c' s' = lv L w c' s').
Proof.
  intros Hw Hc. unfold compact_dead_entries.
  destruct (compact_list_ok L w c ch Takers Hw Hc) as (w1 & L1 & H1 & Hw1 & Ht1 & HL1).
  destruct (tidied_chan _ _ c ch Ht1 Hc) as (a1 & a2 & a3 & a4 & a5 & Hc1).
  destruct (compact_list_ok L1 w1 c _ Putters Hw1 Hc1) as (w2 & L2 & H2 & Hw2 & Ht2 & HL2).
  destruct (tidied_chan _ _ c _ Ht2 Hc1) as (b1 & b2 & b3 & b4 & b5 & Hc2).
  destruct (set_dead_tidied L2 w2 c _ 0 Hw2 Hc2) as [Hw3 Ht3].
  eexists _, L2. erewrite prog_bind_ok by exact H1. erewrite prog_bind_ok by exact H2.
  erewrite upd_chan_ok by exact Hc2. split_and!; [done|done| |].
  - eapply tidied_trans, tidied_trans; done.
  - intros c' s'. rewrite (lv_tidied L2 L2 w2) by (done || by left).
    rewrite (lv_tidied L1 L2 w1 w2), (lv_tidied L L1 w w1) by done. done.
Qed.

Lemma maybe_compact_ok L w c ch :
  world_ok L w → chans w !! c = Some ch →
  ∃ w' L', maybe_compact c w = ok (tt, w') ∧ world_ok L' w' ∧ tidied w w' ∧
    (∀ c' s', lv L' w' c' s' = lv L w c' s').
Proof.
  intros Hw Hc. unfold maybe_compact. erewrite prog_bind_ok by (by apply get_chan_ok).
  destruct (GOC_DEAD_COUNT_THRESHOLD <=? dead_count ch).
  - by eapply compact_dead_entries_ok.
  - exists w, L. split_and!; try done. apply tidied_refl.
Qed.

(** Cases stated for the world after a compaction hold for the world before it. *)
Lemma put_case_tidied L w L0 w0 c o k v r L' w' :
  tidied w w0 → (∀ c' s', lv L0 w0 c' s' = lv L w c' s') →
  put_case L0 w0 c o k v r L' w' → put_case L w c o k v r L' w'.
Proof.
  intros Ht Hlv Hcase. pose proof Ht as [Te _ _ _ _ _ Tr Tc Tl Tcl _ _].
  destruct Hcase as [L' w' Hcl Ht' Hl'|L' w' p rest Hcl Hp Hww Ho Hl'|L' w' Hcl Hn Hlen Ho Ho' Hl' Hli Hkp Hr Hb Hc Hlq
                    |L' w' p Hcl Hn Hlen [Pn Pe Pl Po Pk Pli Pr Pc Pcl Plq]].
  - apply put_closed; [done|by eapply tidied_trans|]. intros. by rewrite Hl', Hlv.
  - eapply put_to_waiter; [done|by rewrite <- Hlv|by eapply woken_with_tidied|..].
    + intros c'. by rewrite Ho, (tidied_obs w w0).
    + intros c' s'. rewrite Hl'. by case_decide; rewrite ?Hlv.
  - apply put_buffered; [done|by rewrite <- Hlv|done|done|..|congruence|congruence|congruence|congruence].
    + intros c' Hc'. by rewrite Ho', (tidied_obs w w0).
    + intros. by rewrite Hl', Hlv.
    + intros p. by rewrite Hli, (tidied_live w w0).
    + by eapply kept_trans; [apply tidied_kept|].
  - apply put_parked; [done|by rewrite <- Hlv|done|]. split; [|done|..|congruence|congruence|congruence|congruence].
    + specialize (Te p). destruct (ents w !! p); [|done]. destruct Te. congruence.
    + intros c' s'. rewrite Pl. by case_decide; rewrite Hlv.
    + intros c'. by rewrite Po, (tidied_obs w w0).
    + by eapply kept_trans; [apply tidied_kept|].
    + intros q Hq'. by rewrite Pli, (tidied_live w w0).
Qed.

Lemma take_case_tidied L w L0 w0 c o k r L' w' :
  tidied w w0 → (∀ c' s', lv L0 w0 c' s' = lv L w c' s') →
  take_case L0 w0 c o k r L' w' → take_case L w c o k r L' w'.
Proof.
  intros Ht Hlv Hcase. pose proof Ht as [Te _ _ _ _ _ Tr Tc Tl Tcl _ _].
  destruct Hcase as [L' w' v q Hq Ho Ho' Hl' Hli Hkp Hr Hb Hc Hlq|L' w' p e rest Hq Hp He Hww Ho Hl'
                    |L' w' Hq Hn Hcl Ht' Hl'|L' w' p Hq Hn Hcl [Pn Pe Pl Po Pk Pli Pr Pc Pcl Plq]].
  - eapply take_buffered; [done|done|..|congruence|congruence|congruence|congruence].
    + intros c' Hc'. by rewrite Ho', (tidied_obs w w0).
    + intros. by rewrite Hl', Hlv.
    + intros p. by rewrite Hli, (tidied_live w w0).
    + by eapply kept_trans; [apply tidied_kept|].
  - pose proof (Te p) as Hp'. destruct (ents w !! p) as [e1|] eqn:Ee; [|congruence].
    destruct Hp' as (n & Hn). assert (e = set_next n e1) as -> by congruence.
    change (put_val (set_next n e1)) with (put_val e1).
    eapply take_from_waiter; [done|by rewrite <- Hlv|done|by eapply woken_with_tidied|..].
    + intros c'. by rewrite Ho, (tidied_obs w w0).
    + intros c' s'. rewrite Hl'. by case_decide; rewrite ?Hlv.
  - apply take_closed; [done|by rewrite <- Hlv|done|by eapply tidied_trans|]. intros. by rewrite Hl', Hlv.
  - apply take_parked; [done|by rewrite <- Hlv|done|]. split; [|done|..|congruence|congruence|congruence|congruence].
    + specialize (Te p). destruct (ents w !! p); [|done]. destruct Te. congruence.
    + intros c' s'. rewrite Pl. by case_decide; rewrite Hlv.
    + intros c'. by rewrite Po, (tidied_obs w w0).
    + by eapply kept_trans; [apply tidied_kept|].
    + intros q Hq'. by rewrite Pli, (tidied_live w w0).
Qed.
(** Filters that agree on the elements of a list. *)
Lemma list_filter_iff' {A} (P Q : A → Prop) `{∀ x, Decision (P x), ∀ x, Decision (Q x)} (l : list A) :
  (∀ x, x ∈ l → P x ↔ Q x) → filter P l = filter Q l.
Proof.
  induction l as [|x l IH]; intros Hpq; [done|]. rewrite !filter_cons, IH.
  - assert (P x ↔ Q x) by (apply Hpq; constructor). repeat case_decide; tauto || done.
  - intros y Hy. apply Hpq. by constructor.
Qed.

(** ** Parking *)

(** Appending a waiter that was just allocated. *)
Lemma parks_append L w w1 c ch s p e k v :
  world_ok L w → world_ok L w1 → chans w !! c = Some ch → closed ch = false →
  chans w1 = chans w → ents w1 = <[p := e]> (ents w) → ents w !! p = None → flags w1 = flags w →
  runq w1 = runq w → cbq w1 = cbq w → closelog w1 = closelog w → loopq w1 = loopq w →
  kind e = k → put_val e = v → fired e = None → claimable (flags w) e = true →
  (s = Takers → result_slot e = true) →
  ∃ w', chan_list_append s c p w1 = ok (tt, w') ∧
    world_ok (relist L c (on_side s (L c s ++ [p]) (L c))) w' ∧
    parks c s k v p L w (relist L c (on_side s (L c s ++ [p]) (L c))) w'.
Proof.
  intros Hw Hw1 Hc Hop Hch Hen Hpn Hfl Hrq Hcb Hcl Hlq Hk Hv Hf Hlive Hslot.
  assert (Hp1 : ents w1 !! p = Some e) by (by rewrite Hen, lookup_insert_eq).
  assert (Hun : unlinked L p).
  { intros c' s' Hin. destruct (wo_linked L w c' s' p Hw Hin) as [? ?]. congruence. }
  destruct (append_ok L w1 c ch s p e Hw1) as (w' & Hr & Ht & Hw'); [by rewrite Hch|done|done|done|by rewrite Hfl|].
  exists w'. split_and!; [done|done|].
  assert (Hl : ∀ q, live w' q = if decide (q = p) then true else live w q).
  { intros q. rewrite (tidied_live w1 w' q Ht). unfold live. rewrite Hen, Hfl, lookup_insert.
    destruct (decide (p = q)) as [->|]; [by rewrite decide_True|by rewrite decide_False]. }
  assert (Hfilt : ∀ c' s', filter (λ q, live w' q = true) (L c' s') = lv L w c' s').
  { intros c' s'. unfold lv. apply list_filter_iff'. intros q Hq. rewrite Hl.
    rewrite decide_False; [done|]. intros ->. by apply (Hun c' s'). }
  pose proof Ht as [Te _ _ _ _ _ Tr Tc Tl Tcl _ _]. split; try congruence.
  - specialize (Te p). rewrite Hp1 in Te. destruct Te as (n & Hn). exists (set_next n e). by split_and!.
  - intros c' s'. unfold lv at 1. unfold relist, on_side.
    destruct (decide (c' = c)) as [->|Hne]; [destruct (decide (s' = s)) as [->|Hs]|].
    + rewrite decide_True by done. rewrite filter_app, Hfilt. f_equal.
      rewrite filter_cons_True; [done|]. rewrite Hl. by rewrite decide_True.
    + rewrite decide_False by naive_solver. apply Hfilt.
    + rewrite decide_False by naive_solver. apply Hfilt.
  - intros c'. rewrite (tidied_obs w1 w') by done. unfold obs_at. by rewrite Hch.
  - eapply kept_trans; [|by apply tidied_kept]. intros q eq Hq. exists (next eq).
    rewrite set_next_id, Hen, lookup_insert_ne; [done|congruence].
  - intros q Hq. rewrite Hl. by rewrite decide_False.
Qed.

Lemma fresh_None L w p : world_ok L w → (next_id w <= p)%positive → ents w !! p = None.
Proof.
  intros Hw Hp. destruct (ents w !! p) eqn:E; [|done].
  assert (p < next_id w)%positive by (apply (wo_fresh_ent _ _ Hw); eauto). lia.
Qed.

Lemma park_fiber_case {A} L w c ch s i f worker slot v :
  world_ok L w → chans w !! c = Some ch → closed ch = false →
  fibers w !! i = Some f → parked f = 0 → (s = Takers → slot = true) →
  ∃ w' L', (gen ← begin_park i;
            p ← new_entry (fiber_waiter i worker slot v gen);
            chan_list_append s c p;; mret (Park (A := A) p)) w = ok (Park (next_id w), w') ∧
    world_ok L' w' ∧ parks c s GOC_FIBER v (next_id w) L w L' w'.
Proof.
  intros Hw Hc Hop Hf H0 Hslot.
  pose proof (park_fiber_ok L w i f worker slot v Hw Hf H0) as Hw1.
  destruct (parks_append L w _ c ch s (next_id w) (fiber_waiter i worker slot v 1) GOC_FIBER v Hw Hw1 Hc Hop)
    as (w' & Hr & Hw' & Hp); try done; [eapply fresh_None; [done|lia]|].
  exists w'. eexists. split_and!; [|done|done].
  erewrite prog_bind_ok by (by apply begin_park_ok).
  erewrite prog_bind_ok by done. by erewrite prog_bind_ok by exact Hr.
Qed.

Lemma park_sync_case {A} L w c ch s slot v :
  world_ok L w → chans w !! c = Some ch → closed ch = false → (s = Takers → slot = true) →
  ∃ w' L' p, (sy ← goc_sync_init;
            p ← new_entry (sync_waiter sy slot v);
            chan_list_append s c p;; mret (Park (A := A) p)) w = ok (Park p, w') ∧
    world_ok L' w' ∧ parks c s GOC_SYNC v p L w L' w'.
Proof.
  intros Hw Hc Hop Hslot. pose proof (park_sync_ok L w slot v Hw) as Hw1.
  destruct (parks_append L w _ c ch s (Pos.succ (next_id w)) (sync_waiter (next_id w) slot v) GOC_SYNC v
    Hw Hw1 Hc Hop) as (w' & Hr & Hw' & Hp); try done; [eapply fresh_None; [done|lia]|].
  exists w'. eexists _, _. split_and!; [|done|done].
  erewrite prog_bind_ok by done. erewrite prog_bind_ok by done. by erewrite prog_bind_ok by exact Hr.
Qed.
(** ** The operations *)

Lemma obs_at_Some w c ch : chans w !! c = Some ch → obs_at w c = Some (obs ch).
Proof. unfold obs_at. by intros ->. Qed.

(** The part of a put after the waiters: buffer, or park. *)
Lemma put_rest_case L w c ch k v (park : prog world (outcome goc_status)) :
  world_ok L w → chans w !! c = Some ch → closed ch = false → lv L w c Takers = [] →
  (∃ w' L' p, park w = ok (Park p, w') ∧ world_ok L' w' ∧ parks c Putters k v p L w L' w') →
  ∃ r w' L', (b ← chan_put_to_buffer c v; if b : bool then mret (Ret GOC_OK) else park) w = ok (r, w') ∧
    world_ok L' w' ∧ put_case L w c (obs ch) k v r L' w'.
Proof.
  intros Hw Hc Hop Hn (w1 & L1 & p & Hpark & Hw1 & Hpk).
  pose proof (co_ring _ _ _ (wo_chan _ _ Hw c ch Hc)) as Hring. pose proof Hring as [_ _ _ Hcnt _].
  pose proof (ring_length ch) as Hlen.
  destruct (decide (buf_count ch < buf_size ch)) as [Hlt|Hge].
  - destruct (put_to_buffer_ok c v w ch Hc Hring Hlt) as (b & Hr & Hring' & Hq).
    eexists _, _, L. erewrite prog_bind_ok by exact Hr. split_and!; [done| |].
    + eapply world_ok_same_lists; try done; by intros [].
    + apply put_buffered; try done; simpl; [lia| | |by apply kept_refl].
      * unfold obs_at. simpl. rewrite lookup_insert_eq. simpl. unfold obs. by rewrite Hq.
      * intros c' Hc'. unfold obs_at. simpl. by rewrite lookup_insert_ne.
  - eexists _, w1, L1. erewrite prog_bind_ok by (eapply put_to_buffer_full; [done|lia]).
    split_and!; [done|done|]. apply put_parked; try done. simpl. lia.
Qed.

(** *** [goc_put] *)
Lemma goc_put_ok L w c ch i f worker v :
  world_ok L w → chans w !! c = Some ch → fibers w !! i = Some f → parked f = 0 →
  ∃ r w' L', goc_put (InFiber i worker) c v w = ok (r, w') ∧ world_ok L' w' ∧
    put_case L w c (obs ch) GOC_FIBER v r L' w'.
Proof.
  intros Hw Hc Hf H0. unfold goc_put.
  destruct (maybe_compact_ok L w c ch Hw Hc) as (w0 & L0 & H1 & Hw0 & Ht & Hlv).
  erewrite prog_bind_ok by exact H1.
  destruct (tidied_chan _ _ c ch Ht Hc) as (a1 & a2 & a3 & a4 & a5 & Hc0).
  set (ch0 := set_dead _ _) in Hc0. erewrite prog_bind_ok by (by apply get_chan_ok).
  change (closed ch0) with (closed ch). change (obs ch) with (obs ch0).
  destruct (closed ch) eqn:Hcl.
  { eexists _, w0, L0. split_and!; [done|done|]. by apply put_closed. }
  assert (Hf0 : fibers w0 !! i = Some f) by (by rewrite (td_fibers _ _ Ht)).
  enough (∃ r w' L', (r ← chan_put_to_taker_claim c v;
            match r with
            | Some (fe, want) => post_claimed post_home (fe, want);; mret (Ret GOC_OK)
            | None => b ← chan_put_to_buffer c v;
                if b : bool then mret (Ret GOC_OK)
                else gen ← begin_park i; p ← new_entry (fiber_waiter i worker false v gen);
                     chan_list_append Putters c p;; mret (Park p)
            end) w0 = ok (r, w') ∧ world_ok L' w' ∧ put_case L0 w0 c (obs ch0) GOC_FIBER v r L' w')
    as (r & w' & L' & Hr & Hw' & Hcase).
  { exists r, w', L'. split_and!; [exact Hr|done|by eapply put_case_tidied]. }
  destruct (scan_ok c _ _ _ (put_claim_attempt c v) Takers ch0 L0 w0 Hw0 Hc0)
    as [[Hd (d & Hr)]|(l1 & p & e & l2 & d & tl & HL & Hd & He & Hcl' & Htl & Hr)].
  - erewrite prog_bind_ok by exact Hr.
    pose proof (scan_none_case L0 w0 c ch0 Takers v (λ _, tt) d Hw0 Hc0 Hd) as Hm.
    set (w1 := set_chans _ w0) in *. set (ch1 := trimmed Takers None None d ch0) in *.
    assert (Hc1 : chans w1 !! c = Some ch1) by apply lookup_insert_eq. clearbody w1.
    inversion Hm as [L1 w1' Hn Hw1 Ht1 Hlv1|]; subst w1'.
    destruct (park_fiber_case (A := goc_status) L1 w1 c ch1 Putters i f worker false v)
      as (w2 & L2 & Hp & Hw2 & Hpk); try done; [by rewrite (td_fibers _ _ Ht1)|].
    rewrite <- Hlv1 in Hn.
    destruct (put_rest_case L1 w1 c ch1 GOC_FIBER v _ Hw1 Hc1 Hcl Hn
      (ex_intro _ w2 (ex_intro _ L2 (ex_intro _ _ (conj Hp (conj Hw2 Hpk))))))
      as (r & w' & L' & Hrest & Hw' & Hcase).
    exists r, w', L'. split_and!; [exact Hrest|done|]. eapply put_case_tidied; done.
  - erewrite prog_bind_ok by exact Hr. simpl.
    erewrite prog_bind_ok.
    2:{ eapply (post_claimed_ok L0 w0 p e v _ post_home (home_of_entry e w0)); try done.
        intros fb w1 Hw1 Hfb. rewrite (post_home_ok _ _ _ Hw1). unfold home_of_entry. by rewrite Hfb. }
    pose proof (scan_some_case L0 w0 c ch0 Takers v (λ _, tt) l1 p e l2 tl d
      (if claim_of e is Some _ then home_of_entry e w0 else None) Hw0 Hc0 HL Hd He Hcl' Htl) as Hm.
    inversion Hm as [|L1 w1 p1 e1 rest Hl1 He1 Hw1 Hww Htidy Hlv1]; subst.
    eexists _, _, L1. split_and!; [done|done|].
    eapply put_to_waiter; try done. intros c'. by apply chans_tidy_obs.
Qed.
(** *** [goc_put_sync] *)
Lemma goc_put_sync_ok L w c ch cx v :
  world_ok L w → chans w !! c = Some ch → (∀ i k, cx ≠ InFiber i k) →
  ∃ r w' L', goc_put_sync cx c v w = ok (r, w') ∧ world_ok L' w' ∧
    put_case L w c (obs ch) GOC_SYNC v r L' w'.
Proof.
  intros Hw Hc Hcx.
  enough (∃ r w' L', (ch ← get_chan c;
      if closed ch then mret (Ret GOC_CLOSED)
      else t ← chan_put_to_taker c v;
           if t : bool then mret (Ret GOC_OK)
           else b ← chan_put_to_buffer c v;
                if b : bool then mret (Ret GOC_OK)
                else s ← goc_sync_init; p ← new_entry (sync_waiter s false v);
                     chan_list_append Putters c p;; mret (Park p)) w = ok (r, w') ∧
    world_ok L' w' ∧ put_case L w c (obs ch) GOC_SYNC v r L' w') as H'.
  { destruct cx as [i k| |]; [by destruct (Hcx i k)|exact H'..]. }
  erewrite prog_bind_ok by (by apply get_chan_ok). destruct (closed ch) eqn:Hcl.
  { eexists _, w, L. split_and!; [done|done|]. apply put_closed; [done|apply tidied_refl|done]. }
  destruct (put_to_taker_case L w c ch v Hw Hc) as (r & w1 & Hr & Hm).
  erewrite prog_bind_ok by exact Hr. destruct Hm as [L1 w1 Hn Hw1 Ht1 Hlv1|L1 w1 p e rest Hl1 He Hw1 Hww Htidy Hlv1].
  - destruct (tidied_chan _ _ c ch Ht1 Hc) as (a1 & a2 & a3 & a4 & a5 & Hc1).
    destruct (park_sync_case (A := goc_status) L1 w1 c _ Putters false v Hw1 Hc1)
      as (w2 & L2 & p & Hp & Hw2 & Hpk); try done.
    rewrite <- Hlv1 in Hn.
    destruct (put_rest_case L1 w1 c _ GOC_SYNC v _ Hw1 Hc1 Hcl Hn
      (ex_intro _ w2 (ex_intro _ L2 (ex_intro _ _ (conj Hp (conj Hw2 Hpk))))))
      as (r & w' & L' & Hrest & Hw' & Hcase).
    exists r, w', L'. split_and!; [exact Hrest|done|]. eapply put_case_tidied; done.
  - eexists _, w1, L1. split_and!; [done|done|]. eapply put_to_waiter; try done.
    intros c'. by apply chans_tidy_obs.
Qed.

(** A buffered value is taken first. *)
Lemma take_buffer_case L w c ch k :
  world_ok L w → chans w !! c = Some ch → 0 < buf_count ch →
  ∃ v w' , chan_take_from_buffer c w = ok (Some v, w') ∧ world_ok L w' ∧
    take_case L w c (obs ch) k (Ret (v, GOC_OK)) L w'.
Proof.
  intros Hw Hc Hn. pose proof (co_ring _ _ _ (wo_chan _ _ Hw c ch Hc)) as Hring.
  destruct (take_from_buffer_ok c w ch Hc Hring Hn) as (v & ch' & Hr & (h & ->) & Hring' & Hq).
  eexists v, _. split_and!; [exact Hr| |].
  - eapply world_ok_same_lists; try done; by intros [].
  - eapply take_buffered; [exact Hq|..]; try done.
    + unfold obs_at. simpl. by rewrite lookup_insert_eq.
    + intros c' Hc'. unfold obs_at. simpl. by rewrite lookup_insert_ne.
    + by apply kept_refl.
Qed.

Lemma empty_ring ch : ring_ok ch → ¬ 0 < buf_count ch → buf_count ch = 0 ∧ ring ch = [].
Proof.
  intros [_ _ _ Hc _] Hn. assert (H0 : buf_count ch = 0) by lia. split; [done|].
  unfold ring. by rewrite H0.
Qed.

(** The part of a take after the waiters: closed, or park. *)
Lemma take_rest_case L w c ch k (park : prog world (outcome goc_val)) :
  world_ok L w → chans w !! c = Some ch → ring ch = [] → lv L w c Putters = [] →
  (closed ch = false →
   ∃ w' L' p, park w = ok (Park p, w') ∧ world_ok L' w' ∧ parks c Takers k 0 p L w L' w') →
  ∃ r w' L', (ch ← get_chan c; if closed ch then mret (Ret (0, GOC_CLOSED)) else park) w = ok (r, w') ∧
    world_ok L' w' ∧ take_case L w c (obs ch) k r L' w'.
Proof.
  intros Hw Hc Hq Hn Hpark. erewrite prog_bind_ok by (by apply get_chan_ok).
  destruct (closed ch) eqn:Hcl.
  - eexists _, w, L. split_and!; [done|done|]. apply take_closed; try done. apply tidied_refl.
  - destruct (Hpark eq_refl) as (w' & L' & p & Hr & Hw' & Hpk).
    exists (Park p), w', L'. split_and!; [exact Hr|done|]. by apply take_parked.
Qed.

(** *** [goc_take] *)
Lemma goc_take_ok L w c ch i f worker :
  world_ok L w → chans w !! c = Some ch → fibers w !! i = Some f → parked f = 0 →
  ∃ r w' L', goc_take (InFiber i worker) c w = ok (r, w') ∧ world_ok L' w' ∧
    take_case L w c (obs ch) GOC_FIBER r L' w'.
Proof.
  intros Hw Hc Hf H0. unfold goc_take.
  destruct (maybe_compact_ok L w c ch Hw Hc) as (w0 & L0 & H1 & Hw0 & Ht & Hlv).
  erewrite prog_bind_ok by exact H1.
  destruct (tidied_chan _ _ c ch Ht Hc) as (a1 & a2 & a3 & a4 & a5 & Hc0).
  set (ch0 := set_dead _ _) in Hc0. change (obs ch) with (obs ch0).
  enough (∃ r w' L', (b ← chan_take_from_buffer c;
            match b with
            | Some v => mret (Ret (v, GOC_OK))
            | None => r ← chan_take_from_putter_claim c;
                match r with
                | Some (v, (fe, want)) => post_claimed post_to_run_queue (fe, want);; mret (Ret (v, GOC_OK))
                | None => ch ← get_chan c;
                    if closed ch then mret (Ret (0, GOC_CLOSED))
                    else gen ← begin_park i; p ← new_entry (fiber_waiter i worker true 0 gen);
                         chan_list_append Takers c p;; mret (Park p)
                end
            end) w0 = ok (r, w') ∧ world_ok L' w' ∧ take_case L0 w0 c (obs ch0) GOC_FIBER r L' w')
    as (r & w' & L' & Hr & Hw' & Hcase).
  { exists r, w', L'. split_and!; [exact Hr|done|by eapply take_case_tidied]. }
  assert (Hf0 : fibers w0 !! i = Some f) by (by rewrite (td_fibers _ _ Ht)).
  clearbody ch0. clear Hw Hc Hlv Hf Ht H1 L w ch a1 a2 a3 a4 a5.
  destruct (decide (0 < buf_count ch0)) as [Hn|Hn].
  { destruct (take_buffer_case L0 w0 c ch0 GOC_FIBER Hw0 Hc0 Hn) as (v & w' & Hr & Hw' & Hcase).
    erewrite prog_bind_ok by exact Hr. eauto 10. }
  destruct (empty_ring ch0 (co_ring _ _ _ (wo_chan _ _ Hw0 c ch0 Hc0)) Hn) as [Hcnt Hq].
  erewrite prog_bind_ok by (by eapply take_from_buffer_empty).
  destruct (scan_ok c _ _ _ (take_claim_attempt c) Putters ch0 L0 w0 Hw0 Hc0)
    as [[Hd (d & Hr)]|(l1 & p & e & l2 & d & tl & HL & Hd & He & Hcl' & Htl & Hr)].
  - erewrite prog_bind_ok by exact Hr.
    pose proof (scan_none_case L0 w0 c ch0 Putters 0 put_val d Hw0 Hc0 Hd) as Hm.
    set (w1 := set_chans _ w0) in *. set (ch1 := trimmed Putters None None d ch0) in *.
    assert (Hc1 : chans w1 !! c = Some ch1) by apply lookup_insert_eq. clearbody w1.
    inversion Hm as [L1 w1' Hnl Hw1 Ht1 Hlv1|]; subst w1'. rewrite <- Hlv1 in Hnl.
    destruct (take_rest_case L1 w1 c ch1 GOC_FIBER
      (gen ← begin_park i; p ← new_entry (fiber_waiter i worker true 0 gen);
       chan_list_append Takers c p;; mret (Park p)) Hw1 Hc1 Hq Hnl) as (r & w' & L' & Hrest & Hw' & Hcase).
    { intros Hcl. destruct (park_fiber_case (A := goc_val) L1 w1 c ch1 Takers i f worker true 0)
        as (w2 & L2 & Hp & Hw2 & Hpk); try done; [by rewrite (td_fibers _ _ Ht1)|]. eauto 10. }
    exists r, w', L'. split_and!; [exact Hrest|done|]. eapply take_case_tidied; done.
  - erewrite prog_bind_ok by exact Hr. simpl.
    erewrite prog_bind_ok.
    2:{ eapply (post_claimed_ok L0 w0 p e 0 _ post_to_run_queue None); done. }
    pose proof (scan_some_case L0 w0 c ch0 Putters 0 put_val l1 p e l2 tl d
      (if claim_of e is Some _ then None else None) Hw0 Hc0 HL Hd He Hcl' Htl) as Hm.
    inversion Hm as [|L1 w1 p1 e1 rest Hl1 He1 Hw1 Hww Htidy Hlv1 Hret]; subst.
    eexists _, _, L1. split_and!; [done|done|]. eapply take_from_waiter; try done. intros c'. by apply chans_tidy_obs.
Qed.
(** *** [goc_take_sync] and [goc_take_try] *)

(** Buffer, then parked putter: a value, or the rest of the call on a channel that
    has neither. *)
Lemma take_now_case {A} L w c ch k (f : Z → A) (rest : prog world A) :
  world_ok L w → chans w !! c = Some ch →
  let prg := (b ← chan_take_from_buffer c;
              match b with
              | Some v => mret (f v)
              | None => r ← chan_take_from_putter c;
                        match r with Some v => mret (f v) | None => rest end
              end) in
  (∃ v w' L', prg w = ok (f v, w') ∧ world_ok L' w' ∧
     take_case L w c (obs ch) k (Ret (v, GOC_OK)) L' w') ∨
  (∃ w1 L1 ch1, prg w = rest w1 ∧ world_ok L1 w1 ∧ tidied w w1 ∧
     (∀ c' s', lv L1 w1 c' s' = lv L w c' s') ∧ chans w1 !! c = Some ch1 ∧ obs ch1 = obs ch ∧
     ring ch = [] ∧ lv L w c Putters = []).
Proof.
  intros Hw Hc prg. destruct (decide (0 < buf_count ch)) as [Hn|Hn].
  { destruct (take_buffer_case L w c ch k Hw Hc Hn) as (v & w' & Hr & Hw' & Hcase).
    left. exists v, w', L. unfold prg. by erewrite prog_bind_ok by exact Hr. }
  destruct (empty_ring ch (co_ring _ _ _ (wo_chan _ _ Hw c ch Hc)) Hn) as [Hcnt Hq]. unfold prg.
  erewrite prog_bind_ok by (by eapply take_from_buffer_empty).
  destruct (take_from_putter_case L w c ch Hw Hc) as (r & w1 & Hr & Hm).
  erewrite prog_bind_ok by exact Hr.
  destruct Hm as [L1 w1 Hnl Hw1 Ht1 Hlv1|L1 w1 p e rst Hl1 He Hw1 Hww Htidy Hlv1].
  - right. destruct (tidied_chan _ _ c ch Ht1 Hc) as (a1 & a2 & a3 & a4 & a5 & Hc1).
    eexists w1, L1, _. by split_and!.
  - left. exists (put_val e), w1, L1. split_and!; [done|done|]. eapply take_from_waiter; try done.
    intros c'. by apply chans_tidy_obs.
Qed.

Lemma goc_take_sync_ok L w c ch cx :
  world_ok L w → chans w !! c = Some ch → (∀ i k, cx ≠ InFiber i k) →
  ∃ r w' L', goc_take_sync cx c w = ok (r, w') ∧ world_ok L' w' ∧
    take_case L w c (obs ch) GOC_SYNC r L' w'.
Proof.
  intros Hw Hc Hcx.
  destruct (take_now_case L w c ch GOC_SYNC (λ v, Ret (v, GOC_OK))
    (ch ← get_chan c;
     if closed ch then mret (Ret (0, GOC_CLOSED))
     else s ← goc_sync_init; p ← new_entry (sync_waiter s true 0);
          chan_list_append Takers c p;; mret (Park p)) Hw Hc)
    as [(v & w' & L' & Hr & Hw' & Hcase)|(w1 & L1 & ch1 & Hr & Hw1 & Ht1 & Hlv1 & Hc1 & Hob & Hq & Hn)].
  - exists (Ret (v, GOC_OK)), w', L'. split_and!; [|done|done].
    destruct cx as [i k| |]; [by destruct (Hcx i k)|exact Hr..].
  - rewrite <- Hlv1 in Hn. assert (ring ch1 = []) as Hq1 by (injection Hob as ->; done).
    destruct (take_rest_case L1 w1 c ch1 GOC_SYNC
      (s ← goc_sync_init; p ← new_entry (sync_waiter s true 0);
       chan_list_append Takers c p;; mret (Park p)) Hw1 Hc1 Hq1 Hn) as (r & w' & L' & Hrest & Hw' & Hcase).
    { intros Hcl. destruct (park_sync_case (A := goc_val) L1 w1 c ch1 Takers true 0 Hw1 Hc1 Hcl)
        as (w2 & L2 & p & Hp & Hw2 & Hpk); [done|]. eauto 10. }
    exists r, w', L'. rewrite Hob in Hcase. split_and!; [|done|by eapply take_case_tidied].
    etrans; [|exact Hrest]. etrans; [|exact Hr]. destruct cx as [i k| |]; [by destruct (Hcx i k)|done..].
Qed.

(** [goc_take_try] never parks: on an open empty channel it returns [GOC_EMPTY]. *)
Lemma goc_take_try_ok L w c ch :
  world_ok L w → chans w !! c = Some ch →
  ∃ r w' L', goc_take_try c w = ok (r, w') ∧ world_ok L' w' ∧
    ((∃ v, r = (v, GOC_OK) ∧ take_case L w c (obs ch) GOC_SYNC (Ret r) L' w') ∨
     (r = (0, if closed ch then GOC_CLOSED else GOC_EMPTY) ∧ ring ch = [] ∧ lv L w c Putters = [] ∧
      tidied w w' ∧ ∀ c' s', lv L' w' c' s' = lv L w c' s')).
Proof.
  intros Hw Hc. unfold goc_take_try.
  destruct (take_now_case L w c ch GOC_SYNC (λ v, (v, GOC_OK))
    (ch ← get_chan c; mret (0, if closed ch then GOC_CLOSED else GOC_EMPTY)) Hw Hc)
    as [(v & w' & L' & Hr & Hw' & Hcase)|(w1 & L1 & ch1 & Hr & Hw1 & Ht1 & Hlv1 & Hc1 & Hob & Hq & Hn)].
  - exists (v, GOC_OK), w', L'. split_and!; [exact Hr|done|]. left. eauto.
  - eexists _, w1, L1. split_and!; [|done|right; split; [done|by split_and!]].
    etrans; [exact Hr|]. erewrite prog_bind_ok by (by apply get_chan_ok).
    injection Hob as _ _ -> _ _. done.
Qed.
(** ** Resuming *)

(** The scheduler takes fiber [i] off its run queue. *)
Definition drop_runq (i : positive) (w : world) : world :=
  mk_world (ents w) (flags w) (fibers w) (chans w) (syncs w) (live_channels w)
    (filter (λ x, x.1 ≠ i) (runq w)) (cbq w) (loopq w) (closelog w) (loop_running w) (next_id w).

Definition running (i : positive) (f : fiber) (w : world) : world :=
  set_fibers (<[i := mk_fiber 0 (fhome f) (fpool f)]>) (drop_runq i w).

Lemma world_ok_run L w i t f :
  world_ok L w → (i, t) ∈ runq w → fibers w !! i = Some f → world_ok L (running i f w).
Proof.
  intros Hw Hin Hf. pose proof Hw as [H1 H2 H3 H4 H5 H6 H7 H8 H9 Hsu Hso H10 H11 H12 H13 Hsel].
  destruct (H7 i t Hin) as [_ Hq]. split; simpl; try done.
  - intros p e He. destruct (H5 p e He) as [E1 E2 E3 E4 E5]. split; try done; simpl.
    + intros Hk. rewrite lookup_insert. case_decide; [eauto|auto].
    + intros Hk Hcl. destruct (E3 Hk Hcl) as (Hg & fb & Hfb & Hp). split; [done|].
      rewrite lookup_insert_ne; [eauto|]. intros Hi. rewrite (Hq p e He Hk (eq_sym Hi)) in Hcl. done.
  - intros j tj [Hne Hj]%list_elem_of_filter. simpl in Hne.
    destruct (H7 j tj Hj) as [(fj & Hfj & Hpj) Hqj]. split; [|done].
    exists fj. by rewrite lookup_insert_ne by congruence.
  - assert (Hs : (filter (λ x : positive * option Z, x.1 ≠ i) (runq w)).*1 `sublist_of` (runq w).*1)
      by apply fmap_sublist, sublist_filter.
    by eapply sublist_NoDup.
Qed.

Lemma world_ok_free L w p :
  world_ok L w → unlinked L p → (∀ e, ents w !! p = Some e → fired e = None) →
  world_ok L (set_ents (delete p) w).
Proof.
  intros Hw Hun Hnf. pose proof Hw as [H1 H2 H3 H4 H5 H6 H7 H8 H9 Hsu Hso H10 H11 H12 H13 Hsel].
  assert (Hdel : ∀ q e, delete p (ents w) !! q = Some e → ents w !! q = Some e).
  { intros q e. rewrite lookup_delete_Some. by intros [_ ?]. }
  split; simpl; try done.
  - intros c ch Hc. destruct (H1 c ch Hc) as [? Hcn ? ?]. split; try done.
    intros s. eapply chain_ext; [|apply Hcn]. intros q e Hq He. exists e. split; [|done].
    rewrite lookup_delete_ne; [done|]. intros ->. by apply (Hun c s).
  - intros q e He%Hdel. destruct (H5 q e He). by split.
  - intros c s q e Hq He%Hdel. by eapply H6.
  - intros i t Hi. destruct (H7 i t Hi) as [? Hq]. split; [done|].
    intros q e He%Hdel. by apply (Hq q).
  - intros q q' e e' He%Hdel He'%Hdel. by eapply H9.
  - intros q q' e e' He%Hdel He'%Hdel. by eapply Hsu.
  - intros q e He%Hdel. by eapply Hso.
  - intros q [e He%Hdel]. eauto.
  - eapply select_ok_ext; [..|exact Hsel].
    + intros q e Hq [a Ha]. exists e. rewrite lookup_delete_ne; [done|].
      intros ->. by rewrite (Hnf e Hq) in Ha.
    + intros q e He%Hdel Hwk _. by exists e.
Qed.

Lemma world_ok_sync_destroy L w sy :
  world_ok L w →
  (∀ q e, ents w !! q = Some e → kind e = GOC_SYNC → sync_sem_ptr e = sy → claimable (flags w) e = false) →
  world_ok L (set_syncs (delete sy) w).
Proof.
  intros Hw Hno. pose proof Hw as [H1 H2 H3 H4 H5 H6 H7 H8 H9 Hsu Hso H10 H11 H12 H13 Hsel].
  split; simpl; try done.
  - intros q e He. destruct (H5 q e He) as [E1 E2 E3 E4 E5]. split; try done; simpl.
    intros Hk Hcl. rewrite lookup_delete_ne; [auto|]. intros Hs.
    by rewrite (Hno q e He Hk (eq_sym Hs)) in Hcl.
  - intros a [b [_ Hb]%lookup_delete_Some]. eauto.
Qed.

Lemma woken_unlinked L w p e :
  world_ok L w → ents w !! p = Some e → fired e = None → woken e = true → unlinked L p.
Proof.
  intros Hw He Hf Hwk c s Hin. pose proof (wo_wait _ _ Hw c s p e Hin He Hf) as Hc.
  by rewrite claimable_woken in Hc.
Qed.

(** A fiber that waited alone on an entry returns what the waker left there. *)
Lemma goc_take_resume_ok L w i p e t f :
  world_ok L w → (i, t) ∈ runq w → fibers w !! i = Some f → ents w !! p = Some e →
  fired e = None → woken e = true →
  ∃ w', goc_take_resume i p (drop_runq i w) = ok ((cb_result e, ok_ e), w') ∧
    goc_put_resume i p (drop_runq i w) = ok (ok_ e, w') ∧ world_ok L w' ∧
    w' = set_ents (delete p) (running i f w).
Proof.
  intros Hw Hin Hf He Hfd Hwk. eexists. split_and!; [| | |done].
  - unfold goc_take_resume, set_parked.
    erewrite (prog_bind_ok (get_fiber i ≫= _)) by (by erewrite prog_bind_ok by (by apply get_fiber_ok)).
    erewrite prog_bind_ok by (by apply (get_ent_ok p _ e)).
    unfold free. by erewrite (prog_bind_ok (get_ent p ≫= _))
      by (by erewrite prog_bind_ok by (by apply (get_ent_ok p _ e))).
  - unfold goc_put_resume, set_parked.
    erewrite (prog_bind_ok (get_fiber i ≫= _)) by (by erewrite prog_bind_ok by (by apply get_fiber_ok)).
    erewrite prog_bind_ok by (by apply (get_ent_ok p _ e)).
    unfold free. by erewrite (prog_bind_ok (get_ent p ≫= _))
      by (by erewrite prog_bind_ok by (by apply (get_ent_ok p _ e))).
  - apply world_ok_free; [by eapply world_ok_run|by eapply (woken_unlinked L w)|simpl; congruence].
Qed.

(** A thread that waited alone returns once its semaphore was posted. *)
Lemma goc_take_sync_resume_ok L w p e :
  world_ok L w → ents w !! p = Some e → kind e = GOC_SYNC → fired e = None → woken e = true →
  syncs w !! sync_sem_ptr e = Some true →
  ∃ w', goc_take_sync_resume p w = ok ((cb_result e, ok_ e), w') ∧
    goc_put_sync_resume p w = ok (ok_ e, w') ∧ world_ok L w' ∧
    w' = set_ents (delete p) (set_syncs (delete (sync_sem_ptr e)) w).
Proof.
  intros Hw He Hk Hf Hwk Hs.
  assert (Hwait : goc_sync_wait (sync_sem_ptr e) w = ok (tt, w)).
  { unfold goc_sync_wait, mbind, prog_bind. by rewrite Hs. }
  eexists. split_and!; [| | |done].
  - unfold goc_take_sync_resume. erewrite prog_bind_ok by (by apply (get_ent_ok p _ e)).
    erewrite prog_bind_ok by exact Hwait. erewrite prog_bind_ok by done.
    unfold free. by erewrite (prog_bind_ok (get_ent p ≫= _))
      by (by erewrite prog_bind_ok by (by apply (get_ent_ok p _ e))).
  - unfold goc_put_sync_resume. erewrite prog_bind_ok by (by apply (get_ent_ok p _ e)).
    erewrite prog_bind_ok by exact Hwait. erewrite prog_bind_ok by done.
    unfold free. by erewrite (prog_bind_ok (get_ent p ≫= _))
      by (by erewrite prog_bind_ok by (by apply (get_ent_ok p _ e))).
  - apply world_ok_free; [|by eapply (woken_unlinked L w)|simpl; congruence].
    apply world_ok_sync_destroy; [done|]. intros q eq Hq Hkq Hsq.
    destruct (wo_suniq _ _ Hw p q e eq He Hq Hk Hkq (eq_sym Hsq)) as [->|[[a Ha] _]]; [|congruence].
    assert (eq = e) as -> by congruence. by apply claimable_woken.
Qed.
End ChanOps.
