(* ===== verification/ChanClose.v ===== *)
(** Closing a channel (src/channel.c, [goc_close], [on_close_dispatch],
    [goc_close_internal]): what it does to every waiter, and its state machine. *)

From S2P Require Import Prelude Chan ChanInv ChanOps.
Import Chan ChanInv ChanOps.

Module ChanClose.

(** ** The waiters a close claims

    Walking the list in order, an entry is claimed when it can still be woken
    given the selects already claimed on the way. *)
Fixpoint claims (h : gmap positive goc_entry) (fl : gmap positive bool) (l : list positive)
    : list (positive * goc_entry) :=
  match l with
  | [] => []
  | p :: l =>
      match h !! p with
      | Some e => if claimable fl e then (p, e) :: claims h (claim_flags e fl) l else claims h fl l
      | None => claims h fl l
      end
  end.

Definition closed_entry (e : goc_entry) : goc_entry := set_ok GOC_CLOSED (set_woken e).

Lemma closed_marks e : marks e (closed_entry e).
Proof. by split. Qed.

(** What closing hands out at once: fibers are collected and posted later. *)
Definition close_notified (p : positive) (e : goc_entry) (w : world) : world :=
  match kind e with
  | GOC_FIBER => w
  | GOC_CALLBACK => if fired e is Some _ then w else push_cbq (p, 0) w
  | GOC_SYNC => set_syncs (<[sync_sem_ptr e := true]>) w
  end.

Definition close_one (pe : positive * goc_entry) (w : world) : world :=
  close_notified pe.1 pe.2 (marked pe.1 pe.2 (closed_entry pe.2) w).

Definition fibers_of (cl : list (positive * goc_entry)) : list (positive * Z) :=
  cl ≫= λ pe, match kind pe.2 with GOC_FIBER => [(coro pe.2, want_of pe.2)] | _ => [] end.

(** Fibers collected and not yet posted. *)
Record pending (w : world) (tp : list (positive * Z)) : Prop := {
  pd_each : ∀ i want, (i, want) ∈ tp → want = 4 ∧ quiet w i ∧ ¬ (i ∈ (runq w).*1) ∧
    ∃ f, fibers w !! i = Some f ∧ (parked f = 3 ∨ parked f = 4);
  pd_nodup : NoDup tp.*1
}.

Lemma close_notified_parts p e w :
  ents (close_notified p e w) = ents w ∧ flags (close_notified p e w) = flags w ∧
  runq (close_notified p e w) = runq w ∧ fibers (close_notified p e w) = fibers w ∧
  chans (close_notified p e w) = chans w ∧ next_id (close_notified p e w) = next_id w.
Proof. unfold close_notified. destruct (kind e); [done| |done]. by destruct (fired e). Qed.

Lemma close_one_chans pe f w : close_one pe (set_chans f w) = set_chans f (close_one pe w).
Proof. unfold close_one, close_notified. destruct (kind pe.2); [done| |done]. by destruct (fired pe.2). Qed.

Lemma close_one_ok L w p e :
  world_ok L w → ents w !! p = Some e → claimable (flags w) e = true → unlinked L p →
  world_ok L (close_one (p, e) w).
Proof.
  intros Hw He Hcl Hun. unfold close_one. simpl.
  set (w1 := marked p e (closed_entry e) w).
  destruct (close_notified_parts p e w1) as (P1 & P2 & P3 & P4 & P5 & P6).
  refine (world_ok_claim_step L w _ p e (closed_entry e) Hw He Hcl Hun (closed_marks e) P5 P6 P1 P2 _ _ _).
  - rewrite P4. eauto 10.
  - intros a. unfold close_notified. destruct (kind e) eqn:Hk; [done|by destruct (fired e)|].
    simpl. rewrite lookup_insert. case_decide; [|done]. subst. split; [eauto|]. intros _.
    by apply (eo_sync _ _ (wo_ent _ _ Hw p e He) Hk).
  - by left.
Qed.

(** Claiming an entry makes its fiber quiet. *)
Lemma close_one_pending L w p e tp :
  world_ok L w → ents w !! p = Some e → claimable (flags w) e = true → pending w tp →
  pending (close_one (p, e) w) (tp ++ fibers_of [(p, e)]).
Proof.
  intros Hw He Hcl [Heach Hnd]. unfold close_one. simpl.
  set (w1 := marked p e (closed_entry e) w).
  destruct (close_notified_parts p e w1) as (P1 & P2 & P3 & P4 & P5 & P6).
  assert (Hold : ∀ q e1, (<[p := closed_entry e]> (ents w)) !! q = Some e1 →
            claimable (claim_flags e (flags w)) e1 = true →
            ents w !! q = Some e1 ∧ q ≠ p ∧ claimable (flags w) e1 = true).
  { intros q e1. rewrite lookup_insert. case_decide; [intros [= <-]; by rewrite claimable_woken|].
    intros ? ?%claim_flags_mono. auto. }
  assert (Hq : ∀ i, quiet w i → quiet (close_notified p e w1) i).
  { intros i Hi q e1 Hq1 Hk1 Hc1. rewrite P1 in Hq1. rewrite P2.
    destruct (claimable (flags w1) e1) eqn:E; [|done].
    destruct (Hold q e1 Hq1 E) as (Ho & _ & Hc). by rewrite (Hi q e1 Ho Hk1 Hc1) in Hc. }
  unfold fibers_of. simpl. rewrite app_nil_r. destruct (kind e) eqn:Hk.
  - destruct (eo_park _ _ (wo_ent _ _ Hw p e He) Hk Hcl) as (Hg & f & Hf & Hp).
    assert (Hnew : coro e ∉ tp.*1).
    { intros [[i wt] [Hi Hin]]%list_elem_of_fmap. destruct (Heach _ _ Hin) as (_ & Hqi & _).
      simpl in Hi. by rewrite (Hqi p e He Hk Hi) in Hcl. }
    split.
    + intros i wt [Hin|Hin%list_elem_of_singleton]%elem_of_app.
      * destruct (Heach i wt Hin) as (-> & Hqi & Hr & Hfi). rewrite P3, P4. split_and!; auto.
      * simplify_eq. rewrite P3, P4. split_and!; [by apply want_of_gen1| | |eauto].
        -- intros q e1 Hq1 Hk1 Hc1. rewrite P1 in Hq1. rewrite P2.
           destruct (claimable (flags w1) e1) eqn:E; [|done].
           destruct (Hold q e1 Hq1 E) as (Ho & Hne & Hc).
           destruct (wo_uniq _ _ Hw p q e e1 He Ho Hk Hk1 (eq_sym Hc1) Hcl Hc) as [?|[Hs Heq]]; [done|].
           simpl in E. rewrite (claim_flags_self e _ Hs e1 (eq_sym Heq)) in E. done.
        -- intros [[j t] [Hj Hin]]%list_elem_of_fmap. simpl in Hj. subst j.
           destruct (wo_posted _ _ Hw _ _ Hin) as [_ Hqi]. by rewrite (Hqi p e He Hk eq_refl) in Hcl.
    + rewrite fmap_app. apply NoDup_app. split_and!; [done| |apply NoDup_singleton].
      intros i Hi Hi'%list_elem_of_singleton. simpl in Hi'. by subst.
  - rewrite app_nil_r. split; [|done]. intros i wt Hin. rewrite P3, P4.
    destruct (Heach i wt Hin) as (-> & Hqi & Hr & Hfi). split_and!; auto.
  - rewrite app_nil_r. split; [|done]. intros i wt Hin. rewrite P3, P4.
    destruct (Heach i wt Hin) as (-> & Hqi & Hr & Hfi). split_and!; auto.
Qed.

Definition close_all (cl : list (positive * goc_entry)) (w : world) : world :=
  foldl (λ w pe, close_one pe w) w cl.

Lemma close_one_flags p e w : flags (close_one (p, e) w) = claim_flags e (flags w).
Proof. unfold close_one. simpl. by destruct (close_notified_parts p e (marked p e (closed_entry e) w)) as (_ & -> & _). Qed.

Lemma close_one_ents p e w : ents (close_one (p, e) w) = <[p := closed_entry e]> (ents w).
Proof. unfold close_one. simpl. by destruct (close_notified_parts p e (marked p e (closed_entry e) w)) as (-> & _). Qed.

Lemma claims_insert h fl p e l : p ∉ l → claims (<[p := e]> h) fl l = claims h fl l.
Proof.
  revert fl. induction l as [|q l IH]; intros fl Hp; [done|]. apply not_elem_of_cons in Hp as [Hne Hp].
  simpl. rewrite lookup_insert_ne by done. destruct (h !! q) as [eq|]; [|by apply IH].
  by destruct (claimable fl eq); rewrite IH.
Qed.

(** A callback entry with a fired flag: [try_claim_wake] has just raised the flag,
    so the second exchange finds it raised and the callback is not posted. *)
Lemma already_fired a p w :
  flags w !! a = Some true →
  (old ← get_flag a; modify (set_flags (<[a := true]>));;
   if old : bool then mret tt else post_callback p 0) w = ok (tt, w).
Proof.
  intros Ha. erewrite prog_bind_ok by (unfold get_flag; by rewrite Ha).
  erewrite prog_bind_ok by done. unfold mret, prog_ret, set_flags.
  rewrite insert_id by done. by destruct w.
Qed.

(** One entry of the pass that can be claimed. *)
Lemma close_pass_claim L g fuel p e tp cf w :
  world_ok L (set_chans g w) → ents w !! p = Some e → claimable (flags w) e = true →
  close_pass (S fuel) (Some p) tp cf w =
    close_pass fuel (next e) (tp ++ fibers_of [(p, e)]) cf (close_one (p, e) w).
Proof.
  intros Hw He Hcl. cbn [close_pass]. erewrite prog_bind_ok by (by apply get_ent_ok).
  assert (cancelled e = false) as -> by (unfold claimable in Hcl; by destruct (cancelled e)).
  erewrite prog_bind_ok by (by apply try_claim_wake_true). cbv iota beta.
  erewrite prog_bind_ok by (apply upd_ent_ok; simpl; apply lookup_insert_eq).
  assert (Hm : set_ents (<[p := set_ok GOC_CLOSED (set_woken e)]>) (claimed p e w)
               = marked p e (closed_entry e) w).
  { unfold marked, claimed, set_ents, set_flags. simpl. f_equal. apply insert_insert_eq. }
  rewrite Hm. unfold close_one, close_notified, fibers_of. simpl. rewrite app_nil_r.
  pose proof (wo_ent _ _ Hw p e He) as [Hfl _ _ Hsync _]. destruct (kind e) eqn:Hk; rewrite ?app_nil_r.
  - done.
  - destruct (fired e) as [a|] eqn:Hf.
    + erewrite prog_bind_ok; [done|]. apply already_fired. simpl.
      unfold claim_flags. by rewrite Hf, lookup_insert_eq.
    + by erewrite prog_bind_ok by done.
  - destruct (Hsync eq_refl Hcl) as [b Hb]. unfold goc_sync_post.
    erewrite prog_bind_ok; [done|]. unfold mbind, prog_bind. simpl in *. by rewrite Hb.
Qed.

(** The whole pass claims what [claims] says, in order. *)
Lemma close_pass_ok L g : ∀ l fuel p tp cf w,
  world_ok L (set_chans g w) → (∀ q, q ∈ l → unlinked L q) → chain (ents w) p l → NoDup l →
  (length l < fuel)%nat → pending w tp →
  let cl := claims (ents w) (flags w) l in
  ∃ cf', close_pass fuel p tp cf w = ok ((tp ++ fibers_of cl, cf'), close_all cl w) ∧
    world_ok L (set_chans g (close_all cl w)) ∧ pending (close_all cl w) (tp ++ fibers_of cl).
Proof.
  induction l as [|x l IH]; intros [|fuel] p tp cf w Hw Hun Hch Hnd Hfuel Hpd; simpl in Hfuel; try lia.
  - simpl in Hch. subst p. exists cf. simpl. rewrite app_nil_r. by split_and!.
  - destruct Hch as (-> & e & He & Hch). apply NoDup_cons in Hnd as [Hx Hnd].
    assert (Hun' : ∀ q, q ∈ l → unlinked L q) by (intros q Hq; apply Hun; by constructor).
    pose proof (wo_ent _ _ Hw x e He) as [Hfl _ _ _ _].
    simpl. rewrite He. destruct (claimable (flags w) e) eqn:Hcl.
    + pose proof (close_pass_claim L g fuel x e tp cf w Hw He Hcl) as Hstep. simpl in Hstep.
      rewrite Hstep. clear Hstep.
      destruct (IH fuel (next e) (tp ++ fibers_of [(x, e)]) cf (close_one (x, e) w))
        as (cf' & Hr & Hw' & Hpd').
      * rewrite <- close_one_chans. apply close_one_ok; try done. apply Hun. constructor.
      * done.
      * rewrite close_one_ents. eapply chain_ext; [|exact Hch]. by apply same_next_out.
      * done.
      * lia.
      * pose proof (close_one_pending L (set_chans g w) x e tp Hw He Hcl) as Hp.
        rewrite close_one_chans in Hp. destruct Hpd as [P1 P2].
        destruct Hp as [Q1 Q2]; [by split|]. by split.
      * rewrite close_one_ents, close_one_flags, claims_insert in * by done.
        exists cf'. unfold fibers_of in *. simpl in *. rewrite app_nil_r in *. rewrite <- app_assoc in *.
        by split_and!.
    + destruct (IH fuel (next e) tp (if cancelled e then true else cf) w) as (cf' & Hr & Hw' & Hpd'); try done; [lia|].
      exists cf'. split_and!; [|done|done]. rewrite <- Hr.
      erewrite prog_bind_ok by (by apply get_ent_ok). destruct (cancelled e) eqn:Hcan; [done|].
      erewrite prog_bind_ok by (by apply (try_claim_wake_false x w e)). done.
Qed.
(** ** Posting the collected fibers *)

Lemma world_ok_post L w i f t :
  world_ok L w → quiet w i → ¬ (i ∈ (runq w).*1) → fibers w !! i = Some f → parked f = 3 ∨ parked f = 4 →
  world_ok L (posted i t w).
Proof.
  intros Hw Hq Hnew Hf Hp. rewrite (posted_parts i t w f Hf).
  pose proof Hw as [H1 H2 H3 H4 H5 H6 H7 H8 H9 Hsu Hso H10 H11 H12 H13 Hsel]. split; simpl; try done.
  - intros p e He. destruct (H5 p e He) as [E1 E2 E3 E4 E5]. split; try done; simpl.
    + intros Hk. rewrite lookup_insert. case_decide; [eauto|auto].
    + intros Hk Hcl. destruct (E3 Hk Hcl) as (Hg & fb & Hfb & Hpb). split; [done|].
      rewrite lookup_insert. case_decide; [|eauto]. eexists. split; [done|]. by right.
  - intros j tj [Hj|Hj%list_elem_of_singleton]%elem_of_app.
    + destruct (H7 j tj Hj) as [(fj & Hfj & Hpj) Hqj]. split; [|done].
      rewrite lookup_insert. case_decide; [|eauto]. eexists. by split.
    + simplify_eq. rewrite lookup_insert_eq. split; [|done]. eexists. by split.
  - rewrite fmap_app. apply NoDup_app. split_and!; [done| |apply NoDup_singleton].
    intros j Hj Hj'%list_elem_of_singleton. simpl in Hj'. by subst.
Qed.

(** Same world up to the park words and the run queue. *)
Record woke_up (w w' : world) (q : list (positive * option Z)) : Prop := {
  wu_ents : ents w' = ents w;
  wu_flags : flags w' = flags w;
  wu_chans : chans w' = chans w;
  wu_syncs : syncs w' = syncs w;
  wu_live : live_channels w' = live_channels w;
  wu_runq : runq w' = runq w ++ q;
  wu_cbq : cbq w' = cbq w;
  wu_loopq : loopq w' = loopq w;
  wu_closelog : closelog w' = closelog w;
  wu_next : next_id w' = next_id w;
  wu_home : ∀ i f, fibers w !! i = Some f →
    ∃ f', fibers w' !! i = Some f' ∧ fhome f' = fhome f ∧ fpool f' = fpool f
}.

(** Where a fiber is posted. *)
Definition home_at (w : world) (i : positive) : option Z :=
  match fibers w !! i with Some f => home_target f | None => None end.

Lemma post_all_ok L : ∀ tp w,
  world_ok L w → pending w tp →
  ∃ w', post_all tp w = ok (tt, w') ∧ world_ok L w' ∧
    woke_up w w' ((λ x, (x.1, home_at w x.1)) <$> tp).
Proof.
  induction tp as [|[i want] tp IH]; intros w Hw [Heach Hnd].
  - exists w. split_and!; [done|done|]. split; try done; [by rewrite app_nil_r|eauto].
  - destruct (Heach i want) as (-> & Hq & Hnew & f & Hf & Hp); [constructor|].
    simpl in Hnd. apply NoDup_cons in Hnd as [Hi Hnd].
    set (f4 := mk_fiber 4 (fhome f) (fpool f)).
    assert (Hpw : posted i (home_target f) w = push_runq (i, home_target f) (set_fibers (<[i := f4]>) w))
      by (by apply posted_parts).
    destruct (IH (posted i (home_target f) w)) as (w' & Hr & Hw' & Hu).
    + by apply (world_ok_post L w i f).
    + rewrite Hpw. split; [|done]. intros j wj Hj. destruct (Heach j wj) as (-> & Hqj & Hnj & fj & Hfj & Hpj);
        [by constructor|].
      assert (j ≠ i). { intros ->. apply Hi, list_elem_of_fmap. by exists (i, 4). }
      split_and!; [done|done| |].
      * simpl. rewrite fmap_app, elem_of_app. simpl. rewrite list_elem_of_singleton. naive_solver.
      * exists fj. simpl. by rewrite lookup_insert_ne.
    + exists w'. split_and!; [|done|].
      * cbn [post_all]. erewrite prog_bind_ok by (by apply wait_ok). cbv iota.
        erewrite prog_bind_ok by (apply (post_home_ok _ f4); simpl; apply lookup_insert_eq).
        rewrite <- Hr, Hpw. done.
      * rewrite Hpw in Hu. destruct Hu as [U1 U2 U3 U4 U5 U6 U7 U8 U9 U10 U11].
        split; try done.
        -- rewrite U6. simpl. rewrite <- app_assoc. simpl. f_equal. unfold home_at at 2. rewrite Hf. f_equal.
           apply list_fmap_ext. intros k [j wj] Hk. simpl. f_equal. unfold home_at. simpl.
           rewrite lookup_insert. case_decide; [|done]. subst j. by rewrite Hf.
        -- intros j fj Hfj. destruct (decide (j = i)) as [->|Hne].
           ++ destruct (U11 i f4) as (f' & Hf' & ? & ?); [simpl; apply lookup_insert_eq|].
              exists f'. assert (fj = f) as -> by congruence. done.
           ++ apply U11. simpl. by rewrite lookup_insert_ne.
Qed.

(** ** Compacting the lists of a channel being closed *)

Lemma compact_raw s c w ch l :
  chans w !! c = Some ch → chain (ents w) (head_of s ch) l → NoDup l →
  (∀ p e, p ∈ l → ents w !! p = Some e → cancelled e = true → free_on_drain e = false) →
  ∃ h' t d, compact_list s c w =
      ok (tt, set_chans (<[c := trimmed s (head (filter (uncancelled (ents w)) l)) t d ch]>) (set_ents (λ _, h') w)) ∧
    renext (ents w) h' l.
Proof.
  intros Hc Hch Hnd Hdr. pose proof (chain_head _ _ _ Hch) as Hhd.
  destruct (compact_loop_ok s c (tail_of s ch) (dead_count ch) ch l (S (size (ents w))) [] w l)
    as (h' & Hr & Hre & Hch'); simpl; try done.
  - by rewrite <- Hhd, trimmed_id.
  - by rewrite <- Hhd.
  - pose proof (chain_size _ _ _ Hch Hnd). lia.
  - simpl in Hr. unfold compact_list. erewrite prog_bind_ok by exact Hr.
    erewrite upd_chan_ok by (simpl; apply lookup_insert_eq).
    rewrite trimmed_head, set_list_trimmed, set_chans_twice. eauto 10.
Qed.

Lemma renext_weaken h h' l l' : (∀ p, p ∈ l → p ∈ l') → renext h h' l → renext h h' l'.
Proof.
  intros Hs Hr p. specialize (Hr p). destruct (h !! p); [|done]. destruct Hr as (n & ? & Hn).
  exists n. split; [done|]. auto.
Qed.

Lemma compact_dead_raw c w ch lt lp :
  chans w !! c = Some ch → chain (ents w) (takers ch) lt → chain (ents w) (putters ch) lp →
  NoDup lt → NoDup lp → (∀ p, p ∈ lt → ¬ p ∈ lp) →
  (∀ p e, ents w !! p = Some e → cancelled e = true → free_on_drain e = false) →
  ∃ h' ch', compact_dead_entries c w = ok (tt, set_chans (<[c := ch']>) (set_ents (λ _, h') w)) ∧
    renext (ents w) h' (lt ++ lp) ∧
    ∃ h1 t1 h2 t2 d, ch' = set_dead d (set_takers h1 t1 (set_putters h2 t2 ch)).
Proof.
  intros Hc Ht Hp Hnt Hnp Hdis Hdr. unfold compact_dead_entries.
  destruct (compact_raw Takers c w ch lt Hc Ht Hnt) as (h1 & t1 & d1 & H1 & R1); [by eauto|].
  erewrite prog_bind_ok by exact H1. set (ch1 := trimmed Takers _ t1 d1 ch).
  destruct (compact_raw Putters c (set_chans (<[c := ch1]>) (set_ents (λ _, h1) w)) ch1 lp)
    as (h2 & t2 & d2 & H2 & R2); simpl; [apply lookup_insert_eq| |done| |].
  - eapply chain_ext; [|exact Hp]. eapply renext_same_next; [exact R1|].
    intros q Hq Hq'. by apply (Hdis q).
  - intros p e _ He. destruct (renext_lookup _ _ _ _ _ R1 He) as (e0 & n & He0 & ->). apply (Hdr p e0 He0).
  - erewrite prog_bind_ok by exact H2. erewrite upd_chan_ok by (simpl; apply lookup_insert_eq).
    rewrite set_chans_twice. simpl in R2. eexists h2, _. split_and!.
    + unfold set_chans, set_ents. simpl. do 3 f_equal. by rewrite !insert_insert_eq.
    + eapply renext_trans; (eapply renext_weaken; [|done]); intros p Hin; rewrite elem_of_app; auto.
    + subst ch1. eexists _, _, _, _, 0. done.
Qed.
(** ** The effect of claiming a list of waiters *)

Definition callbacks_of (cl : list (positive * goc_entry)) : list (positive * Z) :=
  cl ≫= λ pe, match kind pe.2, fired pe.2 with GOC_CALLBACK, None => [(pe.1, 0)] | _, _ => [] end.

Definition claim_all_flags (cl : list (positive * goc_entry)) (fl : gmap positive bool) : gmap positive bool :=
  foldl (λ fl pe, claim_flags pe.2 fl) fl cl.

Lemma close_all_parts cl : ∀ w,
  runq (close_all cl w) = runq w ∧ fibers (close_all cl w) = fibers w ∧
  chans (close_all cl w) = chans w ∧ next_id (close_all cl w) = next_id w ∧
  live_channels (close_all cl w) = live_channels w ∧ closelog (close_all cl w) = closelog w ∧
  loopq (close_all cl w) = loopq w ∧
  cbq (close_all cl w) = cbq w ++ callbacks_of cl ∧
  flags (close_all cl w) = claim_all_flags cl (flags w).
Proof.
  induction cl as [|[p e] cl IH]; intros w; simpl; [by rewrite app_nil_r|].
  destruct (IH (close_one (p, e) w)) as (-> & -> & -> & -> & -> & -> & -> & -> & ->).
  rewrite close_one_flags. unfold close_one, close_notified. simpl.
  destruct (kind e); [done|destruct (fired e); [done|]|done]. simpl. by rewrite <- app_assoc.
Qed.

Lemma close_all_ents cl : ∀ w q, NoDup cl.*1 →
  ents (close_all cl w) !! q =
    match list_find (λ pe, pe.1 = q) cl with
    | Some (_, pe) => Some (closed_entry pe.2)
    | None => ents w !! q
    end.
Proof.
  induction cl as [|[p e] cl IH]; intros w q Hnd; [done|]. simpl in Hnd. apply NoDup_cons in Hnd as [Hp Hnd].
  simpl. rewrite IH by done. rewrite close_one_ents. case_decide as Hpq; simpl in Hpq.
  - subst q. destruct (list_find (λ pe, pe.1 = p) cl) as [[k pe]|] eqn:E.
    + apply list_find_Some in E as (Hk & Hpe & _). destruct Hp. rewrite <- Hpe.
      apply list_elem_of_fmap_2. by eapply list_elem_of_lookup_2.
    + apply lookup_insert_eq.
  - destruct (list_find (λ pe, pe.1 = q) cl) as [[k pe]|] eqn:E; [done|]. simpl.
    by rewrite lookup_insert_ne.
Qed.

Lemma claims_app h l1 l2 : ∀ fl,
  claims h fl (l1 ++ l2) = claims h fl l1 ++ claims h (claim_all_flags (claims h fl l1) fl) l2.
Proof.
  induction l1 as [|p l1 IH]; intros fl; [done|]. simpl. destruct (h !! p) as [e|]; [|apply IH].
  destruct (claimable fl e); [|apply IH]. simpl. by rewrite IH.
Qed.

Lemma claims_in h fl l p e : (p, e) ∈ claims h fl l → p ∈ l ∧ h !! p = Some e.
Proof.
  revert fl. induction l as [|q l IH]; intros fl; [by intros ?%not_elem_of_nil|]. simpl.
  destruct (h !! q) as [eq|] eqn:Hq; [destruct (claimable fl eq)|].
  - intros [[= -> ->]|Hin]%elem_of_cons; [by split; [constructor|]|].
    apply IH in Hin as [? ?]. split; [by constructor|done].
  - intros Hin%IH. destruct Hin. split; [by constructor|done].
  - intros Hin%IH. destruct Hin. split; [by constructor|done].
Qed.

Lemma claims_keys h fl l : (claims h fl l).*1 `sublist_of` l.
Proof.
  revert fl. induction l as [|q l IH]; intros fl; [done|]. simpl.
  destruct (h !! q) as [eq|]; [destruct (claimable fl eq)|]; simpl;
    [by apply sublist_skip|by apply sublist_cons..].
Qed.

Lemma claims_ext h h' l : (∀ p, p ∈ l → h' !! p = h !! p) → ∀ fl, claims h' fl l = claims h fl l.
Proof.
  induction l as [|q l IH]; intros Hh fl; [done|]. simpl.
  rewrite Hh by constructor. assert (IH' : ∀ fl, claims h' fl l = claims h fl l)
    by (apply IH; intros; apply Hh; by constructor).
  destruct (h !! q) as [eq|]; [destruct (claimable fl eq)|]; by rewrite IH'.
Qed.

(** Every waiter that could be woken and does not belong to a select is claimed. *)
Lemma claims_complete h l p e : ∀ fl,
  p ∈ l → h !! p = Some e → fired e = None → claimable fl e = true → (p, e) ∈ claims h fl l.
Proof.
  induction l as [|q l IH]; intros fl Hp He Hf Hc; [by apply not_elem_of_nil in Hp|]. simpl.
  assert (Hc' : ∀ fl', claimable fl' e = true).
  { intros fl'. unfold claimable, flag_clear in *. by rewrite Hf in *. }
  apply elem_of_cons in Hp as [->|Hp].
  - rewrite He, Hc. constructor.
  - destruct (h !! q) as [eq|]; [destruct (claimable fl eq)|]; [constructor|..]; apply IH; auto.
Qed.

(** After the claims, nobody on the list can be woken. *)
Lemma claims_dead h l : ∀ fl p e,
  p ∈ l → h !! p = Some e → (∀ e', (p, e') ∉ claims h fl l) →
  claimable (claim_all_flags (claims h fl l) fl) e = false.
Proof.
  induction l as [|q l IH]; intros fl p e Hp He Hno; [by apply not_elem_of_nil in Hp|]. simpl in *.
  assert (Hmono : ∀ cl fl', claimable (claim_all_flags cl fl') e = true → claimable fl' e = true).
  { induction cl as [|[p' e'] cl IHc]; intros fl'; simpl; [done|]. by intros ?%IHc%claim_flags_mono. }
  apply elem_of_cons in Hp as [->|Hp].
  - rewrite He in *. destruct (claimable fl e) eqn:Hc; [destruct (Hno e); constructor|].
    destruct (claimable (claim_all_flags _ fl) e) eqn:E; [|done]. apply Hmono in E. congruence.
  - destruct (h !! q) as [eq|]; [destruct (claimable fl eq)|]; eapply IH; try done.
    intros e' Hin. apply (Hno e'). by constructor.
Qed.
(** ** The close itself *)

Definition cleared (ch : goc_chan) : goc_chan :=
  set_dead 0 (set_putters None None (set_takers None None (set_closed ch))).

Definition no_waiters (L : positive → side → list positive) (c : positive) :=
  relist L c (λ _, []).

Lemma no_waiters_unlinked L w c s q : world_ok L w → q ∈ L c s → unlinked (no_waiters L c) q.
Proof.
  intros Hw Hq c' s'. unfold no_waiters, relist. case_decide as Hc; [apply not_elem_of_nil|].
  intros Hin. by destruct (wo_disj _ _ Hw c s c' s' q Hq Hin).
Qed.

Lemma world_ok_cleared L w c ch :
  world_ok L w → chans w !! c = Some ch →
  world_ok (no_waiters L c) (set_chans (<[c := cleared ch]>) w).
Proof.
  intros Hw Hc. pose proof (wo_chan _ _ Hw c ch Hc) as [[] _ _ _].
  apply (world_ok_chan L w c ch); try done.
  - split; [by split| | |].
    + by intros [].
    + intros []; by left.
    + done.
  - intros s. constructor.
  - intros s p Hp. by apply not_elem_of_nil in Hp.
Qed.

(** What a close leaves behind, [cl] being the waiters it claimed. *)
Record closed_with (c : positive) (ch : goc_chan) (l : list positive)
    (cl : list (positive * goc_entry)) (w w' : world) : Prop := {
  cw_chan : chans w' !! c = Some (cleared ch);
  cw_others : ∀ c', c' ≠ c → chans w' !! c' = chans w !! c';
  cw_claimed : ∀ p e, (p, e) ∈ cl → ∃ n, ents w' !! p = Some (set_next n (closed_entry e));
  cw_rest : ∀ p, ¬ p ∈ cl.*1 → match ents w !! p with
              | None => ents w' !! p = None
              | Some e => ∃ n, ents w' !! p = Some (set_next n e)
              end;
  cw_flags : flags w' = claim_all_flags cl (flags w);
  cw_runq : runq w' = runq w ++ ((λ x, (x.1, home_at w x.1)) <$> fibers_of cl);
  cw_cbq : cbq w' = cbq w ++ callbacks_of cl;
  cw_live : live_channels w' = live_channels w ∖ {[c]};
  cw_closelog : closelog w' = closelog w ++ (if on_close ch is Some f then [(c, f)] else []);
  cw_loopq : loopq w' = loopq w;
  cw_syncs : ∀ p e, (p, e) ∈ cl → kind e = GOC_SYNC → syncs w' !! sync_sem_ptr e = Some true
}.

Lemma close_all_syncs cl : ∀ w p e, (p, e) ∈ cl → kind e = GOC_SYNC →
  syncs (close_all cl w) !! sync_sem_ptr e = Some true.
Proof.
  assert (Hkeep : ∀ cl w a, syncs w !! a = Some true → syncs (close_all cl w) !! a = Some true).
  { clear cl. induction cl as [|[p e] cl IH]; intros w a Ha; [done|]. apply IH.
    unfold close_one, close_notified. simpl. destruct (kind e); [done|by destruct (fired e)|].
    simpl. rewrite lookup_insert. by case_decide. }
  induction cl as [|[q eq] cl IH]; intros w p e; [by intros ?%not_elem_of_nil|].
  intros [[= -> ->]|Hin]%elem_of_cons Hk; [|by eapply IH].
  simpl. apply Hkeep. unfold close_one, close_notified. simpl. rewrite Hk. simpl. apply lookup_insert_eq.
Qed.

(** Both passes, as the body of [goc_close_internal] runs them. *)
Lemma close_passes_ok L w c ch :
  world_ok L w → chans w !! c = Some ch →
  let w1 := set_chans (<[c := set_closed ch]>) w in
  let cl := claims (ents w) (flags w) (L c Takers ++ L c Putters) in
  ∃ r1 w2 cf, close_pass (S (size (ents w1))) (takers ch) [] false w1 = ok (r1, w2) ∧
    close_pass (S (size (ents w2))) (putters ch) r1.1 r1.2 w2 = ok ((fibers_of cl, cf), close_all cl w1) ∧
    world_ok (no_waiters L c) (set_chans (<[c := cleared ch]>) (close_all cl w1)) ∧
    pending (close_all cl w1) (fibers_of cl).
Proof.
  intros Hw Hc w1 cl. pose proof (wo_chan _ _ Hw c ch Hc) as [_ Hch _ _].
  set (g := <[c := cleared ch]> : gmap positive goc_chan → gmap positive goc_chan).
  assert (Hw1 : world_ok (no_waiters L c) (set_chans g w1)).
  { unfold g, w1. rewrite set_chans_twice. by apply world_ok_cleared. }
  assert (Hp0 : pending w1 []) by (split; [by intros ? ? ?%not_elem_of_nil|constructor]).
  pose proof (chain_size _ _ _ (Hch Takers) (wo_nodup _ _ Hw c Takers)).
  destruct (close_pass_ok (no_waiters L c) g (L c Takers) (S (size (ents w1))) (takers ch) [] false w1)
    as (cf1 & Hr1 & Hw2 & Hp2); try done.
  { intros q Hq. by apply (no_waiters_unlinked L w c Takers). }
  { apply (Hch Takers). } { apply (wo_nodup _ _ Hw). } { simpl. lia. }
  set (cl1 := claims (ents w1) (flags w1) (L c Takers)) in *. set (w2 := close_all cl1 w1) in *.
  assert (Hents2 : ∀ q, q ∈ L c Putters → ents w2 !! q = ents w !! q).
  { intros q Hq. unfold w2. rewrite close_all_ents.
    - destruct (list_find _ cl1) as [[k pe]|] eqn:E; [|done].
      apply list_find_Some in E as (Hk & Hpe & _). subst q.
      apply list_elem_of_lookup_2 in Hk. destruct pe as [p e]. apply claims_in in Hk as [Hk _].
      by destruct (wo_disj _ _ Hw c Putters c Takers p Hq Hk).
    - eapply sublist_NoDup; [apply (wo_nodup _ _ Hw c Takers)|apply claims_keys]. }
  assert (Hch2 : chain (ents w2) (putters ch) (L c Putters)).
  { eapply chain_ext; [|apply (Hch Putters)]. intros q e Hq He. exists e. by rewrite Hents2. }
  destruct (close_pass_ok (no_waiters L c) g (L c Putters) (S (size (ents w2))) (putters ch)
    (fibers_of cl1) cf1 w2) as (cf2 & Hr2 & Hw3 & Hp3); try done.
  { intros q Hq. by apply (no_waiters_unlinked L w c Putters). }
  { apply (wo_nodup _ _ Hw). } { pose proof (chain_size _ _ _ Hch2 (wo_nodup _ _ Hw c Putters)). lia. }
  assert (Hcl : cl = cl1 ++ claims (ents w2) (flags w2) (L c Putters)).
  { unfold cl. rewrite claims_app. f_equal. rewrite (claims_ext (ents w) (ents w2)) by done. f_equal.
    unfold w2. destruct (close_all_parts cl1 w1) as (_ & _ & _ & _ & _ & _ & _ & _ & ->). done. }
  assert (Hall : close_all cl w1 = close_all (claims (ents w2) (flags w2) (L c Putters)) w2)
    by (rewrite Hcl; unfold close_all; by rewrite foldl_app).
  assert (Hfib : fibers_of cl = fibers_of cl1 ++ fibers_of (claims (ents w2) (flags w2) (L c Putters)))
    by (rewrite Hcl; unfold fibers_of; by rewrite bind_app).
  exists (fibers_of cl1, cf1), w2, cf2. rewrite Hall, Hfib. by split_and!.
Qed.
Lemma clear_lists_ok c ch w :
  chans w !! c = Some ch → closed ch = true →
  clear_waiters c w = ok (tt, set_chans (<[c := cleared ch]>) w).
Proof.
  intros Hc Hcl. unfold clear_waiters. erewrite prog_bind_ok by (by apply upd_chan_ok).
  erewrite prog_bind_ok by (apply upd_chan_ok; simpl; apply lookup_insert_eq).
  erewrite upd_chan_ok by (simpl; apply lookup_insert_eq). rewrite !set_chans_twice.
  do 3 f_equal. unfold cleared. destruct ch; simpl in *. by subst.
Qed.

Lemma close_all_chain L w c ch s cl :
  world_ok L w → chans w !! c = Some ch → NoDup cl.*1 → (∀ p e, (p, e) ∈ cl → ents w !! p = Some e) →
  ∀ w1, ents w1 = ents w → chain (ents (close_all cl w1)) (head_of s ch) (L c s).
Proof.
  intros Hw Hc Hnd Hin w1 He1. eapply chain_ext; [|apply (wo_chan _ _ Hw c ch Hc)].
  intros q e Hq He. rewrite close_all_ents, He1 by done.
  destruct (list_find _ cl) as [[k pe]|] eqn:E; [|eauto].
  apply list_find_Some in E as (Hk & Hpe & _). apply list_elem_of_lookup_2 in Hk. destruct pe as [p e0].
  simpl in Hpe. subst q. apply Hin in Hk. assert (e0 = e) as -> by congruence. by eexists.
Qed.

(** Compaction of the lists that were just walked, when a cancelled entry was met. *)
Lemma maybe_compact_closed L w c ch cl (cf : bool) :
  world_ok L w → chans w !! c = Some ch → NoDup cl.*1 → (∀ p e, (p, e) ∈ cl → ents w !! p = Some e) →
  let wc := close_all cl (set_chans (<[c := set_closed ch]>) w) in
  ∃ h' ch', (if cf then compact_dead_entries c else mret tt) wc
              = ok (tt, set_chans (<[c := ch']>) (set_ents (λ _, h') wc)) ∧
    renext (ents wc) h' (L c Takers ++ L c Putters) ∧ closed ch' = true ∧ cleared ch' = cleared ch.
Proof.
  intros Hw Hc Hnd Hin wc. set (w1 := set_chans (<[c := set_closed ch]>) w).
  assert (Hcc : chans wc !! c = Some (set_closed ch)).
  { unfold wc. fold w1. destruct (close_all_parts cl w1) as (_ & _ & -> & _). simpl. apply lookup_insert_eq. }
  destruct cf.
  - destruct (compact_dead_raw c wc (set_closed ch) (L c Takers) (L c Putters) Hcc)
      as (h' & ch' & Hr & Hre & h1 & t1 & h2 & t2 & d & ->).
    + by apply (close_all_chain L w c ch Takers cl).
    + by apply (close_all_chain L w c ch Putters cl).
    + apply (wo_nodup _ _ Hw).
    + apply (wo_nodup _ _ Hw).
    + intros p Hp Hp'. by destruct (wo_disj _ _ Hw c Takers c Putters p Hp Hp').
    + intros p e He. unfold wc in He. rewrite close_all_ents in He by done.
      destruct (list_find _ cl) as [[k pe]|] eqn:E.
      * apply list_find_Some in E as (Hk & _ & _). apply list_elem_of_lookup_2 in Hk. destruct pe as [q e0].
        injection He as <-. apply Hin in Hk. intros Hca. apply (wo_ent _ _ Hw q e0 Hk). by left.
      * intros Hca. apply (wo_ent _ _ Hw p e He). by left.
    + eexists h', _. split_and!; [exact Hr|done|done|done].
  - exists (ents wc), (set_closed ch). rewrite set_ents_id, set_chans_id by done.
    split_and!; [done|apply renext_refl|done|done].
Qed.

(** The world once the lists are cleared: nothing of the channel is linked. *)
Lemma cleared_world_ok L w wc h' c ch :
  world_ok L w → world_ok (no_waiters L c) (set_chans (<[c := cleared ch]>) wc) →
  renext (ents wc) h' (L c Takers ++ L c Putters) →
  world_ok (no_waiters L c) (set_chans (<[c := cleared ch]>) (set_ents (λ _, h') wc)).
Proof.
  intros Hw Hw3 Hre.
  apply (world_ok_ext (relist (no_waiters L c) c (on_side Takers [] (no_waiters L c c)))).
  { intros c' s'. unfold no_waiters, relist, on_side. by repeat case_decide. }
  pose proof (wo_chan _ _ Hw3 c (cleared ch) (lookup_insert_eq _ _ _)) as [Hring _ _ _].
  rewrite <- (set_chans_twice c (cleared ch) (cleared ch) (set_ents (λ _, h') wc)).
  eapply (world_ok_relink _ (set_chans (<[c := cleared ch]>) wc) h' c (cleared ch) _ Takers
    (L c Takers ++ L c Putters) []);
    [exact Hw3|simpl; apply lookup_insert_eq|exact Hre| |constructor| | |].
  - split; [done|..].
    + intros []; simpl; unfold no_waiters, relist, on_side; by repeat case_decide.
    + intros []; by left.
    + intros _ s'. unfold no_waiters, relist, on_side. by repeat case_decide.
  - intros p c' s' [Hp|Hp]%elem_of_app Hp'; by destruct (no_waiters_unlinked L w c _ p Hw Hp c' s').
  - intros p c' s' Hp. by apply not_elem_of_nil in Hp.
  - intros p e Hp. by apply not_elem_of_nil in Hp.
Qed.

Lemma pending_renext wc h' l c ch tp :
  renext (ents wc) h' l → pending wc tp →
  pending (set_chans (<[c := ch]>) (set_ents (λ _, h') wc)) tp.
Proof.
  intros Hre [Heach Hn']. split; [|done]. intros i wt Hi. destruct (Heach i wt Hi) as (-> & Hq & ? & ?).
  split_and!; try done. intros p e' He' Hk Hco. simpl in He'.
  destruct (renext_lookup _ _ _ _ _ Hre He') as (e & n & He & ->). apply (Hq p e He Hk Hco).
Qed.

Definition with_log (c : positive) (o : option Z) (w : world) : world :=
  match o with Some f => push_closelog (c, f) w | None => w end.

Lemma unregister_and_call_ok c ch w :
  chans w !! c = Some ch →
  unregister_and_call c w = ok (tt, with_log c (on_close ch) (set_live (.∖ {[c]}) w)).
Proof.
  intros Hc. unfold unregister_and_call. erewrite prog_bind_ok by (by apply get_chan_ok).
  erewrite prog_bind_ok by done. by destruct (on_close ch).
Qed.

Lemma world_ok_log L c o w : world_ok L w → world_ok L (with_log c o (set_live (.∖ {[c]}) w)).
Proof.
  intros [H1 H2 H3 H4 H5 H6 H7 H8 H9 Hsu Hso H10 H11 H12 H13 Hsel].
  destruct o; (split; try done; intros p e He; destruct (H5 p e He); by split).
Qed.

Lemma closed_with_intro L w c ch cl wc h' wq :
  let w1 := set_chans (<[c := set_closed ch]>) w in
  wc = close_all cl w1 → NoDup cl.*1 → (∀ p e, (p, e) ∈ cl → ents w !! p = Some e) →
  renext (ents wc) h' (L c Takers ++ L c Putters) →
  woke_up (set_chans (<[c := cleared ch]>) (set_ents (λ _, h') wc)) wq
    ((λ x, (x.1, home_at (set_chans (<[c := cleared ch]>) (set_ents (λ _, h') wc)) x.1)) <$> fibers_of cl) →
  closed_with c ch (L c Takers ++ L c Putters) cl w (with_log c (on_close ch) (set_live (.∖ {[c]}) wq)).
Proof.
  intros w1 Hwc Hnd Hin Hre [U1 U2 U3 U4 U5 U6 U7 U8 U9 U10 U11]. simpl in *.
  destruct (close_all_parts cl w1) as (C1 & C2 & C3 & C4 & C5 & C6 & C7 & C8 & C9). rewrite <- Hwc in *.
  assert (Hlog : ∀ {A} (f : world → A), (∀ x w, f (push_closelog x w) = f w) →
            f (with_log c (on_close ch) (set_live (.∖ {[c]}) wq)) = f (set_live (.∖ {[c]}) wq)).
  { intros A f Hf. unfold with_log. destruct (on_close ch); [apply Hf|done]. }
  assert (Hfind : ∀ p e, (p, e) ∈ cl → ∃ k, list_find (λ pe, pe.1 = p) cl = Some (k, (p, e))).
  { clear -Hnd. induction cl as [|[q eq] cl IH]; intros p e Hp; [by apply not_elem_of_nil in Hp|].
    simpl in Hnd. apply NoDup_cons in Hnd as [Hq Hnd]. simpl.
    apply elem_of_cons in Hp as [[= -> ->]|Hp]; [rewrite decide_True by done; eauto|].
    rewrite decide_False; [|intros ->; apply Hq; by apply (list_elem_of_fmap_2 fst cl (p, e))].
    destruct (IH Hnd p e Hp) as (k & ->). simpl. eauto. }
  split.
  - rewrite (Hlog _ chans) by done. simpl. rewrite U3. apply lookup_insert_eq.
  - intros c' Hne. rewrite (Hlog _ chans) by done. simpl. rewrite U3, C3. simpl.
    by rewrite !lookup_insert_ne.
  - intros p e Hp. rewrite (Hlog _ ents) by done. simpl. rewrite U1. specialize (Hre p).
    rewrite Hwc, close_all_ents in Hre by done. destruct (Hfind p e Hp) as (k & Hk). rewrite Hk in Hre.
    destruct Hre as (n & -> & _). eauto.
  - intros p Hp. rewrite (Hlog _ ents) by done. simpl. rewrite U1. specialize (Hre p).
    rewrite Hwc, close_all_ents in Hre by done.
    destruct (list_find _ cl) as [[k pe]|] eqn:E.
    + apply list_find_Some in E as (Hk & Hpe & _). destruct Hp. rewrite <- Hpe.
      apply list_elem_of_fmap_2. by eapply list_elem_of_lookup_2.
    + simpl in Hre. destruct (ents w !! p); [|done]. destruct Hre as (n & ? & _). eauto.
  - rewrite (Hlog _ flags) by done. simpl. by rewrite U2, C9.
  - rewrite (Hlog _ runq) by done. simpl. rewrite U6, C1. f_equal. apply list_fmap_ext. intros k x _.
    unfold home_at. simpl. by rewrite C2.
  - rewrite (Hlog _ cbq) by done. simpl. by rewrite U7, C8.
  - rewrite (Hlog _ live_channels) by done. simpl. by rewrite U5, C5.
  - unfold with_log. destruct (on_close ch); simpl; rewrite U9, C6; [done|by rewrite app_nil_r].
  - rewrite (Hlog _ loopq) by done. simpl. by rewrite U8, C7.
  - intros p e Hp Hk. rewrite (Hlog _ syncs) by done. simpl. rewrite U4, Hwc. by eapply close_all_syncs.
Qed.

(** The close of a well-formed channel: every waiter that can be woken is claimed
    and told, in list order, and the world stays well formed. *)
Lemma close_claimed_ok L w c ch :
  world_ok L w → chans w !! c = Some ch →
  ∃ w', close_claimed c w = ok (tt, w') ∧ world_ok (no_waiters L c) w' ∧
    closed_with c ch (L c Takers ++ L c Putters)
      (claims (ents w) (flags w) (L c Takers ++ L c Putters)) w w'.
Proof.
  intros Hw Hc. set (cl := claims _ _ _). set (w1 := set_chans (<[c := set_closed ch]>) w).
  destruct (close_passes_ok L w c ch Hw Hc) as (r1 & w2 & cf & Hp1 & Hp2 & Hw3 & Hpd).
  fold w1 cl in Hp1, Hp2, Hw3, Hpd.
  assert (Hnd : NoDup cl.*1).
  { eapply sublist_NoDup; [|apply claims_keys]. apply NoDup_app.
    split_and!; [apply (wo_nodup _ _ Hw)| |apply (wo_nodup _ _ Hw)].
    intros p Hp Hp'. by destruct (wo_disj _ _ Hw c Takers c Putters p Hp Hp'). }
  assert (Hin : ∀ p e, (p, e) ∈ cl → ents w !! p = Some e) by (intros p e Hp; by apply claims_in in Hp as [_ ?]).
  destruct (maybe_compact_closed L w c ch cl cf Hw Hc Hnd Hin) as (h' & ch' & Hr & Hre & Hcl' & Hclr).
  fold w1 in Hr, Hre. remember (close_all cl w1) as wc eqn:Hwc.
  pose proof (cleared_world_ok L w wc h' c ch Hw Hw3 Hre) as Hwp.
  pose proof (pending_renext wc h' _ c (cleared ch) _ Hre Hpd) as Hpdp.
  destruct (post_all_ok _ _ _ Hwp Hpdp) as (wq & Hpost & Hwq & Hwu).
  eexists. split_and!; [|by apply (world_ok_log _ c (on_close ch))|by eapply closed_with_intro].
  unfold close_claimed. erewrite prog_bind_ok by (by apply upd_chan_ok).
  erewrite prog_bind_ok by (apply get_chan_ok; simpl; apply lookup_insert_eq).
  change (takers (set_closed ch)) with (takers ch). change (putters (set_closed ch)) with (putters ch).
  fold w1. erewrite prog_bind_ok by exact Hp1. erewrite prog_bind_ok by exact Hp2. cbn [fst snd].
  erewrite prog_bind_ok by exact Hr.
  erewrite prog_bind_ok by (apply clear_lists_ok; [simpl; apply lookup_insert_eq|done]).
  rewrite set_chans_twice, Hclr. erewrite prog_bind_ok by exact Hpost.
  rewrite (unregister_and_call_ok c (cleared ch)); [done|].
  rewrite (wu_chans _ _ _ Hwu). simpl. apply lookup_insert_eq.
Qed.

End ChanClose.
