(* ===== verification/ChanProps.v ===== *)
(** Channels as a transition system: every operation of src/channel.c as a step
    that any thread, fiber or the loop may take, the properties of all reachable
    worlds, and the specifications of the individual operations. *)

From S2P Require Import Prelude Chan ChanInv ChanOps ChanClose.
Import Chan ChanInv ChanOps ChanClose.

Module ChanProps.

(** ** Calls *)

Inductive call :=
| CMake (n : Z)
| CSpawn (i : positive) (home : Z) (pool : option Z)
| CPut (i : positive) (worker : Z) (c : positive) (v : Z)
| CTake (i : positive) (worker : Z) (c : positive)
| CPutSync (c : positive) (v : Z)
| CTakeSync (c : positive)
| CTakeTry (c : positive)
| CClose (cx : ctx) (c : option positive)
| CDispatch
| CSetOnClose (c : positive) (f : option Z)
| CTakeResume (i p : positive)
| CPutResume (i p : positive)
| CTakeSyncResume (p : positive)
| CPutSyncResume (p : positive).

Inductive reply :=
| RUnit
| RChan (c : positive)
| RVal (v : goc_val)
| RStatus (s : goc_status)
| RPark (p : positive).

Definition reply_take (r : outcome goc_val) : reply :=
  match r with Ret v => RVal v | Park p => RPark p end.
Definition reply_put (r : outcome goc_status) : reply :=
  match r with Ret s => RStatus s | Park p => RPark p end.

(** A new fiber [i], not parked. *)
Definition spawn (i : positive) (home : Z) (pool : option Z) : prog world () :=
  modify (set_fibers (<[i := mk_fiber 0 home pool]>)).

(** The loop thread takes the next close off its queue. *)
Definition pop_loopq : prog world (option positive) := λ w,
  match loopq w with
  | [] => ok (None, w)
  | c :: q => ok (Some c, mk_world (ents w) (flags w) (fibers w) (chans w) (syncs w) (live_channels w)
                            (runq w) (cbq w) q (closelog w) (loop_running w) (next_id w))
  end.

Definition exec (k : call) : prog world reply :=
  match k with
  | CMake n => c ← goc_chan_make n; mret (RChan c)
  | CSpawn i home pool => spawn i home pool;; mret RUnit
  | CPut i k c v => r ← goc_put (InFiber i k) c v; mret (reply_put r)
  | CTake i k c => r ← goc_take (InFiber i k) c; mret (reply_take r)
  | CPutSync c v => r ← goc_put_sync OnThread c v; mret (reply_put r)
  | CTakeSync c => r ← goc_take_sync OnThread c; mret (reply_take r)
  | CTakeTry c => r ← goc_take_try c; mret (RVal r)
  | CClose cx c => goc_close cx c;; mret RUnit
  | CDispatch => c ← pop_loopq;
                 match c with Some c => on_close_dispatch c;; mret RUnit | None => mret RUnit end
  | CSetOnClose c f => chan_set_on_close c f;; mret RUnit
  | CTakeResume i p => modify (drop_runq i);; r ← goc_take_resume i p; mret (RVal r)
  | CPutResume i p => modify (drop_runq i);; r ← goc_put_resume i p; mret (RStatus r)
  | CTakeSyncResume p => r ← goc_take_sync_resume p; mret (RVal r)
  | CPutSyncResume p => r ← goc_put_sync_resume p; mret (RStatus r)
  end.

(** Who may call what: channels exist, a fiber that calls is running, a fiber that
    continues was posted and its entry was woken, a thread that continues had its
    semaphore posted. *)
Definition has_chan (w : world) (c : positive) : Prop := is_Some (chans w !! c).
Definition runs (w : world) (i : positive) : Prop := ∃ f, fibers w !! i = Some f ∧ parked f = 0.
Definition was_woken (w : world) (p : positive) (P : goc_entry → Prop) : Prop :=
  ∃ e, ents w !! p = Some e ∧ fired e = None ∧ woken e = true ∧ P e.

Definition enabled (w : world) (k : call) : Prop :=
  match k with
  | CMake n => 0 <= n < 2 ^ 60
  | CSpawn i _ _ => fibers w !! i = None
  | CDispatch => True
  | CPut i _ c _ | CTake i _ c => has_chan w c ∧ runs w i
  | CPutSync c _ | CTakeSync c | CTakeTry c | CSetOnClose c _ => has_chan w c
  | CClose cx c => loop_running w = true ∧ from_option (has_chan w) True c
  | CTakeResume i p | CPutResume i p =>
      (∃ t, (i, t) ∈ runq w) ∧ was_woken w p (λ e, kind e = GOC_FIBER ∧ coro e = i)
  | CTakeSyncResume p | CPutSyncResume p =>
      was_woken w p (λ e, kind e = GOC_SYNC ∧ syncs w !! sync_sem_ptr e = Some true)
  end.

Definition init : world :=
  mk_world ∅ ∅ ∅ ∅ ∅ ∅ [] [] [] [] true 1.

(** Worlds reached by enabled calls in any order: any interleaving of fibers,
    threads and the loop, at the granularity of the channel lock. *)
Inductive reachable : world → Prop :=
| reach_init : reachable init
| reach_step w k r w' : reachable w → enabled w k → exec k w = ok (r, w') → reachable w'.

(** ** The invariant *)

(** A taker waits only on a channel with nothing to take. *)
Definition idle (L : positive → side → list positive) (w : world) : Prop :=
  ∀ c, lv L w c Takers ≠ [] → lv L w c Putters = [] ∧ ∀ o, obs_at w c = Some o → oq o = [].

Definition guards (w : world) : Prop :=
  ∀ c o, obs_at w c = Some o → oclosed o = true ↔ oguard o = GOC_CHAN_CLOSING.

(** A waiting taker has a cell for its value. *)
Definition slots (L : positive → side → list positive) (w : world) : Prop :=
  ∀ c p e, p ∈ lv L w c Takers → ents w !! p = Some e → result_slot e = true.

Section steps.

(** Whether only the calls above are made: a select can break [idle]. *)
Variable strict : bool.

Record inv (L : positive → side → list positive) (w : world) : Prop := {
  iv_world : world_ok L w;
  iv_idle : strict = true → idle L w;
  iv_guards : guards w;
  iv_slots : slots L w;
  iv_loopq : ∀ c, c ∈ loopq w → has_chan w c
}.

(** Nobody waits on a side when no entry linked there can be woken. *)
Lemma lv_nil L w c s : lv L w c s = [] ↔ ∀ p, p ∈ L c s → live w p ≠ true.
Proof.
  unfold lv. split.
  - intros Hn p Hp Hl. assert (p ∈ filter (λ q, live w q = true) (L c s)) as Hin
      by (by apply list_elem_of_filter). rewrite Hn in Hin. by apply not_elem_of_nil in Hin.
  - intros Hno. destruct (filter _ _) as [|p l] eqn:E; [done|].
    assert (p ∈ filter (λ q, live w q = true) (L c s)) as [Hl Hp]%list_elem_of_filter
      by (rewrite E; constructor). by destruct (Hno p Hp).
Qed.

Lemma has_chan_obs w c : has_chan w c ↔ is_Some (obs_at w c).
Proof. unfold has_chan, obs_at. by rewrite fmap_is_Some. Qed.

(** The waiters of [w'] all waited in [w], with the same entry. *)
Definition from_old (L : positive → side → list positive) (w : world)
    (L' : positive → side → list positive) (w' : world) : Prop :=
  ∀ c s p, p ∈ lv L' w' c s → p ∈ lv L w c s ∧
    ∀ e', ents w' !! p = Some e' → ∃ n e, ents w !! p = Some e ∧ e' = set_next n e.

Lemma from_old_nil L w L' w' c s : from_old L w L' w' → lv L w c s = [] → lv L' w' c s = [].
Proof.
  intros Hfo Hn. destruct (lv L' w' c s) as [|p l] eqn:E; [done|].
  destruct (Hfo c s p) as [Hp _]; [rewrite E; constructor|]. rewrite Hn in Hp. by apply not_elem_of_nil in Hp.
Qed.

Lemma from_old_slots L w L' w' : from_old L w L' w' → slots L w → slots L' w'.
Proof.
  intros Hfo Hs c p e' Hp He'. destruct (Hfo c Takers p Hp) as [Hp0 He].
  destruct (He e' He') as (n & e & He0 & ->). apply (Hs c p e Hp0 He0).
Qed.

Lemma kept_entry w w' p e' :
  kept w w' → live w p = true → ents w' !! p = Some e' → ∃ n e, ents w !! p = Some e ∧ e' = set_next n e.
Proof.
  intros Hk Hl He'. unfold live in Hl. destruct (ents w !! p) as [e|] eqn:He; [|done].
  destruct (Hk p e He) as (n & Hn). exists n, e. split; [done|congruence].
Qed.

Lemma lv_live L w c s p : p ∈ lv L w c s → live w p = true.
Proof. unfold lv. by intros [? _]%list_elem_of_filter. Qed.

Lemma from_old_kept L w L' w' :
  (∀ c s, lv L' w' c s = lv L w c s) → kept w w' → from_old L w L' w'.
Proof.
  intros Hlv Hk c s p. rewrite Hlv. intros Hp. split; [done|]. intros e'.
  apply kept_entry; [done|by eapply lv_live].
Qed.

(** ** What every step keeps: channels only move towards closed, and what a waker
    wrote into an entry stays there until its owner, one of [gone], has read it. *)

Definition rank (g : close_state) : Z :=
  match g with GOC_CHAN_OPEN => 0 | GOC_CHAN_CLOSE_REQUESTED => 1 | GOC_CHAN_CLOSING => 2 end.

Record grows (gone : positive → Prop) (w w' : world) : Prop := {
  gr_chan : ∀ c o, obs_at w c = Some o → ∃ o', obs_at w' c = Some o' ∧ osize o' = osize o ∧
    rank (oguard o) <= rank (oguard o');
  gr_woken : ∀ p e, ents w !! p = Some e → woken e = true →
    gone p ∨ ∃ n, ents w' !! p = Some (set_next n e)
}.

Definition nobody (p : positive) : Prop := False.

Lemma grows_same_obs gone w w' :
  (∀ c, obs_at w' c = obs_at w c) →
  (∀ p e, ents w !! p = Some e → woken e = true → gone p ∨ ∃ n, ents w' !! p = Some (set_next n e)) →
  grows gone w w'.
Proof. intros Ho Hw. split; [|done]. intros c o Hc. exists o. rewrite Ho. split_and!; [done|done|lia]. Qed.

Lemma kept_woken gone w w' : kept w w' → ∀ p e, ents w !! p = Some e → woken e = true →
  gone p ∨ ∃ n, ents w' !! p = Some (set_next n e).
Proof. intros Hk p e He _. right. by apply Hk. Qed.

Lemma set_oq_grows w w' c o q :
  obs_at w c = Some o → obs_at w' c = Some (set_oq q o) →
  (∀ c', c' ≠ c → obs_at w' c' = obs_at w c') → kept w w' → grows nobody w w'.
Proof.
  intros Ho Ho' Hoth Hk. split; [|by apply kept_woken]. intros c' o1.
  destruct (decide (c' = c)) as [->|Hne].
  - rewrite Ho. intros [= <-]. exists (set_oq q o). split_and!; [done|done|simpl; lia].
  - intros Ho1. exists o1. rewrite Hoth by done. split_and!; [done|done|lia].
Qed.

Lemma woken_with_woken v p w w' : woken_with v p w w' →
  ∀ q e, ents w !! q = Some e → woken e = true → nobody q ∨ ∃ n, ents w' !! q = Some (set_next n e).
Proof.
  intros Hww q e He Hwk. right. destruct (decide (q = p)) as [->|Hne].
  - destruct (ww_entry _ _ _ _ Hww) as (e0 & n & He0 & Hl & _). unfold live in Hl. rewrite He in Hl.
    by rewrite claimable_woken in Hl.
  - pose proof (ww_others _ _ _ _ Hww q Hne) as Hq. by rewrite He in Hq.
Qed.

(** Steps that keep what channels show and only shrink the waiters. *)
Lemma inv_same_obs L w L' w' :
  inv L w → world_ok L' w' → (∀ c, obs_at w' c = obs_at w c) → loopq w' = loopq w →
  from_old L w L' w' → inv L' w'.
Proof.
  intros [Hw Hi Hg Hs Hq] Hw' Ho Hlq Hlv. split; [done|..].
  - intros Hst c Ht. destruct (Hi Hst c) as [Hp Hoq].
    { intros Hn. apply Ht. by eapply from_old_nil. }
    split; [by eapply from_old_nil|]. intros o. rewrite Ho. apply Hoq.
  - intros c o. rewrite Ho. apply Hg.
  - by eapply from_old_slots.
  - intros c. rewrite Hlq. intros Hc%Hq. by rewrite has_chan_obs, Ho, <- has_chan_obs.
Qed.

Lemma set_oq_guards w w' c o q :
  guards w → obs_at w c = Some o → obs_at w' c = Some (set_oq q o) →
  (∀ c', c' ≠ c → obs_at w' c' = obs_at w c') → guards w'.
Proof.
  intros Hg Ho Ho' Hoth c' o'. destruct (decide (c' = c)) as [->|Hne]; [|rewrite Hoth by done; apply Hg].
  rewrite Ho'. intros [= <-]. simpl. by apply (Hg c).
Qed.

Lemma set_oq_has_chan w w' c o q c' :
  obs_at w c = Some o → obs_at w' c = Some (set_oq q o) →
  (∀ c', c' ≠ c → obs_at w' c' = obs_at w c') → has_chan w c' → has_chan w' c'.
Proof.
  intros Ho Ho' Hoth. rewrite !has_chan_obs. destruct (decide (c' = c)) as [->|Hne].
  - intros _. rewrite Ho'. eauto.
  - by rewrite Hoth.
Qed.

(** A match only removes waiters. *)
Lemma match_from_old (L L' : positive → side → list positive) w w' c s v p rest :
  lv L w c s = p :: rest → woken_with v p w w' →
  (∀ c' s', lv L' w' c' s' = filter (λ q, live w' q = true)
              (if decide (c' = c ∧ s' = s) then rest else lv L w c' s')) →
  from_old L w L' w'.
Proof.
  intros Hl Hww Hlv c' s' q. rewrite Hlv. intros [Hq Hin]%list_elem_of_filter. split.
  - case_decide as Hd; [|done]. destruct Hd as [-> ->]. rewrite Hl. by constructor.
  - intros e' He'. destruct (ww_live _ _ _ _ Hww q Hq) as [Hlq Hne].
    pose proof (ww_others _ _ _ _ Hww q Hne) as Ho. unfold live in Hlq.
    destruct (ents w !! q) as [e|]; [|done]. destruct Ho as (n & Hn). exists n, e. split; [done|congruence].
Qed.

(** A caller that parks is the only new waiter. *)
Lemma parks_slots c s k v p L w L' w' :
  parks c s k v p L w L' w' → slots L w → slots L' w'.
Proof.
  intros [Pn (e & Pe & _ & _ & _ & Ps) Pl Po Pk _ _ _ _ _] Hs c' q e' Hq He'. rewrite Pl in Hq.
  destruct (decide (q = p)) as [->|Hne].
  - assert (e' = e) as -> by congruence. case_decide as Hd; [by apply Ps; destruct Hd|].
    apply lv_live in Hq. unfold live in Hq. by rewrite Pn in Hq.
  - assert (q ∈ lv L w c' Takers) as Hq0.
    { case_decide as Hd; [|done]. destruct Hd as [-> <-].
      by apply elem_of_app in Hq as [?|?%list_elem_of_singleton]. }
    destruct (kept_entry w w' q e' Pk) as (n & e0 & He0 & ->); [by eapply lv_live|done|].
    apply (Hs c' q e0 Hq0 He0).
Qed.

Lemma put_inv L w c ch k v r L' w' :
  inv L w → chans w !! c = Some ch → world_ok L' w' → put_case L w c (obs ch) k v r L' w' →
  inv L' w' ∧ grows nobody w w'.
Proof.
  intros Hi Hc Hw' Hcase. pose proof (obs_at_Some w c ch Hc) as Ho.
  destruct Hcase as [L' w' Hcl Ht Hlv|L' w' p rest Hcl Hp Hww Hob Hlv
                    |L' w' Hcl Hn Hlen Hob Hoth Hlv Hli Hkp Hr Hb Hcg Hlq|L' w' p Hcl Hn Hlen Hpk].
  - pose proof (tidied_kept _ _ Ht) as Hk. split; [eapply inv_same_obs; try done|apply grows_same_obs].
    + intros c'. by apply tidied_obs.
    + apply Ht.
    + by apply from_old_kept.
    + intros c'. by apply tidied_obs.
    + by apply kept_woken.
  - split; [eapply inv_same_obs; try done; [apply Hww|by eapply match_from_old]|].
    apply grows_same_obs; [done|by eapply woken_with_woken].
  - split; [|by eapply set_oq_grows]. destruct Hi as [Hw Hidle Hg Hs Hq]. split; [done|..].
    + intros Hst c'. rewrite !Hlv. intros Hne. destruct (Hidle Hst c' Hne) as [Hp Hoq]. split; [done|].
      destruct (decide (c' = c)) as [->|Hcc]; [congruence|]. by rewrite Hoth.
    + by eapply set_oq_guards.
    + eapply from_old_slots; [by apply from_old_kept|done].
    + intros c'. rewrite Hlq. intros Hc'%Hq. by eapply set_oq_has_chan.
  - pose proof Hpk as [Pn Pe Pl Po Pk Pli Pr Pc Pcl Plq].
    split; [|by apply grows_same_obs; [|by apply kept_woken]].
    destruct Hi as [Hw Hidle Hg Hs Hq]. split; [done|..].
    + intros Hst c'. rewrite !Pl, Po. rewrite decide_False by (by intros [_ ?]).
      destruct (decide (c' = c)) as [->|Hcc]; [done|].
      rewrite decide_False by (by intros [? _]). by apply Hidle.
    + intros c' o'. rewrite Po. apply Hg.
    + by eapply parks_slots.
    + intros c'. rewrite Plq. intros Hc'%Hq. by rewrite has_chan_obs, Po, <- has_chan_obs.
Qed.

Lemma take_inv L w c ch k r L' w' :
  inv L w → chans w !! c = Some ch → world_ok L' w' → take_case L w c (obs ch) k r L' w' →
  inv L' w' ∧ grows nobody w w'.
Proof.
  intros Hi Hc Hw' Hcase. pose proof (obs_at_Some w c ch Hc) as Ho.
  destruct Hcase as [L' w' v q Hqq Hob Hoth Hlv Hli Hkp Hr Hb Hcg Hlq|L' w' p e rest Hqq Hp He Hww Hob Hlv
                    |L' w' Hqq Hn Hcl Ht Hlv|L' w' p Hqq Hn Hcl Hpk].
  - split; [|by eapply set_oq_grows]. destruct Hi as [Hw Hidle Hg Hs Hq]. split; [done|..].
    + intros Hst c'. rewrite !Hlv. intros Hne. destruct (Hidle Hst c' Hne) as [Hp Hoq]. split; [done|].
      destruct (decide (c' = c)) as [->|Hcc]; [|by rewrite Hoth].
      specialize (Hoq _ Ho). congruence.
    + by eapply set_oq_guards.
    + eapply from_old_slots; [by apply from_old_kept|done].
    + intros c'. rewrite Hlq. intros Hc'%Hq. by eapply set_oq_has_chan.
  - split; [eapply inv_same_obs; try done; [apply Hww|by eapply match_from_old]|].
    apply grows_same_obs; [done|by eapply woken_with_woken].
  - pose proof (tidied_kept _ _ Ht) as Hk. split; [eapply inv_same_obs; try done|apply grows_same_obs].
    + intros c'. by apply tidied_obs.
    + apply Ht.
    + by apply from_old_kept.
    + intros c'. by apply tidied_obs.
    + by apply kept_woken.
  - pose proof Hpk as [Pn Pe Pl Po Pk Pli Pr Pc Pcl Plq].
    split; [|by apply grows_same_obs; [|by apply kept_woken]].
    destruct Hi as [Hw Hidle Hg Hs Hq]. split; [done|..].
    + intros Hst c'. rewrite !Pl, Po. destruct (decide (c' = c)) as [->|Hcc].
      * intros _. rewrite decide_False by (by intros [_ ?]). split; [done|].
        intros o'. rewrite Ho. by intros [= <-].
      * rewrite !decide_False by (by intros [? _]). by apply Hidle.
    + intros c' o'. rewrite Po. apply Hg.
    + by eapply parks_slots.
    + intros c'. rewrite Plq. intros Hc'%Hq. by rewrite has_chan_obs, Po, <- has_chan_obs.
Qed.
(** *** Creation and fibers *)

Lemma make_ok L w n :
  inv L w → 0 <= n < 2 ^ 60 → ∃ w', goc_chan_make n w = ok (next_id w, w') ∧ inv L w' ∧
    grows nobody w w'.
Proof.
  intros [Hw Hi Hg Hs Hq] Hn. set (c := next_id w).
  assert (Hcn : chans w !! c = None).
  { destruct (chans w !! c) eqn:E; [|done]. assert (c < next_id w)%positive by (apply (wo_fresh_chan _ _ Hw); eauto). lia. }
  assert (HL : ∀ s, L c s = []) by (intros s; by apply (wo_none _ _ Hw)).
  assert (Hobs : ∀ c', c' ≠ c → obs <$> (<[c := new_chan n]> (chans w)) !! c' = obs_at w c').
  { intros c' Hne. by rewrite lookup_insert_ne. }
  eexists. split_and!; [done| |].
  2: { split; [|by apply kept_woken, kept_refl]. intros c' o Ho. exists o. unfold obs_at. simpl.
       rewrite Hobs; [split_and!; [done|done|lia]|]. intros ->. unfold obs_at in Ho. by rewrite Hcn in Ho. }
  split; simpl.
  - pose proof Hw as [H1 H2 H3 H4 H5 H6 H7 H8 H9 Hsu Hso H10 H11 H12 H13 Hsel]. split; simpl; try done.
    + intros c' ch. rewrite lookup_insert. case_decide; [|apply H1]. subst c'. intros [= <-]. split.
      * split; simpl; try lia. rewrite length_replicate. lia.
      * intros s. rewrite HL. by destruct s.
      * intros s. left. by destruct s.
      * done.
    + intros c' s. rewrite lookup_insert. case_decide; [done|apply H2].
    + intros p e He. destruct (H5 p e He). by split.
    + intros p e He Hk. pose proof (Hso p e He Hk). lia.
    + intros p Hp%H10. lia.
    + intros c' Hc'. rewrite lookup_insert in Hc'. case_decide; [subst; unfold c; lia|]. apply H11 in Hc'. lia.
    + intros a Ha%H12. lia.
    + intros a Ha%H13. lia.
  - intros Hst c' Ht. destruct (decide (c' = c)) as [->|Hne].
    { unfold lv in Ht. by rewrite HL in Ht. }
    destruct (Hi Hst c' Ht) as [? Hoq]. split; [done|]. unfold obs_at. simpl. rewrite Hobs by done. apply Hoq.
  - intros c' o. unfold obs_at. simpl. destruct (decide (c' = c)) as [->|Hne].
    + rewrite lookup_insert_eq. simpl. by intros [= <-].
    + rewrite Hobs by done. apply Hg.
  - done.
  - intros c' Hc'%Hq. unfold has_chan. simpl. rewrite lookup_insert. by case_decide.
Qed.

Lemma spawn_ok L w i home pool :
  inv L w → fibers w !! i = None →
  ∃ w', spawn i home pool w = ok (tt, w') ∧ inv L w' ∧ grows nobody w w'.
Proof.
  intros [Hw Hi Hg Hs Hq] Hf. eexists. split_and!; [done| |].
  2: { apply grows_same_obs; [done|by apply kept_woken, kept_refl]. }
  split; [|done|done|done|done].
  pose proof Hw as [H1 H2 H3 H4 H5 H6 H7 H8 H9 Hsu Hso H10 H11 H12 H13 Hsel]. split; simpl; try done.
  - intros p e He. destruct (H5 p e He) as [E1 E2 E3 E4 E5]. split; try done; simpl.
    + intros Hk. rewrite lookup_insert. case_decide; [eauto|auto].
    + intros Hk Hcl. destruct (E3 Hk Hcl) as (Hg1 & f & Hf1 & Hp). split; [done|].
      exists f. rewrite lookup_insert_ne; [done|]. congruence.
  - intros j t Hi'. destruct (H7 j t Hi') as [(f & Hf1 & Hp) Hqi]. split; [|done].
    exists f. rewrite lookup_insert_ne; [done|]. congruence.
Qed.
(** *** Closing *)

Lemma guard_ok L w c ch g :
  world_ok L w → chans w !! c = Some ch → world_ok L (set_chans (<[c := set_guard g ch]>) w).
Proof.
  intros Hw Hc. eapply world_ok_same_lists; try done; [|by intros []..].
  destruct (co_ring _ _ _ (wo_chan _ _ Hw c ch Hc)). by split.
Qed.

Definition closing (ch : goc_chan) : goc_chan := set_guard GOC_CHAN_CLOSING ch.

Lemma close_internal_ok L w c ch :
  world_ok L w → chans w !! c = Some ch → close_guard ch ≠ GOC_CHAN_CLOSING →
  ∃ w', goc_close_internal c w = ok (tt, w') ∧ world_ok (no_waiters L c) w' ∧
    closed_with c (closing ch) (L c Takers ++ L c Putters)
      (claims (ents w) (flags w) (L c Takers ++ L c Putters)) (set_chans (<[c := closing ch]>) w) w'.
Proof.
  intros Hw Hc Hg. pose proof (guard_ok L w c ch GOC_CHAN_CLOSING Hw Hc) as Hw1.
  destruct (close_claimed_ok L _ c (closing ch) Hw1 (lookup_insert_eq _ _ _)) as (w' & Hr & Hw' & Hcw).
  exists w'. split_and!; [|done|done]. unfold goc_close_internal.
  erewrite prog_bind_ok by (by apply get_chan_ok).
  destruct (close_guard ch); [|..|done]; (erewrite prog_bind_ok by (by apply upd_chan_ok)); exact Hr.
Qed.

Lemma closed_live c ch l cl w w' q :
  closed_with c ch l cl w w' → (∀ p e, (p, e) ∈ cl → ents w !! p = Some e) →
  live w' q = true → live w q = true.
Proof.
  intros [_ _ Hcl Hrest Hfl _ _ _ _ _ _] Hin. unfold live. rewrite Hfl.
  assert (Hmono : ∀ cl fl e, claimable (claim_all_flags cl fl) e = true → claimable fl e = true).
  { clear. induction cl as [|[p' e'] cl IHc]; intros fl e; simpl; [done|]. by intros ?%IHc%claim_flags_mono. }
  destruct (decide (q ∈ cl.*1)) as [Hq|Hq].
  - apply list_elem_of_fmap in Hq as [[p e] [Hqp Hp]]. simpl in Hqp. subst q.
    destruct (Hcl p e Hp) as (n & ->). by rewrite claimable_woken.
  - specialize (Hrest q Hq). destruct (ents w !! q) as [e|]; [|by rewrite Hrest].
    destruct Hrest as (n & ->). intros Hc%Hmono. done.
Qed.

Lemma claims_not_woken h l : ∀ fl p e, (p, e) ∈ claims h fl l → woken e = false.
Proof.
  induction l as [|q l IH]; intros fl p e; simpl; [by intros ?%not_elem_of_nil|].
  destruct (h !! q) as [eq|]; [|apply IH]. destruct (claimable fl eq) eqn:Hc; [|apply IH].
  intros [[= -> ->]|Hin]%elem_of_cons; [|by eapply IH].
  destruct (woken eq) eqn:E; [|done]. by rewrite claimable_woken in Hc.
Qed.

(** The entries a close leaves alone. *)
Lemma closed_rest c ch l cl w w' q e :
  closed_with c ch l cl w w' → (∀ p e, (p, e) ∈ cl → ents w !! p = Some e ∧ woken e = false) →
  ents w !! q = Some e → woken e = true ∨ live w' q = true → ∃ n, ents w' !! q = Some (set_next n e).
Proof.
  intros [_ _ Hcl Hrest _ _ _ _ _ _ _] Hin He Hq. specialize (Hrest q). rewrite He in Hrest.
  apply Hrest. intros [[p ep] [Hqp Hp]]%list_elem_of_fmap. simpl in Hqp. subst q.
  destruct (Hin p ep Hp) as [Hep Hwk], Hq as [Hq|Hq]; [congruence|].
  unfold live in Hq. destruct (Hcl p ep Hp) as (n & Hn). rewrite Hn in Hq. by rewrite claimable_woken in Hq.
Qed.

(** A close keeps the invariant; [w0] is [w] with its guard moved and its loop
    queue changed. *)
Lemma close_inv L w c ch w0 :
  inv L w → chans w !! c = Some ch → close_guard ch ≠ GOC_CHAN_CLOSING →
  world_ok L w0 → ents w0 = ents w → flags w0 = flags w →
  (∃ g, chans w0 = <[c := set_guard g ch]> (chans w) ∧ g ≠ GOC_CHAN_CLOSING) →
  (∀ c', c' ∈ loopq w0 → has_chan w c') →
  ∃ w', goc_close_internal c w0 = ok (tt, w') ∧ inv (no_waiters L c) w' ∧ grows nobody w w'.
Proof.
  intros [Hw Hi Hg Hs Hq] Hc Hng Hw0 He0 Hf0 (g & Hch0 & Hg0) Hlq.
  destruct (close_internal_ok L w0 c (set_guard g ch) Hw0) as (w' & Hr & Hw' & Hcw);
    [rewrite Hch0; apply lookup_insert_eq|done|].
  exists w'. split; [done|].
  assert (Hin0 : ∀ p e, (p, e) ∈ claims (ents w0) (flags w0) (L c Takers ++ L c Putters) →
            ents w0 !! p = Some e ∧ woken e = false).
  { intros p e Hp. split; [by apply claims_in in Hp as [_ ?]|by eapply claims_not_woken]. }
  assert (Hkeep : ∀ q e, ents w !! q = Some e → woken e = true ∨ live w' q = true →
            ∃ n, ents w' !! q = Some (set_next n e)).
  { intros q e He. rewrite <- He0 in He. by apply (closed_rest _ _ _ _ _ _ q e Hcw Hin0). }
  pose proof Hcw as [Cc Co _ _ _ _ _ _ _ Cl _]. simpl in Co.
  assert (Hobs : ∀ c', c' ≠ c → obs_at w' c' = obs_at w c').
  { intros c' Hne. unfold obs_at. rewrite Co by done. rewrite Hch0. by rewrite !lookup_insert_ne. }
  assert (Hlive : ∀ q, live w' q = true → live w q = true).
  { intros q Hl. eapply closed_live in Hl; [|exact Hcw|].
    - unfold live in *. simpl in Hl. by rewrite He0, Hf0 in Hl.
    - intros p e Hp. apply claims_in in Hp as [_ ?]. done. }
  assert (Hfo : from_old L w (no_waiters L c) w').
  { intros c' s q [Hl Hin]%list_elem_of_filter. unfold no_waiters, relist in Hin.
    case_decide; [by apply not_elem_of_nil in Hin|]. pose proof (Hlive q Hl) as Hlq2.
    split; [by apply list_elem_of_filter|]. intros e' He'. unfold live in Hlq2.
    destruct (ents w !! q) as [e|] eqn:He; [|done]. destruct (Hkeep q e He) as (n & Hn); [by right|].
    exists n, e. split; [done|congruence]. }
  assert (Hlv : ∀ c' s, lv L w c' s = [] → lv (no_waiters L c) w' c' s = []).
  { intros c' s. by apply from_old_nil. }
  split.
  2: { split; [|intros p e He Hwk; right; apply Hkeep; [done|by left]]. intros c' o Ho.
       destruct (decide (c' = c)) as [->|Hne].
       - unfold obs_at in *. rewrite Hc in Ho. injection Ho as <-. rewrite Cc. eexists.
         split_and!; [done|done|simpl; destruct (close_guard ch); simpl; lia].
       - exists o. rewrite Hobs by done. split_and!; [done|done|lia]. }
  split; [done|..].
  - intros Hst c' Ht. destruct (decide (c' = c)) as [->|Hne].
    { unfold lv, no_waiters, relist in Ht. by rewrite decide_True in Ht. }
    destruct (Hi Hst c') as [Hp Hoq]; [intros Hn; by apply Ht, Hlv|]. split; [by apply Hlv|].
    rewrite Hobs by done. apply Hoq.
  - intros c' o. destruct (decide (c' = c)) as [->|Hne]; [|rewrite Hobs by done; apply Hg].
    unfold obs_at. rewrite Cc. simpl. by intros [= <-].
  - by eapply from_old_slots.
  - intros c'. rewrite Cl. simpl. intros Hin%Hlq. rewrite has_chan_obs.
    destruct (decide (c' = c)) as [->|Hne]; [unfold obs_at; rewrite Cc; eauto|].
    rewrite Hobs by done. by rewrite <- has_chan_obs.
Qed.

(** The same world with the loop's queue replaced. *)
Definition with_loopq (q : list positive) (w : world) : world :=
  mk_world (ents w) (flags w) (fibers w) (chans w) (syncs w) (live_channels w)
    (runq w) (cbq w) q (closelog w) (loop_running w) (next_id w).

Lemma with_loopq_ok L w q : world_ok L w → world_ok L (with_loopq q w).
Proof.
  intros [H1 H2 H3 H4 H5 H6 H7 H8 H9 Hsu Hso H10 H11 H12 H13 Hsel]. split; try done.
  intros p e He. destruct (H5 p e He). by split.
Qed.

Lemma with_loopq_inv L w q : inv L w → (∀ c, c ∈ q → has_chan w c) → inv L (with_loopq q w).
Proof. intros [Hw Hi Hg Hs Hq] Hqc. split; [by apply with_loopq_ok|done..]. Qed.

Lemma grows_refl w w' : ents w' = ents w → chans w' = chans w → grows nobody w w'.
Proof.
  intros He Hc. apply grows_same_obs; [|by apply kept_woken, kept_refl].
  intros c. unfold obs_at. by rewrite Hc.
Qed.

Lemma dispatch_inv L w :
  inv L w → ∃ r w' L', exec CDispatch w = ok (r, w') ∧ inv L' w' ∧ grows nobody w w'.
Proof.
  intros Hi. unfold exec, pop_loopq, mbind, prog_bind. destruct (loopq w) as [|c q] eqn:Hq.
  { eexists _, w, L. split_and!; [done|done|by apply grows_refl]. }
  destruct (iv_loopq _ _ Hi c) as [ch Hc]; [rewrite Hq; constructor|].
  fold (with_loopq q w).
  assert (Hq' : ∀ c', c' ∈ q → has_chan w c').
  { intros c' Hc'. apply (iv_loopq _ _ Hi). rewrite Hq. by constructor. }
  unfold on_close_dispatch. erewrite prog_bind_ok by (by apply get_chan_ok).
  destruct (decide (close_guard ch = GOC_CHAN_CLOSING)) as [->|Hg].
  { eexists _, _, L. split_and!; [done|by apply with_loopq_inv|by apply grows_refl]. }
  destruct (close_inv L w c ch (with_loopq q w) Hi Hc Hg) as (w' & Hr & Hw' & Hgr); try done.
  { by apply with_loopq_ok, Hi. }
  { exists (close_guard ch). split; [|done]. simpl. rewrite insert_id; [done|].
    rewrite Hc. by destruct ch. }
  exists RUnit, w', (no_waiters L c). split; [|done]. destruct (close_guard ch); [by rewrite Hr..|done].
Qed.

Lemma guard_inv L w c ch g :
  inv L w → chans w !! c = Some ch → close_guard ch = GOC_CHAN_OPEN → g ≠ GOC_CHAN_CLOSING →
  inv L (set_chans (<[c := set_guard g ch]>) w) ∧
  grows nobody w (set_chans (<[c := set_guard g ch]>) w).
Proof.
  intros [Hw Hi Hg Hs Hq] Hc Hop Hng'.
  assert (Ho : ∀ c', c' ≠ c → obs_at (set_chans (<[c := set_guard g ch]>) w) c' = obs_at w c').
  { intros c' Hne. unfold obs_at. simpl. by rewrite lookup_insert_ne. }
  split.
  2: { split; [|by apply kept_woken, kept_refl]. intros c' o1 Ho1. destruct (decide (c' = c)) as [->|Hne].
       - unfold obs_at in *. rewrite Hc in Ho1. injection Ho1 as <-. simpl. rewrite lookup_insert_eq.
         eexists. split_and!; [done|done|]. simpl. rewrite Hop. destruct g; simpl; lia.
       - exists o1. rewrite Ho by done. split_and!; [done|done|lia]. }
  split; [by apply guard_ok|..].
  - intros Hst c' Ht. destruct (Hi Hst c' Ht) as [? Hoq]. split; [done|].
    destruct (decide (c' = c)) as [->|Hne]; [|rewrite Ho by done; apply Hoq].
    specialize (Hoq _ (obs_at_Some _ _ _ Hc)). unfold obs_at. simpl. rewrite lookup_insert_eq.
    by intros o [= <-].
  - intros c' o. destruct (decide (c' = c)) as [->|Hne]; [|rewrite Ho by done; apply Hg].
    unfold obs_at. simpl. rewrite lookup_insert_eq. intros [= <-]. simpl.
    pose proof (Hg c _ (obs_at_Some _ _ _ Hc)) as Hgc. simpl in Hgc. rewrite Hop in Hgc. split; [|done].
    intros Hcl. by apply Hgc in Hcl.
  - done.
  - intros c' Hc'%Hq. unfold has_chan. simpl. rewrite lookup_insert. by case_decide.
Qed.

Lemma close_call_inv L w cx c :
  inv L w → enabled w (CClose cx c) →
  ∃ r w' L', exec (CClose cx c) w = ok (r, w') ∧ inv L' w' ∧ grows nobody w w'.
Proof.
  intros Hi [Hrun Hc]. unfold exec, goc_close. destruct c as [c|]; [|by eexists _, w, L; split_and!; [..|apply grows_refl]].
  simpl in Hc. destruct Hc as [ch Hc].
  destruct (decide (close_guard ch = GOC_CHAN_OPEN)) as [Ho|Ho].
  2: { exists RUnit, w, L. split_and!; [|done|by apply grows_refl]. unfold mbind, prog_bind. rewrite (get_chan_ok _ _ _ Hc).
       by destruct (close_guard ch). }
  assert (Hng : close_guard ch ≠ GOC_CHAN_CLOSING) by (by rewrite Ho).
  destruct (guard_inv L w c ch GOC_CHAN_CLOSE_REQUESTED Hi Hc Ho) as [Hi1 Hg1]; [done|].
  destruct (close_inv L w c ch (set_chans (<[c := set_guard GOC_CHAN_CLOSE_REQUESTED ch]>) w) Hi Hc Hng)
    as (w' & Hr & Hw' & Hg'); try done; [by apply Hi1|by exists GOC_CHAN_CLOSE_REQUESTED|apply Hi|].
  assert (Hpost : ∃ r w', (posted ← post_close_on_loop c;
             if posted : bool then mret tt else ABORT "goc_close: failed to dispatch on loop")
             (set_chans (<[c := set_guard GOC_CHAN_CLOSE_REQUESTED ch]>) w) = ok (r, w') ∧ inv L w' ∧ grows nobody w w').
  { eexists _, _. unfold mbind, prog_bind, post_close_on_loop. simpl. rewrite Hrun. split_and!; [done| |].
    2: { by split; [apply (gr_chan _ _ _ Hg1)|apply (gr_woken _ _ _ Hg1)]. }
    apply (with_loopq_inv _ _ (loopq w ++ [c]) Hi1).
    intros c' [Hc'|Hc'%list_elem_of_singleton]%elem_of_app.
    - by apply (iv_loopq _ _ Hi1).
    - subst. unfold has_chan. simpl. rewrite lookup_insert_eq. eauto. }
  destruct Hpost as (r2 & w2 & Hr2 & Hw2 & Hg2).
  assert (Hgc : ∀ X Y (k : goc_chan → prog world X) (k' : X → prog world Y),
    ((get_chan c ≫= k) ≫= k') w = (k ch ≫= k') w).
  { intros. unfold mbind, prog_bind. by rewrite (get_chan_ok _ _ _ Hc). }
  assert (Hup : ∀ X Y (k : prog world X) (k' : X → prog world Y),
    ((upd_chan c (set_guard GOC_CHAN_CLOSE_REQUESTED);; k) ≫= k') w =
    (k ≫= k') (set_chans (<[c := set_guard GOC_CHAN_CLOSE_REQUESTED ch]>) w)).
  { intros. unfold mbind, prog_bind. by rewrite (upd_chan_ok _ _ _ _ Hc). }
  rewrite Hgc, Ho, Hup. destruct cx; (erewrite prog_bind_ok; [|exact Hr2 || exact Hr]); eauto 10.
Qed.

Lemma set_on_close_inv L w c f :
  inv L w → has_chan w c →
  ∃ r w' L', exec (CSetOnClose c f) w = ok (r, w') ∧ inv L' w' ∧ grows nobody w w'.
Proof.
  intros Hi [ch Hc]. unfold exec, chan_set_on_close.
  assert (Hgc : ∀ X Y (k : goc_chan → prog world X) (k' : X → prog world Y),
    ((get_chan c ≫= k) ≫= k') w = (k ch ≫= k') w).
  { intros. unfold mbind, prog_bind. by rewrite (get_chan_ok _ _ _ Hc). }
  rewrite Hgc. pose proof (iv_world _ _ Hi) as Hw. destruct (closed ch) eqn:Hcl.
  - destruct f as [f|]; [|by eexists _, w, L; split_and!; [..|apply grows_refl]].
    eexists _, _, L. split_and!; [done| |by apply grows_refl].
    destruct Hi as [[H1 H2 H3 H4 H5 H6 H7 H8 H9 Hsu Hso H10 H11 H12 H13 Hsel] Hid Hg Hs Hq].
    split; [split|..]; try done. intros p e He. destruct (H5 p e He). by split.
  - erewrite prog_bind_ok by (by apply upd_chan_ok). eexists _, _, L. split; [done|].
    assert (Ho : ∀ c', obs_at (set_chans (<[c := set_on_close f ch]>) w) c' =
              if decide (c' = c) then Some (obs (set_on_close f ch)) else obs_at w c').
    { intros c'. unfold obs_at. simpl. rewrite lookup_insert. by repeat case_decide. }
    destruct Hi as [_ Hid Hg Hs Hq]. pose proof (obs_at_Some _ _ _ Hc) as Hoc. split.
    2: { split; [|by apply kept_woken, kept_refl]. intros c' o1. rewrite Ho. case_decide; subst.
         - rewrite Hoc. intros [= <-]. eexists. split_and!; [done|done|simpl; lia].
         - intros Ho1. exists o1. split_and!; [done|done|lia]. }
    split.
    + eapply world_ok_same_lists; try done; [|by intros []..].
      destruct (co_ring _ _ _ (wo_chan _ _ Hw c ch Hc)). by split.
    + intros Hst c' Ht. destruct (Hid Hst c' Ht) as [? Hoq]. split; [done|]. rewrite Ho.
      case_decide; [|apply Hoq]. subst. specialize (Hoq _ Hoc). by intros o [= <-].
    + intros c' o. rewrite Ho. case_decide; [|apply Hg]. intros [= <-]. apply (Hg c _ Hoc).
    + done.
    + intros c' Hc'%Hq. rewrite has_chan_obs, Ho. case_decide; [eauto|]. by apply has_chan_obs.
Qed.

(** Freeing an entry nobody is linked through. *)
Lemma free_inv L w w' p :
  inv L w → world_ok L w' → chans w' = chans w → flags w' = flags w → loopq w' = loopq w →
  ents w' = delete p (ents w) → inv L w' ∧ grows (eq p) w w'.
Proof.
  intros Hi Hw' Hc Hf Hl He.
  assert (Ho : ∀ c, obs_at w' c = obs_at w c) by (intros c; unfold obs_at; by rewrite Hc).
  assert (Hk : ∀ q e, q ≠ p → ents w !! q = Some e → ents w' !! q = Some (set_next (next e) e)).
  { intros q e Hne Hq. by rewrite He, lookup_delete_ne, set_next_id by done. }
  split.
  - eapply inv_same_obs; [done..|]. intros c s q [Hlq Hin]%list_elem_of_filter.
    destruct (decide (q = p)) as [->|Hne].
    { unfold live in Hlq. by rewrite He, lookup_delete_eq in Hlq. }
    unfold live in Hlq. rewrite He, Hf, lookup_delete_ne in Hlq by done.
    destruct (ents w !! q) as [e|] eqn:Hq; [|done]. split.
    + apply list_elem_of_filter. split; [|done]. unfold live. by rewrite Hq.
    + intros e'. rewrite (Hk q e Hne Hq). intros [= <-]. eauto.
  - apply grows_same_obs; [done|]. intros q e Hq _. destruct (decide (q = p)) as [->|Hne]; [by left|].
    right. eauto.
Qed.

Lemma try_inv L w c :
  inv L w → has_chan w c →
  ∃ r w' L', exec (CTakeTry c) w = ok (r, w') ∧ inv L' w' ∧ grows nobody w w'.
Proof.
  intros Hi [ch Hc]. destruct (goc_take_try_ok L w c ch (iv_world _ _ Hi) Hc)
    as (r & w' & L' & Hr & Hw' & Hcase). exists (RVal r), w', L'.
  split; [by unfold exec; erewrite prog_bind_ok by exact Hr|].
  destruct Hcase as [(v & -> & Hcase)|(-> & _ & _ & Ht & Hlv)].
  - by eapply take_inv.
  - pose proof (tidied_kept _ _ Ht) as Hk. split; [eapply inv_same_obs; try done|apply grows_same_obs].
    + intros c'. by apply tidied_obs.
    + apply Ht.
    + by apply from_old_kept.
    + intros c'. by apply tidied_obs.
    + by apply kept_woken.
Qed.

Lemma resume_inv L w i p t e f :
  inv L w → (i, t) ∈ runq w → fibers w !! i = Some f → ents w !! p = Some e →
  fired e = None → woken e = true →
  ∃ w', exec (CTakeResume i p) w = ok (RVal (cb_result e, ok_ e), w') ∧
        exec (CPutResume i p) w = ok (RStatus (ok_ e), w') ∧ inv L w' ∧ grows (eq p) w w'.
Proof.
  intros Hi Hin Hf He Hfd Hwk.
  destruct (goc_take_resume_ok L w i p e t f (iv_world _ _ Hi) Hin Hf He Hfd Hwk)
    as (w' & Ht & Hp & Hw' & Heq).
  exists w'. split_and!.
  - unfold exec. erewrite prog_bind_ok by done. by erewrite prog_bind_ok by exact Ht.
  - unfold exec. erewrite prog_bind_ok by done. by erewrite prog_bind_ok by exact Hp.
  - subst w'. by apply (free_inv L w _ p).
  - subst w'. by apply (free_inv L w _ p).
Qed.

Lemma sync_resume_inv L w p e :
  inv L w → ents w !! p = Some e → kind e = GOC_SYNC → fired e = None → woken e = true →
  syncs w !! sync_sem_ptr e = Some true →
  ∃ w', exec (CTakeSyncResume p) w = ok (RVal (cb_result e, ok_ e), w') ∧
        exec (CPutSyncResume p) w = ok (RStatus (ok_ e), w') ∧ inv L w' ∧ grows (eq p) w w'.
Proof.
  intros Hi He Hk Hfd Hwk Hs.
  destruct (goc_take_sync_resume_ok L w p e (iv_world _ _ Hi) He Hk Hfd Hwk Hs)
    as (w' & Ht & Hp & Hw' & Heq).
  exists w'. split_and!.
  - unfold exec. by erewrite prog_bind_ok by exact Ht.
  - unfold exec. by erewrite prog_bind_ok by exact Hp.
  - subst w'. by apply (free_inv L w _ p).
  - subst w'. by apply (free_inv L w _ p).
Qed.

(** ** The waiters of a channel, read off the heap *)

Fixpoint walk (fuel : nat) (h : gmap positive goc_entry) (p : option positive) : list positive :=
  match fuel, p with
  | S fuel, Some p => p :: walk fuel h (h !! p ≫= next)
  | _, _ => []
  end.

Definition linked (w : world) (c : positive) (s : side) : list positive :=
  match chans w !! c with
  | Some ch => walk (size (ents w)) (ents w) (head_of s ch)
  | None => []
  end.

(** The waiters of [c] on side [s] that can be woken, oldest first. *)
Definition waiting (w : world) (c : positive) (s : side) : list positive := lv (linked w) w c s.

Lemma walk_chain h : ∀ l fuel p, chain h p l → (length l <= fuel)%nat → walk fuel h p = l.
Proof.
  induction l as [|x l IH]; intros fuel p; simpl.
  - intros ->. by destruct fuel.
  - intros (-> & e & He & Hn) Hf. destruct fuel as [|fuel]; [lia|]. simpl. f_equal.
    rewrite He. simpl. apply IH; [done|lia].
Qed.

Lemma linked_ok L w c s : world_ok L w → L c s = linked w c s.
Proof.
  intros Hw. unfold linked. destruct (chans w !! c) as [ch|] eqn:Hc; [|by apply (wo_none _ _ Hw)].
  pose proof (co_chain _ _ _ (wo_chan _ _ Hw c ch Hc) s) as Hch.
  symmetry. apply walk_chain; [done|]. apply (chain_size _ _ _ Hch), (wo_nodup _ _ Hw).
Qed.

Lemma waiting_ok L w c s : world_ok L w → lv L w c s = waiting w c s.
Proof. intros Hw. unfold waiting, lv. by rewrite (linked_ok L w c s Hw). Qed.

Lemma put_case_ext L w c o k v r L' w' :
  world_ok L w → world_ok L' w' → put_case L w c o k v r L' w' →
  put_case (linked w) w c o k v r (linked w') w'.
Proof.
  intros Hw Hw' Hc.
  assert (E : ∀ c s, lv L w c s = lv (linked w) w c s) by (intros; by apply waiting_ok).
  assert (E' : ∀ c s, lv L' w' c s = lv (linked w') w' c s) by (intros; by apply waiting_ok).
  destruct Hc as [L' w' ? ? Hlv|L' w' p rest ? Hp ? ? Hlv|L' w' ? Hn ? ? ? Hlv|L' w' p ? Hn ? [? ? Hlv]].
  - apply put_closed; try done. intros. by rewrite <- E, <- E'.
  - rewrite E in Hp. eapply put_to_waiter; try done. intros c' s'. by rewrite <- E', <- E.
  - rewrite E in Hn. apply put_buffered; try done. intros. by rewrite <- E, <- E'.
  - rewrite E in Hn. apply put_parked; try done. split; try done. intros. by rewrite <- !E, <- E'.
Qed.

Lemma take_case_ext L w c o k r L' w' :
  world_ok L w → world_ok L' w' → take_case L w c o k r L' w' →
  take_case (linked w) w c o k r (linked w') w'.
Proof.
  intros Hw Hw' Hc.
  assert (E : ∀ c s, lv L w c s = lv (linked w) w c s) by (intros; by apply waiting_ok).
  assert (E' : ∀ c s, lv L' w' c s = lv (linked w') w' c s) by (intros; by apply waiting_ok).
  destruct Hc as [L' w' v q ? ? ? Hlv|L' w' p e rest ? Hp ? ? ? Hlv|L' w' ? Hn ? ? Hlv|L' w' p ? Hn ? [? ? Hlv]].
  - eapply take_buffered; try done. intros. by rewrite <- E, <- E'.
  - rewrite E in Hp. eapply take_from_waiter; try done. intros c' s'. by rewrite <- E', <- E.
  - rewrite E in Hn. apply take_closed; try done. intros. by rewrite <- E, <- E'.
  - rewrite E in Hn. apply take_parked; try done. split; try done. intros. by rewrite <- !E, <- E'.
Qed.

(** *** Every call *)

(** The entry whose owner reads it in this step. *)
Definition consumed (k : call) (p : positive) : Prop :=
  match k with
  | CTakeResume _ q | CPutResume _ q | CTakeSyncResume q | CPutSyncResume q => q = p
  | _ => False
  end.

Lemma step_inv L w k :
  inv L w → enabled w k → ∃ r w' L', exec k w = ok (r, w') ∧ inv L' w' ∧ grows (consumed k) w w'.
Proof.
  intros Hi He. destruct k; simpl in He.
  - destruct (make_ok L w n Hi He) as (w' & Hr & Hw' & ?). eexists _, w', L.
    split; [|done]. unfold exec. by erewrite prog_bind_ok by exact Hr.
  - destruct (spawn_ok L w i home pool Hi He) as (w' & Hr & Hw'). eexists _, w', L.
    split; [|done]. unfold exec. by erewrite prog_bind_ok by exact Hr.
  - destruct He as [[ch Hc] (f & Hf & Hp)].
    destruct (goc_put_ok L w c ch i f worker v (iv_world _ _ Hi) Hc Hf Hp) as (r & w' & L' & Hr & Hw' & Hcase).
    eexists _, w', L'. split; [unfold exec; by erewrite prog_bind_ok by exact Hr|]. by eapply put_inv.
  - destruct He as [[ch Hc] (f & Hf & Hp)].
    destruct (goc_take_ok L w c ch i f worker (iv_world _ _ Hi) Hc Hf Hp) as (r & w' & L' & Hr & Hw' & Hcase).
    eexists _, w', L'. split; [unfold exec; by erewrite prog_bind_ok by exact Hr|]. by eapply take_inv.
  - destruct He as [ch Hc].
    destruct (goc_put_sync_ok L w c ch OnThread v (iv_world _ _ Hi) Hc) as (r & w' & L' & Hr & Hw' & Hcase); [done|].
    eexists _, w', L'. split; [unfold exec; by erewrite prog_bind_ok by exact Hr|]. by eapply put_inv.
  - destruct He as [ch Hc].
    destruct (goc_take_sync_ok L w c ch OnThread (iv_world _ _ Hi) Hc) as (r & w' & L' & Hr & Hw' & Hcase); [done|].
    eexists _, w', L'. split; [unfold exec; by erewrite prog_bind_ok by exact Hr|]. by eapply take_inv.
  - by apply (try_inv L).
  - by apply (close_call_inv L).
  - by apply (dispatch_inv L).
  - by apply (set_on_close_inv L).
  - destruct He as [(t & Hin) (e & Hp & Hf & Hwk & Hk & <-)].
    destruct (eo_fiber _ _ (wo_ent _ _ (iv_world _ _ Hi) p e Hp) Hk) as [f Hfb].
    destruct (resume_inv L w (coro e) p t e f) as (w' & ? & _ & ? & ?); eauto 10.
  - destruct He as [(t & Hin) (e & Hp & Hf & Hwk & Hk & <-)].
    destruct (eo_fiber _ _ (wo_ent _ _ (iv_world _ _ Hi) p e Hp) Hk) as [f Hfb].
    destruct (resume_inv L w (coro e) p t e f) as (w' & _ & ? & ? & ?); eauto 10.
  - destruct He as (e & Hp & Hf & Hwk & Hk & Hs).
    destruct (sync_resume_inv L w p e) as (w' & ? & _ & ? & ?); eauto 10.
  - destruct He as (e & Hp & Hf & Hwk & Hk & Hs).
    destruct (sync_resume_inv L w p e) as (w' & _ & ? & ? & ?); eauto 10.
Qed.

Lemma init_inv : inv (λ _ _, []) init.
Proof.
  split; [split|..]; simpl; try (by intros; simplify_map_eq);
    try (by intros * ?%not_elem_of_nil); try (by intros * [? ?%lookup_empty_Some]);
    try (by intros *; rewrite lookup_empty); try constructor.
Qed.

Lemma world_ok_linked L w : world_ok L w → world_ok (linked w) w.
Proof. intros Hw. eapply world_ok_ext; [|exact Hw]. intros. by apply linked_ok. Qed.

Lemma inv_linked L w : inv L w → inv (linked w) w.
Proof.
  intros [Hw Hi Hg Hs Hq]. assert (E : ∀ c s, lv L w c s = lv (linked w) w c s) by (intros; by apply waiting_ok).
  split; [by eapply world_ok_linked| | | |done].
  - intros Hst c. rewrite <- !E. by apply Hi.
  - done.
  - intros c p e. rewrite <- E. apply Hs.
Qed.

End steps.

Lemma reachable_inv w : reachable w → inv true (linked w) w.
Proof.
  induction 1 as [|w k r w' _ IH He Hr]; [eapply inv_linked, init_inv|].
  destruct (step_inv _ _ w k IH He) as (r' & w'' & L' & Hr' & Hi' & _).
  assert (w'' = w') as -> by congruence. by eapply inv_linked.
Qed.

(** ** Running sequences of calls *)

Definition bool_guard (b : bool) : option () := if b then Some tt else None.

Definition enabledb (w : world) (k : call) : bool :=
  match k with
  | CMake n => (0 <=? n) && (n <? 2 ^ 60)
  | CSpawn i _ _ => bool_decide (fibers w !! i = None)
  | CDispatch => true
  | CPut i _ c _ | CTake i _ c =>
      bool_decide (has_chan w c) && match fibers w !! i with Some f => parked f =? 0 | None => false end
  | CPutSync c _ | CTakeSync c | CTakeTry c | CSetOnClose c _ => bool_decide (has_chan w c)
  | CClose cx c => loop_running w && match c with Some c => bool_decide (has_chan w c) | None => true end
  | CTakeResume i p | CPutResume i p =>
      existsb (λ x, bool_decide (x.1 = i)) (runq w) &&
      match ents w !! p with
      | Some e => bool_decide (fired e = None) && woken e && bool_decide (kind e = GOC_FIBER ∧ coro e = i)
      | None => false
      end
  | CTakeSyncResume p | CPutSyncResume p =>
      match ents w !! p with
      | Some e => bool_decide (fired e = None) && woken e &&
                  bool_decide (kind e = GOC_SYNC ∧ syncs w !! sync_sem_ptr e = Some true)
      | None => false
      end
  end.

Lemma enabledb_ok w k : enabledb w k = true → enabled w k.
Proof.
  destruct k; simpl; rewrite ?andb_true_iff, ?bool_decide_eq_true; try done; try lia.
  - destruct (fibers w !! i) as [f|] eqn:Hf; [|by intros [_ ?]]. intros [? ?%Z.eqb_eq]. split; [done|].
    by exists f.
  - destruct (fibers w !! i) as [f|] eqn:Hf; [|by intros [_ ?]]. intros [? ?%Z.eqb_eq]. split; [done|].
    by exists f.
  - intros [? Hc]. split; [done|]. destruct c; [by apply bool_decide_eq_true in Hc|done].
  - intros [Hi Hp]. split.
    + apply existsb_exists in Hi as ([j t] & Hin & Hj%bool_decide_eq_true). simpl in Hj. subst j.
      exists t. by apply list_elem_of_In.
    + destruct (ents w !! p) as [e|] eqn:He; [|done]. exists e. split; [done|].
      rewrite !andb_true_iff, !bool_decide_eq_true in Hp. tauto.
  - intros [Hi Hp]. split.
    + apply existsb_exists in Hi as ([j t] & Hin & Hj%bool_decide_eq_true). simpl in Hj. subst j.
      exists t. by apply list_elem_of_In.
    + destruct (ents w !! p) as [e|] eqn:He; [|done]. exists e. split; [done|].
      rewrite !andb_true_iff, !bool_decide_eq_true in Hp. tauto.
  - destruct (ents w !! p) as [e|] eqn:He; [|done].
    rewrite !andb_true_iff, !bool_decide_eq_true. intros. exists e. tauto.
  - destruct (ents w !! p) as [e|] eqn:He; [|done].
    rewrite !andb_true_iff, !bool_decide_eq_true. intros. exists e. tauto.
Qed.

(** Runs the calls in order; [None] if one is not enabled or does not return. *)
Fixpoint run (ks : list call) (w : world) : option (list reply * world) :=
  match ks with
  | [] => Some ([], w)
  | k :: ks => if enabledb w k then
                 match exec k w with
                 | ok (r, w') => '(rs, w'') ← run ks w'; Some (r :: rs, w'')
                 | _ => None
                 end
               else None
  end.

Lemma run_reachable ks : ∀ w rs w', reachable w → run ks w = Some (rs, w') → reachable w'.
Proof.
  induction ks as [|k ks IH]; intros w rs w' Hw; simpl; [intros [= <- <-]; done|].
  destruct (enabledb w k) eqn:He; [|done]. destruct (exec k w) as [[r w1]|?| |] eqn:Hx; try done.
  destruct (run ks w1) as [[rs' w2]|] eqn:Hr; [|done]. simpl. intros [= <- <-].
  eapply IH; [|done]. eapply reach_step; [done|by apply enabledb_ok|done].
Qed.

(** The world after [ks]; [init] if they cannot run. *)
Definition after (ks : list call) : world := from_option snd init (run ks init).

Lemma after_reachable ks : reachable (after ks).
Proof.
  unfold after. destruct (run ks init) as [[rs w]|] eqn:E; simpl; [|apply reach_init].
  eapply run_reachable; [apply reach_init|done].
Qed.

(** Steps during which the owner of [p] does not run. *)
Inductive later (p : positive) : world → world → Prop :=
| later_refl w : later p w w
| later_step w1 k r w2 w3 :
    enabled w1 k → exec k w1 = ok (r, w2) → ¬ consumed k p → later p w2 w3 → later p w1 w3.

Lemma later_keeps p w w' e :
  reachable w → later p w w' → ents w !! p = Some e → woken e = true →
  reachable w' ∧ ∃ n, ents w' !! p = Some (set_next n e).
Proof.
  intros Hr Hl. revert e Hr. induction Hl as [w|w1 k r w2 w3 He Hx Hc _ IH]; intros e Hr Hp Hwk.
  - split; [done|]. exists (next e). by rewrite set_next_id.
  - destruct (step_inv _ _ w1 k (reachable_inv _ Hr) He) as (r' & w'' & L' & Hr' & _ & Hg).
    assert (w'' = w2) as -> by congruence.
    destruct (gr_woken _ _ _ Hg p e Hp Hwk) as [?|(n & Hn)]; [done|].
    destruct (IH (set_next n e)) as [? (n' & Hn')]; [by eapply reach_step|done|done|].
    split; [done|]. by exists n'.
Qed.

(** ** Properties *)



(** C13: A put, from a fiber or a thread, on every branch: [GOC_CLOSED] on a closed
    channel; else the value goes to the oldest waiting taker, who alone is woken,
    exactly once, with that value; else to the end of the buffer if there is room;
    else the caller parks as the last putter. *)
Theorem put_behaviour w c ch v :
  reachable w → chans w !! c = Some ch →
  (∀ i f worker, fibers w !! i = Some f → parked f = 0 →
     ∃ r w', goc_put (InFiber i worker) c v w = ok (r, w') ∧
       put_case (linked w) w c (obs ch) GOC_FIBER v r (linked w') w') ∧
  (∃ r w', goc_put_sync OnThread c v w = ok (r, w') ∧
     put_case (linked w) w c (obs ch) GOC_SYNC v r (linked w') w').
Proof.
  intros Hr Hc. pose proof (iv_world _ _ _ (reachable_inv _ Hr)) as Hw. split.
  - intros i f worker Hf Hp. destruct (goc_put_ok _ w c ch i f worker v Hw Hc Hf Hp)
      as (r & w' & L' & Hx & Hw' & Hcase). exists r, w'. split; [done|]. by eapply put_case_ext.
  - destruct (goc_put_sync_ok _ w c ch OnThread v Hw Hc) as (r & w' & L' & Hx & Hw' & Hcase); [done|].
    exists r, w'. split; [done|]. by eapply put_case_ext.
Qed.

Definition one_taker : world := after [CMake 2; CSpawn 7 0 (Some 4); CTake 7 0 1].
Definition full_buffer : world := after [CMake 1; CSpawn 7 0 (Some 4); CPutSync 1 5; CPut 7 0 1 6].

Lemma put_behaviour_witness : waiting one_taker 1 Takers = [2]%positive ∧
  ∃ r w', goc_put_sync OnThread 1 9 one_taker = ok (r, w') ∧
    ∃ ch, put_case (linked one_taker) one_taker 1 (obs ch) GOC_SYNC 9 r (linked w') w'.
Proof.
  split; [vm_compute; reflexivity|].
  destruct (chans one_taker !! 1%positive) as [ch|] eqn:Hc; [|vm_compute in Hc; discriminate Hc].
  destruct (put_behaviour one_taker 1 ch 9 (after_reachable _) Hc) as [_ (r & w' & Hx & Hcase)].
  exists r, w'. split; [exact Hx|]. exists ch. exact Hcase.
Defined.

(** C14: A take, from a fiber, a thread or without blocking, on every branch: the
    oldest buffered value, also of a closed channel; else the value of the oldest
    waiting putter, who alone is woken, exactly once; else [GOC_CLOSED] on a closed
    channel; else the caller parks as the last taker, with a cell for its value, and
    [goc_take_try] returns [GOC_EMPTY]. *)
Theorem take_behaviour w c ch :
  reachable w → chans w !! c = Some ch →
  (∀ i f worker, fibers w !! i = Some f → parked f = 0 →
     ∃ r w', goc_take (InFiber i worker) c w = ok (r, w') ∧
       take_case (linked w) w c (obs ch) GOC_FIBER r (linked w') w') ∧
  (∃ r w', goc_take_sync OnThread c w = ok (r, w') ∧
     take_case (linked w) w c (obs ch) GOC_SYNC r (linked w') w') ∧
  (∃ r w', goc_take_try c w = ok (r, w') ∧
     (r.2 = GOC_OK ∧ take_case (linked w) w c (obs ch) GOC_SYNC (Ret r) (linked w') w' ∨
      r = (0, if closed ch then GOC_CLOSED else GOC_EMPTY) ∧ ring ch = [] ∧
      waiting w c Putters = [] ∧ tidied w w')).
Proof.
  intros Hr Hc. pose proof (iv_world _ _ _ (reachable_inv _ Hr)) as Hw. split_and!.
  - intros i f worker Hf Hp. destruct (goc_take_ok _ w c ch i f worker Hw Hc Hf Hp)
      as (r & w' & L' & Hx & Hw' & Hcase). exists r, w'. split; [done|]. by eapply take_case_ext.
  - destruct (goc_take_sync_ok _ w c ch OnThread Hw Hc) as (r & w' & L' & Hx & Hw' & Hcase); [done|].
    exists r, w'. split; [done|]. by eapply take_case_ext.
  - destruct (goc_take_try_ok _ w c ch Hw Hc) as (r & w' & L' & Hx & Hw' & Hcase).
    exists r, w'. split; [done|]. destruct Hcase as [(v & -> & Hcase)|(-> & Hq & Hn & Ht & _)].
    + left. split; [done|]. by eapply take_case_ext.
    + right. by split_and!.
Qed.

Lemma take_behaviour_witness : waiting full_buffer 1 Putters = [2]%positive ∧
  ∃ r w', goc_take_sync OnThread 1 full_buffer = ok (r, w') ∧
    ∃ ch, take_case (linked full_buffer) full_buffer 1 (obs ch) GOC_SYNC r (linked w') w'.
Proof.
  split; [vm_compute; reflexivity|].
  destruct (chans full_buffer !! 1%positive) as [ch|] eqn:Hc; [|vm_compute in Hc; discriminate Hc].
  destruct (take_behaviour full_buffer 1 ch (after_reachable _) Hc) as [_ [(r & w' & Hx & Hcase) _]].
  exists r, w'. split; [exact Hx|]. exists ch. exact Hcase.
Defined.

(** *** Hand-off *)

(** What a put that wakes [p] leaves for [p]'s owner. *)
Lemma woken_with_entry v p w w' e :
  woken_with v p w w' → ents w !! p = Some e → ∃ n, ents w' !! p = Some (delivered v (set_next n e)).
Proof. intros Hww He. destruct (ww_entry _ _ _ _ Hww) as (e0 & n & He0 & _ & Hw' & _). exists n. congruence. Qed.

Lemma resume_reply w i p e r w' :
  ents w !! p = Some e → exec (CTakeResume i p) w = ok (r, w') → r = RVal (cb_result e, ok_ e).
Proof.
  intros He. unfold exec, goc_take_resume, set_parked, free, mbind, prog_bind, modify, get_fiber, get_ent.
  simpl. destruct (fibers w !! i) as [f|]; simpl; [|done]. rewrite He. simpl. rewrite He. simpl.
  by intros [= <- _].
Qed.

Lemma sync_resume_reply w p e r w' :
  ents w !! p = Some e → exec (CTakeSyncResume p) w = ok (r, w') → r = RVal (cb_result e, ok_ e).
Proof.
  intros He. unfold exec, goc_take_sync_resume, goc_sync_wait, goc_sync_destroy, free, mbind, prog_bind,
    modify, get_ent. rewrite He. simpl. destruct (syncs w !! sync_sem_ptr e) as [[]|]; simpl; [|done..].
  rewrite He. simpl. by intros [= <- _].
Qed.

(** Hand-off.  If a taker waits, a put hands its value to the oldest one: the
    put returns [GOC_OK], the taker may run, and whenever it runs, whatever other
    calls come in between, its take returns that very value with [GOC_OK]. *)
Theorem handoff w c p rest e v :
  reachable w → waiting w c Takers = p :: rest → ents w !! p = Some e → fired e = None →
  ∃ w', goc_put_sync OnThread c v w = ok (Ret GOC_OK, w') ∧
    (kind e = GOC_FIBER → enabled w' (CTakeResume (coro e) p)) ∧
    (kind e = GOC_SYNC → enabled w' (CTakeSyncResume p)) ∧
    ∀ w'' k r w3, later p w' w'' → k = CTakeResume (coro e) p ∨ k = CTakeSyncResume p →
      exec k w'' = ok (r, w3) → r = RVal (v, GOC_OK).
Proof.
  intros Hr Hwt He Hf. pose proof (reachable_inv _ Hr) as Hi. pose proof (iv_world _ _ _ Hi) as Hw.
  destruct (chans w !! c) as [ch|] eqn:Hc.
  2: { unfold waiting, lv, linked in Hwt. by rewrite Hc in Hwt. }
  destruct (goc_put_sync_ok _ w c ch OnThread v Hw Hc) as (r0 & w' & L' & Hx & Hw' & Hcase); [done|].
  assert (Hwt' : lv (linked w) w c Takers = p :: rest) by done.
  assert (Hlin : linked w c Takers ≠ []) by (intros Hn; unfold lv in Hwt'; by rewrite Hn in Hwt').
  assert (Hcl : closed ch = false).
  { destruct (closed ch) eqn:E; [|done]. by rewrite (co_closed _ _ _ (wo_chan _ _ Hw c ch Hc) E) in Hlin. }
  inversion Hcase as [? ? Hcl'|? ? p' rest' _ Hp Hww Ho _|? ? _ Hn|? ? ? _ Hn]; subst;
    [simpl in Hcl'; congruence| |congruence..].
  assert (p' = p) as -> by congruence.
  assert (Hslot : result_slot e = true) by (apply (iv_slots _ _ _ Hi c p); [rewrite Hwt'; constructor|done]).
  pose proof (woken_with_entry v p w w' e Hww He) as (n & Hn).
  assert (Hr' : reachable w').
  { eapply reach_step; [exact Hr|apply (enabledb_ok w (CPutSync c v)); apply bool_decide_eq_true; by exists ch|].
    unfold exec. by erewrite prog_bind_ok by exact Hx. }
  destruct (ww_entry _ _ _ _ Hww) as (e0 & n0 & He0 & _ & _ & Hnt). assert (e0 = e) as -> by congruence.
  exists w'. split_and!; [done|..].
  - intros Hk. rewrite Hk in Hnt. destruct Hnt as (t & Hrq & _). split.
    + exists t. rewrite Hrq. apply elem_of_app. right. constructor.
    + exists (delivered v (set_next n e)). by split_and!.
  - intros Hk. rewrite Hk in Hnt. destruct Hnt as (_ & _ & Hs).
    exists (delivered v (set_next n e)). split_and!; try done. simpl. rewrite Hs. apply lookup_insert_eq.
  - intros w'' k r w3 Hl Hk Hx'. destruct (later_keeps p w' w'' _ Hr' Hl Hn) as [_ (n' & Hn')]; [done|].
    assert (Hres : RVal (cb_result (set_next n' (delivered v (set_next n e))),
                         ok_ (set_next n' (delivered v (set_next n e)))) = RVal (v, GOC_OK)).
    { simpl. by rewrite Hslot. }
    rewrite <- Hres. destruct Hk as [-> | ->]; [by eapply resume_reply|by eapply sync_resume_reply].
Qed.

Lemma handoff_witness : ∃ w', goc_put_sync OnThread 1 9 one_taker = ok (Ret GOC_OK, w') ∧
  enabled w' (CTakeResume 7 2).
Proof.
  destruct (ents one_taker !! 2%positive) as [e|] eqn:He; [|vm_compute in He; discriminate He].
  assert (Hek : kind e = GOC_FIBER ∧ coro e = 7%positive ∧ fired e = None).
  { vm_compute in He. injection He as <-. split; [reflexivity|split; reflexivity]. }
  destruct Hek as (Hk & Hco & Hf).
  destruct (handoff one_taker 1 2 [] e 9 (after_reachable _)) as (w' & Hx & Hen & _);
    [vm_compute; reflexivity|exact He|exact Hf|].
  exists w'. split; [exact Hx|]. rewrite <- Hco. exact (Hen Hk).
Defined.

(** A taker waits only on an open channel that has nothing for it: its buffer is
    empty and nobody waits to put. *)
Theorem takers_wait_only_when_empty w c :
  reachable w → waiting w c Takers ≠ [] →
  waiting w c Putters = [] ∧ ∃ ch, chans w !! c = Some ch ∧ ring ch = [] ∧ closed ch = false.
Proof.
  intros Hr Hne. pose proof (reachable_inv _ Hr) as Hi. destruct (iv_idle _ _ _ Hi eq_refl c Hne) as [Hp Hq].
  split; [done|]. destruct (chans w !! c) as [ch|] eqn:Hc.
  - exists ch. split; [done|]. split; [apply (Hq (obs ch)); by apply obs_at_Some|].
    destruct (closed ch) eqn:Hcl; [|done]. exfalso. apply Hne. unfold waiting, lv.
    by rewrite (co_closed _ _ _ (wo_chan _ _ (iv_world _ _ _ Hi) c ch Hc) Hcl).
  - exfalso. apply Hne. unfold waiting, lv, linked. by rewrite Hc.
Qed.

Lemma takers_wait_only_when_empty_witness : waiting one_taker 1 Putters = [].
Proof.
  destruct (takers_wait_only_when_empty one_taker 1 (after_reachable _)) as [Hp _];
    [vm_compute; discriminate|exact Hp].
Defined.

(** *** Closing *)

(** C16: The close state machine.  A step never moves a channel back towards open and
    never changes its capacity, a channel is marked closed exactly when a close has
    been claimed, a closed channel has no waiters, and what a waker wrote into an
    entry survives every step except the one in which its owner reads it. *)
Theorem close_is_final w k r w' :
  reachable w → enabled w k → exec k w = ok (r, w') →
  (∀ c ch, chans w !! c = Some ch → ∃ ch', chans w' !! c = Some ch' ∧ buf_size ch' = buf_size ch ∧
     rank (close_guard ch) <= rank (close_guard ch') ∧
     (closed ch' = true ↔ close_guard ch' = GOC_CHAN_CLOSING) ∧
     (closed ch = true → closed ch' = true) ∧
     (closed ch' = true → ∀ s, linked w' c s = [])) ∧
  (∀ p e, ents w !! p = Some e → woken e = true → consumed k p ∨ ∃ n, ents w' !! p = Some (set_next n e)).
Proof.
  intros Hr He Hx. pose proof (reachable_inv _ Hr) as Hi.
  destruct (step_inv _ _ w k Hi He) as (r' & w'' & L' & Hx' & Hi' & [Hg Hk]).
  assert (w'' = w') as -> by congruence. apply inv_linked in Hi'. split; [|done].
  intros c ch Hc. destruct (Hg c _ (obs_at_Some _ _ _ Hc)) as (o' & Ho' & Hsz & Hrk).
  pose proof (iv_guards _ _ _ Hi' c o' Ho') as Hgc. unfold obs_at in Ho'.
  destruct (chans w' !! c) as [ch'|] eqn:Hc'; [|done]. injection Ho' as <-. simpl in *.
  exists ch'. split_and!; try done; [by apply Hgc..| |].
  - intros Hcl. apply Hgc. pose proof (proj1 (iv_guards _ _ _ Hi c _ (obs_at_Some _ _ _ Hc)) Hcl) as Hgu.
    simpl in Hgu. rewrite Hgu in Hrk. by destruct (close_guard ch').
  - apply (co_closed _ _ _ (wo_chan _ _ (iv_world _ _ _ Hi') c ch' Hc')).
Qed.

Lemma close_is_final_witness : ∃ r w' ch ch',
  exec (CClose OnLoop (Some 1%positive)) one_taker = ok (r, w') ∧
  chans one_taker !! 1%positive = Some ch ∧ chans w' !! 1%positive = Some ch' ∧ buf_size ch' = buf_size ch.
Proof.
  destruct (chans one_taker !! 1%positive) as [ch|] eqn:Hc; [|vm_compute in Hc; discriminate Hc].
  destruct (exec (CClose OnLoop (Some 1%positive)) one_taker) as [[r w']|?| |] eqn:E;
    try (vm_compute in E; discriminate E).
  destruct (close_is_final one_taker (CClose OnLoop (Some 1%positive)) r w' (after_reachable _)) as [H _];
    [apply enabledb_ok; vm_compute; reflexivity|exact E|].
  destruct (H _ ch Hc) as (ch' & Hc' & Hs & _). exists r, w', ch, ch'. split; [reflexivity|].
  split; [reflexivity|]. split; [exact Hc'|exact Hs].
Defined.






(** *** Order and generations *)

(** A take that finds a buffered value leaves the waiting putters parked even
    though it made room: nobody is posted, and every putter keeps waiting.  A value
    put later can therefore overtake a parked one: after puts of 1 and 2 on a
    channel of capacity 1, a take, and a put of 3, values arrive as 1, 3, 2. *)
Theorem buffered_take_wakes_no_putter w c ch i f worker v q :
  reachable w → chans w !! c = Some ch → fibers w !! i = Some f → parked f = 0 →
  ring ch = v :: q →
  (∃ w' ch', goc_take (InFiber i worker) c w = ok (Ret (v, GOC_OK), w') ∧
     chans w' !! c = Some ch' ∧ ring ch' = q ∧ runq w' = runq w ∧ cbq w' = cbq w ∧
     ∀ s, waiting w' c s = waiting w c s) ∧
  fst <$> run [CMake 1; CSpawn 7 0 (Some 1); CPutSync 1 1; CPut 7 0 1 2; CTakeTry 1; CPutSync 1 3;
               CTakeTry 1; CTakeTry 1] init =
    Some [RChan 1; RUnit; RStatus GOC_OK; RPark 2; RVal (1, GOC_OK); RStatus GOC_OK;
          RVal (3, GOC_OK); RVal (2, GOC_OK)].
Proof.
  intros Hr Hc Hf Hp Hq. split; [|vm_compute; reflexivity].
  pose proof (iv_world _ _ _ (reachable_inv _ Hr)) as Hw.
  destruct (goc_take_ok _ w c ch i f worker Hw Hc Hf Hp) as (r & w' & L' & Hx & Hw' & Hcase).
  inversion Hcase as [? ? v' q' Hq' Ho _ Hlv _ _ Hrq Hcb _ _|? ? ? ? ? Hq'|? ? Hq'|? ? ? Hq']; subst;
    simpl in Hq'; [|congruence..].
  assert (v' = v ∧ q' = q) as [-> ->] by (split; congruence).
  unfold obs_at in Ho. destruct (chans w' !! c) as [ch'|] eqn:Hc'; [|done]. injection Ho as Hrg _ _ _ _.
  exists w', ch'. split_and!; try done. intros s. by rewrite <- (waiting_ok _ _ _ _ Hw'), Hlv.
Qed.

Lemma buffered_take_wakes_no_putter_witness :
  waiting (after [CMake 1; CSpawn 7 0 (Some 4); CPutSync 1 5; CPut 7 0 1 6; CSpawn 8 0 (Some 4)]) 1 Putters
    = [2]%positive ∧
  ∃ w', goc_take (InFiber 8 0) 1
    (after [CMake 1; CSpawn 7 0 (Some 4); CPutSync 1 5; CPut 7 0 1 6; CSpawn 8 0 (Some 4)])
      = ok (Ret (5, GOC_OK), w').
Proof.
  set (w := after _). split; [vm_compute; reflexivity|].
  destruct (chans w !! 1%positive) as [ch|] eqn:Hc; [|vm_compute in Hc; discriminate Hc].
  assert (Hq : ring ch = [5]) by (vm_compute in Hc; injection Hc as <-; vm_compute; reflexivity).
  destruct (buffered_take_wakes_no_putter w 1 ch 8 (mk_fiber 0 0 (Some 4)) 0 5 [] (after_reachable _) Hc)
    as [(w' & ch' & Hx & _) _]; [vm_compute; reflexivity|reflexivity|exact Hq|].
  exists w'. exact Hx.
Defined.

(** The park generation of a fiber entry that can be woken is always 1, and the
    park word its waker waits for always 4: generations do not tell one park of a
    fiber from a later one (the claim of the entry does). *)
Theorem park_generation_constant w p e :
  reachable w → ents w !! p = Some e → kind e = GOC_FIBER → live w p = true →
  parked_gen e = 1 ∧ want_of e = 4 ∧
  ∃ f, fibers w !! coro e = Some f ∧ (parked f = 3 ∨ parked f = 4).
Proof.
  intros Hr He Hk Hl. pose proof (iv_world _ _ _ (reachable_inv _ Hr)) as Hw.
  unfold live in Hl. rewrite He in Hl.
  destruct (eo_park _ _ (wo_ent _ _ Hw p e He) Hk Hl) as [Hg Hf].
  split_and!; [done|by apply want_of_gen1|done].
Qed.

Lemma park_generation_constant_witness :
  ∃ e, ents one_taker !! 2%positive = Some e ∧ parked_gen e = 1 ∧ want_of e = 4.
Proof.
  destruct (ents one_taker !! 2%positive) as [e|] eqn:He; [|vm_compute in He; discriminate He].
  exists e. split; [reflexivity|].
  destruct (park_generation_constant one_taker 2 e (after_reachable _) He) as (Hg & Hw & _).
  - vm_compute in He. injection He as <-. reflexivity.
  - vm_compute. reflexivity.
  - split; [exact Hg|exact Hw].
Defined.

(** Taking from several channels: the results are those of single takes, in the order of
    the channels, and the loop blocks where the first of these takes does. *)
Inductive takes_each (take : positive → prog world (outcome goc_val)) : list positive → world → list goc_val → world → Prop :=
| each_nil w : takes_each take [] w [] w
| each_cons c chs w v w1 vs w' : take c w = ok (Ret v, w1) → takes_each take chs w1 vs w' → takes_each take (c :: chs) w (v :: vs) w'.

Theorem take_all_in_order take chs w r w' acc :
  take_all_from take acc chs w = ok (r, w') ↔
  (∃ vs, r = TDone (acc ++ vs) ∧ takes_each take chs w vs w') ∨
  (∃ done c rest vs p w1, chs = done ++ c :: rest ∧ r = TPark (acc ++ vs) p rest ∧ takes_each take done w vs w1 ∧ take c w1 = ok (Park p, w')).
Proof.
  revert acc w. induction chs as [|c chs IH]; intros acc w; cbn [take_all_from].
  - split.
    + intros [= <- <-]. left. exists []. rewrite app_nil_r. split; [done|constructor].
    + intros [(vs & -> & He)|(d & c & rest & vs & p & w1 & Hc & _)]; [inversion He; subst; by rewrite app_nil_r|by destruct d].
  - split.
    + intros (o & w1 & Ht & Hr)%prog_bind_inv. destruct o as [v|p].
      * apply IH in Hr as [(vs & -> & He)|(d & c' & rest & vs & p & w2 & -> & -> & He & Hp)].
        -- left. exists (v :: vs). rewrite <- app_assoc. split; [done|by econstructor].
        -- right. exists (c :: d), c', rest, (v :: vs), p, w2. rewrite <- app_assoc. split_and!; [done..|by econstructor|done].
      * injection Hr as <- <-. right. exists [], c, chs, [], p, w. rewrite app_nil_r. split_and!; [done..|constructor|done].
    + intros [(vs & -> & He)|(d & c' & rest & vs & p & w2 & Hc & -> & He & Hp)].
      * inversion He as [|? ? ? v w1 vs' ? Ht He']; subst. erewrite prog_bind_ok by exact Ht. apply IH. left. exists vs'.
        by rewrite <- app_assoc.
      * destruct d as [|c0 d]; injection Hc as -> ->.
        -- inversion He; subst. erewrite prog_bind_ok by exact Hp. by rewrite app_nil_r.
        -- inversion He as [|? ? ? v w1 vs' ? Ht He']; subst. erewrite prog_bind_ok by exact Ht. apply IH. right.
           exists d, c', rest, vs', p, w2. by rewrite <- app_assoc.
Qed.

End ChanProps.
