(* ===== verification/ChanCb.v ===== *)
(** Callback puts and takes: [goc_put_cb] and [goc_take_cb] (channel.c), the loop thread's
    side of them ([loop_process_pending_put], [loop_process_pending_take] and the dispatch
    of [drain_cb_queue] in loop.c), over the world of Chan.v.

    [cbq] of that world is the callback queue, oldest first: callers append entries that
    still have their channel, wakers append entries that were claimed.  A callback that is
    called is returned as its channel, value and status; what it does is a call of its own,
    made after the entry was freed, which it cannot reach. *)

From S2P Require Import Prelude Chan.

Module ChanCb.
Import Chan.

(** The arguments of a callback: [ch], [val], [ok]. *)
Definition event : Type := option positive * Z * goc_status.

Definition set_ech (c : option positive) (e : goc_entry) : goc_entry :=
  mk_entry (kind e) (cancelled e) (woken e) (fired e) (next e) (home_worker_idx e) (coro e)
    (result_slot e) (ok_ e) (arm_idx e) (cb e) (put_cb e) (cb_result e) (put_val e) c
    (is_put e) (free_on_drain e) (sync_sem_ptr e) (parked_gen e).
Definition set_cb_result (v : Z) (e : goc_entry) : goc_entry :=
  mk_entry (kind e) (cancelled e) (woken e) (fired e) (next e) (home_worker_idx e) (coro e)
    (result_slot e) (ok_ e) (arm_idx e) (cb e) (put_cb e) v (put_val e) (ech e)
    (is_put e) (free_on_drain e) (sync_sem_ptr e) (parked_gen e).

(** ** The calls *)

Definition take_entry (c : positive) : goc_entry :=
  {| kind := GOC_CALLBACK; cancelled := false; woken := false; fired := None; next := None;
     home_worker_idx := 0; coro := 1; result_slot := true; ok_ := GOC_CLOSED; arm_idx := 0;
     cb := true; put_cb := false; cb_result := 0; put_val := 0; ech := Some c; is_put := false;
     free_on_drain := true; sync_sem_ptr := 1; parked_gen := 0 |}.
Definition put_entry (c : positive) (v : Z) (has_cb : bool) : goc_entry :=
  {| kind := GOC_CALLBACK; cancelled := false; woken := false; fired := None; next := None;
     home_worker_idx := 0; coro := 1; result_slot := false; ok_ := GOC_CLOSED; arm_idx := 0;
     cb := false; put_cb := has_cb; cb_result := 0; put_val := v; ech := Some c; is_put := true;
     free_on_drain := true; sync_sem_ptr := 1; parked_gen := 0 |}.

Definition goc_loop_submit_callback_if_running (p : positive) : prog world bool := λ w,
  if loop_running w then ok (true, push_cbq (p, 0) w) else ok (false, w).

(** Whether the entry was accepted; the caller learns nothing of it. *)
Definition submit (e : goc_entry) : prog world bool :=
  p ← new_entry e;
  accepted ← goc_loop_submit_callback_if_running p;
  if accepted : bool then mret true else free p;; mret false.
Definition goc_take_cb (c : positive) : prog world bool := submit (take_entry c).
Definition goc_put_cb (c : positive) (v : Z) (has_cb : bool) : prog world bool := submit (put_entry c v has_cb).

(** ** The loop thread *)

(** [while (fe->parked != want) sched_yield();] *)
Fixpoint spin_parked (fuel : nat) (i : positive) (want : Z) : prog world () :=
  match fuel with
  | O => HANG
  | S fuel => f ← get_fiber i; if parked f =? want then mret tt else yield_gate i;; spin_parked fuel i want
  end.
Definition post_claimed_fiber (fe : option positive) (want : Z) : prog world () :=
  match fe with Some i => spin_parked 2 i want;; post_home i | None => mret tt end.

(** The callback, and [if (e->free_on_drain) free(e);]. *)
Definition finish_put (p c : positive) (s : goc_status) : prog world (option event) :=
  e ← get_ent p;
  (if free_on_drain e then free p else mret tt);;
  mret (if put_cb e then Some (Some c, put_val e, s) else None).
Definition finish_take (p c : positive) (v : Z) (s : goc_status) : prog world (option event) :=
  e ← get_ent p;
  (if free_on_drain e then free p else mret tt);;
  mret (if cb e then Some (Some c, v, s) else None).

Definition loop_process_pending_put (p c : positive) : prog world (option event) :=
  e ← get_ent p;
  upd_ent p (set_ech None);;
  maybe_compact c;;
  ch ← get_chan c;
  if closed ch then upd_ent p (set_ok GOC_CLOSED);; finish_put p c GOC_CLOSED
  else
    r ← chan_put_to_taker_claim c (put_val e);
    match r with
    | Some (fe, want) =>
        upd_ent p (set_ok GOC_OK);; post_claimed_fiber fe want;; finish_put p c GOC_OK
    | None =>
        b ← chan_put_to_buffer c (put_val e);
        if b : bool then upd_ent p (set_ok GOC_OK);; finish_put p c GOC_OK
        else chan_list_append Putters c p;; mret None
    end.

Definition loop_process_pending_take (p c : positive) : prog world (option event) :=
  upd_ent p (set_ech None);;
  maybe_compact c;;
  b ← chan_take_from_buffer c;
  match b with
  | Some v => upd_ent p (set_cb_result v);; upd_ent p (set_ok GOC_OK);; finish_take p c v GOC_OK
  | None =>
      r ← chan_take_from_putter_claim c;
      match r with
      | Some (v, (fe, want)) =>
          upd_ent p (set_cb_result v);; upd_ent p (set_ok GOC_OK);;
          post_claimed_fiber fe want;; finish_take p c v GOC_OK
      | None =>
          ch ← get_chan c;
          if closed ch then upd_ent p (set_ok GOC_CLOSED);; finish_take p c 0 GOC_CLOSED
          else chan_list_append Takers c p;; mret None
      end
  end.

(** [cb_queue_pop] *)
Definition pop_cbq : prog world (option positive) := λ w,
  match cbq w with
  | [] => ok (None, w)
  | (p, _) :: q => ok (Some p, mk_world (ents w) (flags w) (fibers w) (chans w) (syncs w) (live_channels w)
                                 (runq w) q (loopq w) (closelog w) (loop_running w) (next_id w))
  end.

(** An entry that was claimed: its callback gets what is left in the entry. *)
Definition fire_claimed (p : positive) : prog world (option event) :=
  e ← get_ent p;
  (if free_on_drain e then free p else mret tt);;
  mret (if cb e then Some (ech e, cb_result e, ok_ e) else if put_cb e then Some (ech e, put_val e, ok_ e) else None).

(** One round of the loop of [drain_cb_queue]. *)
Definition drain_one : prog world (option event) :=
  r ← pop_cbq;
  match r with
  | None => mret None
  | Some p =>
      e ← get_ent p;
      match kind e with
      | GOC_CALLBACK =>
          match ech e, woken e with
          | Some c, false => if is_put e then loop_process_pending_put p c else loop_process_pending_take p c
          | _, _ => fire_claimed p
          end
      | _ => mret None
      end
  end.

(** [goc_close_cb], the callback that closes its channel. *)
Definition goc_close_cb (ev : event) : prog world () := goc_close OnLoop ev.1.1.

End ChanCb.
