(* ===== verification/ChanCbOps.v ===== *)
(** What channel operations do to callback entries: the waiters they claim are queued for the
    loop thread, the others keep their place; and the loop thread's own put and take. *)

From S2P Require Import Prelude Chan ChanInv ChanOps ChanClose ChanProps ChanCb.

Module ChanCbOps.
Import Chan ChanInv ChanOps ChanClose ChanProps ChanCb.

(** ** What channel operations never do to a callback entry *)

(** The fields of an entry that only its creator and the loop thread write. *)
Definition stat (e : goc_entry) :=
  (kind e, is_put e, (cb e, put_cb e), put_val e, ech e, fired e, cancelled e, free_on_drain e, result_slot e).

(** No entry appears under an old address, and no callback entry at all. *)
Record conserves (w w' : world) : Prop := {
  cs_next : (next_id w <= next_id w')%positive;
  cs_ents : ∀ p e', ents w' !! p = Some e' →
    (∃ e, ents w !! p = Some e ∧ stat e' = stat e) ∨ ((next_id w <= p)%positive ∧ kind e' ≠ GOC_CALLBACK)
}.
Lemma conserves_refl w : conserves w w.
Proof. split; [lia|]. intros p e He. left. by exists e. Qed.
Lemma conserves_trans w1 w2 w3 : conserves w1 w2 → conserves w2 w3 → conserves w1 w3.
Proof.
  intros [N1 E1] [N2 E2]. split; [lia|]. intros p e3 He3. destruct (E2 p e3 He3) as [(e2 & He2 & Hs)|[Hp Hk]].
  - destruct (E1 p e2 He2) as [(e1 & He1 & Hs1)|[Hp Hk]]; [left; exists e1; split; [done|congruence]|right].
    split; [done|]. unfold stat in Hs. congruence.
  - right. split; [lia|done].
Qed.

Definition conserving {A} (m : prog world A) : Prop := ∀ w a w', m w = ok (a, w') → conserves w w'.

Create HintDb conserve.
Lemma cs_ret {A} (a : A) : conserving (mret a).
Proof. intros w b w' [= <- <-]. apply conserves_refl. Qed.
Lemma cs_bind {A B} (m : prog world A) (f : A → prog world B) : conserving m → (∀ a, conserving (f a)) → conserving (m ≫= f).
Proof. intros Hm Hf w b w' (a & w1 & H1 & H2)%prog_bind_inv. eapply conserves_trans; [by eapply Hm|by eapply Hf]. Qed.
Lemma cs_read {A} (g : world → nat) (m : nat → prog world A) : (∀ n, conserving (m n)) → conserving (λ w, m (g w) w).
Proof. intros Hm w a w' Hr. by eapply Hm. Qed.
Lemma cs_of_option {A} (f : world → option A) : conserving (λ w, of_option (f w) w).
Proof. intros w a w'. unfold of_option. destruct (f w); [|done]. intros [= <- <-]. apply conserves_refl. Qed.
Lemma cs_of_option' {A} (o : option A) : conserving (of_option o).
Proof. apply (cs_of_option (λ _, o)). Qed.
Lemma cs_hang {A} : conserving (HANG : prog world A).
Proof. by intros w a w'. Qed.
Lemma cs_abort {A} s : conserving (ABORT s : prog world A).
Proof. by intros w a w'. Qed.
Lemma cs_modify (f : world → world) : (∀ w, ents (f w) = ents w) → (∀ w, (next_id w <= next_id (f w))%positive) → conserving (modify f).
Proof. intros He Hn w a w' [= <- <-]. split; [apply Hn|]. intros p e. rewrite He. left. by exists e. Qed.
Lemma cs_upd_ent p f : (∀ e, stat (f e) = stat e) → conserving (upd_ent p f).
Proof.
  intros Hf w a w' (e & w1 & He & [= <- <-])%prog_bind_inv. unfold get_ent, of_option in He.
  destruct (ents w !! p) as [e0|] eqn:Hp; [|done]. injection He as <- <-. split; [done|]. simpl. intros q e'.
  rewrite lookup_insert. case_decide as Hq; [intros [= <-]; subst; left; eauto|]. left. by exists e'.
Qed.
Lemma cs_free p : conserving (free p).
Proof.
  intros w a w' (e & w1 & He & [= <- <-])%prog_bind_inv. unfold get_ent, of_option in He.
  destruct (ents w !! p) as [e0|] eqn:Hp; [|done]. injection He as <- <-. split; [done|]. simpl. intros q e' [_ Hq]%lookup_delete_Some.
  left. by exists e'.
Qed.
Lemma cs_new_entry e : kind e ≠ GOC_CALLBACK → conserving (new_entry e).
Proof.
  intros Hk w a w' [= <- <-]. split; [simpl; lia|]. simpl. intros q e'. rewrite lookup_insert.
  case_decide as Hq; [intros [= <-]; subst; right; split; [lia|done]|]. left. by exists e'.
Qed.
#[export] Hint Resolve cs_ret cs_of_option cs_of_option' cs_hang cs_abort cs_free : conserve.
#[export] Hint Extern 1 (conserving (modify _)) => (apply cs_modify; [done|intros; simpl; lia]) : conserve.
#[export] Hint Extern 1 (conserving (upd_ent _ _)) => (apply cs_upd_ent; done) : conserve.
#[export] Hint Extern 1 (conserving (new_entry _)) => (apply cs_new_entry; done) : conserve.

(** [conserve]: through binds and branches to the operations of the database. *)
Ltac conserve :=
  repeat match goal with
  | |- conserving (_ ≫= _) => apply cs_bind; [|intros ?]
  | |- conserving (match ?x with _ => _ end) => destruct x
  | |- conserving _ => solve [auto with conserve nocore]
  end; auto with conserve.

Lemma cs_get_ent p : conserving (get_ent p).
Proof. apply cs_of_option. Qed.
Lemma cs_get_chan c : conserving (get_chan c).
Proof. apply cs_of_option. Qed.
Lemma cs_get_fiber i : conserving (get_fiber i).
Proof. apply cs_of_option. Qed.
Lemma cs_get_flag a : conserving (get_flag a).
Proof. apply cs_of_option. Qed.
#[export] Hint Resolve cs_get_ent cs_get_chan cs_get_fiber cs_get_flag : conserve.
Lemma cs_upd_chan c f : conserving (upd_chan c f).
Proof. unfold upd_chan. conserve. Qed.
Lemma cs_set_parked i v : conserving (set_parked i v).
Proof. unfold set_parked. conserve. Qed.
#[export] Hint Resolve cs_upd_chan cs_set_parked : conserve.
Lemma cs_sync_post s : conserving (goc_sync_post s).
Proof. unfold goc_sync_post. conserve. Qed.
Lemma cs_claim p : conserving (try_claim_wake p).
Proof. unfold try_claim_wake. conserve. Qed.
Lemma cs_gate i : conserving (yield_gate i).
Proof. unfold yield_gate. conserve. Qed.
#[export] Hint Resolve cs_sync_post cs_claim cs_gate : conserve.
Lemma cs_wait i want : conserving (wait_for_fiber_suspended i want).
Proof. unfold wait_for_fiber_suspended. generalize 2%nat. intros n. induction n as [|n IH]; cbn [wait_loop]; conserve. Qed.
Lemma cs_post_home i : conserving (post_home i).
Proof. unfold post_home, post_to_specific_worker, post_to_run_queue. conserve. Qed.
#[export] Hint Resolve cs_wait cs_post_home : conserve.
Lemma cs_wake c p v : conserving (wake c p v).
Proof. unfold wake, bump_dead, post_callback. conserve. Qed.
Lemma cs_wake_claim c p v : conserving (wake_claim c p v).
Proof. unfold wake_claim, bump_dead, post_callback. conserve. Qed.
#[export] Hint Resolve cs_wake cs_wake_claim : conserve.

Lemma cs_scan {A} s c (attempt : positive → goc_entry → prog world (option A)) :
  (∀ p e, conserving (attempt p e)) → conserving (scan s c attempt).
Proof.
  intros Ha. unfold scan. apply (cs_read (λ w, S (size (ents w))) (λ n, scan_waiters n s c attempt)). intros n.
  induction n as [|n IH]; cbn [scan_waiters]; unfold pop_head; conserve.
Qed.
Lemma cs_find_last n p : conserving (find_last n p).
Proof. revert p. induction n as [|n IH]; intros p; cbn [find_last]; conserve. Qed.
#[export] Hint Resolve cs_scan : conserve.
Lemma cs_append s c p : conserving (chan_list_append s c p).
Proof.
  unfold chan_list_append. conserve.
  apply (cs_read (λ w, S (size (ents w))) (λ n, find_last n _)). intros n. apply cs_find_last.
Qed.
Lemma cs_put_to_taker c v : conserving (chan_put_to_taker c v).
Proof. unfold chan_put_to_taker. conserve. apply cs_scan. intros. conserve. Qed.
Lemma cs_take_from_putter c : conserving (chan_take_from_putter c).
Proof. unfold chan_take_from_putter. apply cs_scan. intros. conserve. Qed.
Lemma cs_put_claim c v : conserving (chan_put_to_taker_claim c v).
Proof. unfold chan_put_to_taker_claim. apply cs_scan. intros. conserve. Qed.
Lemma cs_take_claim c : conserving (chan_take_from_putter_claim c).
Proof. unfold chan_take_from_putter_claim. apply cs_scan. intros. conserve. Qed.
Lemma cs_put_buffer c v : conserving (chan_put_to_buffer c v).
Proof. unfold chan_put_to_buffer. conserve. Qed.
Lemma cs_take_buffer c : conserving (chan_take_from_buffer c).
Proof. unfold chan_take_from_buffer. conserve. Qed.
#[export] Hint Resolve cs_append cs_put_to_taker cs_take_from_putter cs_put_claim cs_take_claim cs_put_buffer cs_take_buffer : conserve.

Lemma cs_compact_list s c : conserving (compact_list s c).
Proof.
  unfold compact_list. conserve.
  apply (cs_read (λ w, S (size (ents w))) (λ n, compact_loop n s c None None)). intros n.
  generalize (None : option positive) at 1 as pp. generalize (None : option positive) as last.
  induction n as [|n IH]; intros last pp; cbn [compact_loop]; unfold load_pp, store_pp; conserve.
Qed.
#[export] Hint Resolve cs_compact_list : conserve.
Lemma cs_compact c : conserving (compact_dead_entries c).
Proof. unfold compact_dead_entries. conserve. Qed.
#[export] Hint Resolve cs_compact : conserve.
Lemma cs_maybe_compact c : conserving (maybe_compact c).
Proof. unfold maybe_compact. conserve. Qed.
Lemma cs_close_pass n p tp cf : conserving (close_pass n p tp cf).
Proof. revert p tp cf. induction n as [|n IH]; intros p tp cf; cbn [close_pass]; unfold post_callback; conserve. Qed.
Lemma cs_post_all l : conserving (post_all l).
Proof. induction l as [|[i w] l IH]; cbn [post_all]; conserve. Qed.
#[export] Hint Resolve cs_maybe_compact cs_close_pass cs_post_all : conserve.
Lemma cs_close_claimed c : conserving (close_claimed c).
Proof.
  unfold close_claimed, clear_waiters, unregister_and_call, chan_unregister, call_on_close. conserve.
  all: apply (cs_read (λ w, S (size (ents w))) (λ n, close_pass n _ _ _)); auto with conserve.
Qed.
#[export] Hint Resolve cs_close_claimed : conserve.
Lemma cs_close_internal c : conserving (goc_close_internal c).
Proof. unfold goc_close_internal. conserve. Qed.
#[export] Hint Resolve cs_close_internal : conserve.
Lemma cs_fresh : conserving fresh.
Proof. intros w a w' [= <- <-]. split; [simpl; lia|]. intros p e. left. by exists e. Qed.
Lemma cs_post_close c : conserving (post_close_on_loop c).
Proof. intros w a w'. unfold post_close_on_loop. destruct (loop_running w); intros [= <- <-]; (split; [done|]; intros q e; left; by exists e). Qed.
Lemma cs_pop_loopq : conserving pop_loopq.
Proof. intros w a w'. unfold pop_loopq. destruct (loopq w); intros [= <- <-]; (split; [done|]; intros q e; left; by exists e). Qed.
#[export] Hint Resolve cs_fresh cs_post_close cs_pop_loopq : conserve.
Lemma cs_exec k : conserving (exec k).
Proof.
  destruct k; cbn [exec]; unfold goc_chan_make, chan_register, spawn, goc_put, goc_take, goc_put_sync, goc_take_sync, goc_take_try, goc_close,
    begin_park, goc_sync_init, on_close_dispatch, chan_set_on_close, call_on_close,
    goc_take_resume, goc_put_resume, goc_take_sync_resume, goc_put_sync_resume, goc_sync_wait, goc_sync_destroy, post_to_run_queue; conserve.
Qed.

(** ** What channel operations do to callback entries *)

Definition is_cb (w : world) (p : positive) (e : goc_entry) : Prop := ents w !! p = Some e ∧ kind e = GOC_CALLBACK.
Definition plain_cbs (w : world) : Prop := ∀ p e, is_cb w p e → fired e = None.

(** The entries [ps], which waited, were claimed and queued; nothing else changed. *)
Record evolve (ps : list positive) (w w' : world) : Prop := {
  ev_cons : conserves w w';
  ev_keep : ∀ p e, is_cb w p e → ∃ e', ents w' !! p = Some e' ∧ stat e' = stat e ∧ woken e' = woken e || bool_decide (p ∈ ps);
  ev_q : (cbq w').*1 = (cbq w).*1 ++ ps;
  ev_nodup : NoDup ps;
  ev_ps : ∀ p, p ∈ ps → ∃ c s e, p ∈ waiting w c s ∧ is_cb w p e;
  ev_wait : ∀ p e c s, is_cb w p e → p ∈ waiting w' c s ↔ p ∈ waiting w c s ∧ p ∉ ps;
  ev_chan : ∀ c, has_chan w c → has_chan w' c
}.

Lemma cb_live w w' p e n :
  is_cb w p e → fired e = None → ents w' !! p = Some (set_next n e) → live w' p = live w p.
Proof. intros [He _] Hf He'. unfold live, claimable, flag_clear. rewrite He, He'. simpl. by rewrite Hf. Qed.

Lemma evolve_quiet w w' :
  conserves w w' → (∀ p e, is_cb w p e → ∃ n, ents w' !! p = Some (set_next n e)) → cbq w' = cbq w →
  (∀ p e c s, is_cb w p e → p ∈ waiting w' c s ↔ p ∈ waiting w c s) → (∀ c, has_chan w c → has_chan w' c) → evolve [] w w'.
Proof.
  intros Hc Hk Hq Hw Hch. split; try done.
  - intros p e He. destruct (Hk p e He) as (n & Hn). exists (set_next n e). split_and!; [done|done|]. by rewrite orb_false_r.
  - by rewrite Hq, app_nil_r.
  - constructor.
  - intros p Hp. by apply not_elem_of_nil in Hp.
  - intros p e c s He. rewrite (Hw p e c s He). split; [intros ?; split; [done|apply not_elem_of_nil]|by intros [? _]].
Qed.

(** The same lists, the same heap. *)
Lemma evolve_same L w w' :
  world_ok L w → world_ok L w' → ents w' = ents w → flags w' = flags w → cbq w' = cbq w → (next_id w <= next_id w')%positive →
  (∀ c, has_chan w c → has_chan w' c) → evolve [] w w'.
Proof.
  intros Hw Hw' He Hf Hq Hn Hch. apply evolve_quiet; try done.
  - split; [done|]. intros p e. rewrite He. left. by exists e.
  - intros p e [Hp _]. exists (next e). by rewrite He, set_next_id.
  - intros p e c s _. rewrite <- (waiting_ok L w c s Hw), <- (waiting_ok L w' c s Hw'). unfold lv, live. by rewrite He, Hf.
Qed.

Lemma evolve_same_lists w w' :
  ents w' = ents w → flags w' = flags w → cbq w' = cbq w → (next_id w <= next_id w')%positive →
  (∀ c s, linked w' c s = linked w c s) → (∀ c, has_chan w c → has_chan w' c) → evolve [] w w'.
Proof.
  intros He Hf Hq Hn Hl Hch. apply evolve_quiet; try done.
  - split; [done|]. intros p e. rewrite He. left. by exists e.
  - intros p e [Hp _]. exists (next e). by rewrite He, set_next_id.
  - intros p e c s _. unfold waiting, lv, live. by rewrite He, Hf, Hl.
Qed.

Lemma cb_stat w w' p e e' : is_cb w p e → ents w' !! p = Some e' → stat e' = stat e → is_cb w' p e'.
Proof. intros [_ Hk] He' Hs. split; [done|]. unfold stat in Hs. congruence. Qed.

Lemma evolve_after w w1 w2 ps : evolve [] w w1 → evolve ps w1 w2 → evolve ps w w2.
Proof.
  intros [C1 K1 Q1 _ _ W1 H1] [C2 K2 Q2 N2 P2 W2 H2].
  assert (∀ p e1, is_cb w1 p e1 → ∃ e, is_cb w p e) as Hback.
  { intros p e1 [He1 Hk1]. destruct (cs_ents _ _ C1 p e1 He1) as [(e & He & Hs)|[_ ?]]; [|done].
    exists e. split; [done|]. unfold stat in Hs. congruence. }
  assert (∀ p e, is_cb w p e → ∃ e1, is_cb w1 p e1) as Hfwd.
  { intros p e He. destruct (K1 p e He) as (e1 & He1 & Hs & _). exists e1. by eapply cb_stat. }
  split; try done.
  - by eapply conserves_trans.
  - intros p e He. destruct (K1 p e He) as (e1 & He1 & Hs1 & Hw1). destruct (K2 p e1) as (e2 & He2 & Hs2 & Hw2); [by eapply cb_stat|].
    exists e2. split_and!; [done|congruence|]. rewrite Hw2, Hw1. by rewrite orb_false_r.
  - rewrite Q2, Q1. by rewrite app_nil_r.
  - intros p Hp. destruct (P2 p Hp) as (c & s & e1 & Hw & He1). destruct (Hback p e1 He1) as [e He].
    exists c, s, e. split; [|done]. by apply (W1 p e c s He).
  - intros p e c s He. destruct (Hfwd p e He) as [e1 He1]. rewrite (W2 p e1 c s He1), (W1 p e c s He).
    split; [by intros [[? _] ?]|]. intros [? ?]. split; [split; [done|apply not_elem_of_nil]|done].
  - auto.
Qed.

Lemma evolve_match L w w' c s v p rest :
  world_ok L w → plain_cbs w → conserves w w' → waiting w c s = p :: rest → woken_with v p w w' →
  (∀ c', obs_at w' c' = obs_at w c') →
  (∀ c' s', waiting w' c' s' = filter (λ q, live w' q = true) (if decide (c' = c ∧ s' = s) then rest else waiting w c' s')) →
  ∃ ps, evolve ps w w'.
Proof.
  intros Hw Hpl Hc Hl Hww Ho Hwait. destruct (ww_entry _ _ _ _ Hww) as (e & n & He & Hlive & He' & Hq).
  assert (∀ q eq, is_cb w q eq → q ≠ p → ∃ n, ents w' !! q = Some (set_next n eq)) as Hoth.
  { intros q eq [Hqe _] Hne. pose proof (ww_others _ _ _ _ Hww q Hne) as Hx. by rewrite Hqe in Hx. }
  assert (∀ q c' s', q ∈ waiting w c' s' → live w q = true) as Hlv by (intros q c' s' [? _]%list_elem_of_filter; done).
  assert (p ∉ rest) as Hnr.
  { assert (NoDup (waiting w c s)) as Hnd by (rewrite <- (waiting_ok L w c s Hw); apply NoDup_filter, (wo_nodup _ _ Hw)).
    rewrite Hl in Hnd. by apply NoDup_cons in Hnd as [? _]. }
  assert (∀ c' s', p ∈ waiting w c' s' → c' = c ∧ s' = s) as Honly.
  { intros c' s' Hin. rewrite <- (waiting_ok L w c' s' Hw) in Hin. apply list_elem_of_filter in Hin as [_ Hin].
    assert (p ∈ waiting w c s) as Hp by (rewrite Hl; constructor). rewrite <- (waiting_ok L w c s Hw) in Hp.
    apply list_elem_of_filter in Hp as [_ Hp]. by destruct (wo_disj _ _ Hw c' s' c s p Hin Hp). }
  assert (∀ q eq c' s', is_cb w q eq → q ≠ p → q ∈ waiting w' c' s' ↔ q ∈ waiting w c' s') as Hsame.
  { intros q eq c' s' Hcb Hne. destruct (Hoth q eq Hcb Hne) as (m & Hm).
    rewrite Hwait, list_elem_of_filter, (cb_live w w' q eq m Hcb (Hpl q eq Hcb) Hm). split.
    - intros [_ Hin]. case_decide as Hd; [|done]. destruct Hd as [-> ->]. rewrite Hl. by constructor.
    - intros Hin. split; [by eapply Hlv|]. case_decide as Hd; [|done]. destruct Hd as [-> ->]. rewrite Hl in Hin.
      by apply elem_of_cons in Hin as [?|?]. }
  assert (∀ c', has_chan w c' → has_chan w' c') as Hch by (intros c'; by rewrite !has_chan_obs, Ho).
  assert (∀ c' s', p ∉ waiting w' c' s') as Hgone.
  { intros c' s' [Hlp _]%list_elem_of_filter. by destruct (ww_live _ _ _ _ Hww p Hlp). }
  destruct (decide (kind e = GOC_CALLBACK)) as [Hk|Hk].
  - exists [p]. rewrite Hk in Hq. destruct Hq as (_ & Hq & _). split; try done.
    + intros q eq Hcb. destruct (decide (q = p)) as [->|Hne].
      * exists (delivered v (set_next n e)). destruct Hcb as [Hqe _]. assert (eq = e) as -> by congruence. split_and!; [done|done|].
        simpl. rewrite bool_decide_eq_true_2 by constructor. by rewrite orb_true_r.
      * destruct (Hoth q eq Hcb Hne) as (m & Hm). exists (set_next m eq). split_and!; [done|done|].
        rewrite bool_decide_eq_false_2 by (by intros ->%list_elem_of_singleton). by rewrite orb_false_r.
    + by rewrite Hq, fmap_app.
    + apply NoDup_singleton.
    + intros q ->%list_elem_of_singleton. exists c, s, e. split; [rewrite Hl; constructor|done].
    + intros q eq c' s' Hcb. rewrite list_elem_of_singleton. destruct (decide (q = p)) as [->|Hne].
      * split; [by intros ?%Hgone|by intros [_ ?]].
      * rewrite (Hsame q eq c' s' Hcb Hne). tauto.
  - exists []. apply evolve_quiet; try done.
    + intros q eq Hcb. apply (Hoth q eq Hcb). intros ->. destruct Hcb as [Hqe Hkq]. congruence.
    + destruct (kind e); [destruct Hq as (? & _ & ? & _); done|done|by destruct Hq as (_ & ? & _)].
    + intros q eq c' s' Hcb. apply (Hsame q eq c' s' Hcb). intros ->. destruct Hcb as [Hqe Hkq]. congruence.
Qed.

Lemma evolve_tidied w w' :
  conserves w w' → tidied w w' → (∀ c s, waiting w' c s = waiting w c s) → evolve [] w w'.
Proof.
  intros Hc Ht Hw. apply evolve_quiet; [done| |apply Ht| |].
  - intros p e [He _]. by apply (tidied_kept w w').
  - intros p e c s _. by rewrite Hw.
  - intros c. by rewrite !has_chan_obs, (tidied_obs w w').
Qed.

(** A caller that parks under a new entry. *)
Lemma evolve_parks c s k v p w w' :
  conserves w w' → parks c s k v p (linked w) w (linked w') w' → evolve [] w w'.
Proof.
  intros Hc [Pn _ Pl Po Pk _ _ Pq _ _]. apply evolve_quiet; try done.
  - intros q e [He _]. by apply Pk.
  - intros q e c' s' [He _]. unfold waiting. rewrite Pl. case_decide as Hd; [|done]. destruct Hd as [-> ->].
    rewrite elem_of_app, list_elem_of_singleton. split; [|by left]. intros [?| ->]; [done|congruence].
  - intros c'. by rewrite !has_chan_obs, Po.
Qed.

Lemma evolve_ring c o q w w' :
  conserves w w' → obs_at w c = Some o → obs_at w' c = Some (set_oq q o) → (∀ c', c' ≠ c → obs_at w' c' = obs_at w c') →
  (∀ c' s', waiting w' c' s' = waiting w c' s') → kept w w' → cbq w' = cbq w → evolve [] w w'.
Proof.
  intros Hc Ho Ho' Hoth Hw Hk Hq. apply evolve_quiet; try done.
  - intros p e [He _]. by apply Hk.
  - intros p e c' s _. by rewrite Hw.
  - intros c'. by eapply set_oq_has_chan.
Qed.

Lemma put_evolve w w' c ch k v r :
  world_ok (linked w) w → plain_cbs w → conserves w w' → chans w !! c = Some ch →
  put_case (linked w) w c (obs ch) k v r (linked w') w' → ∃ ps, evolve ps w w'.
Proof.
  intros Hw Hpl Hc Hch Hcase. pose proof (obs_at_Some w c ch Hch) as Ho.
  inversion Hcase as [L' w1 Hcl Ht Hlv|L' w1 p rest Hcl Hp Hww Hob Hlv|L' w1 Hcl Hn Hlen Hob Hoth Hlv Hli Hkp Hr Hb Hcg Hlq|L' w1 p Hcl Hn Hlen Hpk]; subst.
  - exists []. by apply evolve_tidied.
  - by eapply (evolve_match (linked w) w w' c Takers v p rest).
  - exists []. by eapply (evolve_ring c).
  - exists []. by eapply evolve_parks.
Qed.
Lemma take_evolve w w' c ch k r :
  world_ok (linked w) w → plain_cbs w → conserves w w' → chans w !! c = Some ch →
  take_case (linked w) w c (obs ch) k r (linked w') w' → ∃ ps, evolve ps w w'.
Proof.
  intros Hw Hpl Hc Hch Hcase. pose proof (obs_at_Some w c ch Hch) as Ho.
  inversion Hcase as [L' w1 v q Hqq Hob Hoth Hlv Hli Hkp Hr Hb Hcg Hlq|L' w1 p e rest Hqq Hp He Hww Hob Hlv|L' w1 Hqq Hn Hcl Ht Hlv|L' w1 p Hqq Hn Hcl Hpk]; subst.
  - exists []. by eapply (evolve_ring c).
  - by eapply (evolve_match (linked w) w w' c Putters 0 p rest).
  - exists []. by apply evolve_tidied.
  - exists []. by eapply evolve_parks.
Qed.

(** *** Closing *)

Lemma callbacks_in cl p : p ∈ (callbacks_of cl).*1 ↔ ∃ e, (p, e) ∈ cl ∧ kind e = GOC_CALLBACK ∧ fired e = None.
Proof.
  induction cl as [|[q eq] cl IH]; simpl; [split; [by intros ?%not_elem_of_nil|by intros (e & ?%not_elem_of_nil & _)]|].
  rewrite fmap_app, elem_of_app, IH. clear IH. split.
  - intros [Hin|(e & Hin & ?)]; [|exists e; split; [by constructor|done]].
    destruct (kind eq) eqn:Hk, (fired eq) eqn:Hf; simpl in Hin; try by apply not_elem_of_nil in Hin.
    apply list_elem_of_singleton in Hin as ->. exists eq. split; [by constructor|done].
  - intros (e & [[= -> ->]|Hin]%elem_of_cons & Hk & Hf); [left; rewrite Hk, Hf; constructor|right; eauto].
Qed.
Lemma callbacks_sub cl : (callbacks_of cl).*1 `sublist_of` cl.*1.
Proof.
  induction cl as [|[q eq] cl IH]; simpl; [done|]. rewrite fmap_app.
  destruct (kind eq), (fired eq); simpl; by constructor.
Qed.

Lemma close_evolve L w0 w' c ch :
  world_ok L w0 → plain_cbs w0 → chans w0 !! c = Some ch → close_guard ch ≠ GOC_CHAN_CLOSING →
  goc_close_internal c w0 = ok (tt, w') → ∃ ps, evolve ps w0 w'.
Proof.
  intros Hw Hpl Hc Hg Hr. destruct (close_internal_ok L w0 c ch Hw Hc Hg) as (w1 & Hr1 & Hw' & Hcw).
  assert (w1 = w') as -> by congruence. set (l := L c Takers ++ L c Putters) in *. set (cl := claims _ _ l) in *.
  assert (∀ p e, (p, e) ∈ cl → p ∈ l ∧ ents w0 !! p = Some e) as Hin by (intros; by apply claims_in in H).
  assert (∀ p s, p ∈ L c s → p ∈ l) as Hl by (intros p [] ?; apply elem_of_app; auto).
  assert (∀ p e, is_cb w0 p e → (∃ s, p ∈ L c s) → live w0 p = true → p ∈ (callbacks_of cl).*1) as Hall.
  { intros p e Hcb (s & Hs) Hlive. apply callbacks_in. exists e. split; [|split; [apply Hcb|by apply (Hpl p)]].
    pose proof (Hpl p e Hcb). destruct Hcb as [He _]. apply claims_complete; [by eapply Hl|done|done|]. unfold live in Hlive. by rewrite He in Hlive. }
  assert (∀ p, p ∈ (callbacks_of cl).*1 → ∃ s e, p ∈ L c s ∧ is_cb w0 p e ∧ live w0 p = true) as Hps.
  { intros p (e & Hp & Hk & _)%callbacks_in. destruct (Hin p e Hp) as [Hpl' He].
    assert (∃ s, p ∈ L c s) as [s Hs] by (apply elem_of_app in Hpl' as [?|?]; eauto). exists s, e. split_and!; [done|done|].
    pose proof (wo_wait _ _ Hw c s p e Hs He (Hpl p e (conj He Hk))) as Hcl. unfold live. by rewrite He. }
  pose proof Hcw as [Cc Co Ccl Crest _ _ Cq _ _ _ _]. exists (callbacks_of cl).*1.
  assert (∀ p e, is_cb w0 p e → p ∉ (callbacks_of cl).*1 → ∃ n, ents w' !! p = Some (set_next n e)) as Hrest.
  { intros p e Hcb Hnp. specialize (Crest p). simpl in Crest. rewrite (proj1 Hcb) in Crest. apply Crest.
    intros ([q eq] & -> & Hq)%list_elem_of_fmap. apply Hnp, callbacks_in. exists eq. destruct (Hin q eq Hq) as [_ Heq].
    assert (eq = e) as -> by (destruct Hcb; simpl in *; congruence). split; [done|split; [apply Hcb|by eapply Hpl]]. }
  split.
  - by eapply cs_close_internal.
  - intros p e Hcb. case_bool_decide as Hp.
    + apply callbacks_in in Hp as (e' & Hp & _). destruct (Ccl p e' Hp) as (n & Hn). destruct (Hin p e' Hp) as [_ He'].
      assert (e' = e) as -> by (destruct Hcb; congruence). eexists. split; [exact Hn|]. split; [done|]. simpl. by rewrite orb_true_r.
    + destruct (Hrest p e Hcb Hp) as (n & Hn). exists (set_next n e). split_and!; [done|done|]. by rewrite orb_false_r.
  - rewrite Cq. simpl. by rewrite fmap_app.
  - eapply sublist_NoDup; [|apply callbacks_sub]. eapply sublist_NoDup; [|apply claims_keys]. apply NoDup_app.
    split_and!; [apply (wo_nodup _ _ Hw)| |apply (wo_nodup _ _ Hw)]. intros p Hp Hp'. by destruct (wo_disj _ _ Hw c Takers c Putters p Hp Hp').
  - intros p Hp. destruct (Hps p Hp) as (s & e & Hs & Hcb & Hlive). exists c, s, e. split; [|done].
    rewrite <- (waiting_ok L w0 c s Hw). by apply list_elem_of_filter.
  - intros p e c' s Hcb. rewrite <- (waiting_ok L w0 c' s Hw), <- (waiting_ok _ w' c' s Hw'). unfold lv.
    rewrite !list_elem_of_filter. unfold no_waiters, relist. case_decide as Hd.
    + subst c'. split; [by intros [_ ?%not_elem_of_nil]|]. intros [[Hlive Hs] Hnp]. by destruct Hnp; eapply Hall; eauto.
    + split.
      * intros [Hlive Hs]. assert (p ∉ (callbacks_of cl).*1) as Hnp.
        { intros Hp. destruct (Hps p Hp) as (s' & _ & Hs' & _). by destruct (wo_disj _ _ Hw c' s c s' p Hs Hs'). }
        destruct (Hrest p e Hcb Hnp) as (n & Hn). by rewrite (cb_live w0 w' p e n Hcb (Hpl p e Hcb) Hn) in Hlive.
      * intros [[Hlive Hs] Hnp]. split; [|done]. destruct (Hrest p e Hcb Hnp) as (n & Hn). by rewrite (cb_live w0 w' p e n Hcb (Hpl p e Hcb) Hn).
  - intros c' Hc'. unfold has_chan. destruct (decide (c' = c)) as [->|Hne]; [rewrite Cc; eauto|]. rewrite Co by done.
    simpl. by rewrite lookup_insert_ne.
Qed.

(** *** Every call *)

Lemma evolve_free L w w' p :
  world_ok L w → world_ok L w' → conserves w w' → ents w' = delete p (ents w) → (∀ e, ¬ is_cb w p e) →
  flags w' = flags w → cbq w' = cbq w → chans w' = chans w → evolve [] w w'.
Proof.
  intros Hw Hw' Hc He Hp Hf Hq Hch.
  assert (∀ q e, is_cb w q e → ents w' !! q = Some e) as Hkeep.
  { intros q e Hcb. rewrite He, lookup_delete_ne; [apply Hcb|]. intros <-. by destruct (Hp e). }
  apply evolve_quiet; try done.
  - intros q e Hcb. exists (next e). rewrite set_next_id. by apply Hkeep.
  - intros q e c s Hcb. rewrite <- (waiting_ok L w c s Hw), <- (waiting_ok L w' c s Hw'). unfold lv. rewrite !list_elem_of_filter.
    unfold live. by rewrite (Hkeep q e Hcb), (proj1 Hcb), Hf.
  - intros c. unfold has_chan. by rewrite Hch.
Qed.

Lemma set_guard_evolve L w c ch g :
  world_ok L w → chans w !! c = Some ch → evolve [] w (set_chans (<[c := set_guard g ch]>) w).
Proof.
  intros Hw Hc. eapply (evolve_same L); try done; [by apply guard_ok|].
  intros c' Hc'. unfold has_chan. simpl. rewrite lookup_insert. case_decide; [eauto|done].
Qed.

Lemma resume_evolve w i p r w' k :
  k = CTakeResume i p ∨ k = CPutResume i p → inv true (linked w) w → enabled w k → exec k w = ok (r, w') → evolve [] w w'.
Proof.
  intros Hk Hi He Hr. assert (enabled w (CTakeResume i p)) as [(t & Hin) (e & Hp & Hf & Hwk & Hkind & <-)] by (by destruct Hk as [-> | ->]).
  pose proof (iv_world _ _ _ Hi) as Hw. destruct (eo_fiber _ _ (wo_ent _ _ Hw p e Hp) Hkind) as [f Hfb].
  destruct (goc_take_resume_ok _ w (coro e) p e t f Hw Hin Hfb Hp Hf Hwk) as (w1 & Ht & Hpr & Hw' & Heq).
  assert (w1 = w') as ->.
  { destruct Hk as [-> | ->]; unfold exec in Hr; (erewrite prog_bind_ok in Hr by done);
      [erewrite prog_bind_ok in Hr by exact Ht|erewrite prog_bind_ok in Hr by exact Hpr]; by injection Hr. }
  eapply (evolve_free (linked w) w w' p); try done; try (by rewrite Heq); [by eapply cs_exec|].
  intros e' [He' Hk']. assert (e' = e) as -> by congruence. congruence.
Qed.
Lemma sync_resume_evolve w p r w' k :
  k = CTakeSyncResume p ∨ k = CPutSyncResume p → inv true (linked w) w → enabled w k → exec k w = ok (r, w') → evolve [] w w'.
Proof.
  intros Hk Hi He Hr. assert (enabled w (CTakeSyncResume p)) as (e & Hp & Hf & Hwk & Hkind & Hs) by (by destruct Hk as [-> | ->]).
  pose proof (iv_world _ _ _ Hi) as Hw.
  destruct (goc_take_sync_resume_ok _ w p e Hw Hp Hkind Hf Hwk Hs) as (w1 & Ht & Hpr & Hw' & Heq).
  assert (w1 = w') as ->.
  { destruct Hk as [-> | ->]; unfold exec in Hr; [erewrite prog_bind_ok in Hr by exact Ht|erewrite prog_bind_ok in Hr by exact Hpr]; by injection Hr. }
  eapply (evolve_free (linked w) w w' p); try done; try (by rewrite Heq); [by eapply cs_exec|].
  intros e' [He' Hk']. assert (e' = e) as -> by congruence. congruence.
Qed.

Lemma close_call_evolve w cx c r w' :
  inv true (linked w) w → plain_cbs w → enabled w (CClose cx c) → exec (CClose cx c) w = ok (r, w') → ∃ ps, evolve ps w w'.
Proof.
  intros Hi Hpl [Hrun Hc] (u & w1 & Hr & [= <- <-])%prog_bind_inv. pose proof (iv_world _ _ _ Hi) as Hw.
  assert (evolve [] w w) as Hid by (by eapply (evolve_same (linked w))).
  unfold goc_close in Hr. destruct c as [c|]; [|assert (w = w1) as <- by (by injection Hr); by exists []]. simpl in Hc. destruct Hc as [ch Hc].
  erewrite prog_bind_ok in Hr by (by apply get_chan_ok). destruct (close_guard ch) eqn:Hg; [|assert (w = w1) as <- by (by injection Hr); by exists []..].
  erewrite prog_bind_ok in Hr by (by apply upd_chan_ok).
  pose proof (set_guard_evolve (linked w) w c ch GOC_CHAN_CLOSE_REQUESTED Hw Hc) as Hev.
  pose proof (guard_ok (linked w) w c ch GOC_CHAN_CLOSE_REQUESTED Hw Hc) as Hw2. set (w2 := set_chans _ w) in *.
  assert (∀ x, (posted ← post_close_on_loop c; if posted : bool then mret tt else ABORT "goc_close: failed to dispatch on loop") w2 = ok x →
     evolve [] w2 x.2) as Hpost.
  { intros x. unfold mbind, prog_bind, post_close_on_loop. change (loop_running w2) with (loop_running w). rewrite Hrun. intros [= <-].
    eapply (evolve_same (linked w)); try done. exact (with_loopq_ok (linked w) w2 (loopq w2 ++ [c]) Hw2). }
  destruct cx; [exists []; eapply evolve_after; [exact Hev|by apply (Hpost (u, w1))]| |exists []; eapply evolve_after; [exact Hev|by apply (Hpost (u, w1))]].
  destruct u. destruct (close_evolve (linked w) w2 w1 c (set_guard GOC_CHAN_CLOSE_REQUESTED ch) Hw2) as [ps Hps]; try done; [apply lookup_insert_eq|].
  exists ps. by eapply evolve_after.
Qed.

Lemma dispatch_evolve w r w' :
  inv true (linked w) w → plain_cbs w → exec CDispatch w = ok (r, w') → ∃ ps, evolve ps w w'.
Proof.
  intros Hi Hpl Hr. pose proof (iv_world _ _ _ Hi) as Hw. unfold exec, pop_loopq, mbind, prog_bind in Hr.
  destruct (loopq w) as [|c q] eqn:Hq; [injection Hr as <- <-; exists []; by eapply (evolve_same (linked w))|].
  fold (with_loopq q w) in Hr. pose proof (with_loopq_ok (linked w) w q Hw) as Hw1.
  assert (evolve [] w (with_loopq q w)) as Hev by (by eapply (evolve_same (linked w))).
  destruct (iv_loopq _ _ _ Hi c) as [ch Hc]; [rewrite Hq; constructor|].
  unfold on_close_dispatch in Hr. erewrite prog_bind_ok in Hr by (by apply get_chan_ok).
  destruct (decide (close_guard ch = GOC_CHAN_CLOSING)) as [Hg|Hg]; [rewrite Hg in Hr; injection Hr as <- <-; by exists []|].
  assert (∃ u, goc_close_internal c (with_loopq q w) = ok (u, w')) as [[] Hcl].
  { destruct (close_guard ch); [..|done]; destruct (goc_close_internal c (with_loopq q w)) as [[u w1]| | |]; try done; injection Hr as <- <-; eauto. }
  destruct (close_evolve (linked w) (with_loopq q w) w' c ch Hw1) as [ps Hps]; try done. exists ps. by eapply evolve_after.
Qed.

Lemma step_evolve w k r w' :
  inv true (linked w) w → plain_cbs w → enabled w k → exec k w = ok (r, w') →
  inv true (linked w') w' ∧ ∃ ps, evolve ps w w'.
Proof.
  intros Hi Hpl He Hr. destruct (step_inv true _ w k Hi He) as (r1 & w1 & L1 & Hr1 & Hi1 & _).
  assert (w1 = w' ∧ r1 = r) as [-> ->] by (split; congruence). pose proof (inv_linked _ _ _ Hi1) as Hi'. split; [done|].
  pose proof (cs_exec k w r w' Hr) as Hcs. pose proof (iv_world _ _ _ Hi) as Hw. pose proof (iv_world _ _ _ Hi') as Hw'.
  assert (∀ A B (m : prog world A) (f : A → B) x, (a ← m; mret (f a)) w = ok (x, w') → ∃ a, m w = ok (a, w')) as Hinv.
  { intros A B m f x (a & w2 & Hm & [= _ <-])%prog_bind_inv. eauto. }
  assert (∀ o L2, world_ok L2 w' → ∀ c ch k v, chans w !! c = Some ch → put_case (linked w) w c (obs ch) k v o L2 w' → ∃ ps, evolve ps w w') as Hput.
  { intros o L2 HL2 c ch k' v Hch Hcase. eapply put_evolve; [done..|]. eapply put_case_ext; [| |exact Hcase]; done. }
  assert (∀ o L2, world_ok L2 w' → ∀ c ch k, chans w !! c = Some ch → take_case (linked w) w c (obs ch) k o L2 w' → ∃ ps, evolve ps w w') as Htake.
  { intros o L2 HL2 c ch k' Hch Hcase. eapply take_evolve; [done..|]. eapply take_case_ext; [| |exact Hcase]; done. }
  destruct k; simpl in He.
  - apply prog_bind_inv in Hr as (c & w2 & Hm & [= <- <-]). injection Hm as <- <-.
    exists []. destruct (make_ok true (linked w) w n Hi He) as (w3 & Hm & Hi3 & _). injection Hm as <-.
    eapply (evolve_same (linked w)); try done; [apply Hi3|simpl; lia|].
    intros c' [ch' Hc']. unfold has_chan. simpl. rewrite lookup_insert. case_decide; eauto.
  - injection Hr as <- <-. exists []. eapply (evolve_same (linked w)); try done.
  - destruct He as [[ch Hc] (f & Hf & Hp)].
    destruct (goc_put_ok _ w c ch i f worker v Hw Hc Hf Hp) as (o & w2 & L' & Hx & HL' & Hcase).
    apply Hinv in Hr as [a Ha]. assert (w2 = w') as -> by congruence. by eapply Hput.
  - destruct He as [[ch Hc] (f & Hf & Hp)].
    destruct (goc_take_ok _ w c ch i f worker Hw Hc Hf Hp) as (o & w2 & L' & Hx & HL' & Hcase).
    apply Hinv in Hr as [a Ha]. assert (w2 = w') as -> by congruence. by eapply Htake.
  - destruct He as [ch Hc].
    destruct (goc_put_sync_ok _ w c ch OnThread v Hw Hc) as (o & w2 & L' & Hx & HL' & Hcase); [done|].
    apply Hinv in Hr as [a Ha]. assert (w2 = w') as -> by congruence. by eapply Hput.
  - destruct He as [ch Hc].
    destruct (goc_take_sync_ok _ w c ch OnThread Hw Hc) as (o & w2 & L' & Hx & HL' & Hcase); [done|].
    apply Hinv in Hr as [a Ha]. assert (w2 = w') as -> by congruence. by eapply Htake.
  - destruct He as [ch Hc].
    destruct (goc_take_try_ok _ w c ch Hw Hc) as (o & w2 & L' & Hx & HL' & Hcase).
    apply Hinv in Hr as [a Ha]. assert (w2 = w') as -> by congruence.
    destruct Hcase as [(v & -> & Hcase)|(-> & _ & _ & Ht & Hlv)]; [by eapply Htake|].
    exists []. apply evolve_tidied; [done..|]. intros c' s. rewrite <- (waiting_ok L' w' c' s HL'). apply Hlv.
  - by eapply close_call_evolve.
  - by eapply dispatch_evolve.
  - destruct He as [ch Hc]. apply prog_bind_inv in Hr as (u & w2 & Hr & [= <- <-]). exists [].
    unfold chan_set_on_close in Hr. erewrite prog_bind_ok in Hr by (by apply get_chan_ok).
    destruct (closed ch); [destruct f as [f|]; injection Hr as <- <-; by apply evolve_same_lists|].
    erewrite upd_chan_ok in Hr by done. injection Hr as <- <-. apply evolve_same_lists; try done.
    + intros c' s. unfold linked. simpl. rewrite lookup_insert. case_decide; [subst; rewrite Hc; by destruct s|done].
    + intros c' Hc'. unfold has_chan. simpl. rewrite lookup_insert. case_decide; [eauto|done].
  - exists []. by eapply resume_evolve; [left| | |].
  - exists []. by eapply resume_evolve; [right| | |].
  - exists []. by eapply sync_resume_evolve; [left| | |].
  - exists []. by eapply sync_resume_evolve; [right| | |].
Qed.

(** ** The loop thread's side

    The two functions without their entry: [k] completes the call, with the claimed fiber
    if there is one, and [park] links the entry. *)

Definition put_core {A} (c : positive) (v : Z) (k : option claim → goc_status → prog world A) (park : prog world A) : prog world A :=
  maybe_compact c;;
  ch ← get_chan c;
  if closed ch then k None GOC_CLOSED
  else
    r ← chan_put_to_taker_claim c v;
    match r with
    | Some (fe, want) => k (Some (fe, want)) GOC_OK
    | None => b ← chan_put_to_buffer c v; if b : bool then k None GOC_OK else park
    end.
Definition take_core {A} (c : positive) (k : option claim → Z → goc_status → prog world A) (park : prog world A) : prog world A :=
  maybe_compact c;;
  b ← chan_take_from_buffer c;
  match b with
  | Some v => k None v GOC_OK
  | None =>
      r ← chan_take_from_putter_claim c;
      match r with
      | Some (v, (fe, want)) => k (Some (fe, want)) v GOC_OK
      | None => ch ← get_chan c; if closed ch then k None 0 GOC_CLOSED else park
      end
  end.

Lemma spin_ok i f w :
  fibers w !! i = Some f → parked f = 3 ∨ parked f = 4 →
  spin_parked 2 i 4 w = ok (tt, set_fibers (<[i := mk_fiber 4 (fhome f) (fpool f)]>) w).
Proof.
  intros Hf Hp. cbn [spin_parked]. erewrite prog_bind_ok by (by apply get_fiber_ok). destruct Hp as [Hp|Hp]; rewrite Hp; simpl.
  - assert (yield_gate i w = ok (tt, set_fibers (<[i := mk_fiber 4 (fhome f) (fpool f)]>) w)) as Hg.
    { unfold yield_gate, set_parked. erewrite prog_bind_ok by (by apply get_fiber_ok). rewrite Hp. simpl.
      by erewrite prog_bind_ok by (by apply get_fiber_ok). }
    erewrite prog_bind_ok by exact Hg.
    erewrite prog_bind_ok by (apply (get_fiber_ok _ _ (mk_fiber 4 (fhome f) (fpool f))); simpl; by rewrite lookup_insert_eq). done.
  - unfold set_fibers. rewrite insert_id; [by destruct w|]. rewrite Hf. f_equal. destruct f; simpl in *. by subst.
Qed.

Lemma post_fiber_ok L w p e v f :
  world_ok L w → ents w !! p = Some e → claimable (flags w) e = true →
  post_claimed_fiber (claim_of e) (want_of e) (set_chans f (claim_eff v p e w)) =
    ok (tt, set_chans f (notified p e v (if claim_of e is Some _ then home_of_entry e w else None) (marked p e (delivered v e) w))).
Proof.
  intros Hw He Hcl. unfold post_claimed_fiber, claim_eff, claim_notified, claim_of. simpl.
  pose proof (wo_ent _ _ Hw p e He) as [_ _ Hpark _ _]. destruct (kind e) eqn:Hk; [|done..].
  destruct (Hpark eq_refl Hcl) as (Hg & fb & Hf & Hp). rewrite want_of_gen1 by done.
  erewrite prog_bind_ok by (apply spin_ok; [exact Hf|done]).
  rewrite (post_home_ok _ (mk_fiber 4 (fhome fb) (fpool fb)) _) by (simpl; by rewrite lookup_insert_eq).
  unfold notified, home_of_entry. rewrite Hk, Hf, (posted_parts _ _ _ fb); done.
Qed.

(** Posting a fiber does not look at the entries. *)
Definition entryless {A} (m : prog world A) : Prop :=
  ∀ h w a w', m w = ok (a, w') → m (set_ents h w) = ok (a, set_ents h w').
Lemma el_bind {A B} (m : prog world A) (f : A → prog world B) : entryless m → (∀ a, entryless (f a)) → entryless (m ≫= f).
Proof. intros Hm Hf h w b w' (a & w1 & H1 & H2)%prog_bind_inv. erewrite prog_bind_ok by (by apply Hm). by apply Hf. Qed.
Lemma el_ret {A} (a : A) : entryless (mret a).
Proof. by intros h w b w' [= <- <-]. Qed.
Lemma el_get_fiber i : entryless (get_fiber i).
Proof. intros h w a w'. unfold get_fiber, of_option. simpl. destruct (fibers w !! i); [|done]. by intros [= <- <-]. Qed.
Lemma el_set_parked i v : entryless (set_parked i v).
Proof. apply el_bind; [apply el_get_fiber|]. by intros f h w a w' [= <- <-]. Qed.
Lemma el_post fe want : entryless (post_claimed_fiber fe want).
Proof.
  destruct fe as [i|]; [|apply el_ret]. apply el_bind.
  - generalize 2%nat. intros n. induction n as [|n IH]; [by intros h w a w'|]. cbn [spin_parked]. apply el_bind; [apply el_get_fiber|].
    intros f. destruct (parked f =? want); [apply el_ret|]. apply el_bind; [|done]. apply el_bind; [apply el_get_fiber|].
    intros f'. destruct (Z.odd (parked f')); [apply el_set_parked|apply el_ret].
  - intros _. apply el_bind; [apply el_get_fiber|]. intros f. destruct (fpool f) as [n|]; [destruct (_ && _)|]; by intros h w a w' [= <- <-].
Qed.

(** *** The cores *)

(** The worlds before and after the claimed fiber, if any, is posted. *)
Definition posts (cl : option claim) (w1 w' : world) : Prop :=
  match cl with
  | Some (fe, want) => post_claimed_fiber fe want w1 = ok (tt, w') ∧ ents w1 = ents w'
  | None => w1 = w'
  end.

Lemma put_core_ok {A} L w c ch v (k : option claim → goc_status → prog world A) park :
  world_ok L w → chans w !! c = Some ch →
  (∃ cl s w1 w' L', put_core c v k park w = k cl s w1 ∧ posts cl w1 w' ∧ world_ok L' w' ∧ put_case L w c (obs ch) GOC_CALLBACK v (Ret s) L' w') ∨
  (∃ w' L' ch', put_core c v k park w = park w' ∧ world_ok L' w' ∧ tidied w w' ∧ (∀ c' s, lv L' w' c' s = lv L w c' s) ∧
     chans w' !! c = Some ch' ∧ closed ch' = false ∧ closed ch = false ∧ lv L w c Takers = [] ∧ Z.of_nat (length (ring ch)) = buf_size ch).
Proof.
  intros Hw Hc. unfold put_core. destruct (maybe_compact_ok L w c ch Hw Hc) as (w0 & L0 & H1 & Hw0 & Ht & Hlv).
  erewrite prog_bind_ok by exact H1. destruct (tidied_chan _ _ c ch Ht Hc) as (a1 & a2 & a3 & a4 & a5 & Hc0).
  set (ch0 := set_dead _ _) in Hc0. erewrite prog_bind_ok by (by apply get_chan_ok).
  change (closed ch0) with (closed ch). change (obs ch) with (obs ch0).
  destruct (closed ch) eqn:Hcl.
  { left. eexists None, GOC_CLOSED, w0, w0, L0. split_and!; [done..|]. by apply put_closed. }
  destruct (scan_ok c _ _ _ (put_claim_attempt c v) Takers ch0 L0 w0 Hw0 Hc0)
    as [[Hd (d & Hr)]|(l1 & p & e & l2 & d & tl & HL & Hd & He & Hcl' & Htl & Hr)].
  - erewrite prog_bind_ok by exact Hr.
    pose proof (scan_none_case L0 w0 c ch0 Takers v (λ _, tt) d Hw0 Hc0 Hd) as Hm.
    set (w1 := set_chans _ w0) in *. set (ch1 := trimmed Takers None None d ch0) in *.
    assert (Hc1 : chans w1 !! c = Some ch1) by apply lookup_insert_eq. clearbody w1.
    inversion Hm as [L1 w1' Hn Hw1 Ht1 Hlv1|]; subst w1'.
    pose proof (co_ring _ _ _ (wo_chan _ _ Hw1 c ch1 Hc1)) as Hring. pose proof Hring as [_ _ _ Hcnt _]. pose proof (ring_length ch1) as Hlen.
    destruct (decide (buf_count ch1 < buf_size ch1)) as [Hlt|Hge].
    + destruct (put_to_buffer_ok c v w1 ch1 Hc1 Hring Hlt) as (b & Hb & Hring' & Hq).
      erewrite prog_bind_ok by exact Hb. left. eexists None, GOC_OK, _, _, L1. split_and!; [done|done|by eapply world_ok_same_lists; try done; intros []|].
      eapply put_case_tidied; [exact Ht|exact Hlv|]. eapply put_case_tidied; [exact Ht1|exact Hlv1|]. apply put_buffered; try done; simpl; [| | | |by apply kept_refl].
      * rewrite Hlv1. exact Hn.
      * change (Z.of_nat (length (ring ch1)) < buf_size ch1). lia.
      * unfold obs_at. simpl. rewrite lookup_insert_eq. unfold obs, set_oq. simpl. do 2 f_equal. exact Hq.
      * intros c' Hc'. unfold obs_at. simpl. by rewrite lookup_insert_ne.
    + erewrite prog_bind_ok by (eapply put_to_buffer_full; [done|lia]). right. exists w1, L1, ch1.
      split_and!; try done; [by eapply tidied_trans|by intros; rewrite Hlv1, Hlv|by rewrite <- Hlv|].
      change (Z.of_nat (length (ring ch1)) = buf_size ch1). lia.
  - erewrite prog_bind_ok by exact Hr. left.
    pose proof (scan_some_case L0 w0 c ch0 Takers v (λ _, tt) l1 p e l2 tl d
      (if claim_of e is Some _ then home_of_entry e w0 else None) Hw0 Hc0 HL Hd He Hcl' Htl) as Hm.
    inversion Hm as [|L1 w1 p1 e1 rest Hl1 He1 Hw1 Hww Htidy Hlv1]; subst.
    eexists (Some (claim_of e, want_of e)), GOC_OK, _, _, L1. split_and!; [done|split; [by eapply post_fiber_ok|]|done|].
    + simpl. unfold claim_eff, claim_notified, notified, posted. simpl. repeat case_match; done.
    + eapply put_case_tidied; [exact Ht|exact Hlv|]. eapply put_to_waiter; try done. intros c'. by apply chans_tidy_obs.
Qed.

Lemma take_core_ok {A} L w c ch (k : option claim → Z → goc_status → prog world A) park :
  world_ok L w → chans w !! c = Some ch →
  (∃ cl v s w1 w' L', take_core c k park w = k cl v s w1 ∧ posts cl w1 w' ∧ world_ok L' w' ∧ take_case L w c (obs ch) GOC_CALLBACK (Ret (v, s)) L' w') ∨
  (∃ w' L' ch', take_core c k park w = park w' ∧ world_ok L' w' ∧ tidied w w' ∧ (∀ c' s, lv L' w' c' s = lv L w c' s) ∧
     chans w' !! c = Some ch' ∧ closed ch' = false ∧ closed ch = false ∧ ring ch = [] ∧ lv L w c Putters = []).
Proof.
  intros Hw Hc. unfold take_core. destruct (maybe_compact_ok L w c ch Hw Hc) as (w0 & L0 & H1 & Hw0 & Ht & Hlv).
  erewrite prog_bind_ok by exact H1. destruct (tidied_chan _ _ c ch Ht Hc) as (a1 & a2 & a3 & a4 & a5 & Hc0).
  set (ch0 := set_dead _ _) in Hc0. change (obs ch) with (obs ch0). change (closed ch) with (closed ch0). change (ring ch) with (ring ch0).
  destruct (decide (0 < buf_count ch0)) as [Hn|Hn].
  { destruct (take_buffer_case L0 w0 c ch0 GOC_CALLBACK Hw0 Hc0 Hn) as (v & w' & Hr & Hw' & Hcase).
    erewrite prog_bind_ok by exact Hr. left. exists None, v, GOC_OK, w', w', L0. split_and!; [done..|]. by eapply take_case_tidied. }
  destruct (empty_ring ch0 (co_ring _ _ _ (wo_chan _ _ Hw0 c ch0 Hc0)) Hn) as [Hcnt Hq].
  erewrite prog_bind_ok by (by eapply take_from_buffer_empty).
  destruct (scan_ok c _ _ _ (take_claim_attempt c) Putters ch0 L0 w0 Hw0 Hc0)
    as [[Hd (d & Hr)]|(l1 & p & e & l2 & d & tl & HL & Hd & He & Hcl' & Htl & Hr)].
  - erewrite prog_bind_ok by exact Hr.
    pose proof (scan_none_case L0 w0 c ch0 Putters 0 put_val d Hw0 Hc0 Hd) as Hm.
    set (w1 := set_chans _ w0) in *. set (ch1 := trimmed Putters None None d ch0) in *.
    assert (Hc1 : chans w1 !! c = Some ch1) by apply lookup_insert_eq. clearbody w1.
    inversion Hm as [L1 w1' Hnl Hw1 Ht1 Hlv1|]; subst w1'.
    erewrite prog_bind_ok by (by apply get_chan_ok). change (closed ch1) with (closed ch0). destruct (closed ch0) eqn:Hcl.
    + left. eexists None, 0, GOC_CLOSED, w1, w1, L1. split_and!; [done..|]. eapply take_case_tidied; [exact Ht|exact Hlv|].
      by apply take_closed.
    + right. exists w1, L1, ch1. split_and!; try done; [by eapply tidied_trans|by intros; rewrite Hlv1, Hlv|by rewrite <- Hlv].
  - erewrite prog_bind_ok by exact Hr. left.
    pose proof (scan_some_case L0 w0 c ch0 Putters 0 put_val l1 p e l2 tl d
      (if claim_of e is Some _ then home_of_entry e w0 else None) Hw0 Hc0 HL Hd He Hcl' Htl) as Hm.
    inversion Hm as [|L1 w1 p1 e1 rest Hl1 He1 Hw1 Hww Htidy Hlv1 Hret]; subst.
    eexists (Some (claim_of e, want_of e)), (put_val e1), GOC_OK, _, _, L1. split_and!; [done|split; [by eapply post_fiber_ok|]|done|].
    + simpl. unfold claim_eff, claim_notified, notified, posted. simpl. repeat case_match; done.
    + eapply take_case_tidied; [exact Ht|exact Hlv|]. eapply take_from_waiter; try done; intros c'. by apply chans_tidy_obs.
Qed.

(** Fields that no invariant of the channels looks at. *)
Definition outline (e : goc_entry) :=
  (kind e, cancelled e, woken e, fired e, next e, (coro e, sync_sem_ptr e), parked_gen e, free_on_drain e).
Lemma world_ok_touch L w p e e' :
  world_ok L w → ents w !! p = Some e → outline e' = outline e → world_ok L (set_ents (<[p := e']>) w).
Proof.
  intros Hw He Ho. unfold outline in Ho. injection Ho as Hk Hca Hwk Hf Hn Hco Hsy Hg Hd.
  assert (∀ q eq, <[p := e']> (ents w) !! q = Some eq → ∃ e0, ents w !! q = Some e0 ∧ outline eq = outline e0) as Hback.
  { intros q eq. rewrite lookup_insert. case_decide; [|eauto]. intros [= <-]. subst. exists e. split; [done|]. unfold outline. congruence. }
  assert (∀ eq e0, outline eq = outline e0 → claimable (flags w) eq = claimable (flags w) e0) as Hcl.
  { intros eq e0 Heq. unfold outline in Heq. unfold claimable, flag_clear. injection Heq as _ -> -> -> _ _ _ _ _. done. }
  pose proof Hw as [H1 H2 H3 H4 H5 H6 H7 H8 H9 Hsu Hso H10 H11 H12 H13 Hsel]. split; simpl; try done.
  - intros c ch Hc. destruct (H1 c ch Hc) as [? Hcn ? ?]. split; try done. intros s. eapply chain_ext; [|apply Hcn].
    by eapply same_next_insert.
  - intros q eq Hq. destruct (Hback q eq Hq) as (e0 & He0 & Heq). destruct (H5 q e0 He0) as [E1 E2 E3 E4 E5].
    pose proof (Hcl eq e0 Heq) as Hc. unfold outline in Heq. injection Heq as Q1 Q2 Q3 Q4 Q5 Q6 Q7 Q8 Q9.
    split; simpl; rewrite ?Q1, ?Q2, ?Q3, ?Q4, ?Q6, ?Q7, ?Q8, ?Q9, ?Hc; try done. unfold flags_ok in *. rewrite ?Q3, ?Q4. done.
  - intros c s q eq Hq Hqe. destruct (Hback q eq Hqe) as (e0 & He0 & Heq). rewrite (Hcl eq e0 Heq). intros Hfq. apply (H6 c s q e0 Hq He0).
    unfold outline in Heq. congruence.
  - intros i t Hi. destruct (H7 i t Hi) as [? Hq]. split; [done|]. intros q eq Hqe Hkq Hcq. destruct (Hback q eq Hqe) as (e0 & He0 & Heq).
    simpl. rewrite (Hcl eq e0 Heq). unfold outline in Heq. apply (Hq q e0 He0); congruence.
  - intros q q' eq eq' Hq Hq' ? ? ? C1 C2. destruct (Hback q eq Hq) as (e0 & He0 & Heq), (Hback q' eq' Hq') as (e0' & He0' & Heq').
    rewrite (Hcl eq e0 Heq) in C1. rewrite (Hcl eq' e0' Heq') in C2. unfold outline in *.
    destruct (H9 q q' e0 e0' He0 He0') as [->|[? ?]]; try congruence; [by left|]. right. split; [|congruence]. by replace (fired eq) with (fired e0) by congruence.
  - intros q q' eq eq' Hq Hq' ? ? ?. destruct (Hback q eq Hq) as (e0 & He0 & Heq), (Hback q' eq' Hq') as (e0' & He0' & Heq').
    unfold outline in *. destruct (Hsu q q' e0 e0' He0 He0') as [->|[? ?]]; try congruence; [by left|]. right.
    split; [|congruence]. by replace (fired eq) with (fired e0) by congruence.
  - intros q eq Hq Hkq. destruct (Hback q eq Hq) as (e0 & He0 & Heq). unfold outline in Heq.
    replace (sync_sem_ptr eq) with (sync_sem_ptr e0) by congruence. apply (Hso q e0 He0). congruence.
  - intros q [eq Hq]. destruct (Hback q eq Hq) as (e0 & He0 & _). eauto.
  - eapply select_ok_ext; [..|exact Hsel].
    + intros q e0 Hq _. destruct (decide (q = p)) as [->|Hne]; [|exists e0; by rewrite lookup_insert_ne].
      exists e'. rewrite lookup_insert_eq. assert (e0 = e) as -> by congruence. done.
    + intros q eq Hq Hwq _. destruct (Hback q eq Hq) as (e0 & He0 & Heq). exists e0. unfold outline in Heq. split_and!; [done|congruence|congruence].
Qed.

End ChanCbOps.
