(* ===== verification/ChanCbProps.v ===== *)
(** Theorems on callback puts and takes: every accepted call is queued, waiting on its
    channel or completed, and completed once; what its callback is called with. *)

From S2P Require Import Prelude Chan ChanInv ChanOps ChanClose ChanProps ChanCb ChanCbOps.

Module ChanCbProps.
Import Chan ChanInv ChanOps ChanClose ChanProps ChanCb ChanCbOps.

(** ** States and calls *)

(** A world with the entries that the callback queue accepted, oldest first, and those that
    were freed, with the callback each was given. *)
Record cbstate := mk_cb { cw : world; accepted : list positive; completed : list (positive * option event) }.

Inductive cbcall :=
| CChan (k : call)
| CTakeCb (c : positive)
| CPutCb (c : positive) (v : Z) (has_cb : bool)
| CDrain.

Definition add_if (b : bool) (p : positive) (l : list positive) : list positive := if b then l ++ [p] else l.

(** The entry at the head of the queue, if it is gone from [w']. *)
Definition freed (w w' : world) (ev : option event) : list (positive * option event) :=
  match cbq w with
  | (p, _) :: _ => match ents w' !! p with Some _ => [] | None => [(p, ev)] end
  | [] => []
  end.

Definition cb_exec (k : cbcall) (s : cbstate) : res cbstate :=
  match k with
  | CChan k => '(_, w) ← exec k (cw s); ok (mk_cb w (accepted s) (completed s))
  | CTakeCb c => '(b, w) ← goc_take_cb c (cw s); ok (mk_cb w (add_if b (next_id (cw s)) (accepted s)) (completed s))
  | CPutCb c v has_cb => '(b, w) ← goc_put_cb c v has_cb (cw s); ok (mk_cb w (add_if b (next_id (cw s)) (accepted s)) (completed s))
  | CDrain => '(ev, w) ← drain_one (cw s); ok (mk_cb w (accepted s) (completed s ++ freed (cw s) w ev))
  end.

Definition cb_enabled (s : cbstate) (k : cbcall) : Prop :=
  match k with
  | CChan k => enabled (cw s) k
  | CTakeCb c | CPutCb c _ _ => has_chan (cw s) c
  | CDrain => True
  end.

Definition GOC_CB_DRAIN_BUDGET : nat := 512.

(** The loop of [drain_cb_queue], while the callbacks make no calls. *)
Fixpoint drain_cb_queue (budget : nat) (s : cbstate) : res cbstate :=
  match budget, cbq (cw s) with
  | O, _ | _, [] => ok s
  | S budget, _ => s ← cb_exec CDrain s; drain_cb_queue budget s
  end.

(** [n] wake-ups, each of which drains. *)
Fixpoint on_wakeups (n : nat) (s : cbstate) : res cbstate :=
  match n with O => ok s | S n => s ← drain_cb_queue GOC_CB_DRAIN_BUDGET s; on_wakeups n s end.

Definition cb_init : cbstate := mk_cb init [] [].

Inductive cb_reachable : cbstate → Prop :=
| cbr_init : cb_reachable cb_init
| cbr_step s k s' : cb_reachable s → cb_enabled s k → cb_exec k s = ok s' → cb_reachable s'.

(** ** The invariant *)

Definition side_of (e : goc_entry) : side := if is_put e then Putters else Takers.

(** Where an accepted entry is. *)
Definition queued (w : world) (p : positive) : Prop :=
  p ∈ (cbq w).*1 ∧ (∀ c s, p ∉ waiting w c s) ∧
  ∃ e, is_cb w p e ∧ if woken e then ech e = None else ∃ c, ech e = Some c ∧ has_chan w c.
Definition waits (w : world) (p : positive) : Prop :=
  p ∉ (cbq w).*1 ∧ ∃ e, is_cb w p e ∧ woken e = false ∧ ech e = None ∧ ∃ c, p ∈ waiting w c (side_of e).
Definition done_with (w : world) (p : positive) : Prop := p ∉ (cbq w).*1 ∧ ents w !! p = None.

Definition placed (s : cbstate) (p : positive) : Prop :=
  ((queued (cw s) p ∨ waits (cw s) p) ∧ p ∉ (completed s).*1) ∨ (done_with (cw s) p ∧ p ∈ (completed s).*1).

(** Callback entries as the calls make them. *)
Definition cb_entry (e : goc_entry) : Prop :=
  fired e = None ∧ cancelled e = false ∧ free_on_drain e = true ∧ (is_put e = false → result_slot e = true ∧ put_val e = 0).

Record cb_inv (s : cbstate) : Prop := {
  ci_world : inv true (linked (cw s)) (cw s);
  ci_entry : ∀ p e, is_cb (cw s) p e → p ∈ accepted s ∧ cb_entry e;
  ci_old : ∀ p, p ∈ accepted s → (p < next_id (cw s))%positive;
  ci_nodup : NoDup (accepted s);
  ci_queue : NoDup (cbq (cw s)).*1;
  ci_queue_acc : ∀ p, p ∈ (cbq (cw s)).*1 → p ∈ accepted s;
  ci_done : NoDup (completed s).*1;
  ci_done_acc : ∀ p, p ∈ (completed s).*1 → p ∈ accepted s;
  ci_place : ∀ p, p ∈ accepted s → placed s p
}.

Lemma ci_plain s : cb_inv s → plain_cbs (cw s).
Proof. intros Hi p e Hcb. by destruct (ci_entry _ Hi p e Hcb) as [_ (? & _)]. Qed.

Lemma cb_entry_stat e e' : stat e' = stat e → cb_entry e → cb_entry e'.
Proof. destruct e, e'. unfold stat, cb_entry. simpl. intros [=]. by subst. Qed.

(** ** The loop thread's scratch work: the queue, and fields no invariant looks at *)

Definition with_cbq (q : list (positive * Z)) (w : world) : world :=
  mk_world (ents w) (flags w) (fibers w) (chans w) (syncs w) (live_channels w)
    (runq w) q (loopq w) (closelog w) (loop_running w) (next_id w).

Lemma with_cbq_inv b L w q : inv b L w → inv b L (with_cbq q w).
Proof.
  intros [Hw Hi Hg Hs Hq]. split; try done. destruct Hw as [H1 H2 H3 H4 H5 H6 H7 H8 H9 Hsu Hso H10 H11 H12 H13 Hsel].
  split; try done. intros p e He. destruct (H5 p e He). by split.
Qed.

Definition touch (p : positive) (e : goc_entry) (w : world) : world := set_ents (<[p := e]>) w.

Section touch.
Context (w : world) (p : positive) (e e' : goc_entry).
Hypothesis Hp : ents w !! p = Some e.
Hypothesis Ho : outline e' = outline e.

Lemma touch_live q : live (touch p e' w) q = live w q.
Proof.
  unfold live, touch. simpl. rewrite lookup_insert. case_decide as Hq; [|done]. subst q. rewrite Hp. unfold claimable, flag_clear.
  unfold outline in Ho. by injection Ho as _ -> -> -> _ _ _ _ _.
Qed.
Lemma touch_lv L c s : lv L (touch p e' w) c s = lv L w c s.
Proof. unfold lv. apply list_filter_iff. intros q. by rewrite touch_live. Qed.
Lemma touch_waiting c s : world_ok (linked w) w → waiting (touch p e' w) c s = waiting w c s.
Proof. intros Hw. rewrite <- (waiting_ok (linked w)) by (by eapply world_ok_touch). rewrite touch_lv. by apply waiting_ok. Qed.
Lemma touch_inv b L : result_slot e' = result_slot e → inv b L w → inv b L (touch p e' w).
Proof.
  intros Hr [Hw Hi Hg Hs Hq]. split; [by eapply world_ok_touch| |done| |done].
  - intros Hb c. rewrite !touch_lv. by apply Hi.
  - intros c q eq. rewrite touch_lv. unfold touch. simpl. rewrite lookup_insert. case_decide as Hqp; [|by apply Hs].
    subst q. intros Hq' [= <-]. rewrite Hr. by eapply Hs.
Qed.
End touch.

(** ** A step, seen by the other callback entries

    What a step does to every callback entry but [p]: the entries [ps], which waited, were
    claimed and queued, the others keep their place. *)
Record others (p : positive) (ps : list positive) (w w' : world) : Prop := {
  le_next : (next_id w <= next_id w')%positive;
  le_back : ∀ q e', q ≠ p → is_cb w' q e' → ∃ e, is_cb w q e;
  le_gone : ∀ q, q ≠ p → (q < next_id w)%positive → ents w !! q = None → ents w' !! q = None;
  le_keep : ∀ q e, q ≠ p → is_cb w q e → ∃ e', ents w' !! q = Some e' ∧ stat e' = stat e ∧ woken e' = woken e || bool_decide (q ∈ ps);
  le_queue : ∀ q, q ≠ p → q ∈ (cbq w').*1 ↔ q ∈ (cbq w).*1 ∨ q ∈ ps;
  le_nodup : NoDup ps;
  le_ps : ∀ q, q ∈ ps → ∃ c s e, q ∈ waiting w c s ∧ is_cb w q e;
  le_wait : ∀ q e c s, q ≠ p → is_cb w q e → q ∈ waiting w' c s ↔ q ∈ waiting w c s ∧ q ∉ ps;
  le_chan : ∀ c, has_chan w c → has_chan w' c
}.

(** A round of the queue: [p] left its head. *)
Record leaves (p : positive) (ps : list positive) (w w' : world) : Prop := {
  lv_others : others p ps w w';
  lv_queue : p :: (cbq w').*1 = (cbq w).*1 ++ ps;
  lv_ps : p ∉ ps
}.

Lemma evolve_others p ps w w' : evolve ps w w' → (∀ q, (next_id w <= q)%positive → ents w !! q = None) → others p ps w w'.
Proof.
  intros [Ec Ek Eq En Ep Ew Eh] Hf. split; try done.
  - apply (cs_next _ _ Ec).
  - intros q e' _ [He' Hk']. destruct (cs_ents _ _ Ec q e' He') as [(e & He & Hs)|[_ ?]]; [|done].
    exists e. split; [done|]. unfold stat in Hs. congruence.
  - intros q _ Hlt Hn. destruct (ents w' !! q) as [e'|] eqn:He'; [|done].
    destruct (cs_ents _ _ Ec q e' He') as [(e & He & _)|[Hge _]]; [congruence|lia].
  - intros q e _ Hcb. by apply Ek.
  - intros q _. by rewrite Eq, elem_of_app.
  - intros q e c s _ Hcb. by apply (Ew q e).
Qed.

Section round.
Context (w : world) (p : positive) (x : Z) (q : list (positive * Z)) (e e1 : goc_entry).
Hypothesis Hi : inv true (linked w) w.
Hypothesis Hq : cbq w = (p, x) :: q.
Hypothesis Hcb : is_cb w p e.
Hypothesis Hcbe : cb_entry e.
Hypothesis Hnw : ∀ c s, p ∉ waiting w c s.
Hypothesis Ho : outline e1 = outline e.
Hypothesis Hr : result_slot e1 = result_slot e.

Let w1 := touch p e1 (with_cbq q w).

Lemma round_inv : inv true (linked w) w1.
Proof. apply (touch_inv _ p e e1); [apply Hcb|done|done|by apply with_cbq_inv]. Qed.
Lemma round_entry : is_cb w1 p e1 ∧ fired e1 = None.
Proof.
  unfold outline in Ho. injection Ho as Hk _ _ Hf _ _ _ _ _. destruct Hcb as [_ Hk'], Hcbe as (Hf' & _).
  split; [split; [apply lookup_insert_eq|]|]; congruence.
Qed.
Lemma round_waiting c s : waiting w1 c s = waiting w c s.
Proof. apply (touch_waiting (with_cbq q w) p e e1); [apply Hcb|done|]. by eapply iv_world, with_cbq_inv. Qed.
Lemma round_other r : r ≠ p → ents w1 !! r = ents w !! r.
Proof. intros Hne. unfold w1, touch. simpl. by rewrite lookup_insert_ne. Qed.
Lemma round_cb r er : r ≠ p → is_cb w1 r er ↔ is_cb w r er.
Proof. intros Hne. unfold is_cb. by rewrite round_other. Qed.

Lemma round_complete ps w' L' :
  evolve ps w1 w' → inv true L' w' →
  inv true (linked (set_ents (delete p) w')) (set_ents (delete p) w') ∧ leaves p ps w (set_ents (delete p) w').
Proof.
  intros Hev Hi'. pose proof Hev as [Ec Ek Eq En Ep Ew Eh]. pose proof (iv_world _ _ _ Hi') as Hw'.
  destruct round_entry as [Hcb1 Hf1]. destruct (Ek p e1 Hcb1) as (e2 & He2 & Hst & _).
  assert (fired e2 = None) as Hf2 by (unfold stat in Hst; congruence).
  assert (unlinked L' p) as Hun.
  { intros c s Hin. pose proof (wo_wait _ _ Hw' c s p e2 Hin He2 Hf2) as Hcl.
    assert (p ∈ waiting w' c s) as Hpw.
    { rewrite <- (waiting_ok L' w' c s Hw'). apply list_elem_of_filter. split; [|done]. unfold live. by rewrite He2. }
    apply (Ew p e1 c s Hcb1) in Hpw as [Hpw _]. rewrite round_waiting in Hpw. by apply (Hnw c s). }
  assert (world_ok L' (set_ents (delete p) w')) as Hw2 by (apply world_ok_free; [done..|]; congruence).
  destruct (free_inv true L' w' (set_ents (delete p) w') p Hi' Hw2) as [Hi2 _]; [done..|].
  assert (∀ r c s, r ≠ p → r ∈ waiting (set_ents (delete p) w') c s ↔ r ∈ waiting w' c s) as Hwt.
  { intros r c s Hne. rewrite <- (waiting_ok L' w' c s Hw'), <- (waiting_ok L' _ c s Hw2). unfold lv. rewrite !list_elem_of_filter.
    unfold live. simpl. by rewrite lookup_delete_ne. }
  split; [by eapply inv_linked|]. assert (p ∉ ps) as Hnp.
  { intros (c & s & er & Hwr & _)%Ep. rewrite round_waiting in Hwr. by apply (Hnw c s). }
  split; [split; simpl|rewrite Hq; by simpl; rewrite Eq|done].
  - apply (cs_next _ _ Ec).
  - intros r e' Hne [He' Hk']. simpl in He'. rewrite lookup_delete_ne in He' by done.
    destruct (cs_ents _ _ Ec r e' He') as [(e0 & He0 & Hs)|[_ ?]]; [|done]. exists e0. apply round_cb; [done|].
    split; [done|]. unfold stat in Hs. congruence.
  - intros r Hne Hlt Hn. rewrite lookup_delete_ne by done. destruct (ents w' !! r) as [e'|] eqn:He'; [|done].
    destruct (cs_ents _ _ Ec r e' He') as [(e0 & He0 & _)|[Hge _]]; [|simpl in Hge; lia]. rewrite round_other in He0 by done. congruence.
  - intros r er Hne Hcr. rewrite lookup_delete_ne by done. apply Ek. by apply round_cb.
  - intros r Hne. rewrite Eq, Hq, fmap_cons, elem_of_app, elem_of_cons. simpl. tauto.
  - done.
  - intros r Hin. destruct (Ep r Hin) as (c & s & er & Hwr & Hcr). rewrite round_waiting in Hwr.
    exists c, s, er. split; [done|]. apply round_cb; [congruence|done].
  - intros r er c s Hne Hcr. rewrite Hwt by done. rewrite (Ew r er c s) by (by apply round_cb). by rewrite round_waiting.
  - apply Eh.
Qed.

Lemma round_park w' L' w2 L2 c s v :
  tidied w1 w' → (∀ c s, lv L' w' c s = lv (linked w) w1 c s) → conserves w1 w2 → world_ok L2 w2 →
  parks c s GOC_CALLBACK v p L' (set_ents (delete p) w') L2 w2 → leaves p [] w w2 ∧ p ∈ waiting w2 c s.
Proof.
  intros Ht Hlv Hc Hw2 [Pn _ Pl Po Pkp Pli _ Pq _ _]. pose proof Ht as [Te _ _ _ _ _ _ Tq _ _ _ _].
  assert (∀ r, r ≠ p → ents (set_ents (delete p) w') !! r = ents w' !! r) as Hdel by (intros; simpl; by rewrite lookup_delete_ne).
  split.
  2: { rewrite <- (waiting_ok L2 w2 c s Hw2), Pl, decide_True by done. apply elem_of_app. right. constructor. }
  assert (∀ r er, r ≠ p → is_cb w r er → ∃ n, ents w2 !! r = Some (set_next n er)) as Hkeep.
  { intros r er Hne Hcr. apply (round_cb r er Hne) in Hcr as [Hr' _]. specialize (Te r). rewrite Hr' in Te. destruct Te as (n & Hn').
    rewrite <- Hdel in Hn' by done. destruct (Pkp r _ Hn') as (n' & Hn2). by exists n'. }
  assert (∀ r c' s', r ≠ p → r ∈ waiting w2 c' s' ↔ r ∈ waiting w c' s') as Hwait.
  { intros r c' s' Hne. rewrite <- (waiting_ok L2 w2 c' s' Hw2), Pl, <- (round_waiting c' s').
    rewrite <- (waiting_ok (linked w) w1 c' s') by (apply iv_world with true, round_inv). rewrite <- Hlv.
    assert (∀ a b, r ∈ lv L' (set_ents (delete p) w') a b ↔ r ∈ lv L' w' a b) as He.
    { intros a b. unfold lv. rewrite !list_elem_of_filter. unfold live. by rewrite Hdel. }
    case_decide as Hd; [|apply He]. destruct Hd as [-> ->]. rewrite elem_of_app, list_elem_of_singleton, He. tauto. }
  split; [split|rewrite Pq; simpl; by rewrite Tq, app_nil_r, Hq|apply not_elem_of_nil].
  - apply (cs_next _ _ Hc).
  - intros r e' Hne [He' Hk']. destruct (cs_ents _ _ Hc r e' He') as [(e0 & He0 & Hs)|[_ ?]]; [|done].
    exists e0. apply round_cb; [done|]. split; [done|]. unfold stat in Hs. congruence.
  - intros r Hne Hlt Hn. destruct (ents w2 !! r) as [e'|] eqn:He'; [|done].
    destruct (cs_ents _ _ Hc r e' He') as [(e0 & He0 & _)|[Hge _]]; [|simpl in Hge; lia]. rewrite round_other in He0 by done. congruence.
  - intros r er Hne Hcr. destruct (Hkeep r er Hne Hcr) as (n & Hn). exists (set_next n er). split_and!; [done|done|by rewrite orb_false_r].
  - intros r Hne. rewrite Pq, Hq, fmap_cons, elem_of_cons. simpl. rewrite Tq. simpl. rewrite (elem_of_nil r). tauto.
  - constructor.
  - by intros r ?%not_elem_of_nil.
  - intros r er c' s' Hne Hcr. rewrite Hwait by done. split; [intros ?; split; [done|apply not_elem_of_nil]|by intros [? _]].
  - intros c' Hc'. apply has_chan_obs. rewrite Po. change (is_Some (obs_at w' c')). rewrite (tidied_obs w1 w' c') by done. by apply has_chan_obs in Hc'.
Qed.
End round.

(** ** Pending puts and takes *)

Definition post_opt (cl : option claim) : prog world () :=
  match cl with Some (fe, want) => post_claimed_fiber fe want | None => mret tt end.

Lemma posts_run cl w1 w' g : posts cl w1 w' → ents w1 = ents w' ∧ post_opt cl w1 = ok (tt, w') ∧
  post_opt cl (set_ents g w1) = ok (tt, set_ents g w').
Proof.
  destruct cl as [[fe want]|]; simpl; [|by intros ->]. intros [Hp He]. split_and!; [done|done|].
  pose proof (el_post fe want (λ _, g (ents w1)) w1 tt w' Hp) as Hx. unfold set_ents in *. by rewrite He in Hx |- *.
Qed.
Lemma cs_post_opt cl : conserving (post_opt cl).
Proof.
  unfold post_opt, post_claimed_fiber. conserve. generalize 2%nat. intros n. induction n as [|n IH]; cbn [spin_parked]; conserve.
Qed.

(** The queue's function after its first statement, as its core. *)
Definition complete_put (p c : positive) (cl : option claim) (s : goc_status) : prog world (option event) :=
  upd_ent p (set_ok s);; post_opt cl;; finish_put p c s.
Definition complete_take (p c : positive) (cl : option claim) (v : Z) (s : goc_status) : prog world (option event) :=
  (match s with GOC_OK => upd_ent p (set_cb_result v) | _ => mret tt end);; upd_ent p (set_ok s);; post_opt cl;; finish_take p c v s.

Lemma put_core_factor {A} c v (k : option claim → goc_status → prog world A) (park : prog world A) w (r : option (option claim * goc_status)) w1 :
  put_core c v (λ cl s, mret (Some (cl, s))) (mret None) w = ok (r, w1) →
  put_core c v k park w = match r with Some (cl, s) => k cl s w1 | None => park w1 end.
Proof.
  unfold put_core. intros (u & w2 & H1 & H2)%prog_bind_inv. erewrite prog_bind_ok by exact H1. clear H1.
  apply prog_bind_inv in H2 as (ch & w3 & H1 & H2). erewrite prog_bind_ok by exact H1. clear H1.
  destruct (closed ch); [by injection H2 as <- <-|].
  apply prog_bind_inv in H2 as (cl & w4 & H1 & H2). erewrite prog_bind_ok by exact H1. clear H1.
  destruct cl as [[fe want]|]; [by injection H2 as <- <-|].
  apply prog_bind_inv in H2 as (b & w5 & H1 & H2). erewrite prog_bind_ok by exact H1. clear H1.
  destruct b; by injection H2 as <- <-.
Qed.
Lemma take_core_factor {A} c (k : option claim → Z → goc_status → prog world A) (park : prog world A) w (r : option (option claim * Z * goc_status)) w1 :
  take_core c (λ cl v s, mret (Some (cl, v, s))) (mret None) w = ok (r, w1) →
  take_core c k park w = match r with Some (cl, v, s) => k cl v s w1 | None => park w1 end.
Proof.
  unfold take_core. intros (u & w2 & H1 & H2)%prog_bind_inv. erewrite prog_bind_ok by exact H1. clear H1.
  apply prog_bind_inv in H2 as (b & w3 & H1 & H2). erewrite prog_bind_ok by exact H1. clear H1.
  destruct b as [v|]; [by injection H2 as <- <-|].
  apply prog_bind_inv in H2 as (cl & w4 & H1 & H2). erewrite prog_bind_ok by exact H1. clear H1.
  destruct cl as [[v [fe want]]|]; [by injection H2 as <- <-|].
  apply prog_bind_inv in H2 as (ch & w5 & H1 & H2). erewrite prog_bind_ok by exact H1. clear H1.
  destruct (closed ch); by injection H2 as <- <-.
Qed.

Lemma pending_put_core p c e w :
  ents w !! p = Some e →
  loop_process_pending_put p c w =
    put_core c (put_val e) (complete_put p c) (chan_list_append Putters c p;; mret None) (touch p (set_ech None e) w).
Proof.
  intros He. unfold loop_process_pending_put. erewrite prog_bind_ok by (by apply get_ent_ok).
  by erewrite prog_bind_ok by (by apply (upd_ent_ok _ _ _ e)).
Qed.

Lemma pending_take_core p c e w :
  ents w !! p = Some e →
  loop_process_pending_take p c w =
    take_core c (complete_take p c) (chan_list_append Takers c p;; mret None) (touch p (set_ech None e) w).
Proof.
  intros He. unfold loop_process_pending_take. by erewrite prog_bind_ok by (by apply (upd_ent_ok _ _ _ e)).
Qed.

Lemma free_touched p e w w' : w = touch p e w' → free p w = ok (tt, set_ents (delete p) w').
Proof.
  intros ->. unfold free. erewrite prog_bind_ok by (apply get_ent_ok, lookup_insert_eq).
  unfold modify, touch, set_ents. simpl. by rewrite delete_insert_eq.
Qed.
Lemma set_set_ents f g w : set_ents f (set_ents g w) = set_ents (λ h, f (g h)) w.
Proof. done. Qed.

Lemma complete_put_ok p c cl s e w1 w' :
  ents w1 !! p = Some e → free_on_drain e = true → posts cl w1 w' →
  complete_put p c cl s w1 = ok (if put_cb e then Some (Some c, put_val e, s) else None, set_ents (delete p) w').
Proof.
  intros He Hd Hp. unfold complete_put, finish_put. erewrite prog_bind_ok by (by apply (upd_ent_ok _ _ _ e)).
  destruct (posts_run cl w1 w' (<[p := set_ok s e]>) Hp) as (_ & _ & Hr). erewrite prog_bind_ok by exact Hr.
  erewrite prog_bind_ok by (apply get_ent_ok, lookup_insert_eq). simpl. rewrite Hd.
  by erewrite prog_bind_ok by (by apply (free_touched p (set_ok s e) _ w')).
Qed.
Lemma complete_take_ok p c cl v s e w1 w' :
  ents w1 !! p = Some e → free_on_drain e = true → posts cl w1 w' →
  complete_take p c cl v s w1 = ok (if cb e then Some (Some c, v, s) else None, set_ents (delete p) w').
Proof.
  intros He Hd Hp. unfold complete_take, finish_take. set (e1 := match s with GOC_OK => set_cb_result v e | _ => e end).
  assert ((match s with GOC_OK => upd_ent p (set_cb_result v) | _ => mret tt end) w1 = ok (tt, set_ents (<[p := e1]>) w1)) as Hu.
  { unfold e1. assert (set_ents (<[p := e]>) w1 = w1) as Hid by (unfold set_ents; rewrite insert_id by done; by destruct w1).
    destruct s; [by rewrite Hid|by apply (upd_ent_ok _ _ _ e)|by rewrite Hid]. }
  erewrite prog_bind_ok by exact Hu. erewrite prog_bind_ok by (apply upd_ent_ok, lookup_insert_eq). rewrite set_set_ents.
  destruct (posts_run cl w1 w' (λ h, <[p := set_ok s e1]> (<[p := e1]> h)) Hp) as (_ & _ & Hr). erewrite prog_bind_ok by exact Hr.
  assert (free_on_drain e1 = true ∧ cb e1 = cb e) as [Hd1 Hb1] by (unfold e1; by destruct s).
  erewrite prog_bind_ok by (apply get_ent_ok, lookup_insert_eq). simpl. rewrite Hd1, Hb1.
  erewrite prog_bind_ok; [done|]. apply (free_touched p (set_ok s e1) _ w'). unfold touch, set_ents. simpl. by rewrite insert_insert_eq.
Qed.

Lemma deleted_nil L w p c s : lv L w c s = [] → lv L (set_ents (delete p) w) c s = [].
Proof.
  rewrite !lv_nil. intros Hn r Hr Hl. apply (Hn r Hr). unfold live in *. simpl in Hl.
  destruct (decide (r = p)) as [->|Hne]; [by rewrite lookup_delete_eq in Hl|by rewrite lookup_delete_ne in Hl].
Qed.

Section pending.
Context (w : world) (p c : positive) (x : Z) (q : list (positive * Z)) (e : goc_entry) (ch : goc_chan).
Hypothesis Hi : inv true (linked w) w.
Hypothesis Hpl : plain_cbs w.
Hypothesis Hq : cbq w = (p, x) :: q.
Hypothesis Hcb : is_cb w p e.
Hypothesis Hcbe : cb_entry e.
Hypothesis Hnw : ∀ c s, p ∉ waiting w c s.
Hypothesis Hwk : woken e = false.
Hypothesis Hc : chans w !! c = Some ch.

Let w1 := touch p (set_ech None e) (with_cbq q w).

Lemma pending_inv : inv true (linked w) w1.
Proof. by eapply round_inv. Qed.
Lemma pending_plain : plain_cbs w1.
Proof.
  intros r er [Hr Hk]. unfold w1, touch in Hr. simpl in Hr. rewrite lookup_insert in Hr. case_decide; [|by apply (Hpl r)].
  injection Hr as <-. apply Hcbe.
Qed.

(** The call completes at once, in a world [w'] where [p] was not freed yet. *)
Lemma pending_done cl w0 w' :
  conserves w1 w0 → posts cl w0 w' → (conserves w1 w' → ∃ ps, evolve ps w1 w') →
  ∃ e2, ents w0 !! p = Some e2 ∧ stat e2 = stat (set_ech None e) ∧ ∃ ps, evolve ps w1 w'.
Proof.
  intros Hc0 Hp Hev. destruct (posts_run cl w0 w' id Hp) as (He & Hr & _). pose proof (cs_post_opt cl _ _ _ Hr) as Hc1.
  destruct Hev as [ps Hev]; [by eapply conserves_trans|]. destruct (round_entry w p q e (set_ech None e) Hcb Hcbe eq_refl) as [Hcb1 _].
  destruct (ev_keep _ _ _ Hev p _ Hcb1) as (e2 & He2 & Hs & _). exists e2. split_and!; [by rewrite He|done|by exists ps].
Qed.

(** The call waits. *)
Lemma pending_parks w' L' ch' s :
  world_ok L' w' → tidied w1 w' → (∀ c' s, lv L' w' c' s = lv (linked w) w1 c' s) → chans w' !! c = Some ch' → closed ch' = false →
  s = side_of e →
  ∃ w2 L2, chan_list_append s c p w' = ok (tt, w2) ∧ world_ok L2 w2 ∧ inv true L' (set_ents (delete p) w') ∧
    parks c s GOC_CALLBACK (put_val e) p L' (set_ents (delete p) w') L2 w2 ∧
    ∃ n, ents w2 !! p = Some (set_next n (set_ech None e)).
Proof.
  intros Hw' Ht Hlv Hc' Hop Hs. destruct Hcbe as (Hf & Hca & _ & Hslot). pose proof pending_inv as Hi1.
  destruct (round_entry w p q e (set_ech None e) Hcb Hcbe eq_refl) as [[Hp1 Hk] _]. fold w1 in Hp1.
  pose proof (td_ents _ _ Ht p) as Hn. rewrite Hp1 in Hn. destruct Hn as (n & Hn). set (e' := set_next n (set_ech None e)) in *.
  assert (∀ fl, claimable fl e' = true) as Hcl.
  { intros fl. unfold claimable, flag_clear. simpl. by rewrite Hwk, Hca, Hf. }
  assert (inv true L' w') as Hi'.
  { eapply inv_same_obs; [exact Hi1|done|intros; by apply tidied_obs|apply Ht|]. apply from_old_kept; [done|by apply tidied_kept]. }
  assert (unlinked L' p) as Hun.
  { intros c' s' Hin. assert (p ∈ lv L' w' c' s') as Hl.
    { apply list_elem_of_filter. split; [|done]. unfold live. by rewrite Hn, Hcl. }
    rewrite Hlv, (waiting_ok (linked w) w1 c' s' (iv_world _ _ _ Hi1)) in Hl.
    unfold w1 in Hl. rewrite (round_waiting w p q e) in Hl; [|done..]. by apply (Hnw c' s'). }
  assert (world_ok L' (set_ents (delete p) w')) as Hwd by (apply world_ok_free; [done..|]; intros ? Hx; rewrite Hn in Hx; by injection Hx as <-).
  destruct (free_inv true L' w' (set_ents (delete p) w') p Hi' Hwd) as [Hid _]; [done..|].
  destruct (parks_append L' (set_ents (delete p) w') w' c ch' s p e' GOC_CALLBACK (put_val e) Hwd Hw') as (w2 & Hr & Hw2 & Hpk); try done.
  - simpl. by rewrite insert_delete_id.
  - simpl. by rewrite lookup_delete_eq.
  - intros ->. unfold side_of in Hs. destruct (is_put e); [done|]. by apply Hslot.
  - exists w2. eexists. split_and!; [done..|]. pose proof (cs_append s c p _ _ _ Hr) as Hcs.
    destruct (append_ok L' w' c ch' s p e' Hw') as (w3 & Hr3 & Ht3 & _); [done..|]. assert (w3 = w2) as -> by congruence.
    pose proof (td_ents _ _ Ht3 p) as Hn3. rewrite Hn in Hn3. destruct Hn3 as (n3 & Hn3). by exists n3.
Qed.
Lemma pending_fields e2 : stat e2 = stat (set_ech None e) →
  put_val e2 = put_val e ∧ put_cb e2 = put_cb e ∧ cb e2 = cb e ∧ free_on_drain e2 = true.
Proof. unfold stat. simpl. destruct Hcbe as (_ & _ & Hfd & _). intros Hs. split_and!; congruence. Qed.

(** Where the round left [p]. *)
Definition settled (w2 : world) : Prop :=
  ents w2 !! p = None ∨ ∃ n c, ents w2 !! p = Some (set_next n (set_ech None e)) ∧ p ∈ waiting w2 c (side_of e).

(** What the round did: it completed the call, as the branches of a put or a take say, and
    freed the entry, or it linked the entry. *)
Inductive pending_put : option event → world → Prop :=
| pending_put_done s w' :
    put_case (linked w1) w1 c (obs ch) GOC_CALLBACK (put_val e) (Ret s) (linked w') w' →
    pending_put (if put_cb e then Some (Some c, put_val e, s) else None) (set_ents (delete p) w')
| pending_put_waits w' w2 :
    tidied w1 w' →
    put_case (linked (set_ents (delete p) w')) (set_ents (delete p) w') c (obs ch) GOC_CALLBACK (put_val e) (Park p) (linked w2) w2 →
    pending_put None w2.
Inductive pending_take : option event → world → Prop :=
| pending_take_done v s w' :
    take_case (linked w1) w1 c (obs ch) GOC_CALLBACK (Ret (v, s)) (linked w') w' →
    pending_take (if cb e then Some (Some c, v, s) else None) (set_ents (delete p) w')
| pending_take_waits w' w2 :
    tidied w1 w' →
    take_case (linked (set_ents (delete p) w')) (set_ents (delete p) w') c (obs ch) GOC_CALLBACK (Park p) (linked w2) w2 →
    pending_take None w2.

Lemma pending_put_ok :
  is_put e = true → ∃ r w2, loop_process_pending_put p c (with_cbq q w) = ok (r, w2) ∧ inv true (linked w2) w2 ∧
    pending_put r w2 ∧ settled w2 ∧ ∃ ps, leaves p ps w w2.
Proof.
  intros Hput. rewrite (pending_put_core p c e) by apply Hcb. fold w1. pose proof pending_inv as Hi1. pose proof (iv_world _ _ _ Hi1) as Hw1.
  assert (∀ x w0, put_core c (put_val e) (λ cl s, mret (Some (cl, s))) (mret None) w1 = ok (x, w0) → conserves w1 w0) as Hcs.
  { intros y w0. apply cs_bind; [apply cs_maybe_compact|intros _]. conserve. }
  destruct (put_core_ok (linked w) w1 c ch (put_val e) (λ cl s, mret (Some (cl, s))) (mret None) Hw1 Hc)
    as [(cl & s & w0 & w' & L' & Hr & Hp & Hw' & Hcase)|(w' & L' & ch' & Hr & Hw' & Ht & Hlv & Hc' & Hop & Hop0 & Hn & Hlen)];
    rewrite (put_core_factor _ _ _ _ _ _ _ Hr).
  - pose proof (put_case_ext _ _ _ _ _ _ _ _ _ Hw1 Hw' Hcase) as Hcase'.
    destruct (put_inv true (linked w) w1 c ch _ _ _ L' w' Hi1 Hc Hw' Hcase) as [Hi' _].
    destruct (pending_done cl w0 w' (Hcs _ _ Hr) Hp) as (e2 & He2 & Hs & ps & Hev).
    { intros Hcw. eapply (put_evolve w1 w' c ch); try done; [by eapply world_ok_linked|apply pending_plain]. }
    destruct (round_complete w p x q e (set_ech None e) Hi Hq Hcb Hcbe Hnw eq_refl ps w' L' Hev Hi') as [Hi2 Hle].
    destruct (pending_fields e2 Hs) as (Hv & Hb & _ & Hfd). erewrite complete_put_ok; [|exact He2|exact Hfd|exact Hp].
    eexists _, _. split_and!; [done|done| |left; apply lookup_delete_eq|by exists ps]. rewrite Hv, Hb. by apply pending_put_done.
  - destruct (pending_parks w' L' ch' Putters Hw' Ht Hlv Hc' Hop) as (w2 & L2 & Hap & Hw2 & Hid & Hpk & n & Hn2).
    { unfold side_of. by rewrite Hput. }
    assert (obs ch' = obs ch) as Ho.
    { pose proof (tidied_obs w1 w' c Ht) as Ho. rewrite (obs_at_Some w' c ch'), (obs_at_Some w1 c ch) in Ho by done. congruence. }
    assert (put_case L' (set_ents (delete p) w') c (obs ch) GOC_CALLBACK (put_val e) (Park p) L2 w2) as Hpc.
    { apply put_parked; [done| |done|done]. apply deleted_nil. by rewrite Hlv. }
    destruct (put_inv true L' (set_ents (delete p) w') c ch' GOC_CALLBACK (put_val e) (Park p) L2 w2 Hid Hc' Hw2) as [Hpi _]; [by rewrite Ho|].
    assert (conserves w1 w2) as Hcw by (eapply conserves_trans; [by apply (Hcs _ _ Hr)|by eapply cs_append]).
    destruct (round_park w p x q e (set_ech None e) Hi Hq Hcb eq_refl eq_refl w' L' w2 L2 c Putters (put_val e)) as [Hle Hpw]; [done..|].
    erewrite prog_bind_ok by exact Hap. eexists _, w2. split_and!; [done| | | |].
    + eapply inv_linked, Hpi.
    + eapply pending_put_waits; [exact Ht|]. eapply put_case_ext; [apply Hid|done|exact Hpc].
    + right. exists n, c. split; [done|]. unfold side_of. by rewrite Hput.
    + by exists [].
Qed.

Lemma pending_take_ok :
  is_put e = false → ∃ r w2, loop_process_pending_take p c (with_cbq q w) = ok (r, w2) ∧ inv true (linked w2) w2 ∧
    pending_take r w2 ∧ settled w2 ∧ ∃ ps, leaves p ps w w2.
Proof.
  intros Htake. rewrite (pending_take_core p c e) by apply Hcb. fold w1. pose proof pending_inv as Hi1. pose proof (iv_world _ _ _ Hi1) as Hw1.
  assert (∀ x w0, take_core c (λ cl v s, mret (Some (cl, v, s))) (mret None) w1 = ok (x, w0) → conserves w1 w0) as Hcs.
  { intros y w0. apply cs_bind; [apply cs_maybe_compact|intros _]. conserve. }
  destruct (take_core_ok (linked w) w1 c ch (λ cl v s, mret (Some (cl, v, s))) (mret None) Hw1 Hc)
    as [(cl & v & s & w0 & w' & L' & Hr & Hp & Hw' & Hcase)|(w' & L' & ch' & Hr & Hw' & Ht & Hlv & Hc' & Hop & Hop0 & Hemp & Hn)];
    rewrite (take_core_factor _ _ _ _ _ _ Hr).
  - pose proof (take_case_ext _ _ _ _ _ _ _ _ Hw1 Hw' Hcase) as Hcase'.
    destruct (take_inv true (linked w) w1 c ch _ _ L' w' Hi1 Hc Hw' Hcase) as [Hi' _].
    destruct (pending_done cl w0 w' (Hcs _ _ Hr) Hp) as (e2 & He2 & Hs & ps & Hev).
    { intros Hcw. eapply (take_evolve w1 w' c ch); try done; [by eapply world_ok_linked|apply pending_plain]. }
    destruct (round_complete w p x q e (set_ech None e) Hi Hq Hcb Hcbe Hnw eq_refl ps w' L' Hev Hi') as [Hi2 Hle].
    destruct (pending_fields e2 Hs) as (_ & _ & Hb & Hfd). erewrite complete_take_ok; [|exact He2|exact Hfd|exact Hp].
    eexists _, _. split_and!; [done|done| |left; apply lookup_delete_eq|by exists ps]. rewrite Hb. by apply pending_take_done.
  - destruct (pending_parks w' L' ch' Takers Hw' Ht Hlv Hc' Hop) as (w2 & L2 & Hap & Hw2 & Hid & Hpk & n & Hn2).
    { unfold side_of. by rewrite Htake. }
    assert (put_val e = 0) as Hval by (destruct Hcbe as (_ & _ & _ & Hs); by apply Hs).
    assert (obs ch' = obs ch) as Ho.
    { pose proof (tidied_obs w1 w' c Ht) as Ho. rewrite (obs_at_Some w' c ch'), (obs_at_Some w1 c ch) in Ho by done. congruence. }
    assert (parks c Takers GOC_CALLBACK 0 p L' (set_ents (delete p) w') L2 w2) as Hpk0 by (by rewrite <- Hval).
    assert (take_case L' (set_ents (delete p) w') c (obs ch) GOC_CALLBACK (Park p) L2 w2) as Hpc.
    { apply take_parked; [done| |done|done]. apply deleted_nil. by rewrite Hlv. }
    destruct (take_inv true L' (set_ents (delete p) w') c ch' GOC_CALLBACK (Park p) L2 w2 Hid Hc' Hw2) as [Hpi _]; [by rewrite Ho|].
    assert (conserves w1 w2) as Hcw by (eapply conserves_trans; [by apply (Hcs _ _ Hr)|by eapply cs_append]).
    destruct (round_park w p x q e (set_ech None e) Hi Hq Hcb eq_refl eq_refl w' L' w2 L2 c Takers 0) as [Hle Hpw]; [done..|].
    erewrite prog_bind_ok by exact Hap. eexists _, w2. split_and!; [done| | | |].
    + eapply inv_linked, Hpi.
    + eapply pending_take_waits; [exact Ht|]. eapply take_case_ext; [apply Hid|done|exact Hpc].
    + right. exists n, c. split; [done|]. unfold side_of. by rewrite Htake.
    + by exists [].
Qed.
End pending.

(** ** Steps keep the invariant *)

Lemma others_place p ps w w' r :
  others p ps w w' → r ≠ p → (r < next_id w)%positive →
  (queued w r ∨ waits w r → queued w' r ∨ waits w' r) ∧ (done_with w r → done_with w' r).
Proof.
  intros [_ _ Og Ok Oq _ Op Ow Oc] Hne Hlt. split.
  - intros [(Hq & Hnw & e & Hcb & Hst)|(Hq & e & Hcb & Hwk & Hech & c & Hw)]; destruct (Ok r e Hne Hcb) as (e' & He' & Hs & Hw').
    + left. assert (r ∉ ps) as Hnp by (intros (c & s & _ & Hin & _)%Op; by apply (Hnw c s)).
      rewrite bool_decide_eq_false_2, orb_false_r in Hw' by done. split_and!.
      * apply Oq; [done|by left].
      * intros c s [Hin _]%(Ow r e c s Hne Hcb). by apply (Hnw c s).
      * exists e'. split; [by eapply cb_stat|]. rewrite Hw'. assert (ech e' = ech e) as -> by (unfold stat in Hs; congruence).
        destruct (woken e); [done|]. destruct Hst as (c & ? & ?). eauto.
    + assert (ech e' = None ∧ side_of e' = side_of e) as [He1 He2] by (unfold stat, side_of in *; split; [|destruct (is_put e), (is_put e')]; congruence).
      destruct (decide (r ∈ ps)) as [Hp|Hp].
      * left. split_and!; [apply Oq; [done|by right]| |exists e'].
        { intros c' s [_ ?]%(Ow r e c' s Hne Hcb). done. }
        split; [by eapply cb_stat|]. by rewrite Hw', bool_decide_eq_true_2, orb_true_r.
      * right. split; [by intros [?|?]%Oq|]. exists e'. split_and!; [by eapply cb_stat| |done|].
        { by rewrite Hw', bool_decide_eq_false_2, orb_false_r. }
        exists c. rewrite He2. by apply (Ow r e c _ Hne Hcb).
  - intros [Hq Hn]. split; [|by apply Og]. intros [?|(c & s & e & _ & Hcb & _)%Op]%Oq; [done| |done]. congruence.
Qed.

Lemma others_entry p ps w w' r e' :
  others p ps w w' → r ≠ p → is_cb w' r e' → ∃ e, is_cb w r e ∧ (cb_entry e → cb_entry e').
Proof.
  intros [_ Ob _ Ok _ _ _ _ _] Hne Hcb'. destruct (Ob r e' Hne Hcb') as [e Hcb]. exists e. split; [done|].
  destruct (Ok r e Hne Hcb) as (e2 & He2 & Hs & _). assert (e2 = e') as -> by (destruct Hcb'; congruence). by apply cb_entry_stat.
Qed.

Lemma cb_inv_step s s' p ps :
  cb_inv s → inv true (linked (cw s')) (cw s') → others p ps (cw s) (cw s') →
  (∀ r, r ≠ p → r ∈ accepted s' ↔ r ∈ accepted s) → NoDup (accepted s') → NoDup (cbq (cw s')).*1 → NoDup (completed s').*1 →
  (∀ r, r ≠ p → r ∈ (completed s').*1 ↔ r ∈ (completed s).*1) →
  (∀ e, is_cb (cw s') p e → p ∈ accepted s' ∧ cb_entry e) →
  (p ∈ (completed s').*1 ∨ p ∈ (cbq (cw s')).*1 → p ∈ accepted s') →
  (p ∈ accepted s' → (p < next_id (cw s'))%positive ∧ placed s' p) → cb_inv s'.
Proof.
  intros [Hw He Hold Hnd Hqn Hqa Hdn Hda Hpl] Hw' Ho Ha Hnd' Hqn' Hdn' Hd Hpe Hpq Hpa. pose proof (le_next _ _ _ _ Ho) as Hnx.
  split; try done.
  - intros r e Hcb. destruct (decide (r = p)) as [->|Hne]; [by apply Hpe|].
    destruct (others_entry _ _ _ _ r e Ho Hne Hcb) as (e0 & Hcb0 & Hent). destruct (He r e0 Hcb0). rewrite Ha by done. auto.
  - intros r Hr. destruct (decide (r = p)) as [->|Hne]; [by apply Hpa|]. apply Ha, Hold in Hr; [lia|done].
  - intros r Hr. destruct (decide (r = p)) as [->|Hne]; [auto|]. apply Ha; [done|].
    apply (le_queue _ _ _ _ Ho) in Hr as [?|(c & sd & e & _ & Hcb)%(le_ps _ _ _ _ Ho)]; [auto|by destruct (He r e Hcb)|done].
  - intros r Hr. destruct (decide (r = p)) as [->|Hne]; [auto|]. apply Ha; [done|]. by apply Hda, Hd.
  - intros r Hr. destruct (decide (r = p)) as [->|Hne]; [by apply Hpa|]. apply Ha in Hr; [|done].
    destruct (others_place _ _ _ _ r Ho Hne (Hold r Hr)) as [Hl Hdone]. unfold placed. rewrite Hd by done.
    destruct (Hpl r Hr) as [[? ?]|[? ?]]; [left|right]; auto.
Qed.

Lemma queue_nodup s p ps w' : cb_inv s → others p ps (cw s) w' → NoDup ((cbq (cw s)).*1 ++ ps).
Proof.
  intros Hi Ho. apply NoDup_app. split_and!; [apply (ci_queue _ Hi)| |apply (le_nodup _ _ _ _ Ho)].
  intros r Hr (c & sd & e & Hin & Hcb)%(le_ps _ _ _ _ Ho).
  destruct (ci_place _ Hi r (ci_queue_acc _ Hi r Hr)) as [[[(_ & Hnw & _)|[? _]] _]|[[? _] _]]; [by apply (Hnw c sd)|done|done].
Qed.

Lemma chan_step_inv s w' ps : cb_inv s → evolve ps (cw s) w' → inv true (linked w') w' → cb_inv (mk_cb w' (accepted s) (completed s)).
Proof.
  intros Hi Hev Hw'. pose proof (wo_fresh_ent _ _ (iv_world _ _ _ (ci_world _ Hi))) as Hfr.
  assert (others (next_id w') ps (cw s) w') as Ho.
  { apply evolve_others; [done|]. intros q Hq. destruct (ents (cw s) !! q) eqn:E; [|done]. assert (q < next_id (cw s))%positive by eauto. lia. }
  assert (next_id w' ∉ accepted s) as Hn by (intros Hx%(ci_old _ Hi); pose proof (le_next _ _ _ _ Ho); lia).
  assert (NoDup (cbq w').*1) as Hnd by (rewrite (ev_q _ _ _ Hev); by eapply queue_nodup).
  assert (next_id w' ∉ (cbq w').*1) as Hnq.
  { intros Hx. rewrite (ev_q _ _ _ Hev) in Hx. apply elem_of_app in Hx as [Hx|(c & sd & e & _ & Hcb)%(ev_ps _ _ _ Hev)].
    - by apply Hn, (ci_queue_acc _ Hi).
    - destruct Hcb as [Hx _]. assert (next_id w' < next_id (cw s))%positive by (apply Hfr; eauto). pose proof (le_next _ _ _ _ Ho). lia. }
  apply (cb_inv_step s (mk_cb w' (accepted s) (completed s)) (next_id w') ps); simpl; try done; try apply Hi.
  - intros e [He _]. exfalso. assert (next_id w' < next_id w')%positive; [|lia].
    apply (wo_fresh_ent _ _ (iv_world _ _ _ Hw')). eauto.
  - intros [Hx|Hx]; [by apply (ci_done_acc _ Hi)|done].
Qed.

(** A new callback entry that is in no list. *)
Definition plain_entry (e : goc_entry) : Prop := kind e = GOC_CALLBACK ∧ woken e = false ∧ cb_entry e.

Lemma alloc_inv w e : inv true (linked w) w → plain_entry e → inv true (linked w) (set_ents (<[next_id w := e]>) (bump_id w)).
Proof.
  intros Hi (Hk & Hwk & Hf & Hca & Hfd & _). pose proof (iv_world _ _ _ Hi) as Hw. set (w' := set_ents _ _).
  pose proof (fresh_None _ w (next_id w) Hw ltac:(lia)) as Hn.
  assert (world_ok (linked w) w') as Hw'.
  { apply (world_ok_alloc (linked w) w w' (next_id w) e); try done; simpl; try lia; try congruence.
    - intros a Ha%(wo_fresh_sync _ _ Hw). lia.
    - split; simpl; try congruence. intros [?|[? ?]]; congruence.
    - intros q eq _ He. by destruct He; split. 
    - intros i t f _ Hfb _. split; [done|congruence]. }
  eapply inv_same_obs; [exact Hi|exact Hw'|done|done|]. apply from_old_kept.
  - intros c s. unfold lv. apply list_filter_iff'. intros q Hq. destruct (wo_linked _ _ _ _ _ Hw Hq) as [eq Heq].
    unfold live. simpl. by rewrite lookup_insert_ne by congruence.
  - intros q eq Hq. exists (next eq). simpl. by rewrite lookup_insert_ne, set_next_id by congruence.
Qed.

Lemma alloc_others w w' p :
  inv true (linked w) w → world_ok (linked w) w' → p = next_id w → (p < next_id w')%positive →
  (∀ q, q ≠ p → ents w' !! q = ents w !! q) → flags w' = flags w → chans w' = chans w →
  (∀ q, q ≠ p → q ∈ (cbq w').*1 ↔ q ∈ (cbq w).*1) → others p [] w w'.
Proof.
  intros Hi Hw' -> Hnx He Hf Hc Hq. pose proof (iv_world _ _ _ Hi) as Hw. split; try done.
  - lia.
  - intros q e' Hne [Hq' Hk]. exists e'. split; [|done]. by rewrite <- He.
  - intros q Hne _. by rewrite He.
  - intros q e Hne [Hqe _]. exists e. rewrite He by done. split_and!; [done|done|by rewrite orb_false_r].
  - intros q Hne. rewrite Hq by done. rewrite (elem_of_nil q). tauto.
  - constructor.
  - by intros q ?%not_elem_of_nil.
  - intros q e c s Hne _. rewrite <- (waiting_ok (linked w) w' c s Hw'), <- (waiting_ok (linked w) w c s Hw). unfold lv.
    rewrite !list_elem_of_filter. unfold live. rewrite He, Hf by done. split; [intros ?; split; [done|apply not_elem_of_nil]|by intros [? _]].
  - intros c. unfold has_chan. by rewrite Hc.
Qed.

Lemma submit_step s e :
  cb_inv s → plain_entry e → (∃ c, ech e = Some c ∧ has_chan (cw s) c) →
  ∃ b w', submit e (cw s) = ok (b, w') ∧ cb_inv (mk_cb w' (add_if b (next_id (cw s)) (accepted s)) (completed s)).
Proof.
  intros Hi Hpe Hech. set (w := cw s) in *. set (p := next_id w). pose proof (ci_world _ Hi) as Hinv. pose proof (iv_world _ _ _ Hinv) as Hw.
  pose proof (alloc_inv w e Hinv Hpe) as Hi1. set (w1 := set_ents _ _) in Hi1. pose proof (fresh_None _ w p Hw ltac:(unfold p; lia)) as Hn.
  assert (p ∉ accepted s) as Hpa by (intros Hx%(ci_old _ Hi); unfold p, w in Hx; lia).
  assert (p ∉ (cbq w).*1) as Hpq by (intros Hx; by apply Hpa, (ci_queue_acc _ Hi)).
  assert (p ∉ (completed s).*1) as Hpc by (intros Hx; by apply Hpa, (ci_done_acc _ Hi)).
  assert (∀ q, q ≠ p → ents w1 !! q = ents w !! q) as He1 by (intros q Hq; simpl; by rewrite lookup_insert_ne).
  assert (unlinked (linked w) p) as Hun by (apply (unlinked_fresh (linked w) w); [done|unfold p; lia]).
  unfold submit. erewrite prog_bind_ok by done. unfold mbind at 1, prog_bind at 1, goc_loop_submit_callback_if_running.
  change (loop_running (set_ents _ _)) with (loop_running w). fold p. change (set_ents _ _) with w1. destruct (loop_running w) eqn:Hrun.
  - pose proof (with_cbq_inv _ _ w1 (cbq w ++ [(p, 0)]) Hi1) as Hi2. eexists true, _. split; [done|].
    change (push_cbq (p, 0) w1) with (with_cbq (cbq w ++ [(p, 0)]) w1). set (w2 := with_cbq _ w1) in *.
    apply (cb_inv_step s _ p []); simpl; try done; try (by apply Hi).
    + by eapply inv_linked.
    + apply alloc_others; try done; [by apply Hi2|simpl; lia|]. intros q Hq. simpl. rewrite fmap_app, elem_of_app. simpl.
      rewrite list_elem_of_singleton. tauto.
    + intros r Hne. rewrite elem_of_app, list_elem_of_singleton. tauto.
    + apply NoDup_app. split_and!; [apply Hi| |apply NoDup_singleton]. intros r Hr ->%list_elem_of_singleton. done.
    + rewrite fmap_app. apply NoDup_app. split_and!; [apply Hi| |apply NoDup_singleton]. intros r Hr ->%list_elem_of_singleton. done.
    + intros e' [He' _]. simpl in He'. rewrite lookup_insert_eq in He'. injection He' as <-. split; [|apply Hpe].
      apply elem_of_app. right. constructor.
    + intros _. apply elem_of_app. right. constructor.
    + intros _. split; [unfold p, w; lia|]. left. split; [|done]. left. split_and!.
      * simpl. rewrite fmap_app. apply elem_of_app. right. constructor.
      * intros c sd. rewrite <- (waiting_ok (linked w) w2) by apply Hi2. intros [_ ?]%list_elem_of_filter. by apply (Hun c sd).
      * destruct Hpe as (Hk & Hwk & _). exists e. split; [split; [apply lookup_insert_eq|done]|]. by rewrite Hwk.
  - pose proof (world_ok_free (linked w) w1 p (iv_world _ _ _ Hi1) Hun) as Hw2. simpl in Hw2. rewrite lookup_insert_eq in Hw2.
    specialize (Hw2 ltac:(intros ? [= <-]; apply Hpe)).
    destruct (free_inv true (linked w) w1 (set_ents (delete p) w1) p Hi1 Hw2) as [Hi2 _]; [done..|].
    eexists false, _. split; [by erewrite prog_bind_ok by (by apply (free_touched p e w1 (bump_id w)))|].
    assert (∀ q, q ≠ p → delete p (ents w1) !! q = ents w !! q) as He2 by (intros q Hq; by rewrite lookup_delete_ne, He1).
    assert (set_ents (delete p) (bump_id w) = set_ents (delete p) w1) as -> by (unfold w1, set_ents; simpl; by rewrite delete_insert_eq).
    apply (cb_inv_step s _ p []); simpl; try done; try (by apply Hi).
    + by eapply inv_linked.
    + apply alloc_others; try done. simpl; lia.
    + intros e' [He' _]. simpl in He'. by rewrite lookup_delete_eq in He'.
    + by intros [?|?].
Qed.

Lemma queued_head s p x q : cb_inv s → cbq (cw s) = (p, x) :: q → queued (cw s) p ∧ p ∉ (completed s).*1.
Proof.
  intros Hi Hq. assert (p ∈ (cbq (cw s)).*1) as Hin by (rewrite Hq; constructor).
  by destruct (ci_place _ Hi p (ci_queue_acc _ Hi p Hin)) as [[[?|[? _]] ?]|[[? _] _]].
Qed.

Lemma leaves_step s w2 p x q e ps ev :
  cb_inv s → cbq (cw s) = (p, x) :: q → is_cb (cw s) p e → inv true (linked w2) w2 → leaves p ps (cw s) w2 →
  (ents w2 !! p = None ∨ woken e = false ∧ settled p e w2) →
  cb_inv (mk_cb w2 (accepted s) (completed s ++ freed (cw s) w2 ev)).
Proof.
  intros Hi Hq Hcb Hw2 [Ho Hlq Hps] Hset. destruct (queued_head s p x q Hi Hq) as [Hqd Hnc].
  pose proof (queue_nodup s p ps w2 Hi Ho) as Hnd. rewrite <- Hlq in Hnd. apply NoDup_cons in Hnd as [Hnp Hnd].
  assert (p ∈ accepted s) as Hpa by (apply (ci_queue_acc _ Hi), Hqd). pose proof (ci_entry _ Hi p e Hcb) as [_ He].
  assert (freed (cw s) w2 ev = match ents w2 !! p with Some _ => [] | None => [(p, ev)] end) as -> by (unfold freed; by rewrite Hq).
  apply (cb_inv_step s _ p ps); simpl; try done; try (by apply Hi).
  - destruct (ents w2 !! p); [rewrite app_nil_r; apply Hi|]. rewrite fmap_app. apply NoDup_app.
    split_and!; [apply Hi| |apply NoDup_singleton]. intros r Hr ->%list_elem_of_singleton. done.
  - intros r Hne. rewrite fmap_app, elem_of_app. destruct (ents w2 !! p); simpl.
    + rewrite (elem_of_nil r). tauto.
    + rewrite list_elem_of_singleton. tauto.
  - intros e' [He' _]. split; [done|]. destruct Hset as [?|[_ [?|(n & c & Hn & _)]]]; [congruence..|].
    rewrite Hn in He'. injection He' as <-. by apply (cb_entry_stat (set_ech None e)).
  - intros _. split; [pose proof (ci_old _ Hi p Hpa); pose proof (le_next _ _ _ _ Ho); lia|]. unfold placed. simpl.
    assert (ents w2 !! p = None → ((queued w2 p ∨ waits w2 p) ∧ p ∉ (completed s ++ match ents w2 !! p with Some _ => [] | None => [(p, ev)] end).*1) ∨
      (done_with w2 p ∧ p ∈ (completed s ++ match ents w2 !! p with Some _ => [] | None => [(p, ev)] end).*1)) as Hgone.
    { intros Hn. rewrite Hn. right. split; [done|]. rewrite fmap_app. apply elem_of_app. right. constructor. }
    destruct Hset as [?|[Hwk [?|(n & c & Hn & Hin)]]]; [auto..|]. left. rewrite Hn, app_nil_r. split; [|done]. right. split; [done|].
    exists (set_next n (set_ech None e)). split_and!; [split; [done|apply Hcb]|done|done|by exists c].
Qed.

Lemma fire_claimed_ok p e w :
  ents w !! p = Some e → free_on_drain e = true →
  fire_claimed p w = ok (if cb e then Some (ech e, cb_result e, ok_ e) else if put_cb e then Some (ech e, put_val e, ok_ e) else None,
                         set_ents (delete p) w).
Proof.
  intros He Hd. unfold fire_claimed. erewrite prog_bind_ok by (by apply get_ent_ok). rewrite Hd.
  unfold free. by erewrite (prog_bind_ok (get_ent p ≫= _)) by (by erewrite prog_bind_ok by (by apply get_ent_ok)).
Qed.

Lemma pop_cbq_ok w p x q : cbq w = (p, x) :: q → pop_cbq w = ok (Some p, with_cbq q w).
Proof. intros Hq. unfold pop_cbq. by rewrite Hq. Qed.

(** The head of the queue was claimed while it waited. *)
Lemma drain_claimed s p x q e :
  cb_inv s → cbq (cw s) = (p, x) :: q → is_cb (cw s) p e → woken e = true →
  ech e = None ∧ drain_one (cw s) = fire_claimed p (with_cbq q (cw s)) ∧
  inv true (linked (set_ents (delete p) (with_cbq q (cw s)))) (set_ents (delete p) (with_cbq q (cw s))) ∧
  leaves p [] (cw s) (set_ents (delete p) (with_cbq q (cw s))).
Proof.
  intros Hi Hq Hcb Hwk. set (w := cw s) in *. destruct (queued_head s p x q Hi Hq) as [(_ & Hnw & e0 & Hcb0 & Hst) _].
  assert (e0 = e) as -> by (destruct Hcb, Hcb0; unfold w in *; congruence). rewrite Hwk in Hst. split; [done|].
  pose proof (ci_world _ Hi) as Hinv. destruct (ci_entry _ Hi p e Hcb) as [_ He]. split.
  - unfold drain_one. erewrite (prog_bind_ok pop_cbq) by (by apply (pop_cbq_ok _ p x q)). cbn beta iota.
    erewrite prog_bind_ok by (by apply get_ent_ok, Hcb). destruct Hcb as [_ ->]. by rewrite Hst.
  - assert (touch p e (with_cbq q w) = with_cbq q w) as Ht by (unfold touch, set_ents; simpl; rewrite insert_id by apply Hcb; done).
    apply (round_complete w p x q e e Hinv Hq Hcb He Hnw eq_refl [] (with_cbq q w) (linked w)).
    + rewrite Ht. by apply (evolve_same_lists (with_cbq q w)).
    + by apply with_cbq_inv.
Qed.

(** The head of the queue was not processed before. *)
Lemma drain_pending s p x q e c ch :
  cb_inv s → cbq (cw s) = (p, x) :: q → is_cb (cw s) p e → woken e = false → ech e = Some c → chans (cw s) !! c = Some ch →
  ∃ ev w2 ps, drain_one (cw s) = ok (ev, w2) ∧ inv true (linked w2) w2 ∧ leaves p ps (cw s) w2 ∧ settled p e w2 ∧
    if is_put e then pending_put (cw s) p c q e ch ev w2 else pending_take (cw s) p c q e ch ev w2.
Proof.
  intros Hi Hq Hcb Hwk Hech Hc. set (w := cw s) in *. destruct (queued_head s p x q Hi Hq) as [(_ & Hnw & _) _].
  pose proof (ci_world _ Hi) as Hinv. destruct (ci_entry _ Hi p e Hcb) as [_ He]. pose proof (ci_plain _ Hi) as Hpl.
  assert (drain_one w = (if is_put e then loop_process_pending_put p c else loop_process_pending_take p c) (with_cbq q w)) as Hd.
  { unfold drain_one. erewrite (prog_bind_ok pop_cbq) by (by apply (pop_cbq_ok _ p x q)). cbn beta iota.
    erewrite prog_bind_ok by (by apply get_ent_ok, Hcb). destruct Hcb as [_ ->]. rewrite Hech, Hwk. by destruct (is_put e). }
  rewrite Hd. destruct (is_put e) eqn:Hput.
  - destruct (pending_put_ok w p c x q e ch) as (ev & w2 & ? & ? & ? & ? & ps & ?); try done. by exists ev, w2, ps.
  - destruct (pending_take_ok w p c x q e ch) as (ev & w2 & ? & ? & ? & ? & ps & ?); try done. by exists ev, w2, ps.
Qed.

Lemma drain_step s :
  cb_inv s → ∃ ev w2, drain_one (cw s) = ok (ev, w2) ∧ cb_inv (mk_cb w2 (accepted s) (completed s ++ freed (cw s) w2 ev)).
Proof.
  intros Hi. destruct (cbq (cw s)) as [|[p x] q] eqn:Hq.
  - exists None, (cw s). split; [unfold drain_one, pop_cbq, mbind, prog_bind; by rewrite Hq|]. unfold freed. rewrite Hq, app_nil_r. by destruct s.
  - destruct (queued_head s p x q Hi Hq) as [(_ & _ & e & Hcb & Hst) _]. destruct (woken e) eqn:Hwk.
    + destruct (drain_claimed s p x q e Hi Hq Hcb Hwk) as (_ & -> & Hi2 & Hle). destruct (ci_entry _ Hi p e Hcb) as [_ He].
      rewrite (fire_claimed_ok p e) by (try apply Hcb; apply He). eexists _, _. split; [done|].
      eapply leaves_step; try done. left. apply lookup_delete_eq.
    + destruct Hst as (c & Hech & [ch Hc]). destruct (drain_pending s p x q e c ch) as (ev & w2 & ps & Hd & Hi2 & Hle & Hset & _); try done.
      exists ev, w2. split; [done|]. eapply leaves_step; try done. by right.
Qed.

Lemma cb_step s k : cb_inv s → cb_enabled s k → ∃ s', cb_exec k s = ok s' ∧ cb_inv s'.
Proof.
  intros Hi He. destruct k as [k|c|c v has_cb|]; simpl in *.
  - destruct (step_inv true _ _ k (ci_world _ Hi) He) as (r & w' & L' & Hr & _).
    destruct (step_evolve _ k r w' (ci_world _ Hi) (ci_plain _ Hi) He Hr) as [Hi' [ps Hev]].
    exists (mk_cb w' (accepted s) (completed s)). split; [by rewrite Hr|]. by eapply chan_step_inv.
  - destruct (submit_step s (take_entry c) Hi) as (b & w' & Hr & Hi'); [done|by exists c|].
    eexists. split; [unfold goc_take_cb; by rewrite Hr|done].
  - destruct (submit_step s (put_entry c v has_cb) Hi) as (b & w' & Hr & Hi'); [done|by exists c|].
    eexists. split; [unfold goc_put_cb; by rewrite Hr|done].
  - destruct (drain_step s Hi) as (ev & w2 & Hr & Hi'). eexists. split; [by rewrite Hr|done].
Qed.

Lemma cb_reachable_inv s : cb_reachable s → cb_inv s.
Proof.
  induction 1 as [|s k s' _ IH He Hr].
  - split; simpl; [by eapply inv_linked, init_inv|intros p e [He _]; simpl in He; by rewrite lookup_empty in He|..];
      try (by intros ? ?%not_elem_of_nil); by constructor.
  - destruct (cb_step s k IH He) as (s2 & Hr2 & Hi2). by assert (s2 = s') as <- by congruence.
Qed.

(** ** How long the queue can last: an entry leaves it at most twice *)

Definition weight (w : world) (p : positive) : nat :=
  match ents w !! p with None => 0 | Some e => match ech e with Some _ => 2 | None => 1 end end.
Definition measure (s : cbstate) : nat := sum_list (weight (cw s) <$> accepted s).

Lemma sum_list_le {A} (f g : A → nat) l : (∀ x, x ∈ l → (f x <= g x)%nat) → (sum_list (f <$> l) <= sum_list (g <$> l))%nat.
Proof.
  induction l as [|y l IH]; intros Hle; csimpl; [done|]. assert (f y <= g y)%nat by (apply Hle; constructor).
  assert (sum_list (f <$> l) <= sum_list (g <$> l))%nat by (apply IH; intros x Hx; apply Hle; by constructor). lia.
Qed.
Lemma sum_list_lt {A} (f g : A → nat) l x :
  (∀ x, x ∈ l → (f x <= g x)%nat) → x ∈ l → (f x < g x)%nat → (sum_list (f <$> l) < sum_list (g <$> l))%nat.
Proof.
  induction l as [|y l IH]; intros Hle Hx Hlt; [by apply not_elem_of_nil in Hx|]. csimpl.
  assert (f y <= g y)%nat by (apply Hle; constructor). apply elem_of_cons in Hx as [->|Hx].
  - assert (sum_list (f <$> l) <= sum_list (g <$> l))%nat by (apply sum_list_le; intros; apply Hle; by constructor). lia.
  - assert (sum_list (f <$> l) < sum_list (g <$> l))%nat by (apply IH; [intros; apply Hle; by constructor|done|done]). lia.
Qed.

Lemma leaves_weight s w2 p ps e :
  cb_inv s → leaves p ps (cw s) w2 → is_cb (cw s) p e → p ∈ accepted s →
  (ents w2 !! p = None ∨ is_Some (ech e) ∧ settled p e w2) →
  (sum_list (weight w2 <$> accepted s) < measure s)%nat.
Proof.
  intros Hi [Ho _ _] Hcb Hp Hset. apply (sum_list_lt _ _ _ p); [|done|].
  - intros r Hr. destruct (decide (r = p)) as [->|Hne].
    + unfold weight. rewrite (proj1 Hcb). destruct Hset as [->|[[c ->] [->|(n & c' & -> & _)]]]; simpl; repeat case_match; lia.
    + assert ((∃ e, is_cb (cw s) r e) ∨ ents (cw s) !! r = None) as [[er Hr']|Hn].
      { destruct (ci_place _ Hi r Hr) as [[[(_ & _ & er & ? & _)|(_ & er & ? & _)] _]|[[_ ?] _]]; eauto. }
      * destruct (le_keep _ _ _ _ Ho r er Hne Hr') as (e' & He' & Hs & _). unfold weight. rewrite He', (proj1 Hr').
        assert (ech e' = ech er) as -> by (unfold stat in Hs; congruence). done.
      * unfold weight. rewrite (le_gone _ _ _ _ Ho r Hne); [lia|by apply (ci_old _ Hi)|done].
  - unfold weight. rewrite (proj1 Hcb). destruct Hset as [->|[[c Hc] [->|(n & c' & -> & _)]]]; [destruct (ech e); lia|rewrite Hc; lia|].
    simpl. rewrite Hc. lia.
Qed.

Lemma drain_measure s s' : cb_inv s → cbq (cw s) ≠ [] → cb_exec CDrain s = ok s' → (measure s' < measure s)%nat ∧ accepted s' = accepted s.
Proof.
  intros Hi Hne Hr. destruct (cbq (cw s)) as [|[p x] q] eqn:Hq; [done|]. clear Hne.
  destruct (queued_head s p x q Hi Hq) as [Hqd _]. assert (p ∈ accepted s) as Hp by (apply (ci_queue_acc _ Hi), Hqd).
  destruct Hqd as (_ & _ & e & Hcb & Hst). simpl in Hr. destruct (woken e) eqn:Hwk.
  - destruct (drain_claimed s p x q e Hi Hq Hcb Hwk) as (_ & Hd & _ & Hle). destruct (ci_entry _ Hi p e Hcb) as [_ He].
    rewrite Hd, (fire_claimed_ok p e) in Hr by (try apply Hcb; apply He). injection Hr as <-. split; [|done].
    apply (leaves_weight s _ p _ e Hi Hle Hcb Hp). left. apply lookup_delete_eq.
  - destruct Hst as (c & Hech & [ch Hc]). destruct (drain_pending s p x q e c ch) as (ev & w2 & ps & Hd & _ & Hle & Hset & _); try done.
    rewrite Hd in Hr. injection Hr as <-. split; [|done]. apply (leaves_weight s _ p _ e Hi Hle Hcb Hp). right. eauto.
Qed.

Lemma measure_bound s : (measure s <= 2 * length (accepted s))%nat.
Proof.
  unfold measure. induction (accepted s) as [|p l IH]; csimpl; [lia|]. unfold weight at 1.
  destruct (ents (cw s) !! p) as [e|]; [destruct (ech e)|]; lia.
Qed.

Lemma drain_ends budget : ∀ s, cb_reachable s →
  ∃ s', drain_cb_queue budget s = ok s' ∧ cb_reachable s' ∧ accepted s' = accepted s ∧
    (cbq (cw s') = [] ∨ (measure s' + budget <= measure s)%nat).
Proof.
  induction budget as [|budget IH]; intros s Hs; cbn [drain_cb_queue]; [exists s; split_and!; [done..|]; right; lia|].
  destruct (cbq (cw s)) as [|y q] eqn:Hq; [exists s; by split_and!; [..|left]|].
  destruct (cb_step s CDrain (cb_reachable_inv _ Hs) I) as (s1 & Hr & _).
  destruct (drain_measure s s1 (cb_reachable_inv _ Hs)) as [? Ha]; [by rewrite Hq|done|]. rewrite Hr. simpl.
  destruct (IH s1) as (s' & ? & ? & Ha' & Hend); [by eapply (cbr_step s CDrain)|]. exists s'. split_and!; [done..|congruence|].
  destruct Hend; [by left|right; lia].
Qed.

Lemma wakeups_end n : ∀ s, cb_reachable s →
  ∃ s', on_wakeups n s = ok s' ∧ cb_reachable s' ∧ accepted s' = accepted s ∧
    (cbq (cw s') = [] ∨ (measure s' + n * GOC_CB_DRAIN_BUDGET <= measure s)%nat).
Proof.
  induction n as [|n IH]; intros s Hs; cbn [on_wakeups]; [exists s; split_and!; [done..|]; right; lia|].
  destruct (drain_ends GOC_CB_DRAIN_BUDGET s Hs) as (s1 & Hr & Hs1 & Ha & Hend).
  rewrite Hr. change (ok s1 ≫= on_wakeups n) with (on_wakeups n s1).
  destruct (IH s1 Hs1) as (s2 & Hr2 & Hs2 & Ha2 & Hend2). exists s2. split_and!; [done..|congruence|].
  destruct Hend2 as [?|Hm2]; [by left|]. destruct Hend as [Hq|Hm]; [|right; rewrite Nat.mul_succ_l; lia].
  left. clear - Hq Hr2. revert Hr2. clear -Hq. induction n as [|n IH]; cbn [on_wakeups]; [by intros [= <-]|].
  unfold GOC_CB_DRAIN_BUDGET. cbn [drain_cb_queue]. rewrite Hq. exact IH.
Qed.

(** ** Running sequences of calls *)

Definition cb_enabledb (s : cbstate) (k : cbcall) : bool :=
  match k with
  | CChan k => enabledb (cw s) k
  | CTakeCb c | CPutCb c _ _ => bool_decide (has_chan (cw s) c)
  | CDrain => true
  end.
Fixpoint cb_run (ks : list cbcall) (s : cbstate) : option cbstate :=
  match ks with
  | [] => Some s
  | k :: ks => if cb_enabledb s k then match cb_exec k s with ok s' => cb_run ks s' | _ => None end else None
  end.

Lemma cb_run_reachable ks : ∀ s s', cb_reachable s → cb_run ks s = Some s' → cb_reachable s'.
Proof.
  induction ks as [|k ks IH]; intros s s' Hs; simpl; [by intros [= <-]|].
  destruct (cb_enabledb s k) eqn:He; [|done]. destruct (cb_exec k s) as [s1|?| |] eqn:Hr; try done.
  apply IH. eapply cbr_step; [done| |done]. destruct k; simpl in *; try done; [by apply enabledb_ok|by apply bool_decide_eq_true in He..].
Qed.
Definition cb_after (ks : list cbcall) : cbstate := default cb_init (cb_run ks cb_init).
Lemma cb_after_reachable ks : cb_reachable (cb_after ks).
Proof. unfold cb_after. destruct (cb_run ks cb_init) eqn:E; [|apply cbr_init]. eapply cb_run_reachable; [apply cbr_init|done]. Qed.

(** ** Properties *)


(** C18: Every call that the callback queue accepted is in exactly one place: in the queue,
    in a channel's list of waiters, or completed, once, with its entry freed. *)
Theorem callbacks_accounted s :
  cb_reachable s →
  NoDup (accepted s) ∧ NoDup (completed s).*1 ∧ NoDup (cbq (cw s)).*1 ∧
  (∀ p, p ∈ (completed s).*1 ∨ p ∈ (cbq (cw s)).*1 → p ∈ accepted s) ∧ (∀ p, p ∈ accepted s → placed s p).
Proof.
  intros Hs. pose proof (cb_reachable_inv s Hs) as Hi. split_and!; try apply Hi. intros p [?|?]; [by apply (ci_done_acc _ Hi)|by apply (ci_queue_acc _ Hi)].
Qed.
Lemma callbacks_accounted_witness :
  let s := cb_after [CChan (CMake 0); CPutCb 1 7 true; CDrain; CChan (CTakeTry 1)] in NoDup (accepted s) ∧ placed s 2.
Proof.
  intros s. destruct (callbacks_accounted s) as (Hn & _ & _ & _ & Hp); [apply cb_after_reachable|]. split; [exact Hn|].
  apply Hp. apply (bool_decide_eq_true_1 _). vm_compute. reflexivity.
Defined.

(** C19: A round of the queue on a call that was not processed before does what a put or a
    take does: it completes with the status of the matching branch, gives the callback the
    channel, the value and that status, and frees the entry; or, where a put or a take
    would block, it links the entry as the last waiter and calls nothing. *)
Theorem pending_call_behaviour s p x q e c ch :
  cb_reachable s → cbq (cw s) = (p, x) :: q → ents (cw s) !! p = Some e → woken e = false → ech e = Some c → chans (cw s) !! c = Some ch →
  ∃ ev w', drain_one (cw s) = ok (ev, w') ∧
    if is_put e then pending_put (cw s) p c q e ch ev w' else pending_take (cw s) p c q e ch ev w'.
Proof.
  intros Hs Hq He Hwk Hech Hc. pose proof (cb_reachable_inv s Hs) as Hi. destruct (queued_head s p x q Hi Hq) as [(_ & _ & e0 & Hcb & _) _].
  assert (e0 = e) as -> by (destruct Hcb; congruence). destruct (drain_pending s p x q e c ch) as (ev & w2 & _ & ? & _ & _ & _ & ?); eauto.
Qed.

Lemma pending_call_behaviour_witness :
  let s := cb_after [CChan (CMake 1); CPutCb 1 7 true] in
  ∃ ev w', drain_one (cw s) = ok (ev, w') ∧ pending_put (cw s) 2 1 [] (put_entry 1 7 true) (new_chan 1) ev w'.
Proof.
  intros s. apply (pending_call_behaviour s 2 0 [] (put_entry 1 7 true) 1 (new_chan 1)); [apply cb_after_reachable|..]; vm_compute; reflexivity.
Defined.

(** A callback whose call had to wait gets the value and the status that the waker left,
    but no channel: the loop thread cleared it when it linked the entry.  So [goc_close_cb]
    closes nothing then. *)
Theorem waited_callback_has_no_channel s p x q e :
  cb_reachable s → cbq (cw s) = (p, x) :: q → ents (cw s) !! p = Some e → woken e = true →
  ∃ ev w', drain_one (cw s) = ok (ev, w') ∧ ents w' = delete p (ents (cw s)) ∧
    (cb e = true → ev = Some (None, cb_result e, ok_ e)) ∧ (cb e = false → put_cb e = true → ev = Some (None, put_val e, ok_ e)) ∧
    ∀ a, ev = Some a → goc_close_cb a w' = ok (tt, w').
Proof.
  intros Hs Hq He Hwk. pose proof (cb_reachable_inv s Hs) as Hi. destruct (queued_head s p x q Hi Hq) as [(_ & _ & e0 & Hcb & _) _].
  assert (e0 = e) as -> by (destruct Hcb; congruence). destruct (drain_claimed s p x q e Hi Hq Hcb Hwk) as (Hech & -> & _).
  destruct (ci_entry _ Hi p e Hcb) as [_ Hce]. rewrite (fire_claimed_ok p e) by (try apply Hcb; apply Hce). rewrite Hech.
  eexists _, _. split_and!; [done|done|by intros ->|by intros -> ->|]. intros a. by destruct (cb e), (put_cb e); intros [= <-].
Qed.

Lemma waited_callback_has_no_channel_witness :
  let s := cb_after [CChan (CMake 0); CPutCb 1 7 true; CDrain; CChan (CTakeTry 1)] in
  let e := default (put_entry 1 7 true) (ents (cw s) !! 2%positive) in
  ∃ ev w', drain_one (cw s) = ok (ev, w') ∧ ents w' = delete 2%positive (ents (cw s)) ∧
    (cb e = true → ev = Some (None, cb_result e, ok_ e)) ∧ (cb e = false → put_cb e = true → ev = Some (None, put_val e, ok_ e)) ∧
    ∀ a, ev = Some a → goc_close_cb a w' = ok (tt, w').
Proof.
  intros s e. apply (waited_callback_has_no_channel s 2 0 [] e); [apply cb_after_reachable|..]; vm_compute; reflexivity.
Defined.

(** The callback queue runs empty.  While the callbacks make no calls, as many
    wake-ups as twice the accepted calls over the budget of a drain empty it, after which
    every accepted call is completed or waits on its channel. *)
Theorem wakeups_empty_queue s n :
  cb_reachable s → (2 * length (accepted s) < n * GOC_CB_DRAIN_BUDGET)%nat →
  ∃ s', on_wakeups n s = ok s' ∧ cb_reachable s' ∧ cbq (cw s') = [] ∧ accepted s' = accepted s ∧
    ∀ p, p ∈ accepted s → waits (cw s') p ∨ p ∈ (completed s').*1.
Proof.
  intros Hs Hn. destruct (wakeups_end n s Hs) as (s' & Hr & Hs' & Ha & Hend). pose proof (measure_bound s).
  assert (cbq (cw s') = []) as Hq by (destruct Hend; [done|lia]). exists s'. split_and!; [done..|]. intros p Hp. rewrite <- Ha in Hp.
  destruct (ci_place _ (cb_reachable_inv s' Hs') p Hp) as [[[(Hin & _)|?] _]|[_ ?]]; [|by left|by right].
  rewrite Hq in Hin. by apply not_elem_of_nil in Hin.
Qed.
Lemma wakeups_empty_queue_witness :
  let s := cb_after [CChan (CMake 1); CPutCb 1 7 true; CPutCb 1 8 true; CTakeCb 1] in
  ∃ s', on_wakeups 1 s = ok s' ∧ cb_reachable s' ∧ cbq (cw s') = [] ∧ accepted s' = accepted s ∧
    ∀ p, p ∈ accepted s → waits (cw s') p ∨ p ∈ (completed s').*1.
Proof. intros s. apply (wakeups_empty_queue s 1); [apply cb_after_reachable|apply Nat.ltb_lt; vm_compute; reflexivity]. Defined.

End ChanCbProps.
