(* ===== verification/Alts.v ===== *)
(** Select over channels (src/alts.c): [goc_alts] and [goc_alts_sync].

    The arms of a select are shuffled, tried one after the other, and, if none is
    ready, tried again with all channel locks held and then parked together: one
    entry per arm, all sharing one fired flag.  Module [Alts] holds the seven
    phases over the world of [Chan]. *)

From S2P Require Import Prelude Chan.
Import Chan.

Module Alts.

(** ** Data *)

Inductive goc_alt_kind := GOC_ALT_TAKE | GOC_ALT_PUT | GOC_ALT_DEFAULT.
#[export] Instance goc_alt_kind_eq : EqDecision goc_alt_kind.
Proof. solve_decision. Defined.

(** [goc_alt_op_t]. *)
Record goc_alt_op := mk_op { op_ch : option positive; op_kind : goc_alt_kind; op_put_val : Z }.

(** [goc_alts_result_t]. *)
Record goc_alts_result := mk_result { res_ch : option positive; res_value : goc_val }.

(** ** Phase 1: the shuffled arms *)

Definition wrap32 (z : Z) : Z := z mod 4294967296.

(** The next random number and the next state. *)
Definition alts_lcg_rand (state : Z) : Z * Z :=
  let state := wrap32 (wrap32 (state * 1103515245) + 12345) in
  (Z.land (Z.shiftr state 16) 2147483647, state).

Definition opt_res {A} (o : option A) : res A := match o with Some a => ok a | None => ub end.

(** [tmp = indices[i]; indices[i] = indices[j]; indices[j] = tmp;] *)
Definition swap_at (l : list Z) (i j : Z) : res (list Z) :=
  tmp ← opt_res (zget l i);
  x ← opt_res (zget l j);
  l ← opt_res (zset l i x);
  opt_res (zset l j tmp).

(** [for (size_t i = n - 1; i > 0; i--)]. *)
Fixpoint shuffle_loop (i : nat) (seed : Z) (indices : list Z) : res (list Z) :=
  match i with
  | O => ok indices
  | S i' =>
      let '(r, seed) := alts_lcg_rand seed in
      indices ← swap_at indices (Z.of_nat i) (r mod (Z.of_nat i + 1));
      shuffle_loop i' seed indices
  end.

(** The second component is [g_alts_rand_seed] after the call. *)
Definition alts_shuffle (g_seed : Z) (indices : list Z) : res (list Z * Z) :=
  match indices with
  | [] | [_] => ok (indices, g_seed)
  | _ => indices ← shuffle_loop (length indices - 1) g_seed indices;
         ok (indices, wrap32 (g_seed + 1))
  end.

Fixpoint index_loop (func_name : string) (ops : list goc_alt_op) (i n_default : Z)
    (indices : list Z) (default_idx : option Z) : res (list Z * option Z) :=
  match ops with
  | [] => ok (indices, default_idx)
  | op :: ops =>
      match op_kind op with
      | GOC_ALT_DEFAULT =>
          if 1 <? n_default + 1
          then abort (func_name +:+ ": more than one default arm provided")
          else index_loop func_name ops (i + 1) (n_default + 1) indices (Some i)
      | _ => index_loop func_name ops (i + 1) n_default (indices ++ [i]) default_idx
      end
  end.

(** The shuffled indices of the arms, the default arm ([(size_t)-1] is [None]), and
    the seed left behind. *)
Definition alts_build_index_array (func_name : string) (g_seed : Z) (ops : list goc_alt_op)
    : res (list Z * option Z * Z) :=
  '(indices, default_idx) ← index_loop func_name ops 0 0 [] None;
  '(indices, g_seed) ← alts_shuffle g_seed indices;
  ok (indices, default_idx, g_seed).

(** ** Phase 2: trying the arms *)

Definition result_of (c : positive) (v : goc_val) : goc_alts_result := mk_result (Some c) v.

(** The take arm of phases 2 and 5. *)
Definition try_take (c : positive) : prog world (option goc_alts_result) :=
  b ← chan_take_from_buffer c;
  match b with
  | Some v => mret (Some (result_of c (v, GOC_OK)))
  | None =>
      r ← chan_take_from_putter c;
      match r with
      | Some v => mret (Some (result_of c (v, GOC_OK)))
      | None =>
          ch ← get_chan c;
          if closed ch && (buf_count ch =? 0) then mret (Some (result_of c (0, GOC_CLOSED)))
          else mret None
      end
  end.

(** The put arm of phase 2: the buffer before the waiting takers. *)
Definition try_put (c : positive) (v : Z) : prog world (option goc_alts_result) :=
  ch ← get_chan c;
  if closed ch then mret (Some (result_of c (0, GOC_CLOSED)))
  else
    b ← chan_put_to_buffer c v;
    if b : bool then mret (Some (result_of c (0, GOC_OK)))
    else
      t ← chan_put_to_taker c v;
      mret (if t : bool then Some (result_of c (0, GOC_OK)) else None).

(** The put arm of phase 5: the waiting takers before the buffer. *)
Definition rescan_put (c : positive) (v : Z) : prog world (option goc_alts_result) :=
  ch ← get_chan c;
  if closed ch then mret (Some (result_of c (0, GOC_CLOSED)))
  else
    t ← chan_put_to_taker c v;
    if t : bool then mret (Some (result_of c (0, GOC_OK)))
    else
      b ← chan_put_to_buffer c v;
      mret (if b : bool then Some (result_of c (0, GOC_OK)) else None).

Definition try_arm (put : positive → Z → prog world (option goc_alts_result)) (op : goc_alt_op)
    : prog world (option goc_alts_result) :=
  c ← of_option (op_ch op);
  match op_kind op with GOC_ALT_TAKE => try_take c | _ => put c (op_put_val op) end.

(** The loop of phases 2 and 5 over the shuffled arms. *)
Fixpoint try_arms (put : positive → Z → prog world (option goc_alts_result))
    (ops : list goc_alt_op) (indices : list Z) : prog world (option goc_alts_result) :=
  match indices with
  | [] => mret None
  | i :: indices =>
      op ← of_option (zget ops i);
      r ← try_arm put op;
      match r with Some r => mret (Some r) | None => try_arms put ops indices end
  end.

Definition alts_try_immediate : list goc_alt_op → list Z → prog world (option goc_alts_result) :=
  try_arms try_put.

(** ** Phases 3 and 4: the locks, in ascending order of the channels' addresses *)

Definition collect_channels (ops : list goc_alt_op) : list positive :=
  ops ≫= λ op, match op_kind op, op_ch op with
               | GOC_ALT_DEFAULT, _ | _, None => []
               | _, Some c => [c]
               end.

(** Inserting [key] into the sorted prefix, given from its last element down. *)
Fixpoint insert_key (key : positive) (r : list positive) : list positive :=
  match r with
  | x :: r' => if (key <? x)%positive then x :: insert_key key r' else key :: r
  | [] => [key]
  end.

Definition sort_channels (l : list positive) : list positive :=
  rev (foldl (λ r key, insert_key key r) [] l).

Fixpoint dedup_loop (prev : positive) (l : list positive) : list positive :=
  match l with
  | [] => []
  | x :: l => if decide (x = prev) then dedup_loop prev l else x :: dedup_loop x l
  end.

Definition alts_dedup_sort_channels (ops : list goc_alt_op) : list positive :=
  match sort_channels (collect_channels ops) with
  | [] => []
  | x :: l => x :: dedup_loop x l
  end.

(** ** Phases 3 and 6: parking

    The entries of phase 3 are private until phase 6 links them, so they are placed
    in the heap there, with the park generation that was assigned after phase 5. *)

(** [goc_new(_Atomic int)], cleared. *)
Definition new_flag : prog world positive :=
  a ← fresh; modify (set_flags (<[a := false]>));; mret a.

Definition takes (op : goc_alt_op) : bool := match op_kind op with GOC_ALT_TAKE => true | _ => false end.

Definition alts_fiber_entry (i a : positive) (gen : Z) (arm : Z) (op : goc_alt_op) : goc_entry :=
  {| kind := GOC_FIBER; cancelled := false; woken := false; fired := Some a; next := None;
     home_worker_idx := 0; coro := i; result_slot := takes op; ok_ := GOC_CLOSED; arm_idx := arm;
     cb := false; put_cb := false; cb_result := 0;
     put_val := if takes op then 0 else op_put_val op; ech := None; is_put := false;
     free_on_drain := false; sync_sem_ptr := 1; parked_gen := gen |}.

Definition alts_sync_entry (s a : positive) (arm : Z) (op : goc_alt_op) : goc_entry :=
  {| kind := GOC_SYNC; cancelled := false; woken := false; fired := Some a; next := None;
     home_worker_idx := 0; coro := 1; result_slot := true; ok_ := GOC_CLOSED; arm_idx := arm;
     cb := false; put_cb := false; cb_result := 0;
     put_val := if takes op then 0 else op_put_val op; ech := None; is_put := false;
     free_on_drain := false; sync_sem_ptr := s; parked_gen := 0 |}.

Fixpoint new_entries (mk : Z → goc_alt_op → goc_entry) (ops : list goc_alt_op) (indices : list Z)
    : prog world (list positive) :=
  match indices with
  | [] => mret []
  | i :: indices =>
      op ← of_option (zget ops i);
      p ← new_entry (mk i op);
      ps ← new_entries mk ops indices;
      mret (p :: ps)
  end.

Definition side_of (op : goc_alt_op) : side := if takes op then Takers else Putters.

Fixpoint enqueue (ops : list goc_alt_op) (indices : list Z) (entries : list positive) : prog world () :=
  match indices, entries with
  | i :: indices, p :: entries =>
      op ← of_option (zget ops i);
      c ← of_option (op_ch op);
      chan_list_append (side_of op) c p;;
      enqueue ops indices entries
  | _, _ => mret tt
  end.

(** ** The two selects *)

(** A select returns, or parks on one entry per arm (and, for a thread, a shared
    semaphore). *)
Inductive alts_outcome :=
| AltRet (r : goc_alts_result)
| AltPark (entries : list positive) (sem : option positive).

Definition goc_alts_park (i : positive) (ops : list goc_alt_op) (indices : list Z) : prog world alts_outcome :=
  a ← new_flag;
  again ← try_arms rescan_put ops indices;
  match again with
  | Some r => mret (AltRet r)
  | None =>
      gen ← begin_park i;
      entries ← new_entries (alts_fiber_entry i a gen) ops indices;
      enqueue ops indices entries;;
      mret (AltPark entries None)
  end.

Definition goc_alts_sync_park (ops : list goc_alt_op) (indices : list Z) : prog world alts_outcome :=
  s ← goc_sync_init;
  a ← new_flag;
  again ← try_arms rescan_put ops indices;
  match again with
  | Some r => goc_sync_destroy s;; mret (AltRet r)
  | None =>
      entries ← new_entries (alts_sync_entry s a) ops indices;
      enqueue ops indices entries;;
      mret (AltPark entries (Some s))
  end.

(** Phases 1 and 2, the default arm, and then the parking of the caller's kind; the
    seed of the next select is returned as well. *)
Definition alts_common (func_name : string) (g_seed : Z) (ops : list goc_alt_op)
    (park : list Z → prog world alts_outcome) : prog world (alts_outcome * Z) :=
  '(indices, default_idx, g_seed) ← of_res (alts_build_index_array func_name g_seed ops);
  immediate ← alts_try_immediate ops indices;
  match immediate with
  | Some r => mret (AltRet r, g_seed)
  | None =>
      match default_idx with
      | Some d => op ← of_option (zget ops d);
                  mret (AltRet (mk_result (op_ch op) (0, GOC_OK)), g_seed)
      | None => r ← park indices; mret (r, g_seed)
      end
  end.

Definition goc_alts (cx : ctx) (g_seed : Z) (ops : list goc_alt_op) : prog world (alts_outcome * Z) :=
  match cx with
  | InFiber i _ => alts_common "goc_alts" g_seed ops (goc_alts_park i ops)
  | _ => ABORT "goc_alts: cannot be called from OS thread (not in fiber context)"
  end.

Definition goc_alts_sync (cx : ctx) (g_seed : Z) (ops : list goc_alt_op) : prog world (alts_outcome * Z) :=
  match cx with
  | InFiber _ _ => ABORT "goc_alts_sync: cannot be called from fiber context"
  | _ => alts_common "goc_alts_sync" g_seed ops (goc_alts_sync_park ops)
  end.

(** ** Phase 7 *)

(** Cancels the losers; the last woken entry is the winner. *)
Fixpoint cancel_losers (entries : list positive) (winner : option positive) : prog world (option positive) :=
  match entries with
  | [] => mret winner
  | p :: entries =>
      e ← get_ent p;
      if woken e then cancel_losers entries (Some p)
      else upd_ent p set_cancelled;; cancel_losers entries winner
  end.

Definition winner_result (func_name : string) (ops : list goc_alt_op) (winner : option positive)
    : prog world goc_alts_result :=
  match winner with
  | None => ABORT (func_name +:+ ": no winner after wake")
  | Some p =>
      e ← get_ent p;
      op ← of_option (zget ops (arm_idx e));
      mret (mk_result (op_ch op) (if result_slot e then cb_result e else 0, ok_ e))
  end.

(** After [mco_yield] returns in [goc_alts]. *)
Definition goc_alts_resume (i : positive) (ops : list goc_alt_op) (entries : list positive)
    : prog world goc_alts_result :=
  set_parked i 0;;
  w ← cancel_losers entries None;
  winner_result "goc_alts" ops w.

(** After the entries of [goc_alts_sync] are linked. *)
Definition goc_alts_sync_resume (s : positive) (ops : list goc_alt_op) (entries : list positive)
    : prog world goc_alts_result :=
  goc_sync_wait s;;
  goc_sync_destroy s;;
  w ← cancel_losers entries None;
  winner_result "goc_alts_sync" ops w.

End Alts.
