(* ===== verification/AltsProps.v ===== *)
(** Properties of select: the order in which arms are tried, the order in which
    locks are taken, what happens when an arm is ready, and the single winner of a
    parked select. *)

From stdpp Require Import sorting.
From S2P Require Import Prelude Chan ChanInv ChanOps ChanClose ChanProps Alts.
Import Chan ChanInv ChanOps ChanClose ChanProps Alts.

Module AltsProps.

(** ** The order of the arms *)

Lemma swap_at_ok l i j :
  0 <= i < Z.of_nat (length l) → 0 <= j < Z.of_nat (length l) →
  ∃ l', swap_at l i j = ok l' ∧ l' ≡ₚ l.
Proof.
  intros Hi Hj. destruct (zget_is_Some l i Hi) as [x Hx], (zget_is_Some l j Hj) as [y Hy].
  unfold swap_at. rewrite Hx, Hy. simpl. rewrite zset_in by done. simpl.
  rewrite zset_in by (by rewrite length_insert). eexists. split; [done|].
  apply zget_Some in Hx as [_ Hx], Hy as [_ Hy]. by apply Permutation_insert_swap.
Qed.

Lemma shuffle_loop_ok i : ∀ seed l, (i < length l)%nat →
  ∃ l', shuffle_loop i seed l = ok l' ∧ l' ≡ₚ l.
Proof.
  induction i as [|i IH]; intros seed l Hi; [by exists l|]. cbn [shuffle_loop].
  destruct (alts_lcg_rand seed) as [r seed'].
  destruct (swap_at_ok l (Z.of_nat (S i)) (r mod (Z.of_nat (S i) + 1))) as (l1 & -> & Hp1); [lia| |].
  { pose proof (Z.mod_pos_bound r (Z.of_nat (S i) + 1)). lia. }
  simpl. destruct (IH seed' l1) as (l2 & Hr & Hp2).
  { rewrite (Permutation_length Hp1). lia. }
  exists l2. split; [done|]. by etrans.
Qed.

Lemma shuffle_ok seed l : ∃ l' seed', alts_shuffle seed l = ok (l', seed') ∧ l' ≡ₚ l.
Proof.
  unfold alts_shuffle. destruct l as [|x [|y l]]; [by eexists _, _..|].
  destruct (shuffle_loop_ok (length (x :: y :: l) - 1) seed (x :: y :: l)) as (l' & Hr & Hp); [simpl; lia|].
  eexists l', _. split; [|done]. by rewrite Hr.
Qed.

Definition is_default (op : goc_alt_op) : Prop := op_kind op = GOC_ALT_DEFAULT.
#[export] Instance is_default_dec op : Decision (is_default op).
Proof. unfold is_default. apply _. Defined.

(** The positions of the arms from [i] on that are not the default. *)
Fixpoint arm_positions (i : Z) (ops : list goc_alt_op) : list Z :=
  match ops with
  | [] => []
  | op :: ops => if decide (is_default op) then arm_positions (i + 1) ops
                 else i :: arm_positions (i + 1) ops
  end.

Lemma arm_positions_elem ops : ∀ i j, j ∈ arm_positions i ops ↔
  ∃ op, i <= j ∧ zget ops (j - i) = Some op ∧ ¬ is_default op.
Proof.
  induction ops as [|op ops IH]; intros i j; simpl.
  - split; [by intros ?%not_elem_of_nil|]. intros (op & _ & [_ Hg]%zget_Some & _). done.
  - assert (Hcons : ∀ o, i + 1 <= j → zget ops (j - (i + 1)) = Some o ↔ zget (op :: ops) (j - i) = Some o).
    { intros o Hj. rewrite !zget_Some. replace (Z.to_nat (j - i)) with (S (Z.to_nat (j - (i + 1)))) by lia.
      simpl. split; intros [? ?]; (split; [lia|done]). }
    assert (Hlater : (∃ o, i + 1 <= j ∧ zget ops (j - (i + 1)) = Some o ∧ ¬ is_default o) ↔
      ∃ o, i + 1 <= j ∧ zget (op :: ops) (j - i) = Some o ∧ ¬ is_default o).
    { split; intros (o & Hj & Ho & Hd); exists o; (split_and!; [done|by apply Hcons|done]). }
    assert (H0 : zget (op :: ops) (i - i) = Some op) by (rewrite Z.sub_diag; by apply zget_Some).
    case_decide as Hd; rewrite ?elem_of_cons, IH, Hlater.
    + split; intros (o & Hj & Ho & Hd').
      * exists o. split_and!; [lia|done|done].
      * exists o. split_and!; [|done|done]. destruct (decide (j = i)) as [->|]; [congruence|lia].
    + split.
      * intros [->|(o & Hj & Ho & Hd')]; [exists op; split_and!; [lia|done|done]|].
        exists o. split_and!; [lia|done|done].
      * intros (o & Hj & Ho & Hd'). destruct (decide (j = i)) as [->|]; [by left|right].
        exists o. split_and!; [lia|done|done].
Qed.

Lemma arm_positions_NoDup ops : ∀ i, NoDup (arm_positions i ops).
Proof.
  induction ops as [|op ops IH]; intros i; simpl; [constructor|]. case_decide; [apply IH|].
  constructor; [|apply IH]. intros (o & Hj & _)%arm_positions_elem. lia.
Qed.

(** The position of the default arm. *)
Fixpoint default_position (i : Z) (ops : list goc_alt_op) (d : option Z) : option Z :=
  match ops with
  | [] => d
  | op :: ops => default_position (i + 1) ops (if decide (is_default op) then Some i else d)
  end.

Lemma count_cons {A} (P : A → Prop) `{∀ x, Decision (P x)} x l :
  count P (x :: l) = ((if decide (P x) then 1 else 0) + count P l)%nat.
Proof. unfold count. rewrite filter_cons. by case_decide. Qed.

Lemma index_loop_cons f op ops i n ind d :
  index_loop f (op :: ops) i n ind d =
  if decide (is_default op)
  then if 1 <? n + 1 then abort (f +:+ ": more than one default arm provided")
       else index_loop f ops (i + 1) (n + 1) ind (Some i)
  else index_loop f ops (i + 1) n (ind ++ [i]) d.
Proof.
  cbn [index_loop]. destruct (decide (is_default op)) as [Hd|Hd].
  - unfold is_default in Hd. by rewrite Hd.
  - unfold is_default in Hd. by destruct (op_kind op).
Qed.

Lemma index_loop_ok f ops : ∀ i n ind d,
  n + Z.of_nat (count is_default ops) <= 1 →
  index_loop f ops i n ind d = ok (ind ++ arm_positions i ops, default_position i ops d).
Proof.
  induction ops as [|op ops IH]; intros i n ind d Hc; [simpl; by rewrite app_nil_r|].
  rewrite count_cons in Hc. rewrite index_loop_cons. cbn [arm_positions default_position].
  case_decide.
  - destruct (Z.ltb_spec 1 (n + 1)); [lia|]. apply IH. lia.
  - rewrite IH by lia. by rewrite <- app_assoc.
Qed.

Lemma index_loop_abort f ops : ∀ i n ind d, 0 <= n →
  1 < n + Z.of_nat (count is_default ops) → count is_default ops ≠ 0%nat →
  index_loop f ops i n ind d = abort (f +:+ ": more than one default arm provided").
Proof.
  induction ops as [|op ops IH]; intros i n ind d Hn Hc Hz; [done|].
  rewrite count_cons in Hc, Hz. rewrite index_loop_cons. case_decide; [|by apply IH].
  destruct (Z.ltb_spec 1 (n + 1)); [done|]. apply IH; lia.
Qed.

Lemma default_position_spec ops : ∀ i d,
  match default_position i ops d with
  | Some j => d = Some j ∨ ∃ op, i <= j ∧ zget ops (j - i) = Some op ∧ is_default op
  | None => d = None ∧ Forall (λ op, ¬ is_default op) ops
  end.
Proof.
  induction ops as [|op ops IH]; intros i d; simpl.
  { destruct d; [by left|]. split; [done|constructor]. }
  specialize (IH (i + 1) (if decide (is_default op) then Some i else d)).
  destruct (default_position (i + 1) ops _) as [j|].
  - destruct IH as [Hd|(o & Hj & Hg & Ho)].
    + case_decide; [|by left]. right. injection Hd as ->. exists op. split_and!; [lia| |done].
      rewrite Z.sub_diag. by apply zget_Some.
    + right. exists o. split_and!; [lia| |done]. apply zget_Some in Hg as [? Hg]. apply zget_Some.
      split; [lia|]. by replace (Z.to_nat (j - i)) with (S (Z.to_nat (j - (i + 1)))) by lia.
  - destruct IH as [Hd Hf]. case_decide; [done|]. split; [done|]. by constructor.
Qed.

Lemma build_index_ok f seed ops :
  (count is_default ops <= 1)%nat →
  ∃ ind seed', alts_build_index_array f seed ops = ok (ind, default_position 0 ops None, seed') ∧
    ind ≡ₚ arm_positions 0 ops.
Proof.
  intros Hc. unfold alts_build_index_array. rewrite index_loop_ok by lia. simpl.
  destruct (shuffle_ok seed (arm_positions 0 ops)) as (ind & seed' & Hs & Hp).
  exists ind, seed'. split; [|done]. by rewrite Hs.
Qed.

(** ** The order of the locks *)

Lemma insert_key_perm k r : insert_key k r ≡ₚ k :: r.
Proof.
  induction r as [|x r IH]; simpl; [done|]. destruct (Pos.ltb_spec k x); [|done].
  rewrite IH. apply Permutation_swap.
Qed.

Lemma insert_key_sorted k r :
  StronglySorted (flip Pos.le) r → StronglySorted (flip Pos.le) (insert_key k r).
Proof.
  induction 1 as [|x r Hs IH Hf]; simpl; [repeat constructor|].
  destruct (Pos.ltb_spec k x).
  - constructor; [done|]. rewrite insert_key_perm. constructor; [unfold flip; lia|done].
  - constructor; [by constructor|]. constructor; [unfold flip; lia|].
    eapply Forall_impl; [exact Hf|]. unfold flip. intros y Hy. lia.
Qed.

Lemma StronglySorted_rev {A} (R : relation A) l : StronglySorted (flip R) l → StronglySorted R (rev l).
Proof.
  induction 1 as [|x l Hs IH Hf]; simpl; [constructor|]. apply StronglySorted_app_2; [|done|repeat constructor].
  intros y z Hy ->%list_elem_of_singleton. rewrite Forall_forall in Hf. apply Hf.
  by rewrite <- rev_alt, elem_of_reverse in Hy || (apply list_elem_of_In, in_rev, list_elem_of_In in Hy).
Qed.

Lemma sort_channels_spec l : StronglySorted Pos.le (sort_channels l) ∧ sort_channels l ≡ₚ l.
Proof.
  unfold sort_channels.
  assert (H : ∀ r, StronglySorted (flip Pos.le) r →
    StronglySorted (flip Pos.le) (foldl (λ r key, insert_key key r) r l) ∧
    foldl (λ r key, insert_key key r) r l ≡ₚ l ++ r).
  { induction l as [|x l IH]; intros r Hr; simpl; [done|].
    destruct (IH (insert_key x r)) as [Hs Hp]; [by apply insert_key_sorted|]. split; [done|].
    rewrite Hp, insert_key_perm. symmetry. apply Permutation_middle. }
  destruct (H []) as [Hs Hp]; [constructor|]. rewrite app_nil_r in Hp. split.
  - by apply StronglySorted_rev.
  - rewrite <- Hp at 2. symmetry. apply Permutation_rev.
Qed.

Lemma dedup_loop_elem x y l : y ∈ x :: dedup_loop x l ↔ y ∈ x :: l.
Proof.
  revert x. induction l as [|z l IH]; intros x; simpl; [done|]. case_decide as Hz.
  - subst z. rewrite IH. rewrite !elem_of_cons. tauto.
  - rewrite (elem_of_cons _ y x), IH, !elem_of_cons. tauto.
Qed.

Lemma dedup_loop_sorted x l :
  StronglySorted Pos.le (x :: l) → StronglySorted Pos.lt (x :: dedup_loop x l).
Proof.
  revert x. induction l as [|z l IH]; intros x Hs; simpl; [repeat constructor|].
  apply StronglySorted_inv in Hs as [Hs Hf]. case_decide as Hz.
  - subst z. by apply IH.
  - pose proof (IH z Hs) as Hz'. constructor; [done|]. apply Forall_forall. intros y Hy.
    rewrite dedup_loop_elem in Hy. apply Forall_cons in Hf as [Hxz _].
    apply StronglySorted_inv in Hs as [_ Hf]. rewrite Forall_forall in Hf.
    apply elem_of_cons in Hy as [->|Hy%Hf]; lia.
Qed.

Lemma dedup_sort_spec ops :
  StronglySorted Pos.lt (alts_dedup_sort_channels ops) ∧
  ∀ c, c ∈ alts_dedup_sort_channels ops ↔ c ∈ collect_channels ops.
Proof.
  unfold alts_dedup_sort_channels. destruct (sort_channels_spec (collect_channels ops)) as [Hs Hp].
  destruct (sort_channels (collect_channels ops)) as [|x l].
  - split; [constructor|]. intros c. by rewrite <- Hp.
  - split; [by apply dedup_loop_sorted|]. intros c. by rewrite dedup_loop_elem, <- Hp.
Qed.

(** ** Taking several locks

    A thread that runs a select takes the locks of [alts_dedup_sort_channels] one by
    one and releases them in reverse order; any other channel operation takes one
    lock.  [wants] is what is still to be taken. *)
Record locker := mk_locker { held : list positive; wants : list positive }.

Definition lock_free (ts : list locker) (c : positive) : Prop := ∀ t, t ∈ ts → c ∉ held t.

Inductive lock_step : list locker → list locker → Prop :=
| lock_acquire ts1 ts2 h c r :
    lock_free (ts1 ++ mk_locker h (c :: r) :: ts2) c →
    lock_step (ts1 ++ mk_locker h (c :: r) :: ts2) (ts1 ++ mk_locker (h ++ [c]) r :: ts2)
| lock_release ts1 ts2 h c :
    lock_step (ts1 ++ mk_locker (h ++ [c]) [] :: ts2) (ts1 ++ mk_locker h [] :: ts2).

Definition starts (t : locker) : Prop :=
  held t = [] ∧ ((∃ ops, wants t = alts_dedup_sort_channels ops) ∨ ∃ c, wants t = [c]).

(** What is left to do: a lock is taken and released once. *)
Definition work (ts : list locker) : nat :=
  sum_list_with (λ t, 2 * length (wants t) + length (held t))%nat ts.

Definition ordered (t : locker) : Prop := StronglySorted Pos.lt (held t ++ wants t).

Lemma starts_ordered t : starts t → ordered t.
Proof.
  intros [Hh [[ops Hw]|[c Hw]]]; unfold ordered; rewrite Hh, Hw; simpl; [apply dedup_sort_spec|].
  repeat constructor.
Qed.

Lemma lock_step_ordered ts ts' : lock_step ts ts' → Forall ordered ts → Forall ordered ts'.
Proof.
  intros [ts1 ts2 h c r _|ts1 ts2 h c]; rewrite !Forall_app, !Forall_cons; intros (H1 & Ht & H2);
    (split_and!; [done| |done]); unfold ordered in *; simpl in *.
  - by rewrite <- app_assoc.
  - rewrite app_nil_r in *. by eapply StronglySorted_app_1_l.
Qed.

Lemma lock_step_work ts ts' : lock_step ts ts' → (work ts' < work ts)%nat.
Proof.
  intros [ts1 ts2 h c r _|ts1 ts2 h c]; unfold work; rewrite !sum_list_with_app; simpl;
    rewrite length_app; simpl; lia.
Qed.

Lemma max_elem (l : list positive) : l ≠ [] → ∃ m, m ∈ l ∧ ∀ x, x ∈ l → (x <= m)%positive.
Proof.
  induction l as [|x [|y l] IH]; [done|..]; intros _.
  - exists x. split; [constructor|]. intros z ->%list_elem_of_singleton. lia.
  - destruct IH as (m & Hm & Hmax); [done|]. destruct (decide (m <= x)%positive).
    + exists x. split; [constructor|]. intros z [->|Hz%Hmax]%elem_of_cons; lia.
    + exists m. split; [by constructor|]. intros z [->|Hz%Hmax]%elem_of_cons; lia.
Qed.

(** A thread that holds a lock and wants none can release. *)
Lemma can_release ts t : t ∈ ts → wants t = [] → held t ≠ [] → ∃ ts', lock_step ts ts'.
Proof.
  intros (ts1 & ts2 & ->)%list_elem_of_split Hw Hh. destruct t as [h w]. simpl in *. subst w.
  destruct h as [|c h _] using rev_ind; [done|]. eexists. apply lock_release.
Qed.

Lemma lock_progress ts :
  Forall ordered ts → (∀ t, t ∈ ts → t = mk_locker [] []) ∨ ∃ ts', lock_step ts ts'.
Proof.
  intros Hord. set (heads := omap (λ t, head (wants t)) ts).
  assert (Hheads : ∀ c, c ∈ heads ↔ ∃ t, t ∈ ts ∧ head (wants t) = Some c) by (intros; apply list_elem_of_omap).
  destruct (decide (heads = [])) as [Hn|Hn].
  - assert (Hw : ∀ t, t ∈ ts → wants t = []).
    { intros t Ht. destruct (wants t) as [|c r] eqn:E; [done|]. assert (c ∈ heads) as Hc.
      { apply Hheads. exists t. by rewrite E. }
      rewrite Hn in Hc. by apply not_elem_of_nil in Hc. }
    destruct (decide (Exists (λ t, held t ≠ []) ts)) as [He|He].
    + apply Exists_exists in He as (t & Ht & Hh). right. by eapply can_release; [..|exact Hh]; auto.
    + left. intros t Ht. destruct t as [h w]. pose proof (Hw _ Ht) as Hwt. simpl in Hwt. subst w. f_equal.
      destruct (decide (h = [])) as [|Hh]; [done|]. destruct He. apply Exists_exists. by eexists.
  - destruct (max_elem heads Hn) as (m & Hm & Hmax). apply Hheads in Hm as (t & Ht & Hmt).
    destruct t as [h [|c r]]; [done|]. injection Hmt as ->. right.
    destruct (decide (Exists (λ t, m ∈ held t) ts)) as [He|He].
    + apply Exists_exists in He as (t' & Ht' & Hin). destruct (decide (wants t' = [])) as [Hw|Hw].
      * eapply can_release; [done|done|]. intros Hh. rewrite Hh in Hin. by apply not_elem_of_nil in Hin.
      * exfalso. destruct (wants t') as [|c2 r2] eqn:E; [done|].
        rewrite Forall_forall in Hord. pose proof (Hord t' Ht') as Ho. unfold ordered in Ho. rewrite E in Ho.
        assert (m < c2)%positive by (eapply StronglySorted_app_1_elem_of; [exact Ho|done|constructor]).
        assert (c2 ∈ heads) as Hc2%Hmax by (apply Hheads; exists t'; by rewrite E). lia.
    + apply list_elem_of_split in Ht as (ts1 & ts2 & ->). eexists. apply lock_acquire.
      intros t' Ht' Hin. apply He, Exists_exists. eauto.
Qed.

(** ** Trying an arm *)

Lemma try_take_ok L w c ch :
  world_ok L w → chans w !! c = Some ch →
  ∃ r w' L', try_take c w = ok (r, w') ∧ world_ok L' w' ∧
    match r with
    | Some res => ∃ v, res = result_of c v ∧ take_case L w c (obs ch) GOC_FIBER (Ret v) L' w'
    | None => ring ch = [] ∧ lv L w c Putters = [] ∧ closed ch = false ∧ tidied w w' ∧
              ∀ c' s', lv L' w' c' s' = lv L w c' s'
    end.
Proof.
  intros Hw Hc. unfold try_take.
  destruct (take_now_case L w c ch GOC_FIBER (λ v, Some (result_of c (v, GOC_OK)))
    (ch ← get_chan c; if closed ch && (buf_count ch =? 0) then mret (Some (result_of c (0, GOC_CLOSED)))
                      else mret None) Hw Hc)
    as [(v & w' & L' & Hr & Hw' & Hcase)|(w1 & L1 & ch1 & Hr & Hw1 & Ht1 & Hlv1 & Hc1 & Hob & Hq & Hn)].
  - exists (Some (result_of c (v, GOC_OK))), w', L'. split_and!; [exact Hr|done|]. by exists (v, GOC_OK).
  - assert (Hb : buf_count ch1 = 0).
    { assert (ring ch1 = []) as Hq1 by (injection Hob as -> _ _ _ _; done).
      pose proof (ring_length ch1) as Hl. rewrite Hq1 in Hl. simpl in Hl.
      pose proof (ro_count _ (co_ring _ _ _ (wo_chan _ _ Hw1 c ch1 Hc1))). lia. }
    assert (Hcl : closed ch1 = closed ch) by (by injection Hob as _ _ -> _ _).
    assert (Hx : try_take c w = ok (if closed ch then Some (result_of c (0, GOC_CLOSED)) else None, w1)).
    { unfold try_take. etrans; [exact Hr|]. erewrite prog_bind_ok by (by apply get_chan_ok).
      rewrite Hb, Hcl. simpl. rewrite andb_true_r. by destruct (closed ch). }
    unfold try_take in Hx. rewrite Hx. destruct (closed ch) eqn:Hcc.
    + eexists _, w1, L1. split_and!; [done|done|]. exists (0, GOC_CLOSED). split; [done|]. by apply take_closed.
    + eexists None, w1, L1. by split_and!.
Qed.

Lemma rescan_put_ok L w c ch v :
  world_ok L w → chans w !! c = Some ch →
  ∃ r w' L', rescan_put c v w = ok (r, w') ∧ world_ok L' w' ∧
    match r with
    | Some res => ∃ st, res = result_of c (0, st) ∧ put_case L w c (obs ch) GOC_FIBER v (Ret st) L' w'
    | None => closed ch = false ∧ lv L w c Takers = [] ∧ Z.of_nat (length (ring ch)) = buf_size ch ∧
              tidied w w' ∧ ∀ c' s', lv L' w' c' s' = lv L w c' s'
    end.
Proof.
  intros Hw Hc. unfold rescan_put. erewrite prog_bind_ok by (by apply get_chan_ok).
  destruct (closed ch) eqn:Hcl.
  { eexists _, w, L. split_and!; [done|done|]. exists GOC_CLOSED. split; [done|].
    apply put_closed; [done|apply tidied_refl|done]. }
  destruct (put_to_taker_case L w c ch v Hw Hc) as (r & w1 & Hr & Hm).
  erewrite prog_bind_ok by exact Hr.
  destruct Hm as [L1 w1 Hnl Hw1 Ht1 Hlv1|L1 w1 p e rst Hl1 He Hw1 Hww Htidy Hlv1].
  2: { eexists _, w1, L1. split_and!; [done|done|]. exists GOC_OK. split; [done|].
       eapply put_to_waiter; try done. intros c'. by apply chans_tidy_obs. }
  destruct (tidied_chan _ _ c ch Ht1 Hc) as (a1 & a2 & a3 & a4 & a5 & Hc1).
  set (ch1 := set_dead a5 (set_takers a1 a2 (set_putters a3 a4 ch))) in *.
  pose proof (co_ring _ _ _ (wo_chan _ _ Hw1 c ch1 Hc1)) as Hring.
  assert (Hn1 : lv L1 w1 c Takers = []) by (by rewrite Hlv1).
  destruct (decide (buf_count ch < buf_size ch)) as [Hlt|Hge].
  - destruct (put_to_buffer_ok c v w1 ch1 Hc1 Hring Hlt) as (b & Hb & Hring' & Hq).
    eexists _, _, L1. simpl. erewrite prog_bind_ok by exact Hb. split_and!; [done| |].
    { eapply world_ok_same_lists; try done; by intros []. }
    exists GOC_OK. split; [done|]. eapply (put_case_tidied L w L1 w1); [done|done|].
    apply (put_buffered L1 w1 c (obs ch) GOC_FIBER v); try done; simpl; [| | |by apply kept_refl].
    + rewrite (ring_length ch). pose proof (ro_count _ Hring). simpl in *. lia.
    + unfold obs_at. simpl. rewrite lookup_insert_eq. simpl. f_equal. unfold set_oq, obs. f_equal. exact Hq.
    + intros c' Hc'. unfold obs_at. simpl. by rewrite lookup_insert_ne.
  - eexists None, w1, L1. simpl. erewrite prog_bind_ok by (eapply put_to_buffer_full; [done|simpl; lia]).
    split_and!; try done. rewrite (ring_length ch). pose proof (ro_count _ Hring). simpl in *. lia.
Qed.

(** The put arm of phase 2 on every branch.  When there is room the value goes to the
    buffer even though a taker may be waiting. *)
Inductive first_put (L : positive → side → list positive) (w : world) (c : positive) (o : cobs) (v : Z) :
    goc_status → (positive → side → list positive) → world → Prop :=
| first_closed : oclosed o = true → first_put L w c o v GOC_CLOSED L w
| first_buffered w' :
    oclosed o = false → Z.of_nat (length (oq o)) < osize o →
    obs_at w' c = Some (set_oq (oq o ++ [v]) o) → (∀ c', c' ≠ c → obs_at w' c' = obs_at w c') →
    (∀ c' s', lv L w' c' s' = lv L w c' s') →
    ents w' = ents w → runq w' = runq w → cbq w' = cbq w → syncs w' = syncs w → loopq w' = loopq w →
    first_put L w c o v GOC_OK L w'
| first_waiter L' w' :
    Z.of_nat (length (oq o)) = osize o →
    put_case L w c o GOC_FIBER v (Ret GOC_OK) L' w' →
    first_put L w c o v GOC_OK L' w'.

Lemma try_put_ok L w c ch v :
  world_ok L w → chans w !! c = Some ch →
  ∃ r w' L', try_put c v w = ok (r, w') ∧ world_ok L' w' ∧
    match r with
    | Some res => ∃ st, res = result_of c (0, st) ∧ first_put L w c (obs ch) v st L' w'
    | None => closed ch = false ∧ lv L w c Takers = [] ∧ Z.of_nat (length (ring ch)) = buf_size ch ∧
              tidied w w' ∧ ∀ c' s', lv L' w' c' s' = lv L w c' s'
    end.
Proof.
  intros Hw Hc. unfold try_put. erewrite prog_bind_ok by (by apply get_chan_ok).
  destruct (closed ch) eqn:Hcl.
  { eexists _, w, L. split_and!; [done|done|]. exists GOC_CLOSED. split; [done|]. by apply first_closed. }
  pose proof (co_ring _ _ _ (wo_chan _ _ Hw c ch Hc)) as Hring. pose proof (ro_count _ Hring) as Hcnt.
  pose proof (ring_length ch) as Hlen.
  destruct (decide (buf_count ch < buf_size ch)) as [Hlt|Hge].
  - destruct (put_to_buffer_ok c v w ch Hc Hring Hlt) as (b & Hb & Hring' & Hq).
    eexists _, _, L. erewrite prog_bind_ok by exact Hb. split_and!; [done| |].
    { eapply world_ok_same_lists; try done; by intros []. }
    exists GOC_OK. split; [done|]. apply first_buffered; try done; simpl; [lia|..].
    + unfold obs_at. simpl. rewrite lookup_insert_eq. simpl. unfold obs. by rewrite Hq.
    + intros c' Hc'. unfold obs_at. simpl. by rewrite lookup_insert_ne.
  - erewrite prog_bind_ok by (eapply put_to_buffer_full; [done|lia]).
    destruct (put_to_taker_case L w c ch v Hw Hc) as (r & w1 & Hr & Hm).
    erewrite prog_bind_ok by exact Hr.
    destruct Hm as [L1 w1 Hnl Hw1 Ht1 Hlv1|L1 w1 p e rst Hl1 He Hw1 Hww Htidy Hlv1].
    + eexists None, w1, L1. simpl. split_and!; try done. lia.
    + eexists _, w1, L1. split_and!; [done|done|]. exists GOC_OK. split; [done|].
      apply first_waiter; [simpl; lia|]. eapply put_to_waiter; try done. intros c'. by apply chans_tidy_obs.
Qed.

(** ** Trying all arms *)

Definition valid_arm (w : world) (op : goc_alt_op) : Prop :=
  ¬ is_default op ∧ ∃ c, op_ch op = Some c ∧ has_chan w c.

(** Nothing an arm could do without waiting. *)
Definition not_ready (L : positive → side → list positive) (w : world) (op : goc_alt_op) : Prop :=
  ∃ c ch, op_ch op = Some c ∧ chans w !! c = Some ch ∧ closed ch = false ∧
    if takes op then ring ch = [] ∧ lv L w c Putters = []
    else lv L w c Takers = [] ∧ Z.of_nat (length (ring ch)) = buf_size ch.

(** Only links and dead counts differ. *)
Definition unchanged (L : positive → side → list positive) (w : world)
    (L' : positive → side → list positive) (w' : world) : Prop :=
  tidied w w' ∧ ∀ c s, lv L' w' c s = lv L w c s.

Lemma unchanged_trans L1 w1 L2 w2 L3 w3 :
  unchanged L1 w1 L2 w2 → unchanged L2 w2 L3 w3 → unchanged L1 w1 L3 w3.
Proof. intros [T1 E1] [T2 E2]. split; [by eapply tidied_trans|]. intros c s. by rewrite E2. Qed.

Lemma tidied_has_chan w w' c : tidied w w' → has_chan w' c ↔ has_chan w c.
Proof. intros Ht. rewrite !has_chan_obs. by rewrite (tidied_obs w w'). Qed.

Lemma tidied_chan_back w w' c ch' : tidied w w' → chans w' !! c = Some ch' →
  ∃ ch, chans w !! c = Some ch ∧ obs ch' = obs ch.
Proof.
  intros Ht Hc'. pose proof (td_chans _ _ Ht c) as Hc. destruct (chans w !! c) as [ch|]; [|congruence].
  destruct Hc as (h1 & t1 & h2 & t2 & d & Hc). exists ch. split; [done|].
  assert (ch' = set_dead d (set_takers h1 t1 (set_putters h2 t2 ch))) as -> by congruence. done.
Qed.

Lemma not_ready_back L w L' w' op : unchanged L w L' w' → not_ready L' w' op → not_ready L w op.
Proof.
  intros [Ht Hlv] (c & ch' & Hop & Hc' & Hcl & Hr).
  destruct (tidied_chan_back _ _ _ _ Ht Hc') as (ch & Hc & Ho). injection Ho as Hq Hsz Hc2 _ _.
  exists c, ch. rewrite !Hlv, Hq, Hsz in Hr. split_and!; [done|done|congruence|done].
Qed.

Section arms.
Variable put : positive → Z → prog world (option goc_alts_result).
Variable fires : (positive → side → list positive) → world → positive → cobs → Z → goc_status →
  (positive → side → list positive) → world → Prop.
Hypothesis put_ok : ∀ L w c ch v, world_ok L w → chans w !! c = Some ch →
  ∃ r w' L', put c v w = ok (r, w') ∧ world_ok L' w' ∧
    match r with
    | Some res => ∃ st, res = result_of c (0, st) ∧ fires L w c (obs ch) v st L' w'
    | None => closed ch = false ∧ lv L w c Takers = [] ∧ Z.of_nat (length (ring ch)) = buf_size ch ∧
              tidied w w' ∧ ∀ c' s', lv L' w' c' s' = lv L w c' s'
    end.

Definition arm_fired (L : positive → side → list positive) (w : world) (op : goc_alt_op)
    (res : goc_alts_result) (L' : positive → side → list positive) (w' : world) : Prop :=
  ∃ c ch, op_ch op = Some c ∧ chans w !! c = Some ch ∧
    if takes op then ∃ v, res = result_of c v ∧ take_case L w c (obs ch) GOC_FIBER (Ret v) L' w'
    else ∃ st, res = result_of c (0, st) ∧ fires L w c (obs ch) (op_put_val op) st L' w'.

Lemma try_arm_ok L w op :
  world_ok L w → valid_arm w op →
  ∃ r w' L', try_arm put op w = ok (r, w') ∧ world_ok L' w' ∧
    match r with
    | Some res => arm_fired L w op res L' w'
    | None => unchanged L w L' w' ∧ not_ready L w op
    end.
Proof.
  intros Hw (Hd & c & Hop & ch & Hc). unfold try_arm, arm_fired, not_ready. rewrite Hop. prog_step.
  unfold is_default in Hd. unfold takes. destruct (op_kind op) eqn:Hk; [| |done].
  - destruct (try_take_ok L w c ch Hw Hc) as (r & w' & L' & Hr & Hw' & Hcase).
    exists r, w', L'. split_and!; [done|done|]. destruct r as [res|]; [eauto 10|].
    destruct Hcase as (? & ? & ? & ? & ?). split; [done|]. exists c, ch. by split_and!.
  - destruct (put_ok L w c ch (op_put_val op) Hw Hc) as (r & w' & L' & Hr & Hw' & Hcase).
    exists r, w', L'. split_and!; [done|done|]. destruct r as [res|]; [eauto 10|].
    destruct Hcase as (? & ? & ? & ? & ?). split; [done|]. exists c, ch. by split_and!.
Qed.

Lemma try_arms_ok ops ind : ∀ L w,
  world_ok L w → Forall (λ i, ∃ op, zget ops i = Some op ∧ valid_arm w op) ind →
  ∃ r w' L', try_arms put ops ind w = ok (r, w') ∧ world_ok L' w' ∧
    match r with
    | Some res => ∃ i op L1 w1, i ∈ ind ∧ zget ops i = Some op ∧ world_ok L1 w1 ∧
                    unchanged L w L1 w1 ∧ arm_fired L1 w1 op res L' w'
    | None => unchanged L w L' w' ∧ ∀ i op, i ∈ ind → zget ops i = Some op → not_ready L w op
    end.
Proof.
  induction ind as [|i ind IH]; intros L w Hw Hv.
  { exists None, w, L. split_and!; [done|done|split; [apply tidied_refl|done]|].
    by intros i op ?%not_elem_of_nil. }
  apply Forall_cons in Hv as [(op & Hop & Hva) Hv]. cbn [try_arms]. rewrite Hop. prog_step.
  destruct (try_arm_ok L w op Hw Hva) as (r & w1 & L1 & Hr & Hw1 & Hcase).
  erewrite prog_bind_ok by exact Hr. destruct r as [res|].
  - exists (Some res), w1, L1. split_and!; [done|done|]. exists i, op, L, w.
    split_and!; [constructor|done|done|split; [apply tidied_refl|done]|done].
  - destruct Hcase as [Hun Hnr]. destruct (IH L1 w1 Hw1) as (r & w' & L' & Hr' & Hw' & Hc').
    { eapply Forall_impl; [exact Hv|]. intros j (o & Ho & Hd & c & Hoc & Hch). exists o.
      split; [done|]. split; [done|]. exists c. split; [done|]. by rewrite (tidied_has_chan w w1) by apply Hun. }
    exists r, w', L'. split_and!; [done|done|]. destruct r as [res|].
    + destruct Hc' as (j & o & L2 & w2 & Hj & Ho & Hw2 & Hun2 & Hf). exists j, o, L2, w2.
      split_and!; [by constructor|done|done|by eapply unchanged_trans|done].
    + destruct Hc' as [Hun2 Hnr2]. split; [by eapply unchanged_trans|].
      intros j o [->|Hj]%elem_of_cons Ho; [congruence|]. by eapply not_ready_back, Hnr2.
Qed.

End arms.

(** ** Parking on all arms *)

Definition flagged (w : world) : world := set_flags (<[next_id w := false]>) (bump_id w).

Lemma fresh_claimable L w p e :
  world_ok L w → ents w !! p = Some e → claimable (flags (flagged w)) e = claimable (flags w) e.
Proof.
  intros Hw He. unfold claimable, flag_clear. simpl. destruct (fired e) as [b|] eqn:Hf; [|done].
  destruct (eo_flags _ _ (wo_ent _ _ Hw p e He) b Hf) as [Hb _].
  rewrite lookup_insert_ne; [done|]. intros <-. apply (wo_fresh_flag _ _ Hw) in Hb. lia.
Qed.

Lemma flagged_ok L w : world_ok L w → world_ok L (flagged w).
Proof.
  intros Hw. pose proof Hw as [H1 H2 H3 H4 H5 H6 H7 H8 H9 Hsu Hso H10 H11 H12 H13 Hsel].
  assert (Hb : ∀ p e b, ents w !! p = Some e → fired e = Some b → next_id w ≠ b).
  { intros p e b He Hf <-. destruct (eo_flags _ _ (H5 p e He) _ Hf) as [Hs _]. apply H12 in Hs. lia. }
  split; try done.
  - intros p e He. destruct (H5 p e He) as [E1 E2 E3 E4 E5]. split; try done.
    + intros b Hf. simpl. rewrite lookup_insert_ne by (by eapply Hb). by apply E1.
    + intros Hk Hcl. rewrite (fresh_claimable L w p e Hw He) in Hcl. by apply E3.
    + intros Hk Hcl. rewrite (fresh_claimable L w p e Hw He) in Hcl. by apply E4.
  - intros c s p e Hp He Hf. rewrite (fresh_claimable L w p e Hw He). by apply (H6 c s p e).
  - intros i t Hi. destruct (H7 i t Hi) as [Hf Hq]. split; [done|]. intros p e He Hk Hc.
    rewrite (fresh_claimable L w p e Hw He). by apply (Hq p).
  - intros p p' e e' He He' Hk Hk' Hc Hcl Hcl'.
    rewrite (fresh_claimable L w p e Hw He) in Hcl. rewrite (fresh_claimable L w p' e' Hw He') in Hcl'.
    by eapply H9.
  - intros p e He Hk. simpl. pose proof (Hso p e He Hk). lia.
  - intros p Hp%H10. simpl. lia.
  - intros c Hc%H11. simpl. lia.
  - intros a. simpl. rewrite lookup_insert. case_decide; [subst; lia|]. intros Ha%H12. lia.
  - intros a Ha%H13. simpl. lia.
  - intros a. simpl. rewrite lookup_insert. case_decide; [done|]. apply Hsel.
Qed.

Lemma flagged_lv L w c s : world_ok L w → lv L (flagged w) c s = lv L w c s.
Proof.
  intros Hw. unfold lv. apply list_filter_iff'. intros p Hp. unfold live. simpl.
  destruct (wo_linked L w c s p Hw Hp) as [e He]. rewrite He.
  by rewrite <- (fresh_claimable L w p e Hw He).
Qed.

(** A running fiber announces its park. *)
Lemma announce_ok L w i f :
  world_ok L w → fibers w !! i = Some f → parked f = 0 →
  world_ok L (set_fibers (<[i := mk_fiber 3 (fhome f) (fpool f)]>) w).
Proof.
  intros Hw Hf H0. pose proof Hw as [H1 H2 H3 H4 H5 H6 H7 H8 H9 Hsu Hso H10 H11 H12 H13 Hsel].
  split; try done.
  - intros p e He. destruct (H5 p e He) as [E1 E2 E3 E4 E5]. split; try done; simpl.
    + intros Hk. rewrite lookup_insert. case_decide; [eauto|auto].
    + intros Hk Hcl. destruct (E3 Hk Hcl) as (Hg & fb & Hfb & Hp). split; [done|].
      rewrite lookup_insert_ne; [eauto|]. intros ->.
      assert (fb = f) as -> by congruence. lia.
  - intros j t Hj. destruct (H7 j t Hj) as [(fj & Hfj & Hpj) Hq]. split; [|done].
    exists fj. simpl. rewrite lookup_insert_ne; [done|]. intros ->. assert (fj = f) as -> by congruence. lia.
Qed.

(** What makes [e] a new arm of the select with flag [a]. *)
Record arm_entry (w : world) (a : positive) (e : goc_entry) : Prop := {
  ae_fired : fired e = Some a;
  ae_woken : woken e = false;
  ae_cancelled : cancelled e = false;
  ae_flag : flags w !! a = Some false;
  ae_fiber : kind e = GOC_FIBER → parked_gen e = 1 ∧
    (∃ f, fibers w !! coro e = Some f ∧ parked f = 3) ∧
    ∀ q e', ents w !! q = Some e' → kind e' = GOC_FIBER → coro e' = coro e →
      claimable (flags w) e' = true → fired e' = Some a;
  ae_sync : kind e = GOC_SYNC → is_Some (syncs w !! sync_sem_ptr e) ∧
    ∀ q e', ents w !! q = Some e' → kind e' = GOC_SYNC → sync_sem_ptr e' = sync_sem_ptr e →
      fired e' = Some a;
  ae_drain : free_on_drain e = false
}.

Definition with_entry (e : goc_entry) (w : world) : world :=
  set_ents (<[next_id w := e]>) (bump_id w).

Lemma alloc_arm_ok L w a e :
  world_ok L w → arm_entry w a e → world_ok L (with_entry e w) ∧
  ∀ e', arm_entry w a e' → arm_entry (with_entry e w) a e'.
Proof.
  intros Hw [Hf Hwk Hca Hfl Hfb Hsy Hdr]. split.
  - eapply (world_ok_alloc L w _ (next_id w) e); try done; simpl; [lia|..].
    + intros b Hb%(wo_fresh_sync _ _ Hw). lia.
    + split; simpl.
      * intros b. rewrite Hf. intros [= <-]. rewrite Hfl. split; [eauto|congruence].
      * intros Hk. destruct (Hfb Hk) as (_ & (f & ? & _) & _). eauto.
      * intros Hk _. destruct (Hfb Hk) as (Hg & (f & ? & ?) & _). eauto 10.
      * intros Hk _. by apply Hsy.
      * congruence.
    + intros q eq Hq [E1 E2 E3 E4 E5]. by split.
    + intros i t f Hi Hfi H4. split; [done|]. intros Hk <-. destruct (Hfb Hk) as (_ & (f' & ? & ?) & _).
      assert (f' = f) as -> by congruence. lia.
    + intros Hk q e' Hq Hk' Hc Hcl. destruct (Hfb Hk) as (_ & _ & Hu).
      rewrite Hf, (Hu q e' Hq Hk' Hc Hcl). eauto.
    + intros Hk. destruct (Hsy Hk) as [Hs Hu]. split.
      * apply (wo_fresh_sync _ _ Hw) in Hs. lia.
      * intros q e' Hq Hk' Hc. rewrite Hf, (Hu q e' Hq Hk' Hc). eauto.
  - intros e' [Hf' Hwk' Hca' Hfl' Hfb' Hsy' Hdr']. split; try done; simpl.
    + intros Hk. destruct (Hfb' Hk) as (? & ? & Hu). split_and!; [done|done|].
      intros q e1. rewrite lookup_insert. case_decide; [by intros [= <-]|apply Hu].
    + intros Hk. destruct (Hsy' Hk) as (? & Hu). split; [done|].
      intros q e1. rewrite lookup_insert. case_decide; [by intros [= <-]|apply Hu].
Qed.

(** Everything but the heap of entries and the next identity. *)
Record same_rest (w w' : world) : Prop := {
  sr_flags : flags w' = flags w;
  sr_fibers : fibers w' = fibers w;
  sr_chans : chans w' = chans w;
  sr_syncs : syncs w' = syncs w;
  sr_live : live_channels w' = live_channels w;
  sr_runq : runq w' = runq w;
  sr_cbq : cbq w' = cbq w;
  sr_loopq : loopq w' = loopq w;
  sr_closelog : closelog w' = closelog w
}.

Lemma new_entries_ok a mk ops ind : ∀ L w,
  world_ok L w → Forall (λ i, is_Some (zget ops i)) ind → (∀ i op, arm_entry w a (mk i op)) →
  ∃ ps w', new_entries mk ops ind w = ok (ps, w') ∧ world_ok L w' ∧
    Forall2 (λ i p, ∃ op, zget ops i = Some op ∧ ents w' !! p = Some (mk i op)) ind ps ∧
    NoDup ps ∧ (∀ p, p ∈ ps → ents w !! p = None) ∧
    (∀ p, p ∉ ps → ents w' !! p = ents w !! p) ∧ same_rest w w'.
Proof.
  induction ind as [|i ind IH]; intros L w Hw Hv Hmk.
  { exists [], w. split_and!; try done; [constructor|by intros p ?%not_elem_of_nil]. }
  apply Forall_cons in Hv as [[op Hop] Hv]. cbn [new_entries]. rewrite Hop. prog_step.
  destruct (alloc_arm_ok L w a (mk i op) Hw (Hmk i op)) as [Hw1 Hnext].
  erewrite prog_bind_ok by done. fold (with_entry (mk i op) w).
  destruct (IH L _ Hw1 Hv) as (ps & w' & Hr & Hw' & Hf2 & Hnd & Hnew & Hold & Hsr).
  { intros j o. apply Hnext, Hmk. }
  assert (Hpn : ents w !! next_id w = None) by (eapply fresh_None; [exact Hw|lia]).
  assert (Hnp : next_id w ∉ ps).
  { intros Hin%Hnew. simpl in Hin. by rewrite lookup_insert_eq in Hin. }
  exists (next_id w :: ps), w'. split_and!; [by erewrite prog_bind_ok by exact Hr|done|..].
  - constructor; [|done]. exists op. split; [done|]. rewrite Hold by done. simpl. apply lookup_insert_eq.
  - by constructor.
  - intros p [->|Hp]%elem_of_cons; [done|]. apply Hnew in Hp. simpl in Hp.
    rewrite lookup_insert in Hp. by case_decide.
  - intros p [Hne Hp]%not_elem_of_cons. rewrite Hold by done. simpl. by rewrite lookup_insert_ne.
  - destruct Hsr. by split.
Qed.

(** The entries parked on side [s] of [c], in arm order. *)
Fixpoint parked_on (ops : list goc_alt_op) (ind : list Z) (ps : list positive) (c : positive) (s : side)
    : list positive :=
  match ind, ps with
  | i :: ind, p :: ps =>
      match zget ops i with
      | Some op => if decide (op_ch op = Some c ∧ side_of op = s) then p :: parked_on ops ind ps c s
                   else parked_on ops ind ps c s
      | None => parked_on ops ind ps c s
      end
  | _, _ => []
  end.

Lemma parked_on_in ops ind : ∀ ps c s p, p ∈ parked_on ops ind ps c s → p ∈ ps.
Proof.
  induction ind as [|i ind IH]; intros [|q ps] c s p; simpl; try by intros ?%not_elem_of_nil.
  destruct (zget ops i) as [op|]; [case_decide|].
  - intros [->|Hp]%elem_of_cons; [constructor|]. constructor. by eapply IH.
  - intros Hp. constructor. by eapply IH.
  - intros Hp. constructor. by eapply IH.
Qed.

Definition open_arm (w : world) (op : goc_alt_op) : Prop :=
  ∃ c ch, op_ch op = Some c ∧ chans w !! c = Some ch ∧ closed ch = false.

Lemma enqueue_ok ops ind : ∀ ps L w,
  world_ok L w → NoDup ps → length ps = length ind →
  Forall (λ i, ∃ op, zget ops i = Some op ∧ open_arm w op) ind →
  (∀ p, p ∈ ps → unlinked L p ∧ ∃ e, ents w !! p = Some e ∧ is_Some (fired e)) →
  ∃ w' L', enqueue ops ind ps w = ok (tt, w') ∧ world_ok L' w' ∧ tidied w w' ∧
    ∀ c s, L' c s = L c s ++ parked_on ops ind ps c s.
Proof.
  induction ind as [|i ind IH]; intros [|p ps] L w Hw Hnd Hlen Hv Hps; try done.
  { exists w, L. split_and!; [done|done|apply tidied_refl|]. intros c s. simpl. by rewrite app_nil_r. }
  apply Forall_cons in Hv as [(op & Hop & c & ch & Hoc & Hc & Hcl) Hv]. apply NoDup_cons in Hnd as [Hp Hnd].
  destruct (Hps p) as (Hun & e & He & Hf); [constructor|].
  cbn [enqueue]. rewrite Hop. prog_step. rewrite Hoc. prog_step.
  destruct (append_ok L w c ch (side_of op) p e Hw Hc Hcl He Hun) as (w1 & Hr & Ht & Hw1).
  { intros Hn. destruct Hf as [? ?]. congruence. }
  set (L1 := relist L c (on_side (side_of op) (L c (side_of op) ++ [p]) (L c))) in *.
  erewrite prog_bind_ok by exact Hr.
  assert (HL1 : ∀ c' s', L1 c' s' = L c' s' ++ (if decide (c' = c ∧ s' = side_of op) then [p] else [])).
  { intros c' s'. unfold L1, relist, on_side. destruct (decide (c' = c)) as [->|Hne].
    - destruct (decide (s' = side_of op)) as [->|Hs]; [by rewrite decide_True|].
      rewrite decide_False by naive_solver. by rewrite app_nil_r.
    - rewrite decide_False by naive_solver. by rewrite app_nil_r. }
  destruct (IH ps L1 w1 Hw1 Hnd) as (w' & L' & Hr' & Hw' & Ht' & HL').
  - simpl in Hlen. lia.
  - eapply Forall_impl; [exact Hv|]. intros j (o & Ho & c2 & ch2 & Hoc2 & Hc2 & Hcl2). exists o. split; [done|].
    destruct (tidied_chan _ _ c2 ch2 Ht Hc2) as (a1 & a2 & a3 & a4 & a5 & Hc3). by eexists c2, _.
  - intros q Hq. destruct (Hps q) as (Hunq & eq & Heq & Hfq); [by constructor|]. split.
    + intros c' s'. rewrite HL1. intros [Hin|Hin]%elem_of_app; [by apply (Hunq c' s')|].
      case_decide; [apply list_elem_of_singleton in Hin; congruence|by apply not_elem_of_nil in Hin].
    + destruct (tidied_kept _ _ Ht q eq Heq) as (n & Hn). by exists (set_next n eq).
  - exists w', L'. split_and!; [done|done|by eapply tidied_trans|]. intros c' s'. rewrite HL', HL1. simpl.
    rewrite Hop, Hoc, <- app_assoc. f_equal.
    destruct (decide (c' = c ∧ s' = side_of op)) as [[-> ->]|Hne].
    + by rewrite decide_True.
    + rewrite decide_False; [done|]. intros [[= ->] <-]. by apply Hne.
Qed.

(** A parked select: one entry per arm, all linked last on their channels, nobody
    told anything. *)
Record select_parks (a : positive) (ops : list goc_alt_op) (ind : list Z) (ps : list positive)
    (L : positive → side → list positive) (w : world)
    (L' : positive → side → list positive) (w' : world) : Prop := {
  sp_new : ∀ p, p ∈ ps → ents w !! p = None;
  sp_nodup : NoDup ps;
  sp_entries : Forall2 (λ i p, ∃ op e, zget ops i = Some op ∧ ents w' !! p = Some e ∧ arm_idx e = i ∧
    fired e = Some a ∧ woken e = false ∧ put_val e = (if takes op then 0 else op_put_val op) ∧
    (takes op = true → result_slot e = true)) ind ps;
  sp_flag : flags w' !! a = Some false;
  sp_only : ∀ q e, ents w' !! q = Some e → fired e = Some a → q ∈ ps;
  sp_lv : ∀ c s, lv L' w' c s = lv L w c s ++ parked_on ops ind ps c s;
  sp_obs : ∀ c, obs_at w' c = obs_at w c;
  sp_kept : kept w w';
  sp_runq : runq w' = runq w;
  sp_cbq : cbq w' = cbq w;
  sp_closelog : closelog w' = closelog w;
  sp_loopq : loopq w' = loopq w
}.

Lemma Forall2_in_r {A B} (P : A → B → Prop) l k y : Forall2 P l k → y ∈ k → ∃ x, x ∈ l ∧ P x y.
Proof.
  induction 1 as [|x z l k Hp _ IH]; [by intros ?%not_elem_of_nil|].
  intros [->|Hy]%elem_of_cons; [exists x; by split; [constructor|]|].
  destruct (IH Hy) as (x' & ? & ?). exists x'. by split; [constructor|].
Qed.

(** The entries are created and linked. *)
Lemma select_link_ok {A} (f : list positive → A) a mk ops ind L w :
  world_ok L w → Forall (λ i, ∃ op, zget ops i = Some op ∧ open_arm w op) ind →
  (∀ i op, arm_entry w a (mk i op)) → (∀ q e, ents w !! q = Some e → fired e ≠ Some a) →
  (∀ i op, arm_idx (mk i op) = i ∧ put_val (mk i op) = (if takes op then 0 else op_put_val op) ∧
     (takes op = true → result_slot (mk i op) = true)) →
  ∃ ps w' L', (ps ← new_entries mk ops ind; enqueue ops ind ps;; mret (f ps)) w = ok (f ps, w') ∧
    world_ok L' w' ∧ select_parks a ops ind ps L w L' w'.
Proof.
  intros Hw Hv Hmk Hno Hfld.
  destruct (new_entries_ok a mk ops ind L w Hw) as (ps & w1 & Hr & Hw1 & Hf2 & Hnd & Hnew & Hold & Hsr); [|done|].
  { eapply Forall_impl; [exact Hv|]. intros i (op & Hop & _). eauto. }
  assert (Hunl : ∀ p, p ∈ ps → unlinked L p).
  { intros p Hp c s Hin. destruct (wo_linked L w c s p Hw Hin) as [e He]. by rewrite Hnew in He. }
  assert (Hent : ∀ p, p ∈ ps → ∃ i op, zget ops i = Some op ∧ ents w1 !! p = Some (mk i op)).
  { intros p Hp. destruct (Forall2_in_r _ _ _ p Hf2 Hp) as (i & _ & op & ? & ?). eauto. }
  destruct (enqueue_ok ops ind ps L w1 Hw1 Hnd) as (w' & L' & Hr' & Hw' & Ht & HL').
  { symmetry. by eapply Forall2_length. }
  { eapply Forall_impl; [exact Hv|]. intros i (op & Hop & c & ch & ? & ? & ?). exists op. split; [done|].
    exists c, ch. by rewrite (sr_chans _ _ Hsr). }
  { intros p Hp. split; [by apply Hunl|]. destruct (Hent p Hp) as (i & op & _ & He).
    eexists. split; [exact He|]. rewrite (ae_fired _ _ _ (Hmk i op)). eauto. }
  assert (Hlive : ∀ q, live w' q = if decide (q ∈ ps) then true else live w q).
  { intros q. rewrite (tidied_live w1 w') by done. unfold live. rewrite (sr_flags _ _ Hsr).
    case_decide as Hq; [|by rewrite Hold]. destruct (Hent q Hq) as (i & op & _ & ->).
    destruct (Hmk i op) as [Q1 Q2 Q3 Q4 _ _ _]. unfold claimable, flag_clear. by rewrite Q1, Q2, Q3, Q4. }
  exists ps, w', L'. split_and!; [|done|].
  { erewrite prog_bind_ok by exact Hr. by erewrite prog_bind_ok by exact Hr'. }
  pose proof Ht as [Te Tch Tfl _ _ _ Tr Tc Tlq Tcl _ _]. split; try done.
  - eapply Forall2_impl; [exact Hf2|]. intros i p (op & Hop & He).
    destruct (tidied_kept _ _ Ht p _ He) as (n & Hn). exists op, (set_next n (mk i op)).
    destruct (Hmk i op), (Hfld i op) as (? & ? & ?). by split_and!.
  - rewrite Tfl, (sr_flags _ _ Hsr). apply (ae_flag _ _ _ (Hmk 0 (mk_op None GOC_ALT_TAKE 0))).
  - intros q e He Hf. destruct (decide (q ∈ ps)) as [|Hq]; [done|]. specialize (Te q).
    rewrite (Hold q Hq) in Te. destruct (ents w !! q) as [e0|] eqn:He0; [|congruence].
    destruct Te as (n & Hn). destruct (Hno q e0 He0).
    assert (e = set_next n e0) as -> by congruence. done.
  - intros c s. unfold lv. rewrite HL', filter_app. f_equal.
    + apply list_filter_iff'. intros q Hq. rewrite Hlive. rewrite decide_False; [done|].
      intros Hin. by apply (Hunl q Hin c s).
    + assert (Hall : Forall (λ q, live w' q = true) (parked_on ops ind ps c s)).
      { apply Forall_forall. intros q Hq%parked_on_in. rewrite Hlive. by rewrite decide_True. }
      induction Hall as [|q l Hq _ IH]; [done|]. by rewrite filter_cons_True, IH.
  - intros c. rewrite (tidied_obs w1) by done. unfold obs_at. by rewrite (sr_chans _ _ Hsr).
  - eapply kept_trans; [|by apply tidied_kept]. intros q e He. exists (next e). rewrite set_next_id.
    rewrite Hold; [done|]. intros Hin%Hnew. congruence.
  - by rewrite Tr, (sr_runq _ _ Hsr).
  - by rewrite Tc, (sr_cbq _ _ Hsr).
  - by rewrite Tcl, (sr_closelog _ _ Hsr).
  - by rewrite Tlq, (sr_loopq _ _ Hsr).
Qed.

(** A parked select, seen from the call rather than from the last step before the
    entries appear. *)
Lemma select_parks_back a ops ind ps L w L1 w1 L' w' :
  (∀ c s, lv L1 w1 c s = lv L w c s) → (∀ c, obs_at w1 c = obs_at w c) → kept w w1 →
  runq w1 = runq w → cbq w1 = cbq w → closelog w1 = closelog w → loopq w1 = loopq w →
  select_parks a ops ind ps L1 w1 L' w' → select_parks a ops ind ps L w L' w'.
Proof.
  intros Hlv Ho Hk Hr Hc Hcl Hl [Sn Snd Se Sf So Sl Sob Sk Sr Sc Scl Slq]. split; try done; try congruence.
  - intros p Hp. specialize (Sn p Hp). destruct (ents w !! p) as [e|] eqn:He; [|done].
    destruct (Hk p e He) as (n & Hn). congruence.
  - by eapply kept_trans.
Qed.

Definition arms_valid (w : world) (ops : list goc_alt_op) (ind : list Z) : Prop :=
  Forall (λ i, ∃ op, zget ops i = Some op ∧ valid_arm w op) ind.

Definition rescan_fires (L : positive → side → list positive) (w : world) (c : positive) (o : cobs) (v : Z)
    (st : goc_status) (L' : positive → side → list positive) (w' : world) : Prop :=
  put_case L w c o GOC_FIBER v (Ret st) L' w'.

(** What a second look with all locks held leads to. *)
Definition park_result (ops : list goc_alt_op) (ind : list Z) (L : positive → side → list positive) (w : world)
    (r : alts_outcome) (L' : positive → side → list positive) (w' : world) : Prop :=
  match r with
  | AltRet res => ∃ i op L1 w1 w2, i ∈ ind ∧ zget ops i = Some op ∧ world_ok L1 w1 ∧
      (∀ c s, lv L1 w1 c s = lv L w c s) ∧ (∀ c, obs_at w1 c = obs_at w c) ∧
      arm_fired rescan_fires L1 w1 op res L' w2 ∧
      (w' = w2 ∨ ∃ s, w' = set_syncs (delete s) w2)
  | AltPark ps _ => ∃ a, select_parks a ops ind ps L w L' w' ∧
      ∀ i op, i ∈ ind → zget ops i = Some op → not_ready L w op
  end.

Lemma not_ready_open L w op : not_ready L w op → open_arm w op.
Proof. intros (c & ch & ? & ? & ? & _). exists c, ch. by split_and!. Qed.

Lemma open_arm_tidied w w' op : tidied w w' → open_arm w op → open_arm w' op.
Proof.
  intros Ht (c & ch & ? & Hc & ?). destruct (tidied_chan _ _ c ch Ht Hc) as (? & ? & ? & ? & ? & Hc').
  by eexists c, _.
Qed.

Lemma flagged_arms w ops ind : arms_valid w ops ind → arms_valid (flagged w) ops ind.
Proof. done. Qed.

(** No entry carries a fresh flag. *)
Lemma fresh_flag_unused L w w1 q e :
  world_ok L w → tidied (flagged w) w1 → ents w1 !! q = Some e → fired e ≠ Some (next_id w).
Proof.
  intros Hw Ht He Hf. pose proof (td_ents _ _ Ht q) as Hq. simpl in Hq.
  destruct (ents w !! q) as [e0|] eqn:He0; [|congruence]. destruct Hq as (n & Hn).
  assert (e = set_next n e0) as -> by congruence. simpl in Hf.
  destruct (eo_flags _ _ (wo_ent _ _ Hw q e0 He0) _ Hf) as [Hs _]. apply (wo_fresh_flag _ _ Hw) in Hs. lia.
Qed.


(** *** The thread's select *)

Definition with_sem (w : world) : world := set_syncs (<[next_id w := false]>) (bump_id w).

Lemma with_sem_ok L w : world_ok L w → world_ok L (with_sem w).
Proof.
  intros Hw. pose proof Hw as [H1 H2 H3 H4 H5 H6 H7 H8 H9 Hsu Hso H10 H11 H12 H13 Hsel].
  split; try done; simpl.
  - intros p e He. destruct (H5 p e He) as [E1 E2 E3 E4 E5]. split; try done.
    intros Hk Hcl. simpl. rewrite lookup_insert. case_decide; [eauto|auto].
  - intros p e He Hk. pose proof (Hso p e He Hk). lia.
  - intros p Hp%H10. lia.
  - intros c Hc%H11. lia.
  - intros a Ha%H12. lia.
  - intros a. rewrite lookup_insert. case_decide; [subst; lia|]. intros Ha%H13. lia.
Qed.

(** Who can still be woken after an operation could be woken before, through the
    same entry. *)
Definition live_old (w w' : world) : Prop :=
  ∀ q e, ents w' !! q = Some e → live w' q = true → ∃ e0 n, ents w !! q = Some e0 ∧ e = set_next n e0.

Lemma live_old_kept w w' : (∀ q, live w' q = live w q) → kept w w' → live_old w w'.
Proof.
  intros Hl Hk q e He Hlq. rewrite Hl in Hlq. destruct (kept_entry w w' q e Hk Hlq He) as (n & e0 & ? & ?). eauto.
Qed.

Lemma live_old_tidied w w' : tidied w w' → live_old w w'.
Proof. intros Ht. apply live_old_kept; [intros q; by apply tidied_live|by apply tidied_kept]. Qed.

Lemma live_old_woken v p w w' : woken_with v p w w' → live_old w w'.
Proof.
  intros Hww q e He Hl. destruct (ww_live _ _ _ _ Hww q Hl) as [Hlq Hne].
  pose proof (ww_others _ _ _ _ Hww q Hne) as Ho. unfold live in Hlq.
  destruct (ents w !! q) as [e0|]; [|done]. destruct Ho as (n & Hn). exists e0, n. split; [done|congruence].
Qed.

Lemma live_old_trans w1 w2 w3 : tidied w1 w2 → live_old w2 w3 → live_old w1 w3.
Proof.
  intros Ht H23 q e He Hl. destruct (H23 q e He Hl) as (e0 & n & He0 & ->).
  pose proof (td_ents _ _ Ht q) as Hq. destruct (ents w1 !! q) as [e1|]; [|congruence].
  destruct Hq as (n1 & Hn1). exists e1, n. split; [done|]. assert (e0 = set_next n1 e1) as -> by congruence. done.
Qed.

Lemma put_live_old L w c o v st L' w' :
  rescan_fires L w c o v st L' w' → live_old w w'.
Proof.
  unfold rescan_fires. inversion 1; subst; [by apply live_old_tidied|by eapply live_old_woken|by apply live_old_kept].
Qed.

Lemma take_live_old L w c o v L' w' :
  take_case L w c o GOC_FIBER (Ret v) L' w' → live_old w w'.
Proof.
  inversion 1; subst; [by apply live_old_kept|by eapply live_old_woken|by apply live_old_tidied].
Qed.

Lemma fired_live_old L w op res L' w' : arm_fired rescan_fires L w op res L' w' → live_old w w'.
Proof.
  intros (c & ch & _ & _ & Hx). destruct (takes op).
  - destruct Hx as (v & _ & Hx). by eapply take_live_old.
  - destruct Hx as (st & _ & Hx). by eapply put_live_old.
Qed.


(** ** Phase 7 *)

(** Cancelling an arm that lost changes nothing anyone relies on. *)
Lemma cancel_ok L w p e a :
  world_ok L w → ents w !! p = Some e → fired e = Some a → flags w !! a = Some true → woken e = false →
  world_ok L (set_ents (<[p := set_cancelled e]>) w).
Proof.
  intros Hw He Hf Ha Hwk. pose proof Hw as [H1 H2 H3 H4 H5 H6 H7 H8 H9 Hsu Hso H10 H11 H12 H13 Hsel].
  assert (Hdead : claimable (flags w) (set_cancelled e) = false) by done.
  assert (Hold : ∀ q e1, <[p := set_cancelled e]> (ents w) !! q = Some e1 →
    ∃ e0, ents w !! q = Some e0 ∧ kind e1 = kind e0 ∧ coro e1 = coro e0 ∧ fired e1 = fired e0 ∧
      sync_sem_ptr e1 = sync_sem_ptr e0 ∧ (claimable (flags w) e1 = true → e1 = e0)).
  { intros q e1. rewrite lookup_insert. case_decide.
    - intros [= <-]. subst q. exists e. split_and!; try done.
    - intros Hq. exists e1. by split_and!. }
  split; try done; simpl.
  - intros c ch Hc. destruct (H1 c ch Hc) as [? Hcn ? ?]. split; try done.
    intros s. eapply chain_ext; [|apply Hcn]. by eapply same_next_insert.
  - intros q e1. rewrite lookup_insert. case_decide.
    + intros [= <-]. destruct (H5 p e He) as [E1 E2 E3 E4 E5]. split; try done.
      intros _. apply E5. right. by rewrite Hf.
    + intros Hq. destruct (H5 q e1 Hq) as [E1 E2 E3 E4 E5]. by split.
  - intros c s q e1 Hq. rewrite lookup_insert. case_decide; [|by apply (H6 c s q e1)].
    intros [= <-]. simpl. congruence.
  - intros i t Hi. destruct (H7 i t Hi) as [Hfi Hq]. split; [done|].
    intros q e1 Hq1 Hk Hc. destruct (Hold q e1 Hq1) as (e0 & He0 & Hk0 & Hc0 & _ & _ & Heq).
    destruct (claimable _ e1) eqn:E; [|done]. rewrite (Heq eq_refl) in E. simpl in E.
    rewrite (Hq q e0 He0) in E; [done|congruence..].
  - intros q1 q2 e1 e2 Hq1 Hq2 Hk1 Hk2 Hc Hcl1 Hcl2.
    destruct (Hold q1 e1 Hq1) as (o1 & Ho1 & _ & _ & _ & _ & Heq1).
    destruct (Hold q2 e2 Hq2) as (o2 & Ho2 & _ & _ & _ & _ & Heq2).
    rewrite <- (Heq1 Hcl1) in Ho1. rewrite <- (Heq2 Hcl2) in Ho2. by apply (H9 q1 q2 e1 e2).
  - intros q1 q2 e1 e2 Hq1 Hq2 Hk1 Hk2 Hs.
    destruct (Hold q1 e1 Hq1) as (o1 & Ho1 & K1 & _ & F1 & S1 & _).
    destruct (Hold q2 e2 Hq2) as (o2 & Ho2 & K2 & _ & F2 & S2 & _).
    rewrite F1, F2. apply (Hsu q1 q2 o1 o2 Ho1 Ho2); congruence.
  - intros q e1 Hq Hk. destruct (Hold q e1 Hq) as (o1 & Ho1 & K1 & _ & _ & S1 & _).
    rewrite S1. apply (Hso q o1 Ho1). congruence.
  - intros q. rewrite lookup_insert. case_decide; [subst; intros _; apply H10; eauto|apply H10].
  - eapply select_ok_ext; [..|exact Hsel].
    + intros q e1 Hq _. rewrite lookup_insert. case_decide; [|eauto].
      subst q. exists (set_cancelled e). split; [done|]. by assert (e1 = e) as -> by congruence.
    + intros q e1. rewrite lookup_insert. case_decide; [|eauto]. intros [= <-] Hw1. simpl in Hw1. congruence.
Qed.

(** The losers are cancelled, the one woken arm is found. *)
Lemma cancel_losers_ok a p0 : ∀ ps win L w,
  world_ok L w → flags w !! a = Some true → NoDup ps →
  (∀ p, p ∈ ps → ∃ e, ents w !! p = Some e ∧ fired e = Some a ∧ (woken e = true ↔ p = p0)) →
  ∃ w', cancel_losers ps win w = ok (if decide (p0 ∈ ps) then Some p0 else win, w') ∧ world_ok L w' ∧
    flags w' = flags w ∧ chans w' = chans w ∧ loopq w' = loopq w ∧ runq w' = runq w ∧
    ∀ q, ents w' !! q = if decide (q ∈ ps ∧ q ≠ p0) then set_cancelled <$> ents w !! q else ents w !! q.
Proof.
  induction ps as [|p ps IH]; intros win L w Hw Ha Hnd Hps.
  { by exists w. }
  apply NoDup_cons in Hnd as [Hp Hnd]. destruct (Hps p) as (e & He & Hf & Hwk); [constructor|].
  cbn [cancel_losers]. erewrite prog_bind_ok by (by apply get_ent_ok). destruct (woken e) eqn:Hw0.
  - assert (p = p0) as -> by (by apply Hwk).
    destruct (IH (Some p0) L w Hw Ha Hnd) as (w' & Hr & Hw' & Hfl & Hch & Hlq & Hrq & Hen).
    { intros q Hq. apply Hps. by constructor. }
    exists w'. rewrite Hr. split_and!; try done.
    + assert (p0 ∈ p0 :: ps) by constructor. by repeat case_decide.
    + intros q. rewrite Hen. destruct (decide (q ∈ ps ∧ q ≠ p0)) as [[H1 H2]|H1].
      * rewrite decide_True; [done|]. split; [by constructor|done].
      * rewrite decide_False; [done|]. intros [[->|Hq]%elem_of_cons Hne]; [done|]. by apply H1.
  - assert (Hne : p ≠ p0) by (intros Heq; by apply Hwk in Heq).
    erewrite prog_bind_ok by (by apply upd_ent_ok).
    destruct (IH win L (set_ents (<[p := set_cancelled e]>) w)) as (w' & Hr & Hw' & Hfl & Hch & Hlq & Hrq & Hen).
    { by eapply cancel_ok. } { done. } { done. }
    { intros q Hq. simpl. rewrite lookup_insert_ne by congruence. apply Hps. by constructor. }
    exists w'. rewrite Hr. split_and!; try done.
    + destruct (decide (p0 ∈ ps)) as [Hin|Hin].
      * by rewrite decide_True by (by constructor).
      * rewrite decide_False; [done|]. by intros [->|?]%elem_of_cons.
    + intros q. rewrite Hen. simpl. destruct (decide (q = p)) as [->|Hqp].
      * rewrite decide_False by (by intros [? _]). rewrite lookup_insert_eq.
        rewrite decide_True by (split; [constructor|done]). by rewrite He.
      * rewrite lookup_insert_ne by done. destruct (decide (q ∈ ps ∧ q ≠ p0)) as [[H1 H2]|H1].
        -- rewrite decide_True; [done|]. split; [by constructor|done].
        -- rewrite decide_False; [done|]. intros [[->|Hq]%elem_of_cons Hn]; [done|]. by apply H1.
Qed.

(** The entries of a select that has fired. *)
Record select_fired (w : world) (a : positive) (ops : list goc_alt_op) (ps : list positive) : Prop := {
  sf_flag : flags w !! a = Some true;
  sf_nodup : NoDup ps;
  sf_all : ∀ p e, ents w !! p = Some e → fired e = Some a → p ∈ ps;
  sf_arms : ∀ p, p ∈ ps → ∃ e, ents w !! p = Some e ∧ fired e = Some a ∧ is_Some (zget ops (arm_idx e))
}.

(** The result of phase 7 in [w]: exactly one arm was woken, and its channel, value
    and status are returned; the others are cancelled. *)
Definition one_winner (w : world) (ops : list goc_alt_op) (ps : list positive)
    (r : goc_alts_result) (w' : world) : Prop :=
  ∃ p e op, p ∈ ps ∧ ents w !! p = Some e ∧ woken e = true ∧ zget ops (arm_idx e) = Some op ∧
    r = mk_result (op_ch op) (if result_slot e then cb_result e else 0, ok_ e) ∧
    ∀ q, q ∈ ps → q ≠ p → ∃ eq, ents w !! q = Some eq ∧ woken eq = false ∧
      ents w' !! q = Some (set_cancelled eq).

Lemma finish_select_ok name L w a ops ps :
  world_ok L w → select_fired w a ops ps →
  ∃ r w', (x ← cancel_losers ps None; winner_result name ops x) w = ok (r, w') ∧ world_ok L w' ∧
    one_winner w ops ps r w' ∧ chans w' = chans w ∧ flags w' = flags w ∧ loopq w' = loopq w ∧
    (∀ q, live w' q = live w q) ∧
    (∀ q e', ents w' !! q = Some e' → live w' q = true → ents w !! q = Some e').
Proof.
  intros Hw [Ha Hnd Hall Harm].
  destruct (wo_select _ _ Hw a Ha) as (p0 & e0 & He0 & Hf0 & Hw0 & Hu).
  assert (Hp0 : p0 ∈ ps) by (by eapply Hall).
  assert (Hps : ∀ p, p ∈ ps → ∃ e, ents w !! p = Some e ∧ fired e = Some a ∧ (woken e = true ↔ p = p0)).
  { intros p Hp. destruct (Harm p Hp) as (e & He & Hf & _). exists e. split_and!; [done|done|]. split.
    - intros Hwk. by apply (Hu p e).
    - intros ->. congruence. }
  destruct (cancel_losers_ok a p0 ps None L w Hw Ha Hnd Hps) as (w' & Hr & Hw' & Hfl & Hch & Hlq & Hrq & Hen).
  rewrite decide_True in Hr by done. destruct (Harm p0 Hp0) as (e & He & _ & op & Hop).
  assert (e = e0) as -> by congruence.
  assert (He0' : ents w' !! p0 = Some e0) by (rewrite Hen, decide_False; [done|by intros [_ ?]]).
  assert (Hlv : ∀ q, live w' q = live w q).
  { intros q. unfold live. rewrite Hen, Hfl. case_decide as Hq; [|done]. destruct Hq as [Hq Hne].
    destruct (Hps q Hq) as (eq & -> & Hfq & _). simpl. unfold claimable, flag_clear. simpl.
    rewrite Hfq, Ha. by rewrite andb_false_r. }
  eexists _, w'. split; [|split_and!; try done].
  - erewrite prog_bind_ok by exact Hr. cbn [winner_result].
    erewrite prog_bind_ok by (by apply get_ent_ok). rewrite Hop. done.
  - exists p0, e0, op. split_and!; try done. intros q Hq Hne. destruct (Hps q Hq) as (eq & Heq & _ & Hwq).
    exists eq. split_and!; [done| |by rewrite Hen, decide_True, Heq by done].
    destruct (woken eq); [|done]. by destruct Hne; apply Hwq.
  - intros q e' He' Hl. rewrite Hen in He'. case_decide as Hq; [|done]. destruct Hq as [Hq _].
    rewrite Hlv in Hl. destruct (Hps q Hq) as (eq & Heq & Hfq & _). unfold live in Hl. rewrite Heq in Hl.
    unfold claimable, flag_clear in Hl. rewrite Hfq, Ha in Hl. by rewrite andb_false_r in Hl.
Qed.

(** ** Selects among the other calls *)

Notation winv := (inv false).

Lemma unchanged_inv L w L' w' : winv L w → world_ok L' w' → unchanged L w L' w' → winv L' w'.
Proof.
  intros Hi Hw' [Ht Hlv]. eapply inv_same_obs; [exact Hi|done|..].
  - intros c. by apply tidied_obs.
  - apply Ht.
  - apply from_old_kept; [done|by apply tidied_kept].
Qed.

Lemma flagged_inv L w : winv L w → winv L (flagged w).
Proof.
  intros Hi. pose proof (iv_world _ _ _ Hi) as Hw.
  eapply inv_same_obs; [exact Hi|by apply flagged_ok|done|done|].
  apply from_old_kept; [intros; by apply flagged_lv|by apply kept_refl].
Qed.

Lemma with_sem_inv L w : winv L w → winv L (with_sem w).
Proof.
  intros Hi. eapply inv_same_obs; [exact Hi|apply with_sem_ok, Hi|done|done|].
  apply from_old_kept; [done|by apply kept_refl].
Qed.

Lemma rescan_inv L w op res L' w' :
  winv L w → world_ok L' w' → arm_fired rescan_fires L w op res L' w' → winv L' w'.
Proof.
  intros Hi Hw' (c & ch & _ & Hc & Hx). destruct (takes op).
  - destruct Hx as (v & _ & Hx). by eapply take_inv.
  - destruct Hx as (st & _ & Hx). by eapply put_inv.
Qed.

Lemma first_put_inv L w c ch v st L' w' :
  winv L w → chans w !! c = Some ch → world_ok L' w' → first_put L w c (obs ch) v st L' w' → winv L' w'.
Proof.
  intros Hi Hc Hw' Hx. pose proof (obs_at_Some w c ch Hc) as Ho.
  destruct Hx as [Hcl|w' Hcl Hlen Ho' Hoth Hlv He Hr Hb Hs Hlq|L' w' Hlen Hx]; [done| |by eapply put_inv].
  destruct Hi as [Hw Hid Hg Hsl Hq]. split; [done|done|..].
  - by eapply set_oq_guards.
  - eapply from_old_slots; [|exact Hsl]. apply from_old_kept; [done|by apply kept_refl].
  - intros c'. rewrite Hlq. intros Hc'%Hq. by eapply set_oq_has_chan.
Qed.

Lemma immediate_inv L w op res L' w' :
  winv L w → world_ok L' w' → arm_fired first_put L w op res L' w' → winv L' w'.
Proof.
  intros Hi Hw' (c & ch & _ & Hc & Hx). destruct (takes op).
  - destruct Hx as (v & _ & Hx). by eapply take_inv.
  - destruct Hx as (st & _ & Hx). by eapply first_put_inv.
Qed.

Lemma parked_on_arm (P : Z → positive → Prop) ops ind : ∀ ps c s p,
  Forall2 P ind ps → p ∈ parked_on ops ind ps c s →
  ∃ i op, zget ops i = Some op ∧ side_of op = s ∧ P i p.
Proof.
  induction ind as [|i ind IH]; intros ps c s p Hf; inversion Hf as [|? q ? ps' Hp Hf']; subst; simpl;
    [by intros ?%not_elem_of_nil|].
  destruct (zget ops i) as [op|] eqn:Hop; [case_decide as Hd|]; [|by apply IH..].
  intros [->|Hp']%elem_of_cons; [|by eapply IH]. destruct Hd as [_ Hs]. eauto 10.
Qed.

Lemma select_parks_inv a ops ind ps L w L' w' :
  winv L w → world_ok L' w' → select_parks a ops ind ps L w L' w' → winv L' w'.
Proof.
  intros [Hw Hid Hg Hsl Hq] Hw' [Sn Snd Se Sf So Sl Sob Sk Sr Sc Scl Slq]. split; [done|done|..].
  - intros c o. rewrite Sob. apply Hg.
  - intros c p e Hp He. rewrite Sl in Hp. apply elem_of_app in Hp as [Hp|Hp].
    + destruct (kept_entry w w' p e Sk) as (n & e0 & He0 & ->); [by eapply lv_live|done|].
      apply (Hsl c p e0 Hp He0).
    + destruct (parked_on_arm _ _ _ _ _ _ _ Se Hp)
        as (i & op & Hop & Hs & op' & e' & Hop' & He' & _ & _ & _ & _ & Hslot).
      assert (op' = op) as -> by congruence. assert (e' = e) as -> by congruence. apply Hslot.
      unfold side_of in Hs. by destruct (takes op).
  - intros c. rewrite Slq. intros Hc%Hq. by rewrite has_chan_obs, Sob, <- has_chan_obs.
Qed.

Lemma sync_destroy_inv L w sy :
  winv L w →
  (∀ q e, ents w !! q = Some e → kind e = GOC_SYNC → sync_sem_ptr e = sy → claimable (flags w) e = false) →
  winv L (set_syncs (delete sy) w).
Proof.
  intros Hi Hno. eapply inv_same_obs; [exact Hi|by apply world_ok_sync_destroy; [apply Hi|]|done|done|].
  apply from_old_kept; [done|by apply kept_refl].
Qed.

Lemma goc_alts_park_ok L w i f ops ind :
  winv L w → fibers w !! i = Some f → parked f = 0 → arms_valid w ops ind →
  ∃ r w' L', goc_alts_park i ops ind w = ok (r, w') ∧ winv L' w' ∧ park_result ops ind L w r L' w'.
Proof.
  intros Hi Hf H0 Hv. pose proof (iv_world _ _ _ Hi) as Hw. pose proof (flagged_ok L w Hw) as Hw0. unfold goc_alts_park.
  erewrite prog_bind_ok by done. fold (flagged w).
  destruct (try_arms_ok rescan_put rescan_fires rescan_put_ok ops ind L (flagged w) Hw0 Hv)
    as (r & w1 & L1 & Hr & Hw1 & Hcase).
  erewrite prog_bind_ok by exact Hr. destruct r as [res|].
  { exists (AltRet res), w1, L1. destruct Hcase as (j & op & L2 & w2 & Hj & Hop & Hw2 & Hun & Hfired).
    pose proof (unchanged_inv _ _ _ _ (flagged_inv _ _ Hi) Hw2 Hun) as Hi2. destruct Hun as [Ht2 Hlv2].
    split_and!; [done|by eapply rescan_inv|].
    exists j, op, L2, w2, w1. split_and!; try done; [| |by left].
    - intros c s. by rewrite Hlv2, flagged_lv.
    - intros c. by rewrite (tidied_obs (flagged w)). }
  destruct Hcase as [[Ht Hlv] Hnr].
  assert (Hf1 : fibers w1 !! i = Some f) by (by rewrite (td_fibers _ _ Ht)).
  erewrite prog_bind_ok by (by apply begin_park_ok).
  set (w2 := set_fibers (<[i := mk_fiber 3 (fhome f) (fpool f)]>) w1).
  pose proof (announce_ok L1 w1 i f Hw1 Hf1 H0) as Hw2. fold w2 in Hw2.
  destruct (select_link_ok (λ ps, AltPark ps None) (next_id w) (alts_fiber_entry i (next_id w) 1) ops ind L1 w2 Hw2)
    as (ps & w' & L' & Hr' & Hw' & Hsp).
  - apply Forall_forall. intros j Hj. unfold arms_valid in Hv. rewrite Forall_forall in Hv.
    destruct (Hv j Hj) as (op & Hop & _). exists op. split; [done|].
    by eapply (open_arm_tidied (flagged w) w1), not_ready_open, Hnr.
  - intros j op. split; simpl; try done.
    + rewrite (td_flags _ _ Ht). apply lookup_insert_eq.
    + intros _. split_and!; [done|rewrite lookup_insert_eq; eauto|].
      intros q e' Hq Hk Hc Hcl. by rewrite (running_quiet L1 w1 i f q e') in Hcl.
  - intros q e Hq. by eapply (fresh_flag_unused L w w1).
  - done.
  - exists (AltPark ps None), w', L'.
    assert (Hsp' : select_parks (next_id w) ops ind ps L w L' w').
    { eapply (select_parks_back _ _ _ _ L w L1 w2); [..|exact Hsp].
      * intros c s. etrans; [apply Hlv|by apply flagged_lv].
      * intros c. exact (tidied_obs (flagged w) w1 c Ht).
      * intros q e He. apply (tidied_kept _ _ Ht q e He).
      * apply (td_runq _ _ Ht).
      * apply (td_cbq _ _ Ht).
      * apply (td_closelog _ _ Ht).
      * apply (td_loopq _ _ Ht). }
    split_and!; [done|by eapply select_parks_inv|]. exists (next_id w). split; [done|].
    intros j op Hj Hop. destruct (Hnr j op Hj Hop) as (c & ch & ? & ? & ? & Hx). exists c, ch.
      rewrite !flagged_lv in Hx by done. by split_and!.
Qed.

Lemma goc_alts_sync_park_ok L w ops ind :
  winv L w → arms_valid w ops ind →
  ∃ r w' L', goc_alts_sync_park ops ind w = ok (r, w') ∧ winv L' w' ∧ park_result ops ind L w r L' w'.
Proof.
  intros Hi Hv. pose proof (iv_world _ _ _ Hi) as Hw. pose proof (with_sem_ok L w Hw) as Hws. pose proof (flagged_ok L _ Hws) as Hw0.
  unfold goc_alts_sync_park. erewrite prog_bind_ok by done. fold (with_sem w).
  erewrite prog_bind_ok by done. fold (flagged (with_sem w)). set (s := next_id w).
  assert (Hlv0 : ∀ c s, lv L (flagged (with_sem w)) c s = lv L w c s) by (intros; by rewrite flagged_lv).
  destruct (try_arms_ok rescan_put rescan_fires rescan_put_ok ops ind L _ Hw0 Hv)
    as (r & w1 & L1 & Hr & Hw1 & Hcase).
  erewrite prog_bind_ok by exact Hr. destruct r as [res|].
  { eexists (AltRet res), _, L1. split; [done|].
    destruct Hcase as (j & op & L2 & w2 & Hj & Hop & Hw2 & Hun & Hfired).
    pose proof (unchanged_inv _ _ _ _ (flagged_inv _ _ (with_sem_inv _ _ Hi)) Hw2 Hun) as Hi2.
    pose proof (rescan_inv _ _ _ _ _ _ Hi2 Hw1 Hfired) as Hi1. destruct Hun as [Ht2 Hlv2]. split.
    - apply sync_destroy_inv; [done|]. intros q e Hq Hk Hs.
      destruct (claimable (flags w1) e) eqn:Hcl; [|done].
      destruct (live_old_trans _ _ _ Ht2 (fired_live_old _ _ _ _ _ _ Hfired) q e Hq) as (e0 & n & He0 & ->).
      { unfold live. by rewrite Hq. }
      simpl in He0, Hk, Hs. pose proof (wo_sync_old _ _ Hw q e0 He0 Hk). lia.
    - exists j, op, L2, w2, w1. split_and!; try done; [| |right; eauto].
      + intros c s'. by rewrite Hlv2.
      + intros c. by rewrite (tidied_obs _ w2 c Ht2). }
  destruct Hcase as [[Ht Hlv] Hnr].
  destruct (select_link_ok (λ ps, AltPark ps (Some s)) (next_id (with_sem w))
    (alts_sync_entry s (next_id (with_sem w))) ops ind L1 w1 Hw1) as (ps & w' & L' & Hr' & Hw' & Hsp).
  - apply Forall_forall. intros j Hj. unfold arms_valid in Hv. rewrite Forall_forall in Hv.
    destruct (Hv j Hj) as (op & Hop & _). exists op. split; [done|].
    by eapply (open_arm_tidied _ w1), not_ready_open, Hnr.
  - intros j op. split; simpl; try done.
    + rewrite (td_flags _ _ Ht). apply lookup_insert_eq.
    + intros _. split; [rewrite (td_syncs _ _ Ht); simpl; rewrite lookup_insert_eq; eauto|].
      intros q e Hq Hk Hs. pose proof (td_ents _ _ Ht q) as Hq0. simpl in Hq0.
      destruct (ents w !! q) as [e0|] eqn:He0; [|congruence]. destruct Hq0 as (n & Hn).
      assert (e = set_next n e0) as -> by congruence. simpl in *.
      pose proof (wo_sync_old _ _ Hw q e0 He0 Hk). lia.
  - intros q e Hq. by eapply (fresh_flag_unused L (with_sem w) w1).
  - done.
  - exists (AltPark ps (Some s)), w', L'.
    assert (Hsp' : select_parks (next_id (with_sem w)) ops ind ps L w L' w').
    { eapply (select_parks_back _ _ _ _ L w L1 w1); [..|exact Hsp].
      * intros c s'. by rewrite Hlv.
      * intros c. exact (tidied_obs _ w1 c Ht).
      * intros q e He. apply (tidied_kept _ _ Ht q e He).
      * apply (td_runq _ _ Ht).
      * apply (td_cbq _ _ Ht).
      * apply (td_closelog _ _ Ht).
      * apply (td_loopq _ _ Ht). }
    split_and!; [done|by eapply select_parks_inv|]. exists (next_id (with_sem w)). split; [done|].
    intros j op Hj Hop. destruct (Hnr j op Hj Hop) as (c & ch & ? & ? & ? & Hx). exists c, ch.
      rewrite !Hlv0 in Hx. by split_and!.
Qed.

(** An arm that was not ready does not fire in a world that shows the same. *)
Lemma not_ready_not_fired L w L1 w1 op res L' w' :
  (∀ c s, lv L1 w1 c s = lv L w c s) → (∀ c, obs_at w1 c = obs_at w c) →
  not_ready L w op → ¬ arm_fired rescan_fires L1 w1 op res L' w'.
Proof.
  intros Hlv Ho (c & ch & Hop & Hc & Hcl & Hr) (c1 & ch1 & Hop1 & Hc1 & Hf).
  assert (c1 = c) as -> by congruence. specialize (Ho c). unfold obs_at in Ho. rewrite Hc, Hc1 in Ho.
  injection Ho as Hq Hsz Hcl1 _ _. destruct (takes op).
  - destruct Hr as [Hq0 Hn0], Hf as (v & _ & Hx).
    inversion Hx as [? ? ? ? Hq1|? ? ? ? ? _ Hp1|? ? _ _ Hc2|]; subst; simpl in *; try rewrite Hlv in *; congruence.
  - destruct Hr as [Hn0 Hl0], Hf as (st & _ & Hx). unfold rescan_fires in Hx.
    inversion Hx as [? ? Hc2|? ? ? ? _ Hp1|? ? _ _ Hlt|]; subst; simpl in *; try rewrite Hlv in *; try congruence.
    rewrite Hq, Hsz in Hlt. lia.
Qed.

(** The outcomes of a select: an arm that is ready fires; if none is, the default arm
    is taken, and without one the caller parks on every arm. *)
Inductive alts_case (ops : list goc_alt_op) (L : positive → side → list positive) (w : world) :
    alts_outcome → (positive → side → list positive) → world → Prop :=
| alts_now i op res L1 w1 L' w' :
    zget ops i = Some op → ¬ is_default op → unchanged L w L1 w1 →
    arm_fired first_put L1 w1 op res L' w' → alts_case ops L w (AltRet res) L' w'
| alts_default d op L' w' :
    zget ops d = Some op → is_default op →
    (∀ i op, zget ops i = Some op → ¬ is_default op → not_ready L w op) → unchanged L w L' w' →
    alts_case ops L w (AltRet (mk_result (op_ch op) (0, GOC_OK))) L' w'
| alts_parked a ind ps sem L' w' :
    ind ≡ₚ arm_positions 0 ops → Forall (λ op, ¬ is_default op) ops →
    (∀ i op, zget ops i = Some op → ¬ is_default op → not_ready L w op) →
    select_parks a ops ind ps L w L' w' → alts_case ops L w (AltPark ps sem) L' w'.

Lemma arm_positions_zget ops i op : zget ops i = Some op → ¬ is_default op → i ∈ arm_positions 0 ops.
Proof.
  intros Hop Hd. apply arm_positions_elem. exists op. rewrite Z.sub_0_r. split_and!; [|done|done].
  by apply zget_Some in Hop as [? _].
Qed.

(** A select from its first try to its parking. *)
Lemma alts_common_ok name L w ops seed park :
  winv L w → (count is_default ops <= 1)%nat →
  (∀ i op, zget ops i = Some op → ¬ is_default op → valid_arm w op) →
  (∀ ind L1 w1, winv L1 w1 → unchanged L w L1 w1 → arms_valid w1 ops ind →
     ∃ r w' L', park ind w1 = ok (r, w') ∧ winv L' w' ∧ park_result ops ind L1 w1 r L' w') →
  ∃ r seed' w' L', alts_common name seed ops park w = ok ((r, seed'), w') ∧ winv L' w' ∧
    alts_case ops L w r L' w'.
Proof.
  intros Hi Hcnt Hops Hpark. destruct (build_index_ok name seed ops Hcnt) as (ind & seed' & Hb & Hperm).
  unfold alts_common. rewrite Hb. prog_step.
  assert (Hind : ∀ i op, zget ops i = Some op → ¬ is_default op → i ∈ ind).
  { intros i op Hop Hd. rewrite Hperm. by eapply arm_positions_zget. }
  assert (Hnd : ∀ i op, i ∈ ind → zget ops i = Some op → ¬ is_default op).
  { intros i op Hin Hop. rewrite Hperm in Hin. apply arm_positions_elem in Hin as (op' & _ & Hop' & Hd).
    rewrite Z.sub_0_r in Hop'. congruence. }
  assert (Hv : arms_valid w ops ind).
  { apply Forall_forall. intros i Hin. pose proof Hin as Hin'. rewrite Hperm in Hin'.
    apply arm_positions_elem in Hin' as (op & _ & Hop & Hd). rewrite Z.sub_0_r in Hop. eauto. }
  destruct (try_arms_ok try_put first_put try_put_ok ops ind L w (iv_world _ _ _ Hi) Hv)
    as (r & w1 & L1 & Hr & Hw1 & Hcase).
  unfold alts_try_immediate. erewrite prog_bind_ok by exact Hr. destruct r as [res|].
  { eexists _, _, w1, L1. split; [done|].
    destruct Hcase as (j & op & L2 & w2 & Hj & Hop & Hw2 & Hun & Hf). split.
    - eapply immediate_inv; [|done|exact Hf]. by eapply unchanged_inv.
    - eapply alts_now; [exact Hop|by eapply Hnd|exact Hun|exact Hf]. }
  destruct Hcase as [Hun Hnr]. pose proof (unchanged_inv _ _ _ _ Hi Hw1 Hun) as Hi1.
  assert (Hnr' : ∀ i op, zget ops i = Some op → ¬ is_default op → not_ready L w op) by eauto.
  pose proof (default_position_spec ops 0 None) as Hdp.
  destruct (default_position 0 ops None) as [d|].
  - destruct Hdp as [?|(op & _ & Hop & Hd)]; [done|]. rewrite Z.sub_0_r in Hop. rewrite Hop. prog_step.
    eexists _, _, w1, L1. split_and!; [done|done|]. by eapply alts_default.
  - destruct (Hpark ind L1 w1 Hi1 Hun) as (r & w' & L' & Hr' & Hi' & Hres).
    { eapply Forall_impl; [exact Hv|]. intros i (op & Hop & Hd & c & Hc & Hh). exists op. split; [done|].
      split; [done|]. exists c. split; [done|]. by rewrite (tidied_has_chan w w1) by apply Hun. }
    eexists r, seed', w', L'. split_and!; [by erewrite prog_bind_ok by exact Hr'|done|].
    destruct Hun as [Ht Hlv]. destruct r as [res|ps sem].
    + destruct Hres as (j & op & L2 & w2 & w3 & Hj & Hop & _ & Hlv2 & Ho2 & Hf & _). exfalso.
      eapply (not_ready_not_fired L w); [..|exact Hf].
      * intros c s'. by rewrite Hlv2.
      * intros c. by rewrite Ho2, (tidied_obs w w1).
      * by eapply Hnr.
    + destruct Hres as (a & Hsp & _). destruct Hdp as [_ Hnodef]. eapply alts_parked; try done.
      eapply select_parks_back; [exact Hlv|..|exact Hsp].
      * intros c. by rewrite (tidied_obs w w1).
      * by apply tidied_kept.
      * apply Ht.
      * apply Ht.
      * apply Ht.
      * apply Ht.
Qed.

(** ** Channel calls and selects together *)

Inductive xcall :=
| XChan (k : call)
| XAlts (i : positive) (worker : Z) (seed : Z) (ops : list goc_alt_op)
| XAltsSync (seed : Z) (ops : list goc_alt_op)
| XAltsResume (i : positive) (ops : list goc_alt_op) (entries : list positive)
| XAltsSyncResume (s : positive) (ops : list goc_alt_op) (entries : list positive).

Inductive xreply := XReply (r : reply) | XAltsReply (r : alts_outcome).

Definition xexec (k : xcall) : prog world xreply :=
  match k with
  | XChan k => r ← exec k; mret (XReply r)
  | XAlts i worker seed ops => r ← goc_alts (InFiber i worker) seed ops; mret (XAltsReply r.1)
  | XAltsSync seed ops => r ← goc_alts_sync OnThread seed ops; mret (XAltsReply r.1)
  | XAltsResume i ops ps =>
      modify (drop_runq i);; r ← goc_alts_resume i ops ps; mret (XAltsReply (AltRet r))
  | XAltsSyncResume s ops ps => r ← goc_alts_sync_resume s ops ps; mret (XAltsReply (AltRet r))
  end.

(** Well-formed arms: at most one default, a live channel for every other arm. *)
Definition good_ops (w : world) (ops : list goc_alt_op) : Prop :=
  (count is_default ops <= 1)%nat ∧
  ∀ i op, zget ops i = Some op → ¬ is_default op → ∃ c, op_ch op = Some c ∧ has_chan w c.

Definition xenabled (w : world) (k : xcall) : Prop :=
  match k with
  | XChan k => enabled w k
  | XAlts i _ _ ops => runs w i ∧ good_ops w ops
  | XAltsSync _ ops => good_ops w ops
  | XAltsResume i ops ps => (∃ t, (i, t) ∈ runq w) ∧ ∃ a, select_fired w a ops ps
  | XAltsSyncResume s ops ps => syncs w !! s = Some true ∧
      (∃ a, select_fired w a ops ps) ∧
      ∀ p e, ents w !! p = Some e → kind e = GOC_SYNC → sync_sem_ptr e = s → p ∈ ps
  end.

Inductive xreachable : world → Prop :=
| xreach_init : xreachable init
| xreach_step w k r w' : xreachable w → xenabled w k → xexec k w = ok (r, w') → xreachable w'.

Lemma good_ops_valid w ops : good_ops w ops →
  ∀ i op, zget ops i = Some op → ¬ is_default op → valid_arm w op.
Proof. intros [_ Hg] i op Hop Hd. split; [done|]. by eapply Hg. Qed.

Lemma goc_alts_ok L w i f worker seed ops :
  winv L w → fibers w !! i = Some f → parked f = 0 → good_ops w ops →
  ∃ r seed' w' L', goc_alts (InFiber i worker) seed ops w = ok ((r, seed'), w') ∧ winv L' w' ∧
    alts_case ops L w r L' w'.
Proof.
  intros Hi Hf Hp Hg. apply alts_common_ok; [done|apply Hg|by apply good_ops_valid|].
  intros ind L1 w1 Hi1 [Ht _] Hv. eapply goc_alts_park_ok; [exact Hi1| |exact Hp|done].
  by rewrite (td_fibers _ _ Ht).
Qed.

Lemma goc_alts_sync_ok L w seed ops :
  winv L w → good_ops w ops →
  ∃ r seed' w' L', goc_alts_sync OnThread seed ops w = ok ((r, seed'), w') ∧ winv L' w' ∧
    alts_case ops L w r L' w'.
Proof.
  intros Hi Hg. apply alts_common_ok; [done|apply Hg|by apply good_ops_valid|].
  intros ind L1 w1 Hi1 _ Hv. by eapply goc_alts_sync_park_ok.
Qed.

Lemma finish_inv name L w a ops ps :
  winv L w → select_fired w a ops ps →
  ∃ r w', (x ← cancel_losers ps None; winner_result name ops x) w = ok (r, w') ∧ winv L w' ∧
    one_winner w ops ps r w'.
Proof.
  intros Hi Hf. destruct (finish_select_ok name L w a ops ps (iv_world _ _ _ Hi) Hf)
    as (r & w' & Hr & Hw' & How & Hch & Hfl & Hlq & Hlive & Hsame).
  exists r, w'. split_and!; [done| |done].
  eapply inv_same_obs; [exact Hi|done|intros c; unfold obs_at; by rewrite Hch|done|].
  intros c s p [Hl Hin]%list_elem_of_filter. split.
  - apply list_elem_of_filter. by rewrite <- Hlive.
  - intros e' He'. exists (next e'), e'. rewrite set_next_id. split; [by apply Hsame|done].
Qed.

Lemma running_inv L w i t f : winv L w → (i, t) ∈ runq w → fibers w !! i = Some f → winv L (running i f w).
Proof.
  intros Hi Hin Hf. eapply inv_same_obs; [exact Hi|eapply world_ok_run; [apply Hi|done|done]|done|done|].
  apply from_old_kept; [done|by apply kept_refl].
Qed.

Lemma alts_resume_ok L w i t f a ops ps :
  winv L w → (i, t) ∈ runq w → fibers w !! i = Some f → select_fired w a ops ps →
  ∃ r w', goc_alts_resume i ops ps (drop_runq i w) = ok (r, w') ∧ winv L w' ∧ one_winner w ops ps r w'.
Proof.
  intros Hi Hin Hf Hs. pose proof (running_inv L w i t f Hi Hin Hf) as Hi1.
  destruct (finish_inv "goc_alts" L (running i f w) a ops ps Hi1) as (r & w' & Hr & Hi' & How).
  { destruct Hs. by split. }
  exists r, w'. split_and!; [|done|done]. unfold goc_alts_resume, set_parked.
  erewrite (prog_bind_ok (get_fiber i ≫= _)) by (by erewrite prog_bind_ok by (by apply get_fiber_ok)).
  exact Hr.
Qed.

Lemma alts_sync_resume_ok L w s a ops ps :
  winv L w → syncs w !! s = Some true → select_fired w a ops ps →
  (∀ p e, ents w !! p = Some e → kind e = GOC_SYNC → sync_sem_ptr e = s → p ∈ ps) →
  ∃ r w', goc_alts_sync_resume s ops ps w = ok (r, w') ∧ winv L w' ∧ one_winner w ops ps r w'.
Proof.
  intros Hi Hs Hf Hown.
  assert (Hi1 : winv L (set_syncs (delete s) w)).
  { apply sync_destroy_inv; [done|]. intros q e Hq Hk Hsq. pose proof (Hown q e Hq Hk Hsq) as Hin.
    destruct (sf_arms _ _ _ _ Hf q Hin) as (e' & He' & Hfe & _). assert (e' = e) as -> by congruence.
    unfold claimable, flag_clear. rewrite Hfe, (sf_flag _ _ _ _ Hf). apply andb_false_r. }
  destruct (finish_inv "goc_alts_sync" L (set_syncs (delete s) w) a ops ps Hi1) as (r & w' & Hr & Hi' & How).
  { destruct Hf. by split. }
  exists r, w'. split_and!; [|done|done]. unfold goc_alts_sync_resume.
  erewrite (prog_bind_ok (goc_sync_wait s)).
  2: { unfold goc_sync_wait, mbind, prog_bind. by rewrite Hs. }
  erewrite prog_bind_ok by done. exact Hr.
Qed.

Lemma xstep_inv L w k : winv L w → xenabled w k → ∃ r w' L', xexec k w = ok (r, w') ∧ winv L' w'.
Proof.
  intros Hi He. destruct k as [k|i worker seed ops|seed ops|i ops ps|s ops ps]; simpl in He.
  - destruct (step_inv _ L w k Hi He) as (r & w' & L' & Hr & Hi' & _).
    exists (XReply r), w', L'. split; [|done]. unfold xexec. by erewrite prog_bind_ok by exact Hr.
  - destruct He as [(f & Hf & Hp) Hg].
    destruct (goc_alts_ok L w i f worker seed ops Hi Hf Hp Hg) as (r & sd & w' & L' & Hr & Hi' & _).
    exists (XAltsReply r), w', L'. split; [|done]. unfold xexec. by erewrite prog_bind_ok by exact Hr.
  - destruct (goc_alts_sync_ok L w seed ops Hi He) as (r & sd & w' & L' & Hr & Hi' & _).
    exists (XAltsReply r), w', L'. split; [|done]. unfold xexec. by erewrite prog_bind_ok by exact Hr.
  - destruct He as [(t & Hin) (a & Hs)].
    destruct (wo_posted _ _ (iv_world _ _ _ Hi) i t Hin) as [(f & Hf & _) _].
    destruct (alts_resume_ok L w i t f a ops ps Hi Hin Hf Hs) as (r & w' & Hr & Hi' & _).
    exists (XAltsReply (AltRet r)), w', L. split; [|done]. unfold xexec.
    erewrite prog_bind_ok by done. by erewrite prog_bind_ok by exact Hr.
  - destruct He as (Hsy & (a & Hs) & Hown).
    destruct (alts_sync_resume_ok L w s a ops ps Hi Hsy Hs Hown) as (r & w' & Hr & Hi' & _).
    exists (XAltsReply (AltRet r)), w', L. split; [|done]. unfold xexec. by erewrite prog_bind_ok by exact Hr.
Qed.

Lemma xreachable_inv w : xreachable w → winv (linked w) w.
Proof.
  induction 1 as [|w k r w' _ IH He Hr]; [eapply inv_linked, init_inv|].
  destruct (xstep_inv _ w k IH He) as (r' & w'' & L' & Hr' & Hi').
  assert (w'' = w') as -> by congruence. by eapply inv_linked.
Qed.

Lemma reachable_x w : reachable w → xreachable w.
Proof.
  induction 1 as [|w k r w' _ IH He Hr]; [constructor|]. eapply (xreach_step w (XChan k)); [done|done|].
  unfold xexec. by erewrite prog_bind_ok by exact Hr.
Qed.

(** *** Concrete runs *)

Definition good_opb (w : world) (op : goc_alt_op) : bool :=
  match op_kind op, op_ch op with
  | GOC_ALT_DEFAULT, _ => true
  | _, Some c => bool_decide (has_chan w c)
  | _, None => false
  end.

Definition xenabledb (w : world) (k : xcall) : bool :=
  match k with
  | XChan k => enabledb w k
  | XAlts i _ _ ops =>
      match fibers w !! i with Some f => parked f =? 0 | None => false end &&
      (Nat.leb (count is_default ops) 1) && forallb (good_opb w) ops
  | XAltsSync _ ops => (Nat.leb (count is_default ops) 1) && forallb (good_opb w) ops
  | _ => false
  end.

Lemma good_opsb w ops :
  (Nat.leb (count is_default ops) 1) && forallb (good_opb w) ops = true → good_ops w ops.
Proof.
  rewrite andb_true_iff. intros [Hc%Nat.leb_le Hf]. split; [done|]. intros i op [_ Hop]%zget_Some Hd.
  rewrite forallb_forall in Hf. assert (good_opb w op = true) as Hg.
  { apply Hf, list_elem_of_In. by eapply list_elem_of_lookup_2. }
  unfold good_opb in Hg. unfold is_default in Hd.
  destruct (op_kind op), (op_ch op) as [c|]; try done; exists c; by rewrite bool_decide_eq_true in Hg.
Qed.

Lemma xenabledb_ok w k : xenabledb w k = true → xenabled w k.
Proof.
  destruct k as [k|i worker seed ops|seed ops|i ops ps|s ops ps]; simpl; try done.
  - apply enabledb_ok.
  - rewrite <- andb_assoc. intros [Hr Hg%good_opsb]%andb_true_iff. split; [|done].
    destruct (fibers w !! i) as [f|] eqn:Hf; [|done]. exists f. split; [done|]. by apply Z.eqb_eq.
  - apply good_opsb.
Qed.

Fixpoint xrun (ks : list xcall) (w : world) : option (list xreply * world) :=
  match ks with
  | [] => Some ([], w)
  | k :: ks => if xenabledb w k then
                 match xexec k w with
                 | ok (r, w') => '(rs, w'') ← xrun ks w'; Some (r :: rs, w'')
                 | _ => None
                 end
               else None
  end.

Lemma xrun_reachable ks : ∀ w rs w', xreachable w → xrun ks w = Some (rs, w') → xreachable w'.
Proof.
  induction ks as [|k ks IH]; intros w rs w' Hw; simpl; [intros [= <- <-]; done|].
  destruct (xenabledb w k) eqn:He; [|done]. destruct (xexec k w) as [[r w1]|?| |] eqn:Hx; try done.
  destruct (xrun ks w1) as [[rs' w2]|] eqn:Hr; [|done]. simpl. intros [= <- <-].
  eapply IH; [|done]. eapply xreach_step; [done|by apply xenabledb_ok|done].
Qed.

Definition xafter (ks : list xcall) : world := from_option snd init (xrun ks init).

Lemma xafter_reachable ks : xreachable (xafter ks).
Proof.
  unfold xafter. destruct (xrun ks init) as [[rs w]|] eqn:E; simpl; [|apply xreach_init].
  eapply xrun_reachable; [apply xreach_init|done].
Qed.

(** Two channels; fiber 7 selects between taking from either. *)
Definition two_takes : list goc_alt_op :=
  [mk_op (Some 1%positive) GOC_ALT_TAKE 0; mk_op (Some 2%positive) GOC_ALT_TAKE 0].
Definition two_chans : list xcall := [XChan (CMake 0); XChan (CMake 0); XChan (CSpawn 7 0 (Some 4))].

(** ** Properties *)





(** C28: When the fiber of a select runs again, exactly one arm was woken: the select
    returns that arm's channel, value and status, and cancels every other arm. *)
Theorem alts_one_winner w i t a ops ps :
  xreachable w → (i, t) ∈ runq w → select_fired w a ops ps →
  (∃ r w', goc_alts_resume i ops ps (drop_runq i w) = ok (r, w') ∧ one_winner w ops ps r w') ∧
  ∀ p q e e', ents w !! p = Some e → ents w !! q = Some e' → fired e = Some a → fired e' = Some a →
    woken e = true → woken e' = true → p = q.
Proof.
  intros Hr Hin Hs. pose proof (xreachable_inv _ Hr) as Hi. pose proof (iv_world _ _ _ Hi) as Hw. split.
  - destruct (wo_posted _ _ Hw i t Hin) as [(f & Hf & _) _].
    destruct (alts_resume_ok _ w i t f a ops ps Hi Hin Hf Hs) as (r & w' & Hx & _ & How). eauto.
  - intros p q e e' Hp Hq Hfp Hfq Hwp Hwq.
    destruct (wo_select _ _ Hw a (sf_flag _ _ _ _ Hs)) as (p0 & e0 & _ & _ & _ & Hu).
    by rewrite (Hu p e Hp Hfp Hwp), (Hu q e' Hq Hfq Hwq).
Qed.

(** Fiber 7 parks on both channels, then a thread puts 9 on the second. *)
Definition selected : world := xafter (two_chans ++ [XAlts 7 0 1 two_takes; XChan (CPutSync 2 9)]).

Lemma selected_fired : ∃ ps, select_fired selected 3 two_takes ps.
Proof.
  exists [5; 4]%positive. split.
  - vm_compute. reflexivity.
  - repeat constructor; set_solver.
  - intros p e He. assert (Hd : p ∈ dom (ents selected)) by (apply elem_of_dom; eauto).
    assert (Hdom : dom (ents selected) = {[4; 5]}%positive) by (vm_compute; reflexivity). set_solver.
  - intros p Hp. apply elem_of_cons in Hp as [->|Hp%list_elem_of_singleton]; [|subst p];
      eexists; (split_and!; [vm_compute; reflexivity|reflexivity|eexists; vm_compute; reflexivity]).
Qed.

Lemma alts_one_winner_witness : ∃ ps r w',
  goc_alts_resume 7 two_takes ps (drop_runq 7 selected) = ok (r, w') ∧ one_winner selected two_takes ps r w'.
Proof.
  destruct selected_fired as (ps & Hs). exists ps.
  apply (alts_one_winner selected 7 (Some 0) 3 two_takes ps); [apply xafter_reachable|vm_compute; constructor|exact Hs].
Defined.

(** The order of the arms: every arm except the default is tried exactly once, in an
    order that is a permutation of the arms for every seed; two default arms abort. *)
Theorem alts_arm_order name seed ops :
  ((count is_default ops <= 1)%nat →
   ∃ ind d seed', alts_build_index_array name seed ops = ok (ind, d, seed') ∧ NoDup ind ∧
     (∀ i, i ∈ ind ↔ ∃ op, zget ops i = Some op ∧ ¬ is_default op) ∧
     match d with
     | Some j => ∃ op, zget ops j = Some op ∧ is_default op
     | None => Forall (λ op, ¬ is_default op) ops
     end) ∧
  ((1 < count is_default ops)%nat → ∃ msg, alts_build_index_array name seed ops = abort msg).
Proof.
  split.
  - intros Hc. destruct (build_index_ok name seed ops Hc) as (ind & seed' & Hb & Hp).
    exists ind, (default_position 0 ops None), seed'. split_and!; [done|..].
    + rewrite Hp. apply arm_positions_NoDup.
    + intros i. rewrite Hp, arm_positions_elem. rewrite Z.sub_0_r. split.
      * intros (op & _ & ? & ?). eauto.
      * intros (op & Hop & ?). exists op. split_and!; [|done|done]. by apply zget_Some in Hop as [? _].
    + pose proof (default_position_spec ops 0 None) as Hd. destruct (default_position 0 ops None) as [j|].
      * destruct Hd as [?|(op & _ & Hop & ?)]; [done|]. rewrite Z.sub_0_r in Hop. eauto.
      * apply Hd.
  - intros Hc. eexists. unfold alts_build_index_array. by rewrite index_loop_abort by lia.
Qed.

(** C29: The locks of concurrent selects cannot deadlock.  Threads that take the locks
    of their select in the order of [alts_dedup_sort_channels] (or a single lock)
    and release them in reverse always have a step to make until all are done, and
    every step brings them closer to the end. *)
Theorem alts_locks_no_deadlock ts0 ts :
  Forall starts ts0 → rtc lock_step ts0 ts →
  ((∀ t, t ∈ ts → t = mk_locker [] []) ∨ ∃ ts', lock_step ts ts') ∧
  (∀ ts', lock_step ts ts' → (work ts' < work ts)%nat).
Proof.
  intros Hs Hrun. assert (Hord : Forall ordered ts).
  { assert (Forall ordered ts0) as Ho by (eapply Forall_impl; [exact Hs|apply starts_ordered]).
    clear Hs. induction Hrun as [|x y z Hxy _ IH]; [done|]. by eapply IH, lock_step_ordered. }
  split; [by apply lock_progress|]. intros ts'. apply lock_step_work.
Qed.

Lemma alts_locks_no_deadlock_witness :
  (∀ t, t ∈ [mk_locker [] (alts_dedup_sort_channels two_takes); mk_locker [] [2%positive]] →
     t = mk_locker [] []) ∨
  ∃ ts', lock_step [mk_locker [] (alts_dedup_sort_channels two_takes); mk_locker [] [2%positive]] ts'.
Proof.
  apply (alts_locks_no_deadlock [mk_locker [] (alts_dedup_sort_channels two_takes); mk_locker [] [2%positive]]).
  - constructor; [split; [reflexivity|left; exists two_takes; reflexivity]|].
    constructor; [|constructor]. split; [reflexivity|]. right. exists 2%positive. reflexivity.
  - constructor.
Defined.

(** The first try of a put arm prefers the buffer to a waiting taker: with room in
    the buffer it succeeds without waking anybody, so a taker that waits on the empty
    buffer keeps waiting next to the buffered value.  The run shows it: fiber 7 takes
    from an empty channel of capacity 1 and parks, a thread selects a put of 5, which
    succeeds; the fiber still waits, and the value is in the buffer. *)
Theorem alts_put_skips_taker w c ch v :
  xreachable w → chans w !! c = Some ch → closed ch = false → buf_count ch < buf_size ch →
  (∃ w' ch', try_put c v w = ok (Some (result_of c (0, GOC_OK)), w') ∧
     chans w' !! c = Some ch' ∧ ring ch' = ring ch ++ [v] ∧ runq w' = runq w ∧ cbq w' = cbq w ∧
     syncs w' = syncs w ∧ waiting w' c Takers = waiting w c Takers) ∧
  (let w' := xafter [XChan (CMake 1); XChan (CSpawn 7 0 (Some 4)); XChan (CTake 7 0 1);
                     XAltsSync 1 [mk_op (Some 1%positive) GOC_ALT_PUT 5]] in
   waiting w' 1 Takers = [2]%positive ∧ (ring <$> chans w' !! 1%positive) = Some [5] ∧ runq w' = []).
Proof.
  intros Hr Hc Hcl Hlt. split; [|vm_compute; by split_and!].
  pose proof (iv_world _ _ _ (xreachable_inv _ Hr)) as Hw.
  destruct (try_put_ok _ w c ch v Hw Hc) as (r & w' & L' & Hx & Hw' & Hcase).
  pose proof (ring_length ch) as Hlen.
  pose proof (ro_count _ (co_ring _ _ _ (wo_chan _ _ Hw c ch Hc))) as Hcnt.
  destruct r as [res|]; [|destruct Hcase as (_ & _ & Hfull & _); lia].
  destruct Hcase as (st & -> & Hf).
  inversion Hf as [Hcl'|? _ _ Ho' _ Hlv _ Hrq Hcb Hsy _|? ? Hfull]; subst; simpl in *; [congruence| |lia].
  unfold obs_at in Ho'. destruct (chans w' !! c) as [ch'|] eqn:Hc'; [|done]. injection Ho' as Hrg _ _ _ _.
  exists w', ch'. split_and!; try done. by rewrite <- (waiting_ok _ _ _ _ Hw'), Hlv.
Qed.

Lemma alts_put_skips_taker_witness :
  ∃ w', try_put 1 5 (after [CMake 1; CSpawn 7 0 (Some 4); CTake 7 0 1])
          = ok (Some (result_of 1 (0, GOC_OK)), w') ∧ waiting w' 1 Takers = [2]%positive.
Proof.
  set (w := after _).
  destruct (chans w !! 1%positive) as [ch|] eqn:Hc; [|vm_compute in Hc; discriminate Hc].
  assert (Hch : closed ch = false ∧ buf_count ch < buf_size ch)
    by (vm_compute in Hc; injection Hc as <-; split; reflexivity).
  destruct Hch as [Hcl Hlt].
  destruct (alts_put_skips_taker w 1 ch 5 (reachable_x _ (after_reachable _)) Hc Hcl Hlt)
    as [(w' & ch' & Hx & _ & _ & _ & _ & _ & Hwt) _].
  exists w'. split; [exact Hx|]. rewrite Hwt. vm_compute. reflexivity.
Defined.

End AltsProps.
