(* ===== verification/Timer.v ===== *)
(** Timeouts: the central timer manager of src/loop.c (a binary min-heap of
    deadlines whose entries point to their contexts and back) and the timeout
    channels of src/timeout.c that use it.

    Everything here runs on the loop thread except [goc_timeout] and the close
    callback, which only post to it.  [uv_hrtime] is an argument [now] of the
    operations that call it; what is handed to other components is recorded: the
    channels closed, the functions posted to the loop, and how the one libuv timer
    is armed. *)

From S2P Require Import Prelude.

Module Timer.

(** ** Data *)

(** [goc_timeout_timer_ctx], with whether its channel's [close_guard] is still open. *)
Record timer_ctx := mk_ctx {
  cch : positive; ch_open : bool; start_state : Z; cancel_requested : bool; heap_idx : Z }.

Definition set_idx (i : Z) (c : timer_ctx) : timer_ctx :=
  mk_ctx (cch c) (ch_open c) (start_state c) (cancel_requested c) i.
Definition set_state (s : Z) (c : timer_ctx) : timer_ctx :=
  mk_ctx (cch c) (ch_open c) s (cancel_requested c) (heap_idx c).
Definition set_cancel (c : timer_ctx) : timer_ctx :=
  mk_ctx (cch c) (ch_open c) (start_state c) true (heap_idx c).
Definition set_shut (c : timer_ctx) : timer_ctx :=
  mk_ctx (cch c) false (start_state c) (cancel_requested c) (heap_idx c).

(** [timer_heap_entry_t]: a deadline and its context. *)
Notation timer_heap_entry := (Z * positive)%type.

(** [goc_timeout_req]. *)
Record goc_timeout_req := mk_req { timer_ctx_of : positive; ms : Z; call_ns : Z }.

(** What is posted to the loop: [on_start_timer] with its request, or
    [on_cancel_timer] with its context. *)
Inductive posted_fn := PStart (r : goc_timeout_req) | PCancel (x : positive).

Record state := mk_state {
  heap : list timer_heap_entry;      (* the array, as long as its capacity *)
  heap_len : Z;
  ctxs : gmap positive timer_ctx;
  mgr : bool;                        (* [g_timer_mgr] is not NULL *)
  armed : option Z;                  (* the delay of the running libuv timer, in ms *)
  closes : list positive;            (* channels closed, in order *)
  posts : list posted_fn;            (* functions posted to the loop, in order *)
  allocations : Z;
  expirations : Z;
  next_ctx : positive
}.

Definition set_heap (h : list timer_heap_entry) (s : state) : state :=
  mk_state h (heap_len s) (ctxs s) (mgr s) (armed s) (closes s) (posts s) (allocations s) (expirations s) (next_ctx s).
Definition set_len (n : Z) (s : state) : state :=
  mk_state (heap s) n (ctxs s) (mgr s) (armed s) (closes s) (posts s) (allocations s) (expirations s) (next_ctx s).
Definition set_ctxs f (s : state) : state :=
  mk_state (heap s) (heap_len s) (f (ctxs s)) (mgr s) (armed s) (closes s) (posts s) (allocations s) (expirations s) (next_ctx s).
Definition set_armed (a : option Z) (s : state) : state :=
  mk_state (heap s) (heap_len s) (ctxs s) (mgr s) a (closes s) (posts s) (allocations s) (expirations s) (next_ctx s).
Definition drop_mgr (s : state) : state :=
  mk_state (heap s) (heap_len s) (ctxs s) false None (closes s) (posts s) (allocations s) (expirations s) (next_ctx s).
Definition push_close (c : positive) (s : state) : state :=
  mk_state (heap s) (heap_len s) (ctxs s) (mgr s) (armed s) (closes s ++ [c]) (posts s) (allocations s) (expirations s) (next_ctx s).
Definition push_post (p : posted_fn) (s : state) : state :=
  mk_state (heap s) (heap_len s) (ctxs s) (mgr s) (armed s) (closes s) (posts s ++ [p]) (allocations s) (expirations s) (next_ctx s).
Definition count_expiration (s : state) : state :=
  mk_state (heap s) (heap_len s) (ctxs s) (mgr s) (armed s) (closes s) (posts s) (allocations s) (expirations s +% 1) (next_ctx s).

Definition modify (f : state → state) : prog state () := λ s, ok (tt, f s).
Definition get : prog state state := λ s, ok (s, s).

(** [g_timer_heap[i]] and [g_timer_heap[i] = e]. *)
Definition entry_at (i : Z) : prog state timer_heap_entry := λ s, of_option (zget (heap s) i) s.
Definition store_at (i : Z) (e : timer_heap_entry) : prog state () := λ s,
  match zset (heap s) i e with Some h => ok (tt, set_heap h s) | None => ub end.

(** A field of a context. *)
Definition get_ctx (x : positive) : prog state timer_ctx := λ s, of_option (ctxs s !! x) s.
Definition upd_ctx (x : positive) (f : timer_ctx → timer_ctx) : prog state () :=
  c ← get_ctx x; modify (set_ctxs (<[x := f c]>)).

Definition post_on_loop (p : posted_fn) : prog state () := modify (push_post p).

(** ** Closing a timeout's channel *)

Definition on_timeout_channel_closed (x : positive) : prog state () :=
  upd_ctx x set_cancel;; post_on_loop (PCancel x).

(** [goc_close(tctx->ch)] on the loop thread: the first close runs the callback that
    [goc_timeout] registered, any other does nothing. *)
Definition goc_close (x : positive) : prog state () :=
  c ← get_ctx x;
  modify (push_close (cch c));;
  if ch_open c then upd_ctx x set_shut;; on_timeout_channel_closed x else mret tt.

(** ** The heap *)

Definition TIMER_HEAP_INIT_CAP : Z := 64.

Definition timer_heap_swap (a b : Z) : prog state () :=
  ea ← entry_at a;
  eb ← entry_at b;
  store_at a eb;;
  store_at b ea;;
  upd_ctx eb.2 (set_idx a);;
  upd_ctx ea.2 (set_idx b).

Fixpoint sift_up (fuel : nat) (i : Z) : prog state () :=
  match fuel with
  | O => HANG
  | S fuel =>
      if i =? 0 then mret tt
      else
        let parent := (i - 1) / 2 in
        p ← entry_at parent;
        e ← entry_at i;
        if p.1 <=? e.1 then mret tt
        else timer_heap_swap parent i;; sift_up fuel parent
  end.

(** The smallest of an entry and its children. *)
Definition smallest_of (i : Z) : prog state Z :=
  s ← get;
  let left := 2 * i + 1 in
  let right := 2 * i + 2 in
  smallest ← (if left <? heap_len s then
                l ← entry_at left; e ← entry_at i;
                mret (if l.1 <? e.1 then left else i)
              else mret i);
  if right <? heap_len s then
    r ← entry_at right; e ← entry_at smallest;
    mret (if r.1 <? e.1 then right else smallest)
  else mret smallest.

Fixpoint sift_down (fuel : nat) (i : Z) : prog state () :=
  match fuel with
  | O => HANG
  | S fuel =>
      smallest ← smallest_of i;
      if smallest =? i then mret tt
      else timer_heap_swap i smallest;; sift_down fuel smallest
  end.

(** The index moves towards the root, or towards the leaves, with every iteration. *)
Definition timer_heap_sift_up (i : Z) : prog state () := sift_up (S (Z.to_nat i)) i.
Definition timer_heap_sift_down (i : Z) : prog state () := λ s, sift_down (S (Z.to_nat (heap_len s))) i s.

(** libuv is handed [g_timer_mgr] in either case. *)
Definition timer_mgr_rearm (now : Z) : prog state () :=
  s ← get;
  if negb (mgr s) then UB
  else if heap_len s =? 0 then modify (set_armed None)
  else
    e ← entry_at 0;
    let delay_ms := if now <? e.1 then ((e.1 - now) +% 999999) / 1000000 else 0 in
    modify (set_armed (Some delay_ms)).

(** [goc_realloc] keeps the old elements and clears the new ones. *)
Definition grow_heap : prog state () :=
  s ← get;
  let cap := Z.of_nat (length (heap s)) in
  if heap_len s =? cap then
    let new_cap := if cap =? 0 then TIMER_HEAP_INIT_CAP else cap * 2 in
    modify (set_heap (heap s ++ replicate (Z.to_nat (new_cap - cap)) (0, 1%positive)))
  else mret tt.

Definition goc_timer_manager_insert (now : Z) (x : positive) (deadline_ns : Z) : prog state () :=
  grow_heap;;
  s ← get;
  let i := heap_len s in
  modify (set_len (i + 1));;
  store_at i (deadline_ns, x);;
  upd_ctx x (set_idx i);;
  timer_heap_sift_up i;;
  c ← get_ctx x;
  if heap_idx c =? 0 then timer_mgr_rearm now else mret tt.

Definition goc_timer_manager_remove (now : Z) (x : positive) : prog state () :=
  c ← get_ctx x;
  s ← get;
  let i := heap_idx c in
  if (i =? SIZE_MAX) || (heap_len s <=? i) then mret tt
  else
    upd_ctx x (set_idx SIZE_MAX);;
    let last := heap_len s - 1 in
    modify (set_len last);;
    if i =? last then timer_mgr_rearm now
    else
      moved ← entry_at last;
      store_at i moved;;
      upd_ctx moved.2 (set_idx i);;
      timer_heap_sift_up i;;
      m ← get_ctx moved.2;
      timer_heap_sift_down (heap_idx m);;
      timer_mgr_rearm now.

(** The root leaves the heap. *)
Definition pop_root : prog state positive :=
  s ← get;
  e ← entry_at 0;
  upd_ctx e.2 (set_idx SIZE_MAX);;
  let last := heap_len s - 1 in
  modify (set_len last);;
  (if 0 <? last then
     l ← entry_at last;
     store_at 0 l;;
     upd_ctx l.2 (set_idx 0);;
     timer_heap_sift_down 0
   else mret tt);;
  mret e.2.

(** [goc_timeout_ctx_expire]. *)
Definition goc_timeout_ctx_expire (x : positive) : prog state () :=
  modify count_expiration;;
  goc_close x.

Fixpoint fire_loop (fuel : nat) (now : Z) : prog state () :=
  match fuel with
  | O => HANG
  | S fuel =>
      s ← get;
      if 0 <? heap_len s then
        e ← entry_at 0;
        if e.1 <=? now then
          x ← pop_root;
          upd_ctx x (set_state 2);;
          goc_timeout_ctx_expire x;;
          fire_loop fuel now
        else mret tt
      else mret tt
  end.

(** The loop expires every due entry, then re-arms; [now'] is the later reading of
    the clock in [timer_mgr_rearm]. *)
Definition on_timer_mgr_fire (now now' : Z) : prog state () :=
  (λ s, fire_loop (S (Z.to_nat (heap_len s))) now s);;
  timer_mgr_rearm now'.

(** ** Timeout channels *)

Definition on_cancel_timer (now : Z) (x : positive) : prog state () :=
  c ← get_ctx x;
  if negb (start_state c =? 1) then mret tt
  else upd_ctx x (set_state 2);; goc_timer_manager_remove now x.

(** When a request that waited for the loop until [now] is due. *)
Definition fire_at (r : goc_timeout_req) (now : Z) : Z :=
  let elapsed_ns := if call_ns r <? now then now - call_ns r else 0 in
  let elapsed_ms := elapsed_ns / 1000000 in
  let remaining := if elapsed_ms <? ms r then ms r - elapsed_ms else 0 in
  now +% (remaining *% 1000000).

(** [now'] is the reading of the clock when the timer is re-armed; [meanwhile] is
    what other threads do between the two looks at [cancel_requested]. *)
Definition on_start_timer (meanwhile : prog state ()) (now now' : Z) (r : goc_timeout_req) : prog state () :=
  c ← get_ctx (timer_ctx_of r);
  if cancel_requested c then mret tt
  else
    upd_ctx (timer_ctx_of r) (set_state 1);;
    meanwhile;;
    c ← get_ctx (timer_ctx_of r);
    if cancel_requested c then upd_ctx (timer_ctx_of r) (set_state 2)
    else goc_timer_manager_insert now' (timer_ctx_of r) (fire_at r now).

(** [goc_timeout] on a channel just made; its close callback is
    [on_timeout_channel_closed] with the context. *)
Definition goc_timeout (now : Z) (ch : positive) (ms : Z) : prog state positive := λ s,
  let x := next_ctx s in
  ok (x, mk_state (heap s) (heap_len s) (<[x := mk_ctx ch true 0 false SIZE_MAX]> (ctxs s)) (mgr s) (armed s)
           (closes s) (posts s ++ [PStart (mk_req x ms now)]) (allocations s +% 1) (expirations s)
           (Pos.succ x)).

(** ** Start and stop *)

Definition goc_timer_manager_init : state :=
  mk_state (replicate (Z.to_nat TIMER_HEAP_INIT_CAP) (0, 1%positive)) 0 ∅ true None [] [] 0 0 1.

Fixpoint shutdown_loop (n : nat) (i : Z) : prog state () :=
  match n with
  | O => mret tt
  | S n =>
      e ← entry_at i;
      upd_ctx e.2 (set_state 2);;
      upd_ctx e.2 (set_idx SIZE_MAX);;
      goc_close e.2;;
      shutdown_loop n (i + 1)
  end.

Definition goc_timer_manager_shutdown : prog state () :=
  s ← get;
  (if mgr s then modify (set_armed None) else mret tt);;
  shutdown_loop (Z.to_nat (heap_len s)) 0;;
  modify (set_len 0);;
  modify drop_mgr.

End Timer.
