(* ===== verification/TimerProps.v ===== *)
(** Properties of the timer manager and of timeouts: the heap order and the
    back-pointers of the contexts are kept by every operation, timeouts expire in the
    order of their deadlines and never early, and a timeout fires at most once. *)

From Stdlib Require Import Sorting.Sorted.
From S2P Require Import Prelude Timer.
Import Timer.

Module TimerProps.

(** ** The shape of the heap *)

Definition key (s : state) (j : Z) : Z := match zget (heap s) j with Some e => e.1 | None => 0 end.

(** The entries in use. *)
Definition pending (s : state) : list timer_heap_entry := take (Z.to_nat (heap_len s)) (heap s).

(** Entries and contexts point to each other. *)
Record shape (s : state) : Prop := {
  sh_len : 0 <= heap_len s <= Z.of_nat (length (heap s));
  sh_cap : Z.of_nat (length (heap s)) < 2 ^ 60;
  sh_back : ∀ i d x, 0 <= i < heap_len s → zget (heap s) i = Some (d, x) →
    ∃ c, ctxs s !! x = Some c ∧ heap_idx c = i;
  sh_out : ∀ x c, ctxs s !! x = Some c → heap_idx c = SIZE_MAX ∨
    (0 <= heap_idx c < heap_len s ∧ ∃ d, zget (heap s) (heap_idx c) = Some (d, x));
  sh_mgr : mgr s = true
}.

(** Every entry is due no earlier than its parent. *)
Definition ordered (s : state) : Prop :=
  ∀ j, 0 < j < heap_len s → key s ((j - 1) / 2) <= key s j.

Record heap_ok (s : state) : Prop := { hk_shape : shape s; hk_ord : ordered s }.

(** Contexts differ in their position only. *)
Definition same_ctxs (m m' : gmap positive timer_ctx) : Prop :=
  ∀ x, match m !! x with Some c => ∃ i, m' !! x = Some (set_idx i c) | None => m' !! x = None end.

(** Only the arrangement of the heap changed. *)
Record rearranged (s s' : state) : Prop := {
  ra_len : heap_len s' = heap_len s;
  ra_cap : length (heap s') = length (heap s);
  ra_perm : pending s' ≡ₚ pending s;
  ra_ctxs : same_ctxs (ctxs s) (ctxs s');
  ra_armed : armed s' = armed s;
  ra_closes : closes s' = closes s;
  ra_posts : posts s' = posts s;
  ra_alloc : allocations s' = allocations s;
  ra_exp : expirations s' = expirations s;
  ra_next : next_ctx s' = next_ctx s
}.

Lemma same_ctxs_refl m : same_ctxs m m.
Proof. intros x. destruct (m !! x) as [c|]; [|done]. exists (heap_idx c). by destruct c. Qed.

Lemma same_ctxs_trans m1 m2 m3 : same_ctxs m1 m2 → same_ctxs m2 m3 → same_ctxs m1 m3.
Proof.
  intros H12 H23 x. specialize (H12 x). specialize (H23 x). destruct (m1 !! x) as [c|].
  - destruct H12 as (i & Hi). rewrite Hi in H23. destruct H23 as (k & Hk). by exists k.
  - by rewrite H12 in H23.
Qed.

Lemma same_ctxs_insert m x c i : m !! x = Some c → same_ctxs m (<[x := set_idx i c]> m).
Proof.
  intros Hx y. rewrite lookup_insert. case_decide.
  - subst. rewrite Hx. eauto.
  - destruct (m !! y) as [d|]; [|done]. exists (heap_idx d). by destruct d.
Qed.

Lemma rearranged_refl s : rearranged s s.
Proof. split; try done. apply same_ctxs_refl. Qed.

Lemma rearranged_trans s1 s2 s3 : rearranged s1 s2 → rearranged s2 s3 → rearranged s1 s3.
Proof.
  intros [] []. split; try congruence; [by etrans|by eapply same_ctxs_trans].
Qed.

(** ** Access *)

Lemma entry_at_ok s i : 0 <= i < Z.of_nat (length (heap s)) →
  ∃ e, zget (heap s) i = Some e ∧ entry_at i s = ok (e, s).
Proof. intros Hi. destruct (zget_is_Some (heap s) i Hi) as [e He]. exists e. unfold entry_at. by rewrite He. Qed.

Lemma store_at_ok s i e : 0 <= i < Z.of_nat (length (heap s)) →
  store_at i e s = ok (tt, set_heap (<[Z.to_nat i := e]> (heap s)) s).
Proof. intros Hi. unfold store_at. by rewrite zset_in. Qed.

Lemma get_ctx_ok s x c : ctxs s !! x = Some c → get_ctx x s = ok (c, s).
Proof. intros Hx. unfold get_ctx. by rewrite Hx. Qed.

Lemma upd_ctx_ok s x c f : ctxs s !! x = Some c → upd_ctx x f s = ok (tt, set_ctxs (<[x := f c]>) s).
Proof. intros Hx. unfold upd_ctx. by erewrite prog_bind_ok by (by apply get_ctx_ok). Qed.

Lemma zget_insert (l : list timer_heap_entry) i e j :
  0 <= i < Z.of_nat (length l) →
  zget (<[Z.to_nat i := e]> l) j = if decide (j = i) then Some e else zget l j.
Proof.
  intros Hi. unfold zget, in_range. rewrite length_insert. case_decide as Hj.
  - subst j. destruct (Z.leb_spec 0 i), (Z.ltb_spec i (Z.of_nat (length l))); try lia. simpl.
    apply list_lookup_insert_eq. lia.
  - destruct (Z.leb_spec 0 j), (Z.ltb_spec j (Z.of_nat (length l))); try done. simpl.
    apply list_lookup_insert_ne. lia.
Qed.

Lemma pending_lookup s i : 0 <= i < heap_len s → pending s !! Z.to_nat i = heap s !! Z.to_nat i.
Proof. intros Hi. unfold pending. apply lookup_take_lt. lia. Qed.

(** A pending entry sits where its context says. *)
Lemma pending_at s d x c :
  shape s → (d, x) ∈ pending s → ctxs s !! x = Some c →
  0 <= heap_idx c < heap_len s ∧ zget (heap s) (heap_idx c) = Some (d, x).
Proof.
  intros Hs Hin Hc. apply list_elem_of_lookup in Hin as (n & Hn). unfold pending in Hn.
  apply lookup_take_Some in Hn as [Hn Hnl].
  assert (Hz : zget (heap s) (Z.of_nat n) = Some (d, x)) by (apply zget_Some; split; [lia|by rewrite Nat2Z.id]).
  destruct (sh_back _ Hs (Z.of_nat n) d x) as (c' & Hc' & Hi); [lia|done|].
  assert (c' = c) as -> by congruence. rewrite Hi. split; [lia|done].
Qed.

(** Distinct slots hold distinct contexts. *)
Lemma shape_inj s i j d d' x :
  shape s → 0 <= i < heap_len s → 0 <= j < heap_len s →
  zget (heap s) i = Some (d, x) → zget (heap s) j = Some (d', x) → i = j.
Proof.
  intros Hs Hi Hj Hx Hx'. destruct (sh_back _ Hs i d x Hi Hx) as (c & Hc & <-).
  destruct (sh_back _ Hs j d' x Hj Hx') as (c' & Hc' & <-). congruence.
Qed.

Lemma swap_ok s a b :
  shape s → 0 <= a < heap_len s → 0 <= b < heap_len s → a ≠ b →
  ∃ s', timer_heap_swap a b s = ok (tt, s') ∧ shape s' ∧ rearranged s s' ∧
    key s' a = key s b ∧ key s' b = key s a ∧ ∀ j, j ≠ a → j ≠ b → key s' j = key s j.
Proof.
  intros Hs Ha Hb Hab. pose proof Hs as [Hl Hcap Hback Hout Hmgr].
  destruct (entry_at_ok s a) as ([da xa] & Hea & Ha'); [lia|].
  destruct (entry_at_ok s b) as ([db xb] & Heb & Hb'); [lia|].
  destruct (Hback a da xa Ha Hea) as (ca & Hca & Hia). destruct (Hback b db xb Hb Heb) as (cb & Hcb & Hib).
  assert (Hx : xa ≠ xb) by (intros ->; congruence).
  set (h' := <[Z.to_nat b := (da, xa)]> (<[Z.to_nat a := (db, xb)]> (heap s))).
  assert (Hz : ∀ j, zget h' j = if decide (j = b) then Some (da, xa)
                                else if decide (j = a) then Some (db, xb) else zget (heap s) j).
  { intros j. unfold h'. rewrite zget_insert by (rewrite length_insert; lia). by rewrite zget_insert by lia. }
  set (m' := <[xa := set_idx b ca]> (<[xb := set_idx a cb]> (ctxs s))).
  exists (set_ctxs (λ _, m') (set_heap h' s)). split_and!.
  - unfold timer_heap_swap. erewrite prog_bind_ok by exact Ha'. erewrite prog_bind_ok by exact Hb'.
    erewrite prog_bind_ok by (apply store_at_ok; lia).
    erewrite prog_bind_ok by (apply store_at_ok; simpl; rewrite length_insert; lia). simpl.
    erewrite prog_bind_ok by (by apply (upd_ctx_ok _ xb cb)).
    erewrite (upd_ctx_ok _ xa ca); [done|]. simpl. by rewrite lookup_insert_ne.
  - split; simpl; [unfold h'; rewrite !length_insert; lia..| | |done].
    + intros i d x Hi. rewrite Hz. unfold m'. repeat case_decide; subst.
      * intros [= <- <-]. rewrite lookup_insert_eq. eauto.
      * intros [= <- <-]. rewrite lookup_insert_ne, lookup_insert_eq by done. eauto.
      * intros Hi'. destruct (Hback i d x Hi Hi') as (c & Hc & Hic).
        rewrite !lookup_insert_ne; [eauto|congruence..].
    + intros x c. unfold m'. rewrite !lookup_insert. repeat case_decide; subst.
      * intros [= <-]. right. simpl. split; [lia|]. rewrite Hz, decide_True by done. eauto.
      * intros [= <-]. right. simpl. split; [lia|]. rewrite Hz, decide_False, decide_True by done. eauto.
      * intros Hc. destruct (Hout x c Hc) as [|[Hi (d & Hd)]]; [by left|right]. split; [done|]. exists d.
        rewrite Hz, !decide_False; [done|congruence..].
  - split; try done; simpl.
    + unfold h'. by rewrite !length_insert.
    + unfold pending. simpl. unfold h'. rewrite !take_insert_lt by lia.
      apply Permutation_insert_swap; rewrite lookup_take_lt by lia; by apply zget_Some.
    + eapply same_ctxs_trans; [by apply (same_ctxs_insert _ xb cb a)|]. apply same_ctxs_insert.
      by rewrite lookup_insert_ne.
  - unfold key. simpl. rewrite Hz, decide_False, decide_True, Heb by done. done.
  - unfold key. simpl. rewrite Hz, decide_True, Hea by done. done.
  - intros j Hja Hjb. unfold key. simpl. by rewrite Hz, !decide_False.
Qed.

(** ** Sifting up *)

(** Ordered except that entry [i] may be due before its parent. *)
Record up_ordered (s : state) (i : Z) : Prop := {
  uo_other : ∀ j, 0 < j < heap_len s → j ≠ i → key s ((j - 1) / 2) <= key s j;
  uo_child : ∀ j, 0 < j < heap_len s → (j - 1) / 2 = i → 0 < i → key s ((i - 1) / 2) <= key s j
}.

Lemma sift_up_ok : ∀ fuel i s,
  shape s → 0 <= i < heap_len s → i < Z.of_nat fuel → up_ordered s i →
  ∃ s', sift_up fuel i s = ok (tt, s') ∧ heap_ok s' ∧ rearranged s s'.
Proof.
  induction fuel as [|fuel IH]; intros i s Hs Hi Hf [Ho Hc]; [lia|]. cbn [sift_up].
  destruct (Z.eqb_spec i 0) as [->|Hi0].
  { exists s. split_and!; [done| |apply rearranged_refl]. split; [done|]. intros j Hj. apply Ho; lia. }
  remember ((i - 1) / 2) as p eqn:Ep. assert (Hp : 0 <= p < i) by dlia.
  pose proof (sh_len _ Hs).
  destruct (entry_at_ok s p) as (ep & Hep & Hp'); [lia|]. destruct (entry_at_ok s i) as (ei & Hei & Hi'); [lia|].
  erewrite prog_bind_ok by exact Hp'. erewrite prog_bind_ok by exact Hi'.
  assert (Hkp : key s p = ep.1) by (unfold key; by rewrite Hep).
  assert (Hki : key s i = ei.1) by (unfold key; by rewrite Hei).
  destruct (Z.leb_spec ep.1 ei.1) as [Hle|Hgt].
  { exists s. split_and!; [done| |apply rearranged_refl]. split; [done|]. intros j Hj.
    destruct (decide (j = i)) as [->|]; [rewrite <- Ep; lia|by apply Ho]. }
  destruct (swap_ok s p i Hs) as (s1 & Hsw & Hs1 & Hra & Kp & Ki & Kj); [lia|lia|lia|].
  erewrite prog_bind_ok by exact Hsw. pose proof (ra_len _ _ Hra) as Hlen.
  destruct (IH p s1) as (s' & Hr & Hok & Hra'); [done|lia|lia| |].
  - split; intros j Hj; rewrite Hlen in Hj.
    + intros Hjp. destruct (decide (j = i)) as [->|Hji]; [rewrite <- Ep; lia|].
      rewrite (Kj j) by done. pose proof (Ho j Hj Hji) as Hoj.
      destruct (decide ((j - 1) / 2 = p)) as [Hq|Hq]; [rewrite Hq in *; lia|].
      destruct (decide ((j - 1) / 2 = i)) as [Hq'|Hq']; [rewrite Hq'; pose proof (Hc j Hj Hq'); lia|].
      by rewrite Kj.
    + intros Hjp H0p. pose proof (Ho p ltac:(lia) ltac:(lia)) as Hop.
      rewrite (Kj ((p - 1) / 2)) by dlia. destruct (decide (j = i)) as [->|Hji]; [lia|].
      pose proof (Ho j Hj Hji) as Hoj. rewrite Hjp in Hoj. rewrite Kj; [lia|dlia|done].
  - exists s'. split_and!; [done|done|by eapply rearranged_trans].
Qed.

(** ** Sifting down *)

(** Ordered except that entry [i] may be due after its children. *)
Record down_ordered (s : state) (i : Z) : Prop := {
  do_other : ∀ j, 0 < j < heap_len s → (j - 1) / 2 ≠ i → key s ((j - 1) / 2) <= key s j;
  do_child : ∀ j, 0 < j < heap_len s → (j - 1) / 2 = i → 0 < i → key s ((i - 1) / 2) <= key s j
}.

Lemma smallest_of_ok s i :
  shape s → 0 <= i < heap_len s →
  ∃ m, smallest_of i s = ok (m, s) ∧ 0 <= m < heap_len s ∧ key s m <= key s i ∧
    (m = i ∨ i < m ∧ (m - 1) / 2 = i ∧ key s m < key s i) ∧
    ∀ j, 0 < j < heap_len s → (j - 1) / 2 = i → key s m <= key s j.
Proof.
  intros Hs Hi. pose proof (sh_len _ Hs) as Hl. unfold smallest_of. erewrite prog_bind_ok by done.
  set (l := 2 * i + 1). set (r := 2 * i + 2).
  destruct (entry_at_ok s i) as (ei & Hei & Hi'); [lia|].
  assert (Hki : key s i = ei.1) by (unfold key; by rewrite Hei).
  assert (Hchild : ∀ j, 0 < j → (j - 1) / 2 = i → j = l ∨ j = r) by (intros j ? ?; unfold l, r; dlia).
  assert (Hpl : (l - 1) / 2 = i) by (unfold l; dlia). assert (Hpr : (r - 1) / 2 = i) by (unfold r; dlia).
  assert (H1 : ∃ m, (if l <? heap_len s then e ← entry_at l; e0 ← entry_at i; mret (if e.1 <? e0.1 then l else i)
                     else mret i) s = ok (m, s) ∧ 0 <= m < heap_len s ∧ key s m <= key s i ∧
                    (m = i ∨ i < m ∧ (m - 1) / 2 = i ∧ key s m < key s i) ∧
                    (l < heap_len s → key s m <= key s l)).
  { destruct (Z.ltb_spec l (heap_len s)) as [Hlt|Hge].
    - destruct (entry_at_ok s l) as (el & Hel & Hl'); [lia|].
      assert (Hkl : key s l = el.1) by (unfold key; by rewrite Hel).
      erewrite prog_bind_ok by exact Hl'. erewrite prog_bind_ok by exact Hi'.
      destruct (Z.ltb_spec el.1 ei.1).
      + exists l. split_and!; [done|lia|lia|lia|right; split_and!; lia|lia].
      + exists i. split_and!; [done|lia|lia|lia|by left|lia].
    - exists i. split_and!; [done|lia|lia|lia|by left|lia]. }
  destruct H1 as (m & Hm & Hmb & Hmi & Hmc & Hml). erewrite prog_bind_ok by exact Hm.
  destruct (Z.ltb_spec r (heap_len s)) as [Hlt|Hge].
  - destruct (entry_at_ok s r) as (er & Her & Hr'); [lia|]. destruct (entry_at_ok s m) as (em & Hem & Hm'); [lia|].
    assert (Hkr : key s r = er.1) by (unfold key; by rewrite Her).
    assert (Hkm : key s m = em.1) by (unfold key; by rewrite Hem).
    erewrite prog_bind_ok by exact Hr'. erewrite prog_bind_ok by exact Hm'.
    destruct (Z.ltb_spec er.1 em.1).
    + exists r. split_and!; [done|lia|lia|lia|right; split_and!; lia|].
      intros j Hj Hpj. destruct (Hchild j) as [->| ->]; [lia|done|lia|lia].
    + exists m. split_and!; [done|lia|lia|lia|done|].
      intros j Hj Hpj. destruct (Hchild j) as [->| ->]; [lia|done|lia|lia].
  - exists m. split_and!; [done|lia|lia|lia|done|].
    intros j Hj Hpj. destruct (Hchild j) as [->| ->]; [lia|done|lia|lia].
Qed.

Lemma sift_down_ok : ∀ fuel i s,
  shape s → 0 <= i < heap_len s → heap_len s - i < Z.of_nat fuel → down_ordered s i →
  ∃ s', sift_down fuel i s = ok (tt, s') ∧ heap_ok s' ∧ rearranged s s'.
Proof.
  induction fuel as [|fuel IH]; intros i s Hs Hi Hf [Ho Hc]; [lia|]. cbn [sift_down].
  destruct (smallest_of_ok s i Hs Hi) as (m & Hm & Hmb & Hmi & Hmc & Hmj).
  erewrite prog_bind_ok by exact Hm. destruct (Z.eqb_spec m i) as [->|Hne].
  { exists s. split_and!; [done| |apply rearranged_refl]. split; [done|]. intros j Hj.
    destruct (decide ((j - 1) / 2 = i)) as [Hq|Hq]; [rewrite Hq; by apply Hmj|by apply Ho]. }
  destruct Hmc as [?|(Him & Hpm & Hkm)]; [done|].
  destruct (swap_ok s i m Hs) as (s1 & Hsw & Hs1 & Hra & Ki & Km & Kj); [lia|lia|lia|].
  erewrite prog_bind_ok by exact Hsw. pose proof (ra_len _ _ Hra) as Hlen.
  destruct (IH m s1) as (s' & Hr & Hok & Hra'); [done|lia|lia| |].
  - split; intros j Hj; rewrite Hlen in Hj.
    + intros Hjm. destruct (decide (j = m)) as [->|Hj1]; [rewrite Hpm; lia|].
      destruct (decide ((j - 1) / 2 = i)) as [Hq|Hq].
      { rewrite Hq. rewrite (Kj j); [|intros ->; dlia|done]. pose proof (Hmj j Hj Hq). lia. }
      rewrite (Kj ((j - 1) / 2)) by done. destruct (decide (j = i)) as [->|Hj2].
      { pose proof (Hc m ltac:(lia) Hpm ltac:(lia)). lia. }
      rewrite Kj by done. by apply Ho.
    + intros Hjm H0m. rewrite Hpm, Ki. rewrite Kj; [|intros ->; dlia|intros ->; dlia].
      rewrite <- Hjm. apply Ho; [done|]. rewrite Hjm. lia.
  - exists s'. split_and!; [done|done|by eapply rearranged_trans].
Qed.

Lemma ordered_down s i : ordered s → 0 <= i < heap_len s → down_ordered s i.
Proof.
  intros Ho Hi. split; intros j Hj.
  - intros _. by apply Ho.
  - intros Hp H0. etrans; [apply Ho; lia|]. rewrite <- Hp. by apply Ho.
Qed.

(** Entry [i] was replaced: everything that does not involve it is in order. *)
Record hole_ordered (s : state) (i : Z) : Prop := {
  ho_other : ∀ j, 0 < j < heap_len s → j ≠ i → (j - 1) / 2 ≠ i → key s ((j - 1) / 2) <= key s j;
  ho_child : ∀ j, 0 < j < heap_len s → (j - 1) / 2 = i → 0 < i → key s ((i - 1) / 2) <= key s j
}.

(** [sift_up] or else [sift_down] repairs it. *)
Lemma repair_ok s i x d :
  shape s → 0 <= i < heap_len s → hole_ordered s i → zget (heap s) i = Some (d, x) →
  ∃ s', (timer_heap_sift_up i;; m ← get_ctx x; timer_heap_sift_down (heap_idx m)) s = ok (tt, s') ∧
    heap_ok s' ∧ rearranged s s'.
Proof.
  intros Hs Hi [Ho Hc] Hx. destruct (decide (0 < i ∧ key s i < key s ((i - 1) / 2))) as [[H0 Hlt]|Hup].
  - destruct (sift_up_ok (S (Z.to_nat i)) i s Hs Hi) as (s1 & Hr & [Hs1 Hord] & Hra); [lia| |].
    { split; intros j Hj.
      - intros Hji. destruct (decide ((j - 1) / 2 = i)) as [Hp|Hp]; [|by apply Ho].
        rewrite Hp. pose proof (Hc j Hj Hp H0). lia.
      - intros Hp _. by apply Hc. }
    unfold timer_heap_sift_up. erewrite prog_bind_ok by exact Hr.
    destruct (sh_back _ Hs i d x Hi Hx) as (c & Hcx & Hic).
    pose proof (ra_ctxs _ _ Hra x) as Hcx1. rewrite Hcx in Hcx1. destruct Hcx1 as (k & Hk).
    erewrite prog_bind_ok by (by apply get_ctx_ok). unfold timer_heap_sift_down. simpl.
    (* The moved entry is still in the heap. *)
    assert (Hkb : 0 <= k < heap_len s1).
    { refine (proj1 (pending_at s1 d x _ Hs1 _ Hk)).
      rewrite (ra_perm _ _ Hra). apply list_elem_of_lookup. exists (Z.to_nat i).
      rewrite pending_lookup by done. by apply zget_Some. }
    destruct (sift_down_ok (S (Z.to_nat (heap_len s1))) k s1 Hs1) as (s2 & Hr2 & Hok2 & Hra2);
      [done|lia|by apply ordered_down|].
    exists s2. split_and!; [done|done|by eapply rearranged_trans].
  - assert (Hup0 : sift_up (S (Z.to_nat i)) i s = ok (tt, s)).
    { cbn [sift_up]. destruct (Z.eqb_spec i 0) as [|Hi0]; [done|]. pose proof (sh_len _ Hs).
      assert (0 <= (i - 1) / 2 < i) by dlia.
      destruct (entry_at_ok s ((i - 1) / 2)) as (ep & Hep & Hp'); [lia|]. destruct (entry_at_ok s i) as (ei & Hei & Hi'); [lia|].
      erewrite prog_bind_ok by exact Hp'. erewrite prog_bind_ok by exact Hi'. unfold key in Hup.
      rewrite Hep, Hei in Hup. destruct (Z.leb_spec ep.1 ei.1); [done|]. destruct Hup. split; lia. }
    unfold timer_heap_sift_up. erewrite prog_bind_ok by exact Hup0.
    destruct (sh_back _ Hs i d x Hi Hx) as (c & Hcx & Hic).
    erewrite prog_bind_ok by (by apply get_ctx_ok). rewrite Hic. unfold timer_heap_sift_down.
    destruct (sift_down_ok (S (Z.to_nat (heap_len s))) i s Hs Hi) as (s2 & Hr2 & Hok2 & Hra2); [lia| |].
    { split; intros j Hj.
      - intros Hp. destruct (decide (j = i)) as [->|]; [lia|by apply Ho].
      - intros Hp H0. by apply Hc. }
    by exists s2.
Qed.

(** ** Arming the timer *)

Definition delay (s : state) (now : Z) : option Z :=
  if heap_len s =? 0 then None
  else Some (if now <? key s 0 then ((key s 0 - now) +% 999999) / 1000000 else 0).

Lemma rearm_ok s now : shape s → timer_mgr_rearm now s = ok (tt, set_armed (delay s now) s).
Proof.
  intros Hs. pose proof (sh_len _ Hs). unfold timer_mgr_rearm, delay. erewrite prog_bind_ok by done.
  rewrite (sh_mgr _ Hs). cbn [negb].
  destruct (Z.eqb_spec (heap_len s) 0); [done|].
  destruct (entry_at_ok s 0) as (e & He & H0); [lia|]. erewrite prog_bind_ok by exact H0.
  unfold key. by rewrite He.
Qed.

Lemma set_armed_ok a s : heap_ok s → heap_ok (set_armed a s).
Proof. intros [[H1 H2 H3 H4 H5] Ho]. by split. Qed.

(** ** Insertion *)

(** The timer is armed exactly while something is pending. *)
Definition armed_ok (s : state) : Prop := is_Some (armed s) ↔ 0 < heap_len s.

Lemma grow_heap_ok s : heap_ok s → heap_len s < 2 ^ 58 →
  ∃ s', grow_heap s = ok (tt, s') ∧ heap_ok s' ∧ heap_len s < Z.of_nat (length (heap s')) ∧
    (∃ ext, s' = set_heap (heap s ++ ext) s).
Proof.
  intros [[Hl Hcap Hb Ho Hm] Hord] Hbound. unfold grow_heap. erewrite prog_bind_ok by done.
  destruct (Z.eqb_spec (heap_len s) (Z.of_nat (length (heap s)))) as [He|Hne].
  2: { exists s. split_and!; [done|by split; [split|]|lia|]. exists []. rewrite app_nil_r. by destruct s. }
  set (cap := Z.of_nat (length (heap s))) in *.
  set (new_cap := if cap =? 0 then TIMER_HEAP_INIT_CAP else cap * 2).
  assert (Hnew : cap < new_cap < 2 ^ 60).
  { unfold new_cap, TIMER_HEAP_INIT_CAP. destruct (Z.eqb_spec cap 0); lia. }
  set (ext := replicate (Z.to_nat (new_cap - cap)) (0, 1%positive)).
  assert (Hext : @length timer_heap_entry ext = Z.to_nat (new_cap - cap)) by apply length_replicate.
  assert (Hz : ∀ j, j < cap → zget (heap s ++ ext) j = zget (heap s) j).
  { clearbody ext. intros j Hj. unfold zget, in_range. rewrite length_app, Hext.
    destruct (Z.leb_spec 0 j); [|done]. simpl.
    destruct (Z.ltb_spec j (Z.of_nat (length (heap s) + Z.to_nat (new_cap - cap)))); [|lia].
    destruct (Z.ltb_spec j (Z.of_nat (length (heap s)))); [|unfold cap in Hj; lia].
    apply lookup_app_l. lia. }
  exists (set_heap (heap s ++ ext) s). split; [done|]. clearbody ext.
  split_and!; [|simpl; rewrite length_app, Hext; lia|eauto].
  split; [split|]; simpl.
  - rewrite length_app, Hext. lia.
  - rewrite length_app, Hext. unfold cap in *. lia.
  - intros i d x Hi. rewrite Hz by lia. by apply Hb.
  - intros x c Hc. destruct (Ho x c Hc) as [|[Hi (d & Hd)]]; [by left|right]. split; [done|]. exists d.
    by rewrite Hz by lia.
  - done.
  - intros j Hj. unfold key. simpl in *. rewrite !Hz by dlia. by apply Hord.
Qed.

Lemma insert_ok s now x c d :
  heap_ok s → armed_ok s → heap_len s < 2 ^ 58 → ctxs s !! x = Some c → heap_idx c = SIZE_MAX →
  ∃ s', goc_timer_manager_insert now x d s = ok (tt, s') ∧ heap_ok s' ∧ armed_ok s' ∧
    pending s' ≡ₚ (d, x) :: pending s ∧ heap_len s' = heap_len s + 1 ∧ same_ctxs (ctxs s) (ctxs s') ∧
    closes s' = closes s ∧ posts s' = posts s ∧ allocations s' = allocations s ∧
    expirations s' = expirations s ∧ next_ctx s' = next_ctx s.
Proof.
  intros Hok Harm Hbound Hc Hidx. unfold goc_timer_manager_insert.
  destruct (grow_heap_ok s Hok Hbound) as (s0 & Hg & [Hs0 Hord0] & Hroom & ext & Hs0eq).
  erewrite prog_bind_ok by exact Hg. erewrite prog_bind_ok by done.
  assert (Hlen0 : heap_len s0 = heap_len s) by (by rewrite Hs0eq).
  assert (Hctx0 : ctxs s0 = ctxs s) by (by rewrite Hs0eq).
  assert (Hpend0 : pending s0 = pending s).
  { rewrite Hs0eq. unfold pending. simpl. apply take_app_le. pose proof (sh_len _ (hk_shape _ Hok)). lia. }
  rewrite Hlen0. set (i := heap_len s) in *. pose proof (sh_len _ Hs0) as Hl0.
  erewrite prog_bind_ok by done.
  erewrite prog_bind_ok by (apply store_at_ok; simpl; lia).
  erewrite prog_bind_ok by (apply (upd_ctx_ok _ x c); simpl; by rewrite Hctx0).
  set (s1 := set_ctxs (<[x := set_idx i c]>) (set_heap (<[Z.to_nat i := (d, x)]> (heap s0)) (set_len (i + 1) s0))).
  change (set_ctxs _ _) with s1.
  assert (Hz : ∀ j, zget (heap s1) j = if decide (j = i) then Some (d, x) else zget (heap s0) j).
  { intros j. simpl. apply zget_insert. lia. }
  assert (Hs1 : shape s1).
  { split; [simpl; rewrite length_insert; lia|simpl; rewrite length_insert; apply (sh_cap _ Hs0)|..|exact (sh_mgr _ Hs0)].
    - intros j d' x' Hj. rewrite Hz. simpl in Hj. case_decide as Hji.
      + intros [= <- <-]. simpl. rewrite lookup_insert_eq. subst. eauto.
      + intros Hx'. destruct (sh_back _ Hs0 j d' x') as (c' & Hc' & Hi'); [lia|done|].
        assert (x' ≠ x). { intros ->. assert (c' = c) as -> by congruence. pose proof (sh_cap _ Hs0). unfold SIZE_MAX in *. lia. }
        simpl. rewrite lookup_insert_ne by done. eauto.
    - intros y c'. simpl. rewrite lookup_insert. case_decide as Hy.
      + intros [= <-]. right. simpl. split; [lia|]. exists d. subst y. rewrite zget_insert by lia. by rewrite decide_True.
      + intros Hc'. destruct (sh_out _ Hs0 y c' Hc') as [|[Hi (d' & Hd')]]; [by left|right]. split; [lia|]. exists d'.
        rewrite zget_insert by lia. rewrite decide_False; [done|lia]. }
  assert (Hkey : ∀ j, j ≠ i → key s1 j = key s0 j).
  { intros j Hj. unfold key. by rewrite Hz, decide_False. }
  destruct (sift_up_ok (S (Z.to_nat i)) i s1 Hs1) as (s2 & Hr & Hok2 & Hra); [simpl; lia|lia| |].
  { split; intros j Hj; simpl in Hj.
    - intros Hji. rewrite !Hkey by dlia. apply Hord0. lia.
    - intros Hp. dlia. }
  unfold timer_heap_sift_up. erewrite prog_bind_ok by exact Hr.
  pose proof (ra_ctxs _ _ Hra x) as Hx2. simpl in Hx2. rewrite lookup_insert_eq in Hx2.
  destruct Hx2 as (k & Hk). erewrite prog_bind_ok by (by apply get_ctx_ok). simpl.
  destruct Hra as [Rl Rc Rp Rx Ra Rcl Rpo Ral Re Rn].
  assert (Hfin : ∀ a, is_Some a → (heap_ok (set_armed a s2) ∧ armed_ok (set_armed a s2) ∧
    pending (set_armed a s2) ≡ₚ (d, x) :: pending s ∧ heap_len (set_armed a s2) = i + 1 ∧
    same_ctxs (ctxs s) (ctxs (set_armed a s2)) ∧
    closes (set_armed a s2) = closes s ∧ posts (set_armed a s2) = posts s ∧
    allocations (set_armed a s2) = allocations s ∧
    expirations (set_armed a s2) = expirations s ∧ next_ctx (set_armed a s2) = next_ctx s)).
  { intros a Ha. split_and!; try (simpl; rewrite ?Rl, ?Rcl, ?Rpo, ?Ral, ?Re, ?Rn; simpl; by rewrite Hs0eq).
    - by apply set_armed_ok.
    - unfold armed_ok. simpl. rewrite Rl. simpl. split; [|done]. intros _. lia.
    - etrans; [exact Rp|]. rewrite <- Hpend0. unfold pending. simpl.
      replace (Z.to_nat (i + 1)) with (S (Z.to_nat i)) by lia.
      rewrite (take_S_r _ _ (d, x)) by (apply list_lookup_insert_eq; lia).
      rewrite take_insert_ge by lia. rewrite Hlen0. symmetry. apply Permutation_cons_append.
    - simpl. by rewrite Rl.
    - simpl. eapply same_ctxs_trans; [|exact Rx]. simpl. rewrite Hctx0. by apply same_ctxs_insert. }
  destruct (Z.eqb_spec k 0) as [->|Hk0].
  - rewrite rearm_ok by apply Hok2. eexists. split; [done|]. apply Hfin. unfold delay. rewrite Rl. simpl.
    destruct (Z.eqb_spec (i + 1) 0); [lia|eauto].
  - exists s2. split; [done|]. replace s2 with (set_armed (armed s2) s2) by (by destruct s2). apply Hfin.
    rewrite Ra. simpl. assert (Ha0 : armed s0 = armed s) by (by rewrite Hs0eq). rewrite Ha0. apply Harm.
    destruct (decide (0 < i)) as [|Hi0]; [done|]. exfalso. apply Hk0.
    assert (Hin : (d, x) ∈ pending s2).
    { rewrite Rp. unfold pending. simpl. replace (Z.to_nat (i + 1)) with 1%nat by lia.
      apply list_elem_of_lookup. exists 0%nat. rewrite lookup_take_lt by lia.
      replace (Z.to_nat i) with 0%nat by lia. apply list_lookup_insert_eq. lia. }
    destruct (pending_at s2 d x _ (hk_shape _ Hok2) Hin Hk) as [Hb _]. simpl in Hb.
    rewrite Rl in Hb. simpl in Hb. lia.
Qed.

(** ** Removal *)

Lemma replace_perm {A} (l : list A) i a b : l !! i = Some a → a :: <[i := b]> l ≡ₚ b :: l.
Proof.
  intros Hi. pose proof (lookup_lt_Some _ _ _ Hi). rewrite insert_take_drop by done.
  rewrite <- (take_drop_middle l i a Hi) at 3. rewrite <- !Permutation_middle. apply Permutation_swap.
Qed.

(** The context leaves the heap, whose length drops by one. *)
Definition vacated (x : positive) (c : timer_ctx) (s : state) : state :=
  set_len (heap_len s - 1) (set_ctxs (<[x := set_idx SIZE_MAX c]>) s).

(** The last entry moves into the hole. *)
Definition refilled (i : Z) (x : positive) (c : timer_ctx) (e : timer_heap_entry) (ce : timer_ctx)
    (s : state) : state :=
  set_ctxs (<[e.2 := set_idx i ce]>) (set_heap (<[Z.to_nat i := e]> (heap s)) (vacated x c s)).

Lemma vacated_ok s x c d :
  heap_ok s → ctxs s !! x = Some c → heap_idx c = heap_len s - 1 →
  zget (heap s) (heap_idx c) = Some (d, x) →
  heap_ok (vacated x c s) ∧ pending s ≡ₚ (d, x) :: pending (vacated x c s).
Proof.
  intros [Hs Hord] Hc Hi Hx. pose proof (sh_len _ Hs) as Hl. rewrite Hi in Hx.
  assert (Hl0 : 0 < heap_len s) by (apply zget_Some in Hx; lia). split.
  - split; [split|]; simpl; [lia|apply (sh_cap _ Hs)|..|exact (sh_mgr _ Hs)|].
    + intros j d' x' Hj Hx'. destruct (sh_back _ Hs j d' x') as (c' & Hc' & Hj'); [lia|done|].
      assert (x' ≠ x) by (intros ->; assert (c' = c) as -> by congruence; lia).
      rewrite lookup_insert_ne by done. eauto.
    + intros y c'. rewrite lookup_insert. case_decide; [intros [= <-]; by left|]. intros Hc'.
      destruct (sh_out _ Hs y c' Hc') as [|[Hj (d' & Hd')]]; [by left|right]. split; [|eauto].
      assert (heap_idx c' ≠ heap_len s - 1) by (intros Heq; rewrite Heq in Hd'; congruence). lia.
    + intros j Hj. simpl in *. apply Hord. lia.
  - unfold pending. simpl. replace (Z.to_nat (heap_len s)) with (S (Z.to_nat (heap_len s - 1))) by lia.
    apply zget_Some in Hx as [_ Hx]. rewrite (take_S_r _ _ _ Hx). symmetry. apply Permutation_cons_append.
Qed.

Lemma refilled_ok s x c d i e :
  heap_ok s → ctxs s !! x = Some c → heap_idx c = i → 0 <= i < heap_len s - 1 →
  zget (heap s) i = Some (d, x) → zget (heap s) (heap_len s - 1) = Some e →
  ∃ ce, ctxs s !! e.2 = Some ce ∧ e.2 ≠ x ∧ shape (refilled i x c e ce s) ∧
    hole_ordered (refilled i x c e ce s) i ∧ zget (heap (refilled i x c e ce s)) i = Some e ∧
    pending s ≡ₚ (d, x) :: pending (refilled i x c e ce s).
Proof.
  intros [Hs Hord] Hc Hi Hib Hx He. pose proof (sh_len _ Hs) as Hl. destruct e as [de xe]. simpl.
  destruct (sh_back _ Hs (heap_len s - 1) de xe) as (ce & Hce & Hie); [lia|done|].
  assert (Hne : xe ≠ x) by (intros ->; assert (ce = c) as -> by congruence; lia).
  assert (Hz : ∀ j, zget (<[Z.to_nat i := (de, xe)]> (heap s)) j =
                    if decide (j = i) then Some (de, xe) else zget (heap s) j) by (intros; apply zget_insert; lia).
  assert (Hkey : ∀ j, j ≠ i → key (refilled i x c (de, xe) ce s) j = key s j).
  { intros j Hj. unfold key. simpl. by rewrite Hz, decide_False. }
  exists ce. split_and!; [done|done| | | |].
  - split; simpl; [rewrite length_insert; lia|rewrite length_insert; apply (sh_cap _ Hs)|..|exact (sh_mgr _ Hs)].
    + intros j d' x' Hj. rewrite Hz. case_decide as Hji.
      * intros [= <- <-]. rewrite lookup_insert_eq. subst. eauto.
      * intros Hx'. destruct (sh_back _ Hs j d' x') as (c' & Hc' & Hj'); [lia|done|].
        rewrite !lookup_insert_ne; [eauto|..].
        -- intros ->. assert (c' = c) as -> by congruence. lia.
        -- intros ->. assert (c' = ce) as -> by congruence. lia.
    + intros y c'. rewrite lookup_insert. case_decide as Hy.
      { intros [= <-]. right. simpl. split; [lia|]. exists de. subst y. by rewrite Hz, decide_True. }
      rewrite lookup_insert. case_decide as Hy'; [intros [= <-]; by left|]. intros Hc'.
      destruct (sh_out _ Hs y c' Hc') as [|[Hj (d' & Hd')]]; [by left|right].
      assert (heap_idx c' ≠ heap_len s - 1) by (intros Heq; rewrite Heq in Hd'; congruence).
      split; [lia|]. exists d'. rewrite Hz, decide_False; [done|congruence].
  - split; simpl; intros j Hj.
    + intros Hji Hpi. rewrite !Hkey by done. apply Hord. lia.
    + intros Hpj H0. rewrite (Hkey ((i - 1) / 2)) by dlia. rewrite (Hkey j) by dlia.
      etrans; [apply Hord; lia|]. rewrite <- Hpj. apply Hord. lia.
  - simpl. by rewrite Hz, decide_True.
  - unfold pending. simpl. rewrite take_insert_lt by lia.
    apply zget_Some in He as [_ He], Hx as [_ Hx].
    replace (Z.to_nat (heap_len s)) with (S (Z.to_nat (heap_len s - 1))) by lia.
    rewrite (take_S_r _ _ _ He). symmetry. rewrite replace_perm; [apply Permutation_cons_append|].
    rewrite lookup_take_lt by lia. done.
Qed.

Definition unchanged_rest (s s' : state) : Prop :=
  closes s' = closes s ∧ posts s' = posts s ∧ allocations s' = allocations s ∧
  expirations s' = expirations s ∧ next_ctx s' = next_ctx s.

(** Contexts other than [x] differ in their position only, and [x] is out. *)
Definition taken_out (x : positive) (s s' : state) : Prop :=
  same_ctxs (ctxs s) (ctxs s') ∧ ∃ c, ctxs s' !! x = Some c ∧ heap_idx c = SIZE_MAX.

Lemma delay_armed s now : 0 <= heap_len s → armed_ok (set_armed (delay s now) s).
Proof.
  intros Hl. unfold armed_ok, delay. simpl. destruct (Z.eqb_spec (heap_len s) 0); split; try lia; eauto.
  by intros [? ?].
Qed.

(** An entry with no place in the heap keeps its mark while others move. *)
Lemma out_stays s s' x c :
  shape s' → rearranged s s' → shape s → ctxs s !! x = Some c → heap_idx c = SIZE_MAX →
  ∃ c', ctxs s' !! x = Some c' ∧ heap_idx c' = SIZE_MAX.
Proof.
  intros Hs' Hra Hs Hc Hi. pose proof (ra_ctxs _ _ Hra x) as Hx. rewrite Hc in Hx. destruct Hx as (k & Hk).
  exists (set_idx k c). split; [done|]. destruct (sh_out _ Hs' x _ Hk) as [|[Hkb (d & Hd)]]; [done|].
  exfalso. assert (Hin : (d, x) ∈ pending s).
  { rewrite <- (ra_perm _ _ Hra). apply list_elem_of_lookup. exists (Z.to_nat (heap_idx (set_idx k c))).
    rewrite pending_lookup by done. by apply zget_Some. }
  destruct (pending_at s d x c Hs Hin Hc) as [Hb _]. pose proof (sh_len _ Hs). pose proof (sh_cap _ Hs).
  unfold SIZE_MAX in *. lia.
Qed.

Lemma same_ctxs_refilled i x c e ce s :
  ctxs s !! x = Some c → ctxs s !! e.2 = Some ce → e.2 ≠ x → same_ctxs (ctxs s) (ctxs (refilled i x c e ce s)).
Proof.
  intros Hc Hce Hne. simpl. eapply same_ctxs_trans; [by apply (same_ctxs_insert _ x c SIZE_MAX)|].
  apply same_ctxs_insert. by rewrite lookup_insert_ne.
Qed.

Lemma remove_ok s now x c :
  heap_ok s → ctxs s !! x = Some c → heap_idx c ≠ SIZE_MAX →
  ∃ s' d, goc_timer_manager_remove now x s = ok (tt, s') ∧ heap_ok s' ∧ armed_ok s' ∧
    pending s ≡ₚ (d, x) :: pending s' ∧ heap_len s' = heap_len s - 1 ∧
    taken_out x s s' ∧ unchanged_rest s s'.
Proof.
  intros Hok Hc Hne. pose proof (hk_shape _ Hok) as Hs. pose proof (sh_len _ Hs) as Hl.
  destruct (sh_out _ Hs x c Hc) as [|[Hi (d & Hd)]]; [done|].
  unfold goc_timer_manager_remove. erewrite prog_bind_ok by (by apply get_ctx_ok).
  erewrite prog_bind_ok by done.
  destruct (Z.eqb_spec (heap_idx c) SIZE_MAX); [done|]. destruct (Z.leb_spec (heap_len s) (heap_idx c)); [lia|].
  change (false || false) with false. cbv iota. erewrite prog_bind_ok by (by apply upd_ctx_ok). erewrite prog_bind_ok by done.
  change (set_len (heap_len s - 1) _) with (vacated x c s).
  destruct (Z.eqb_spec (heap_idx c) (heap_len s - 1)) as [Hlast|Hmid].
  - destruct (vacated_ok s x c d Hok Hc Hlast Hd) as [Hok' Hp]. rewrite rearm_ok by apply Hok'.
    eexists _, d. split_and!; [done|by apply set_armed_ok|apply delay_armed; simpl; lia|done|done| |done].
    split; simpl; [by apply same_ctxs_insert|]. rewrite lookup_insert_eq. eauto.
  - destruct (entry_at_ok s (heap_len s - 1)) as (e & He & He'); [lia|].
    assert (He2 : entry_at (heap_len s - 1) (vacated x c s) = ok (e, vacated x c s))
      by (unfold entry_at; simpl; by rewrite He).
    erewrite prog_bind_ok by exact He2.
    destruct (refilled_ok s x c d (heap_idx c) e Hok Hc eq_refl) as (ce & Hce & Hex & Hs1 & Hh & Hz & Hp);
      [lia|done|done|].
    erewrite prog_bind_ok by (apply store_at_ok; simpl; lia).
    erewrite prog_bind_ok by (apply (upd_ctx_ok _ e.2 ce); simpl; by rewrite lookup_insert_ne).
    change (set_ctxs _ (set_heap _ _)) with (refilled (heap_idx c) x c e ce s).
    set (s1 := refilled (heap_idx c) x c e ce s) in *.
    destruct e as [de xe]. destruct (repair_ok s1 (heap_idx c) xe de Hs1) as (s2 & Hr & Hok2 & Hra);
      [simpl; lia|done|done|].
    assert (Hseq : ∀ A (k : prog state A), (timer_heap_sift_up (heap_idx c);; m ← get_ctx xe;
              timer_heap_sift_down (heap_idx m);; k) s1 = k s2).
    { intros A k. revert Hr. unfold mbind, prog_bind.
      destruct (timer_heap_sift_up (heap_idx c) s1) as [[[] s3]|?| |]; try done.
      destruct (get_ctx xe s3) as [[m s4]|?| |]; try done.
      destruct (timer_heap_sift_down (heap_idx m) s4) as [[[] s5]|?| |]; try done. by intros [= ->]. }
    simpl snd. rewrite Hseq, rearm_ok by apply Hok2.
    pose proof Hra as [Rl Rc Rp Rx Ra Rcl Rpo Ral Re Rn].
    eexists _, d. split; [done|]. split_and!.
    + by apply set_armed_ok.
    + apply delay_armed. rewrite Rl. simpl. lia.
    + rewrite Hp. constructor. symmetry. exact Rp.
    + simpl. by rewrite Rl.
    + split; simpl.
      * eapply same_ctxs_trans; [|exact Rx]. by apply same_ctxs_refilled.
      * apply (out_stays s1 s2 x (set_idx SIZE_MAX c)); [apply Hok2|done|done| |done].
        simpl. rewrite lookup_insert_ne by done. apply lookup_insert_eq.
    + unfold unchanged_rest. simpl. rewrite Rcl, Rpo, Ral, Re, Rn. done.
Qed.

(** The root is due first. *)
Lemma root_first s : heap_ok s → ∀ j, 0 <= j < heap_len s → key s 0 <= key s j.
Proof.
  intros [Hs Hord] j Hj. assert (H : ∀ n : nat, ∀ j, 0 <= j < heap_len s → j < Z.of_nat n → key s 0 <= key s j).
  { induction n as [|n IH]; intros k Hk Hn; [lia|]. destruct (decide (k = 0)) as [->|]; [lia|].
    etrans; [apply (IH ((k - 1) / 2)); dlia|]. apply Hord. lia. }
  apply (H (S (Z.to_nat j))); lia.
Qed.

Lemma root_first_pending s d x e d0 x0 :
  heap_ok s → zget (heap s) 0 = Some (d0, x0) → e ∈ pending s → e = (d, x) → d0 <= d.
Proof.
  intros Hok H0 Hin ->. apply list_elem_of_lookup in Hin as (n & Hn). unfold pending in Hn.
  apply lookup_take_Some in Hn as [Hn Hnl].
  pose proof (root_first s Hok (Z.of_nat n) ltac:(lia)) as Hle. unfold key in Hle. rewrite H0 in Hle.
  assert (zget (heap s) (Z.of_nat n) = Some (d, x)) as Hz by (apply zget_Some; split; [lia|by rewrite Nat2Z.id]).
  by rewrite Hz in Hle.
Qed.

Lemma pop_root_ok s d x :
  heap_ok s → 0 < heap_len s → zget (heap s) 0 = Some (d, x) →
  ∃ s', pop_root s = ok (x, s') ∧ heap_ok s' ∧ pending s ≡ₚ (d, x) :: pending s' ∧
    heap_len s' = heap_len s - 1 ∧ taken_out x s s' ∧ unchanged_rest s s' ∧ armed s' = armed s.
Proof.
  intros Hok Hl0 H0. pose proof (hk_shape _ Hok) as Hs. pose proof (sh_len _ Hs) as Hl.
  destruct (sh_back _ Hs 0 d x ltac:(lia) H0) as (c & Hc & Hi).
  unfold pop_root. erewrite prog_bind_ok by done.
  assert (He0 : entry_at 0 s = ok ((d, x), s)) by (unfold entry_at; by rewrite H0).
  erewrite prog_bind_ok by exact He0. simpl snd.
  erewrite prog_bind_ok by (by apply upd_ctx_ok). erewrite prog_bind_ok by done.
  change (set_len (heap_len s - 1) _) with (vacated x c s).
  destruct (Z.ltb_spec 0 (heap_len s - 1)) as [Hgt|Hle].
  - destruct (entry_at_ok s (heap_len s - 1)) as (e & He & He'); [lia|].
    assert (He2 : entry_at (heap_len s - 1) (vacated x c s) = ok (e, vacated x c s))
      by (unfold entry_at; simpl; by rewrite He).
    destruct (refilled_ok s x c d 0 e Hok Hc Hi) as (ce & Hce & Hex & Hs1 & Hh & Hz & Hp); [lia|done|done|].
    set (s1 := refilled 0 x c e ce s) in *.
    destruct (sift_down_ok (S (Z.to_nat (heap_len s1))) 0 s1 Hs1) as (s2 & Hr & Hok2 & Hra); [simpl; lia|lia| |].
    { split; intros j Hj; [|lia]. intros Hpj. apply Hh; [done|lia|done]. }
    pose proof Hra as [Rl Rc Rp Rx Ra Rcl Rpo Ral Re Rn].
    exists s2. split_and!.
    + erewrite (prog_bind_ok (entry_at (heap_len s - 1) ≫= _)); [done|].
      erewrite prog_bind_ok by exact He2.
      erewrite prog_bind_ok by (apply store_at_ok; simpl; lia).
      erewrite prog_bind_ok by (apply (upd_ctx_ok _ e.2 ce); simpl; by rewrite lookup_insert_ne).
      exact Hr.
    + done.
    + rewrite Hp. constructor. symmetry. exact Rp.
    + by rewrite Rl.
    + split.
      * eapply same_ctxs_trans; [|exact Rx]. by apply same_ctxs_refilled.
      * apply (out_stays s1 s2 x (set_idx SIZE_MAX c)); [apply Hok2|done|done| |done].
        simpl. rewrite lookup_insert_ne by done. apply lookup_insert_eq.
    + unfold unchanged_rest. by rewrite Rcl, Rpo, Ral, Re, Rn.
    + by rewrite Ra.
  - rewrite <- Hi in H0. destruct (vacated_ok s x c d Hok Hc ltac:(lia) H0) as [Hok' Hp].
    exists (vacated x c s). split_and!; try done. split; simpl; [by apply same_ctxs_insert|].
    rewrite lookup_insert_eq. eauto.
Qed.

(** ** Firing *)

Definition chan_of (s : state) (x : positive) : positive := from_option cch 1%positive (ctxs s !! x).

(** A context whose channel the manager closed. *)
Definition closed_ctx (c : timer_ctx) : timer_ctx := if ch_open c then set_cancel (set_shut c) else c.
Definition expired (c : timer_ctx) : timer_ctx := closed_ctx (set_state 2 c).

(** The cancellations that closing the channels of [xs] posts. *)
Definition ch_is_open (m : gmap positive timer_ctx) (x : positive) : bool := from_option ch_open false (m !! x).
Definition own_cancels (m : gmap positive timer_ctx) (xs : list positive) : list posted_fn :=
  PCancel <$> filter (λ x, ch_is_open m x = true) xs.

Lemma goc_close_ok s x c :
  ctxs s !! x = Some c →
  ∃ s', goc_close x s = ok (tt, s') ∧ ctxs s' = <[x := closed_ctx c]> (ctxs s) ∧
    closes s' = closes s ++ [cch c] ∧ posts s' = posts s ++ own_cancels (ctxs s) [x] ∧
    heap s' = heap s ∧ heap_len s' = heap_len s ∧ mgr s' = mgr s ∧ armed s' = armed s ∧
    allocations s' = allocations s ∧ expirations s' = expirations s ∧ next_ctx s' = next_ctx s.
Proof.
  intros Hc. unfold goc_close. erewrite prog_bind_ok by (by apply get_ctx_ok). erewrite prog_bind_ok by done.
  unfold own_cancels, ch_is_open, closed_ctx. rewrite filter_cons. rewrite Hc. simpl.
  destruct (ch_open c) eqn:E.
  - erewrite prog_bind_ok by (by apply (upd_ctx_ok _ x c)). unfold on_timeout_channel_closed.
    erewrite prog_bind_ok by (apply (upd_ctx_ok _ x (set_shut c)); apply lookup_insert_eq).
    eexists. split; [done|]. simpl. rewrite insert_insert_eq. done.
  - eexists. split; [done|]. simpl. rewrite insert_id by done. rewrite app_nil_r. done.
Qed.

(** The contexts of [xs] are finished, the others differ in their position only. *)
Definition finished (xs : list positive) (m m' : gmap positive timer_ctx) : Prop :=
  ∀ x, match m !! x with
       | Some c => ∃ i, m' !! x = Some (set_idx i (if decide (x ∈ xs) then expired c else c))
       | None => m' !! x = None
       end.

Lemma finished_nil m m' : same_ctxs m m' → finished [] m m'.
Proof. intros H x. specialize (H x). destruct (m !! x); [|done]. rewrite decide_False by apply not_elem_of_nil. done. Qed.

Lemma expired_set_idx i c : expired (set_idx i c) = set_idx i (expired c).
Proof. unfold expired, closed_ctx. destruct c as [? [] ? ? ?]; done. Qed.

Lemma expired_twice c : expired (expired c) = expired c.
Proof. unfold expired, closed_ctx. destruct c as [? [] ? ? ?]; done. Qed.

Lemma expired_cch c : cch (expired c) = cch c.
Proof. unfold expired, closed_ctx. destruct c as [? [] ? ? ?]; done. Qed.

Lemma expired_idx c : heap_idx (expired c) = heap_idx c.
Proof. unfold expired, closed_ctx. destruct c as [? [] ? ? ?]; done. Qed.

Lemma expired_state c : start_state (expired c) = 2.
Proof. unfold expired, closed_ctx. destruct c as [? [] ? ? ?]; done. Qed.

Lemma finished_chan xs s s' x : finished xs (ctxs s) (ctxs s') → chan_of s' x = chan_of s x.
Proof.
  intros H. specialize (H x). unfold chan_of. destruct (ctxs s !! x) as [c|]; [|by rewrite H].
  destruct H as (i & ->). simpl. case_decide; [apply expired_cch|done].
Qed.

Lemma finished_trans xs ys m1 m2 m3 : finished xs m1 m2 → finished ys m2 m3 → finished (xs ++ ys) m1 m3.
Proof.
  intros H12 H23 x. specialize (H12 x). specialize (H23 x). destruct (m1 !! x) as [c|].
  - destruct H12 as (i & Hi). rewrite Hi in H23. destruct H23 as (k & Hk). exists k. rewrite Hk. f_equal.
    destruct (decide (x ∈ xs)) as [Hx|Hx]; destruct (decide (x ∈ ys)) as [Hy|Hy];
      rewrite ?expired_set_idx, ?expired_twice; destruct (decide (x ∈ xs ++ ys)) as [Hxy|Hxy]; try done;
      exfalso; revert Hxy; rewrite elem_of_app; tauto.
  - by rewrite H12 in H23.
Qed.

Lemma finished_open xs m m' x : finished xs m m' → x ∉ xs → ch_is_open m' x = ch_is_open m x.
Proof.
  intros H Hx. specialize (H x). unfold ch_is_open. destruct (m !! x) as [c|]; [|by rewrite H].
  destruct H as (i & ->). by rewrite decide_False.
Qed.

Lemma set_ctx_ok s x c f :
  heap_ok s → ctxs s !! x = Some c → heap_idx (f c) = heap_idx c → heap_ok (set_ctxs (<[x := f c]>) s).
Proof.
  intros [[Hl Hcap Hb Ho Hm] Hord] Hc Hf. split; [split|]; simpl; try done.
  - intros i d y Hi Hy. destruct (Hb i d y Hi Hy) as (c' & Hc' & Hi'). rewrite lookup_insert. case_decide; [|eauto].
    subst y. exists (f c). split; [done|]. congruence.
  - intros y c'. rewrite lookup_insert. case_decide; [|apply Ho]. intros [= <-]. subst y. rewrite Hf. by apply Ho.
Qed.

Lemma rest_ok s s' :
  heap_ok s → heap s' = heap s → heap_len s' = heap_len s → ctxs s' = ctxs s → mgr s' = mgr s → heap_ok s'.
Proof.
  intros [[Hl Hcap Hb Ho Hm] Hord] Hh Hn Hx Hm'. split; [split|]; rewrite ?Hh, ?Hn, ?Hx, ?Hm'; try done.
  intros j. unfold key. rewrite Hh, Hn. apply Hord.
Qed.

(** Each context is pending once. *)
Lemma pending_NoDup s : shape s → NoDup (pending s).*2.
Proof.
  intros Hs. apply NoDup_alt. intros i j x Hi Hj. rewrite list_lookup_fmap in Hi, Hj.
  unfold pending in Hi, Hj. destruct (take _ _ !! i) as [[d y]|] eqn:Ei; [|done].
  destruct (take _ _ !! j) as [[d' y']|] eqn:Ej; [|done]. simpl in *. assert (y = x) as -> by congruence.
  assert (y' = x) as -> by congruence. apply lookup_take_Some in Ei as [Ei Hi'], Ej as [Ej Hj'].
  pose proof (shape_inj s (Z.of_nat i) (Z.of_nat j) d d' x Hs) as H. rewrite !zget_Some, !Nat2Z.id in H.
  apply Nat2Z.inj, H; split_and!; try lia; try done.
Qed.

(** Deadlines in order. *)
Definition by_deadline (e e' : timer_heap_entry) : Prop := e.1 <= e'.1.

(** What firing at [now] does: the entries due then, in the order of their deadlines,
    leave the heap and their channels are closed. *)
Record fired_at (now : Z) (s s' : state) (due : list timer_heap_entry) : Prop := {
  fa_heap : heap_ok s';
  fa_perm : pending s ≡ₚ due ++ pending s';
  fa_due : Forall (λ e, e.1 <= now) due;
  fa_later : Forall (λ e, now < e.1) (pending s');
  fa_order : StronglySorted by_deadline due;
  fa_ctxs : finished due.*2 (ctxs s) (ctxs s');
  fa_closes : closes s' = closes s ++ (chan_of s <$> due.*2);
  fa_posts : posts s' = posts s ++ own_cancels (ctxs s) due.*2;
  fa_exp : expirations s' = wrap64 (expirations s + Z.of_nat (length due));
  fa_alloc : allocations s' = allocations s;
  fa_next : next_ctx s' = next_ctx s
}.

(** One round of the loop: the root is due. *)
Lemma expire_root_ok s d x :
  heap_ok s → 0 < heap_len s → zget (heap s) 0 = Some (d, x) →
  ∃ s', (x ← pop_root; upd_ctx x (set_state 2);; goc_timeout_ctx_expire x) s = ok (tt, s') ∧
    heap_ok s' ∧ pending s ≡ₚ (d, x) :: pending s' ∧ heap_len s' = heap_len s - 1 ∧
    finished [x] (ctxs s) (ctxs s') ∧ closes s' = closes s ++ [chan_of s x] ∧
    posts s' = posts s ++ own_cancels (ctxs s) [x] ∧ expirations s' = expirations s +% 1 ∧
    allocations s' = allocations s ∧ next_ctx s' = next_ctx s.
Proof.
  intros Hok Hgt H0.
  destruct (pop_root_ok s d x Hok Hgt H0) as (s1 & Hpop & Hok1 & Hp1 & Hl1 & [Hx1 (c1 & Hc1 & Hi1)] & Hrest & Harm).
  destruct Hrest as (Rcl & Rpo & Ral & Re & Rn).
  erewrite prog_bind_ok by exact Hpop. erewrite prog_bind_ok by (by apply upd_ctx_ok).
  unfold goc_timeout_ctx_expire. erewrite prog_bind_ok by done.
  set (s2 := count_expiration (set_ctxs (<[x := set_state 2 c1]>) s1)).
  destruct (goc_close_ok s2 x (set_state 2 c1)) as (s' & Hr & Ex & Ecl & Epo & Eh & El & Em & Ea & Eal & Ee & En).
  { apply lookup_insert_eq. }
  pose proof (Hx1 x) as Hxx. unfold chan_of, own_cancels. rewrite filter_cons. unfold ch_is_open.
  destruct (ctxs s !! x) as [c|] eqn:Hcs; [|congruence]. destruct Hxx as (k & Hk).
  assert (c1 = set_idx k c) as -> by congruence.
  assert (Ex' : ctxs s' = <[x := set_idx k (expired c)]> (ctxs s1)).
  { rewrite Ex. unfold s2. simpl. by rewrite insert_insert_eq, <- expired_set_idx. }
  exists s'. split; [done|]. split_and!.
  - apply (rest_ok (set_ctxs (<[x := set_idx k (expired c)]>) s1)); try done.
    by apply (set_ctx_ok s1 x (set_idx k c) (λ _, set_idx k (expired c))).
  - rewrite Hp1. unfold pending. rewrite Eh, El. done.
  - rewrite El. done.
  - intros y. specialize (Hx1 y). rewrite Ex', lookup_insert. case_decide as Hy.
    + subst y. rewrite Hcs. rewrite decide_True by (by constructor). eauto.
    + destruct (ctxs s !! y) as [cy|]; [|done]. destruct Hx1 as (j & Hj). exists j.
      rewrite decide_False; [done|]. intros ->%list_elem_of_singleton. done.
  - rewrite Ecl. unfold s2. simpl. by rewrite Rcl.
  - rewrite Epo. unfold s2, own_cancels. rewrite filter_cons. unfold ch_is_open. simpl.
    rewrite lookup_insert_eq. simpl. by rewrite Rpo.
  - rewrite Ee. unfold s2. simpl. by rewrite Re.
  - by rewrite Eal.
  - by rewrite En.
Qed.

Lemma fired_none now s :
  heap_ok s → is_word (expirations s) → Forall (λ e, now < e.1) (pending s) → fired_at now s s [].
Proof.
  intros Hok He Hl. split; try done; simpl; rewrite ?app_nil_r; try done.
  - constructor.
  - apply finished_nil, same_ctxs_refl.
  - rewrite Z.add_0_r. by rewrite wrap64_small.
Qed.

Lemma own_cancels_app m xs ys : own_cancels m (xs ++ ys) = own_cancels m xs ++ own_cancels m ys.
Proof. unfold own_cancels. by rewrite filter_app, fmap_app. Qed.

Lemma own_cancels_ext m m' xs : (∀ x, x ∈ xs → ch_is_open m x = ch_is_open m' x) → own_cancels m xs = own_cancels m' xs.
Proof.
  intros H. unfold own_cancels. f_equal. induction xs as [|x xs IH]; [done|]. rewrite !filter_cons.
  rewrite (H x) by (by left). rewrite IH; [done|]. intros y Hy. apply H. by right.
Qed.

Lemma fire_loop_ok now : ∀ fuel s,
  heap_ok s → is_word (expirations s) → heap_len s < Z.of_nat fuel →
  ∃ s' due, fire_loop fuel now s = ok (tt, s') ∧ fired_at now s s' due.
Proof.
  induction fuel as [|fuel IH]; intros s Hok Hw Hf; pose proof (sh_len _ (hk_shape _ Hok)) as Hl; [lia|].
  cbn [fire_loop]. erewrite prog_bind_ok by done. destruct (Z.ltb_spec 0 (heap_len s)) as [Hgt|Hle].
  2: { exists s, []. split; [done|]. apply fired_none; [done|done|]. unfold pending.
       replace (Z.to_nat (heap_len s)) with 0%nat by lia. constructor. }
  destruct (entry_at_ok s 0) as ([d x] & H0 & H0'); [lia|]. erewrite prog_bind_ok by exact H0'. cbn [fst].
  destruct (Z.leb_spec d now) as [Hdue|Hlater].
  2: { exists s, []. split; [done|]. apply fired_none; [done|done|]. apply Forall_forall. intros [d' x'] Hin.
       pose proof (root_first_pending s d' x' _ d x Hok H0 Hin eq_refl). simpl. lia. }
  destruct (expire_root_ok s d x Hok Hgt H0) as (s3 & Hone & Hok3 & Hp3 & Hl3 & Hfin3 & Hcl3 & Hpo3 & He3 & Hal3 & Hnx3).
  destruct (IH s3) as (s' & due & Hr & [Hok' Hp' Hdue' Hlater' Hsort Hfin Hcl Hpo He Hal Hnx]);
    [done|rewrite He3; apply wrap64_word|lia|].
  assert (Hstep : (x ← pop_root; upd_ctx x (set_state 2);; goc_timeout_ctx_expire x;; fire_loop fuel now) s =
                  fire_loop fuel now s3).
  { revert Hone. unfold mbind, prog_bind. destruct (pop_root s) as [[y s1]|?| |]; try done.
    destruct (upd_ctx y (set_state 2) s1) as [[[] s2]|?| |]; try done.
    destruct (goc_timeout_ctx_expire y s2) as [[[] s4]|?| |]; try done. by intros [= ->]. }
  exists s', ((d, x) :: due). rewrite Hstep. split; [done|].
  assert (Hnd : x ∉ due.*2).
  { pose proof (pending_NoDup s (hk_shape _ Hok)) as Hnd. rewrite Hp3, Hp' in Hnd. simpl in Hnd.
    apply NoDup_cons in Hnd as [Hnd _]. rewrite fmap_app in Hnd. intros Hin. apply Hnd, elem_of_app. by left. }
  split; try done.
  - rewrite Hp3. simpl. by constructor.
  - by constructor.
  - constructor; [done|]. apply Forall_forall. intros [d' x'] Hin. unfold by_deadline. simpl.
    apply (root_first_pending s d' x' (d', x') d x Hok H0); [|done].
    rewrite Hp3. right. rewrite Hp'. apply elem_of_app. by left.
  - simpl. by apply (finished_trans [x] due.*2 _ (ctxs s3)).
  - rewrite Hcl, Hcl3, <- app_assoc. simpl. do 2 f_equal.
    apply list_fmap_ext. intros k y _. by apply (finished_chan [x] s s3).
  - rewrite Hpo, Hpo3, <- app_assoc. change ((d, x) :: due).*2 with ([x] ++ due.*2). rewrite own_cancels_app.
    do 2 f_equal. apply own_cancels_ext. intros y Hy. apply (finished_open [x]); [done|].
    intros ->%list_elem_of_singleton. done.
  - rewrite He, He3. unfold wrap64. rewrite Zplus_mod_idemp_l. f_equal. simpl. lia.
  - by rewrite Hal.
  - by rewrite Hnx.
Qed.

Lemma fire_ok now now' s :
  heap_ok s → is_word (expirations s) →
  ∃ s' due, on_timer_mgr_fire now now' s = ok (tt, s') ∧ fired_at now s s' due ∧ armed s' = delay s' now'.
Proof.
  intros Hok Hw. pose proof (sh_len _ (hk_shape _ Hok)) as Hl. unfold on_timer_mgr_fire.
  destruct (fire_loop_ok now (S (Z.to_nat (heap_len s))) s Hok Hw) as (s1 & due & Hr & Hf); [lia|].
  erewrite prog_bind_ok by exact Hr. pose proof Hf as []. rewrite rearm_ok by apply fa_heap0.
  eexists _, due. split; [done|]. split; [|done]. split; try done. by apply set_armed_ok.
Qed.

(** ** The timer system *)

(** What happens to the timers: a call of [goc_timeout] on a fresh channel, another
    thread asking to close a timeout's channel, the dispatch of that close on the loop,
    the loop running the next posted function, the libuv timer going off, and the
    final shutdown. *)
Inductive event :=
| ETimeout (now : Z) (ch : positive) (ms : Z)
| ERequestClose (x : positive)
| EDispatchClose (x : positive)
| ERunPosted (races : list positive) (now now' : Z)
| EFire (now now' : Z).

Fixpoint closed_meanwhile (xs : list positive) : prog state () :=
  match xs with
  | [] => mret tt
  | x :: xs => on_timeout_channel_closed x;; closed_meanwhile xs
  end.

Definition set_posts (ps : list posted_fn) (s : state) : state :=
  mk_state (heap s) (heap_len s) (ctxs s) (mgr s) (armed s) (closes s) ps (allocations s) (expirations s) (next_ctx s).

Definition run_event (e : event) : prog state () :=
  match e with
  | ETimeout now ch ms => _ ← goc_timeout now ch ms; mret tt
  | ERequestClose x => upd_ctx x set_shut
  | EDispatchClose x => on_timeout_channel_closed x
  | ERunPosted races now now' => λ s,
      match posts s with
      | [] => ok (tt, s)
      | PStart r :: ps => on_start_timer (closed_meanwhile races) now now' r (set_posts ps s)
      | PCancel x :: ps => on_cancel_timer now' x (set_posts ps s)
      end
  | EFire now now' => on_timer_mgr_fire now now'
  end.

(** When an event can happen: channels are fresh, closes are of timeouts that exist, and
    memory is left for one more entry of 16 bytes. *)
Definition can_happen (s : state) (e : event) : Prop :=
  match e with
  | ETimeout now ch ms => ∀ x c, ctxs s !! x = Some c → cch c ≠ ch
  | ERequestClose x | EDispatchClose x => is_Some (ctxs s !! x)
  | ERunPosted races now now' => Forall (λ x, is_Some (ctxs s !! x)) races ∧ heap_len s < 2 ^ 58
  | EFire _ _ => True
  end.

Inductive reachable : state → Prop :=
| reach_init : reachable goc_timer_manager_init
| reach_step s e s' : reachable s → can_happen s e → run_event e s = ok (tt, s') → reachable s'.

(** The contexts of the timers still to be started. *)
Definition to_start (ps : list posted_fn) : list positive :=
  omap (λ p, match p with PStart r => Some (timer_ctx_of r) | PCancel _ => None end) ps.

(** The progress of a timeout (0 not started, 1 pending, 2 over) and its channel. *)
Definition st (s : state) (x : positive) : option Z := start_state <$> ctxs s !! x.
Definition chn (s : state) (x : positive) : option positive := cch <$> ctxs s !! x.

Record timers_ok (s : state) : Prop := {
  to_heap : heap_ok s;
  to_armed : armed_ok s;
  to_state : ∀ x n, st s x = Some n → n = 0 ∨ n = 1 ∨ n = 2;
  to_pending : ∀ x, st s x = Some 1 ↔ x ∈ (pending s).*2;
  to_starting : ∀ x, x ∈ to_start (posts s) → st s x = Some 0;
  to_start_once : NoDup (to_start (posts s));
  to_cancels : ∀ x, PCancel x ∈ posts s → is_Some (st s x);
  to_fresh : ∀ x, is_Some (st s x) → (x < next_ctx s)%positive;
  to_chans : ∀ x y k, chn s x = Some k → chn s y = Some k → x = y;
  to_closes : ∃ xs, closes s = chan_of s <$> xs ∧ NoDup xs ∧ ∀ x, x ∈ xs → st s x = Some 2;
  to_exp : is_word (expirations s)
}.

(** Timeouts only move forward. *)
Definition forward (a b : option Z) : Prop :=
  b = a ∨ (a = Some 0 ∧ (b = Some 1 ∨ b = Some 2)) ∨ (a = Some 1 ∧ b = Some 2).

Lemma st_chn s x : is_Some (st s x) ↔ is_Some (chn s x).
Proof. unfold st, chn. by rewrite !fmap_is_Some. Qed.

Lemma forward_some a b : forward a b → is_Some a ↔ is_Some b.
Proof. intros [->|[[-> [-> | ->]]|[-> ->]]]; split; eauto. Qed.

Lemma chan_of_chn s s' x : chn s' x = chn s x → chan_of s' x = chan_of s x.
Proof. unfold chn, chan_of. destruct (ctxs s' !! x), (ctxs s !! x); simpl; congruence. Qed.

(** Why an event keeps the timers in order. *)
Lemma timers_evolve s s' ys :
  timers_ok s → heap_ok s' → armed_ok s' → (∀ x, chn s' x = chn s x) → next_ctx s' = next_ctx s →
  is_word (expirations s') → (∀ x, forward (st s x) (st s' x)) →
  (∀ x, st s' x = Some 1 ↔ x ∈ (pending s').*2) →
  to_start (posts s') `sublist_of` to_start (posts s) →
  (∀ x, x ∈ to_start (posts s') → st s' x = st s x) →
  (∀ x, PCancel x ∈ posts s' → PCancel x ∈ posts s ∨ is_Some (st s x)) →
  closes s' = closes s ++ (chan_of s <$> ys) → NoDup ys →
  (∀ x, x ∈ ys → st s x ≠ Some 2 ∧ st s' x = Some 2) →
  timers_ok s'.
Proof.
  intros [Hh Ha Hs Hp Hst Ho Hc Hf Hch (xs & Hcl & Hnd & H2) He] Hh' Ha' Hn Hnx He' Hfw Hp' Hsub Hst' Hc' Hcl' Hnd' Hy.
  split; try done.
  - intros x n Hx. destruct (Hfw x) as [E|[[_ [E|E]]|[_ E]]]; rewrite E in Hx; [by apply (Hs x)|injection Hx; lia..].
  - intros x Hx. rewrite Hst' by done. apply Hst. by eapply elem_of_sublist.
  - by apply (sublist_NoDup _ _ Ho).
  - intros x Hx. apply (forward_some _ _ (Hfw x)). destruct (Hc' x Hx); [by apply Hc|done].
  - intros x Hx. rewrite Hnx. apply Hf. by apply (forward_some _ _ (Hfw x)).
  - intros x y k. rewrite !Hn. apply Hch.
  - exists (xs ++ ys). split_and!.
    + rewrite Hcl', Hcl, fmap_app. f_equal; apply list_fmap_ext; intros ? x _; symmetry; by apply chan_of_chn.
    + apply NoDup_app. split_and!; [done| |done]. intros x Hx Hx'. destruct (Hy x Hx') as [Hne _]. apply Hne. by apply H2.
    + intros x [Hx|Hx]%elem_of_app; [|by apply Hy]. pose proof (H2 x Hx) as E. destruct (Hfw x) as [E'|[[E' _]|[E' _]]]; congruence.
Qed.

(** A context is in the heap exactly when an entry points to it. *)
Lemma in_heap s x c :
  heap_ok s → ctxs s !! x = Some c → heap_idx c ≠ SIZE_MAX ↔ x ∈ (pending s).*2.
Proof.
  intros [Hs _] Hc. split.
  - intros Hi. destruct (sh_out _ Hs x c Hc) as [|[Hb (d & Hd)]]; [done|]. apply list_elem_of_fmap.
    exists (d, x). split; [done|]. apply list_elem_of_lookup. exists (Z.to_nat (heap_idx c)).
    rewrite pending_lookup by done. by apply zget_Some.
  - intros ([d y] & -> & Hin)%list_elem_of_fmap. simpl in Hc.
    destruct (pending_at s d y c Hs Hin Hc) as [Hb _]. pose proof (sh_len _ Hs). pose proof (sh_cap _ Hs).
    unfold SIZE_MAX. lia.
Qed.

(** Contexts that differ in other ways than channel, progress and position. *)
Definition core (c : timer_ctx) : positive * Z * Z := (cch c, start_state c, heap_idx c).
Definition same_core (s s' : state) : Prop := ∀ x, core <$> ctxs s' !! x = core <$> ctxs s !! x.

Lemma same_core_ok s s' :
  heap_ok s → same_core s s' → heap s' = heap s → heap_len s' = heap_len s → mgr s' = mgr s → heap_ok s'.
Proof.
  intros [[Hl Hcap Hb Ho Hm] Hord] Hsc Hh Hn Hm'. split; [split|]; rewrite ?Hh, ?Hn, ?Hm'; try done.
  - intros i d x Hi Hx. destruct (Hb i d x Hi Hx) as (c & Hc & Hic). specialize (Hsc x). rewrite Hc in Hsc.
    destruct (ctxs s' !! x) as [c'|]; [|done]. exists c'. split; [done|]. unfold core in Hsc. simpl in Hsc. congruence.
  - intros x c' Hc'. specialize (Hsc x). rewrite Hc' in Hsc. destruct (ctxs s !! x) as [c|] eqn:Hc; [|done].
    assert (heap_idx c' = heap_idx c) as -> by (unfold core in Hsc; simpl in Hsc; congruence). by apply Ho.
  - intros j. unfold key. rewrite Hh, Hn. apply Hord.
Qed.

(** Events that only touch flags and the queue of posted functions. *)
Lemma quiet_ok s s' :
  timers_ok s → same_core s s' → heap s' = heap s → heap_len s' = heap_len s → mgr s' = mgr s →
  armed s' = armed s → next_ctx s' = next_ctx s → expirations s' = expirations s → closes s' = closes s →
  to_start (posts s') `sublist_of` to_start (posts s) →
  (∀ x, PCancel x ∈ posts s' → PCancel x ∈ posts s ∨ is_Some (st s x)) →
  timers_ok s'.
Proof.
  intros Hok Hsc Hh Hl Hm Ha Hn He Hcl Hsub Hc.
  assert (Hst : ∀ x, st s' x = st s x).
  { intros x. specialize (Hsc x). unfold st. destruct (ctxs s' !! x), (ctxs s !! x); try done. unfold core in Hsc. simpl in *. congruence. }
  assert (Hch : ∀ x, chn s' x = chn s x).
  { intros x. specialize (Hsc x). unfold chn. destruct (ctxs s' !! x), (ctxs s !! x); try done. unfold core in Hsc. simpl in *. congruence. }
  apply (timers_evolve s s' []); try done.
  - eapply same_core_ok; eauto using to_heap.
  - unfold armed_ok. rewrite Ha, Hl. apply (to_armed _ Hok).
  - rewrite He. apply (to_exp _ Hok).
  - intros x. rewrite Hst. by left.
  - intros x. unfold pending. rewrite Hst, Hh, Hl. apply (to_pending _ Hok).
  - by rewrite Hcl, app_nil_r.
  - constructor.
  - by intros x ?%not_elem_of_nil.
Qed.

(** ** Every event keeps the timers in order *)

Lemma same_core_insert s x c f ps :
  ctxs s !! x = Some c → core (f c) = core c → same_core s (set_posts ps (set_ctxs (<[x := f c]>) s)).
Proof.
  intros Hc Hf y. simpl. rewrite lookup_insert. case_decide as Hy; [|done]. subst y. rewrite Hc. simpl. by rewrite Hf.
Qed.

Lemma popped_ok s p ps : timers_ok s → posts s = p :: ps → timers_ok (set_posts ps s).
Proof.
  intros Hok Hp. apply (quiet_ok s); try done; simpl; rewrite Hp.
  - unfold to_start. simpl. destruct p; by repeat constructor.
  - intros x Hx. left. by right.
Qed.

Lemma request_event_ok s x : timers_ok s → is_Some (ctxs s !! x) →
  ∃ s', run_event (ERequestClose x) s = ok (tt, s') ∧ timers_ok s'.
Proof.
  intros Hok [c Hc]. simpl. rewrite (upd_ctx_ok s x c) by done. eexists. split; [done|].
  apply (quiet_ok s); try done; simpl; [|eauto]. by apply (same_core_insert s x c set_shut (posts s)).
Qed.

Lemma to_start_cancel ps x : to_start (ps ++ [PCancel x]) = to_start ps.
Proof. unfold to_start. rewrite omap_app. simpl. by rewrite app_nil_r. Qed.

Lemma closed_callback_ok s x : timers_ok s → is_Some (ctxs s !! x) →
  ∃ s', on_timeout_channel_closed x s = ok (tt, s') ∧ timers_ok s' ∧ same_core s s' ∧
    heap_len s' = heap_len s ∧ to_start (posts s') = to_start (posts s).
Proof.
  intros Hok [c Hc]. unfold on_timeout_channel_closed. erewrite prog_bind_ok by (by apply upd_ctx_ok).
  assert (Hsc := same_core_insert s x c set_cancel (posts s ++ [PCancel x]) Hc eq_refl).
  eexists. split; [done|]. split_and!; [|exact Hsc|done|apply to_start_cancel].
  apply (quiet_ok s); try done; simpl.
  - by rewrite to_start_cancel.
  - intros y [Hy|Hy%list_elem_of_singleton]%elem_of_app; [by left|right]. injection Hy as ->.
    unfold st. rewrite Hc. eauto.
Qed.

Lemma meanwhile_ok xs : ∀ s, timers_ok s → Forall (λ x, is_Some (ctxs s !! x)) xs →
  ∃ s', closed_meanwhile xs s = ok (tt, s') ∧ timers_ok s' ∧ same_core s s' ∧
    heap_len s' = heap_len s ∧ to_start (posts s') = to_start (posts s).
Proof.
  induction xs as [|x xs IH]; intros s Hok Hxs; cbn [closed_meanwhile].
  - exists s. split_and!; done.
  - inversion Hxs as [|? ? Hx Hxs']; subst.
    destruct (closed_callback_ok s x Hok Hx) as (s1 & Hr & Hok1 & Hsc & Hl & Hp). erewrite prog_bind_ok by exact Hr.
    destruct (IH s1 Hok1) as (s' & Hr' & Hok' & Hsc' & Hl' & Hp').
    + eapply Forall_impl; [exact Hxs'|]. intros y Hy. simpl in *. specialize (Hsc y).
      destruct (ctxs s1 !! y); [eauto|]. destruct Hy as [cy Hcy]. by rewrite Hcy in Hsc.
    + exists s'. split_and!; [done|done| |lia|congruence]. intros y. by rewrite Hsc', Hsc.
Qed.

Lemma timeout_event_ok s now ch ms : timers_ok s → can_happen s (ETimeout now ch ms) →
  ∃ s', run_event (ETimeout now ch ms) s = ok (tt, s') ∧ timers_ok s'.
Proof.
  intros [Hh Ha Hs Hp Hst Ho Hc Hf Hch (xs & Hcl & Hnd & H2) He] Hnew. simpl in *. eexists. split; [done|].
  set (n := next_ctx s).
  assert (Hn : ctxs s !! n = None).
  { destruct (ctxs s !! n) as [c|] eqn:E; [|done]. exfalso. assert (n < next_ctx s)%positive; [|lia].
    apply Hf. unfold st. rewrite E. eauto. }
  assert (Hne : ∀ x, is_Some (st s x) → x ≠ n) by (intros x Hx ->; unfold st in Hx; rewrite Hn in Hx; by destruct Hx).
  set (s' := mk_state _ _ _ _ _ _ _ _ _ _).
  assert (Hst' : ∀ x, st s' x = if decide (x = n) then Some 0 else st s x).
  { intros x. unfold st. simpl. rewrite lookup_insert. repeat case_decide; congruence || done. }
  assert (Hch' : ∀ x, chn s' x = if decide (x = n) then Some ch else chn s x).
  { intros x. unfold chn. simpl. rewrite lookup_insert. repeat case_decide; congruence || done. }
  assert (Hts : to_start (posts s') = to_start (posts s) ++ [n]).
  { unfold to_start. simpl. by rewrite omap_app. }
  split; try done.
  - destruct Hh as [[Hl Hcap Hb Hout Hm] Hord]. split; [split|]; simpl; try done.
    + intros i d x Hi Hx. destruct (Hb i d x Hi Hx) as (c & Hcx & Hic). rewrite lookup_insert_ne; [eauto|congruence].
    + intros x c. rewrite lookup_insert. case_decide; [intros [= <-]; by left|apply Hout].
  - intros x k. rewrite Hst'. case_decide; [intros [= <-]; by left|apply Hs].
  - intros x. rewrite Hst'. case_decide as Hx; [|apply Hp]. subst x. split; [done|]. intros Hin.
    exfalso. apply (Hne n); [|done]. apply Hp in Hin. rewrite Hin. eauto.
  - intros x. rewrite Hts, Hst'. intros [Hx|Hx%list_elem_of_singleton]%elem_of_app; case_decide; try done. by apply Hst.
  - rewrite Hts. apply NoDup_app. split_and!; [done| |apply NoDup_singleton].
    intros x Hx ->%list_elem_of_singleton. apply (Hne n); [|done]. rewrite (Hst n Hx). eauto.
  - intros x. rewrite Hst'. simpl. intros [Hx|Hx%list_elem_of_singleton]%elem_of_app; [|done]. case_decide; eauto.
  - intros x. rewrite Hst'. simpl. case_decide as Hx; [subst; unfold n; lia|]. intros Hx'%Hf. lia.
  - intros x y k. rewrite !Hch'. assert (Hno : ∀ z, chn s z ≠ Some ch).
    { intros z. unfold chn. destruct (ctxs s !! z) eqn:E; [|done]. intros [= Hz]. by apply (Hnew z _ E). }
    repeat case_decide; subst; try done; [intros [= ->] Hk; by apply Hno in Hk|intros Hk [= ->]; by apply Hno in Hk|apply Hch].
  - exists xs. split_and!; [|done|].
    + simpl. rewrite Hcl. apply list_fmap_ext. intros i x Hx. symmetry. apply chan_of_chn. rewrite Hch'.
      rewrite decide_False; [done|]. apply Hne. rewrite H2; [eauto|]. by eapply list_elem_of_lookup_2.
    + intros x Hx. rewrite Hst', decide_False; [by apply H2|]. apply Hne. rewrite H2 by done. eauto.
Qed.

Lemma same_ctxs_proj {B} (g : timer_ctx → B) m m' x :
  (∀ i c, g (set_idx i c) = g c) → same_ctxs m m' → g <$> m' !! x = g <$> m !! x.
Proof.
  intros Hg H. specialize (H x). destruct (m !! x) as [c|]; [|by rewrite H].
  destruct H as (i & ->). simpl. by rewrite Hg.
Qed.

Lemma set_state_proj s x c n y : ctxs s !! x = Some c →
  st (set_ctxs (<[x := set_state n c]>) s) y = (if decide (y = x) then Some n else st s y) ∧
  chn (set_ctxs (<[x := set_state n c]>) s) y = chn s y.
Proof.
  intros Hc. unfold st, chn. simpl. rewrite lookup_insert.
  destruct (decide (x = y)) as [<-|Hne].
  - rewrite Hc. by rewrite decide_True.
  - by rewrite decide_False.
Qed.

Lemma cancel_posted_ok s now x :
  timers_ok s → is_Some (ctxs s !! x) →
  ∃ s', on_cancel_timer now x s = ok (tt, s') ∧ timers_ok s' ∧ closes s' = closes s ∧
    st s' x ≠ Some 1 ∧ (∀ y, y ≠ x → st s' y = st s y) ∧
    ((st s x ≠ Some 1 ∧ s' = s) ∨
     (st s x = Some 1 ∧ st s' x = Some 2 ∧ ∃ d, pending s ≡ₚ (d, x) :: pending s')).
Proof.
  intros Hok [c Hc]. unfold on_cancel_timer. erewrite prog_bind_ok by (by apply get_ctx_ok).
  assert (Hstx : st s x = Some (start_state c)) by (unfold st; by rewrite Hc).
  destruct (Z.eqb_spec (start_state c) 1) as [H1|H1]; cbn [negb].
  2: { exists s. assert (st s x ≠ Some 1) by congruence. split_and!; try done. by left. }
  erewrite prog_bind_ok by (by apply upd_ctx_ok). rewrite H1 in Hstx.
  set (s1 := set_ctxs (<[x := set_state 2 c]>) s).
  assert (Hc1 : ctxs s1 !! x = Some (set_state 2 c)) by apply lookup_insert_eq.
  assert (Hh1 : heap_ok s1) by (apply set_ctx_ok; [apply (to_heap _ Hok)|done|done]).
  destruct (remove_ok s1 now x (set_state 2 c) Hh1 Hc1) as (s' & d & Hr & Hh' & Ha' & Hp & Hl & [Hx _] & Hcl & Hpo & _ & He & Hn).
  { apply (in_heap s x c (to_heap _ Hok) Hc). by apply (to_pending _ Hok). }
  rewrite Hr. exists s'.
  assert (Hst : ∀ y, st s' y = if decide (y = x) then Some 2 else st s y).
  { intros y. unfold st at 1. rewrite (same_ctxs_proj start_state _ _ y ltac:(done) Hx). by apply set_state_proj. }
  assert (Hpend : x ∉ (pending s').*2 ∧ ∀ y, y ≠ x → y ∈ (pending s').*2 ↔ y ∈ (pending s).*2).
  { pose proof (pending_NoDup s (hk_shape _ (to_heap _ Hok))) as Hnd. change (pending s1) with (pending s) in Hp.
    rewrite Hp in Hnd. simpl in Hnd. apply NoDup_cons in Hnd as [Hnd _]. split; [done|]. intros y Hy.
    rewrite Hp. simpl. rewrite elem_of_cons. naive_solver. }
  split; [done|]. split_and!; try done.
  - apply (timers_evolve s s' []); try done.
    + intros y. unfold chn at 1. rewrite (same_ctxs_proj cch _ _ y ltac:(done) Hx). by apply set_state_proj.
    + rewrite He. apply (to_exp _ Hok).
    + intros y. rewrite Hst. case_decide; [|by left]. subst y. rewrite Hstx. right. right. done.
    + intros y. rewrite Hst. case_decide as Hy; [subst y; naive_solver|]. rewrite (proj2 Hpend y Hy). apply (to_pending _ Hok).
    + rewrite Hpo. done.
    + intros y Hy. rewrite Hst. case_decide as Hyx; [|done]. subst y. rewrite Hpo in Hy.
      apply (to_starting _ Hok) in Hy. congruence.
    + intros y. rewrite Hpo. by left.
    + by rewrite Hcl, app_nil_r.
    + constructor.
    + by intros y ?%not_elem_of_nil.
  - rewrite Hst. by rewrite decide_True.
  - intros y Hy. by rewrite Hst, decide_False.
  - right. split_and!; [done|by rewrite Hst, decide_True|eauto].
Qed.

Lemma fire_event_ok s now now' :
  timers_ok s →
  ∃ s' due, on_timer_mgr_fire now now' s = ok (tt, s') ∧ timers_ok s' ∧ fired_at now s s' due ∧ armed s' = delay s' now'.
Proof.
  intros Hok. destruct (fire_ok now now' s (to_heap _ Hok) (to_exp _ Hok)) as (s' & due & Hr & Hf & Ha).
  exists s', due. split_and!; try done. destruct Hf as [Hh Hp Hd Hl Hso Hx Hcl Hpo He Hal Hn].
  assert (Hst : ∀ x, st s' x = if decide (x ∈ due.*2) then Some 2 else st s x).
  { intros x. specialize (Hx x). unfold st. destruct (ctxs s !! x) as [c|] eqn:Hc.
    - destruct Hx as (i & ->). simpl. case_decide; [by rewrite expired_state|done].
    - rewrite Hx. case_decide as Hin; [|done]. exfalso. assert (Hin' : x ∈ (pending s).*2).
      { rewrite Hp, fmap_app. apply elem_of_app. by left. }
      apply (to_pending _ Hok) in Hin'. unfold st in Hin'. by rewrite Hc in Hin'. }
  assert (Hdue : ∀ x, x ∈ due.*2 → st s x = Some 1).
  { intros x Hin. apply (to_pending _ Hok). rewrite Hp, fmap_app. apply elem_of_app. by left. }
  assert (Hnd : NoDup (due.*2 ++ (pending s').*2)).
  { rewrite <- fmap_app, <- Hp. apply pending_NoDup, hk_shape, to_heap, Hok. }
  apply NoDup_app in Hnd as (Hnd & Hdis & _).
  assert (Hts : to_start (posts s') = to_start (posts s)).
  { rewrite Hpo. unfold to_start, own_cancels. rewrite omap_app. rewrite <- (app_nil_r (omap _ (posts s))) at 2. f_equal.
    induction (filter _ _) as [|y ys IH]; done. }
  apply (timers_evolve s s' due.*2); try done.
  - unfold armed_ok. rewrite Ha. pose proof (delay_armed s' now' ltac:(pose proof (sh_len _ (hk_shape _ Hh)); lia)) as Hda.
    exact Hda.
  - intros x. specialize (Hx x). unfold chn. destruct (ctxs s !! x) as [c|]; [|by rewrite Hx].
    destruct Hx as (i & ->). simpl. case_decide; [by rewrite expired_cch|done].
  - rewrite He. apply wrap64_word.
  - intros x. rewrite Hst. case_decide as Hin; [|by left]. rewrite (Hdue x Hin). right. by right.
  - intros x. rewrite Hst. case_decide as Hin; [split; [done|]; intros Hin'; by destruct (Hdis x)|].
    rewrite (to_pending _ Hok), Hp, fmap_app, elem_of_app. tauto.
  - by rewrite Hts.
  - intros x Hin. rewrite Hts in Hin. apply (to_starting _ Hok) in Hin. rewrite Hst. case_decide as Hin'; [|done].
    apply Hdue in Hin'. congruence.
  - intros x. rewrite Hpo. intros [Hin|Hin]%elem_of_app; [by left|right]. unfold own_cancels in Hin.
    apply list_elem_of_fmap in Hin as (y & [= <-] & [_ Hin]%list_elem_of_filter). rewrite (Hdue x Hin). eauto.
  - intros x Hin. rewrite Hst, decide_True by done. rewrite (Hdue x Hin). done.
Qed.

Lemma meanwhile_set_state xs x n : ∀ s s0,
  closed_meanwhile xs s = ok (tt, s0) →
  closed_meanwhile xs (set_ctxs (alter (set_state n) x) s) = ok (tt, set_ctxs (alter (set_state n) x) s0).
Proof.
  induction xs as [|y xs IH]; intros s s0; cbn [closed_meanwhile].
  - by intros [= <-].
  - intros H. apply prog_bind_inv in H as ([] & s1 & H1 & H2). specialize (IH s1 s0 H2).
    unfold on_timeout_channel_closed in H1. apply prog_bind_inv in H1 as ([] & s2 & H3 & H4).
    unfold upd_ctx in H3. apply prog_bind_inv in H3 as (c & s3 & H5 & H6). unfold get_ctx in H5.
    destruct (ctxs s !! y) as [c'|] eqn:Hc; [|done]. injection H5 as -> ->. injection H6 as <-. injection H4 as <-.
    rewrite <- IH. unfold on_timeout_channel_closed.
    set (cy := if decide (x = y) then set_state n c else c).
    assert (Hcy : ctxs (set_ctxs (alter (set_state n) x) s3) !! y = Some cy).
    { simpl. rewrite lookup_alter. unfold cy. case_decide; [subst; by rewrite Hc|done]. }
    assert (Hone : (upd_ctx y set_cancel;; post_on_loop (PCancel y)) (set_ctxs (alter (set_state n) x) s3) =
      ok (tt, set_ctxs (alter (set_state n) x) (push_post (PCancel y) (set_ctxs (<[y := set_cancel c]>) s3)))).
    { erewrite prog_bind_ok by (by apply upd_ctx_ok). unfold post_on_loop, modify. do 2 f_equal.
      unfold push_post, set_ctxs. simpl. f_equal. apply map_eq. intros z. unfold cy.
      rewrite !lookup_insert, !lookup_alter, ?lookup_insert.
      repeat (case_decide; subst; try done). }
    by erewrite prog_bind_ok by exact Hone.
Qed.

Lemma set_ctxs_alter s x c f : ctxs s !! x = Some c → set_ctxs (alter f x) s = set_ctxs (<[x := f c]>) s.
Proof.
  intros Hc. unfold set_ctxs. f_equal. apply map_eq. intros y. rewrite lookup_insert, lookup_alter.
  case_decide; [|done]. subst y. by rewrite Hc.
Qed.

Lemma set_state_twice s x c n m : ctxs s !! x = Some c →
  set_ctxs (<[x := set_state m (set_state n c)]>) (set_ctxs (alter (set_state n) x) s) =
  set_ctxs (<[x := set_state m c]>) s.
Proof.
  intros Hc. unfold set_ctxs. simpl. f_equal. apply map_eq. intros y.
  rewrite !lookup_insert, lookup_alter. by case_decide.
Qed.

(** A callback of another thread's close touches neither the heap nor the record of closes. *)
Lemma meanwhile_rest xs : ∀ s s0, closed_meanwhile xs s = ok (tt, s0) → closes s0 = closes s ∧ pending s0 = pending s.
Proof.
  induction xs as [|y ys IH]; intros s s0; cbn [closed_meanwhile]; [by intros [= ->]|].
  intros H. apply prog_bind_inv in H as ([] & s1 & H1 & H2). destruct (IH s1 s0 H2) as [-> ->]. revert H1.
  unfold on_timeout_channel_closed, upd_ctx, get_ctx, mbind, prog_bind, of_option.
  destruct (ctxs s !! y); [|done]. by intros [= <-].
Qed.

(** A timeout cancelled between the two looks at the flag ends without being inserted. *)
Lemma start_cancelled_ok s x c :
  timers_ok s → ctxs s !! x = Some c → st s x = Some 0 → x ∉ to_start (posts s) →
  timers_ok (set_ctxs (<[x := set_state 2 c]>) s).
Proof.
  intros Hok Hc H0 Hnot. pose proof (λ y, proj1 (set_state_proj s x c 2 y Hc)) as Hst.
  pose proof (λ y, proj2 (set_state_proj s x c 2 y Hc)) as Hch. apply (timers_evolve s _ []); try done.
  - apply set_ctx_ok; [apply (to_heap _ Hok)|done|done].
  - apply (to_armed _ Hok).
  - apply (to_exp _ Hok).
  - intros y. rewrite Hst. case_decide; [subst y; rewrite H0; right; left; by auto|by left].
  - intros y. rewrite Hst. case_decide as Hy; [|apply (to_pending _ Hok)]. subst y. split; [done|].
    intros Hin. change (pending _) with (pending s) in Hin. apply (to_pending _ Hok) in Hin. congruence.
  - intros y Hy. rewrite Hst. case_decide as Hyx; [|done]. by subst y.
  - by left.
  - by rewrite app_nil_r.
  - constructor.
  - by intros y ?%not_elem_of_nil.
Qed.

(** A started timeout enters the heap. *)
Lemma start_inserted_ok s x c now d :
  timers_ok s → ctxs s !! x = Some c → st s x = Some 0 → x ∉ to_start (posts s) → heap_len s < 2 ^ 58 →
  ∃ s', goc_timer_manager_insert now x d (set_ctxs (<[x := set_state 1 c]>) s) = ok (tt, s') ∧ timers_ok s' ∧
    closes s' = closes s ∧ pending s' ≡ₚ (d, x) :: pending s.
Proof.
  intros Hok Hc H0 Hnot Hb. set (s1 := set_ctxs (<[x := set_state 1 c]>) s).
  assert (Hc1 : ctxs s1 !! x = Some (set_state 1 c)) by apply lookup_insert_eq.
  assert (Hout : heap_idx c = SIZE_MAX).
  { destruct (decide (heap_idx c = SIZE_MAX)) as [|Hne]; [done|]. exfalso.
    apply (in_heap s x c (to_heap _ Hok) Hc) in Hne. apply (to_pending _ Hok) in Hne. congruence. }
  assert (Hh1 : heap_ok s1) by (apply set_ctx_ok; [apply (to_heap _ Hok)|done|done]).
  destruct (insert_ok s1 now x (set_state 1 c) d Hh1) as
    (s' & Hr & Hh' & Ha' & Hp & Hl & Hx & Hcl & Hpo & _ & He & Hn); [apply (to_armed _ Hok)|simpl; lia|done|done|].
  exists s'. change (pending s1) with (pending s) in Hp.
  assert (Hst : ∀ y, st s' y = if decide (y = x) then Some 1 else st s y).
  { intros y. unfold st at 1. rewrite (same_ctxs_proj start_state _ _ y ltac:(done) Hx). by apply set_state_proj. }
  split_and!; try done. apply (timers_evolve s _ []); try done.
  - intros y. unfold chn at 1. rewrite (same_ctxs_proj cch _ _ y ltac:(done) Hx). by apply set_state_proj.
  - rewrite He. apply (to_exp _ Hok).
  - intros y. rewrite Hst. case_decide; [subst y; rewrite H0; right; left; by auto|by left].
  - intros y. rewrite Hst, Hp. simpl. rewrite elem_of_cons. case_decide as Hy; [subst; naive_solver|].
    rewrite (to_pending _ Hok). naive_solver.
  - by rewrite Hpo.
  - intros y Hy. rewrite Hst. case_decide as Hyx; [|done]. subst y. by rewrite Hpo in Hy.
  - intros y. rewrite Hpo. by left.
  - rewrite Hcl. by rewrite app_nil_r.
  - constructor.
  - by intros y ?%not_elem_of_nil.
Qed.

Lemma start_posted_ok s races now now' r :
  timers_ok s → st s (timer_ctx_of r) = Some 0 → timer_ctx_of r ∉ to_start (posts s) →
  Forall (λ x, is_Some (ctxs s !! x)) races → heap_len s < 2 ^ 58 →
  ∃ s', on_start_timer (closed_meanwhile races) now now' r s = ok (tt, s') ∧ timers_ok s' ∧ closes s' = closes s ∧
    (st s' (timer_ctx_of r) = Some 1 → pending s' ≡ₚ (fire_at r now, timer_ctx_of r) :: pending s).
Proof.
  intros Hok Hst0 Hnot Hraces Hbound. set (x := timer_ctx_of r) in *.
  assert (∃ c, ctxs s !! x = Some c ∧ start_state c = 0) as (c & Hc & H0).
  { unfold st in Hst0. destruct (ctxs s !! x) as [c|]; [|done]. exists c. split; [done|]. by injection Hst0. }
  unfold on_start_timer. change (timer_ctx_of r) with x. erewrite prog_bind_ok by (by apply get_ctx_ok).
  destruct (cancel_requested c) eqn:Hcan.
  { exists s. split_and!; try done. rewrite Hst0. done. }
  erewrite prog_bind_ok by (by apply upd_ctx_ok).
  destruct (meanwhile_ok races s Hok Hraces) as (s0 & Hr0 & Hok0 & Hsc & Hl0 & Hp0).
  rewrite <- (set_ctxs_alter s x c (set_state 1) Hc). erewrite prog_bind_ok by (by apply meanwhile_set_state).
  pose proof (Hsc x) as Hscx. rewrite Hc in Hscx. destruct (ctxs s0 !! x) as [c0|] eqn:Hc0; [|done].
  assert (Hstate0 : start_state c0 = 0) by (unfold core in Hscx; simpl in Hscx; congruence).
  set (s1 := set_ctxs (alter (set_state 1) x) s0).
  assert (Hc1 : ctxs s1 !! x = Some (set_state 1 c0)) by (simpl; rewrite lookup_alter, decide_True, Hc0; done).
  erewrite prog_bind_ok by (apply (get_ctx_ok s1 x _ Hc1)).
  assert (Hst00 : st s0 x = Some 0) by (unfold st; rewrite Hc0; simpl; by rewrite Hstate0).
  destruct (meanwhile_rest races s s0 Hr0) as [Hcl0 Hpend0].
  destruct (cancel_requested (set_state 1 c0)).
  - rewrite (upd_ctx_ok _ x _ _ Hc1). eexists. split; [done|]. unfold s1. rewrite set_state_twice by done.
    rewrite <- Hcl0. split_and!; [|done|].
    + apply start_cancelled_ok; [done|done|done|by rewrite Hp0].
    + rewrite (proj1 (set_state_proj s0 x c0 2 x Hc0)), decide_True by done. done.
  - destruct (start_inserted_ok s0 x c0 now' (fire_at r now)) as (s' & Hr & Hok' & Hcl & Hp);
      [done|done|done|by rewrite Hp0|lia|].
    unfold s1. rewrite set_ctxs_alter with (c := c0) by done. exists s'. rewrite Hcl, Hp, Hpend0, Hcl0. done.
Qed.

Lemma event_ok s e : timers_ok s → can_happen s e → ∃ s', run_event e s = ok (tt, s') ∧ timers_ok s'.
Proof.
  intros Hok Hcan. destruct e as [now ch ms|x|x|races now now'|now now'].
  - by apply timeout_event_ok.
  - by apply request_event_ok.
  - destruct (closed_callback_ok s x Hok Hcan) as (s' & Hr & Hok' & _). eauto.
  - destruct Hcan as [Hraces Hb]. simpl. destruct (posts s) as [|[r|x] ps] eqn:Hp; [eauto|..];
      pose proof (popped_ok s _ ps Hok Hp) as Hok1.
    + pose proof (to_start_once _ Hok) as Hnd. pose proof (to_starting _ Hok (timer_ctx_of r)) as Hst.
      rewrite Hp in Hnd, Hst. unfold to_start in Hnd, Hst. simpl in Hnd, Hst. apply NoDup_cons in Hnd as [Hnd _].
      destruct (start_posted_ok (set_posts ps s) races now now' r) as (s' & Hr & Hok' & _); [done|apply Hst; by left|done..|].
      eauto.
    + destruct (cancel_posted_ok (set_posts ps s) now' x Hok1) as (s' & Hr & Hok' & _); [|by eauto].
      apply (fmap_is_Some start_state). apply (to_cancels _ Hok). rewrite Hp. by left.
  - destruct (fire_event_ok s now now' Hok) as (s' & due & Hr & Hok' & _). eauto.
Qed.

Lemma init_no_ctx x : ctxs goc_timer_manager_init !! x = None.
Proof. apply lookup_empty. Qed.

Lemma init_ok : timers_ok goc_timer_manager_init.
Proof.
  assert (Hst : ∀ x, st goc_timer_manager_init x = None) by (intros x; unfold st; by rewrite init_no_ctx).
  assert (Hch : ∀ x, chn goc_timer_manager_init x = None) by (intros x; unfold chn; by rewrite init_no_ctx).
  assert (Hnil : ∀ A (x : A) (P : Prop), x ∈ [] → P) by (intros A x P Hx; by apply not_elem_of_nil in Hx).
  refine (Build_timers_ok _ _ _ _ _ _ _ _ _ _ _ _).
  - split; [refine (Build_shape goc_timer_manager_init _ _ _ _ eq_refl)|].
    + done.
    + done.
    + intros i d x Hi. change (0 <= i < 0) in Hi. lia.
    + intros x c. by rewrite init_no_ctx.
    + intros j Hj. change (0 < j < 0) in Hj. lia.
  - split; [by intros [? ?]|done].
  - intros x n. by rewrite Hst.
  - intros x. rewrite Hst. split; [done|apply Hnil].
  - intros x. apply Hnil.
  - constructor.
  - intros x. apply Hnil.
  - intros x [n Hn]. by rewrite Hst in Hn.
  - intros x y k. by rewrite Hch.
  - exists []. split_and!; [done|constructor|intros x; apply Hnil].
  - done.
Qed.

Lemma reachable_ok s : reachable s → timers_ok s.
Proof.
  induction 1 as [|s e s' _ IH Hcan Hr]; [apply init_ok|]. destruct (event_ok s e IH Hcan) as (s'' & Hr' & Hok).
  rewrite Hr in Hr'. by injection Hr' as <-.
Qed.

Lemma closes_NoDup s : timers_ok s → NoDup (closes s).
Proof.
  intros [_ _ _ _ _ _ _ _ Hch (xs & -> & Hnd & H2) _]. apply NoDup_fmap_2_strong; [|done].
  intros x y Hx Hy Heq. apply H2 in Hx, Hy. unfold st in Hx, Hy. unfold chan_of in Heq.
  destruct (ctxs s !! x) as [c|] eqn:Hc; [|done]. destruct (ctxs s !! y) as [d|] eqn:Hd; [|done]. simpl in Heq.
  apply (Hch x y (cch c)); unfold chn; [by rewrite Hc|rewrite Hd; simpl; congruence].
Qed.

(** The delay the timer is armed with reaches the first deadline, and less than a
    millisecond more. *)
Lemma delay_reaches s now ms :
  0 <= now → now < key s 0 → key s 0 + 999999 < WORD → delay s now = Some ms →
  key s 0 <= now + ms * 1000000 < key s 0 + 1000000.
Proof.
  unfold delay. intros H0 Hlt Hw. destruct (Z.eqb_spec (heap_len s) 0); [done|].
  destruct (Z.ltb_spec now (key s 0)); [|lia]. rewrite wrap64_small by lia. intros [= <-]. dlia.
Qed.

(** ** Shutdown *)

Lemma shutdown_loop_ok : ∀ es i s,
  (∀ k e, es !! k = Some e → zget (heap s) (i + Z.of_nat k) = Some e ∧ is_Some (ctxs s !! e.2)) →
  ∃ s', shutdown_loop (length es) i s = ok (tt, s') ∧ heap s' = heap s ∧
    closes s' = closes s ++ (chan_of s <$> es.*2) ∧ (∀ x, chn s' x = chn s x) ∧
    (∀ x, st s' x = if decide (x ∈ es.*2) then Some 2 else st s x).
Proof.
  induction es as [|[d x] es IH]; intros i s Hes.
  { exists s. split; [done|]. split; [done|]. split; [simpl; by rewrite app_nil_r|]. split; [done|].
    intros x. rewrite decide_False; [done|apply not_elem_of_nil]. }
  cbn [length shutdown_loop]. destruct (Hes 0%nat (d, x) eq_refl) as [He [c Hc]]. rewrite Z.add_0_r in He. simpl in Hc.
  assert (Hat : entry_at i s = ok ((d, x), s)) by (unfold entry_at; by rewrite He).
  erewrite prog_bind_ok by exact Hat. cbn [snd].
  erewrite prog_bind_ok by (by apply upd_ctx_ok).
  erewrite prog_bind_ok by (apply (upd_ctx_ok _ x (set_state 2 c)); apply lookup_insert_eq).
  set (s1 := set_ctxs _ (set_ctxs _ s)). set (c1 := set_idx SIZE_MAX (set_state 2 c)).
  assert (Hc1 : ctxs s1 !! x = Some c1) by apply lookup_insert_eq.
  destruct (goc_close_ok s1 x c1 Hc1) as (s2 & Hr & Ex & Ecl & _ & Eh & _).
  erewrite prog_bind_ok by exact Hr.
  assert (Hx2 : ∀ y, ctxs s2 !! y = if decide (x = y) then Some (closed_ctx c1) else ctxs s !! y).
  { intros y. rewrite Ex, lookup_insert. case_decide; [done|]. unfold s1. simpl. by rewrite !lookup_insert_ne. }
  assert (Hcc : cch (closed_ctx c1) = cch c ∧ start_state (closed_ctx c1) = 2).
  { unfold closed_ctx, c1. by destruct c as [? [] ? ? ?]. }
  destruct Hcc as [Hcc Hcs].
  assert (Hch : ∀ y, chn s2 y = chn s y).
  { intros y. unfold chn. rewrite Hx2. case_decide; [subst y|done]. rewrite Hc. simpl. by rewrite Hcc. }
  destruct (IH (i + 1) s2) as (s' & Hr' & Hh' & Hcl' & Hch' & Hst').
  - intros k e Hk. destruct (Hes (S k) e Hk) as [Hz Hs]. rewrite Eh. unfold s1. simpl.
    replace (i + 1 + Z.of_nat k) with (i + Z.of_nat (S k)) by lia. split; [done|]. rewrite Hx2. case_decide; eauto.
  - exists s'. split_and!; [done|by rewrite Hh'| | |].
    + rewrite Hcl', Ecl. unfold s1. simpl. rewrite <- app_assoc. simpl. f_equal. f_equal.
      * unfold chan_of. by rewrite Hc.
      * apply list_fmap_ext. intros k y _. by apply chan_of_chn.
    + intros y. by rewrite Hch'.
    + intros y. rewrite Hst'. cbn [fmap list_fmap snd]. change (((d, x) :: es).*2) with (x :: es.*2).
      assert (Hs2 : st s2 y = if decide (x = y) then Some 2 else st s y).
      { unfold st. rewrite Hx2. case_decide; [simpl; by rewrite Hcs|done]. }
      rewrite Hs2. destruct (decide (x = y)) as [<-|Hne].
      * rewrite (decide_True (P := x ∈ x :: _)) by (by left). by case_decide.
      * destruct (decide (y ∈ es.*2)) as [Hin|Hin].
        -- rewrite decide_True; [done|by right].
        -- rewrite decide_False; [done|]. rewrite elem_of_cons. intros [|]; congruence.
Qed.

Lemma shutdown_ok s :
  timers_ok s →
  ∃ s', goc_timer_manager_shutdown s = ok (tt, s') ∧ heap_len s' = 0 ∧ mgr s' = false ∧ armed s' = None ∧
    closes s' = closes s ++ (chan_of s <$> (pending s).*2) ∧
    ∀ x, st s' x = if decide (x ∈ (pending s).*2) then Some 2 else st s x.
Proof.
  intros Hok. pose proof (to_heap _ Hok) as [Hs _]. pose proof (sh_len _ Hs) as Hl.
  unfold goc_timer_manager_shutdown. erewrite prog_bind_ok by done. rewrite (sh_mgr _ Hs).
  erewrite prog_bind_ok by done.
  destruct (shutdown_loop_ok (pending s) 0 (set_armed None s)) as (s1 & Hr & _ & Hcl & _ & Hst).
  { intros k [d x] Hk. unfold pending in Hk. apply lookup_take_Some in Hk as [Hk Hkl].
    assert (Hz : zget (heap s) (Z.of_nat k) = Some (d, x)) by (apply zget_Some; split; [lia|by rewrite Nat2Z.id]).
    simpl. split; [done|]. destruct (sh_back _ Hs (Z.of_nat k) d x) as (c & -> & _); [lia|done|eauto]. }
  replace (length (pending s)) with (Z.to_nat (heap_len s)) in Hr by (unfold pending; rewrite length_take; lia).
  erewrite prog_bind_ok by exact Hr. erewrite prog_bind_ok by done. eexists. split; [done|]. split_and!; try done.
Qed.

(** ** Claims *)

(** C8: Whatever sequence of calls, closes, posted functions and timer firings led
    here, the next event runs to its end without touching memory out of bounds and
    leaves the timers in order: the heap is ordered, entries and contexts point to each
    other, exactly the timeouts in state 1 are pending, the libuv timer is armed exactly
    while something is pending, and no channel was closed twice by the manager. *)
Theorem timer_events_safe s e :
  reachable s → can_happen s e →
  ∃ s', run_event e s = ok (tt, s') ∧ timers_ok s' ∧ NoDup (closes s').
Proof.
  intros Hs He. destruct (event_ok s e (reachable_ok s Hs) He) as (s' & Hr & Hok).
  exists s'. auto using closes_NoDup.
Qed.

Lemma timer_events_safe_witness :
  ∃ s', run_event (ETimeout 5 1 10) goc_timer_manager_init = ok (tt, s') ∧ timers_ok s' ∧ NoDup (closes s').
Proof. apply timer_events_safe; [apply reach_init|]. intros x c. by rewrite init_no_ctx. Defined.

(** C36: When the libuv timer goes off at [now], the timeouts due by then are expired, in
    the order of their deadlines, and only they; each one's channel is closed, every
    other timeout stays pending, and the timer is armed again for the first of them: it
    goes off no earlier than that deadline and less than a millisecond after it. *)
Theorem timer_fire_behaviour s now now' :
  reachable s →
  ∃ s' due, on_timer_mgr_fire now now' s = ok (tt, s') ∧ fired_at now s s' due ∧
    (∀ e, e ∈ pending s' → key s' 0 <= e.1) ∧ (is_Some (armed s') ↔ pending s' ≠ []) ∧
    ∀ ms, armed s' = Some ms → 0 <= now' → key s' 0 + 999999 < WORD → now' < key s' 0 →
      key s' 0 <= now' + ms * 1000000 < key s' 0 + 1000000.
Proof.
  intros Hs%reachable_ok. destruct (fire_event_ok s now now' Hs) as (s' & due & Hr & Hok & Hf & Ha).
  exists s', due. pose proof (sh_len _ (hk_shape _ (to_heap _ Hok))) as Hl. split_and!; try done.
  - intros [d x] Hin. destruct (entry_at_ok s' 0) as ([d0 x0] & H0 & _).
    { unfold pending in Hin. apply list_elem_of_lookup in Hin as (n & [Hn Hnl]%lookup_take_Some). lia. }
    unfold key. rewrite H0. simpl. by eapply root_first_pending; [apply to_heap| | |].
  - etrans; [exact (to_armed _ Hok)|]. unfold pending. split.
    + intros Hgt Hnil. apply (f_equal length) in Hnil. rewrite length_take in Hnil. simpl in Hnil. lia.
    + intros Hne. destruct (decide (0 < heap_len s')) as [|Hn]; [done|]. exfalso. apply Hne.
      by replace (Z.to_nat (heap_len s')) with 0%nat by lia.
  - intros ms Hms H0 Hw Hlt. rewrite Ha in Hms. by apply (delay_reaches s').
Qed.

(** Two timeouts, of 10 and 5 ms, started at time 0. *)
Definition two_timeouts : list event :=
  [ETimeout 0 1 10; ETimeout 0 2 5; ERunPosted [] 0 0; ERunPosted [] 0 0].

Fixpoint run_events (es : list event) : prog state () :=
  match es with [] => mret tt | e :: es => run_event e;; run_events es end.

Definition after_events (es : list event) : state :=
  match run_events es goc_timer_manager_init with ok (_, s) => s | _ => goc_timer_manager_init end.

Lemma three_events_reachable : reachable (after_events (take 3 two_timeouts)).
Proof.
  assert (R1 : reachable (after_events (take 1 two_timeouts))).
  { refine (reach_step _ (ETimeout 0 1 10) _ reach_init _ _); [|vm_compute; reflexivity]. intros x c. by rewrite init_no_ctx. }
  assert (R2 : reachable (after_events (take 2 two_timeouts))).
  { refine (reach_step _ (ETimeout 0 2 5) _ R1 _ _); [|vm_compute; reflexivity]. intros x c.
    change (<[1%positive := mk_ctx 1 true 0 false SIZE_MAX]> (∅ : gmap positive timer_ctx) !! x = Some c → cch c ≠ 2%positive).
    rewrite lookup_insert. case_decide; [by intros [= <-]|by rewrite lookup_empty]. }
  refine (reach_step _ (ERunPosted [] 0 0) _ R2 _ _); [|vm_compute; reflexivity]. split; [apply Forall_nil_2|reflexivity].
Qed.

Lemma two_timeouts_reachable : reachable (after_events two_timeouts).
Proof.
  refine (reach_step _ (ERunPosted [] 0 0) _ three_events_reachable _ _); [|vm_compute; reflexivity].
  split; [apply Forall_nil_2|reflexivity].
Qed.

Lemma timer_fire_behaviour_witness :
  (closes <$> (snd <$> match on_timer_mgr_fire 7000000 7000000 (after_events two_timeouts) with
                       | ok r => Some r | _ => None end)) = Some [2%positive] ∧
  ∃ s' due, on_timer_mgr_fire 7000000 7000000 (after_events two_timeouts) = ok (tt, s') ∧
    fired_at 7000000 (after_events two_timeouts) s' due.
Proof.
  split; [reflexivity|].
  destruct (timer_fire_behaviour (after_events two_timeouts) 7000000 7000000 two_timeouts_reachable) as (s' & due & H & Hf & _).
  eauto.
Defined.

(** A posted start makes the timeout pending for the deadline [fire_at], unless its
    channel was closed first; a posted cancellation takes exactly its own timeout out of
    the heap and closes nothing, and afterwards the timeout is not pending. *)
Theorem timer_posted_behaviour s races now now' p ps :
  reachable s → posts s = p :: ps → Forall (λ x, is_Some (ctxs s !! x)) races → heap_len s < 2 ^ 58 →
  ∃ s', run_event (ERunPosted races now now') s = ok (tt, s') ∧ closes s' = closes s ∧
    match p with
    | PStart r => st s' (timer_ctx_of r) = Some 1 →
        pending s' ≡ₚ (fire_at r now, timer_ctx_of r) :: pending s
    | PCancel x => x ∉ (pending s').*2 ∧
        (x ∉ (pending s).*2 ∧ pending s' = pending s ∨ ∃ d, pending s ≡ₚ (d, x) :: pending s')
    end.
Proof.
  intros Hok%reachable_ok Hp Hraces Hb. simpl. rewrite Hp. pose proof (popped_ok s p ps Hok Hp) as Hok1.
  destruct p as [r|x].
  - pose proof (to_start_once _ Hok) as Hnd. pose proof (to_starting _ Hok (timer_ctx_of r)) as Hst.
    rewrite Hp in Hnd, Hst. unfold to_start in Hnd, Hst. simpl in Hnd, Hst. apply NoDup_cons in Hnd as [Hnd _].
    destruct (start_posted_ok (set_posts ps s) races now now' r) as (s' & Hr & Hok' & Hcl & Hp');
      [done|apply Hst; by left|done..|]. eauto.
  - destruct (cancel_posted_ok (set_posts ps s) now' x Hok1) as (s' & Hr & Hok' & Hcl & Hne & _ & Hcase).
    { apply (fmap_is_Some start_state). apply (to_cancels _ Hok). rewrite Hp. by left. }
    exists s'. split_and!; [done|done|by rewrite <- (to_pending _ Hok')|].
    destruct Hcase as [[H1 ->]|(_ & _ & Hd)]; [left|by right]. split; [|done].
    by rewrite <- (to_pending _ Hok).
Qed.

Lemma timer_posted_behaviour_witness :
  ∃ s', run_event (ERunPosted [] 0 0) (after_events (take 3 two_timeouts)) = ok (tt, s') ∧ closes s' = [].
Proof.
  destruct (timer_posted_behaviour (after_events (take 3 two_timeouts)) [] 0 0 (PStart (mk_req 2 5 0)) []) as (s' & Hr & Hcl & _);
    [apply three_events_reachable|reflexivity|constructor|reflexivity|by exists s'].
Defined.

(** The moment a request asks for. *)
Definition asked_for (r : goc_timeout_req) : Z := call_ns r + ms r * 1000000.

(** The deadline computed when a request reaches the loop is never before the
    moment asked for, and less than a millisecond after it (or at once, when that moment
    has passed), as long as it fits in 64 bits. *)
Theorem timeout_deadline r now :
  0 <= call_ns r <= now → 0 <= ms r → now + ms r * 1000000 < WORD →
  asked_for r <= fire_at r now ∧
  (now < asked_for r → fire_at r now < asked_for r + 1000000) ∧
  (asked_for r <= now → fire_at r now = now).
Proof.
  intros Hc Hm Hw. unfold fire_at, asked_for.
  replace (if call_ns r <? now then now - call_ns r else 0) with (now - call_ns r)
    by (destruct (Z.ltb_spec (call_ns r) now); lia).
  set (e := (now - call_ns r) / 1000000).
  assert (He : 1000000 * e <= now - call_ns r < 1000000 * e + 1000000) by (unfold e; dlia).
  destruct (Z.ltb_spec e (ms r)); rewrite !wrap64_small by (rewrite ?wrap64_small; lia); lia.
Qed.

Lemma timeout_deadline_witness : fire_at (mk_req 1 10 500) 3000000 < 500 + 10000000 + 1000000.
Proof. apply (timeout_deadline (mk_req 1 10 500) 3000000); simpl; (lia || reflexivity). Defined.

(** A request so long that its deadline does not fit in 64 bits fires too early: for
    2^64 / 10^6 ms (about 585 years) and a bit, the deadline is within a millisecond of
    the call. *)
Theorem huge_timeout_wraps :
  fire_at (mk_req 1 18446744073710 1000) 1000 = 449384 ∧ fire_at (mk_req 1 18446744073710 1000) 1000 < 1000 + 1000000.
Proof. split; reflexivity. Qed.

(** Shutting the manager down closes the channel of every pending timeout, once, and
    leaves the heap empty and the timer gone. *)
Theorem timer_shutdown_closes_all s :
  reachable s →
  ∃ s', goc_timer_manager_shutdown s = ok (tt, s') ∧ heap_len s' = 0 ∧ mgr s' = false ∧ armed s' = None ∧
    closes s' = closes s ++ (chan_of s <$> (pending s).*2) ∧
    (∀ x, x ∈ (pending s).*2 → st s' x = Some 2) ∧ NoDup (pending s).*2 ∧
    ∀ x, x ∈ (pending s).*2 → chan_of s x ∉ closes s.
Proof.
  intros Hok%reachable_ok. destruct (shutdown_ok s Hok) as (s' & Hr & Hl & Hm & Ha & Hcl & Hst).
  exists s'. split_and!; try done.
  - intros x Hx. by rewrite Hst, decide_True.
  - apply pending_NoDup, hk_shape, to_heap, Hok.
  - intros x Hx%(to_pending _ Hok) Hin. destruct (to_closes _ Hok) as (xs & Hxs & _ & H2). rewrite Hxs in Hin.
    apply list_elem_of_fmap in Hin as (y & Heq & Hy). apply H2 in Hy.
    assert (x = y) as ->; [|congruence]. apply (to_chans _ Hok x y (chan_of s x)); unfold chn, chan_of, st in *.
    + by destruct (ctxs s !! x).
    + rewrite Heq. by destruct (ctxs s !! y).
Qed.

Lemma timer_shutdown_closes_all_witness :
  ∃ s', goc_timer_manager_shutdown (after_events two_timeouts) = ok (tt, s') ∧ closes s' = [2; 1]%positive.
Proof.
  destruct (timer_shutdown_closes_all (after_events two_timeouts) two_timeouts_reachable) as (s' & Hr & _ & _ & _ & Hcl & _).
  exists s'. split; [exact Hr|]. rewrite Hcl. reflexivity.
Defined.

End TimerProps.
