(* ===== verification/Wsdq.v ===== *)
(** Work-stealing deque and injector queue of src/wsdq.c.

    The deque is shared by its owner and by thieves.  Every access to a shared
    variable that another thread can change is a step of its own, and the threads
    interleave freely; memory is sequentially consistent.  [steal_lock] lets one thief
    in at a time, so one thief's progress is part of the state.  [buf] and [capacity]
    are written by the owner alone (under [steal_lock]), so the owner reads them in the
    step that needs them.

    An entry is its address, 0 being NULL. *)

From S2P Require Import Prelude.

Module Wsdq.

(** ** Data *)

Record goc_wsdq := mk_dq { bottom : Z; top : Z; buf : list Z; capacity : Z }.

(** Where the owner is: in [wsdq_push_bottom] after loading [bottom], after loading
    [top], about to swap in a larger buffer, about to store the entry, about to publish
    it; in [wsdq_pop_bottom] after the decrement, before the compare-and-swap, before
    the last store. *)
Inductive owner_pc :=
| OIdle
| PushTop (e b : Z)
| PushSize (e b t : Z)
| PushSwap (e b : Z) (new_buf : list Z) (new_cap : Z)
| PushStore (e b : Z)
| PushPublish (e b : Z)
| PopTop (old_b : Z)
| PopCas (t e : Z)
| PopRestore (restore_b : Z).

(** Where the thief that holds [steal_lock] is: nowhere, before loading [top], after
    it, after loading [bottom], before the compare-and-swap. *)
Inductive thief_pc := TIdle | StealTop | StealBottom (t : Z) | StealRead (t : Z) | StealCas (t e : Z).

Record system := mk_sys { dq : goc_wsdq; owner : owner_pc; thief : thief_pc }.

(** What a step decides: nothing yet, an entry pushed, the result of a pop, the result
    of a steal. *)
Inductive label := Tau | LPush (e : Z) | LPop (r : Z) | LSteal (r : Z).

Definition set_bottom (b : Z) (d : goc_wsdq) : goc_wsdq := mk_dq b (top d) (buf d) (capacity d).
Definition set_top (t : Z) (d : goc_wsdq) : goc_wsdq := mk_dq (bottom d) t (buf d) (capacity d).
Definition set_buf (l : list Z) (d : goc_wsdq) : goc_wsdq := mk_dq (bottom d) (top d) l (capacity d).
Definition swap_buf (l : list Z) (cap : Z) (d : goc_wsdq) : goc_wsdq := mk_dq (bottom d) (top d) l cap.

(** ** Operations *)

(** [assert(cap > 0 && (cap & (cap - 1)) == 0)]; the collector's blocks are cleared. *)
Definition wsdq_init (cap : Z) : option goc_wsdq :=
  if (0 <? cap) && (Z.land cap (cap - 1) =? 0)
  then Some (mk_dq 0 0 (replicate (Z.to_nat cap) 0) cap)
  else None.

Definition wsdq_approx_size (d : goc_wsdq) : Z :=
  if top d <=? bottom d then bottom d - top d else 0.

(** [new_buf[i % new_cap] = buf[i % cap]] for [n] indices from [i] on. *)
Fixpoint copy_loop (n : nat) (i : Z) (old : list Z) (cap : Z) (new : list Z) (new_cap : Z) : option (list Z) :=
  match n with
  | O => Some new
  | S n =>
      e ← zget old (i mod cap);
      new ← zset new (i mod new_cap) e;
      copy_loop n (i + 1) old cap new new_cap
  end.

(** A step of [wsdq_push_bottom], after its first load. *)
Definition push_step (pc : owner_pc) (locked : bool) (d : goc_wsdq) : option (label * goc_wsdq * owner_pc) :=
  match pc with
  | PushTop e b => Some (Tau, d, PushSize e b (top d))
  | PushSize e b t =>
      let b := if b <? t then t else b in
      let size := if t <=? b then b - t else 0 in
      if capacity d <=? size then
        let new_cap := capacity d *% 2 in
        new_buf ← copy_loop (Z.to_nat (b - t)) t (buf d) (capacity d) (replicate (Z.to_nat new_cap) 0) new_cap;
        Some (Tau, d, PushSwap e b new_buf new_cap)
      else Some (Tau, d, PushStore e b)
  | PushSwap e b new_buf new_cap =>
      if locked then None
      else Some (Tau, swap_buf new_buf new_cap d, PushStore e b)
  | PushStore e b =>
      l ← zset (buf d) (b mod capacity d) e;
      Some (Tau, set_buf l d, PushPublish e b)
  | PushPublish e b => Some (LPush e, set_bottom (b +% 1) d, OIdle)
  | _ => None
  end.

Definition wsdq_push_bottom (e : Z) (d : goc_wsdq) : owner_pc := PushTop e (bottom d).

(** A step of [wsdq_pop_bottom], after the decrement. *)
Definition pop_step (pc : owner_pc) (d : goc_wsdq) : option (label * goc_wsdq * owner_pc) :=
  match pc with
  | PopTop old_b =>
      let t := top d in
      if old_b <=? t then
        let restore_b := if old_b <? t then t else old_b in
        Some (LPop 0, d, PopRestore restore_b)
      else
        let new_b := old_b -% 1 in
        e ← zget (buf d) (new_b mod capacity d);
        if t <? new_b then Some (LPop e, d, OIdle)
        else Some (Tau, d, PopCas t e)
  | PopCas t e =>
      if top d =? t then Some (LPop e, set_top (t +% 1) d, PopRestore (t +% 1))
      else Some (LPop 0, d, PopRestore (t +% 1))
  | PopRestore v => Some (Tau, set_bottom v d, OIdle)
  | _ => None
  end.

(** The decrement, which wraps when [bottom] is 0. *)
Definition wsdq_pop_bottom (d : goc_wsdq) : goc_wsdq * owner_pc :=
  (set_bottom (bottom d -% 1) d, PopTop (bottom d)).

(** A step of [wsdq_steal_top] under the lock. *)
Definition steal_step (pc : thief_pc) (d : goc_wsdq) : option (label * goc_wsdq * thief_pc) :=
  match pc with
  | TIdle => None
  | StealTop => Some (Tau, d, StealBottom (top d))
  | StealBottom t =>
      if bottom d <=? t then Some (LSteal 0, d, TIdle) else Some (Tau, d, StealRead t)
  | StealRead t =>
      e ← zget (buf d) (t mod capacity d);
      Some (Tau, d, StealCas t e)
  | StealCas t e =>
      if top d =? t then Some (LSteal e, set_top (t +% 1) d, TIdle)
      else Some (LSteal 0, d, TIdle)
  end.

Definition wsdq_steal_top : thief_pc := StealTop.

(** ** Interleaving *)

Definition is_idle (p : thief_pc) : bool := match p with TIdle => true | _ => false end.

(** The owner goes on with its call. *)
Definition owner_step (s : system) : option (label * system) :=
  match owner s with
  | PushTop _ _ | PushSize _ _ _ | PushSwap _ _ _ _ | PushStore _ _ | PushPublish _ _ =>
      '(l, d, pc) ← push_step (owner s) (negb (is_idle (thief s))) (dq s); Some (l, mk_sys d pc (thief s))
  | PopTop _ | PopCas _ _ | PopRestore _ =>
      '(l, d, pc) ← pop_step (owner s) (dq s); Some (l, mk_sys d pc (thief s))
  | OIdle => None
  end.

Definition thief_step (s : system) : option (label * system) :=
  '(l, d, pc) ← steal_step (thief s) (dq s); Some (l, mk_sys d (owner s) pc).

(** What the threads can do: the owner calls push or pop, a thief takes the lock, the
    owner or the thief goes on. *)
Inductive action := APush (e : Z) | APop | ASteal | AOwner | AThief.

Definition act (a : action) (s : system) : option (label * system) :=
  match a with
  | APush e => match owner s with OIdle => Some (Tau, mk_sys (dq s) (wsdq_push_bottom e (dq s)) (thief s)) | _ => None end
  | APop => match owner s with
            | OIdle => let '(d, pc) := wsdq_pop_bottom (dq s) in Some (Tau, mk_sys d pc (thief s))
            | _ => None
            end
  | ASteal => match thief s with TIdle => Some (Tau, mk_sys (dq s) (owner s) wsdq_steal_top) | _ => None end
  | AOwner => owner_step s
  | AThief => thief_step s
  end.

(** ** The injector queue

    Each call holds the lock from its first access to its last. *)

Record goc_injector_node := mk_node { entry : Z; next : option positive }.
Record goc_injector := mk_inj { head : option positive; tail : option positive; nodes : gmap positive goc_injector_node }.

Definition injector_init : goc_injector := mk_inj None None ∅.

(** [malloc] returns a block not in use. *)
Definition injector_push (e : Z) : prog goc_injector () := λ i,
  let n := fresh (dom (nodes i)) in
  let h := <[n := mk_node e None]> (nodes i) in
  match tail i with
  | Some t =>
      match h !! t with
      | Some nt => ok (tt, mk_inj (head i) (Some n) (<[t := mk_node (entry nt) (Some n)]> h))
      | None => ub
      end
  | None => ok (tt, mk_inj (Some n) (Some n) h)
  end.

Definition injector_pop : prog goc_injector Z := λ i,
  match head i with
  | None => ok (0, i)
  | Some n =>
      match nodes i !! n with
      | Some nd =>
          let tl := match next nd with None => None | Some _ => tail i end in
          ok (entry nd, mk_inj (next nd) tl (delete n (nodes i)))
      | None => ub
      end
  end.

Fixpoint destroy_loop (fuel : nat) (n : option positive) : prog goc_injector () := λ i,
  match n with
  | None => ok (tt, i)
  | Some n =>
      match fuel with
      | O => hang
      | S fuel =>
          match nodes i !! n with
          | Some nd => destroy_loop fuel (next nd) (mk_inj (head i) (tail i) (delete n (nodes i)))
          | None => ub
          end
      end
  end.

Definition injector_destroy : prog goc_injector () := λ i,
  match destroy_loop (size (nodes i)) (head i) i with
  | ok (_, i') => ok (tt, mk_inj None None (nodes i'))
  | abort m => abort m
  | ub => ub
  | hang => hang
  end.

End Wsdq.
