(* ===== verification/WsdqProps.v ===== *)
(** Properties of the work-stealing deque and of the injector queue: under every
    interleaving of the owner with thieves the deque behaves as a double-ended queue
    and delivers every entry once, provided the owner does not pop a deque that was
    never pushed to; when it does, an entry can be lost.  The injector is a FIFO queue
    that frees what it allocates. *)

From S2P Require Import Prelude Wsdq.
Import Wsdq.

Module WsdqProps.

(** ** The abstract deque *)

(** The entries from the oldest, which thieves take, to the newest, which the owner
    takes.  A steal can come back empty-handed when it loses a race. *)
Inductive deque_step : list Z → label → list Z → Prop :=
| d_tau l : deque_step l Tau l
| d_push l e : deque_step l (LPush e) (l ++ [e])
| d_pop l e : deque_step (l ++ [e]) (LPop e) l
| d_pop_empty : deque_step [] (LPop 0) []
| d_steal e l : deque_step (e :: l) (LSteal e) l
| d_steal_none l : deque_step l (LSteal 0) l.

(** ** Abstraction *)

(** The end of the owner's side: while a pop is undecided the entry it goes for still
    counts. *)
Definition hi (s : system) : Z :=
  match owner s with
  | PopTop old_b => old_b
  | PopCas t _ => t + 1
  | PopRestore v => v
  | _ => bottom (dq s)
  end.

Definition slot (d : goc_wsdq) (i : Z) : Z := default 0 (zget (buf d) (i mod capacity d)).

Definition range (d : goc_wsdq) (lo n : Z) : list Z := (λ k, slot d (lo + Z.of_nat k)) <$> seq 0 (Z.to_nat n).

Definition contents (s : system) : list Z := range (dq s) (top (dq s)) (hi s - top (dq s)).

(** Indices stay far from the end of the 64-bit range. *)
Definition LIMIT : Z := 2 ^ 62.

Record dq_ok (d : goc_wsdq) : Prop := {
  dk_cap : 0 < capacity d <= 2 * LIMIT;
  dk_len : Z.of_nat (length (buf d)) = capacity d
}.

Definition owner_ok (d : goc_wsdq) (pc : owner_pc) : Prop :=
  match pc with
  | OIdle => True
  | PushTop e b => b = bottom d
  | PushSize e b t => b = bottom d ∧ 0 <= t <= top d ∧ b - t <= capacity d
  | PushSwap e b nb nc => b = bottom d ∧ capacity d < nc <= 2 * LIMIT ∧ Z.of_nat (length nb) = nc ∧
      ∀ i, top d <= i < b → zget nb (i mod nc) = zget (buf d) (i mod capacity d)
  | PushStore e b => b = bottom d ∧ b - top d < capacity d
  | PushPublish e b => b = bottom d ∧ b - top d < capacity d ∧ slot d b = e
  | PopTop old_b => bottom d = old_b - 1 ∧ 0 < old_b
  | PopCas t e => bottom d = t ∧ t <= top d <= t + 1 ∧ (top d = t → slot d t = e)
  | PopRestore v => bottom d = v - 1 ∧ top d = v
  end.

(** A thief that can still win its compare-and-swap goes for an entry that is there. *)
Definition thief_ok (d : goc_wsdq) (h : Z) (pc : thief_pc) : Prop :=
  match pc with
  | TIdle | StealTop => True
  | StealBottom t => 0 <= t <= top d
  | StealRead t => 0 <= t <= top d ∧ (top d = t → t < h)
  | StealCas t e => 0 <= t <= top d ∧ (top d = t → t < h ∧ slot d t = e)
  end.

Definition is_push (pc : owner_pc) : bool :=
  match pc with PushTop _ _ | PushSize _ _ _ | PushSwap _ _ _ _ | PushStore _ _ | PushPublish _ _ => true | _ => false end.

Record sys_ok (s : system) : Prop := {
  so_dq : dq_ok (dq s);
  so_lo : 0 <= top (dq s) <= hi s;
  so_bound : hi s <= LIMIT;
  so_size : hi s - top (dq s) <= capacity (dq s);
  so_owner : owner_ok (dq s) (owner s);
  so_limit : is_push (owner s) = true → bottom (dq s) < LIMIT;
  so_thief : thief_ok (dq s) (hi s) (thief s)
}.

(** ** Slots *)

Lemma slot_get d i : dq_ok d → zget (buf d) (i mod capacity d) = Some (slot d i).
Proof.
  intros [Hc Hl]. unfold slot. destruct (zget_is_Some (buf d) (i mod capacity d)) as [x ->]; [|done].
  rewrite Hl. apply Z.mod_pos_bound. lia.
Qed.

(** Indices less than a capacity apart use different slots. *)
Lemma mod_ne i j cap : 0 < j - i < cap → i mod cap ≠ j mod cap.
Proof.
  intros H Heq. assert (E : (j - i) mod cap = 0) by (rewrite Zminus_mod, Heq, Z.sub_diag; apply Z.mod_0_l; lia).
  rewrite Z.mod_small in E by lia. lia.
Qed.

Lemma slot_store d l b e i :
  dq_ok d → zset (buf d) (b mod capacity d) e = Some l →
  slot (set_buf l d) i = if decide (i mod capacity d = b mod capacity d) then e else slot d i.
Proof.
  intros [Hc Hl] [Hb ->]%zset_Some. unfold slot, zget, in_range. simpl. rewrite length_insert, Hl.
  assert (0 <= i mod capacity d < capacity d) by (apply Z.mod_pos_bound; lia).
  assert (0 <= b mod capacity d < capacity d) by (apply Z.mod_pos_bound; lia).
  destruct (Z.leb_spec 0 (i mod capacity d)); [|lia]. destruct (Z.ltb_spec (i mod capacity d) (capacity d)); [|lia].
  simpl. case_decide as Heq.
  - rewrite Heq. rewrite list_lookup_insert_eq; [done|lia].
  - rewrite list_lookup_insert_ne; [done|lia].
Qed.

Lemma range_ext d d' lo n :
  (∀ i, lo <= i < lo + n → slot d' i = slot d i) → range d' lo n = range d lo n.
Proof.
  intros H. unfold range. apply list_fmap_ext. intros k j Hj. apply lookup_seq in Hj as [-> Hk]. apply H. lia.
Qed.

Lemma range_snoc d lo n : 0 <= n → range d lo (n + 1) = range d lo n ++ [slot d (lo + n)].
Proof.
  intros Hn. unfold range. replace (Z.to_nat (n + 1)) with (S (Z.to_nat n)) by lia.
  rewrite seq_S, fmap_app. simpl. do 3 f_equal. lia.
Qed.

Lemma range_cons d lo n : 0 < n → range d lo n = slot d lo :: range d (lo + 1) (n - 1).
Proof.
  intros Hn. unfold range. replace (Z.to_nat n) with (S (Z.to_nat (n - 1))) by lia.
  rewrite <- cons_seq. rewrite fmap_cons. f_equal; [f_equal; lia|].
  rewrite <- fmap_S_seq, <- list_fmap_compose. apply list_fmap_ext. intros k j _. simpl. f_equal. lia.
Qed.

Lemma range_nil d lo n : n <= 0 → range d lo n = [].
Proof. intros Hn. unfold range. by replace (Z.to_nat n) with 0%nat by lia. Qed.

(** ** Growing *)

Lemma copy_loop_ok d nc : dq_ok d → capacity d < nc → ∀ n i new,
  Z.of_nat (length new) = nc → Z.of_nat n <= capacity d →
  ∃ new', copy_loop n i (buf d) (capacity d) new nc = Some new' ∧ Z.of_nat (length new') = nc ∧
    (∀ k, i <= k < i + Z.of_nat n → zget new' (k mod nc) = Some (slot d k)) ∧
    (∀ j, (∀ k, i <= k < i + Z.of_nat n → j ≠ k mod nc) → zget new' j = zget new j).
Proof.
  intros Hd Hnc. pose proof (dk_cap _ Hd) as Hc. induction n as [|n IH]; intros i new Hlen Hn.
  { exists new. split_and!; try done. intros k Hk. lia. }
  cbn [copy_loop]. rewrite slot_get by done. cbn [mbind option_bind].
  assert (Hi : 0 <= i mod nc < nc) by (apply Z.mod_pos_bound; lia).
  rewrite zset_in by lia. cbn [mbind option_bind].
  set (new1 := <[Z.to_nat (i mod nc) := slot d i]> new).
  assert (Hlen1 : Z.of_nat (length new1) = nc) by (unfold new1; by rewrite length_insert).
  destruct (IH (i + 1) new1 Hlen1) as (new' & Hr & Hlen' & Hin & Hout); [lia|].
  exists new'. split_and!; [done|done|..].
  - intros k Hk. destruct (decide (k = i)) as [->|Hne]; [|apply Hin; lia]. rewrite Hout.
    + apply zget_Some. split; [lia|]. unfold new1. apply list_lookup_insert_eq. lia.
    + intros k' Hk'. apply mod_ne. lia.
  - intros j Hj. rewrite Hout by (intros k Hk; apply Hj; lia). unfold new1, zget, in_range. rewrite length_insert.
    destruct ((0 <=? j) && (j <? Z.of_nat (length new))) eqn:E; [|done]. apply andb_true_iff in E as [E1%Z.leb_le _].
    apply list_lookup_insert_ne. specialize (Hj i). lia.
Qed.

(** ** Steps *)

(** The calls made: entries are not NULL, indices stay below the limit, and the owner
    does not pop a deque whose [bottom] is 0. *)
Definition can_act (s : system) (a : action) : Prop :=
  match a with
  | APush e => e ≠ 0 ∧ bottom (dq s) < LIMIT
  | APop => bottom (dq s) ≠ 0
  | _ => True
  end.

(** A step that keeps [top], [hi] and the slots in use keeps what a thief relies on. *)
Lemma thief_kept d d' h h' pc :
  thief_ok d h pc → top d' = top d → h <= h' → (∀ i, top d <= i < h → slot d' i = slot d i) →
  thief_ok d' h' pc.
Proof.
  intros Hp Ht Hh Hs. destruct pc as [| |t|t|t e]; simpl in *; rewrite ?Ht; try done.
  - split; [lia|]. intros E. destruct Hp as [_ H]. specialize (H E). lia.
  - destruct Hp as [Hb H]. split; [done|]. intros E. destruct (H E) as [Hlt <-]. split; [lia|]. apply Hs. lia.
Qed.

(** Once [top] moved on, the thief that read it before cannot win. *)
Lemma thief_passed d d' h h' pc :
  thief_ok d h pc → top d < top d' → thief_ok d' h' pc.
Proof. intros Hp Ht. destruct pc as [| |t|t|t e]; simpl in *; try done; [lia|split; lia|split; lia]. Qed.

Ltac split_ok := split; unfold hi, LIMIT in *; simpl in *; try done; try lia.

Lemma push_step_ok s l d' pc' :
  sys_ok s → push_step (owner s) (negb (is_idle (thief s))) (dq s) = Some (l, d', pc') →
  is_push (owner s) = true →
  sys_ok (mk_sys d' pc' (thief s)) ∧ deque_step (contents s) l (contents (mk_sys d' pc' (thief s))).
Proof.
  intros [Hd Hlo Hb Hsz Ho Hlm Ht] Hstep Hpush. specialize (Hlm Hpush). destruct s as [d pc th]. simpl in *.
  pose proof Hd as [Hcap Hlen]. unfold LIMIT in *.
  destruct pc as [|e b|e b t|e b nb nc|e b|e b|ob|t e|v]; simpl in *; try done; unfold contents, hi in *; simpl in *.
  - injection Hstep as <- <- <-. subst b. split; [|constructor]. split_ok.
  - destruct Ho as (-> & Ht0 & Hcap').
    replace (if bottom d <? t then t else bottom d) with (bottom d) in Hstep by (destruct (Z.ltb_spec (bottom d) t); lia).
    replace (if t <=? bottom d then bottom d - t else 0) with (bottom d - t) in Hstep by (destruct (Z.leb_spec t (bottom d)); lia).
    destruct (Z.leb_spec (capacity d) (bottom d - t)) as [Hfull|Hroom].
    + rewrite wrap64_small in Hstep by word_bounds.
      destruct (copy_loop_ok d (capacity d * 2) Hd ltac:(lia) (Z.to_nat (bottom d - t)) t
                  (replicate (Z.to_nat (capacity d * 2)) 0)) as (nb & Hr & Hl & Hin & _);
        [rewrite length_replicate; lia|lia|].
      rewrite Hr in Hstep. simpl in Hstep. injection Hstep as <- <- <-. split; [|constructor]. split_ok.
      unfold LIMIT. split_and!; [done|lia|lia|done|]. intros i Hi. rewrite Hin by lia. by rewrite slot_get.
    + injection Hstep as <- <- <-. split; [|constructor]. split_ok.
  - destruct Ho as (-> & Hnc & Hl & Hcopy). destruct (is_idle th) eqn:Hth; [|done]. simpl in Hstep.
    injection Hstep as <- <- <-. destruct th; try done.
    assert (Hd' : dq_ok (swap_buf nb nc d)) by (split; unfold LIMIT in *; simpl; lia).
    assert (Hs : ∀ i, top d <= i < bottom d → slot (swap_buf nb nc d) i = slot d i).
    { intros i Hi. unfold slot. simpl. by rewrite Hcopy. }
    split.
    + split_ok.
    + unfold contents, hi. simpl. rewrite (range_ext d (swap_buf nb nc d)) by (intros i Hi; apply Hs; lia). constructor.
  - destruct Ho as (-> & Hroom).
    assert (Hm : 0 <= bottom d mod capacity d < capacity d) by (apply Z.mod_pos_bound; lia).
    destruct (zset (buf d) (bottom d mod capacity d) e) as [nl|] eqn:Hset; [|done]. simpl in Hstep.
    injection Hstep as <- <- <-. pose proof (slot_store d nl (bottom d) e) as Hs.
    assert (Hs' : ∀ i, top d <= i < bottom d → slot (set_buf nl d) i = slot d i).
    { intros i Hi. rewrite Hs by done. rewrite decide_False; [done|]. apply mod_ne. lia. }
    apply zset_Some in Hset as Hset'. destruct Hset' as [_ Hnl].
    split.
    + split_ok.
      * split; simpl; [unfold LIMIT; lia|]. by rewrite Hnl, length_insert.
      * split_and!; [done|done|]. rewrite Hs by done. by rewrite decide_True.
      * eapply thief_kept; [exact Ht|done|unfold hi; simpl; lia|]. unfold hi. simpl. exact Hs'.
    + unfold contents, hi. simpl. rewrite (range_ext d (set_buf nl d)) by (intros i Hi; apply Hs'; lia). constructor.
  - destruct Ho as (-> & Hroom & He). injection Hstep as <- <- <-. rewrite wrap64_small by word_bounds. split.
    + split_ok. eapply thief_kept; [exact Ht|done|simpl; lia|done].
    + unfold contents, hi. simpl. replace (bottom d + 1 - top d) with (bottom d - top d + 1) by lia.
      rewrite range_snoc by lia. change (slot _ (top d + (bottom d - top d))) with (slot d (top d + (bottom d - top d))).
      replace (top d + (bottom d - top d)) with (bottom d) by lia. rewrite He. constructor.
Qed.

Lemma pop_step_ok s l d' pc' :
  sys_ok s → pop_step (owner s) (dq s) = Some (l, d', pc') →
  sys_ok (mk_sys d' pc' (thief s)) ∧ deque_step (contents s) l (contents (mk_sys d' pc' (thief s))).
Proof.
  intros [Hd Hlo Hb Hsz Ho Hlm Ht] Hstep. destruct s as [d pc th]. simpl in *.
  pose proof Hd as [Hcap Hlen]. unfold LIMIT in *.
  destruct pc as [|e b|e b t|e b nb nc|e b|e b|ob|t e|v]; simpl in *; try done; unfold contents, hi in *; simpl in *.
  - destruct Ho as [Hbot Hpos]. destruct (Z.leb_spec ob (top d)) as [Hle|Hgt].
    + injection Hstep as <- <- <-.
      replace (if ob <? top d then top d else ob) with ob by (destruct (Z.ltb_spec ob (top d)); lia).
      split.
      * split_ok.
      * simpl. rewrite range_nil by lia. constructor.
    + rewrite wrap64_small in Hstep by word_bounds. rewrite slot_get in Hstep by done. simpl in Hstep.
      destruct (Z.ltb_spec (top d) (ob - 1)) as [Hmore|Hlast].
      * injection Hstep as <- <- <-. rewrite Hbot. split.
        -- split_ok.
           destruct th as [| |t|t|t e]; simpl in *; try done.
           ++ split; [lia|]. intros E. lia.
           ++ split; [lia|]. intros E. destruct Ht as [_ Ht]. destruct (Ht E). split; [lia|done].
        -- replace (ob - top d) with (ob - 1 - top d + 1) by lia. rewrite range_snoc by lia.
           replace (top d + (ob - 1 - top d)) with (ob - 1) by lia. constructor.
      * injection Hstep as <- <- <-. assert (top d = ob - 1) as Htop by lia. split.
        -- split_ok.
           ++ split_and!; [lia|lia|lia|]. intros _. f_equal. lia.
           ++ by replace (top d + 1) with ob by lia.
        -- replace (top d + 1) with ob by lia. constructor.
  - destruct Ho as (Hbot & Htop & He). destruct (Z.eqb_spec (top d) t) as [Heq|Hne]; injection Hstep as <- <- <-.
    + rewrite wrap64_small by word_bounds. split.
      * split_ok. eapply thief_passed; [exact Ht|simpl; lia].
      * replace (t + 1 - top d) with (0 + 1) by lia. rewrite range_snoc by lia.
        rewrite range_nil by lia. rewrite range_nil by (simpl; lia). rewrite Z.add_0_r, Heq, He by done.
        apply (d_pop [] e).
    + assert (top d = t + 1) by lia. rewrite wrap64_small by word_bounds. split.
      * split_ok.
      * rewrite range_nil by lia. constructor.
  - destruct Ho as (Hbot & Htop). injection Hstep as <- <- <-. split.
    + split_ok.
    + constructor.
Qed.

Lemma steal_step_ok s l d' pc' :
  sys_ok s → steal_step (thief s) (dq s) = Some (l, d', pc') →
  sys_ok (mk_sys d' (owner s) pc') ∧ deque_step (contents s) l (contents (mk_sys d' (owner s) pc')).
Proof.
  intros [Hd Hlo Hb Hsz Ho Hlm Ht] Hstep. destruct s as [d pc th]. simpl in *.
  assert (Hbot : bottom d <= hi (mk_sys d pc th)) by (destruct pc; unfold hi; simpl in *; lia).
  destruct th as [| |t|t|t e]; simpl in *; try done.
  - injection Hstep as <- <- <-. split; [|constructor]. split; simpl; try done. lia.
  - destruct (Z.leb_spec (bottom d) t); injection Hstep as <- <- <-; (split; [|constructor]); split; simpl; try done.
    split; [done|]. unfold hi in *. simpl in *. lia.
  - rewrite slot_get in Hstep by done. simpl in Hstep. injection Hstep as <- <- <-. split; [|constructor].
    split; simpl; try done. split; [apply Ht|]. intros E. split; [by apply Ht|done].
  - destruct (Z.eqb_spec (top d) t) as [Heq|Hne]; injection Hstep as <- <- <-.
    2: { split; [|constructor]. split; done. }
    destruct Ht as [Hb0 Ht]. destruct (Ht Heq) as [Hlt He]. pose proof Hd as [Hcap Hlen].
    assert (Hh : ∀ pc', hi (mk_sys (set_top (t +% 1) d) pc' TIdle) = hi (mk_sys d pc' (StealCas t e))) by (by intros []).
    rewrite wrap64_small in * by (unfold LIMIT in *; word_bounds). split.
    + split; simpl; rewrite ?Hh; try done; try lia.
      destruct pc; simpl in *; try done; unfold hi in *; simpl in *; try lia.
      * split_and!; try apply Ho. intros i Hi. apply Ho. lia.
      * split_and!; [apply Ho|lia|apply Ho].
    + unfold contents. rewrite Hh. simpl. rewrite Heq. rewrite range_cons by lia. rewrite He.
      replace (hi (mk_sys d pc (StealCas t e)) - t - 1) with (hi (mk_sys d pc (StealCas t e)) - (t + 1)) by lia.
      constructor.
Qed.

(** The decisive step of the owner or a thief is the step of the abstract deque. *)
Lemma act_ok s a l s' :
  sys_ok s → can_act s a → act a s = Some (l, s') →
  sys_ok s' ∧ deque_step (contents s) l (contents s').
Proof.
  intros Hs Hcan Hact. destruct s as [d pc th]. destruct a as [e| | | |]; simpl in *.
  - destruct pc; try done. injection Hact as <- <-. split; [|constructor]. destruct Hs. split; try done.
    simpl. intros _. apply Hcan.
  - destruct pc; try done. injection Hact as <- <-. destruct Hs as [Hd Hlo Hb Hsz Ho Hlm Ht]. unfold hi, contents in *. simpl in *.
    rewrite wrap64_small by (unfold LIMIT in *; word_bounds). split; [|unfold hi; simpl; constructor].
    split; unfold hi; simpl; try done; try lia. by destruct Hd.
  - destruct th; try done. injection Hact as <- <-. split; [|constructor]. destruct Hs. by split.
  - unfold owner_step in Hact. simpl in Hact.
    destruct pc; try done;
      first [destruct (push_step _ _ d) as [[[l0 d'] pc']|] eqn:E | destruct (pop_step _ d) as [[[l0 d'] pc']|] eqn:E];
      try done; simpl in Hact; injection Hact as <- <-;
      first [by apply (push_step_ok (mk_sys d _ th)) | by apply (pop_step_ok (mk_sys d _ th))].
  - unfold thief_step in Hact. simpl in Hact. destruct (steal_step th d) as [[[l0 d'] th']|] eqn:E; [|done].
    simpl in Hact. injection Hact as <- <-. by apply (steal_step_ok (mk_sys d pc th)).
Qed.

(** ** Histories *)

Definition start (d : goc_wsdq) : system := mk_sys d OIdle TIdle.

(** Interleavings from a fresh deque, with what their steps decided. *)
Inductive runs (cap : Z) : list label → system → Prop :=
| runs_init d : wsdq_init cap = Some d → cap <= 2 * LIMIT → runs cap [] (start d)
| runs_act h s a l s' : runs cap h s → can_act s a → act a s = Some (l, s') → runs cap (h ++ [l]) s'.

Inductive deque_runs : list label → list Z → Prop :=
| dr_nil : deque_runs [] []
| dr_step h l lab l' : deque_runs h l → deque_step l lab l' → deque_runs (h ++ [lab]) l'.

Lemma runs_ok cap h s : runs cap h s → sys_ok s ∧ deque_runs h (contents s).
Proof.
  induction 1 as [d Hi Hc|h s a l s' _ [IH1 IH2] Hcan Hact].
  - unfold wsdq_init in Hi. destruct (Z.ltb_spec 0 cap) as [Hpos|]; [|done]. simpl in Hi.
    destruct (Z.land cap (cap - 1) =? 0); [|done]. injection Hi as <-. split; [|apply dr_nil].
    split; unfold hi, LIMIT in *; simpl; try done; try lia. split; unfold LIMIT; simpl; [lia|].
    rewrite length_replicate. lia.
  - destruct (act_ok s a l s' IH1 Hcan Hact). split; [done|by eapply dr_step].
Qed.

Definition pushed (h : list label) : list Z :=
  omap (λ l, match l with LPush e => Some e | _ => None end) h.
Definition delivered (h : list label) : list Z :=
  omap (λ l, match l with LPop r | LSteal r => if r =? 0 then None else Some r | _ => None end) h.

(** No entry of the abstract deque is NULL when none was pushed. *)
Lemma deque_runs_conserve h l :
  deque_runs h l → Forall (λ e, e ≠ 0) (pushed h) → pushed h ≡ₚ delivered h ++ l ∧ Forall (λ e, e ≠ 0) l.
Proof.
  induction 1 as [|h l lab l' _ IH Hst]; intros Hnz; [split; done|].
  unfold pushed, delivered in *. rewrite omap_app in Hnz |- *. rewrite omap_app. apply Forall_app in Hnz as [Hnz Hlast].
  destruct (IH Hnz) as [Hp Hl]. destruct Hst as [l0|l0 e|l0 e| |e l0|l0]; simpl in *; rewrite ?app_nil_r; try done.
  - split; [rewrite Hp; by rewrite <- (assoc_L (++))|]. by apply Forall_app.
  - apply Forall_app in Hl as [Hl He]. split; [|done]. apply Forall_cons in He as [He _].
    destruct (Z.eqb_spec e 0) as [E|_]; [by destruct (He E)|]. rewrite Hp. simpl. rewrite <- (assoc_L (++)). f_equiv. by rewrite (comm (++)).
  - by rewrite app_nil_r in Hp.
  - apply Forall_cons in Hl as [He Hl]. split; [|done]. destruct (Z.eqb_spec e 0) as [E|_]; [by destruct (He E)|]. rewrite Hp. by rewrite <- (assoc_L (++)).
Qed.

(** What the owner stores is what was asked for. *)
Definition pushes_entry (pc : owner_pc) : Prop :=
  match pc with
  | PushTop e _ | PushSize e _ _ | PushSwap e _ _ _ | PushStore e _ | PushPublish e _ => e ≠ 0
  | _ => True
  end.

Lemma runs_pushed_nonnull cap h s : runs cap h s → Forall (λ e, e ≠ 0) (pushed h) ∧ pushes_entry (owner s).
Proof.
  induction 1 as [d Hi Hc|h s a l s' _ [IH1 IH2] Hcan Hact]; [split; done|]. unfold pushed in *. rewrite omap_app.
  destruct s as [d pc th]. destruct a as [e| | | |]; simpl in *.
  - destruct pc; try done. injection Hact as <- <-. simpl. rewrite app_nil_r. split; [done|apply Hcan].
  - destruct pc; try done. injection Hact as <- <-. simpl. by rewrite app_nil_r.
  - destruct th; try done. injection Hact as <- <-. simpl. by rewrite app_nil_r.
  - unfold owner_step in Hact. simpl in Hact.
    destruct pc as [|e b|e b t|e b nb nc|e b|e b|ob|t e|v]; try done; simpl in *.
    + injection Hact as <- <-. simpl. by rewrite app_nil_r.
    + case_match; [destruct (copy_loop _ _ _ _ _ _); [|done]|]; simpl in Hact; injection Hact as <- <-; simpl; by rewrite app_nil_r.
    + destruct (negb _); [done|]. injection Hact as <- <-. simpl. by rewrite app_nil_r.
    + destruct (zset _ _ _); [|done]. simpl in Hact. injection Hact as <- <-. simpl. by rewrite app_nil_r.
    + injection Hact as <- <-. simpl. split; [|done]. apply Forall_app. split; [done|by constructor].
    + case_match; [injection Hact as <- <-; simpl; by rewrite app_nil_r|].
      destruct (zget _ _); [|done]. simpl in Hact. case_match; injection Hact as <- <-; simpl; by rewrite app_nil_r.
    + case_match; injection Hact as <- <-; simpl; by rewrite app_nil_r.
    + injection Hact as <- <-. simpl. by rewrite app_nil_r.
  - unfold thief_step in Hact. simpl in Hact. destruct th as [| |t|t|t e]; try done; simpl in *.
    + injection Hact as <- <-. simpl. by rewrite app_nil_r.
    + case_match; injection Hact as <- <-; simpl; by rewrite app_nil_r.
    + destruct (zget _ _); [|done]. simpl in Hact. injection Hact as <- <-. simpl. by rewrite app_nil_r.
    + case_match; injection Hact as <- <-; simpl; by rewrite app_nil_r.
Qed.

(** ** Progress *)

(** The steps a call still takes, at most. *)
Definition owner_left (pc : owner_pc) : nat :=
  match pc with
  | OIdle => 0 | PushTop _ _ => 5 | PushSize _ _ _ => 4 | PushSwap _ _ _ _ => 3 | PushStore _ _ => 2
  | PushPublish _ _ => 1 | PopTop _ => 3 | PopCas _ _ => 2 | PopRestore _ => 1
  end.
Definition thief_left (pc : thief_pc) : nat :=
  match pc with TIdle => 0 | StealTop => 4 | StealBottom _ => 3 | StealRead _ => 2 | StealCas _ _ => 1 end.

Lemma owner_progress s :
  sys_ok s → owner s ≠ OIdle →
  (∃ l s', act AOwner s = Some (l, s') ∧ (owner_left (owner s') < owner_left (owner s))%nat) ∨
  (∃ e b nb nc, owner s = PushSwap e b nb nc ∧ thief s ≠ TIdle).
Proof.
  intros [Hd Hlo Hb Hsz Ho Hlm Ht] Hact. destruct s as [d pc th]. pose proof Hd as [Hcap Hlen]. simpl in *.
  unfold owner_step. destruct pc as [|e b|e b t|e b nb nc|e b|e b|ob|t e|v]; try done; simpl in *.
  - left. eexists _, _. split; [done|]. simpl. lia.
  - destruct Ho as (-> & Ht0 & Hc'). unfold hi in *. simpl in *. specialize (Hlm eq_refl). unfold LIMIT in *.
    replace (if bottom d <? t then t else bottom d) with (bottom d) by (destruct (Z.ltb_spec (bottom d) t); lia).
    replace (if t <=? bottom d then bottom d - t else 0) with (bottom d - t) by (destruct (Z.leb_spec t (bottom d)); lia).
    left. destruct (Z.leb_spec (capacity d) (bottom d - t)).
    + rewrite wrap64_small by word_bounds.
      destruct (copy_loop_ok d (capacity d * 2) Hd ltac:(lia) (Z.to_nat (bottom d - t)) t
                  (replicate (Z.to_nat (capacity d * 2)) 0)) as (nb & Hr & _); [rewrite length_replicate; lia|lia|].
      rewrite Hr. simpl. eexists _, _. split; [done|]. simpl. lia.
    + eexists _, _. split; [done|]. simpl. lia.
  - destruct th; simpl; try (right; by eexists _, _, _, _). left. eexists _, _. split; [done|]. simpl. lia.
  - left. rewrite zset_in by (rewrite Hlen; apply Z.mod_pos_bound; lia). simpl. eexists _, _. split; [done|]. simpl. lia.
  - left. eexists _, _. split; [done|]. simpl. lia.
  - left. case_match; [eexists _, _; split; [done|]; simpl; lia|]. rewrite slot_get by done. simpl.
    case_match; eexists _, _; (split; [done|]); simpl; lia.
  - left. case_match; eexists _, _; (split; [done|]); simpl; lia.
  - left. eexists _, _. split; [done|]. simpl. lia.
Qed.

Lemma thief_progress s :
  sys_ok s → thief s ≠ TIdle →
  ∃ l s', act AThief s = Some (l, s') ∧ (thief_left (thief s') < thief_left (thief s))%nat.
Proof.
  intros [Hd _ _ _ _ _ _] Hact. destruct s as [d pc th]. simpl in *. unfold thief_step.
  destruct th as [| |t|t|t e]; try done; simpl in *.
  - eexists _, _. split; [done|]. simpl. lia.
  - case_match; eexists _, _; (split; [done|]); simpl; lia.
  - rewrite slot_get by done. simpl. eexists _, _. split; [done|]. simpl. lia.
  - case_match; eexists _, _; (split; [done|]); simpl; lia.
Qed.

(** ** The injector *)

(** The nodes [ns] hold the entries [es] and are linked in order. *)
Fixpoint linked (m : gmap positive goc_injector_node) (ns : list positive) (es : list Z) : Prop :=
  match ns, es with
  | [], [] => True
  | n :: ns, e :: es => m !! n = Some (mk_node e (list.head ns)) ∧ linked m ns es
  | _, _ => False
  end.

(** The injector holds the queue [es]; its nodes are all that is allocated. *)
Definition holds (i : goc_injector) (es : list Z) : Prop :=
  ∃ ns, NoDup ns ∧ linked (nodes i) ns es ∧ head i = list.head ns ∧ tail i = last ns ∧
    ∀ n, n ∈ dom (nodes i) ↔ n ∈ ns.

Lemma linked_frame m m' ns es : (∀ n, n ∈ ns → m' !! n = m !! n) → linked m ns es → linked m' ns es.
Proof.
  revert es. induction ns as [|n ns IH]; intros [|e es] Hm; simpl; try done. intros [Hn Hl].
  split; [rewrite Hm; [done|by left]|]. apply IH; [|done]. intros k Hk. apply Hm. by right.
Qed.

Lemma head_app_some {A} (l : list A) x y : list.head (l ++ [x; y]) = list.head (l ++ [x]).
Proof. by destruct l. Qed.

(** Linking a node behind the last. *)
Lemma linked_snoc m ns t e es n x :
  linked m (ns ++ [t]) (es ++ [e]) → n ∉ ns ++ [t] → NoDup (ns ++ [t]) →
  linked (<[t := mk_node e (Some n)]> (<[n := mk_node x None]> m)) (ns ++ [t; n]) (es ++ [e; x]).
Proof.
  revert es. induction ns as [|k ns IH]; intros es Hl Hn Hnd; simpl in *.
  - destruct es as [|e' es]; simpl in *; [|by destruct es; destruct Hl].
    split; [by rewrite lookup_insert_eq|]. rewrite not_elem_of_cons in Hn.
    split; [|done]. rewrite lookup_insert_ne by (intros ->; tauto). by rewrite lookup_insert_eq.
  - destruct es as [|e' es]; simpl in *; [by destruct Hl as [_ Hl]; destruct ns|]. destruct Hl as [Hk Hl].
    apply not_elem_of_cons in Hn as [Hnk Hn]. apply NoDup_cons in Hnd as [Hkn Hnd]. split; [|by apply IH].
    rewrite !lookup_insert_ne; [by rewrite head_app_some|done|].
    intros ->. apply Hkn, elem_of_app. right. by left.
Qed.

Lemma linked_length m ns es : linked m ns es → length ns = length es.
Proof. revert es. induction ns as [|n ns IH]; intros [|e es]; simpl; try done. intros [_ H]. f_equal. by apply IH. Qed.

Lemma injector_push_ok i es e : holds i es → ∃ i', injector_push e i = ok (tt, i') ∧ holds i' (es ++ [e]).
Proof.
  intros (ns & Hnd & Hl & Hh & Ht & Hdom). unfold injector_push. set (n := fresh (dom (nodes i))).
  assert (Hn : n ∉ ns) by (rewrite <- Hdom; apply is_fresh).
  destruct ns as [|t ns _] using rev_ind.
  - rewrite Ht. simpl. destruct es; [|done]. eexists. split; [done|]. exists [n]. simpl. split_and!; try done.
    + apply NoDup_singleton.
    + by rewrite lookup_insert_eq.
    + intros k. rewrite dom_insert, elem_of_union, elem_of_singleton, list_elem_of_singleton, Hdom. split; [|by left].
      intros [|Hk]; [done|]. by apply not_elem_of_nil in Hk.
  - rewrite last_snoc in Ht. rewrite Ht.
    assert (∃ es0 et, es = es0 ++ [et]) as (es0 & et & ->).
    { apply linked_length in Hl. destruct es as [|et es0 _] using rev_ind; [rewrite length_app in Hl; simpl in Hl; lia|eauto]. }
    assert (Hte : nodes i !! t = Some (mk_node et None)).
    { clear -Hl. revert es0 Hl. induction ns as [|k ns IH]; intros es0 Hl; simpl in *.
      - destruct es0 as [|? es0]; simpl in *; [apply Hl|by destruct es0; destruct Hl].
      - destruct es0 as [|? es0]; simpl in *; [by destruct Hl as [_ Hl]; destruct ns|]. apply (IH es0), Hl. }
    assert (Hnt : n ≠ t) by (intros ->; apply Hn, elem_of_app; right; by left).
    rewrite lookup_insert_ne, Hte by done. eexists. split; [done|]. exists (ns ++ [t; n]). simpl. split_and!.
    + change [t; n] with ([t] ++ [n]). rewrite (assoc_L (++)). apply NoDup_app. split_and!; [done| |apply NoDup_singleton].
      intros k Hk ->%list_elem_of_singleton. done.
    + rewrite <- (assoc_L (++)). by apply linked_snoc.
    + rewrite Hh. by destruct ns.
    + change [t; n] with ([t] ++ [n]). rewrite (assoc_L (++)). by rewrite last_snoc.
    + intros k. rewrite !dom_insert, !elem_of_union, !elem_of_singleton, Hdom, !elem_of_app, !elem_of_cons. tauto.
Qed.

Lemma injector_pop_ok i es :
  holds i es → ∃ i', injector_pop i = ok (default 0 (list.head es), i') ∧ holds i' (list.tail es).
Proof.
  intros (ns & Hnd & Hl & Hh & Ht & Hdom). unfold injector_pop. rewrite Hh.
  destruct ns as [|n ns], es as [|e es]; try done; simpl in *.
  - exists i. split; [done|]. exists []. done.
  - destruct Hl as [Hn Hl]. rewrite Hn. eexists. split; [done|]. apply NoDup_cons in Hnd as [Hnn Hnd].
    exists ns. simpl. split_and!; try done.
    + eapply linked_frame; [|exact Hl]. intros k Hk. apply lookup_delete_ne. by intros ->.
    + rewrite Ht. by destruct ns.
    + intros k. rewrite dom_delete, elem_of_difference, elem_of_singleton, Hdom, elem_of_cons.
      split; [tauto|]. intros Hk. split; [by right|]. by intros ->.
Qed.

Lemma destroy_loop_ok : ∀ ns es i fuel,
  linked (nodes i) ns es → NoDup ns → (length ns <= fuel)%nat →
  ∃ i', destroy_loop fuel (list.head ns) i = ok (tt, i') ∧ ∀ k, k ∈ dom (nodes i') ↔ k ∈ dom (nodes i) ∧ k ∉ ns.
Proof.
  induction ns as [|n ns IH]; intros es i fuel Hl Hnd Hf; simpl in *.
  - exists i. split; [by destruct fuel|]. intros k. split; [|tauto]. split; [done|apply not_elem_of_nil].
  - destruct es as [|e es]; [done|]. destruct Hl as [Hn Hl]. destruct fuel as [|fuel]; [lia|]. simpl. rewrite Hn.
    apply NoDup_cons in Hnd as [Hnn Hnd]. simpl.
    destruct (IH es (mk_inj (head i) (tail i) (delete n (nodes i))) fuel) as (i' & Hr & Hd); [|done|lia|].
    + simpl. eapply linked_frame; [|exact Hl]. intros k Hk. apply lookup_delete_ne. by intros ->.
    + exists i'. split; [done|]. intros k. rewrite Hd. simpl. rewrite dom_delete, elem_of_difference, elem_of_singleton, not_elem_of_cons. tauto.
Qed.

Lemma injector_destroy_ok i es :
  holds i es → ∃ i', injector_destroy i = ok (tt, i') ∧ nodes i' = ∅ ∧ head i' = None ∧ tail i' = None.
Proof.
  intros (ns & Hnd & Hl & Hh & Ht & Hdom). unfold injector_destroy. rewrite Hh.
  assert (Hsize : size (nodes i) = length ns).
  { rewrite <- size_dom. assert (dom (nodes i) = list_to_set ns) as -> by (apply set_eq; intros k; by rewrite Hdom, elem_of_list_to_set).
    by rewrite size_list_to_set. }
  destruct (destroy_loop_ok ns es i (size (nodes i)) Hl Hnd) as (i' & -> & Hd); [lia|].
  eexists. split; [done|]. simpl. split; [|done]. apply dom_empty_iff_L, set_eq. intros k. rewrite Hd, Hdom. set_solver.
Qed.

(** Calls on an injector and what a FIFO queue answers. *)
Inductive icall := IPush (e : Z) | IPop.

Fixpoint run_injector (cs : list icall) : prog goc_injector (list Z) :=
  match cs with
  | [] => mret []
  | IPush e :: cs => injector_push e;; run_injector cs
  | IPop :: cs => r ← injector_pop; rs ← run_injector cs; mret (r :: rs)
  end.

Fixpoint run_fifo (cs : list icall) (q : list Z) : list Z * list Z :=
  match cs with
  | [] => ([], q)
  | IPush e :: cs => run_fifo cs (q ++ [e])
  | IPop :: cs => let '(rs, q') := run_fifo cs (list.tail q) in (default 0 (list.head q) :: rs, q')
  end.

Lemma run_injector_ok cs : ∀ i q, holds i q →
  ∃ i', run_injector cs i = ok ((run_fifo cs q).1, i') ∧ holds i' (run_fifo cs q).2.
Proof.
  induction cs as [|[e|] cs IH]; intros i q Hq; simpl.
  - by exists i.
  - destruct (injector_push_ok i q e Hq) as (i1 & Hr & H1). erewrite prog_bind_ok by exact Hr. by apply IH.
  - destruct (injector_pop_ok i q Hq) as (i1 & Hr & H1). erewrite prog_bind_ok by exact Hr.
    destruct (IH i1 (list.tail q) H1) as (i2 & Hr2 & H2). erewrite prog_bind_ok by exact Hr2.
    destruct (run_fifo cs (list.tail q)) as [rs q']. eauto.
Qed.

Lemma holds_init : holds injector_init [].
Proof. exists []. split_and!; try done; [constructor|]. intros n. simpl. rewrite dom_empty. set_solver. Qed.

(** ** Claims *)

(** C5: Under every interleaving of the owner's pushes and pops with steals, the deque
    behaves as a double-ended queue: the owner adds and removes at one end, thieves take
    from the other, and each call takes effect at one step.  A pop fails only when the
    queue is empty.  The owner must not pop while [bottom] is still 0, and indices stay
    below 2^62. *)
Theorem wsdq_refines_deque cap h s : runs cap h s → deque_runs h (contents s).
Proof. apply runs_ok. Qed.

(** A push, a pop that finds the entry while a thief is waiting, and the thief's loss. *)
Definition race : list action :=
  [APush 7; AOwner; AOwner; AOwner; AOwner; ASteal; AThief; AThief; AThief; APop; AOwner; AOwner; AThief; AOwner].

Fixpoint run_actions (acts : list action) (s : system) : option (list label * system) :=
  match acts with
  | [] => Some ([], s)
  | a :: acts => '(l, s) ← act a s; '(h, s) ← run_actions acts s; Some (l :: h, s)
  end.

(** The conditions on calls, checked along a sequence. *)
Fixpoint can_all (acts : list action) (s : system) : Prop :=
  match acts with
  | [] => True
  | a :: acts => can_act s a ∧ match act a s with Some (_, s) => can_all acts s | None => True end
  end.

Lemma run_actions_runs cap acts : ∀ h s h' s',
  runs cap h s → can_all acts s → run_actions acts s = Some (h', s') → runs cap (h ++ h') s'.
Proof.
  induction acts as [|a acts IH]; intros h s h' s' Hr Hc; simpl.
  - intros [= <- <-]. by rewrite app_nil_r.
  - destruct Hc as [Ha Hc]. destruct (act a s) as [[l s1]|] eqn:E; [|done]. simpl.
    destruct (run_actions acts s1) as [[h1 s2]|] eqn:E1; [|done]. simpl. intros [= <- <-].
    change (l :: h1) with ([l] ++ h1). rewrite (assoc_L (++)). apply (IH _ s1); [|done|done]. by eapply runs_act.
Qed.

Definition fresh_dq : goc_wsdq := mk_dq 0 0 [0; 0] 2.

Lemma runs_fresh : runs 2 [] (start fresh_dq).
Proof. apply runs_init; [reflexivity|done]. Qed.

Lemma race_runs : ∃ h s, run_actions race (start fresh_dq) = Some (h, s) ∧ runs 2 h s.
Proof.
  destruct (run_actions race (start fresh_dq)) as [[h s]|] eqn:E; [|by vm_compute in E].
  exists h, s. split; [done|]. apply (run_actions_runs 2 race [] (start fresh_dq) h s); [apply runs_fresh| |done].
  vm_compute. repeat split; try discriminate.
Qed.

Lemma wsdq_refines_deque_witness :
  ∃ h s, run_actions race (start fresh_dq) = Some (h, s) ∧ deque_runs h (contents s).
Proof. destruct race_runs as (h & s & Hr & H). exists h, s. split; [exact Hr|]. by apply (wsdq_refines_deque 2 h s). Defined.

(** Every entry pushed is delivered at most once, to the owner or to one thief, and
    what was not delivered is still in the deque: nothing is lost or duplicated. *)
Theorem wsdq_delivers_once cap h s : runs cap h s → pushed h ≡ₚ delivered h ++ contents s.
Proof.
  intros Hr. apply deque_runs_conserve; [by eapply runs_ok|]. by eapply runs_pushed_nonnull.
Qed.

Lemma wsdq_delivers_once_witness :
  ∃ h s, run_actions race (start fresh_dq) = Some (h, s) ∧ delivered h = [7] ∧ pushed h ≡ₚ delivered h ++ contents s.
Proof.
  destruct race_runs as (h & s & Hr & H). exists h, s. split; [exact Hr|]. split; [|by apply (wsdq_delivers_once 2 h s)].
  vm_compute in Hr. injection Hr as <- <-. reflexivity.
Defined.

(** No call loops: every step of a push, pop or steal brings the call closer to its
    end (five steps at most), and none reads or writes outside the buffer.  Only a push
    that swaps buffers waits, for the thief that holds the lock, which itself never
    waits. *)
Theorem wsdq_calls_finish cap h s :
  runs cap h s →
  (owner s ≠ OIdle →
   (∃ l s', act AOwner s = Some (l, s') ∧ (owner_left (owner s') < owner_left (owner s))%nat) ∨
   (∃ e b nb nc, owner s = PushSwap e b nb nc ∧ thief s ≠ TIdle)) ∧
  (thief s ≠ TIdle →
   ∃ l s', act AThief s = Some (l, s') ∧ (thief_left (thief s') < thief_left (thief s))%nat).
Proof. intros [Hok _]%runs_ok. split; [by apply owner_progress|by apply thief_progress]. Qed.

Lemma wsdq_calls_finish_witness :
  ∃ s, run_actions [ASteal] (start fresh_dq) = Some ([Tau], s) ∧
    ∃ l s', act AThief s = Some (l, s') ∧ (thief_left (thief s') < thief_left (thief s))%nat.
Proof.
  eexists. split; [reflexivity|]. refine (proj2 (wsdq_calls_finish 2 ([] ++ [Tau]) _ _) _); [|done].
  eapply runs_act with (a := ASteal); [apply runs_fresh|done|reflexivity].
Defined.

(** The owner pops the fresh deque; while [bottom] is SIZE_MAX a thief gets past its
    emptiness test and reads the empty slot 0; the owner goes on and pushes 7 into that
    slot; then the thief's compare-and-swap succeeds. *)
Definition first_pop_race : list action :=
  [APop; ASteal; AThief; AThief; AThief; AOwner; AOwner; APush 7; AOwner; AOwner; AOwner; AOwner; AThief].

(** Without the condition of [wsdq_refines_deque] an entry can be lost: when the owner pops a deque
    that was never pushed to, [bottom] wraps to SIZE_MAX for a moment, a thief can claim
    slot 0 in that moment with nothing to return, and the entry pushed there next is
    skipped.  Everybody is done, 7 was pushed, nothing was delivered, the deque is empty. *)
Theorem wsdq_first_pop_loses_entry :
  ∃ h s, run_actions first_pop_race (start fresh_dq) = Some (h, s) ∧
    owner s = OIdle ∧ thief s = TIdle ∧ pushed h = [7] ∧ delivered h = [] ∧
    wsdq_approx_size (dq s) = 0 ∧ contents s = [].
Proof. eexists _, _. split; [vm_compute; reflexivity|]. repeat split. Qed.

(** The injector answers every sequence of pushes and pops as a first-in first-out
    queue, never follows a freed node, keeps allocated exactly the nodes of the waiting
    entries, and frees them all when it is destroyed. *)
Theorem injector_fifo cs :
  ∃ i, run_injector cs injector_init = ok ((run_fifo cs []).1, i) ∧ holds i (run_fifo cs []).2 ∧
    ∃ i', injector_destroy i = ok (tt, i') ∧ nodes i' = ∅.
Proof.
  destruct (run_injector_ok cs injector_init [] holds_init) as (i & Hr & Hi). exists i. split_and!; [done|done|].
  destruct (injector_destroy_ok i _ Hi) as (i' & Hd & Hn & _). eauto.
Qed.

End WsdqProps.
