(* ===== verification/Mutex.v ===== *)
(** Reader-writer mutexes of src/mutex.c.

    A lock request is a gate channel of capacity 1; a value put into it is the grant,
    closing it gives the lock back or withdraws the request.  [mx->lock] is held over
    each critical section, and the close callbacks all run on the loop thread, so a
    request and a callback are each one transition.  The grants sent are recorded in
    order: a gate has room for its only grant, so [mutex_send_grant] never waits. *)

From S2P Require Import Prelude.

Module Mutex.

(** ** Data *)

(** [goc_mutex_waiter] with its [goc_mutex_release_ctx]: they are made together and
    point to each other. *)
Record goc_mutex_waiter := mk_waiter {
  next : option positive; is_writer : bool; acquired : bool; handled : bool }.

Definition set_next (n : option positive) (w : goc_mutex_waiter) : goc_mutex_waiter :=
  mk_waiter n (is_writer w) (acquired w) (handled w).
Definition set_acquired (w : goc_mutex_waiter) : goc_mutex_waiter :=
  mk_waiter (next w) (is_writer w) true (handled w).
Definition set_handled (w : goc_mutex_waiter) : goc_mutex_waiter :=
  mk_waiter (next w) (is_writer w) (acquired w) true.

Record goc_mutex := mk_mutex {
  active_readers : Z; writer_active : bool; waiting_writers : Z;
  q_head : option positive; q_tail : option positive }.

(** A mutex, every request made so far, the grants sent. *)
Record state := mk_state {
  mx : goc_mutex; waiters : gmap positive goc_mutex_waiter; grants : list positive; next_waiter : positive }.

Definition upd_mx (f : goc_mutex → goc_mutex) : prog state () := λ s,
  ok (tt, mk_state (f (mx s)) (waiters s) (grants s) (next_waiter s)).
Definition get_mx : prog state goc_mutex := λ s, ok (mx s, s).
Definition get_waiter (w : positive) : prog state goc_mutex_waiter := λ s, of_option (waiters s !! w) s.
Definition put_waiter (w : positive) (c : goc_mutex_waiter) : prog state () := λ s,
  ok (tt, mk_state (mx s) (<[w := c]> (waiters s)) (grants s) (next_waiter s)).
Definition upd_waiter (w : positive) (f : goc_mutex_waiter → goc_mutex_waiter) : prog state () :=
  c ← get_waiter w; put_waiter w (f c).

Definition set_readers (n : Z) (m : goc_mutex) := mk_mutex n (writer_active m) (waiting_writers m) (q_head m) (q_tail m).
Definition set_writer (b : bool) (m : goc_mutex) := mk_mutex (active_readers m) b (waiting_writers m) (q_head m) (q_tail m).
Definition set_waiting (n : Z) (m : goc_mutex) := mk_mutex (active_readers m) (writer_active m) n (q_head m) (q_tail m).
Definition set_head (h : option positive) (m : goc_mutex) := mk_mutex (active_readers m) (writer_active m) (waiting_writers m) h (q_tail m).
Definition set_tail (t : option positive) (m : goc_mutex) := mk_mutex (active_readers m) (writer_active m) (waiting_writers m) (q_head m) t.

(** ** The queue of waiters *)

Definition mutex_enqueue (w : positive) : prog state () :=
  upd_waiter w (set_next None);;
  m ← get_mx;
  match q_tail m with
  | None => upd_mx (λ m, set_tail (Some w) (set_head (Some w) m))
  | Some t => upd_waiter t (set_next (Some w));; upd_mx (set_tail (Some w))
  end.

Definition mutex_dequeue : prog state (option positive) :=
  m ← get_mx;
  match q_head m with
  | None => mret None
  | Some w =>
      wt ← get_waiter w;
      upd_mx (set_head (next wt));;
      (if decide (next wt = None) then upd_mx (set_tail None) else mret tt);;
      upd_waiter w (set_next None);;
      mret (Some w)
  end.

Definition mutex_send_grant (w : positive) : prog state () := λ s,
  ok (tt, mk_state (mx s) (waiters s) (grants s ++ [w]) (next_waiter s)).

(** ** Releasing *)

(** The readers at the head of the queue are granted together; they are chained through
    their [next] fields, [tail] being the last so far. *)
Fixpoint grant_readers (fuel : nat) (head tail : option positive) : prog state (option positive) :=
  match fuel with
  | O => HANG
  | S fuel =>
      m ← get_mx;
      match q_head m with
      | None => mret head
      | Some q =>
          wt ← get_waiter q;
          if is_writer wt then mret head
          else
            _ ← mutex_dequeue;
            upd_mx (λ m, set_readers (active_readers m +% 1) m);;
            upd_waiter q set_acquired;;
            match tail with
            | None => grant_readers fuel (Some q) (Some q)
            | Some t => upd_waiter t (set_next (Some q));; grant_readers fuel head (Some q)
            end
      end
  end.

(** After the unlock: [for (it = grant_head; it != NULL; it = it->next)]. *)
Fixpoint send_grants (fuel : nat) (it : option positive) : prog state () :=
  match it with
  | None => mret tt
  | Some w =>
      match fuel with
      | O => HANG
      | S fuel => mutex_send_grant w;; wt ← get_waiter w; send_grants fuel (next wt)
      end
  end.

(** Waiters are never freed while they are linked, so the number of waiters bounds both
    loops. *)
Definition loop_fuel : prog state nat := λ s, ok (S (size (waiters s)), s).

Definition mutex_release (writer : bool) : prog state () :=
  m ← get_mx;
  (if writer then upd_mx (set_writer false)
   else if 0 <? active_readers m then upd_mx (λ m, set_readers (active_readers m - 1) m) else mret tt);;
  m ← get_mx;
  fuel ← loop_fuel;
  grant_head ←
    (if negb (writer_active m) && (active_readers m =? 0) then
       match q_head m with
       | None => mret None
       | Some q =>
           wt ← get_waiter q;
           if is_writer wt then
             w ← mutex_dequeue;
             upd_mx (λ m, set_waiting (waiting_writers m -% 1) m);;
             upd_mx (set_writer true);;
             upd_waiter q set_acquired;;
             mret w
           else grant_readers fuel None None
       end
     else mret None);
  send_grants fuel grant_head.

(** ** Withdrawing a request *)

Fixpoint cancel_loop (fuel : nat) (target : positive) (prev cur : option positive) : prog state () :=
  match cur with
  | None => mret tt
  | Some c =>
      match fuel with
      | O => HANG
      | S fuel =>
          wt ← get_waiter c;
          if decide (c = target) then
            (match prev with
             | None => upd_mx (set_head (next wt))
             | Some p => upd_waiter p (set_next (next wt))
             end);;
            m ← get_mx;
            (if decide (q_tail m = Some c) then upd_mx (set_tail prev) else mret tt);;
            (if is_writer wt && (0 <? waiting_writers m)
             then upd_mx (λ m, set_waiting (waiting_writers m - 1) m) else mret tt)
          else cancel_loop fuel target (Some c) (next wt)
      end
  end.

Definition mutex_cancel_waiter (target : positive) : prog state () :=
  m ← get_mx;
  fuel ← loop_fuel;
  cancel_loop fuel target None (q_head m).

(** The gate was closed. *)
Definition mutex_on_lock_channel_closed (w : positive) : prog state () :=
  wt ← get_waiter w;
  upd_waiter w set_handled;;
  if handled wt then mret tt
  else if acquired wt then mutex_release (is_writer wt)
  else mutex_cancel_waiter w.

(** ** Requests *)

Definition new_waiter (writer : bool) : prog state positive := λ s,
  ok (next_waiter s, mk_state (mx s) (<[next_waiter s := mk_waiter None writer false false]> (waiters s))
        (grants s) (Pos.succ (next_waiter s))).

Definition mutex_lock_request (writer : bool) : prog state positive :=
  w ← new_waiter writer;
  m ← get_mx;
  let free :=
    if writer then negb (writer_active m) && (active_readers m =? 0)
    else negb (writer_active m) && (waiting_writers m =? 0) in
  grant_now ←
    (if free && bool_decide (q_head m = None) then
       (if writer then upd_mx (set_writer true)
        else upd_mx (λ m, set_readers (active_readers m +% 1) m));;
       upd_waiter w set_acquired;;
       mret true
     else
       mutex_enqueue w;;
       (if writer then upd_mx (λ m, set_waiting (waiting_writers m +% 1) m) else mret tt);;
       mret false);
  wt ← get_waiter w;
  (if grant_now && negb (handled wt) then mutex_send_grant w else mret tt);;
  mret w.

Definition goc_read_lock : prog state positive := mutex_lock_request false.
Definition goc_write_lock : prog state positive := mutex_lock_request true.

Definition goc_mutex_make : state := mk_state (mk_mutex 0 false 0 None None) ∅ [] 1.

End Mutex.
