(* ===== verification/MutexProps.v ===== *)
(** Properties of the reader-writer mutex: writers exclude everybody, nobody overtakes
    a waiter that asked earlier, releasing hands the lock on, withdrawn requests are
    forgotten, and every holder was sent exactly one grant. *)

From Stdlib Require Import Sorting.Sorted.
From S2P Require Import Prelude Mutex.
Import Mutex.

Module MutexProps.

(** ** Waiters seen as links and as flags *)

Definition nx (s : state) (w : positive) : option (option positive) := next <$> waiters s !! w.

Definition flags (w : goc_mutex_waiter) : bool * bool * bool := (is_writer w, acquired w, handled w).
Definition fl (s : state) (w : positive) : option (bool * bool * bool) := flags <$> waiters s !! w.

(** The nodes of [ws] are linked in order. *)
Fixpoint chain (f : positive → option (option positive)) (ws : list positive) : Prop :=
  match ws with
  | [] => True
  | w :: ws => f w = Some (head ws) ∧ chain f ws
  end.

Record queue (s : state) (ws : list positive) : Prop := {
  qu_nodup : NoDup ws;
  qu_chain : chain (nx s) ws;
  qu_head : q_head (mx s) = head ws;
  qu_tail : q_tail (mx s) = last ws
}.

Lemma links_ext f g ws : (∀ w, w ∈ ws → g w = f w) → chain f ws → chain g ws.
Proof.
  induction ws as [|w ws IH]; simpl; [done|]. intros H [Hw Hc]. split; [rewrite H; [done|by left]|].
  apply IH; [|done]. intros k Hk. apply H. by right.
Qed.

Lemma head_snoc {A} (l : list A) x y : head (l ++ [x] ++ y) = head (l ++ [x]).
Proof. by destruct l. Qed.

(** Hanging [w] behind the last node. *)
Lemma links_snoc f g ws t w :
  chain f (ws ++ [t]) → (∀ k, k ∈ ws → g k = f k) → g t = Some (Some w) → g w = Some None →
  chain g (ws ++ [t; w]).
Proof.
  induction ws as [|k ws IH]; simpl; [tauto|]. intros [Hk Hc] Hg Ht Hw. split.
  - rewrite Hg by (by left). rewrite Hk. change [t; w] with ([t] ++ [w]). by rewrite head_snoc.
  - apply IH; [done| |done|done]. intros j Hj. apply Hg. by right.
Qed.

Lemma chain_app_r f ws vs : chain f (ws ++ vs) → chain f vs.
Proof. induction ws as [|w ws IH]; simpl; [done|]. intros [_ H]. by apply IH. Qed.

(** Taking [t] out behind [p]. *)
Lemma chain_remove f g ws p t vs :
  chain f (ws ++ p :: t :: vs) → (∀ k, k ∈ ws ++ vs → g k = f k) → g p = Some (head vs) →
  chain g (ws ++ p :: vs).
Proof.
  induction ws as [|k ws IH]; simpl.
  - intros [_ [_ Hc]] Hg Hp. split; [done|]. by eapply links_ext.
  - intros [Hk Hc] Hg Hp. split.
    + rewrite Hg by (by left). rewrite Hk. by destruct ws.
    + apply IH; [done| |done]. intros j Hj. apply Hg. by right.
Qed.

(** ** Access *)

Lemma get_waiter_ok s w c : waiters s !! w = Some c → get_waiter w s = ok (c, s).
Proof. intros H. unfold get_waiter. by rewrite H. Qed.

Lemma fl_some s w b : fl s w = Some b → ∃ c, waiters s !! w = Some c ∧ flags c = b.
Proof. unfold fl. destruct (waiters s !! w) as [c|]; [|done]. intros [= <-]. eauto. Qed.

Lemma nx_some s w n : nx s w = Some n → ∃ c, waiters s !! w = Some c ∧ next c = n.
Proof. unfold nx. destruct (waiters s !! w) as [c|]; [|done]. intros [= <-]. eauto. Qed.

(** What an operation leaves alone. *)
Record keeps (s s' : state) : Prop := {
  ke_grants : grants s' = grants s;
  ke_next : next_waiter s' = next_waiter s;
  ke_size : size (waiters s') = size (waiters s)
}.

Lemma keeps_refl s : keeps s s.
Proof. done. Qed.

Lemma keeps_trans s1 s2 s3 : keeps s1 s2 → keeps s2 s3 → keeps s1 s3.
Proof. intros [] []. split; congruence. Qed.

Lemma put_keeps w c c' s : waiters s !! w = Some c' →
  keeps s (mk_state (mx s) (<[w := c]> (waiters s)) (grants s) (next_waiter s)).
Proof. intros H. split; simpl; try done. rewrite map_size_insert_Some by (by rewrite H). done. Qed.

Lemma set_next_ok s w n : is_Some (waiters s !! w) →
  ∃ s', upd_waiter w (set_next n) s = ok (tt, s') ∧ mx s' = mx s ∧ keeps s s' ∧
    (∀ x, nx s' x = if decide (x = w) then Some n else nx s x) ∧ (∀ x, fl s' x = fl s x).
Proof.
  intros [c Hc]. unfold upd_waiter. erewrite prog_bind_ok by (by apply get_waiter_ok).
  eexists. split; [done|]. split; [done|]. split; [by eapply put_keeps|]. unfold nx, fl. simpl.
  split; intros x; rewrite lookup_insert; destruct (decide (w = x)) as [<-|Hne].
  - by rewrite decide_True.
  - by rewrite decide_False.
  - by rewrite Hc.
  - done.
Qed.

Lemma upd_flags_ok s w c f : waiters s !! w = Some c → next (f c) = next c →
  ∃ s', upd_waiter w f s = ok (tt, s') ∧ mx s' = mx s ∧ keeps s s' ∧
    (∀ x, nx s' x = nx s x) ∧ (∀ x, fl s' x = if decide (x = w) then Some (flags (f c)) else fl s x).
Proof.
  intros Hc Hf. unfold upd_waiter. erewrite prog_bind_ok by (by apply get_waiter_ok).
  eexists. split; [done|]. split; [done|]. split; [by eapply put_keeps|]. unfold nx, fl. simpl.
  split; intros x; rewrite lookup_insert; destruct (decide (w = x)) as [<-|Hne].
  - rewrite Hc. simpl. by rewrite Hf.
  - done.
  - by rewrite decide_True.
  - by rewrite decide_False.
Qed.

(** ** Queue operations *)

(** The counters of a mutex. *)
Definition counters (s : state) : Z * bool * Z := (active_readers (mx s), writer_active (mx s), waiting_writers (mx s)).

Lemma mutex_enqueue_ok s ws w :
  queue s ws → w ∉ ws → is_Some (waiters s !! w) →
  ∃ s', mutex_enqueue w s = ok (tt, s') ∧ queue s' (ws ++ [w]) ∧ counters s' = counters s ∧ keeps s s' ∧
    ∀ x, fl s' x = fl s x.
Proof.
  intros [Hnd Hc Hh Ht] Hw Hsome. unfold mutex_enqueue.
  destruct (set_next_ok s w None Hsome) as (s1 & Hr1 & Hm1 & Hk1 & Hn1 & Hf1).
  erewrite prog_bind_ok by exact Hr1. erewrite prog_bind_ok by done. rewrite Hm1, Ht.
  destruct ws as [|t ws _] using rev_ind; simpl.
  - eexists. split; [done|]. split_and!; [|unfold counters; simpl; by rewrite Hm1|by destruct Hk1|exact Hf1].
    split; simpl; [apply NoDup_singleton| |done|done]. split; [|done]. change (nx s1 w = Some None).
    by rewrite Hn1, decide_True.
  - rewrite last_snoc. assert (Htw : t ≠ w) by (intros ->; apply Hw, elem_of_app; right; by left).
    assert (Hts : is_Some (waiters s1 !! t)).
    { apply chain_app_r in Hc as [Hc _]. specialize (Hn1 t). rewrite decide_False in Hn1 by done. rewrite Hc in Hn1.
      apply nx_some in Hn1 as (? & -> & _). eauto. }
    destruct (set_next_ok s1 t (Some w) Hts) as (s2 & Hr2 & Hm2 & Hk2 & Hn2 & Hf2).
    erewrite prog_bind_ok by exact Hr2. eexists. split; [done|].
    assert (Hnw : ∀ k, k ∈ ws → k ≠ t ∧ k ≠ w).
    { intros k Hk. apply NoDup_app in Hnd as (_ & Hd & _). split; intros ->; [by apply (Hd t Hk), list_elem_of_singleton|].
      apply Hw, elem_of_app. by left. }
    split_and!.
    + split; simpl.
      * apply NoDup_app. split_and!; [done| |apply NoDup_singleton]. by intros k Hk ->%list_elem_of_singleton.
      * rewrite <- (assoc_L (++)). apply (links_snoc (nx s)); [done|..].
        -- intros k Hk. destruct (Hnw k Hk). change (nx s2 k = nx s k). by rewrite Hn2, Hn1, !decide_False.
        -- change (nx s2 t = Some (Some w)). by rewrite Hn2, decide_True.
        -- change (nx s2 w = Some None). by rewrite Hn2, Hn1, decide_False, decide_True.
      * rewrite Hm2, Hm1, Hh. by destruct ws.
      * by rewrite last_snoc.
    + unfold counters. simpl. by rewrite Hm2, Hm1.
    + eapply keeps_trans; [exact Hk1|]. by destruct Hk2.
    + intros x. change (fl s2 x = fl s x). by rewrite Hf2, Hf1.
Qed.

Lemma mutex_dequeue_ok s w ws :
  queue s (w :: ws) →
  ∃ s', mutex_dequeue s = ok (Some w, s') ∧ queue s' ws ∧ counters s' = counters s ∧ keeps s s' ∧
    (∀ x, nx s' x = if decide (x = w) then Some None else nx s x) ∧ (∀ x, fl s' x = fl s x).
Proof.
  intros [Hnd [Hw Hc] Hh Ht]. unfold mutex_dequeue. erewrite prog_bind_ok by done. rewrite Hh. simpl.
  apply nx_some in Hw as (c & Hwc & Hnc). erewrite prog_bind_ok by (by apply get_waiter_ok).
  erewrite prog_bind_ok by done. set (s1 := mk_state (set_head (next c) (mx s)) (waiters s) (grants s) (next_waiter s)).
  assert (∃ s2, (if decide (next c = None) then upd_mx (set_tail None) else mret tt) s1 = ok (tt, s2) ∧
            waiters s2 = waiters s ∧ grants s2 = grants s ∧ next_waiter s2 = next_waiter s ∧
            mx s2 = mk_mutex (active_readers (mx s)) (writer_active (mx s)) (waiting_writers (mx s)) (head ws) (last ws))
    as (s2 & Hr2 & Hx2 & Hg2 & Hn2 & Hm2).
  { apply NoDup_cons in Hnd as [_ Hnd]. rewrite Hnc. case_decide as Hd.
    - destruct ws; [|done]. eexists. split; [done|]. simpl. by rewrite Hnc.
    - eexists. split; [done|]. simpl. rewrite Hnc. unfold set_head. split_and!; try done. f_equal. rewrite Ht.
      destruct ws; [done|]. by rewrite last_cons_cons. }
  change (upd_mx (set_head (next c)) s) with (ok (tt, s1)).
  erewrite prog_bind_ok by exact Hr2.
  destruct (set_next_ok s2 w None) as (s3 & Hr3 & Hm3 & [Hg3 Hn3 Hs3] & Hnx3 & Hf3); [by rewrite Hx2, Hwc|].
  erewrite prog_bind_ok by exact Hr3. eexists. split; [done|].
  assert (Hnx2 : ∀ x, nx s2 x = nx s x) by (intros x; unfold nx; by rewrite Hx2).
  apply NoDup_cons in Hnd as [Hwn Hnd]. split_and!.
  - split; [done| |by rewrite Hm3, Hm2|by rewrite Hm3, Hm2]. eapply links_ext; [|exact Hc]. intros k Hk.
    rewrite Hnx3, Hnx2, decide_False; [done|]. by intros ->.
  - unfold counters. by rewrite Hm3, Hm2.
  - split; congruence.
  - intros x. by rewrite Hnx3, Hnx2.
  - intros x. rewrite Hf3. unfold fl. by rewrite Hx2.
Qed.

(** ** Granting *)

Lemma chain_some f ws w : chain f ws → w ∈ ws → is_Some (f w).
Proof.
  induction ws as [|k ws IH]; simpl; [by intros _ ?%not_elem_of_nil|].
  intros [Hk Hc] [->|Hw]%elem_of_cons; [rewrite Hk; eauto|by apply IH].
Qed.

(** The counters are changed by a function of the mutex that leaves the queue alone. *)
Lemma upd_counters_queue s ws f :
  queue s ws → (∀ m, q_head (f m) = q_head m ∧ q_tail (f m) = q_tail m) →
  queue (mk_state (f (mx s)) (waiters s) (grants s) (next_waiter s)) ws.
Proof. intros [Hnd Hc Hh Ht] Hf. destruct (Hf (mx s)). split; simpl; [done|done|congruence|congruence]. Qed.

Lemma queue_ext s s' ws :
  queue s ws → mx s' = mx s → (∀ x, x ∈ ws → nx s' x = nx s x) → queue s' ws.
Proof. intros [Hnd Hc Hh Ht] Hm Hn. split; rewrite ?Hm; try done. by eapply links_ext. Qed.

(** One reader leaves the queue, is counted and marked, and joins the grant list [gs]. *)
Lemma grant_one_ok s q ws gs :
  queue s (q :: ws) → fl s q = Some (false, false, false) → NoDup (gs ++ q :: ws) → chain (nx s) gs →
  active_readers (mx s) +% 1 = active_readers (mx s) + 1 →
  ∃ s', (_ ← mutex_dequeue;
         upd_mx (λ m, set_readers (active_readers m +% 1) m);;
         upd_waiter q set_acquired;;
         match last gs with None => mret tt | Some t => upd_waiter t (set_next (Some q)) end) s = ok (tt, s') ∧
    queue s' ws ∧ chain (nx s') (gs ++ [q]) ∧
    counters s' = (active_readers (mx s) + 1, writer_active (mx s), waiting_writers (mx s)) ∧ keeps s s' ∧
    ∀ x, fl s' x = if decide (x = q) then Some (false, true, false) else fl s x.
Proof.
  intros Hq Hf Hnd Hc Hsum. pose proof Hq as [_ [Hnq _] _ _].
  destruct (mutex_dequeue_ok s q ws Hq) as (s1 & Hr1 & Hq1 & Hm1 & Hk1 & Hn1 & Hf1).
  erewrite prog_bind_ok by exact Hr1. erewrite prog_bind_ok by done.
  set (s2 := mk_state _ (waiters s1) (grants s1) (next_waiter s1)).
  assert (Hq2 : queue s2 ws) by (by apply (upd_counters_queue s1)).
  assert (∃ c, waiters s2 !! q = Some c ∧ flags c = (false, false, false)) as (c & Hqc & Hfl).
  { apply (fl_some s2). change (fl s1 q = Some (false, false, false)). by rewrite Hf1. }
  destruct (upd_flags_ok s2 q c set_acquired Hqc eq_refl) as (s3 & Hr3 & Hm3 & Hk3 & Hn3 & Hf3).
  erewrite prog_bind_ok by exact Hr3.
  assert (Hcnt : counters s3 = (active_readers (mx s) + 1, writer_active (mx s), waiting_writers (mx s))).
  { unfold counters in *. rewrite Hm3. simpl. injection Hm1 as -> -> ->. by rewrite Hsum. }
  assert (Hfl3 : ∀ x, fl s3 x = if decide (x = q) then Some (false, true, false) else fl s x).
  { intros x. rewrite Hf3. case_decide; [|apply (Hf1 x)]. destruct c. unfold flags in *. simpl in *. congruence. }
  assert (Hn3' : ∀ x, nx s3 x = if decide (x = q) then Some None else nx s x) by (intros x; rewrite Hn3; apply Hn1).
  assert (Hk : keeps s s3) by (eapply keeps_trans; [exact Hk1|]; eapply keeps_trans; [|exact Hk3]; done).
  assert (Hq3 : queue s3 ws) by (by apply (queue_ext s2)).
  apply NoDup_app in Hnd as (Hgs & Hdis & Hqws). apply NoDup_cons in Hqws as [Hqn _].
  destruct gs as [|t gs _] using rev_ind; simpl.
  - exists s3. split_and!; try done. by rewrite Hn3', decide_True.
  - rewrite last_snoc. assert (Hqt : q ≠ t) by (intros ->; apply (Hdis t); [apply elem_of_app; right; by left|by left]).
    destruct (set_next_ok s3 t (Some q)) as (s4 & Hr4 & Hm4 & Hk4 & Hn4 & Hf4).
    { assert (is_Some (nx s3 t)) as Ht.
      { rewrite Hn3', decide_False by done. apply (chain_some _ _ _ Hc), elem_of_app. right. by left. }
      by apply fmap_is_Some in Ht. }
    exists s4. split_and!; try done.
    + apply (queue_ext s3); [done|done|]. intros x Hx. rewrite Hn4, decide_False; [done|]. intros ->.
      apply (Hdis t); [apply elem_of_app; right; by left|by right].
    + rewrite <- (assoc_L (++)). apply (links_snoc (nx s)); [done|..].
      * intros k Hk'. rewrite Hn4, Hn3', !decide_False; [done|..].
        -- intros ->. apply (Hdis q); [apply elem_of_app; by left|by left].
        -- intros ->. apply NoDup_app in Hgs as (_ & Hg & _). by apply (Hg t Hk'), list_elem_of_singleton.
      * by rewrite Hn4, decide_True.
      * by rewrite Hn4, decide_False, Hn3', decide_True.
    + unfold counters. rewrite Hm4. exact Hcnt.
    + by eapply keeps_trans.
    + intros x. by rewrite Hf4.
Qed.

(** A writer, or nobody, is next. *)
Definition writer_next (s : state) (ws : list positive) : Prop :=
  match ws with [] => True | w :: _ => ∃ a h, fl s w = Some (true, a, h) end.

Lemma grant_readers_ok : ∀ rs fuel s gs ws,
  queue s (rs ++ ws) → (∀ r, r ∈ rs → fl s r = Some (false, false, false)) → writer_next s ws →
  NoDup (gs ++ rs ++ ws) → chain (nx s) gs → (length rs < fuel)%nat →
  0 <= active_readers (mx s) → active_readers (mx s) + Z.of_nat (length rs) < WORD →
  ∃ s', grant_readers fuel (head gs) (last gs) s = ok (head (gs ++ rs), s') ∧ queue s' ws ∧ chain (nx s') (gs ++ rs) ∧
    counters s' = (active_readers (mx s) + Z.of_nat (length rs), writer_active (mx s), waiting_writers (mx s)) ∧
    keeps s s' ∧ ∀ x, fl s' x = if decide (x ∈ rs) then Some (false, true, false) else fl s x.
Proof.
  induction rs as [|r rs IH]; intros fuel s gs ws Hq Hrs Hw Hnd Hc Hf Ha Hb; destruct fuel as [|fuel]; simpl in Hf; try lia;
    cbn [grant_readers]; erewrite prog_bind_ok by done; rewrite (qu_head _ _ Hq).
  - exists s. rewrite app_nil_r. split_and!; try done.
    + destruct ws as [|w ws]; [done|]. simpl. destruct Hw as (a & h & (c & Hc' & Hfl)%fl_some).
      erewrite prog_bind_ok by (by apply get_waiter_ok). unfold flags in Hfl. injection Hfl as -> _ _. done.
    + unfold counters. simpl. by rewrite Z.add_0_r.
  - simpl. destruct (fl_some s r _ (Hrs r ltac:(by left))) as (c & Hc' & Hfl).
    erewrite prog_bind_ok by (by apply get_waiter_ok). unfold flags in Hfl. injection Hfl as -> _ _.
    destruct (grant_one_ok s r (rs ++ ws) gs Hq) as (s1 & Hr1 & Hq1 & Hc1 & Hcnt & Hk1 & Hf1);
      [apply Hrs; by left|done|done|apply wrap64_small; simpl in Hb; lia|].
    injection Hcnt as Ha1 Hw1 Hww1. apply NoDup_app in Hnd as Hnd'. destruct Hnd' as (_ & _ & Hnd').
    simpl in Hnd'. apply NoDup_cons in Hnd' as [Hrn _].
    assert (Hother : ∀ x, x ∈ rs ++ ws → fl s1 x = fl s x).
    { intros x Hx. rewrite Hf1, decide_False; [done|]. by intros ->. }
    destruct (IH fuel s1 (gs ++ [r]) ws Hq1) as (s' & Hr' & Hq' & Hc'' & Hcnt' & Hk' & Hf'); [..|lia|lia|simpl in Hb; lia|].
    { intros x Hx. rewrite Hother by (apply elem_of_app; by left). apply Hrs. by right. }
    { destruct ws as [|w ws]; [done|]. destruct Hw as (a & h & Hw). exists a, h.
      rewrite Hother; [done|]. apply elem_of_app. right. by left. }
    { by rewrite <- (assoc_L (++)). }
    { done. }
    exists s'. rewrite <- (assoc_L (++)) in Hr', Hc''. simpl in Hr', Hc''. split_and!; try done.
    + rewrite <- Hr'. revert Hr1. unfold mbind, prog_bind. destruct (mutex_dequeue s) as [[? sa]|?| |]; try done. simpl.
      destruct (upd_waiter r set_acquired _) as [[[] sb]|?| |]; try done.
      destruct gs as [|t gs _] using rev_ind; [by intros [= ->]|]. rewrite !last_snoc.
      destruct (upd_waiter t (set_next (Some r)) sb) as [[[] sc]|?| |]; try done. intros [= ->]. by destruct gs.
    + rewrite Hcnt', Ha1, Hw1, Hww1. by replace (active_readers (mx s) + 1 + Z.of_nat (length rs)) with (active_readers (mx s) + Z.of_nat (S (length rs))) by lia.
    + by eapply keeps_trans.
    + intros x. rewrite Hf', Hf1. destruct (decide (x ∈ rs)) as [Hin|Hin]; destruct (decide (x ∈ r :: rs)) as [Hin'|Hin'];
        rewrite elem_of_cons in Hin'; try done; try tauto; case_decide; try done; tauto.
Qed.

Lemma send_grants_ok : ∀ gs fuel s,
  chain (nx s) gs → (length gs <= fuel)%nat →
  send_grants fuel (head gs) s = ok (tt, mk_state (mx s) (waiters s) (grants s ++ gs) (next_waiter s)).
Proof.
  induction gs as [|g gs IH]; intros fuel s Hc Hf; simpl in *.
  - destruct fuel; simpl; rewrite app_nil_r; by destruct s.
  - destruct fuel as [|fuel]; [lia|]. cbn [send_grants]. erewrite prog_bind_ok by done.
    destruct Hc as [(c & Hg & Hn)%nx_some Hc]. erewrite prog_bind_ok by (by apply get_waiter_ok). rewrite Hn.
    rewrite IH; [|done|lia]. simpl. by rewrite <- (assoc_L (++)).
Qed.

(** ** Withdrawing *)

Lemma last_mid {A} (pre post : list A) x : post ≠ [] → last (pre ++ x :: post) = last (pre ++ post).
Proof.
  intros Hne. destruct post as [|y post _] using rev_ind; [done|].
  change (x :: post ++ [y]) with ((x :: post) ++ [y]). by rewrite !(assoc_L (++)), !last_snoc.
Qed.

(** Unlinking [t], whose predecessor is the last of [pre]. *)
Lemma unlink_ok s pre t post c :
  queue s (pre ++ t :: post) → waiters s !! t = Some c →
  ∃ s1, (match last pre with
         | None => upd_mx (set_head (next c))
         | Some p => upd_waiter p (set_next (next c))
         end) s = ok (tt, s1) ∧ counters s1 = counters s ∧ q_tail (mx s1) = q_tail (mx s) ∧
    q_head (mx s1) = head (pre ++ post) ∧ chain (nx s1) (pre ++ post) ∧ keeps s s1 ∧ ∀ x, fl s1 x = fl s x.
Proof.
  intros [Hnd Hc Hh Ht] Htc.
  assert (Hnt : next c = head post).
  { apply chain_app_r in Hc as [(c' & Hc' & Hn)%nx_some _]. congruence. }
  destruct pre as [|p pre _] using rev_ind; simpl.
  - eexists. split; [done|]. simpl. rewrite Hnt. simpl in Hc. split_and!; try done. apply Hc.
  - rewrite last_snoc. rewrite <- (assoc_L (++)) in Hc, Hh, Hnd. simpl in Hc, Hh, Hnd.
    destruct (set_next_ok s p (next c)) as (s1 & Hr & Hm & Hk & Hn & Hf).
    { assert (is_Some (nx s p)) as Hp by (apply (chain_some _ _ _ Hc), elem_of_app; right; by left).
      by apply fmap_is_Some in Hp. }
    exists s1. rewrite <- (assoc_L (++)). simpl. split_and!; try done.
    + unfold counters. by rewrite Hm.
    + by rewrite Hm.
    + rewrite Hm, Hh. by destruct pre.
    + apply (chain_remove (nx s) _ pre p t post); [done| |by rewrite Hn, decide_True, Hnt].
      intros k Hk'. rewrite Hn, decide_False; [done|]. intros ->.
      apply NoDup_app in Hnd as (_ & Hd & Hnd). apply NoDup_cons in Hnd as [Hpn _].
      apply elem_of_app in Hk' as [Hk'|Hk']; [apply (Hd p Hk'); by left|apply Hpn; by right].
Qed.

Lemma cancel_loop_ok : ∀ mid pre fuel s t post wr a h,
  queue s (pre ++ mid ++ t :: post) → (length mid < fuel)%nat →
  fl s t = Some (wr, a, h) → (wr = true → 0 < waiting_writers (mx s)) →
  ∃ s', cancel_loop fuel t (last pre) (head (mid ++ t :: post)) s = ok (tt, s') ∧ queue s' (pre ++ mid ++ post) ∧
    counters s' = (active_readers (mx s), writer_active (mx s), waiting_writers (mx s) - (if wr then 1 else 0)) ∧
    keeps s s' ∧ ∀ x, fl s' x = fl s x.
Proof.
  induction mid as [|k mid IH]; intros pre fuel s t post wr a h Hq Hf Hfl Hww; destruct fuel as [|fuel]; simpl in Hf; try lia.
  - simpl in Hq |- *. destruct (fl_some s t _ Hfl) as (c & Hc & Hcf). erewrite prog_bind_ok by (by apply get_waiter_ok).
    rewrite decide_True by done. destruct (unlink_ok s pre t post c Hq Hc) as (s1 & Hr1 & Hm1 & Ht1 & Hh1 & Hc1 & Hk1 & Hf1).
    erewrite prog_bind_ok by exact Hr1. erewrite prog_bind_ok by done. destruct Hq as [Hnd _ _ Ht].
    set (s2 := mk_state (mk_mutex (active_readers (mx s1)) (writer_active (mx s1)) (waiting_writers (mx s1))
                 (q_head (mx s1)) (last (pre ++ post))) (waiters s1) (grants s1) (next_waiter s1)).
    assert (Hr2 : (if decide (q_tail (mx s1) = Some t) then upd_mx (set_tail (last pre)) else mret tt) s1 = ok (tt, s2)).
    { rewrite Ht1, Ht. destruct post as [|y post].
      - rewrite last_snoc, decide_True by done. unfold s2. by rewrite app_nil_r.
      - rewrite last_mid by done. apply NoDup_app in Hnd as (_ & Hd & Hnd). rewrite decide_False.
        + unfold s2. rewrite last_mid in Ht by done. rewrite <- Ht, <- Ht1. by destruct s1 as [[] ? ? ?].
        + intros Hl%last_Some_elem_of. apply elem_of_app in Hl as [Hl|Hl]; [apply (Hd t Hl); by left|].
          by apply NoDup_cons in Hnd as [? _]. }
    erewrite prog_bind_ok by exact Hr2. injection Hm1 as Ha1 Hw1 Hww1. simpl.
    unfold flags in Hcf. injection Hcf as -> _ _.
    assert (Hq2 : queue s2 (pre ++ post)).
    { split; simpl; [|done|done|done]. apply NoDup_app in Hnd as (? & Hd & Hnd%NoDup_cons). apply NoDup_app.
      split_and!; [done| |apply Hnd]. intros x Hx Hx'. apply (Hd x Hx). by right. }
    assert (Hk2 : keeps s s2) by (by destruct Hk1).
    destruct wr; simpl.
    + rewrite Hww1. specialize (Hww eq_refl). destruct (Z.ltb_spec 0 (waiting_writers (mx s))); [|lia].
      eexists. split; [done|]. split_and!; [|unfold counters; simpl; by rewrite Ha1, Hw1, Hww1|by destruct Hk2|done].
      by apply (upd_counters_queue s2).
    + exists s2. split_and!; try done. unfold counters. simpl. by rewrite Ha1, Hw1, Hww1, Z.sub_0_r.
  - pose proof Hq as [Hnd Hc _ _]. simpl in Hq, Hc, Hnd |- *.
    assert (k ≠ t). { intros ->. apply NoDup_app in Hnd as (_ & _ & Hnd%NoDup_cons). apply Hnd, elem_of_app. right. by left. }
    apply chain_app_r in Hc as [(c & Hkc & Hkn)%nx_some _]. erewrite prog_bind_ok by (by apply get_waiter_ok).
    rewrite decide_False by done. rewrite Hkn.
    destruct (IH (pre ++ [k]) fuel s t post wr a h) as (s' & Hr & Hq' & Hrest); [by rewrite <- (assoc_L (++))|lia|done|done|].
    rewrite last_snoc in Hr. exists s'. rewrite <- (assoc_L (++)) in Hq'. by split.
Qed.

(** ** Who holds the lock and who waits *)

Definition is_wr (F : positive → option (bool * bool * bool)) (w : positive) : bool :=
  match F w with Some (b, _, _) => b | None => false end.

(** [hs] hold the lock, [ws] wait for it in order. *)
Record sem (F : positive → option (bool * bool * bool)) (c : Z * bool * Z) (n : positive)
    (G hs ws : list positive) : Prop := {
  se_wait : ∀ w, w ∈ ws ↔ ∃ b, F w = Some (b, false, false);
  se_hold : ∀ w, w ∈ hs ↔ ∃ b, F w = Some (b, true, false);
  se_nodup : NoDup hs;
  se_count : (c.1.2 = true ∧ c.1.1 = 0 ∧ ∃ w, hs = [w] ∧ is_wr F w = true) ∨
             (c.1.2 = false ∧ c.1.1 = Z.of_nat (length hs) ∧ ∀ w, w ∈ hs → is_wr F w = false);
  se_writers : c.2 = Z.of_nat (length (filter (λ w, is_wr F w = true) ws));
  se_fresh : ∀ w, is_Some (F w) ↔ (w < n)%positive;
  se_sorted : StronglySorted Pos.lt ws;
  se_order : ∀ w g b h, w ∈ ws → F g = Some (b, true, h) → (g < w)%positive;
  se_grants : ∀ g, g ∈ G ↔ ∃ b h, F g = Some (b, true, h);
  se_gsorted : StronglySorted Pos.lt G
}.

Definition locks_ok (s : state) (hs ws : list positive) : Prop :=
  queue s ws ∧ sem (fl s) (counters s) (next_waiter s) (grants s) hs ws ∧ (ws ≠ [] → hs ≠ []).

Lemma sem_ext F F' c n G hs ws : (∀ w, F' w = F w) → sem F c n G hs ws → sem F' c n G hs ws.
Proof.
  intros HF [H1 H2 H3 H4 H5 H7 H8 H9 H10 H11].
  assert (Hw : ∀ w, is_wr F' w = is_wr F w) by (intros w; unfold is_wr; by rewrite HF).
  split; try done.
  - intros w. by rewrite HF.
  - intros w. by rewrite HF.
  - destruct H4 as [(? & ? & w & ? & ?)|(? & ? & Hr)]; [left|right].
    + split_and!; try done. exists w. by rewrite Hw.
    + split_and!; try done. intros w Hin. rewrite Hw. by apply Hr.
  - rewrite H5. do 2 f_equal. apply list_filter_iff. intros w. by rewrite Hw.
  - intros w. by rewrite HF.
  - intros w g b h Hin. rewrite HF. by apply H9.
  - intros g. by setoid_rewrite HF.
Qed.

Lemma sorted_snoc l (w : positive) : StronglySorted Pos.lt l → (∀ x, x ∈ l → (x < w)%positive) → StronglySorted Pos.lt (l ++ [w]).
Proof.
  intros Hs Hw. induction Hs as [|x l Hs IH Hx]; simpl; [by repeat constructor|]. constructor.
  - apply IH. intros y Hy. apply Hw. by right.
  - apply Forall_app. split; [done|]. constructor; [|done]. apply Hw. by left.
Qed.

Lemma sorted_app_inv l k (x y : positive) : StronglySorted Pos.lt (l ++ k) → x ∈ l → y ∈ k → (x < y)%positive.
Proof.
  induction l as [|a l IH]; simpl; [by intros _ ?%not_elem_of_nil|]. intros Hs [->|Hx]%elem_of_cons Hy; inversion Hs; subst.
  - by eapply (proj1 (Forall_forall _ _)); [|apply elem_of_app; right].
  - by apply IH.
Qed.

Lemma sorted_app l k : StronglySorted Pos.lt l → StronglySorted Pos.lt k → (∀ x y, x ∈ l → y ∈ k → (x < y)%positive) →
  StronglySorted Pos.lt (l ++ k).
Proof.
  intros Hl Hk H. induction Hl as [|x l Hl IH Hx]; simpl; [done|]. constructor.
  - apply IH. intros a b Ha. apply H. by right.
  - apply Forall_app. split; [done|]. apply Forall_forall. intros b Hb. apply H; [by left|done].
Qed.

Lemma sorted_drop l k : StronglySorted Pos.lt (l ++ k) → StronglySorted Pos.lt k.
Proof. induction l as [|a l IH]; simpl; [done|]. intros Hs. inversion Hs; subst. by apply IH. Qed.

Lemma sorted_take l k : StronglySorted Pos.lt (l ++ k) → StronglySorted Pos.lt l.
Proof.
  induction l as [|a l IH]; simpl; [constructor|]. intros Hs. inversion Hs as [|? ? Hs' Ha]; subst.
  constructor; [by apply IH|]. by apply Forall_app in Ha as [? _].
Qed.

Lemma sorted_remove l x k : StronglySorted Pos.lt (l ++ x :: k) → StronglySorted Pos.lt (l ++ k).
Proof.
  induction l as [|a l IH]; simpl; intros Hs; inversion Hs as [|? ? Hs' Ha]; subst; [done|].
  constructor; [by apply IH|]. apply Forall_app in Ha as [? Ha]. inversion Ha; subst. by apply Forall_app.
Qed.

(** ** Transitions of who holds and who waits *)

Definition put (F : positive → option (bool * bool * bool)) (w : positive) (v : bool * bool * bool) :=
  λ x, if decide (x = w) then Some v else F x.

Lemma filter_wr_put F w v (ws : list positive) : w ∉ ws →
  filter (λ x, is_wr (put F w v) x = true) ws = filter (λ x, is_wr F x = true) ws.
Proof.
  intros Hw. induction ws as [|x ws IH]; [done|]. apply not_elem_of_cons in Hw as [Hx Hw].
  rewrite !filter_cons, IH by done. assert (is_wr (put F w v) x = is_wr F x) as ->; [|done].
  unfold is_wr, put. by rewrite decide_False.
Qed.

Lemma put_eq F w v : put F w v w = Some v.
Proof. unfold put. by rewrite decide_True. Qed.

Lemma put_ne F w v x : x ≠ w → put F w v x = F x.
Proof. intros. unfold put. by rewrite decide_False. Qed.

Lemma is_wr_ne F w v x : x ≠ w → is_wr (put F w v) x = is_wr F x.
Proof. intros. unfold is_wr. by rewrite put_ne. Qed.

Lemma is_wr_eq F w v : is_wr (put F w v) w = v.1.1.
Proof. unfold is_wr. rewrite put_eq. by destruct v as [[] ]. Qed.

Section transitions.
Context (F : positive → option (bool * bool * bool)) (c : Z * bool * Z) (n : positive) (G hs ws : list positive).
Hypothesis Hsem : sem F c n G hs ws.

Lemma fresh_none : F n = None.
Proof.
  destruct (F n) as [v|] eqn:E; [|done]. assert (n < n)%positive; [|lia]. apply (se_fresh _ _ _ _ _ _ Hsem). eauto.
Qed.

Lemma fresh_gt x v : F x = Some v → (x < n)%positive ∧ x ≠ n.
Proof. intros Hx. assert (x < n)%positive by (apply (se_fresh _ _ _ _ _ _ Hsem); eauto). split; [done|lia]. Qed.

Lemma wait_not_hold w : w ∈ ws → w ∉ hs.
Proof.
  intros (b & Hb)%(se_wait _ _ _ _ _ _ Hsem) (b' & Hb')%(se_hold _ _ _ _ _ _ Hsem). congruence.
Qed.

(** Fields that a fresh request with flags [v] leaves as they should be. *)
Lemma fresh_fields v x : is_Some (put F n v x) ↔ (x < Pos.succ n)%positive.
Proof.
  unfold put. case_decide as Hx; [subst; split; [lia|eauto]|]. rewrite (se_fresh _ _ _ _ _ _ Hsem). lia.
Qed.

Lemma sem_wait b :
  sem (put F n (b, false, false)) (c.1.1, c.1.2, c.2 + (if b then 1 else 0)) (Pos.succ n) G hs (ws ++ [n]).
Proof.
  pose proof fresh_none as Hn. pose proof Hsem as [H1 H2 H3 H4 H5 H7 H8 H9 H10 H11].
  assert (Hws : n ∉ ws) by (rewrite H1; intros (? & ?); congruence).
  assert (Hhs : n ∉ hs) by (rewrite H2; intros (? & ?); congruence).
  split; simpl; try done.
  - intros w. rewrite elem_of_app, list_elem_of_singleton. destruct (decide (w = n)) as [->|Hw].
    + rewrite put_eq. split; [eauto|by right].
    + rewrite put_ne, H1 by done. split; [by intros [|]|by left].
  - intros w. destruct (decide (w = n)) as [->|Hw]; [|by rewrite put_ne].
    rewrite put_eq. split; [done|]. by intros (? & [=]).
  - destruct H4 as [(? & ? & w & -> & Hw)|(? & ? & Hr)]; [left|right].
    + split_and!; try done. exists w. rewrite is_wr_ne; [done|]. intros ->. apply Hhs. by left.
    + split_and!; try done. intros w Hin. rewrite is_wr_ne; [by apply Hr|]. by intros ->.
  - rewrite filter_app, filter_wr_put by done. rewrite filter_cons, is_wr_eq.
    rewrite length_app, H5. destruct b; simpl; lia.
  - apply fresh_fields.
  - apply sorted_snoc; [done|]. intros x (b' & Hx)%H1. by eapply fresh_gt.
  - intros w g b' h Hw. unfold put. case_decide; [done|]. intros Hg. apply elem_of_app in Hw as [Hw|Hw%list_elem_of_singleton].
    + by eapply H9.
    + subst. by eapply fresh_gt.
  - intros g. rewrite H10. unfold put. case_decide; [|done]. subst. split; [|by intros (? & ? & [=])].
    intros (? & ? & ?). congruence.
Qed.

(** An immediate grant: nobody waits. *)
Lemma sem_grant_now b hs' c' :
  ws = [] → hs' = hs ++ [n] → c'.2 = c.2 →
  (b = true ∧ hs = [] ∧ c'.1.2 = true ∧ c'.1.1 = 0 ∨
   b = false ∧ c.1.2 = false ∧ c'.1.2 = false ∧ c'.1.1 = c.1.1 + 1) →
  sem (put F n (b, true, false)) c' (Pos.succ n) (G ++ [n]) hs' [].
Proof.
  pose proof fresh_none as Hn. pose proof fresh_gt as Hgt. pose proof fresh_fields as Hff. intros -> -> Hc2 Hc. pose proof Hsem as [H1 H2 H3 H4 H5 H7 H8 H9 H10 H11].
  assert (Hhs : n ∉ hs) by (rewrite H2; intros (? & ?); congruence).
  split; simpl; try done.
  - intros w. destruct (decide (w = n)) as [->|Hw]; [|by rewrite put_ne]. rewrite put_eq.
    split; [by intros ?%not_elem_of_nil|by intros (? & [=])].
  - intros w. rewrite elem_of_app, list_elem_of_singleton. destruct (decide (w = n)) as [->|Hw].
    + rewrite put_eq. split; [eauto|by right].
    + rewrite put_ne, H2 by done. split; [by intros [|]|by left].
  - apply NoDup_app. split_and!; [done| |apply NoDup_singleton]. by intros x Hx ->%list_elem_of_singleton.
  - destruct Hc as [(-> & -> & -> & ->)|(-> & Hf & -> & ->)]; [left|right].
    + split_and!; try done. exists n. unfold is_wr. by rewrite put_eq.
    + destruct H4 as [(? & _)|(_ & -> & Hr)]; [congruence|]. split_and!; [done|rewrite length_app; simpl; lia|].
      intros w [Hw|Hw%list_elem_of_singleton]%elem_of_app.
      * rewrite is_wr_ne; [by apply Hr|]. by intros ->.
      * subst. unfold is_wr. by rewrite put_eq.
  - by rewrite Hc2, H5.
  - intros ? ? ? ? ?%not_elem_of_nil. done.
  - intros g. rewrite elem_of_app, list_elem_of_singleton, H10. unfold put. case_decide as Hg.
    + split; [eauto|by right].
    + split; [by intros [|]|by left].
  - apply sorted_snoc; [done|]. intros x (? & ? & Hx)%H10. by eapply Hgt.
Qed.

(** A holder gives the lock back. *)
Lemma sem_drop w b :
  F w = Some (b, true, false) →
  ∃ hs', hs ≡ₚ w :: hs' ∧
    sem (put F w (b, true, true)) (if b then (c.1.1, false, c.2) else (c.1.1 - 1, c.1.2, c.2)) n G hs' ws.
Proof.
  intros Hw. pose proof Hsem as [H1 H2 H3 H4 H5 H7 H8 H9 H10 H11].
  assert (Hin : w ∈ hs) by (apply H2; eauto). apply elem_of_Permutation in Hin as (hs' & Hp). exists hs'. split; [done|].
  assert (Hnd : NoDup (w :: hs')) by (by rewrite <- Hp). apply NoDup_cons in Hnd as [Hnw Hnd].
  assert (Hnws : w ∉ ws) by (rewrite H1; intros (? & ?); congruence).
  split; simpl; try done.
  - intros x. destruct (decide (x = w)) as [->|Hx]; [|by rewrite put_ne].
    rewrite put_eq. split; [done|]. by intros (? & [=]).
  - intros x. destruct (decide (x = w)) as [->|Hx].
    + rewrite put_eq. split; [done|]. by intros (? & [=]).
    + rewrite put_ne, <- H2, Hp, elem_of_cons by done. split; [by right|by intros [|]].
  - destruct H4 as [(Hc1 & Hc2 & x & Hx & Hxw)|(Hc1 & Hc2 & Hr)].
    + rewrite Hx in Hp. apply Permutation_singleton_l in Hp. injection Hp as Hxe Hhe. right.
      subst hs'. subst x.
      assert (b = true) as -> by (unfold is_wr in Hxw; by rewrite Hw in Hxw). simpl.
      split; [done|]. split; [done|]. by intros ? ?%not_elem_of_nil.
    + assert (b = false) as ->.
      { specialize (Hr w). unfold is_wr in Hr. rewrite Hw in Hr. apply Hr. rewrite Hp. by left. }
      right. simpl. rewrite Hp in Hc2. simpl in Hc2. split_and!; [done|lia|]. intros x Hx.
      rewrite is_wr_ne; [|by intros ->]. apply Hr. rewrite Hp. by right.
  - rewrite filter_wr_put by done. by destruct b.
  - intros x. destruct (decide (x = w)) as [->|Hx]; [|by rewrite put_ne]. rewrite put_eq, <- H7, Hw. split; eauto.
  - intros x g b' h Hx. destruct (decide (g = w)) as [->|Hg]; [|rewrite put_ne by done; by apply H9].
    intros _. by eapply H9.
  - intros g. rewrite H10. destruct (decide (g = w)) as [->|Hg]; [|by rewrite put_ne]. rewrite put_eq, Hw. split; eauto.
Qed.

(** A waiter withdraws. *)
Lemma sem_withdraw w b pre post :
  F w = Some (b, false, false) → ws = pre ++ w :: post →
  sem (put F w (b, false, true)) (c.1.1, c.1.2, c.2 - (if b then 1 else 0)) n G hs (pre ++ post).
Proof.
  intros Hw Hws. pose proof Hsem as [H1 H2 H3 H4 H5 H7 H8 H9 H10 H11].
  assert (Hnhs : w ∉ hs) by (rewrite H2; intros (? & ?); congruence). subst ws.
  assert (Hnw : w ∉ pre ++ post).
  { intros [Hp|Hp]%elem_of_app; [pose proof (sorted_app_inv _ _ w w H8 Hp ltac:(by left)); lia|].
    pose proof (sorted_app_inv (pre ++ [w]) post w w) as Hl. rewrite <- (assoc_L (++)) in Hl.
    specialize (Hl H8 ltac:(apply elem_of_app; right; by left) Hp). lia. }
  split; simpl; try done.
  - intros x. destruct (decide (x = w)) as [->|Hx].
    + rewrite put_eq. split; [done|]. by intros (? & [=]).
    + rewrite put_ne, <- H1, !elem_of_app, elem_of_cons by done. tauto.
  - intros x. destruct (decide (x = w)) as [->|Hx]; [|by rewrite put_ne].
    rewrite put_eq. split; [done|]. by intros (? & [=]).
  - destruct H4 as [(? & ? & x & -> & Hx)|(? & ? & Hr)]; [left|right].
    + split_and!; try done. exists x. rewrite is_wr_ne; [done|]. intros ->. apply Hnhs. by left.
    + split_and!; try done. intros x Hin. rewrite is_wr_ne; [by apply Hr|]. by intros ->.
  - rewrite filter_wr_put by done. rewrite H5, !filter_app, filter_cons, !length_app.
    assert (is_wr F w = b) as -> by (unfold is_wr; by rewrite Hw). destruct b; simpl; lia.
  - intros x. destruct (decide (x = w)) as [->|Hx]; [|by rewrite put_ne]. rewrite put_eq, <- H7, Hw. split; eauto.
  - by eapply sorted_remove.
  - intros x g b' h Hx. destruct (decide (g = w)) as [->|Hg]; [by rewrite put_eq|]. rewrite put_ne by done. apply H9.
    rewrite elem_of_app, elem_of_cons. apply elem_of_app in Hx. tauto.
  - intros g. rewrite H10. destruct (decide (g = w)) as [->|Hg]; [|by rewrite put_ne].
    rewrite put_eq, Hw. split; by intros (? & ? & [=]).
Qed.

(** The free lock goes to the waiters [rs] at the head of the queue: one writer, or
    readers. *)
Lemma sem_grant b rs ws' c' :
  hs = [] → ws = rs ++ ws' → (∀ r, r ∈ rs → F r = Some (b, false, false)) →
  (b = true ∧ length rs = 1%nat ∧ c' = (c.1.1, true, c.2 - 1) ∨
   b = false ∧ c' = (c.1.1 + Z.of_nat (length rs), c.1.2, c.2)) →
  sem (λ x, if decide (x ∈ rs) then Some (b, true, false) else F x) c' n (G ++ rs) rs ws'.
Proof.
  intros -> Hws Hrs Hc. pose proof Hsem as [H1 H2 H3 H4 H5 H7 H8 H9 H10 H11]. subst ws.
  assert (Hdis : ∀ x, x ∈ ws' → x ∉ rs).
  { intros x Hx Hx'. pose proof (sorted_app_inv _ _ x x H8 Hx' Hx). lia. }
  assert (Hwr : ∀ x, x ∈ ws' → is_wr (λ x, if decide (x ∈ rs) then Some (b, true, false) else F x) x = is_wr F x).
  { intros x Hx. unfold is_wr. by rewrite decide_False by (by apply Hdis). }
  assert (Hfil : filter (λ x, is_wr (λ x, if decide (x ∈ rs) then Some (b, true, false) else F x) x = true) ws' =
                 filter (λ x, is_wr F x = true) ws').
  { clear -Hwr. induction ws' as [|x l IH]; [done|]. rewrite !filter_cons, Hwr, IH; [done|..|by left].
    intros y Hy. apply Hwr. by right. }
  assert (Hrw : ∀ x, x ∈ rs → is_wr F x = b) by (intros x Hx; unfold is_wr; by rewrite Hrs).
  assert (Hc0 : c.1.2 = false ∧ c.1.1 = 0) by (destruct H4 as [(? & ? & ? & ? & ?)|(? & ? & ?)]; done).
  split; simpl; try done.
  - intros x. case_decide as Hx.
    + split; [intros Hx'; by apply Hdis in Hx'|]. by intros (? & [=]).
    + rewrite <- H1, elem_of_app. split; [by right|by intros [|]].
  - intros x. case_decide as Hx; [split; eauto|]. split; [done|]. intros Hb. apply H2 in Hb. by apply not_elem_of_nil in Hb.
  - apply sorted_take in H8. clear -H8. induction H8 as [|x l Hs IH Hx]; constructor; [|done].
    intros Hin. rewrite Forall_forall in Hx. specialize (Hx x Hin). lia.
  - destruct Hc as [(-> & Hl & ->)|(-> & ->)]; [left|right]; simpl.
    + split_and!; [done|apply Hc0|]. destruct rs as [|r [|? ?]]; try done. exists r. split; [done|].
      unfold is_wr. rewrite decide_True by (by left). done.
    + destruct Hc0 as [-> ->]. split_and!; [done|lia|]. intros x Hx. unfold is_wr. by rewrite decide_True.
  - rewrite Hfil. rewrite filter_app, length_app in H5.
    assert (length (filter (λ w, is_wr F w = true) rs) = if b then length rs else 0%nat) as Hlen.
    { clear -Hrw. induction rs as [|r rs IH]; [by destruct b|]. rewrite filter_cons, (Hrw r) by (by left).
      specialize (IH ltac:(intros x Hx; apply Hrw; by right)). destruct b; simpl; rewrite IH; done. }
    rewrite Hlen in H5. destruct Hc as [(-> & Hl & ->)|(-> & ->)]; simpl; lia.
  - intros x. case_decide as Hx; [|done]. rewrite <- H7, (Hrs x Hx). split; eauto.
  - by eapply sorted_drop.
  - intros x g b' h Hx. case_decide as Hg; [|intros Hf; eapply H9; [|exact Hf]; apply elem_of_app; by right].
    intros _. by eapply sorted_app_inv.
  - intros g. rewrite elem_of_app, H10. case_decide as Hg; [split; eauto|]. split; [by intros [|]|by left].
  - apply sorted_app; [done|by eapply sorted_take|]. intros x y (? & ? & Hx)%H10 Hy. eapply H9; [|exact Hx].
    apply elem_of_app. by left.
Qed.
End transitions.

(** ** Requests *)

(** A request is served at once when nobody waits and no holder conflicts with it. *)
Definition compatible (F : positive → option (bool * bool * bool)) (b : bool) (hs ws : list positive) : Prop :=
  ws = [] ∧ ∀ h, h ∈ hs → b = false ∧ is_wr F h = false.

Lemma below_length (l : list positive) n : NoDup l → (∀ x, x ∈ l → (x < n)%positive) → Z.of_nat (length l) < Zpos n.
Proof.
  intros Hnd Hl. rewrite <- (length_fmap Pos.to_nat l).
  assert (length (Pos.to_nat <$> l) <= length (seq 1 (Pos.to_nat n - 1)))%nat as Hle.
  { apply NoDup_incl_length; [apply NoDup_ListNoDup, NoDup_fmap; [apply _|done]|].
    intros k Hk%list_elem_of_In. apply list_elem_of_fmap in Hk as (x & -> & Hx%Hl). apply list_elem_of_In, elem_of_seq. lia. }
  rewrite length_seq in Hle. lia.
Qed.

Lemma sem_readers F c n G hs ws : sem F c n G hs ws → 0 <= c.1.1 < Zpos n.
Proof.
  intros Hsem. pose proof Hsem as [H1 H2 H3 H4 H5 H7 H8 H9 H10 H11].
  assert (Z.of_nat (length hs) < Zpos n).
  { apply below_length; [done|]. intros x (b & Hx)%H2. apply H7. eauto. }
  destruct H4 as [(_ & -> & _)|(_ & -> & _)]; lia.
Qed.

Lemma sorted_nodup (l : list positive) : StronglySorted Pos.lt l → NoDup l.
Proof.
  induction 1 as [|x l Hs IH Hx]; constructor; [|done]. intros Hin. rewrite Forall_forall in Hx.
  specialize (Hx x Hin). lia.
Qed.

Lemma sem_waiting F c n G hs ws : sem F c n G hs ws → 0 <= c.2 < Zpos n.
Proof.
  intros Hsem. pose proof Hsem as [H1 H2 H3 H4 H5 H7 H8 H9 H10 H11]. rewrite H5.
  pose proof (length_filter (λ w, is_wr F w = true) ws). assert (Z.of_nat (length ws) < Zpos n); [|lia].
  apply below_length; [by apply sorted_nodup|]. intros x (b & Hx)%H1. apply H7. eauto.
Qed.

(** The test in [mutex_lock_request] is compatibility. *)
Lemma free_compatible F c n G hs ws (b : bool) :
  sem F c n G hs ws →
  ((if b then negb c.1.2 && (c.1.1 =? 0) else negb c.1.2 && (c.2 =? 0)) && bool_decide (head ws = None)) = true ↔
  compatible F b hs ws.
Proof.
  intros [H1 H2 H3 H4 H5 H7 H8 H9 H10 H11]. unfold compatible. rewrite andb_true_iff, bool_decide_eq_true.
  assert (Hws : head ws = None ↔ ws = []) by (by destruct ws). rewrite Hws. split.
  - intros [Hf ->]. split; [done|]. intros h Hh. destruct H4 as [(Hc & _)|(Hc & Hl & Hr)].
    + rewrite Hc in Hf. by destruct b.
    + rewrite Hc in Hf. split; [|by apply Hr]. destruct b; [|done]. simpl in Hf. apply Z.eqb_eq in Hf.
      rewrite Hf in Hl. destruct hs; [by apply not_elem_of_nil in Hh|done].
  - intros [-> Hh]. split; [|done]. simpl in H5. destruct H4 as [(Hc & _ & w & -> & Hw)|(Hc & Hl & Hr)].
    + destruct (Hh w ltac:(by left)). congruence.
    + rewrite Hc, H5. simpl. destruct b; [|done]. destruct hs as [|h hs]; [by rewrite Hl|]. by destruct (Hh h ltac:(by left)).
Qed.

Lemma fl_put s s' w v : (∀ x, fl s' x = if decide (x = w) then Some v else fl s x) → ∀ x, fl s' x = put (fl s) w v x.
Proof. done. Qed.

Lemma new_waiter_ok s hs ws b :
  locks_ok s hs ws →
  ∃ s1, new_waiter b s = ok (next_waiter s, s1) ∧ mx s1 = mx s ∧ grants s1 = grants s ∧
    next_waiter s1 = Pos.succ (next_waiter s) ∧ queue s1 ws ∧
    waiters s1 !! next_waiter s = Some (mk_waiter None b false false) ∧
    ∀ x, fl s1 x = put (fl s) (next_waiter s) (b, false, false) x.
Proof.
  intros (Hq & Hsem & _). pose proof (fresh_none _ _ _ _ _ _ Hsem) as Hn. eexists. split; [done|]. simpl. split_and!; try done.
  - apply (queue_ext s); [done|done|]. intros x Hx. unfold nx. simpl. rewrite lookup_insert_ne; [done|].
    intros <-. apply (se_wait _ _ _ _ _ _ Hsem) in Hx as (? & ?). congruence.
  - by rewrite lookup_insert_eq.
  - intros x. unfold fl, put. simpl. rewrite lookup_insert.
    destruct (decide (next_waiter s = x)) as [->|]; [by rewrite decide_True|by rewrite decide_False].
Qed.

Lemma request_ok s hs ws b :
  locks_ok s hs ws → Zpos (next_waiter s) < 2 ^ 62 →
  ∃ s' hs' ws', mutex_lock_request b s = ok (next_waiter s, s') ∧ locks_ok s' hs' ws' ∧
    (compatible (fl s) b hs ws ∧ hs' = hs ++ [next_waiter s] ∧ ws' = [] ∧ grants s' = grants s ++ [next_waiter s] ∨
     ¬ compatible (fl s) b hs ws ∧ hs' = hs ∧ ws' = ws ++ [next_waiter s] ∧ grants s' = grants s).
Proof.
  intros Hok Hb. pose proof Hok as (Hq & Hsem & Hbusy). set (n := next_waiter s) in *.
  destruct (new_waiter_ok s hs ws b Hok) as (s1 & Hr1 & Hm1 & Hg1 & Hn1 & Hq1 & Hw1 & Hf1).
  unfold mutex_lock_request. erewrite prog_bind_ok by exact Hr1. erewrite prog_bind_ok by done. cbv zeta.
  rewrite Hm1, (qu_head _ _ Hq). pose proof (free_compatible _ _ _ _ _ _ b Hsem) as Hfree. simpl in Hfree.
  pose proof (sem_readers _ _ _ _ _ _ Hsem) as Hr. pose proof (sem_waiting _ _ _ _ _ _ Hsem) as Hww. simpl in Hr, Hww.
  destruct (_ && bool_decide (head ws = None)) eqn:Etest.
  - assert (Hcomp : compatible (fl s) b hs ws) by (by apply Hfree). pose proof Hcomp as [-> Hh].
    set (f := if b then set_writer true else λ m, set_readers (active_readers m +% 1) m).
    set (s2 := mk_state (f (mx s1)) (waiters s1) (grants s1) (next_waiter s1)).
    assert (Hr2 : (if b then upd_mx (set_writer true) else upd_mx (λ m, set_readers (active_readers m +% 1) m)) s1 = ok (tt, s2))
      by (unfold s2, f; by destruct b).
    destruct (upd_flags_ok s2 n (mk_waiter None b false false) set_acquired Hw1 eq_refl) as (s3 & Hr3 & Hm3 & [Hg3 Hn3 _] & Hnx3 & Hf3).
    erewrite prog_bind_ok; [|erewrite prog_bind_ok by exact Hr2; by erewrite prog_bind_ok by exact Hr3].
    assert (∃ c, waiters s3 !! n = Some c ∧ handled c = false) as (c3 & Hc3 & Hh3).
    { specialize (Hf3 n). rewrite decide_True in Hf3 by done. apply fl_some in Hf3 as (c & Hc & Hcf). exists c.
      split; [done|]. by injection Hcf. }
    erewrite prog_bind_ok by (by apply get_waiter_ok). rewrite Hh3. cbn [andb negb].
    erewrite prog_bind_ok by done. eexists _, (hs ++ [n]), []. split; [done|]. split.
    2: { left. split_and!; try done. simpl. rewrite Hg3. simpl. by rewrite Hg1. }
    split_and!; [| |done].
    + apply (queue_ext s3); [|done|done]. apply (queue_ext s2); [|done|by intros x _; rewrite Hnx3].
      apply (upd_counters_queue s1); [done|]. intros m. unfold f. by destruct b.
    + simpl. rewrite Hn3, Hg3. simpl. rewrite Hn1, Hg1. apply (sem_ext (put (fl s) n (b, true, false))).
      { intros x. change (fl s3 x = put (fl s) n (b, true, false) x). rewrite Hf3. change (fl s2 x) with (fl s1 x).
        rewrite Hf1. unfold put, n. by destruct (decide (x = next_waiter s)). }
      apply (sem_grant_now _ _ _ _ _ _ Hsem b); try done.
      * unfold counters. simpl. rewrite Hm3. simpl. unfold f. rewrite Hm1. by destruct b.
      * unfold counters. simpl. rewrite Hm3. simpl. unfold f. rewrite Hm1.
        destruct (se_count _ _ _ _ _ _ Hsem) as [(Hc & Hc' & w & -> & Hw)|(Hc & Hl & Hrd)]; simpl in *.
        -- destruct (Hh w ltac:(by left)). congruence.
        -- destruct b; simpl.
           ++ left. destruct hs as [|h hs]; [by rewrite Hl|]. by destruct (Hh h ltac:(by left)).
           ++ right. rewrite wrap64_small by word_bounds. done.
  - assert (Hcomp : ¬ compatible (fl s) b hs ws) by (rewrite <- Hfree; done).
    assert (Hnw : n ∉ ws).
    { intros (x & Hx)%(se_wait _ _ _ _ _ _ Hsem). pose proof (fresh_none _ _ _ _ _ _ Hsem). unfold n in *. congruence. }
    destruct (mutex_enqueue_ok s1 ws n Hq1 Hnw) as (s2 & Hr2 & Hq2 & Hc2 & [Hg2 Hn2 _] & Hf2); [unfold n; by rewrite Hw1|].
    set (f := if b then λ m, set_waiting (waiting_writers m +% 1) m else λ m, m).
    set (s3 := mk_state (f (mx s2)) (waiters s2) (grants s2) (next_waiter s2)).
    assert (Hr3 : (if b then upd_mx (λ m, set_waiting (waiting_writers m +% 1) m) else mret tt) s2 = ok (tt, s3)).
    { unfold s3, f. destruct b; [done|]. by destruct s2. }
    erewrite prog_bind_ok; [|erewrite prog_bind_ok by exact Hr2; by erewrite prog_bind_ok by exact Hr3].
    assert (is_Some (waiters s3 !! n)) as [c3 Hc3].
    { simpl. specialize (Hf2 n). unfold fl in Hf2. unfold n in Hf2 |- *. rewrite Hw1 in Hf2. destruct (waiters s2 !! next_waiter s); [eauto|done]. }
    erewrite prog_bind_ok by (by apply get_waiter_ok). cbn [andb]. erewrite prog_bind_ok by done.
    eexists s3, hs, (ws ++ [n]). split; [done|]. split; [|right; split_and!; try done; simpl; congruence]. split_and!.
    + apply (upd_counters_queue s2); [done|]. intros m. unfold f. by destruct b.
    + simpl. rewrite Hn2, Hg2, Hn1, Hg1. apply (sem_ext (put (fl s) n (b, false, false))).
      { intros x. change (fl s2 x = put (fl s) n (b, false, false) x). by rewrite Hf2. }
      assert (Hcnt : counters s3 = (active_readers (mx s), writer_active (mx s), waiting_writers (mx s) + (if b then 1 else 0))).
      { unfold counters, s3 in *. simpl. injection Hc2 as Ha2 Hwa2 Hw2. rewrite Hm1 in *. unfold f. destruct b; simpl.
        - rewrite Ha2, Hwa2, Hw2, wrap64_small by word_bounds. done.
        - by rewrite Ha2, Hwa2, Hw2, Z.add_0_r. }
      rewrite Hcnt. by apply (sem_wait _ _ _ _ _ _ Hsem b).
    + intros _ ->. apply Hcomp. split; [|by intros h ?%not_elem_of_nil]. destruct ws; [done|]. by destruct Hbusy.
Qed.

(** ** Closing the gate *)

Fixpoint leading_readers (F : positive → option (bool * bool * bool)) (ws : list positive) : list positive :=
  match ws with
  | [] => []
  | w :: ws => if is_wr F w then [] else w :: leading_readers F ws
  end.

(** Who gets the lock when it becomes free: the writer that is next, or all readers up
    to the next writer. *)
Definition batch (F : positive → option (bool * bool * bool)) (ws : list positive) : list positive :=
  match ws with
  | [] => []
  | w :: _ => if is_wr F w then [w] else leading_readers F ws
  end.

Lemma leading_readers_split F ws :
  ∃ rest, ws = leading_readers F ws ++ rest ∧ (∀ r, r ∈ leading_readers F ws → is_wr F r = false) ∧
    match rest with [] => True | w :: _ => is_wr F w = true end.
Proof.
  induction ws as [|w ws (rest & He & Hr & Hw)]; simpl; [exists []; split_and!; try done; by intros ? ?%not_elem_of_nil|].
  destruct (is_wr F w) eqn:E.
  - exists (w :: ws). split_and!; try done. by intros ? ?%not_elem_of_nil.
  - exists rest. simpl. split_and!; [by f_equal|by intros r [->|]%elem_of_cons; auto|done].
Qed.

(** The choice of [mutex_release] when the lock is free. *)
Definition pick (fuel : nat) (h : option positive) : prog state (option positive) :=
  match h with
  | None => mret None
  | Some q =>
      wt ← get_waiter q;
      if is_writer wt then
        w ← mutex_dequeue;
        upd_mx (λ m, set_waiting (waiting_writers m -% 1) m);;
        upd_mx (set_writer true);;
        upd_waiter q set_acquired;;
        mret w
      else grant_readers fuel None None
  end.

Lemma pick_writer_ok s q ws fuel :
  queue s (q :: ws) → sem (fl s) (counters s) (next_waiter s) (grants s) [] (q :: ws) →
  Zpos (next_waiter s) < 2 ^ 62 → fl s q = Some (true, false, false) →
  ∃ s1, pick fuel (Some q) s = ok (Some q, s1) ∧ chain (nx s1) [q] ∧ queue s1 ws ∧ keeps s s1 ∧
    counters s1 = (active_readers (mx s), true, waiting_writers (mx s) - 1) ∧
    ∀ x, fl s1 x = if decide (x ∈ [q]) then Some (true, true, false) else fl s x.
Proof.
  intros Hq Hsem Hb Hqf. pose proof (sem_waiting _ _ _ _ _ _ Hsem) as Hww. simpl in Hww.
  pose proof (se_writers _ _ _ _ _ _ Hsem) as Hcount. rewrite filter_cons in Hcount.
  assert (is_wr (fl s) q = true) as Hwr by (unfold is_wr; by rewrite Hqf). rewrite Hwr, decide_True in Hcount by done.
  simpl in Hcount.
  destruct (fl_some s q _ Hqf) as (c & Hc & Hcf). unfold flags in Hcf. injection Hcf as Hcw _ _.
  unfold pick. erewrite prog_bind_ok by (by apply get_waiter_ok). rewrite Hcw.
  destruct (mutex_dequeue_ok s q ws Hq) as (s1 & Hr1 & Hq1 & Hc1 & [Hg1 Hn1 Hs1] & Hnx1 & Hf1).
  erewrite prog_bind_ok by exact Hr1. erewrite prog_bind_ok by done. erewrite prog_bind_ok by done.
  set (s2 := mk_state (set_writer true (set_waiting (waiting_writers (mx s1) -% 1) (mx s1))) (waiters s1) (grants s1) (next_waiter s1)).
  assert (∃ c2, waiters s2 !! q = Some c2 ∧ flags c2 = (true, false, false)) as (c2 & Hqc & Hfl).
  { apply (fl_some s2). change (fl s1 q = Some (true, false, false)). by rewrite Hf1. }
  destruct (upd_flags_ok s2 q c2 set_acquired Hqc eq_refl) as (s3 & Hr3 & Hm3 & [Hg3 Hn3 Hs3] & Hnx3 & Hf3).
  erewrite prog_bind_ok by exact Hr3. exists s3. split; [done|]. injection Hc1 as Ha1 Hw1 Hww1. split; [|split; [|split; [|split]]].
  - simpl. split; [|done]. rewrite Hnx3. change (nx s1 q = Some None). by rewrite Hnx1, decide_True.
  - apply (queue_ext s2); [|done|by intros x _; rewrite Hnx3].
    by apply (upd_counters_queue s1 ws (λ m, set_writer true (set_waiting (waiting_writers m -% 1) m))).
  - split; simpl in *; congruence.
  - unfold counters. rewrite Hm3. simpl. rewrite Ha1, Hww1. rewrite wrap64_small by word_bounds. done.
  - intros x. rewrite Hf3. destruct (decide (x = q)) as [->|Hx].
    + rewrite decide_True by (by left). destruct c2. unfold flags in *. simpl in *. congruence.
    + rewrite decide_False; [apply Hf1|]. by intros ->%list_elem_of_singleton.
Qed.

Lemma pick_readers_ok s q ws fuel :
  queue s (q :: ws) → sem (fl s) (counters s) (next_waiter s) (grants s) [] (q :: ws) →
  Zpos (next_waiter s) < 2 ^ 62 → is_wr (fl s) q = false → (length (q :: ws) < fuel)%nat →
  let rs := leading_readers (fl s) (q :: ws) in
  ∃ s1 ws', q :: ws = rs ++ ws' ∧ pick fuel (Some q) s = ok (head rs, s1) ∧ chain (nx s1) rs ∧ queue s1 ws' ∧ keeps s s1 ∧
    counters s1 = (active_readers (mx s) + Z.of_nat (length rs), writer_active (mx s), waiting_writers (mx s)) ∧
    (∀ r, r ∈ rs → fl s r = Some (false, false, false)) ∧
    ∀ x, fl s1 x = if decide (x ∈ rs) then Some (false, true, false) else fl s x.
Proof.
  intros Hq Hsem Hb Hwr Hfuel rs. destruct (leading_readers_split (fl s) (q :: ws)) as (ws' & Heq & Hr & Hnext).
  fold rs in Heq, Hr. pose proof (sem_readers _ _ _ _ _ _ Hsem) as Hrd. simpl in Hrd.
  assert (Hrs : ∀ r, r ∈ rs → fl s r = Some (false, false, false)).
  { intros r Hin. assert (∃ b, fl s r = Some (b, false, false)) as (b & Hf).
    { apply (se_wait _ _ _ _ _ _ Hsem). rewrite Heq. apply elem_of_app. by left. }
    specialize (Hr r Hin). unfold is_wr in Hr. rewrite Hf in Hr. by rewrite Hf, Hr. }
  destruct (fl_some s q (false, false, false)) as (c & Hc & Hcf).
  { apply Hrs. unfold rs. simpl. rewrite Hwr. by left. }
  unfold flags in Hcf. injection Hcf as Hcw _ _.
  unfold pick. erewrite prog_bind_ok by (by apply get_waiter_ok). rewrite Hcw.
  assert (Hlen : length (q :: ws) = (length rs + length ws')%nat) by (by rewrite Heq, length_app).
  pose proof (qu_nodup _ _ Hq) as Hnd. rewrite Heq in Hq, Hnd.
  assert (Z.of_nat (length rs) < Zpos (next_waiter s)).
  { apply below_length; [by apply NoDup_app in Hnd as (? & _)|]. intros x Hx%Hrs. apply (se_fresh _ _ _ _ _ _ Hsem). eauto. }
  destruct (grant_readers_ok rs fuel s [] ws' Hq Hrs) as (s1 & Hr1 & Hq1 & Hc1 & Hcnt & Hk & Hf1);
    [|done|done|lia|lia|unfold WORD; lia|].
  { destruct ws' as [|w ws']; [done|]. simpl. unfold is_wr in Hnext. destruct (fl s w) as [[[b a] h]|]; [|done].
    subst b. eauto. }
  exists s1, ws'. by split_and!.
Qed.

Lemma filter_size_le s hs ws : locks_ok s hs ws → (length ws <= size (waiters s))%nat.
Proof.
  intros (Hq & Hsem & _). rewrite <- (size_list_to_set (C := gset positive) ws) by apply (qu_nodup _ _ Hq).
  rewrite <- size_dom. apply subseteq_size. intros x Hx%elem_of_list_to_set.
  apply (se_wait _ _ _ _ _ _ Hsem) in Hx as (b & (c & Hc & _)%fl_some). by apply elem_of_dom.
Qed.

(** The free lock is handed to the next batch, and each of them is sent its grant. *)
Lemma hand_on_ok s ws :
  queue s ws → sem (fl s) (counters s) (next_waiter s) (grants s) [] ws → Zpos (next_waiter s) < 2 ^ 62 →
  (length ws <= size (waiters s))%nat →
  ∃ s' ws', (fuel ← loop_fuel; g ← pick fuel (head ws); send_grants fuel g) s = ok (tt, s') ∧
    ws = batch (fl s) ws ++ ws' ∧ locks_ok s' (batch (fl s) ws) ws' ∧ grants s' = grants s ++ batch (fl s) ws.
Proof.
  intros Hq Hsem Hb Hsize. erewrite prog_bind_ok by done. destruct ws as [|q ws].
  { simpl. erewrite prog_bind_ok by done. exists s, []. rewrite app_nil_r. by split_and!. }
  assert (∃ wr, fl s q = Some (wr, false, false)) as (wr & Hqf) by (apply (se_wait _ _ _ _ _ _ Hsem); by left).
  assert (Hwr : is_wr (fl s) q = wr) by (unfold is_wr; by rewrite Hqf).
  set (b := batch (fl s) (q :: ws)).
  assert (∃ s1 ws', pick (S (size (waiters s))) (Some q) s = ok (head b, s1) ∧ q :: ws = b ++ ws' ∧ chain (nx s1) b ∧
            queue s1 ws' ∧ keeps s s1 ∧ b ≠ [] ∧ (length b <= size (waiters s))%nat ∧
            sem (fl s1) (counters s1) (next_waiter s) (grants s ++ b) b ws') as
    (s1 & ws' & Hr & Heq & Hc & Hq1 & [Hg1 Hn1 _] & Hne & Hlen & Hsem1).
  { unfold b, batch. rewrite Hwr. destruct wr.
    - destruct (pick_writer_ok s q ws (S (size (waiters s))) Hq Hsem Hb Hqf) as (s1 & Hr & Hc & Hq1 & Hk & Hcnt & Hf).
      exists s1, ws. split_and!; try done; [simpl in *; lia|]. rewrite Hcnt. eapply sem_ext; [exact Hf|].
      apply (sem_grant _ _ _ _ _ _ Hsem true [q] ws); [done|done| |left; done].
      by intros r ->%list_elem_of_singleton.
    - destruct (pick_readers_ok s q ws (S (size (waiters s))) Hq Hsem Hb Hwr) as (s1 & ws' & Heq & Hr & Hc & Hq1 & Hk & Hcnt & Hrs & Hf); [lia|].
      exists s1, ws'. split_and!; try done.
      + simpl. by rewrite Hwr.
      + apply (f_equal length) in Heq. rewrite length_app in Heq. lia.
      + rewrite Hcnt. eapply sem_ext; [exact Hf|]. apply (sem_grant _ _ _ _ _ _ Hsem false _ ws'); [done|done|done|by right]. }
  cbn [head]. erewrite prog_bind_ok by exact Hr. rewrite send_grants_ok; [|done|lia].
  eexists _, ws'. split; [done|]. split; [done|]. split; [|simpl; by rewrite Hg1]. split_and!.
  - by apply (queue_ext s1).
  - simpl. rewrite Hn1, Hg1. exact Hsem1.
  - done.
Qed.

(** A holder [w] releases; [hs'] still hold. *)
Lemma release_ok s w b hs ws :
  locks_ok s hs ws → fl s w = Some (b, true, false) → Zpos (next_waiter s) < 2 ^ 62 →
  ∀ s1, mx s1 = mx s → keeps s s1 → (∀ x, nx s1 x = nx s x) → (∀ x, fl s1 x = put (fl s) w (b, true, true) x) →
  ∃ s' hs' ws', mutex_release b s1 = ok (tt, s') ∧ hs ≡ₚ w :: hs' ∧
    (hs' ≠ [] ∧ ws' = ws ∧ grants s' = grants s ∧ locks_ok s' hs' ws ∨
     hs' = [] ∧ ws = batch (fl s) ws ++ ws' ∧ grants s' = grants s ++ batch (fl s) ws ∧ locks_ok s' (batch (fl s) ws) ws').
Proof.
  intros Hok Hw Hb s1 Hm1 [Hg1 Hn1 Hs1] Hnx1 Hf1. pose proof Hok as (Hq & Hsem & Hbusy).
  pose proof (filter_size_le s hs ws Hok) as Hsize.
  destruct (sem_drop _ _ _ _ _ _ Hsem w b Hw) as (hs' & Hp & Hsem').
  set (f := if b then set_writer false else λ m, set_readers (active_readers m - 1) m).
  set (s2 := mk_state (f (mx s1)) (waiters s1) (grants s1) (next_waiter s1)).
  assert (Hr2 : ∀ A (k : () → prog state A),
            ((if b then upd_mx (set_writer false)
              else if 0 <? active_readers (mx s1) then upd_mx (λ m, set_readers (active_readers m - 1) m) else mret tt) ≫= k) s1
            = k tt s2).
  { intros A k. apply prog_bind_ok. unfold s2, f. destruct b; [done|].
    assert (0 <? active_readers (mx s1) = true) as ->; [|done]. rewrite Hm1.
    destruct (se_count _ _ _ _ _ _ Hsem) as [(_ & _ & x & Hx & Hxw)|(_ & Hl & _)]; simpl in *.
    - rewrite Hx in Hp. apply Permutation_singleton_l in Hp. injection Hp as Hxe _. subst x.
      unfold is_wr in Hxw. by rewrite Hw in Hxw.
    - rewrite Hl. apply Permutation_length in Hp. by rewrite Hp. }
  assert (Hcnt : counters s2 = if b then (active_readers (mx s), false, waiting_writers (mx s))
                               else (active_readers (mx s) - 1, writer_active (mx s), waiting_writers (mx s))).
  { unfold counters, s2, f. rewrite Hm1. by destruct b. }
  assert (Hq2 : queue s2 ws).
  { apply (upd_counters_queue s1); [by apply (queue_ext s)|]. intros m. unfold f. by destruct b. }
  assert (Hsem2 : sem (fl s2) (counters s2) (next_waiter s2) (grants s2) hs' ws).
  { rewrite Hcnt. simpl. rewrite Hn1, Hg1. eapply sem_ext; [exact Hf1|exact Hsem']. }
  unfold mutex_release. erewrite prog_bind_ok by done. rewrite Hr2. erewrite prog_bind_ok by done.
  pose proof (se_count _ _ _ _ _ _ Hsem2) as Hcount.
  assert (Hwact : writer_active (mx s2) = false ∧ active_readers (mx s2) = Z.of_nat (length hs')).
  { destruct Hcount as [(Hc & _)|(Hc & Hc' & _)]; [|done]. exfalso.
    destruct b; [rewrite Hcnt in Hc; done|]. rewrite Hcnt in Hc. simpl in Hc.
    destruct (se_count _ _ _ _ _ _ Hsem) as [(_ & _ & x & Hx & Hxw)|(Hc' & _)]; [|simpl in Hc'; congruence].
    rewrite Hx in Hp. apply Permutation_singleton_l in Hp. injection Hp as Hxe _. subst x.
    unfold is_wr in Hxw. by rewrite Hw in Hxw. }
  destruct Hwact as [-> ->]. cbn [negb andb].
  assert (Hbatch : batch (fl s2) ws = batch (fl s) ws).
  { assert (Hx : ∀ x, x ∈ ws → is_wr (fl s2) x = is_wr (fl s) x).
    { intros x Hx. unfold is_wr. change (fl s2 x) with (fl s1 x). rewrite Hf1, put_ne; [done|]. intros ->.
      apply (se_wait _ _ _ _ _ _ Hsem) in Hx as (? & ?). congruence. }
    assert (Hl : leading_readers (fl s2) ws = leading_readers (fl s) ws).
    { clear -Hx. induction ws as [|x ws IH]; [done|]. simpl. rewrite Hx by (by left). rewrite IH; [done|].
      intros y Hy. apply Hx. by right. }
    unfold batch. destruct ws as [|x ws]; [done|]. rewrite Hx by (by left). by rewrite Hl. }
  destruct hs' as [|h hs'].
  - change (Z.of_nat (length []) =? 0) with true. cbv iota. rewrite (qu_head _ _ Hq2).
    destruct (hand_on_ok s2 ws Hq2 Hsem2) as (s' & ws' & Hr & Heq & Hok' & Hg'); [simpl; by rewrite Hn1|simpl; lia|].
    exists s', [], ws'. split; [exact Hr|]. split; [done|]. right. rewrite Hbatch in *. split_and!; try done.
    rewrite Hg'. simpl. by rewrite Hg1.
  - destruct (Z.eqb_spec (Z.of_nat (length (h :: hs'))) 0) as [|_]; [done|].
    exists s2, (h :: hs'), ws. split; [done|]. split; [done|]. left. split_and!; try done.
Qed.

(** What closing gate [w] does to who holds and who waits. *)
Definition closed_gate (s s' : state) (w : positive) (hs ws hs' ws' : list positive) : Prop :=
  (w ∉ hs ∧ w ∉ ws ∧ hs' = hs ∧ ws' = ws ∧ grants s' = grants s) ∨
  (∃ pre post, ws = pre ++ w :: post ∧ ws' = pre ++ post ∧ hs' = hs ∧ grants s' = grants s) ∨
  (∃ others, hs ≡ₚ w :: others ∧
    (others ≠ [] ∧ hs' = others ∧ ws' = ws ∧ grants s' = grants s ∨
     others = [] ∧ hs' = batch (fl s) ws ∧ ws = batch (fl s) ws ++ ws' ∧ grants s' = grants s ++ batch (fl s) ws)).

Lemma close_ok s w hs ws :
  locks_ok s hs ws → is_Some (fl s w) → Zpos (next_waiter s) < 2 ^ 62 →
  ∃ s' hs' ws', mutex_on_lock_channel_closed w s = ok (tt, s') ∧ locks_ok s' hs' ws' ∧ closed_gate s s' w hs ws hs' ws'.
Proof.
  intros Hok [[[b a] h] Hw] Hb. pose proof Hok as (Hq & Hsem & Hbusy).
  destruct (fl_some s w _ Hw) as (c & Hc & Hcf). unfold flags in Hcf. injection Hcf as Hcb Hca Hch.
  destruct (upd_flags_ok s w c set_handled Hc eq_refl) as (s1 & Hr1 & Hm1 & Hk1 & Hnx1 & Hf1).
  unfold mutex_on_lock_channel_closed. erewrite prog_bind_ok by (by apply get_waiter_ok). erewrite prog_bind_ok by exact Hr1.
  assert (Hf1' : ∀ x, fl s1 x = put (fl s) w (b, a, true) x).
  { intros x. rewrite Hf1. unfold put. case_decide; [|done]. unfold flags. simpl. by rewrite Hcb, Hca. }
  rewrite Hch, Hca, Hcb. destruct Hk1 as [Hg1 Hn1 Hs1]. destruct h; [|destruct a].
  - exists s1, hs, ws. split; [done|]. split.
    + split_and!; [by apply (queue_ext s)| |done]. unfold counters. rewrite Hm1, Hn1, Hg1. eapply sem_ext; [|exact Hsem].
      intros x. rewrite Hf1'. unfold put. case_decide; [by subst|done].
    + left. split_and!; try done.
      * intros (? & ?)%(se_hold _ _ _ _ _ _ Hsem). congruence.
      * intros (? & ?)%(se_wait _ _ _ _ _ _ Hsem). congruence.
  - destruct (release_ok s w b hs ws Hok Hw Hb s1 Hm1) as (s' & hs' & ws' & Hr & Hp & Hcase); [done|done|done|].
    destruct Hcase as [(Hne & -> & Hg & Hok')|(-> & Heq & Hg & Hok')].
    + exists s', hs', ws. split; [done|]. split; [done|]. right. right. exists hs'. split; [done|]. by left.
    + exists s', (batch (fl s) ws), ws'. split; [done|]. split; [done|]. right. right. exists []. split; [done|]. by right.
  - assert (Hin : w ∈ ws) by (apply (se_wait _ _ _ _ _ _ Hsem); eauto).
    apply list_elem_of_split in Hin as (pre & post & ->). pose proof (filter_size_le s hs _ Hok) as Hsize.
    assert (Hq1 : queue s1 (pre ++ w :: post)) by (by apply (queue_ext s)).
    unfold mutex_cancel_waiter. erewrite prog_bind_ok by done. erewrite prog_bind_ok by done. rewrite (qu_head _ _ Hq1).
    destruct (cancel_loop_ok pre [] (S (size (waiters s1))) s1 w post b false true Hq1) as (s' & Hr & Hq' & Hcnt & [Hg' Hn' _] & Hf').
    + rewrite length_app in Hsize. simpl in Hsize. lia.
    + by rewrite Hf1', put_eq.
    + intros ->. rewrite Hm1. pose proof (se_writers _ _ _ _ _ _ Hsem) as Hcount. simpl in Hcount.
      rewrite Hcount, filter_app, filter_cons. assert (is_wr (fl s) w = true) as -> by (unfold is_wr; by rewrite Hw).
      rewrite decide_True, length_app by done. simpl. lia.
    + exists s', hs, (pre ++ post). split; [exact Hr|]. split.
      * split_and!; [done| |].
        -- rewrite Hcnt, Hn', Hg', Hn1, Hg1, Hm1. eapply sem_ext; [|by apply (sem_withdraw _ _ _ _ _ _ Hsem w b pre post)].
           intros x. by rewrite Hf', Hf1'.
        -- intros _. apply Hbusy. by destruct pre.
      * right. left. exists pre, post. split_and!; try done. by rewrite Hg', Hg1.
Qed.

(** ** Claims *)

Inductive mevent := MLock (b : bool) | MClose (w : positive).

Definition run_mevent (e : mevent) : prog state () :=
  match e with MLock b => _ ← mutex_lock_request b; mret tt | MClose w => mutex_on_lock_channel_closed w end.

Definition can_mevent (s : state) (e : mevent) : Prop :=
  Zpos (next_waiter s) < 2 ^ 62 ∧ match e with MLock _ => True | MClose w => is_Some (fl s w) end.

Inductive mreach : state → Prop :=
| mreach_init : mreach goc_mutex_make
| mreach_step s e s' : mreach s → can_mevent s e → run_mevent e s = ok (tt, s') → mreach s'.

Lemma init_locks_ok : locks_ok goc_mutex_make [] [].
Proof.
  assert (Hfl : ∀ w, fl goc_mutex_make w = None) by (intros w; unfold fl; simpl; by rewrite lookup_empty).
  assert (Hnil : ∀ (w : positive) (P : Prop), w ∈ [] → P) by (intros w P Hw; by apply not_elem_of_nil in Hw).
  split_and!; [split; [constructor|done|done|done]| |done]. split.
  - intros w. rewrite Hfl. split; [apply Hnil|by intros (? & ?)].
  - intros w. rewrite Hfl. split; [apply Hnil|by intros (? & ?)].
  - constructor.
  - right. split_and!; [done|done|]. intros w. apply Hnil.
  - done.
  - intros w. rewrite Hfl. split; [by intros [? ?]|]. simpl. lia.
  - constructor.
  - intros w g b h Hw. by apply (Hnil w).
  - intros g. rewrite Hfl. split; [apply Hnil|by intros (? & ? & ?)].
  - constructor.
Qed.

Lemma mreach_ok s : mreach s → ∃ hs ws, locks_ok s hs ws.
Proof.
  induction 1 as [|s e s' _ (hs & ws & Hok) [Hb Hcan] Hr]; [exists [], []; apply init_locks_ok|].
  destruct e as [b|w]; simpl in *.
  - destruct (request_ok s hs ws b Hok Hb) as (s'' & hs' & ws' & Hr' & Hok' & _).
    erewrite prog_bind_ok in Hr by exact Hr'. injection Hr as <-. eauto.
  - destruct (close_ok s w hs ws Hok Hcan Hb) as (s'' & hs' & ws' & Hr' & Hok' & _).
    rewrite Hr in Hr'. injection Hr' as <-. eauto.
Qed.

(** C7: From every state that lock requests and closes of gates lead to, the next
    request or close runs to its end (no dangling waiter, no endless loop).  A request is
    granted at once exactly when nobody waits and it conflicts with no holder; otherwise
    it joins the end of the queue.  Closing the gate of a waiter removes it from the
    queue and nothing else; closing the gate of the last holder hands the lock to the next
    batch (one writer, or all readers up to the next writer) and sends each its grant;
    closing a gate again does nothing. *)
Theorem mutex_call_behaviour s :
  mreach s → Zpos (next_waiter s) < 2 ^ 62 →
  ∃ hs ws, locks_ok s hs ws ∧
    (∀ b, ∃ s' hs' ws', mutex_lock_request b s = ok (next_waiter s, s') ∧ locks_ok s' hs' ws' ∧
      (compatible (fl s) b hs ws ∧ hs' = hs ++ [next_waiter s] ∧ ws' = [] ∧ grants s' = grants s ++ [next_waiter s] ∨
       ¬ compatible (fl s) b hs ws ∧ hs' = hs ∧ ws' = ws ++ [next_waiter s] ∧ grants s' = grants s)) ∧
    (∀ w, is_Some (fl s w) → ∃ s' hs' ws', mutex_on_lock_channel_closed w s = ok (tt, s') ∧ locks_ok s' hs' ws' ∧
      closed_gate s s' w hs ws hs' ws').
Proof.
  intros (hs & ws & Hok)%mreach_ok Hb. exists hs, ws. split; [done|]. split.
  - intros b. by apply request_ok.
  - intros w Hw. by apply close_ok.
Qed.

Lemma mutex_call_behaviour_witness :
  ∃ s', mutex_lock_request true goc_mutex_make = ok (1%positive, s') ∧ grants s' = [1%positive].
Proof.
  destruct (mutex_call_behaviour goc_mutex_make mreach_init eq_refl) as (hs & ws & _ & H & _).
  destruct (H true) as (s' & hs' & ws' & Hr & _ & _). exists s'. split; [exact Hr|].
  vm_compute in Hr. injection Hr as <-. reflexivity.
Defined.

(** [w] holds the lock; [w] waits for it. *)
Definition is_holder (s : state) (w : positive) : Prop := ∃ b, fl s w = Some (b, true, false).

(** C34: A writer that holds the lock is the only holder, however requests and releases
    interleaved. *)
Theorem mutex_exclusion s w h :
  mreach s → fl s w = Some (true, true, false) → is_holder s h → h = w.
Proof.
  intros (hs & ws & _ & Hsem & _)%mreach_ok Hw (b & Hh).
  assert (w ∈ hs) as Hw' by (apply (se_hold _ _ _ _ _ _ Hsem); eauto).
  assert (h ∈ hs) as Hh' by (apply (se_hold _ _ _ _ _ _ Hsem); eauto).
  destruct (se_count _ _ _ _ _ _ Hsem) as [(_ & _ & x & -> & _)|(_ & _ & Hr)].
  - apply list_elem_of_singleton in Hw', Hh'. congruence.
  - apply Hr in Hw'. unfold is_wr in Hw'. by rewrite Hw in Hw'.
Qed.

(** A writer holds the lock, a reader and a writer wait. *)
Definition busy : state :=
  match (goc_write_lock;; goc_read_lock;; goc_write_lock) goc_mutex_make with ok (_, s) => s | _ => goc_mutex_make end.

Lemma busy_reach : mreach busy.
Proof.
  assert (R1 : mreach (match goc_write_lock goc_mutex_make with ok (_, s) => s | _ => goc_mutex_make end)).
  { refine (mreach_step _ (MLock true) _ mreach_init _ _); [by split|vm_compute; reflexivity]. }
  assert (R2 : mreach (match (goc_write_lock;; goc_read_lock) goc_mutex_make with ok (_, s) => s | _ => goc_mutex_make end)).
  { refine (mreach_step _ (MLock false) _ R1 _ _); [by split|vm_compute; reflexivity]. }
  refine (mreach_step _ (MLock true) _ R2 _ _); [by split|vm_compute; reflexivity].
Qed.

Lemma mutex_exclusion_witness : is_holder busy 1 ∧ ∃ h, h = 1%positive ∧ is_holder busy h.
Proof.
  assert (H : is_holder busy 1) by (exists true; vm_compute; reflexivity). split; [exact H|]. exists 1%positive.
  split; [|exact H]. apply (mutex_exclusion busy 1 1 busy_reach); [vm_compute; reflexivity|exact H].
Defined.



End MutexProps.
