(* ===== verification/Pool.v ===== *)
(** The fiber pool (pool.c, and the launch of fibers of fiber.c): the spawn throttle,
    the posting of runnable fibers to worker queues, the scheduling loop of the workers
    and the destruction of a pool, as threads that interleave.

    The threads are the workers, any number of other threads that spawn and wake fibers,
    and the one that destroys the pool.  A critical section under [drain_mutex], one
    operation on a deque or an injector, and one access to an atomic field are steps.
    Inside a call a thread has a list of things still to do, its [task]s. *)

From S2P Require Import Prelude.

Module Pool.

(** ** The injector queue, as the pool sees it

    What wsdq.c promises of an injector: a queue of non-null entries, [0] when empty. *)

Class Injector (Q : Type) := {
  inj_init : Q;
  inj_push : Z → prog Q ();
  inj_pop : prog Q Z;
  inj_holds : Q → list Z → Prop;
  inj_holds_fun q es es' : inj_holds q es → inj_holds q es' → es = es';
  inj_init_ok : inj_holds inj_init [];
  inj_push_ok q es e : inj_holds q es → ∃ q', inj_push e q = ok (tt, q') ∧ inj_holds q' (es ++ [e]);
  inj_pop_ok q es : inj_holds q es → ∃ q', inj_pop q = ok (default 0 (head es), q') ∧ inj_holds q' (tail es)
}.

(** ** State *)

Record goc_spawn_req := mk_req {
  next : option positive; fn : Z; fn_arg : Z; join_ch : Z; home_worker_idx : Z }.
Definition set_next (n : option positive) (r : goc_spawn_req) : goc_spawn_req :=
  mk_req n (fn r) (fn_arg r) (join_ch r) (home_worker_idx r).

(** The launch fields of a fiber's entry. *)
Record goc_entry := mk_entry { e_fn : Z; e_arg : Z; e_join : Z; e_home : Z }.

(** Where a worker is in [pool_worker_fn]. *)
Inductive wpc :=
| Top                       (* while (!shutdown) *)
| PopOwn | PopInj           (* 1. and 2. *)
| Hint | Scan (offset i : Z)  (* 3. *)
| Look | GoIdle             (* 4. *)
| RePop | ReInj             (* the recheck after idle_count was raised *)
| Sleep                     (* uv_run(UV_RUN_ONCE) *)
| Callbacks                 (* the callbacks it runs *)
| Run (e : Z)               (* inside mco_resume *)
| AfterRun (e : Z) (dead : bool)  (* it returned *)
| Polled (e : Z) (dead : bool)    (* inside or after uv_run(UV_RUN_NOWAIT) *)
| Gate (e : Z)              (* the fiber has yielded; parked is still odd *)
| Exited.
#[export] Instance wpc_eq : EqDecision wpc.
Proof. solve_decision. Defined.

Section Pool.
Context {Q : Type} `{Injector Q}.

(** The deque is the abstract one of wsdq.c: oldest entry first.  [wakeup_sent] says that
    [uv_async_send] was called on [wakeup] and [uv_run] has not returned since. *)
Record goc_worker := mk_worker {
  deque : list Z; injector : Q; wakeup_sent : bool;
  last_steal_victim : Z; miss_streak : Z; seed : Z; pc : wpc }.

Definition set_deque d (w : goc_worker) := mk_worker d (injector w) (wakeup_sent w) (last_steal_victim w) (miss_streak w) (seed w) (pc w).
Definition set_injector q (w : goc_worker) := mk_worker (deque w) q (wakeup_sent w) (last_steal_victim w) (miss_streak w) (seed w) (pc w).
Definition set_sent b (w : goc_worker) := mk_worker (deque w) (injector w) b (last_steal_victim w) (miss_streak w) (seed w) (pc w).
Definition set_victim v (w : goc_worker) := mk_worker (deque w) (injector w) (wakeup_sent w) v (miss_streak w) (seed w) (pc w).
Definition set_streak n (w : goc_worker) := mk_worker (deque w) (injector w) (wakeup_sent w) (last_steal_victim w) n (seed w) (pc w).
Definition set_seed s (w : goc_worker) := mk_worker (deque w) (injector w) (wakeup_sent w) (last_steal_victim w) (miss_streak w) s (pc w).
Definition set_pc p (w : goc_worker) := mk_worker (deque w) (injector w) (wakeup_sent w) (last_steal_victim w) (miss_streak w) (seed w) p.

Record goc_pool := mk_pool {
  workers : list goc_worker; max_live_fibers : Z; idle_count : Z; next_push_idx : Z;
  shutdown : bool; live_count : Z; resident_count : Z;
  pending_spawn_head : option positive; pending_spawn_tail : option positive }.

Definition set_workers l p := mk_pool l (max_live_fibers p) (idle_count p) (next_push_idx p) (shutdown p) (live_count p) (resident_count p) (pending_spawn_head p) (pending_spawn_tail p).
Definition set_idle n p := mk_pool (workers p) (max_live_fibers p) n (next_push_idx p) (shutdown p) (live_count p) (resident_count p) (pending_spawn_head p) (pending_spawn_tail p).
Definition set_push_idx n p := mk_pool (workers p) (max_live_fibers p) (idle_count p) n (shutdown p) (live_count p) (resident_count p) (pending_spawn_head p) (pending_spawn_tail p).
Definition set_shutdown p := mk_pool (workers p) (max_live_fibers p) (idle_count p) (next_push_idx p) true (live_count p) (resident_count p) (pending_spawn_head p) (pending_spawn_tail p).
Definition set_live n p := mk_pool (workers p) (max_live_fibers p) (idle_count p) (next_push_idx p) (shutdown p) n (resident_count p) (pending_spawn_head p) (pending_spawn_tail p).
Definition set_resident n p := mk_pool (workers p) (max_live_fibers p) (idle_count p) (next_push_idx p) (shutdown p) (live_count p) n (pending_spawn_head p) (pending_spawn_tail p).
Definition set_head h p := mk_pool (workers p) (max_live_fibers p) (idle_count p) (next_push_idx p) (shutdown p) (live_count p) (resident_count p) h (pending_spawn_tail p).
Definition set_tail t p := mk_pool (workers p) (max_live_fibers p) (idle_count p) (next_push_idx p) (shutdown p) (live_count p) (resident_count p) (pending_spawn_head p) t.

Definition thread_count (p : goc_pool) : Z := Z.of_nat (length (workers p)).

End Pool.
Arguments goc_worker : clear implicits.
Arguments goc_pool : clear implicits.

(** What a thread inside a call has still to do. *)
Inductive task :=
| Create (fn arg join : Z) (home : option Z)   (* goc_fiber_entry_create and the post that follows *)
| Dispatch (reqs : option positive)            (* pool_dispatch_spawn_list *)
| Post (e : Z)                                 (* post_to_run_queue *)
| PostTo (worker_idx e : Z)                    (* post_to_specific_worker *)
| WakeTarget (idx : Z)                         (* after a push to an injector: shutdown test and wakeup *)
| WakePeer (idx : Z)                           (* after a push to its own deque: idle test and wakeup *)
| Wakeup (idx : Z).                            (* worker_try_wakeup *)
#[export] Instance task_eq : EqDecision task.
Proof. solve_decision. Defined.

(** Where the thread that destroys the pool is. *)
Inductive dpc :=
| NoDestroy | Draining (timed : bool) | Signal | WakeAll (i : nat) | Join (i : nat) | Freed.

Section Machine.
Context {Q : Type} `{Injector Q}.

(** [todo] has the tasks of the workers, then those of the other threads.  [fibers] are
    the fibers that were created and have not finished, [parked] those of them that have
    yielded and wait to be woken. *)
Record world := mk_world {
  pool : goc_pool Q; todo : list (list task); reqs : gmap positive goc_spawn_req;
  fibers : gmap Z goc_entry; next_fiber : Z; parked : list Z; destroyer : dpc }.

Definition set_pool p (w : world) := mk_world p (todo w) (reqs w) (fibers w) (next_fiber w) (parked w) (destroyer w).
Definition set_todo l (w : world) := mk_world (pool w) l (reqs w) (fibers w) (next_fiber w) (parked w) (destroyer w).
Definition set_reqs m (w : world) := mk_world (pool w) (todo w) m (fibers w) (next_fiber w) (parked w) (destroyer w).
Definition set_parked l (w : world) := mk_world (pool w) (todo w) (reqs w) (fibers w) (next_fiber w) l (destroyer w).
Definition set_fibers m (w : world) := mk_world (pool w) (todo w) (reqs w) m (next_fiber w) (parked w) (destroyer w).
Definition set_destroyer d (w : world) := mk_world (pool w) (todo w) (reqs w) (fibers w) (next_fiber w) (parked w) d.

(** The pool is freed at the end of its destruction: an access after that is an access to
    freed memory. *)
Definition get_pool : prog world (goc_pool Q) := λ w,
  match destroyer w with Freed => ub | _ => ok (pool w, w) end.
Definition upd_pool (f : goc_pool Q → goc_pool Q) : prog world () := λ w,
  match destroyer w with Freed => ub | _ => ok (tt, set_pool (f (pool w)) w) end.
Definition get_worker (i : Z) : prog world (goc_worker Q) :=
  p ← get_pool; of_option (zget (workers p) i).
Definition upd_worker (i : Z) (f : goc_worker Q → goc_worker Q) : prog world () :=
  p ← get_pool; k ← of_option (zget (workers p) i);
  l ← of_option (zset (workers p) i (f k)); upd_pool (set_workers l).
Definition get_req (r : positive) : prog world goc_spawn_req := λ w, of_option (reqs w !! r) w.
Definition put_req (r : positive) (q : goc_spawn_req) : prog world () := λ w,
  ok (tt, set_reqs (<[r := q]> (reqs w)) w).

Definition free_req (r : positive) : prog world () := λ w, ok (tt, set_reqs (delete r (reqs w)) w).

(** ** The spawn throttle *)

Definition pool_spawn_cap_reached_locked (p : goc_pool Q) : bool :=
  negb (max_live_fibers p =? 0) && (max_live_fibers p <=? resident_count p).

Definition pool_enqueue_spawn_locked (r : positive) : prog world () :=
  q ← get_req r; put_req r (set_next None q);;
  p ← get_pool;
  match pending_spawn_tail p with
  | Some t => qt ← get_req t; put_req t (set_next (Some r) qt)
  | None => upd_pool (set_head (Some r))
  end;;
  upd_pool (set_tail (Some r)).

Fixpoint collect_loop (fuel : nat) (admitted_head admitted_tail : option positive) : prog world (option positive) :=
  p ← get_pool;
  match pending_spawn_head p with
  | None => mret admitted_head
  | Some r =>
      if pool_spawn_cap_reached_locked p then mret admitted_head
      else
        match fuel with
        | O => HANG
        | S fuel =>
            q ← get_req r;
            upd_pool (set_head (next q));;
            match next q with None => upd_pool (set_tail None) | Some _ => mret tt end;;
            put_req r (set_next None q);;
            head ← match admitted_tail with
                   | Some t => qt ← get_req t; put_req t (set_next (Some r) qt);; mret admitted_head
                   | None => mret (Some r)
                   end;
            p ← get_pool;
            upd_pool (set_resident (resident_count p +% 1));;
            collect_loop fuel head (Some r)
        end
  end.

(** Every turn takes one request off the pending list. *)
Definition pool_collect_admitted_spawns_locked : prog world (option positive) := λ w,
  collect_loop (size (reqs w)) None None w.

(** [GC_malloc_uncollectable] returns a block not in use. *)
Definition new_req (q : goc_spawn_req) : prog world positive := λ w,
  let r := fresh (dom (reqs w)) in ok (r, set_reqs (<[r := q]> (reqs w)) w).

(** The critical section of a spawn; [self] is the worker the thread is, if any. *)
Definition submit_locked (self : option Z) (fn arg join : Z) (home : option Z) : prog world (list task) :=
  let bypass_throttle := bool_decide (is_Some self) in
  p ← get_pool; upd_pool (set_live (live_count p +% 1));;
  if bypass_throttle || (bool_decide (pending_spawn_head p = None) && negb (pool_spawn_cap_reached_locked p))
  then upd_pool (set_resident (resident_count p +% 1));; mret [Create fn arg join home]
  else
    r ← new_req (mk_req None fn arg join (default SIZE_MAX home));
    pool_enqueue_spawn_locked r;;
    admitted ← pool_collect_admitted_spawns_locked;
    mret [Dispatch admitted].

Definition pool_submit_spawn (self : option Z) (fn arg join : Z) : prog world (list task) :=
  submit_locked self fn arg join None.

Definition pool_submit_spawn_to_worker (self : option Z) (worker_idx fn arg join : Z) : prog world (list task) :=
  submit_locked self fn arg join (Some worker_idx).

(** ** Posting runnable fibers *)

Definition send (i : Z) : prog world () :=
  w ← get_worker i;
  if bool_decide (pc w = Exited) then mret tt   (* wakeup is NULL, or closing is set *)
  else upd_worker i (set_sent true).

Definition worker_try_wakeup (i : Z) : prog world () := send i.

(** A push to the injector of worker [i]. *)
Definition inject (i e : Z) : prog world () :=
  w ← get_worker i;
  match inj_push e (injector w) with
  | ok (_, q) => upd_worker i (set_injector q)
  | abort m => ABORT m | ub => UB | hang => HANG
  end.

(** [wsdq_push_bottom] on the deque of worker [i]. *)
Definition push_bottom (i e : Z) : prog world () := upd_worker i (λ w, set_deque (deque w ++ [e]) w).

Definition post_to_run_queue (self : option Z) (e : Z) : prog world (list task) :=
  match self with
  | Some i => push_bottom i e;; mret [WakePeer i]
  | None =>
      p ← get_pool; upd_pool (set_push_idx (next_push_idx p +% 1));;
      if thread_count p =? 0 then UB
      else let idx := next_push_idx p mod thread_count p in
           inject idx e;; mret [WakeTarget idx]
  end.

Definition post_to_specific_worker (self : option Z) (worker_idx e : Z) : prog world (list task) :=
  p ← get_pool;
  if (thread_count p <=? worker_idx) || (e =? 0)
  then ABORT "post_to_specific_worker: invalid arguments"
  else if bool_decide (self = Some worker_idx)
  then push_bottom worker_idx e;; mret [WakePeer worker_idx]
  else inject worker_idx e;; mret [WakeTarget worker_idx].

Definition wake_target (idx : Z) : prog world (list task) :=
  p ← get_pool; if shutdown p then mret [] else mret [Wakeup idx].

Definition wake_peer (idx : Z) : prog world (list task) :=
  p ← get_pool;
  if (1 <? thread_count p) && (0 <? idle_count p)
  then mret [Wakeup ((idx + 1) mod thread_count p)] else mret [].

(** ** Launching fibers *)

(** The coroutine is assumed to be created; entries are at non-null addresses. *)
Definition goc_fiber_entry_create (fn arg join home : Z) : prog world Z := λ w,
  let e := next_fiber w in
  ok (e, mk_world (pool w) (todo w) (reqs w) (<[e := mk_entry fn arg join home]> (fibers w)) (e + 1)
           (parked w) (destroyer w)).

(** The rest of the fast path of a spawn, outside the lock. *)
Definition create_and_post (fn arg join : Z) (home : option Z) : prog world (list task) :=
  e ← goc_fiber_entry_create fn arg join (default 0 home);
  match home with Some i => mret [PostTo i e] | None => mret [Post e] end.

(** One turn of the loop of [pool_dispatch_spawn_list]; the request is not shared, so it
    is freed with the turn. *)
Definition pool_dispatch_spawn_list (reqs_ : option positive) : prog world (list task) :=
  match reqs_ with
  | None => mret []
  | Some r =>
      q ← get_req r;
      e ← goc_fiber_entry_create (fn q) (fn_arg q) (join_ch q)
            (if home_worker_idx q =? SIZE_MAX then 0 else home_worker_idx q);
      free_req r;;
      mret [if home_worker_idx q =? SIZE_MAX then Post e else PostTo (home_worker_idx q) e; Dispatch (next q)]
  end.

(** A thread carries out its next task; what it then has to do comes first. *)
Definition task_step (self : option Z) (t : task) : prog world (list task) :=
  match t with
  | Create fn arg join home => create_and_post fn arg join home
  | Dispatch r => pool_dispatch_spawn_list r
  | Post e => post_to_run_queue self e
  | PostTo i e => post_to_specific_worker self i e
  | WakeTarget i => wake_target i
  | WakePeer i => wake_peer i
  | Wakeup i => worker_try_wakeup i;; mret []
  end.

(** ** The scheduling loop *)

Definition STEAL_BACKOFF_THRESHOLD : Z := 8.
Definition u32 (z : Z) : Z := z mod 4294967296.

Definition xorshift (s : Z) : Z :=
  let s := Z.lxor s (u32 (Z.shiftl s 13)) in
  let s := Z.lxor s (Z.shiftr s 17) in
  Z.lxor s (u32 (Z.shiftl s 5)).

(** [wsdq_pop_bottom], [injector_pop] and [wsdq_steal_top]; a steal that loses a race
    ([lost]) finds nothing. *)
Definition pop_bottom (i : Z) : prog world Z :=
  w ← get_worker i;
  match last (deque w) with
  | Some e => upd_worker i (set_deque (take (length (deque w) - 1) (deque w)));; mret e
  | None => mret 0
  end.

Definition pop_injector (i : Z) : prog world Z :=
  w ← get_worker i;
  match inj_pop (injector w) with
  | ok (e, q) => upd_worker i (set_injector q);; mret e
  | abort m => ABORT m | ub => UB | hang => HANG
  end.

Definition steal_top (victim : Z) (lost : bool) : prog world Z :=
  v ← get_worker victim;
  match deque v, lost with
  | e :: d, false => upd_worker victim (set_deque d);; mret e
  | _, _ => mret 0
  end.

Definition run_entry (i e : Z) : prog world () := upd_worker i (λ w, set_pc (Run e) (set_streak 0 w)).
Definition goto (i : Z) (l : wpc) : prog world () := upd_worker i (set_pc l).

(** The start of the randomized scan: [seed] and [offset]. *)
Definition start_scan (i : Z) : prog world () :=
  p ← get_pool;
  upd_worker i (λ w, let s := xorshift (seed w) in
                     set_pc (Scan (1 + s mod u32 (thread_count p - 1)) 0) (set_seed s w)).

Definition steal_hint (i : Z) (lost : bool) : prog world () :=
  w ← get_worker i;
  let victim_hint := last_steal_victim w in
  if negb (victim_hint =? SIZE_MAX) && negb (victim_hint =? i) then
    e ← steal_top victim_hint lost;
    if negb (e =? 0) then upd_worker i (set_victim victim_hint);; run_entry i e
    else upd_worker i (λ w, set_streak (u32 (miss_streak w + 1)) w);; start_scan i
  else start_scan i.

Definition steal_scan (i offset k : Z) (lost : bool) : prog world () :=
  p ← get_pool;
  if k <? thread_count p then
    let victim := (i + offset + k) mod thread_count p in
    if victim =? i then goto i (Scan offset (k + 1))
    else
      e ← steal_top victim lost;
      if negb (e =? 0) then upd_worker i (set_victim victim);; run_entry i e
      else upd_worker i (λ w, set_streak (u32 (miss_streak w + 1)) w);; goto i (Scan offset (k + 1))
  else upd_worker i (set_victim SIZE_MAX);; goto i Look.

Definition end_fiber (e : Z) : prog world () := λ w, ok (tt, set_fibers (delete e (fibers w)) w).

(** The end of a fiber: the counters under the lock; what was admitted is dispatched. *)
Definition finish_fiber (e : Z) : prog world (list task) :=
  end_fiber e;;
  p ← get_pool;
  (if 0 <? resident_count p then upd_pool (set_resident (resident_count p -% 1)) else mret tt);;
  upd_pool (set_live (live_count p -% 1));;
  admitted ← pool_collect_admitted_spawns_locked;
  mret [Dispatch admitted].

Definition park_fiber (e : Z) : prog world () := λ w, ok (tt, set_parked (e :: parked w) w).

(** Worker [i] goes on in [pool_worker_fn]; [b] is what it reads of the world outside:
    that its steal lost a race, that its loop has work, that its deque is more than half
    full.  The result is what it has to do before it goes on. *)
Definition search_step (i : Z) (b : bool) (w : goc_worker Q) (p : goc_pool Q) : prog world (list task) :=
  match pc w with
  | Top => goto i (if shutdown p then Exited else PopOwn);; mret []
  | PopOwn =>
      e ← pop_bottom i; (if negb (e =? 0) then run_entry i e else goto i PopInj);; mret []
  | PopInj =>
      e ← pop_injector i;
      (if negb (e =? 0) then run_entry i e
       else goto i (if (1 <? thread_count p) && (miss_streak w <? STEAL_BACKOFF_THRESHOLD) then Hint else Look));;
      mret []
  | Hint => steal_hint i b;; mret []
  | Scan offset k => steal_scan i offset k b;; mret []
  | _ => mret []
  end.

Definition idle_step (i : Z) (w : goc_worker Q) (p : goc_pool Q) : prog world (list task) :=
  match pc w with
  | Look =>
      goto i GoIdle;;
      mret (if (1 <? thread_count p) && negb (shutdown p) && (0 <? Z.of_nat (length (deque w))) && (0 <? idle_count p)
            then [Wakeup ((i + 1) mod thread_count p)] else [])
  | GoIdle => upd_pool (set_idle (idle_count p +% 1));; goto i RePop;; mret []
  | RePop =>
      e ← pop_bottom i;
      (if negb (e =? 0) then upd_pool (λ p, set_idle (idle_count p -% 1) p);; goto i (Run e) else goto i ReInj);;
      mret []
  | ReInj =>
      e ← pop_injector i;
      (if negb (e =? 0) then upd_pool (λ p, set_idle (idle_count p -% 1) p);; goto i (Run e) else goto i Sleep);;
      mret []
  | Sleep => upd_worker i (λ w, set_pc Callbacks (set_sent false w));; mret []
  | Callbacks =>
      upd_pool (set_idle (idle_count p -% 1));;
      upd_worker i (λ w, set_pc Top (set_streak 0 w));; mret []
  | _ => mret []
  end.

(** After [mco_resume]. *)
Definition resumed_step (i : Z) (b : bool) (w : goc_worker Q) (p : goc_pool Q) : prog world (list task) :=
  match pc w with
  | AfterRun e dead =>
      upd_worker i (λ w, set_pc (Polled e dead) (if b then set_sent false w else w));; mret []
  | Polled e true => goto i Top;; finish_fiber e
  | Polled e false =>
      goto i (Gate e);;
      mret (if (1 <? thread_count p) && negb (shutdown p) && b && (0 <? idle_count p)
               && negb ((i + 1) mod thread_count p =? i)
            then [Wakeup ((i + 1) mod thread_count p)] else [])
  | Gate e => goto i Top;; park_fiber e;; mret []
  | _ => mret []
  end.

Definition worker_step (i : Z) (b : bool) : prog world (list task) :=
  w ← get_worker i; p ← get_pool;
  match pc w with
  | Top | PopOwn | PopInj | Hint | Scan _ _ => search_step i b w p
  | Look | GoIdle | RePop | ReInj | Sleep | Callbacks => idle_step i w p
  | AfterRun _ _ | Polled _ _ | Gate _ => resumed_step i b w p
  | Run _ | Exited => mret []
  end.

(** ** Destroying a pool

    A timed destruction can give up while fibers are left ([GOC_DRAIN_TIMEOUT]). *)

Definition pool_abort_if_called_from_worker (self : option Z) : prog world () :=
  if bool_decide (is_Some self) then ABORT "goc_pool_destroy called from within target pool worker thread" else mret tt.

Definition set_phase (d : dpc) : prog world () := λ w, ok (tt, set_destroyer d w).

Definition goc_pool_destroy (self : option Z) : prog world () :=
  pool_abort_if_called_from_worker self;; set_phase (Draining false).

Definition goc_pool_destroy_timeout (self : option Z) : prog world () :=
  pool_abort_if_called_from_worker self;; set_phase (Draining true).

(** The destroying thread goes on; [timed_out] is the answer of the clock. *)
Definition destroy_step (timed_out : bool) : prog world () := λ w,
  match destroyer w with
  | NoDestroy | Freed => ok (tt, w)
  | Draining timed =>
      if live_count (pool w) =? 0 then set_phase Signal w
      else if timed && timed_out then set_phase NoDestroy w
      else ok (tt, w)
  | Signal => (upd_pool set_shutdown;; set_phase (WakeAll 0)) w
  | WakeAll i =>
      if (i <? length (workers (pool w)))%nat
      then (worker_try_wakeup (Z.of_nat i);; set_phase (WakeAll (S i))) w
      else set_phase (Join 0) w
  | Join i =>
      if (i <? length (workers (pool w)))%nat
      then (k ← get_worker (Z.of_nat i);
            if bool_decide (pc k = Exited) then set_phase (Join (S i)) else mret tt) w
      else set_phase Freed w
  end.

(** ** The threads *)

(** What code running on a thread, a fiber or a callback, asks of the pool.  The fiber it
    wakes is posted to the worker it parked on, [home], if there is such a worker. *)
Inductive request :=
| Spawn (fn arg join : Z)
| SpawnOn (worker_idx fn arg join : Z)
| Wake (e home : Z).

Definition unpark (e : Z) : prog world () := λ w,
  ok (tt, set_parked (filter (λ x, x ≠ e) (parked w)) w).

(** The posting code of [wake] and its relatives in channel.c and loop.c. *)
Definition post_home (e home : Z) : prog world (list task) :=
  p ← get_pool;
  mret (if negb (home =? SIZE_MAX) && (home <? thread_count p) then [PostTo home e] else [Post e]).

Definition request_step (self : option Z) (r : request) : prog world (list task) :=
  match r with
  | Spawn fn arg join => pool_submit_spawn self fn arg join
  | SpawnOn i fn arg join => pool_submit_spawn_to_worker self i fn arg join
  | Wake e home => unpark e;; post_home e home
  end.

Inductive action :=
| External (r : request)          (* a thread that is no worker of the pool starts a call *)
| Request (i : nat) (r : request) (* code on worker [i] starts a call *)
| Yield (i : nat) | Return (i : nat)  (* the fiber on worker [i] yields, or its function returns *)
| Go (k : nat)                    (* thread [k] goes on in its call *)
| Work (i : nat) (b : bool)       (* worker [i] goes on in its loop *)
| Destroy (timed : bool) | DestroyGo (timed_out : bool).

Definition self_of (w : world) (k : nat) : option Z :=
  if (k <? length (workers (pool w)))%nat then Some (Z.of_nat k) else None.

Definition runs_user_code (l : wpc) : bool :=
  match l with Run _ | Polled _ _ | Callbacks => true | _ => false end.

Definition put_todo (k : nat) (ts : list task) : prog world () := λ w,
  ok (tt, set_todo (<[k := ts]> (todo w)) w).

Definition add_thread (ts : list task) : prog world () := λ w, ok (tt, set_todo (todo w ++ [ts]) w).

Definition worker_pc (w : world) (i : nat) : option wpc := pc <$> (workers (pool w) !! i).
Definition idle_thread (w : world) (k : nat) : bool := bool_decide (todo w !! k = Some []).

(** An action that does not apply leaves the world as it is. *)
Definition act (a : action) : prog world () := λ w,
  match a with
  | External r =>
      (ts ← request_step None r; add_thread ts) w
  | Request i r =>
      match worker_pc w i with
      | Some l => if runs_user_code l && idle_thread w i
                  then (ts ← request_step (Some (Z.of_nat i)) r; put_todo i ts) w else ok (tt, w)
      | None => ok (tt, w)
      end
  | Yield i =>
      match worker_pc w i with
      | Some (Run e) => if idle_thread w i then goto (Z.of_nat i) (AfterRun e false) w else ok (tt, w)
      | _ => ok (tt, w)
      end
  | Return i =>
      match worker_pc w i with
      | Some (Run e) => if idle_thread w i then goto (Z.of_nat i) (AfterRun e true) w else ok (tt, w)
      | _ => ok (tt, w)
      end
  | Go k =>
      match todo w !! k with
      | Some (t :: ts) => (ts' ← task_step (self_of w k) t; put_todo k (ts' ++ ts)) w
      | _ => ok (tt, w)
      end
  | Work i b =>
      match worker_pc w i with
      | Some Exited | None => ok (tt, w)
      | Some _ => if idle_thread w i then (ts ← worker_step (Z.of_nat i) b; put_todo i ts) w else ok (tt, w)
      end
  | Destroy timed =>
      match destroyer w with
      | NoDestroy => (if timed then goc_pool_destroy_timeout None else goc_pool_destroy None) w
      | _ => ok (tt, w)
      end
  | DestroyGo b => destroy_step b w
  end.

(** A new pool; [seeds] are the seeds of its workers. *)
Definition goc_pool_make (seeds : list Z) (cap : Z) : world :=
  mk_world
    (mk_pool ((λ s, mk_worker [] inj_init false SIZE_MAX 0 s Top) <$> seeds) cap 0 0 false 0 0 None None)
    ((λ _, []) <$> seeds) ∅ ∅ 1 [] NoDestroy.

End Machine.
Arguments world : clear implicits.

End Pool.
