(* ===== verification/PoolInv.v ===== *)
(** The invariant of the fiber pool: where every spawned fiber is, what the counters
    count, and why no worker sleeps on work.  Each operation of [Pool] is shown to run to
    its end and to keep it. *)

From S2P Require Import Prelude Pool.
Import Pool.

Module PoolInv.

(** ** Lists of spawn requests *)

(** The requests [ns], linked in order from [h]. *)
Fixpoint linked (m : gmap positive goc_spawn_req) (ns : list positive) (h : option positive) : Prop :=
  match ns with
  | [] => h = None
  | n :: ns => h = Some n ∧ ∃ q, m !! n = Some q ∧ linked m ns (next q)
  end.

(** The requests [ns] of all the lists that are being dispatched. *)
Fixpoint chains (m : gmap positive goc_spawn_req) (T : list task) (ns : list positive) : Prop :=
  match T with
  | [] => ns = []
  | Dispatch r :: T => ∃ n1 n2, ns = n1 ++ n2 ∧ linked m n1 r ∧ chains m T n2
  | _ :: T => chains m T ns
  end.

(** What a request asks for, apart from its place in a list. *)
Definition payload (m : gmap positive goc_spawn_req) (n : positive) : option goc_spawn_req :=
  set_next None <$> m !! n.

Lemma pool_linked_frame m m' ns h : (∀ n, n ∈ ns → m' !! n = m !! n) → linked m ns h → linked m' ns h.
Proof.
  revert h. induction ns as [|n ns IH]; simpl; intros h Hm; [done|]. intros (-> & q & Hq & Hl).
  split; [done|]. exists q. split; [rewrite Hm; [done|by left]|]. apply IH; [|done]. intros k Hk. apply Hm. by right.
Qed.

Lemma pool_linked_snoc m ns h t r qt q :
  linked m (ns ++ [t]) h → NoDup (ns ++ [t]) → r ∉ ns ++ [t] → m !! t = Some qt → m !! r = Some q → next q = None →
  linked (<[t := set_next (Some r) qt]> m) (ns ++ [t; r]) h.
Proof.
  intros Hl Hnd Hr Ht Hq Hn. revert h Hl. induction ns as [|n ns IH]; simpl in *; intros h.
  - intros (-> & q' & Hq' & Hl). split; [done|]. exists (set_next (Some r) qt).
    split; [by rewrite lookup_insert_eq|]. simpl. split; [done|]. exists q.
    rewrite lookup_insert_ne by set_solver. done.
  - intros (-> & q' & Hq' & Hl). apply NoDup_cons in Hnd as [Hn' Hnd].
    split; [done|]. exists q'. split; [rewrite lookup_insert_ne; [done|set_solver]|].
    apply IH; [done|set_solver|done].
Qed.

Lemma linked_None m ns : linked m ns None → ns = [].
Proof. destruct ns; [done|]. by intros (? & _). Qed.

Lemma linked_in m ns h n : linked m ns h → n ∈ ns → is_Some (m !! n).
Proof.
  revert h. induction ns as [|k ns IH]; simpl; intros h; [set_solver|]. intros (-> & q & Hq & Hl) Hn.
  apply elem_of_cons in Hn as [->|Hn]; [eauto|by eapply IH].
Qed.

Lemma linked_last m ns h t qt : linked m ns h → last ns = Some t → m !! t = Some qt → next qt = None.
Proof.
  revert h. induction ns as [|k ns IH]; [done|]. intros h (-> & q & Hq & Hl) Hlast Ht.
  destruct ns as [|k' ns].
  - injection Hlast as ->. rewrite Hq in Ht. injection Ht as ->. exact Hl.
  - eapply IH; [exact Hl| |exact Ht]. by rewrite last_cons_cons in Hlast.
Qed.

Lemma linked_app_None m ns h r : linked m ns h → r ∉ ns → ∀ q, linked (<[r := q]> m) ns h.
Proof. intros Hl Hr q. eapply pool_linked_frame; [|exact Hl]. intros n Hn. apply lookup_insert_ne. set_solver. Qed.

Lemma chains_frame m m' T ns : (∀ n, n ∈ ns → m' !! n = m !! n) → chains m T ns → chains m' T ns.
Proof.
  revert ns. induction T as [|t T IH]; intros ns Hm; [done|]. destruct t; simpl; try (by apply IH).
  intros (n1 & n2 & -> & Hl & Hc). exists n1, n2. split_and!; [done| |].
  - eapply pool_linked_frame; [|exact Hl]. set_solver.
  - apply IH; [set_solver|done].
Qed.

Lemma chains_in m T ns n : chains m T ns → n ∈ ns → is_Some (m !! n).
Proof.
  revert ns. induction T as [|t T IH]; intros ns; [intros ->; set_solver|]. destruct t; simpl; try (by apply IH).
  intros (n1 & n2 & -> & Hl & Hc) [Hn|Hn]%elem_of_app; [by eapply linked_in|by eapply IH].
Qed.

Lemma chains_app m T1 T2 ns :
  chains m (T1 ++ T2) ns ↔ ∃ n1 n2, ns = n1 ++ n2 ∧ chains m T1 n1 ∧ chains m T2 n2.
Proof.
  revert ns. induction T1 as [|t T1 IH]; intros ns; simpl.
  - split; [intros Hc; by exists [], ns|]. by intros (? & ? & -> & -> & ?).
  - destruct t; simpl; try apply IH. split.
    + intros (n1 & n2 & -> & Hl & (n3 & n4 & -> & H3 & H4)%IH). exists (n1 ++ n3), n4.
      split_and!; [by rewrite app_assoc| |done]. eauto 6.
    + intros (x & n4 & -> & (n1 & n3 & -> & Hl & H3) & H4). exists n1, (n3 ++ n4).
      split_and!; [by rewrite app_assoc|done|]. apply IH. eauto.
Qed.

Lemma chains_perm m T T' ns : T ≡ₚ T' → chains m T ns → ∃ ns', ns ≡ₚ ns' ∧ chains m T' ns'.
Proof.
  intros Hp. revert ns. induction Hp as [|t T T' Hp IH|t u T|T1 T2 T3 H1 IH1 H2 IH2]; intros ns Hc.
  - by exists ns.
  - assert (t :: T = [t] ++ T) as E by done. rewrite E in Hc. apply chains_app in Hc as (n1 & n2 & -> & Hc1 & Hc2).
    destruct (IH _ Hc2) as (ns' & Hn & Hc'). exists (n1 ++ ns'). split; [by rewrite Hn|].
    change (t :: T') with ([t] ++ T'). apply chains_app. eauto.
  - change (u :: t :: T) with ([u] ++ [t] ++ T) in Hc. apply chains_app in Hc as (n1 & ? & -> & Hc1 & Hc).
    apply chains_app in Hc as (n2 & n3 & -> & Hc2 & Hc3). exists (n2 ++ n1 ++ n3). split; [solve_Permutation|].
    change (t :: u :: T) with ([t] ++ [u] ++ T). apply chains_app. exists n2, (n1 ++ n3). split_and!; [done|done|].
    apply chains_app. eauto.
  - destruct (IH1 _ Hc) as (n2 & ? & Hc2). destruct (IH2 _ Hc2) as (n3 & ? & Hc3). exists n3. split; [by etrans|done].
Qed.

(** ** The pool *)

Section Inv.
Context {Q : Type} `{Injector Q}.

Definition is_create (t : task) : bool := match t with Create _ _ _ _ => true | _ => false end.
Definition creates (T : list task) : nat := count (λ t, is_create t = true) T.

(** The fiber a task is about to post, the one a worker holds, and all that hang on a
    worker: in its deque, in its injector, in its hands. *)
Definition posted (t : task) : list Z := match t with Post e | PostTo _ e => [e] | _ => [] end.
Definition held (l : wpc) : list Z :=
  match l with Run e | AfterRun e _ | Polled e _ | Gate e => [e] | _ => [] end.
Definition load (k : goc_worker Q) (es : list Z) : list Z := deque k ++ es ++ held (pc k).
Definition placed (ws : list (goc_worker Q)) (iqs : list (list Z)) (T : list task) (pk : list Z) : list Z :=
  concat (zip_with load ws iqs) ++ (T ≫= posted) ++ pk.
Definition keys (m : gmap Z goc_entry) : list Z := (map_to_list m).*1.

(** The counters: [pend] are the requests that wait, [ns] those being dispatched. *)
Record thr_ok (m : gmap positive goc_spawn_req) (p : goc_pool Q) (T : list task) (nf : nat)
    (pend ns : list positive) : Prop := {
  th_pend : linked m pend (pending_spawn_head p);
  th_tail : pending_spawn_tail p = last pend;
  th_chains : chains m T ns;
  th_nodup : NoDup (pend ++ ns);
  th_dom : ∀ n, n ∈ dom m ↔ n ∈ pend ++ ns;
  th_live : live_count p = Z.of_nat (length pend + length ns + creates T + nf);
  th_res : resident_count p = Z.of_nat (length ns + creates T + nf);
  th_word : live_count p < WORD;
  th_full : pend ≠ [] → pool_spawn_cap_reached_locked p = true
}.

Definition home_ok (n : Z) (i : Z) : Prop := i = SIZE_MAX ∨ 0 <= i < n.
Definition task_ok (n : Z) (t : task) : Prop :=
  match t with
  | Create _ _ _ (Some i) | PostTo i _ | WakeTarget i | WakePeer i | Wakeup i => 0 <= i < n
  | _ => True
  end.
Definition worker_ok (n : Z) (k : goc_worker Q) : Prop :=
  home_ok n (last_steal_victim k) ∧ 0 <= seed k ∧
  match pc k with Hint => 1 < n | Scan offset j => 1 < n ∧ 1 <= offset < n ∧ 0 <= j <= n | _ => True end.

(** A worker that sleeps has an empty deque, and if its injector is not empty it has been
    woken or is about to be. *)
Definition sleep_ok (T : list task) (i : nat) (k : goc_worker Q) (es : list Z) : Prop :=
  (pc k = ReInj ∨ pc k = Sleep → deque k = []) ∧
  (pc k = Sleep → es ≠ [] →
   wakeup_sent k = true ∨ WakeTarget (Z.of_nat i) ∈ T ∨ Wakeup (Z.of_nat i) ∈ T).

(** Between the test of [shutdown] and the next one. *)
Definition searching (l : wpc) : bool :=
  match l with
  | PopOwn | PopInj | Hint | Scan _ _ | Look | GoIdle | RePop | ReInj | Sleep => true
  | _ => false
  end.
Definition signalled (ws : list (goc_worker Q)) (j : nat) : Prop :=
  ∀ i k, (i < j)%nat → ws !! i = Some k → searching (pc k) = true → wakeup_sent k = true.
Definition exited (ws : list (goc_worker Q)) (j : nat) : Prop :=
  ∀ i k, (i < j)%nat → ws !! i = Some k → pc k = Exited.
Definition dest_ok (p : goc_pool Q) (d : dpc) : Prop :=
  match d with
  | NoDestroy | Draining _ => shutdown p = false
  | Signal => shutdown p = false ∧ live_count p = 0
  | WakeAll j => shutdown p = true ∧ live_count p = 0 ∧ signalled (workers p) j
  | Join j => shutdown p = true ∧ live_count p = 0 ∧ signalled (workers p) (length (workers p)) ∧ exited (workers p) j
  | Freed => shutdown p = true ∧ live_count p = 0 ∧ signalled (workers p) (length (workers p)) ∧
             exited (workers p) (length (workers p))
  end ∧ ∀ i k, workers p !! i = Some k → pc k = Exited → shutdown p = true.

(** [T] are the tasks of all threads and [h] the fibers in the hands of the thread that
    is making a step. *)
Record inv (T : list task) (h : list Z) (w : world Q) (iqs : list (list Z)) (pend ns : list positive) : Prop := {
  i_n : 0 < thread_count (pool w) < 4294967296;
  i_thr : thr_ok (reqs w) (pool w) T (size (fibers w)) pend ns;
  i_fib : ∀ e, e ∈ keys (fibers w) → 0 < e < next_fiber w;
  i_next : 0 < next_fiber w;
  i_inj : Forall2 (λ k es, inj_holds (injector k) es) (workers (pool w)) iqs;
  i_place : h ++ placed (workers (pool w)) iqs T (parked w) ≡ₚ keys (fibers w);
  i_worker : Forall (worker_ok (thread_count (pool w))) (workers (pool w));
  i_task : Forall (task_ok (thread_count (pool w))) T;
  i_req : map_Forall (λ _ q, home_ok (thread_count (pool w)) (home_worker_idx q)) (reqs w);
  i_sleep : ∀ i k es, workers (pool w) !! i = Some k → iqs !! i = Some es → sleep_ok T i k es;
  i_dest : dest_ok (pool w) (destroyer w)
}.

Definition Inv (T : list task) (h : list Z) (w : world Q) : Prop := ∃ iqs pend ns, inv T h w iqs pend ns.

(** ** Lists of lists *)

Lemma concat_insert {A} (l : list (list A)) i x :
  l !! i = Some x → ∃ rest, concat l ≡ₚ x ++ rest ∧ ∀ y, concat (<[i:=y]> l) ≡ₚ y ++ rest.
Proof.
  revert i. induction l as [|a l IH]; intros [|i] Hi; simplify_eq/=.
  - by exists (concat l).
  - destruct (IH i Hi) as (rest & Hx & Hy). exists (a ++ rest). split.
    + rewrite Hx. solve_Permutation.
    + intros y. rewrite Hy. solve_Permutation.
Qed.

Lemma zip_insert (ws : list (goc_worker Q)) iqs i k es :
  zip_with load (<[i := k]> ws) (<[i := es]> iqs) = <[i := load k es]> (zip_with load ws iqs).
Proof. symmetry. apply insert_zip_with. Qed.

Lemma creates_perm T T' : T ≡ₚ T' → creates T = creates T'.
Proof. intros Hp. unfold creates, count. by rewrite Hp. Qed.

Lemma creates_app T1 T2 : creates (T1 ++ T2) = (creates T1 + creates T2)%nat.
Proof. unfold creates, count. by rewrite filter_app, length_app. Qed.

Lemma inv_perm T T' h h' w : T ≡ₚ T' → h ≡ₚ h' → Inv T h w → Inv T' h' w.
Proof.
  intros HT Hh (iqs & pend & ns & I). destruct (chains_perm _ _ _ _ HT (th_chains _ _ _ _ _ _ (i_thr _ _ _ _ _ _ I))) as (ns' & Hns & Hc).
  exists iqs, pend, ns'. destruct I as [? Hthr ? ? ? Hpl ? ? ? Hs ?]. split; try done.
  - pose proof (creates_perm _ _ HT) as Hcr. pose proof (Permutation_length Hns) as Hlen.
    destruct Hthr as [? ? ? Hnd Hdom Hlive Hres ? ?]. split; try done; try lia; [by rewrite <- Hns|].
    intros n. by rewrite <- Hns.
  - unfold placed in *. by rewrite <- Hh, <- HT.
  - by rewrite <- HT.
  - intros i k es Hk He. destruct (Hs i k es Hk He) as [? Hw]. split; [done|]. rewrite <- HT. done.
Qed.

(** ** Taking requests off the pending list *)

Definition adj (hd tl : option positive) (n : Z) (p : goc_pool Q) : goc_pool Q :=
  set_resident n (set_tail tl (set_head hd p)).

Lemma get_pool_ok (w : world Q) : destroyer w ≠ Freed → get_pool w = ok (pool w, w).
Proof. intros Hd. unfold get_pool. by destruct (destroyer w). Qed.

Lemma upd_pool_ok f (w : world Q) : destroyer w ≠ Freed → upd_pool f w = ok (tt, set_pool (f (pool w)) w).
Proof. intros Hd. unfold upd_pool. by destruct (destroyer w). Qed.

Lemma get_req_ok r q (w : world Q) : reqs w !! r = Some q → get_req r w = ok (q, w).
Proof. intros Hq. unfold get_req. by rewrite Hq. Qed.

(** The turn of the loop that admits [r]. *)
Definition let_in (r : positive) (q : goc_spawn_req) (at_ : option positive) (m : gmap positive goc_spawn_req) :
    gmap positive goc_spawn_req :=
  let m := <[r := set_next None q]> m in
  match at_ with
  | Some t => match m !! t with Some qt => <[t := set_next (Some r) qt]> m | None => m end
  | None => m
  end.

Lemma payload_insert m n q v : payload m n = Some (set_next None q) → ∀ k, payload (<[n := set_next v q]> m) k = payload m k.
Proof.
  intros Hn k. unfold payload in *. destruct (decide (n = k)) as [<-|Hne].
  - rewrite lookup_insert_eq. simpl. by rewrite Hn.
  - by rewrite lookup_insert_ne.
Qed.

Lemma admit_payload r q at_ m : m !! r = Some q → ∀ k, payload (let_in r q at_ m) k = payload m k.
Proof.
  intros Hr k. unfold let_in. set (m1 := <[r := _]> m).
  assert (∀ k, payload m1 k = payload m k) as H1.
  { apply payload_insert. unfold payload. by rewrite Hr. }
  destruct at_ as [t|]; [|apply H1]. destruct (m1 !! t) as [qt|] eqn:Ht; [|apply H1].
  rewrite (payload_insert m1 t qt); [apply H1|]. unfold payload. by rewrite Ht.
Qed.

Lemma admit_frame r q at_ m n : n ≠ r → at_ ≠ Some n → let_in r q at_ m !! n = m !! n.
Proof.
  intros Hr Ht. unfold let_in. destruct at_ as [t|]; [|by apply lookup_insert_ne].
  destruct (_ !! t); [rewrite lookup_insert_ne by congruence|]; by apply lookup_insert_ne.
Qed.

Lemma admit_linked m ad ah r q :
  linked m ad ah → NoDup (r :: ad) → m !! r = Some q →
  linked (let_in r q (last ad) m) (ad ++ [r]) (match last ad with Some _ => ah | None => Some r end).
Proof.
  intros Hl Hnd Hq. apply NoDup_cons in Hnd as [Hr Hnd]. unfold let_in.
  destruct ad as [|t ad] using rev_ind.
  { simpl. split; [done|]. exists (set_next None q). by rewrite lookup_insert_eq. }
  clear IHad. rewrite last_snoc. set (m1 := <[r := _]> m).
  assert (linked m1 (ad ++ [t]) ah) as Hl1 by by apply linked_app_None.
  destruct (linked_in m1 _ _ t Hl1 ltac:(set_solver)) as [qt Ht]. rewrite Ht, <- app_assoc. simpl.
  eapply pool_linked_snoc; [done..|by apply lookup_insert_eq|done].
Qed.

Lemma collect_turn fuel ah ad (w : world Q) r q rest :
  destroyer w ≠ Freed → linked (reqs w) (r :: rest) (pending_spawn_head (pool w)) → reqs w !! r = Some q →
  pending_spawn_tail (pool w) = last (r :: rest) →
  linked (reqs w) ad ah → NoDup (r :: rest ++ ad) →
  pool_spawn_cap_reached_locked (pool w) = false →
  ∃ hd ah', collect_loop (S fuel) ah (last ad) w =
    collect_loop fuel ah' (Some r)
      (set_reqs (let_in r q (last ad) (reqs w))
         (set_pool (adj hd (last rest) (resident_count (pool w) +% 1) (pool w)) w)) ∧
    linked (let_in r q (last ad) (reqs w)) rest hd ∧ linked (let_in r q (last ad) (reqs w)) (ad ++ [r]) ah'.
Proof.
  intros Hd Hl Hq Htl Had Hnd Hcap. destruct Hl as (Hhd & q' & Hq' & Hrest). rewrite Hq in Hq'. injection Hq' as <-.
  exists (next q), (match last ad with Some _ => ah | None => Some r end).
  assert (∀ n, n ∈ rest → n ≠ r ∧ last ad ≠ Some n) as Hout.
  { intros n Hn. split; [intros ->; apply NoDup_cons in Hnd as [? _]; set_solver|].
    intros Hla. apply last_Some in Hla as [ad' ->]. apply NoDup_cons in Hnd as [_ Hnd].
    apply NoDup_app in Hnd as (_ & Hdis & _). eapply Hdis; [done|set_solver]. }
  split_and!.
  - cbn [collect_loop]. erewrite prog_bind_ok by by apply get_pool_ok. rewrite Hhd, Hcap.
    erewrite prog_bind_ok by by apply get_req_ok. erewrite prog_bind_ok by by apply upd_pool_ok.
    assert (∀ B (f : () → prog (world Q) B) w', destroyer w' ≠ Freed → pending_spawn_tail (pool w') = last (r :: rest) →
      (match next q with None => upd_pool (set_tail None) | Some _ => mret () end ≫= f) w' =
      f tt (set_pool (set_tail (last rest) (pool w')) w')) as Htail.
    { intros B f w' Hd' Ht'. destruct rest as [|r2 rest].
      - simpl in Hrest. rewrite Hrest. by erewrite prog_bind_ok by by apply upd_pool_ok.
      - destruct Hrest as (-> & _). cbn. rewrite last_cons_cons in Ht'. f_equal.
        destruct w' as [[] ? ? ? ? ? ?]. simpl in Ht'. by subst. }
    rewrite Htail by done. erewrite prog_bind_ok by reflexivity.
    destruct (last ad) as [t|] eqn:Hla.
    + assert (t ∈ ad) by (apply last_Some in Hla as [ad' ->]; set_solver).
      assert (r ≠ t) by (intros ->; apply NoDup_cons in Hnd as [? _]; set_solver).
      destruct (linked_in _ _ _ t Had ltac:(done)) as [qt Ht].
      unfold let_in. rewrite lookup_insert_ne, Ht by done.
      erewrite prog_bind_ok. 2: { erewrite prog_bind_ok; [done|]. apply get_req_ok. simpl. by rewrite lookup_insert_ne. }
      erewrite prog_bind_ok by by apply get_pool_ok. by erewrite prog_bind_ok by by apply upd_pool_ok.
    + erewrite prog_bind_ok by reflexivity. erewrite prog_bind_ok by by apply get_pool_ok. by erewrite prog_bind_ok by by apply upd_pool_ok.
  - eapply pool_linked_frame; [|exact Hrest]. intros n Hn. apply admit_frame; by apply Hout.
  - apply admit_linked; [done| |done]. apply NoDup_cons in Hnd as [Hr Hnd]. apply NoDup_app in Hnd as (_ & _ & Hnd).
    apply NoDup_cons. split; [set_solver|done].
Qed.

Definition cap_at (p : goc_pool Q) (n : Z) : bool := negb (max_live_fibers p =? 0) && (max_live_fibers p <=? n).

Lemma collect_loop_ok pend : ∀ fuel ad ah (w : world Q),
  destroyer w ≠ Freed → linked (reqs w) pend (pending_spawn_head (pool w)) →
  pending_spawn_tail (pool w) = last pend → linked (reqs w) ad ah → NoDup (pend ++ ad) →
  (length pend <= fuel)%nat → 0 <= resident_count (pool w) → resident_count (pool w) + Z.of_nat (length pend) < WORD →
  ∃ p1 p2 m' hd r, pend = p1 ++ p2 ∧
    collect_loop fuel ah (last ad) w =
      ok (r, set_reqs m' (set_pool (adj hd (last p2) (resident_count (pool w) + Z.of_nat (length p1)) (pool w)) w)) ∧
    linked m' (ad ++ p1) r ∧ linked m' p2 hd ∧
    (∀ n, n ∉ ad ++ pend → m' !! n = reqs w !! n) ∧ (∀ n, payload m' n = payload (reqs w) n) ∧
    (p2 ≠ [] → cap_at (pool w) (resident_count (pool w) + Z.of_nat (length p1)) = true) ∧
    (∀ j, (j < length p1)%nat → cap_at (pool w) (resident_count (pool w) + Z.of_nat j) = false).
Proof.
  induction pend as [|r rest IH]; intros fuel ad ah w Hd Hl Htl Had Hnd Hfuel Hr0 Hr.
  - exists [], [], (reqs w), None, ah. split_and!; try done; try (by rewrite app_nil_r); try (simpl; intros; lia).
    simpl in Hl. destruct fuel; cbn [collect_loop]; erewrite prog_bind_ok by (by apply get_pool_ok);
      rewrite Hl; cbn; rewrite Z.add_0_r; do 2 f_equal;
      destruct w as [[] ? ? ? ? ? ?]; simpl in *; by subst.
  - destruct (pool_spawn_cap_reached_locked (pool w)) eqn:Hcap.
    + exists [], (r :: rest), (reqs w), (Some r), ah. cbn [length] in *. rewrite Z.add_0_r.
      destruct Hl as (Hhd & q & Hq & Hrest).
      split_and!; try done; try (by rewrite app_nil_r); try (by split; eauto); try (simpl; intros; lia).
      destruct fuel; cbn [collect_loop]; erewrite prog_bind_ok by (by apply get_pool_ok); rewrite Hhd, Hcap;
        do 2 f_equal; destruct w as [[] ? ? ? ? ? ?]; simpl in *; by subst.
    + destruct Hl as (Hhd & q & Hq & Hrest). destruct fuel as [|fuel]; [simpl in *; lia|].
      destruct (collect_turn fuel ah ad w r q rest) as (hd & ah' & -> & Hrest' & Had'); try done.
      { split; eauto. }
      cbn [length] in *. set (w1 := set_reqs _ _).
      assert (resident_count (pool w1) = resident_count (pool w) + 1) as Hres1
        by (cbn; apply wrap64_small; unfold WORD in *; lia).
      edestruct (IH fuel (ad ++ [r]) ah' w1) as (p1 & p2 & m' & hd' & r' & -> & Hrun & Hl1 & Hl2 & Hfr & Hpay & Hfull & Hlt);
        [done|done|done|done| |lia|lia|lia|].
      { revert Hnd. simpl. rewrite app_assoc. rewrite (Permutation_app_comm _ [r]). done. }
      rewrite last_snoc in Hrun.
      exists (r :: p1), p2, m', hd', r'. rewrite Hrun, Hres1. cbn [length].
      replace (resident_count (pool w) + 1 + Z.of_nat (length p1)) with (resident_count (pool w) + Z.of_nat (S (length p1))) by lia.
      rewrite Hres1 in Hfull, Hlt. rewrite <- app_assoc in Hl1. split_and!; try done.
      * intros n Hn. rewrite Hfr by set_solver. apply admit_frame; [set_solver|].
        intros Hla. apply Hn. apply last_Some in Hla as [ad' ->]. set_solver.
      * intros n. rewrite Hpay. by apply admit_payload.
      * intros Hp2. rewrite <- (Hfull Hp2). change (cap_at (pool w1)) with (cap_at (pool w)). f_equal. lia.
      * intros [|j] Hj; [rewrite Z.add_0_r; exact Hcap|]. rewrite <- (Hlt j) by lia.
        change (cap_at (pool w1)) with (cap_at (pool w)). f_equal. lia.
Qed.

(** ** Changing one worker *)

Definition with_worker (i : nat) (k : goc_worker Q) (w : world Q) : world Q :=
  set_pool (set_workers (<[i := k]> (workers (pool w))) (pool w)) w.

Lemma get_worker_ok (w : world Q) i k :
  destroyer w ≠ Freed → workers (pool w) !! i = Some k → get_worker (Z.of_nat i) w = ok (k, w).
Proof.
  intros Hd Hk. unfold get_worker. erewrite prog_bind_ok by by apply get_pool_ok.
  rewrite (proj2 (zget_Some _ _ k)); [done|]. split; [lia|]. by rewrite Nat2Z.id.
Qed.

Lemma upd_worker_ok (w : world Q) i f k :
  destroyer w ≠ Freed → workers (pool w) !! i = Some k → upd_worker (Z.of_nat i) f w = ok (tt, with_worker i (f k) w).
Proof.
  intros Hd Hk. unfold upd_worker. erewrite prog_bind_ok by by apply get_pool_ok.
  rewrite (proj2 (zget_Some _ _ k)) by (split; [lia|by rewrite Nat2Z.id]). prog_step.
  rewrite zset_in by (apply lookup_lt_Some in Hk; lia). prog_step. rewrite Nat2Z.id. by apply upd_pool_ok.
Qed.

(** A worker keeps what the destroying thread has to know of it. *)
Definition dest_step (sd : bool) (k k' : goc_worker Q) : Prop :=
  (sd = true → searching (pc k') = true → wakeup_sent k' = true ∨ searching (pc k) = true ∧ wakeup_sent k = wakeup_sent k') ∧
  (pc k = Exited → pc k' = Exited) ∧ (pc k' = Exited → sd = true).

Lemma signalled_insert ws i k k' j :
  ws !! i = Some k → (searching (pc k') = true → wakeup_sent k' = true ∨ searching (pc k) = true ∧ wakeup_sent k = wakeup_sent k') →
  signalled ws j → signalled (<[i := k']> ws) j.
Proof.
  intros Hk Hs Hsig i' x Hi Hx Hse. destruct (decide (i = i')) as [<-|Hne].
  - rewrite list_lookup_insert_eq in Hx by by eapply lookup_lt_Some. simplify_eq.
    destruct (Hs Hse) as [?|[H1 <-]]; [done|]. by eapply Hsig.
  - rewrite list_lookup_insert_ne in Hx by done. by eapply Hsig.
Qed.

Lemma exited_insert ws i k k' j :
  ws !! i = Some k → (pc k = Exited → pc k' = Exited) → exited ws j → exited (<[i := k']> ws) j.
Proof.
  intros Hk Hs Hex i' x Hi Hx. destruct (decide (i = i')) as [<-|Hne].
  - rewrite list_lookup_insert_eq in Hx by by eapply lookup_lt_Some. simplify_eq. by apply Hs, (Hex i).
  - rewrite list_lookup_insert_ne in Hx by done. by eapply Hex.
Qed.

Lemma dest_insert p d i k k' :
  workers p !! i = Some k → dest_step (shutdown p) k k' → dest_ok p d → dest_ok (set_workers (<[i := k']> (workers p)) p) d.
Proof.
  intros Hk (Hs & He & Hx) [Hd Ha]. split.
  - destruct d; cbn in *; rewrite ?length_insert; try done.
    + destruct Hd as (? & ? & ?). split_and!; [done..|]. eapply signalled_insert; eauto.
    + destruct Hd as (? & ? & ? & ?). split_and!; [done..| |]; [eapply signalled_insert|eapply exited_insert]; eauto.
    + destruct Hd as (? & ? & ? & ?). split_and!; [done..| |]; [eapply signalled_insert|eapply exited_insert]; eauto.
  - cbn. intros i' x Hx' Hpc. destruct (decide (i = i')) as [<-|Hne].
    + rewrite list_lookup_insert_eq in Hx' by by eapply lookup_lt_Some. simplify_eq. by apply Hx.
    + rewrite list_lookup_insert_ne in Hx' by done. by eapply Ha.
Qed.

Lemma placed_insert ws iqs T pk i k es k' es' h h' :
  ws !! i = Some k → iqs !! i = Some es → h' ++ load k' es' ≡ₚ h ++ load k es →
  h' ++ placed (<[i := k']> ws) (<[i := es']> iqs) T pk ≡ₚ h ++ placed ws iqs T pk.
Proof.
  intros Hk He Hp. unfold placed. rewrite zip_insert.
  destruct (concat_insert (zip_with load ws iqs) i (load k es)) as (rest & Hx & Hy).
  { rewrite lookup_zip_with, Hk. simpl. by rewrite He. }
  rewrite Hx, Hy, <- !app_assoc, (app_assoc h'), Hp. by rewrite <- app_assoc.
Qed.

Lemma inv_upd T h h' w iqs pend ns i k es k' es' :
  inv T h w iqs pend ns → workers (pool w) !! i = Some k → iqs !! i = Some es →
  inj_holds (injector k') es' → h' ++ load k' es' ≡ₚ h ++ load k es →
  worker_ok (thread_count (pool w)) k' → sleep_ok T i k' es' → dest_step (shutdown (pool w)) k k' →
  inv T h' (with_worker i k' w) (<[i := es']> iqs) pend ns.
Proof.
  intros I Hk He Hinj Hload Hwk Hsl Hdst. destruct I as [? Hthr ? ? Hi Hpl Hw Ht Hr Hs Hd].
  assert (thread_count (pool (with_worker i k' w)) = thread_count (pool w)) as Hn
    by (unfold thread_count; simpl; by rewrite length_insert).
  split; rewrite ?Hn; try done.
  - by destruct Hthr.
  - simpl. by apply Forall2_insert.
  - simpl. rewrite placed_insert; eauto.
  - simpl. by apply Forall_insert.
  - simpl. intros i' x y Hx Hy. destruct (decide (i = i')) as [<-|Hne].
    + rewrite list_lookup_insert_eq in Hx by by eapply lookup_lt_Some.
      rewrite list_lookup_insert_eq in Hy by by eapply lookup_lt_Some. by simplify_eq.
    + rewrite list_lookup_insert_ne in Hx by done. rewrite list_lookup_insert_ne in Hy by done. by eapply Hs.
  - simpl. by eapply dest_insert.
Qed.

(** ** Operations on the queues *)

Definition frame (w w' : world Q) : Prop :=
  todo w' = todo w ∧ destroyer w' = destroyer w ∧ pc <$> workers (pool w') = pc <$> workers (pool w).

Lemma pool_frame_refl w : frame w w.
Proof. done. Qed.
Lemma pool_frame_trans w1 w2 w3 : frame w1 w2 → frame w2 w3 → frame w1 w3.
Proof. intros (? & ? & ?) (? & ? & ?). split_and!; congruence. Qed.

Lemma frame_worker w i k k' :
  workers (pool w) !! i = Some k → pc k' = pc k → frame w (with_worker i k' w).
Proof.
  intros Hk Hp. split_and!; [done..|]. simpl. rewrite list_fmap_insert, Hp, list_insert_id; [done|].
  by rewrite list_lookup_fmap, Hk.
Qed.

Lemma inv_lookup T h w iqs pend ns i k :
  inv T h w iqs pend ns → workers (pool w) !! i = Some k →
  ∃ es, iqs !! i = Some es ∧ inj_holds (injector k) es ∧ worker_ok (thread_count (pool w)) k ∧ sleep_ok T i k es.
Proof.
  intros I Hk. destruct (Forall2_lookup_l _ _ _ _ _ (i_inj _ _ _ _ _ _ I) Hk) as (es & He & Hh).
  exists es. split_and!; [done..| |by eapply I]. eapply Forall_lookup_1; [apply I|done].
Qed.

Lemma dest_same sd (k k' : goc_worker Q) :
  pc k' = pc k → wakeup_sent k' = wakeup_sent k → (pc k = Exited → sd = true) → dest_step sd k k'.
Proof. intros Hp Hs He. unfold dest_step. rewrite Hp, Hs. split_and!; eauto. Qed.

Lemma exited_shutdown T h w iqs pend ns i k :
  inv T h w iqs pend ns → workers (pool w) !! i = Some k → pc k = Exited → shutdown (pool w) = true.
Proof. intros I Hk Hx. destruct (i_dest _ _ _ _ _ _ I) as [_ Hd]. by eapply Hd. Qed.

Lemma load_nonnull T h w iqs pend ns i k es e :
  inv T h w iqs pend ns → workers (pool w) !! i = Some k → iqs !! i = Some es → e ∈ load k es → e ≠ 0.
Proof.
  intros I Hk He Hin ->. apply (Z.lt_irrefl 0), (i_fib _ _ _ _ _ _ I 0). rewrite <- (i_place _ _ _ _ _ _ I).
  destruct (concat_insert (zip_with load (workers (pool w)) iqs) i (load k es)) as (rest & Hx & _).
  { rewrite lookup_zip_with, Hk. simpl. by rewrite He. }
  unfold placed. rewrite Hx. set_solver.
Qed.

Definition hand (e : Z) : list Z := if e =? 0 then [] else [e].

(** Nobody pushes to a deque but its owner, which is then not about to sleep. *)
Definition pushable (l : wpc) : Prop := l ≠ ReInj ∧ l ≠ Sleep.

Lemma push_bottom_ok T h w i k e :
  Inv T (e :: h) w → destroyer w ≠ Freed → workers (pool w) !! i = Some k → pushable (pc k) →
  ∃ w', push_bottom (Z.of_nat i) e w = ok (tt, w') ∧ Inv T h w' ∧ frame w w'.
Proof.
  intros (iqs & pend & ns & I) Hd Hk [Hp1 Hp2]. destruct (inv_lookup _ _ _ _ _ _ _ _ I Hk) as (es & He & Hinj & Hwk & Hsl).
  eexists. split; [by apply upd_worker_ok|]. split.
  - exists (<[i := es]> iqs), pend, ns. eapply inv_upd; [done..| | | |].
    + unfold load. simpl. solve_Permutation.
    + done.
    + split; simpl; [by intros [?|?]|done].
    + apply dest_same; [done|done|by eapply exited_shutdown].
  - by eapply frame_worker.
Qed.

Lemma inject_ok T h w i k e :
  Inv T (e :: h) w → destroyer w ≠ Freed → workers (pool w) !! i = Some k → WakeTarget (Z.of_nat i) ∈ T →
  ∃ w', inject (Z.of_nat i) e w = ok (tt, w') ∧ Inv T h w' ∧ frame w w'.
Proof.
  intros (iqs & pend & ns & I) Hd Hk HT. destruct (inv_lookup _ _ _ _ _ _ _ _ I Hk) as (es & He & Hinj & Hwk & Hsl).
  destruct (inj_push_ok _ _ e Hinj) as (q' & Hq & Hinj').
  eexists. split. { unfold inject. erewrite prog_bind_ok by by apply get_worker_ok. rewrite Hq. by apply upd_worker_ok. }
  split; [|by eapply frame_worker]. exists (<[i := es ++ [e]]> iqs), pend, ns. eapply inv_upd; [done..| | | |].
  - unfold load. simpl. solve_Permutation.
  - done.
  - destruct Hsl. split; simpl; [done|]. intros _ _. eauto.
  - apply dest_same; [done|done|by eapply exited_shutdown].
Qed.

Lemma pop_bottom_ok T h w i k :
  Inv T h w → destroyer w ≠ Freed → workers (pool w) !! i = Some k →
  ∃ e w' k', pop_bottom (Z.of_nat i) w = ok (e, w') ∧ Inv T (hand e ++ h) w' ∧ frame w w' ∧
    workers (pool w') !! i = Some k' ∧ pc k' = pc k ∧ shutdown (pool w') = shutdown (pool w) ∧
    (e = 0 → deque k' = []).
Proof.
  intros (iqs & pend & ns & I) Hd Hk. destruct (inv_lookup _ _ _ _ _ _ _ _ I Hk) as (es & He & Hinj & Hwk & Hsl).
  unfold pop_bottom. erewrite prog_bind_ok by by apply get_worker_ok.
  destruct (last (deque k)) as [e|] eqn:Hlast.
  - apply last_Some in Hlast as [d Hdq].
    assert (e ≠ 0) as Hne.
    { eapply load_nonnull; [exact I|done..|]. unfold load. rewrite Hdq. apply elem_of_app. left. apply elem_of_app. right. by left. }
    eexists e, _, _. split; [by erewrite prog_bind_ok by by apply upd_worker_ok|].
    split. 2: { split; [by eapply frame_worker|]. simpl. split; [apply list_lookup_insert_eq; by eapply lookup_lt_Some|].
      split_and!; done. }
    exists (<[i := es]> iqs), pend, ns. eapply inv_upd; [done..| | | |].
    + unfold load, hand. rewrite (proj2 (Z.eqb_neq _ _) Hne). simpl. rewrite Hdq.
      rewrite length_app, take_app_length' by (simpl; lia). solve_Permutation.
    + done.
    + destruct Hsl as [Hs1 Hs2]. split; simpl; [|done]. intros Hpc. specialize (Hs1 Hpc). rewrite Hs1 in Hdq. by destruct d.
    + apply dest_same; [done|done|by eapply exited_shutdown].
  - apply last_None in Hlast. eexists 0, w, k. split_and!; try done. by exists iqs, pend, ns.
Qed.

Lemma pop_injector_ok T h w i k :
  Inv T h w → destroyer w ≠ Freed → workers (pool w) !! i = Some k → pc k ≠ Sleep →
  ∃ e w' k', pop_injector (Z.of_nat i) w = ok (e, w') ∧ Inv T (hand e ++ h) w' ∧ frame w w' ∧
    workers (pool w') !! i = Some k' ∧ pc k' = pc k ∧ deque k' = deque k ∧ shutdown (pool w') = shutdown (pool w) ∧
    (e = 0 → inj_holds (injector k') []).
Proof.
  intros (iqs & pend & ns & I) Hd Hk Hpc. destruct (inv_lookup _ _ _ _ _ _ _ _ I Hk) as (es & He & Hinj & Hwk & Hsl).
  unfold pop_injector. erewrite prog_bind_ok by by apply get_worker_ok.
  destruct (inj_pop_ok _ _ Hinj) as (q' & -> & Hinj').
  eexists _, _, _. split; [by erewrite prog_bind_ok by by apply upd_worker_ok|].
  split; [|split; [by eapply frame_worker|]; simpl; split; [apply list_lookup_insert_eq; by eapply lookup_lt_Some|]].
  - exists (<[i := tail es]> iqs), pend, ns. eapply inv_upd; [done..| | | |].
    + unfold load, hand. destruct es as [|e es]; simpl; [done|].
      rewrite (proj2 (Z.eqb_neq e 0)); [simpl; solve_Permutation|].
      eapply load_nonnull; [exact I|done..|]. unfold load. apply elem_of_app. right. by left.
    + done.
    + destruct Hsl as [Hs1 Hs2]. by split; simpl.
    + apply dest_same; [done|done|by eapply exited_shutdown].
  - split_and!; try done. simpl. destruct es as [|e es]; [done|]. simpl. intros ->. exfalso.
    eapply (load_nonnull _ _ _ _ _ _ i k _ 0); [exact I|done..| |done]. unfold load. apply elem_of_app. right. by left.
Qed.

Lemma steal_top_ok T h w v k lost :
  Inv T h w → destroyer w ≠ Freed → workers (pool w) !! v = Some k →
  ∃ e w', steal_top (Z.of_nat v) lost w = ok (e, w') ∧ Inv T (hand e ++ h) w' ∧ frame w w' ∧
    shutdown (pool w') = shutdown (pool w) ∧ (lost = false → e = default 0 (head (deque k))) ∧
    ∀ j, j ≠ v → workers (pool w') !! j = workers (pool w) !! j.
Proof.
  intros (iqs & pend & ns & I) Hd Hk. destruct (inv_lookup _ _ _ _ _ _ _ _ I Hk) as (es & He & Hinj & Hwk & Hsl).
  unfold steal_top. erewrite prog_bind_ok by by apply get_worker_ok.
  assert (Inv T (hand 0 ++ h) w) as I0 by by exists iqs, pend, ns.
  destruct (deque k) as [|e d] eqn:Hdq; [by exists 0, w|]. destruct lost; [by exists 0, w|].
  eexists _, _. split; [by erewrite prog_bind_ok by by apply upd_worker_ok|].
  split; [|split; [by eapply frame_worker|split_and!; [done..|]]; intros j Hj; simpl; by apply list_lookup_insert_ne].
  exists (<[v := es]> iqs), pend, ns. eapply inv_upd; [done..| | | |].
  - unfold load, hand. rewrite Hdq, (proj2 (Z.eqb_neq e 0)); [simpl; solve_Permutation|].
    eapply load_nonnull; [exact I|done..|]. unfold load. rewrite Hdq. by left.
  - done.
  - destruct Hsl as [Hs1 Hs2]. split; simpl; [|done]. intros Hpc. specialize (Hs1 Hpc). by rewrite Hs1 in Hdq.
  - apply dest_same; [done|done|by eapply exited_shutdown].
Qed.

Lemma send_ok T h w i k :
  Inv T h w → destroyer w ≠ Freed → workers (pool w) !! i = Some k →
  ∃ w', worker_try_wakeup (Z.of_nat i) w = ok (tt, w') ∧ Inv T h w' ∧ frame w w' ∧ shutdown (pool w') = shutdown (pool w) ∧
    live_count (pool w') = live_count (pool w) ∧
    (∀ j k', j ≠ i → workers (pool w') !! j = Some k' → workers (pool w) !! j = Some k') ∧
    ∃ k', workers (pool w') !! i = Some k' ∧ pc k' = pc k ∧ (pc k ≠ Exited → wakeup_sent k' = true).
Proof.
  intros (iqs & pend & ns & I) Hd Hk. destruct (inv_lookup _ _ _ _ _ _ _ _ I Hk) as (es & He & Hinj & Hwk & Hsl).
  unfold worker_try_wakeup, send. erewrite prog_bind_ok by by apply get_worker_ok. case_bool_decide as Hx.
  { exists w. split_and!; [done|by exists iqs, pend, ns|done..|by intros|]. by exists k. }
  eexists. split; [by apply upd_worker_ok|].
  split; [|split; [by eapply frame_worker|split_and!; [done..| |]]].
  - exists (<[i := es]> iqs), pend, ns. eapply inv_upd; [done..| | | |].
    + done.
    + done.
    + destruct Hsl as [Hs1 Hs2]. split; simpl; [done|]. by left.
    + split_and!; simpl; [by left|done|done].
  - intros j k' Hj. simpl. by rewrite list_lookup_insert_ne.
  - eexists. simpl. split; [apply list_lookup_insert_eq; by eapply lookup_lt_Some|]. done.
Qed.

Lemma sleep_mono T T' i k es :
  (∀ j, WakeTarget j ∈ T → WakeTarget j ∈ T') → (∀ j, Wakeup j ∈ T → Wakeup j ∈ T') → sleep_ok T i k es → sleep_ok T' i k es.
Proof. intros H1 H2 [Hs1 Hs2]. split; [done|]. intros Hpc Hes. destruct (Hs2 Hpc Hes) as [?|[?|?]]; eauto. Qed.

(** A step that only exchanges tasks, none of which is a spawn. *)
Definition plain (t : task) : bool := match t with Create _ _ _ _ | Dispatch _ => false | _ => true end.

Lemma chains_plain m ts T ns : Forall (λ t, plain t = true) ts → chains m (ts ++ T) ns ↔ chains m T ns.
Proof. induction 1 as [|t ts Ht Hts IH]; [done|]. destruct t; done. Qed.

Lemma creates_plain ts T : Forall (λ t, plain t = true) ts → creates (ts ++ T) = creates T.
Proof.
  intros Hp. rewrite creates_app. enough (creates ts = 0%nat) by lia.
  induction Hp as [|t ts Ht Hts IH]; [done|]. by destruct t.
Qed.

Lemma inv_swap us ts T h h' w iqs pend ns :
  inv (us ++ T) h w iqs pend ns → Forall (λ t, plain t = true) us → Forall (λ t, plain t = true) ts →
  h' ++ (ts ≫= posted) ≡ₚ h ++ (us ≫= posted) → Forall (task_ok (thread_count (pool w))) ts →
  (∀ i k es, workers (pool w) !! i = Some k → iqs !! i = Some es → sleep_ok (us ++ T) i k es → sleep_ok (ts ++ T) i k es) →
  inv (ts ++ T) h' w iqs pend ns.
Proof.
  intros I Hus Hts Hp Hok Hsl. destruct I as [? Hthr ? ? ? Hpl ? Ht ? Hs ?]. split; try done.
  - destruct Hthr as [? ? Hc ? ? Hl Hr ? ?]. rewrite creates_plain in Hl, Hr by done.
    split; rewrite ?creates_plain by done; try done. apply chains_plain; [done|]. by apply (chains_plain _ us).
  - rewrite <- Hpl. unfold placed. rewrite !bind_app. rewrite !(app_assoc h), !(app_assoc h').
    rewrite (Permutation_app_comm h), (Permutation_app_comm h'), <- !app_assoc. f_equiv.
    rewrite (app_assoc h'), (app_assoc h), Hp. done.
  - apply Forall_app in Ht as [_ ?]. by apply Forall_app.
  - intros i k es Hk He. eapply Hsl; eauto.
Qed.

(** ** Tasks *)

Lemma idx_worker (p : goc_pool Q) i :
  0 <= i < thread_count p → ∃ j k, i = Z.of_nat j ∧ workers p !! j = Some k.
Proof.
  intros Hi. destruct (lookup_lt_is_Some_2 (workers p) (Z.to_nat i)) as [k Hk]; [unfold thread_count in *; lia|].
  exists (Z.to_nat i), k. split; [lia|done].
Qed.

(** The thread is no worker, or a worker that may push to its deque. *)
Definition self_ok (w : world Q) (self : option Z) : Prop :=
  ∀ i, self = Some i → ∃ j k, i = Z.of_nat j ∧ workers (pool w) !! j = Some k ∧ pushable (pc k).

Definition created (w : world Q) m' (v : goc_entry) : world Q :=
  mk_world (pool w) (todo w) m' (<[next_fiber w := v]> (fibers w)) (next_fiber w + 1) (parked w) (destroyer w).

Lemma inv_create T T' w iqs pend ns m' ns' v :
  inv T [] w iqs pend ns →
  thr_ok m' (pool w) T' (S (size (fibers w))) pend ns' → T' ≫= posted ≡ₚ next_fiber w :: (T ≫= posted) →
  Forall (task_ok (thread_count (pool w))) T' →
  map_Forall (λ _ q, home_ok (thread_count (pool w)) (home_worker_idx q)) m' →
  (∀ i k es, sleep_ok T i k es → sleep_ok T' i k es) →
  inv T' [] (created w m' v) iqs pend ns'.
Proof.
  intros I Hthr Hp Ht Hr Hs.
  assert (fibers w !! next_fiber w = None) as Hnew.
  { destruct (fibers w !! next_fiber w) eqn:E; [|done]. exfalso.
    apply (Z.lt_irrefl (next_fiber w)), (i_fib _ _ _ _ _ _ I). unfold keys. apply list_elem_of_fmap.
    eexists (_, _). split; [done|]. by apply elem_of_map_to_list. }
  assert (keys (fibers (created w m' v)) ≡ₚ next_fiber w :: keys (fibers w)) as Hkeys.
  { unfold keys, created. simpl. by rewrite map_to_list_insert. }
  destruct I as [? ? Hf ? ? Hpl ? ? ? Hs0 ?]. split; try done.
  - simpl. by rewrite map_size_insert_None.
  - intros e. rewrite Hkeys. intros [->|He]%elem_of_cons; simpl; [lia|]. specialize (Hf e He). lia.
  - simpl. lia.
  - rewrite Hkeys, <- Hpl. simpl. unfold placed. rewrite Hp. solve_Permutation.
  - intros i k es Hk He. by eapply Hs, Hs0.
Qed.

Lemma create_ok T w fn arg join home :
  Inv (Create fn arg join home :: T) [] w →
  ∃ ts w', create_and_post fn arg join home w = ok (ts, w') ∧ Inv (ts ++ T) [] w' ∧ frame w w'.
Proof.
  intros (iqs & pend & ns & I). unfold create_and_post. erewrite prog_bind_ok by reflexivity.
  pose (t := match home with Some i => PostTo i (next_fiber w) | None => Post (next_fiber w) end).
  exists [t], (created w (reqs w) (mk_entry fn arg join (default 0 home))). split; [by destruct home|]. split; [|done].
  exists iqs, pend, ns. eapply inv_create; [exact I|..].
  - destruct (i_thr _ _ _ _ _ _ I) as [? ? Hc ? ? Hl Hr ? ?].
    change (creates (Create fn arg join home :: T)) with (S (creates T)) in *.
    assert (creates ([t] ++ T) = creates T) as Hct by (subst t; by destruct home).
    split; rewrite ?Hct; try done; try lia. subst t. by destruct home.
  - subst t. by destruct home.
  - pose proof (i_task _ _ _ _ _ _ I) as Ht. apply Forall_cons in Ht as [Ht ?]. apply Forall_cons. split; [|done].
    subst t. by destruct home.
  - apply I.
  - intros i k es. apply sleep_mono; intros j; simpl; set_solver.
Qed.

Lemma dispatch_ok T w r :
  Inv (Dispatch r :: T) [] w →
  ∃ ts w', pool_dispatch_spawn_list r w = ok (ts, w') ∧ Inv (ts ++ T) [] w' ∧ frame w w'.
Proof.
  intros (iqs & pend & ns & I). destruct r as [r|]; simpl.
  - destruct (i_thr _ _ _ _ _ _ I) as [Hp Htl Hc Hnd Hdom Hl Hr Hw Hf]. destruct Hc as (n1 & n2 & -> & Hln & Hc).
    destruct n1 as [|r' n1]; [done|]. destruct Hln as ([= <-] & q & Hq & Hln).
    erewrite prog_bind_ok by by apply get_req_ok. erewrite prog_bind_ok by reflexivity.
    erewrite prog_bind_ok by reflexivity.
    pose (e := next_fiber w). pose (t := if home_worker_idx q =? SIZE_MAX then Post e else PostTo (home_worker_idx q) e).
    exists [t; Dispatch (next q)], (created w (delete r (reqs w)) (mk_entry (fn q) (fn_arg q) (join_ch q)
      (if home_worker_idx q =? SIZE_MAX then 0 else home_worker_idx q))).
    split; [done|]. split; [|done].
    rewrite (Permutation_app_comm pend), NoDup_app in Hnd. simpl in Hnd.
    destruct Hnd as ((Hr1 & Hnd1)%NoDup_cons & Hdis & Hndp).
    assert (r ∉ pend) as Hrp by (apply Hdis; by left).
    exists iqs, pend, (n1 ++ n2). eapply inv_create; [exact I|..].
    + assert (creates ([t; Dispatch (next q)] ++ T) = creates T) as Hct by (subst t; by destruct (_ =? _)).
      change (creates (Dispatch (Some r) :: T)) with (creates T) in *.
      split; rewrite ?Hct; try done.
      * eapply pool_linked_frame; [|exact Hp]. intros n Hn. apply lookup_delete_ne. by intros ->.
      * assert (∀ n, n ∈ n1 ++ n2 → delete r (reqs w) !! n = reqs w !! n) as Hfr
          by (intros n Hn; apply lookup_delete_ne; by intros ->).
        enough (chains (delete r (reqs w)) (Dispatch (next q) :: T) (n1 ++ n2)) by (subst t; by destruct (_ =? _)).
        apply (chains_frame (reqs w)); [done|]. simpl. eauto.
      * rewrite (Permutation_app_comm pend). apply NoDup_app. split_and!; [done| |done].
        intros n Hn. apply Hdis. by right.
      * intros n. rewrite dom_delete, elem_of_difference, Hdom, elem_of_singleton, !elem_of_app.
        rewrite elem_of_cons. split; [naive_solver|].
        intros Hin. split; [naive_solver|]. intros ->. destruct Hin as [?|Hin]; [done|]. apply Hr1. by apply elem_of_app.
      * revert Hl. simpl. rewrite !length_app. simpl. lia.
      * revert Hr. simpl. rewrite !length_app. simpl. lia.
    + subst t. by destruct (_ =? _).
    + pose proof (i_task _ _ _ _ _ _ I) as Ht. apply Forall_cons in Ht as [_ Ht]. simpl. repeat apply Forall_cons_2; [|done..].
      pose proof (i_req _ _ _ _ _ _ I _ _ Hq) as Hh. subst t. destruct (Z.eqb_spec (home_worker_idx q) SIZE_MAX); [done|].
      by destruct Hh.
    + apply map_Forall_delete. apply I.
    + intros i k es. apply sleep_mono; intros j; simpl; set_solver.
  - exists [], w. split; [done|]. split; [|done]. exists iqs, pend, ns. destruct I as [? Hthr ? ? ? Hpl ? Ht ? Hs ?]. split; try done.
    + destruct Hthr as [? ? (n1 & n2 & -> & ->%linked_None & Hc) ? ? ? ? ? ?]. by split.
    + by apply Forall_cons in Ht as [_ ?].
    + intros i k es Hk He. eapply sleep_mono; [..|by eapply Hs]; intros j; set_solver.
Qed.

(** The task of posting becomes the fiber in hand and the wakeup that follows the push. *)
Lemma take_post t u T w e :
  Inv (t :: T) [] w → plain t = true → posted t = [e] → plain u = true → posted u = [] → task_ok (thread_count (pool w)) u →
  Inv ([u] ++ T) [e] w.
Proof.
  intros (iqs & pend & ns & I) Ht Hpt Hu Hpu Huok. exists iqs, pend, ns.
  eapply (inv_swap [t] [u]); [exact I|by constructor|by constructor| |by constructor|].
  - simpl. by rewrite Hpt, Hpu.
  - intros i k es _ _. apply sleep_mono; intros j; simpl; rewrite !elem_of_cons; intros [<-|?]; try done; by right.
Qed.

Lemma inv_idx T h w f : (∀ p, thread_count (f p) = thread_count p ∧ workers (f p) = workers p ∧ dest_ok (f p) = dest_ok p) →
  (∀ m p T nf pend ns, thr_ok m p T nf pend ns → thr_ok m (f p) T nf pend ns) →
  Inv T h w → Inv T h (set_pool (f (pool w)) w).
Proof.
  intros Hf Ht (iqs & pend & ns & I). exists iqs, pend, ns. destruct (Hf (pool w)) as (H1 & H2 & H3). destruct I.
  split; simpl; rewrite ?H1, ?H2, ?H3; auto.
Qed.

Lemma set_push_idx_inv T h w n : Inv T h w → Inv T h (set_pool (set_push_idx n (pool w)) w).
Proof. apply (inv_idx T h w (set_push_idx n)); [done|]. intros m p T' nf pend ns []. by split. Qed.

Lemma set_idle_inv T h w n : Inv T h w → Inv T h (set_pool (set_idle n (pool w)) w).
Proof. apply (inv_idx T h w (set_idle n)); [done|]. intros m p T' nf pend ns []. by split. Qed.

Lemma inv_threads T h w : Inv T h w → 0 < thread_count (pool w) < 4294967296.
Proof. intros (iqs & pend & ns & I). apply I. Qed.

Lemma post_to_run_queue_ok T w self e :
  Inv (Post e :: T) [] w → destroyer w ≠ Freed → self_ok w self →
  ∃ ts w', post_to_run_queue self e w = ok (ts, w') ∧ Inv (ts ++ T) [] w' ∧ frame w w'.
Proof.
  intros I Hd Hself. pose proof (inv_threads _ _ _ I) as Hn. destruct self as [i|]; simpl.
  - destruct (Hself i eq_refl) as (j & k & -> & Hk & Hp).
    destruct (push_bottom_ok ([WakePeer (Z.of_nat j)] ++ T) [] w j k e) as (w' & Hr & I' & Hf); try done.
    { eapply take_post; [exact I|done..|]. simpl. apply lookup_lt_Some in Hk. unfold thread_count. lia. }
    eexists _, w'. split; [by erewrite prog_bind_ok by exact Hr|]. done.
  - erewrite prog_bind_ok by by apply get_pool_ok. erewrite prog_bind_ok by by apply upd_pool_ok.
    destruct (Z.eqb_spec (thread_count (pool w)) 0); [lia|].
    set (w1 := set_pool _ w).
    destruct (idx_worker (pool w1) (next_push_idx (pool w) mod thread_count (pool w))) as (j & k & -> & Hk).
    { apply (Z.mod_pos_bound _ (thread_count (pool w))). lia. }
    destruct (inject_ok ([WakeTarget (Z.of_nat j)] ++ T) [] w1 j k e) as (w' & Hr & I' & Hf); try done; [|by left|].
    { eapply take_post; [apply set_push_idx_inv, I|done..|]. apply lookup_lt_Some in Hk. simpl in *. unfold thread_count. simpl. lia. }
    eexists _, w'. split; [by erewrite prog_bind_ok by exact Hr|]. done.
Qed.

Lemma post_to_specific_worker_ok T w self i e :
  Inv (PostTo i e :: T) [] w → destroyer w ≠ Freed → self_ok w self →
  ∃ ts w', post_to_specific_worker self i e w = ok (ts, w') ∧ Inv (ts ++ T) [] w' ∧ frame w w'.
Proof.
  intros I Hd Hself. destruct I as (iqs & pend & ns & I0).
  assert (0 <= i < thread_count (pool w)) as Hi by (pose proof (i_task _ _ _ _ _ _ I0) as Ht; by apply Forall_cons in Ht as [? _]).
  assert (e ≠ 0) as He.
  { intros ->. apply (Z.lt_irrefl 0), (i_fib _ _ _ _ _ _ I0 0). rewrite <- (i_place _ _ _ _ _ _ I0). unfold placed. simpl. set_solver. }
  assert (Inv (PostTo i e :: T) [] w) as I by by exists iqs, pend, ns. clear I0.
  unfold post_to_specific_worker. erewrite prog_bind_ok by by apply get_pool_ok.
  destruct (Z.leb_spec (thread_count (pool w)) i); [lia|]. rewrite (proj2 (Z.eqb_neq e 0) He). cbn [orb].
  destruct (idx_worker _ _ Hi) as (j & k & -> & Hk). case_bool_decide as Hs.
  - destruct (Hself _ Hs) as (j' & k' & Hj' & Hk' & Hp). apply Nat2Z.inj in Hj' as <-. rewrite Hk in Hk'. injection Hk' as <-.
    destruct (push_bottom_ok ([WakePeer (Z.of_nat j)] ++ T) [] w j k e) as (w' & Hr & I' & Hf); try done.
    { by eapply take_post. }
    eexists _, w'. split; [by erewrite prog_bind_ok by exact Hr|]. done.
  - destruct (inject_ok ([WakeTarget (Z.of_nat j)] ++ T) [] w j k e) as (w' & Hr & I' & Hf); try done; [|by left|].
    { by eapply take_post. }
    eexists _, w'. split; [by erewrite prog_bind_ok by exact Hr|]. done.
Qed.

(** Nothing is left anywhere when no fiber is alive. *)
Lemma no_fibers_empty T h w iqs pend ns :
  inv T h w iqs pend ns → live_count (pool w) = 0 →
  fibers w = ∅ ∧ pend = [] ∧ ns = [] ∧ h = [] ∧ T ≫= posted = [] ∧ parked w = [] ∧
  ∀ i k es, workers (pool w) !! i = Some k → iqs !! i = Some es → deque k = [] ∧ es = [] ∧ held (pc k) = [].
Proof.
  intros I Hl. pose proof (th_live _ _ _ _ _ _ (i_thr _ _ _ _ _ _ I)) as Hc. rewrite Hl in Hc.
  assert (fibers w = ∅) as Hf by (apply map_size_empty_inv; lia).
  destruct pend; [|simpl in Hc; lia]. destruct ns; [|simpl in Hc; lia].
  pose proof (i_place _ _ _ _ _ _ I) as Hp. rewrite Hf in Hp. unfold keys in Hp. rewrite map_to_list_empty in Hp.
  apply Permutation_nil_r in Hp. apply app_eq_nil in Hp as [-> Hp]. unfold placed in Hp.
  apply app_eq_nil in Hp as [Hp [Ht Hk]%app_eq_nil]. split_and!; try done.
  intros i k es Hk' He. destruct (concat_insert (zip_with load (workers (pool w)) iqs) i (load k es)) as (rest & Hx & _).
  { rewrite lookup_zip_with, Hk'. simpl. by rewrite He. }
  rewrite Hp in Hx. symmetry in Hx. apply Permutation_nil_r in Hx. apply app_eq_nil in Hx as [Hx _].
  unfold load in Hx. by apply app_eq_nil in Hx as [? [? ?]%app_eq_nil].
Qed.

Lemma wake_target_ok T w i :
  Inv (WakeTarget i :: T) [] w → destroyer w ≠ Freed →
  ∃ ts w', wake_target i w = ok (ts, w') ∧ Inv (ts ++ T) [] w' ∧ frame w w'.
Proof.
  intros (iqs & pend & ns & I) Hd. unfold wake_target. erewrite prog_bind_ok by by apply get_pool_ok.
  pose proof (i_task _ _ _ _ _ _ I) as Ht. apply Forall_cons in Ht as [Ht _].
  destruct (shutdown (pool w)) eqn:Hsd; eexists _, w; (split; [done|]); (split; [|done]); exists iqs, pend, ns.
  - assert (live_count (pool w) = 0) as Hl.
    { destruct (i_dest _ _ _ _ _ _ I) as [Hdo _]. destruct (destroyer w); simpl in Hdo; destruct_and?; congruence. }
    eapply (inv_swap [WakeTarget i] []); [exact I|by constructor|done|done|done|].
    intros j k es Hk He [Hs1 _]. split; [done|]. intros _ Hes.
    destruct (no_fibers_empty _ _ _ _ _ _ I Hl) as (_ & _ & _ & _ & _ & _ & Hem). by destruct (Hem j k es Hk He) as (_ & ? & _).
  - eapply (inv_swap [WakeTarget i] [Wakeup i]); [exact I|by constructor|by constructor|done|by constructor|].
    intros j k es Hk He [Hs1 Hs2]. split; [done|]. intros Hpc Hes. simpl.
    destruct (Hs2 Hpc Hes) as [?|[[[= ->]|?]%elem_of_cons|[?|?]%elem_of_cons]]; [by left| | |done|]; right.
    + right. by left.
    + left. by right.
    + right. by right.
Qed.

Lemma wake_peer_ok T w i :
  Inv (WakePeer i :: T) [] w → destroyer w ≠ Freed →
  ∃ ts w', wake_peer i w = ok (ts, w') ∧ Inv (ts ++ T) [] w' ∧ frame w w'.
Proof.
  intros (iqs & pend & ns & I) Hd. unfold wake_peer. erewrite prog_bind_ok by by apply get_pool_ok.
  assert (∀ ts, ts = [] ∨ ts = [Wakeup ((i + 1) mod thread_count (pool w))] → Inv (ts ++ T) [] w) as Hts.
  { intros ts Hts. exists iqs, pend, ns. pose proof (i_n _ _ _ _ _ _ I).
    eapply (inv_swap [WakePeer i]); [exact I|by constructor|destruct Hts as [->| ->]; by constructor|by destruct Hts as [->| ->]| |].
    - destruct Hts as [->| ->]; [done|]. constructor; [|done]. apply Z.mod_pos_bound. lia.
    - intros j k es _ _. apply sleep_mono; intros x; simpl; intros [?|?]%elem_of_cons; try done; apply elem_of_app; by right. }
  destruct (_ && _); eexists _, w; (split; [done|]); (split; [apply Hts; by eauto|done]).
Qed.

Lemma wakeup_ok T w i :
  Inv (Wakeup i :: T) [] w → destroyer w ≠ Freed →
  ∃ w', worker_try_wakeup i w = ok (tt, w') ∧ Inv T [] w' ∧ frame w w'.
Proof.
  intros I Hd. assert (0 <= i < thread_count (pool w)) as Hi.
  { destruct I as (iqs & pend & ns & I). pose proof (i_task _ _ _ _ _ _ I) as Ht. by apply Forall_cons in Ht as [Ht _]. }
  destruct (idx_worker _ _ Hi) as (j & k & -> & Hk).
  destruct (send_ok _ _ _ j k I Hd Hk) as (w' & Hr & (iqs & pend & ns & I') & Hf & _ & _ & _ & (k' & Hk' & Hpc & Hsent)).
  exists w'. split; [done|]. split; [|done]. exists iqs, pend, ns.
  eapply (inv_swap [Wakeup (Z.of_nat j)] []); [exact I'|by constructor|done|done|done|].
  intros x y es Hy He [Hs1 Hs2]. split; [done|]. intros Hpy Hes. simpl.
  destruct (Hs2 Hpy Hes) as [?|[[?|?]%elem_of_cons|[[= Hx]|?]%elem_of_cons]]; [by left|done|by eauto| |by eauto].
  left. apply Nat2Z.inj in Hx as ->. simplify_eq. apply Hsent. congruence.
Qed.

Lemma task_step_ok T w self t :
  Inv (t :: T) [] w → destroyer w ≠ Freed → self_ok w self →
  ∃ ts w', task_step self t w = ok (ts, w') ∧ Inv (ts ++ T) [] w' ∧ frame w w'.
Proof.
  intros I Hd Hself. destruct t; simpl.
  - by apply create_ok.
  - by apply dispatch_ok.
  - by apply post_to_run_queue_ok.
  - by apply post_to_specific_worker_ok.
  - by apply wake_target_ok.
  - by apply wake_peer_ok.
  - destruct (wakeup_ok T w idx I Hd) as (w' & Hr & I' & Hf). exists [], w'. split; [by erewrite prog_bind_ok by exact Hr|done].
Qed.

(** ** Spawning *)

Lemma cap_mono (p : goc_pool Q) a b : a <= b → cap_at p a = true → cap_at p b = true.
Proof. unfold cap_at. rewrite !andb_true_iff, !Z.leb_le. intros ? [? ?]. split; [done|lia]. Qed.

Lemma pool_enqueue_ok (w : world Q) pend r q :
  destroyer w ≠ Freed → linked (reqs w) pend (pending_spawn_head (pool w)) → pending_spawn_tail (pool w) = last pend →
  r ∉ pend → reqs w !! r = Some q →
  pool_enqueue_spawn_locked r w =
    ok (tt, set_reqs (let_in r q (last pend) (reqs w))
              (set_pool (set_tail (Some r) (set_head (match last pend with Some _ => pending_spawn_head (pool w) | None => Some r end) (pool w))) w)).
Proof.
  intros Hd Hl Ht Hr Hq. unfold pool_enqueue_spawn_locked, let_in. erewrite prog_bind_ok by by apply get_req_ok.
  erewrite prog_bind_ok by reflexivity. erewrite prog_bind_ok by by apply get_pool_ok. simpl. rewrite Ht.
  destruct (last pend) as [t|] eqn:Hla.
  - assert (t ∈ pend) as Htp by (apply last_Some in Hla as [? ->]; set_solver).
    destruct (linked_in _ _ _ _ Hl Htp) as [qt Hqt]. assert (r ≠ t) by (by intros ->).
    rewrite lookup_insert_ne, Hqt by done.
    erewrite prog_bind_ok. 2: { erewrite prog_bind_ok; [done|]. apply get_req_ok. simpl. by rewrite lookup_insert_ne. }
    rewrite upd_pool_ok by done. done.
  - erewrite prog_bind_ok by by apply upd_pool_ok. by rewrite upd_pool_ok.
Qed.

Lemma payload_dom m m' n : payload m' n = payload m n → n ∈ dom m' ↔ n ∈ dom m.
Proof.
  unfold payload. rewrite !elem_of_dom. intros E.
  destruct (m !! n), (m' !! n); simplify_eq/=; split; intros Hx; eauto; by inversion Hx.
Qed.

Lemma payload_home (P : Z → Prop) m m' :
  (∀ n, payload m' n = payload m n) → map_Forall (λ _ q, P (home_worker_idx q)) m → map_Forall (λ _ q, P (home_worker_idx q)) m'.
Proof.
  intros Hp Hm n q Hq. specialize (Hp n). unfold payload in Hp. rewrite Hq in Hp.
  destruct (m !! n) as [q'|] eqn:E; [|done]. simpl in Hp. injection Hp as H1 H2 H3 H4. rewrite H4. by eapply Hm.
Qed.

Lemma pend_fuel m p T nf pend ns : thr_ok m p T nf pend ns → (length pend <= size m)%nat.
Proof.
  intros [? ? ? Hnd Hdom ? ? ? ?]. apply NoDup_app in Hnd as (Hnd & _ & _).
  rewrite <- (size_dom m). rewrite <- (size_list_to_set (C:=gset positive)) by done.
  apply subseteq_size. intros n Hn. apply Hdom. apply elem_of_list_to_set in Hn. set_solver.
Qed.

(** What a spawn does: created at once, or last in the queue. *)
Definition fast_path (p : goc_pool Q) (self : option Z) : bool :=
  bool_decide (is_Some self) || bool_decide (pending_spawn_head p = None) && negb (pool_spawn_cap_reached_locked p).

Definition count_spawn (n : Z) (w : world Q) : world Q :=
  set_pool (set_resident (resident_count (pool w) + n) (set_live (live_count (pool w) + 1) (pool w))) w.

Definition queue_spawn (r : positive) (q : goc_spawn_req) (pend : list positive) (w : world Q) : world Q :=
  set_reqs (let_in r q (last pend) (<[r := q]> (reqs w)))
    (set_pool (set_tail (Some r)
      (set_head (match last pend with Some _ => pending_spawn_head (pool w) | None => Some r end) (pool w))) w).

(** Spawns are accepted until the pool is drained. *)
Definition accepting (d : dpc) : Prop := match d with NoDestroy | Draining _ => True | _ => False end.

Lemma accepting_alive d : accepting d → d ≠ Freed.
Proof. by destruct d. Qed.

Lemma dest_accepting (p p' : goc_pool Q) d :
  accepting d → workers p' = workers p → shutdown p' = shutdown p → dest_ok p d → dest_ok p' d.
Proof. intros Ha Hw Hs [Hd He]. unfold dest_ok. rewrite Hw, Hs. split; [|done]. by destruct d. Qed.

Lemma fast_inv T w iqs pend ns fn arg join home :
  inv T [] w iqs pend ns → accepting (destroyer w) → live_count (pool w) < SIZE_MAX →
  match home with Some i => 0 <= i < thread_count (pool w) | None => True end →
  inv ([Create fn arg join home] ++ T) [] (count_spawn 1 w) iqs pend ns.
Proof.
  intros [Hn Hthr Hfib Hnext Hinj Hpl Hwk Ht Hrq Hsl Hdst] Ha Hlive Hhome.
  assert (creates (Create fn arg join home :: T) = S (creates T)) as Hct by done.
  split; try done; simpl.
  - destruct Hthr as [? ? ? ? ? Hl Hr ? Hf]. split; simpl; rewrite ?Hct; try done; try lia.
    + unfold SIZE_MAX, WORD in *. lia.
    + intros Hpe. change (cap_at (pool w) (resident_count (pool w) + 1) = true).
      apply (cap_mono _ (resident_count (pool w))); [lia|]. by apply Hf.
  - by constructor.
  - intros i k es Hk He. eapply sleep_mono; [..|by eapply Hsl]; intros j ?; by right.
  - by apply (dest_accepting (pool w)).
Qed.

Lemma queue_payload r q pend (w : world Q) n :
  payload (reqs (queue_spawn r q pend w)) n = if decide (n = r) then Some (set_next None q) else payload (reqs w) n.
Proof.
  simpl. rewrite (admit_payload r q) by apply lookup_insert_eq. unfold payload. case_decide as Hn.
  - subst. by rewrite lookup_insert_eq.
  - by rewrite lookup_insert_ne.
Qed.

Lemma queue_thr w T nf pend ns r q :
  thr_ok (reqs w) (pool w) T nf pend ns → r ∉ dom (reqs w) → live_count (pool w) < SIZE_MAX →
  pool_spawn_cap_reached_locked (pool w) = true → next q = None →
  thr_ok (reqs (queue_spawn r q pend (count_spawn 0 w))) (pool (queue_spawn r q pend (count_spawn 0 w))) (Dispatch None :: T) nf (pend ++ [r]) ns.
Proof.
  intros [Hp Htl Hc Hnd Hdom Hl Hr Hw Hf] Hfresh Hlive Hcap Hq.
  assert (r ∉ pend ∧ r ∉ ns) as [Hrp Hrns] by (rewrite <- not_elem_of_app, <- Hdom; done).
  assert (∀ n, n ∈ ns → let_in r q (last pend) (<[r := q]> (reqs w)) !! n = reqs w !! n) as Hframe.
  { intros n Hin. rewrite admit_frame; [by apply lookup_insert_ne; intros ->|by intros ->|].
    intros Hla. apply last_Some in Hla as [p' ->]. apply NoDup_app in Hnd as (_ & Hdis & _). by eapply (Hdis n); [set_solver|]. }
  split; simpl; try done.
  - apply admit_linked; [by apply linked_app_None| |by apply lookup_insert_eq].
    apply NoDup_app in Hnd as (? & _ & _). by apply NoDup_cons.
  - by rewrite last_snoc.
  - exists [], ns. split_and!; [done|done|]. by eapply chains_frame.
  - rewrite <- app_assoc, (Permutation_app_comm [r]), app_assoc. apply NoDup_app. split_and!; [done| |apply NoDup_singleton].
    intros n Hn1 ->%list_elem_of_singleton. rewrite elem_of_app in Hn1. tauto.
  - intros n. rewrite (payload_dom (<[r := q]> (reqs w))) by (apply admit_payload, lookup_insert_eq).
    rewrite dom_insert, elem_of_union, Hdom, elem_of_singleton, !elem_of_app, list_elem_of_singleton. tauto.
  - change (creates (Dispatch None :: T)) with (creates T). rewrite length_app. simpl. lia.
  - change (creates (Dispatch None :: T)) with (creates T). lia.
  - unfold SIZE_MAX, WORD in *. lia.
  - intros _. change (cap_at (pool w) (resident_count (pool w) + 0) = true). rewrite Z.add_0_r. done.
Qed.

Lemma queue_inv T w iqs pend ns r q :
  inv T [] w iqs pend ns → accepting (destroyer w) → live_count (pool w) < SIZE_MAX →
  r ∉ dom (reqs w) → pool_spawn_cap_reached_locked (pool w) = true → next q = None →
  home_ok (thread_count (pool w)) (home_worker_idx q) →
  inv ([Dispatch None] ++ T) [] (queue_spawn r q pend (count_spawn 0 w)) iqs (pend ++ [r]) ns.
Proof.
  intros [Hn Hthr Hfib Hnext Hinj Hpl Hwk Ht Hrq Hsl Hdst] Ha Hlive Hfresh Hcap Hq Hhome. split; try done.
  - by apply queue_thr.
  - by constructor.
  - apply (payload_home _ (<[r := q]> (reqs w))); [apply admit_payload, lookup_insert_eq|]. by apply map_Forall_insert_2.
  - intros i k es Hk He. eapply sleep_mono; [..|by eapply Hsl]; intros j ?; by right.
  - by apply (dest_accepting (pool w)).
Qed.

Lemma collect_capped (w : world Q) r :
  destroyer w ≠ Freed → pending_spawn_head (pool w) = Some r → pool_spawn_cap_reached_locked (pool w) = true →
  pool_collect_admitted_spawns_locked w = ok (None, w).
Proof.
  intros Hd Hhd Hcap. unfold pool_collect_admitted_spawns_locked.
  destruct (size (reqs w)); cbn [collect_loop]; rewrite (prog_bind_ok _ _ _ _ _ (get_pool_ok w Hd)), Hhd; by rewrite Hcap.
Qed.

(** A spawn is created at once, or put last in the queue. *)
Lemma submit_ok T w self fn arg join home iqs pend ns :
  inv T [] w iqs pend ns → accepting (destroyer w) → live_count (pool w) < SIZE_MAX →
  let r := fresh (dom (reqs w)) in
  submit_locked self fn arg join home w =
    (if fast_path (pool w) self then ok ([Create fn arg join home], count_spawn 1 w)
     else ok ([Dispatch None], queue_spawn r (mk_req None fn arg join (default SIZE_MAX home)) pend (count_spawn 0 w))) ∧
  (fast_path (pool w) self = false → pool_spawn_cap_reached_locked (pool w) = true).
Proof.
  intros I Hacc Hlive r. pose proof (accepting_alive _ Hacc) as Hd.
  destruct (i_thr _ _ _ _ _ _ I) as [Hp Htl Hc Hnd Hdom Hl Hr Hw Hf].
  assert (live_count (pool w) +% 1 = live_count (pool w) + 1) as Hw1 by (apply wrap64_small; unfold SIZE_MAX, WORD in *; lia).
  assert (resident_count (pool w) +% 1 = resident_count (pool w) + 1) as Hw2 by (apply wrap64_small; unfold SIZE_MAX, WORD in *; lia).
  unfold submit_locked. rewrite (prog_bind_ok _ _ _ _ _ (get_pool_ok w Hd)), (prog_bind_ok _ _ _ _ _ (upd_pool_ok _ w Hd)), Hw1, Hw2.
  fold (fast_path (pool w) self). destruct (fast_path (pool w) self) eqn:Hfast.
  { split; [|done]. by erewrite prog_bind_ok by (by apply upd_pool_ok). }
  assert (pool_spawn_cap_reached_locked (pool w) = true) as Hcap.
  { unfold fast_path in Hfast. apply orb_false_iff in Hfast as [_ Hfast]. apply andb_false_iff in Hfast as [Hx|Hx].
    - apply Hf. intros ->. simpl in Hp. rewrite Hp in Hx. by rewrite bool_decide_true in Hx.
    - by apply negb_false_iff. }
  split; [|done]. set (w1 := set_pool _ w). set (q := mk_req None fn arg join (default SIZE_MAX home)).
  rewrite (prog_bind_ok (new_req q) _ w1 r (set_reqs (<[r := q]> (reqs w1)) w1)) by done. set (w2 := set_reqs _ w1).
  assert (r ∉ pend) as Hrp.
  { assert (r ∉ dom (reqs w)) as Hfr by apply is_fresh. rewrite Hdom, not_elem_of_app in Hfr. by destruct Hfr. }
  assert (linked (reqs w2) pend (pending_spawn_head (pool w2))) as Hp2 by by apply linked_app_None.
  rewrite (prog_bind_ok _ _ _ _ _ (pool_enqueue_ok w2 pend r q Hd Hp2 Htl Hrp (lookup_insert_eq _ _ _))). set (w3 := set_reqs _ _).
  assert (∃ r', pending_spawn_head (pool w3) = Some r') as [r' Hhd].
  { simpl. destruct (last pend) eqn:Hla; [|eauto]. destruct pend as [|x pend']; [done|]. destruct Hp as [-> _]. eauto. }
  rewrite (prog_bind_ok _ _ _ _ _ (collect_capped w3 r' Hd Hhd Hcap)).
  unfold w3, w2, w1, queue_spawn, count_spawn. rewrite Z.add_0_r. by destruct w as [[] ? ? ? ? ? ?].
Qed.

(** ** The end of a fiber *)

Lemma live_accepting T h w iqs pend ns : inv T h w iqs pend ns → live_count (pool w) ≠ 0 → accepting (destroyer w).
Proof. intros I Hl. destruct (i_dest _ _ _ _ _ _ I) as [Hd _]. destruct (destroyer w); simpl in *; destruct_and?; done. Qed.

Definition finished (e : Z) (m' : gmap positive goc_spawn_req) (hd tl : option positive) (n : Z) (w : world Q) : world Q :=
  set_reqs m' (set_pool (adj hd tl (resident_count (pool w) - 1 + n) (set_live (live_count (pool w) - 1) (pool w)))
                 (set_fibers (delete e (fibers w)) w)).

Lemma keys_size m : length (keys m) = size m.
Proof. unfold keys. by rewrite length_fmap, length_map_to_list. Qed.

Lemma keys_delete m e : e ∈ keys m → e :: keys (delete e m) ≡ₚ keys m ∧ S (size (delete e m)) = size m.
Proof.
  unfold keys. intros [[x v] [-> Hx%elem_of_map_to_list]]%list_elem_of_fmap. simpl. split.
  - change (x :: (map_to_list (delete x m)).*1) with (((x, v) :: map_to_list (delete x m)).*1). by rewrite map_to_list_delete.
  - rewrite map_size_delete_Some by eauto. apply Nat.succ_pred. eapply map_size_ne_0_lookup_2. eauto.
Qed.

Lemma pool_collect_ok (w : world Q) pend :
  destroyer w ≠ Freed → linked (reqs w) pend (pending_spawn_head (pool w)) → pending_spawn_tail (pool w) = last pend →
  NoDup pend → (length pend <= size (reqs w))%nat →
  0 <= resident_count (pool w) → resident_count (pool w) + Z.of_nat (length pend) < WORD →
  ∃ p1 p2 m' hd r, pend = p1 ++ p2 ∧
    pool_collect_admitted_spawns_locked w =
      ok (r, set_reqs m' (set_pool (adj hd (last p2) (resident_count (pool w) + Z.of_nat (length p1)) (pool w)) w)) ∧
    linked m' p1 r ∧ linked m' p2 hd ∧
    (∀ n, n ∉ pend → m' !! n = reqs w !! n) ∧ (∀ n, payload m' n = payload (reqs w) n) ∧
    (p2 ≠ [] → cap_at (pool w) (resident_count (pool w) + Z.of_nat (length p1)) = true) ∧
    (∀ j, (j < length p1)%nat → cap_at (pool w) (resident_count (pool w) + Z.of_nat j) = false).
Proof.
  intros Hd Hl Ht Hnd Hs H0 Hw. unfold pool_collect_admitted_spawns_locked.
  apply (collect_loop_ok pend (size (reqs w)) [] None w); try done. by rewrite app_nil_r.
Qed.

Lemma finish_run T w e iqs pend ns :
  inv T [e] w iqs pend ns → destroyer w ≠ Freed →
  ∃ p1 p2 m' hd r, pend = p1 ++ p2 ∧
    finish_fiber e w = ok ([Dispatch r], finished e m' hd (last p2) (Z.of_nat (length p1)) w) ∧
    linked m' p1 r ∧ linked m' p2 hd ∧
    (∀ n, n ∉ pend → m' !! n = reqs w !! n) ∧ (∀ n, payload m' n = payload (reqs w) n) ∧
    (p2 ≠ [] → cap_at (pool w) (resident_count (pool w) - 1 + Z.of_nat (length p1)) = true) ∧
    (∀ j, (j < length p1)%nat → cap_at (pool w) (resident_count (pool w) - 1 + Z.of_nat j) = false).
Proof.
  intros I Hd. destruct (i_thr _ _ _ _ _ _ I) as [Hp Htl Hc Hnd Hdom Hl Hr Hw Hf].
  assert (e ∈ keys (fibers w)) as He by (rewrite <- (i_place _ _ _ _ _ _ I); by left).
  assert (size (fibers w) ≠ 0)%nat as Hsz by (destruct (keys_delete _ _ He) as [_ <-]; lia).
  unfold finish_fiber. erewrite prog_bind_ok by reflexivity. erewrite prog_bind_ok by (by apply get_pool_ok).
  destruct (Z.ltb_spec 0 (resident_count (pool (set_fibers (delete e (fibers w)) w)))) as [_|Hx]; [|simpl in Hx; lia].
  erewrite prog_bind_ok by (by apply upd_pool_ok). erewrite prog_bind_ok by (by apply upd_pool_ok).
  set (w1 := set_pool _ _).
  assert (resident_count (pool w1) = resident_count (pool w) - 1) as Hr1 by (simpl; apply wrap64_small; unfold WORD in *; lia).
  assert (live_count (pool w) -% 1 = live_count (pool w) - 1) as Hl1 by (apply wrap64_small; unfold WORD in *; lia).
  destruct (pool_collect_ok w1 pend) as (p1 & p2 & m' & hd & r & -> & Hrun & Hrest); try done.
  { by apply NoDup_app in Hnd as (? & _ & _). }
  { by eapply pend_fuel, I. }
  { lia. }
  { lia. }
  exists p1, p2, m', hd, r. rewrite Hr1 in Hrest. split; [done|]. split; [|exact Hrest].
  erewrite prog_bind_ok by exact Hrun. rewrite Hr1. unfold finished, w1, adj. simpl. by rewrite Hl1.
Qed.

Lemma pool_finish_inv T w e iqs p1 p2 ns m' hd r :
  inv T [e] w iqs (p1 ++ p2) ns → linked m' p1 r → linked m' p2 hd →
  (∀ n, n ∉ p1 ++ p2 → m' !! n = reqs w !! n) → (∀ n, payload m' n = payload (reqs w) n) →
  (p2 ≠ [] → cap_at (pool w) (resident_count (pool w) - 1 + Z.of_nat (length p1)) = true) →
  inv ([Dispatch r] ++ T) [] (finished e m' hd (last p2) (Z.of_nat (length p1)) w) iqs p2 (p1 ++ ns).
Proof.
  intros I Hl1 Hl2 Hfr Hpay Hfull. assert (e ∈ keys (fibers w)) as He by (rewrite <- (i_place _ _ _ _ _ _ I); by left).
  destruct (keys_delete _ _ He) as [Hk Hsz].
  assert (live_count (pool w) ≠ 0) as Hlive by (rewrite (th_live _ _ _ _ _ _ (i_thr _ _ _ _ _ _ I)); lia).
  pose proof (live_accepting _ _ _ _ _ _ I Hlive) as Hacc.
  destruct I as [Hn [Hp Htl Hc Hnd Hdom Hl Hr Hw Hf] Hfib Hnext Hinj Hpl Hwk Ht Hrq Hsl Hdst].
  split; try done.
  - change (creates ([Dispatch r] ++ T)) with (creates T). rewrite !length_app in *. split; try done.
    + exists p1, ns. split_and!; [done|done|]. eapply chains_frame; [|exact Hc]. intros n Hin. apply Hfr.
      intros Hin'. apply NoDup_app in Hnd as (_ & Hdis & _). by eapply Hdis.
    + rewrite app_assoc, (Permutation_app_comm p2). done.
    + intros n. rewrite (payload_dom _ _ _ (Hpay n)), Hdom, !elem_of_app. tauto.
    + change (creates ([Dispatch r] ++ T)) with (creates T). simpl. rewrite length_app. lia.
    + change (creates ([Dispatch r] ++ T)) with (creates T). simpl. rewrite length_app. lia.
    + simpl. lia.
  - intros x Hx. apply Hfib. rewrite <- Hk. by right.
  - simpl in *. rewrite <- Hk in Hpl. by apply Permutation_cons_inv in Hpl.
  - by constructor.
  - by apply (payload_home _ (reqs w)).
  - intros i k es Hk' He'. eapply sleep_mono; [..|by eapply Hsl]; intros j ?; by right.
  - by apply (dest_accepting (pool w)).
Qed.

(** ** The scheduling loop *)

Definition pcs (w : world Q) : list wpc := pc <$> workers (pool w).

(** A worker moves on without touching its queues. *)
Record moves (w : world Q) (h h' : list Z) (k k' : goc_worker Q) : Prop := {
  mv_deque : deque k' = deque k;
  mv_injector : injector k' = injector k;
  mv_held : h' ++ held (pc k') ≡ₚ h ++ held (pc k);
  mv_ok : worker_ok (thread_count (pool w)) k → worker_ok (thread_count (pool w)) k';
  mv_idle : pc k' = ReInj ∨ pc k' = Sleep → deque k = [];
  mv_sleep : pc k' = Sleep → inj_holds (injector k) [];
  mv_dest : (pc k = Exited → shutdown (pool w) = true) → dest_step (shutdown (pool w)) k k'
}.

Lemma move_ok T h h' w i k k' :
  Inv T h w → workers (pool w) !! i = Some k → moves w h h' k k' → Inv T h' (with_worker i k' w).
Proof.
  intros (iqs & pend & ns & I) Hk [Hdq Hij Hh Hok Hi Hs Hd].
  destruct (inv_lookup _ _ _ _ _ _ _ _ I Hk) as (es & He & Hinj & Hwk & Hsl).
  exists (<[i := es]> iqs), pend, ns. eapply inv_upd; [done..| | | | |].
  - by rewrite Hij.
  - assert (∀ a x y z : list Z, a ++ x ++ y ++ z ≡ₚ (x ++ y) ++ (a ++ z)) as E by (intros; solve_Permutation).
    unfold load. by rewrite Hdq, !E, Hh.
  - by apply Hok.
  - split; [by rewrite Hdq|]. intros Hpc Hes. destruct Hes. by eapply inj_holds_fun; [|apply Hs].
  - apply Hd. by eapply exited_shutdown.
Qed.

Lemma pcs_with w i k k' : workers (pool w) !! i = Some k → pcs (with_worker i k' w) = <[i := pc k']> (pcs w).
Proof. intros _. unfold pcs. simpl. by rewrite list_fmap_insert. Qed.

Lemma with_lookup w i (k k' : goc_worker Q) :
  workers (pool w) !! i = Some k → workers (pool (with_worker i k' w)) !! i = Some k'.
Proof. intros Hk. simpl. apply list_lookup_insert_eq. by eapply lookup_lt_Some. Qed.

Lemma with_with w i (k k' : goc_worker Q) : with_worker i k (with_worker i k' w) = with_worker i k w.
Proof. unfold with_worker, set_pool, set_workers. simpl. by rewrite list_insert_insert_eq. Qed.

(** Threads get new tasks that post nothing. *)
Lemma inv_add ts T h w :
  Inv T h w → Forall (λ t, plain t = true ∧ posted t = []) ts → Forall (task_ok (thread_count (pool w))) ts → Inv (ts ++ T) h w.
Proof.
  intros (iqs & pend & ns & I) Hts Hok. exists iqs, pend, ns. eapply (inv_swap [] ts); [exact I|done| | |done|].
  - eapply Forall_impl; [exact Hts|]. by intros t [? _].
  - simpl. rewrite app_nil_r. enough (ts ≫= posted = []) as -> by by rewrite app_nil_r.
    clear Hok. induction Hts as [|t ts [_ Hp] Hts IH]; [done|]. simpl. by rewrite Hp.
  - intros i k es _ _. apply sleep_mono; intros j Hj; apply elem_of_app; by right.
Qed.

(** After a step of worker [i]: [l] is where it is, [ts] what it has to do. *)
Definition settled (l : wpc) : Prop := l = ReInj ∨ l = Sleep ∨ l = Exited.
Definition stepped (T : list task) (w : world Q) (i : nat) (r : res (list task * world Q)) : Prop :=
  ∃ ts w' l, r = ok (ts, w') ∧ Inv (ts ++ T) [] w' ∧ todo w' = todo w ∧ destroyer w' = destroyer w ∧
    pcs w' = <[i := l]> (pcs w) ∧ (settled l → ts = []).

Lemma stepped_frame T w w1 i r : frame w w1 → stepped T w1 i r → stepped T w i r.
Proof.
  intros (H1 & H2 & H3) (ts & w' & l & -> & I & Ht & Hd & Hp & Hs). exists ts, w', l. fold (pcs w1) (pcs w) in H3.
  split_and!; try done; congruence.
Qed.

Lemma stepped_move T h w i k f :
  Inv T h w → destroyer w ≠ Freed → workers (pool w) !! i = Some k → moves w h [] k (f k) →
  stepped T w i ((upd_worker (Z.of_nat i) f;; mret []) w).
Proof.
  intros I Hd Hk Hm. exists [], (with_worker i (f k) w), (pc (f k)).
  split; [by erewrite prog_bind_ok by by apply upd_worker_ok|]. split; [by eapply move_ok|]. split_and!; try done.
  by eapply pcs_with.
Qed.

(** It holds no fiber, before and after. *)
Lemma plain_moves w (k k' : goc_worker Q) :
  deque k' = deque k → injector k' = injector k → held (pc k) = [] → held (pc k') = [] →
  (worker_ok (thread_count (pool w)) k → worker_ok (thread_count (pool w)) k') →
  (pc k' = ReInj ∨ pc k' = Sleep → deque k = []) → (pc k' = Sleep → inj_holds (injector k) []) →
  pc k ≠ Exited → (pc k' = Exited → shutdown (pool w) = true) →
  (searching (pc k') = true → shutdown (pool w) = false ∨ searching (pc k) = true ∧ wakeup_sent k = wakeup_sent k') →
  moves w [] [] k k'.
Proof.
  intros H1 H2 H3 H4 H5 H6 H7 H8 H9 H10. split; try done; [by rewrite H3, H4|].
  intros _. split_and!; [|done|done]. intros Hsd Hs. destruct (H10 Hs) as [?|?]; [congruence|by right].
Qed.

(** The obligations of [plain_moves] for a known position [Hpc] of the worker. *)
Ltac plain Hpc :=
  apply plain_moves; simpl; rewrite ?Hpc;
  [done | done | done | done | try (by intros (? & ? & ?)) | try done; try (by intros [?|?]) | try done | done
  | try done | try done; try (by intros _; right)].

Lemma top_ok T w i k p : Inv T [] w → destroyer w ≠ Freed → workers (pool w) !! i = Some k → pc k = Top → p = pool w →
  stepped T w i ((goto (Z.of_nat i) (if shutdown p then Exited else PopOwn);; mret []) w).
Proof.
  intros I Hd Hk Hpc ->. unfold goto. eapply stepped_move; [done..|].
  destruct (shutdown (pool w)) eqn:Hs; plain Hpc; by left.
Qed.

Lemma hand_nonzero e : e ≠ 0 → hand e = [e].
Proof. intros He. unfold hand. by rewrite (proj2 (Z.eqb_neq e 0) He). Qed.

(** The worker takes up the fiber it holds. *)
Lemma run_moves w i k e f :
  workers (pool w) !! i = Some k → (pc k = PopOwn ∨ pc k = PopInj ∨ pc k = Hint ∨ (∃ o j, pc k = Scan o j) ∨ pc k = RePop ∨ pc k = ReInj) →
  (deque (f k) = deque k ∧ injector (f k) = injector k ∧ pc (f k) = Run e ∧ seed (f k) = seed k ∧
   home_ok (thread_count (pool w)) (last_steal_victim (f k))) →
  moves w [e] [] k (f k).
Proof.
  intros Hk Hpc (H1 & H2 & H3 & H4 & H5).
  assert (held (pc k) = [] ∧ pc k ≠ Exited) as [Hh Hx].
  { destruct Hpc as [->|[->|[->|[(? & ? & ->)|[->| ->]]]]]; done. }
  split; rewrite ?H1, ?H2, ?H3, ?Hh; try done; try (by intros [?|?]).
  - intros (? & ? & ?). unfold worker_ok. rewrite H3, H4. done.
  - intros _. unfold dest_step. rewrite H3. done.
Qed.

Lemma pop_own_ok T w i k : Inv T [] w → destroyer w ≠ Freed → workers (pool w) !! i = Some k → pc k = PopOwn →
  stepped T w i ((e ← pop_bottom (Z.of_nat i);
                  (if negb (e =? 0) then run_entry (Z.of_nat i) e else goto (Z.of_nat i) PopInj);; mret []) w).
Proof.
  intros I Hd Hk Hpc. destruct (pop_bottom_ok T [] w i k I Hd Hk) as (e & w' & k' & Hr & I' & Hf & Hk' & Hpc' & Hsd & Hz).
  erewrite prog_bind_ok by exact Hr. eapply stepped_frame; [done|].
  assert (destroyer w' ≠ Freed) as Hd' by (destruct Hf as (_ & -> & _); done).
  rewrite Hpc in Hpc'. destruct (Z.eqb_spec e 0) as [->|Hne]; cbn [negb].
  - unfold goto. eapply stepped_move; [done..|]. plain Hpc'.
  - rewrite hand_nonzero in I' by done. unfold run_entry. eapply stepped_move; [done..|].
    apply (run_moves w' i k' e (λ k, set_pc (Run e) (set_streak 0 k))); [done|by left|]. split_and!; try done.
    destruct I' as (? & ? & ? & I'). by destruct (inv_lookup _ _ _ _ _ _ _ _ I' Hk') as (? & _ & _ & [? _] & _).
Qed.

Lemma pop_inj_ok T w i k l : Inv T [] w → destroyer w ≠ Freed → workers (pool w) !! i = Some k → pc k = PopInj →
  l = Hint ∧ 1 < thread_count (pool w) ∨ l = Look →
  stepped T w i ((e ← pop_injector (Z.of_nat i);
                  (if negb (e =? 0) then run_entry (Z.of_nat i) e else goto (Z.of_nat i) l);; mret []) w).
Proof.
  intros I Hd Hk Hpc Hl. destruct (pop_injector_ok T [] w i k I Hd Hk) as (e & w' & k' & Hr & I' & Hf & Hk' & Hpc' & Hdq & Hsd & Hz);
    [by rewrite Hpc|].
  erewrite prog_bind_ok by exact Hr. eapply stepped_frame; [done|].
  assert (destroyer w' ≠ Freed) as Hd' by (destruct Hf as (_ & -> & _); done).
  assert (thread_count (pool w') = thread_count (pool w)) as Hn.
  { destruct Hf as (_ & _ & Hp). unfold thread_count. by rewrite <- !(length_fmap pc), Hp. }
  rewrite Hpc in Hpc'. destruct (Z.eqb_spec e 0) as [->|Hne]; cbn [negb].
  - unfold goto. eapply stepped_move; [done..|]. destruct Hl as [[-> H1]| ->]; plain Hpc'.
    intros (? & ? & ?). split_and!; [done|done|]. simpl. by rewrite Hn.
  - rewrite hand_nonzero in I' by done. unfold run_entry. eapply stepped_move; [done..|].
    apply (run_moves w' i k' e (λ k, set_pc (Run e) (set_streak 0 k))); [done|by right; left|]. split_and!; try done.
    destruct I' as (? & ? & ? & I'). by destruct (inv_lookup _ _ _ _ _ _ _ _ I' Hk') as (? & _ & _ & [? _] & _).
Qed.

Definition stepped_u (T : list task) (w : world Q) (i : nat) (r : res (() * world Q)) : Prop :=
  ∃ w' l, r = ok (tt, w') ∧ Inv T [] w' ∧ todo w' = todo w ∧ destroyer w' = destroyer w ∧ pcs w' = <[i := l]> (pcs w).

Lemma stepped_ret T w i (m : prog (world Q) ()) : stepped_u T w i (m w) → stepped T w i ((m;; mret []) w).
Proof.
  intros (w' & l & Hr & I & Ht & Hd & Hp). exists [], w', l. split; [by erewrite prog_bind_ok by exact Hr|]. by split_and!.
Qed.

Lemma upd_upd (w : world Q) i f g k :
  destroyer w ≠ Freed → workers (pool w) !! i = Some k →
  (upd_worker (Z.of_nat i) f;; upd_worker (Z.of_nat i) g) w = ok (tt, with_worker i (g (f k)) w).
Proof.
  intros Hd Hk. erewrite prog_bind_ok by by apply upd_worker_ok.
  rewrite (upd_worker_ok (with_worker i (f k) w) i g (f k)); [by rewrite with_with|done|by eapply with_lookup].
Qed.

Lemma stepped_u_move T h w w0 i k k' r :
  frame w0 w → Inv T h w → workers (pool w) !! i = Some k → moves w h [] k k' → r = ok (tt, with_worker i k' w) →
  stepped_u T w0 i r.
Proof.
  intros (Ht & Hd & Hp) I Hk Hm ->. exists (with_worker i k' w), (pc k'). split_and!; [done|by eapply move_ok|done|done|].
  rewrite (pcs_with _ _ _ _ Hk). unfold pcs. by rewrite Hp.
Qed.

Lemma xorshift_nonneg s : 0 <= s → 0 <= xorshift s.
Proof.
  intros Hs. assert (∀ z, 0 <= u32 z) as Hu by (intros z; unfold u32; apply Z.mod_pos_bound; lia). unfold xorshift.
  set (x := Z.lxor s _). assert (0 <= x) as Hx by (apply Z.lxor_nonneg; split; intros _; [apply Hu|done]).
  set (y := Z.lxor x _). assert (0 <= y) as Hy by (apply Z.lxor_nonneg; split; intros _; [by apply Z.shiftr_nonneg|done]).
  apply Z.lxor_nonneg. split; intros _; [apply Hu|done].
Qed.

Definition scan_from (n : Z) (k : goc_worker Q) : goc_worker Q :=
  let s := xorshift (seed k) in set_pc (Scan (1 + s mod u32 (n - 1)) 0) (set_seed s k).

(** The scan starts at one of the other workers. *)
Lemma scan_moves w k f :
  1 < thread_count (pool w) < 4294967296 → pc k = Hint →
  (deque (f k) = deque k ∧ injector (f k) = injector k ∧ pc (f k) = pc k ∧ seed (f k) = seed k ∧
   last_steal_victim (f k) = last_steal_victim k ∧ wakeup_sent (f k) = wakeup_sent k) →
  moves w [] [] k (scan_from (thread_count (pool w)) (f k)).
Proof.
  intros Hn Hpc (H1 & H2 & H3 & H4 & H5 & H6). apply plain_moves; simpl; rewrite ?Hpc, ?H1, ?H2, ?H6; try done.
  - intros (Hv & Hs & _). unfold worker_ok, scan_from. simpl. rewrite H4, H5.
    pose proof (xorshift_nonneg _ Hs).
    assert (u32 (thread_count (pool w) - 1) = thread_count (pool w) - 1) as -> by (unfold u32; apply Z.mod_small; lia).
    pose proof (Z.mod_pos_bound (xorshift (seed k)) (thread_count (pool w) - 1)). split_and!; try done; lia.
  - by intros [?|?].
  - by right.
Qed.

Lemma start_scan_run (w : world Q) i f k :
  destroyer w ≠ Freed → workers (pool w) !! i = Some k →
  start_scan (Z.of_nat i) w = ok (tt, with_worker i (scan_from (thread_count (pool w)) k) w) ∧
  (upd_worker (Z.of_nat i) f;; start_scan (Z.of_nat i)) w = ok (tt, with_worker i (scan_from (thread_count (pool w)) (f k)) w).
Proof.
  intros Hd Hk. split.
  - unfold start_scan. erewrite prog_bind_ok by by apply get_pool_ok. by rewrite (upd_worker_ok w i _ k).
  - erewrite prog_bind_ok by by apply upd_worker_ok. unfold start_scan. erewrite prog_bind_ok by by apply get_pool_ok.
    rewrite (upd_worker_ok (with_worker i (f k) w) i _ (f k)); [|done|by eapply with_lookup]. rewrite with_with.
    unfold scan_from, thread_count. simpl. by rewrite length_insert.
Qed.

Lemma frame_threads (w w' : world Q) : frame w w' → thread_count (pool w') = thread_count (pool w).
Proof. intros (_ & _ & Hp). unfold thread_count. by rewrite <- !(length_fmap pc), Hp. Qed.

Lemma steal_hint_ok T w i k b : Inv T [] w → destroyer w ≠ Freed → workers (pool w) !! i = Some k → pc k = Hint →
  stepped_u T w i (steal_hint (Z.of_nat i) b w).
Proof.
  intros I Hd Hk Hpc. pose proof (inv_threads _ _ _ I) as Hn.
  assert (worker_ok (thread_count (pool w)) k) as (Hv & Hseed & Hn1).
  { destruct I as (? & ? & ? & I). by destruct (inv_lookup _ _ _ _ _ _ _ _ I Hk) as (? & _ & _ & ? & _). }
  rewrite Hpc in Hn1. unfold steal_hint. erewrite prog_bind_ok by by apply get_worker_ok.
  destruct (Z.eqb_spec (last_steal_victim k) SIZE_MAX) as [|Hv1]; cbn [negb andb].
  { eapply stepped_u_move; [apply pool_frame_refl|done|done| |apply start_scan_run; done]. apply (scan_moves w k id); [lia|done|done]. }
  destruct (Z.eqb_spec (last_steal_victim k) (Z.of_nat i)) as [|Hvi]; cbn [negb andb].
  { eapply stepped_u_move; [apply pool_frame_refl|done|done| |apply start_scan_run; done]. apply (scan_moves w k id); [lia|done|done]. }
  destruct Hv as [?|Hv]; [done|]. destruct (idx_worker _ _ Hv) as (v & kv & Hvv & Hkv). rewrite Hvv in *.
  assert (i ≠ v) as Hne by (by intros ->).
  destruct (steal_top_ok T [] w v kv b I Hd Hkv) as (e & w' & Hr & I' & Hf & Hsd & _ & Hoth).
  erewrite prog_bind_ok by exact Hr. assert (destroyer w' ≠ Freed) as Hd' by (destruct Hf as (_ & -> & _); done).
  assert (workers (pool w') !! i = Some k) as Hk' by by rewrite Hoth.
  pose proof (frame_threads _ _ Hf) as Hn'.
  destruct (Z.eqb_spec e 0) as [->|Hez]; cbn [negb].
  - eapply stepped_u_move; [exact Hf|done|done| |by apply (start_scan_run w' i (λ w, set_streak (u32 (miss_streak w + 1)) w))].
    apply (scan_moves w' k (λ k, set_streak _ k)); [lia|done|done].
  - rewrite hand_nonzero in I' by done. unfold run_entry.
    eapply stepped_u_move; [exact Hf|exact I'|done| |by apply upd_upd].
    apply (run_moves w' i k e (λ k, set_pc (Run e) (set_streak 0 (set_victim (Z.of_nat v) k)))); [done|by right; right; left|].
    split_and!; try done. simpl. rewrite Hn'. by right.
Qed.

Lemma steal_scan_ok T w i k o j b : Inv T [] w → destroyer w ≠ Freed → workers (pool w) !! i = Some k → pc k = Scan o j →
  stepped_u T w i (steal_scan (Z.of_nat i) o j b w).
Proof.
  intros I Hd Hk Hpc. pose proof (inv_threads _ _ _ I) as Hn.
  assert (worker_ok (thread_count (pool w)) k) as (Hv & Hseed & Hn1).
  { destruct I as (? & ? & ? & I). by destruct (inv_lookup _ _ _ _ _ _ _ _ I Hk) as (? & _ & _ & ? & _). }
  rewrite Hpc in Hn1. unfold steal_scan. erewrite prog_bind_ok by by apply get_pool_ok.
  destruct (Z.ltb_spec j (thread_count (pool w))) as [Hj|Hj].
  2: { unfold goto. eapply stepped_u_move; [apply pool_frame_refl|done|done| |by apply upd_upd]. plain Hpc.
       intros (? & ? & ?). split_and!; [by left|done|done]. }
  set (v := (Z.of_nat i + o + j) mod thread_count (pool w)).
  assert (∀ w' f, thread_count (pool w') = thread_count (pool w) →
    (deque (f k) = deque k ∧ injector (f k) = injector k ∧ pc (f k) = pc k ∧ seed (f k) = seed k ∧
     last_steal_victim (f k) = last_steal_victim k ∧ wakeup_sent (f k) = wakeup_sent k) →
    moves w' [] [] k (set_pc (Scan o (j + 1)) (f k))) as Hnext.
  { intros w' f Hn' (H1 & H2 & H3 & H4 & H5 & H6). apply plain_moves; simpl; rewrite ?Hpc, ?H1, ?H2, ?H6; try done.
    - intros (? & ? & ?). unfold worker_ok. simpl. rewrite H4, H5, Hn'. split_and!; try done; lia.
    - by intros [?|?].
    - by right. }
  destruct (Z.eqb_spec v (Z.of_nat i)) as [Hvi|Hvi].
  { unfold goto. eapply stepped_u_move; [apply pool_frame_refl|done|done| |by apply upd_worker_ok]. by apply (Hnext w id). }
  destruct (idx_worker (pool w) v) as (v' & kv & Hvv & Hkv). { subst v. apply Z.mod_pos_bound. lia. }
  rewrite Hvv in *. assert (i ≠ v') as Hne by (by intros ->).
  destruct (steal_top_ok T [] w v' kv b I Hd Hkv) as (e & w' & Hr & I' & Hf & Hsd & _ & Hoth).
  erewrite prog_bind_ok by exact Hr. assert (destroyer w' ≠ Freed) as Hd' by (destruct Hf as (_ & -> & _); done).
  assert (workers (pool w') !! i = Some k) as Hk' by by rewrite Hoth.
  pose proof (frame_threads _ _ Hf) as Hn'.
  destruct (Z.eqb_spec e 0) as [->|Hez]; cbn [negb].
  - unfold goto. eapply stepped_u_move; [exact Hf|done|done| |by apply upd_upd]. by apply (Hnext w' (λ k, set_streak _ k)).
  - rewrite hand_nonzero in I' by done. unfold run_entry.
    eapply stepped_u_move; [exact Hf|exact I'|done| |by apply upd_upd].
    apply (run_moves w' i k e (λ k, set_pc (Run e) (set_streak 0 (set_victim (Z.of_nat v') k)))); [done| |].
    + right; right; right; left. eauto.
    + split_and!; try done. simpl. rewrite Hn'. right. apply lookup_lt_Some in Hkv. unfold thread_count. lia.
Qed.

Lemma stepped_tasks T w i k f ts :
  Inv T [] w → destroyer w ≠ Freed → workers (pool w) !! i = Some k → moves w [] [] k (f k) → ¬ settled (pc (f k)) →
  ts = [] ∨ ts = [Wakeup ((Z.of_nat i + 1) mod thread_count (pool w))] →
  stepped T w i ((upd_worker (Z.of_nat i) f;; mret ts) w).
Proof.
  intros I Hd Hk Hm Hse Hts. exists ts, (with_worker i (f k) w), (pc (f k)).
  pose proof (inv_threads _ _ _ I) as Hn.
  split; [by erewrite prog_bind_ok by by apply upd_worker_ok|]. split; [|split_and!; try done; by eapply pcs_with].
  apply inv_add; [by eapply move_ok|destruct Hts as [->| ->]; by repeat constructor|].
  destruct Hts as [->| ->]; [done|]. constructor; [|done]. simpl.
  unfold thread_count. simpl. rewrite length_insert. apply Z.mod_pos_bound. unfold thread_count in *. lia.
Qed.

Lemma repop_ok T w i k : Inv T [] w → destroyer w ≠ Freed → workers (pool w) !! i = Some k → pc k = RePop →
  stepped T w i ((e ← pop_bottom (Z.of_nat i);
    (if negb (e =? 0) then upd_pool (λ p, set_idle (idle_count p -% 1) p);; goto (Z.of_nat i) (Run e)
     else goto (Z.of_nat i) ReInj);; mret []) w).
Proof.
  intros I Hd Hk Hpc. destruct (pop_bottom_ok T [] w i k I Hd Hk) as (e & w' & k' & Hr & I' & Hf & Hk' & Hpc' & Hsd & Hz).
  erewrite prog_bind_ok by exact Hr. eapply stepped_frame; [done|].
  assert (destroyer w' ≠ Freed) as Hd' by (destruct Hf as (_ & -> & _); done).
  rewrite Hpc in Hpc'. destruct (Z.eqb_spec e 0) as [->|Hne]; cbn [negb].
  - unfold goto. eapply stepped_move; [done..|]. plain Hpc'. intros _. by apply Hz.
  - rewrite hand_nonzero in I' by done. apply stepped_ret. erewrite prog_bind_ok by (by apply upd_pool_ok).
    set (w1 := set_pool _ w'). assert (Inv T ([e] ++ []) w1) as I1 by by apply set_idle_inv.
    unfold goto. eapply stepped_u_move; [|exact I1|done| |by apply upd_worker_ok]; [done|].
    apply (run_moves w1 i k' e (set_pc (Run e))); [done|by right; right; right; right; left|]. split_and!; try done.
    destruct I' as (? & ? & ? & I'). by destruct (inv_lookup _ _ _ _ _ _ _ _ I' Hk') as (? & _ & _ & [? _] & _).
Qed.

Lemma reinj_ok T w i k : Inv T [] w → destroyer w ≠ Freed → workers (pool w) !! i = Some k → pc k = ReInj →
  stepped T w i ((e ← pop_injector (Z.of_nat i);
    (if negb (e =? 0) then upd_pool (λ p, set_idle (idle_count p -% 1) p);; goto (Z.of_nat i) (Run e)
     else goto (Z.of_nat i) Sleep);; mret []) w).
Proof.
  intros I Hd Hk Hpc. assert (deque k = []) as Hdk.
  { destruct I as (? & ? & ? & I). destruct (inv_lookup _ _ _ _ _ _ _ _ I Hk) as (? & _ & _ & _ & [Hs _]). apply Hs. by left. }
  destruct (pop_injector_ok T [] w i k I Hd Hk) as (e & w' & k' & Hr & I' & Hf & Hk' & Hpc' & Hdq & Hsd & Hz); [by rewrite Hpc|].
  erewrite prog_bind_ok by exact Hr. eapply stepped_frame; [done|].
  assert (destroyer w' ≠ Freed) as Hd' by (destruct Hf as (_ & -> & _); done).
  rewrite Hpc in Hpc'. destruct (Z.eqb_spec e 0) as [->|Hne]; cbn [negb].
  - unfold goto. eapply stepped_move; [done..|]. plain Hpc'; [by rewrite Hdq|]. intros _. by apply Hz.
  - rewrite hand_nonzero in I' by done. apply stepped_ret. erewrite prog_bind_ok by (by apply upd_pool_ok).
    set (w1 := set_pool _ w'). assert (Inv T ([e] ++ []) w1) as I1 by by apply set_idle_inv.
    unfold goto. eapply stepped_u_move; [|exact I1|done| |by apply upd_worker_ok]; [done|].
    apply (run_moves w1 i k' e (set_pc (Run e))); [done|by right; right; right; right; right|]. split_and!; try done.
    destruct I' as (? & ? & ? & I'). by destruct (inv_lookup _ _ _ _ _ _ _ _ I' Hk') as (? & _ & _ & [? _] & _).
Qed.

(** A fiber that stays in the hands of its worker. *)
Lemma held_moves w (k k' : goc_worker Q) e :
  deque k' = deque k → injector k' = injector k → held (pc k) = [e] → held (pc k') = [e] →
  last_steal_victim k' = last_steal_victim k → seed k' = seed k → moves w [] [] k k'.
Proof.
  intros H1 H2 H3 H4 H5 H6.
  assert (∀ l, held l = [e] → (l ≠ ReInj ∧ l ≠ Sleep) ∧ l ≠ Exited ∧ searching l = false ∧
    match l with Hint => 1 < thread_count (pool w) | Scan offset j => 1 < thread_count (pool w) ∧ 1 <= offset < thread_count (pool w) ∧ 0 <= j <= thread_count (pool w) | _ => True end) as Hl
    by by intros [].
  destruct (Hl _ H3) as ((? & ?) & ? & ? & ?), (Hl _ H4) as ((? & ?) & ? & Hse & ?). split; try done; [by rewrite H3, H4|..].
  - intros (? & ? & ?). split_and!; [by rewrite H5|by rewrite H6|done].
  - by intros [?|?].
  - intros _. split_and!; [by rewrite Hse|done|done].
Qed.

(** The worker lets go of its fiber. *)
Lemma release_moves w (k : goc_worker Q) e : held (pc k) = [e] → moves w [] [e] k (set_pc Top k).
Proof.
  intros Hh. split; simpl; try done; [by rewrite Hh|by intros (? & ? & ?)|by intros [?|?]|].
  intros _. split_and!; simpl; try done. intros Hx. by rewrite Hx in Hh.
Qed.

Lemma finish_ok T w i k e : Inv T [] w → destroyer w ≠ Freed → workers (pool w) !! i = Some k → pc k = Polled e true →
  stepped T w i ((goto (Z.of_nat i) Top;; finish_fiber e) w).
Proof.
  intros I Hd Hk Hpc. unfold goto. erewrite prog_bind_ok by by apply upd_worker_ok.
  assert (Inv T [e] (with_worker i (set_pc Top k) w)) as (iqs & pend & ns & I1).
  { eapply move_ok; [done..|]. apply release_moves. by rewrite Hpc. }
  destruct (finish_run _ _ _ _ _ _ I1 Hd) as (p1 & p2 & m' & hd & r & -> & Hrun & Hl1 & Hl2 & Hfr & Hpay & Hfull & _).
  eexists _, _, Top. split; [exact Hrun|]. split; [|split_and!; try done].
  - exists iqs, p2, (p1 ++ ns). by eapply pool_finish_inv.
  - unfold pcs. simpl. by rewrite list_fmap_insert.
  - by intros [?|[?|?]].
Qed.

Lemma park_ok T w i k e : Inv T [] w → destroyer w ≠ Freed → workers (pool w) !! i = Some k → pc k = Gate e →
  stepped T w i ((goto (Z.of_nat i) Top;; park_fiber e;; mret []) w).
Proof.
  intros I Hd Hk Hpc. unfold goto. erewrite prog_bind_ok by by apply upd_worker_ok. erewrite prog_bind_ok by reflexivity.
  assert (Inv T [e] (with_worker i (set_pc Top k) w)) as (iqs & pend & ns & I1).
  { eapply move_ok; [done..|]. apply release_moves. by rewrite Hpc. }
  eexists [], _, Top. split; [done|]. split; [|split_and!; try done].
  - exists iqs, pend, ns. destruct I1 as [? ? ? ? ? Hpl ? ? ? ? ?]. split; try done.
    rewrite <- Hpl. unfold placed. simpl. solve_Permutation.
  - unfold pcs. simpl. by rewrite list_fmap_insert.
Qed.

Lemma worker_step_ok T w i k b :
  Inv T [] w → destroyer w ≠ Freed → workers (pool w) !! i = Some k → pc k ≠ Exited →
  stepped T w i (worker_step (Z.of_nat i) b w).
Proof.
  intros I Hd Hk Hx. unfold worker_step, search_step, idle_step, resumed_step. erewrite prog_bind_ok by by apply get_worker_ok.
  erewrite prog_bind_ok by by apply get_pool_ok. destruct (pc k) as [| | | |o j| | | | | | |e|e []|e []|e|] eqn:Hpc; try done.
  - by eapply top_ok.
  - by eapply pop_own_ok.
  - eapply pop_inj_ok; [done..|]. destruct (Z.ltb_spec 1 (thread_count (pool w))), (miss_streak k <? STEAL_BACKOFF_THRESHOLD); auto.
  - apply stepped_ret. by eapply steal_hint_ok.
  - apply stepped_ret. by eapply steal_scan_ok.
  - unfold goto. eapply stepped_tasks; [done..| | |destruct (_ && _); auto].
    + plain Hpc.
    + by intros [?|[?|?]].
  - erewrite prog_bind_ok by by apply upd_pool_ok. set (w1 := set_pool _ w).
    eapply (stepped_frame _ w w1); [done|]. eapply stepped_move; [by apply set_idle_inv|done|done|]. plain Hpc.
  - by eapply repop_ok.
  - by eapply reinj_ok.
  - eapply stepped_move; [done..|]. plain Hpc.
  - erewrite prog_bind_ok by by apply upd_pool_ok. set (w1 := set_pool _ w).
    eapply (stepped_frame _ w w1); [done|]. eapply stepped_move; [by apply set_idle_inv|done|done|]. plain Hpc.
  - exists [], w, (Run e). split_and!; try done. symmetry. apply list_insert_id. unfold pcs. by rewrite list_lookup_fmap, Hk, <- Hpc.
  - eapply stepped_move; [done..|]. apply (held_moves _ _ _ e); simpl; rewrite ?Hpc; try done; by destruct b.
  - eapply stepped_move; [done..|]. apply (held_moves _ _ _ e); simpl; rewrite ?Hpc; try done; by destruct b.
  - by eapply finish_ok.
  - unfold goto. eapply stepped_tasks; [done..| | |destruct (_ && _); auto].
    + apply (held_moves _ _ _ e); simpl; by rewrite ?Hpc.
    + by intros [?|[?|?]].
  - by eapply park_ok.
Qed.

End Inv.

End PoolInv.
