(* ===== verification/PoolProps.v ===== *)
(** Properties of the fiber pool: no interleaving loses a fiber, a wakeup or an access to
    live memory; the throttle admits spawns in order as soon as the cap allows; a worker
    that scans finds work where there is some; the destruction of a pool comes to its end. *)

From S2P Require Import Prelude Wsdq WsdqProps Pool PoolInv.
Import Pool PoolInv.

Module PoolProps.

(** ** The injector of wsdq.c is what the pool asks for *)

Lemma linked_fun m : ∀ ns ns' es es',
  list.head ns = list.head ns' → WsdqProps.linked m ns es → WsdqProps.linked m ns' es' → es = es'.
Proof.
  induction ns as [|n ns IH]; intros [|n' ns'] [|e es] [|e' es'] Hh; simplify_eq/=; try done.
  intros [H1 H2] [H3 H4]. rewrite H1 in H3. injection H3 as -> Hh. f_equal. by eapply IH.
Qed.

Lemma holds_fun i es es' : WsdqProps.holds i es → WsdqProps.holds i es' → es = es'.
Proof.
  intros (ns & _ & Hl & Hh & _) (ns' & _ & Hl' & Hh' & _). eapply linked_fun; [|exact Hl|exact Hl']. congruence.
Qed.

#[export] Instance wsdq_injector : Injector Wsdq.goc_injector := {|
  inj_init := Wsdq.injector_init; inj_push := Wsdq.injector_push; inj_pop := Wsdq.injector_pop;
  inj_holds := WsdqProps.holds; inj_holds_fun := holds_fun; inj_init_ok := WsdqProps.holds_init;
  inj_push_ok := WsdqProps.injector_push_ok; inj_pop_ok := WsdqProps.injector_pop_ok |}.

Section Props.
Context {Q : Type} `{Injector Q}.

(** ** Reachable states *)

Record state_ok (w : world Q) : Prop := {
  so_inv : Inv (concat (todo w)) [] w;
  so_len : (length (workers (pool w)) <= length (todo w))%nat;
  so_settled : ∀ i l, pcs w !! i = Some l → settled l → todo w !! i = Some [];
  so_freed : destroyer w = Freed → Forall (λ ts, ts = []) (todo w)
}.

(** What callers keep to: they spawn until the pool is drained, on workers it has, fewer
    than 2^64 fibers; they wake fibers that are parked, once. *)
Definition may_request (w : world Q) (r : request) : Prop :=
  match r with
  | Spawn _ _ _ => accepting (destroyer w) ∧ live_count (pool w) < SIZE_MAX
  | SpawnOn i _ _ _ => accepting (destroyer w) ∧ live_count (pool w) < SIZE_MAX ∧ 0 <= i < thread_count (pool w)
  | Wake e home => e ∈ parked w ∧ 0 <= home
  end.

(** And no thread is inside a call on the pool when its memory is freed. *)
Definition can_act (w : world Q) (a : action) : Prop :=
  match a with
  | External r | Request _ r => may_request w r
  | DestroyGo _ => ∀ j, destroyer w = Join j → (length (workers (pool w)) <= j)%nat → Forall (λ ts, ts = []) (todo w)
  | _ => True
  end.

Inductive reach (seeds : list Z) (cap : Z) : world Q → Prop :=
| reach_make : 0 < Z.of_nat (length seeds) < 4294967296 → Forall (λ s, 0 <= s) seeds → reach seeds cap (goc_pool_make seeds cap)
| reach_act w w' a : reach seeds cap w → can_act w a → act a w = ok (tt, w') → reach seeds cap w'.

Lemma pool_make_ok seeds cap :
  0 < Z.of_nat (length seeds) < 4294967296 → Forall (λ s, 0 <= s) seeds → state_ok (goc_pool_make seeds cap).
Proof.
  intros Hn Hs.
  assert (thread_count (pool (goc_pool_make seeds cap)) = Z.of_nat (length seeds)) as Hc
    by (unfold thread_count; simpl; by rewrite length_fmap).
  assert (concat ((λ _ : Z, []) <$> seeds) = ([] : list task)) as Ht by (clear; by induction seeds).
  split.
  - exists ((λ _, []) <$> seeds), [], []. unfold goc_pool_make at 1. simpl. rewrite Ht. split; rewrite ?Hc; try done.
    + split; try done; [apply NoDup_nil_2|]. intros n. simpl. rewrite dom_empty, elem_of_empty, elem_of_nil. done.
    + intros e. unfold keys. simpl. rewrite map_to_list_empty. by intros ?%elem_of_nil.
    + simpl. rewrite Forall2_fmap. apply Forall_Forall2_diag, Forall_forall.
      intros s _. simpl. apply inj_init_ok.
    + simpl. unfold keys. rewrite map_to_list_empty. unfold placed. simpl. rewrite app_nil_r.
      assert (concat (zip_with load ((λ s, mk_worker [] inj_init false SIZE_MAX 0 s Top) <$> seeds) ((λ _, []) <$> seeds)) = []) as ->; [|done].
      clear. by induction seeds.
    + simpl. apply Forall_fmap. eapply Forall_impl; [exact Hs|]. intros s Hs'. split_and!; [by left|done|done].
    + intros i k es (s & -> & _)%list_lookup_fmap_Some _. split; simpl; [by intros [?|?]|done].
    + split; [done|]. intros i k (s & -> & _)%list_lookup_fmap_Some. done.
  - simpl. by rewrite !length_fmap.
  - intros i l. unfold pcs. simpl. rewrite <- list_fmap_compose. intros (s & -> & _)%list_lookup_fmap_Some. by intros [?|[?|?]].
  - done.
Qed.

(** ** Every action keeps the invariant *)

Lemma alive_accepting T h w e : Inv T h w → e ∈ keys (fibers w) → accepting (destroyer w).
Proof.
  intros (iqs & pend & ns & I) He. eapply live_accepting; [exact I|].
  rewrite (th_live _ _ _ _ _ _ (i_thr _ _ _ _ _ _ I)). destruct (keys_delete _ _ He) as [_ <-]. lia.
Qed.

Lemma parked_key T h w e : Inv T h w → e ∈ parked w → e ∈ keys (fibers w).
Proof.
  intros (iqs & pend & ns & I) He. rewrite <- (i_place _ _ _ _ _ _ I). unfold placed. rewrite !elem_of_app. auto.
Qed.

Lemma filter_out (l : list Z) e : NoDup l → e ∈ l → l ≡ₚ e :: filter (λ x, x ≠ e) l.
Proof.
  induction 1 as [|x l Hx Hnd IH]; [by intros ?%elem_of_nil|]. rewrite filter_cons. intros [->|He]%elem_of_cons.
  - rewrite decide_False by tauto.  f_equiv.
    clear -Hx. induction l as [|y l IH]; [done|]. rewrite not_elem_of_cons in Hx. rewrite filter_cons_True by naive_solver. f_equiv. apply IH. tauto.
  - rewrite decide_True by (intros ->; done). rewrite (IH He) at 1. constructor.
Qed.

Lemma pool_wake_ok T w e home :
  Inv T [] w → e ∈ parked w → 0 <= home →
  ∃ ts w', request_step None (Wake e home) w = ok (ts, w') ∧ Inv (ts ++ T) [] w' ∧ frame w w'.
Proof.
  intros I He Hh. pose proof (alive_accepting _ _ _ _ I (parked_key _ _ _ _ I He)) as Hacc.
  simpl. erewrite prog_bind_ok by reflexivity. unfold post_home.
  erewrite prog_bind_ok by (apply get_pool_ok; by apply accepting_alive).
  pose (ts := if negb (home =? SIZE_MAX) && (home <? thread_count (pool w)) then [PostTo home e] else [Post e]).
  exists ts, (set_parked (filter (λ x, x ≠ e) (parked w)) w). split; [done|]. split; [|done].
  destruct I as (iqs & pend & ns & I). exists iqs, pend, ns.
  assert (ts = [Post e] ∨ ts = [PostTo home e] ∧ 0 <= home < thread_count (pool w)) as Hts.
  { subst ts. simpl. destruct (Z.eqb_spec home SIZE_MAX), (Z.ltb_spec home (thread_count (pool w))); simpl; auto. }
  clearbody ts. assert (parked w ≡ₚ e :: filter (λ x, x ≠ e) (parked w)) as Hpk.
  { apply filter_out; [|done]. assert (NoDup ([] ++ placed (workers (pool w)) iqs T (parked w))) as Hnd.
    { rewrite (i_place _ _ _ _ _ _ I). apply NoDup_fst_map_to_list. }
    simpl in Hnd. unfold placed in Hnd. by apply NoDup_app in Hnd as (_ & _ & (_ & _ & ?)%NoDup_app). }
  destruct I as [? Hthr ? ? ? Hpl ? Ht ? Hsl ?].
  assert (Forall (λ t, plain t = true) ts) as Hpl' by (destruct Hts as [->|[-> _]]; by repeat constructor).
  split; try done.
  - destruct Hthr as [? ? Hc ? ? Hl Hr ? ?]. split; rewrite ?creates_plain by done; try done. by apply chains_plain.
  - rewrite <- Hpl. unfold placed. simpl. rewrite bind_app.
    assert (ts ≫= posted = [e]) as -> by (destruct Hts as [->|[-> _]]; done). 
    remember (filter (λ x, x ≠ e) (parked w)) as pk eqn:Epk. clear Epk. rewrite Hpk. solve_Permutation.
  - apply Forall_app. split; [|done]. by destruct Hts as [->|[-> ?]]; apply Forall_singleton.
  - intros i k es Hk He'. eapply sleep_mono; [..|by eapply Hsl]; intros j Hj; apply elem_of_app; by right.
Qed.

Lemma pool_request_ok T w self r :
  Inv T [] w → may_request w r →
  ∃ ts w', request_step self r w = ok (ts, w') ∧ Inv (ts ++ T) [] w' ∧ frame w w'.
Proof.
  assert (∀ fn arg join home, Inv T [] w → accepting (destroyer w) → live_count (pool w) < SIZE_MAX →
    match home with Some i => 0 <= i < thread_count (pool w) | None => True end →
    ∃ ts w', submit_locked self fn arg join home w = ok (ts, w') ∧ Inv (ts ++ T) [] w' ∧ frame w w') as Hsub.
  { intros fn arg join home (iqs & pend & ns & I) Hacc Hl Hh.
    destruct (submit_ok _ _ self fn arg join home _ _ _ I Hacc Hl) as [Hr Hcap].
    destruct (fast_path (pool w) self); eexists _, _; (split; [exact Hr|]); (split; [|done]).
    - exists iqs, pend, ns. by apply fast_inv.
    - eexists iqs, _, ns. apply queue_inv; try done; [apply is_fresh|by apply Hcap|].
      simpl. unfold home_ok. destruct home; [by right|by left]. }
  intros I Hm. destruct r as [fn arg join|i fn arg join|e home]; simpl in Hm.
  - destruct Hm. by apply Hsub.
  - destruct Hm as (? & ? & ?). by apply Hsub.
  - destruct Hm. by apply pool_wake_ok.
Qed.

Lemma may_request_alive T w r : Inv T [] w → may_request w r → destroyer w ≠ Freed.
Proof.
  intros I Hm. apply accepting_alive. destruct r; simpl in Hm; destruct_and?; try done.
  by eapply alive_accepting, parked_key.
Qed.

(** Thread [k] replaces its tasks. *)
Lemma todo_replace (w : world Q) k t0 :
  todo w !! k = Some t0 → ∃ rest, concat (todo w) ≡ₚ t0 ++ rest ∧ ∀ t1, concat (<[k := t1]> (todo w)) ≡ₚ t1 ++ rest.
Proof. apply concat_insert. Qed.

Lemma inv_set_todo T h (w : world Q) l : Inv T h w → Inv T h (set_todo l w).
Proof. intros (iqs & pend & ns & []). exists iqs, pend, ns. by split. Qed.

Lemma inv_phase T h (w : world Q) d : Inv T h w → dest_ok (pool w) d → Inv T h (set_destroyer d w).
Proof. intros (iqs & pend & ns & []) Hd. exists iqs, pend, ns. by split. Qed.

Lemma thread_done w w' k l t0 t1 :
  state_ok w → todo w !! k = Some t0 → destroyer w ≠ Freed → todo w' = todo w → destroyer w' = destroyer w →
  pcs w' = <[k := l]> (pcs w) → ((k < length (pcs w))%nat → settled l → t1 = []) →
  (∀ rest, concat (todo w) ≡ₚ t0 ++ rest → Inv (t1 ++ rest) [] w') →
  state_ok (set_todo (<[k := t1]> (todo w')) w').
Proof.
  intros [I Hlen Hse Hfr] Hk Hd Ht Hdd Hp Hs HI. destruct (todo_replace w k t0 Hk) as (rest & H0 & H1).
  split; simpl.
  - rewrite Ht. apply inv_set_todo. eapply inv_perm; [symmetry; apply H1|done|]. by apply HI.
  - rewrite Ht, length_insert. enough (length (workers (pool w')) = length (workers (pool w))) as -> by done.
    rewrite <- !(length_fmap pc). fold (pcs w') (pcs w). by rewrite Hp, length_insert.
  - rewrite Ht. intros i l' Hi Hl'. change (pcs w' !! i = Some l') in Hi. rewrite Hp in Hi. destruct (decide (i = k)) as [->|Hne].
    + assert (k < length (pcs w))%nat as Hkl by (apply lookup_lt_Some in Hi; by rewrite length_insert in Hi).
      rewrite list_lookup_insert_eq in Hi by done. injection Hi as ->.
      rewrite list_lookup_insert_eq by by eapply lookup_lt_Some. f_equal. by apply Hs.
    + rewrite list_lookup_insert_ne in Hi by done. rewrite list_lookup_insert_ne by done. by eapply Hse.
  - by rewrite Hdd.
Qed.

(** The same for a step that moves no worker. *)
Lemma thread_done_frame w w' k t0 t1 :
  state_ok w → todo w !! k = Some t0 → destroyer w ≠ Freed → frame w w' →
  (∀ l, pcs w !! k = Some l → ¬ settled l) →
  (∀ rest, concat (todo w) ≡ₚ t0 ++ rest → Inv (t1 ++ rest) [] w') →
  state_ok (set_todo (<[k := t1]> (todo w')) w').
Proof.
  intros Hok Hk Hd (Ht & Hdd & Hp) Hs HI. destruct (pcs w !! k) as [l|] eqn:El.
  - eapply (thread_done w w' k l); try done; [|by intros _ ?%(Hs l)].
    rewrite list_insert_id by done. exact Hp.
  - eapply (thread_done w w' k Top); try done.
    + rewrite list_insert_ge by by apply lookup_ge_None. exact Hp.
    + intros Hlt. apply lookup_ge_None in El. lia.
Qed.

Lemma worker_pc_pcs (w : world Q) i l : worker_pc w i = Some l → pcs w !! i = Some l ∧ ∃ k, workers (pool w) !! i = Some k ∧ pc k = l.
Proof.
  unfold worker_pc, pcs. rewrite list_lookup_fmap. intros Hl. split; [done|].
  destruct (workers (pool w) !! i) as [k|]; simplify_eq/=. eauto.
Qed.

Lemma put_todo_bind {A} (m : prog (world Q) A) f k w a w' :
  m w = ok (a, w') → (a ← m; put_todo k (f a)) w = ok (tt, set_todo (<[k := f a]> (todo w')) w').
Proof. intros Hm. by erewrite prog_bind_ok by exact Hm. Qed.

Lemma external_ok w r : state_ok w → may_request w r → ∃ w', act (External r) w = ok (tt, w') ∧ state_ok w'.
Proof.
  intros [I Hlen Hse Hfr] Hm. pose proof (may_request_alive _ _ _ I Hm) as Hd.
  destruct (pool_request_ok _ _ None r I Hm) as (ts & w' & Hr & I' & (Ht & Hdd & Hp)).
  eexists. split; [simpl; by erewrite prog_bind_ok by exact Hr|]. split; simpl; rewrite ?Ht.
  - apply inv_set_todo. rewrite concat_app. simpl. rewrite app_nil_r. eapply inv_perm; [|done|exact I']. solve_Permutation.
  - rewrite length_app. enough (length (workers (pool w')) = length (workers (pool w))) as -> by lia.
    by rewrite <- !(length_fmap pc), Hp.
  - intros i l Hi Hl. apply lookup_app_l_Some. eapply (Hse i l); [|done]. unfold pcs. by rewrite <- Hp.
  - by rewrite Hdd.
Qed.

Lemma request_act_ok w i r : state_ok w → may_request w r → ∃ w', act (Request i r) w = ok (tt, w') ∧ state_ok w'.
Proof.
  intros Hok Hm. simpl. destruct (worker_pc w i) as [l|] eqn:Hl; [|by eauto].
  destruct (runs_user_code l) eqn:Hu; [|by eauto]. unfold idle_thread. case_bool_decide as Hid; [|by eauto]. cbn [andb].
  pose proof (so_inv _ Hok) as I. pose proof (may_request_alive _ _ _ I Hm) as Hd.
  destruct (pool_request_ok _ _ (Some (Z.of_nat i)) r I Hm) as (ts & w' & Hr & I' & Hf).
  eexists. split; [by apply (put_todo_bind _ id)|]. eapply thread_done_frame; [done..| |].
  - apply worker_pc_pcs in Hl as [Hl _]. intros l' Hl'. rewrite Hl in Hl'. injection Hl' as <-. by intros [->|[->| ->]].
  - intros rest Hrest. eapply inv_perm; [|done|exact I']. by rewrite Hrest.
Qed.

Lemma id_todo (w : world Q) k t : todo w !! k = Some t → set_todo (<[k := t]> (todo w)) w = w.
Proof. intros Hk. rewrite list_insert_id by done. by destruct w. Qed.

(** A fiber's code ends or yields. *)
Lemma leave_ok w i e dead : state_ok w → worker_pc w i = Some (Run e) →
  ∃ w', goto (Z.of_nat i) (AfterRun e dead) w = ok (tt, w') ∧ state_ok w'.
Proof.
  intros Hok Hl. apply worker_pc_pcs in Hl as (Hp & k & Hk & Hpc). pose proof (so_inv _ Hok) as I.
  assert (destroyer w ≠ Freed) as Hd.
  { intros Hd. destruct I as (? & ? & ? & I). destruct (i_dest _ _ _ _ _ _ I) as [Hdo _]. rewrite Hd in Hdo.
    destruct Hdo as (_ & _ & _ & Hex). rewrite (Hex i k) in Hpc; [done|by eapply lookup_lt_Some|done]. }
  eexists. split; [by apply upd_worker_ok|].
  assert (∃ t, todo w !! i = Some t) as [t Ht].
  { apply lookup_lt_is_Some_2. apply lookup_lt_Some in Hk. pose proof (so_len _ Hok). lia. }
  rewrite <- (id_todo (with_worker _ _ _) i t) by done.
  eapply (thread_done w _ i (AfterRun e dead) t t); try done.
  - by apply (pcs_with w i k).
  - by intros _ [?|[?|?]].
  - intros rest Hr. eapply move_ok; [|exact Hk|apply (held_moves _ _ _ e); by rewrite ?Hpc].
    eapply inv_perm; [exact Hr|done|done].
Qed.

Lemma go_ok w k : state_ok w → ∃ w', act (Go k) w = ok (tt, w') ∧ state_ok w'.
Proof.
  intros Hok. simpl. destruct (todo w !! k) as [[|t ts]|] eqn:Hk; [by eauto| |by eauto].
  assert (destroyer w ≠ Freed) as Hd.
  { intros Hd. pose proof (so_freed _ Hok Hd) as Hf. by eapply Forall_lookup_1 in Hf; [|exact Hk]. }
  assert (∀ l, pcs w !! k = Some l → ¬ settled l) as Hse.
  { intros l Hl Hs. by rewrite (so_settled _ Hok k l Hl Hs) in Hk. }
  destruct (todo_replace w k _ Hk) as (rest & Hr & _).
  destruct (task_step_ok (ts ++ rest) w (self_of w k) t) as (ts' & w' & Hrun & I' & Hf); [|done| |].
  - eapply inv_perm; [exact Hr|done|apply Hok].
  - intros i. unfold self_of. destruct (Nat.ltb_spec k (length (workers (pool w)))) as [Hlt|]; [|done]. intros [= <-].
    destruct (lookup_lt_is_Some_2 _ _ Hlt) as [x Hx]. exists k, x. split_and!; [done|done|].
    specialize (Hse (pc x)). unfold pcs in Hse. rewrite list_lookup_fmap, Hx in Hse. specialize (Hse eq_refl).
    split; intros E; apply Hse; [by left|by right; left].
  - eexists. split; [by apply (put_todo_bind _ (λ ts', ts' ++ ts))|]. eapply thread_done_frame; [done..|].
    intros rest' Hr'. rewrite Hr in Hr'. simpl in Hr'. apply Permutation_cons_inv, Permutation_app_inv_l in Hr'.
    eapply inv_perm; [|done|exact I']. rewrite <- Hr'. by rewrite app_assoc.
Qed.

Lemma work_ok w i b : state_ok w → ∃ w', act (Work i b) w = ok (tt, w') ∧ state_ok w'.
Proof.
  intros Hok. simpl. destruct (worker_pc w i) as [l|] eqn:Hl; [|by eauto].
  destruct (decide (l = Exited)) as [->|Hx]; [by eauto|]. apply worker_pc_pcs in Hl as (Hp & k & Hk & Hpc).
  assert (∃ w', (if idle_thread w i then (ts ← worker_step (Z.of_nat i) b; put_todo i ts) w else ok (tt, w)) = ok (tt, w') ∧ state_ok w')
    as Hgoal; [|destruct l; done]. unfold idle_thread. case_bool_decide as Hid; [|by eauto].
  assert (destroyer w ≠ Freed) as Hd.
  { intros Hd. destruct (so_inv _ Hok) as (? & ? & ? & I). destruct (i_dest _ _ _ _ _ _ I) as [Hdo _]. rewrite Hd in Hdo.
    destruct Hdo as (_ & _ & _ & Hex). rewrite (Hex i k) in Hpc; [done|by eapply lookup_lt_Some|done]. }
  destruct (worker_step_ok _ w i k b (so_inv _ Hok) Hd Hk) as (ts & w' & l' & Hr & I' & Ht & Hdd & Hpp & Hss); [congruence|].
  eexists. split; [by apply (put_todo_bind _ id)|]. eapply thread_done; [done..| |].
  - by intros _ ?%Hss.
  - intros rest Hrest. eapply inv_perm; [|done|exact I']. by rewrite Hrest.
Qed.

Lemma phase_ok w d : state_ok w → dest_ok (pool w) d → (d = Freed → Forall (λ ts, ts = []) (todo w)) →
  state_ok (set_destroyer d w).
Proof. intros [I Hlen Hse Hfr] Hd Hf. split; try done. by apply inv_phase. Qed.

Lemma signal_ok w : state_ok w → destroyer w = Signal → ∃ w', destroy_step false w = ok (tt, w') ∧ destroy_step true w = ok (tt, w') ∧ state_ok w'.
Proof.
  intros Hok Hd. unfold destroy_step. rewrite Hd. assert (destroyer w ≠ Freed) as Hdf by by rewrite Hd.
  rewrite (prog_bind_ok _ _ _ _ _ (upd_pool_ok _ w Hdf)).
  eexists. split; [done|]. split; [done|]. destruct Hok as [(iqs & pend & ns & I) Hlen Hse Hfr].
  pose proof (i_dest _ _ _ _ _ _ I) as [Hdo Hex]. rewrite Hd in Hdo. destruct Hdo as [_ Hl0].
  split; try done. exists iqs, pend, ns. destruct I as [? [] ? ? ? ? ? ? ? ? ?]. split; try done.
  split; [|done]. split_and!; try done. intros i k Hi. lia.
Qed.

Lemma wake_all_ok w j b : state_ok w → destroyer w = WakeAll j → ∃ w', destroy_step b w = ok (tt, w') ∧ state_ok w'.
Proof.
  intros Hok Hd. unfold destroy_step. rewrite Hd. assert (destroyer w ≠ Freed) as Hdf by by rewrite Hd.
  destruct (so_inv _ Hok) as (iqs & pend & ns & I). pose proof (i_dest _ _ _ _ _ _ I) as [Hdo Hex]. rewrite Hd in Hdo.
  destruct Hdo as (Hsd & Hl0 & Hsig). destruct (Nat.ltb_spec j (length (workers (pool w)))) as [Hj|Hj].
  - destruct (lookup_lt_is_Some_2 _ _ Hj) as [k Hk].
    destruct (send_ok _ _ _ j k (so_inv _ Hok) Hdf Hk) as (w' & Hr & I' & (Ht & Hdd & Hp) & Hs' & Hl' & Hoth & k' & Hk' & Hpc & Hse').
    eexists. split; [by erewrite prog_bind_ok by exact Hr|]. destruct Hok as [_ Hlen Hse Hfr]. split; simpl; rewrite ?Ht; try done.
    + apply inv_phase; [done|]. split; [|intros i x Hx Hxe; by rewrite Hs'].
      split_and!; [by rewrite Hs'|by rewrite Hl'|]. intros i x Hi Hx Hsx. destruct (decide (i = j)) as [->|Hne].
      * rewrite Hk' in Hx. injection Hx as <-. apply Hse'. rewrite Hpc in Hsx. by intros E; rewrite E in Hsx.
      * eapply (Hsig i x); [lia|by apply Hoth|done].
    + by rewrite <- (length_fmap pc), Hp, length_fmap.
    + intros i l Hi. eapply Hse. unfold pcs. by rewrite <- Hp.
  - eexists. split; [done|]. apply phase_ok; [done| |done]. split; [|done]. split_and!; try done.
    + intros i k Hi Hk. apply (Hsig i k); [lia|done].
    + intros i k Hi. lia.
Qed.

Lemma join_ok w j b : state_ok w → destroyer w = Join j → can_act w (DestroyGo b) → ∃ w', destroy_step b w = ok (tt, w') ∧ state_ok w'.
Proof.
  intros Hok Hd Hcan. unfold destroy_step. rewrite Hd. assert (destroyer w ≠ Freed) as Hdf by by rewrite Hd.
  destruct (so_inv _ Hok) as (iqs & pend & ns & I). pose proof (i_dest _ _ _ _ _ _ I) as [Hdo Hex]. rewrite Hd in Hdo.
  destruct Hdo as (Hsd & Hl0 & Hsig & Hxd). destruct (Nat.ltb_spec j (length (workers (pool w)))) as [Hj|Hj].
  - destruct (lookup_lt_is_Some_2 _ _ Hj) as [k Hk]. erewrite prog_bind_ok by by apply get_worker_ok.
    case_bool_decide as Hpc; [|by eauto]. eexists. split; [done|]. apply phase_ok; [done| |done].
    split; [|done]. split_and!; try done. intros i x Hi Hx. destruct (decide (i = j)) as [->|]; [congruence|].
    apply (Hxd i x); [lia|done].
  - eexists. split; [done|]. apply phase_ok; [done| |intros _; by eapply Hcan].
    split; [|done]. split_and!; try done. intros i x Hi Hx. apply (Hxd i x); [lia|done].
Qed.

Lemma destroy_go_ok w b : state_ok w → can_act w (DestroyGo b) → ∃ w', act (DestroyGo b) w = ok (tt, w') ∧ state_ok w'.
Proof.
  intros Hok Hcan. change (act (DestroyGo b) w) with (destroy_step b w). destruct (destroyer w) as [|timed| |j|j|] eqn:Hd.
  - unfold destroy_step. rewrite Hd. by eauto.
  - destruct (so_inv _ Hok) as (iqs & pend & ns & I). pose proof (i_dest _ _ _ _ _ _ I) as [Hdo Hex]. rewrite Hd in Hdo.
    unfold destroy_step. rewrite Hd.
    destruct (Z.eqb_spec (live_count (pool w)) 0); [eexists; split; [done|]; by apply phase_ok|].
    destruct (timed && b); eexists; (split; [done|]); [by apply phase_ok|done].
  - destruct (signal_ok w Hok Hd) as (w' & H1 & H2 & H3). destruct b; eauto.
  - by eapply wake_all_ok.
  - by eapply join_ok.
  - unfold destroy_step. rewrite Hd. by eauto.
Qed.

Lemma pool_act_ok w a : state_ok w → can_act w a → ∃ w', act a w = ok (tt, w') ∧ state_ok w'.
Proof.
  intros Hok Hcan. destruct a as [r|i r|i|i|k|i b|timed|b].
  - by apply external_ok.
  - by apply request_act_ok.
  - simpl. destruct (worker_pc w i) as [[]|] eqn:Hl; try (by eauto). destruct (idle_thread w i); [by apply leave_ok|by eauto].
  - simpl. destruct (worker_pc w i) as [[]|] eqn:Hl; try (by eauto). destruct (idle_thread w i); [by apply leave_ok|by eauto].
  - by apply go_ok.
  - by apply work_ok.
  - simpl. destruct (destroyer w) eqn:Hd; try (by eauto). destruct (so_inv _ Hok) as (iqs & pend & ns & I).
    pose proof (i_dest _ _ _ _ _ _ I) as [Hdo Hex]. rewrite Hd in Hdo.
    destruct timed; eexists; (split; [done|]); by apply phase_ok.
  - by apply destroy_go_ok.
Qed.

Lemma pool_reach_ok seeds cap w : reach seeds cap w → state_ok w.
Proof.
  induction 1 as [Hn Hs|w w' a _ IH Hcan Hact]; [by apply pool_make_ok|].
  destruct (pool_act_ok w a IH Hcan) as (w'' & Hact' & Hok). congruence.
Qed.

(** ** Where everything is *)



(** The spawns that wait, in order. *)
Definition pending (w : world Q) (qs : list goc_spawn_req) : Prop :=
  ∃ pend, linked (reqs w) pend (pending_spawn_head (pool w)) ∧ payload (reqs w) <$> pend = Some <$> qs.

Lemma linked_det m : ∀ ns ns' h, linked m ns h → linked m ns' h → ns = ns'.
Proof.
  induction ns as [|n ns IH]; intros [|n' ns'] h; simpl; try done.
  - intros -> (? & _). done.
  - intros (-> & _). done.
  - intros (-> & q & Hq & Hl) ([= <-] & q' & Hq' & Hl'). rewrite Hq in Hq'. injection Hq' as <-. f_equal. by eapply IH.
Qed.

Lemma queue_pending (w : world Q) (pend : list positive) r q qs :
  r ∉ pend → next q = None → payload (reqs w) <$> pend = Some <$> qs →
  payload (reqs (queue_spawn r q pend w)) <$> (pend ++ [r]) = Some <$> (qs ++ [q]).
Proof.
  intros Hr Hq Hp. rewrite !fmap_app, <- Hp. f_equal.
  - apply list_fmap_ext. intros i n Hn. rewrite queue_payload, decide_False; [done|]. intros ->. apply Hr. by eapply list_elem_of_lookup_2.
  - cbn [fmap list_fmap]. rewrite queue_payload, decide_True by done. do 2 f_equal. destruct q. simpl in *. by subst.
Qed.

(** What a thread does to spawn: at once, or last in the queue. *)
Definition submit_spec (w w' : world Q) (self : option Z) fn arg join home qs (r : res (list task * world Q)) : Prop :=
  live_count (pool w') = live_count (pool w) + 1 ∧
  if fast_path (pool w) self
  then r = ok ([Create fn arg join home], w') ∧ pending w' qs ∧ resident_count (pool w') = resident_count (pool w) + 1
  else r = ok ([Dispatch None], w') ∧ pending w' (qs ++ [mk_req None fn arg join (default SIZE_MAX home)]) ∧
       resident_count (pool w') = resident_count (pool w).

Lemma submit_behaves w self fn arg join home qs :
  state_ok w → accepting (destroyer w) → live_count (pool w) < SIZE_MAX → pending w qs →
  ∃ w', submit_spec w w' self fn arg join home qs (submit_locked self fn arg join home w).
Proof.
  intros Hok Hacc Hl (pend & Hp & Hpay). destruct (so_inv _ Hok) as (iqs & pend' & ns & I).
  pose proof (i_thr _ _ _ _ _ _ I) as Hthr.
  assert (pend' = pend) as -> by (eapply linked_det; [apply Hthr|exact Hp]).
  destruct (submit_ok _ _ self fn arg join home _ _ _ I Hacc Hl) as [-> Hcap]. unfold submit_spec.
  destruct (fast_path (pool w) self) eqn:Hf; eexists; (split; [|split; [done|]]); try done.
  - split; [by exists pend|done].
  - set (r := fresh _). set (q := mk_req _ _ _ _ _). split; [|simpl; lia]. exists (pend ++ [r]).
    assert (r ∉ dom (reqs w)) as Hfr by apply is_fresh. split.
    + eapply (queue_thr w); try done. by apply Hcap.
    + apply queue_pending; [|done|done]. rewrite (th_dom _ _ _ _ _ _ Hthr), not_elem_of_app in Hfr. by destruct Hfr.
Qed.

(** What the end of fiber [e] does: the requests [adm] are dispatched, [rest] waits on. *)
Definition finish_spec (w w' : world Q) (adm rest : list goc_spawn_req) (r : option positive) : Prop :=
  pending w' rest ∧ (∃ ns, linked (reqs w') ns r ∧ payload (reqs w') <$> ns = Some <$> adm) ∧
  live_count (pool w') = live_count (pool w) - 1 ∧
  resident_count (pool w') = resident_count (pool w) - 1 + Z.of_nat (length adm) ∧
  (rest ≠ [] → pool_spawn_cap_reached_locked (pool w') = true) ∧
  (adm ≠ [] → max_live_fibers (pool w) = 0 ∨ resident_count (pool w') <= max_live_fibers (pool w)).

Lemma finish_behaves w i k e b qs :
  state_ok w → workers (pool w) !! i = Some k → pc k = Polled e true → pending w qs →
  ∃ adm rest r w', qs = adm ++ rest ∧ worker_step (Z.of_nat i) b w = ok ([Dispatch r], w') ∧ finish_spec w w' adm rest r.
Proof.
  intros Hok Hk Hpc (pend & Hp & Hpay). pose proof (so_inv _ Hok) as I.
  assert (accepting (destroyer w)) as Hacc.
  { destruct I as (iqs & ? & ? & I). eapply live_accepting; [exact I|]. intros Hl.
    destruct (no_fibers_empty _ _ _ _ _ _ I Hl) as (_ & _ & _ & _ & _ & _ & Hem).
    destruct (inv_lookup _ _ _ _ _ _ _ _ I Hk) as (es & He & _). destruct (Hem i k es Hk He) as (_ & _ & Hh). by rewrite Hpc in Hh. }
  pose proof (accepting_alive _ Hacc) as Hd.
  unfold worker_step, search_step, idle_step, resumed_step. rewrite (prog_bind_ok _ _ _ _ _ (get_worker_ok w i k Hd Hk)), (prog_bind_ok _ _ _ _ _ (get_pool_ok w Hd)), Hpc.
  unfold goto. rewrite (prog_bind_ok _ _ _ _ _ (upd_worker_ok w i _ k Hd Hk)).
  assert (Inv (concat (todo w)) [e] (with_worker i (set_pc Top k) w)) as (iqs & pend' & ns & I1).
  { eapply move_ok; [done..|]. apply release_moves. by rewrite Hpc. }
  assert (pend' = pend) as -> by (eapply linked_det; [apply (i_thr _ _ _ _ _ _ I1)|exact Hp]).
  destruct (finish_run _ _ _ _ _ _ I1 Hd) as (p1 & p2 & m' & hd & r & -> & Hrun & Hl1 & Hl2 & Hfr & Hpm & Hfull & Hlt).
  rewrite fmap_app in Hpay. symmetry in Hpay. apply fmap_app_inv in Hpay as (adm & rest & H1 & H2 & ->).
  assert (length adm = length p1) as Hlen by (by rewrite <- (length_fmap Some), <- H1, length_fmap).
  exists adm, rest, r. eexists. split; [done|]. split; [exact Hrun|]. unfold finish_spec. simpl. rewrite Hlen. split_and!; try done.
  - exists p2. split; [done|]. simpl. rewrite <- H2. apply list_fmap_ext. intros; apply Hpm.
  - exists p1. split; [done|]. rewrite <- H1. apply list_fmap_ext. intros; apply Hpm.
  - intros Hr. apply Hfull. intros ->. by destruct rest.
  - intros Ha. specialize (Hlt (length p1 - 1)%nat). destruct adm; [done|]. simpl in Hlen.
    unfold cap_at in Hlt. simpl in Hlt. destruct (Z.eqb_spec (max_live_fibers (pool w)) 0); [by left|right].
    rewrite andb_true_l, Z.leb_gt in Hlt. lia.
Qed.

(** ** Stealing *)

(** Worker [i] makes [m] steps while nobody else moves. *)
Fixpoint alone (m : nat) (i : nat) : prog (world Q) () :=
  match m with O => mret tt | S m => act (Work i false);; alone m i end.

Definition idle_at (w : world Q) (i : nat) (k : goc_worker Q) : Prop :=
  workers (pool w) !! i = Some k ∧ todo w !! i = Some [].

Lemma work_alone w w' i k b :
  idle_at w i k → pc k ≠ Exited → worker_step (Z.of_nat i) b w = ok ([], w') → todo w' = todo w →
  act (Work i b) w = ok (tt, w').
Proof.
  intros [Hk Hi] Hx Hw Ht. simpl. unfold worker_pc. rewrite Hk. cbn [fmap option_fmap option_map]. unfold idle_thread.
  rewrite bool_decide_true by done. erewrite put_todo_bind by exact Hw. rewrite id_todo by by rewrite Ht. by destruct (pc k).
Qed.

(** One probe of the scan. *)
Lemma scan_probe w i k o j v kv :
  destroyer w ≠ Freed → idle_at w i k → pc k = Scan o j → 0 <= j < thread_count (pool w) →
  (Z.of_nat i + o + j) mod thread_count (pool w) = Z.of_nat v → workers (pool w) !! v = Some kv →
  ∃ s, act (Work i false) w = ok (tt,
    if decide (v = i) then with_worker i (set_pc (Scan o (j + 1)) k) w
    else match deque kv with
         | e :: d =>
             if e =? 0 then with_worker i (set_pc (Scan o (j + 1)) (set_streak s k)) (with_worker v (set_deque d kv) w)
             else with_worker i (set_pc (Run e) (set_streak 0 (set_victim (Z.of_nat v) k))) (with_worker v (set_deque d kv) w)
         | [] => with_worker i (set_pc (Scan o (j + 1)) (set_streak s k)) w
         end).
Proof.
  intros Hd [Hk Ht] Hpc Hj Hv Hkv. exists (u32 (miss_streak k + 1)).
  eapply work_alone; [done|by rewrite Hpc| |by repeat case_match].
  unfold worker_step, search_step, idle_step, resumed_step. rewrite (prog_bind_ok _ _ _ _ _ (get_worker_ok w i k Hd Hk)), (prog_bind_ok _ _ _ _ _ (get_pool_ok w Hd)), Hpc.
  cut (steal_scan (Z.of_nat i) o j false w = ok (tt,
    if decide (v = i) then with_worker i (set_pc (Scan o (j + 1)) k) w
    else match deque kv with
         | e :: d =>
             if e =? 0 then with_worker i (set_pc (Scan o (j + 1)) (set_streak (u32 (miss_streak k + 1)) k)) (with_worker v (set_deque d kv) w)
             else with_worker i (set_pc (Run e) (set_streak 0 (set_victim (Z.of_nat v) k))) (with_worker v (set_deque d kv) w)
         | [] => with_worker i (set_pc (Scan o (j + 1)) (set_streak (u32 (miss_streak k + 1)) k)) w
         end)).
  { intros E. by rewrite (prog_bind_ok _ _ _ _ _ E). }
  unfold steal_scan. rewrite (prog_bind_ok _ _ _ _ _ (get_pool_ok w Hd)), (proj2 (Z.ltb_lt _ _)) by lia. rewrite Hv.
  case_decide as Hvi.
  - subst. rewrite Z.eqb_refl. by apply upd_worker_ok.
  - rewrite (proj2 (Z.eqb_neq _ _)) by lia. unfold steal_top, goto, run_entry.
    assert (∀ d, workers (pool (with_worker v (set_deque d kv) w)) !! i = Some k) as Hki
      by (intros d; simpl; by rewrite list_lookup_insert_ne).
    destruct (deque kv) as [|e d] eqn:Hdq.
    + erewrite prog_bind_ok. 2: { erewrite prog_bind_ok by by apply get_worker_ok. by rewrite Hdq. }
      rewrite Z.eqb_refl. cbn [negb]. by rewrite (upd_upd w i _ _ k).
    + erewrite prog_bind_ok.
      2: { erewrite prog_bind_ok by by apply get_worker_ok. rewrite Hdq. by erewrite prog_bind_ok by by apply upd_worker_ok. }
      destruct (e =? 0); cbn [negb]; by rewrite (upd_upd (with_worker v (set_deque d kv) w) i _ _ k).
Qed.

(** Worker [i] has taken the oldest entry of another worker within [m] steps. *)
Definition finds_work (w : world Q) (i : nat) (m : nat) : Prop :=
  ∃ m' w' k' e, (m' <= m)%nat ∧ alone m' i w = ok (tt, w') ∧ workers (pool w') !! i = Some k' ∧ pc k' = Run e ∧
    ∃ u ku, workers (pool w) !! u = Some ku ∧ u ≠ i ∧ list.head (deque ku) = Some e ∧ last_steal_victim k' = Z.of_nat u.

Lemma not_freed w i k : state_ok w → workers (pool w) !! i = Some k → pc k ≠ Exited → destroyer w ≠ Freed.
Proof.
  intros Hok Hk Hx Hd. destruct (so_inv _ Hok) as (? & ? & ? & I). destruct (i_dest _ _ _ _ _ _ I) as [Hdo _].
  rewrite Hd in Hdo. destruct Hdo as (_ & _ & _ & Hex). apply Hx, (Hex i k); [by eapply lookup_lt_Some|done].
Qed.

Lemma deque_nonnull w v kv e d : state_ok w → workers (pool w) !! v = Some kv → deque kv = e :: d → (e =? 0) = false.
Proof.
  intros Hok Hkv Ed. apply Z.eqb_neq. destruct (so_inv _ Hok) as (iqs & ? & ? & I).
  destruct (inv_lookup _ _ _ _ _ _ _ _ I Hkv) as (es & He & _).
  eapply load_nonnull; [exact I|exact Hkv|exact He|]. unfold load. rewrite Ed. by left.
Qed.

Lemma scan_hit w i k o j v kv :
  state_ok w → idle_at w i k → pc k = Scan o j → 0 <= j < thread_count (pool w) →
  (Z.of_nat i + o + j) mod thread_count (pool w) = Z.of_nat v → v ≠ i → workers (pool w) !! v = Some kv → deque kv ≠ [] →
  finds_work w i 1.
Proof.
  intros Hok [Hk Ht] Hpc Hj Hv Hvi Hkv Hdq. assert (destroyer w ≠ Freed) as Hd by (apply (not_freed w i k); [done|done|by rewrite Hpc]).
  destruct (scan_probe w i k o j v kv) as [s Hact]; try done. rewrite decide_False in Hact by done.
  destruct (deque kv) as [|e dq] eqn:Ed; [done|]. rewrite (deque_nonnull _ _ _ _ _ Hok Hkv Ed) in Hact.
  eexists 1%nat, _, _, e. split; [lia|]. split; [cbn [alone]; by erewrite prog_bind_ok by exact Hact|]. split.
  { eapply with_lookup. simpl. rewrite list_lookup_insert_ne by done. exact Hk. }
  split; [done|]. exists v, kv. by rewrite Ed.
Qed.

Lemma finds_later w i k1 m :
  act (Work i false) w = ok (tt, with_worker i k1 w) → finds_work (with_worker i k1 w) i m → finds_work w i (S m).
Proof.
  intros Hact (m' & w' & k' & e & Hm & Hal & Hk' & Hpc' & u' & ku' & Hu' & Hne' & Hhd & Hlast).
  exists (S m'), w', k', e. split; [lia|]. split; [cbn [alone]; by rewrite (prog_bind_ok _ _ _ _ _ Hact)|].
  split_and!; try done. exists u', ku'. simpl in Hu'. rewrite list_lookup_insert_ne in Hu' by done. done.
Qed.

Lemma finds_mono w i m m' : (m <= m')%nat → finds_work w i m → finds_work w i m'.
Proof. intros Hm (x & w' & k' & e & Hx & Hr). exists x, w', k', e. split; [lia|done]. Qed.

Lemma scan_finds d : ∀ w i k o j v kv,
  state_ok w → idle_at w i k → pc k = Scan o j → 0 <= j → j + Z.of_nat d < thread_count (pool w) →
  (Z.of_nat i + o + (j + Z.of_nat d)) mod thread_count (pool w) = Z.of_nat v → v ≠ i →
  workers (pool w) !! v = Some kv → deque kv ≠ [] → finds_work w i (S d).
Proof.
  induction d as [|d IH]; intros w i k o j v kv Hok Hidle Hpc Hj Hjd Hv Hvi Hkv Hdq.
  { rewrite Z.add_0_r in Hv. eapply scan_hit; try done. lia. }
  pose proof Hidle as [Hk Ht]. pose proof (inv_threads _ _ _ (so_inv _ Hok)) as Hn.
  assert (destroyer w ≠ Freed) as Hd by (apply (not_freed w i k); [done|done|by rewrite Hpc]).
  destruct (idx_worker (pool w) ((Z.of_nat i + o + j) mod thread_count (pool w))) as (u & ku & Hu & Hku); [apply Z.mod_pos_bound; lia|].
  destruct (decide (u ≠ i ∧ deque ku ≠ [])) as [[Hui Hdu]|Hno].
  { eapply finds_mono; [|eapply scan_hit; try done]; lia. }
  assert (∃ s, act (Work i false) w = ok (tt, with_worker i (set_pc (Scan o (j + 1)) (set_streak s k)) w)) as [s Hact].
  { destruct (scan_probe w i k o j u ku) as [s Hact]; try done; [lia|]. rewrite Hact. case_decide; [exists (miss_streak k)|exists s].
    - by destruct k.
    - destruct (deque ku); [done|]. destruct Hno. done. }
  destruct (pool_act_ok w (Work i false) Hok Logic.I) as (w1 & Hact1 & Hok1). rewrite Hact in Hact1. injection Hact1 as <-.
  eapply finds_later; [exact Hact|]. set (k1 := set_pc _ _) in *.
  assert (thread_count (pool (with_worker i k1 w)) = thread_count (pool w)) as Hn1 by (unfold thread_count; simpl; by rewrite length_insert).
  eapply (IH _ i k1 o (j + 1) v kv); rewrite ?Hn1; try done; try lia.
  - split; [by eapply with_lookup|done].
  - rewrite <- Hv. f_equal. lia.
  - simpl. by rewrite list_lookup_insert_ne.
Qed.

Lemma scan_reaches i o v n : 0 < n → 0 <= v < n →
  ∃ d, Z.of_nat d < n ∧ (i + o + (0 + Z.of_nat d)) mod n = v.
Proof.
  intros Hn Hv. exists (Z.to_nat ((v - i - o) mod n)). pose proof (Z.mod_pos_bound (v - i - o) n Hn).
  rewrite Z2Nat.id by lia. split; [lia|]. rewrite Z.add_0_l, Zplus_mod_idemp_r.
  replace (i + o + (v - i - o)) with v by lia. by apply Z.mod_small.
Qed.

(** The steal phase of a worker, from the victim hint on. *)
Lemma hint_finds w i k v kv :
  state_ok w → idle_at w i k → pc k = Hint → v ≠ i → workers (pool w) !! v = Some kv → deque kv ≠ [] →
  finds_work w i (S (length (workers (pool w)))).
Proof.
  intros Hok Hidle Hpc Hvi Hkv Hdq. pose proof Hidle as [Hk Ht]. pose proof (so_inv _ Hok) as I.
  assert (destroyer w ≠ Freed) as Hd by (apply (not_freed w i k); [done|done|by rewrite Hpc]).
  pose proof (inv_threads _ _ _ I) as Hn.
  assert (worker_ok (thread_count (pool w)) k) as (Hvic & Hseed & Hn1).
  { destruct I as (? & ? & ? & I). by destruct (inv_lookup _ _ _ _ _ _ _ _ I Hk) as (? & _ & _ & ? & _). }
  assert (∀ f, act (Work i false) w = ok (tt, with_worker i (scan_from (thread_count (pool w)) (f k)) w) →
    finds_work w i (S (length (workers (pool w))))) as Hscan.
  { intros f Hact. destruct (pool_act_ok w (Work i false) Hok Logic.I) as (w1 & Hact1 & Hok1). rewrite Hact in Hact1. injection Hact1 as <-.
    eapply finds_later; [exact Hact|]. set (k1 := scan_from _ _) in *. set (w1 := with_worker i k1 w) in *.
    assert (thread_count (pool w1) = thread_count (pool w)) as Hn1' by (unfold thread_count; simpl; by rewrite length_insert).
    assert (∃ o, pc k1 = Scan o 0) as [o Ho] by (eexists; done).
    destruct (scan_reaches (Z.of_nat i) o (Z.of_nat v) (thread_count (pool w))) as (d & Hd1 & Hd2); [lia| |].
    { apply lookup_lt_Some in Hkv. unfold thread_count. lia. }
    apply (finds_mono _ _ (S d)); [unfold thread_count in Hd1; lia|].
    eapply (scan_finds d w1 i k1 o 0 v kv); rewrite ?Hn1'; try done; try lia.
    - split; [by eapply with_lookup|done].
    - simpl. by rewrite list_lookup_insert_ne. }
  assert (∀ w', steal_hint (Z.of_nat i) false w = ok (tt, w') → todo w' = todo w → act (Work i false) w = ok (tt, w')) as Hrun.
  { intros w' Hs Ht'. eapply work_alone; [done|by rewrite Hpc| |done]. unfold worker_step, search_step, idle_step, resumed_step.
    rewrite (prog_bind_ok _ _ _ _ _ (get_worker_ok w i k Hd Hk)), (prog_bind_ok _ _ _ _ _ (get_pool_ok w Hd)), Hpc.
    by rewrite (prog_bind_ok _ _ _ _ _ Hs). }
  unfold steal_hint in Hrun. rewrite (prog_bind_ok _ _ _ _ _ (get_worker_ok w i k Hd Hk)) in Hrun.
  destruct (negb (last_steal_victim k =? SIZE_MAX) && negb (last_steal_victim k =? Z.of_nat i)) eqn:Hh.
  2: { apply (Hscan id). eapply Hrun; [|done]. by apply (start_scan_run w i id k). }
  apply andb_true_iff in Hh as [H1%negb_true_iff%Z.eqb_neq H2%negb_true_iff%Z.eqb_neq].
  destruct Hvic as [?|Hvic]; [done|]. destruct (idx_worker _ _ Hvic) as (u & ku & Hu & Hku). rewrite Hu in *.
  assert (u ≠ i) as Hui by (by intros ->). unfold steal_top in Hrun.
  destruct (deque ku) as [|e dq] eqn:Ed.
  - apply (Hscan (λ w, set_streak (u32 (miss_streak w + 1)) w)). apply Hrun; [|done].
    erewrite prog_bind_ok. 2: { erewrite prog_bind_ok by by apply get_worker_ok. by rewrite Ed. }
    rewrite Z.eqb_refl. cbn [negb]. by apply (start_scan_run w i (λ w, set_streak (u32 (miss_streak w + 1)) w) k).
  - pose proof (deque_nonnull _ _ _ _ _ Hok Hku Ed) as He. apply (finds_mono _ _ 1); [lia|].
    set (w2 := with_worker u (set_deque dq ku) w).
    assert (workers (pool w2) !! i = Some k) as Hki by (simpl; by rewrite list_lookup_insert_ne).
    eexists 1%nat, _, _, e. split; [lia|]. split.
    { cbn [alone]. erewrite prog_bind_ok; [done|]. apply Hrun.
      - erewrite prog_bind_ok. 2: { erewrite prog_bind_ok by by apply get_worker_ok. rewrite Ed. by erewrite prog_bind_ok by by apply upd_worker_ok. }
        rewrite He. cbn [negb]. unfold run_entry. by apply (upd_upd w2 i _ _ k).
      - done. }
    split; [by eapply with_lookup|]. split; [done|]. exists u, ku. by rewrite Ed.
Qed.

(** ** Shutdown *)

(** How far a worker of a drained pool is from its exit. *)
Definition pc_rank (n : nat) (l : wpc) : nat :=
  match l with
  | PopOwn => 11 + n | PopInj => 10 + n | Hint => 9 + n | Scan _ j => 8 + (n - Z.to_nat j)
  | Look => 7 | GoIdle => 6 | RePop => 5 | ReInj => 4 | Sleep => 3 | Callbacks => 2 | Top => 1 | _ => 0
  end.
Definition weight (t : task) : nat :=
  match t with WakeTarget _ | WakePeer _ => 2 | Wakeup _ | Dispatch _ => 1 | _ => 0 end.
Definition rank (w : world Q) (i : nat) : nat :=
  from_option (pc_rank (length (workers (pool w)))) 0%nat (pcs w !! i) + sum_list (weight <$> default [] (todo w !! i)).

Definition drained (w : world Q) : Prop := live_count (pool w) = 0 ∧ shutdown (pool w) = true ∧ destroyer w ≠ Freed.

Lemma drained_queues w i k : state_ok w → drained w → workers (pool w) !! i = Some k →
  deque k = [] ∧ inj_holds (injector k) [] ∧ held (pc k) = [].
Proof.
  intros Hok (Hl & _) Hk. destruct (so_inv _ Hok) as (iqs & pend & ns & I).
  destruct (no_fibers_empty _ _ _ _ _ _ I Hl) as (_ & _ & _ & _ & _ & _ & Hem).
  destruct (inv_lookup _ _ _ _ _ _ _ _ I Hk) as (es & He & Hh & _). destruct (Hem i k es Hk He) as (? & -> & ?). done.
Qed.

(** The worker has moved from [l] to a smaller rank. *)
Definition closer (w : world Q) (i : nat) (l : wpc) (r : res (list task * world Q)) : Prop :=
  ∃ w' l', r = ok ([], w') ∧ todo w' = todo w ∧ pcs w' = <[i := l']> (pcs w) ∧
    (pc_rank (length (workers (pool w))) l' < pc_rank (length (workers (pool w))) l)%nat.

Lemma closer_move (w : world Q) i k f l :
  destroyer w ≠ Freed → workers (pool w) !! i = Some k →
  (pc_rank (length (workers (pool w))) (pc (f k)) < pc_rank (length (workers (pool w))) l)%nat →
  closer w i l ((upd_worker (Z.of_nat i) f;; mret []) w).
Proof.
  intros Hd Hk Hr. exists (with_worker i (f k) w), (pc (f k)). split; [by erewrite prog_bind_ok by by apply upd_worker_ok|].
  split_and!; [done| |done]. by apply (pcs_with w i k).
Qed.

Lemma closer_pool (w : world Q) i l f m :
  destroyer w ≠ Freed → (∀ p, workers (f p) = workers p) →
  (destroyer (set_pool (f (pool w)) w) ≠ Freed → closer (set_pool (f (pool w)) w) i l (m (set_pool (f (pool w)) w))) →
  closer w i l ((upd_pool f;; m) w).
Proof.
  intros Hd Hf Hm. erewrite prog_bind_ok by by apply upd_pool_ok. destruct (Hm Hd) as (w' & l' & Hr & Ht & Hp & Hlt).
  exists w', l'. unfold pcs in Hp. simpl in *. rewrite Hf in Hp, Hlt. done.
Qed.

Lemma pop_bottom_none (w : world Q) i k : destroyer w ≠ Freed → workers (pool w) !! i = Some k → deque k = [] →
  pop_bottom (Z.of_nat i) w = ok (0, w).
Proof. intros Hd Hk Hdq. unfold pop_bottom. erewrite prog_bind_ok by by apply get_worker_ok. by rewrite Hdq. Qed.

Lemma pop_injector_none (w : world Q) i k : destroyer w ≠ Freed → workers (pool w) !! i = Some k → inj_holds (injector k) [] →
  ∃ q, pop_injector (Z.of_nat i) w = ok (0, with_worker i (set_injector q k) w).
Proof.
  intros Hd Hk Hq. destruct (inj_pop_ok _ _ Hq) as (q & Hr & _). exists q. unfold pop_injector.
  erewrite prog_bind_ok by by apply get_worker_ok. rewrite Hr. by erewrite prog_bind_ok by by apply upd_worker_ok.
Qed.

Lemma steal_none (w : world Q) v k b : destroyer w ≠ Freed → workers (pool w) !! v = Some k → deque k = [] →
  steal_top (Z.of_nat v) b w = ok (0, w).
Proof. intros Hd Hk Hdq. unfold steal_top. erewrite prog_bind_ok by by apply get_worker_ok. by rewrite Hdq. Qed.

Lemma closer_inj (w : world Q) i k q l l' :
  destroyer w ≠ Freed → workers (pool w) !! i = Some k →
  (pc_rank (length (workers (pool w))) l' < pc_rank (length (workers (pool w))) l)%nat →
  closer w i l ((goto (Z.of_nat i) l';; mret []) (with_worker i (set_injector q k) w)).
Proof.
  intros Hd Hk Hr. unfold goto. pose proof (with_lookup w i k (set_injector q k) Hk) as Hk'.
  eexists _, l'. split; [by erewrite prog_bind_ok by by apply upd_worker_ok|]. rewrite with_with.
  split_and!; [done| |done]. by rewrite (pcs_with w i k).
Qed.

Lemma closer_u (w : world Q) i k k' l (m : prog (world Q) ()) :
  workers (pool w) !! i = Some k → m w = ok (tt, with_worker i k' w) →
  (pc_rank (length (workers (pool w))) (pc k') < pc_rank (length (workers (pool w))) l)%nat →
  closer w i l ((m;; mret []) w).
Proof.
  intros Hk Hm Hr. exists (with_worker i k' w), (pc k'). split; [by erewrite prog_bind_ok by exact Hm|]. split_and!; [done| |done].
  by apply (pcs_with w i k).
Qed.

Lemma hint_closer w i k b : state_ok w → drained w → workers (pool w) !! i = Some k → pc k = Hint →
  ∃ k', steal_hint (Z.of_nat i) b w = ok (tt, with_worker i k' w) ∧ ∃ o, pc k' = Scan o 0.
Proof.
  intros Hok Hdr Hk Hpc. pose proof Hdr as (_ & _ & Hd). destruct (so_inv _ Hok) as (? & ? & ? & I).
  destruct (inv_lookup _ _ _ _ _ _ _ _ I Hk) as (? & _ & _ & (Hv & _ & _) & _).
  unfold steal_hint. rewrite (prog_bind_ok _ _ _ _ _ (get_worker_ok w i k Hd Hk)).
  destruct (Z.eqb_spec (last_steal_victim k) SIZE_MAX) as [|H1]; cbn [negb andb].
  { eexists. split; [by apply (start_scan_run w i id k)|]. by eexists. }
  destruct (negb (last_steal_victim k =? Z.of_nat i)).
  2: { eexists. split; [by apply (start_scan_run w i id k)|]. by eexists. }
  destruct Hv as [?|Hv]; [done|]. destruct (idx_worker _ _ Hv) as (v & kv & -> & Hkv).
  destruct (drained_queues w v kv Hok Hdr Hkv) as (Hdq & _ & _).
  rewrite (prog_bind_ok _ _ _ _ _ (steal_none w v kv b Hd Hkv Hdq)). rewrite Z.eqb_refl. cbn [negb].
  eexists. split; [by apply (start_scan_run w i (λ w, set_streak (u32 (miss_streak w + 1)) w) k)|]. by eexists.
Qed.

Lemma scan_closer w i k o j b : state_ok w → drained w → workers (pool w) !! i = Some k → pc k = Scan o j →
  ∃ k', steal_scan (Z.of_nat i) o j b w = ok (tt, with_worker i k' w) ∧
    (pc_rank (length (workers (pool w))) (pc k') < pc_rank (length (workers (pool w))) (pc k))%nat.
Proof.
  intros Hok Hdr Hk Hpc. pose proof Hdr as (_ & _ & Hd). destruct (so_inv _ Hok) as (? & ? & ? & I).
  destruct (inv_lookup _ _ _ _ _ _ _ _ I Hk) as (? & _ & _ & (_ & _ & Hsc) & _). rewrite Hpc in Hsc |- *.
  unfold steal_scan, goto. rewrite (prog_bind_ok _ _ _ _ _ (get_pool_ok w Hd)).
  destruct (Z.ltb_spec j (thread_count (pool w))) as [Hj|Hj].
  - assert (∀ k' : goc_worker Q, pc k' = Scan o (j + 1) →
      (pc_rank (length (workers (pool w))) (pc k') < pc_rank (length (workers (pool w))) (Scan o j))%nat) as Hrk.
    { intros k' ->. unfold thread_count in *. simpl. lia. }
    destruct ((Z.of_nat i + o + j) mod thread_count (pool w) =? Z.of_nat i).
    + eexists. split; [by apply upd_worker_ok|]. by apply Hrk.
    + destruct (idx_worker (pool w) ((Z.of_nat i + o + j) mod thread_count (pool w))) as (u & ku & -> & Hku); [apply Z.mod_pos_bound; lia|].
      destruct (drained_queues w u ku Hok Hdr Hku) as (Hdq & _ & _).
      rewrite (prog_bind_ok _ _ _ _ _ (steal_none w u ku b Hd Hku Hdq)). rewrite Z.eqb_refl. cbn [negb].
      eexists. split; [by apply (upd_upd w i _ _ k)|]. by apply Hrk.
  - eexists. split; [by apply (upd_upd w i _ _ k)|]. simpl. lia.
Qed.

Lemma drained_step w i k b : state_ok w → drained w → workers (pool w) !! i = Some k → pc k ≠ Exited →
  closer w i (pc k) (worker_step (Z.of_nat i) b w).
Proof.
  intros Hok Hdr Hk Hx. destruct (drained_queues w i k Hok Hdr Hk) as (Hdq & Hij & Hh). pose proof Hdr as (_ & Hsd & Hd).
  unfold worker_step, search_step, idle_step, resumed_step. rewrite (prog_bind_ok _ _ _ _ _ (get_worker_ok w i k Hd Hk)), (prog_bind_ok _ _ _ _ _ (get_pool_ok w Hd)).
  destruct (pop_injector_none w i k Hd Hk Hij) as [q Hpi]. rewrite Hsd.
  destruct (pc k) as [| | | |o j| | | | | | |e|e dead|e dead|e|] eqn:Hpc; try done.
  - eapply closer_move; [done..|]. simpl. lia.
  - rewrite (prog_bind_ok _ _ _ _ _ (pop_bottom_none w i k Hd Hk Hdq)), Z.eqb_refl. cbn [negb].
    eapply closer_move; [done..|]. simpl. lia.
  - rewrite (prog_bind_ok _ _ _ _ _ Hpi), Z.eqb_refl. cbn [negb]. eapply closer_inj; [done..|]. destruct (_ && _); simpl; lia.
  - destruct (hint_closer w i k b Hok Hdr Hk Hpc) as (k' & Hr & o & Ho). eapply closer_u; [done|exact Hr|]. rewrite Ho. simpl. lia.
  - destruct (scan_closer w i k o j b Hok Hdr Hk Hpc) as (k' & Hr & Ho). eapply closer_u; [done|exact Hr|]. by rewrite Hpc in Ho.
  - rewrite andb_false_r. cbn [andb]. eapply closer_move; [done..|]. simpl. lia.
  - apply closer_pool; [done|done|]. intros Hd'. eapply closer_move; [done..|]. simpl. lia.
  - rewrite (prog_bind_ok _ _ _ _ _ (pop_bottom_none w i k Hd Hk Hdq)), Z.eqb_refl. cbn [negb].
    eapply closer_move; [done..|]. simpl. lia.
  - rewrite (prog_bind_ok _ _ _ _ _ Hpi), Z.eqb_refl. cbn [negb]. eapply closer_inj; [done..|]. simpl. lia.
  - eapply closer_move; [done..|]. simpl. lia.
  - apply closer_pool; [done|done|]. intros Hd'. eapply closer_move; [done..|]. simpl. lia.
Qed.

Lemma drained_task w self t :
  state_ok w → drained w → t ∈ concat (todo w) →
  ∃ ts w', task_step self t w = ok (ts, w') ∧ frame w w' ∧ (sum_list (weight <$> ts) < weight t)%nat.
Proof.
  intros Hok (Hl & Hsd & Hd) Ht. destruct (so_inv _ Hok) as (iqs & pend & ns & I).
  destruct (no_fibers_empty _ _ _ _ _ _ I Hl) as (Hf & -> & -> & _ & Hpo & _ & _).
  apply elem_of_Permutation in Ht as (T & HT).
  assert ((t :: T) ≫= posted ≡ₚ []) as Hpt by by rewrite <- HT, Hpo.
  apply Permutation_nil_r in Hpt. simpl in Hpt. apply app_eq_nil in Hpt as [Hpt _].
  destruct (i_thr _ _ _ _ _ _ I) as [_ _ Hc _ _ Hlc _ _ _]. rewrite Hl, (creates_perm _ _ HT) in Hlc.
  destruct (chains_perm _ _ _ _ HT Hc) as (ns' & Hns & Hc'). apply Permutation_nil_l in Hns. subst ns'.
  assert (Inv (t :: T) [] w) as It by (eapply inv_perm; [exact HT|done|by eexists _, _, _]).
  destruct t as [fn arg join home|r| | |i|i|i]; simpl in Hpt; try discriminate Hpt.
  - exfalso. change (creates (Create fn arg join home :: T)) with (S (creates T)) in Hlc. lia.
  - destruct Hc' as (n1 & n2 & E & Hln & _). symmetry in E. apply app_eq_nil in E as [-> _]. simpl in Hln. subst.
    exists [], w. split_and!; [done|done|simpl; lia].
  - exists [], w. split_and!; [|done|simpl; lia]. simpl. unfold wake_target. erewrite prog_bind_ok by by apply get_pool_ok. by rewrite Hsd.
  - simpl. unfold wake_peer. erewrite prog_bind_ok by by apply get_pool_ok.
    destruct (_ && _); eexists _, w; (split; [done|]); (split; [done|]); simpl; lia.
  - destruct (wakeup_ok T w i It Hd) as (w' & Hr & _ & Hfr). exists [], w'. split_and!; [|done|simpl; lia].
    simpl. by erewrite prog_bind_ok by exact Hr.
Qed.

Lemma rank_eq w w' i : pcs w' !! i = pcs w !! i → length (pcs w') = length (pcs w) → todo w' !! i = todo w !! i → rank w' i = rank w i.
Proof. intros Hp Hl Ht. unfold rank. rewrite Hp, Ht. unfold pcs in Hl. rewrite !length_fmap in Hl. by rewrite Hl. Qed.

Lemma sum_app (l l' : list nat) : sum_list (l ++ l') = (sum_list l + sum_list l')%nat.
Proof. induction l; simpl in *; lia. Qed.

Lemma go_rank w w' k : state_ok w → drained w → act (Go k) w = ok (tt, w') →
  (∀ i, rank w' i <= rank w i)%nat ∧ (todo w !! k ≠ Some [] → is_Some (todo w !! k) → (rank w' k < rank w k)%nat).
Proof.
  intros Hok Hdr. simpl. destruct (todo w !! k) as [[|t ts]|] eqn:Hk; [intros [= <-]; done| |intros [= <-]; split; [done|by intros _ [? ?]]].
  destruct (drained_task w (self_of w k) t Hok Hdr) as (ts' & w1 & Hr & (Ht & _ & Hp) & Hlt).
  { destruct (todo_replace w k _ Hk) as (rest & Hrest & _). rewrite Hrest. by left. }
  rewrite (put_todo_bind _ (λ ts', ts' ++ ts) _ _ _ _ Hr). intros [= <-].
  assert (rank (set_todo (<[k := ts' ++ ts]> (todo w1)) w1) k < rank w k)%nat as Hk'.
  { unfold rank. simpl. change (pcs (set_todo _ w1)) with (pcs w1). fold (pcs w1) (pcs w) in Hp. rewrite Hp, Hk, Ht.
    rewrite list_lookup_insert_eq by by eapply lookup_lt_Some. rewrite <- !(length_fmap pc). fold (pcs w1) (pcs w). rewrite Hp.
    cbn [default from_option id]. rewrite fmap_app, sum_app, fmap_cons. cbn [sum_list]. apply Nat.add_lt_mono_l, Nat.add_lt_mono_r. exact Hlt. }
  split; [|done]. intros i. destruct (decide (i = k)) as [->|Hne]; [lia|].
  erewrite rank_eq; [done| | |]; simpl.
  - unfold pcs. simpl. by rewrite Hp.
  - unfold pcs. simpl. by rewrite Hp.
  - rewrite list_lookup_insert_ne by done. by rewrite Ht.
Qed.

Lemma work_rank w w' j b : state_ok w → drained w → act (Work j b) w = ok (tt, w') →
  (∀ i, rank w' i <= rank w i)%nat ∧
  (todo w !! j = Some [] → ∀ l, worker_pc w j = Some l → l ≠ Exited → (rank w' j < rank w j)%nat).
Proof.
  intros Hok Hdr. simpl. destruct (worker_pc w j) as [l|] eqn:Hl; [|intros [= <-]; by split].
  destruct (decide (l = Exited)) as [->|Hx]; [intros [= <-]; split; [done|]; by intros _ ? [= <-]|].
  apply worker_pc_pcs in Hl as (Hp & k & Hk & Hpc). subst l. intros Hact.
  assert ((if idle_thread w j then (ts ← worker_step (Z.of_nat j) b; put_todo j ts) w else ok (tt, w)) = ok (tt, w')) as E
    by (by destruct (pc k)). clear Hact. unfold idle_thread in E. case_bool_decide as Hid.
  2: { injection E as <-. by split. }
  destruct (drained_step w j k b Hok Hdr Hk Hx) as (w1 & l' & Hr & Ht & Hp1 & Hlt).
  rewrite (put_todo_bind _ id _ _ _ _ Hr) in E. injection E as <-.
  assert (length (pcs w1) = length (pcs w)) as Hlen by by rewrite Hp1, length_insert.
  assert (rank (set_todo (<[j := []]> (todo w1)) w1) j < rank w j)%nat as Hj.
  { unfold rank. simpl. change (pcs (set_todo _ w1)) with (pcs w1). rewrite Hp1, Hp, Hid, Ht.
    rewrite !list_lookup_insert_eq by (by eapply lookup_lt_Some). simpl.
    unfold pcs in Hlen. rewrite !length_fmap in Hlen. rewrite Hlen. lia. }
  split; [|done]. intros i. destruct (decide (i = j)) as [->|Hne]; [unfold id; lia|].
  erewrite rank_eq; [done| |exact Hlen|]; simpl.
  - change (pcs (set_todo _ w1)) with (pcs w1). by rewrite Hp1, list_lookup_insert_ne.
  - rewrite list_lookup_insert_ne by done. by rewrite Ht.
Qed.

Lemma drained_no_request w r : state_ok w → drained w → ¬ may_request w r.
Proof.
  intros Hok (Hl & Hsd & _) Hm. destruct (so_inv _ Hok) as (iqs & pend & ns & I).
  destruct (no_fibers_empty _ _ _ _ _ _ I Hl) as (_ & _ & _ & _ & _ & Hpk & _).
  destruct (i_dest _ _ _ _ _ _ I) as [Hd _].
  destruct r; simpl in Hm; [|destruct Hm as (Hm & _)|destruct Hm as [Hm _]; by rewrite Hpk in Hm; apply elem_of_nil in Hm];
    [destruct Hm as [Hm _]|]; destruct (destroyer w); simpl in *; congruence.
Qed.

Lemma join_rank w j a w' : state_ok w → drained w → destroyer w = Join j → can_act w a → act a w = ok (tt, w') →
  ∀ i, (rank w' i <= rank w i)%nat.
Proof.
  intros Hok Hdr Hd Hcan Hact i. destruct a as [r|i' r|i'|i'|k|i' b|timed|b].
  - by destruct (drained_no_request w r Hok Hdr).
  - by destruct (drained_no_request w r Hok Hdr).
  - simpl in Hact. destruct (worker_pc w i') as [[]|] eqn:Hl; try (by injection Hact as <-).
    apply worker_pc_pcs in Hl as (_ & k & Hk & Hpc). destruct (drained_queues w i' k Hok Hdr Hk) as (_ & _ & Hh). by rewrite Hpc in Hh.
  - simpl in Hact. destruct (worker_pc w i') as [[]|] eqn:Hl; try (by injection Hact as <-).
    apply worker_pc_pcs in Hl as (_ & k & Hk & Hpc). destruct (drained_queues w i' k Hok Hdr Hk) as (_ & _ & Hh). by rewrite Hpc in Hh.
  - by apply (go_rank w w' k).
  - by apply (work_rank w w' i' b).
  - simpl in Hact. rewrite Hd in Hact. by injection Hact as <-.
  - simpl in Hact. unfold destroy_step in Hact. rewrite Hd in Hact.
    destruct (Nat.ltb_spec j (length (workers (pool w)))) as [Hj|_]; [|by injection Hact as <-].
    destruct (lookup_lt_is_Some_2 _ _ Hj) as [k Hk]. assert (destroyer w ≠ Freed) as Hdf by by rewrite Hd.
    rewrite (prog_bind_ok _ _ _ _ _ (get_worker_ok w j k Hdf Hk)) in Hact. case_bool_decide; by injection Hact as <-.
Qed.

(** ** Runs that can be evaluated *)

Definition acceptingb (d : dpc) : bool := match d with NoDestroy | Draining _ => true | _ => false end.
Definition may_requestb (w : world Q) (r : request) : bool :=
  match r with
  | Spawn _ _ _ => acceptingb (destroyer w) && (live_count (pool w) <? SIZE_MAX)
  | SpawnOn i _ _ _ => acceptingb (destroyer w) && (live_count (pool w) <? SIZE_MAX) && (0 <=? i) && (i <? thread_count (pool w))
  | Wake e home => bool_decide (e ∈ parked w) && (0 <=? home)
  end.
Definition can_actb (w : world Q) (a : action) : bool :=
  match a with
  | External r | Request _ r => may_requestb w r
  | DestroyGo _ =>
      match destroyer w with
      | Join j => (j <? length (workers (pool w)))%nat || bool_decide (Forall (λ ts, ts = []) (todo w))
      | _ => true
      end
  | _ => true
  end.

Lemma may_requestb_ok w r : may_requestb w r = true → may_request w r.
Proof.
  assert (∀ d, acceptingb d = true → accepting d) as Ha by by intros [].
  destruct r; simpl; rewrite ?andb_true_iff, ?Z.ltb_lt, ?Z.leb_le, ?bool_decide_eq_true; naive_solver lia.
Qed.

Lemma can_actb_ok w a : can_actb w a = true → can_act w a.
Proof.
  destruct a; simpl; try done; try apply may_requestb_ok. intros Hc j Hj Hn. rewrite Hj in Hc.
  apply orb_true_iff in Hc as [?%Nat.ltb_lt|?%bool_decide_eq_true]; [lia|done].
Qed.

Fixpoint run (acts : list action) (w : world Q) : option (world Q) :=
  match acts with
  | [] => Some w
  | a :: acts => if can_actb w a then match act a w with ok (_, w') => run acts w' | _ => None end else None
  end.

Lemma pool_run_reach seeds cap acts : ∀ w w', reach seeds cap w → run acts w = Some w' → reach seeds cap w'.
Proof.
  induction acts as [|a acts IH]; simpl; intros w w' Hr Hrun; [congruence|].
  destruct (can_actb w a) eqn:Hc; [|done]. destruct (act a w) as [[[] w1]|?| |] eqn:Ha; try done.
  eapply IH; [|exact Hrun]. econstructor; [exact Hr|by apply can_actb_ok|exact Ha].
Qed.

(** ** Claims *)


(** C30: The spawn throttle.  A spawn from one of the pool's own workers, or one that finds
    no other waiting and the cap not reached, is created at once; every other spawn is put
    last in the queue.  When a fiber ends, the requests at the front of the queue are taken
    off and dispatched in their order, as many as the cap allows and no more, and the
    others keep waiting. *)
Theorem throttle_behaviour seeds cap w qs :
  reach seeds cap w → pending w qs →
  (∀ self fn arg join home, accepting (destroyer w) → live_count (pool w) < SIZE_MAX →
     ∃ w', submit_spec w w' self fn arg join home qs (submit_locked self fn arg join home w)) ∧
  (∀ i k e b, workers (pool w) !! i = Some k → pc k = Polled e true →
     ∃ adm rest r w', qs = adm ++ rest ∧ worker_step (Z.of_nat i) b w = ok ([Dispatch r], w') ∧ finish_spec w w' adm rest r).
Proof.
  intros Hr%pool_reach_ok Hq. split; intros; [by apply submit_behaves|by eapply finish_behaves].
Qed.

(** C31: No wakeup is lost.  A worker that sleeps in its event loop has an empty deque, and
    if there is an entry in its injector then its wakeup was sent since it last looked, or
    the thread that pushed the entry has still to send it. *)
Theorem pool_no_lost_wakeup seeds cap w i k :
  reach seeds cap w → workers (pool w) !! i = Some k → pc k = Sleep →
  deque k = [] ∧
  (inj_holds (injector k) [] ∨ wakeup_sent k = true ∨
   ∃ ts, ts ∈ todo w ∧ (WakeTarget (Z.of_nat i) ∈ ts ∨ Wakeup (Z.of_nat i) ∈ ts)).
Proof.
  intros Hr%pool_reach_ok Hk Hpc. destruct (so_inv _ Hr) as (iqs & pend & ns & I).
  destruct (inv_lookup _ _ _ _ _ _ _ _ I Hk) as (es & He & Hh & _ & [Hs1 Hs2]). split; [by apply Hs1; right|].
  destruct es as [|e es]; [by left|right]. assert (∀ t, t ∈ concat (todo w) → ∃ ts, ts ∈ todo w ∧ t ∈ ts) as Hin.
  { clear. intros t. induction (todo w) as [|ts l IH]; simpl; [by intros ?%elem_of_nil|].
    intros [?|(ts' & ? & ?)%IH]%elem_of_app; [exists ts; split; [by left|done]|exists ts'; split; [by right|done]]. }
  destruct (Hs2 Hpc) as [?|[(ts & ? & ?)%Hin|(ts & ? & ?)%Hin]]; [done|by left|right..]; exists ts; auto.
Qed.

(** The steal phase finds work where there is some: if another worker's deque is not
    empty and no race is lost, a worker that starts to steal takes, within one probe of
    the victim hint and one probe of each worker, the oldest entry of some other worker,
    remembers the victim and runs the entry. *)
Theorem steal_finds_work seeds cap w i k v kv :
  reach seeds cap w → idle_at w i k → pc k = Hint → v ≠ i → workers (pool w) !! v = Some kv → deque kv ≠ [] →
  finds_work w i (S (length (workers (pool w)))).
Proof. intros Hr%pool_reach_ok. by apply hint_finds. Qed.

(** C33: The destruction of a pool comes to its end.  Once all workers were signalled, a
    worker that has not left its loop is not blocked, each of its own steps brings it
    closer to the exit and no step of another thread takes it further away; and when the
    pool is freed no fiber, no request and no queued entry is left and all workers have
    left their loops. *)
Theorem destroy_completes seeds cap w :
  reach seeds cap w →
  (∀ j i k, destroyer w = Join j → workers (pool w) !! i = Some k → pc k ≠ Exited →
     (pc k = Sleep → wakeup_sent k = true) ∧
     (∀ b, ∃ w', act (if idle_thread w i then Work i b else Go i) w = ok (tt, w') ∧ (rank w' i < rank w i)%nat) ∧
     (∀ a w', can_act w a → act a w = ok (tt, w') → (rank w' i <= rank w i)%nat)) ∧
  (destroyer w = Freed →
     fibers w = ∅ ∧ reqs w = ∅ ∧
     ∀ i k, workers (pool w) !! i = Some k → pc k = Exited ∧ deque k = [] ∧ inj_holds (injector k) []).
Proof.
  intros Hr%pool_reach_ok. destruct (so_inv _ Hr) as (iqs & pend & ns & I). pose proof (i_dest _ _ _ _ _ _ I) as [Hdo Hex]. split.
  - intros j i k Hd Hk Hx. rewrite Hd in Hdo. destruct Hdo as (Hsd & Hl & Hsig & _).
    assert (drained w) as Hdr by (split_and!; [done|done|by rewrite Hd]). split_and!.
    + intros Hpc. eapply Hsig; [by eapply lookup_lt_Some|exact Hk|by rewrite Hpc].
    + intros b. unfold idle_thread. case_bool_decide as Hid.
      * destruct (pool_act_ok w (Work i b) Hr Logic.I) as (w' & Ha & _). exists w'. split; [done|].
        apply (proj2 (work_rank w w' i b Hr Hdr Ha) Hid (pc k)); [|done]. unfold worker_pc. by rewrite Hk.
      * destruct (pool_act_ok w (Go i) Hr Logic.I) as (w' & Ha & _). exists w'. split; [done|].
        apply (proj2 (go_rank w w' i Hr Hdr Ha)); [done|]. apply lookup_lt_is_Some_2. apply lookup_lt_Some in Hk. pose proof (so_len _ Hr). lia.
    + intros a w' Hc Ha. by eapply join_rank.
  - intros Hd. rewrite Hd in Hdo. destruct Hdo as (_ & Hl & _ & Hxd).
    destruct (no_fibers_empty _ _ _ _ _ _ I Hl) as (Hf & -> & -> & _ & _ & _ & Hem). split_and!; [done| |].
    + apply dom_empty_iff_L. apply set_eq. intros n. rewrite (th_dom _ _ _ _ _ _ (i_thr _ _ _ _ _ _ I)), elem_of_empty. simpl. by rewrite elem_of_nil.
    + intros i k Hk. destruct (inv_lookup _ _ _ _ _ _ _ _ I Hk) as (es & He & Hh & _). destruct (Hem i k es Hk He) as (? & -> & _).
      split_and!; try done. eapply Hxd; [by eapply lookup_lt_Some|done].
Qed.

End Props.

(** ** Concrete runs *)

Definition demo (seeds : list Z) (cap : Z) (acts : list action) : world Wsdq.goc_injector :=
  default (goc_pool_make seeds cap) (run acts (goc_pool_make seeds cap)).

Lemma pool_demo_reach seeds cap acts :
  bool_decide (Forall (λ s, 0 <= s) seeds) = true → (0 <? Z.of_nat (length seeds)) && (Z.of_nat (length seeds) <? 4294967296) = true →
  bool_decide (is_Some (run acts (goc_pool_make (Q:=Wsdq.goc_injector) seeds cap))) = true → reach seeds cap (demo seeds cap acts).
Proof.
  intros Hs%bool_decide_eq_true [?%Z.ltb_lt ?%Z.ltb_lt]%andb_true_iff [w Hw]%bool_decide_eq_true. unfold demo. rewrite Hw.
  eapply pool_run_reach; [|exact Hw]. by constructor.
Qed.

(** Two workers, a cap of one fiber: the first spawn runs to its end, the second waits. *)
Definition two_spawns : list action :=
  [External (Spawn 7 0 0); Go 2; Go 2; External (Spawn 8 0 0); Go 3; Go 2; Go 2;
   Work 0 false; Work 0 false; Work 0 false; Return 0; Work 0 false].


Lemma throttle_behaviour_witness :
  ∃ adm rest r w', [mk_req None 8 0 0 SIZE_MAX] = adm ++ rest ∧
    worker_step 0 false (demo [1; 2] 1 two_spawns) = ok ([Dispatch r], w') ∧ finish_spec (demo [1; 2] 1 two_spawns) w' adm rest r.
Proof.
  destruct (throttle_behaviour [1; 2] 1 (demo [1; 2] 1 two_spawns) [mk_req None 8 0 0 SIZE_MAX]) as [_ Hf].
  - apply pool_demo_reach; vm_compute; reflexivity.
  - exists [1%positive]. split; [|vm_compute; reflexivity]. split; [vm_compute; reflexivity|].
    eexists. split; vm_compute; reflexivity.
  - eapply (Hf 0%nat _ 1 false); vm_compute; reflexivity.
Defined.

(** A worker sleeps while an entry is pushed for it. *)
Definition sleeper : list action :=
  [Work 0 false; Work 0 false; Work 0 false; Work 0 false; Work 0 false; Work 0 false; Work 0 false;
   External (Spawn 7 0 0); Go 1; Go 1].

Lemma pool_no_lost_wakeup_witness :
  ∃ k, workers (pool (demo [1] 0 sleeper)) !! 0%nat = Some k ∧ pc k = Sleep ∧ deque k = [] ∧
    (inj_holds (injector k) [] ∨ wakeup_sent k = true ∨
     ∃ ts, ts ∈ todo (demo [1] 0 sleeper) ∧ (WakeTarget 0 ∈ ts ∨ Wakeup 0 ∈ ts)).
Proof.
  eexists. split; [vm_compute; reflexivity|]. split; [vm_compute; reflexivity|].
  eapply (pool_no_lost_wakeup [1] 0 (demo [1] 0 sleeper) 0); [apply pool_demo_reach|..]; vm_compute; reflexivity.
Defined.

(** A fiber on worker 1 spawns two fibers, which go to its deque, and worker 0 starts to
    steal. *)
Definition thief : list action :=
  [External (SpawnOn 1 7 0 0); Go 2; Go 2; Go 2; Go 2; Work 1 false; Work 1 false; Work 1 false;
   Request 1 (Spawn 8 0 0); Go 1; Go 1; Go 1; Request 1 (Spawn 9 0 0); Go 1; Go 1; Go 1;
   Work 0 false; Work 0 false; Work 0 false].

Lemma steal_finds_work_witness : finds_work (demo [1; 2] 0 thief) 0 3.
Proof.
  eapply (steal_finds_work [1; 2] 0 (demo [1; 2] 0 thief) 0 _ 1);
    [apply pool_demo_reach; vm_compute; reflexivity|split; vm_compute; reflexivity|vm_compute; reflexivity|discriminate|vm_compute; reflexivity|].
  vm_compute. discriminate.
Defined.

(** An empty pool is destroyed; its worker has seen nothing of it yet. *)
Definition destroying : list action :=
  [Work 0 false; Destroy false; DestroyGo false; DestroyGo false; DestroyGo false; DestroyGo false].

Lemma destroy_completes_witness :
  ∃ w', act (Work 0 false) (demo [1] 0 destroying) = ok (tt, w') ∧ Nat.lt (rank w' 0) (rank (demo [1] 0 destroying) 0).
Proof.
  destruct (destroy_completes [1] 0 (demo [1] 0 destroying)) as [Hj _]; [apply pool_demo_reach; vm_compute; reflexivity|].
  edestruct (Hj 0%nat 0%nat) as (_ & Hs & _); [vm_compute; reflexivity|vm_compute; reflexivity|vm_compute; discriminate|].
  exact (Hs false).
Defined.

(** A fiber parks, the thread of the event loop wakes it and is held up before it looks at
    [shutdown]; the fiber ends and the pool is destroyed. *)
Definition late_waker : list action :=
  [External (Spawn 7 0 0); Go 1; Go 1; Go 1; Go 1; Work 0 false; Work 0 false; Work 0 false;
   Yield 0; Work 0 false; Work 0 false; Work 0 false;
   External (Wake 1 SIZE_MAX); Go 2;
   Work 0 false; Work 0 false; Work 0 false; Return 0; Work 0 false; Work 0 false; Go 0;
   Destroy false; DestroyGo false; DestroyGo false; DestroyGo false; Work 0 false; DestroyGo false; DestroyGo false].

(** The destruction of a pool does not wait for threads that are waking its fibers.  A
    thread outside the pool pushes a parked fiber into the injector of a worker; before it
    goes on to read [pool->shutdown] the fiber runs to its end, the pool is drained and
    its workers leave; the pool is freed, and the thread reads freed memory. *)
Theorem destroy_frees_under_waker :
  ∃ w w', reach (Q:=Wsdq.goc_injector) [1] 0 w ∧ destroyer w = Join 1 ∧ fibers w = ∅ ∧ todo w !! 2%nat = Some [WakeTarget 0] ∧
    act (DestroyGo false) w = ok (tt, w') ∧ destroyer w' = Freed ∧ act (Go 2) w' = ub.
Proof.
  exists (demo [1] 0 late_waker), (set_destroyer Freed (demo [1] 0 late_waker)).
  split; [apply pool_demo_reach; vm_compute; reflexivity|]. split_and!; vm_compute; reflexivity.
Qed.

End PoolProps.
