(* ===== verification/Roots.v ===== *)
(** The fiber stacks the garbage collector scans (gc.c): a bitmap of slots in chunks.
    Threads register under a mutex, step by step; they unregister with one atomic
    operation and without the mutex; the collector stops all threads between two steps
    and walks the bitmap.  Memory is sequentially consistent. *)

From S2P Require Import Prelude.

Module Roots.

Definition FIBER_ROOT_CHUNK_SIZE : Z := 1024.
Definition FIBER_ROOT_CHUNK_WORDS : Z := 16.
Definition FIBER_ROOT_MAX_CHUNKS : Z := 256.
Definition UINT64_MAX : Z := 18446744073709551615.

Record fiber_root_slot := mk_slot { entry : Z; stack_base : Z; stack_top : Z; scan_from : Z }.

(** The static variables; a chunk that is not allocated is [None]. *)
Record roots := mk_roots {
  fiber_root_chunks : list (option (list fiber_root_slot));
  fiber_root_bitmap : list Z;
  fiber_root_num_chunks : Z;
  prev_push_roots : bool
}.

Definition set_chunks l (r : roots) := mk_roots l (fiber_root_bitmap r) (fiber_root_num_chunks r) (prev_push_roots r).
Definition set_bitmap l (r : roots) := mk_roots (fiber_root_chunks r) l (fiber_root_num_chunks r) (prev_push_roots r).
Definition set_num n (r : roots) := mk_roots (fiber_root_chunks r) (fiber_root_bitmap r) n (prev_push_roots r).

(** [goc_fiber_roots_init] remembers the callback that was installed before. *)
Definition goc_fiber_roots_init (prev : bool) : roots :=
  mk_roots (replicate (Z.to_nat FIBER_ROOT_MAX_CHUNKS) None)
    (replicate (Z.to_nat (FIBER_ROOT_MAX_CHUNKS * FIBER_ROOT_CHUNK_WORDS)) 0) 0 prev.

(** [__builtin_ctzll]: the number of the lowest bit that is set. *)
Definition ctzll (w : Z) : Z := default 0 (head (filter (λ i, Z.testbit w i = true) (seqZ 0 64))).

(** [~w] on 64 bits. *)
Definition not64 (w : Z) : Z := Z.lxor w UINT64_MAX.

Definition get_slot (c offset : Z) : prog roots fiber_root_slot := λ r,
  match zget (fiber_root_chunks r) c ≫= id with
  | Some chunk => of_option (zget chunk offset) r
  | None => ub
  end.

Definition put_slot (c offset : Z) (s : fiber_root_slot) : prog roots () := λ r,
  match zget (fiber_root_chunks r) c ≫= id with
  | Some chunk =>
      match zset chunk offset s with
      | Some chunk' =>
          match zset (fiber_root_chunks r) c (Some chunk') with
          | Some l => ok (tt, set_chunks l r)
          | None => ub
          end
      | None => ub
      end
  | None => ub
  end.

Definition get_word (w : Z) : prog roots Z := λ r, of_option (zget (fiber_root_bitmap r) w) r.
Definition put_word (w x : Z) : prog roots () := λ r,
  match zset (fiber_root_bitmap r) w x with Some l => ok (tt, set_bitmap l r) | None => ub end.

Definition put_chunk (c : Z) (x : option (list fiber_root_slot)) : prog roots () := λ r,
  match zset (fiber_root_chunks r) c x with Some l => ok (tt, set_chunks l r) | None => ub end.
Definition put_num (n : Z) : prog roots () := λ r, ok (tt, set_num n r).
Definition get_num : prog roots Z := λ r, ok (fiber_root_num_chunks r, r).

(** ** The collector *)

(** What it is told to scan. *)
Inductive push := PushEntry (e : Z) | PushStack (base top : Z) | PushOthers.

(** [while (bword) ...]: a turn clears a bit, so 64 turns are enough. *)
Fixpoint word_loop (fuel : nat) (c w bword : Z) : prog roots (list push) :=
  if bword =? 0 then mret []
  else
    match fuel with
    | O => HANG
    | S fuel =>
        let bit := ctzll bword in
        s ← get_slot c (w * 64 + bit);
        ps ← word_loop fuel c w (Z.land bword (bword - 1));
        mret (PushEntry (entry s) :: PushStack (stack_base s) (stack_top s) :: ps)
    end.

Fixpoint words_loop (n : nat) (c w : Z) : prog roots (list push) :=
  match n with
  | O => mret []
  | S n =>
      bword ← get_word (c * FIBER_ROOT_CHUNK_WORDS + w);
      ps ← word_loop 64 c w bword;
      qs ← words_loop n c (w + 1);
      mret (ps ++ qs)
  end.

Fixpoint chunks_loop (n : nat) (c : Z) : prog roots (list push) :=
  match n with
  | O => mret []
  | S n =>
      ps ← words_loop (Z.to_nat FIBER_ROOT_CHUNK_WORDS) c 0;
      qs ← chunks_loop n (c + 1);
      mret (ps ++ qs)
  end.

Definition push_fiber_roots : prog roots (list push) := λ r,
  match chunks_loop (Z.to_nat (fiber_root_num_chunks r)) 0 r with
  | ok (ps, r) => ok (ps ++ (if prev_push_roots r then [PushOthers] else []), r)
  | abort m => abort m | ub => ub | hang => hang
  end.

(** ** Registration *)

(** What a fiber registers: its entry, the ends of its stack, and the stack pointer that
    [mco_get_suspended_sp] knows, or [0]. *)
Record fiber := mk_fiber { f_entry : Z; f_base : Z; f_top : Z; f_sp : Z }.

(** Where the thread that holds [fiber_root_mutex] is. *)
Inductive reg_pc :=
| RScan (nc w : Z)         (* the scan for a free slot *)
| RGrow (c : Z)            (* a new chunk is published *)
| RCount (c : Z)           (* and counted *)
| REntry (slot_idx : Z) | RBase (slot_idx : Z) | RTop (slot_idx : Z) | RSp (slot_idx : Z)   (* the slot is written *)
| RPublish (slot_idx : Z)  (* the bit is set *)
| RDone (slot_idx : Z).

Definition upd_slot (slot_idx : Z) (f : fiber_root_slot → fiber_root_slot) : prog roots () :=
  let chunk_idx := slot_idx / FIBER_ROOT_CHUNK_SIZE in
  let offset := slot_idx mod FIBER_ROOT_CHUNK_SIZE in
  s ← get_slot chunk_idx offset; put_slot chunk_idx offset (f s).

Definition start_register (r : roots) : reg_pc := RScan (fiber_root_num_chunks r) 0.

Definition register_step (f : fiber) (pc : reg_pc) : prog roots reg_pc :=
  match pc with
  | RScan nc w =>
      if w <? nc * FIBER_ROOT_CHUNK_WORDS then
        bword ← get_word w;
        mret (if negb (bword =? UINT64_MAX) then REntry (w * 64 + ctzll (not64 bword)) else RScan nc (w + 1))
      else mret (RGrow nc)
  | RGrow c =>
      if c <? FIBER_ROOT_MAX_CHUNKS then
        put_chunk c (Some (replicate (Z.to_nat FIBER_ROOT_CHUNK_SIZE) (mk_slot 0 0 0 0)));; mret (RCount c)
      else ABORT "assertion c < FIBER_ROOT_MAX_CHUNKS"
  | RCount c => n ← get_num; put_num (n + 1);; mret (REntry (c * FIBER_ROOT_CHUNK_SIZE))
  | REntry i => upd_slot i (λ s, mk_slot (f_entry f) (stack_base s) (stack_top s) (scan_from s));; mret (RBase i)
  | RBase i => upd_slot i (λ s, mk_slot (entry s) (f_base f) (stack_top s) (scan_from s));; mret (RTop i)
  | RTop i => upd_slot i (λ s, mk_slot (entry s) (stack_base s) (f_top f) (scan_from s));; mret (RSp i)
  | RSp i =>
      upd_slot i (λ s, mk_slot (entry s) (stack_base s) (stack_top s) (if f_sp f =? 0 then f_base f else f_sp f));;
      mret (RPublish i)
  | RPublish i =>
      bword ← get_word (i / 64); put_word (i / 64) (Z.lor bword (Z.shiftl 1 (i mod 64)));; mret (RDone i)
  | RDone i => mret (RDone i)
  end.

(** The whole call, when nobody interferes. *)
Fixpoint register_loop (fuel : nat) (f : fiber) (pc : reg_pc) : prog roots Z :=
  match pc with
  | RDone i => mret i
  | _ => match fuel with O => HANG | S fuel => pc' ← register_step f pc; register_loop fuel f pc' end
  end.

(** At most 4096 words are scanned, and eight steps follow. *)
Definition goc_fiber_root_register (f : fiber) : prog roots Z := λ r,
  register_loop 4105 f (start_register r) r.

Definition goc_fiber_root_unregister (slot_idx : Z) : prog roots () :=
  bword ← get_word (slot_idx / 64);
  put_word (slot_idx / 64) (Z.land bword (not64 (Z.shiftl 1 (slot_idx mod 64)))).

Definition goc_fiber_root_update_sp (slot_idx saved_sp : Z) : prog roots () :=
  if saved_sp =? 0 then mret tt
  else upd_slot slot_idx (λ s, mk_slot (entry s) (stack_base s) (stack_top s) saved_sp).

(** The end of [goc_shutdown] (B.4). *)
Fixpoint free_chunks (n : nat) (c : Z) : prog roots () :=
  match n with
  | O => mret tt
  | S n => put_chunk c None;; free_chunks n (c + 1)
  end.
Fixpoint clear_words (n : nat) (w : Z) : prog roots () :=
  match n with O => mret tt | S n => put_word w 0;; clear_words n (w + 1) end.
Definition fiber_roots_shutdown : prog roots () :=
  nc ← get_num;
  free_chunks (Z.to_nat nc) 0;; clear_words (Z.to_nat (nc * FIBER_ROOT_CHUNK_WORDS)) 0;; put_num 0.

End Roots.
