(* ===== verification/RootsProps.v ===== *)
(** Properties of the fiber roots: at every moment the collector is told of exactly the
    stacks that are registered, in the order of their slots; a registration that nobody
    disturbs takes the lowest free slot, or fails when all slots are taken. *)

From S2P Require Import Prelude Roots.
Import Roots.

Module RootsProps.

(** ** Bits *)

Definition bits (w : Z) : list Z := filter (λ i, Z.testbit w i = true) (seqZ 0 64).

Lemma filter_seqZ_head (P : Z → Prop) `{∀ x, Decision (P x)} (n : nat) : ∀ a c rest,
  filter P (seqZ a (Z.of_nat n)) = c :: rest →
  P c ∧ a <= c < a + Z.of_nat n ∧ (∀ j, a <= j < c → ¬ P j) ∧ rest = filter P (seqZ (c + 1) (a + Z.of_nat n - c - 1)).
Proof.
  induction n as [|n IH]; intros a c rest; [done|]. rewrite seqZ_cons by lia. rewrite filter_cons. case_decide as Ha.
  - intros [= <- <-]. split_and!; [done|lia|lia|lia|]. f_equal. f_equal; lia.
  - replace (Z.pred (Z.of_nat (S n))) with (Z.of_nat n) by lia. intros Hf. destruct (IH _ _ _ Hf) as (HP & Hc & Hlt & ->).
    split_and!; [done|lia|lia| |f_equal; f_equal; lia].
    intros j Hj. destruct (decide (j = a)) as [->|]; [done|]. apply Hlt. lia.
Qed.

Lemma filter_agree {A} (P R : A → Prop) `{∀ x, Decision (P x)} `{∀ x, Decision (R x)} (l : list A) :
  (∀ x, x ∈ l → P x ↔ R x) → filter P l = filter R l.
Proof.
  induction l as [|x l IH]; intros Hx; [done|]. rewrite !filter_cons. rewrite IH by (intros y Hy; apply Hx; by right).
  specialize (Hx x ltac:(by left)). repeat case_decide; tauto.
Qed.

Lemma filter_seqZ_none (P : Z → Prop) `{∀ x, Decision (P x)} a n : (∀ j, a <= j < a + n → ¬ P j) → filter P (seqZ a n) = [].
Proof.
  intros Hn. rewrite (filter_agree P (λ _, False)).
  - induction (seqZ a n) as [|x l IH]; [done|]. by rewrite filter_cons_False by tauto.
  - intros x Hx%elem_of_seqZ. split; [|done]. apply Hn. lia.
Qed.

(** Clearing the lowest bit. *)
Lemma land_pred w c j :
  0 < w → 0 <= c → Z.testbit w c = true → (∀ i, 0 <= i < c → Z.testbit w i = false) → 0 <= j →
  Z.testbit (Z.land w (w - 1)) j = Z.testbit w j && negb (j =? c).
Proof.
  intros Hw Hc Hb Hlow Hj. rewrite Z.land_spec.
  destruct (Z.lt_trichotomy j c) as [Hjc|[->|Hjc]].
  - rewrite Hlow by lia. done.
  - rewrite Hb, Z.eqb_refl. cbn [negb andb].
    assert (w mod 2 ^ c = 0) as Hmod.
    { apply Z.bits_inj'. intros i Hi. rewrite Z.bits_0. destruct (Z.lt_ge_cases i c).
      - rewrite Z.mod_pow2_bits_low by lia. apply Hlow. lia.
      - apply Z.mod_pow2_bits_high. lia. }
    rewrite Z.testbit_odd, Z.shiftr_div_pow2 in Hb |- * by lia.
    assert (0 < 2 ^ c) by (apply Z.pow_pos_nonneg; lia).
    assert ((w - 1) / 2 ^ c = w / 2 ^ c - 1) as ->.
    { symmetry. apply (Z.div_unique_pos _ _ _ (2 ^ c - 1)); [lia|]. pose proof (Z.div_mod w (2 ^ c)). lia. }
    rewrite Z.sub_1_r, Z.odd_pred, <- Z.negb_odd, Hb. done.
  - rewrite (proj2 (Z.eqb_neq j c)) by lia. rewrite andb_true_r. destruct (Z.testbit w j) eqn:Hwj; [|done]. cbn [andb].
    assert (w mod 2 ^ j ≠ 0) as Hmod.
    { intros Hm. rewrite <- (Z.mod_pow2_bits_low w j c), Hm, Z.bits_0 in Hb by lia. done. }
    rewrite Z.testbit_odd, Z.shiftr_div_pow2 in Hwj |- * by lia.
    assert (0 < 2 ^ j) by (apply Z.pow_pos_nonneg; lia). rewrite <- Hwj. f_equal. symmetry.
    apply (Z.div_unique_pos _ _ _ (w mod 2 ^ j - 1)).
    + pose proof (Z.mod_pos_bound w (2 ^ j)). lia.
    + pose proof (Z.div_mod w (2 ^ j)). lia.
Qed.

Lemma bits_nonempty w : 0 < w < 18446744073709551616 → bits w ≠ [].
Proof.
  intros Hw He. assert (0 <= Z.log2 w < 64) as Hl.
  { split; [apply Z.log2_nonneg|]. apply Z.log2_lt_pow2; [lia|]. simpl. lia. }
  assert (Z.log2 w ∈ bits w) as Hin.
  { unfold bits. apply list_elem_of_filter. split; [apply Z.bit_log2; lia|]. apply elem_of_seqZ. lia. }
  rewrite He in Hin. by apply elem_of_nil in Hin.
Qed.

Lemma bits_step w : 0 < w < 18446744073709551616 →
  bits w = ctzll w :: bits (Z.land w (w - 1)) ∧ 0 <= Z.land w (w - 1) < 18446744073709551616.
Proof.
  intros Hw. destruct (bits w) as [|c rest] eqn:Hb; [by destruct (bits_nonempty w Hw)|].
  assert (ctzll w = c) as -> by (unfold ctzll; fold (bits w); by rewrite Hb).
  destruct (filter_seqZ_head _ 64 0 c rest Hb) as (HP & Hc & Hlow & ->). simpl in HP.
  assert (∀ j, 0 <= j → Z.testbit (Z.land w (w - 1)) j = Z.testbit w j && negb (j =? c)) as Hland.
  { intros j Hj. apply land_pred; [lia|lia|done| |done]. intros i Hi. specialize (Hlow i Hi). by destruct (Z.testbit w i). }
  split.
  - f_equal. unfold bits.
    assert (seqZ 0 64 = seqZ 0 c ++ seqZ c 1 ++ seqZ (c + 1) (63 - c)) as ->.
    { replace 64 with (c + (1 + (63 - c))) by lia. rewrite !seqZ_app by lia. done. }
    rewrite !filter_app, (filter_seqZ_none _ 0 c), (filter_seqZ_none _ c 1).
    + replace (0 + Z.of_nat 64 - c - 1) with (63 - c) by lia.
      apply filter_agree. intros j Hj%elem_of_seqZ. rewrite Hland by lia. rewrite (proj2 (Z.eqb_neq j c)) by lia. by rewrite andb_true_r.
    + intros j Hj. rewrite Hland by lia. rewrite (proj2 (Z.eqb_eq j c)) by lia. by rewrite andb_false_r.
    + intros j Hj. rewrite Hland by lia. specialize (Hlow j ltac:(lia)). by destruct (Z.testbit w j).
  - assert (0 <= Z.land w (w - 1)) by (apply Z.land_nonneg; lia). split; [done|].
    destruct (decide (Z.land w (w - 1) = 0)) as [->|Hne]; [lia|]. change 18446744073709551616 with (2 ^ 64).
    apply Z.log2_lt_pow2; [lia|]. eapply Z.le_lt_trans; [apply Z.log2_land; lia|].
    eapply Z.le_lt_trans; [apply Z.le_min_l|]. apply Z.log2_lt_pow2; [lia|]. simpl. lia.
Qed.

(** ** The registered fibers *)

Definition bit_set (r : roots) (h : Z) : bool := Z.testbit (default 0 (zget (fiber_root_bitmap r) (h / 64))) (h mod 64).
Definition slot_at (r : roots) (h : Z) : option fiber_root_slot :=
  match zget (fiber_root_chunks r) (h / 1024) ≫= id with Some ch => zget ch (h mod 1024) | None => None end.

(** The slot describes the fiber. *)
Definition describes (s : fiber_root_slot) (f : fiber) : Prop :=
  entry s = f_entry f ∧ stack_base s = f_base f ∧ stack_top s = f_top f.

(** [live] are the registered fibers by their handle: those whose bit is set. *)
Record roots_ok (r : roots) (live : gmap Z fiber) : Prop := {
  ro_bm : Z.of_nat (length (fiber_root_bitmap r)) = 4096;
  ro_words : Forall (λ w, 0 <= w < 18446744073709551616) (fiber_root_bitmap r);
  ro_ch : Z.of_nat (length (fiber_root_chunks r)) = 256;
  ro_nc : 0 <= fiber_root_num_chunks r <= 256;
  ro_alloc : ∀ c, 0 <= c < fiber_root_num_chunks r →
    ∃ ch, zget (fiber_root_chunks r) c = Some (Some ch) ∧ Z.of_nat (length ch) = 1024;
  ro_bits : ∀ h, 0 <= h < 262144 → bit_set r h = true ↔ is_Some (live !! h);
  ro_live : ∀ h f, live !! h = Some f → 0 <= h < fiber_root_num_chunks r * 1024 ∧ ∃ s, slot_at r h = Some s ∧ describes s f
}.

(** What the collector has to be told, by definition: the entry and the stack of every
    registered fiber, in the order of the slots. *)
Definition push_of (f : fiber) : list push := [PushEntry (f_entry f); PushStack (f_base f) (f_top f)].
Definition pushes (live : gmap Z fiber) (hs : list Z) : list push := hs ≫= λ h, from_option push_of [] (live !! h).

Lemma get_slot_at r c o : 0 <= o < 1024 → 0 <= c → get_slot c o r = match slot_at r (c * 1024 + o) with Some s => ok (s, r) | None => ub end.
Proof.
  intros Ho Hc. unfold get_slot, slot_at. replace ((c * 1024 + o) / 1024) with c by dlia.
  replace ((c * 1024 + o) mod 1024) with o by dlia. destruct (zget _ c ≫= id); [|done]. by destruct (zget _ o).
Qed.

Lemma word_loop_ok r live c w : roots_ok r live → 0 <= c < fiber_root_num_chunks r → 0 <= w < 16 →
  ∀ fuel bword, 0 <= bword < 18446744073709551616 → (length (bits bword) <= fuel)%nat →
  (∀ i, i ∈ bits bword → is_Some (live !! (c * 1024 + w * 64 + i))) →
  word_loop fuel c w bword r = ok (pushes live ((λ i, c * 1024 + w * 64 + i) <$> bits bword), r).
Proof.
  intros Hok Hc Hw. induction fuel as [|fuel IH]; intros bword Hb Hlen Hset; cbn [word_loop].
  - destruct (Z.eqb_spec bword 0) as [->|Hne]; [done|]. destruct (bits bword) eqn:E; [|simpl in Hlen; lia].
    destruct (bits_nonempty bword); [lia|done].
  - destruct (Z.eqb_spec bword 0) as [->|Hne]; [done|]. destruct (bits_step bword) as [Hbits Hland]; [lia|].
    rewrite Hbits in Hlen, Hset |- *. simpl in Hlen.
    assert (0 <= ctzll bword < 64) as Hctz.
    { assert (ctzll bword ∈ bits bword) as Hin by (rewrite Hbits; by left).
      unfold bits in Hin. apply list_elem_of_filter in Hin as [_ Hin%elem_of_seqZ]. lia. }
    destruct (Hset (ctzll bword)) as [f Hf]; [by left|]. destruct (ro_live _ _ Hok _ _ Hf) as (_ & sl & Hsl & He & Hba & Hto).
    erewrite prog_bind_ok.
    2: { rewrite get_slot_at by lia. rewrite Z.add_assoc, Hsl. done. }
    erewrite prog_bind_ok; [|apply IH; [done|lia|intros i Hi; apply Hset; by right]].
    unfold pushes. cbn [fmap list_fmap mbind list_bind]. rewrite Hf. simpl. unfold push_of. by rewrite He, Hba, Hto.
Qed.

(** Handles whose bit is not set push nothing. *)
Lemma pushes_filter live (P : Z → Prop) `{∀ x, Decision (P x)} hs :
  (∀ h, h ∈ hs → is_Some (live !! h) → P h) → pushes live (filter P hs) = pushes live hs.
Proof.
  induction hs as [|h hs IH]; intros Hh; [done|]. rewrite filter_cons. unfold pushes in *. case_decide as HP; cbn [mbind list_bind].
  - rewrite IH; [done|]. intros x Hx. apply Hh. by right.
  - rewrite IH by (intros x Hx; apply Hh; by right). destruct (live !! h) as [f|] eqn:E; [|done]. destruct HP. apply Hh; [by left|done].
Qed.

Lemma pushes_fmap_bits live b (w : Z) :
  (∀ i, 0 <= i < 64 → is_Some (live !! (b + i)) → Z.testbit w i = true) →
  pushes live ((λ i, b + i) <$> bits w) = pushes live (seqZ b 64).
Proof.
  intros Hb. replace (seqZ b 64) with ((λ i, b + i) <$> seqZ 0 64).
  2: { etrans; [apply fmap_add_seqZ|]. f_equal. lia. }
  rewrite <- (pushes_filter live (λ h, Z.testbit w (h - b) = true) ((λ i, b + i) <$> seqZ 0 64)).
  - f_equal. unfold bits. induction (seqZ 0 64) as [|i l IH]; [done|]. rewrite fmap_cons, !filter_cons.
    replace (b + i - b) with i by lia. case_decide; [rewrite fmap_cons; f_equal; exact IH|exact IH].
  - intros h (i & -> & Hi%elem_of_seqZ)%list_elem_of_fmap Hs. replace (b + i - b) with i by lia. apply Hb; [lia|done].
Qed.

Lemma words_loop_ok r live c : roots_ok r live → 0 <= c < fiber_root_num_chunks r → ∀ n w,
  0 <= w → w + Z.of_nat n <= 16 →
  words_loop n c w r = ok (pushes live (seqZ (c * 1024 + w * 64) (64 * Z.of_nat n)), r).
Proof.
  intros Hok Hc. pose proof (ro_nc _ _ Hok). induction n as [|n IH]; intros w Hw Hn; [done|]. cbn [words_loop].
  destruct (zget_is_Some (fiber_root_bitmap r) (c * FIBER_ROOT_CHUNK_WORDS + w)) as [bw Hbw].
  { rewrite (ro_bm _ _ Hok). unfold FIBER_ROOT_CHUNK_WORDS. lia. }
  assert (∀ i, 0 <= i < 64 → bit_set r (c * 1024 + w * 64 + i) = Z.testbit bw i) as Hbit.
  { intros i Hi. unfold bit_set. replace ((c * 1024 + w * 64 + i) / 64) with (c * FIBER_ROOT_CHUNK_WORDS + w) by (unfold FIBER_ROOT_CHUNK_WORDS; dlia).
    rewrite Hbw. replace ((c * 1024 + w * 64 + i) mod 64) with i by dlia. done. }
  erewrite prog_bind_ok. 2: { unfold get_word. by rewrite Hbw. }
  erewrite prog_bind_ok.
  2: { apply (word_loop_ok r live c w Hok Hc ltac:(lia)).
       - pose proof (ro_words _ _ Hok) as Hf. apply zget_Some in Hbw as [_ Hl]. by eapply Forall_lookup_1 in Hf; [|exact Hl].
       - unfold bits. etrans; [apply length_filter|]. by rewrite length_seqZ.
       - intros i Hi. unfold bits in Hi. apply list_elem_of_filter in Hi as [Ht Hi%elem_of_seqZ].
         apply (ro_bits _ _ Hok); [lia|]. rewrite Hbit by lia. done. }
  erewrite prog_bind_ok by (apply IH; lia). rewrite pushes_fmap_bits.
  - unfold mret, prog_ret. do 2 f_equal. replace (64 * Z.of_nat (S n)) with (64 + 64 * Z.of_nat n) by lia.
    rewrite seqZ_app by lia. unfold pushes. rewrite bind_app. do 3 f_equal. lia.
  - intros i Hi Hs. rewrite <- Hbit by lia. apply (ro_bits _ _ Hok); [lia|done].
Qed.

Lemma chunks_loop_ok r live : roots_ok r live → ∀ n c,
  0 <= c → c + Z.of_nat n <= fiber_root_num_chunks r →
  chunks_loop n c r = ok (pushes live (seqZ (c * 1024) (1024 * Z.of_nat n)), r).
Proof.
  intros Hok. induction n as [|n IH]; intros c Hc Hn; [done|]. cbn [chunks_loop].
  erewrite prog_bind_ok by (apply (words_loop_ok r live c Hok); unfold FIBER_ROOT_CHUNK_WORDS; lia).
  erewrite prog_bind_ok by (apply IH; lia). unfold mret, prog_ret. do 2 f_equal. unfold FIBER_ROOT_CHUNK_WORDS.
  replace (1024 * Z.of_nat (S n)) with (1024 + 1024 * Z.of_nat n) by lia. rewrite (seqZ_app _ 1024) by lia.
  unfold pushes. rewrite bind_app. f_equal; do 2 f_equal; lia.
Qed.

(** ** Single writes *)

Lemma word_range w : 0 <= w → (∀ j, 64 <= j → Z.testbit w j = false) → 0 <= w < 18446744073709551616.
Proof.
  intros Hw Hb. split; [done|]. destruct (decide (w = 0)) as [->|Hne]; [lia|]. change 18446744073709551616 with (2 ^ 64).
  apply Z.log2_lt_pow2; [lia|]. destruct (Z.lt_ge_cases (Z.log2 w) 64) as [|Hge]; [done|].
  specialize (Hb _ Hge). rewrite Z.bit_log2 in Hb by lia. done.
Qed.

Lemma word_high w j : 0 <= w < 18446744073709551616 → 64 <= j → Z.testbit w j = false.
Proof.
  intros Hw Hj. destruct (decide (w = 0)) as [->|Hne]; [apply Z.bits_0|]. apply Z.bits_above_log2; [lia|].
  eapply Z.lt_le_trans; [|exact Hj]. apply Z.log2_lt_pow2; [lia|]. simpl. lia.
Qed.

Lemma shiftl_bit i j : 0 <= i → 0 <= j → Z.testbit (Z.shiftl 1 i) j = (j =? i).
Proof.
  intros Hi Hj. rewrite Z.shiftl_spec by lia. destruct (Z.eqb_spec j i) as [->|Hne].
  - by rewrite Z.sub_diag.
  - destruct (Z.lt_ge_cases j i).
    + rewrite Z.testbit_neg_r by lia. done.
    + apply (Z.bits_above_log2 1); simpl; lia.
Qed.

Lemma not64_bit w j : 0 <= j < 64 → Z.testbit (not64 w) j = negb (Z.testbit w j).
Proof.
  intros Hj. unfold not64. rewrite Z.lxor_spec. change UINT64_MAX with (Z.ones 64).
  rewrite Z.ones_spec_low by lia. by destruct (Z.testbit w j).
Qed.

(** The bit of [h] in the word of [i]. *)
Lemma bit_put r i x l h :
  zset (fiber_root_bitmap r) (i / 64) x = Some l → 0 <= i → 0 <= h →
  bit_set (set_bitmap l r) h = if h / 64 =? i / 64 then Z.testbit x (h mod 64) else bit_set r h.
Proof.
  intros [Hr ->]%zset_Some Hi Hh. unfold bit_set. simpl. destruct (Z.eqb_spec (h / 64) (i / 64)) as [->|Hne].
  - unfold zget. rewrite (proj2 (in_range_spec _ _)) by (rewrite length_insert; lia).
    rewrite list_lookup_insert_eq by lia. done.
  - f_equal. f_equal. assert (0 <= h / 64) by (apply Z.div_pos; lia).
    unfold zget, in_range. rewrite length_insert. rewrite list_lookup_insert_ne by lia. done.
Qed.

Lemma same_slot h i : 0 <= h → 0 <= i → (h / 64 =? i / 64) && (h mod 64 =? i mod 64) = (h =? i).
Proof.
  intros Hh Hi. destruct (Z.eqb_spec h i) as [->|Hne]; [by rewrite !Z.eqb_refl|].
  apply andb_false_iff. destruct (Z.eqb_spec (h / 64) (i / 64)); [right|by left]. apply Z.eqb_neq. dlia.
Qed.

Lemma get_word_ok r live i : roots_ok r live → 0 <= i < 262144 →
  ∃ bw, get_word (i / 64) r = ok (bw, r) ∧ zget (fiber_root_bitmap r) (i / 64) = Some bw ∧ 0 <= bw < 18446744073709551616 ∧
    ∀ h, 0 <= h → h / 64 = i / 64 → Z.testbit bw (h mod 64) = bit_set r h.
Proof.
  intros Hok Hi. destruct (zget_is_Some (fiber_root_bitmap r) (i / 64)) as [bw Hbw]; [rewrite (ro_bm _ _ Hok); dlia|].
  exists bw. unfold get_word. rewrite Hbw. split_and!; try done.
  - pose proof (ro_words _ _ Hok) as Hf. apply zget_Some in Hbw as [_ Hl]. by eapply Forall_lookup_1 in Hf as [? _]; [|exact Hl].
  - pose proof (ro_words _ _ Hok) as Hf. apply zget_Some in Hbw as [_ Hl]. by eapply Forall_lookup_1 in Hf as [_ ?]; [|exact Hl].
  - intros h Hh E. unfold bit_set. by rewrite E, Hbw.
Qed.

Lemma put_word_ok r live live' i x :
  roots_ok r live → 0 <= i < 262144 → 0 <= x < 18446744073709551616 →
  (∀ h, 0 <= h < 262144 → (if h / 64 =? i / 64 then Z.testbit x (h mod 64) else bit_set r h) = true ↔ is_Some (live' !! h)) →
  (∀ h f, live' !! h = Some f → 0 <= h < fiber_root_num_chunks r * 1024 ∧ ∃ s, slot_at r h = Some s ∧ describes s f) →
  ∃ l, zset (fiber_root_bitmap r) (i / 64) x = Some l ∧ put_word (i / 64) x r = ok (tt, set_bitmap l r) ∧ roots_ok (set_bitmap l r) live'.
Proof.
  intros Hok Hi Hx Hbits Hlive. assert (0 <= i / 64 < Z.of_nat (length (fiber_root_bitmap r))) as Hr by (rewrite (ro_bm _ _ Hok); dlia).
  exists (<[Z.to_nat (i / 64) := x]> (fiber_root_bitmap r)). split; [by apply zset_in|].
  unfold put_word. rewrite zset_in by done. split; [done|]. pose proof (zset_in _ _ x Hr) as Hz.
  destruct Hok as [Hbm Hw Hch Hnc Hal Hb Hl]. split; try done.
  - simpl. by rewrite length_insert.
  - simpl. by apply Forall_insert.
  - intros h Hh. rewrite (bit_put r i x _ h Hz) by lia. by apply Hbits.
Qed.

Lemma publish_ok r live i f s :
  roots_ok r live → 0 <= i < fiber_root_num_chunks r * 1024 → slot_at r i = Some s → describes s f →
  ∃ r', (bword ← get_word (i / 64); put_word (i / 64) (Z.lor bword (Z.shiftl 1 (i mod 64)));; mret (RDone i)) r = ok (RDone i, r') ∧
    roots_ok r' (<[i := f]> live) ∧ fiber_root_num_chunks r' = fiber_root_num_chunks r.
Proof.
  intros Hok Hi Hs Hd. pose proof (ro_nc _ _ Hok). destruct (get_word_ok r live i Hok) as (bw & Hg & Hz & Hbw & Hbit); [lia|].
  erewrite prog_bind_ok by exact Hg.
  destruct (put_word_ok r live (<[i := f]> live) i (Z.lor bw (Z.shiftl 1 (i mod 64)))) as (l & _ & Hp & Hok'); [done|lia| | | |].
  - apply word_range; [apply Z.lor_nonneg; split; [lia|apply Z.shiftl_nonneg; lia]|].
    intros j Hj. rewrite Z.lor_spec, (word_high bw), shiftl_bit by dlia. apply Z.eqb_neq. dlia.
  - intros h Hh. rewrite Z.lor_spec, shiftl_bit by dlia.
    assert (bit_set r h || (h =? i) = true ↔ is_Some (<[i := f]> live !! h)) as <-.
    { rewrite orb_true_iff, (ro_bits _ _ Hok), Z.eqb_eq by lia. destruct (decide (i = h)) as [->|Hne].
      - rewrite lookup_insert_eq. split; [eauto|by right].
      - rewrite lookup_insert_ne by done. naive_solver. }
    rewrite <- (same_slot h i) by lia. destruct (Z.eqb_spec (h / 64) (i / 64)) as [E|]; cbn [andb orb].
    + rewrite (Hbit h) by lia. done.
    + by rewrite orb_false_r.
  - intros h g. destruct (decide (i = h)) as [->|Hne].
    + rewrite lookup_insert_eq. intros [= <-]. eauto.
    + rewrite lookup_insert_ne by done. apply (ro_live _ _ Hok).
  - exists (set_bitmap l r). split; [by erewrite prog_bind_ok by exact Hp|done].
Qed.

Lemma unregister_ok r live i :
  roots_ok r live → 0 <= i < fiber_root_num_chunks r * 1024 →
  ∃ r', goc_fiber_root_unregister i r = ok (tt, r') ∧ roots_ok r' (delete i live) ∧
    fiber_root_num_chunks r' = fiber_root_num_chunks r ∧ fiber_root_chunks r' = fiber_root_chunks r.
Proof.
  intros Hok Hi. pose proof (ro_nc _ _ Hok). destruct (get_word_ok r live i Hok) as (bw & Hg & Hz & Hbw & Hbit); [lia|].
  unfold goc_fiber_root_unregister. erewrite prog_bind_ok by exact Hg.
  destruct (put_word_ok r live (delete i live) i (Z.land bw (not64 (Z.shiftl 1 (i mod 64))))) as (l & _ & Hp & Hok'); [done|lia| | | |].
  - apply word_range; [apply Z.land_nonneg; lia|]. intros j Hj. rewrite Z.land_spec, (word_high bw) by lia. done.
  - intros h Hh. rewrite Z.land_spec, not64_bit, shiftl_bit by dlia.
    assert (bit_set r h && negb (h =? i) = true ↔ is_Some (delete i live !! h)) as <-.
    { rewrite andb_true_iff, (ro_bits _ _ Hok), negb_true_iff, Z.eqb_neq by lia. destruct (decide (i = h)) as [->|Hne].
      - rewrite lookup_delete_eq. split; [tauto|by intros [? ?]].
      - rewrite lookup_delete_ne by done. naive_solver. }
    rewrite <- (same_slot h i) by lia. destruct (Z.eqb_spec (h / 64) (i / 64)) as [E|]; cbn [andb orb negb].
    + rewrite (Hbit h) by lia. done.
    + by rewrite andb_true_r.
  - intros h g Hg'%lookup_delete_Some. destruct Hg' as [_ Hg']. by apply (ro_live _ _ Hok).
  - exists (set_bitmap l r). done.
Qed.

Lemma slot_exists r live i : roots_ok r live → 0 <= i < fiber_root_num_chunks r * 1024 → ∃ s, slot_at r i = Some s.
Proof.
  intros Hok Hi. destruct (ro_alloc _ _ Hok (i / 1024)) as (ch & Hch & Hlen); [dlia|].
  unfold slot_at. rewrite Hch. simpl. apply zget_is_Some. rewrite Hlen. dlia.
Qed.

Lemma upd_slot_ok r live i g s :
  roots_ok r live → 0 <= i < fiber_root_num_chunks r * 1024 → slot_at r i = Some s →
  (∀ f, live !! i = Some f → describes s f → describes (g s) f) →
  ∃ r', upd_slot i g r = ok (tt, r') ∧ roots_ok r' live ∧ slot_at r' i = Some (g s) ∧
    fiber_root_num_chunks r' = fiber_root_num_chunks r ∧ (∀ j, 0 <= j → j ≠ i → slot_at r' j = slot_at r j) ∧
    (∀ c, fiber_root_num_chunks r <= c → zget (fiber_root_chunks r') c = zget (fiber_root_chunks r) c).
Proof.
  intros Hok Hi Hs Hg. destruct (ro_alloc _ _ Hok (i / 1024)) as (ch & Hch & Hlen); [dlia|].
  pose proof (ro_nc _ _ Hok). assert (0 <= i mod 1024 < Z.of_nat (length ch)) as Hm by (rewrite Hlen; dlia).
  assert (0 <= i / 1024 < Z.of_nat (length (fiber_root_chunks r))) as Hc by (rewrite (ro_ch _ _ Hok); dlia).
  set (ch' := <[Z.to_nat (i mod 1024) := g s]> ch). set (l := <[Z.to_nat (i / 1024) := Some ch']> (fiber_root_chunks r)).
  assert (upd_slot i g r = ok (tt, set_chunks l r)) as Hrun.
  { unfold upd_slot, FIBER_ROOT_CHUNK_SIZE. erewrite prog_bind_ok.
    2: { rewrite get_slot_at by dlia. replace (i / 1024 * 1024 + i mod 1024) with i by dlia. by rewrite Hs. }
    unfold put_slot. rewrite Hch. simpl. rewrite zset_in by done. by rewrite zset_in by done. }
  assert (∀ j, 0 <= j → slot_at (set_chunks l r) j = if j =? i then Some (g s) else slot_at r j) as Hslot.
  { intros j Hj. assert (0 <= j / 1024) by (apply Z.div_pos; lia). unfold slot_at. simpl.
    destruct (Z.eqb_spec (j / 1024) (i / 1024)) as [E|E].
    - assert (zget l (j / 1024) = Some (Some ch')) as ->.
      { rewrite E. apply zget_Some. split; [lia|]. unfold l. apply list_lookup_insert_eq. lia. }
      rewrite E, Hch. simpl. destruct (Z.eqb_spec j i) as [->|Hne].
      + apply zget_Some. split; [lia|]. unfold ch'. apply list_lookup_insert_eq. lia.
      + unfold zget, in_range, ch'. rewrite length_insert. rewrite list_lookup_insert_ne by dlia. done.
    - assert (zget l (j / 1024) = zget (fiber_root_chunks r) (j / 1024)) as ->.
      { unfold zget, in_range, l. rewrite length_insert. by rewrite list_lookup_insert_ne by lia. }
      destruct (Z.eqb_spec j i) as [->|]; [done|done]. }
  exists (set_chunks l r). split; [done|]. split; [|split_and!; [|done| |]].
  - destruct Hok as [Hbm Hw Hl Hnc Hal Hb Hlv]. split; try done.
    + simpl. unfold l. by rewrite length_insert.
    + intros c Hc'. simpl. destruct (decide (c = i / 1024)) as [->|Hne].
      * exists ch'. split; [|unfold ch'; by rewrite length_insert]. apply zget_Some. split; [lia|]. apply list_lookup_insert_eq. lia.
      * destruct (Hal c Hc') as (x & Hx & Hxl). exists x. split; [|done]. unfold zget, in_range, l in *. rewrite length_insert.
        rewrite list_lookup_insert_ne by lia. done.
    + intros h f Hf. destruct (Hlv h f Hf) as (Hh & x & Hx & Hdx). split; [done|]. rewrite Hslot by lia.
      destruct (Z.eqb_spec h i) as [->|]; [|eauto]. exists (g s). split; [done|]. apply Hg; [done|]. rewrite Hs in Hx. by injection Hx as ->.
  - rewrite Hslot by lia. by rewrite Z.eqb_refl.
  - intros j Hj Hne. rewrite Hslot by done. by rewrite (proj2 (Z.eqb_neq _ _) Hne).
  - intros c Hge. simpl. unfold zget, in_range, l. rewrite length_insert. assert (i / 1024 < fiber_root_num_chunks r) by dlia.
    by rewrite list_lookup_insert_ne by lia.
Qed.

(** ** Registering, unregistering and collecting interleave *)

(** The registered fibers, and the thread that holds the mutex with what it registers. *)
Record system := mk_sys { rt : roots; live : gmap Z fiber; registrar : option (fiber * reg_pc) }.

Inductive event :=
| EBegin (f : fiber)            (* a thread calls goc_fiber_root_register and gets the mutex *)
| EStep                         (* it goes on *)
| EUnregister (h : Z)           (* a worker calls goc_fiber_root_unregister *)
| EUpdate (h sp : Z).           (* or goc_fiber_root_update_sp *)

Definition ev_step (e : event) (s : system) : res system :=
  match e with
  | EBegin f =>
      match registrar s with
      | None => ok (mk_sys (rt s) (live s) (Some (f, start_register (rt s))))
      | Some _ => ok s
      end
  | EStep =>
      match registrar s with
      | None => ok s
      | Some (f, pc) =>
          match register_step f pc (rt s) with
          | ok (RDone i, r) => ok (mk_sys r (<[i := f]> (live s)) None)
          | ok (pc, r) => ok (mk_sys r (live s) (Some (f, pc)))
          | abort m => abort m | ub => ub | hang => hang
          end
      end
  | EUnregister h =>
      '(_, r) ← goc_fiber_root_unregister h (rt s); ok (mk_sys r (delete h (live s)) (registrar s))
  | EUpdate h sp =>
      '(_, r) ← goc_fiber_root_update_sp h sp (rt s); ok (mk_sys r (live s) (registrar s))
  end.

(** A worker gives the handle of a fiber that is registered. *)
Definition may (s : system) (e : event) : Prop :=
  match e with EUnregister h | EUpdate h _ => is_Some (live s !! h) | _ => True end.

Inductive reach (prev : bool) : system → Prop :=
| reach_init : reach prev (mk_sys (goc_fiber_roots_init prev) ∅ None)
| reach_step s s' e : reach prev s → may s e → ev_step e s = ok s' → reach prev s'.

(** Where the registering thread stands. *)
Definition target (r : roots) (lv : gmap Z fiber) (i : Z) : Prop := 0 <= i < fiber_root_num_chunks r * 1024 ∧ lv !! i = None.
Definition pc_ok (r : roots) (lv : gmap Z fiber) (f : fiber) (pc : reg_pc) : Prop :=
  match pc with
  | RScan nc w => nc = fiber_root_num_chunks r ∧ 0 <= w <= 16 * nc
  | RGrow c => c = fiber_root_num_chunks r
  | RCount c => c = fiber_root_num_chunks r ∧ c < 256 ∧ ∃ ch, zget (fiber_root_chunks r) c = Some (Some ch) ∧ Z.of_nat (length ch) = 1024
  | REntry i => target r lv i
  | RBase i => target r lv i ∧ ∃ s, slot_at r i = Some s ∧ entry s = f_entry f
  | RTop i => target r lv i ∧ ∃ s, slot_at r i = Some s ∧ entry s = f_entry f ∧ stack_base s = f_base f
  | RSp i | RPublish i => target r lv i ∧ ∃ s, slot_at r i = Some s ∧ describes s f
  | RDone _ => False
  end.

Record sys_ok (s : system) : Prop := {
  so_roots : roots_ok (rt s) (live s);
  so_reg : match registrar s with Some (f, pc) => pc_ok (rt s) (live s) f pc | None => True end
}.

Lemma roots_init_ok prev : sys_ok (mk_sys (goc_fiber_roots_init prev) ∅ None).
Proof.
  split; [|done]. unfold goc_fiber_roots_init.
  split; cbn [rt live fiber_root_bitmap fiber_root_chunks fiber_root_num_chunks].
  - by rewrite length_replicate, Z2Nat.id.
  - apply Forall_replicate. lia.
  - by rewrite length_replicate, Z2Nat.id.
  - lia.
  - intros c Hc. lia.
  - intros h Hh. rewrite lookup_empty. split; [|by intros [? ?]]. unfold bit_set. cbn [fiber_root_bitmap].
    destruct (zget _ (h / 64)) as [x|] eqn:E; cbn [default from_option].
    + apply zget_Some in E as [_ [-> _]%lookup_replicate]. by rewrite Z.bits_0.
    + unfold id. by rewrite Z.bits_0.
  - intros h f Hf. by rewrite lookup_empty in Hf.
Qed.

Lemma ctzll_spec w : 0 < w < 18446744073709551616 →
  0 <= ctzll w < 64 ∧ Z.testbit w (ctzll w) = true ∧ ∀ j, 0 <= j < ctzll w → Z.testbit w j = false.
Proof.
  intros Hw. destruct (bits w) as [|c rest] eqn:Hb; [by destruct (bits_nonempty w Hw)|].
  assert (ctzll w = c) as -> by (unfold ctzll; fold (bits w); by rewrite Hb).
  destruct (filter_seqZ_head _ 64 0 c rest Hb) as (HP & Hc & Hlow & _). split_and!; try lia; [done|].
  intros j Hj. specialize (Hlow j Hj). by destruct (Z.testbit w j).
Qed.

(** A word that is not full has a lowest free bit. *)
Lemma free_bit r lv w : roots_ok r lv → 0 <= w < 16 * fiber_root_num_chunks r →
  ∃ bw, get_word w r = ok (bw, r) ∧
    if bw =? UINT64_MAX then ∀ j, 0 <= j < 64 → is_Some (lv !! (w * 64 + j))
    else let i := w * 64 + ctzll (not64 bw) in
         target r lv i ∧ ∀ j, w * 64 <= j < i → is_Some (lv !! j).
Proof.
  intros Hok Hw. pose proof (ro_nc _ _ Hok). destruct (get_word_ok r lv (w * 64) Hok) as (bw & Hg & _ & Hbw & Hbit); [lia|].
  rewrite Z.div_mul in Hg by lia. exists bw. split; [done|].
  assert (∀ j, 0 <= j < 64 → Z.testbit bw j = bit_set r (w * 64 + j)) as Hb.
  { intros j Hj. rewrite <- (Hbit (w * 64 + j)) by dlia. f_equal. dlia. }
  destruct (Z.eqb_spec bw UINT64_MAX) as [->|Hne].
  - intros j Hj. apply (ro_bits _ _ Hok); [lia|]. rewrite <- Hb by done. change UINT64_MAX with (Z.ones 64). by apply Z.ones_spec_low.
  - assert (0 <= not64 bw < 18446744073709551616) as Hn.
    { apply word_range.
      - unfold not64. apply Z.lxor_nonneg. unfold UINT64_MAX. lia.
      - intros j Hj. unfold not64. rewrite Z.lxor_spec, (word_high bw), (word_high UINT64_MAX) by (unfold UINT64_MAX; lia). done. }
    assert (not64 bw ≠ 0) as Hn0 by (intros E; by apply Hne, Z.lxor_eq).
    destruct (ctzll_spec (not64 bw)) as (Hc & Ht & Hlow); [lia|]. rewrite not64_bit, Hb in Ht by lia. split.
    + split; [lia|]. destruct (lv !! _) eqn:E; [|done]. 
      assert (bit_set r (w * 64 + ctzll (not64 bw)) = true) as Hset by (apply (ro_bits _ _ Hok); [lia|eauto]). by rewrite Hset in Ht.
    + intros j Hj. apply (ro_bits _ _ Hok); [lia|]. specialize (Hlow (j - w * 64) ltac:(lia)).
      rewrite not64_bit, Hb in Hlow by lia. replace (w * 64 + (j - w * 64)) with j in Hlow by lia. by destruct (bit_set r j).
Qed.

Lemma roots_grow_ok r lv c : roots_ok r lv → c = fiber_root_num_chunks r → c < 256 →
  ∃ r', put_chunk c (Some (replicate (Z.to_nat FIBER_ROOT_CHUNK_SIZE) (mk_slot 0 0 0 0))) r = ok (tt, r') ∧ roots_ok r' lv ∧
    fiber_root_num_chunks r' = fiber_root_num_chunks r ∧
    ∃ ch, zget (fiber_root_chunks r') c = Some (Some ch) ∧ Z.of_nat (length ch) = 1024.
Proof.
  intros Hok -> Hc. pose proof (ro_nc _ _ Hok) as Hnc. set (ch := replicate _ _). set (c := fiber_root_num_chunks r) in *.
  assert (0 <= c < Z.of_nat (length (fiber_root_chunks r))) as Hr by (rewrite (ro_ch _ _ Hok); lia).
  unfold put_chunk. rewrite zset_in by done. set (l := <[Z.to_nat c := Some ch]> (fiber_root_chunks r)).
  assert (∀ d, d ≠ c → 0 <= d → zget l d = zget (fiber_root_chunks r) d) as Hoth.
  { intros d Hd Hd0. unfold zget, in_range, l. rewrite length_insert. by rewrite list_lookup_insert_ne by lia. }
  eexists. split; [done|]. split; [|split; [done|]].
  - destruct Hok as [Hbm Hw Hl _ Hal Hb Hlv]. split; try done.
    + simpl. unfold l. by rewrite length_insert.
    + intros d Hd. simpl in Hd. fold c in Hd. cbn [fiber_root_chunks set_chunks]. rewrite Hoth by lia. apply Hal. fold c. lia.
    + intros h f Hf. destruct (Hlv h f Hf) as (Hh & s & Hs & Hd). split; [done|]. exists s. split; [|done]. rewrite <- Hs.
      unfold slot_at. cbn [fiber_root_chunks set_chunks]. rewrite Hoth; [done| |]; fold c in Hh; dlia.
  - exists ch. split; [|unfold ch; by rewrite length_replicate, Z2Nat.id]. cbn [fiber_root_chunks set_chunks].
    apply zget_Some. split; [lia|]. unfold l. apply list_lookup_insert_eq. lia.
Qed.

Lemma count_ok r lv c : roots_ok r lv → pc_ok r lv (mk_fiber 0 0 0 0) (RCount c) →
  roots_ok (set_num (fiber_root_num_chunks r + 1) r) lv ∧ target (set_num (fiber_root_num_chunks r + 1) r) lv (c * 1024).
Proof.
  intros Hok (-> & Hc & ch & Hch & Hlen). destruct Hok as [Hbm Hw Hl Hnc Hal Hb Hlv]. split.
  - split; simpl; try done; [lia| |].
    + intros d Hd. destruct (decide (d = fiber_root_num_chunks r)) as [->|]; [eauto|]. apply Hal. lia.
    + intros h f Hf. destruct (Hlv h f Hf) as (? & ?). split; [lia|done].
  - split; [simpl; lia|]. destruct (lv !! _) as [f|] eqn:E; [|done]. destruct (Hlv _ _ E) as [? _]. lia.
Qed.

(** One step of the registering thread. *)
Definition next_ok (lv : gmap Z fiber) (f : fiber) (x : reg_pc * roots) : Prop :=
  match x with
  | (RDone i, r) => roots_ok r (<[i := f]> lv) ∧ lv !! i = None
  | (pc, r) => roots_ok r lv ∧ pc_ok r lv f pc
  end.

Lemma write_ok r lv i f g pc :
  roots_ok r lv → target r lv i → (∀ s, slot_at r i = Some s → ∀ r', slot_at r' i = Some (g s) → target r' lv i → pc_ok r' lv f pc) →
  match pc with RDone _ => False | _ => True end →
  ∃ r', (upd_slot i g;; mret pc) r = ok (pc, r') ∧ next_ok lv f (pc, r').
Proof.
  intros Hok [Hi Hl] Hpc Hnd. destruct (slot_exists r lv i Hok Hi) as [s Hs].
  destruct (upd_slot_ok r lv i g s Hok Hi Hs) as (r' & Hr & Hok' & Hs' & Hn & _ & _).
  { intros x Hx. by rewrite Hl in Hx. }
  exists r'. split; [by erewrite prog_bind_ok by exact Hr|].
  assert (pc_ok r' lv f pc) as Hp by (apply (Hpc s); [done|done|]; split; [by rewrite Hn|done]). by destruct pc.
Qed.

Lemma register_step_ok r lv f pc :
  roots_ok r lv → pc_ok r lv f pc →
  (∃ x, register_step f pc r = ok x ∧ next_ok lv f x) ∨
  (pc = RGrow 256 ∧ ∃ m, register_step f pc r = abort m).
Proof.
  intros Hok Hpc. pose proof (ro_nc _ _ Hok) as Hnc. destruct pc as [nc w|c|c|i|i|i|i|i|i]; cbn [register_step].
  - destruct Hpc as (-> & Hw). left. destruct (Z.ltb_spec w (fiber_root_num_chunks r * FIBER_ROOT_CHUNK_WORDS)) as [Hlt|Hge];
      unfold FIBER_ROOT_CHUNK_WORDS in *.
    + destruct (free_bit r lv w Hok) as (bw & Hg & Hfree); [lia|]. eexists. split; [by erewrite prog_bind_ok by exact Hg|].
      destruct (bw =? UINT64_MAX); cbn [negb]; split; try done; [|by destruct Hfree]. split; [done|lia].
    + eexists. split; [done|]. by split.
  - simpl in Hpc. subst c. destruct (Z.ltb_spec (fiber_root_num_chunks r) FIBER_ROOT_MAX_CHUNKS) as [Hlt|Hge]; unfold FIBER_ROOT_MAX_CHUNKS in *.
    + left. destruct (roots_grow_ok r lv _ Hok eq_refl Hlt) as (r' & Hr & Hok' & Hn & Hch).
      eexists. split; [by erewrite prog_bind_ok by exact Hr|]. split; [done|]. simpl. rewrite Hn. by split_and!.
    + right. split; [f_equal; lia|]. by eexists.
  - left. eexists. split; [done|]. unfold FIBER_ROOT_CHUNK_SIZE. by apply count_ok.
  - left. destruct (write_ok r lv i f (λ s, mk_slot (f_entry f) (stack_base s) (stack_top s) (scan_from s)) (RBase i)) as (r' & Hr & Hx); eauto.
    intros s Hs r' Hs' Ht. split; [done|]. eauto.
  - left. destruct Hpc as (Ht & s0 & Hs0 & He).
    destruct (write_ok r lv i f (λ s, mk_slot (entry s) (f_base f) (stack_top s) (scan_from s)) (RTop i)) as (r' & Hr & Hx); eauto.
    intros s Hs r' Hs' Ht'. rewrite Hs in Hs0. injection Hs0 as <-. split; [done|]. eauto.
  - left. destruct Hpc as (Ht & s0 & Hs0 & He & Hb).
    destruct (write_ok r lv i f (λ s, mk_slot (entry s) (stack_base s) (f_top f) (scan_from s)) (RSp i)) as (r' & Hr & Hx); eauto.
    intros s Hs r' Hs' Ht'. rewrite Hs in Hs0. injection Hs0 as <-. split; [done|]. eexists. split; [done|]. by split_and!.
  - left. destruct Hpc as (Ht & s0 & Hs0 & Hd).
    destruct (write_ok r lv i f (λ s, mk_slot (entry s) (stack_base s) (stack_top s) (if f_sp f =? 0 then f_base f else f_sp f)) (RPublish i)) as (r' & Hr & Hx); eauto.
    intros s Hs r' Hs' Ht'. rewrite Hs in Hs0. injection Hs0 as <-. split; [done|]. eexists. split; [done|]. done.
  - left. destruct Hpc as ((Hi & Hl) & s0 & Hs0 & Hd). destruct (publish_ok r lv i f s0 Hok Hi Hs0 Hd) as (r' & Hr & Hok' & _).
    eexists. split; [exact Hr|]. by split.
  - done.
Qed.

(** Unregistering and updating do not disturb the registering thread. *)
Lemma pc_ok_frame r r' lv lv' f pc :
  pc_ok r lv f pc → fiber_root_num_chunks r' = fiber_root_num_chunks r →
  (∀ j, 0 <= j → lv !! j = None → lv' !! j = None ∧ slot_at r' j = slot_at r j) →
  (∀ c, fiber_root_num_chunks r <= c → zget (fiber_root_chunks r') c = zget (fiber_root_chunks r) c) →
  pc_ok r' lv' f pc.
Proof.
  intros Hpc Hn Hs Hc. assert (∀ i, target r lv i → target r' lv' i ∧ slot_at r' i = slot_at r i) as Ht.
  { intros i [Hi Hl]. destruct (Hs i) as [? ?]; [lia|done|]. split; [|done]. split; [by rewrite Hn|done]. }
  destruct pc; simpl in *; rewrite ?Hn; try done.
  - destruct Hpc as (-> & Hlt & Hch). by rewrite Hc.
  - by apply Ht.
  - destruct Hpc as [Hi Hsl]. destruct (Ht _ Hi) as [? ->]. done.
  - destruct Hpc as [Hi Hsl]. destruct (Ht _ Hi) as [? ->]. done.
  - destruct Hpc as [Hi Hsl]. destruct (Ht _ Hi) as [? ->]. done.
  - destruct Hpc as [Hi Hsl]. destruct (Ht _ Hi) as [? ->]. done.
Qed.

Lemma update_ok r lv h sp : roots_ok r lv → is_Some (lv !! h) →
  ∃ r', goc_fiber_root_update_sp h sp r = ok (tt, r') ∧ roots_ok r' lv ∧ fiber_root_num_chunks r' = fiber_root_num_chunks r ∧
    (∀ j, 0 <= j → j ≠ h → slot_at r' j = slot_at r j) ∧
    (∀ c, fiber_root_num_chunks r <= c → zget (fiber_root_chunks r') c = zget (fiber_root_chunks r) c).
Proof.
  intros Hok [f Hf]. unfold goc_fiber_root_update_sp. destruct (sp =? 0); [by exists r|].
  destruct (ro_live _ _ Hok _ _ Hf) as (Hh & s & Hs & Hd).
  destruct (upd_slot_ok r lv h (λ s, mk_slot (entry s) (stack_base s) (stack_top s) sp) s Hok Hh Hs) as (r' & Hr & Hok' & _ & Hrest); [done|].
  exists r'. by destruct Hrest as (? & ? & ?).
Qed.

Lemma ev_step_ok s e : sys_ok s → may s e →
  (∃ s', ev_step e s = ok s' ∧ sys_ok s') ∨
  (∃ f m, e = EStep ∧ registrar s = Some (f, RGrow 256) ∧ ev_step e s = abort m).
Proof.
  intros [Hok Hreg] Hmay. destruct e as [f| |h|h sp]; simpl in *.
  - left. destruct (registrar s) as [[]|] eqn:E; eexists; (split; [done|]); [by split; rewrite ?E|].
    split; [done|]. simpl. pose proof (ro_nc _ _ Hok). split; [done|lia].
  - destruct (registrar s) as [[f pc]|] eqn:E; [|left; eexists; split; [done|by split; rewrite ?E]].
    destruct (register_step_ok _ _ _ _ Hok Hreg) as [([pc' r'] & Hr & Hx)|(-> & m & Hr)]; rewrite Hr.
    + left. destruct pc'; eexists; (split; [done|]); by destruct Hx.
    + right. eauto.
  - left. assert (0 <= h < fiber_root_num_chunks (rt s) * 1024) as Hh by (destruct Hmay as [f Hf]; by destruct (ro_live _ _ Hok _ _ Hf)).
    destruct (unregister_ok (rt s) (live s) h Hok Hh) as (r' & -> & Hok' & Hn & Hc). eexists. split; [done|]. split; [done|]. simpl.
    destruct (registrar s) as [[f pc]|]; [|done]. eapply pc_ok_frame; [exact Hreg|done| |by rewrite Hc].
    intros j Hj Hl. split; [by rewrite lookup_delete_None; right|]. unfold slot_at. by rewrite Hc.
  - left. destruct (update_ok (rt s) (live s) h sp Hok Hmay) as (r' & -> & Hok' & Hn & Hs & Hc). eexists. split; [done|]. split; [done|]. simpl.
    destruct (registrar s) as [[f pc]|]; [|done]. eapply pc_ok_frame; [exact Hreg|done| |done].
    intros j Hj Hl. split; [done|]. apply Hs; [done|]. intros ->. by rewrite Hl in Hmay; destruct Hmay.
Qed.

Lemma roots_reach_ok prev s : reach prev s → sys_ok s.
Proof.
  induction 1 as [|s s' e _ IH Hmay Hev]; [apply roots_init_ok|].
  destruct (ev_step_ok s e IH Hmay) as [(s'' & Hev' & Hok)|(f & m & _ & _ & Hev')]; congruence.
Qed.

(** ** A registration that nobody disturbs *)

(** All slots below the one it is at are taken. *)
Definition lowest (lv : gmap Z fiber) (pc : reg_pc) : Prop :=
  ∀ j, 0 <= j < match pc with
                | RScan _ w => w * 64
                | RGrow c | RCount c => c * 1024
                | REntry i | RBase i | RTop i | RSp i | RPublish i | RDone i => i
                end → is_Some (lv !! j).

Definition left (pc : reg_pc) : nat :=
  match pc with
  | RScan nc w => Z.to_nat (16 * nc - w) + 8
  | RGrow _ => 7 | RCount _ => 6 | REntry _ => 5 | RBase _ => 4 | RTop _ => 3 | RSp _ => 2 | RPublish _ => 1 | RDone _ => 0
  end.

Lemma step_lowest r lv f pc pc' r' :
  roots_ok r lv → pc_ok r lv f pc → lowest lv pc → register_step f pc r = ok (pc', r') → lowest lv pc' ∧ (left pc' < left pc)%nat.
Proof.
  intros Hok Hpc Hlow. destruct pc as [nc w|c|c|i|i|i|i|i|i]; cbn [register_step].
  - destruct Hpc as (-> & Hw). destruct (Z.ltb_spec w (fiber_root_num_chunks r * FIBER_ROOT_CHUNK_WORDS)) as [Hlt|Hge];
      unfold FIBER_ROOT_CHUNK_WORDS in *.
    + destruct (free_bit r lv w Hok) as (bw & Hg & Hfree); [lia|]. erewrite prog_bind_ok by exact Hg. intros [= <- <-].
      destruct (bw =? UINT64_MAX); cbn [negb].
      * split; [|simpl; lia]. intros j Hj. destruct (Z.lt_ge_cases j (w * 64)) as [|Hj']; [apply Hlow; lia|].
        replace j with (w * 64 + (j - w * 64)) by lia. apply Hfree. lia.
      * split; [|simpl; lia]. destruct Hfree as [_ Hfree]. intros j Hj.
        destruct (Z.lt_ge_cases j (w * 64)) as [|Hj']; [apply Hlow; lia|]. apply Hfree. lia.
    + intros [= <- <-]. split; [|simpl; lia]. intros j Hj. apply Hlow. lia.
  - destruct (c <? FIBER_ROOT_MAX_CHUNKS); [|done]. intros (? & ? & _ & [= <- <-])%prog_bind_inv. split; [done|simpl; lia].
  - intros [= <- <-]. split; [done|simpl; lia].
  - intros (? & ? & _ & [= <- <-])%prog_bind_inv. split; [done|simpl; lia].
  - intros (? & ? & _ & [= <- <-])%prog_bind_inv. split; [done|simpl; lia].
  - intros (? & ? & _ & [= <- <-])%prog_bind_inv. split; [done|simpl; lia].
  - intros (? & ? & _ & [= <- <-])%prog_bind_inv. split; [done|simpl; lia].
  - intros (? & ? & _ & (? & ? & _ & [= <- <-])%prog_bind_inv)%prog_bind_inv. split; [done|simpl; lia].
  - done.
Qed.

(** What a registration comes to. *)
Definition registered (prev : bool) (lv : gmap Z fiber) (f : fiber) (x : res (Z * roots)) : Prop :=
  (∃ h r, x = ok (h, r) ∧ reach prev (mk_sys r (<[h := f]> lv) None) ∧ lv !! h = None ∧ ∀ j, 0 <= j < h → is_Some (lv !! j)) ∨
  (∃ m, x = abort m ∧ ∀ j, 0 <= j < 262144 → is_Some (lv !! j)).

Lemma register_loop_ok prev fuel : ∀ s f pc,
  reach prev s → registrar s = Some (f, pc) → lowest (live s) pc → (left pc <= fuel)%nat →
  registered prev (live s) f (register_loop fuel f pc (rt s)).
Proof.
  induction fuel as [|fuel IH]; intros s f pc Hr Hreg Hlow Hleft; pose proof (roots_reach_ok prev s Hr) as [Hok Hpc]; rewrite Hreg in Hpc.
  { destruct pc; simpl in Hleft; try lia. done. }
  assert (register_loop (S fuel) f pc (rt s) = (pc' ← register_step f pc; register_loop fuel f pc') (rt s)) as ->
    by (by destruct pc).
  destruct (register_step_ok _ _ _ _ Hok Hpc) as [([pc' r'] & Hx & Hnext)|(-> & m & Hx)].
  - destruct (step_lowest _ _ _ _ _ _ Hok Hpc Hlow Hx) as [Hlow' Hleft']. rewrite (prog_bind_ok _ _ _ _ _ Hx).
    assert (ev_step EStep s = match pc' with RDone i => ok (mk_sys r' (<[i := f]> (live s)) None) | _ => ok (mk_sys r' (live s) (Some (f, pc'))) end) as Hev
      by (simpl; rewrite Hreg, Hx; by destruct pc').
    assert ((∃ i, pc' = RDone i) ∨ ∀ i, pc' ≠ RDone i) as [[i ->]|Hnd] by (destruct pc'; eauto).
    + left. exists i, r'. destruct Hnext as [_ Hnone]. split_and!; [by destruct fuel|by apply (reach_step prev s _ EStep)|done|done].
    + apply (IH (mk_sys r' (live s) (Some (f, pc'))) f pc'); [|done|done|lia]. apply (reach_step prev s _ EStep); [done|done|].
      rewrite Hev. destruct pc'; try done. by destruct (Hnd slot_idx).
  - right. exists m. split; [unfold mbind, prog_bind; by rewrite Hx|]. intros j Hj. apply Hlow. lia.
Qed.

(** ** Claims *)

(** C12: The collector sees exactly the registered fibers.  In every state that registering,
    unregistering and stack-pointer updates of any number of threads can reach, between any
    two of their steps, the callback runs to its end and tells the collector of the entry
    and the whole stack of every registered fiber and of nothing else, in the order of the
    slots; no slot is seen half written or stale. *)
Theorem roots_scan_exact prev s :
  reach prev s →
  push_fiber_roots (rt s) =
    ok (pushes (live s) (seqZ 0 (1024 * fiber_root_num_chunks (rt s))) ++
        (if prev_push_roots (rt s) then [PushOthers] else []), rt s) ∧
  ∀ h f, live s !! h = Some f → h ∈ seqZ 0 (1024 * fiber_root_num_chunks (rt s)).
Proof.
  intros [Hok _]%roots_reach_ok. pose proof (ro_nc _ _ Hok). split.
  - unfold push_fiber_roots. rewrite (chunks_loop_ok _ _ Hok) by lia. rewrite Z2Nat.id by lia. done.
  - intros h f Hf. destruct (ro_live _ _ Hok _ _ Hf) as [? _]. apply elem_of_seqZ. lia.
Qed.

(** A registration that nobody disturbs takes the lowest free slot, adding a chunk only
    when all slots are taken, and leaves a state in which the fiber is registered; it
    fails, by the assertion on the number of chunks, only when all 262144 slots are
    taken.  The other operations never fail on the handle of a registered fiber. *)
Theorem register_lowest_free prev s f :
  reach prev s → registrar s = None →
  registered prev (live s) f (goc_fiber_root_register f (rt s)) ∧
  ∀ h sp, is_Some (live s !! h) →
    (∃ r, goc_fiber_root_unregister h (rt s) = ok (tt, r) ∧ reach prev (mk_sys r (delete h (live s)) None)) ∧
    (∃ r, goc_fiber_root_update_sp h sp (rt s) = ok (tt, r) ∧ reach prev (mk_sys r (live s) None)).
Proof.
  intros Hr Hn. pose proof (roots_reach_ok prev s Hr) as [Hok _]. pose proof (ro_nc _ _ Hok) as Hnc. split.
  - unfold goc_fiber_root_register. apply (register_loop_ok prev 4105 (mk_sys (rt s) (live s) (Some (f, start_register (rt s))))).
    + apply (reach_step prev s _ (EBegin f)); [done|done|]. simpl. by rewrite Hn.
    + done.
    + intros j Hj. unfold start_register in Hj. lia.
    + unfold start_register, left. lia.
  - intros h sp Hh. split.
    + assert (0 <= h < fiber_root_num_chunks (rt s) * 1024) as Hb by (destruct Hh as [g Hg]; by destruct (ro_live _ _ Hok _ _ Hg)).
      destruct (unregister_ok (rt s) (live s) h Hok Hb) as (r' & Hu & _). exists r'. split; [done|].
      apply (reach_step prev s _ (EUnregister h)); [done|done|]. simpl. by rewrite Hu, Hn.
    + destruct (update_ok (rt s) (live s) h sp Hok Hh) as (r' & Hu & _). exists r'. split; [done|].
      apply (reach_step prev s _ (EUpdate h sp)); [done|done|]. simpl. by rewrite Hu, Hn.
Qed.

(** A fiber registers while the first of two others goes away. *)
Definition demo : list event :=
  [EBegin (mk_fiber 11 100 200 0); EStep; EStep; EStep; EStep; EStep; EStep; EStep; EStep;
   EBegin (mk_fiber 12 300 400 350); EStep; EStep; EStep; EStep; EStep; EStep;
   EBegin (mk_fiber 13 500 600 0); EStep; EUnregister 0; EStep; EUpdate 1 320; EStep].

Fixpoint run (es : list event) (s : system) : option system :=
  match es with
  | [] => Some s
  | e :: es =>
      let fine := match e with EUnregister h | EUpdate h _ => bool_decide (is_Some (live s !! h)) | _ => true end in
      if fine then match ev_step e s with ok s' => run es s' | _ => None end else None
  end.

Lemma roots_run_reach prev es : ∀ s s', reach prev s → run es s = Some s' → reach prev s'.
Proof.
  induction es as [|e es IH]; intros s s' Hr Hrun; cbn [run] in Hrun; [congruence|].
  destruct (match e with EUnregister h | EUpdate h _ => bool_decide (is_Some (live s !! h)) | _ => true end) eqn:Hf; [|done].
  destruct (ev_step e s) as [s1| | |] eqn:He; try done. eapply IH; [|exact Hrun]. apply (reach_step prev s _ e); [done| |done].
  destruct e; simpl; try done; by apply bool_decide_eq_true in Hf.
Qed.

Definition start : system := mk_sys (goc_fiber_roots_init true) ∅ None.
Definition at_demo : system := default start (run demo start).

Lemma roots_demo_reach : reach true at_demo.
Proof.
  assert (bool_decide (is_Some (run demo start)) = true) as [s Hs]%bool_decide_eq_true by (vm_compute; reflexivity).
  unfold at_demo. rewrite Hs. eapply roots_run_reach; [|exact Hs]. constructor.
Qed.

Lemma roots_scan_exact_witness :
  push_fiber_roots (rt at_demo) =
    ok (pushes (live at_demo) (seqZ 0 (1024 * fiber_root_num_chunks (rt at_demo))) ++ [PushOthers], rt at_demo) ∧
  pushes (live at_demo) (seqZ 0 1024) = [PushEntry 12; PushStack 300 400].
Proof. split; [exact (proj1 (roots_scan_exact true at_demo roots_demo_reach))|vm_compute; reflexivity]. Defined.

Lemma register_lowest_free_witness :
  registered true (∅ : gmap Z fiber) (mk_fiber 11 100 200 0) (goc_fiber_root_register (mk_fiber 11 100 200 0) (goc_fiber_roots_init true)).
Proof. exact (proj1 (register_lowest_free true start (mk_fiber 11 100 200 0) (reach_init true) eq_refl)). Defined.

End RootsProps.
