(* ===== verification/LoopQ.v ===== *)
(** The callback queue of the loop thread (loop.c 36-185, [post_callback], the submission
    functions, [drain_cb_queue], [on_wakeup], shutdown): a queue with many producers and
    one consumer, and the wake-ups that make the consumer look at it.

    Any number of threads post; each access to a shared atomic is a step, and memory is
    sequentially consistent.  The loop thread sleeps in [uv_run] until [uv_async_send] was
    called on one of its two handles.  A callback that posts again while it runs on the
    loop thread is one of the producers. *)

From S2P Require Import Prelude.

Module LoopQ.

(** ** State *)

(** An entry is its address. *)
Record mpsc_node := mk_node { next : option positive; entry : Z }.

Inductive goc_loop_state := STOPPED | RUNNING | SHUTTING_DOWN.
#[export] Instance goc_loop_state_eq : EqDecision goc_loop_state.
Proof. solve_decision. Defined.

(** [g_cb_queue] with the heap of its nodes; [posted] lists the entries in the order in
    which they entered the queue, [fired] those whose callback was called. *)
Record mpsc_queue := mk_queue {
  nodes : gmap positive mpsc_node;
  next_id : positive;
  head : positive;
  tail : positive;
  depth : Z;
  hwm : Z;
  posted : list Z;
  fired : list Z
}.

(** [g_wakeup] and its handle: [signal] is the handle's mark that [uv_async_send] was
    called and its callback has not run since; [failed] tells that a send failed. *)
Record wakeup := mk_wakeup {
  g_wakeup : bool;
  closing : bool;
  pending : bool;
  signal : bool;
  failed : bool
}.

(** Inside [wakeup_send_if_needed]. *)
Inductive send_pc := SLoad | SClosing | SXchg | SAsync.

(** Inside [post_callback], and around it in the functions that submit under
    [g_loop_submit_lock]. *)
Inductive prod_pc :=
| PIdle
| PLock (e : Z) | PCheck (e : Z)           (* uv_mutex_lock, the test of g_loop_state *)
| PNode (e : Z)                            (* malloc of the node *)
| PXchg (n : positive) | PLink (n prev : positive) | PAdd   (* cb_queue_push *)
| PHwm (prev_depth : Z) | PCas (prev_depth seen : Z)
| PWakeup (prev_depth : Z) | PClosing
| PSend (s : send_pc)
| PUnlock.

(** The loop thread. *)
Inductive loop_pc :=
| LSleep
| LWake                                    (* on_wakeup *)
| LDrain (budget : nat)                    (* cb_queue_pop: the load of tail->next *)
| LFree (budget : nat) (n : positive)      (* the sentinel is freed *)
| LSub (budget : nat) (e : Z)
| LCall (budget : nat) (e : Z)             (* the callback *)
| LCheck
| LSend (s : send_pc)
| LStopping                                (* uv_stop was called *)
| LStopped.

(** The thread in [loop_shutdown]. *)
Inductive shut_pc := HNot | HLocked | HSent.

Record world := mk_world {
  q : mpsc_queue;
  wk : wakeup;
  loop_state : goc_loop_state;
  submit_lock : option nat;
  shut_signal : bool;
  prods : list prod_pc;
  lpc : loop_pc;
  spc : shut_pc;
  stopping : bool;
  rejected : list Z
}.

Definition set_q f w := mk_world (f (q w)) (wk w) (loop_state w) (submit_lock w) (shut_signal w) (prods w) (lpc w) (spc w) (stopping w) (rejected w).
Definition set_wk f w := mk_world (q w) (f (wk w)) (loop_state w) (submit_lock w) (shut_signal w) (prods w) (lpc w) (spc w) (stopping w) (rejected w).
Definition set_state s w := mk_world (q w) (wk w) s (submit_lock w) (shut_signal w) (prods w) (lpc w) (spc w) (stopping w) (rejected w).
Definition set_lock l w := mk_world (q w) (wk w) (loop_state w) l (shut_signal w) (prods w) (lpc w) (spc w) (stopping w) (rejected w).
Definition set_shut b w := mk_world (q w) (wk w) (loop_state w) (submit_lock w) b (prods w) (lpc w) (spc w) (stopping w) (rejected w).
Definition set_prods f w := mk_world (q w) (wk w) (loop_state w) (submit_lock w) (shut_signal w) (f (prods w)) (lpc w) (spc w) (stopping w) (rejected w).
Definition set_lpc p w := mk_world (q w) (wk w) (loop_state w) (submit_lock w) (shut_signal w) (prods w) p (spc w) (stopping w) (rejected w).
Definition set_spc p w := mk_world (q w) (wk w) (loop_state w) (submit_lock w) (shut_signal w) (prods w) (lpc w) p (stopping w) (rejected w).
Definition set_stopping b w := mk_world (q w) (wk w) (loop_state w) (submit_lock w) (shut_signal w) (prods w) (lpc w) (spc w) b (rejected w).
Definition add_rejected e w := mk_world (q w) (wk w) (loop_state w) (submit_lock w) (shut_signal w) (prods w) (lpc w) (spc w) (stopping w) (rejected w ++ [e]).

Definition set_nodes f (s : mpsc_queue) := mk_queue (f (nodes s)) (next_id s) (head s) (tail s) (depth s) (hwm s) (posted s) (fired s).
Definition set_depth d (s : mpsc_queue) := mk_queue (nodes s) (next_id s) (head s) (tail s) d (hwm s) (posted s) (fired s).
Definition set_hwm d (s : mpsc_queue) := mk_queue (nodes s) (next_id s) (head s) (tail s) (depth s) d (posted s) (fired s).
Definition set_tail p (s : mpsc_queue) := mk_queue (nodes s) (next_id s) (head s) p (depth s) (hwm s) (posted s) (fired s).
Definition swap_head n e (s : mpsc_queue) := mk_queue (nodes s) (next_id s) n (tail s) (depth s) (hwm s) (posted s ++ [e]) (fired s).
Definition add_fired e (s : mpsc_queue) := mk_queue (nodes s) (next_id s) (head s) (tail s) (depth s) (hwm s) (posted s) (fired s ++ [e]).
Definition set_pending b (s : wakeup) := mk_wakeup (g_wakeup s) (closing s) b (signal s) (failed s).
Definition set_signal b (s : wakeup) := mk_wakeup (g_wakeup s) (closing s) (pending s) b (failed s).
Definition set_failed (s : wakeup) := mk_wakeup (g_wakeup s) (closing s) (pending s) (signal s) true.
Definition closed_handle (s : wakeup) := mk_wakeup false true (pending s) (signal s) (failed s).

Definition modify (f : world → world) : prog world () := λ w, ok (tt, f w).
Definition gets {A} (f : world → A) : prog world A := λ w, ok (f w, w).
Definition get_node (n : positive) : prog world mpsc_node := λ w, of_option (nodes (q w) !! n) w.
Definition put_node (n : positive) (x : mpsc_node) : prog world () := modify (set_q (set_nodes (<[n := x]>))).

(** [malloc]. *)
Definition new_node (x : mpsc_node) : prog world positive := λ w,
  let s := q w in
  ok (next_id s, set_q (λ s, mk_queue (<[next_id s := x]> (nodes s)) (Pos.succ (next_id s)) (head s) (tail s) (depth s) (hwm s) (posted s) (fired s)) w).
(** [free]: the node must be allocated. *)
Definition free_node (n : positive) : prog world () := _ ← get_node n; modify (set_q (set_nodes (delete n))).

(** [cb_queue_init] and the rest of [loop_init], for [k] threads. *)
Definition cb_queue_init : mpsc_queue :=
  mk_queue {[1%positive := mk_node None 0]} 2 1 1 0 0 [] [].
Definition loop_init (k : nat) : world :=
  mk_world cb_queue_init (mk_wakeup true false false false false) RUNNING None false
    (replicate k PIdle) LSleep HNot false [].

(** ** [wakeup_send_if_needed]

    [rc] is whether [uv_async_send] succeeds; [None] when the call returns. *)
Definition send_step (rc : bool) (pc : send_pc) : prog world (option send_pc) :=
  match pc with
  | SLoad => w ← gets wk; mret (if g_wakeup w then Some SClosing else None)
  | SClosing => w ← gets wk; mret (if closing w then None else Some SXchg)
  | SXchg =>
      w ← gets wk;
      modify (set_wk (set_pending true));;
      mret (if pending w then None else Some SAsync)
  | SAsync =>
      (if rc then modify (set_wk (set_signal true))
       else modify (set_wk (λ w, set_failed (set_pending false w))));;
      mret None
  end.

(** ** The producers *)

(** The end of [post_callback]: a submitter releases the lock, the others return. *)
Definition finish (i : nat) : prog world prod_pc :=
  l ← gets submit_lock; mret (if decide (l = Some i) then PUnlock else PIdle).

(** One step of thread [i]; [b] is whether a compare-and-swap or a send succeeds that
    may fail for no reason of the model. *)
Definition prod_step (i : nat) (b : bool) (pc : prod_pc) : prog world prod_pc :=
  match pc with
  | PIdle => mret PIdle
  | PLock e =>
      l ← gets submit_lock;
      match l with
      | None => modify (set_lock (Some i));; mret (PCheck e)
      | Some _ => mret (PLock e)
      end
  | PCheck e =>
      s ← gets loop_state;
      if decide (s = RUNNING) then mret (PNode e) else modify (add_rejected e);; mret PUnlock
  | PNode e => n ← new_node (mk_node None e); mret (PXchg n)
  | PXchg n =>
      x ← get_node n;
      prev ← gets (head ∘ q);
      modify (set_q (swap_head n (entry x)));;
      mret (PLink n prev)
  | PLink n prev => x ← get_node prev; put_node prev (mk_node (Some n) (entry x));; mret PAdd
  | PAdd =>
      prev_depth ← gets (depth ∘ q);
      modify (set_q (set_depth (prev_depth +% 1)));;
      mret (PHwm prev_depth)
  | PHwm prev_depth => h ← gets (hwm ∘ q); mret (PCas prev_depth h)
  | PCas prev_depth seen =>
      let d := prev_depth +% 1 in
      if seen <? d then
        h ← gets (hwm ∘ q);
        if b && (h =? seen) then modify (set_q (set_hwm d));; mret (PWakeup prev_depth)
        else mret (PCas prev_depth h)
      else mret (PWakeup prev_depth)
  | PWakeup prev_depth =>
      w ← gets wk;
      if g_wakeup w && (prev_depth =? 0) then mret PClosing else finish i
  | PClosing =>
      w ← gets wk;
      if closing w then finish i else mret (PSend SLoad)
  | PSend s =>
      r ← send_step b s;
      match r with Some s => mret (PSend s) | None => finish i end
  | PUnlock => modify (set_lock None);; mret PIdle
  end.

(** ** The loop thread *)

Definition GOC_CB_DRAIN_BUDGET : nat := 512.

(** [drain_cb_queue] is done: back to [uv_run], which returns once [uv_stop] was called. *)
Definition drained : prog world loop_pc := st ← gets stopping; mret (if st : bool then LStopping else LSleep).

(** [cb_queue_pop]: the load of [tail->next]; [NULL] ends the drain. *)
Definition cb_queue_pop (budget : nat) : prog world loop_pc :=
  t ← gets (tail ∘ q); x ← get_node t;
  match next x with
  | None => mret LCheck
  | Some n => mret (LFree budget n)
  end.
(** The tail moves on and the old sentinel is freed. *)
Definition cb_queue_pop_free (budget : nat) (n : positive) : prog world loop_pc :=
  t ← gets (tail ∘ q);
  modify (set_q (set_tail n));;
  x ← get_node n; free_node t;; mret (LSub budget (entry x)).
Definition cb_queue_pop_sub (budget : nat) (e : Z) : prog world loop_pc :=
  d ← gets (depth ∘ q); modify (set_q (set_depth (d -% 1)));; mret (LCall budget e).

Definition on_wakeup : prog world loop_pc :=
  modify (set_wk (set_pending false));; mret (LDrain GOC_CB_DRAIN_BUDGET).

(** It takes the lock for the change of state, then drains and stops the loop. *)
Definition on_shutdown_signal : prog world loop_pc :=
  l ← gets submit_lock;
  match l with
  | None => modify (set_shut false);; modify (set_state SHUTTING_DOWN);;
            modify (set_stopping true);; mret (LDrain GOC_CB_DRAIN_BUDGET)
  | Some _ => mret LSleep
  end.

(** The end of [loop_thread_fn]: the handle is closed. *)
Definition close_wakeup : prog world loop_pc := modify (set_wk closed_handle);; mret LStopped.

Arguments cb_queue_pop _ /.
Arguments cb_queue_pop_free _ _ /.
Arguments cb_queue_pop_sub _ _ /.
Arguments on_wakeup /.
Arguments on_shutdown_signal /.
Arguments close_wakeup /.

(** [b] chooses: in [uv_run], which handle is served first, or whether a signal that
    came during the last iteration is still served; in a send, whether it succeeds. *)
Definition loop_step (b : bool) (pc : loop_pc) : prog world loop_pc :=
  match pc with
  | LSleep =>
      w ← gets wk; sh ← gets shut_signal;
      if signal w && (b || negb sh) then modify (set_wk (set_signal false));; mret LWake
      else if (sh : bool) then on_shutdown_signal else mret LSleep
  | LWake => on_wakeup
  | LDrain O => mret LCheck
  | LDrain (S budget) => cb_queue_pop budget
  | LFree budget n => cb_queue_pop_free budget n
  | LSub budget e => cb_queue_pop_sub budget e
  | LCall budget e => modify (set_q (add_fired e));; mret (LDrain budget)
  | LCheck => d ← gets (depth ∘ q); if 0 <? d then mret (LSend SLoad) else drained
  | LSend s =>
      r ← send_step b s;
      match r with Some s => mret (LSend s) | None => drained end
  | LStopping =>
      w ← gets wk;
      if b && signal w then modify (set_wk (set_signal false));; mret LWake
      else close_wakeup
  | LStopped => mret LStopped
  end.

(** ** Shutdown *)

Definition shut_step (pc : shut_pc) : prog world shut_pc :=
  match pc with
  | HNot =>
      l ← gets submit_lock;
      match l with
      | None => s ← gets loop_state;
                (if decide (s = RUNNING) then modify (set_state SHUTTING_DOWN) else mret tt);; mret HLocked
      | Some _ => mret HNot
      end
  | HLocked => modify (set_shut true);; mret HSent
  | HSent => mret HSent
  end.

(** ** The threads together *)

Inductive event :=
| EPost (i : nat) (e : Z)
| ESubmit (i : nat) (e : Z)
| EPostOn (i : nat) (task : Z)
| EPostOnChecked (i : nat) (task : Z)
| EWakeup (i : nat)
| EProd (i : nat) (b : bool)
| ELoop (b : bool)
| EShut.

Definition start_prod (i : nat) (pc : prod_pc) : prog world () := λ w,
  match prods w !! i with
  | Some PIdle => modify (set_prods (<[i := pc]>)) w
  | _ => ok (tt, w)
  end.

(** The calls a thread can start.  The functions that submit differ in what they post, an
    entry or a task with an entry inside, and in whether they report a refusal. *)
Definition post_callback (i : nat) (e : Z) : prog world () := start_prod i (PNode e).
Definition goc_loop_submit_callback_if_running (i : nat) (e : Z) : prog world () := start_prod i (PLock e).
Definition post_on_loop (i : nat) (task : Z) : prog world () := start_prod i (PLock task).
Definition post_on_loop_checked (i : nat) (task : Z) : prog world () := start_prod i (PLock task).
Definition goc_loop_wakeup (i : nat) : prog world () := start_prod i (PSend SLoad).
Arguments post_callback _ _ /.
Arguments goc_loop_submit_callback_if_running _ _ /.
Arguments post_on_loop _ _ /.
Arguments post_on_loop_checked _ _ /.
Arguments goc_loop_wakeup _ /.

Definition step (ev : event) : prog world () := λ w,
  match ev with
  | EPost i e => post_callback i e w
  | ESubmit i e => goc_loop_submit_callback_if_running i e w
  | EPostOn i t => post_on_loop i t w
  | EPostOnChecked i t => post_on_loop_checked i t w
  | EWakeup i => goc_loop_wakeup i w
  | EProd i b =>
      match prods w !! i with
      | Some pc => (pc' ← prod_step i b pc; modify (set_prods (<[i := pc']>))) w
      | None => ok (tt, w)
      end
  | ELoop b => (pc' ← loop_step b (lpc w); modify (set_lpc pc')) w
  | EShut => (pc' ← shut_step (spc w); modify (set_spc pc')) w
  end.

End LoopQ.
