(* ===== verification/LoopQProps.v ===== *)
(** Properties of the callback queue: no interleaving touches a freed node, loses an entry
    or fires one twice or out of order; while the wake-up handle is open no posted callback
    is left behind when the loop thread sleeps; what shutdown runs and what it drops. *)

From S2P Require Import Prelude LoopQ.
Import LoopQ.

Module LoopQProps.

(** ** The queue *)

(** The nodes from [a] on, in the order in which they entered.  A link is written, or a
    producer is about to write it. *)
Fixpoint qchain (h : gmap positive mpsc_node) (ps : list prod_pc) (a : positive) (l : list positive) : Prop :=
  match l with
  | [] => ∃ x, h !! a = Some x ∧ next x = None
  | b :: l =>
      (∃ x, h !! a = Some x ∧ (next x = Some b ∨ next x = None ∧ ∃ i, ps !! i = Some (PLink b a))) ∧ qchain h ps b l
  end.

Definition uncounted (pc : prod_pc) : Prop := match pc with PLink _ _ | PAdd => True | _ => False end.
#[export] Instance uncounted_dec pc : Decision (uncounted pc).
Proof. destruct pc; simpl; apply _. Defined.

(** The entry the loop thread has taken off and not yet called. *)
Definition inflight (pc : loop_pc) : list Z := match pc with LSub _ e | LCall _ e => [e] | _ => [] end.
Definition unsubtracted (pc : loop_pc) : Z := match pc with LSub _ _ => 1 | _ => 0 end.

(** What a producer inside [cb_queue_push] relies on. *)
Definition prod_ok (h : gmap positive mpsc_node) (l : list positive) (pc : prod_pc) : Prop :=
  match pc with
  | PXchg n => n ∉ l ∧ ∃ e, h !! n = Some (mk_node None e)
  | PLink n prev => (∃ l1 l2, l = l1 ++ prev :: n :: l2) ∧ ∃ x, h !! prev = Some x ∧ next x = None
  | _ => True
  end.

Definition loop_ok (s : mpsc_queue) (pc : loop_pc) : Prop :=
  match pc with LFree _ n => ∃ x, nodes s !! tail s = Some x ∧ next x = Some n | _ => True end.

(** [rest] are the nodes behind the sentinel [tail]. *)
Record queue_ok (s : mpsc_queue) (ps : list prod_pc) (lp : loop_pc) (rest : list positive) : Prop := {
  qo_nodup : NoDup (tail s :: rest);
  qo_chain : qchain (nodes s) ps (tail s) rest;
  qo_head : last (tail s :: rest) = Some (head s);
  qo_prods : ∀ i pc, ps !! i = Some pc → prod_ok (nodes s) (tail s :: rest) pc;
  qo_xchg : ∀ i j n, ps !! i = Some (PXchg n) → ps !! j = Some (PXchg n) → i = j;
  qo_link : ∀ i j n m p, ps !! i = Some (PLink n p) → ps !! j = Some (PLink m p) → i = j;
  qo_loop : loop_ok s lp;
  qo_fifo : ∃ es, posted s = fired s ++ inflight lp ++ es ∧
    Forall2 (λ n e, ∃ x, nodes s !! n = Some x ∧ entry x = e) rest es;
  qo_dom : ∀ n, is_Some (nodes s !! n) → n ∈ tail s :: rest ∨ ∃ i, ps !! i = Some (PXchg n);
  qo_fresh : ∀ n, is_Some (nodes s !! n) → (n < next_id s)%positive;
  qo_depth : depth s = wrap64 (Z.of_nat (length rest) - Z.of_nat (count uncounted ps) + unsubtracted lp)
}.

Lemma qchain_in h ps a l n : qchain h ps a l → n ∈ a :: l → is_Some (h !! n).
Proof.
  revert a. induction l as [|b l IH]; intros a Hc [->|Hin]%elem_of_cons.
  - destruct Hc as (x & Hx & _). eauto.
  - by apply not_elem_of_nil in Hin.
  - destruct Hc as [(x & Hx & _) _]. eauto.
  - by apply (IH b); [apply Hc|].
Qed.

(** Steps that touch neither the links nor a producer that is about to link. *)
Lemma qchain_ext h h' ps ps' a l :
  (∀ n x, n ∈ a :: l → h !! n = Some x → ∃ x', h' !! n = Some x' ∧ next x' = next x) →
  (∀ i b c, c ∈ a :: l → ps !! i = Some (PLink b c) → ∃ j, ps' !! j = Some (PLink b c)) →
  qchain h ps a l → qchain h' ps' a l.
Proof.
  revert a. induction l as [|b l IH]; intros a Hh Hp; simpl.
  - intros (x & Hx & Hn). destruct (Hh a x) as (x' & ? & ?); [constructor|done|]. exists x'. by split; [|congruence].
  - intros [(x & Hx & Hn) Hc]. split.
    + destruct (Hh a x) as (x' & Hx' & Hn'); [constructor|done|]. exists x'. split; [done|]. rewrite Hn'.
      destruct Hn as [?|(? & i & Hi)]; [by left|right]. split; [done|]. eapply Hp; [constructor|done].
    + apply IH; [..|done]; intros; [apply Hh|eapply Hp]; try done; by constructor.
Qed.

Lemma qchain_snoc h ps a l n i p :
  qchain h ps a l → (∃ e, h !! n = Some (mk_node None e)) →
  last (a :: l) = Some p → ps !! i = Some (PLink n p) →
  qchain h ps a (l ++ [n]).
Proof.
  intros Hc [e He] Hlast Hi. revert a Hc Hlast. induction l as [|b l IH]; intros a; simpl.
  - intros (x & Hx & Hxn) [= ->]. split; [|by exists (mk_node None e)]. exists x. eauto 10.
  - intros [Hx Hc] Hlast. split; [done|]. by apply IH.
Qed.

(** The pending link after [prev] is written. *)
Lemma qchain_link h ps ps' a l l1 prev n l2 x :
  qchain h ps a l → NoDup (a :: l) → a :: l = l1 ++ prev :: n :: l2 → h !! prev = Some x →
  (∀ i b c, ps !! i = Some (PLink b c) → c ≠ prev → ∃ j, ps' !! j = Some (PLink b c)) →
  qchain (<[prev := mk_node (Some n) (entry x)]> h) ps' a l.
Proof.
  intros Hc Hnd Heq Hx Hp. revert a l1 Hc Hnd Heq. induction l as [|b l IH]; intros a l1 Hc Hnd Heq.
  { by destruct l1 as [|? [|]]; simplify_eq/=. }
  apply NoDup_cons in Hnd as [Ha Hnd]. destruct Hc as [(y & Hy & Hl) Hc]. simpl. destruct l1 as [|c l1].
  - injection Heq as -> -> ->. split; [exists (mk_node (Some n) (entry x)); rewrite lookup_insert_eq; by split; [|left]|].
    eapply qchain_ext; [..|exact Hc].
    + intros m z Hm Hz. exists z. rewrite lookup_insert_ne; [done|]. by intros <-.
    + intros i b c Hin Hi. eapply Hp; [done|]. by intros ->.
  - injection Heq as <- Heq. split; [|by eapply IH]. assert (prev ≠ a).
    { intros ->. apply Ha. rewrite Heq. apply elem_of_app. right. constructor. }
    exists y. rewrite lookup_insert_ne by done. split; [done|].
    destruct Hl as [?|(? & i & Hi)]; [by left|right]. split; [done|]. by eapply Hp.
Qed.

Lemma insert_at {A} (l : list A) i x y j z :
  l !! i = Some x → <[i := y]> l !! j = Some z ↔ (j = i ∧ z = y) ∨ (j ≠ i ∧ l !! j = Some z).
Proof.
  intros Hi. pose proof (lookup_lt_Some _ _ _ Hi). destruct (decide (j = i)) as [->|Hne].
  - rewrite list_lookup_insert_eq by done. split; [intros [= <-]; by left|by intros [[_ ->]|[? _]]].
  - rewrite list_lookup_insert_ne by done. split; [intros ?; by right|by intros [[? _]|[_ ?]]].
Qed.

Lemma last_not_inner {A} (l k : list A) x y k2 : NoDup (l ++ [x]) → l ++ [x] = k ++ x :: y :: k2 → False.
Proof.
  intros Hnd Heq. destruct k2 as [|z k2 _] using rev_ind;
    [change (k ++ [x; y]) with (k ++ [x] ++ [y]) in Heq|change (k ++ x :: y :: k2 ++ [z]) with (k ++ (x :: y :: k2) ++ [z]) in Heq];
    rewrite (app_assoc k) in Heq; apply app_inj_tail in Heq as [-> _]; apply NoDup_app in Hnd as (_ & Hnd & _);
    (eapply Hnd; [|constructor]); apply elem_of_app; right; constructor.
Qed.

Lemma Forall2_impl_in {A B} (P Q : A → B → Prop) l k :
  Forall2 P l k → (∀ x y, x ∈ l → P x y → Q x y) → Forall2 Q l k.
Proof.
  induction 1 as [|x y l k Hxy _ IH]; intros HPQ; constructor; [apply HPQ; [constructor|done]|].
  apply IH. intros a b Ha. apply HPQ. by constructor.
Qed.

(** A producer outside of [cb_queue_push]. *)
Definition plain (pc : prod_pc) : Prop := match pc with PXchg _ | PLink _ _ | PAdd => False | _ => True end.

Lemma plain_counted pc : plain pc → ¬ uncounted pc.
Proof. destruct pc; simpl; tauto. Qed.

Lemma count_step (ps : list prod_pc) i pc pc' : ps !! i = Some pc →
  (count uncounted (<[i := pc']> ps) + (if decide (uncounted pc) then 1 else 0)
   = count uncounted ps + (if decide (uncounted pc') then 1 else 0))%nat.
Proof. apply count_insert. Qed.

Lemma queue_ok_plain s ps lp rest i pc pc' :
  queue_ok s ps lp rest → ps !! i = Some pc → plain pc → plain pc' → queue_ok s (<[i := pc']> ps) lp rest.
Proof.
  intros [H1 H2 H3 H4 H5 H6 H7 H8 H9 H10 H11] Hi Hp Hp'.
  assert (∀ j x, ¬ plain x → ps !! j = Some x → <[i := pc']> ps !! j = Some x) as Hkeep.
  { intros j x Hx Hj. apply (insert_at _ _ _ _ _ _ Hi). right. split; [|done]. intros ->. apply Hx. by replace x with pc by congruence. }
  split; try done.
  - eapply qchain_ext; [..|exact H2]; [eauto|]. intros j b c _ Hj. exists j. apply Hkeep; [by intros []|done].
  - intros j x [[-> ->]|[_ Hj]]%(insert_at _ _ _ _ _ _ Hi); [by destruct pc'|by eapply H4].
  - intros j k n [[-> <-]|[_ Hj]]%(insert_at _ _ _ _ _ _ Hi) [[-> Hk]|[_ Hk]]%(insert_at _ _ _ _ _ _ Hi); try done.
    + by subst pc'.
    + by eapply H5.
  - intros j k n m p [[-> <-]|[_ Hj]]%(insert_at _ _ _ _ _ _ Hi) [[-> Hk]|[_ Hk]]%(insert_at _ _ _ _ _ _ Hi); try done.
    + by subst pc'.
    + by eapply H6.
  - intros n Hn. destruct (H9 n Hn) as [?|(j & Hj)]; [by left|right]. exists j. apply Hkeep; [by intros []|done].
  - pose proof (count_step ps i pc pc' Hi) as Hc. rewrite !decide_False in Hc by (by apply plain_counted).
    by replace (count uncounted (<[i := pc']> ps)) with (count uncounted ps) by lia.
Qed.

(** The loop thread outside of [cb_queue_pop]. *)
Definition loop_plain (pc : loop_pc) : Prop := match pc with LFree _ _ | LSub _ _ | LCall _ _ => False | _ => True end.

Lemma queue_ok_loop s ps lp lp' rest :
  queue_ok s ps lp rest → inflight lp' = inflight lp → unsubtracted lp' = unsubtracted lp → loop_ok s lp' →
  queue_ok s ps lp' rest.
Proof. intros [] Hi Hu Hl. split; rewrite ?Hi, ?Hu; done. Qed.

(** *** The steps of [cb_queue_push] *)

Lemma new_node_ok s ps lp rest i pc e :
  queue_ok s ps lp rest → ps !! i = Some pc → plain pc →
  queue_ok (mk_queue (<[next_id s := mk_node None e]> (nodes s)) (Pos.succ (next_id s)) (head s) (tail s) (depth s) (hwm s) (posted s) (fired s))
    (<[i := PXchg (next_id s)]> ps) lp rest.
Proof.
  intros [H1 H2 H3 H4 H5 H6 H7 H8 H9 H10 H11] Hi Hp. set (n := next_id s).
  assert (nodes s !! n = None) as Hn.
  { destruct (nodes s !! n) eqn:E; [|done]. assert (n < next_id s)%positive by (apply H10; eauto). subst n. lia. }
  assert (n ∉ tail s :: rest) as Hnin by (intros [x Hx]%(qchain_in _ _ _ _ _ H2); congruence).
  assert (∀ j x, ¬ plain x → ps !! j = Some x → <[i := PXchg n]> ps !! j = Some x) as Hkeep.
  { intros j x Hx Hj. apply (insert_at _ _ _ _ _ _ Hi). right. split; [|done]. intros ->. apply Hx. by replace x with pc by congruence. }
  assert (∀ m x, nodes s !! m = Some x → <[n := mk_node None e]> (nodes s) !! m = Some x) as Hold
    by (intros m x Hm; rewrite lookup_insert_ne; [done|congruence]).
  split; simpl; try done.
  - eapply qchain_ext; [..|exact H2]; [eauto|]. intros j b c _ Hj. exists j. apply Hkeep; [by intros []|done].
  - intros j x [[-> ->]|[_ Hj]]%(insert_at _ _ _ _ _ _ Hi).
    + split; [done|]. exists e. apply lookup_insert_eq.
    + pose proof (H4 j x Hj) as Hx. destruct x; try done; simpl in *.
      * destruct Hx as (? & e' & He'). eauto.
      * destruct Hx as (? & x & Hx & ?). eauto.
  - intros j k m [[-> [= <-]]|[Hjne Hj]]%(insert_at _ _ _ _ _ _ Hi) [[-> Hk]|[Hkne Hk]]%(insert_at _ _ _ _ _ _ Hi); try done.
    + destruct (H4 k _ Hk) as (_ & e' & He'). congruence.
    + simplify_eq. destruct (H4 j _ Hj) as (_ & e' & He'). congruence.
    + by eapply H5.
  - intros j k m m' p [[-> ?]|[_ Hj]]%(insert_at _ _ _ _ _ _ Hi) [[-> ?]|[_ Hk]]%(insert_at _ _ _ _ _ _ Hi); try done.
    by eapply H6.
  - destruct lp; try done. simpl in *. destruct H7 as (x & Hx & Hxn). eauto.
  - destruct H8 as (es & Hp1 & Hf). exists es. split; [done|]. eapply Forall2_impl; [exact Hf|]. intros m z (x & Hx & ?). eauto.
  - intros m. rewrite lookup_insert. case_decide as Hd.
    + intros _. right. exists i. subst m. apply (insert_at _ _ _ _ _ _ Hi). by left.
    + intros Hm. destruct (H9 m Hm) as [?|(j & Hj)]; [by left|right]. exists j. apply Hkeep; [by intros []|done].
  - intros m. rewrite lookup_insert. case_decide as Hd; [subst; intros _; lia|]. intros Hm%H10. lia.
  - pose proof (count_step ps i pc (PXchg n) Hi) as Hc. rewrite (decide_False (P := uncounted pc)) in Hc by (by apply plain_counted).
    simpl in Hc. by replace (count uncounted (<[i := PXchg n]> ps)) with (count uncounted ps) by lia.
Qed.

Lemma xchg_ok s ps lp rest i n e :
  queue_ok s ps lp rest → ps !! i = Some (PXchg n) → nodes s !! n = Some (mk_node None e) →
  queue_ok (swap_head n e s) (<[i := PLink n (head s)]> ps) lp (rest ++ [n]).
Proof.
  intros [H1 H2 H3 H4 H5 H6 H7 H8 H9 H10 H11] Hi Hn.
  destruct (H4 i _ Hi) as [Hnin _].
  assert (∃ l1, tail s :: rest = l1 ++ [head s]) as (l1 & Hl1) by (apply last_Some in H3 as [l Hl]; by exists l).
  assert (∃ x, nodes s !! head s = Some x ∧ next x = None) as Hhead.
  { clear - H2 H3. revert H2 H3. generalize (tail s) as a, (head s) as p. generalize (nodes s) as h. clear s. intros h a p.
    revert a. induction rest as [|b l IH]; intros a; simpl; [by intros ? [= <-]|]. intros [_ Hc] Hl. by apply (IH b). }
  split; simpl; try done.
  - change (NoDup ((tail s :: rest) ++ [n])). apply NoDup_app. split_and!; [done| |apply NoDup_singleton].
    intros x Hx ->%list_elem_of_singleton. done.
  - eapply (qchain_snoc _ _ _ _ n i (head s)); [|by eexists|done|by apply (insert_at _ _ _ _ _ _ Hi); left].
    eapply qchain_ext; [..|exact H2]; [eauto|]. intros j b c _ Hj. exists j. apply (insert_at _ _ _ _ _ _ Hi). right.
    split; [|done]. intros ->. congruence.
  - change (last ((tail s :: rest) ++ [n]) = Some n). by rewrite last_snoc.
  - intros j x [[-> ->]|[Hjne Hj]]%(insert_at _ _ _ _ _ _ Hi).
    + split; [|done]. exists l1, []. change (tail s :: rest ++ [n]) with ((tail s :: rest) ++ [n]). by rewrite Hl1, <- app_assoc.
    + pose proof (H4 j x Hj) as Hx. destruct x as [| | | |m|m prev| | | | | | |]; try done; simpl in *.
      * split; [|apply Hx]. change (m ∉ (tail s :: rest) ++ [n]). rewrite not_elem_of_app, list_elem_of_singleton.
        split; [apply Hx|]. intros ->. by destruct (Hjne (H5 _ _ _ Hj Hi)).
      * destruct Hx as [(k1 & k2 & Hk) Hx]. split; [|done]. exists k1, (k2 ++ [n]).
        change (tail s :: rest ++ [n]) with ((tail s :: rest) ++ [n]). by rewrite Hk, <- app_assoc.
  - intros j k m [[-> ?]|[_ Hj]]%(insert_at _ _ _ _ _ _ Hi) [[-> ?]|[_ Hk]]%(insert_at _ _ _ _ _ _ Hi); try done.
    by eapply H5.
  - assert (∀ j m, ps !! j = Some (PLink m (head s)) → False) as Hno.
    { intros j m Hj. destruct (H4 j _ Hj) as [(k1 & k2 & Hk) _]. rewrite Hl1 in Hk. rewrite Hl1 in H1.
      by eapply (last_not_inner l1 k1). }
    intros j k m m' p [[-> [= -> ->]]|[_ Hj]]%(insert_at _ _ _ _ _ _ Hi) [[-> Hk]|[_ Hk]]%(insert_at _ _ _ _ _ _ Hi); try done.
    + by apply Hno in Hk.
    + injection Hk as -> ->. by apply Hno in Hj.
    + by eapply H6.
  - destruct H8 as (es & Hp & Hf). exists (es ++ [e]). split; [by rewrite Hp, <- !app_assoc|].
    apply Forall2_app; [done|]. constructor; [|constructor]. by exists (mk_node None e).
  - intros m Hm. change (m ∈ (tail s :: rest) ++ [n] ∨ ∃ j, <[i := PLink n (head s)]> ps !! j = Some (PXchg m)).
    destruct (decide (m = n)) as [->|Hne].
    { left. apply elem_of_app. right. constructor. }
    destruct (H9 m Hm) as [?|(j & Hj)]; [left; apply elem_of_app; by left|right].
    exists j. apply (insert_at _ _ _ _ _ _ Hi). right. split; [|done]. intros ->. congruence.
  - rewrite H11, length_app. simpl. pose proof (count_step ps i _ (PLink n (head s)) Hi) as Hc. simpl in Hc. f_equal. lia.
Qed.

Lemma link_ok s ps lp rest i n prev x :
  queue_ok s ps lp rest → ps !! i = Some (PLink n prev) → nodes s !! prev = Some x →
  queue_ok (set_nodes (<[prev := mk_node (Some n) (entry x)]>) s) (<[i := PAdd]> ps) lp rest.
Proof.
  intros [H1 H2 H3 H4 H5 H6 H7 H8 H9 H10 H11] Hi Hx.
  destruct (H4 i _ Hi) as [(l1 & l2 & Hl) (y & Hy & Hyn)]. assert (y = x) as -> by congruence.
  assert (∀ j y, y ≠ PLink n prev → ps !! j = Some y → <[i := PAdd]> ps !! j = Some y) as Hkeep.
  { intros j z Hz Hj. apply (insert_at _ _ _ _ _ _ Hi). right. split; [|done]. intros ->. congruence. }
  assert (∀ m z, m ≠ prev → nodes s !! m = Some z → <[prev := mk_node (Some n) (entry x)]> (nodes s) !! m = Some z) as Hold
    by (intros m z Hm Hz; by rewrite lookup_insert_ne).
  split; simpl; try done.
  - eapply qchain_link; [exact H2|done|exact Hl|done|]. intros j b c Hj Hc. exists j. apply Hkeep; [congruence|done].
  - intros j z [[-> ->]|[Hne Hj]]%(insert_at _ _ _ _ _ _ Hi); [done|].
    pose proof (H4 j z Hj) as Hz. destruct z as [| | | |m|m prev'| | | | | | |]; try done; simpl in *.
    + split; [apply Hz|]. destruct Hz as [Hm (e & He)]. exists e. apply Hold; [|done]. intros ->. apply Hm. rewrite Hl.
      apply elem_of_app. right. constructor.
    + split; [apply Hz|]. destruct Hz as (_ & z & Hz & Hzn). exists z. split; [|done]. apply Hold; [|done].
      intros ->. by destruct (Hne (H6 _ _ _ _ _ Hj Hi)).
  - intros j k m [[-> ?]|[_ Hj]]%(insert_at _ _ _ _ _ _ Hi) [[-> ?]|[_ Hk]]%(insert_at _ _ _ _ _ _ Hi); try done.
    by eapply H5.
  - intros j k m m' p [[-> ?]|[_ Hj]]%(insert_at _ _ _ _ _ _ Hi) [[-> ?]|[_ Hk]]%(insert_at _ _ _ _ _ _ Hi); try done.
    by eapply H6.
  - destruct lp as [| | |b m| | | | | |]; try done. simpl in *. destruct H7 as (z & Hz & Hzn). exists z. split; [|done].
    apply Hold; [|done]. intros Ht. rewrite Ht in Hz. congruence.
  - destruct H8 as (es & Hp & Hf). exists es. split; [done|]. eapply Forall2_impl; [exact Hf|].
    intros m e (z & Hz & He). rewrite lookup_insert. case_decide; [|eauto]. subst m.
    exists (mk_node (Some n) (entry x)). split; [done|]. simpl. congruence.
  - intros m Hm. destruct (H9 m) as [?|(j & Hj)]; [|by left|right; exists j; by apply Hkeep].
    revert Hm. rewrite lookup_insert. case_decide; [subst; eauto|done].
  - intros m. rewrite lookup_insert. case_decide; [subst; intros _; eauto|apply H10].
  - pose proof (count_step ps i _ PAdd Hi) as Hc. simpl in Hc. rewrite H11. f_equal. lia.
Qed.

Lemma add_ok s ps lp rest i pc :
  queue_ok s ps lp rest → ps !! i = Some PAdd → plain pc →
  queue_ok (set_depth (depth s +% 1) s) (<[i := pc]> ps) lp rest.
Proof.
  intros [H1 H2 H3 H4 H5 H6 H7 H8 H9 H10 H11] Hi Hp.
  assert (∀ j y, y ≠ PAdd → ps !! j = Some y → <[i := pc]> ps !! j = Some y) as Hkeep.
  { intros j z Hz Hj. apply (insert_at _ _ _ _ _ _ Hi). right. split; [|done]. intros ->. congruence. }
  split; simpl; try done.
  - eapply qchain_ext; [..|exact H2]; [eauto|]. intros j b c _ Hj. exists j. by apply Hkeep.
  - intros j x [[-> ->]|[_ Hj]]%(insert_at _ _ _ _ _ _ Hi); [by destruct pc|by eapply H4].
  - intros j k n [[-> <-]|[_ Hj]]%(insert_at _ _ _ _ _ _ Hi) [[-> Hk]|[_ Hk]]%(insert_at _ _ _ _ _ _ Hi); try done.
    + by subst pc.
    + by eapply H5.
  - intros j k n m p [[-> <-]|[_ Hj]]%(insert_at _ _ _ _ _ _ Hi) [[-> Hk]|[_ Hk]]%(insert_at _ _ _ _ _ _ Hi); try done.
    + by subst pc.
    + by eapply H6.
  - intros n Hn. destruct (H9 n Hn) as [?|(j & Hj)]; [by left|right]. exists j. by apply Hkeep.
  - pose proof (count_step ps i _ pc Hi) as Hc. rewrite (decide_False (P := uncounted pc)) in Hc by (by apply plain_counted).
    simpl in Hc. rewrite H11. unfold wrap64. rewrite Zplus_mod_idemp_l. f_equal. lia.
Qed.

(** *** The steps of [cb_queue_pop] *)

Lemma pop_ok s ps b n rest x :
  queue_ok s ps (LFree b n) rest → nodes s !! n = Some x →
  ∃ rest', rest = n :: rest' ∧
    queue_ok (set_nodes (delete (tail s)) (set_tail n s)) ps (LSub b (entry x)) rest'.
Proof.
  intros [H1 H2 H3 H4 H5 H6 (t & Ht & Htn) (es & Hp & Hf) H9 H10 H11] Hx.
  destruct rest as [|m rest]; simpl in H2.
  { destruct H2 as (y & Hy & ?). congruence. }
  destruct H2 as [(y & Hy & Hl) Hc]. assert (y = t) as -> by congruence. assert (m = n) as -> by (destruct Hl as [?|[? _]]; congruence).
  exists rest. split; [done|]. apply NoDup_cons in H1 as [Hnin Hnd].
  assert (∀ k z, k ≠ tail s → nodes s !! k = Some z → delete (tail s) (nodes s) !! k = Some z) as Hold
    by (intros k z Hk Hz; by rewrite lookup_delete_ne).
  apply Forall2_cons_inv_l in Hf as (e & es' & (z & Hz & <-) & Hf & ->). assert (z = x) as -> by congruence.
  split; simpl; try done.
  - eapply qchain_ext; [..|exact Hc]; [|by eauto]. intros k z Hk Hkz. exists z. split; [|done]. apply Hold; [|done]. by intros ->.
  - intros i pc Hi. pose proof (H4 i pc Hi) as Hz'. destruct pc as [| | | |k|k prev| | | | | | |]; try done; simpl in *.
    + destruct Hz' as [Hk (e & He)]. apply not_elem_of_cons in Hk as [Hk1 Hk2]. split; [done|]. exists e. by apply Hold.
    + destruct Hz' as [(l1 & l2 & Hl12) (z & Hzp & Hzn)]. destruct l1 as [|a l1].
      { injection Hl12 as Hpt _ _. rewrite <- Hpt in Hzp. congruence. }
      injection Hl12 as <- Hl12. split; [by exists l1, l2|]. exists z. split; [|done]. apply Hold; [|done].
      intros ->. apply Hnin. rewrite Hl12. apply elem_of_app. right. constructor.
  - exists es'. split; [done|]. eapply Forall2_impl_in; [exact Hf|]. intros k e' Hin (z & Hzk & He'). exists z. split; [|done].
    apply Hold; [|done]. intros ->. apply Hnin. by constructor.
  - intros k [z [Hk Hkz]%lookup_delete_Some]. destruct (H9 k) as [[->|?]%elem_of_cons|?]; [eauto|done|by left|by right].
  - intros k [z [Hk Hkz]%lookup_delete_Some]. eauto.
  - rewrite H11. simpl. f_equal. lia.
Qed.

Lemma sub_ok s ps b e rest :
  queue_ok s ps (LSub b e) rest → queue_ok (set_depth (depth s -% 1) s) ps (LCall b e) rest.
Proof.
  intros [H1 H2 H3 H4 H5 H6 H7 H8 H9 H10 H11]. split; try done. simpl in *. rewrite H11. unfold wrap64.
  rewrite Zminus_mod_idemp_l. f_equal. lia.
Qed.

Lemma call_ok s ps b e rest :
  queue_ok s ps (LCall b e) rest → queue_ok (add_fired e s) ps (LDrain b) rest.
Proof.
  intros [H1 H2 H3 H4 H5 H6 H7 H8 H9 H10 H11]. split; try done. simpl in *. destruct H8 as (es & Hp & Hf).
  exists es. by rewrite Hp, <- !app_assoc.
Qed.

Lemma hwm_ok s ps lp rest d : queue_ok s ps lp rest → queue_ok (set_hwm d s) ps lp rest.
Proof. by intros []. Qed.

(** ** The wake-up *)

(** The handle is open and every send succeeded. *)
Definition awake (k : wakeup) : Prop := g_wakeup k = true ∧ closing k = false ∧ failed k = false.

(** A producer that will not return before it has seen to a wake-up. *)
Definition committed (pc : prod_pc) : Prop :=
  match pc with PHwm d | PCas d _ | PWakeup d => d = 0 | PClosing | PSend _ => True | _ => False end.

Record wake_ok (w : world) (rest : list positive) : Prop := {
  wo_pending : pending (wk w) = true →
    signal (wk w) = true ∨ lpc w = LWake ∨ lpc w = LSend SAsync ∨ ∃ i, prods w !! i = Some (PSend SAsync);
  wo_sleep : lpc w = LSleep → signal (wk w) = false →
    (∃ i pc, prods w !! i = Some pc ∧ committed pc) ∨ (length rest <= count uncounted (prods w))%nat
}.

(** A step of a producer that keeps its promise, or had none. *)
Lemma wake_keep w w' rest rest' i pc pc' :
  wake_ok w rest → prods w !! i = Some pc → prods w' = <[i := pc']> (prods w) → wk w' = wk w → lpc w' = lpc w →
  pc ≠ PSend SAsync → (committed pc → committed pc' ∨ pending (wk w) = true) →
  (lpc w = LSleep → (length rest <= count uncounted (prods w))%nat →
     committed pc' ∨ (length rest' <= count uncounted (prods w'))%nat) →
  wake_ok w' rest'.
Proof.
  intros [H1 H2] Hi Hp Hk Hl Hna Hc Hlen. split; rewrite Hk, Hl.
  - intros Hpe. destruct (H1 Hpe) as [?|[?|[?|(j & Hj)]]]; [tauto..|]. do 3 right. exists j. rewrite Hp.
    apply (insert_at _ _ _ _ _ _ Hi). right. split; [|done]. intros ->. congruence.
  - intros Hs Hsig. destruct (H2 Hs Hsig) as [(j & x & Hj & Hx)|Hle].
    + left. destruct (decide (j = i)) as [->|Hne].
      * assert (x = pc) as -> by congruence. destruct (Hc Hx) as [Hc'|Hpe].
        { exists i, pc'. rewrite Hp. split; [|done]. apply (insert_at _ _ _ _ _ _ Hi). by left. }
        destruct (H1 Hpe) as [?|[?|[?|(j & Hj')]]]; [congruence..|]. exists j, (PSend SAsync). rewrite Hp. split; [|done].
        apply (insert_at _ _ _ _ _ _ Hi). right. split; [|done]. intros ->. congruence.
      * exists j, x. rewrite Hp. split; [|done]. apply (insert_at _ _ _ _ _ _ Hi). by right.
    + destruct (Hlen Hs Hle) as [Hcm|?]; [left|by right]. exists i, pc'. rewrite Hp. split; [|done].
      apply (insert_at _ _ _ _ _ _ Hi). by left.
Qed.

(** ** The submit lock *)

Definition holding (pc : prod_pc) : Prop := match pc with PIdle | PLock _ => False | _ => True end.
Definition at_gate (pc : prod_pc) : Prop := match pc with PCheck _ | PUnlock => True | _ => False end.

Record lock_ok (w : world) : Prop := {
  lk_holder : ∀ i, submit_lock w = Some i →
    ∃ pc, prods w !! i = Some pc ∧ holding pc ∧ (loop_state w ≠ RUNNING → at_gate pc);
  lk_gate : ∀ i pc, prods w !! i = Some pc → at_gate pc → submit_lock w = Some i
}.

Lemma lock_keep w w' i pc pc' :
  lock_ok w → prods w !! i = Some pc → prods w' = <[i := pc']> (prods w) → loop_state w' = loop_state w →
  submit_lock w' = submit_lock w →
  (submit_lock w = Some i → holding pc' ∧ (loop_state w ≠ RUNNING → at_gate pc')) →
  (at_gate pc' → submit_lock w = Some i) → lock_ok w'.
Proof.
  intros [H1 H2] Hi Hp Hs Hl Hh Hg. split; rewrite ?Hs, Hl.
  - intros j Hj. destruct (decide (j = i)) as [->|Hne].
    + exists pc'. rewrite Hp. split; [apply (insert_at _ _ _ _ _ _ Hi); by left|]. by apply Hh.
    + destruct (H1 j Hj) as (x & Hx & Hrest). exists x. rewrite Hp. split; [|done]. apply (insert_at _ _ _ _ _ _ Hi). by right.
  - intros j x. rewrite Hp. intros [[-> ->]|[_ Hj]]%(insert_at _ _ _ _ _ _ Hi); [done|by eapply H2].
Qed.

Record inv (w : world) (rest : list positive) : Prop := {
  iv_queue : queue_ok (q w) (prods w) (lpc w) rest;
  iv_wake : awake (wk w) → wake_ok w rest;
  iv_lock : lock_ok w
}.

(** *** Producers *)

Lemma inv_move w rest i pc pc' :
  inv w rest → prods w !! i = Some pc → plain pc → plain pc' → pc ≠ PSend SAsync →
  (awake (wk w) → committed pc → committed pc' ∨ pending (wk w) = true) →
  (submit_lock w = Some i → holding pc' ∧ (loop_state w ≠ RUNNING → at_gate pc')) →
  (at_gate pc' → submit_lock w = Some i) →
  inv (set_prods (<[i := pc']>) w) rest.
Proof.
  intros [Hq Hw Hl] Hi Hp Hp' Hna Hc Hh Hg. split; simpl.
  - by eapply queue_ok_plain.
  - intros Ha. eapply (wake_keep w _ rest rest i pc pc'); try done; [by apply Hw|by apply Hc|].
    intros _ Hle. right. simpl. pose proof (count_step (prods w) i pc pc' Hi) as Hcn.
    rewrite !decide_False in Hcn by (by apply plain_counted). lia.
  - by eapply (lock_keep w _ i pc pc').
Qed.

(** A submitter inside [post_callback] found the loop running, and it still is. *)
Lemma inner_running w i pc : lock_ok w → prods w !! i = Some pc → ¬ at_gate pc → submit_lock w = Some i → loop_state w = RUNNING.
Proof.
  intros [H1 _] Hi Hg Hl. destruct (H1 i Hl) as (x & Hx & _ & Hs). assert (x = pc) as -> by congruence.
  destruct (decide (loop_state w = RUNNING)); [done|]. by destruct (Hg (Hs n)).
Qed.

Lemma inv_inner w rest i pc pc' :
  inv w rest → prods w !! i = Some pc → plain pc → plain pc' → ¬ at_gate pc → ¬ at_gate pc' → holding pc' → pc ≠ PSend SAsync →
  (awake (wk w) → committed pc → committed pc') →
  inv (set_prods (<[i := pc']>) w) rest.
Proof.
  intros Hinv Hi Hp Hp' Hg Hg' Hh Hna Hc. apply (inv_move w rest i pc pc'); try done; [by left; apply Hc|].
  - intros Hl. split; [done|]. intros Hs. by destruct (Hs (inner_running w i pc (iv_lock _ _ Hinv) Hi Hg Hl)).
Qed.

Lemma cbq_finish_ok w rest i pc :
  inv w rest → prods w !! i = Some pc → plain pc → pc ≠ PSend SAsync → ¬ at_gate pc →
  (awake (wk w) → committed pc → pending (wk w) = true) →
  ∃ pc', finish i w = ok (pc', w) ∧ inv (set_prods (<[i := pc']>) w) rest.
Proof.
  intros Hinv Hi Hp Hna Hg Hc. unfold finish, gets. eexists. split; [done|].
  apply (inv_move w rest i pc); try done.
  - by destruct (decide _).
  - intros Ha Hcm. right. by apply Hc.
  - intros Hl. by rewrite decide_True.
  - by destruct (decide (submit_lock w = Some i)).
Qed.

(** The inner steps that touch the queue. *)
Lemma inv_queue_step w rest rest' i pc pc' s' :
  inv w rest → prods w !! i = Some pc → queue_ok s' (<[i := pc']> (prods w)) (lpc w) rest' →
  ¬ at_gate pc → ¬ at_gate pc' → holding pc' → ¬ committed pc →
  (lpc w = LSleep → (length rest <= count uncounted (prods w))%nat →
     committed pc' ∨ (length rest' <= count uncounted (<[i := pc']> (prods w)))%nat) →
  inv (set_prods (<[i := pc']>) (set_q (λ _, s') w)) rest'.
Proof.
  intros [Hq Hw Hl] Hi Hq' Hg Hg' Hh Hc Hlen. split; simpl; [done|..].
  - intros Ha. eapply (wake_keep w _ rest rest' i pc pc'); try done; [by apply Hw|].
    intros ->. by apply Hc.
  - eapply (lock_keep w _ i pc pc'); try done. intros Hlk. split; [done|]. intros Hs.
    by destruct (Hs (inner_running w i pc Hl Hi Hg Hlk)).
Qed.

Lemma cbq_push_step_ok w rest i b pc :
  inv w rest → prods w !! i = Some pc → (match pc with PNode _ | PXchg _ | PLink _ _ | PAdd => True | _ => False end) →
  ∃ pc' w1 rest', prod_step i b pc w = ok (pc', w1) ∧ inv (set_prods (<[i := pc']>) w1) rest'.
Proof.
  intros Hinv Hi Hpc. pose proof (iv_queue _ _ Hinv) as Hq. destruct pc as [| | |e|n|n prev| | | | | | |]; try done; simpl.
  - eexists _, _, rest. split; [done|].
    eapply (inv_queue_step w rest rest i _ (PXchg (next_id (q w)))); try done; [by eapply new_node_ok|by intros []..|].
    intros _ Hle. right. pose proof (count_step (prods w) i _ (PXchg (next_id (q w))) Hi) as Hc. simpl in Hc. lia.
  - destruct (qo_prods _ _ _ _ Hq i _ Hi) as [Hn (e & He)].
    eexists _, _, (rest ++ [n]). split; [unfold get_node, mbind, prog_bind; rewrite He; done|].
    eapply (inv_queue_step w rest _ i _ (PLink n (head (q w)))); try done; [by apply xchg_ok|by intros []..|].
    intros _ Hle. right. pose proof (count_step (prods w) i _ (PLink n (head (q w))) Hi) as Hc. simpl in Hc.
    rewrite length_app. simpl. lia.
  - destruct (qo_prods _ _ _ _ Hq i _ Hi) as [_ (x & Hx & _)].
    eexists _, _, rest. split; [unfold get_node, mbind, prog_bind; rewrite Hx; done|].
    eapply (inv_queue_step w rest _ i _ PAdd); try done; [by apply link_ok|by intros []..|].
    intros _ Hle. right. pose proof (count_step (prods w) i _ PAdd Hi) as Hc. simpl in Hc. lia.
  - eexists _, _, rest. split; [done|].
    eapply (inv_queue_step w rest _ i _ (PHwm (depth (q w)))); try done; [by apply add_ok|by intros []..|].
    intros Hs Hle. pose proof (count_step (prods w) i _ (PHwm (depth (q w))) Hi) as Hc. simpl in Hc.
    destruct (decide (length rest = count uncounted (prods w))) as [Heq|Hne]; [left|right; lia].
    simpl. rewrite (qo_depth _ _ _ _ Hq), Hs, Heq. simpl. by rewrite Z.sub_diag.
Qed.

(** A send that changes the handle. *)
Lemma inv_wk_step w rest i pc pc' f :
  inv w rest → prods w !! i = Some pc → plain pc → plain pc' →
  (awake (f (wk w)) → wake_ok (set_prods (<[i := pc']>) (set_wk f w)) rest) →
  (submit_lock w = Some i → holding pc' ∧ (loop_state w ≠ RUNNING → at_gate pc')) →
  (at_gate pc' → submit_lock w = Some i) →
  inv (set_prods (<[i := pc']>) (set_wk f w)) rest.
Proof.
  intros [Hq Hw Hl] Hi Hp Hp' Hwk Hh Hg. split; simpl; [by eapply queue_ok_plain|done|by eapply (lock_keep w _ i pc pc')].
Qed.

Lemma set_pending_id w : pending (wk w) = true → set_wk (set_pending true) w = w.
Proof. destruct w as [? []]. simpl. by intros ->. Qed.

Lemma send_prod_ok w rest i b s :
  inv w rest → prods w !! i = Some (PSend s) →
  ∃ pc' w1, prod_step i b (PSend s) w = ok (pc', w1) ∧ inv (set_prods (<[i := pc']>) w1) rest.
Proof.
  intros Hinv Hi. destruct s; simpl.
  - unfold mbind at 1, prog_bind at 1. simpl. destruct (g_wakeup (wk w)) eqn:Hg.
    + eexists _, _. split; [done|]. by eapply inv_inner; try done; intros [].
    + destruct (cbq_finish_ok w rest i _ Hinv Hi) as (pc' & Hf & Hinv'); try done; [by intros []|intros []; congruence|]. eauto.
  - unfold mbind at 1, prog_bind at 1. simpl. destruct (closing (wk w)) eqn:Hg.
    + destruct (cbq_finish_ok w rest i _ Hinv Hi) as (pc' & Hf & Hinv'); try done; [by intros []|intros (? & ? & ?); congruence|]. eauto.
    + eexists _, _. split; [done|]. by eapply inv_inner; try done; intros [].
  - unfold mbind at 1, prog_bind at 1. simpl. destruct (pending (wk w)) eqn:Hg.
    + destruct (cbq_finish_ok w rest i _ Hinv Hi) as (pc' & Hf & Hinv'); try done; [by intros []|].
      rewrite set_pending_id by done. eauto.
    + eexists _, _. split; [done|]. eapply inv_wk_step; try done; [|by intros Hl; split; [|intros Hs; destruct (Hs (inner_running w i _ (iv_lock _ _ Hinv) Hi ltac:(by intros []) Hl))]].
      intros _. assert (<[i := PSend SAsync]> (prods w) !! i = Some (PSend SAsync)) as Hin by (apply (insert_at _ _ _ _ _ _ Hi); by left).
      split; simpl; [eauto|]. left. by exists i, (PSend SAsync).
  - assert (∀ f, (awake (f (wk w)) → signal (f (wk w)) = true) →
        ∃ pc' w1, finish i (set_wk f w) = ok (pc', w1) ∧ inv (set_prods (<[i := pc']>) w1) rest) as Hf.
    { intros f Hsig. unfold finish, gets. eexists _, _. split; [done|]. eapply inv_wk_step; try done; simpl.
      - by destruct (decide _).
      - intros Ha. split; simpl; [by left; apply Hsig|]. intros _ Hs. rewrite Hsig in Hs by done. done.
      - intros Hl. by rewrite decide_True.
      - by destruct (decide (submit_lock w = Some i)). }
    unfold mbind at 1, prog_bind at 1. destruct b; simpl; apply Hf; simpl; [done|]. by intros (_ & _ & [=]).
Qed.

Lemma inv_hwm w rest d : inv w rest → inv (set_q (set_hwm d) w) rest.
Proof. intros [Hq Hw Hl]. split; simpl; [by apply hwm_ok|intros Ha; by destruct (Hw Ha)|by destruct Hl]. Qed.

(** Taking and releasing the lock. *)
Lemma inv_lock_step w rest i pc pc' l :
  inv w rest → prods w !! i = Some pc → plain pc → plain pc' → ¬ committed pc →
  lock_ok (set_prods (<[i := pc']>) (set_lock l w)) →
  inv (set_prods (<[i := pc']>) (set_lock l w)) rest.
Proof.
  intros [Hq Hw Hl] Hi Hp Hp' Hc Hlk. split; simpl; [by eapply queue_ok_plain| |done].
  intros Ha. eapply (wake_keep w _ rest rest i pc pc'); try done; [by apply Hw|by intros ->; destruct Hc|].
  intros _ Hle. right. simpl. pose proof (count_step (prods w) i pc pc' Hi) as Hcn.
  rewrite !decide_False in Hcn by (by apply plain_counted). lia.
Qed.

Lemma lock_prod_ok w rest i b e :
  inv w rest → prods w !! i = Some (PLock e) →
  ∃ pc' w1, prod_step i b (PLock e) w = ok (pc', w1) ∧ inv (set_prods (<[i := pc']>) w1) rest.
Proof.
  intros Hinv Hi. pose proof (iv_lock _ _ Hinv) as Hlk. simpl. unfold mbind at 1, prog_bind at 1. simpl.
  destruct (submit_lock w) as [k|] eqn:Hl.
  - eexists _, w. split; [done|]. apply (inv_move w rest i (PLock e)); try done.
    intros Hl'. destruct (lk_holder _ Hlk i Hl') as (x & Hx & Hh & _). assert (x = PLock e) as -> by congruence. done.
  - eexists _, _. split; [done|]. eapply inv_lock_step; try done; [by intros []|]. split; simpl.
    + intros j [= <-]. exists (PCheck e). split; [apply (insert_at _ _ _ _ _ _ Hi); by left|done].
    + intros j x [[-> _]|[_ Hj]]%(insert_at _ _ _ _ _ _ Hi); [done|]. intros Hg. rewrite (lk_gate _ Hlk j x Hj Hg) in Hl. done.
Qed.

Lemma gate_prod_ok w rest i b pc :
  inv w rest → prods w !! i = Some pc → at_gate pc →
  ∃ pc' w1, prod_step i b pc w = ok (pc', w1) ∧ inv (set_prods (<[i := pc']>) w1) rest.
Proof.
  intros Hinv Hi Hg. pose proof (iv_lock _ _ Hinv) as Hlk. pose proof (lk_gate _ Hlk i pc Hi Hg) as Hl.
  destruct pc; try done; simpl.
  - unfold mbind at 1, prog_bind at 1. simpl. destruct (decide (loop_state w = RUNNING)) as [Hr|Hr].
    + eexists _, w. split; [done|]. by apply (inv_move w rest i (PCheck e)).
    + eexists _, _. split; [done|]. assert (inv (add_rejected e w) rest) as Hinv'.
      { destruct Hinv as [Hq Hw []]. split; simpl; [done|intros Ha; by destruct (Hw Ha)|done]. }
      by apply (inv_move (add_rejected e w) rest i (PCheck e)).
  - eexists _, _. split; [done|]. eapply inv_lock_step; try done; [by intros []|]. split; simpl; [done|].
    intros j x [[-> ->]|[Hne Hj]]%(insert_at _ _ _ _ _ _ Hi); [done|]. intros Hg'.
    rewrite (lk_gate _ Hlk j x Hj Hg') in Hl. by simplify_eq.
Qed.

Lemma prod_step_ok w rest i b pc :
  inv w rest → prods w !! i = Some pc →
  ∃ pc' w1 rest', prod_step i b pc w = ok (pc', w1) ∧ inv (set_prods (<[i := pc']>) w1) rest'.
Proof.
  intros Hinv Hi. pose proof (iv_lock _ _ Hinv) as Hlk.
  destruct pc as [|e|e|e|n|n prev| |d|d h|d| |s|]; try (by eapply cbq_push_step_ok).
  - eexists _, w, rest. split; [done|]. apply (inv_move w rest i PIdle); try done.
    intros Hl. destruct (lk_holder _ Hlk i Hl) as (x & Hx & Hh & _). by simplify_eq.
  - destruct (lock_prod_ok w rest i b e Hinv Hi) as (pc' & w1 & ? & ?). eauto.
  - destruct (gate_prod_ok w rest i b (PCheck e) Hinv Hi) as (pc' & w1 & ? & ?); [done|]. eauto.
  - eexists _, w, rest. split; [done|]. by eapply inv_inner; try done; intros [].
  - simpl. destruct (h <? _) eqn:Hlt.
    + unfold mbind at 1, prog_bind at 1. simpl. destruct (b && (hwm (q w) =? h)).
      * eexists _, _, rest. split; [done|].
        apply (inv_hwm (set_prods (<[i := PWakeup d]>) w)). by eapply inv_inner; try done; intros [].
      * eexists _, w, rest. split; [done|]. by eapply inv_inner; try done; intros [].
    + eexists _, w, rest. split; [done|]. by eapply inv_inner; try done; intros [].
  - simpl. unfold mbind at 1, prog_bind at 1. simpl. destruct (g_wakeup (wk w) && (d =? 0)) eqn:Hg.
    + eexists _, w, rest. split; [done|]. by eapply inv_inner; try done; intros [].
    + destruct (cbq_finish_ok w rest i _ Hinv Hi) as (pc' & Hf & Hinv'); try done; [by intros []| |eauto].
      intros (Hgw & _) Hc. simpl in Hc. subst d. by rewrite Hgw in Hg.
  - simpl. unfold mbind at 1, prog_bind at 1. simpl. destruct (closing (wk w)) eqn:Hg.
    + destruct (cbq_finish_ok w rest i _ Hinv Hi) as (pc' & Hf & Hinv'); try done; [by intros []| |eauto].
      intros (_ & ? & _). congruence.
    + eexists _, w, rest. split; [done|]. by eapply inv_inner; try done; intros [].
  - destruct (send_prod_ok w rest i b s Hinv Hi) as (pc' & w1 & ? & ?). eauto.
  - destruct (gate_prod_ok w rest i b PUnlock Hinv Hi) as (pc' & w1 & ? & ?); [done|]. eauto.
Qed.

(** *** The loop thread *)

Lemma lock_ok_same w w' : lock_ok w → submit_lock w' = submit_lock w → loop_state w' = loop_state w → prods w' = prods w → lock_ok w'.
Proof. intros [] H1 H2 H3. split; rewrite ?H1, ?H2, ?H3; done. Qed.

(** A step inside the drain. *)
Lemma inv_drain w rest rest' pc' s' :
  inv w rest → lpc w ≠ LWake → lpc w ≠ LSend SAsync → pc' ≠ LSleep → queue_ok s' (prods w) pc' rest' →
  inv (set_lpc pc' (set_q (λ _, s') w)) rest'.
Proof.
  intros [Hq Hw Hl] H1 H2 H3 Hq'. split; simpl; [done| |by eapply lock_ok_same].
  intros Ha. destruct (Hw Ha) as [Hp Hs]. split; simpl; [|done].
  intros Hpe. destruct (Hp Hpe) as [?|[?|[?|?]]]; tauto.
Qed.

Lemma inv_drain_move w rest pc' :
  inv w rest → lpc w ≠ LWake → lpc w ≠ LSend SAsync → pc' ≠ LSleep → inflight pc' = inflight (lpc w) →
  unsubtracted pc' = unsubtracted (lpc w) → loop_ok (q w) pc' → inv (set_lpc pc' w) rest.
Proof.
  intros Hinv H1 H2 H3 Hi Hu Hlo. assert (set_lpc pc' w = set_lpc pc' (set_q (λ _, q w) w)) as -> by done.
  apply (inv_drain w rest); try done. eapply queue_ok_loop; [apply Hinv|done..].
Qed.

(** The drain ends: back to sleep, or to the end of the loop. *)
Lemma drained_ok w rest f :
  inv w rest → inflight (lpc w) = [] → unsubtracted (lpc w) = 0 →
  (awake (f (wk w)) → wake_ok (set_lpc LSleep (set_wk f w)) rest) →
  ∃ pc', drained (set_wk f w) = ok (pc', set_wk f w) ∧ inv (set_lpc pc' (set_wk f w)) rest.
Proof.
  intros [Hq Hw Hl] Hi Hu Hwk. unfold drained. eexists. split; [done|].
  split; simpl; [eapply queue_ok_loop; [done|rewrite ?Hi, ?Hu; by destruct (stopping w)..]| |by eapply lock_ok_same].
  intros Ha. destruct (Hwk Ha) as [H1 H2]. destruct (stopping w); split; simpl; try done.
  intros Hp. destruct (H1 Hp) as [?|[?|[?|?]]]; try done; tauto.
Qed.

Lemma wk_id w : set_wk (λ k, k) w = w.
Proof. by destruct w. Qed.

Lemma cbq_pop_step_ok w rest b : inv w rest →
  match lpc w with LDrain _ | LFree _ _ | LSub _ _ | LCall _ _ => True | _ => False end →
  ∃ pc' w1 rest', loop_step b (lpc w) w = ok (pc', w1) ∧ inv (set_lpc pc' w1) rest'.
Proof.
  intros Hinv Hpc. pose proof (iv_queue _ _ Hinv) as Hq. destruct (lpc w) as [| |[|n]|n m|n e|n e| | | |] eqn:Hl; try done.
  - eexists _, w, rest. split; [done|]. apply inv_drain_move; rewrite ?Hl; done.
  - destruct (qchain_in _ _ _ _ (tail (q w)) (qo_chain _ _ _ _ Hq)) as [x Hx]; [constructor|].
    assert (∀ r, loop_step b (LDrain (S n)) w = r ↔
      (match next x with None => mret LCheck | Some m => mret (LFree n m) end : prog world loop_pc) w = r) as Hstep.
    { intros r. simpl. unfold mbind at 1, prog_bind at 1. simpl. unfold get_node, mbind, prog_bind. by rewrite Hx. }
    destruct (next x) as [m|] eqn:Hn; eexists _, w, rest; (split; [by apply Hstep|]); apply inv_drain_move; rewrite ?Hl; try done.
    simpl. eauto.
  - destruct (qo_loop _ _ _ _ Hq) as (t & Ht & Htn). destruct rest as [|m' rest].
    { destruct (qo_chain _ _ _ _ Hq) as (y & Hy & ?). congruence. }
    destruct (qo_chain _ _ _ _ Hq) as [(y & Hy & Hm) Hc]. assert (m' = m) as -> by (destruct Hm as [?|[? _]]; congruence).
    destruct (qchain_in _ _ _ _ m Hc) as [x Hx]; [constructor|].
    destruct (pop_ok _ _ _ _ _ x Hq Hx) as (rest' & [= <-] & Hq').
    eexists _, _, rest. split.
    { simpl. unfold mbind, prog_bind, get_node. simpl. rewrite Hx. unfold free_node, mbind, prog_bind, get_node. simpl. rewrite Ht. done. }
    apply (inv_drain w _ rest (LSub n (entry x)) _ Hinv); rewrite ?Hl; done.
  - eexists _, _, rest. split; [done|]. apply (inv_drain w _ rest _ _ Hinv); rewrite ?Hl; try done. by apply sub_ok.
  - eexists _, _, rest. split; [done|]. apply (inv_drain w _ rest _ _ Hinv); rewrite ?Hl; try done. by apply call_ok.
Qed.

Definition bounded (w : world) : Prop := Z.of_nat (length (posted (q w))) + Z.of_nat (length (prods w)) < 2 ^ 62.

Lemma bounded_rest w rest : inv w rest → bounded w → Z.of_nat (length rest) + Z.of_nat (count uncounted (prods w)) < 2 ^ 62.
Proof.
  intros [Hq _ _] Hb. unfold bounded in Hb. destruct (qo_fifo _ _ _ _ Hq) as (es & Hp & Hf).
  apply Forall2_length in Hf. rewrite Hp, !length_app in Hb. pose proof (count_le uncounted (prods w)). lia.
Qed.

Lemma check_step_ok w rest b : inv w rest → bounded w → lpc w = LCheck →
  ∃ pc' w1, loop_step b LCheck w = ok (pc', w1) ∧ inv (set_lpc pc' w1) rest.
Proof.
  intros Hinv Hb Hl. pose proof (qo_depth _ _ _ _ (iv_queue _ _ Hinv)) as Hd. rewrite Hl in Hd. simpl in Hd.
  simpl. unfold mbind at 1, prog_bind at 1. simpl. destruct (Z.ltb_spec 0 (depth (q w))) as [Hpos|Hz].
  - eexists _, w. split; [done|]. apply inv_drain_move; rewrite ?Hl; done.
  - pose proof (bounded_rest w rest Hinv Hb) as Hbr.
    destruct (drained_ok w rest (λ k, k) Hinv) as (pc' & Hdr & Hinv'); [by rewrite Hl..| |rewrite wk_id in *; eauto].
    rewrite wk_id. intros Ha. destruct (iv_wake _ _ Hinv Ha) as [Hp _]. split; simpl.
    + intros Hpe. destruct (Hp Hpe) as [?|[?|[?|?]]]; [tauto|congruence..|tauto].
    + intros _ _. right. unfold wrap64 in Hd. pose proof (Z.mod_pos_bound (Z.of_nat (length rest) - Z.of_nat (count uncounted (prods w)) + 0) WORD) as Hmod.
      destruct (decide (Z.of_nat (length rest) - Z.of_nat (count uncounted (prods w)) <= 0)); [lia|].
      rewrite Z.mod_small in Hd; unfold WORD in *; lia.
Qed.

Lemma send_loop_ok w rest b s : inv w rest → lpc w = LSend s →
  ∃ pc' w1, loop_step b (LSend s) w = ok (pc', w1) ∧ inv (set_lpc pc' w1) rest.
Proof.
  intros Hinv Hl.
  assert (∀ f, (awake (f (wk w)) → signal (f (wk w)) = true ∨ (s = SXchg ∧ pending (wk w) = true ∧ f (wk w) = wk w)) →
      ∃ pc' w1, drained (set_wk f w) = ok (pc', w1) ∧ inv (set_lpc pc' w1) rest) as Hdone.
  { intros f Hf. destruct (drained_ok w rest f Hinv) as (pc' & Hd & Hi); [by rewrite Hl..| |eauto].
    intros Ha. destruct (Hf Ha) as [Hs|(-> & Hp & Hfw)].
    - split; simpl; [by left|]. intros _. rewrite Hs. done.
    - rewrite Hfw in Ha. destruct (iv_wake _ _ Hinv Ha) as [H1 _]. split; simpl; rewrite Hfw; intros;
        (destruct (H1 Hp) as [?|[?|[?|(j & Hj)]]]; [|congruence..|]); [tauto|eauto|congruence|left; by exists j, (PSend SAsync)]. }
  destruct s; simpl; unfold mbind at 1, prog_bind at 1; simpl.
  - destruct (g_wakeup (wk w)) eqn:Hg.
    + eexists _, w. split; [done|]. apply inv_drain_move; rewrite ?Hl; done.
    + pose proof (Hdone (λ k, k)) as Hd. rewrite wk_id in Hd. apply Hd. intros []; congruence.
  - destruct (closing (wk w)) eqn:Hg.
    + pose proof (Hdone (λ k, k)) as Hd. rewrite wk_id in Hd. apply Hd. intros (? & ? & ?). congruence.
    + eexists _, w. split; [done|]. apply inv_drain_move; rewrite ?Hl; done.
  - destruct (pending (wk w)) eqn:Hg.
    + apply Hdone. intros _. right. split_and!; [done|done|]. destruct (wk w). simpl in *. by subst.
    + eexists _, _. split; [done|]. destruct Hinv as [Hq Hw Hk]. split; simpl; [|intros _; split; simpl; try done; tauto|by eapply lock_ok_same].
      eapply queue_ok_loop; [exact Hq|by rewrite Hl..|done].
  - destruct b; simpl; apply Hdone; simpl; [by left|]. by intros (_ & _ & [=]).
Qed.

Lemma serve_signal_ok w rest : inv w rest → inflight (lpc w) = [] → unsubtracted (lpc w) = 0 → inv (set_lpc LWake (set_wk (set_signal false) w)) rest.
Proof.
  intros [Hq Hw Hk] Hi Hu. split; simpl; [|intros Ha; split; simpl; try done; tauto|by eapply lock_ok_same].
  eapply queue_ok_loop; [exact Hq|by rewrite ?Hi, ?Hu..|done].
Qed.

Lemma loop_step_ok w rest b : inv w rest → bounded w →
  ∃ pc' w1 rest', loop_step b (lpc w) w = ok (pc', w1) ∧ inv (set_lpc pc' w1) rest'.
Proof.
  intros Hinv Hb. pose proof Hinv as [Hq Hw Hk].
  destruct (lpc w) as [| |n|n m|n e|n e| |s| |] eqn:Hl; try (rewrite <- Hl; apply (cbq_pop_step_ok w rest b Hinv); by rewrite Hl).
  - simpl. unfold mbind, prog_bind, gets. simpl. destruct (signal (wk w) && (b || negb (shut_signal w))).
    { eexists _, _, rest. split; [done|]. apply serve_signal_ok; by rewrite ?Hl. }
    assert (set_lpc LSleep w = w) as Hid by (destruct w; simpl in *; by subst).
    destruct (shut_signal w); [|exists LSleep, w, rest; split; [done|by rewrite Hid]].
    destruct (submit_lock w) as [k|] eqn:Hlk; [exists LSleep, w, rest; split; [done|by rewrite Hid]|].
    eexists _, _, rest. split; [done|]. split; simpl.
    + eapply queue_ok_loop; [exact Hq|done..].
    + intros Ha. destruct (Hw Ha) as [H1 H2]. split; simpl; [|done]. intros Hp. destruct (H1 Hp) as [?|[?|[?|?]]]; [tauto|congruence..|tauto].
    + destruct Hk as [Hk1 Hk2]. split; simpl; [congruence|]. intros i pc Hi Hg. by rewrite <- (Hk2 i pc Hi Hg).
  - eexists _, _, rest. split; [done|]. split; simpl; [eapply queue_ok_loop; [exact Hq|done..]|done|by eapply lock_ok_same].
  - destruct (check_step_ok w rest b Hinv Hb Hl) as (pc' & w1 & ? & ?). eauto.
  - destruct (send_loop_ok w rest b s Hinv Hl) as (pc' & w1 & ? & ?). eauto.
  - simpl. unfold mbind at 1, prog_bind at 1. simpl. destruct (b && signal (wk w)).
    + eexists _, _, rest. split; [done|]. apply serve_signal_ok; by rewrite ?Hl.
    + eexists _, _, rest. split; [done|]. split; simpl; [eapply queue_ok_loop; [exact Hq|done..]|by intros []|by eapply lock_ok_same].
  - eexists _, w, rest. split; [done|]. apply inv_drain_move; rewrite ?Hl; done.
Qed.

Lemma shut_step_ok w rest : inv w rest →
  ∃ pc' w1, shut_step (spc w) w = ok (pc', w1) ∧ inv (set_spc pc' w1) rest.
Proof.
  intros Hinv. pose proof Hinv as [Hq Hw Hk].
  assert (∀ w', q w' = q w → wk w' = wk w → prods w' = prods w → lpc w' = lpc w → submit_lock w' = submit_lock w →
    (submit_lock w = None ∨ loop_state w' = loop_state w) → inv w' rest) as Hsame.
  { intros w' E1 E2 E3 E4 E5 E6. split; rewrite ?E1, ?E2, ?E3, ?E4; [done|..].
    - intros Ha. destruct (Hw Ha) as [H1 H2]. split; rewrite ?E1, ?E2, ?E3, ?E4; done.
    - destruct Hk as [Hk1 Hk2]. split; rewrite E3, E5; [|done]. destruct E6 as [-> | ->]; done. }
  destruct (spc w) eqn:Hs; simpl.
  - unfold mbind at 1, prog_bind at 1. simpl. destruct (submit_lock w) as [k|] eqn:Hlk.
    + eexists _, w. split; [done|]. apply Hsame; simpl; try done; by right.
    + unfold mbind, prog_bind, gets. simpl. destruct (decide (loop_state w = RUNNING)); eexists _, _; (split; [done|]); apply Hsame; simpl; try done; by left.
  - eexists _, _. split; [done|]. apply Hsame; simpl; try done; by right.
  - eexists _, w. split; [done|]. apply Hsame; simpl; try done; by right.
Qed.

Lemma start_ok w rest i pc : inv w rest → plain pc → ¬ at_gate pc →
  ∃ w', start_prod i pc w = ok (tt, w') ∧ inv w' rest.
Proof.
  intros Hinv Hp Hg. unfold start_prod. destruct (prods w !! i) as [[]|] eqn:Hi; eauto.
  eexists. split; [done|]. apply (inv_move w rest i PIdle); try done.
  intros Hl. destruct (lk_holder _ (iv_lock _ _ Hinv) i Hl) as (x & Hx & Hx' & _). by simplify_eq.
Qed.

Lemma cbq_ev_step_ok w rest ev : inv w rest → bounded w → ∃ w' rest', step ev w = ok (tt, w') ∧ inv w' rest'.
Proof.
  intros Hinv Hb.
  assert (∀ i pc, plain pc → ¬ at_gate pc → ∃ w' rest', start_prod i pc w = ok (tt, w') ∧ inv w' rest') as Hstart.
  { intros i pc Hp Hg. destruct (start_ok w rest i pc Hinv Hp Hg) as (w' & ? & ?). eauto. }
  destruct ev; simpl; try (by apply Hstart; [|intros []]).
  - destruct (prods w !! i) as [pc|] eqn:Hi; [|eauto].
    destruct (prod_step_ok w rest i b pc Hinv Hi) as (pc' & w1 & rest' & Hr & Hinv').
    erewrite prog_bind_ok by exact Hr. eauto.
  - destruct (loop_step_ok w rest b Hinv Hb) as (pc' & w1 & rest' & Hr & Hinv').
    erewrite prog_bind_ok by exact Hr. eauto.
  - destruct (shut_step_ok w rest Hinv) as (pc' & w1 & Hr & Hinv').
    erewrite prog_bind_ok by exact Hr. eauto.
Qed.

(** ** Reachable worlds

    Fewer than 2^62 entries are posted and threads post: a node takes 16 bytes. *)
Inductive reach (k : nat) : world → Prop :=
| reach_start : reach k (loop_init k)
| reach_next w ev w' : reach k w → bounded w → step ev w = ok (tt, w') → reach k w'.

Lemma loop_init_inv k : inv (loop_init k) [].
Proof.
  assert (∀ i pc, replicate k PIdle !! i = Some pc → pc = PIdle) as Hidle by (intros i pc [-> _]%lookup_replicate; done).
  split; simpl.
  - split; simpl; try done.
    + apply NoDup_singleton.
    + exists (mk_node None 0). done.
    + intros i pc ->%Hidle. done.
    + intros i j n Hi%Hidle. done.
    + intros i j n m p Hi%Hidle. done.
    + exists []. split; [done|constructor].
    + intros n [x [<- _]%lookup_singleton_Some]. left. constructor.
    + intros n [x [<- _]%lookup_singleton_Some]. lia.
    + rewrite count_replicate by (by intros []). done.
  - intros _. split; simpl; [done|]. right. lia.
  - split; simpl; [done|]. intros i pc ->%Hidle. done.
Qed.

Lemma reach_inv k w : reach k w → ∃ rest, inv w rest.
Proof.
  induction 1 as [|w ev w' _ [rest Hinv] Hb Hs]; [eexists; apply loop_init_inv|].
  destruct (cbq_ev_step_ok w rest ev Hinv Hb) as (w1 & rest' & Hs' & Hinv'). rewrite Hs in Hs'. simplify_eq. eauto.
Qed.

(** ** The loop thread alone *)

Definition idle (w : world) : Prop := Forall (λ pc, pc = PIdle) (prods w).




Lemma idle_at w i pc : idle w → prods w !! i = Some pc → pc = PIdle.
Proof. intros Hi Hl. by apply (Forall_lookup_1 _ _ _ _ Hi Hl). Qed.

(** The first waiting node is linked. *)
Lemma idle_next w rest : inv w rest → idle w → ∃ x, nodes (q w) !! tail (q w) = Some x ∧ next x = hd_error rest.
Proof.
  intros [Hq _ _] Hid. pose proof (qo_chain _ _ _ _ Hq) as Hc. destruct rest as [|b rest]; [done|].
  destruct Hc as [(x & Hx & [Hn|(_ & i & Hi)]) _]; [by exists x|]. by apply (idle_at _ _ _ Hid) in Hi.
Qed.





Fixpoint run_loop (n : nat) : prog world () :=
  match n with O => mret tt | S n => step (ELoop true);; run_loop n end.



(** Runs a step to its end, on every branch. *)
Ltac run_in H :=
  repeat (progress (unfold mbind, prog_bind, mret, prog_ret, gets, get_node, put_node, new_node, free_node, of_option, UB,
                    finish, drained, on_shutdown_signal, on_wakeup, modify in H; simpl in H));
  repeat case_match; simplify_eq/=.

(** What producers and the shutting thread leave alone. *)
Definition loop_side (w : world) := (lpc w, stopping w, fired (q w)).

Lemma prod_step_frame i b pc w pc' w' : prod_step i b pc w = ok (pc', w') → loop_side w' = loop_side w.
Proof.
  intros H. destruct pc as [| | | | | | | | | | |[]|]; simpl in H; by run_in H.
Qed.

Lemma step_frame ev w w' : step ev w = ok (tt, w') → (∀ b, ev ≠ ELoop b) → loop_side w' = loop_side w.
Proof.
  intros Hs Hne. destruct ev as [i e|i e|i e|i e|i|i b|b|]; simpl in Hs; [| | | | | |by destruct (Hne b)|].
  1-5: unfold start_prod, modify in Hs; repeat case_match; by simplify_eq/=.
  - destruct (prods w !! i) as [pc|]; [|by simplify_eq]. apply prog_bind_inv in Hs as (pc' & w1 & H1 & H2).
    unfold modify in H2. simplify_eq/=. by rewrite <- (prod_step_frame _ _ _ _ _ _ H1).
  - apply prog_bind_inv in Hs as (pc' & w1 & H1 & H2). unfold modify in H2. simplify_eq/=.
    destruct (spc w); simpl in H1; by run_in H1.
Qed.



(** *** The drain of [on_shutdown_signal] *)

Lemma run_loop_app n m w w1 w2 : run_loop n w = ok (tt, w1) → run_loop m w1 = ok (tt, w2) → run_loop (n + m) w = ok (tt, w2).
Proof.
  revert w. induction n as [|n IH]; intros w; simpl; [by intros [= ->]|].
  intros ([] & w' & H1 & H2)%prog_bind_inv Hm. erewrite prog_bind_ok by exact H1. by apply IH.
Qed.

(** What the drain leaves alone. *)
Definition outside (w : world) := (prods w, wk w, stopping w, posted (q w)).

Lemma drain_alone n : ∀ w rest, inv w rest → bounded w → idle w → lpc w = LDrain n →
  ∃ m w', run_loop m w = ok (tt, w') ∧ lpc w' = LCheck ∧ outside w' = outside w ∧
    fired (q w') = take (length (fired (q w)) + n) (posted (q w)).
Proof.
  induction n as [|n IH]; intros w rest Hinv Hb Hid Hl; destruct (qo_fifo _ _ _ _ (iv_queue _ _ Hinv)) as (es & Hp & Hf);
    rewrite Hl in Hp; simpl in Hp.
  - exists 1%nat, (set_lpc LCheck w). split_and!; [|done|done|simpl; by rewrite Hp, Nat.add_0_r, take_app_length].
    cbn [run_loop]. erewrite prog_bind_ok; [done|]. simpl. by rewrite Hl.
  - destruct (idle_next w rest Hinv Hid) as (x & Hx & Hn). destruct rest as [|b rest]; simpl in Hn.
    + apply Forall2_nil_inv_l in Hf as ->. rewrite app_nil_r in Hp.
      exists 1%nat, (set_lpc LCheck w). split_and!; [|done|done|simpl; rewrite Hp, take_ge; [done|lia]].
      cbn [run_loop]. erewrite prog_bind_ok; [done|]. simpl. unfold mbind, prog_bind. rewrite Hl. simpl.
      unfold mbind, prog_bind, gets, get_node. simpl. rewrite Hx. simpl. by rewrite Hn.
    + apply Forall2_cons_inv_l in Hf as (e & es' & (y & Hy & <-) & Hf & ->).
      assert (step (ELoop true) w = ok (tt, set_lpc (LFree n b) w)) as H1.
      { simpl. unfold mbind, prog_bind, gets, get_node. rewrite Hl. simpl. unfold mbind, prog_bind, gets, get_node. simpl. rewrite Hx. simpl. by rewrite Hn. }
      set (s1 := set_nodes (delete (tail (q w))) (set_tail b (q w))).
      assert (step (ELoop true) (set_lpc (LFree n b) w) = ok (tt, set_lpc (LSub n (entry y)) (set_q (λ _, s1) w))) as H2.
      { simpl. unfold mbind, prog_bind, gets, free_node, mbind, prog_bind, get_node. simpl. rewrite Hy. simpl. by rewrite Hx. }
      set (s2 := set_depth (depth s1 -% 1) s1).
      assert (step (ELoop true) (set_lpc (LSub n (entry y)) (set_q (λ _, s1) w)) = ok (tt, set_lpc (LCall n (entry y)) (set_q (λ _, s2) w))) as H3 by done.
      set (w4 := set_lpc (LDrain n) (set_q (λ _, add_fired (entry y) s2) w)).
      assert (step (ELoop true) (set_lpc (LCall n (entry y)) (set_q (λ _, s2) w)) = ok (tt, w4)) as H4 by done.
      assert (bounded w4) as Hb4 by exact Hb.
      assert (∃ rest4, inv w4 rest4) as [rest4 Hinv4].
      { destruct (cbq_ev_step_ok _ _ (ELoop true) Hinv Hb) as (wa & ra & Ha & Hia). rewrite H1 in Ha. injection Ha as <-.
        destruct (cbq_ev_step_ok _ _ (ELoop true) Hia Hb) as (wb & rb & Hb' & Hib). rewrite H2 in Hb'. injection Hb' as <-.
        destruct (cbq_ev_step_ok _ _ (ELoop true) Hib Hb) as (wc & rc & Hc & Hic). rewrite H3 in Hc. injection Hc as <-.
        destruct (cbq_ev_step_ok _ _ (ELoop true) Hic Hb) as (wd & rd & Hd & Hid'). rewrite H4 in Hd. injection Hd as <-. eauto. }
      destruct (IH w4 rest4 Hinv4 Hb4 Hid eq_refl) as (m & w' & Hr & Hl' & Ho & Hfi).
      exists (4 + m)%nat, w'. split_and!; [|done|done|].
      * eapply run_loop_app; [|exact Hr]. cbn [run_loop].
        do 4 (erewrite prog_bind_ok by (first [exact H1|exact H2|exact H3|exact H4])). done.
      * rewrite Hfi. simpl. rewrite length_app. simpl. f_equal. lia.
Qed.

(** The end of the drain, after [uv_stop]: the send, if any. *)
Definition send_left (s : send_pc) : nat := match s with SLoad => 3 | SClosing => 2 | SXchg => 1 | SAsync => 0 end.

Lemma send_alone w s : stopping w = true → lpc w = LSend s →
  ∃ w1, step (ELoop true) w = ok (tt, w1) ∧ q w1 = q w ∧ stopping w1 = true ∧
    (lpc w1 = LStopping ∨ ∃ s', lpc w1 = LSend s' ∧ (send_left s' < send_left s)%nat).
Proof.
  intros Hst Hl. simpl. rewrite Hl. destruct s; simpl; unfold mbind, prog_bind, gets; simpl; unfold drained, mbind, prog_bind, gets; simpl.
  - destruct (g_wakeup (wk w)); simpl; rewrite ?Hst; eexists; (split; [done|]); simpl; eauto 10 with lia.
  - destruct (closing (wk w)); simpl; rewrite ?Hst; eexists; (split; [done|]); simpl; eauto 10 with lia.
  - destruct (pending (wk w)); simpl; rewrite ?Hst; eexists; (split; [done|]); simpl; eauto 10 with lia.
  - rewrite Hst. eexists; (split; [done|]); simpl; eauto.
Qed.

Lemma sends_alone n : ∀ w s, (send_left s < n)%nat → stopping w = true → lpc w = LSend s →
  ∃ m w', run_loop m w = ok (tt, w') ∧ lpc w' = LStopping ∧ q w' = q w.
Proof.
  induction n as [|n IH]; intros w s Hn Hst Hl; [lia|].
  destruct (send_alone w s Hst Hl) as (w1 & Hs & Hq & Hst1 & [Hd|(s' & Hl' & Hlt)]).
  - exists 1%nat, w1. simpl. split_and!; try done. by erewrite prog_bind_ok by exact Hs.
  - destruct (IH w1 s') as (m & w' & Hr & Hlw & Hqw); [lia|done|done|].
    exists (S m), w'. simpl. split_and!; [by erewrite prog_bind_ok by exact Hs|done|congruence].
Qed.

Lemma stop_alone w : stopping w = true → lpc w = LCheck → ∃ m w', run_loop m w = ok (tt, w') ∧ lpc w' = LStopping ∧ q w' = q w.
Proof.
  intros Hst Hl. destruct (0 <? depth (q w)) eqn:Hd.
  - destruct (sends_alone 4 (set_lpc (LSend SLoad) w) SLoad) as (m & w' & Hr & Hlw & Hqw); [simpl; lia|done|done|].
    exists (S m), w'. split_and!; [|done|done]. cbn [run_loop]. erewrite prog_bind_ok; [exact Hr|].
    unfold step. rewrite Hl. simpl. unfold mbind, prog_bind, gets. simpl. by rewrite Hd.
  - exists 1%nat, (set_lpc LStopping w). split_and!; try done. cbn [run_loop]. erewrite prog_bind_ok; [done|].
    unfold step. rewrite Hl. simpl. unfold mbind, prog_bind, gets. simpl. rewrite Hd. unfold drained, mbind, prog_bind, gets. simpl. by rewrite Hst.
Qed.

Fixpoint run (es : list event) : prog world () :=
  match es with [] => mret tt | e :: es => step e;; run es end.

(** After the loop has stopped nothing is fired any more. *)
Lemma stopped_step ev w w' : lpc w = LStopped → step ev w = ok (tt, w') → lpc w' = LStopped ∧ fired (q w') = fired (q w).
Proof.
  intros Hl Hs. assert ((∃ b, ev = ELoop b) ∨ ¬ ∃ b, ev = ELoop b) as [(b & ->)|Hne] by (destruct ev; eauto; right; by intros [? ?]).
  - simpl in Hs. rewrite Hl in Hs. simpl in Hs. run_in Hs. done.
  - assert (loop_side w' = loop_side w) as [= -> _ ->] by (apply (step_frame ev); [done|intros b ->; eauto]). done.
Qed.

Lemma stopped_run es : ∀ w w', lpc w = LStopped → run es w = ok (tt, w') → fired (q w') = fired (q w).
Proof.
  induction es as [|e es IH]; intros w w' Hl; simpl; [by intros [= ->]|].
  intros ([] & w1 & H1 & H2)%prog_bind_inv. destruct (stopped_step e w w1 Hl H1) as [Hl1 <-]. by apply IH.
Qed.

(** ** Theorems *)

(** C11: The callback queue is a FIFO queue under every interleaving of producers, the loop
    thread and shutdown: no step touches a node that is not allocated, the entries fired so
    far, the one being fired and those that wait are the posted ones in the order in which
    they entered, and the only nodes allocated are the sentinel, the waiting ones and those
    a producer has not yet entered. *)
Theorem cbq_fifo k w : reach k w → bounded w →
  (∀ ev, ∃ w', step ev w = ok (tt, w')) ∧
  ∃ rest es, posted (q w) = fired (q w) ++ inflight (lpc w) ++ es ∧
    Forall2 (λ n e, ∃ x, nodes (q w) !! n = Some x ∧ entry x = e) rest es ∧ NoDup (tail (q w) :: rest) ∧
    ∀ n, is_Some (nodes (q w) !! n) ↔ n ∈ tail (q w) :: rest ∨ ∃ i, prods w !! i = Some (PXchg n).
Proof.
  intros [rest Hinv]%reach_inv Hb. pose proof (iv_queue _ _ Hinv) as Hq. split.
  - intros ev. destruct (cbq_ev_step_ok w rest ev Hinv Hb) as (w' & ? & ? & _). eauto.
  - destruct (qo_fifo _ _ _ _ Hq) as (es & Hp & Hf). exists rest, es. split_and!; [done|done|apply Hq|].
    intros n. split; [apply Hq|]. intros [Hin|(i & Hi)]; [by eapply qchain_in; [apply Hq|]|].
    destruct (qo_prods _ _ _ _ Hq i _ Hi) as [_ [e He]]. eauto.
Qed.


(** What shutdown runs.  When the shutdown signal is served while nobody posts, the loop
    fires the first 512 of the waiting callbacks and can then exit at once; nothing is fired
    afterwards, so the callbacks behind them, although they were accepted, never run. *)
Theorem shutdown_drains_512 k w :
  reach k w → bounded w → idle w → lpc w = LSleep → shut_signal w = true → submit_lock w = None →
  ∃ m w', (step (ELoop false);; run_loop m;; step (ELoop false)) w = ok (tt, w') ∧ lpc w' = LStopped ∧ posted (q w') = posted (q w) ∧
    fired (q w') = take (length (fired (q w)) + GOC_CB_DRAIN_BUDGET) (posted (q w)) ∧
    ∀ es w'', run es w' = ok (tt, w'') → fired (q w'') = fired (q w').
Proof.
  intros [rest Hinv]%reach_inv Hb Hid Hl Hsh Hlk.
  set (w1 := set_lpc (LDrain GOC_CB_DRAIN_BUDGET) (set_stopping true (set_state SHUTTING_DOWN (set_shut false w)))).
  assert (step (ELoop false) w = ok (tt, w1)) as H1.
  { unfold step. rewrite Hl. cbn [loop_step cb_queue_pop cb_queue_pop_free cb_queue_pop_sub on_wakeup on_shutdown_signal close_wakeup]. unfold mbind, prog_bind, gets. rewrite Hsh, andb_false_r. simpl.
    unfold mbind, prog_bind, gets. by rewrite Hlk. }
  destruct (cbq_ev_step_ok w rest (ELoop false) Hinv Hb) as (w1' & rest1 & H1' & Hinv1). rewrite H1 in H1'. injection H1' as <-.
  destruct (drain_alone _ w1 rest1 Hinv1 Hb Hid eq_refl) as (m & w2 & H2 & Hl2 & [= _ _ Hst2 Hp2] & Hf2).
  destruct (stop_alone w2 Hst2 Hl2) as (m' & w3 & H3 & Hl3 & Hq3).
  exists (m + m')%nat, (set_lpc LStopped (set_wk closed_handle w3)). split_and!; try done.
  - rewrite (prog_bind_ok _ _ _ _ _ H1), (prog_bind_ok _ _ _ _ _ (run_loop_app _ _ _ _ _ H2 H3)).
    unfold step. rewrite Hl3. done.
  - simpl. by rewrite Hq3.
  - simpl. by rewrite Hq3.
  - intros es w4 Hr. exact (stopped_run es (set_lpc LStopped (set_wk closed_handle w3)) w4 eq_refl Hr).
Qed.

(** Once shutdown has begun the submit functions refuse: a thread that holds their lock
    is before its test of the state or at the unlock, so nothing submitted enters the queue
    any more, and a submit returns failure and leaves the queue as it is. *)
Theorem submit_refused k w :
  reach k w → loop_state w ≠ RUNNING →
  (∀ i, submit_lock w = Some i → ∃ pc, prods w !! i = Some pc ∧ at_gate pc) ∧
  ∀ i e, prods w !! i = Some PIdle → submit_lock w = None →
    ∃ w', run [ESubmit i e; EProd i true; EProd i true; EProd i true] w = ok (tt, w') ∧
      q w' = q w ∧ rejected w' = rejected w ++ [e] ∧ prods w' = prods w ∧ submit_lock w' = None.
Proof.
  intros [rest [_ _ Hlk]]%reach_inv Hs. split.
  - intros i Hi. destruct (lk_holder _ Hlk i Hi) as (pc & Hp & _ & Hg). eauto.
  - intros i e Hi Hl. pose proof (lookup_lt_Some _ _ _ Hi) as Hlt.
    set (w1 := set_prods (<[i := PLock e]>) w). set (w2 := set_prods (<[i := PCheck e]>) (set_lock (Some i) w1)).
    set (w3 := set_prods (<[i := PUnlock]>) (add_rejected e w2)). set (w4 := set_prods (<[i := PIdle]>) (set_lock None w3)).
    assert (step (ESubmit i e) w = ok (tt, w1)) as H1 by (simpl; unfold start_prod; by rewrite Hi).
    assert (step (EProd i true) w1 = ok (tt, w2)) as H2.
    { simpl. rewrite list_lookup_insert_eq by done. simpl. unfold mbind, prog_bind, gets. simpl. by rewrite Hl. }
    assert (step (EProd i true) w2 = ok (tt, w3)) as H3.
    { simpl. rewrite list_lookup_insert_eq by (by rewrite length_insert). simpl. unfold mbind, prog_bind, gets. simpl.
      by rewrite decide_False. }
    assert (step (EProd i true) w3 = ok (tt, w4)) as H4.
    { simpl. by rewrite list_lookup_insert_eq by (by rewrite !length_insert). }
    exists w4. split_and!; try done.
    + cbn [run]. rewrite (prog_bind_ok _ _ _ _ _ H1), (prog_bind_ok _ _ _ _ _ H2), (prog_bind_ok _ _ _ _ _ H3), (prog_bind_ok _ _ _ _ _ H4). done.
    + simpl. rewrite !list_insert_insert_eq. by apply list_insert_id.
Qed.

(** ** Concrete runs *)

Fixpoint run_checked (es : list event) (w : world) : option world :=
  match es with
  | [] => Some w
  | e :: es =>
      if Z.of_nat (length (posted (q w))) + Z.of_nat (length (prods w)) <? 2 ^ 62
      then match step e w with ok (_, w') => run_checked es w' | _ => None end
      else None
  end.

Lemma run_checked_reach k es : ∀ w w', reach k w → run_checked es w = Some w' → reach k w'.
Proof.
  induction es as [|e es IH]; intros w w' Hr Hrun; cbn [run_checked] in Hrun; [congruence|].
  destruct (Z.ltb_spec (Z.of_nat (length (posted (q w))) + Z.of_nat (length (prods w))) (2 ^ 62)) as [Hb|]; [|done].
  destruct (step e w) as [[[] w1]| | |] eqn:He; try done. eapply IH; [|exact Hrun]. by eapply reach_next.
Qed.

Definition world_of (k : nat) (es : list event) : world := default (loop_init k) (run_checked es (loop_init k)).

Lemma world_of_reach k es : reach k (world_of k es).
Proof.
  unfold world_of. destruct (run_checked es (loop_init k)) as [w|] eqn:He; simpl; [|constructor].
  eapply run_checked_reach; [constructor|exact He].
Qed.

Lemma idle_replicate w k : prods w = replicate k PIdle → idle w.
Proof. unfold idle. intros ->. by apply Forall_replicate. Qed.

(** Thread [i] takes [n] steps. *)
Definition steps (i n : nat) : list event := replicate n (EProd i true).

(** Two threads have linked their nodes and not counted them; a third wakes the loop,
    which fires both callbacks before the first thread counts. *)
Definition early_pops : list event :=
  [EPost 0 7] ++ steps 0 3 ++ [EPost 1 8] ++ steps 1 3 ++ [EWakeup 2] ++ steps 2 4 ++
  replicate 10 (ELoop true) ++ steps 0 3.

(** The high-water mark can become 2^64 - 1 although two callbacks in all were
    posted: the consumer may subtract an entry from the depth before its producer has
    added it, and the wrapped depth passes the comparison. *)
Theorem hwm_wraps : ∃ w, reach 3 w ∧ posted (q w) = [7; 8] ∧ hwm (q w) = SIZE_MAX.
Proof. exists (world_of 3 early_pops). split; [apply world_of_reach|]. by vm_compute. Qed.

(** A producer is inside its post while the loop drains. *)
Definition busy : world := world_of 2 ([EPost 0 7] ++ steps 0 14 ++ [ESubmit 1 8] ++ steps 1 5 ++ replicate 4 (ELoop true)).

Lemma cbq_fifo_witness : ∃ w', step (ELoop true) busy = ok (tt, w').
Proof.
  refine (proj1 (cbq_fifo 2 busy (world_of_reach _ _) _) (ELoop true)). vm_compute. reflexivity.
Defined.



(** One thread submits 514 callbacks; then shutdown is called. *)
Definition submit_all (n : nat) : list event := concat (replicate n (ESubmit 0 5 :: steps 0 16)).
Definition full : world :=
  world_of 1 ([EPost 0 5] ++ steps 0 16 ++ replicate 8 (ELoop true) ++ submit_all 514 ++ [EShut; EShut]).

Lemma shutdown_drains_512_witness :
  length (posted (q full)) = 515%nat ∧ length (fired (q full)) = 1%nat ∧
  ∃ m w', (step (ELoop false);; run_loop m;; step (ELoop false)) full = ok (tt, w') ∧ lpc w' = LStopped ∧ length (fired (q w')) = 513%nat.
Proof.
  split; [vm_compute; reflexivity|]. split; [vm_compute; reflexivity|].
  destruct (shutdown_drains_512 1 full (world_of_reach _ _)) as (m & w' & Hr & Hl & _ & Hf & _);
    [vm_compute; reflexivity|apply (idle_replicate _ 1); vm_compute; reflexivity|vm_compute; reflexivity..|].
  exists m, w'. split_and!; [exact Hr|exact Hl|]. rewrite Hf. vm_compute. reflexivity.
Defined.

(** Shutdown was called while a thread waited for the lock. *)
Definition closing_down : world := world_of 2 ([EPost 0 5] ++ steps 0 4 ++ [EShut]).

Lemma submit_refused_witness :
  ∃ w', run [ESubmit 1 9; EProd 1 true; EProd 1 true; EProd 1 true] closing_down = ok (tt, w') ∧ rejected w' = [9].
Proof.
  destruct (proj2 (submit_refused 2 closing_down (world_of_reach _ _) ltac:(vm_compute; discriminate)) 1%nat 9) as (w' & Hr & _ & Hj & _);
    [vm_compute; reflexivity..|].
  exists w'. split; [exact Hr|]. rewrite Hj. vm_compute. reflexivity.
Defined.

End LoopQProps.
