(* ===== verification/Schema.v ===== *)
(** Value schemas (goc_schema.c): what values look like to the validator, the schema nodes
    with their hierarchy and registry, and validation.

    A value is a pointer into a heap of objects; the validator tells the objects apart by
    their headers, as it finds them after [GC_base].  Long doubles and compiled regular
    expressions are parameters: the C library's operations on them. *)

From S2P Require Import Prelude.

Module Schema.

(** ** Values *)

Class LongDouble (R : Type) := {
  ld_le : R → R → bool; ld_lt : R → R → bool; d_eq : R → R → bool;
  ld_add : R → R → R; ld_sub : R → R → R; ld_mul : R → R → R;
  fmodl : R → R → R; fabsl : R → R; isnan : R → bool;
  ld_0 : R; ld_1e_9 : R;
  ld_decode : Z → Z → R;                    (* the value of a payload: its size and its bits *)
  ld_show : R → string;                     (* how %g and %Lg print it *)
  cplx_same : Z * Z → Z * Z → bool          (* memcmp of two payloads as long double complex *)
}.

(** [regex_raw] is what a compiled expression reads like as a string. *)
Class Regex (X : Type) := { regcomp : string → option X; regexec : X → string → bool; regex_raw : X → string }.

(** [goc_boxed_type_t] *)
Inductive goc_boxed_type := T_UNKNOWN | T_BOOL | T_INT | T_UINT | T_BYTE | T_UBYTE | T_REAL | T_COMPLEX.
#[export] Instance goc_boxed_type_eq : EqDecision goc_boxed_type.
Proof. solve_decision. Defined.

(** A pointer: null, an object, or the key of a dictionary, which is a string. *)
Inductive vref := VNull | VAddr (p : positive) | VKey (s : string).
#[export] Instance vref_eq : EqDecision vref.
Proof. solve_decision. Defined.

(** A box has the size of its payload in bytes and its bits; a dictionary lists its live
    entries in the order of their insertion. *)
Inductive obj :=
| OBox (ty : goc_boxed_type) (size bits : Z)
| OArr (cap head : Z) (l : list vref)
| ODict (table_cap occupied : Z) (kvs : list (string * vref))
| OStr (s : string).

Notation heap := (gmap positive obj).

Definition view (h : heap) (v : vref) : res (option obj) :=
  match v with
  | VNull => ok None
  | VAddr p => match h !! p with Some o => ok (Some o) | None => ub end
  | VKey s => ok (Some (OStr s))
  end.

(** *** What an object is taken for *)

Definition goc_schema_boxed_type (o : option obj) : goc_boxed_type :=
  match o with Some (OBox ty _ _) => ty | _ => T_UNKNOWN end.
Definition goc_schema_boxed_payload_size (o : option obj) : Z :=
  match o with Some (OBox _ sz _) => sz | _ => 0 end.
Definition goc_schema_is_boxed (o : option obj) : bool :=
  match o with Some (OBox ty sz _) => negb (bool_decide (ty = T_UNKNOWN)) && negb (sz =? 0) | _ => false end.

Definition goc_schema_is_goc_array (o : option obj) : bool :=
  match o with
  | Some (OArr cap head l) =>
      let len := Z.of_nat (length l) in
      (8 <=? cap) && (head <=? cap) && (len <=? cap) && (head +% len <=? cap)
  | _ => false
  end.

Definition goc_schema_is_goc_dict (o : option obj) : bool :=
  match o with
  | Some (ODict table_cap occupied kvs) =>
      (8 <=? table_cap) && (Z.of_nat (length kvs) <=? occupied) && (occupied <=? table_cap)
  | _ => false
  end.

Definition is_tag (ty : goc_boxed_type) (szs : list Z) (o : option obj) : bool :=
  goc_schema_is_boxed o && bool_decide (goc_schema_boxed_type o = ty) && existsb (Z.eqb (goc_schema_boxed_payload_size o)) szs.

Definition goc_schema_is_boxed_bool : option obj → bool := is_tag T_BOOL [1].
Definition goc_schema_is_boxed_byte : option obj → bool := is_tag T_BYTE [1].
Definition goc_schema_is_boxed_ubyte : option obj → bool := is_tag T_UBYTE [1].
Definition goc_schema_is_boxed_int (o : option obj) : bool := is_tag T_BYTE [1] o || is_tag T_INT [2; 4; 8; 8] o.
Definition goc_schema_is_boxed_uint : option obj → bool := is_tag T_UINT [2; 4; 8; 8].
Definition goc_schema_is_boxed_int_unsigned (o : option obj) : bool := is_tag T_UBYTE [1] o || is_tag T_UINT [2; 4; 8; 8] o.
Definition goc_schema_is_boxed_real : option obj → bool := is_tag T_REAL [4; 8; 16].
Definition goc_schema_is_boxed_complex : option obj → bool := is_tag T_COMPLEX [8; 16; 32].

Definition goc_schema_is_string (o : option obj) : bool :=
  match o with
  | None => false
  | Some _ => negb (goc_schema_is_boxed o) && negb (goc_schema_is_goc_array o) && negb (goc_schema_is_goc_dict o)
  end.

Definition goc_schema_type_name (o : option obj) : string :=
  match o with
  | None => "null"
  | Some _ =>
      if goc_schema_is_goc_array o then "array" else if goc_schema_is_goc_dict o then "object"
      else if goc_schema_is_boxed_bool o then "bool" else if goc_schema_is_boxed_byte o then "byte"
      else if goc_schema_is_boxed_ubyte o then "ubyte" else if goc_schema_is_boxed_uint o then "uint"
      else if goc_schema_is_boxed_int o then "int" else if goc_schema_is_boxed_complex o then "complex"
      else if goc_schema_is_boxed_real o then "real" else if goc_schema_is_string o then "str" else "unknown"
  end.

(** *** Payloads *)

Definition bits_of (o : option obj) : Z := match o with Some (OBox _ _ bits) => bits | _ => 0 end.

(** The payload read at its width, as a signed and as an unsigned integer. *)
Definition goc_schema_boxed_unsigned_value (o : option obj) : Z :=
  let sz := goc_schema_boxed_payload_size o in
  if existsb (Z.eqb sz) [1; 2; 4; 8] then bits_of o mod 2 ^ (8 * sz) else 0.
Definition goc_schema_boxed_signed_value (o : option obj) : Z :=
  let sz := goc_schema_boxed_payload_size o in
  let u := goc_schema_boxed_unsigned_value o in
  if existsb (Z.eqb sz) [1; 2; 4; 8] then if u <? 2 ^ (8 * sz - 1) then u else u - 2 ^ (8 * sz) else 0.

(** The string at an address: an object that is none has no terminating zero to rely on. *)
Definition str_of (o : option obj) : res string := match o with Some (OStr s) => ok s | _ => ub end.

Section Schema.
Context {R X : Type} `{LongDouble R} `{Regex X}.

Definition goc_schema_boxed_real_value (o : option obj) : R :=
  let sz := goc_schema_boxed_payload_size o in
  if existsb (Z.eqb sz) [4; 8; 16] then ld_decode sz (bits_of o) else ld_0.

(** [goc_unbox(double, x)]: eight bytes are read, whatever the payload. *)
Definition unbox_double_bits (o : option obj) : res Z :=
  if goc_schema_boxed_payload_size o <? 8 then ub else ok (bits_of o mod WORD).
Definition unbox_double (o : option obj) : res R := b ← unbox_double_bits o; ok (ld_decode 8 b).
Definition unbox_bool (o : option obj) : bool := negb (bits_of o mod 256 =? 0).

(** ** Equality of values *)

Fixpoint all_pairs {A B} (f : A → B → res bool) (l : list A) (k : list B) : res bool :=
  match l, k with
  | a :: l, b :: k => r ← f a b; if r : bool then all_pairs f l k else ok false
  | _, _ => ok true
  end.

Definition dict_get (kvs : list (string * vref)) (key : string) : vref :=
  match list_find (λ kv, kv.1 = key) kvs with Some (_, kv) => kv.2 | None => VNull end.
Definition dict_contains (kvs : list (string * vref)) (key : string) : bool :=
  existsb (λ kv, bool_decide (kv.1 = key)) kvs.

Fixpoint goc_schema_vals_equal (fuel : nat) (h : heap) (a b : vref) : res bool :=
  match fuel with
  | O => hang
  | S fuel =>
      if bool_decide (a = b) then ok true
      else if bool_decide (a = VNull) || bool_decide (b = VNull) then ok false
      else
        oa ← view h a; ob ← view h b;
        if goc_schema_is_boxed_int oa && goc_schema_is_boxed_int ob then
          ok (goc_schema_boxed_signed_value oa =? goc_schema_boxed_signed_value ob)
        else if goc_schema_is_boxed_int_unsigned oa && goc_schema_is_boxed_int_unsigned ob then
          ok (goc_schema_boxed_unsigned_value oa =? goc_schema_boxed_unsigned_value ob)
        else if goc_schema_is_boxed_real oa && goc_schema_is_boxed_real ob then
          ba ← unbox_double_bits oa; bb ← unbox_double_bits ob;
          ok (if isnan (ld_decode 8 ba) || isnan (ld_decode 8 bb) then false else ba =? bb)
        else if goc_schema_is_boxed_complex oa && goc_schema_is_boxed_complex ob then
          ok (cplx_same (goc_schema_boxed_payload_size oa, bits_of oa) (goc_schema_boxed_payload_size ob, bits_of ob))
        else if goc_schema_is_boxed_bool oa && goc_schema_is_boxed_bool ob then
          ok (Bool.eqb (unbox_bool oa) (unbox_bool ob))
        else if goc_schema_is_string oa && goc_schema_is_string ob then
          sa ← str_of oa; sb ← str_of ob; ok (bool_decide (sa = sb))
        else
          match oa, ob with
          | Some (OArr _ _ la), Some (OArr _ _ lb) =>
              if goc_schema_is_goc_array oa && goc_schema_is_goc_array ob then
                if negb (length la =? length lb)%nat then ok false
                else all_pairs (goc_schema_vals_equal fuel h) la lb
              else ok false
          | Some (ODict _ _ ka), Some (ODict _ _ kb) =>
              if goc_schema_is_goc_dict oa && goc_schema_is_goc_dict ob then
                if negb (length ka =? length kb)%nat then ok false
                else all_pairs (λ (kv : string * vref) (_ : ()), goc_schema_vals_equal fuel h (dict_get ka kv.1) (dict_get kb kv.1))
                       ka (replicate (length ka) ())
              else ok false
          | _, _ => ok false
          end
  end.

(** ** Schemas *)

(** A pointer to a schema; [None] is null. *)
Definition sref : Type := option positive.

Record goc_schema_field := mk_field { f_key : string; f_schema : sref; f_optional : bool }.
Record goc_schema_pattern_prop := mk_prop { pp_pattern : string; pp_schema : sref; pp_regex : option X }.

(** [goc_schema_dict_opts_t]: 0 for no bound, [None] for a null pointer. *)
Record goc_schema_dict_opts := mk_opts {
  strict : bool; min_properties : Z; max_properties : Z;
  property_names : sref;
  pattern_props : option (list goc_schema_pattern_prop);
  dep_required : option (list (string * list string));
  dep_schemas : option (list (string * sref))
}.
Definition no_opts : goc_schema_dict_opts := mk_opts false 0 0 None None None None.

(** [schema_kind] with the member of the union that belongs to it.  [str_pattern] and
    [str_regex] are the same member: the expression overwrites the pattern. *)
Inductive schema_kind :=
| SCHEMA_NULL | SCHEMA_BOOL | SCHEMA_INT | SCHEMA_REAL | SCHEMA_COMPLEX | SCHEMA_UINT
| SCHEMA_NUMBER | SCHEMA_BYTE | SCHEMA_UBYTE | SCHEMA_STR | SCHEMA_ANY
| SCHEMA_BOOL_CONST (b : bool) | SCHEMA_INT_CONST (z : Z) | SCHEMA_REAL_CONST (r : R) | SCHEMA_STR_CONST (s : string)
| SCHEMA_INT_MIN (min : Z) | SCHEMA_INT_MAX (max : Z) | SCHEMA_INT_RANGE (min max : Z) | SCHEMA_INT_ENUM (vals : list vref)
| SCHEMA_REAL_MIN (min : R) | SCHEMA_REAL_MAX (max : R) | SCHEMA_REAL_RANGE (min max : R)
| SCHEMA_REAL_EX_MIN (min : R) | SCHEMA_REAL_EX_MAX (max : R) | SCHEMA_REAL_MULTIPLE (factor : R)
| SCHEMA_STR_MIN_LEN (min : Z) | SCHEMA_STR_MAX_LEN (max : Z) | SCHEMA_STR_LEN (min max : Z)
| SCHEMA_STR_PATTERN (regex : X) | SCHEMA_STR_ENUM (vals : list vref) | SCHEMA_STR_FORMAT (regex : option X)
| SCHEMA_ARR (elem : sref) | SCHEMA_ARR_LEN (elem : sref) (min max : Z) | SCHEMA_ARR_UNIQUE (elem : sref)
| SCHEMA_ARR_CONTAINS (elem contains : sref) (min_contains max_contains : Z)
| SCHEMA_TUPLE (items : list sref) (additional_items : sref)
| SCHEMA_OBJ (fields : list goc_schema_field) (opts : goc_schema_dict_opts)
| SCHEMA_IF (cond then_ else_ : sref) | SCHEMA_ANY_OF (schemas : list sref) | SCHEMA_ONE_OF (schemas : list sref)
| SCHEMA_ALL_OF (schemas : list sref) | SCHEMA_NOT (schema : sref)
| SCHEMA_REF (target : sref)
| SCHEMA_PREDICATE (fn : vref → bool) (name : option string).

(** [goc_schema_meta_t]: annotations. *)
Record goc_schema_meta_t := mk_meta {
  title : option string; description : option string; default_val : vref; examples : vref;
  deprecated : bool; read_only : bool; write_only : bool
}.

Record goc_schema := mk_schema {
  kind : schema_kind; name : option string; parent : sref; meta : option goc_schema_meta_t; methods : gmap string Z
}.
Definition set_name (n : string) (s : goc_schema) : goc_schema := mk_schema (kind s) (Some n) (parent s) (meta s) (methods s).
Definition set_parent (p : positive) (s : goc_schema) : goc_schema := mk_schema (kind s) (name s) (Some p) (meta s) (methods s).
Definition set_meta (m : goc_schema_meta_t) (s : goc_schema) : goc_schema := mk_schema (kind s) (name s) (parent s) (Some m) (methods s).
Definition set_kind (k : schema_kind) (s : goc_schema) : goc_schema := mk_schema k (name s) (parent s) (meta s) (methods s).
Definition set_method (nm : string) (fn : Z) (s : goc_schema) : goc_schema :=
  mk_schema (kind s) (name s) (parent s) (meta s) (<[nm := fn]> (methods s)).

Notation store := (gmap positive goc_schema).

(** The singletons, by their addresses: they are allocated in this order. *)
Definition s_schema_null : positive := 1.
Definition s_schema_bool : positive := 2.
Definition s_schema_int : positive := 3.
Definition s_schema_uint : positive := 4.
Definition s_schema_byte : positive := 5.
Definition s_schema_ubyte : positive := 6.
Definition s_schema_number : positive := 7.
Definition s_schema_real : positive := 8.
Definition s_schema_complex : positive := 9.
Definition s_schema_str : positive := 10.
Definition s_schema_any : positive := 11.
Definition s_schema_arr : positive := 12.
Definition s_schema_dict : positive := 13.

Definition goc_schema_for_tag (tag : goc_boxed_type) : sref :=
  match tag with
  | T_BOOL => Some s_schema_bool | T_BYTE => Some s_schema_byte | T_UBYTE => Some s_schema_ubyte
  | T_INT => Some s_schema_int | T_UINT => Some s_schema_uint | T_REAL => Some s_schema_real
  | T_COMPLEX => Some s_schema_complex | T_UNKNOWN => None
  end.

Definition goc_schema_is_base_kind (k : schema_kind) : bool :=
  match k with
  | SCHEMA_ANY | SCHEMA_NULL | SCHEMA_BOOL | SCHEMA_INT | SCHEMA_UINT | SCHEMA_BYTE | SCHEMA_UBYTE | SCHEMA_REAL
  | SCHEMA_NUMBER | SCHEMA_COMPLEX | SCHEMA_STR | SCHEMA_ARR _ | SCHEMA_OBJ _ _ => true
  | _ => false
  end.

(** ** The hierarchy *)

Definition get_schema (st : store) (p : positive) : res goc_schema :=
  match st !! p with Some s => ok s | None => ub end.

(** [while (cur)]: a chain of parents longer than the store goes round in circles. *)
Fixpoint up_loop (fuel : nat) (st : store) (cur : sref) (target : positive) : res bool :=
  match cur with
  | None => ok false
  | Some c =>
      match fuel with
      | O => hang
      | S fuel => if bool_decide (c = target) then ok true else s ← get_schema st c; up_loop fuel st (parent s) target
      end
  end.

Definition goc_schema_is_a (st : store) (child par : sref) : res bool :=
  match child, par with
  | Some c, Some p =>
      if bool_decide (c = p) then ok true else s ← get_schema st c; up_loop (S (size st)) st (parent s) p
  | _, _ => ok false
  end.

Fixpoint ancestors_loop (fuel : nat) (st : store) (cur : sref) : res (list positive) :=
  match cur with
  | None => ok []
  | Some c =>
      match fuel with
      | O => hang
      | S fuel => s ← get_schema st c; l ← ancestors_loop fuel st (parent s); ok (c :: l)
      end
  end.

Definition goc_schema_collect_ancestors (st : store) (schema : sref) : res (list positive) :=
  match schema with None => ok [] | Some c => s ← get_schema st c; ancestors_loop (S (size st)) st (parent s) end.

(** The hierarchy maps a schema to the array of its children. *)
Record types := mk_types { schemas : store; schema_hierarchy : gmap positive (list positive); schema_registry : gmap string positive; fresh : positive }.

Definition upd_schema (c : positive) (f : goc_schema → goc_schema) (t : types) : types :=
  mk_types (alter f c (schemas t)) (schema_hierarchy t) (schema_registry t) (fresh t).

Definition goc_schema_derive (child par : sref) : prog types () := λ t,
  match child, par with
  | Some c, Some p =>
      match schemas t !! c with
      | None => ub
      | Some s =>
          if bool_decide (parent s = None) then
            let t := upd_schema c (set_parent p) t in
            ok (tt, mk_types (schemas t) (<[p := default [] (schema_hierarchy t !! p) ++ [c]]> (schema_hierarchy t)) (schema_registry t) (fresh t))
          else abort "goc_schema_derive: schema already has a parent"
      end
  | _, _ => ok (tt, t)
  end.

(** The breadth-first walk of [goc_schema_collect_descendants], level by level. *)
Fixpoint level_loop (hier : gmap positive (list positive)) (root : positive) (queue visited result next_queue : list positive)
    : list positive * list positive * list positive :=
  match queue with
  | [] => (visited, result, next_queue)
  | node :: queue =>
      if bool_decide (node ∈ visited) then level_loop hier root queue visited result next_queue
      else
        let visited := visited ++ [node] in
        let result := if bool_decide (node = root) then result else result ++ [node] in
        let children := default [] (hier !! node) in
        level_loop hier root queue visited result (next_queue ++ filter (λ c, c ∉ visited) children)
  end.
Fixpoint levels_loop (fuel : nat) (hier : gmap positive (list positive)) (root : positive) (queue visited result : list positive)
    : res (list positive) :=
  match queue with
  | [] => ok result
  | _ =>
      match fuel with
      | O => hang
      | S fuel =>
          let '(visited, result, next_queue) := level_loop hier root queue visited result [] in
          levels_loop fuel hier root next_queue visited result
      end
  end.

(** Every level but the last visits a schema that was not visited before. *)
Definition goc_schema_collect_descendants (t : types) (schema : sref) : res (list positive) :=
  match schema with
  | None => ok []
  | Some s => levels_loop (S (S (size (schemas t)))) (schema_hierarchy t) s [s] [] []
  end.

(** The nearest schema on the way up that has the method. *)
Fixpoint method_loop (fuel : nat) (st : store) (cur : sref) (method_name : string) : res (option Z) :=
  match cur with
  | None => ok None
  | Some c =>
      match fuel with
      | O => hang
      | S fuel =>
          s ← get_schema st c;
          match methods s !! method_name with
          | Some fn => if fn =? 0 then method_loop fuel st (parent s) method_name else ok (Some fn)
          | None => method_loop fuel st (parent s) method_name
          end
      end
  end.
Definition goc_schema_method_get (st : store) (schema : sref) (method_name : string) : res (option Z) :=
  method_loop (S (size st)) st schema method_name.

Definition goc_schema_method_set (schema : sref) (method_name : string) (fn : Z) : prog types () := λ t,
  match schema with
  | None => ok (tt, t)
  | Some c => match schemas t !! c with None => ub | Some _ => ok (tt, upd_schema c (set_method method_name fn) t) end
  end.

Definition goc_schema_parent (st : store) (schema : sref) : res sref :=
  match schema with None => ok None | Some c => s ← get_schema st c; ok (parent s) end.

(** ** The registry *)

Definition goc_schema_named (nm : string) (schema : sref) : prog types sref := λ t,
  match schema with
  | None => ok (None, t)
  | Some c =>
      match schemas t !! c with
      | None => ub
      | Some s =>
          if bool_decide (is_Some (schema_registry t !! nm)) then abort "goc_schema_named: schema name already registered"
          else if bool_decide (is_Some (name s)) then abort "goc_schema_named: schema already has a name"
          else
            let t := upd_schema c (set_name nm) t in
            ok (Some c, mk_types (schemas t) (schema_hierarchy t) (<[nm := c]> (schema_registry t)) (fresh t))
      end
  end.
Definition goc_schema_lookup (t : types) (nm : string) : sref := schema_registry t !! nm.
Definition goc_schema_name (st : store) (schema : sref) : res (option string) :=
  match schema with None => ok None | Some c => s ← get_schema st c; ok (name s) end.

(** The entries of the dictionary that is made. *)
Definition goc_schema_make_tagged (st : store) (schema : sref) (val : vref) : res (list (string * vref)) :=
  nm ← goc_schema_name st schema;
  match nm with
  | None => abort "goc_schema_make_tagged: schema has no registered name"
  | Some nm => ok [("goc_schema", VKey nm); ("goc_value", val)]
  end.

Definition goc_schema_with_meta (schema : sref) (m : goc_schema_meta_t) : prog types sref := λ t,
  match schema with
  | None => ok (None, t)
  | Some c => match schemas t !! c with None => ub | Some _ => ok (Some c, upd_schema c (set_meta m) t) end
  end.
Definition goc_schema_meta (st : store) (schema : sref) : res (option goc_schema_meta_t) :=
  match schema with None => ok None | Some c => s ← get_schema st c; ok (meta s) end.

(** [goc_schema_kind_t] and what the public function makes of a schema. *)
Inductive goc_schema_kind_t :=
| GOC_SCHEMA_ANY | GOC_SCHEMA_NULL | GOC_SCHEMA_BOOL | GOC_SCHEMA_INT | GOC_SCHEMA_UINT | GOC_SCHEMA_BYTE | GOC_SCHEMA_UBYTE
| GOC_SCHEMA_REAL | GOC_SCHEMA_NUMBER | GOC_SCHEMA_COMPLEX | GOC_SCHEMA_STR | GOC_SCHEMA_ARR | GOC_SCHEMA_TUPLE | GOC_SCHEMA_DICT
| GOC_SCHEMA_CONST | GOC_SCHEMA_CONSTRAINED | GOC_SCHEMA_COMPOSITION | GOC_SCHEMA_PREDICATE | GOC_SCHEMA_REF.

Definition public_kind (k : schema_kind) : goc_schema_kind_t :=
  match k with
  | SCHEMA_ANY => GOC_SCHEMA_ANY | SCHEMA_NULL => GOC_SCHEMA_NULL | SCHEMA_BOOL => GOC_SCHEMA_BOOL
  | SCHEMA_INT => GOC_SCHEMA_INT | SCHEMA_UINT => GOC_SCHEMA_UINT | SCHEMA_BYTE => GOC_SCHEMA_BYTE
  | SCHEMA_UBYTE => GOC_SCHEMA_UBYTE | SCHEMA_REAL => GOC_SCHEMA_REAL | SCHEMA_NUMBER => GOC_SCHEMA_NUMBER
  | SCHEMA_COMPLEX => GOC_SCHEMA_COMPLEX | SCHEMA_STR => GOC_SCHEMA_STR
  | SCHEMA_ARR _ | SCHEMA_ARR_LEN _ _ _ | SCHEMA_ARR_UNIQUE _ | SCHEMA_ARR_CONTAINS _ _ _ _ => GOC_SCHEMA_ARR
  | SCHEMA_TUPLE _ _ => GOC_SCHEMA_TUPLE
  | SCHEMA_OBJ _ _ => GOC_SCHEMA_DICT
  | SCHEMA_BOOL_CONST _ | SCHEMA_INT_CONST _ | SCHEMA_REAL_CONST _ | SCHEMA_STR_CONST _ => GOC_SCHEMA_CONST
  | SCHEMA_INT_MIN _ | SCHEMA_INT_MAX _ | SCHEMA_INT_RANGE _ _ | SCHEMA_INT_ENUM _ | SCHEMA_REAL_MIN _ | SCHEMA_REAL_MAX _
  | SCHEMA_REAL_RANGE _ _ | SCHEMA_REAL_EX_MIN _ | SCHEMA_REAL_EX_MAX _ | SCHEMA_REAL_MULTIPLE _ | SCHEMA_STR_MIN_LEN _
  | SCHEMA_STR_MAX_LEN _ | SCHEMA_STR_LEN _ _ | SCHEMA_STR_PATTERN _ | SCHEMA_STR_ENUM _ | SCHEMA_STR_FORMAT _ =>
      GOC_SCHEMA_CONSTRAINED
  | SCHEMA_IF _ _ _ | SCHEMA_ANY_OF _ | SCHEMA_ONE_OF _ | SCHEMA_ALL_OF _ | SCHEMA_NOT _ => GOC_SCHEMA_COMPOSITION
  | SCHEMA_PREDICATE _ _ => GOC_SCHEMA_PREDICATE
  | SCHEMA_REF _ => GOC_SCHEMA_REF
  end.
Definition goc_schema_kind (st : store) (schema : sref) : res goc_schema_kind_t :=
  match schema with None => ok GOC_SCHEMA_ANY | Some c => s ← get_schema st c; ok (public_kind (kind s)) end.

(** ** Constructors *)

Definition goc_schema_make (k : schema_kind) : prog types positive := λ t,
  ok (fresh t, mk_types (<[fresh t := mk_schema k None None None ∅]> (schemas t)) (schema_hierarchy t) (schema_registry t) (Pos.succ (fresh t))).

(** What every constructor does: a new schema derived from its super-schema. *)
Definition make_from (k : schema_kind) (super : sref) : prog types positive :=
  s ← goc_schema_make k; _ ← goc_schema_derive (Some s) super; mret s.

Definition goc_schema_bool_const (val : bool) := make_from (SCHEMA_BOOL_CONST val) (Some s_schema_bool).
Definition goc_schema_int_const (val : Z) := make_from (SCHEMA_INT_CONST val) (Some s_schema_int).
Definition goc_schema_real_const (val : R) := make_from (SCHEMA_REAL_CONST val) (Some s_schema_real).
Definition goc_schema_str_const (val : string) := make_from (SCHEMA_STR_CONST val) (Some s_schema_str).
Definition goc_schema_int_min (min : Z) := make_from (SCHEMA_INT_MIN min) (Some s_schema_int).
Definition goc_schema_int_max (max : Z) := make_from (SCHEMA_INT_MAX max) (Some s_schema_int).
Definition goc_schema_int_range (min max : Z) : prog types positive :=
  if max <? min then ABORT "goc_schema_int_range: min > max" else make_from (SCHEMA_INT_RANGE min max) (Some s_schema_int).
Definition goc_schema_int_enum (vals : list vref) := make_from (SCHEMA_INT_ENUM vals) (Some s_schema_int).
Definition goc_schema_real_min (min : R) := make_from (SCHEMA_REAL_MIN min) (Some s_schema_real).
Definition goc_schema_real_max (max : R) := make_from (SCHEMA_REAL_MAX max) (Some s_schema_real).
Definition goc_schema_real_range (min max : R) : prog types positive :=
  if ld_lt max min then ABORT "goc_schema_real_range: min > max" else make_from (SCHEMA_REAL_RANGE min max) (Some s_schema_real).
Definition goc_schema_real_ex_min (min : R) := make_from (SCHEMA_REAL_EX_MIN min) (Some s_schema_real).
Definition goc_schema_real_ex_max (max : R) := make_from (SCHEMA_REAL_EX_MAX max) (Some s_schema_real).
Definition goc_schema_real_multiple (factor : R) : prog types positive :=
  if negb (ld_lt ld_0 factor) then ABORT "goc_schema_real_multiple: factor must be positive"
  else make_from (SCHEMA_REAL_MULTIPLE factor) (Some s_schema_real).
Definition goc_schema_str_min_len (min : Z) := make_from (SCHEMA_STR_MIN_LEN min) (Some s_schema_str).
Definition goc_schema_str_max_len (max : Z) := make_from (SCHEMA_STR_MAX_LEN max) (Some s_schema_str).
Definition goc_schema_str_len (min max : Z) : prog types positive :=
  if max <? min then ABORT "goc_schema_str_len: min > max" else make_from (SCHEMA_STR_LEN min max) (Some s_schema_str).
Definition goc_schema_str_pattern (pattern : string) : prog types positive :=
  match regcomp pattern with
  | None => ABORT "goc_schema_str_pattern: invalid regex"
  | Some regex => make_from (SCHEMA_STR_PATTERN regex) (Some s_schema_str)
  end.
Definition goc_schema_str_enum (vals : list vref) := make_from (SCHEMA_STR_ENUM vals) (Some s_schema_str).

Definition goc_schema_format_pattern (format : string) : option string :=
  if String.eqb format "date-time" then
    Some "^[0-9]{4}-[0-9]{2}-[0-9]{2}T[0-9]{2}:[0-9]{2}:[0-9]{2}(\.[0-9]+)?(Z|[+-][0-9]{2}:[0-9]{2})$"
  else if String.eqb format "date" then Some "^[0-9]{4}-[0-9]{2}-[0-9]{2}$"
  else if String.eqb format "time" then Some "^[0-9]{2}:[0-9]{2}:[0-9]{2}(\.[0-9]+)?(Z|[+-][0-9]{2}:[0-9]{2})?$"
  else if String.eqb format "duration" then
    Some "^P([0-9]+Y)?([0-9]+M)?([0-9]+D)?(T([0-9]+H)?([0-9]+M)?([0-9]+(\.[0-9]+)?S)?)?$"
  else if String.eqb format "email" then Some "^[^@[:space:]]+@[^@[:space:]]+\.[^@[:space:]]+$"
  else if String.eqb format "uri" then Some "^[a-zA-Z][a-zA-Z0-9+.-]*:[^[:space:]]+$"
  else if String.eqb format "uuid" then
    Some "^[0-9a-fA-F]{8}-[0-9a-fA-F]{4}-[0-9a-fA-F]{4}-[0-9a-fA-F]{4}-[0-9a-fA-F]{12}$"
  else if String.eqb format "ipv4" then Some "^([0-9]{1,3}\.){3}[0-9]{1,3}$"
  else if String.eqb format "ipv6" then Some "^([0-9a-fA-F]{1,4}:){7}[0-9a-fA-F]{1,4}$"
  else None.

Definition goc_schema_str_format (format : string) : prog types positive :=
  match goc_schema_format_pattern format with
  | None => make_from (SCHEMA_STR_FORMAT None) (Some s_schema_str)
  | Some pattern =>
      match regcomp pattern with
      | None => ABORT "goc_schema_str_format: invalid regex for format"
      | Some regex => make_from (SCHEMA_STR_FORMAT (Some regex)) (Some s_schema_str)
      end
  end.

Definition goc_schema_arr (elem : sref) := make_from (SCHEMA_ARR elem) (Some s_schema_arr).
Definition goc_schema_arr_len (elem : sref) (min max : Z) : prog types positive :=
  if max <? min then ABORT "goc_schema_arr_len: min > max" else make_from (SCHEMA_ARR_LEN elem min max) (Some s_schema_arr).
Definition goc_schema_arr_unique (elem : sref) := make_from (SCHEMA_ARR_UNIQUE elem) (Some s_schema_arr).
Definition goc_schema_arr_contains (elem contains : sref) (min_contains max_contains : Z) :=
  make_from (SCHEMA_ARR_CONTAINS elem contains min_contains max_contains) (Some s_schema_arr).
Definition goc_schema_tuple (items : list sref) (additional_items : sref) :=
  make_from (SCHEMA_TUPLE items additional_items) (Some s_schema_arr).

(** The expressions are stored in the properties themselves. *)
Fixpoint goc_schema_compile_pattern_props (props : list goc_schema_pattern_prop) : res (list goc_schema_pattern_prop) :=
  match props with
  | [] => ok []
  | prop :: props =>
      prop ← match pp_regex prop with
             | Some _ => ok prop
             | None =>
                 match regcomp (pp_pattern prop) with
                 | None => abort "goc_schema_dict: invalid pattern_props regex"
                 | Some regex => ok (mk_prop (pp_pattern prop) (pp_schema prop) (Some regex))
                 end
             end;
      props ← goc_schema_compile_pattern_props props;
      ok (prop :: props)
  end.
Definition goc_schema_dict (fields : list goc_schema_field) (opts : goc_schema_dict_opts) : prog types positive :=
  pp ← of_res match pattern_props opts with
              | None => ok None
              | Some props => props ← goc_schema_compile_pattern_props props; ok (Some props)
              end;
  make_from (SCHEMA_OBJ fields (mk_opts (strict opts) (min_properties opts) (max_properties opts) (property_names opts) pp
                                  (dep_required opts) (dep_schemas opts)))
    (Some s_schema_dict).
Definition goc_schema_tagged_schema : prog types positive :=
  goc_schema_dict [mk_field "goc_schema" (Some s_schema_str) false; mk_field "goc_value" (Some s_schema_str) false] no_opts.

Definition goc_schema_if (super cond then_ else_ : sref) := make_from (SCHEMA_IF cond then_ else_) super.
Definition goc_schema_not (super schema : sref) := make_from (SCHEMA_NOT schema) super.
Definition goc_schema_predicate (super : sref) (fn : vref → bool) (nm : option string) := make_from (SCHEMA_PREDICATE fn nm) super.
Definition _goc_schema_any_of_impl (super : sref) (schemas : list sref) := make_from (SCHEMA_ANY_OF schemas) super.
Definition _goc_schema_one_of_impl (super : sref) (schemas : list sref) := make_from (SCHEMA_ONE_OF schemas) super.
Definition _goc_schema_all_of_impl (super : sref) (schemas : list sref) := make_from (SCHEMA_ALL_OF schemas) super.

Definition goc_schema_ref_make_of (super : sref) :=
  make_from (SCHEMA_REF None) (match super with None => Some s_schema_any | _ => super end).
Definition goc_schema_ref_make := goc_schema_ref_make_of (Some s_schema_any).

(** The first target stays. *)
Definition goc_schema_ref_set (ref schema : sref) : prog types () := λ t,
  match ref with
  | None => ok (tt, t)
  | Some c =>
      match schemas t !! c with
      | None => ub
      | Some s =>
          match kind s with
          | SCHEMA_REF None => ok (tt, upd_schema c (set_kind (SCHEMA_REF schema)) t)
          | SCHEMA_REF (Some _) => ok (tt, t)
          | _ => ub
          end
      end
  end.
Definition goc_schema_ref_get (st : store) (ref : sref) : res sref :=
  match ref with
  | None => ok None
  | Some c => s ← get_schema st c; match kind s with SCHEMA_REF target => ok target | _ => ub end
  end.

(** ** Initialisation *)

Fixpoint derive_all (edges : list (positive * positive)) : prog types () :=
  match edges with
  | [] => mret tt
  | (c, p) :: edges => _ ← goc_schema_derive (Some c) (Some p); derive_all edges
  end.
Definition goc_schema_register_builtin_edges : prog types () :=
  derive_all [(s_schema_null, s_schema_any); (s_schema_str, s_schema_any); (s_schema_arr, s_schema_any);
              (s_schema_dict, s_schema_any); (s_schema_number, s_schema_any); (s_schema_complex, s_schema_number);
              (s_schema_real, s_schema_complex); (s_schema_int, s_schema_number); (s_schema_uint, s_schema_number);
              (s_schema_byte, s_schema_int); (s_schema_ubyte, s_schema_uint); (s_schema_bool, s_schema_ubyte)].

Fixpoint make_all (kinds : list schema_kind) : prog types () :=
  match kinds with [] => mret tt | k :: kinds => _ ← goc_schema_make k; make_all kinds end.
Fixpoint named_all (names : list (string * positive)) : prog types () :=
  match names with [] => mret tt | (nm, c) :: names => _ ← goc_schema_named nm (Some c); named_all names end.

Definition goc_schema_init_singletons : prog types () :=
  _ ← make_all [SCHEMA_NULL; SCHEMA_BOOL; SCHEMA_INT; SCHEMA_UINT; SCHEMA_BYTE; SCHEMA_UBYTE; SCHEMA_NUMBER; SCHEMA_REAL;
                SCHEMA_COMPLEX; SCHEMA_STR; SCHEMA_ANY; SCHEMA_ARR (Some s_schema_any); SCHEMA_OBJ [] no_opts];
  _ ← goc_schema_register_builtin_edges;
  named_all [("goc/any", s_schema_any); ("goc/null", s_schema_null); ("goc/bool", s_schema_bool); ("goc/int", s_schema_int);
             ("goc/uint", s_schema_uint); ("goc/byte", s_schema_byte); ("goc/ubyte", s_schema_ubyte);
             ("goc/number", s_schema_number); ("goc/real", s_schema_real); ("goc/complex", s_schema_complex);
             ("goc/str", s_schema_str); ("goc/arr_any", s_schema_arr); ("goc/dict_any", s_schema_dict)].

(** Before initialisation nothing is allocated. *)
Definition no_types : types := mk_types ∅ ∅ ∅ 1.
Definition init_types : types := match goc_schema_init_singletons no_types with ok (_, t) => t | _ => no_types end.

End Schema.
End Schema.
