(* ===== verification/SchemaProps.v ===== *)
(** The hierarchy and the registry of schemas: the invariant of all calls, what the queries
    return on it, and what happens to them when schemas are derived in a circle. *)

From S2P Require Import Prelude Schema.

Module SchemaProps.
Import Schema.

(** One case per member of a list. *)
Ltac each_edge H :=
  repeat (apply elem_of_cons in H as [H|H]; [injection H; clear H; intros; subst|]); [..|by apply elem_of_nil in H].
Ltac in_list := solve [repeat first [apply list_elem_of_here|apply list_elem_of_further]].

Section Props.
Context {R X : Type} `{LongDouble R} `{Regex X}.
Notation goc_schema := (@Schema.goc_schema R X).
Notation store := (gmap positive goc_schema).
Notation types := (@types R X).

(** ** Chains of parents *)

Definition parent_of (st : store) (c p : positive) : Prop := ∃ s, st !! c = Some s ∧ parent s = Some p.
Definition acyclic (st : store) : Prop := ∀ c, ¬ tc (parent_of st) c c.
(** Every parent is a schema of the store. *)
Definition closed (st : store) : Prop := ∀ c p, parent_of st c p → is_Some (st !! p).

Lemma parent_of_fun st c p q : parent_of st c p → parent_of st c q → p = q.
Proof. intros (s & Hs & Hp) (s' & Hs' & Hq). congruence. Qed.

(** The schemas that a walk visits. *)
Inductive upchain (st : store) : sref → list positive → Prop :=
| upchain_nil cur : upchain st cur []
| upchain_cons c s l : st !! c = Some s → upchain st (parent s) l → upchain st (Some c) (c :: l).

Lemma upchain_reach st c l x : upchain st (Some c) (c :: l) → x ∈ l → tc (parent_of st) c x.
Proof.
  revert c. induction l as [|d l IH]; intros c Hc Hx; [by apply elem_of_nil in Hx|].
  inversion Hc as [|? s ? Hs Hl]; subst. inversion Hl as [|? s' ? Hs' Hl' Hp]; subst.
  assert (parent_of st c d) as Hcd by (by exists s). apply elem_of_cons in Hx as [->|Hx]; [by apply tc_once|].
  eapply tc_l; [done|]. apply (IH d); [|done]. by eapply upchain_cons.
Qed.
Lemma upchain_nodup st cur l : acyclic st → upchain st cur l → NoDup l.
Proof.
  intros Ha. induction 1 as [|c s l Hs Hl IH]; [constructor|]. constructor; [|done].
  intros Hc. apply (Ha c). eapply upchain_reach; [|done]. by eapply upchain_cons.
Qed.
Lemma upchain_dom st cur l x : upchain st cur l → x ∈ l → x ∈ dom st.
Proof.
  induction 1 as [|c s l Hs Hl IH]; [by intros ?%elem_of_nil|].
  intros [->|Hx]%elem_of_cons; [by apply elem_of_dom_2 in Hs|auto].
Qed.
Lemma upchain_length st cur l : acyclic st → upchain st cur l → (length l <= size st)%nat.
Proof.
  intros Ha Hl. rewrite <- size_dom. rewrite <- (size_list_to_set (C := gset positive) l) by (by eapply upchain_nodup).
  apply subseteq_size. intros x Hx%elem_of_list_to_set. by eapply upchain_dom.
Qed.

(** A walk that runs out of fuel has visited that many schemas. *)
Lemma up_hang n st cur t : up_loop n st cur t = hang → ∃ l, length l = n ∧ upchain st cur l.
Proof.
  revert cur. induction n as [|n IH]; intros [c|]; simpl; try done.
  - intros _. exists []. split; [done|constructor].
  - case_bool_decide; [done|]. unfold get_schema. destruct (st !! c) as [s|] eqn:Hs; [|done]. simpl.
    intros (l & <- & Hl)%IH. exists (c :: l). split; [done|]. by eapply upchain_cons.
Qed.
Lemma ancestors_hang n st cur : ancestors_loop n st cur = hang → ∃ l, length l = n ∧ upchain st cur l.
Proof.
  revert cur. induction n as [|n IH]; intros [c|]; simpl; try done.
  - intros _. exists []. split; [done|constructor].
  - unfold get_schema. destruct (st !! c) as [s|] eqn:Hs; [|done]. simpl.
    destruct (ancestors_loop n st (parent s)) as [l'| | |] eqn:Hl; try done. intros _.
    apply IH in Hl as (l & <- & Hl). exists (c :: l). split; [done|]. by eapply upchain_cons.
Qed.
Lemma method_hang n st cur m : method_loop n st cur m = hang → ∃ l, length l = n ∧ upchain st cur l.
Proof.
  revert cur. induction n as [|n IH]; intros [c|]; simpl; try done.
  - intros _. exists []. split; [done|constructor].
  - unfold get_schema. destruct (st !! c) as [s|] eqn:Hs; [|done]. simpl. intros Hh.
    assert (method_loop n st (parent s) m = hang) as (l & <- & Hl)%IH by (by repeat case_match).
    exists (c :: l). split; [done|]. by eapply upchain_cons.
Qed.
Lemma no_hang st cur l : acyclic st → upchain st cur l → length l = S (size st) → False.
Proof. intros Ha Hl%upchain_length; [lia|done]. Qed.

(** ** Queries *)

Lemma up_sound n st c t b : up_loop n st (Some c) t = ok b → (b = true ↔ rtc (parent_of st) c t).
Proof.
  revert c. induction n as [|n IH]; intros c; simpl; [done|].
  case_bool_decide as Hc; [intros [= <-]; subst; split; [intros _; apply rtc_refl|done]|].
  unfold get_schema. destruct (st !! c) as [s|] eqn:Hs; [|done]. simpl. destruct (parent s) as [p|] eqn:Hp.
  - intros Hb%IH. rewrite Hb. assert (parent_of st c p) as Hcp by (by exists s). split; [by apply rtc_l|].
    intros [?|(y & Hy & Hr)]%rtc_inv; [done|]. by rewrite (parent_of_fun st c p y).
  - destruct n; simpl; intros [= <-]; (split; [done|]); intros [?|(y & (s' & Hs' & Hy) & Hr)]%rtc_inv; congruence.
Qed.

Lemma is_a_spec st c p :
  acyclic st → closed st → is_Some (st !! c) →
  ∃ b, goc_schema_is_a st (Some c) (Some p) = ok b ∧ (b = true ↔ rtc (parent_of st) c p).
Proof.
  intros Ha Hcl [s Hs]. unfold goc_schema_is_a, get_schema. case_bool_decide as Hcp; [subst; eexists; split; [done|]; split; [intros _; apply rtc_refl|done]|].
  rewrite Hs. simpl.
  assert (∀ n cur, (∀ q, cur = Some q → is_Some (st !! q)) → up_loop n st cur p = hang ∨ ∃ b, up_loop n st cur p = ok b) as Htot.
  { clear -Hcl. induction n as [|n IH]; intros [q|] Hq; simpl; eauto. case_bool_decide; [eauto|].
    destruct (Hq q eq_refl) as [s Hs]. unfold get_schema. rewrite Hs. simpl. apply IH. intros q' Hq'. apply (Hcl q). by exists s. }
  destruct (Htot (S (size st)) (parent s)) as [Hh|[b Hb]].
  - intros q Hq. apply (Hcl c). by exists s.
  - apply up_hang in Hh as (l & Hn & Hl). by destruct (no_hang st (parent s) l).
  - exists b. split; [done|]. destruct (parent s) as [q|] eqn:Hp.
    + rewrite (up_sound _ _ _ _ _ Hb). assert (parent_of st c q) as Hcq by (by exists s). split; [by apply rtc_l|].
      intros [?|(y & Hy & Hr)]%rtc_inv; [done|]. by rewrite (parent_of_fun st c q y).
    + simpl in Hb. injection Hb as <-. split; [done|]. intros [?|(y & (s' & Hs' & Hy) & Hr)]%rtc_inv; congruence.
Qed.

(** The walk of the ancestors returns the whole chain. *)
Lemma ancestors_sound n st cur l : ancestors_loop n st cur = ok l → upchain st cur l ∧ ∀ x y, x ∈ l → parent_of st x y → y ∈ l.
Proof.
  revert cur l. induction n as [|n IH]; intros [c|] l; simpl; try done;
    try (intros [= <-]; split; [constructor|by intros ?? []%elem_of_nil]).
  unfold get_schema. destruct (st !! c) as [s|] eqn:Hs; [|done]. simpl.
  destruct (ancestors_loop n st (parent s)) as [l'| | |] eqn:Hl; try done. intros [= <-].
  destruct (IH _ _ Hl) as [Hup Hclos]. split; [by eapply upchain_cons|].
  intros x y [->|Hx]%elem_of_cons (s' & Hs' & Hy); apply elem_of_cons; right; [|by apply (Hclos x); [|exists s']].
  assert (s' = s) as -> by congruence. rewrite Hy in Hl, Hup. destruct n; [done|]. simpl in Hl.
  destruct (get_schema st y); try done. simpl in Hl. destruct (ancestors_loop n st _); try done. injection Hl as <-. apply elem_of_cons. by left.
Qed.

Lemma ancestors_spec st c :
  acyclic st → closed st → is_Some (st !! c) →
  ∃ l, goc_schema_collect_ancestors st (Some c) = ok l ∧ NoDup l ∧ ∀ a, a ∈ l ↔ tc (parent_of st) c a.
Proof.
  intros Ha Hcl [s Hs]. unfold goc_schema_collect_ancestors, get_schema. rewrite Hs. simpl mbind. cbv beta.
  assert (∀ n cur, (∀ q, cur = Some q → is_Some (st !! q)) → ancestors_loop n st cur = hang ∨ ∃ b, ancestors_loop n st cur = ok b) as Htot.
  { clear -Hcl. induction n as [|n IH]; intros [q|] Hq; simpl; eauto.
    destruct (Hq q eq_refl) as [s Hs]. unfold get_schema. rewrite Hs. simpl. destruct (IH (parent s)) as [->|[b ->]]; eauto.
    intros q' Hq'. apply (Hcl q). by exists s. }
  destruct (Htot (S (size st)) (parent s)) as [Hh|[l Hl]].
  - intros q Hq. apply (Hcl c). by exists s.
  - apply ancestors_hang in Hh as (l & Hn & Hl). by destruct (no_hang st (parent s) l).
  - exists l. split; [done|]. pose proof Hl as [Hup Hclos]%ancestors_sound. split; [by eapply upchain_nodup|]. intros a. split.
    + intros Hin. apply (upchain_reach st c l); [by eapply upchain_cons|done].
    + intros Htc. assert (∀ q, parent s = Some q → q ∈ l) as Hfirst.
      { intros q Hq. rewrite Hq in Hl. simpl in Hl. destruct (get_schema st q); try done. simpl in Hl.
        destruct (ancestors_loop _ st _); try done. injection Hl as <-. apply elem_of_cons. by left. }
      clear -Htc Hs Hclos Hfirst. assert (∀ y, parent_of st c y → y ∈ l) as Hf by (intros y (s' & Hs' & Hy); apply Hfirst; congruence).
      clear Hs Hfirst. induction Htc as [x y Hxy|x y z Hxy Hyz IH]; [auto|]. apply IH. intros w Hw. eapply Hclos; [|done]. auto.
Qed.

(** ** Descendants *)

(** The children of the hierarchy are the schemas whose parent it is. *)
Definition children_ok (st : store) (hier : gmap positive (list positive)) : Prop :=
  ∀ p c, c ∈ default [] (hier !! p) ↔ parent_of st c p.

Section Descendants.
Context (st : store) (hier : gmap positive (list positive)) (root : positive).
Context (Hch : children_ok st hier) (Hroot : is_Some (st !! root)).

(** The state of the breadth-first walk. *)
Record bfs (pending visited result : list positive) : Prop := {
  bfs_nodup : NoDup visited;
  bfs_result : result = filter (λ x, x ≠ root) visited;
  bfs_below : ∀ x, x ∈ visited ∨ x ∈ pending → rtc (parent_of st) x root;
  bfs_closed : ∀ x c, x ∈ visited → parent_of st c x → c ∈ visited ∨ c ∈ pending;
  bfs_root : root ∈ visited ∨ root ∈ pending
}.

Lemma level_bfs queue visited result next visited' result' next' :
  level_loop hier root queue visited result next = (visited', result', next') →
  bfs (queue ++ next) visited result → bfs next' visited' result' ∧ (length visited <= length visited')%nat ∧
    (next' = next ∨ (length visited < length visited')%nat).
Proof.
  revert visited result next. induction queue as [|node queue IH]; intros visited result next; simpl.
  - intros [= <- <- <-] Hb. auto.
  - case_bool_decide as Hin; intros Hl Hb.
    + eapply IH; [done|]. destruct Hb. constructor; try done.
      * intros x Hx. apply bfs_below0. rewrite elem_of_cons. tauto.
      * intros x c Hx Hc. destruct (bfs_closed0 x c Hx Hc) as [?|[->|?]%elem_of_cons]; auto.
      * destruct bfs_root0 as [?|[->|?]%elem_of_cons]; auto.
    + apply IH in Hl.
      * rewrite length_app in Hl. simpl in Hl. destruct Hl as (Hb' & Hle & _). split; [done|]. split; [lia|right; lia].
      * destruct Hb. constructor.
        -- apply NoDup_app. split_and!; [done| |apply NoDup_singleton]. intros x Hx ->%list_elem_of_singleton. done.
        -- rewrite filter_app, bfs_result0. case_bool_decide as Hr; simpl.
           ++ rewrite filter_cons_False by (by intros []). by rewrite filter_nil, app_nil_r.
           ++ by rewrite filter_cons_True, filter_nil.
        -- intros x. rewrite !elem_of_app, list_elem_of_filter, list_elem_of_singleton.
           intros [[Hx| ->]|[Hx|[Hx|[_ Hx]]]]; try (apply bfs_below0; rewrite ?elem_of_cons, ?elem_of_app; tauto).
           apply Hch in Hx. eapply rtc_l; [done|]. apply bfs_below0. rewrite elem_of_cons. auto.
        -- intros x c [Hx| ->%list_elem_of_singleton]%elem_of_app Hc.
           ++ destruct (bfs_closed0 x c Hx Hc) as [?|[->|[?|?]%elem_of_app]%elem_of_cons]; rewrite !elem_of_app; auto.
              left. right. by apply list_elem_of_singleton.
           ++ rewrite !elem_of_app, list_elem_of_filter. destruct (decide (c ∈ visited ++ [node])) as [Hcv|Hcv]; [apply elem_of_app in Hcv; auto|].
              right. right. right. split; [done|]. by apply Hch.
        -- rewrite !elem_of_app. destruct bfs_root0 as [?|[->|[?|?]%elem_of_app]%elem_of_cons]; auto.
           left. right. by apply list_elem_of_singleton.
Qed.

Lemma below_in_store x : rtc (parent_of st) x root → x ∈ dom st.
Proof. intros [->|(y & (s & Hs & _) & _)]%rtc_inv; apply elem_of_dom; [done|eauto]. Qed.
Lemma visited_bound pending visited result : bfs pending visited result → (length visited <= size st)%nat.
Proof.
  intros []. rewrite <- size_dom, <- (size_list_to_set (C := gset positive) visited) by done.
  apply subseteq_size. intros x Hx%elem_of_list_to_set. apply below_in_store. auto.
Qed.

Lemma bfs_done visited result : bfs [] visited result → NoDup result ∧ ∀ d, d ∈ result ↔ d ≠ root ∧ rtc (parent_of st) d root.
Proof.
  intros []. subst. split; [by apply NoDup_filter|].
  intros d. rewrite list_elem_of_filter. split; intros [? Hd]; (split; [done|]); [auto|].
  assert (root ∈ visited) as Hrv by (by destruct bfs_root0 as [|[]%elem_of_nil]).
  clear -Hd Hrv bfs_closed0. induction Hd as [|x y z Hxy _ IHd]; [done|].
  destruct (bfs_closed0 y x) as [|[]%elem_of_nil]; auto.
Qed.

Lemma levels_spec fuel queue visited result :
  bfs queue visited result → (size st < fuel + length visited)%nat →
  ∃ l, levels_loop (S fuel) hier root queue visited result = ok l ∧ NoDup l ∧ ∀ d, d ∈ l ↔ d ≠ root ∧ rtc (parent_of st) d root.
Proof.
  revert queue visited result. induction fuel as [|fuel IH]; intros queue visited result Hb Hf.
  - pose proof (visited_bound _ _ _ Hb). lia.
  - destruct queue as [|node queue]; [exists result; split; [done|by eapply bfs_done]|].
    change (levels_loop (S (S fuel)) hier root (node :: queue) visited result) with
      (let '(visited, result, next_queue) := level_loop hier root (node :: queue) visited result [] in
       levels_loop (S fuel) hier root next_queue visited result).
    destruct (level_loop hier root (node :: queue) visited result []) as [[v' r'] q'] eqn:Hl.
    apply level_bfs in Hl as (Hb' & Hle & [->|Hlt]); [| |by rewrite app_nil_r].
    + exists r'. split; [done|]. by eapply bfs_done.
    + apply IH; [done|lia].
Qed.
End Descendants.

Lemma descendants_spec (t : types) c :
  children_ok (schemas t) (schema_hierarchy t) → is_Some (schemas t !! c) →
  ∃ l, goc_schema_collect_descendants t (Some c) = ok l ∧ NoDup l ∧ ∀ d, d ∈ l ↔ d ≠ c ∧ rtc (parent_of (schemas t)) d c.
Proof.
  intros Hch Hc. apply (levels_spec (schemas t) (schema_hierarchy t) c Hch Hc (S (size (schemas t)))); [|simpl; lia].
  constructor; try done.
  - constructor.
  - intros x [[]%elem_of_nil| ->%list_elem_of_singleton]. apply rtc_refl.
  - intros x d []%elem_of_nil.
  - right. by apply list_elem_of_singleton.
Qed.

(** ** Methods *)

Lemma method_spec st c m :
  acyclic st → closed st → is_Some (st !! c) →
  ∃ r, goc_schema_method_get st (Some c) m = ok r ∧
    match r with
    | Some fn => ∃ a s, rtc (parent_of st) c a ∧ st !! a = Some s ∧ methods s !! m = Some fn ∧ fn ≠ 0 ∧
        ∀ b s', rtc (parent_of st) c b → tc (parent_of st) b a → st !! b = Some s' → default 0 (methods s' !! m) = 0
    | None => ∀ a s, rtc (parent_of st) c a → st !! a = Some s → default 0 (methods s !! m) = 0
    end.
Proof.
  intros Ha Hcl Hc. unfold goc_schema_method_get.
  assert (∀ n cur, (∀ q, cur = Some q → is_Some (st !! q)) → method_loop n st cur m = hang ∨ ∃ b, method_loop n st cur m = ok b) as Htot.
  { clear -Hcl. induction n as [|n IH]; intros [q|] Hq; simpl; eauto.
    destruct (Hq q eq_refl) as [s Hs]. unfold get_schema. rewrite Hs. simpl.
    assert (method_loop n st (parent s) m = hang ∨ ∃ b, method_loop n st (parent s) m = ok b).
    { apply IH. intros q' Hq'. apply (Hcl q). by exists s. }
    repeat case_match; eauto. }
  destruct (Htot (S (size st)) (Some c)) as [Hh|[r Hr]].
  - by intros q [= <-].
  - apply method_hang in Hh as (l & Hn & Hl). by destruct (no_hang st (Some c) l).
  - exists r. split; [done|]. clear Htot. revert c Hc Hr. generalize (S (size st)). intros n.
    induction n as [|n IH]; intros c [s Hs] Hr; [done|]. simpl in Hr. unfold get_schema in Hr. rewrite Hs in Hr. simpl in Hr.
    assert (method_loop n st (parent s) m = ok r ∧ default 0 (methods s !! m) = 0 ∨ ∃ fn, methods s !! m = Some fn ∧ fn ≠ 0 ∧ r = Some fn) as [[Hup Hz]|(fn & Hfn & Hnz & ->)].
    { destruct (methods s !! m) as [fn|]; [|by left]. destruct (Z.eqb_spec fn 0); [left; by subst|right]. injection Hr as <-. eauto. }
    + destruct (parent s) as [q|] eqn:Hp.
      * assert (parent_of st c q) as Hcq by (by exists s).
        assert (∀ y, parent_of st c y → y = q) as Hu by (intros; by eapply parent_of_fun).
        specialize (IH q (Hcl _ _ Hcq) Hup). destruct r as [fn|].
        -- destruct IH as (a & sa & Hqa & Hsa & Hfa & Hna & Hall). exists a, sa. split_and!; try done; [by eapply rtc_l|].
           intros b s' [<-|(y & ->%Hu & Hyb)]%rtc_inv Hba Hb; [congruence|by eapply Hall].
        -- intros a sa [<-|(y & ->%Hu & Hya)]%rtc_inv Hsa; [congruence|by eapply IH].
      * assert (r = None) as -> by (by destruct n; injection Hup as <-).
        intros a sa [<-|(y & (s' & Hs' & Hy) & _)]%rtc_inv Hsa; congruence.
    + exists c, s. split_and!; try done. intros b s' Hcb Hbc. exfalso. apply (Ha c).
      by eapply tc_rtc_l.
Qed.

(** ** All calls *)

Lemma parent_of_alt (st : store) c p : parent_of st c p ↔ st !! c ≫= parent = Some p.
Proof.
  unfold parent_of. destruct (st !! c) as [s|]; simpl; split.
  - intros (s' & [= <-] & Hp). done.
  - eauto.
  - by intros (s' & ? & _).
  - done.
Qed.
Lemma parent_of_alter st f c x p : (∀ s, parent (f s) = parent s) → parent_of (alter f c st) x p ↔ parent_of st x p.
Proof.
  intros Hf. rewrite !parent_of_alt. destruct (decide (x = c)) as [->|Hx]; [|by rewrite lookup_alter_ne].
  rewrite lookup_alter_eq. destruct (st !! c); simpl; [by rewrite Hf|done].
Qed.
Lemma alter_is_Some (f : goc_schema → goc_schema) c x (st : store) : is_Some (alter f c st !! x) ↔ is_Some (st !! x).
Proof. apply lookup_alter_is_Some. Qed.

(** The singletons with their kinds and parents. *)
Definition tower : list (positive * (@schema_kind R X) * sref) :=
  [(s_schema_null, SCHEMA_NULL, Some s_schema_any); (s_schema_bool, SCHEMA_BOOL, Some s_schema_ubyte);
   (s_schema_int, SCHEMA_INT, Some s_schema_number); (s_schema_uint, SCHEMA_UINT, Some s_schema_number);
   (s_schema_byte, SCHEMA_BYTE, Some s_schema_int); (s_schema_ubyte, SCHEMA_UBYTE, Some s_schema_uint);
   (s_schema_number, SCHEMA_NUMBER, Some s_schema_any); (s_schema_real, SCHEMA_REAL, Some s_schema_complex);
   (s_schema_complex, SCHEMA_COMPLEX, Some s_schema_number); (s_schema_str, SCHEMA_STR, Some s_schema_any);
   (s_schema_any, SCHEMA_ANY, None); (s_schema_arr, SCHEMA_ARR (Some s_schema_any), Some s_schema_any);
   (s_schema_dict, SCHEMA_OBJ [] no_opts, Some s_schema_any)].

Record types_ok (t : types) : Prop := {
  ok_fresh : ∀ p, (fresh t <= p)%positive → schemas t !! p = None;
  ok_closed : closed (schemas t);
  ok_acyclic : acyclic (schemas t);
  ok_children : children_ok (schemas t) (schema_hierarchy t);
  ok_once : ∀ p, NoDup (default [] (schema_hierarchy t !! p));
  ok_names : ∀ n c, schema_registry t !! n = Some c ↔ ∃ s, schemas t !! c = Some s ∧ name s = Some n;
  ok_tower : ∀ p k q, (p, k, q) ∈ tower → ∃ s, schemas t !! p = Some s ∧ kind s = k ∧ (q ≠ None → parent s = q)
}.

(** What a schema keeps when one of its attributes is set. *)
Record keeps (f : goc_schema → goc_schema) : Prop := {
  keeps_parent : ∀ s, parent (f s) = parent s;
  keeps_name : ∀ s, name (f s) = name s;
}.

Lemma ok_upd f c t :
  types_ok t → keeps f → (∀ s, schemas t !! c = Some s → kind (f s) = kind s ∨ ∃ target, kind s = SCHEMA_REF target) → types_ok (upd_schema c f t).
Proof.
  intros [] [Hp Hn] Hk. unfold upd_schema. constructor; simpl.
  - intros q Hq. apply eq_None_not_Some. rewrite alter_is_Some. apply eq_None_not_Some. auto.
  - intros x p. rewrite parent_of_alter by done. rewrite alter_is_Some. apply ok_closed0.
  - intros x Hx. apply (ok_acyclic0 x). apply (tc_congruence id (R := parent_of (alter f c (schemas t)))); [|done]. intros a b. by rewrite parent_of_alter.
  - intros p x. rewrite parent_of_alter by done. apply ok_children0.
  - done.
  - intros n x. rewrite ok_names0. destruct (decide (x = c)) as [->|Hx]; [|by rewrite lookup_alter_ne].
    rewrite lookup_alter_eq. destruct (schemas t !! c) as [s|]; simpl; [|naive_solver].
    split; intros (s' & [= <-] & Hs'); eexists; (split; [done|]); [by rewrite Hn|by rewrite Hn in Hs'].
  - intros p k q Hpk. destruct (ok_tower0 p k q Hpk) as (s & Hs & Hkind & Hpar).
    destruct (decide (p = c)) as [->|Hx]; [|rewrite lookup_alter_ne by done; eauto].
    rewrite lookup_alter_eq, Hs. simpl. eexists. split_and!; [done| |by rewrite Hp].
    destruct (Hk s Hs) as [->|[target Href]]; [done|]. exfalso. rewrite Hkind in Href. clear -Hpk Href.
    unfold tower in Hpk; each_edge Hpk; done.
Qed.

(** A new edge closes a circle only if the parent was below the child. *)
Lemma tc_add_edge {A} (Q Q' : relation A) c p x y :
  (∀ a b, Q' a b → Q a b ∨ a = c ∧ b = p) → tc Q' x y → tc Q x y ∨ (rtc Q x c ∧ rtc Q p y) ∨ rtc Q p c.
Proof.
  intros HQ. induction 1 as [x y Hxy|x y z Hxy Hyz IH].
  - destruct (HQ x y Hxy) as [?|[-> ->]]; [left; by apply tc_once|right; left; split; apply rtc_refl].
  - destruct (HQ x y Hxy) as [Hq|[-> ->]].
    + destruct IH as [IH|[[IH1 IH2]|IH]]; [left; by eapply tc_l|right; left; split; [by eapply rtc_l|done]|auto].
    + destruct IH as [IH|[[IH1 IH2]|IH]]; [right; left; split; [apply rtc_refl|by apply tc_rtc]|auto|auto].
Qed.

Lemma derive_parents st c p s :
  st !! c = Some s → parent s = None → ∀ x y, parent_of (alter (set_parent p) c st) x y ↔ parent_of st x y ∨ x = c ∧ y = p.
Proof.
  intros Hs Hn x y. rewrite !parent_of_alt. destruct (decide (x = c)) as [->|Hx].
  - rewrite lookup_alter_eq, Hs. simpl. rewrite Hn. naive_solver.
  - rewrite lookup_alter_ne by done. naive_solver.
Qed.

Lemma ok_derive c p t t' :
  types_ok t → is_Some (schemas t !! p) → ¬ rtc (parent_of (schemas t)) p c →
  goc_schema_derive (Some c) (Some p) t = ok (tt, t') → types_ok t'.
Proof.
  intros [] Hp Hnot. unfold goc_schema_derive. destruct (schemas t !! c) as [s|] eqn:Hs; [|done].
  case_bool_decide as Hn; [|done]. intros [= <-]. pose proof (derive_parents (schemas t) c p s Hs Hn) as Hpar.
  constructor; simpl.
  - intros q Hq. apply eq_None_not_Some. rewrite alter_is_Some. apply eq_None_not_Some. auto.
  - intros x y [Hxy|[-> ->]]%Hpar; rewrite alter_is_Some; [by eapply ok_closed0|done].
  - intros x Hx. apply (tc_add_edge (parent_of (schemas t)) _ c p) in Hx as [Hx|[[H1 H2]|?]]; [|  |done|].
    + by eapply ok_acyclic0.
    + apply Hnot. by etrans.
    + intros a b. apply Hpar.
  - intros q x. rewrite Hpar. destruct (decide (q = p)) as [->|Hq].
    + rewrite lookup_insert_eq. simpl. rewrite elem_of_app, list_elem_of_singleton, (ok_children0 p x). naive_solver.
    + rewrite lookup_insert_ne by done. rewrite (ok_children0 q x). naive_solver.
  - intros q. destruct (decide (q = p)) as [->|Hq]; [|by rewrite lookup_insert_ne].
    rewrite lookup_insert_eq. simpl. apply NoDup_app. split_and!; [done| |apply NoDup_singleton].
    intros x Hx ->%list_elem_of_singleton. apply ok_children0 in Hx as (s' & Hs' & Hy). congruence.
  - intros n x. rewrite ok_names0. destruct (decide (x = c)) as [->|Hx]; [|by rewrite lookup_alter_ne].
    rewrite lookup_alter_eq, Hs. simpl. naive_solver.
  - intros q k r Hq. destruct (ok_tower0 q k r Hq) as (s' & Hs' & Hkind & Hr).
    destruct (decide (q = c)) as [->|Hne]; [|rewrite lookup_alter_ne by done; eauto].
    rewrite lookup_alter_eq, Hs'. simpl. eexists. split_and!; [done|done|]. intros Hrn. simpl. specialize (Hr Hrn). congruence.
Qed.

Lemma make_parents (st : store) c k x y :
  st !! c = None → parent_of (<[c := mk_schema k None None None ∅]> st) x y ↔ parent_of st x y.
Proof.
  intros Hc. rewrite !parent_of_alt. destruct (decide (x = c)) as [->|Hx]; [|by rewrite lookup_insert_ne].
  rewrite lookup_insert_eq, Hc. done.
Qed.

Lemma ok_make k t : types_ok t → ∃ t', goc_schema_make k t = ok (fresh t, t') ∧ types_ok t' ∧
  schemas t' = <[fresh t := mk_schema k None None None ∅]> (schemas t).
Proof.
  intros []. eexists. split; [done|]. split; [|done].
  assert (schemas t !! fresh t = None) as Hf by (apply ok_fresh0; lia).
  pose proof (make_parents (schemas t) (fresh t) k) as Hpar. constructor; simpl.
  - intros p Hp. rewrite lookup_insert_ne by lia. apply ok_fresh0. lia.
  - intros x y Hxy%Hpar%ok_closed0; [|done]. by apply lookup_insert_is_Some'; right.
  - intros x Hx. apply (ok_acyclic0 x). revert Hx.
    apply (tc_congruence id). intros a b. by rewrite Hpar.
  - intros p x. rewrite Hpar by done. apply ok_children0.
  - done.
  - intros n x. rewrite ok_names0. destruct (decide (x = fresh t)) as [->|Hx]; [|by rewrite lookup_insert_ne].
    rewrite lookup_insert_eq, Hf. naive_solver.
  - intros p k' q Hp. destruct (ok_tower0 p k' q Hp) as (s & Hs & ?). exists s. split; [|done].
    rewrite lookup_insert_ne; [done|]. intros <-. congruence.
Qed.

(** A pointer to a schema, or null. *)
Definition ptr (t : types) (s : sref) : Prop := ∀ p, s = Some p → is_Some (schemas t !! p).

Lemma ok_make_from k super t c t' : types_ok t → ptr t super → make_from k super t = ok (c, t') → types_ok t'.
Proof.
  intros Ht Hsup. unfold make_from. destruct (ok_make k t Ht) as (t1 & Hm & Ht1 & Hst).
  rewrite (prog_bind_ok _ _ _ _ _ Hm). destruct super as [p|]; [|by intros [= <- <-]].
  intros ([] & t2 & Hd & [= <- <-])%prog_bind_inv. eapply ok_derive; [done| | |done].
  - rewrite Hst. apply lookup_insert_is_Some'. right. by apply Hsup.
  - assert (schemas t !! fresh t = None) as Hf by (apply (ok_fresh t Ht); lia).
    destruct (Hsup p eq_refl) as [s Hs]. intros [->|(y & Hpy & Hyc)]%rtc_inv_r; [congruence|].
    rewrite Hst in Hyc. apply make_parents in Hyc; [|done]. apply (ok_closed t Ht) in Hyc as [? ?]. congruence.
Qed.

(** The constructors of the API, with pointers to schemas that exist. *)
Inductive constructor (t : types) : prog types positive → Prop :=
| con_bool_const v : constructor t (goc_schema_bool_const v)
| con_int_const v : constructor t (goc_schema_int_const v)
| con_real_const v : constructor t (goc_schema_real_const v)
| con_str_const v : constructor t (goc_schema_str_const v)
| con_int_min m : constructor t (goc_schema_int_min m)
| con_int_max m : constructor t (goc_schema_int_max m)
| con_int_range lo hi : constructor t (goc_schema_int_range lo hi)
| con_int_enum vals : constructor t (goc_schema_int_enum vals)
| con_real_min m : constructor t (goc_schema_real_min m)
| con_real_max m : constructor t (goc_schema_real_max m)
| con_real_range lo hi : constructor t (goc_schema_real_range lo hi)
| con_real_ex_min m : constructor t (goc_schema_real_ex_min m)
| con_real_ex_max m : constructor t (goc_schema_real_ex_max m)
| con_real_multiple f : constructor t (goc_schema_real_multiple f)
| con_str_min_len m : constructor t (goc_schema_str_min_len m)
| con_str_max_len m : constructor t (goc_schema_str_max_len m)
| con_str_len lo hi : constructor t (goc_schema_str_len lo hi)
| con_str_pattern pattern : constructor t (goc_schema_str_pattern pattern)
| con_str_enum vals : constructor t (goc_schema_str_enum vals)
| con_str_format format : constructor t (goc_schema_str_format format)
| con_arr elem : constructor t (goc_schema_arr elem)
| con_arr_len elem lo hi : constructor t (goc_schema_arr_len elem lo hi)
| con_arr_unique elem : constructor t (goc_schema_arr_unique elem)
| con_arr_contains elem contains lo hi : constructor t (goc_schema_arr_contains elem contains lo hi)
| con_tuple items add : constructor t (goc_schema_tuple items add)
| con_dict fields opts : constructor t (goc_schema_dict fields opts)
| con_tagged : constructor t goc_schema_tagged_schema
| con_if super cond then_ else_ : ptr t super → constructor t (goc_schema_if super cond then_ else_)
| con_not super schema : ptr t super → constructor t (goc_schema_not super schema)
| con_predicate super fn nm : ptr t super → constructor t (goc_schema_predicate super fn nm)
| con_any_of super ss : ptr t super → constructor t (_goc_schema_any_of_impl super ss)
| con_one_of super ss : ptr t super → constructor t (_goc_schema_one_of_impl super ss)
| con_all_of super ss : ptr t super → constructor t (_goc_schema_all_of_impl super ss)
| con_ref_of super : ptr t super → constructor t (goc_schema_ref_make_of super)
| con_ref : constructor t goc_schema_ref_make.

Lemma ptr_singleton t p : types_ok t → p ∈ (λ x, x.1.1) <$> tower → ptr t (Some p).
Proof.
  intros Ht ([[p' k] q] & -> & Hin)%list_elem_of_fmap_1 r [= <-]. apply (ok_tower t Ht) in Hin as (s & Hs & _). eauto.
Qed.

(** A constructor aborts, or makes one schema under an existing one. *)
Lemma constructor_make t mk c t' : types_ok t → constructor t mk → mk t = ok (c, t') →
  ∃ k super, ptr t super ∧ make_from k super t = ok (c, t').
Proof.
  intros Ht Hc Hmk.
  assert (∀ k p, bool_decide (p ∈ (λ x, x.1.1) <$> tower) = true → make_from k (Some p) t = ok (c, t') →
    ∃ k super, ptr t super ∧ make_from k super t = ok (c, t')) as Hgo.
  { intros k p Hp%bool_decide_eq_true Hm. exists k, (Some p). split; [by apply ptr_singleton|done]. }
  destruct Hc; try (by eapply Hgo; [|exact Hmk]); try (by do 2 eexists; split; [|exact Hmk]).
  - unfold goc_schema_int_range in Hmk. case_match; [done|]. by eapply Hgo; [|exact Hmk].
  - unfold goc_schema_real_range in Hmk. case_match; [done|]. by eapply Hgo; [|exact Hmk].
  - unfold goc_schema_real_multiple in Hmk. case_match; [done|]. by eapply Hgo; [|exact Hmk].
  - unfold goc_schema_str_len in Hmk. case_match; [done|]. by eapply Hgo; [|exact Hmk].
  - unfold goc_schema_str_pattern in Hmk. case_match; [|done]. by eapply Hgo; [|exact Hmk].
  - unfold goc_schema_str_format in Hmk. repeat case_match; try done; by eapply Hgo; [|exact Hmk].
  - unfold goc_schema_arr_len in Hmk. case_match; [done|]. by eapply Hgo; [|exact Hmk].
  - unfold goc_schema_dict in Hmk. apply prog_bind_inv in Hmk as (pp & t1 & Hpp & Hmk).
    assert (t1 = t) as -> by (destruct (match pattern_props opts with None => _ | _ => _ end); try done; by injection Hpp as <- <-).
    by eapply Hgo; [|exact Hmk].
  - destruct super as [p|]; [by do 2 eexists; split; [|exact Hmk]|]. by eapply Hgo; [|exact Hmk].
Qed.

Lemma ok_named nm c t r t' : types_ok t → goc_schema_named nm c t = ok (r, t') → types_ok t'.
Proof.
  intros [] Hn. destruct c as [c|]; [|by injection Hn as <- <-]. unfold goc_schema_named in Hn.
  destruct (schemas t !! c) as [s|] eqn:Hs; [|done]. case_bool_decide as Hfree; [done|]. case_bool_decide as Hno; [done|].
  injection Hn as <- <-. assert (schema_registry t !! nm = None) as Hnm by (by apply eq_None_not_Some).
  assert (∀ x y, parent_of (alter (set_name nm) c (schemas t)) x y ↔ parent_of (schemas t) x y) as Hpar by (intros; by apply parent_of_alter).
  constructor; simpl.
  - intros q Hq. apply eq_None_not_Some. rewrite alter_is_Some. apply eq_None_not_Some. auto.
  - intros x y Hxy%Hpar%ok_closed0. by rewrite alter_is_Some.
  - intros x Hx. apply (ok_acyclic0 x). revert Hx. apply (tc_congruence id). intros a b. apply Hpar.
  - intros q x. rewrite Hpar. apply ok_children0.
  - done.
  - intros n x. destruct (decide (x = c)) as [->|Hx].
    + rewrite lookup_alter_eq, Hs. simpl. destruct (decide (n = nm)) as [->|Hne]; [rewrite lookup_insert_eq; naive_solver|].
      rewrite lookup_insert_ne by done. rewrite ok_names0, Hs. split; [|naive_solver].
      intros (s' & [= <-] & Hname). by destruct Hno.
    + rewrite lookup_alter_ne by done. destruct (decide (n = nm)) as [->|Hne]; [|by rewrite lookup_insert_ne].
      rewrite lookup_insert_eq, <- ok_names0. rewrite Hnm. naive_solver.
  - intros q k r Hq. destruct (ok_tower0 q k r Hq) as (s' & Hs' & ?).
    destruct (decide (q = c)) as [->|Hne]; [|rewrite lookup_alter_ne by done; eauto].
    rewrite lookup_alter_eq, Hs'. simpl. eauto.
Qed.

Lemma ok_ref_set ref schema t t' : types_ok t → goc_schema_ref_set ref schema t = ok (tt, t') → types_ok t'.
Proof.
  intros Ht. unfold goc_schema_ref_set. destruct ref as [c|]; [|by intros [= <-]].
  destruct (schemas t !! c) as [s|] eqn:Hs; [|done]. destruct (kind s) eqn:Hk; try done. destruct target; intros [= <-]; [done|].
  apply ok_upd; [done|done|]. intros s' Hs'. assert (s' = s) as -> by congruence. right. eauto.
Qed.

(** The state-changing calls.  A schema may be put under any that is not below it. *)
Inductive schema_step (t : types) : types → Prop :=
| step_make mk c t' : constructor t mk → mk t = ok (c, t') → schema_step t t'
| step_derive c p t' : is_Some (schemas t !! p) → ¬ rtc (parent_of (schemas t)) p c →
    goc_schema_derive (Some c) (Some p) t = ok (tt, t') → schema_step t t'
| step_named nm c r t' : goc_schema_named nm c t = ok (r, t') → schema_step t t'
| step_method c m fn t' : goc_schema_method_set c m fn t = ok (tt, t') → schema_step t t'
| step_meta c m r t' : goc_schema_with_meta c m t = ok (r, t') → schema_step t t'
| step_ref_set ref schema t' : goc_schema_ref_set ref schema t = ok (tt, t') → schema_step t t'.

Lemma ok_step t t' : types_ok t → schema_step t t' → types_ok t'.
Proof.
  intros Ht Hs. destruct Hs as [mk c t' Hc Hmk|c p t' Hp Hn Hd|nm c r t' Hn|c m fn t' Hm|c m r t' Hm|ref schema t' Hr].
  - destruct (constructor_make t mk c t' Ht Hc Hmk) as (k & super & Hsup & Hm). by eapply ok_make_from.
  - by eapply ok_derive.
  - by eapply ok_named.
  - unfold goc_schema_method_set in Hm. destruct c as [c|]; [|by injection Hm as <-]. destruct (schemas t !! c); [|done].
    injection Hm as <-. apply ok_upd; [done|done|by left].
  - unfold goc_schema_with_meta in Hm. destruct c as [c|]; [|by injection Hm as <- <-]. destruct (schemas t !! c); [|done].
    injection Hm as <- <-. apply ok_upd; [done|done|by left].
  - by eapply ok_ref_set.
Qed.

(** ** After initialisation *)

Lemma rank_acyclic (st : store) (rank : positive → nat) :
  (∀ c p, parent_of st c p → (rank p < rank c)%nat) → acyclic st.
Proof.
  intros Hr c Hc. assert (∀ a b, tc (parent_of st) a b → (rank b < rank a)%nat) as Htc.
  { induction 1 as [a b Hab|a b d Hab _ IH]; [auto|]. apply Hr in Hab. lia. }
  specialize (Htc c c Hc). lia.
Qed.

(** The depth of the singletons. *)
Definition depth (p : positive) : nat :=
  match p with 11 => 0%nat | 1 | 7 | 10 | 12 | 13 => 1%nat | 3 | 4 | 9 => 2%nat | 5 | 6 | 8 => 3%nat | _ => 4%nat end%positive.

Definition init_parents : list (positive * positive) :=
  [(1, 11); (2, 6); (3, 7); (4, 7); (5, 3); (6, 4); (7, 11); (8, 9); (9, 7); (10, 11); (12, 11); (13, 11)]%positive.

Definition init_list : list (positive * goc_schema) := Eval vm_compute in map_to_list (schemas (@init_types R X)).
Lemma init_list_eq : map_to_list (schemas (@init_types R X)) = init_list.
Proof. by vm_compute. Qed.

Lemma init_all (P : positive → goc_schema → Prop) : Forall (λ x, P x.1 x.2) init_list → ∀ c s, schemas init_types !! c = Some s → P c s.
Proof.
  intros Hall c s Hs%elem_of_map_to_list. rewrite init_list_eq in Hs. rewrite Forall_forall in Hall. by apply (Hall (c, s)).
Qed.
Ltac init_cases := unfold init_list; repeat (apply Forall_cons; split; [cbn [fst snd parent name]|]); [..|apply Forall_nil; done].

Lemma init_parent_of c p : parent_of (schemas (R := R) (X := X) init_types) c p ↔ (c, p) ∈ init_parents.
Proof.
  rewrite parent_of_alt. split.
  - intros Hc. destruct (schemas init_types !! c) as [s|] eqn:Hs; [|done]. simpl in Hc. revert c s Hs Hc.
    apply (init_all (λ c s, parent s = Some p → (c, p) ∈ init_parents)). init_cases; try done; intros [= <-]; by apply (bool_decide_unpack _).
  - intros Hin. unfold init_parents in Hin. each_edge Hin; by vm_compute.
Qed.

Lemma hier_all (hier : gmap positive (list positive)) (P : positive → positive → Prop) :
  Forall (λ x, Forall (P x.1) x.2) (map_to_list hier) → ∀ p c, c ∈ default [] (hier !! p) → P p c.
Proof.
  intros Hall p c Hc. destruct (hier !! p) as [l|] eqn:Hl; [|by apply elem_of_nil in Hc].
  apply elem_of_map_to_list in Hl. rewrite Forall_forall in Hall. specialize (Hall _ Hl). rewrite Forall_forall in Hall. by apply Hall.
Qed.
Lemma hier_nodup (hier : gmap positive (list positive)) :
  Forall (λ x, NoDup x.2) (map_to_list hier) → ∀ p, NoDup (default [] (hier !! p)).
Proof.
  intros Hall p. destruct (hier !! p) as [l|] eqn:Hl; [|constructor].
  apply elem_of_map_to_list in Hl. rewrite Forall_forall in Hall. apply (Hall _ Hl).
Qed.
Lemma registry_all (reg : gmap string positive) (st : store) :
  Forall (λ x, (st !! x.2 ≫= name) = Some x.1) (map_to_list reg) → ∀ n c, reg !! n = Some c → ∃ s, st !! c = Some s ∧ name s = Some n.
Proof.
  intros Hall n c Hnc%elem_of_map_to_list. rewrite Forall_forall in Hall. specialize (Hall _ Hnc). simpl in Hall.
  destruct (st !! c); [eauto|done].
Qed.

Lemma types_init_ok : types_ok (init_types (R := R) (X := X)).
Proof.
  constructor.
  - intros p Hp. apply eq_None_not_Some. intros [s Hs]. revert p s Hs Hp.
    apply (init_all (λ p _, (fresh (R := R) (X := X) init_types <= p)%positive → False)). init_cases; by vm_compute.
  - intros c p Hcp%init_parent_of. unfold init_parents in Hcp; each_edge Hcp; vm_compute; by eexists.
  - apply (rank_acyclic _ depth). intros c p Hcp%init_parent_of. unfold init_parents in Hcp; each_edge Hcp; simpl; lia.
  - intros p c. rewrite init_parent_of. split.
    + revert p c. apply (hier_all _ (λ p c, (c, p) ∈ init_parents)). apply (bool_decide_unpack _). by vm_compute.
    + intros Hcp. unfold init_parents in Hcp; each_edge Hcp; by apply (bool_decide_unpack _); vm_compute.
  - apply hier_nodup. apply (bool_decide_unpack _). by vm_compute.
  - intros n c. split.
    + revert n c. apply registry_all. apply (bool_decide_unpack _). by vm_compute.
    + intros (s & Hs & Hn). revert c s Hs Hn.
      apply (init_all (λ c s, name s = Some n → schema_registry (@init_types R X) !! n = Some c)). init_cases; intros [= <-]; by vm_compute.
  - intros p k q Hin. unfold tower in Hin; each_edge Hin; eexists; split_and!; by vm_compute.
Qed.

Lemma types_reachable_ok t : rtc schema_step init_types t → types_ok t.
Proof.
  intros Ht. assert (∀ t0, types_ok t0 → rtc schema_step t0 t → types_ok t) as Hgo; [|by apply (Hgo init_types); [apply types_init_ok|]].
  intros t0 Hok Hrun. induction Hrun as [|t1 t2 t3 Hstep _ IH]; [done|]. apply IH; [done|by eapply ok_step].
Qed.

(** ** The tower of numbers *)

(** The base schemas that accept a tag. *)
Definition tag_above (ty : goc_boxed_type) : list positive :=
  match ty with
  | T_UNKNOWN => []
  | T_BOOL => [s_schema_bool; s_schema_ubyte; s_schema_uint; s_schema_number]
  | T_INT => [s_schema_int; s_schema_number]
  | T_UINT => [s_schema_uint; s_schema_number]
  | T_BYTE => [s_schema_byte; s_schema_int; s_schema_number]
  | T_UBYTE => [s_schema_ubyte; s_schema_uint; s_schema_number]
  | T_REAL => [s_schema_real; s_schema_complex; s_schema_number]
  | T_COMPLEX => [s_schema_complex; s_schema_number]
  end.

Lemma tower_edge t p k q : types_ok t → (p, k, Some q) ∈ tower → parent_of (schemas t) p q.
Proof. intros Ht (s & Hs & _ & Hq)%(ok_tower t Ht). exists s. split; [done|]. by apply Hq. Qed.

(** Nothing of the tower is above its top. *)
Lemma tower_top t p k q : types_ok t → (p, k, q) ∈ tower → p ≠ s_schema_any → ¬ rtc (parent_of (schemas t)) s_schema_any p.
Proof.
  intros Ht Hin Hne Hr. apply rtc_tc in Hr as [?|Hr]; [congruence|]. apply (ok_acyclic t Ht p).
  eapply tc_rtc_l; [|done]. pose proof (tower_edge t) as Hedge.
  assert (∀ p k q, (p, k, Some q) ∈ tower → parent_of (schemas t) p q) as He by (intros; by eapply Hedge). clear -He Hin.
  assert (∀ p k q, (p, k, Some q) ∈ tower → rtc (parent_of (schemas t)) q s_schema_any → rtc (parent_of (schemas t)) p s_schema_any) as Hup.
  { intros. eapply rtc_l; [by eapply He|done]. }
  assert (rtc (parent_of (schemas t)) s_schema_number s_schema_any) as Hnum by (eapply Hup; [|apply rtc_refl]; (unfold tower; in_list)).
  assert (rtc (parent_of (schemas t)) s_schema_uint s_schema_any) as Huint by (eapply Hup; [|exact Hnum]; (unfold tower; in_list)).
  assert (rtc (parent_of (schemas t)) s_schema_int s_schema_any) as Hint by (eapply Hup; [|exact Hnum]; (unfold tower; in_list)).
  assert (rtc (parent_of (schemas t)) s_schema_complex s_schema_any) as Hcplx by (eapply Hup; [|exact Hnum]; (unfold tower; in_list)).
  assert (rtc (parent_of (schemas t)) s_schema_ubyte s_schema_any) as Hub by (eapply Hup; [|exact Huint]; (unfold tower; in_list)).
  unfold tower in Hin; each_edge Hin; first [done|apply rtc_refl|eapply Hup; [|exact Hub]; (unfold tower; in_list)|eapply Hup; [|exact Hint]; (unfold tower; in_list)|
    eapply Hup; [|exact Hcplx]; (unfold tower; in_list)|eapply Hup; [|apply rtc_refl]; (unfold tower; in_list)].
Qed.

Lemma tower_spec t ty ts p k q :
  types_ok t → goc_schema_for_tag ty = Some ts → (p, k, q) ∈ tower → p ≠ s_schema_any →
  rtc (parent_of (schemas t)) ts p ↔ p ∈ tag_above ty.
Proof.
  intros Ht Hts Hin Hne. pose proof (tower_top t p k q Ht Hin Hne) as Htop.
  assert (∀ c k q, (c, k, Some q) ∈ tower → (rtc (parent_of (schemas t)) c p ↔ p = c ∨ rtc (parent_of (schemas t)) q p)) as Hstep.
  { intros c k' q' He. apply (tower_edge t) in He; [|done]. split.
    - intros [->|(y & Hy & Hr)]%rtc_inv; [by left|right]. by rewrite (parent_of_fun _ _ _ _ He Hy).
    - intros [->|Hr]; [apply rtc_refl|by eapply rtc_l]. }
  assert (rtc (parent_of (schemas t)) s_schema_number p ↔ p = s_schema_number) as Hnum.
  { rewrite (Hstep s_schema_number SCHEMA_NUMBER s_schema_any) by (unfold tower; in_list). naive_solver. }
  assert (rtc (parent_of (schemas t)) s_schema_uint p ↔ p = s_schema_uint ∨ p = s_schema_number) as Huint.
  { rewrite (Hstep s_schema_uint SCHEMA_UINT s_schema_number) by (unfold tower; in_list). naive_solver. }
  assert (rtc (parent_of (schemas t)) s_schema_int p ↔ p = s_schema_int ∨ p = s_schema_number) as Hint.
  { rewrite (Hstep s_schema_int SCHEMA_INT s_schema_number) by (unfold tower; in_list). naive_solver. }
  assert (rtc (parent_of (schemas t)) s_schema_complex p ↔ p = s_schema_complex ∨ p = s_schema_number) as Hcplx.
  { rewrite (Hstep s_schema_complex SCHEMA_COMPLEX s_schema_number) by (unfold tower; in_list). naive_solver. }
  assert (rtc (parent_of (schemas t)) s_schema_ubyte p ↔ p = s_schema_ubyte ∨ p = s_schema_uint ∨ p = s_schema_number) as Hub.
  { rewrite (Hstep s_schema_ubyte SCHEMA_UBYTE s_schema_uint) by (unfold tower; in_list). naive_solver. }
  destruct ty; [discriminate Hts|injection Hts as <-..]; unfold tag_above; rewrite !elem_of_cons, elem_of_nil.
  - rewrite (Hstep s_schema_bool SCHEMA_BOOL s_schema_ubyte) by (unfold tower; in_list). naive_solver.
  - naive_solver.
  - naive_solver.
  - rewrite (Hstep s_schema_byte SCHEMA_BYTE s_schema_int) by (unfold tower; in_list). naive_solver.
  - naive_solver.
  - rewrite (Hstep s_schema_real SCHEMA_REAL s_schema_complex) by (unfold tower; in_list). naive_solver.
  - naive_solver.
Qed.

(** C6: the hierarchy.  However the program has made, derived and named schemas (putting none
    below itself), [goc_schema_is_a] returns whether the one is reached from the other by
    parents, [goc_schema_ancestors] returns exactly the schemas above, and
    [goc_schema_descendants] exactly those below, each without repetition; all three
    terminate. *)
Theorem hierarchy_queries t c :
  rtc schema_step init_types t → is_Some (schemas t !! c) →
  (∀ p, ∃ b, goc_schema_is_a (schemas t) (Some c) (Some p) = ok b ∧ (b = true ↔ rtc (parent_of (schemas t)) c p)) ∧
  (∃ l, goc_schema_collect_ancestors (schemas t) (Some c) = ok l ∧ NoDup l ∧ ∀ a, a ∈ l ↔ tc (parent_of (schemas t)) c a) ∧
  (∃ l, goc_schema_collect_descendants t (Some c) = ok l ∧ NoDup l ∧ ∀ d, d ∈ l ↔ d ≠ c ∧ rtc (parent_of (schemas t)) d c).
Proof.
  intros []%types_reachable_ok Hc. split_and!.
  - intros p. by apply is_a_spec.
  - by apply ancestors_spec.
  - by apply descendants_spec.
Qed.

(** Methods are inherited.  A lookup returns the method of the nearest schema on the way
    up that has one, so a schema overrides its ancestors, and null when none has it. *)
Theorem method_dispatch t c m :
  rtc schema_step init_types t → is_Some (schemas t !! c) →
  ∃ r, goc_schema_method_get (schemas t) (Some c) m = ok r ∧
    match r with
    | Some fn => ∃ a s, rtc (parent_of (schemas t)) c a ∧ schemas t !! a = Some s ∧ methods s !! m = Some fn ∧ fn ≠ 0 ∧
        ∀ b s', rtc (parent_of (schemas t)) c b → tc (parent_of (schemas t)) b a → schemas t !! b = Some s' → default 0 (methods s' !! m) = 0
    | None => ∀ a s, rtc (parent_of (schemas t)) c a → schemas t !! a = Some s → default 0 (methods s !! m) = 0
    end.
Proof. intros []%types_reachable_ok Hc. by apply method_spec. Qed.

(** Names.  In every reachable state a name leads to the schema that bears it and to no
    other; registering succeeds exactly for a free name on a schema without one, makes the
    lookup return that schema, and changes no other lookup; otherwise it aborts. *)
Theorem registry_names t c s nm :
  rtc schema_step init_types t → schemas t !! c = Some s →
  (∀ n x, goc_schema_lookup t n = Some x ↔ goc_schema_name (schemas t) (Some x) = ok (Some n)) ∧
  (if decide (goc_schema_lookup t nm = None ∧ name s = None) then
     ∃ t', goc_schema_named nm (Some c) t = ok (Some c, t') ∧ goc_schema_lookup t' nm = Some c ∧
       goc_schema_name (schemas t') (Some c) = ok (Some nm) ∧ ∀ n, n ≠ nm → goc_schema_lookup t' n = goc_schema_lookup t n
   else ∃ msg, goc_schema_named nm (Some c) t = abort msg).
Proof.
  intros []%types_reachable_ok Hs. split.
  - intros n x. unfold goc_schema_lookup, goc_schema_name, get_schema. rewrite ok_names0.
    destruct (schemas t !! x) as [sx|]; simpl; [|naive_solver]. split; [intros (s' & [= <-] & ->); done|intros [= ?]; eauto].
  - unfold goc_schema_named, goc_schema_lookup. rewrite Hs. destruct (decide _) as [[Hl Hn]|Hno].
    + rewrite Hl, Hn. rewrite !bool_decide_eq_false_2 by (by intros [? ?]). eexists. split; [done|]. simpl.
      rewrite lookup_insert_eq. unfold goc_schema_name, get_schema. simpl. rewrite lookup_alter_eq, Hs. simpl. split_and!; [done|done|].
      intros n Hne. by rewrite lookup_insert_ne.
    + case_bool_decide as Hreg; [eauto|]. case_bool_decide as Hname; [eauto|]. destruct Hno. split; by apply eq_None_not_Some.
Qed.

(** Deriving in a circle.  Nothing stops a program from deriving a schema that has no
    parent from one of its own descendants (or from itself).  From then on
    [goc_schema_is_a] and [goc_schema_ancestors] on that schema never return. *)
Theorem derive_cycle_hangs t t' c p q :
  rtc (parent_of (schemas t)) p c → ¬ rtc (parent_of (schemas t)) p q →
  goc_schema_derive (Some c) (Some p) t = ok (tt, t') →
  goc_schema_is_a (schemas t') (Some c) (Some q) = hang ∧ goc_schema_collect_ancestors (schemas t') (Some c) = hang.
Proof.
  intros Hpc Hpq. unfold goc_schema_derive. destruct (schemas t !! c) as [s|] eqn:Hs; [|done].
  case_bool_decide as Hn; [|done]. intros [= <-]. simpl. set (st' := alter (set_parent p) c (schemas t)).
  assert (st' !! c = Some (set_parent p s)) as Hc by (unfold st'; by rewrite lookup_alter_eq, Hs).
  assert (∀ x, rtc (parent_of (schemas t)) p x → ∃ sx x', st' !! x = Some sx ∧ parent sx = Some x' ∧ rtc (parent_of (schemas t)) p x') as Hnext.
  { intros x Hpx. destruct (decide (x = c)) as [->|Hxc]; [exists (set_parent p s), p; split_and!; [done|done|apply rtc_refl]|].
    assert (rtc (parent_of (schemas t)) x c) as Hxc'.
    { clear -Hpc Hpx Hs Hn. induction Hpx as [|x y z Hxy Hyz IH]; [done|].
      apply rtc_inv in Hpc as [->|(y' & Hy' & Hyc)]; [destruct Hxy as (s' & ? & ?); congruence|].
      apply IH. by rewrite (parent_of_fun _ _ _ _ Hxy Hy'). }
    apply rtc_inv in Hxc' as [?|(x' & (sx & Hsx & Hx') & _)]; [done|]. exists sx, x'. unfold st'. rewrite lookup_alter_ne by done.
    split_and!; [done|done|]. eapply rtc_r; [done|]. by exists sx. }
  assert (∀ n x, rtc (parent_of (schemas t)) p x → up_loop n st' (Some x) q = hang ∧ ancestors_loop n st' (Some x) = hang) as Hgo.
  { induction n as [|n IH]; intros x Hx; simpl; [done|]. rewrite bool_decide_eq_false_2 by (by intros ->).
    destruct (Hnext x Hx) as (sx & x' & Hsx & Hpar & Hpx'). unfold get_schema. rewrite Hsx. simpl. rewrite Hpar.
    destruct (IH x' Hpx') as [-> ->]. done. }
  unfold goc_schema_is_a, goc_schema_collect_ancestors, get_schema. rewrite bool_decide_eq_false_2 by (intros ->; done).
  rewrite Hc. destruct (Hgo (S (size st')) p (rtc_refl _ p)) as [Hu Hanc]. by split.
Qed.

End Props.

(** ** A concrete instance for the witnesses: integers for long doubles, literals for
    regular expressions. *)

Definition z_reals : LongDouble Z := {|
  ld_le := Z.leb; ld_lt := Z.ltb; d_eq := Z.eqb; ld_add := Z.add; ld_sub := Z.sub; ld_mul := Z.mul;
  fmodl := Z.rem; fabsl := Z.abs; isnan := λ _, false; ld_0 := 0; ld_1e_9 := 0;
  ld_decode := λ _ b, b; ld_show := λ _, "?"; cplx_same := λ a b, bool_decide (a = b)
|}.
Definition literals : Regex string := {| regcomp := Some; regexec := String.eqb; regex_raw := id |}.

(** The state after a call that returns. *)
Definition after {R X A} (m : prog (types (R := R) (X := X)) A) (t : types) : types := match m t with ok (_, t') => t' | _ => t end.

(** A schema for integers from 5 on, under the name "five", and a method of all numbers. *)
Definition demo1 : types (R := Z) (X := string) := after (goc_schema_int_min 5) init_types.
Definition demo2 : types := after (goc_schema_named "five" (Some 14%positive)) demo1.
Definition demo_types : types := after (goc_schema_method_set (Some s_schema_number) "show" 7) demo2.

Lemma demo_reachable : rtc (schema_step (R := Z) (X := string) (H := z_reals) (H0 := literals)) init_types demo_types.
Proof.
  apply (rtc_l _ _ demo1); [eapply (step_make _ (goc_schema_int_min 5) 14%positive); [apply con_int_min|by vm_compute]|].
  apply (rtc_l _ _ demo2); [apply (step_named _ "five" (Some 14%positive) (Some 14%positive)); by vm_compute|].
  apply rtc_once. apply (step_method _ (Some s_schema_number) "show" 7). by vm_compute.
Defined.

Lemma hierarchy_queries_witness :
  (∃ b, goc_schema_is_a (schemas demo_types) (Some 14%positive) (Some s_schema_number) = ok b ∧
    (b = true ↔ rtc (parent_of (schemas demo_types)) 14%positive s_schema_number)) ∧
  goc_schema_is_a (schemas demo_types) (Some 14%positive) (Some s_schema_number) = ok true.
Proof. split; [apply (hierarchy_queries demo_types 14%positive demo_reachable); vm_compute; by eexists|by vm_compute]. Defined.

Lemma method_dispatch_witness :
  (∃ r, goc_schema_method_get (schemas demo_types) (Some 14%positive) "show" = ok r) ∧
  goc_schema_method_get (schemas demo_types) (Some 14%positive) "show" = ok (Some 7).
Proof.
  split; [|by vm_compute]. destruct (method_dispatch demo_types 14%positive "show" demo_reachable) as (r & Hr & _); [vm_compute; by eexists|].
  by exists r.
Defined.

Lemma registry_names_witness :
  (∀ n x, goc_schema_lookup demo_types n = Some x ↔ goc_schema_name (schemas demo_types) (Some x) = ok (Some n)) ∧
  goc_schema_lookup demo_types "five" = Some 14%positive.
Proof.
  split; [|by vm_compute]. destruct (schemas demo_types !! 14%positive) as [s|] eqn:Hs; [|by vm_compute in Hs].
  exact (proj1 (registry_names demo_types 14%positive s "six" demo_reachable Hs)).
Defined.

(** Two predicates without a super-schema, derived from each other. *)
Definition loose_types : types (R := Z) (X := string) :=
  after (goc_schema_derive (Some 14%positive) (Some 15%positive))
    (after (goc_schema_predicate None (λ _, true) None) (after (goc_schema_predicate None (λ _, true) None) init_types)).

Lemma derive_cycle_hangs_witness :
  ∃ t', goc_schema_derive (Some 15%positive) (Some 14%positive) loose_types = ok (tt, t') ∧
    goc_schema_is_a (schemas t') (Some 15%positive) (Some s_schema_any) = hang ∧
    goc_schema_collect_ancestors (schemas t') (Some 15%positive) = hang.
Proof.
  exists (after (goc_schema_derive (Some 15%positive) (Some 14%positive)) loose_types). split; [by vm_compute|].
  apply (derive_cycle_hangs loose_types _ 15%positive 14%positive s_schema_any); [| |by vm_compute].
  - apply rtc_once, parent_of_alt. by vm_compute.
  - assert (∀ y, parent_of (schemas loose_types) 14%positive y → y = 15%positive) as Hp14.
    { intros y Hy%parent_of_alt. vm_compute in Hy. injection Hy as <-. reflexivity. }
    assert (∀ y, ¬ parent_of (schemas loose_types) 15%positive y) as Hp15.
    { intros y Hy%parent_of_alt. vm_compute in Hy. discriminate Hy. }
    intros [E|(y & Hy & Hr)]%rtc_inv; [discriminate E|]. apply Hp14 in Hy as ->.
    apply rtc_inv in Hr as [E|(z & Hz & _)]; [discriminate E|exact (Hp15 z Hz)].
Defined.

End SchemaProps.
