(* ===== verification/SchemaVal.v ===== *)
(** Validation of values against schemas (goc_schema.c): [goc_schema_validate_impl] with one
    definition per group of schema kinds, and the functions built on it.

    An error has the path and the message the C code prints.  While it probes, the code
    allocates no errors: every failure is the pointer 1, here [ProbeError]. *)

From stdpp Require Import pretty.
From S2P Require Import Prelude Schema.

Module SchemaVal.
Import Schema.

Inductive goc_schema_error := ProbeError | Error (path message : string).

Definition goc_schema_error_new (path message : string) (probe : bool) : goc_schema_error :=
  if probe then ProbeError else Error path message.
Definition goc_schema_error_path (e : option goc_schema_error) : string :=
  match e with Some (Error path _) => path | _ => "" end.
Definition goc_schema_error_message (e : option goc_schema_error) : string :=
  match e with Some (Error _ message) => message | _ => "" end.

(** A validation returns null or an error. *)
Definition verdict : Type := res (option goc_schema_error).
Definition fail (path message : string) (probe : bool) : verdict := ok (Some (goc_schema_error_new path message probe)).

(** A check of a single value returns the message of its error. *)
Definition report (path : string) (probe : bool) (c : res (option string)) : verdict :=
  m ← c; match m with None => ok None | Some message => fail path message probe end.

Definition expected (what : string) (o : option obj) : string := "expected " +:+ what +:+ ", got " +:+ goc_schema_type_name o.

(** A loop that returns the first error; the index of an element comes with it. *)
Fixpoint each {A} (f : Z → A → verdict) (i : Z) (l : list A) : verdict :=
  match l with
  | [] => ok None
  | a :: l => e ← f i a; match e with Some _ => ok e | None => each f (i + 1) l end
  end.

(** A loop that looks for the first hit. *)
Fixpoint find_hit {A} (f : A → res bool) (l : list A) : res bool :=
  match l with [] => ok false | a :: l => b ← f a; if b : bool then ok true else find_hit f l end.

(** A loop that counts the hits. *)
Fixpoint count_hits {A} (f : A → res bool) (l : list A) : res Z :=
  match l with [] => ok 0 | a :: l => b ← f a; n ← count_hits f l; ok (if b : bool then n + 1 else n) end.

Definition idx_path (path : string) (i : Z) : string := path +:+ ".[" +:+ pretty i +:+ "]".
Definition key_path (path key : string) : string := path +:+ "." +:+ key.

Section Validate.
Context {R X : Type} `{LongDouble R} `{Regex X}.
Notation schema_kind := (@schema_kind R X).
Notation goc_schema := (@goc_schema R X).
Notation store := (gmap positive (@Schema.goc_schema R X)).
Notation goc_schema_dict_opts := (@goc_schema_dict_opts X).

(** ** Base types *)

Definition goc_schema_value_satisfies_base (st : store) (schema : positive) (k : schema_kind) (val : vref) (o : option obj) : res bool :=
  match k with
  | SCHEMA_NULL => ok (bool_decide (val = VNull))
  | SCHEMA_STR => ok (goc_schema_is_string o)
  | SCHEMA_ARR _ => ok (goc_schema_is_goc_array o)
  | SCHEMA_OBJ _ _ => ok (goc_schema_is_goc_dict o)
  | SCHEMA_BOOL => ok (goc_schema_is_boxed_bool o)
  | _ =>
      match goc_schema_for_tag (goc_schema_boxed_type o) with
      | None => ok false
      | Some val_schema => goc_schema_is_a st (Some val_schema) (Some schema)
      end
  end.

Definition base_name (k : schema_kind) : string :=
  match k with
  | SCHEMA_NULL => "null" | SCHEMA_BOOL => "bool" | SCHEMA_INT => "int" | SCHEMA_REAL => "real" | SCHEMA_COMPLEX => "complex"
  | SCHEMA_UINT => "uint" | SCHEMA_NUMBER => "number" | SCHEMA_BYTE => "byte" | SCHEMA_UBYTE => "ubyte" | SCHEMA_STR => "str"
  | _ => "schema"
  end.

Definition validate_base (st : store) (h : heap) (schema : positive) (k : schema_kind) (val : vref) : res (option string) :=
  o ← view h val;
  good ← goc_schema_value_satisfies_base st schema k val o;
  ok (if good : bool then None else Some (expected (base_name k) o)).

(** ** Constants *)

Definition show_bool (b : bool) : string := if b then "true" else "false".

Definition validate_const (h : heap) (k : schema_kind) (val : vref) : res (option string) :=
  o ← view h val;
  match k with
  | SCHEMA_BOOL_CONST c =>
      ok (if negb (goc_schema_is_boxed_bool o) then Some (expected "bool" o)
          else if Bool.eqb (unbox_bool o) c then None
          else Some ("expected const value " +:+ show_bool c +:+ ", got " +:+ show_bool (unbox_bool o)))
  | SCHEMA_INT_CONST c =>
      ok (if negb (goc_schema_is_boxed_int o) then Some (expected "int" o)
          else let got := goc_schema_boxed_signed_value o in
          if got =? c then None else Some ("expected const value " +:+ pretty c +:+ ", got " +:+ pretty got))
  | SCHEMA_REAL_CONST c =>
      if negb (goc_schema_is_boxed_real o) then ok (Some (expected "real" o))
      else
        got ← unbox_double o;
        ok (if d_eq got c then None else Some ("expected const value " +:+ ld_show c +:+ ", got " +:+ ld_show got))
  | SCHEMA_STR_CONST c =>
      if negb (goc_schema_is_string o) then ok (Some (expected "str" o))
      else
        s ← str_of o;
        ok (if bool_decide (s = c) then None else Some ("expected const value " +:+ c +:+ ", got " +:+ s))
  | _ => ub
  end.

(** ** Integers *)

Definition min_msg (min got : string) : string := "expected minimum " +:+ min +:+ ", got " +:+ got.
Definition max_msg (max got : string) : string := "expected maximum " +:+ max +:+ ", got " +:+ got.
Definition array_get {A} (l : list A) (i : nat) : res A :=
  match l !! i with Some a => ok a | None => abort "goc_array_get: index out of bounds" end.

Definition validate_int (h : heap) (k : schema_kind) (val : vref) : res (option string) :=
  o ← view h val;
  if negb (goc_schema_is_boxed_int o) then ok (Some (expected "int" o))
  else
    let got := goc_schema_boxed_signed_value o in
    match k with
    | SCHEMA_INT_MIN min => ok (if min <=? got then None else Some (min_msg (pretty min) (pretty got)))
    | SCHEMA_INT_MAX max => ok (if got <=? max then None else Some (max_msg (pretty max) (pretty got)))
    | SCHEMA_INT_RANGE min max =>
        ok (if (min <=? got) && (got <=? max) then None
            else if got <? min then Some (min_msg (pretty min) (pretty got)) else Some (max_msg (pretty max) (pretty got)))
    | SCHEMA_INT_ENUM vals =>
        hit ← find_hit (λ c, oc ← view h c; ok (goc_schema_boxed_signed_value oc =? got)) vals;
        if hit : bool then ok None
        else
          c ← array_get vals 0; oc ← view h c;
          ok (Some ("expected const value " +:+ pretty (goc_schema_boxed_signed_value oc) +:+ ", got " +:+ pretty got))
    | _ => ub
    end.

(** ** Reals *)

Definition is_multiple (got factor : R) : bool :=
  let remainder := fmodl got factor in
  let remainder := if ld_lt remainder ld_0 then ld_add remainder factor else remainder in
  let eps := ld_mul ld_1e_9 (fabsl factor) in
  ld_le remainder eps || ld_le (fabsl (ld_sub remainder factor)) eps.

Definition validate_real (h : heap) (k : schema_kind) (val : vref) : res (option string) :=
  o ← view h val;
  if negb (goc_schema_is_boxed_real o) then ok (Some (expected "real" o))
  else
    let got := goc_schema_boxed_real_value o in
    match k with
    | SCHEMA_REAL_MIN min => ok (if ld_le min got then None else Some (min_msg (ld_show min) (ld_show got)))
    | SCHEMA_REAL_MAX max => ok (if ld_le got max then None else Some (max_msg (ld_show max) (ld_show got)))
    | SCHEMA_REAL_RANGE min max =>
        ok (if ld_le min got && ld_le got max then None
            else if ld_lt got min then Some (min_msg (ld_show min) (ld_show got)) else Some (max_msg (ld_show max) (ld_show got)))
    | SCHEMA_REAL_EX_MIN min => ok (if ld_lt min got then None else Some (min_msg (ld_show min) (ld_show got)))
    | SCHEMA_REAL_EX_MAX max => ok (if ld_lt got max then None else Some (max_msg (ld_show max) (ld_show got)))
    | SCHEMA_REAL_MULTIPLE factor =>
        ok (if is_multiple got factor then None
            else Some ("expected multiple of " +:+ ld_show factor +:+ ", got " +:+ ld_show got))
    | _ => ub
    end.

(** ** Strings *)

Definition strlen (s : string) : Z := Z.of_nat (String.length s).

(** The name of the pattern or format is printed from the member that now holds the
    compiled expression. *)
Definition validate_str (h : heap) (k : schema_kind) (val : vref) : res (option string) :=
  o ← view h val;
  if negb (goc_schema_is_string o) then ok (Some (expected "str" o))
  else
    s ← str_of o;
    let len := strlen s in
    match k with
    | SCHEMA_STR_MIN_LEN min => ok (if min <=? len then None else Some (min_msg (pretty min) (pretty len)))
    | SCHEMA_STR_MAX_LEN max => ok (if len <=? max then None else Some (max_msg (pretty max) (pretty len)))
    | SCHEMA_STR_LEN min max =>
        ok (if (min <=? len) && (len <=? max) then None else Some (min_msg (pretty min) (pretty len)))
    | SCHEMA_STR_PATTERN regex =>
        ok (if regexec regex s then None else Some ("expected pattern " +:+ regex_raw regex +:+ ", got " +:+ s))
    | SCHEMA_STR_ENUM vals =>
        hit ← find_hit (λ c, oc ← view h c; sc ← str_of oc; ok (bool_decide (sc = s))) vals;
        if hit : bool then ok None
        else
          c ← array_get vals 0; oc ← view h c; sc ← str_of oc;
          ok (Some ("expected const value " +:+ sc +:+ ", got " +:+ s))
    | SCHEMA_STR_FORMAT None => ok None
    | SCHEMA_STR_FORMAT (Some regex) =>
        ok (if regexec regex s then None else Some ("expected format " +:+ regex_raw regex +:+ ", got " +:+ s))
    | _ => ub
    end.

(** ** Kinds that hold other schemas

    [rec] validates a value against another schema: the recursive call. *)

Section Rec.
Variable rec : sref → vref → string → bool → verdict.

Definition goc_schema_probe (schema : sref) (val : vref) : res bool :=
  match schema with
  | None => ok false
  | Some _ => e ← rec schema val "" true; ok (match e with None => true | Some _ => false end)
  end.

Definition goc_schema_validate_array (h : heap) (val : vref) (path : string) (probe : bool) (k : list vref → verdict) : verdict :=
  o ← view h val;
  match o with
  | Some (OArr _ _ l) => if goc_schema_is_goc_array o then k l else fail path (expected "array" o) probe
  | _ => fail path (expected "array" o) probe
  end.

Definition each_elem (elem : sref) (path : string) (probe : bool) (l : list vref) : verdict :=
  each (λ i v, rec elem v (idx_path path i) probe) 0 l.

(** The first pair of equal elements. *)
Fixpoint equal_later (eq : vref → vref → res bool) (a : vref) (j : Z) (l : list vref) : res (option Z) :=
  match l with [] => ok None | b :: l => r ← eq a b; if r : bool then ok (Some j) else equal_later eq a (j + 1) l end.
Fixpoint duplicate (eq : vref → vref → res bool) (i : Z) (l : list vref) : res (option (Z * Z)) :=
  match l with
  | [] => ok None
  | a :: l => r ← equal_later eq a (i + 1) l; match r with Some j => ok (Some (i, j)) | None => duplicate eq (i + 1) l end
  end.

Definition validate_unique (eq : vref → vref → res bool) (elem : sref) (path : string) (probe : bool) (l : list vref) : verdict :=
  e ← each_elem elem path probe l;
  match e with
  | Some _ => ok e
  | None =>
      d ← duplicate eq 0 l;
      match d with
      | Some (i, j) => fail path ("duplicate elements at index " +:+ pretty i +:+ " and " +:+ pretty j) probe
      | None => ok None
      end
  end.

Definition validate_contains (elem contains : sref) (min_contains max_contains : Z) (path : string) (probe : bool) (l : list vref)
    : verdict :=
  e ← each_elem elem path probe l;
  match e with
  | Some _ => ok e
  | None =>
      match_count ← count_hits (goc_schema_probe contains) l;
      if match_count <? min_contains then
        fail path ("expected at least " +:+ pretty min_contains +:+ " elements matching contains schema") probe
      else if negb (max_contains =? 0) && (max_contains <? match_count) then
        fail path ("expected at most " +:+ pretty max_contains +:+ " elements matching contains schema") probe
      else ok None
  end.

Definition validate_tuple (items : list sref) (additional_items : sref) (path : string) (probe : bool) (l : list vref) : verdict :=
  e ← each (λ i item, v ← array_get l (Z.to_nat i); rec item v (idx_path path i) probe) 0 items;
  match e with
  | Some _ => ok e
  | None =>
      if (length items <? length l)%nat then
        match additional_items with
        | None => fail path ("unexpected element at index " +:+ pretty (Z.of_nat (length items))) probe
        | Some _ =>
            each (λ i v, rec additional_items v (idx_path path i) probe) (Z.of_nat (length items)) (drop (length items) l)
        end
      else ok None
  end.

(** ** Dictionaries *)

Definition dict_fits (opts : goc_schema_dict_opts) (count : Z) : bool :=
  negb (negb (min_properties opts =? 0) && (count <? min_properties opts))
  && negb (negb (max_properties opts =? 0) && (max_properties opts <? count)).

Definition check_key_name (opts : goc_schema_dict_opts) (path : string) (probe : bool) (key : string) : verdict :=
  match property_names opts with
  | None => ok None
  | Some _ =>
      e ← rec (property_names opts) (VKey key) path probe;
      match e with
      | None => ok None
      | Some ProbeError => ub                            (* err->message at address 1 *)
      | Some (Error _ message) => fail path ("key '" +:+ key +:+ "': " +:+ message) probe
      end
  end.

Definition check_pattern (kvs : list (string * vref)) (path : string) (probe : bool) (key : string)
    (prop : @goc_schema_pattern_prop X) : verdict :=
  match pp_regex prop with
  | None => abort "goc_schema_pattern_props: missing compiled regex"
  | Some regex =>
      if regexec regex key then rec (pp_schema prop) (dict_get kvs key) (key_path path key) probe else ok None
  end.

Definition check_key (kvs : list (string * vref)) (opts : goc_schema_dict_opts) (path : string) (probe : bool) (key : string) : verdict :=
  e ← check_key_name opts path probe key;
  match e with
  | Some _ => ok e
  | None =>
      match pattern_props opts with
      | None => ok None
      | Some props => each (λ _ prop, check_pattern kvs path probe key prop) 0 props
      end
  end.

(** A field whose value is null counts as missing. *)
Definition check_field (kvs : list (string * vref)) (path : string) (probe : bool) (field : goc_schema_field) : verdict :=
  let value := dict_get kvs (f_key field) in
  if bool_decide (value = VNull) then
    if f_optional field then ok None else fail (key_path path (f_key field)) "missing required field" probe
  else rec (f_schema field) value (key_path path (f_key field)) probe.

Definition check_known (fields : list goc_schema_field) (path : string) (probe : bool) (key : string) : verdict :=
  if existsb (λ f, bool_decide (f_key f = key)) fields then ok None
  else fail (key_path path key) ("unexpected key '" +:+ key +:+ "'") probe.

Definition check_dep_required (kvs : list (string * vref)) (path : string) (probe : bool) (dep : string * list string) : verdict :=
  if dict_contains kvs dep.1 then
    each (λ _ required_key,
            if dict_contains kvs required_key then ok None
            else fail path ("field '" +:+ required_key +:+ "' required when '" +:+ dep.1 +:+ "' is present") probe)
      0 dep.2
  else ok None.

Definition check_dep_schema (kvs : list (string * vref)) (val : vref) (path : string) (probe : bool) (dep : string * sref) : verdict :=
  if dict_contains kvs dep.1 then rec dep.2 val path probe else ok None.

Definition andthen (a : verdict) (b : verdict) : verdict := e ← a; match e with Some _ => ok e | None => b end.

Definition validate_dict (fields : list goc_schema_field) (opts : goc_schema_dict_opts) (val : vref) (path : string) (probe : bool)
    (kvs : list (string * vref)) : verdict :=
  let count := Z.of_nat (length kvs) in
  if negb (dict_fits opts count) then
    fail path ("expected " +:+ pretty (min_properties opts) +:+ "-" +:+ pretty (max_properties opts)
               +:+ " properties, got " +:+ pretty count) probe
  else
    andthen (each (λ _ kv, check_key kvs opts path probe kv.1) 0 kvs)
    (andthen (each (λ _ f, check_field kvs path probe f) 0 fields)
    (andthen (if strict opts then each (λ _ kv, check_known fields path probe kv.1) 0 kvs else ok None)
    (andthen (each (λ _ dep, check_dep_required kvs path probe dep) 0 (default [] (dep_required opts)))
             (each (λ _ dep, check_dep_schema kvs val path probe dep) 0 (default [] (dep_schemas opts)))))).

Definition goc_schema_validate_object (h : heap) (val : vref) (path : string) (probe : bool) (k : list (string * vref) → verdict)
    : verdict :=
  o ← view h val;
  match o with
  | Some (ODict _ _ kvs) => if goc_schema_is_goc_dict o then k kvs else fail path (expected "object" o) probe
  | _ => fail path (expected "object" o) probe
  end.

(** ** Composition *)

Definition validate_if (cond then_ else_ : sref) (val : vref) (path : string) (probe : bool) : verdict :=
  c ← goc_schema_probe cond val;
  match (if c : bool then then_ else else_) with None => ok None | s => rec s val path probe end.

Definition validate_any_of (schemas : list sref) (val : vref) (path : string) (probe : bool) : verdict :=
  matches ← count_hits (λ s, goc_schema_probe s val) schemas;
  if 0 <? matches then ok None
  else fail path ("value matched none of " +:+ pretty (Z.of_nat (length schemas)) +:+ " schemas") probe.

Definition validate_one_of (schemas : list sref) (val : vref) (path : string) (probe : bool) : verdict :=
  matches ← count_hits (λ s, goc_schema_probe s val) schemas;
  if matches =? 1 then ok None
  else fail path ("value matched " +:+ pretty matches +:+ " of " +:+ pretty (Z.of_nat (length schemas))
                  +:+ " schemas, expected exactly 1") probe.

Definition validate_not (schema : sref) (val : vref) (path : string) (probe : bool) : verdict :=
  c ← goc_schema_probe schema val;
  if c : bool then fail path "value must not be valid against schema" probe else ok None.

(** ** The switch on the kind *)

Definition validate_kind (eq : vref → vref → res bool) (st : store) (h : heap) (schema : positive) (k : schema_kind) (val : vref)
    (path : string) (probe : bool) : verdict :=
  match k with
  | SCHEMA_ANY => ok None
  | SCHEMA_NULL | SCHEMA_BOOL | SCHEMA_INT | SCHEMA_REAL | SCHEMA_COMPLEX | SCHEMA_UINT | SCHEMA_NUMBER | SCHEMA_BYTE
  | SCHEMA_UBYTE | SCHEMA_STR => report path probe (validate_base st h schema k val)
  | SCHEMA_BOOL_CONST _ | SCHEMA_INT_CONST _ | SCHEMA_REAL_CONST _ | SCHEMA_STR_CONST _ => report path probe (validate_const h k val)
  | SCHEMA_INT_MIN _ | SCHEMA_INT_MAX _ | SCHEMA_INT_RANGE _ _ | SCHEMA_INT_ENUM _ => report path probe (validate_int h k val)
  | SCHEMA_REAL_MIN _ | SCHEMA_REAL_MAX _ | SCHEMA_REAL_RANGE _ _ | SCHEMA_REAL_EX_MIN _ | SCHEMA_REAL_EX_MAX _
  | SCHEMA_REAL_MULTIPLE _ => report path probe (validate_real h k val)
  | SCHEMA_STR_MIN_LEN _ | SCHEMA_STR_MAX_LEN _ | SCHEMA_STR_LEN _ _ | SCHEMA_STR_PATTERN _ | SCHEMA_STR_ENUM _
  | SCHEMA_STR_FORMAT _ => report path probe (validate_str h k val)
  | SCHEMA_ARR elem => goc_schema_validate_array h val path probe (each_elem elem path probe)
  | SCHEMA_ARR_LEN elem min max =>
      goc_schema_validate_array h val path probe (λ l,
        let len := Z.of_nat (length l) in
        if (len <? min) || (max <? len) then
          fail path ("expected " +:+ pretty min +:+ "-" +:+ pretty max +:+ " elements, got " +:+ pretty len) probe
        else each_elem elem path probe l)
  | SCHEMA_ARR_UNIQUE elem => goc_schema_validate_array h val path probe (validate_unique eq elem path probe)
  | SCHEMA_ARR_CONTAINS elem contains min_contains max_contains =>
      goc_schema_validate_array h val path probe (validate_contains elem contains min_contains max_contains path probe)
  | SCHEMA_TUPLE items additional_items =>
      goc_schema_validate_array h val path probe (validate_tuple items additional_items path probe)
  | SCHEMA_OBJ fields opts => goc_schema_validate_object h val path probe (validate_dict fields opts val path probe)
  | SCHEMA_IF cond then_ else_ => validate_if cond then_ else_ val path probe
  | SCHEMA_ANY_OF schemas => validate_any_of schemas val path probe
  | SCHEMA_ONE_OF schemas => validate_one_of schemas val path probe
  | SCHEMA_ALL_OF schemas => each (λ _ s, rec s val path probe) 0 schemas
  | SCHEMA_NOT schema => validate_not schema val path probe
  | SCHEMA_PREDICATE fn nm =>
      if fn val then ok None else fail path ("value failed " +:+ default "predicate" nm) probe
  | SCHEMA_REF target =>
      match target with None => fail path "unresolved schema ref" probe | Some _ => rec target val path probe end
  end.

End Rec.

(** The parent is validated first, except for base kinds. *)
Fixpoint goc_schema_validate_impl (fuel : nat) (st : store) (h : heap) (schema : sref) (val : vref) (path : string) (probe : bool)
    : verdict :=
  match fuel with
  | O => hang
  | S fuel =>
      match schema with
      | None => abort "assertion schema != NULL failed"
      | Some p =>
          s ← get_schema st p;
          andthen
            (match parent s with
             | Some _ =>
                 if goc_schema_is_base_kind (kind s) then ok None
                 else goc_schema_validate_impl fuel st h (parent s) val path probe
             | None => ok None
             end)
            (validate_kind (goc_schema_validate_impl fuel st h) (goc_schema_vals_equal fuel h) st h p (kind s) val path probe)
      end
  end.

Definition goc_schema_validate (fuel : nat) (st : store) (h : heap) (schema : sref) (val : vref) : verdict :=
  match schema with
  | None => abort "goc_schema_validate: NULL schema"
  | Some _ => goc_schema_validate_impl fuel st h schema val "" false
  end.
Definition goc_schema_is_valid (fuel : nat) (st : store) (h : heap) (schema : sref) (val : vref) : res bool :=
  e ← goc_schema_validate fuel st h schema val; ok (match e with None => true | Some _ => false end).
Definition goc_schema_check (fuel : nat) (st : store) (h : heap) (schema : sref) (val : vref) : res () :=
  e ← goc_schema_validate fuel st h schema val;
  match e with
  | None => ok ()
  | Some _ =>
      let path := goc_schema_error_path e in
      let message := goc_schema_error_message e in
      let path := if String.eqb path "" then "<root>" else path in
      let message := if String.eqb message "" then "validation failed" else message in
      abort ("goc_schema_check: validation failed at " +:+ path +:+ ": " +:+ message)
  end.

End Validate.
End SchemaVal.
