(* ===== verification/SchemaValProps.v ===== *)
(** Theorems on validation: what a verdict means for every kind of schema, that probing and
    validating agree, when validation terminates, and where the path of an error leads. *)

From stdpp Require Import pretty.
From S2P Require Import Prelude Schema SchemaProps SchemaVal.

Module SchemaValProps.
Import Schema SchemaProps SchemaVal.

(** ** Runs that agree

    [sim Q a b]: when [a] returns, so does [b], with a result that [Q] relates. *)

Definition sim {A B} (Q : A → B → Prop) (a : res A) (b : res B) : Prop := ∀ x, a = ok x → ∃ y, b = ok y ∧ Q x y.

Lemma sim_ok {A B} (Q : A → B → Prop) x y : Q x y → sim Q (ok x) (ok y).
Proof. intros ? ? [= <-]. eauto. Qed.
Lemma sim_refl {A} (a : res A) : sim eq a a.
Proof. intros x ->. eauto. Qed.
Lemma sim_none {A B} (Q : A → B → Prop) (a : res A) b : (∀ x, a ≠ ok x) → sim Q a b.
Proof. intros Ha x ->. by destruct (Ha x). Qed.
Lemma sim_bind {A B C D} (Q : A → B → Prop) (P : C → D → Prop) a b f g :
  sim Q a b → (∀ x y, Q x y → sim P (f x) (g y)) → sim P (a ≫= f) (b ≫= g).
Proof.
  intros Hab Hfg z. destruct a as [x| | |]; try done. intros Hz.
  destruct (Hab x eq_refl) as (y & -> & Hxy). by apply (Hfg x y Hxy).
Qed.
Lemma sim_bind_eq {A C D} (P : C → D → Prop) (a : res A) f g : (∀ x, sim P (f x) (g x)) → sim P (a ≫= f) (a ≫= g).
Proof. intros Hfg. apply (sim_bind eq); [apply sim_refl|]. by intros x ? <-. Qed.

Create HintDb sim.
#[export] Hint Resolve sim_ok sim_refl sim_bind_eq : sim.

(** The same answer, maybe with another error. *)
Definition same (r r' : option goc_schema_error) : Prop := r = None ↔ r' = None.
Lemma same_some e e' : same (Some e) (Some e').
Proof. done. Qed.
Lemma same_none : same None None.
Proof. done. Qed.
#[export] Hint Resolve same_some same_none : sim.

Lemma fail_sim path path' msg msg' probe probe' : sim same (fail path msg probe) (fail path' msg' probe').
Proof. unfold fail. auto with sim. Qed.
Lemma report_sim path path' probe probe' c : sim same (report path probe c) (report path' probe' c).
Proof. unfold report. apply sim_bind_eq. intros [?|]; [apply fail_sim|auto with sim]. Qed.
#[export] Hint Resolve fail_sim report_sim : sim.

Lemma andthen_sim a a' b b' : sim same a a' → sim same b b' → sim same (andthen a b) (andthen a' b').
Proof.
  intros Ha Hb. apply (sim_bind same); [done|]. intros [x|] [y|] Hxy; auto with sim; unfold same in Hxy; naive_solver.
Qed.
Lemma each_sim {A} (f f' : Z → A → verdict) i l : (∀ i a, sim same (f i a) (f' i a)) → sim same (each f i l) (each f' i l).
Proof.
  intros Hf. revert i. induction l as [|a l IH]; intros i; simpl; [auto with sim|].
  apply (andthen_sim (f i a) (f' i a)); auto.
Qed.
Lemma count_sim {A} (f f' : A → res bool) l : (∀ a, sim eq (f a) (f' a)) → sim eq (count_hits f l) (count_hits f' l).
Proof.
  intros Hf. induction l as [|a l IH]; simpl; [auto with sim|].
  apply (sim_bind eq); [done|]. intros b ? <-. apply (sim_bind eq); [done|]. intros n ? <-. auto with sim.
Qed.
Lemma equal_later_sim (q q' : vref → vref → res bool) a j l : (∀ x y, sim eq (q x y) (q' x y)) → sim eq (equal_later q a j l) (equal_later q' a j l).
Proof.
  intros Hq. revert j. induction l as [|b l IH]; intros j; simpl; [auto with sim|].
  apply (sim_bind eq); [done|]. intros [] ? <-; auto with sim.
Qed.
Lemma duplicate_sim q q' i l : (∀ x y, sim eq (q x y) (q' x y)) → sim eq (duplicate q i l) (duplicate q' i l).
Proof.
  intros Hq. revert i. induction l as [|b l IH]; intros i; simpl; [auto with sim|].
  apply (sim_bind eq); [by apply equal_later_sim|]. intros [] ? <-; auto with sim.
Qed.
Lemma all_pairs_sim {A B} (f f' : A → B → res bool) l k : (∀ a b, sim eq (f a b) (f' a b)) → sim eq (all_pairs f l k) (all_pairs f' l k).
Proof.
  intros Hf. revert k. induction l as [|a l IH]; intros [|b k]; simpl; auto with sim.
  apply (sim_bind eq); [done|]. intros [] ? <-; auto with sim.
Qed.
#[export] Hint Resolve andthen_sim each_sim count_sim equal_later_sim duplicate_sim all_pairs_sim : sim.

Section Props.
Context {R X : Type} `{LongDouble R} `{Regex X}.
Notation schema_kind := (@schema_kind R X).
Notation store := (gmap positive (@Schema.goc_schema R X)).
Notation validate := (@goc_schema_validate_impl R X _ _).

(** ** Where an error is

    The path of an error leads from the validated value to a part of it. *)

Inductive step := Idx (i : nat) | Key (k : string).
Fixpoint render (l : list step) : string :=
  match l with
  | [] => ""
  | Idx i :: l => ".[" +:+ pretty (Z.of_nat i) +:+ "]" +:+ render l
  | Key k :: l => "." +:+ k +:+ render l
  end.

(** The value as an array or a dictionary of the validator. *)
Definition as_list (h : heap) (v : vref) : option (list vref) :=
  match view h v with ok (Some (OArr c hd l) as o) => if goc_schema_is_goc_array o then Some l else None | _ => None end.
Definition as_dict (h : heap) (v : vref) : option (list (string * vref)) :=
  match view h v with ok (Some (ODict c oc kvs) as o) => if goc_schema_is_goc_dict o then Some kvs else None | _ => None end.

Inductive reaches (h : heap) : vref → list step → vref → Prop :=
| reaches_here v : reaches h v [] v
| reaches_idx v l i x r w : as_list h v = Some l → l !! i = Some x → reaches h x r w → reaches h v (Idx i :: r) w
| reaches_key v kvs k r w : as_dict h v = Some kvs → reaches h (dict_get kvs k) r w → reaches h v (Key k :: r) w.
#[local] Hint Constructors reaches : core.

Definition located (h : heap) (v : vref) (path : string) (probe : bool) (r : verdict) : Prop :=
  ∀ e, r = ok (Some e) →
  if probe then e = ProbeError else ∃ steps msg w, e = Error (path +:+ render steps) msg ∧ reaches h v steps w.

Lemma app_empty_r s : s +:+ "" = s.
Proof. induction s as [|c s IH]; [done|]. change (String c (s +:+ "") = String c s). by rewrite IH. Qed.
Lemma app_assoc_s (a b c : string) : (a +:+ b) +:+ c = a +:+ (b +:+ c).
Proof. induction a as [|x a IH]; [done|]. change (String x ((a +:+ b) +:+ c) = String x (a +:+ (b +:+ c))). by rewrite IH. Qed.

Lemma fail_located h v path msg probe : located h v path probe (fail path msg probe).
Proof. intros e [= <-]. destruct probe; [done|]. exists [], msg, v. by rewrite app_empty_r. Qed.
Lemma ok_located h v path probe : located h v path probe (ok None).
Proof. done. Qed.
Lemma not_ok_located h v path probe r : (∀ x, r ≠ ok x) → located h v path probe r.
Proof. intros Hr e He. by destruct (Hr _ He). Qed.
Lemma bind_located {A} h v path probe (a : res A) k : (∀ x, a = ok x → located h v path probe (k x)) → located h v path probe (a ≫= k).
Proof. intros Hk. destruct a as [x| | |]; [by apply Hk|by intros ?..]. Qed.
Lemma report_located h v path probe c : located h v path probe (report path probe c).
Proof. apply bind_located. intros [?|] _; [apply fail_located|apply ok_located]. Qed.
Lemma andthen_located h v path probe a b : located h v path probe a → located h v path probe b → located h v path probe (andthen a b).
Proof. intros Ha Hb. destruct a as [[e|]| | |]; try (by intros ?); done. Qed.
Lemma each_located {A} h v path probe (f : Z → A → verdict) i l :
  (∀ j a, l !! j = Some a → located h v path probe (f (i + Z.of_nat j) a)) → located h v path probe (each f i l).
Proof.
  revert i. induction l as [|a l IH]; intros i Hf; simpl; [apply ok_located|].
  apply (andthen_located _ _ _ _ (f i a)).
  - replace i with (i + Z.of_nat 0) by lia. by apply Hf.
  - apply IH. intros j b Hj. replace (i + 1 + Z.of_nat j) with (i + Z.of_nat (S j)) by lia. by apply Hf.
Qed.

Lemma idx_located h v l i x path probe r :
  as_list h v = Some l → l !! i = Some x → located h x (idx_path path (Z.of_nat i)) probe r → located h v path probe r.
Proof.
  intros Hl Hi Hr e He. specialize (Hr e He). destruct probe; [done|]. destruct Hr as (steps & msg & w & -> & Hw).
  exists (Idx i :: steps), msg, w. split; [|by econstructor]. unfold idx_path. simpl. by rewrite !app_assoc_s.
Qed.
Lemma key_located h v kvs k path probe r :
  as_dict h v = Some kvs → located h (dict_get kvs k) (key_path path k) probe r → located h v path probe r.
Proof.
  intros Hl Hr e He. specialize (Hr e He). destruct probe; [done|]. destruct Hr as (steps & msg & w & -> & Hw).
  exists (Key k :: steps), msg, w. split; [|by econstructor]. unfold key_path. simpl. by rewrite !app_assoc_s.
Qed.
#[local] Hint Resolve fail_located ok_located report_located : core.

Section Located.
Context (rec : sref → vref → string → bool → verdict) (h : heap).
Context (Hrec : ∀ s v path probe, located h v path probe (rec s v path probe)).

Lemma array_located v path probe k :
  (∀ l, as_list h v = Some l → located h v path probe (k l)) → located h v path probe (goc_schema_validate_array h v path probe k).
Proof.
  intros Hk. apply bind_located. intros o Ho. destruct o as [[]|]; try apply fail_located.
  case_match eqn:Ha; [|apply fail_located]. apply Hk. unfold as_list. by rewrite Ho, Ha.
Qed.
Lemma object_located v path probe k :
  (∀ kvs, as_dict h v = Some kvs → located h v path probe (k kvs)) → located h v path probe (goc_schema_validate_object h v path probe k).
Proof.
  intros Hk. apply bind_located. intros o Ho. destruct o as [[]|]; try apply fail_located.
  case_match eqn:Ha; [|apply fail_located]. apply Hk. unfold as_dict. by rewrite Ho, Ha.
Qed.

Lemma elems_located v l n elem path probe :
  as_list h v = Some l → (n <= length l)%nat →
  located h v path probe (each (λ i x, rec elem x (idx_path path i) probe) (Z.of_nat n) (drop n l)).
Proof.
  intros Hl Hn. apply each_located. intros j x Hj. rewrite lookup_drop in Hj.
  replace (Z.of_nat n + Z.of_nat j) with (Z.of_nat (n + j)) by lia. eapply idx_located; [done|done|apply Hrec].
Qed.
Lemma each_elem_located v l elem path probe : as_list h v = Some l → located h v path probe (each_elem rec elem path probe l).
Proof. intros Hl. apply (elems_located v l 0); [done|lia]. Qed.

Lemma tuple_located v l items add path probe : as_list h v = Some l → located h v path probe (validate_tuple rec items add path probe l).
Proof.
  intros Hl. unfold validate_tuple.
  match goal with |- located _ _ _ _ (?a ≫= _) => apply (andthen_located _ _ _ _ a) end.
  - apply each_located. intros j s Hj. unfold array_get. rewrite Z.add_0_l, Nat2Z.id.
    destruct (l !! j) as [x|] eqn:Hx; [|by apply bind_located]. eapply idx_located; [done|done|apply Hrec].
  - destruct (Nat.ltb_spec (length items) (length l)); [|auto]. destruct add; [|auto]. apply elems_located; [done|lia].
Qed.

Lemma dict_located fields opts v kvs path probe :
  as_dict h v = Some kvs → located h v path probe (validate_dict rec fields opts v path probe kvs).
Proof.
  intros Hd. unfold validate_dict. case_match; [auto|].
  repeat apply andthen_located; try apply each_located.
  - intros _ [k x] _. apply andthen_located.
    + unfold check_key_name. case_match; [|auto]. apply bind_located. intros [[]|] _; auto. by apply not_ok_located.
    + case_match; [|auto]. apply each_located. intros _ prop _. unfold check_pattern.
      case_match; [|by apply not_ok_located]. case_match; [|auto]. eapply key_located; [done|apply Hrec].
  - intros _ f _. unfold check_field. repeat case_match; auto; eapply key_located; eauto.
  - case_match; [|auto]. apply each_located. intros _ [k x] _. unfold check_known. case_match; [auto|].
    eapply key_located; eauto.
  - intros _ d _. unfold check_dep_required. case_match; [|auto]. apply each_located. intros _ k _. case_match; auto.
  - intros _ d _. unfold check_dep_schema. case_match; auto.
Qed.

Lemma kind_located q (st : store) p k v path probe : located h v path probe (validate_kind rec q st h p k v path probe).
Proof.
  destruct k; simpl; auto; try (apply array_located; intros l Hl); try (apply object_located; intros; by apply dict_located).
  - by apply each_elem_located.
  - case_match; [auto|]. by apply each_elem_located.
  - apply (andthen_located _ _ _ _ (each_elem _ _ _ _ _)); [by apply each_elem_located|].
    apply bind_located. intros [[]|] _; auto.
  - apply (andthen_located _ _ _ _ (each_elem _ _ _ _ _)); [by apply each_elem_located|].
    apply bind_located. intros n _. repeat case_match; auto.
  - by apply tuple_located.
  - apply bind_located. intros b _. case_match; auto.
  - apply bind_located. intros n _. case_match; auto.
  - apply bind_located. intros n _. case_match; auto.
  - apply each_located. auto.
  - apply bind_located. intros [] _; auto.
  - case_match; auto.
  - case_match; auto.
Qed.
End Located.

Lemma validate_located fuel st h s v path probe : located h v path probe (validate fuel st h s v path probe).
Proof.
  revert s v path probe. induction fuel as [|fuel IH]; intros [p|] v path probe; try by apply not_ok_located.
  simpl. apply bind_located. intros sc _. apply andthen_located; [repeat case_match; auto|].
  by apply kind_located.
Qed.

(** ** More fuel, another path, or no probing gives the same verdict *)

Lemma vals_equal_mono fuel fuel' h a b :
  (fuel <= fuel')%nat → sim eq (goc_schema_vals_equal (R := R) fuel h a b) (goc_schema_vals_equal fuel' h a b).
Proof.
  revert fuel' a b. induction fuel as [|fuel IH]; intros [|fuel'] a b Hle; try (by apply sim_none); [lia|].
  simpl. case_match; [apply sim_refl|]. case_match; [apply sim_refl|].
  apply sim_bind_eq. intros oa. apply sim_bind_eq. intros ob.
  repeat case_match; try apply sim_refl; apply all_pairs_sim; intros; apply IH; lia.
Qed.

(** Two validators that agree wherever the second probes only if the first does. *)
Definition rec_sim (rec rec' : sref → vref → string → bool → verdict) : Prop :=
  ∀ s v path path' (probe probe' : bool), (probe' → probe) → sim same (rec s v path probe) (rec' s v path' probe').

Section Agree.
Context (rec rec' : sref → vref → string → bool → verdict) (Hrec : rec_sim rec rec').

Lemma probe_sim s v : sim eq (goc_schema_probe rec s v) (goc_schema_probe rec' s v).
Proof.
  unfold goc_schema_probe. destruct s as [s|]; [|apply sim_refl].
  apply (sim_bind same); [by apply Hrec|]. intros [] [] Hs; auto with sim; unfold same in Hs; naive_solver.
Qed.

Lemma each_elem_sim s path path' (probe probe' : bool) l :
  (probe' → probe) → sim same (each_elem rec s path probe l) (each_elem rec' s path' probe' l).
Proof. intros Hp. unfold each_elem. apply each_sim. intros. by apply Hrec. Qed.

Lemma unique_sim q q' s path path' (probe probe' : bool) l :
  (probe' → probe) → (∀ x y, sim eq (q x y) (q' x y)) →
  sim same (validate_unique rec q s path probe l) (validate_unique rec' q' s path' probe' l).
Proof.
  intros Hp Hq. apply (andthen_sim (each_elem rec s path probe l) (each_elem rec' s path' probe' l)).
  - by apply each_elem_sim.
  - apply (sim_bind eq); [by apply duplicate_sim|]. intros [[]|] ? <-; auto with sim.
Qed.

Lemma contains_sim s c mn mx path path' (probe probe' : bool) l :
  (probe' → probe) → sim same (validate_contains rec s c mn mx path probe l) (validate_contains rec' s c mn mx path' probe' l).
Proof.
  intros Hp. apply (andthen_sim (each_elem rec s path probe l) (each_elem rec' s path' probe' l)).
  - by apply each_elem_sim.
  - apply (sim_bind eq); [apply count_sim, probe_sim|]. intros n ? <-. repeat case_match; auto with sim.
Qed.

Lemma tuple_sim items add path path' (probe probe' : bool) l :
  (probe' → probe) → sim same (validate_tuple rec items add path probe l) (validate_tuple rec' items add path' probe' l).
Proof.
  intros Hp. unfold validate_tuple.
  match goal with |- sim _ (?a ≫= _) (?b ≫= _) => apply (andthen_sim a b) end.
  - apply each_sim. intros. apply sim_bind_eq. intros. by apply Hrec.
  - repeat case_match; auto with sim.
Qed.

(** A failing name while probing is undefined, so the first run does not return. *)
Context (h : heap) (Hloc : ∀ s v path probe, located h v path probe (rec s v path probe)).
Context (Hloc' : ∀ s v path probe, located h v path probe (rec' s v path probe)).

Lemma key_name_sim (opts : @goc_schema_dict_opts X) path path' (probe probe' : bool) key :
  (probe' → probe) → sim same (check_key_name rec opts path probe key) (check_key_name rec' opts path' probe' key).
Proof.
  intros Hp. unfold check_key_name. destruct (property_names opts) as [pn|]; [|auto with sim].
  intros x Hx. destruct (rec (Some pn) (VKey key) path probe) as [r| | |] eqn:Hr; try done.
  destruct (Hrec (Some pn) (VKey key) path path' probe probe' Hp r Hr) as (r' & Hr' & Hs).
  rewrite Hr'. destruct r as [e|].
  - specialize (Hloc _ _ _ _ _ Hr). destruct e as [|p m]; [done|]. destruct probe; [done|].
    destruct probe'; [by destruct Hp|]. destruct r' as [e'|]; [|unfold same in Hs; naive_solver].
    destruct (Hloc' _ _ _ _ _ Hr') as (st & ms & w & -> & _). simpl in Hx |- *. injection Hx as <-. eauto with sim.
  - destruct r' as [e'|]; [unfold same in Hs; naive_solver|]. injection Hx as <-. eauto with sim.
Qed.

Lemma dict_sim fields opts v path path' (probe probe' : bool) kvs :
  (probe' → probe) →
  sim same (validate_dict rec fields opts v path probe kvs) (validate_dict rec' fields opts v path' probe' kvs).
Proof.
  intros Hp. unfold validate_dict. case_match; [auto with sim|].
  repeat apply andthen_sim; try apply each_sim.
  - intros _ kv. apply andthen_sim; [by apply key_name_sim|]. case_match; [|auto with sim]. apply each_sim.
    intros _ prop. unfold check_pattern. repeat case_match; try (by apply sim_none); [by apply Hrec|auto with sim].
  - intros _ f. unfold check_field. repeat case_match; auto with sim.
  - case_match; [|auto with sim]. apply each_sim. intros _ kv. unfold check_known. case_match; auto with sim.
  - intros _ d. unfold check_dep_required. case_match; [|auto with sim]. apply each_sim. intros. case_match; auto with sim.
  - intros _ d. unfold check_dep_schema. case_match; [by apply Hrec|auto with sim].
Qed.

Lemma array_sim v path path' (probe probe' : bool) k k' :
  (∀ l, sim same (k l) (k' l)) → sim same (goc_schema_validate_array h v path probe k) (goc_schema_validate_array h v path' probe' k').
Proof. intros Hk. apply sim_bind_eq. intros o. repeat case_match; auto with sim. Qed.
Lemma object_sim v path path' (probe probe' : bool) k k' :
  (∀ l, sim same (k l) (k' l)) → sim same (goc_schema_validate_object h v path probe k) (goc_schema_validate_object h v path' probe' k').
Proof. intros Hk. apply sim_bind_eq. intros o. repeat case_match; auto with sim. Qed.

Lemma kind_sim q q' (st : store) p k v path path' (probe probe' : bool) :
  (probe' → probe) → (∀ x y, sim eq (q x y) (q' x y)) →
  sim same (validate_kind rec q st h p k v path probe) (validate_kind rec' q' st h p k v path' probe').
Proof.
  intros Hp Hq. destruct k; simpl; auto with sim; try (apply array_sim; intros l); try (by apply object_sim; intros; apply dict_sim).
  - by apply each_elem_sim.
  - case_match; [auto with sim|]. by apply each_elem_sim.
  - by apply unique_sim.
  - by apply contains_sim.
  - by apply tuple_sim.
  - apply (sim_bind eq); [apply probe_sim|]. intros b ? <-. case_match; [by apply Hrec|auto with sim].
  - apply (sim_bind eq); [apply count_sim; intros; apply probe_sim|]. intros n ? <-. case_match; auto with sim.
  - apply (sim_bind eq); [apply count_sim; intros; apply probe_sim|]. intros n ? <-. case_match; auto with sim.
  - apply (sim_bind eq); [apply probe_sim|]. intros [] ? <-; auto with sim.
  - case_match; [by apply Hrec|auto with sim].
  - case_match; auto with sim.
Qed.
End Agree.

Lemma validate_sim fuel fuel' st h : (fuel <= fuel')%nat → rec_sim (validate fuel st h) (validate fuel' st h).
Proof.
  revert fuel'. induction fuel as [|fuel IH]; intros [|fuel'] Hle; try lia; intros [p|] v path path' probe probe' Hp;
    try by apply sim_none.
  simpl. apply sim_bind_eq. intros sc. apply andthen_sim.
  - repeat case_match; auto with sim. apply IH; [lia|done].
  - apply kind_sim; try done; [apply IH; lia|apply validate_located..|].
    intros. apply vals_equal_mono. lia.
Qed.

(** Two runs that return, whatever their fuel, paths and modes, give the same answer. *)
Lemma verdicts_agree fuel fuel' st h s v path path' probe probe' r r' :
  validate fuel st h s v path probe = ok r → validate fuel' st h s v path' probe' = ok r' → same r r'.
Proof.
  intros Hr Hr'. set (n := Nat.max fuel fuel').
  destruct (validate_sim fuel n st h ltac:(lia) s v path "" probe false ltac:(done) r Hr) as (x & Hx & Hrx).
  destruct (validate_sim fuel' n st h ltac:(lia) s v path' "" probe' false ltac:(done) r' Hr') as (y & Hy & Hry).
  assert (x = y) as <- by congruence. unfold same in *. tauto.
Qed.

(** ** What the verdict means

    The values a schema of each kind describes, given the values its parts describe. *)

Definition as_bool (h : heap) (v : vref) : option bool :=
  match view h v with ok o => if goc_schema_is_boxed_bool o then Some (unbox_bool o) else None | _ => None end.
Definition as_int (h : heap) (v : vref) : option Z :=
  match view h v with ok o => if goc_schema_is_boxed_int o then Some (goc_schema_boxed_signed_value o) else None | _ => None end.
Definition as_real (h : heap) (v : vref) : option R :=
  match view h v with ok o => if goc_schema_is_boxed_real o then Some (goc_schema_boxed_real_value o) else None | _ => None end.
Definition as_double (h : heap) (v : vref) : option R :=
  match view h v with
  | ok o => if goc_schema_is_boxed_real o then match unbox_double o with ok x => Some x | _ => None end else None
  | _ => None
  end.
Definition as_str (h : heap) (v : vref) : option string :=
  match view h v with ok (Some (OStr s)) => Some s | _ => None end.

(** [hits P l n]: [n] elements of [l] have the property. *)
Inductive hits {A} (P : A → Prop) : list A → Z → Prop :=
| hits_nil : hits P [] 0
| hits_yes a l n : P a → hits P l n → hits P (a :: l) (n + 1)
| hits_no a l n : ¬ P a → hits P l n → hits P (a :: l) n.

(** Two values that differ. *)
Definition different (h : heap) (a b : vref) : Prop := ∃ fuel, goc_schema_vals_equal (R := R) fuel h a b = ok false.

Definition dict_sat (V : sref → vref → Prop) (fields : list goc_schema_field) (opts : @goc_schema_dict_opts X) (v : vref)
    (kvs : list (string * vref)) : Prop :=
  (min_properties opts = 0 ∨ min_properties opts <= Z.of_nat (length kvs)) ∧
  (max_properties opts = 0 ∨ Z.of_nat (length kvs) <= max_properties opts) ∧
  (∀ k x, (k, x) ∈ kvs → property_names opts = None ∨ V (property_names opts) (VKey k)) ∧
  (∀ k x prop regex, (k, x) ∈ kvs → prop ∈ default [] (pattern_props opts) → pp_regex prop = Some regex → regexec regex k = true →
     V (pp_schema prop) (dict_get kvs k)) ∧
  (∀ f, f ∈ fields → if bool_decide (dict_get kvs (f_key f) = VNull) then f_optional f = true else V (f_schema f) (dict_get kvs (f_key f))) ∧
  (strict opts = true → ∀ k x, (k, x) ∈ kvs → ∃ f, f ∈ fields ∧ f_key f = k) ∧
  (∀ d, d ∈ default [] (dep_required opts) → dict_contains kvs d.1 = true → ∀ k, k ∈ d.2 → dict_contains kvs k = true) ∧
  (∀ d, d ∈ default [] (dep_schemas opts) → dict_contains kvs d.1 = true → V d.2 v).

Definition sat (V : sref → vref → Prop) (st : store) (h : heap) (p : positive) (k : schema_kind) (v : vref) : Prop :=
  match k with
  | SCHEMA_ANY => True
  | SCHEMA_NULL => v = VNull
  | SCHEMA_BOOL => is_Some (as_bool h v)
  | SCHEMA_STR => ∃ o, view h v = ok o ∧ goc_schema_is_string o = true
  | SCHEMA_INT | SCHEMA_REAL | SCHEMA_COMPLEX | SCHEMA_UINT | SCHEMA_NUMBER | SCHEMA_BYTE | SCHEMA_UBYTE =>
      ∃ o t, view h v = ok o ∧ goc_schema_for_tag (goc_schema_boxed_type o) = Some t ∧ goc_schema_is_a st (Some t) (Some p) = ok true
  | SCHEMA_BOOL_CONST c => as_bool h v = Some c
  | SCHEMA_INT_CONST c => as_int h v = Some c
  | SCHEMA_REAL_CONST c => ∃ x, as_double h v = Some x ∧ d_eq x c = true
  | SCHEMA_STR_CONST c => as_str h v = Some c
  | SCHEMA_INT_MIN m => ∃ z, as_int h v = Some z ∧ m <= z
  | SCHEMA_INT_MAX m => ∃ z, as_int h v = Some z ∧ z <= m
  | SCHEMA_INT_RANGE lo hi => ∃ z, as_int h v = Some z ∧ lo <= z <= hi
  | SCHEMA_INT_ENUM vals => ∃ z c o, as_int h v = Some z ∧ c ∈ vals ∧ view h c = ok o ∧ goc_schema_boxed_signed_value o = z
  | SCHEMA_REAL_MIN m => ∃ x, as_real h v = Some x ∧ ld_le m x = true
  | SCHEMA_REAL_MAX m => ∃ x, as_real h v = Some x ∧ ld_le x m = true
  | SCHEMA_REAL_RANGE lo hi => ∃ x, as_real h v = Some x ∧ ld_le lo x = true ∧ ld_le x hi = true
  | SCHEMA_REAL_EX_MIN m => ∃ x, as_real h v = Some x ∧ ld_lt m x = true
  | SCHEMA_REAL_EX_MAX m => ∃ x, as_real h v = Some x ∧ ld_lt x m = true
  | SCHEMA_REAL_MULTIPLE f => ∃ x, as_real h v = Some x ∧ is_multiple x f = true
  | SCHEMA_STR_MIN_LEN m => ∃ s, as_str h v = Some s ∧ m <= strlen s
  | SCHEMA_STR_MAX_LEN m => ∃ s, as_str h v = Some s ∧ strlen s <= m
  | SCHEMA_STR_LEN lo hi => ∃ s, as_str h v = Some s ∧ lo <= strlen s <= hi
  | SCHEMA_STR_PATTERN regex => ∃ s, as_str h v = Some s ∧ regexec regex s = true
  | SCHEMA_STR_ENUM vals => ∃ s c, as_str h v = Some s ∧ c ∈ vals ∧ as_str h c = Some s
  | SCHEMA_STR_FORMAT f => ∃ s, as_str h v = Some s ∧ match f with Some regex => regexec regex s = true | None => True end
  | SCHEMA_ARR e => ∃ l, as_list h v = Some l ∧ ∀ x, x ∈ l → V e x
  | SCHEMA_ARR_LEN e lo hi => ∃ l, as_list h v = Some l ∧ lo <= Z.of_nat (length l) <= hi ∧ ∀ x, x ∈ l → V e x
  | SCHEMA_ARR_UNIQUE e =>
      ∃ l, as_list h v = Some l ∧ (∀ x, x ∈ l → V e x) ∧
        ∀ i j a b, (i < j)%nat → l !! i = Some a → l !! j = Some b → different h a b
  | SCHEMA_ARR_CONTAINS e c lo hi =>
      ∃ l n, as_list h v = Some l ∧ (∀ x, x ∈ l → V e x) ∧ hits (V c) l n ∧ lo <= n ∧ (hi = 0 ∨ n <= hi)
  | SCHEMA_TUPLE items add =>
      ∃ l, as_list h v = Some l ∧ (∀ i s, items !! i = Some s → ∃ x, l !! i = Some x ∧ V s x) ∧
        ∀ i x, (length items <= i)%nat → l !! i = Some x → V add x
  | SCHEMA_OBJ fields opts => ∃ kvs, as_dict h v = Some kvs ∧ dict_sat V fields opts v kvs
  | SCHEMA_IF c t e => (V c v → t = None ∨ V t v) ∧ (¬ V c v → e = None ∨ V e v)
  | SCHEMA_ANY_OF ss => ∃ s, s ∈ ss ∧ V s v
  | SCHEMA_ONE_OF ss => hits (λ s, V s v) ss 1
  | SCHEMA_ALL_OF ss => ∀ s, s ∈ ss → V s v
  | SCHEMA_NOT s => ¬ V s v
  | SCHEMA_REF t => V t v
  | SCHEMA_PREDICATE fn _ => fn v = true
  end.

(** *** Loops *)

Definition decides {A} (r : option A) (P : Prop) : Prop := r = None ↔ P.

Lemma hits_fun {A} (P : A → Prop) l n m : hits P l n → hits P l m → n = m.
Proof. intros Hn. revert m. induction Hn; inversion 1; subst; try done; f_equal; eauto. Qed.
Lemma hits_pos {A} (P : A → Prop) l n : hits P l n → 0 <= n ∧ (0 < n ↔ ∃ a, a ∈ l ∧ P a).
Proof.
  induction 1 as [|a l n Ha _ [IH0 IH]|a l n Ha _ [IH0 IH]].
  - split; [lia|]. split; [lia|]. by intros (? & []%elem_of_nil & _).
  - split; [lia|]. split; [|lia]. intros _. exists a. split; [apply elem_of_cons; by left|done].
  - split; [lia|]. rewrite IH. split.
    + intros (b & Hb & HP). exists b. rewrite elem_of_cons. auto.
    + intros (b & [->|Hb]%elem_of_cons & HP); [done|eauto].
Qed.
Lemma count_means {A} (P : A → Prop) f l n : (∀ a b, f a = ok b → (b = true ↔ P a)) → count_hits f l = ok n → hits P l n.
Proof.
  intros Hf. revert n. induction l as [|a l IH]; simpl; intros n Hn; [injection Hn as <-; constructor|].
  destruct (f a) as [b| | |] eqn:Hb; try done. simpl in Hn. destruct (count_hits f l) as [m| | |]; try done.
  injection Hn as <-. specialize (Hf a b Hb). destruct b.
  - apply hits_yes; [by apply Hf|auto].
  - apply hits_no; [intros HP; by apply Hf in HP|auto].
Qed.
Lemma find_means {A} (f : A → res bool) l b : find_hit f l = ok b → (b = true ↔ ∃ a, a ∈ l ∧ f a = ok true).
Proof.
  revert b. induction l as [|a l IH]; simpl; intros b Hb.
  - injection Hb as <-. split; [done|]. by intros (? & []%elem_of_nil & _).
  - destruct (f a) as [c| | |] eqn:Hc; try done. simpl in Hb. destruct c.
    + injection Hb as <-. split; [|done]. intros _. exists a. split; [apply elem_of_cons; by left|done].
    + rewrite (IH b Hb). split; intros (x & Hx & Hfx); exists x; rewrite elem_of_cons in *; [auto|].
      destruct Hx as [->|Hx]; [congruence|auto].
Qed.
Lemma andthen_means a b r P Q :
  (∀ x, a = ok x → decides x P) → (∀ x, b = ok x → P → decides x Q) → andthen a b = ok r → decides r (P ∧ Q).
Proof.
  intros Ha Hb Hr. destruct a as [[e|]| | |] eqn:Hea; try done; simpl in Hr.
  - injection Hr as <-. specialize (Ha _ eq_refl). unfold decides in *. naive_solver.
  - specialize (Ha _ eq_refl). specialize (Hb _ Hr). unfold decides in *. naive_solver.
Qed.
Lemma each_means {A} (P : nat → A → Prop) (f : Z → A → verdict) i l r :
  (∀ j a x, l !! j = Some a → f (i + Z.of_nat j) a = ok x → decides x (P j a)) →
  each f i l = ok r → decides r (∀ j a, l !! j = Some a → P j a).
Proof.
  revert i P r. induction l as [|a l IH]; intros i P r Hf Hr; simpl in Hr; [injection Hr as <-; done|].
  assert (decides r (P 0%nat a ∧ ∀ j b, l !! j = Some b → P (S j) b)) as Hd.
  { eapply (andthen_means (f i a)); [| |exact Hr].
    - intros x Hx. apply (Hf 0%nat a); [done|]. by rewrite Z.add_0_r.
    - intros x Hx _. apply (IH (i + 1) (λ j, P (S j))); [|done]. intros j b y Hj Hy.
      apply (Hf (S j) b); [done|]. by replace (i + Z.of_nat (S j)) with (i + 1 + Z.of_nat j) by lia. }
  unfold decides in *. rewrite Hd. split.
  - intros [H1 H2] [|j] b; simpl; [by intros [= <-]|auto].
  - intros Hall. split; [by apply (Hall 0%nat)|]. intros j b. apply (Hall (S j)).
Qed.
Lemma each_means_in {A} (P : A → Prop) (f : Z → A → verdict) i l r :
  (∀ j a x, a ∈ l → f j a = ok x → decides x (P a)) → each f i l = ok r → decides r (∀ a, a ∈ l → P a).
Proof.
  intros Hf Hr. assert (decides r (∀ (j : nat) a, l !! j = Some a → P a)) as Hd.
  { eapply (each_means (λ _, P)); [|done]. intros j a x Hj. apply Hf. by eapply list_elem_of_lookup_2. }
  unfold decides in *. rewrite Hd. split; intros Hall.
  - intros a (j & Hj)%list_elem_of_lookup_1. by eapply Hall.
  - intros j a Hj%list_elem_of_lookup_2. by apply Hall.
Qed.

(** *** Single values *)

Lemma bind_ok {A B} (a : res A) (f : A → res B) y : a ≫= f = ok y → ∃ x, a = ok x ∧ f x = ok y.
Proof. destruct a; try done. eauto. Qed.

Lemma report_means path probe c r P : (∀ x, c = ok x → decides x P) → report path probe c = ok r → decides r P.
Proof.
  intros Hc (m & -> & Hm)%bind_ok. specialize (Hc m eq_refl). unfold decides in *.
  destruct m; injection Hm as <-; naive_solver.
Qed.

(** Splits a check on its tests and compares what is left. *)
Ltac split_check :=
  repeat match goal with
  | H : context [if negb ?b then _ else _] |- _ => destruct b eqn:?; simpl negb in H; cbv iota in H
  | H : ok _ = ok _ |- _ => injection H as <-
  | H : (_ ≫= _) = ok _ |- _ => apply bind_ok in H as (? & ? & ?)
  end.

Lemma decides_true {A} (P : Prop) : P → decides (A := A) None P.
Proof. done. Qed.
Lemma decides_false {A} (P : Prop) (e : A) : ¬ P → decides (Some e) P.
Proof. intros HP. split; [done|]. by intros ?%HP. Qed.
Lemma decides_if {A} (b : bool) (e : A) (P : Prop) : (b = true ↔ P) → decides (if b then None else Some e) P.
Proof. destruct b; intros HP; [apply decides_true|apply decides_false]; naive_solver. Qed.

Lemma base_means st h p k v r V :
  match k with
  | SCHEMA_NULL | SCHEMA_BOOL | SCHEMA_INT | SCHEMA_REAL | SCHEMA_COMPLEX | SCHEMA_UINT | SCHEMA_NUMBER | SCHEMA_BYTE
  | SCHEMA_UBYTE | SCHEMA_STR => True
  | _ => False
  end → validate_base st h p k v = ok r → decides r (sat V st h p k v).
Proof.
  intros Hk (o & Ho & (b & Hb & Hr)%bind_ok)%bind_ok. injection Hr as <-.
  assert (∀ t, goc_schema_for_tag (goc_schema_boxed_type o) = Some t → goc_schema_is_a st (Some t) (Some p) = ok b →
    b = true ↔ ∃ o' t', view h v = ok o' ∧ goc_schema_for_tag (goc_schema_boxed_type o') = Some t' ∧ goc_schema_is_a st (Some t') (Some p) = ok true) as Htag.
  { intros t Ht Ha. rewrite Ho. split; [intros ->; eauto|]. intros (o' & t' & [= <-] & ? & ?). congruence. }
  assert (goc_schema_for_tag (goc_schema_boxed_type o) = None → b = false →
    b = true ↔ ∃ o' t', view h v = ok o' ∧ goc_schema_for_tag (goc_schema_boxed_type o') = Some t' ∧ goc_schema_is_a st (Some t') (Some p) = ok true) as Hno.
  { intros Ht ->. rewrite Ho. split; [done|]. intros (o' & t' & [= <-] & ? & ?). congruence. }
  apply decides_if. destruct k; try done; simpl in *;
    try (destruct (goc_schema_for_tag _) eqn:Ht; [by apply (Htag p0)|apply Hno; congruence]).
  - injection Hb as <-. apply bool_decide_eq_true.
  - injection Hb as <-. unfold as_bool. rewrite Ho. by case_match; split.
  - injection Hb as <-. rewrite Ho. split; [eauto|]. by intros (? & [= <-] & ?).
Qed.

Lemma as_str_no h v o : view h v = ok o → goc_schema_is_string o = false → as_str h v = None.
Proof. intros Ho Hs. unfold as_str. rewrite Ho. by destruct o as [[]|]. Qed.
Lemma as_str_yes h v o s : view h v = ok o → str_of o = ok s → as_str h v = Some s.
Proof. intros Ho Hs. unfold as_str. rewrite Ho. destruct o as [[]|]; try done. by injection Hs as ->. Qed.
Lemma as_str_view h v s : as_str h v = Some s ↔ ∃ o, view h v = ok o ∧ str_of o = ok s.
Proof.
  split.
  - unfold as_str. destruct (view h v) as [o| | |]; try done. destruct o as [[]|]; try done. intros [= ->]. by eexists.
  - intros (o & Ho & Hs). by eapply as_str_yes.
Qed.

(** A value that is not of the type the kind asks for. *)
Ltac wrong_type Hr := injection Hr as <-; apply decides_false; naive_solver.

Lemma const_means h k v r V st p :
  match k with SCHEMA_BOOL_CONST _ | SCHEMA_INT_CONST _ | SCHEMA_REAL_CONST _ | SCHEMA_STR_CONST _ => True | _ => False end →
  validate_const h k v = ok r → decides r (sat V st h p k v).
Proof.
  intros Hk (o & Ho & Hr)%bind_ok. destruct k; try done; simpl in Hr |- *; unfold as_bool, as_int, as_double; try rewrite Ho.
  - destruct (goc_schema_is_boxed_bool o); simpl in Hr; [|wrong_type Hr]. injection Hr as <-.
    apply decides_if. rewrite eqb_true_iff. naive_solver.
  - destruct (goc_schema_is_boxed_int o); simpl in Hr; [|wrong_type Hr]. injection Hr as <-.
    apply decides_if. rewrite Z.eqb_eq. naive_solver.
  - destruct (goc_schema_is_boxed_real o); simpl in Hr; [|wrong_type Hr].
    apply bind_ok in Hr as (x & -> & Hr). injection Hr as <-. apply decides_if. naive_solver.
  - destruct (goc_schema_is_string o) eqn:Hs; simpl in Hr; [|rewrite (as_str_no h v o Ho Hs); wrong_type Hr].
    apply bind_ok in Hr as (x & Hx & Hr). rewrite (as_str_yes h v o x Ho Hx). injection Hr as <-. apply decides_if.
    rewrite bool_decide_eq_true. naive_solver.
Qed.

Lemma int_means h k v r V st p :
  match k with SCHEMA_INT_MIN _ | SCHEMA_INT_MAX _ | SCHEMA_INT_RANGE _ _ | SCHEMA_INT_ENUM _ => True | _ => False end →
  validate_int h k v = ok r → decides r (sat V st h p k v).
Proof.
  intros Hk (o & Ho & Hr)%bind_ok.
  assert (as_int h v = if goc_schema_is_boxed_int o then Some (goc_schema_boxed_signed_value o) else None) as Hi.
  { unfold as_int. by rewrite Ho. }
  destruct (goc_schema_is_boxed_int o); simpl in Hr; [|destruct k; try done; simpl; rewrite Hi; wrong_type Hr].
  destruct k; try done; simpl; rewrite Hi.
  - injection Hr as <-. apply decides_if. rewrite Z.leb_le. naive_solver.
  - injection Hr as <-. apply decides_if. rewrite Z.leb_le. naive_solver.
  - injection Hr as <-. destruct (_ && _) eqn:Hb.
    + apply andb_true_iff in Hb as [?%Z.leb_le ?%Z.leb_le]. apply decides_true. eauto.
    + apply andb_false_iff in Hb. rewrite !Z.leb_gt in Hb. case_match; apply decides_false; intros (? & [= <-] & ?); lia.
  - apply bind_ok in Hr as (b & Hb%find_means & Hr).
    assert (b = true ↔ ∃ z c o', Some (goc_schema_boxed_signed_value o) = Some z ∧ c ∈ vals ∧ view h c = ok o' ∧ goc_schema_boxed_signed_value o' = z) as Hb'.
    { rewrite Hb. split.
      - intros (c & Hc & (oc & Hoc & [= Heq%Z.eqb_eq])%bind_ok). eauto 7.
      - intros (z & c & oc & [= <-] & Hc & Hoc & Heq). exists c. split; [done|]. rewrite Hoc. simpl. f_equal. by apply Z.eqb_eq. }
    destruct b; [injection Hr as <-; apply decides_true; by apply Hb'|].
    apply bind_ok in Hr as (c & _ & (oc & _ & Hr)%bind_ok). injection Hr as <-. apply decides_false. naive_solver.
Qed.

Lemma real_means h k v r V st p :
  match k with
  | SCHEMA_REAL_MIN _ | SCHEMA_REAL_MAX _ | SCHEMA_REAL_RANGE _ _ | SCHEMA_REAL_EX_MIN _ | SCHEMA_REAL_EX_MAX _
  | SCHEMA_REAL_MULTIPLE _ => True
  | _ => False
  end → validate_real h k v = ok r → decides r (sat V st h p k v).
Proof.
  intros Hk (o & Ho & Hr)%bind_ok.
  assert (as_real h v = if goc_schema_is_boxed_real o then Some (goc_schema_boxed_real_value o) else None) as Hi.
  { unfold as_real. by rewrite Ho. }
  destruct (goc_schema_is_boxed_real o); simpl in Hr; [|destruct k; try done; simpl; rewrite Hi; wrong_type Hr].
  destruct k; try done; simpl; rewrite Hi; injection Hr as <-; try (apply decides_if; naive_solver).
  destruct (_ && _) eqn:Hb.
  - apply andb_true_iff in Hb as []. apply decides_true. eauto.
  - case_match; apply decides_false; intros (? & [= <-] & Hlo & Hhi); by rewrite Hlo, Hhi in Hb.
Qed.

Lemma str_means h k v r V st p :
  match k with
  | SCHEMA_STR_MIN_LEN _ | SCHEMA_STR_MAX_LEN _ | SCHEMA_STR_LEN _ _ | SCHEMA_STR_PATTERN _ | SCHEMA_STR_ENUM _
  | SCHEMA_STR_FORMAT _ => True
  | _ => False
  end → validate_str h k v = ok r → decides r (sat V st h p k v).
Proof.
  intros Hk (o & Ho & Hr)%bind_ok.
  destruct (goc_schema_is_string o) eqn:Hs; simpl in Hr;
    [|pose proof (as_str_no h v o Ho Hs) as Hn; destruct k; try done; simpl; rewrite Hn; wrong_type Hr].
  apply bind_ok in Hr as (s & Hx & Hr). pose proof (as_str_yes h v o s Ho Hx) as Hy.
  destruct k; try done; simpl; rewrite Hy.
  - injection Hr as <-. apply decides_if. rewrite Z.leb_le. naive_solver.
  - injection Hr as <-. apply decides_if. rewrite Z.leb_le. naive_solver.
  - injection Hr as <-. apply decides_if. rewrite andb_true_iff, !Z.leb_le. naive_solver.
  - injection Hr as <-. apply decides_if. naive_solver.
  - apply bind_ok in Hr as (b & Hb%find_means & Hr).
    assert (b = true ↔ ∃ s' c, Some s = Some s' ∧ c ∈ vals ∧ as_str h c = Some s') as Hb'.
    { rewrite Hb. split.
      - intros (c & Hc & (oc & Hoc & (sc & Hsc & [= Heq%bool_decide_eq_true])%bind_ok)%bind_ok). exists s, c. subst.
        split_and!; [done|done|]. apply as_str_view. eauto.
      - intros (z & c & [= <-] & Hc & (oc & Hoc & Hsc)%as_str_view). exists c. split; [done|].
        rewrite Hoc. simpl. rewrite Hsc. simpl. f_equal. by apply bool_decide_eq_true. }
    destruct b; [injection Hr as <-; apply decides_true; by apply Hb'|].
    apply bind_ok in Hr as (c & _ & (oc & _ & (sc & _ & Hr)%bind_ok)%bind_ok). injection Hr as <-. apply decides_false. naive_solver.
  - destruct regex; injection Hr as <-; [apply decides_if|apply decides_true]; naive_solver.
Qed.

(** *** Parts of values *)

Section Means.
Context (rec : sref → vref → string → bool → verdict) (V : sref → vref → Prop).
Context (Hrec : ∀ s v path probe r, rec s v path probe = ok r → decides r (V s v)).
Context (HV : ∀ v, ¬ V None v).

Lemma probe_means s v b : goc_schema_probe rec s v = ok b → (b = true ↔ V s v).
Proof.
  unfold goc_schema_probe. destruct s as [s|]; [|intros [= <-]; split; [done|by intros ?%HV]].
  intros (r & Hr%Hrec & Hb)%bind_ok. injection Hb as <-. unfold decides in Hr. destruct r; naive_solver.
Qed.

Lemma each_elem_means e path probe l r : each_elem rec e path probe l = ok r → decides r (∀ x, x ∈ l → V e x).
Proof. apply each_means_in. intros j a x _. apply Hrec. Qed.

Lemma equal_later_means (D : vref → vref → Prop) q a j l r :
  (∀ x y b, q x y = ok b → (b = false ↔ D x y)) → equal_later q a j l = ok r → decides r (∀ b, b ∈ l → D a b).
Proof.
  intros Hq. revert j r. induction l as [|b l IH]; simpl; intros j r Hr.
  - injection Hr as <-. apply decides_true. by intros ? []%elem_of_nil.
  - apply bind_ok in Hr as (c & Hc%Hq & Hr). destruct c.
    + injection Hr as <-. apply decides_false. intros Hall. assert (D a b) as HD%Hc; [|done]. apply Hall, elem_of_cons. by left.
    + apply IH in Hr. unfold decides in *. rewrite Hr. split; intros Hall x Hx; [|by apply Hall, elem_of_cons; right].
      apply elem_of_cons in Hx as [->|Hx]; [by apply Hc|auto].
Qed.

Lemma duplicate_means (D : vref → vref → Prop) q i l r :
  (∀ x y b, q x y = ok b → (b = false ↔ D x y)) → duplicate q i l = ok r →
  decides r (∀ i j a b, (i < j)%nat → l !! i = Some a → l !! j = Some b → D a b).
Proof.
  intros Hq. revert i r. induction l as [|a l IH]; simpl; intros i r Hr; [injection Hr as <-; by apply decides_true|].
  apply bind_ok in Hr as (c & Hc & Hr). eapply equal_later_means in Hc; [|done]. destruct c as [j|].
  - injection Hr as <-. apply decides_false. intros Hall.
    assert (Some j = None) as ?; [|done]. apply Hc. intros b (k & Hk)%list_elem_of_lookup_1. apply (Hall 0%nat (S k)); [lia|done|done].
  - apply IH in Hr. unfold decides in *. rewrite Hr. split; intros Hall i' j' x y Hij Hx Hy.
    + destruct j' as [|j']; [lia|]. destruct i' as [|i']; simpl in *.
      * injection Hx as <-. apply Hc; [done|]. by eapply list_elem_of_lookup_2.
      * apply (Hall i' j'); [lia|done|done].
    + apply (Hall (S i') (S j')); [lia|done|done].
Qed.

Lemma tuple_means items add path probe l r :
  validate_tuple rec items add path probe l = ok r →
  decides r ((∀ i s, items !! i = Some s → ∃ x, l !! i = Some x ∧ V s x) ∧ ∀ i x, (length items <= i)%nat → l !! i = Some x → V add x).
Proof.
  unfold validate_tuple. match goal with |- (?a ≫= _) = _ → _ => apply (andthen_means a) end.
  - intros x. apply (each_means (λ i s, ∃ x, l !! i = Some x ∧ V s x)).
    intros j s y _ Hy. rewrite Z.add_0_l, Nat2Z.id in Hy. unfold array_get in Hy.
    destruct (l !! j) as [w|]; [|done]. simpl in Hy. apply Hrec in Hy. unfold decides in *. naive_solver.
  - intros x Hx _. destruct (Nat.ltb_spec (length items) (length l)) as [Hlt|Hge].
    + destruct add as [add|].
      * apply (each_means (λ _ w, V (Some add) w)) in Hx; [|intros; by eapply Hrec]. unfold decides in *. rewrite Hx.
        split; [|intros Hall j w; rewrite lookup_drop; apply Hall; lia].
        intros Hall i w Hi Hw. apply (Hall (i - length items)%nat). rewrite lookup_drop. by replace (_ + _)%nat with i by lia.
      * injection Hx as <-. apply decides_false. intros Hall.
        destruct (lookup_lt_is_Some_2 l (length items) Hlt) as [w Hw]. eapply HV, Hall; [|done]. lia.
    + injection Hx as <-. apply decides_true. intros i w Hi Hw%lookup_lt_Some. lia.
Qed.

Lemma key_name_means (opts : @goc_schema_dict_opts X) path probe k r :
  check_key_name rec opts path probe k = ok r → decides r (property_names opts = None ∨ V (property_names opts) (VKey k)).
Proof.
  unfold check_key_name. destruct (property_names opts) as [pn|]; [|intros [= <-]; apply decides_true; by left].
  intros (e & He%Hrec & Hr)%bind_ok. unfold decides in *. destruct e as [[]|]; try done; injection Hr as <-; naive_solver.
Qed.

Lemma contains_exists fields k : existsb (λ f, bool_decide (f_key f = k)) fields = true ↔ ∃ f, f ∈ fields ∧ f_key f = k.
Proof.
  rewrite existsb_exists. split; intros (f & Hf & Hk); exists f; rewrite list_elem_of_In in *; [by apply bool_decide_eq_true in Hk|].
  split; [done|]. by apply bool_decide_eq_true.
Qed.

Lemma dict_fits_means (opts : @goc_schema_dict_opts X) n :
  dict_fits opts n = true ↔ (min_properties opts = 0 ∨ min_properties opts <= n) ∧ (max_properties opts = 0 ∨ n <= max_properties opts).
Proof.
  unfold dict_fits. destruct (Z.eqb_spec (min_properties opts) 0), (Z.eqb_spec (max_properties opts) 0),
    (Z.ltb_spec n (min_properties opts)), (Z.ltb_spec (max_properties opts) n); simpl; split; try done; try lia; auto.
Qed.

Lemma key_means (opts : @goc_schema_dict_opts X) path probe kvs k r :
  check_key rec kvs opts path probe k = ok r →
  decides r ((property_names opts = None ∨ V (property_names opts) (VKey k)) ∧
    ∀ prop, prop ∈ default [] (pattern_props opts) → ∀ regex, pp_regex prop = Some regex → regexec regex k = true →
      V (pp_schema prop) (dict_get kvs k)).
Proof.
  apply (andthen_means (check_key_name rec opts path probe k)); [intros x; apply key_name_means|].
  intros x Hx _. destruct (pattern_props opts) as [props|]; [|injection Hx as <-; apply decides_true; by intros ? []%elem_of_nil].
  revert Hx. apply each_means_in. intros _ prop y _. unfold check_pattern.
  destruct (pp_regex prop) as [regex|]; [|done]. destruct (regexec regex k) eqn:Hm.
  - intros Hy%Hrec. unfold decides in *. naive_solver.
  - intros [= <-]. apply decides_true. intros ? [= <-]. congruence.
Qed.

Lemma field_means kvs path probe f r :
  check_field rec kvs path probe f = ok r →
  decides r (if bool_decide (dict_get kvs (f_key f) = VNull) then f_optional f = true else V (f_schema f) (dict_get kvs (f_key f))).
Proof.
  unfold check_field. case_bool_decide; [|apply Hrec].
  destruct (f_optional f); intros [= <-]; [by apply decides_true|by apply decides_false].
Qed.

Lemma dep_required_means kvs path probe d r :
  check_dep_required kvs path probe d = ok r →
  decides r (dict_contains kvs d.1 = true → ∀ k, k ∈ d.2 → dict_contains kvs k = true).
Proof.
  unfold check_dep_required. destruct (dict_contains kvs d.1); [|intros [= <-]; by apply decides_true].
  intros Hr. apply (each_means_in (λ k, dict_contains kvs k = true)) in Hr; [unfold decides in *; naive_solver|].
  intros _ k y _. destruct (dict_contains kvs k); intros [= <-]; [by apply decides_true|by apply decides_false].
Qed.

Lemma dep_schema_means kvs v path probe d r :
  check_dep_schema rec kvs v path probe d = ok r → decides r (dict_contains kvs d.1 = true → V d.2 v).
Proof.
  unfold check_dep_schema. destruct (dict_contains kvs d.1); [|intros [= <-]; by apply decides_true].
  intros Hr%Hrec. unfold decides in *. naive_solver.
Qed.

Lemma strict_means fields path probe (kvs : list (string * vref)) (b : bool) r :
  (if b then each (λ _ kv, check_known fields path probe kv.1) 0 kvs else ok None) = ok r →
  decides r (b = true → ∀ kv, kv ∈ kvs → ∃ f, f ∈ fields ∧ f_key f = kv.1).
Proof.
  destruct b; [|intros [= <-]; by apply decides_true]. intros Hr.
  apply (each_means_in (λ kv : string * vref, ∃ f, f ∈ fields ∧ f_key f = kv.1)) in Hr; [unfold decides in *; naive_solver|].
  intros _ kv w _. unfold check_known. destruct (existsb _ fields) eqn:He; intros [= <-].
  - apply decides_true. by apply contains_exists.
  - apply decides_false. intros ?%contains_exists. congruence.
Qed.

Lemma dict_means fields opts v path probe kvs r :
  validate_dict rec fields opts v path probe kvs = ok r → decides r (dict_sat V fields opts v kvs).
Proof.
  unfold validate_dict. destruct (dict_fits opts _) eqn:Hfit; simpl.
  2:{ intros [= <-]. apply decides_false. intros (Hmin & Hmax & _).
      assert (dict_fits opts (Z.of_nat (length kvs)) = true) by (by apply dict_fits_means). congruence. }
  apply dict_fits_means in Hfit as [Hmin Hmax]. intros Hr.
  assert (decides r
    ((∀ kv, kv ∈ kvs → (property_names opts = None ∨ V (property_names opts) (VKey kv.1)) ∧
        ∀ prop, prop ∈ default [] (pattern_props opts) → ∀ regex, pp_regex prop = Some regex → regexec regex kv.1 = true →
          V (pp_schema prop) (dict_get kvs kv.1)) ∧
     (∀ f, f ∈ fields → if bool_decide (dict_get kvs (f_key f) = VNull) then f_optional f = true else V (f_schema f) (dict_get kvs (f_key f))) ∧
     (strict opts = true → ∀ kv, kv ∈ kvs → ∃ f, f ∈ fields ∧ f_key f = kv.1) ∧
     (∀ d, d ∈ default [] (dep_required opts) → dict_contains kvs d.1 = true → ∀ k, k ∈ d.2 → dict_contains kvs k = true) ∧
     (∀ d, d ∈ default [] (dep_schemas opts) → dict_contains kvs d.1 = true → V d.2 v))) as Hd.
  { revert Hr. apply andthen_means; [intros x; apply each_means_in; intros _ kv y _; apply key_means|intros x Hx _; revert Hx].
    apply andthen_means; [intros y; apply each_means_in; intros _ f z _; apply field_means|intros y Hy _; revert Hy].
    apply andthen_means; [intros z; apply strict_means|intros z Hz _; revert Hz].
    apply andthen_means; [intros w; apply each_means_in; intros _ d u _; apply dep_required_means|intros w Hw _; revert Hw].
    apply each_means_in. intros _ d u _. apply dep_schema_means. }
  unfold decides in *. rewrite Hd. unfold dict_sat. clear Hr Hd. split.
  - intros (Hk & Hf & Hs & Hq & He). split_and!; auto.
    + intros k x Hkx. apply (Hk (k, x) Hkx).
    + intros k x prop regex Hkx ???. by eapply (Hk (k, x) Hkx).
    + intros Hst k x Hkx. apply (Hs Hst (k, x) Hkx).
  - intros (_ & _ & Hn & Hp & Hf & Hs & Hq & He). split_and!; auto.
    + intros [k x] Hkx. split; [by eapply Hn|]. intros. by eapply Hp.
    + intros Hst [k x] Hkx. by eapply Hs.
Qed.

Lemma array_means h v path probe k r (P : list vref → Prop) :
  (∀ l r, k l = ok r → decides r (P l)) → goc_schema_validate_array h v path probe k = ok r →
  decides r (∃ l, as_list h v = Some l ∧ P l).
Proof.
  intros Hk (o & Ho & Hr)%bind_ok. unfold as_list. rewrite Ho.
  destruct o as [[]|]; try wrong_type Hr. destruct (goc_schema_is_goc_array _); [|wrong_type Hr].
  apply Hk in Hr. unfold decides in *. naive_solver.
Qed.
Lemma object_means h v path probe k r (P : list (string * vref) → Prop) :
  (∀ l r, k l = ok r → decides r (P l)) → goc_schema_validate_object h v path probe k = ok r →
  decides r (∃ l, as_dict h v = Some l ∧ P l).
Proof.
  intros Hk (o & Ho & Hr)%bind_ok. unfold as_dict. rewrite Ho.
  destruct o as [[]|]; try wrong_type Hr. destruct (goc_schema_is_goc_dict _); [|wrong_type Hr].
  apply Hk in Hr. unfold decides in *. naive_solver.
Qed.
Lemma kind_means q st h p k v path probe r :
  (∀ x y b, q x y = ok b → (b = false ↔ different h x y)) →
  validate_kind rec q st h p k v path probe = ok r → decides r (sat V st h p k v).
Proof.
  intros Hq. destruct k; unfold validate_kind;
    try (by apply report_means; intros; apply base_means); try (by apply report_means; intros; eapply const_means);
    try (by apply report_means; intros; eapply int_means); try (by apply report_means; intros; eapply real_means);
    try (by apply report_means; intros; eapply str_means).
  - intros [= <-]. by apply decides_true.
  - apply (array_means h v path probe _ r (λ l, ∀ x, x ∈ l → V elem x)). intros l r'. apply each_elem_means.
  - apply (array_means h v path probe _ r (λ l, min <= Z.of_nat (length l) <= max ∧ ∀ x, x ∈ l → V elem x)). intros l r'.
    destruct (Z.ltb_spec (Z.of_nat (length l)) min); simpl; [intros [= <-]; apply decides_false; lia|].
    destruct (Z.ltb_spec max (Z.of_nat (length l))); [intros [= <-]; apply decides_false; lia|].
    intros Hr%each_elem_means. unfold decides in *. rewrite Hr. split; [split; [lia|done]|by intros []].
  - apply (array_means h v path probe _ r (λ l, (∀ x, x ∈ l → V elem x) ∧ ∀ i j a b, (i < j)%nat → l !! i = Some a → l !! j = Some b → different h a b)).
    intros l r'. apply (andthen_means (each_elem rec elem path probe l)); [intros x; apply each_elem_means|].
    intros x (d & Hd & Hx)%bind_ok _. eapply duplicate_means in Hd; [|done]. unfold decides in *.
    destruct d as [[]|]; injection Hx as <-; rewrite <- Hd; naive_solver.
  - intros Hr. apply (array_means h v path probe _ r (λ l, (∀ x, x ∈ l → V elem x) ∧ ∃ n, hits (V contains) l n ∧ min_contains <= n ∧ (max_contains = 0 ∨ n <= max_contains))) in Hr.
    + unfold decides in *. rewrite Hr. simpl. naive_solver.
    + intros l r'. apply (andthen_means (each_elem rec elem path probe l)); [intros x; apply each_elem_means|].
      intros x (n & Hn & Hx)%bind_ok _. apply (count_means (V contains)) in Hn; [|intros; by apply probe_means].
      assert (∀ m, hits (V contains) l m → n = m) as Hu by (intros; by eapply hits_fun).
      destruct (Z.ltb_spec n min_contains); [injection Hx as <-; apply decides_false; intros (m & Hm%Hu & ?); lia|].
      destruct (Z.eqb_spec max_contains 0); simpl in Hx; [injection Hx as <-; apply decides_true; eauto|].
      destruct (Z.ltb_spec max_contains n); injection Hx as <-; [apply decides_false; intros (m & Hm%Hu & ?); lia|].
      apply decides_true. eauto.
  - apply (array_means h v path probe _ r (λ l, _ ∧ _)). intros l r'. apply tuple_means.
  - apply object_means. intros l r'. apply dict_means.
  - intros (b & Hb%probe_means & Hr)%bind_ok. simpl. destruct b.
    + assert (V cond v) as Hc by (by apply Hb). destruct then_ as [t|]; [apply Hrec in Hr; unfold decides in *|injection Hr as <-; apply decides_true]; naive_solver.
    + assert (¬ V cond v) as Hc by (intros ?%Hb; done). destruct else_ as [t|]; [apply Hrec in Hr; unfold decides in *|injection Hr as <-; apply decides_true]; naive_solver.
  - intros (n & Hn & Hr)%bind_ok. apply (count_means (λ s, V s v)) in Hn; [|intros; by apply probe_means]. apply hits_pos in Hn as [_ Hn].
    simpl. destruct (Z.ltb_spec 0 n); injection Hr as <-; [apply decides_true; by apply Hn|]. apply decides_false. rewrite <- Hn. lia.
  - intros (n & Hn & Hr)%bind_ok. apply (count_means (λ s, V s v)) in Hn; [|intros; by apply probe_means].
    simpl. destruct (Z.eqb_spec n 1) as [->|Hne]; injection Hr as <-; [by apply decides_true|]. apply decides_false.
    intros Hn'. by apply Hne, (hits_fun _ _ _ _ Hn).
  - apply each_means_in. intros _ s x _. apply Hrec.
  - intros (b & Hb%probe_means & Hr)%bind_ok. simpl. destruct b; injection Hr as <-; [apply decides_false|apply decides_true]; naive_solver.
  - simpl. destruct target as [t|]; [apply Hrec|intros [= <-]; apply decides_false, HV].
  - intros Hr. simpl. destruct (fn v); injection Hr as <-; [by apply decides_true|by apply decides_false].
Qed.
End Means.

(** The values a schema accepts. *)
Definition valid (st : store) (h : heap) (s : sref) (v : vref) : Prop := ∃ fuel, goc_schema_validate fuel st h s v = ok None.

Lemma validate_valid fuel st h s v path probe r : validate fuel st h s v path probe = ok r → decides r (valid st h s v).
Proof.
  intros Hr. destruct s as [p|]; [|by destruct fuel]. split.
  - intros ->. destruct (validate_sim fuel fuel st h ltac:(lia) (Some p) v path "" probe false ltac:(done) None Hr) as (x & Hx & Hs).
    exists fuel. simpl. rewrite Hx. f_equal. by apply Hs.
  - intros (n & Hn). by apply (verdicts_agree _ _ _ _ _ _ _ _ _ _ _ _ Hr Hn).
Qed.

Lemma vals_equal_different fuel h a b c : goc_schema_vals_equal (R := R) fuel h a b = ok c → (c = false ↔ different h a b).
Proof.
  intros Hc. split; [intros ->; by exists fuel|]. intros (n & Hn).
  destruct (vals_equal_mono fuel (Nat.max fuel n) h a b ltac:(lia) _ Hc) as (x & Hx & <-).
  destruct (vals_equal_mono n (Nat.max fuel n) h a b ltac:(lia) _ Hn) as (y & Hy & <-). congruence.
Qed.

(** C4: a verdict says what the schema means.  When validation returns, it returns null
    exactly if the value is valid for the parent schema (which base kinds do not ask for)
    and meets the condition of the schema's own kind, given for every kind by [sat] in terms
    of the values that its parts accept: loops with early returns against quantifiers,
    probing against validity, counting against the number of schemas that accept. *)
Theorem validate_meaning fuel st h p s v path probe r :
  st !! p = Some s → validate fuel st h (Some p) v path probe = ok r →
  r = None ↔ (parent s = None ∨ goc_schema_is_base_kind (kind s) = true ∨ valid st h (parent s) v) ∧ sat (valid st h) st h p (kind s) v.
Proof.
  intros Hs. destruct fuel as [|fuel]; [done|]. simpl. unfold get_schema. rewrite Hs. simpl.
  apply andthen_means.
  - intros x Hx. destruct (parent s) as [q|]; [|injection Hx as <-; apply decides_true; auto].
    destruct (goc_schema_is_base_kind (kind s)); [injection Hx as <-; apply decides_true; auto|].
    apply validate_valid in Hx. unfold decides in *. naive_solver.
  - intros x Hx _. revert Hx. apply kind_means.
    + intros. by eapply validate_valid.
    + intros w (n & Hn). by destruct n.
    + intros. by eapply vals_equal_different.
Qed.

(** ** Base types *)

Definition base_accepts (p : positive) (k : schema_kind) (v : vref) (o : option obj) : bool :=
  match k with
  | SCHEMA_ANY => true
  | SCHEMA_NULL => bool_decide (v = VNull)
  | SCHEMA_STR => goc_schema_is_string o
  | SCHEMA_ARR _ => goc_schema_is_goc_array o
  | SCHEMA_OBJ _ _ => goc_schema_is_goc_dict o
  | SCHEMA_BOOL => goc_schema_is_boxed_bool o
  | _ => bool_decide (p ∈ tag_above (goc_schema_boxed_type o))
  end.

Lemma tag_verdict (t : types (R := R) (X := X)) p (k : schema_kind) q o :
  types_ok t → (p, k, q) ∈ tower → p ≠ s_schema_any →
  match goc_schema_for_tag (goc_schema_boxed_type o) with
  | None => ok false
  | Some ts => goc_schema_is_a (schemas t) (Some ts) (Some p)
  end = ok (bool_decide (p ∈ tag_above (goc_schema_boxed_type o))).
Proof.
  intros Ht Hin Hne. destruct (goc_schema_for_tag (goc_schema_boxed_type o)) as [ts|] eqn:Hts.
  - destruct (is_a_spec (schemas t) ts p (ok_acyclic t Ht) (ok_closed t Ht)) as (b & -> & Hb).
    { destruct (goc_schema_boxed_type o); [done|..]; injection Hts as <-; eapply ptr_singleton; try done; by apply (bool_decide_unpack _). }
    f_equal. rewrite (tower_spec t _ ts p k q Ht Hts Hin Hne) in Hb. case_bool_decide; destruct b; naive_solver.
  - rewrite bool_decide_eq_false_2; [done|]. destruct (goc_schema_boxed_type o); [by intros ?%elem_of_nil|done..].
Qed.

Lemma each_any {A} (f : Z → A → verdict) i l : (∀ j a, f j a = ok None) → each f i l = ok None.
Proof. intros Hf. revert i. induction l as [|a l IH]; intros i; simpl; [done|]. rewrite Hf. apply IH. Qed.

(** C38: the types of values.  In every reachable state each of the thirteen built-in schemas
    accepts exactly the values of its type: numbers by their tag along the tower (a byte is
    an int, a bool is a ubyte, a ubyte a uint, a real a complex, and all are numbers), null,
    strings, arrays and dictionaries by their shape, and [any] everything. *)
Theorem base_types t fuel h p (k : schema_kind) q v o path probe :
  rtc schema_step init_types t → (p, k, q) ∈ tower → view h v = ok o → (2 <= fuel)%nat →
  ∃ r, validate fuel (schemas t) h (Some p) v path probe = ok r ∧ (r = None ↔ base_accepts p k v o = true).
Proof.
  intros Ht%types_reachable_ok Hin Ho Hfuel. destruct fuel as [|[|fuel]]; [lia..|].
  destruct (ok_tower t Ht p k q Hin) as (s & Hs & Hk & _).
  assert (goc_schema_is_base_kind (kind s) = true) as Hbase by (rewrite Hk; clear -Hin; unfold tower in Hin; each_edge Hin; done).
  assert (∀ w pa pr, validate (S fuel) (schemas t) h (Some s_schema_any) w pa pr = ok None) as Hany.
  { intros w pa pr. destruct (ok_tower t Ht s_schema_any SCHEMA_ANY None) as (sa & Hsa & Hka & _); [unfold tower; in_list|].
    simpl. unfold get_schema. rewrite Hsa. simpl. rewrite Hka. simpl. by destruct (parent sa). }
  change (validate (S (S fuel)) (schemas t) h (Some p) v path probe) with
    (s ← get_schema (schemas t) p;
     andthen (match parent s with
              | Some _ => if goc_schema_is_base_kind (kind s) then ok None else validate (S fuel) (schemas t) h (parent s) v path probe
              | None => ok None
              end)
       (validate_kind (validate (S fuel) (schemas t) h) (goc_schema_vals_equal (S fuel) h) (schemas t) h p (kind s) v path probe)).
  unfold get_schema. rewrite Hs. change (ok s ≫= ?f) with (f s). cbv beta. rewrite Hbase.
  assert (∀ b : verdict, andthen (match parent s with Some _ => ok None | None => ok None end) b = b) as -> by (intros; by destruct (parent s)).
  rewrite Hk. assert (∀ msg, ∃ r, fail path msg probe = ok r ∧ (r = None ↔ false = true)) as Hfail by (intros msg; eexists; split; [done|done]).
  assert (∀ (b : bool) msg, ∃ r, report path probe (ok (if b then None else Some msg)) = ok r ∧ (r = None ↔ b = true)) as Hrep.
  { intros [] msg; eexists; (split; [done|]); done. }
  pose proof (tag_verdict t p k q o Ht Hin) as Htag. clear Hk Hbase Hs Ht.
  unfold tower in Hin; each_edge Hin; unfold validate_kind, base_accepts; try (unfold validate_base; rewrite Ho; change (ok o ≫= ?f) with (f o); cbv beta; unfold goc_schema_value_satisfies_base; cbv iota).
  all: try (rewrite Htag by done; apply Hrep).
  - apply Hrep.
  - apply Hrep.
  - apply Hrep.
  - by exists None.
  - unfold goc_schema_validate_array. rewrite Ho. simpl mbind. cbv beta. destruct o as [[]|]; try apply Hfail.
    destruct (goc_schema_is_goc_array _); [|apply Hfail]. exists None. split; [|done]. apply each_any. intros. apply Hany.
  - unfold goc_schema_validate_object. rewrite Ho. simpl mbind. cbv beta. destruct o as [[]|]; try apply Hfail.
    destruct (goc_schema_is_goc_dict _); [|apply Hfail]. exists None. split; [|done]. unfold validate_dict. simpl.
    rewrite each_any; [done|]. done.
Qed.


(** Probing and validating agree.  Where probing a value against a schema returns,
    validating it returns with the same answer, and two runs that both return give the same
    answer whatever their fuel, their paths and their modes. *)
Theorem probe_agrees st h s v fuel r :
  goc_schema_validate_impl fuel st h s v "" true = ok r →
  (∃ r', goc_schema_validate_impl fuel st h s v "" false = ok r' ∧ same r r') ∧
  ∀ fuel' path' probe' r', goc_schema_validate_impl fuel' st h s v path' probe' = ok r' → same r r'.
Proof.
  intros Hr. split.
  - by apply (validate_sim fuel fuel st h ltac:(lia) s v "" "" true false).
  - intros fuel' path' probe' r' Hr'. by apply (verdicts_agree _ _ _ _ _ _ _ _ _ _ _ _ Hr Hr').
Qed.

(** Probing a dictionary whose key has a bad name is undefined.  The message of the
    inner error is read although probing returns no error object but the pointer 1; an
    [any_of], [one_of], [not], [if] or [contains] over such a schema runs into it. *)
Theorem property_names_probe fuel st h p s fields opts v k x kvs e ss :
  st !! p = Some s → kind s = SCHEMA_OBJ fields opts → property_names opts ≠ None →
  as_dict h v = Some ((k, x) :: kvs) → dict_fits opts (Z.of_nat (length ((k, x) :: kvs))) = true →
  validate fuel st h (property_names opts) (VKey k) "" true = ok (Some e) →
  validate (S fuel) st h (Some p) v "" true = ub ∧
  validate_any_of (validate (S fuel) st h) (Some p :: ss) v "" false = ub.
Proof.
  intros Hs Hk Hpn Hd Hfit He.
  assert (validate (S fuel) st h (Some p) v "" true = ub) as Hub.
  { pose proof (validate_located fuel st h (property_names opts) (VKey k) "" true e He) as Hprobe. simpl in Hprobe. subst e.
    simpl. unfold get_schema. rewrite Hs. simpl. rewrite Hk. simpl.
    assert (∀ b : verdict, andthen (match parent s with Some _ => ok None | None => ok None end) b = b) as -> by (intros; by destruct (parent s)).
    unfold as_dict in Hd. unfold goc_schema_validate_object. destruct (view h v) as [o| | |]; try done. simpl.
    destruct o as [[]|]; try done. destruct (goc_schema_is_goc_dict _); [|done]. injection Hd as ->.
    unfold validate_dict. rewrite Hfit. simpl. unfold check_key, check_key_name. destruct (property_names opts); [|done]. by rewrite He. }
  split; [done|]. assert (goc_schema_probe (validate (S fuel) st h) (Some p) v = ub) as Hprb.
  { unfold goc_schema_probe. by rewrite Hub. }
  unfold validate_any_of. change (count_hits ?f (?a :: ?l)) with (b ← f a; n ← count_hits f l; ok (if b : bool then n + 1 else n)).
  cbv beta. by rewrite Hprb.
Qed.

End Props.

(** ** Witnesses: a dictionary with a field "age", which a schema asks to be at least 5. *)

#[local] Existing Instance z_reals.
#[local] Existing Instance literals.

Definition wit1 : types (R := Z) (X := string) := after (goc_schema_int_min 5) init_types.
Definition wit2 : types := after (goc_schema_dict [mk_field "age" (Some 14%positive) false] no_opts) wit1.
Definition wit3 : types :=
  after (goc_schema_dict (X := string) [] (mk_opts false 0 0 (Some 16%positive) None None None))
    (after (goc_schema_str_max_len 2) wit2).

(** {age: 3}, whose box is at address 2. *)
Definition wit_heap : heap := {[ 1%positive := ODict 8 1 [("age", VAddr 2)]; 2%positive := OBox T_INT 4 3 ]}.

Lemma wit_reachable : rtc schema_step init_types wit2.
Proof.
  apply (rtc_l _ _ wit1); [eapply (step_make _ (goc_schema_int_min 5) 14%positive); [apply con_int_min|by vm_compute]|].
  apply rtc_once. eapply (step_make _ (goc_schema_dict [mk_field "age" (Some 14%positive) false] no_opts) 15%positive); [apply con_dict|by vm_compute].
Defined.

Definition wit_schema : goc_schema (R := Z) (X := string) :=
  mk_schema (SCHEMA_OBJ [mk_field "age" (Some 14%positive) false] no_opts) None (Some s_schema_dict) None ∅.

Lemma validate_meaning_witness :
  ¬ ((parent wit_schema = None ∨ goc_schema_is_base_kind (kind wit_schema) = true ∨ valid (schemas wit2) wit_heap (parent wit_schema) (VAddr 1)) ∧
     sat (valid (schemas wit2) wit_heap) (schemas wit2) wit_heap 15%positive (kind wit_schema) (VAddr 1)).
Proof.
  assert (schemas wit2 !! 15%positive = Some wit_schema) as Hs by (by vm_compute).
  assert (goc_schema_validate_impl 5 (schemas wit2) wit_heap (Some 15%positive) (VAddr 1) "" false
          = ok (Some (Error ".age" "expected minimum 5, got 3"))) as Hr by (by vm_compute).
  intros Hsat. pose proof (proj2 (validate_meaning 5 (schemas wit2) wit_heap 15%positive wit_schema (VAddr 1) "" false _ Hs Hr) Hsat) as Hno.
  discriminate Hno.
Defined.

Lemma base_types_witness :
  ∃ r, goc_schema_validate_impl 2 (schemas wit2) wit_heap (Some s_schema_number) (VAddr 2) "" false = ok r ∧ (r = None ↔ true = true).
Proof.
  apply (base_types wit2 2 wit_heap s_schema_number SCHEMA_NUMBER (Some s_schema_any) (VAddr 2) (Some (OBox T_INT 4 3)) "" false wit_reachable);
    [unfold tower; in_list|reflexivity|lia].
Defined.


Lemma probe_agrees_witness :
  ∃ r', goc_schema_validate_impl 5 (schemas wit2) wit_heap (Some 15%positive) (VAddr 1) "" false = ok r' ∧ (Some ProbeError = None ↔ r' = None).
Proof. apply (probe_agrees (schemas wit2) wit_heap (Some 15%positive) (VAddr 1) 5). by vm_compute. Defined.

Definition wit_opts : goc_schema_dict_opts (X := string) := mk_opts false 0 0 (Some 16%positive) None None None.
Definition wit_names : goc_schema (R := Z) (X := string) := mk_schema (SCHEMA_OBJ [] wit_opts) None (Some s_schema_dict) None ∅.

Lemma property_names_probe_witness :
  goc_schema_validate_impl 6 (schemas wit3) wit_heap (Some 17%positive) (VAddr 1) "" true = ub.
Proof.
  assert (schemas wit3 !! 17%positive = Some wit_names) as Hs by (by vm_compute).
  assert (goc_schema_validate_impl 5 (schemas wit3) wit_heap (Some 16%positive) (VKey "age") "" true = ok (Some ProbeError)) as Hr by (by vm_compute).
  assert (as_dict wit_heap (VAddr 1) = Some [("age", VAddr 2)]) as Hd by (by vm_compute).
  refine (proj1 (property_names_probe 5 (schemas wit3) wit_heap 17%positive wit_names [] wit_opts
    (VAddr 1) "age" (VAddr 2) [] ProbeError [] Hs eq_refl _ Hd eq_refl Hr)). discriminate.
Defined.

End SchemaValProps.
