(* ===== verification/SchemaTerm.v ===== *)
(** Termination of validation: recursive schemas are fine as long as every circle of schemas
    goes down into the value, and the value itself is finite. *)

From S2P Require Import Prelude Schema SchemaProps SchemaVal SchemaValProps.

Module SchemaTerm.
Import Schema SchemaProps SchemaVal SchemaValProps.

(** ** Runs that end *)

Definition ends {A} (r : res A) : Prop := r ≠ hang.

Lemma ends_bind {A B} (a : res A) (f : A → res B) : ends a → (∀ x, a = ok x → ends (f x)) → ends (a ≫= f).
Proof. destruct a; try done. intros _ Hf. by apply Hf. Qed.
Lemma ends_ok {A} (a : A) : ends (ok a).
Proof. done. Qed.
Lemma ends_view h v : ends (view h v).
Proof. unfold view. by repeat case_match. Qed.
Lemma ends_get {R X} (st : gmap positive (@goc_schema R X)) p : ends (get_schema st p).
Proof. unfold get_schema. by case_match. Qed.
Lemma ends_fail path msg probe : ends (fail path msg probe).
Proof. done. Qed.
Lemma ends_str o : ends (str_of o).
Proof. unfold str_of. by repeat case_match. Qed.
Lemma ends_array_get {A} (l : list A) i : ends (array_get l i).
Proof. unfold array_get. by case_match. Qed.
Create HintDb ends.
#[export] Hint Resolve ends_ok ends_view ends_get ends_fail ends_str ends_array_get : ends.

Lemma ends_report path probe c : ends c → ends (report path probe c).
Proof. intros Hc. apply ends_bind; [done|]. intros [] _; auto with ends. Qed.
Lemma ends_andthen a b : ends a → ends b → ends (andthen a b).
Proof. intros Ha Hb. apply ends_bind; [done|]. intros [] _; auto with ends. Qed.
Lemma ends_each {A} (f : Z → A → verdict) i l : (∀ j k a, l !! k = Some a → ends (f j a)) → ends (each f i l).
Proof.
  revert i. induction l as [|a l IH]; intros i Hf; simpl; [auto with ends|].
  apply (ends_andthen (f i a)); [by apply (Hf i 0%nat)|]. apply IH. intros j k b Hb. by apply (Hf j (S k)).
Qed.
Lemma ends_find {A} (f : A → res bool) l : (∀ a, ends (f a)) → ends (find_hit f l).
Proof.
  intros Hf. induction l as [|a l IH]; simpl; [auto with ends|]. apply ends_bind; [done|]. intros [] _; auto with ends.
Qed.
Lemma ends_count {A} (f : A → res bool) l : (∀ a, a ∈ l → ends (f a)) → ends (count_hits f l).
Proof.
  induction l as [|a l IH]; intros Hf; simpl; [auto with ends|]. apply ends_bind; [apply Hf; apply elem_of_cons; by left|].
  intros b _. apply ends_bind; [|auto with ends]. apply IH. intros x Hx. apply Hf, elem_of_cons. by right.
Qed.
Lemma ends_equal_later q a j l : (∀ b, b ∈ l → ends (q a b)) → ends (equal_later q a j l).
Proof.
  revert j. induction l as [|b l IH]; intros j Hq; simpl; [auto with ends|]. apply ends_bind; [apply Hq, elem_of_cons; by left|].
  intros [] _; [auto with ends|]. apply IH. intros x Hx. apply Hq, elem_of_cons. by right.
Qed.
Lemma ends_duplicate q i l : (∀ a b, a ∈ l → b ∈ l → ends (q a b)) → ends (duplicate q i l).
Proof.
  revert i. induction l as [|b l IH]; intros i Hq; simpl; [auto with ends|]. apply ends_bind.
  - apply ends_equal_later. intros x Hx. apply Hq; apply elem_of_cons; auto.
  - intros [] _; [auto with ends|]. apply IH. intros x y Hx Hy. apply Hq; apply elem_of_cons; auto.
Qed.
Lemma ends_pairs {A B} (f : A → B → res bool) l k : (∀ a b, a ∈ l → ends (f a b)) → ends (all_pairs f l k).
Proof.
  revert k. induction l as [|a l IH]; intros [|b k] Hf; simpl; auto with ends.
  apply ends_bind; [apply Hf, elem_of_cons; by left|]. intros [] _; [|auto with ends]. apply IH. intros x y Hx. apply Hf, elem_of_cons. by right.
Qed.

Section Term.
Context {R X : Type} `{LongDouble R} `{Regex X}.
Notation schema_kind := (@schema_kind R X).
Notation goc_schema := (@Schema.goc_schema R X).
Notation store := (gmap positive goc_schema).
Notation validate := (@goc_schema_validate_impl R X _ _).

(** The schemas that a schema asks about the same value. *)
Definition beside (s : goc_schema) : list sref :=
  (if goc_schema_is_base_kind (kind s) then [] else [parent s]) ++
  match kind s with
  | SCHEMA_IF c t e => [c; t; e]
  | SCHEMA_ANY_OF ss | SCHEMA_ONE_OF ss | SCHEMA_ALL_OF ss => ss
  | SCHEMA_NOT x | SCHEMA_REF x => [x]
  | SCHEMA_OBJ _ opts => snd <$> default [] (dep_schemas opts)
  | _ => []
  end.

(** Schemas that ask each other about the same value do so in order of rank. *)
Definition guarded (st : store) (rank : positive → nat) (K : nat) : Prop :=
  (∀ p, (rank p <= K)%nat) ∧ ∀ p s q, st !! p = Some s → Some q ∈ beside s → (rank q < rank p)%nat.

(** The elements of an array, the values and the keys of a dictionary are below it. *)
Definition well_founded_heap (h : heap) (height : vref → nat) : Prop :=
  (∀ v l x, as_list h v = Some l → x ∈ l → (height x < height v)%nat) ∧
  (∀ v kvs k, as_dict h v = Some kvs → (height (dict_get kvs k) < height v ∧ height (VKey k) < height v)%nat).

Section Bound.
Context (st : store) (h : heap) (rank : positive → nat) (K : nat) (height : vref → nat).
Context (Hac : acyclic st) (Hg : guarded st rank K) (Hh : well_founded_heap h height).

Lemma ends_is_a c p : ends (goc_schema_is_a st c p).
Proof.
  unfold goc_schema_is_a. destruct c as [c|], p as [p|]; try done. case_bool_decide; [done|].
  apply ends_bind; [auto with ends|]. intros s _ Hl. apply up_hang in Hl as (l & Hn & Hl). by eapply no_hang.
Qed.

Lemma ends_vals_equal fuel a b : (height a < fuel)%nat → ends (goc_schema_vals_equal (R := R) fuel h a b).
Proof.
  revert a b. induction fuel as [|fuel IH]; intros a b Ha; [lia|]. simpl. case_match; [done|]. case_match; [done|].
  apply ends_bind; [auto with ends|]. intros oa Hoa. apply ends_bind; [auto with ends|]. intros ob Hob.
  assert (∀ o, ends (unbox_double_bits o)) as Hu by (intros; unfold unbox_double_bits; by case_match).
  destruct (goc_schema_is_boxed_int oa && _); [done|]. destruct (goc_schema_is_boxed_int_unsigned oa && _); [done|].
  destruct (goc_schema_is_boxed_real oa && _); [apply ends_bind; [done|]; intros; apply ends_bind; done|].
  destruct (goc_schema_is_boxed_complex oa && _); [done|]. destruct (goc_schema_is_boxed_bool oa && _); [done|].
  destruct (goc_schema_is_string oa && _); [apply ends_bind; [auto with ends|]; intros; apply ends_bind; auto with ends|].
  destruct oa as [[| ca ha la|ta oca ka|]|]; try done; destruct ob as [[| cb hb lb|tb ocb kb|]|]; try done.
  - destruct (goc_schema_is_goc_array (Some (OArr ca ha la))) eqn:Harr; [|done]. simpl. case_match; [|done]. case_match; [done|].
    apply ends_pairs. intros x y Hx. apply IH. destruct Hh as [Hl _].
    assert (as_list h a = Some la) as Hla by (unfold as_list; by rewrite Hoa, Harr). specialize (Hl a la x Hla Hx). lia.
  - destruct (goc_schema_is_goc_dict (Some (ODict ta oca ka))) eqn:Hd; [|done]. simpl. case_match; [|done]. case_match; [done|].
    apply ends_pairs. intros x y Hx. apply IH. destruct Hh as [_ Hk].
    assert (as_dict h a = Some ka) as Hka by (unfold as_dict; by rewrite Hoa, Hd). destruct (Hk a ka x.1 Hka). lia.
Qed.

(** *** Kinds *)

(** The fuel that a value and a schema need. *)
Definition need (v : vref) (s : sref) : nat := height v * S (S K) + match s with Some p => S (rank p) | None => 0 end.

Section Rec.
Context (fuel : nat) (rec : sref → vref → string → bool → verdict).
Context (Hrec : ∀ s v path probe, (need v s < fuel)%nat → ends (rec s v path probe)).

Lemma need_below v x s : (height x < height v)%nat → (height v * S (S K) <= fuel)%nat → (need x s < fuel)%nat.
Proof. intros Hx Hv. unfold need. destruct Hg as [HK _]. assert (match s with Some p => S (rank p) | None => 0 end <= S K)%nat by (destruct s as [p|]; [specialize (HK p)|]; lia). nia. Qed.

Lemma ends_probe s v : (need v s < fuel)%nat → ends (goc_schema_probe rec s v).
Proof. intros Hn. unfold goc_schema_probe. destruct s; [|done]. apply ends_bind; [by apply Hrec|]. by intros []. Qed.

Lemma ends_base p k v : ends (validate_base st h p k v).
Proof.
  apply ends_bind; [auto with ends|]. intros o _. apply ends_bind; [|done].
  unfold goc_schema_value_satisfies_base. destruct k; try done; destruct (goc_schema_for_tag _); try done; apply ends_is_a.
Qed.
Lemma ends_const k v : ends (validate_const (R := R) (X := X) h k v).
Proof.
  apply ends_bind; [auto with ends|]. intros o _. destruct k; try done; case_match; try done; apply ends_bind; auto with ends.
  apply ends_bind; [unfold unbox_double_bits; by case_match|done].
Qed.
Lemma ends_int k v : ends (validate_int (R := R) (X := X) h k v).
Proof.
  apply ends_bind; [auto with ends|]. intros o _. case_match; [done|]. destruct k; try done.
  apply ends_bind; [apply ends_find; intros; apply ends_bind; auto with ends|]. intros [] _; [done|].
  apply ends_bind; [auto with ends|]. intros. apply ends_bind; auto with ends.
Qed.
Lemma ends_real k v : ends (validate_real (R := R) (X := X) h k v).
Proof. apply ends_bind; [auto with ends|]. intros o _. case_match; [done|]. by destruct k. Qed.
Lemma ends_string k v : ends (validate_str (R := R) (X := X) h k v).
Proof.
  apply ends_bind; [auto with ends|]. intros o _. case_match; [done|]. apply ends_bind; [auto with ends|]. intros s _.
  destruct k; try done; [|by case_match].
  apply ends_bind; [apply ends_find; intros; apply ends_bind; [auto with ends|]; intros; apply ends_bind; auto with ends|]. intros [] _; [done|].
  apply ends_bind; [auto with ends|]. intros. apply ends_bind; [auto with ends|]. intros. apply ends_bind; auto with ends.
Qed.

Lemma ends_array v path probe k :
  (∀ l, as_list h v = Some l → ends (k l)) → ends (goc_schema_validate_array h v path probe k).
Proof.
  intros Hk. apply ends_bind; [auto with ends|]. intros o Ho. destruct o as [[]|]; try done. case_match eqn:Ha; [|done].
  apply Hk. unfold as_list. by rewrite Ho, Ha.
Qed.
Lemma ends_object v path probe k :
  (∀ l, as_dict h v = Some l → ends (k l)) → ends (goc_schema_validate_object h v path probe k).
Proof.
  intros Hk. apply ends_bind; [auto with ends|]. intros o Ho. destruct o as [[]|]; try done. case_match eqn:Ha; [|done].
  apply Hk. unfold as_dict. by rewrite Ho, Ha.
Qed.

Section Value.
Context (v : vref) (Hv : (height v * S (S K) <= fuel)%nat).

Lemma ends_elems l i elem path probe m :
  as_list h v = Some l → ends (each (λ i x, rec elem x (idx_path path i) probe) i (drop m l)).
Proof.
  intros Hl. apply ends_each. intros j k x Hx. apply Hrec. apply (need_below v); [|done]. destruct Hh as [Hlt _].
  apply (Hlt v l); [done|]. rewrite lookup_drop in Hx. by eapply list_elem_of_lookup_2.
Qed.

Lemma ends_dict fields (opts : @goc_schema_dict_opts X) path probe kvs :
  as_dict h v = Some kvs → (∀ d, d ∈ default [] (dep_schemas opts) → (need v d.2 < fuel)%nat) →
  ends (validate_dict rec fields opts v path probe kvs).
Proof.
  intros Hd Hdep. unfold validate_dict. case_match; [done|]. destruct Hh as [_ Hlt].
  assert (∀ k s, (need (dict_get kvs k) s < fuel)%nat) as Hget by (intros; apply (need_below v); [by apply Hlt|done]).
  assert (∀ k s, (need (VKey k) s < fuel)%nat) as Hkey by (intros; apply (need_below v); [by eapply Hlt|done]).
  repeat apply ends_andthen; try apply ends_each.
  - intros _ _ kv _. apply ends_andthen.
    + unfold check_key_name. case_match; [|done]. apply ends_bind; [apply Hrec, Hkey|]. by intros [[]|] _.
    + case_match; [|done]. apply ends_each. intros _ _ prop _. unfold check_pattern. repeat case_match; try done. apply Hrec, Hget.
  - intros _ _ f _. unfold check_field. repeat case_match; try done. apply Hrec, Hget.
  - case_match; [|done]. apply ends_each. intros _ _ kv _. unfold check_known. by case_match.
  - intros _ _ d _. unfold check_dep_required. case_match; [|done]. apply ends_each. intros. by case_match.
  - intros _ k d Hk. unfold check_dep_schema. case_match; [|done]. apply Hrec, Hdep. by eapply list_elem_of_lookup_2.
Qed.

Lemma ends_kind q p s path probe :
  (∀ a b, (height a < height v)%nat → ends (q a b)) → (∀ x, x ∈ beside s → (need v x < fuel)%nat) →
  ends (validate_kind rec q st h p (kind s) v path probe).
Proof.
  intros Hq Hb. assert (∀ l x, as_list h v = Some l → x ∈ l → (height x < height v)%nat) as Hlt by apply Hh.
  destruct (kind s) eqn:Hk; unfold validate_kind; auto with ends;
    try (apply ends_report; first [apply ends_base|apply ends_const|apply ends_int|apply ends_real|apply ends_string]);
    try (apply ends_array; intros l Hl).
  - by apply (ends_elems l 0 elem path probe 0).
  - case_match; [done|]. by apply (ends_elems l 0 elem path probe 0).
  - apply (ends_andthen (each_elem rec elem path probe l)); [by apply (ends_elems l 0 elem path probe 0)|].
    apply ends_bind; [|by intros [[]|] _]. apply ends_duplicate. intros a b Ha _. apply Hq. by eapply Hlt.
  - apply (ends_andthen (each_elem rec elem path probe l)); [by apply (ends_elems l 0 elem path probe 0)|].
    apply ends_bind; [|intros; by repeat case_match]. apply ends_count. intros a Ha. apply ends_probe. apply (need_below v); [by eapply Hlt|done].
  - unfold validate_tuple. match goal with |- ends (?a ≫= _) => apply (ends_andthen a) end.
    + apply ends_each. intros j k x _. apply ends_bind; [auto with ends|]. intros w Hw. apply Hrec, (need_below v); [|done].
      unfold array_get in Hw. case_match eqn:Hg'; [|done]. injection Hw as <-. eapply Hlt; [done|]. by eapply list_elem_of_lookup_2.
    + repeat case_match; auto with ends. by apply ends_elems.
  - apply ends_object. intros kvs Hd. apply ends_dict; [done|]. intros d Hdd. apply Hb. unfold beside. rewrite Hk. simpl.
    apply list_elem_of_fmap. by exists d.
  - apply ends_bind; [apply ends_probe, Hb; unfold beside; rewrite Hk; set_solver|]. intros b _.
    destruct b; [destruct then_|destruct else_]; auto with ends; apply Hrec, Hb; unfold beside; rewrite Hk; set_solver.
  - apply ends_bind; [|intros; by case_match]. apply ends_count. intros x Hx. apply ends_probe, Hb. unfold beside. rewrite Hk. set_solver.
  - apply ends_bind; [|intros; by case_match]. apply ends_count. intros x Hx. apply ends_probe, Hb. unfold beside. rewrite Hk. set_solver.
  - apply ends_each. intros j k x Hx. apply Hrec, Hb. unfold beside. rewrite Hk. apply list_elem_of_lookup_2 in Hx. set_solver.
  - apply ends_bind; [apply ends_probe, Hb; unfold beside; rewrite Hk; set_solver|]. by intros [] _.
  - destruct target; [|done]. apply Hrec, Hb. unfold beside. rewrite Hk. set_solver.
  - by case_match.
Qed.
End Value.
End Rec.

Lemma validate_ends fuel s v path probe : (need v s < fuel)%nat → ends (validate fuel st h s v path probe).
Proof.
  revert s v path probe. induction fuel as [|fuel IH]; intros s v path probe Hn; [lia|].
  destruct s as [p|]; [|done]. simpl. apply ends_bind; [auto with ends|]. intros sc Hsc.
  unfold get_schema in Hsc. destruct (st !! p) as [sc'|] eqn:Hp; [|done]. injection Hsc as ->.
  assert (∀ x, x ∈ beside sc → (need v x < fuel)%nat) as Hb.
  { intros [q|] Hq; unfold need in *; [|lia]. destruct Hg as [_ Hr]. specialize (Hr p sc q Hp Hq). lia. }
  apply ends_andthen.
  - destruct (parent sc) as [q|] eqn:Hpar; [|done]. destruct (goc_schema_is_base_kind (kind sc)) eqn:Hbase; [done|].
    apply IH, Hb. unfold beside. rewrite Hbase, Hpar. set_solver.
  - eapply (ends_kind fuel); [done|unfold need in Hn; lia| |done]. intros a b Ha. apply ends_vals_equal. unfold need in Hn. nia.
Qed.
End Bound.

(** C37: validation terminates.  In every reachable state, if the schemas that ask each other
    about the same value can be ranked (every circle, as a recursive reference makes it,
    passes through an element, a field or a key) and the value is finite, then validation
    ends with fuel for the height of the value times the number of ranks: it never recurses
    without end. *)
Theorem validate_terminates t h rank K height p v :
  rtc schema_step init_types t → guarded (schemas t) rank K → well_founded_heap h height →
  ∀ fuel, (height v * (K + 2) + rank p + 1 < fuel)%nat → goc_schema_validate fuel (schemas t) h (Some p) v ≠ hang.
Proof.
  intros Ht%types_reachable_ok Hg Hh fuel Hf. apply (validate_ends (schemas t) h rank K height (ok_acyclic t Ht) Hg Hh).
  unfold need. nia.
Qed.
End Term.

(** ** Witness: a tree of comments, whose replies are comments again *)

#[local] Existing Instance z_reals.
#[local] Existing Instance literals.

Definition tree1 : types (R := Z) (X := string) := after goc_schema_ref_make init_types.
Definition tree2 : types := after (goc_schema_arr (Some 14%positive)) tree1.
Definition tree3 : types := after (goc_schema_dict [mk_field "replies" (Some 15%positive) true] no_opts) tree2.
Definition tree4 : types := after (goc_schema_ref_set (Some 14%positive) (Some 16%positive)) tree3.

Lemma tree_reachable : rtc schema_step init_types tree4.
Proof.
  apply (rtc_l _ _ tree1); [apply (step_make _ goc_schema_ref_make 14%positive); [apply con_ref|by vm_compute]|].
  apply (rtc_l _ _ tree2); [apply (step_make _ (goc_schema_arr (Some 14%positive)) 15%positive); [apply con_arr|by vm_compute]|].
  apply (rtc_l _ _ tree3);
    [apply (step_make _ (goc_schema_dict [mk_field "replies" (Some 15%positive) true] no_opts) 16%positive); [apply con_dict|by vm_compute]|].
  apply rtc_once, (step_ref_set _ (Some 14%positive) (Some 16%positive)). by vm_compute.
Defined.

(** Only the reference asks about the same value: about its target and its parent. *)
Definition tree_rank (p : positive) : nat := if decide (p = 14%positive) then 1 else 0.
Lemma tree_guarded : guarded (schemas tree4) tree_rank 1.
Proof.
  split; [intros p; unfold tree_rank; case_decide; lia|].
  assert (Forall (λ x, x.1 = 14%positive ∨ beside x.2 = []) (map_to_list (schemas tree4))) as Hall.
  { vm_compute. repeat (apply Forall_cons; split; [first [by left|by right]|]). apply Forall_nil. done. }
  assert (∀ s q, schemas tree4 !! 14%positive = Some s → Some q ∈ beside s → q ≠ 14%positive) as H14.
  { intros s q Hs. assert (beside s = [Some 11; Some 16]%positive) as -> by (vm_compute in Hs; by injection Hs as <-).
    rewrite !elem_of_cons, elem_of_nil. intros [[= ->]|[[= ->]|[]]]; done. }
  intros p s q Hp Hq. rewrite Forall_forall in Hall. pose proof Hp as Hb%elem_of_map_to_list%Hall. simpl in Hb. destruct Hb as [->|Hb].
  - specialize (H14 s q Hp Hq). clear -H14. unfold tree_rank. rewrite decide_False by done. simpl. lia.
  - rewrite Hb in Hq. clear -Hq. by apply elem_of_nil in Hq.
Qed.

(** A comment with one reply, which has none. *)
Definition tree_heap : heap :=
  {[ 1%positive := ODict 8 1 [("replies", VAddr 2)]; 2%positive := OArr 8 0 [VAddr 3]; 3%positive := ODict 8 0 [] ]}.
Definition tree_height (v : vref) : nat := match v with VAddr 1 => 3 | VAddr 2 => 2 | VAddr 3 => 1 | _ => 0 end.

Lemma tree_finite : well_founded_heap tree_heap tree_height.
Proof.
  assert (∀ p, tree_heap !! p = if decide (p = 1) then Some (ODict 8 1 [("replies", VAddr 2)])
    else if decide (p = 2) then Some (OArr 8 0 [VAddr 3]) else if decide (p = 3) then Some (ODict 8 0 []) else None)%positive as Hl.
  { intros p. unfold tree_heap. repeat case_decide; subst; [done..|]. rewrite !lookup_insert_ne by done. by rewrite lookup_singleton_ne. }
  split.
  - intros [|p|k] l x Hx; unfold as_list in Hx; simpl in Hx; try done. rewrite Hl in Hx. repeat case_decide; subst; try done.
    vm_compute in Hx. injection Hx as <-. intros ->%list_elem_of_singleton. simpl. lia.
  - intros [|p|k'] kvs k Hx; unfold as_dict in Hx; simpl in Hx; try done. rewrite Hl in Hx. repeat case_decide; subst; try done.
    + vm_compute in Hx. injection Hx as <-. unfold dict_get. simpl. case_decide; simpl; lia.
    + vm_compute in Hx. injection Hx as <-. simpl. lia.
Qed.

Lemma validate_terminates_witness : goc_schema_validate 20 (schemas tree4) tree_heap (Some 14%positive) (VAddr 1) ≠ hang.
Proof.
  apply (validate_terminates tree4 tree_heap tree_rank 1 tree_height 14%positive (VAddr 1) tree_reachable tree_guarded tree_finite 20).
  vm_compute. lia.
Defined.

End SchemaTerm.
