(* ===== verification/Json.v ===== *)
(** JSON (goc_json.c): values to JSON and back, driven by schemas.

    The reader and writer of yyjson are parameters: they convert between text and trees of
    JSON nodes.  Callbacks that a program registers are parameters as well; the built-in
    callbacks are function pointers with the names below. *)

From Stdlib Require Import Ascii.
From stdpp Require Import pretty.
From S2P Require Import Prelude Schema SchemaVal.

Module Json.
Import Schema SchemaVal.

(** A node of a yyjson document. *)
Inductive json {R : Type} :=
| JNull | JBool (b : bool) | JUint (z : Z) | JSint (z : Z) | JReal (r : R) | JStr (s : string)
| JArr (l : list json) | JObj (kvs : list (string * json)).
Arguments json : clear implicits.

(** The heap that parsing fills: a new value gets the next address, a container once its
    elements are known. *)
Record jmem := mk_jmem { jheap : heap; jnext : positive }.
Definition alloc (o : obj) : prog jmem vref := λ m,
  ok (VAddr (jnext m), mk_jmem (<[jnext m := o]> (jheap m)) (Pos.succ (jnext m))).

Class YYJson (R : Type) := {
  yyjson_read : string → json R + string;                (* a document or a message *)
  yyjson_write : bool → json R → option string;          (* pretty or not *)
  printf_17g : R → string; printf_p : vref → string;
  double_bits : R → Z
}.

Class Callbacks := {
  to_json_cb : Z → heap → vref → option string;
  read_json_cb : Z → vref → prog jmem vref
}.

(** ** Errors *)

Record goc_json_error := mk_jerror { jpath : string; jmessage : string }.

(** Function pointers of the built-in methods. *)
Definition fn_to_json_null : Z := 1.
Definition fn_to_json_bool : Z := 2.
Definition fn_to_json_byte : Z := 3.
Definition fn_to_json_ubyte : Z := 4.
Definition fn_to_json_int : Z := 5.
Definition fn_to_json_uint : Z := 6.
Definition fn_to_json_real : Z := 7.
Definition fn_to_json_str : Z := 8.
Definition fn_to_json_array : Z := 9.
Definition fn_to_json_dict : Z := 10.
Definition fn_to_json_any : Z := 11.
Definition fn_to_json_complex : Z := 12.
Definition fn_complex_read_json : Z := 13.

(** [goc_unbox] of [n] bytes: null aborts, a shorter payload is read past its end. *)
Definition unbox (n : Z) (o : option obj) : res Z :=
  match o with
  | None => abort "libgoc: goc_unbox: null pointer"
  | Some (OBox _ sz bits) => if sz <? n then ub else ok (bits mod 2 ^ (8 * n))
  | Some _ => ub
  end.
Definition signed (n u : Z) : Z := if u <? 2 ^ (8 * n - 1) then u else u - 2 ^ (8 * n).

(** New containers and what a push or a set makes of their headers. *)
Definition arr_push (o : obj) (v : vref) : obj :=
  match o with
  | OArr cap head l =>
      let len := Z.of_nat (length l) in
      if cap <=? head + len then OArr (cap * 2) ((cap * 2 - len) `div` 4) (l ++ [v]) else OArr cap head (l ++ [v])
  | _ => o
  end.
Fixpoint kvs_set (kvs : list (string * vref)) (key : string) (v : vref) : list (string * vref) :=
  match kvs with
  | [] => [(key, v)]
  | kv :: kvs => if String.eqb kv.1 key then (kv.1, v) :: kvs else kv :: kvs_set kvs key v
  end.
Definition dict_set (o : obj) (key : string) (v : vref) : obj :=
  match o with
  | ODict cap occupied kvs =>
      let '(cap, occupied) := if cap * 3 <? occupied * 4 then (cap * 2, Z.of_nat (length kvs)) else (cap, occupied) in
      ODict cap (if dict_contains kvs key then occupied else occupied + 1) (kvs_set kvs key v)
  | _ => o
  end.
Definition new_arr : obj := OArr 8 2 [].
Definition new_dict : obj := ODict 8 0 [].

Fixpoint strchr (s : string) (c : Ascii.ascii) : bool :=
  match s with EmptyString => false | String a s => Ascii.eqb a c || strchr s c end.

Section Json.
Context {R X : Type} `{LongDouble R} `{Regex X} `{YYJson R} `{Callbacks}.
Notation types := (@Schema.types R X).

(** ** Initialisation *)

Fixpoint set_methods (l : list (positive * string * Z)) : prog types () :=
  match l with
  | [] => mret tt
  | (s, nm, fn) :: l => _ ← goc_schema_method_set (Some s) nm fn; set_methods l
  end.
Definition goc_json_set_methods (schema : sref) (to_json read_json : Z) : prog types () :=
  match schema with
  | None => mret tt
  | Some _ =>
      _ ← (if to_json =? 0 then mret tt else goc_schema_method_set schema "goc_json_to_json" to_json);
      if read_json =? 0 then mret tt else goc_schema_method_set schema "goc_json_read_json" read_json
  end.
Definition goc_json_init_builtin_methods : prog types () :=
  _ ← set_methods
        [(s_schema_null, "_goc_json_to_json", fn_to_json_null); (s_schema_bool, "_goc_json_to_json", fn_to_json_bool);
         (s_schema_byte, "_goc_json_to_json", fn_to_json_byte); (s_schema_ubyte, "_goc_json_to_json", fn_to_json_ubyte);
         (s_schema_int, "_goc_json_to_json", fn_to_json_int); (s_schema_uint, "_goc_json_to_json", fn_to_json_uint);
         (s_schema_real, "_goc_json_to_json", fn_to_json_real); (s_schema_str, "_goc_json_to_json", fn_to_json_str);
         (s_schema_arr, "_goc_json_to_json", fn_to_json_array); (s_schema_dict, "_goc_json_to_json", fn_to_json_dict)];
  _ ← goc_json_set_methods (Some s_schema_complex) fn_to_json_complex fn_complex_read_json;
  goc_schema_method_set (Some s_schema_any) "_goc_json_to_json" fn_to_json_any.

(** [goc_json_method_at]: the method and the schema that has it. *)
Fixpoint method_at_loop (fuel : nat) (st : gmap positive (@goc_schema R X)) (cur : sref) (nm : string) : res (option (Z * positive)) :=
  match cur with
  | None => ok None
  | Some c =>
      match fuel with
      | O => hang
      | S fuel =>
          s ← get_schema st c;
          match methods s !! nm with
          | Some fn => if fn =? 0 then method_at_loop fuel st (parent s) nm else ok (Some (fn, c))
          | None => method_at_loop fuel st (parent s) nm
          end
      end
  end.
Definition goc_json_method_at (st : gmap positive (@goc_schema R X)) (schema : sref) (nm : string) : res (option (Z * positive)) :=
  method_at_loop (S (size st)) st schema nm.

(** ** Serialization

    A node, or an error; [None] is a null node for which no error was set. *)

Definition node : Type := res (json R + option goc_json_error).
Definition jfail (path msg : string) : node := ok (inr (Some (mk_jerror path msg))).

Definition goc_json_double_to_json (v : R) : string :=
  let s := printf_17g v in
  if negb (strchr s "."%char) && negb (strchr s "e"%char) && negb (strchr s "E"%char) then s +:+ ".0" else s.

(** The text of a complex number, and the callback: [goc_unbox(double complex, val)] of 16
    bytes, under the name of the schema that is being serialized. *)
Definition complex_text (schema_name : string) (re im : R) : string :=
  let q := String (Ascii.ascii_of_nat 34) EmptyString in
  "{" +:+ q +:+ "goc_schema" +:+ q +:+ ":" +:+ q +:+ schema_name +:+ q +:+ "," +:+ q +:+ "goc_value" +:+ q
    +:+ ":{" +:+ q +:+ "real" +:+ q +:+ ":" +:+ goc_json_double_to_json re +:+ "," +:+ q +:+ "imag" +:+ q
    +:+ ":" +:+ goc_json_double_to_json im +:+ "}}".
Definition goc_json_to_json_complex (h : heap) (schema_name : option string) (val : vref) : res string :=
  o ← view h val;
  bits ← unbox 16 o;
  ok (complex_text (default "" schema_name) (ld_decode 8 (bits mod WORD)) (ld_decode 8 (bits `div` WORD))).

Definition goc_json_arr_elem_schema (k : @schema_kind R X) : sref :=
  match k with
  | SCHEMA_ARR e | SCHEMA_ARR_LEN e _ _ | SCHEMA_ARR_UNIQUE e | SCHEMA_ARR_CONTAINS e _ _ _ => e
  | _ => None
  end.

Definition goc_json_parse_json_string (path text : string) : node :=
  match yyjson_read text with inl j => ok (inl j) | inr msg => jfail path msg end.

(** A loop that collects the nodes of a container. *)
Fixpoint collect {A B} (f : Z → A → res (B + option goc_json_error)) (i : Z) (l : list A) : res (list B + option goc_json_error) :=
  match l with
  | [] => ok (inl [])
  | a :: l =>
      r ← f i a;
      match r with
      | inr e => ok (inr e)
      | inl b => rs ← collect f (i + 1) l; match rs with inr e => ok (inr e) | inl bs => ok (inl (b :: bs)) end
      end
  end.

Section Rec.
Variable rec : sref → vref → string → node.

Definition goc_json_to_json_array (h : heap) (k : @schema_kind R X) (val : vref) (path : string) : node :=
  o ← view h val;
  match o with
  | Some (OArr _ _ l) =>
      if goc_schema_is_goc_array o then
        let elem_schema := goc_json_arr_elem_schema k in
        if bool_decide (elem_schema = None) || bool_decide (elem_schema = Some s_schema_any) then jfail path "array element type unknown"
        else
          rs ← collect (λ i v, rec elem_schema v (idx_path path i)) 0 l;
          match rs with inl js => ok (inl (JArr js)) | inr e => ok (inr e) end
      else jfail path "expected goc_array for array schema"
  | _ => jfail path "expected goc_array for array schema"
  end.

Definition field_schema (fields : list goc_schema_field) (key : string) : sref :=
  match list_find (λ f, f_key f = key) fields with
  | Some (_, f) => match f_schema f with None => Some s_schema_any | s => s end
  | None => Some s_schema_any
  end.

Definition goc_json_to_json_dict (h : heap) (k : @schema_kind R X) (val : vref) (path : string) : node :=
  o ← view h val;
  match o with
  | Some (ODict _ _ kvs) =>
      if goc_schema_is_goc_dict o then
        match k with
        | SCHEMA_OBJ ((_ :: _) as fields) _ =>
            rs ← collect (λ _ kv, r ← rec (field_schema fields kv.1) kv.2 (key_path path kv.1);
                                  ok (match r with inl j => inl (kv.1, j) | inr e => inr e end)) 0 kvs;
            match rs with inl js => ok (inl (JObj js)) | inr e => ok (inr e) end
        | SCHEMA_OBJ [] _ | SCHEMA_NULL | SCHEMA_BOOL | SCHEMA_INT | SCHEMA_REAL | SCHEMA_COMPLEX | SCHEMA_UINT
        | SCHEMA_NUMBER | SCHEMA_BYTE | SCHEMA_UBYTE | SCHEMA_STR | SCHEMA_ANY => (* no fields, or a zeroed union *)
            jfail path "dictionary schema has no field type information"
        | _ => ub                                       (* another member of the union *)
        end
      else jfail path "expected goc_dict for dict schema"
  | _ => jfail path "expected goc_dict for dict schema"
  end.

(** The internal serializers, by their function pointers. *)
Definition to_json_internal (fn : Z) (h : heap) (k : @schema_kind R X) (val : vref) (path : string) : node :=
  if fn =? fn_to_json_null then ok (inl JNull)
  else if fn =? fn_to_json_bool then o ← view h val; u ← unbox 1 o; ok (inl (JBool (negb (u =? 0))))
  else if fn =? fn_to_json_byte then o ← view h val; u ← unbox 1 o; ok (inl (JSint (signed 1 u)))
  else if fn =? fn_to_json_ubyte then o ← view h val; u ← unbox 1 o; ok (inl (JUint u))
  else if fn =? fn_to_json_int then o ← view h val; u ← unbox 8 o; ok (inl (JSint (signed 8 u)))
  else if fn =? fn_to_json_uint then o ← view h val; u ← unbox 8 o; ok (inl (JUint u))
  else if fn =? fn_to_json_real then o ← view h val; u ← unbox 8 o; ok (inl (JReal (ld_decode 8 u)))
  else if fn =? fn_to_json_str then
    o ← view h val;
    match o with None => ok (inr None) | _ => s ← str_of o; ok (inl (JStr s)) end
  else if fn =? fn_to_json_any then ok (inl (JStr (printf_p val)))
  else if fn =? fn_to_json_array then goc_json_to_json_array h k val path
  else if fn =? fn_to_json_dict then goc_json_to_json_dict h k val path
  else ub.

End Rec.

Fixpoint goc_json_serialize_value (fuel : nat) (t : types) (h : heap) (schema : sref) (val : vref) (path : string) : node :=
  match fuel with
  | O => hang
  | S fuel =>
      match schema with
      | None => jfail path "schema is required"
      | Some p =>
          s ← get_schema (schemas t) p;
          method ← goc_schema_method_get (schemas t) schema "goc_json_to_json";
          match method with
          | Some fn =>
              text ← (if fn =? fn_to_json_complex then s ← goc_json_to_json_complex h (name s) val; ok (Some s) else ok (to_json_cb fn h val));
              match text with
              | None => jfail path "to_json callback returned NULL"
              | Some text => goc_json_parse_json_string path text
              end
          | None =>
              internal ← goc_json_method_at (schemas t) schema "_goc_json_to_json";
              match internal with
              | Some (fn, _) => to_json_internal (goc_json_serialize_value fuel t h) fn h (kind s) val path
              | None => jfail path "no serializer registered for schema"
              end
          end
      end
  end.

Definition goc_json_stringify_internal (fuel : nat) (t : types) (h : heap) (schema : sref) (val : vref) (pretty : bool)
    : res (string + goc_json_error) :=
  match schema with
  | None => ok (inr (mk_jerror "" "schema is required"))
  | Some _ =>
      e ← goc_schema_validate fuel (schemas t) h schema val;
      match e with
      | Some _ => ok (inr (mk_jerror (goc_schema_error_path e) (goc_schema_error_message e)))
      | None =>
          root ← goc_json_serialize_value fuel t h schema val "";
          match root with
          | inr (Some e) => ok (inr e)
          | inr None => ok (inr (mk_jerror "" "serialization failed"))
          | inl j =>
              match yyjson_write pretty j with
              | None => ok (inr (mk_jerror "" "JSON write failed"))
              | Some text => ok (inl text)
              end
          end
      end
  end.
Definition goc_json_stringify (fuel : nat) (t : types) (h : heap) (schema : sref) (val : vref) :=
  goc_json_stringify_internal fuel t h schema val false.
Definition goc_json_stringify_pretty (fuel : nat) (t : types) (h : heap) (schema : sref) (val : vref) :=
  goc_json_stringify_internal fuel t h schema val true.

(** ** Parsing *)

Definition box (ty : goc_boxed_type) (size bits : Z) : prog jmem vref := alloc (OBox ty size bits).

(** [goc_dict_get_unboxed(double, d, key, 0.0)] *)
Definition get_unboxed_double (h : heap) (kvs : list (string * vref)) (key : string) : res R :=
  if dict_contains kvs key then o ← view h (dict_get kvs key); bits ← unbox 8 o; ok (ld_decode 8 bits)
  else ok (ld_decode 8 (double_bits ld_0)).

Definition goc_json_complex_read_json (val : vref) : prog jmem vref := λ m,
  o ← view (jheap m) val;
  match o with
  | Some (ODict _ _ kvs) =>
      if goc_schema_is_goc_dict o then
        re ← get_unboxed_double (jheap m) kvs "real"; im ← get_unboxed_double (jheap m) kvs "imag";
        box T_COMPLEX 16 (double_bits re + WORD * double_bits im) m
      else ok (VNull, m)
  | _ => ok (VNull, m)
  end.

(** What a dictionary that was read stands for: itself, or the value of a tagged object. *)
Definition tagged (fuel : nat) (t : types) (kvs : list (string * vref)) (dict : vref) : prog jmem (vref + goc_json_error) := λ m,
  o ← view (jheap m) (dict_get kvs "goc_schema");
  if negb (goc_schema_is_string o) then ok (inl dict, m)
  else
    nm ← str_of o;
    match goc_schema_lookup t nm with
    | None => ok (inl dict, m)
    | Some p =>
        read_fn ← goc_schema_method_get (schemas t) (Some p) "goc_json_read_json";
        match read_fn with
        | None => ok (inl dict, m)
        | Some fn =>
            let goc_value := dict_get kvs "goc_value" in
            '(result, m) ← (if fn =? fn_complex_read_json then goc_json_complex_read_json goc_value m else read_json_cb fn goc_value m);
            e ← goc_schema_validate fuel (schemas t) (jheap m) (Some p) result;
            match e with
            | None => ok (inl result, m)
            | Some _ =>
                sn ← goc_schema_name (schemas t) (Some p);
                ok (inr (mk_jerror "" ("tagged object parse failed for schema '" +:+ default "<unnamed>" sn +:+ "'")), m)
            end
        end
    end.

Fixpoint goc_json_value_from_yyjson (fuel : nat) (t : types) (j : json R) : prog jmem (vref + goc_json_error) :=
  match j with
  | JNull => mret (inl VNull)
  | JBool b => v ← box T_BOOL 1 (if b then 1 else 0); mret (inl v)
  | JUint z => v ← box T_UINT 8 z; mret (inl v)
  | JSint z => v ← box T_INT 8 (z mod WORD); mret (inl v)
  | JReal r => v ← box T_REAL 8 (double_bits r); mret (inl v)
  | JStr s => v ← alloc (OStr s); mret (inl v)
  | JArr l =>
      (fix items l (arr : obj) : prog jmem (vref + goc_json_error) :=
         match l with
         | [] => v ← alloc arr; mret (inl v)
         | j :: l =>
             r ← goc_json_value_from_yyjson fuel t j;
             match r with inr e => mret (inr e) | inl v => items l (arr_push arr v) end
         end) l new_arr
  | JObj kvs =>
      (fix fields kvs (dict : obj) : prog jmem (vref + goc_json_error) :=
         match kvs with
         | [] =>
             v ← alloc dict;
             tagged fuel t (match dict with ODict _ _ kvs => kvs | _ => [] end) v
         | (key, j) :: kvs =>
             r ← goc_json_value_from_yyjson fuel t j;
             match r with inr e => mret (inr e) | inl v => fields kvs (dict_set dict key v) end
         end) kvs new_dict
  end.

Definition goc_json_parse (fuel : nat) (t : types) (text : string) : prog jmem (vref + goc_json_error) :=
  match yyjson_read text with
  | inr msg => mret (inr (mk_jerror "" msg))
  | inl j => goc_json_value_from_yyjson fuel t j
  end.

End Json.
End Json.
