(* ===== verification/JsonProps.v ===== *)
(** Theorems on JSON: what is written and read back, and what is not written. *)

From stdpp Require Import pretty.
From S2P Require Import Prelude Schema SchemaProps SchemaVal Json.

Module JsonProps.
Import Schema SchemaProps SchemaVal Json.

Section Props.
Context {R X : Type} `{LongDouble R} `{Regex X} `{YYJson R} `{Callbacks}.
Notation json := (json R).
Notation types := (@Schema.types R X).

(** ** Trees *)

Section JsonInd.
Context (P : json → Prop).
Context (Hnull : P JNull) (Hbool : ∀ b, P (JBool b)) (Huint : ∀ z, P (JUint z)) (Hsint : ∀ z, P (JSint z)).
Context (Hreal : ∀ r, P (JReal r)) (Hstr : ∀ s, P (JStr s)).
Context (Harr : ∀ l, Forall P l → P (JArr l)) (Hobj : ∀ kvs, Forall (λ kv, P kv.2) kvs → P (JObj kvs)).
Fixpoint json_ind' (j : json) : P j :=
  match j with
  | JNull => Hnull | JBool b => Hbool b | JUint z => Huint z | JSint z => Hsint z | JReal r => Hreal r | JStr s => Hstr s
  | JArr l => Harr l ((fix go l := match l return Forall P l with [] => Forall_nil_2 P | j :: l => Forall_cons_2 P j l (json_ind' j) (go l) end) l)
  | JObj kvs =>
      Hobj kvs ((fix go kvs := match kvs return Forall (λ kv : string * json, P kv.2) kvs with
                 | [] => Forall_nil_2 _ | kv :: kvs => Forall_cons_2 _ kv kvs (json_ind' kv.2) (go kvs) end) kvs)
  end.
End JsonInd.

(** A number is read back as unsigned unless it is negative. *)
Definition num (z : Z) : json := if 0 <=? z then JUint z else JSint z.
Fixpoint canon (j : json) : json :=
  match j with
  | JSint z => num z
  | JArr l => JArr (map canon l)
  | JObj kvs => JObj (map (λ kv, (kv.1, canon kv.2)) kvs)
  | _ => j
  end.

Lemma canon_idem j : canon (canon j) = canon j.
Proof.
  induction j as [| | |z| | |l IH|kvs IH] using json_ind'; simpl; try done.
  - unfold num. destruct (Z.leb_spec 0 z) as [Hz|Hz]; simpl; [done|]. unfold num. by rewrite (proj2 (Z.leb_gt 0 z) Hz).
  - f_equal. induction IH as [|j l Hj _ IHl]; simpl; [done|]. by rewrite Hj, IHl.
  - f_equal. induction IH as [|[k j] l Hj _ IHl]; simpl in *; [done|]. by rewrite Hj, IHl.
Qed.

(** Numbers in range, distinct keys and, unless [tags] allows them, no tagged objects. *)
Fixpoint plain (tags : bool) (j : json) : Prop :=
  match j with
  | JUint z => 0 <= z < 2 ^ 64
  | JSint z => - 2 ^ 63 <= z < 2 ^ 63
  | JReal r => ld_decode 8 (double_bits r mod 2 ^ 64) = r
  | JArr l => (fix all l := match l with [] => True | j :: l => plain tags j ∧ all l end) l
  | JObj kvs =>
      NoDup kvs.*1 ∧ (if tags then True else "goc_schema" ∉ kvs.*1) ∧ (fix all kvs := match kvs with [] => True | kv :: kvs => plain tags kv.2 ∧ all kvs end) kvs
  | _ => True
  end.

Lemma plain_arr tags l : plain tags (JArr l) ↔ Forall (plain tags) l.
Proof.
  simpl. induction l as [|j l IH]; [split; [intros; constructor|done]|]. rewrite Forall_cons, <- IH. done.
Qed.
Lemma plain_obj tags kvs :
  plain tags (JObj kvs) ↔ NoDup kvs.*1 ∧ (if tags then True else "goc_schema" ∉ kvs.*1) ∧ Forall (λ kv, plain tags kv.2) kvs.
Proof.
  simpl. assert ((fix all kvs := match kvs with [] => True | kv :: kvs => plain tags kv.2 ∧ all kvs end) kvs ↔ Forall (λ kv : string * json, plain tags kv.2) kvs) as ->; [|done].
  induction kvs as [|kv l IH]; [split; [intros; constructor|done]|]. rewrite Forall_cons, <- IH. done.
Qed.

Lemma keys_map {A B} (f : A → B) (kvs : list (string * A)) : (map (λ kv, (kv.1, f kv.2)) kvs).*1 = kvs.*1.
Proof. induction kvs as [|kv kvs IH]; [done|]. simpl. f_equal. exact IH. Qed.
Lemma canon_plain j : plain false j → plain false (canon j).
Proof.
  induction j as [| |z|z| | |l IH|kvs IH] using json_ind'; try done.
  - unfold canon, num. destruct (Z.leb_spec 0 z); simpl; lia.
  - change (canon (JArr l)) with (JArr (map canon l)). rewrite !plain_arr, Forall_fmap, !Forall_forall. rewrite Forall_forall in IH. auto.
  - change (canon (JObj kvs)) with (JObj (map (λ kv, (kv.1, canon kv.2)) kvs)). rewrite !plain_obj.
    rewrite keys_map. intros (? & ? & Hall). split_and!; [done..|]. apply Forall_fmap. rewrite Forall_forall in IH, Hall |- *. simpl. auto.
Qed.

(** ** Values as JSON *)

Definition wide (ty : goc_boxed_type) (bits : Z) : option json :=
  match ty with
  | T_BOOL => Some (JBool (negb (bits mod 2 ^ 8 =? 0)))
  | T_BYTE => Some (JSint (signed 1 (bits mod 2 ^ 8)))
  | T_UBYTE => Some (JUint (bits mod 2 ^ 8))
  | T_INT => Some (JSint (signed 8 (bits mod 2 ^ 64)))
  | T_UINT => Some (JUint (bits mod 2 ^ 64))
  | T_REAL => Some (JReal (ld_decode 8 (bits mod 2 ^ 64)))
  | _ => None
  end.
(** The size in which a tag is serialized. *)
Definition wide_size (ty : goc_boxed_type) : Z := match ty with T_BOOL | T_BYTE | T_UBYTE => 1 | _ => 8 end.

(** [shows n h v j]: the value [v], of depth at most [n], is [j]. *)
Fixpoint shows (n : nat) (h : heap) (v : vref) (j : json) : Prop :=
  match n with
  | O => False
  | S n =>
      ∃ o, view h v = ok o ∧
      match o with
      | None => j = JNull
      | Some (OBox ty sz bits) => sz = wide_size ty ∧ canon <$> wide ty bits = Some j
      | Some (OStr s) => j = JStr s
      | Some (OArr _ _ l) => goc_schema_is_goc_array o = true ∧ ∃ js, Forall2 (shows n h) l js ∧ j = JArr js
      | Some (ODict _ _ kvs) =>
          goc_schema_is_goc_dict o = true ∧ ∃ js, Forall2 (λ kv kj, kv.1 = kj.1 ∧ shows n h kv.2 kj.2) kvs js ∧ j = JObj js
      end
  end.

Lemma shows_mono n n' h h' v j : (n <= n')%nat → h ⊆ h' → shows n h v j → shows n' h' v j.
Proof.
  intros Hn Hh. revert n' v j Hn. induction n as [|n IH]; intros [|n'] v j Hn; try done; [lia|].
  intros (o & Ho & Hj). exists o. split.
  - destruct v as [|p|]; try done. simpl in *. destruct (h !! p) as [x|] eqn:Hp; [|done]. by rewrite (lookup_weaken h h' p x Hp Hh).
  - destruct o as [[ty sz bits|c hd l|c oc kvs|s]|]; try done.
    + destruct Hj as (Hok & js & Hjs & ->). split; [done|]. exists js. split; [|done]. eapply Forall2_impl; [done|].
      intros x y Hxy. apply IH; [lia|done].
    + destruct Hj as (Hok & js & Hjs & ->). split; [done|]. exists js. split; [|done]. eapply Forall2_impl; [done|].
      intros x y [? Hxy]. split; [done|]. apply IH; [lia|done].
Qed.

(** ** Parsing *)

Definition mem_ok (m : jmem) : Prop := ∀ p, (jnext m <= p)%positive → jheap m !! p = None.
Definition grows (m m' : jmem) : Prop := mem_ok m' ∧ jheap m ⊆ jheap m'.

Lemma alloc_grows o m : mem_ok m → ∃ m', alloc o m = ok (VAddr (jnext m), m') ∧ grows m m' ∧ jheap m' !! jnext m = Some o.
Proof.
  intros Hm. eexists. split; [done|]. assert (jheap m !! jnext m = None) as Hn by (apply Hm; lia). split; [split|]; simpl.
  - intros p Hp. simpl in *. rewrite lookup_insert_ne by lia. apply Hm. lia.
  - by apply insert_subseteq.
  - apply lookup_insert_eq.
Qed.
Lemma jmem_grows_refl m : mem_ok m → grows m m.
Proof. by split. Qed.
Lemma jmem_grows_trans m1 m2 m3 : grows m1 m2 → grows m2 m3 → grows m1 m3.
Proof. intros [_ Ha] [Hb Hc]. split; [done|]. by etrans. Qed.

Lemma dict_contains_spec kvs k : dict_contains kvs k = true ↔ k ∈ kvs.*1.
Proof.
  unfold dict_contains. rewrite existsb_exists, list_elem_of_fmap. split.
  - intros (kv & Hin & Hk%bool_decide_eq_true). exists kv. by rewrite list_elem_of_In.
  - intros (kv & -> & Hin). exists kv. rewrite <- list_elem_of_In. split; [done|]. by apply bool_decide_eq_true.
Qed.
Lemma kvs_set_new kvs k v : k ∉ kvs.*1 → kvs_set kvs k v = kvs ++ [(k, v)].
Proof.
  induction kvs as [|[k' v'] kvs IH]; simpl; [done|]. rewrite not_elem_of_cons. intros [Hk Hn].
  destruct (String.eqb_spec k' k); [congruence|]. by rewrite IH.
Qed.

(** A header that the validator takes for an array, resp. a dictionary. *)
Definition arr_header (c hd len : Z) : Prop := 8 <= c ∧ 0 <= hd ∧ hd + len <= c.
Definition dict_header (c oc len : Z) : Prop := 8 <= c ∧ len <= oc <= c.

Lemma arr_header_ok c hd l : arr_header c hd (Z.of_nat (length l)) → goc_schema_is_goc_array (Some (OArr c hd l)) = true.
Proof.
  intros (? & ? & ?). simpl. rewrite !andb_true_iff, !Z.leb_le. split_and!; try lia. unfold wrap64.
  pose proof (Z.mod_le (hd + Z.of_nat (length l)) WORD). unfold WORD in *. lia.
Qed.
Lemma dict_header_ok c oc kvs : dict_header c oc (Z.of_nat (length kvs)) → goc_schema_is_goc_dict (Some (ODict c oc kvs)) = true.
Proof. intros (? & ? & ?). simpl. rewrite !andb_true_iff, !Z.leb_le. lia. Qed.
Lemma arr_push_header c hd l v : arr_header c hd (Z.of_nat (length l)) →
  ∃ c' hd', arr_push (OArr c hd l) v = OArr c' hd' (l ++ [v]) ∧ arr_header c' hd' (Z.of_nat (length (l ++ [v]))).
Proof.
  intros (? & ? & ?). unfold arr_push. rewrite length_app. simpl. destruct (Z.leb_spec c (hd + Z.of_nat (length l))).
  - do 2 eexists. split; [done|]. unfold arr_header. dlia.
  - do 2 eexists. split; [done|]. unfold arr_header. lia.
Qed.
Lemma dict_set_header c oc kvs k v : dict_header c oc (Z.of_nat (length kvs)) → k ∉ kvs.*1 →
  ∃ c' oc', dict_set (ODict c oc kvs) k v = ODict c' oc' (kvs ++ [(k, v)]) ∧ dict_header c' oc' (Z.of_nat (length (kvs ++ [(k, v)]))).
Proof.
  intros (? & ? & ?) Hk. unfold dict_set. rewrite (kvs_set_new kvs k v Hk), length_app.
  assert (dict_contains kvs k = false) as -> by (apply not_true_is_false; by rewrite dict_contains_spec).
  simpl. destruct (Z.ltb_spec (c * 3) (oc * 4)); do 2 eexists; (split; [done|]); unfold dict_header; lia.
Qed.

Lemma shows_many {A B} (Q : nat → A → B → Prop) l k :
  (∀ n n' a b, (n <= n')%nat → Q n a b → Q n' a b) → Forall2 (λ a b, ∃ n, Q n a b) l k → ∃ n, Forall2 (Q n) l k.
Proof.
  intros Hmono. induction 1 as [|a b l k [n Hn] _ [m Hm]]; [by exists 0%nat|].
  exists (Nat.max n m). constructor; [eapply Hmono; [|done]; lia|]. eapply Forall2_impl; [done|]. intros x y. apply Hmono. lia.
Qed.

(** What reading a node does. *)
Definition reads (fuel : nat) (t : types) (j : json) : Prop :=
  ∀ m, mem_ok m → ∃ v m', goc_json_value_from_yyjson fuel t j m = ok (inl v, m') ∧ grows m m' ∧ ∃ n, shows n (jheap m') v (canon j).

Lemma reads_box fuel t j ty bits :
  (∀ m, goc_json_value_from_yyjson fuel t j m = (v ← box ty (wide_size ty) bits; mret (inl v)) m) →
  canon <$> wide ty bits = Some (canon j) → reads fuel t j.
Proof.
  intros Hbox Hw m Hm. rewrite Hbox. destruct (alloc_grows (OBox ty (wide_size ty) bits) m Hm) as (m' & Ha & Hg & Hl).
  unfold box. rewrite (prog_bind_ok _ _ _ _ _ Ha). do 2 eexists. split; [done|]. split; [done|]. exists 1%nat. simpl. rewrite Hl. by eexists.
Qed.

Lemma signed_mod n z : n = 1 ∨ n = 8 → - 2 ^ (8 * n - 1) <= z < 2 ^ (8 * n - 1) → signed n (z mod 2 ^ (8 * n)) = z.
Proof.
  intros [->| ->] Hz; unfold signed.
  - change (2 ^ (8 * 1)) with 256. change (2 ^ (8 * 1 - 1)) with 128 in *. destruct (Z.ltb_spec (z mod 256) 128); dlia.
  - change (2 ^ (8 * 8)) with (2 ^ 64). change (2 ^ (8 * 8 - 1)) with (2 ^ 63) in *. destruct (Z.ltb_spec (z mod 2 ^ 64) (2 ^ 63)); dlia.
Qed.

Lemma reads_items fuel t l m c hd vs js :
  Forall (reads fuel t) l → mem_ok m → arr_header c hd (Z.of_nat (length vs)) → Forall2 (λ v j, ∃ n, shows n (jheap m) v j) vs js →
  ∃ v m', (fix items l (arr : obj) : prog jmem (vref + goc_json_error) :=
         match l with
         | [] => v ← alloc arr; mret (inl v)
         | j :: l =>
             r ← goc_json_value_from_yyjson fuel t j;
             match r with inr e => mret (inr e) | inl v => items l (arr_push arr v) end
         end) l (OArr c hd vs) m = ok (inl v, m') ∧ grows m m' ∧ ∃ n, shows n (jheap m') v (JArr (js ++ map canon l)).
Proof.
  intros Hl. revert m c hd vs js. induction Hl as [|j l Hj _ IH]; intros m c hd vs js Hm Hh Hvs.
  - destruct (alloc_grows (OArr c hd vs) m Hm) as (m' & Ha & Hg & Hlk). rewrite (prog_bind_ok _ _ _ _ _ Ha).
    do 2 eexists. split; [done|]. split; [done|]. apply shows_many in Hvs as [n Hn]; [|intros; by eapply shows_mono].
    exists (S n). simpl. rewrite Hlk. eexists. split; [done|]. split; [by apply arr_header_ok|]. exists js.
    split; [|by rewrite app_nil_r]. eapply Forall2_impl; [done|]. intros x y. apply shows_mono; [done|apply Hg].
  - destruct (Hj m Hm) as (v & m1 & Hr & Hg & n & Hn). rewrite (prog_bind_ok _ _ _ _ _ Hr).
    destruct (arr_push_header c hd vs v Hh) as (c' & hd' & -> & Hh').
    destruct (IH m1 c' hd' (vs ++ [v]) (js ++ [canon j])) as (w & m2 & Hw & Hg2 & Hs); [by destruct Hg|done| |].
    { apply Forall2_app; [|by repeat constructor; exists n]. eapply Forall2_impl; [done|]. intros x y [k Hk]. exists k.
      eapply shows_mono; [done|apply Hg|done]. }
    exists w, m2. split; [exact Hw|]. split; [by eapply jmem_grows_trans|]. by rewrite <- app_assoc in Hs.
Qed.

Lemma untagged fuel t kvs v m : "goc_schema" ∉ kvs.*1 → tagged (R := R) (X := X) fuel t kvs v m = ok (inl v, m).
Proof.
  intros Hk. unfold tagged. assert (dict_get kvs "goc_schema" = VNull) as ->; [|reflexivity].
  unfold dict_get. destruct (list_find _ kvs) as [[i kv]|] eqn:Hf; [|done].
  apply list_find_Some in Hf as (Hi & Hkey & _). destruct Hk. apply list_elem_of_fmap. exists kv. split; [done|]. by eapply list_elem_of_lookup_2.
Qed.

Lemma reads_fields fuel t kvs m c oc done_kvs js :
  Forall (λ kv : string * json, reads fuel t kv.2) kvs → mem_ok m → dict_header c oc (Z.of_nat (length done_kvs)) →
  NoDup (done_kvs.*1 ++ kvs.*1) → "goc_schema" ∉ done_kvs.*1 ++ kvs.*1 →
  Forall2 (λ (kv : string * vref) (kj : string * json), ∃ n, kv.1 = kj.1 ∧ shows n (jheap m) kv.2 kj.2) done_kvs js →
  ∃ v m', (fix fields kvs (dict : obj) : prog jmem (vref + goc_json_error) :=
         match kvs with
         | [] =>
             v ← alloc dict;
             tagged fuel t (match dict with ODict _ _ kvs => kvs | _ => [] end) v
         | (key, j) :: kvs =>
             r ← goc_json_value_from_yyjson fuel t j;
             match r with inr e => mret (inr e) | inl v => fields kvs (dict_set dict key v) end
         end) kvs (ODict c oc done_kvs) m = ok (inl v, m') ∧ grows m m' ∧
       ∃ n, shows n (jheap m') v (JObj (js ++ map (λ kv, (kv.1, canon kv.2)) kvs)).
Proof.
  intros Hl. revert m c oc done_kvs js. induction Hl as [|[k j] l Hj _ IH]; intros m c oc vs js Hm Hh Hnd Htag Hvs.
  - destruct (alloc_grows (ODict c oc vs) m Hm) as (m' & Ha & Hg & Hlk). rewrite (prog_bind_ok _ _ _ _ _ Ha).
    rewrite untagged by (by rewrite app_nil_r in Htag). do 2 eexists. split; [done|]. split; [done|].
    apply (shows_many (λ n kv kj, kv.1 = kj.1 ∧ shows n (jheap m) kv.2 kj.2)) in Hvs as [n Hn];
      [|intros n n' a b Hnn [? ?]; split; [done|by eapply shows_mono]].
    exists (S n). simpl. rewrite Hlk. eexists. split; [done|]. split; [by apply dict_header_ok|]. exists js.
    split; [|by rewrite app_nil_r]. eapply Forall2_impl; [done|]. intros x y [? ?]. split; [done|]. eapply shows_mono; [done|apply Hg|done].
  - destruct (Hj m Hm) as (v & m1 & Hr & Hg & n & Hn). rewrite (prog_bind_ok _ _ _ _ _ Hr).
    assert (k ∉ vs.*1) as Hk.
    { simpl in Hnd. apply NoDup_app in Hnd as (_ & Hd & _). intros Hin. apply (Hd k Hin), elem_of_cons. by left. }
    destruct (dict_set_header c oc vs k v Hh Hk) as (c' & oc' & -> & Hh').
    assert ((vs ++ [(k, v)]).*1 ++ l.*1 = vs.*1 ++ ((k, j) :: l).*1) as Happ by (by rewrite fmap_app, <- app_assoc).
    destruct (IH m1 c' oc' (vs ++ [(k, v)]) (js ++ [(k, canon j)])) as (w & m2 & Hw & Hg2 & Hs); [by destruct Hg|done|by rewrite Happ|by rewrite Happ| |].
    { apply Forall2_app; [|by repeat constructor; exists n]. eapply Forall2_impl; [done|]. intros x y (i & ? & Hi). exists i. split; [done|].
      eapply shows_mono; [done|apply Hg|done]. }
    exists w, m2. split; [exact Hw|]. split; [by eapply jmem_grows_trans|]. by rewrite <- app_assoc in Hs.
Qed.

Lemma reads_plain fuel t j : plain false j → reads fuel t j.
Proof.
  induction j as [|b|z|z|r|s|l IH|kvs IH] using json_ind'; intros Hp.
  - intros m Hm. do 2 eexists. split; [done|]. split; [by apply jmem_grows_refl|]. exists 1%nat. by eexists.
  - apply (reads_box fuel t _ T_BOOL (if b then 1 else 0)); [done|]. by destruct b.
  - apply (reads_box fuel t _ T_UINT z); [done|]. simpl in *. by rewrite Z.mod_small by lia.
  - apply (reads_box fuel t _ T_INT (z mod WORD)); [done|]. simpl in *. f_equal. unfold WORD. rewrite Z.mod_mod by lia.
    change 18446744073709551616 with (2 ^ (8 * 8)). rewrite signed_mod; [done|by right|simpl; lia].
  - apply (reads_box fuel t _ T_REAL (double_bits r)); [done|]. simpl in *. by rewrite Hp.
  - intros m Hm. destruct (alloc_grows (OStr s) m Hm) as (m' & Ha & Hg & Hl). simpl. rewrite (prog_bind_ok _ _ _ _ _ Ha).
    do 2 eexists. split; [done|]. split; [done|]. exists 1%nat. simpl. rewrite Hl. by eexists.
  - apply plain_arr in Hp. intros m Hm. apply (reads_items fuel t l m 8 2 [] []); [|done|unfold arr_header; simpl; lia|constructor].
    rewrite Forall_forall in IH, Hp |- *. auto.
  - apply plain_obj in Hp as (Hnd & Htag & Hp). intros m Hm.
    apply (reads_fields fuel t kvs m 8 0 [] []); [|done|unfold dict_header; simpl; lia|done|done|constructor].
    rewrite Forall_forall in IH, Hp |- *. auto.
Qed.

End Props.
End JsonProps.
