(* ===== verification/JsonRound.v ===== *)
(** Theorems on JSON: values written and read back, errors, and the end of serialization. *)

From stdpp Require Import pretty.
From S2P Require Import Prelude Schema SchemaProps SchemaVal SchemaValProps SchemaTerm Json JsonProps.

Module JsonRound.
Import Schema SchemaProps SchemaVal SchemaValProps SchemaTerm Json JsonProps.

(** ** Loops *)

Lemma collect_all {A B} (f : Z → A → res (B + option goc_json_error)) l bs i :
  Forall2 (λ a b, ∀ i, f i a = ok (inl b)) l bs → collect f i l = ok (inl bs).
Proof. intros Hl. revert i. induction Hl as [|a b l bs Ha _ IH]; intros i; [done|]. cbn [collect]. rewrite Ha. simpl. by rewrite IH. Qed.

Lemma ends_collect {A B} (f : Z → A → res (B + option goc_json_error)) l i : (∀ i a, ends (f i a)) → ends (collect f i l).
Proof.
  intros Hf. revert i. induction l as [|a l IH]; intros i; [done|]. apply ends_bind; [done|]. intros [b|e] _; [|done].
  apply ends_bind; [done|]. by intros [bs|e] _.
Qed.

Lemma collect_error {A B} (f : Z → A → res (B + option goc_json_error)) l i e :
  collect f i l = ok (inr e) → ∃ j a, l !! j = Some a ∧ f (i + Z.of_nat j) a = ok (inr e).
Proof.
  revert i. induction l as [|a l IH]; intros i; [done|]. cbn [collect]. intros ([b|e'] & Ha & Hr)%res_bind_inv.
  - apply res_bind_inv in Hr as ([bs|e'] & Hc & [= ->]). destruct (IH _ Hc) as (j & x & Hj & Hx). exists (S j), x. split; [done|].
    by replace (i + Z.of_nat (S j)) with (i + 1 + Z.of_nat j) by lia.
  - injection Hr as ->. exists 0%nat, a. split; [done|]. by rewrite Z.add_0_r.
Qed.

Section Round.
Context {R X : Type} `{LongDouble R} `{Regex X} `{YYJson R} `{Callbacks}.
Notation json := (json R).
Notation types := (@Schema.types R X).
Notation store := (gmap positive (@Schema.goc_schema R X)).

(** ** Termination *)

Lemma method_at_get (st : store) p nm :
  goc_schema_method_get st p nm = (r ← goc_json_method_at st p nm; ok (option_map fst r)).
Proof.
  unfold goc_schema_method_get, goc_json_method_at. generalize (S (size st)). intros n. revert p.
  induction n as [|n IH]; intros [p|]; try done. cbn [method_loop method_at_loop]. destruct (get_schema st p) as [s| | |]; simpl; try done.
  destruct (methods s !! nm) as [fn|]; [|done]. by destruct (fn =? 0).
Qed.
Lemma ends_method_get (st : store) p nm : acyclic st → ends (goc_schema_method_get st p nm).
Proof. intros Hac Hh. apply method_hang in Hh as (l & Hn & Hl). by eapply no_hang. Qed.
Lemma ends_method_at (st : store) p nm : acyclic st → ends (goc_json_method_at st p nm).
Proof. intros Hac Hh. apply (ends_method_get st p nm Hac). by rewrite method_at_get, Hh. Qed.

(** The schemas with which the parts of a value are serialized. *)
Definition nested (k : @schema_kind R X) : list sref :=
  match k with
  | SCHEMA_OBJ fields _ => Some s_schema_any :: (f_schema <$> fields)
  | _ => [goc_json_arr_elem_schema k]
  end.
Definition nesting (st : store) (rank : positive → nat) : Prop :=
  ∀ p s q, st !! p = Some s → Some q ∈ nested (kind s) → (rank q < rank p)%nat.

Lemma field_nested fields opts key : field_schema fields key ∈ nested (SCHEMA_OBJ fields opts).
Proof.
  unfold field_schema. cbn [nested]. destruct (list_find _ _) as [[i f]|] eqn:Hf; [|by constructor].
  apply list_find_Some in Hf as (Hi & _ & _). destruct (f_schema f) eqn:Hs; [|by constructor].
  right. rewrite <- Hs. apply list_elem_of_fmap_2. by eapply list_elem_of_lookup_2.
Qed.

Lemma ends_unbox n o : ends (unbox n o).
Proof. unfold unbox. by repeat case_match. Qed.

Lemma ends_serialize t h rank fuel p v path :
  acyclic (schemas t) → nesting (schemas t) rank → (rank p < fuel)%nat → ends (goc_json_serialize_value fuel t h (Some p) v path).
Proof.
  intros Hac Hnest. revert p v path. induction fuel as [|fuel IH]; intros p v path Hp; [lia|].
  assert (∀ s q v path, schemas t !! p = Some s → q ∈ nested (kind s) → (0 < fuel)%nat → ends (goc_json_serialize_value fuel t h q v path)) as Hsub.
  { intros s [q|] v' path' Hs Hq H0f; [apply IH; specialize (Hnest p s q Hs Hq); lia|]. destruct fuel; [lia|done]. }
  assert (∀ s q, schemas t !! p = Some s → Some q ∈ nested (kind s) → (0 < fuel)%nat) as Hpos by (intros s q Hs Hq; specialize (Hnest p s q Hs Hq); lia).
  cbn [goc_json_serialize_value]. apply ends_bind; [auto with ends|]. intros s Hs.
  assert (schemas t !! p = Some s) as Hs' by (unfold get_schema in Hs; case_match; congruence).
  apply ends_bind; [by apply ends_method_get|]. intros [fn|] _.
  { apply ends_bind; [|intros [text|] _; [unfold goc_json_parse_json_string; by case_match|done]].
    destruct (fn =? _); [|done]. apply ends_bind; [|done]. unfold goc_json_to_json_complex.
    apply ends_bind; [auto with ends|]. intros o _. apply ends_bind; [apply ends_unbox|done]. }
  apply ends_bind; [by apply ends_method_at|]. intros [[fn q]|] _; [|done]. unfold to_json_internal.
  destruct (fn =? fn_to_json_null); [done|].
  do 6 (case_match; [apply ends_bind; [auto with ends|]; intros o _; apply ends_bind; [apply ends_unbox|done]|]).
  case_match; [apply ends_bind; [auto with ends|]; intros [o|] _; [apply ends_bind; auto with ends|done]|]. case_match; [done|].
  case_match; [apply ends_bind; [auto with ends|]; intros o _|case_match; [apply ends_bind; [auto with ends|]; intros o _|done]].
  - destruct o as [[|c hd l| |]|]; try done. destruct (goc_schema_is_goc_array _); [|done].
    destruct (goc_json_arr_elem_schema (kind s)) as [e|] eqn:Hel; [|done]. cbv zeta. case_match; [done|].
    assert (Some e ∈ nested (kind s)) as Hin by (destruct (kind s); simpl in *; try done; rewrite Hel; constructor).
    apply ends_bind; [|by intros []]. apply ends_collect. intros i a. eapply Hsub; eauto.
  - destruct o as [[| |c oc kvs|]|]; try done. destruct (goc_schema_is_goc_dict _); [|done].
    destruct (kind s) eqn:Hk; try done. destruct fields as [|f fields]; [done|].
    apply ends_bind; [|by intros []]. apply ends_collect. intros i [k a]. apply ends_bind; [|by intros []].
    eapply Hsub; [done|rewrite Hk; apply field_nested|]. eapply (Hpos s s_schema_any); [done|]. rewrite Hk. constructor.
Qed.

(** ** Initialisation *)

(** The state after the first call of the module. *)
Definition json_types : types := after goc_json_init_builtin_methods init_types.

Lemma set_methods_run l t t' : set_methods l t = ok (tt, t') → rtc (schema_step (R := R) (X := X)) t t'.
Proof.
  revert t. induction l as [|[[s nm] fn] l IH]; intros t; [by intros [= <-]|]. cbn [set_methods].
  intros ([] & t1 & Hs & Hr)%prog_bind_inv. eapply rtc_l; [by eapply step_method|by apply IH].
Qed.
Lemma json_types_run : rtc schema_step init_types json_types.
Proof.
  assert (goc_json_init_builtin_methods (R := R) (X := X) init_types = ok (tt, json_types)) as Hi by (by vm_compute).
  revert Hi. generalize json_types. intros t. unfold goc_json_init_builtin_methods.
  intros ([] & t1 & Hset & ([] & t2 & Hcx & Hany)%prog_bind_inv)%prog_bind_inv. etrans; [by eapply set_methods_run|].
  unfold goc_json_set_methods in Hcx. simpl in Hcx. apply prog_bind_inv in Hcx as ([] & t3 & Ha & Hb).
  eapply rtc_l; [by eapply step_method|]. eapply rtc_l; [by eapply step_method|]. apply rtc_once. by eapply step_method.
Qed.

(** ** Values that serialize without loss *)

(** What the program relies on: a document that is written is read back, a double is read
    from the bits of its box as the double that was stored there. *)
Class YYJsonOk := {
  yyjson_back pretty j text : plain true j → yyjson_write pretty j = Some text → yyjson_read text = inl (canon j);
  double_back u : 0 <= u < 2 ^ 64 → 0 <= double_bits (ld_decode (R := R) 8 u) < 2 ^ 64 ∧ ld_decode 8 (double_bits (ld_decode (R := R) 8 u)) = ld_decode 8 u
}.

(** [p] is serialized by the internal method [fn], not by a callback. *)
Definition serializer (t : types) (p : positive) (s : @goc_schema R X) (fn : Z) : Prop :=
  schemas t !! p = Some s ∧ goc_schema_method_get (schemas t) (Some p) "goc_json_to_json" = ok None ∧
  ∃ q, goc_json_method_at (schemas t) (Some p) "_goc_json_to_json" = ok (Some (fn, q)).

Definition scalar_fn (ty : goc_boxed_type) : option Z :=
  match ty with
  | T_BOOL => Some fn_to_json_bool | T_BYTE => Some fn_to_json_byte | T_UBYTE => Some fn_to_json_ubyte
  | T_INT => Some fn_to_json_int | T_UINT => Some fn_to_json_uint | T_REAL => Some fn_to_json_real | _ => None
  end.

(** [fits n t h p v j]: the schema [p] serializes the value [v], of depth at most [n], as [j].
    Boxes have the width that the serializers read, arrays have an element schema, the keys
    of a dictionary are distinct and declared. *)
Fixpoint fits (n : nat) (t : types) (h : heap) (p : positive) (v : vref) (j : json) : Prop :=
  match n with
  | O => False
  | S n =>
      ∃ s fn o, serializer t p s fn ∧ view h v = ok o ∧
      match o with
      | None => fn = fn_to_json_null ∧ j = JNull
      | Some (OBox ty sz bits) => sz = wide_size ty ∧ scalar_fn ty = Some fn ∧ wide ty bits = Some j
      | Some (OStr x) => fn = fn_to_json_str ∧ j = JStr x
      | Some (OArr _ _ l) =>
          fn = fn_to_json_array ∧ goc_schema_is_goc_array o = true ∧
          ∃ e js, goc_json_arr_elem_schema (kind s) = Some e ∧ e ≠ s_schema_any ∧ Forall2 (fits n t h e) l js ∧ j = JArr js
      | Some (ODict _ _ kvs) =>
          fn = fn_to_json_dict ∧ goc_schema_is_goc_dict o = true ∧ NoDup kvs.*1 ∧ "goc_schema" ∉ kvs.*1 ∧
          ∃ f fields opts js, kind s = SCHEMA_OBJ (f :: fields) opts ∧
            Forall2 (λ kv kj, kv.1 = kj.1 ∧ ∃ q, field_schema (f :: fields) kv.1 = Some q ∧ fits n t h q kv.2 kj.2) kvs js ∧ j = JObj js
      end
  end.

Lemma serialize_fits n t h p v j fuel path : fits n t h p v j → (n <= fuel)%nat → goc_json_serialize_value fuel t h (Some p) v path = ok (inl j).
Proof.
  revert p v j fuel path. induction n as [|n IH]; intros p v j [|fuel] path; [done|done|lia|].
  intros (s & fn & o & (Hs & Hpub & q & Hint) & Ho & Hj) Hn. assert (n <= fuel)%nat as Hn' by lia.
  cbn [goc_json_serialize_value]. unfold get_schema. rewrite Hs. cbn [mbind res_bind]. rewrite Hpub. cbn [mbind res_bind]. rewrite Hint.
  cbn [mbind res_bind]. destruct o as [[ty sz bits|c hd l|c oc kvs|x]|].
  - destruct Hj as (-> & Hfn & Hw). destruct ty; try done; injection Hfn as <-; injection Hw as <-; unfold to_json_internal; simpl; rewrite Ho; done.
  - destruct Hj as (-> & Hok & e & js & He & Hany & Hjs & ->). unfold to_json_internal; simpl. unfold goc_json_to_json_array. rewrite Ho. simpl.
    simpl in Hok. rewrite Hok, He. rewrite (bool_decide_eq_false_2 (Some e = None)), bool_decide_eq_false_2 by congruence. simpl.
    rewrite (collect_all _ l js); [done|]. eapply Forall2_impl; [done|]. intros a b Hab i. by apply IH.
  - destruct Hj as (-> & Hok & _ & _ & f & fields & opts & js & Hk & Hjs & ->). unfold to_json_internal; simpl. unfold goc_json_to_json_dict. rewrite Ho. simpl.
    simpl in Hok. rewrite Hok, Hk. rewrite (collect_all _ kvs js); [done|]. eapply Forall2_impl; [done|].
    intros [k a] [k' b] (Hkk & e & He & Hab) i. simpl in *. rewrite He, (IH e a b fuel _ Hab Hn'). simpl. by rewrite Hkk.
  - destruct Hj as [-> ->]. unfold to_json_internal; simpl. by rewrite Ho.
  - destruct Hj as [-> ->]. done.
Qed.

Lemma fits_shows n t h p v j : fits n t h p v j → shows n h v (canon j).
Proof.
  revert p v j. induction n as [|n IH]; intros p v j; [done|]. intros (s & fn & o & _ & Ho & Hj). exists o. split; [done|].
  destruct o as [[ty sz bits|c hd l|c oc kvs|x]|].
  - destruct Hj as (-> & _ & ->). done.
  - destruct Hj as (_ & Hok & e & js & _ & _ & Hjs & ->). split; [done|]. exists (map canon js). split; [|done].
    apply Forall2_fmap_r. eapply Forall2_impl; [done|]. intros a b. apply IH.
  - destruct Hj as (_ & Hok & _ & _ & f & fields & opts & js & _ & Hjs & ->). split; [done|].
    exists (map (λ kv, (kv.1, canon kv.2)) js). split; [|done]. apply Forall2_fmap_r. eapply Forall2_impl; [done|].
    intros a b (Hk & q & _ & Hab). split; [done|]. by eapply IH.
  - by destruct Hj as [_ ->].
  - by destruct Hj as [_ ->].
Qed.

Lemma signed_range n u : n = 1 ∨ n = 8 → - 2 ^ (8 * n - 1) <= signed n (u mod 2 ^ (8 * n)) < 2 ^ (8 * n - 1).
Proof.
  intros [->| ->]; unfold signed.
  - change (2 ^ (8 * 1)) with 256. change (2 ^ (8 * 1 - 1)) with 128. destruct (Z.ltb_spec (u mod 256) 128); dlia.
  - change (2 ^ (8 * 8)) with (2 ^ 64). change (2 ^ (8 * 8 - 1)) with (2 ^ 63). destruct (Z.ltb_spec (u mod 2 ^ 64) (2 ^ 63)); dlia.
Qed.

Lemma plain_tags j : plain false j → plain true j.
Proof.
  induction j as [|b|z|z|r|s|l IH|kvs IH] using json_ind'; try done.
  - rewrite !plain_arr, !Forall_forall. rewrite Forall_forall in IH. auto.
  - rewrite !plain_obj, !Forall_forall. rewrite Forall_forall in IH. naive_solver.
Qed.

Lemma fits_plain `{!YYJsonOk} n t h p v j : fits n t h p v j → plain false j.
Proof.
  revert p v j. induction n as [|n IH]; intros p v j; [done|]. intros (s & fn & o & _ & Ho & Hj).
  destruct o as [[ty sz bits|c hd l|c oc kvs|x]|].
  - destruct Hj as (_ & Hfn & Hw). destruct ty; try done; injection Hw as <-; simpl; try dlia.
    + apply (signed_range 8). by right.
    + pose proof (signed_range 1 bits (or_introl eq_refl)) as Hs. change (8 * 1 - 1) with 7 in Hs. change (8 * 1) with 8 in Hs. lia.
    + destruct (double_back (bits mod 2 ^ 64)) as [Hr Hd]; [dlia|]. simpl in *. by rewrite Z.mod_small.
  - destruct Hj as (_ & Hok & e & js & _ & _ & Hjs & ->). apply plain_arr. apply Forall_forall. intros x Hx.
    apply list_elem_of_lookup_1 in Hx as [i Hi]. destruct (Forall2_lookup_r _ _ _ _ _ Hjs Hi) as (a & _ & Ha). by eapply IH.
  - destruct Hj as (_ & Hok & Hnd & Htag & f & fields & opts & js & _ & Hjs & ->).
    assert (js.*1 = kvs.*1) as Hkeys by (clear -Hjs; induction Hjs as [|a b l k [Hab _] _ IHl]; [done|]; rewrite !fmap_cons, Hab; by f_equal).
    apply plain_obj. rewrite Hkeys. split_and!; [done..|]. apply Forall_forall. intros x Hx.
    apply list_elem_of_lookup_1 in Hx as [i Hi]. destruct (Forall2_lookup_r _ _ _ _ _ Hjs Hi) as (a & _ & _ & q & _ & Ha). by eapply IH.
  - by destruct Hj as [_ ->].
  - by destruct Hj as [_ ->].
Qed.

(** C40: round trip.  A value that satisfies its schema and that the schema's serializers
    write without loss ([fits]) is stringified, compactly or indented, and parsing the text
    succeeds and allocates a value that shows the same JSON: booleans, numbers, strings and
    null with the same contents, arrays element by element, dictionaries with the same keys
    in the same order.  Numbers come back as canonical numbers, and nothing that existed
    before is changed. *)
Theorem json_roundtrip `{!YYJsonOk} n fuel t h p v j pretty text m :
  fits n t h p v j → (n <= fuel)%nat → goc_schema_validate fuel (schemas t) h (Some p) v = ok None →
  yyjson_write pretty j = Some text → mem_ok m →
  goc_json_stringify_internal fuel t h (Some p) v pretty = ok (inl text) ∧
  ∃ v' m', goc_json_parse fuel t text m = ok (inl v', m') ∧ grows m m' ∧
    ∃ k, shows k h v (canon j) ∧ shows k (jheap m') v' (canon j).
Proof.
  intros Hfits Hn Hval Hw Hm. split.
  - unfold goc_json_stringify_internal. rewrite Hval. cbn [mbind res_bind]. rewrite (serialize_fits n t h p v j) by done.
    cbn [mbind res_bind]. by rewrite Hw.
  - unfold goc_json_parse. rewrite (yyjson_back pretty j text) by (eauto using plain_tags, fits_plain).
    destruct (reads_plain fuel t (canon j) (canon_plain j (fits_plain n t h p v j Hfits)) m Hm) as (v' & m' & Hr & Hg & k & Hk).
    rewrite canon_idem in Hk. exists v', m'. split; [done|]. split; [done|]. exists (Nat.max n k).
    split; [apply (shows_mono n _ h)|apply (shows_mono k _ (jheap m'))]; try done; try lia. by eapply fits_shows.
Qed.

(** ** Where an error is *)

(** The keys of a dictionary are distinct. *)
Definition distinct_keys (h : heap) : Prop := ∀ v kvs, as_dict h v = Some kvs → NoDup kvs.*1.

Definition sited (h : heap) (v : vref) (path : string) (r : res (json + option goc_json_error)) : Prop :=
  ∀ e, r = ok (inr (Some e)) → ∃ steps w, jpath e = path +:+ render steps ∧ reaches h v steps w.

Lemma sited_fail h v path msg : sited h v path (jfail path msg).
Proof. intros e [= <-]. exists [], v. rewrite app_empty_r. split; [done|constructor]. Qed.
Lemma sited_bind {A} h v path (a : res A) (k : A → res (json + option goc_json_error)) : (∀ x, a = ok x → sited h v path (k x)) → sited h v path (a ≫= k).
Proof. intros Hk. destruct a as [x| | |]; [by apply Hk|by intros ?..]. Qed.
Lemma sited_ok h v path j : sited h v path (ok (inl j)).
Proof. by intros e. Qed.

Lemma dict_get_lookup (kvs : list (string * vref)) k x : NoDup kvs.*1 → (k, x) ∈ kvs → dict_get kvs k = x.
Proof.
  intros Hnd Hin. unfold dict_get. destruct (list_find (λ kv, kv.1 = k) kvs) as [[i [k' x']]|] eqn:Hf.
  - apply list_find_Some in Hf as (Hi & Hk & _). simpl in *. subst k'. apply list_elem_of_lookup_1 in Hin as [j Hj].
    assert (i = j) as <- by (eapply NoDup_lookup; [exact Hnd| |]; rewrite list_lookup_fmap; [by rewrite Hi|by rewrite Hj]). congruence.
  - by eapply list_find_None, Forall_forall in Hf; [|exact Hin].
Qed.

Lemma serialize_sited (t : types) h fuel : distinct_keys h → ∀ p v path, sited h v path (goc_json_serialize_value fuel t h p v path).
Proof.
  intros Hkeys. induction fuel as [|fuel IH]; intros [p|] v path; try done; [|apply sited_fail].
  cbn [goc_json_serialize_value]. apply sited_bind. intros s _. apply sited_bind. intros [fn|] _.
  { apply sited_bind. intros [text|] _; [|apply sited_fail]. unfold goc_json_parse_json_string. case_match; [done|apply sited_fail]. }
  apply sited_bind. intros [[fn q]|] _; [|apply sited_fail]. unfold to_json_internal.
  destruct (fn =? fn_to_json_null); [done|]. do 6 (case_match; [apply sited_bind; intros o _; by apply sited_bind|]).
  case_match; [apply sited_bind; intros [o|] _; [by apply sited_bind|done]|]. case_match; [done|].
  case_match; [|case_match; [|done]].
  - apply sited_bind. intros o Ho. destruct o as [[|c hd l| |]|]; try apply sited_fail.
    destruct (goc_schema_is_goc_array _) eqn:Hok; [|apply sited_fail]. cbv zeta. case_match; [apply sited_fail|].
    apply sited_bind. intros [js|e] Hc; [done|]. intros e' [= ->]. apply collect_error in Hc as (i & x & Hi & He).
    destruct (IH _ x _ e' He) as (steps & w & Hp & Hw). exists (Idx i :: steps), w. rewrite Hp. split.
    + unfold idx_path. cbn [render]. by rewrite !app_assoc_s.
    + econstructor; [|done|done]. unfold as_list. by rewrite Ho, Hok.
  - apply sited_bind. intros o Ho. destruct o as [[| |c oc kvs|]|]; try apply sited_fail.
    destruct (goc_schema_is_goc_dict _) eqn:Hok; [|apply sited_fail].
    destruct (kind s); try apply sited_fail; try done. destruct fields as [|f fields]; [apply sited_fail|].
    apply sited_bind. intros [js|e] Hc; [done|]. intros e' [= ->]. apply collect_error in Hc as (i & [k x] & Hi & He).
    apply res_bind_inv in He as ([j|e] & He & [= ->]). destruct (IH _ x _ e' He) as (steps & w & Hp & Hw).
    assert (as_dict h v = Some kvs) as Hd by (unfold as_dict; by rewrite Ho, Hok).
    exists (Key k :: steps), w. rewrite Hp. split.
    + unfold key_path. cbn [render]. by rewrite !app_assoc_s.
    + econstructor; [done|]. by rewrite (dict_get_lookup kvs k x (Hkeys v kvs Hd) (list_elem_of_lookup_2 _ _ _ Hi)).
Qed.

(** Where a stringify error is.  Every error that [goc_json_stringify] or its indented
    variant returns, from validation or from serialization, carries a path of the form
    ".[i]" and ".key" that leads from the value to one of its parts. *)
Theorem stringify_error_path fuel (t : types) h schema v pretty e :
  distinct_keys h → goc_json_stringify_internal fuel t h schema v pretty = ok (inr e) →
  ∃ steps w, jpath e = render steps ∧ reaches h v steps w.
Proof.
  intros Hkeys. assert (∀ msg, ∃ steps w, jpath (mk_jerror "" msg) = render steps ∧ reaches h v steps w) as Htop.
  { intros. exists [], v. split; [done|constructor]. }
  unfold goc_json_stringify_internal. destruct schema as [p|]; [|intros [= <-]; apply Htop].
  intros ([ve|] & Hv & Hr)%res_bind_inv.
  - injection Hr as <-. destruct (validate_located fuel (schemas t) h (Some p) v "" false ve Hv) as (steps & msg & w & -> & Hw).
    exists steps, w. split; [|done]. done.
  - apply res_bind_inv in Hr as ([j|[je|]] & Hs & Hr).
    + destruct (yyjson_write pretty j); [done|]. injection Hr as <-. apply Htop.
    + injection Hr as <-. apply (serialize_sited t h fuel Hkeys (Some p) v "" je Hs).
    + injection Hr as <-. apply Htop.
Qed.

(** Serialization ends.  Where the schemas of elements and fields are nested to a finite
    depth, serializing any value under a schema, one that contains itself too, ends within
    fuel beyond that depth: the schemas bound the recursion, not the value. *)
Theorem serialize_ends (t : types) h rank p v path fuel :
  rtc schema_step init_types t → nesting (schemas t) rank → (rank p < fuel)%nat →
  goc_json_serialize_value fuel t h (Some p) v path ≠ hang.
Proof. intros Ht%types_reachable_ok. apply ends_serialize. by apply ok_acyclic. Qed.

End Round.

(** ** Witnesses

    Two documents, and the schema of {"xs": [int]} with a value; a second schema for arrays
    of arrays. *)

Fixpoint jeqb (a b : json Z) : bool :=
  match a, b with
  | JNull, JNull => true
  | JBool x, JBool y => Bool.eqb x y
  | JUint x, JUint y | JSint x, JSint y | JReal x, JReal y => x =? y
  | JStr x, JStr y => String.eqb x y
  | JArr l, JArr k =>
      (fix go l k := match l, k with [], [] => true | x :: l, y :: k => jeqb x y && go l k | _, _ => false end) l k
  | JObj l, JObj k =>
      (fix go (l k : list (string * json Z)) :=
         match l, k with [], [] => true | x :: l, y :: k => String.eqb x.1 y.1 && jeqb x.2 y.2 && go l k | _, _ => false end) l k
  | _, _ => false
  end.
Lemma jeqb_eq a b : jeqb a b = true → a = b.
Proof.
  revert b. induction a as [|x|x|x|x|x|l IH|l IH] using json_ind'; intros [|y|y|y|y|y|k|k]; simpl; try done.
  - by intros ->%Bool.eqb_prop.
  - by intros ->%Z.eqb_eq.
  - by intros ->%Z.eqb_eq.
  - by intros ->%Z.eqb_eq.
  - by intros ->%String.eqb_eq.
  - intros Hk. f_equal. revert k Hk. induction IH as [|x l Hx _ IHl]; intros [|y k]; try done.
    intros [Hxy Hlk]%andb_true_iff. f_equal; auto.
  - intros Hk. f_equal. revert k Hk. induction IH as [|[n x] l Hx _ IHl]; intros [|[m y] k]; try done.
    intros [[Hn%String.eqb_eq Hxy]%andb_true_iff Hlk]%andb_true_iff. simpl in *. subst. f_equal; [f_equal|]; auto.
Qed.

#[local] Existing Instance z_reals.
#[local] Existing Instance literals.
Definition doc1 : json Z := JObj [("xs", JArr [JSint 7; JSint (-5)])].
Definition doc2 : json Z :=
  JObj [("goc_schema", JStr "goc/complex"); ("goc_value", JObj [("real", JReal 3); ("imag", JReal 3)])].
Definition no_docs : YYJson Z := {|
  yyjson_read := λ _, inr "unexpected character"; yyjson_write := λ _ _, None; printf_17g := λ _, "3"; printf_p := λ _, "0x1"; double_bits := id
|}.
Definition doc2_text : string := complex_text (H1 := no_docs) "goc/complex" 3 3.
#[local] Instance two_docs : YYJson Z := {|
  yyjson_read := λ text,
    if String.eqb text "{xs:[7,-5]}" then inl (canon doc1) else if String.eqb text doc2_text then inl (canon doc2) else inr "unexpected character";
  yyjson_write := λ _ j, if jeqb j doc1 then Some "{xs:[7,-5]}" else if jeqb j doc2 then Some doc2_text else None;
  printf_17g := λ _, "3"; printf_p := λ _, "0x1"; double_bits := id
|}.
#[local] Instance no_callbacks : Callbacks := {| to_json_cb := λ _ _ _, None; read_json_cb := λ _ _, mret VNull |}.

#[local] Instance two_docs_ok : YYJsonOk (R := Z).
Proof.
  constructor.
  - intros pretty j text _. simpl. destruct (jeqb j doc1) eqn:H1; [apply jeqb_eq in H1 as ->; by intros [= <-]|].
    destruct (jeqb j doc2) eqn:H2; [apply jeqb_eq in H2 as ->; intros [= <-]; by vm_compute|done].
  - intros u Hu. done.
Defined.

Definition jt1 : types (R := Z) (X := string) := after (goc_schema_arr (Some s_schema_int)) json_types.
Definition jt2 : types := after (goc_schema_dict [mk_field "xs" (Some 14%positive) false] no_opts) jt1.
Definition jt3 : types := after (goc_schema_arr (Some s_schema_arr)) jt2.
Lemma jt3_reachable : rtc schema_step init_types jt3.
Proof.
  etrans; [apply json_types_run|].
  apply (rtc_l _ _ jt1); [eapply (step_make _ (goc_schema_arr (Some s_schema_int)) 14%positive); [apply con_arr|by vm_compute]|].
  apply (rtc_l _ _ jt2); [eapply (step_make _ (goc_schema_dict [mk_field "xs" (Some 14%positive) false] no_opts) 15%positive); [apply con_dict|by vm_compute]|].
  apply rtc_once. eapply (step_make _ (goc_schema_arr (Some s_schema_arr)) 16%positive); [apply con_arr|by vm_compute].
Defined.

(** {"xs": [7, -5]}, an array of it, and an array that contains itself. *)
Definition jh : heap :=
  {[ 1%positive := ODict 8 1 [("xs", VAddr 2)]; 2%positive := OArr 8 2 [VAddr 3; VAddr 4];
     3%positive := OBox T_INT 8 7; 4%positive := OBox T_INT 8 (2 ^ 64 - 5); 5%positive := OArr 8 2 [VAddr 2]; 6%positive := OArr 8 2 [VAddr 6] ]}.

Ltac serialized := split; [by vm_compute|split; [by vm_compute|eexists; by vm_compute]].
Lemma jh_fits : fits 3 jt3 jh 15 (VAddr 1) doc1.
Proof.
  assert (∀ p bits, view jh (VAddr p) = ok (Some (OBox T_INT 8 bits)) → fits 1 jt3 jh s_schema_int (VAddr p) (JSint (signed 8 (bits mod 2 ^ 64)))) as Hint.
  { intros p bits Hv. eexists _, fn_to_json_int, _. split; [serialized|]. split; [exact Hv|]. done. }
  assert (fits 2 jt3 jh 14 (VAddr 2) (JArr [JSint 7; JSint (-5)])) as Harr.
  { eexists _, fn_to_json_array, _. split; [serialized|]. split; [reflexivity|]. split; [done|]. split; [done|].
    exists s_schema_int, [JSint 7; JSint (-5)]. split; [by vm_compute|]. split; [done|]. split; [|done].
    repeat constructor; [by apply (Hint 3%positive 7)|by apply (Hint 4%positive (2 ^ 64 - 5))]. }
  eexists _, fn_to_json_dict, _. split; [serialized|]. split; [reflexivity|]. split; [done|]. split; [done|].
  split; [apply NoDup_singleton|]. split; [by apply (bool_decide_unpack _)|].
  exists (mk_field "xs" (Some 14%positive) false), [], no_opts, [("xs", JArr [JSint 7; JSint (-5)])].
  split; [by vm_compute|]. split; [|done]. repeat constructor. exists 14%positive. split; [by vm_compute|exact Harr].
Defined.

Lemma json_roundtrip_witness :
  goc_json_stringify_internal 5 jt3 jh (Some 15%positive) (VAddr 1) true = ok (inl "{xs:[7,-5]}") ∧
  ∃ v' m', goc_json_parse 5 jt3 "{xs:[7,-5]}" (mk_jmem ∅ 1) = ok (inl v', m') ∧ grows (mk_jmem ∅ 1) m' ∧
    ∃ k, shows k jh (VAddr 1) (canon doc1) ∧ shows k (jheap m') v' (canon doc1).
Proof.
  apply (json_roundtrip 3 5 jt3 jh 15 (VAddr 1) doc1 true "{xs:[7,-5]}" (mk_jmem ∅ 1)); [apply jh_fits|lia|by vm_compute|by vm_compute|].
  intros p _. apply lookup_empty.
Defined.

Lemma jh_keys : distinct_keys jh.
Proof.
  intros v kvs. unfold as_dict. destruct (view jh v) as [o| | |] eqn:Hv; try done. destruct o as [[| |c oc l|]|]; try done. case_match; [|done].
  intros [= <-]. destruct v as [|p|]; try done. simpl in Hv. destruct (jh !! p) as [o|] eqn:Hp; [|done]. injection Hv as ->.
  unfold jh in Hp. repeat (apply lookup_insert_Some in Hp as [[_ [= <- <- <-]]|[_ Hp]] || apply lookup_insert_Some in Hp as [[_ [=]]|[_ Hp]]);
    [apply NoDup_singleton|]. by apply lookup_singleton_Some in Hp as [_ ?].
Defined.

Lemma stringify_error_path_witness :
  goc_json_stringify_internal 5 jt3 jh (Some 16%positive) (VAddr 5) false = ok (inr (mk_jerror ".[0]" "array element type unknown")) ∧
  ∃ steps w, ".[0]" = render steps ∧ reaches jh (VAddr 5) steps w.
Proof.
  assert (goc_json_stringify_internal 5 jt3 jh (Some 16%positive) (VAddr 5) false = ok (inr (mk_jerror ".[0]" "array element type unknown"))) as He by (by vm_compute).
  split; [exact He|]. exact (stringify_error_path 5 jt3 jh (Some 16%positive) (VAddr 5) false _ jh_keys He).
Defined.

Definition jrank (p : positive) : nat :=
  if decide (p = 15%positive ∨ p = 16%positive) then 2 else if decide (p = 14%positive ∨ p = s_schema_arr ∨ p = s_schema_dict) then 1 else 0.
Lemma jt3_nesting : nesting (schemas jt3) jrank.
Proof.
  assert (forallb (λ ps, forallb (λ q, match q with Some q => (jrank q <? jrank ps.1)%nat | None => true end) (nested (kind ps.2))) (map_to_list (schemas jt3)) = true) as Hall by (by vm_compute).
  intros p s q Hs Hq. rewrite forallb_forall in Hall. specialize (Hall (p, s)). rewrite <- list_elem_of_In, elem_of_map_to_list in Hall.
  specialize (Hall Hs). rewrite forallb_forall in Hall. specialize (Hall (Some q)). rewrite <- list_elem_of_In in Hall. by apply Nat.ltb_lt, Hall.
Defined.
Lemma serialize_ends_witness : goc_json_serialize_value 3 jt3 jh (Some 16%positive) (VAddr 6) "" ≠ hang.
Proof. apply (serialize_ends jt3 jh jrank 16 (VAddr 6) "" 3 jt3_reachable jt3_nesting). vm_compute. lia. Defined.

End JsonRound.
