(* ===== verification/JsonTypes.v ===== *)
(** Theorems on JSON: the built-in serializers, and complex numbers. *)

From S2P Require Import Prelude Schema SchemaProps SchemaVal SchemaValProps Json JsonProps JsonRound.

Module JsonTypes.
Import Schema SchemaProps SchemaVal SchemaValProps Json JsonProps JsonRound.

Section Builtin.
Context {R X : Type} `{LongDouble R} `{Regex X} `{YYJson R} `{Callbacks}.
Notation json := (json R).
Notation types := (@Schema.types R X).
Notation json_types := (JsonRound.json_types (R := R) (X := X)).

(** The callback of a built-in schema, and its internal method. *)
Definition builtin (p : positive) : option Z * option Z :=
  if decide (p = s_schema_null) then (None, Some fn_to_json_null)
  else if decide (p = s_schema_bool) then (None, Some fn_to_json_bool)
  else if decide (p = s_schema_int) then (None, Some fn_to_json_int)
  else if decide (p = s_schema_uint) then (None, Some fn_to_json_uint)
  else if decide (p = s_schema_byte) then (None, Some fn_to_json_byte)
  else if decide (p = s_schema_ubyte) then (None, Some fn_to_json_ubyte)
  else if decide (p = s_schema_real) then (Some fn_to_json_complex, Some fn_to_json_real)
  else if decide (p = s_schema_complex) then (Some fn_to_json_complex, Some fn_to_json_any)
  else if decide (p = s_schema_str) then (None, Some fn_to_json_str)
  else if decide (p = s_schema_arr) then (None, Some fn_to_json_array)
  else if decide (p = s_schema_dict) then (None, Some fn_to_json_dict)
  else (None, Some fn_to_json_any).

(** The built-in serializers.  After initialisation [null], [bool], the integers, [str],
    [arr_any] and [dict_any] are written by their own internal methods and have no callback;
    [number], which has no method of its own, is written by that of [any], as an address; and
    [real] has the method for doubles but inherits the callback of [complex], which comes
    first, so that stringifying a boxed double reads sixteen bytes of its eight. *)
Theorem builtin_serializers :
  (∀ p k q, (p, k, q) ∈ tower (R := R) (X := X) →
     goc_schema_method_get (schemas json_types) (Some p) "goc_json_to_json" = ok (builtin p).1 ∧
     goc_schema_method_get (schemas json_types) (Some p) "_goc_json_to_json" = ok (builtin p).2) ∧
  (∀ fuel h v sz bits path, view h v = ok (Some (OBox T_REAL sz bits)) → sz < 16 →
     goc_json_serialize_value (S fuel) json_types h (Some s_schema_real) v path = ub).
Proof.
  split.
  - intros p k q Hin. unfold tower in Hin; each_edge Hin; split; by vm_compute.
  - intros fuel h v sz bits path Hv Hsz. cbn [goc_json_serialize_value].
    assert (∃ s, get_schema (schemas json_types) s_schema_real = ok s) as [s ->] by (eexists; by vm_compute).
    cbn [mbind res_bind]. assert (goc_schema_method_get (schemas json_types) (Some s_schema_real) "goc_json_to_json" = ok (Some fn_to_json_complex)) as -> by (by vm_compute).
    cbn [mbind res_bind]. rewrite Z.eqb_refl. unfold goc_json_to_json_complex. rewrite Hv. cbn [mbind res_bind]. unfold unbox.
    by rewrite (proj2 (Z.ltb_lt sz 16) Hsz).
Qed.

(** ** Complex numbers *)

Definition tagged_complex (re im : R) : json :=
  JObj [("goc_schema", JStr "goc/complex"); ("goc_value", JObj [("real", JReal re); ("imag", JReal im)])].

(** The schema for complex numbers has its name and its callbacks. *)
Record complex_ready (t : types) : Prop := {
  ready_reachable : rtc schema_step init_types t;
  ready_name : schema_registry t !! "goc/complex" = Some s_schema_complex;
  ready_to_json : goc_schema_method_get (schemas t) (Some s_schema_complex) "goc_json_to_json" = ok (Some fn_to_json_complex);
  ready_read_json : goc_schema_method_get (schemas t) (Some s_schema_complex) "goc_json_read_json" = ok (Some fn_complex_read_json)
}.
Lemma json_types_ready : complex_ready json_types.
Proof. split; [apply json_types_run|by vm_compute..]. Qed.

Lemma ready_schema t : complex_ready t → ∃ s, schemas t !! s_schema_complex = Some s ∧ kind s = SCHEMA_COMPLEX ∧ name s = Some "goc/complex".
Proof.
  intros [Hr Hn _ _]. apply types_reachable_ok in Hr. destruct (ok_tower t Hr s_schema_complex SCHEMA_COMPLEX (Some s_schema_number)) as (s & Hs & Hk & _); [unfold tower; in_list|].
  exists s. apply (ok_names t Hr) in Hn as (s' & Hs' & Hn). rewrite Hs in Hs'. injection Hs' as <-. done.
Qed.

Lemma validate_complex t fuel h v sz bits :
  complex_ready t → view h v = ok (Some (OBox T_COMPLEX sz bits)) → goc_schema_validate (S fuel) (schemas t) h (Some s_schema_complex) v = ok None.
Proof.
  intros Hready Hv. destruct (ready_schema t Hready) as (s & Hs & Hk & _). pose proof (types_reachable_ok t (ready_reachable t Hready)) as Ht.
  unfold goc_schema_validate. cbn [goc_schema_validate_impl]. unfold get_schema. rewrite Hs. cbn [mbind res_bind]. rewrite Hk. cbn [goc_schema_is_base_kind].
  assert (∀ b : verdict, andthen (match parent s with Some _ => ok None | None => ok None end) b = b) as -> by (intros; by destruct (parent s)).
  unfold validate_kind, validate_base. rewrite Hv. cbn [mbind res_bind goc_schema_value_satisfies_base].
  rewrite (tag_verdict t s_schema_complex SCHEMA_COMPLEX (Some s_schema_number) (Some (OBox T_COMPLEX sz bits)) Ht); [|unfold tower; in_list|done].
  done.
Qed.

(** A number that its box keeps. *)
Definition double_ok (r : R) : Prop := 0 <= double_bits r < 2 ^ 64 ∧ ld_decode 8 (double_bits r) = r.

Lemma complex_plain re im : double_ok re → double_ok im → plain true (tagged_complex re im).
Proof.
  intros [Hre Hre'] [Him Him']. assert (∀ a b : string, a ≠ b → NoDup [a; b]) as Hnd.
  { intros a b Hab. apply NoDup_cons. split; [by intros ?%list_elem_of_singleton|apply NoDup_singleton]. }
  simpl. rewrite !Z.mod_small by done. split_and!; try done; by apply Hnd.
Qed.
Lemma unbox_double r : double_ok r → unbox 8 (Some (OBox T_REAL 8 (double_bits r))) = ok (double_bits r).
Proof. intros [Hr _]. unfold unbox. rewrite Z.ltb_irrefl. by rewrite Z.mod_small. Qed.

Lemma prog_run {S A B} (m : prog S A) (f : A → prog S B) s a s' r : m s = ok (a, s') → f a s' = r → (m ≫= f) s = r.
Proof. intros Hm <-. by apply prog_bind_ok. Qed.
Lemma reads_complex t fuel re im m :
  complex_ready t → double_ok re → double_ok im → mem_ok m →
  ∃ p m', goc_json_value_from_yyjson (S fuel) t (tagged_complex re im) m = ok (inl (VAddr p), m') ∧ grows m m' ∧
    jheap m' !! p = Some (OBox T_COMPLEX 16 (double_bits re + WORD * double_bits im)).
Proof.
  intros Hready Hre Him Hm. destruct (alloc_grows (OStr "goc/complex") m Hm) as (m1 & Ha1 & Hg1 & Hl1).
  destruct (alloc_grows (OBox T_REAL 8 (double_bits re)) m1) as (m2 & Ha2 & Hg2 & Hl2); [apply Hg1|].
  destruct (alloc_grows (OBox T_REAL 8 (double_bits im)) m2) as (m3 & Ha3 & Hg3 & Hl3); [apply Hg2|].
  set (kvs := [("real", VAddr (jnext m1)); ("imag", VAddr (jnext m2))]).
  destruct (alloc_grows (ODict 8 2 kvs) m3) as (m4 & Ha4 & Hg4 & Hl4); [apply Hg3|].
  set (kvs' := [("goc_schema", VAddr (jnext m)); ("goc_value", VAddr (jnext m3))]).
  destruct (alloc_grows (ODict 8 2 kvs') m4) as (m5 & Ha5 & Hg5 & Hl5); [apply Hg4|].
  destruct (alloc_grows (OBox T_COMPLEX 16 (double_bits re + WORD * double_bits im)) m5) as (m6 & Ha6 & Hg6 & Hl6); [apply Hg5|].
  exists (jnext m5), m6. split; [|split; [eauto 10 using jmem_grows_trans|done]].
  unfold tagged_complex. cbn [goc_json_value_from_yyjson].
  eapply prog_run; [eapply prog_run; [exact Ha1|reflexivity]|]. cbv beta iota. eapply prog_run.
  { eapply prog_run; [eapply prog_run; [exact Ha2|reflexivity]|]. cbv beta iota.
    eapply prog_run; [eapply prog_run; [exact Ha3|reflexivity]|]. cbv beta iota.
    change (dict_set (dict_set new_dict "real" (VAddr (jnext m1))) "imag" (VAddr (jnext m2))) with (ODict 8 2 kvs).
    eapply prog_run; [exact Ha4|]. apply untagged. by apply (bool_decide_unpack _). }
  cbv beta iota.
  change (dict_set (dict_set new_dict "goc_schema" (VAddr (jnext m))) "goc_value" (VAddr (jnext m3))) with (ODict 8 2 kvs').
  eapply prog_run; [exact Ha5|]. unfold tagged.
  assert (∀ p o m', jheap m' !! p = Some o → jheap m' ⊆ jheap m5 → jheap m5 !! p = Some o) as Hup by (intros; by eapply lookup_weaken).
  assert (jheap m1 ⊆ jheap m5 ∧ jheap m2 ⊆ jheap m5 ∧ jheap m3 ⊆ jheap m5 ∧ jheap m4 ⊆ jheap m5) as (Hs1 & Hs2 & Hs3 & Hs4).
  { destruct Hg1, Hg2, Hg3, Hg4, Hg5. split_and!; repeat (done || etrans). }
  change (dict_get kvs' "goc_schema") with (VAddr (jnext m)). simpl view. rewrite (Hup _ _ m1 Hl1 Hs1). cbn [mbind res_bind].
  cbn [goc_schema_is_string negb str_of mbind res_bind]. unfold goc_schema_lookup. rewrite (ready_name t Hready).
  rewrite (ready_read_json t Hready). cbn [mbind res_bind]. rewrite Z.eqb_refl.
  change (dict_get kvs' "goc_value") with (VAddr (jnext m3)). simpl negb. cbv iota.
  assert (goc_json_complex_read_json (VAddr (jnext m3)) m5 = ok (VAddr (jnext m5), m6)) as ->.
  { unfold goc_json_complex_read_json. simpl view. rewrite (Hup _ _ m4 Hl4 Hs4). cbn [mbind res_bind].
    assert (goc_schema_is_goc_dict (Some (ODict 8 2 kvs)) = true) as -> by done.
    unfold get_unboxed_double. assert (dict_contains kvs "real" = true ∧ dict_contains kvs "imag" = true) as [-> ->] by done.
    change (dict_get kvs "real") with (VAddr (jnext m1)). change (dict_get kvs "imag") with (VAddr (jnext m2)). simpl view.
    rewrite (Hup _ _ m2 Hl2 Hs2), (Hup _ _ m3 Hl3 Hs3). cbn [mbind res_bind]. rewrite !unbox_double by done. cbn [mbind res_bind].
    destruct Hre as [_ ->], Him as [_ ->]. exact Ha6. }
  cbn [mbind res_bind]. rewrite (validate_complex t fuel _ _ 16 (double_bits re + WORD * double_bits im) Hready); [done|].
  simpl view. by rewrite Hl6.
Qed.

(** Complex numbers.  A boxed complex number, whose parts print and read back as the same
    doubles, is stringified as an object tagged with the name of the schema; parsing that
    text calls the schema's reader and returns a boxed complex number with the same parts. *)
Theorem complex_roundtrip `{!YYJsonOk} t fuel h v bits re im text m :
  complex_ready t → view h v = ok (Some (OBox T_COMPLEX 16 bits)) → 0 <= bits < 2 ^ 128 →
  re = ld_decode 8 (bits mod WORD) → im = ld_decode 8 (bits `div` WORD) →
  yyjson_read (complex_text "goc/complex" re im) = inl (tagged_complex re im) →
  yyjson_write false (tagged_complex re im) = Some text → mem_ok m →
  goc_json_stringify (S fuel) t h (Some s_schema_complex) v = ok (inl text) ∧
  ∃ p m' bits', goc_json_parse (S fuel) t text m = ok (inl (VAddr p), m') ∧ grows m m' ∧
    jheap m' !! p = Some (OBox T_COMPLEX 16 bits') ∧ ld_decode 8 (bits' mod WORD) = re ∧ ld_decode 8 (bits' `div` WORD) = im.
Proof.
  intros Hready Hv Hbits Hre Him Htext Hw Hm.
  assert (double_ok re ∧ double_ok im) as [Hdre Hdim].
  { unfold double_ok. rewrite Hre, Him. unfold WORD. split; apply double_back; [dlia|].
    change 18446744073709551616 with (2 ^ 64). change (2 ^ 128) with (2 ^ 64 * 2 ^ 64) in Hbits. dlia. }
  split.
  - destruct (ready_schema t Hready) as (s & Hs & _ & Hname). unfold goc_json_stringify, goc_json_stringify_internal.
    rewrite (validate_complex t fuel h v 16 bits Hready Hv). cbn [mbind res_bind goc_json_serialize_value].
    unfold get_schema. rewrite Hs. cbn [mbind res_bind]. rewrite (ready_to_json t Hready). cbn [mbind res_bind]. rewrite Z.eqb_refl.
    unfold goc_json_to_json_complex. rewrite Hv. cbn [mbind res_bind]. unfold unbox. rewrite Z.ltb_irrefl. cbn [mbind res_bind].
    rewrite (Z.mod_small bits) by (change (8 * 16) with 128; lia). rewrite Hname. cbn [default from_option id]. rewrite <- Hre, <- Him. unfold goc_json_parse_json_string.
    rewrite Htext. cbn [mbind res_bind]. by rewrite Hw.
  - unfold goc_json_parse. rewrite (yyjson_back false (tagged_complex re im) text); [|apply complex_plain; done|done].
    destruct (reads_complex t fuel re im m Hready Hdre Hdim Hm) as (p & m' & Hr & Hg & Hl).
    exists p, m', (double_bits re + WORD * double_bits im). split; [exact Hr|]. split; [done|]. split; [done|].
    destruct Hdre as [Hr1 Hr2], Hdim as [Hi1 Hi2]. unfold WORD in *.
    assert ((double_bits re + 18446744073709551616 * double_bits im) mod 18446744073709551616 = double_bits re) as -> by dlia.
    assert ((double_bits re + 18446744073709551616 * double_bits im) `div` 18446744073709551616 = double_bits im) as -> by dlia. done.
Qed.

End Builtin.

(** ** Witnesses: a boxed double, and a complex number of which both parts are 3. *)

#[local] Existing Instance z_reals.
#[local] Existing Instance literals.
#[local] Existing Instance two_docs.
#[local] Existing Instance two_docs_ok.
#[local] Existing Instance no_callbacks.
Definition ch : heap := {[ 1%positive := OBox T_REAL 8 3; 2%positive := OBox T_COMPLEX 16 (3 + WORD * 3) ]}.

Lemma builtin_serializers_witness :
  goc_schema_method_get (schemas (json_types (R := Z) (X := string))) (Some s_schema_number) "_goc_json_to_json" = ok (Some fn_to_json_any) ∧
  goc_json_serialize_value 1 (json_types (X := string)) ch (Some s_schema_real) (VAddr 1) "" = ub.
Proof.
  destruct (builtin_serializers (R := Z) (X := string)) as [Htable Hreal]. split.
  - apply (Htable s_schema_number SCHEMA_NUMBER (Some s_schema_any)). unfold tower; in_list.
  - apply (Hreal 0%nat ch (VAddr 1) 8 3 ""); [reflexivity|lia].
Defined.

Lemma complex_roundtrip_witness :
  goc_json_stringify 2 json_types ch (Some s_schema_complex) (VAddr 2) = ok (inl doc2_text) ∧
  ∃ p m' bits', goc_json_parse 2 (json_types (X := string)) doc2_text (mk_jmem ∅ 1) = ok (inl (VAddr p), m') ∧ grows (mk_jmem ∅ 1) m' ∧
    jheap m' !! p = Some (OBox T_COMPLEX 16 bits') ∧ ld_decode 8 (bits' mod WORD) = 3 ∧ ld_decode 8 (bits' `div` WORD) = 3.
Proof.
  apply (complex_roundtrip (json_types (X := string)) 1 ch (VAddr 2) (3 + WORD * 3) 3 3 doc2_text (mk_jmem ∅ 1));
    [apply json_types_ready|reflexivity|done|done|by vm_compute|by vm_compute|by vm_compute|].
  intros p _. apply lookup_empty.
Defined.
End JsonTypes.
