(* ===== verification/Http.v ===== *)
(** HTTP text (goc_http.c): status lines, routes, headers, URLs, the responses the server
    writes and the client parses, and the requests the client writes.

    A C string is the list of its characters before the terminator; a buffer with a length
    is a list that may hold any character.  The declared behaviour of the C library
    ([strcmp], [strncmp], [strcasecmp], [isspace], [memchr], [strstr], [atoi], [atol],
    [sscanf], [snprintf]) is written out in the C locale; a number that does not fit its
    type is undefined behaviour there, [ub] here. *)

From Stdlib Require Import Ascii String.
From S2P Require Import Prelude.

Module Http.

Definition cstr : Type := list ascii.
Definition lit (s : string) : cstr := String.list_ascii_of_string s.

Definition NUL : ascii := "000".
Definition CR : ascii := "013".
Definition LF : ascii := "010".
Definition crlf : cstr := [CR; LF].

(** ** The C library *)

Definition code (c : ascii) : Z := Z.of_nat (nat_of_ascii c).
Definition tolower (c : ascii) : ascii :=
  if (65 <=? code c) && (code c <=? 90) then ascii_of_nat (nat_of_ascii c + 32) else c.
Definition isspace (c : ascii) : bool := (code c =? 32) || ((9 <=? code c) && (code c <=? 13)).

(** [strcmp(a, b) == 0], [strcasecmp(a, b) == 0], [strncmp(a, b, n) == 0]. *)
Definition streq (a b : cstr) : bool := bool_decide (a = b).
Definition strcaseeq (a b : cstr) : bool := streq (tolower <$> a) (tolower <$> b).
Definition strneq (n : nat) (a b : cstr) : bool := streq (take n a) (take n b).

Fixpoint skip_space (l : cstr) : cstr :=
  match l with c :: l' => if isspace c then skip_space l' else l | [] => [] end.
Definition rstrip (l : cstr) : cstr := rev (skip_space (rev l)).

(** The string at the start of a buffer. *)
Fixpoint to_nul (l : cstr) : cstr :=
  match l with c :: l' => if bool_decide (c = NUL) then [] else c :: to_nul l' | [] => [] end.

(** [memchr]: what is before the first [c], and what is after it. *)
Fixpoint split_at (c : ascii) (l : cstr) : option (cstr * cstr) :=
  match l with
  | [] => None
  | x :: l' => if bool_decide (x = c) then Some ([], l') else '(a, b) ← split_at c l'; Some (x :: a, b)
  end.

(** [strstr]: what follows the first occurrence. *)
Fixpoint after_sub (pat l : cstr) : option cstr :=
  if bool_decide (take (length pat) l = pat) then Some (drop (length pat) l)
  else match l with [] => None | _ :: l' => after_sub pat l' end.

(** [%zu] and [%d]. *)
Definition digit (d : Z) : ascii := ascii_of_nat (48 + Z.to_nat d).
Fixpoint digits (fuel : nat) (n : Z) : cstr :=
  match fuel with
  | O => []
  | S fuel => if n <? 10 then [digit n] else (digits fuel (n / 10) ++ [digit (n mod 10)])%list
  end.
Definition fmt_zu (n : Z) : cstr := digits 20 n.
Definition fmt_d (n : Z) : cstr := if n <? 0 then ("-"%char :: digits 20 (- n))%list else digits 20 n.

(** The number at the start of a string, as [strtol] and [sscanf] read it. *)
Definition digit_val (c : ascii) : option Z := if (48 <=? code c) && (code c <=? 57) then Some (code c - 48) else None.
Fixpoint digits_val (acc : Z) (l : cstr) : Z * cstr :=
  match l with
  | c :: l' => match digit_val c with Some d => digits_val (acc * 10 + d) l' | None => (acc, l) end
  | [] => (acc, [])
  end.
Definition scan_digits (l : cstr) : option (Z * cstr) :=
  match l with c :: _ => if digit_val c then Some (digits_val 0 l) else None | [] => None end.
Definition scan_int (l : cstr) : option (Z * cstr) :=
  match skip_space l with
  | "-"%char :: l' => '(z, r) ← scan_digits l'; Some (- z, r)
  | "+"%char :: l' => scan_digits l'
  | l' => scan_digits l'
  end.
Definition fits (bits : Z) (z : Z) : bool := (- 2 ^ (bits - 1) <=? z) && (z <? 2 ^ (bits - 1)).
Definition ato (bits : Z) (l : cstr) : res Z :=
  match scan_int l with None => ok 0 | Some (z, _) => if fits bits z then ok z else ub end.
Definition atoi : cstr → res Z := ato 32.
Definition atol : cstr → res Z := ato 64.

(** ** Status lines and routes *)

Definition http_status_str (status : Z) : cstr :=
  lit (if status =? 100 then "Continue" else if status =? 200 then "OK" else if status =? 201 then "Created"
       else if status =? 204 then "No Content" else if status =? 206 then "Partial Content"
       else if status =? 301 then "Moved Permanently" else if status =? 302 then "Found"
       else if status =? 304 then "Not Modified" else if status =? 400 then "Bad Request"
       else if status =? 401 then "Unauthorized" else if status =? 403 then "Forbidden"
       else if status =? 404 then "Not Found" else if status =? 405 then "Method Not Allowed"
       else if status =? 408 then "Request Timeout" else if status =? 409 then "Conflict"
       else if status =? 415 then "Unsupported Media Type" else if status =? 422 then "Unprocessable Entity"
       else if status =? 429 then "Too Many Requests" else if status =? 500 then "Internal Server Error"
       else if status =? 501 then "Not Implemented" else if status =? 503 then "Service Unavailable" else "Unknown").

Record goc_route_t := mk_route { rmethod : cstr; pattern : cstr; handler : Z }.
(** [routes] holds [n_routes] entries in a block of [cap_routes]. *)
Record routes_t := mk_routes { routes : list goc_route_t; cap_routes : Z }.
Definition no_routes : routes_t := mk_routes [] 8.

Definition goc_http_server_route (method pat : cstr) (h : Z) (s : routes_t) : res routes_t :=
  let n := Z.of_nat (length (routes s)) in
  let cap := if cap_routes s <=? n then cap_routes s * 2 else cap_routes s in
  if n <? cap then ok (mk_routes (routes s ++ [mk_route method pat h]) cap) else ub.

Definition route_match (method path rmeth rpat : cstr) : bool :=
  if negb (streq rmeth (lit "*")) && negb (streq rmeth method) then false
  else if streq rpat (lit "/*") then true
  else
    let plen := length rpat in
    if (0 <? plen)%nat && bool_decide (rpat !! (plen - 1)%nat = Some "*"%char) then strneq (plen - 1) path rpat
    else if streq path rpat then true
    else strneq plen path rpat && match path !! plen with Some c => bool_decide (c = "/"%char) | None => true end.

(** The search of [handle_conn_fiber]: the first route that matches. *)
Fixpoint find_route (method path : cstr) (rs : list goc_route_t) : option goc_route_t :=
  match rs with
  | [] => None
  | r :: rs => if route_match method path (rmethod r) (pattern r) then Some r else find_route method path rs
  end.

(** ** Headers *)

Definition header : Type := cstr * cstr.

(** [headers] are slices of the request, as picohttpparser gives them. *)
Fixpoint request_wants_keepalive (headers : list header) (minor_version : Z) : bool :=
  match headers with
  | [] => 1 <=? minor_version
  | (name, value) :: hs =>
      if (length name =? 10)%nat && strcaseeq name (lit "connection") then
        if (length value =? 5)%nat && strcaseeq value (lit "close") then false
        else if (length value =? 10)%nat && strcaseeq value (lit "keep-alive") then true
        else request_wants_keepalive hs minor_version
      else request_wants_keepalive hs minor_version
  end.

Fixpoint goc_http_server_header (headers : list header) (name : cstr) : option cstr :=
  match headers with
  | [] => None
  | (n, v) :: hs => if strcaseeq n name then Some v else goc_http_server_header hs name
  end.

Definition goc_http_server_body_str (body : option cstr) (body_len : Z) : cstr :=
  match body with Some b => if body_len =? 0 then [] else b | None => [] end.

(** ** Responses *)

Definition response_head (status : Z) (content_type : cstr) (len : Z) (keep_alive : bool) : cstr :=
  lit "HTTP/1.1 " ++ fmt_d status ++ lit " " ++ http_status_str status ++ crlf ++
  lit "Content-Type: " ++ content_type ++ crlf ++
  lit "Content-Length: " ++ fmt_zu len ++ crlf ++
  lit "Connection: " ++ lit (if keep_alive then "keep-alive" else "close") ++ crlf ++ crlf.

(** The bytes that are written. *)
Definition goc_http_server_respond_buf (status : Z) (content_type : option cstr) (buf : cstr) (keep_alive : bool) : cstr :=
  let content_type := default (lit "text/plain") content_type in
  let hdr_max := 128 + Z.of_nat (length content_type) + 32 in
  let head := response_head status content_type (Z.of_nat (length buf)) keep_alive in
  if hdr_max <=? Z.of_nat (length head) then lit "HTTP/1.1 500 Internal Server Error" ++ crlf ++ crlf
  else head ++ buf.
Definition goc_http_server_respond (status : Z) (content_type body : option cstr) (keep_alive : bool) : cstr :=
  goc_http_server_respond_buf status content_type (default [] body) keep_alive.
Definition goc_http_server_respond_error (status : Z) (message : option cstr) (keep_alive : bool) : cstr :=
  goc_http_server_respond status (Some (lit "text/plain")) (Some (default [] message)) keep_alive.

Record goc_http_response_t := mk_response { status : Z; headers : list header; body : cstr }.

Fixpoint find_eoh (i : nat) (l : cstr) : option nat :=
  match l with
  | [] => None
  | a :: l' =>
      if bool_decide (take 4 l = crlf ++ crlf) then Some (i + 4)%nat else find_eoh (S i) l'
  end.

(** [sscanf(buf, "HTTP/%d.%d %d", ...)]: the third number, or 0. *)
Definition scan_d (l : cstr) : res (option (Z * cstr)) :=
  match scan_int l with None => ok None | Some (z, r) => if fits 32 z then ok (Some (z, r)) else ub end.
Definition scan_status (buf : cstr) : res Z :=
  if bool_decide (take 5 buf = lit "HTTP/") then
    major ← scan_d (drop 5 buf);
    match major with
    | Some (_, "."%char :: r) =>
        minor ← scan_d r;
        match minor with
        | Some (_, r) => st ← scan_d (skip_space r); ok (match st with Some (z, _) => z | None => 0 end)
        | None => ok 0
        end
    | _ => ok 0
    end
  else ok 0.

(** The loop over the header lines: [l] is what is left of them. *)
Fixpoint header_loop (fuel : nat) (l : cstr) (hs : list header) (content_length : Z) : res (list header * Z) :=
  match fuel with
  | O => hang
  | S fuel =>
      if (length l <? 2)%nat then ok (hs, content_length)
      else
        match split_at LF l with
        | None => ok (hs, content_length)
        | Some (line, rest) =>
            match split_at ":" line with
            | None => header_loop fuel rest hs content_length
            | Some (n, v) =>
                let name := to_nul (rstrip n) in
                let value := to_nul (rstrip (skip_space v)) in
                cl ← (if strcaseeq name (lit "content-length") then atol value else ok content_length);
                header_loop fuel rest (hs ++ [(name, value)]) cl
            end
        end
  end.

(** The response, where its body starts and its declared length; [None] if the headers
    are not complete. *)
Definition parse_response_head_buf (buf : cstr) : res (option (goc_http_response_t * nat * Z)) :=
  match find_eoh 0 buf with
  | None => ok None
  | Some eoh =>
      st ← scan_status buf;
      match split_at LF buf with
      | None => ok (Some (mk_response st [] [], eoh, -1))
      | Some (first, _) =>
          '(hs, cl) ← header_loop (S eoh) (drop (length first + 1) (take eoh buf)) [] (-1);
          ok (Some (mk_response st hs [], eoh, cl))
      end
  end.

Definition response_has_connection_close (hs : list header) : bool :=
  existsb (λ h, strcaseeq h.1 (lit "connection") && strcaseeq h.2 (lit "close")) hs.

(** ** Requests *)

(** A buffer of [cap] bytes that [snprintf] appends to; [pos] counts what it was asked to
    write.  Appending where [pos] has passed the end of the buffer is undefined. *)
Record out_buf := mk_buf { cap : Z; pos : Z; bytes : cstr }.
Definition append (s : cstr) (b : out_buf) : res out_buf :=
  if pos b <=? cap b
  then ok (mk_buf (cap b) (pos b + Z.of_nat (length s)) (bytes b ++ take (Z.to_nat (cap b - pos b - 1)) s))
  else ub.
Definition append_raw (s : cstr) (b : out_buf) : res out_buf :=
  if pos b + Z.of_nat (length s) <=? cap b then ok (mk_buf (cap b) (pos b + Z.of_nat (length s)) (bytes b ++ s)) else ub.

Definition has_char (c : ascii) (s : cstr) : bool := bool_decide (c ∈ s).
Definition safe_header (h : header) : bool :=
  negb (has_char CR h.1) && negb (has_char LF h.1) && negb (has_char CR h.2) && negb (has_char LF h.2).

Definition header_line (h : header) : cstr := h.1 ++ lit ": " ++ h.2 ++ crlf.
Fixpoint append_headers (hs : list (option header)) (b : out_buf) : res out_buf :=
  match hs with
  | [] => ok b
  | Some h :: hs => b ← (if safe_header h then append (header_line h) b else ok b); append_headers hs b
  | None :: hs => append_headers hs b
  end.

Definition header_room (h : option header) : Z :=
  match h with Some h => Z.of_nat (length h.1) + Z.of_nat (length h.2) + 4 | None => 0 end.
Definition request_cap (method host pq : cstr) (ct : option cstr) (body_len : Z) (extra : option (list (option header))) : Z :=
  Z.of_nat (length method) + Z.of_nat (length pq) + Z.of_nat (length host) + 256 +
  (match ct with Some ct => Z.of_nat (length ct) + 40 | None => 0 end) + body_len +
  (match extra with Some hs => foldr Z.add 0 (header_room <$> hs) | None => 0 end).

Definition request_line (method host pq : cstr) (keep_alive : bool) : cstr :=
  method ++ lit " " ++ pq ++ lit " HTTP/1.1" ++ crlf ++ lit "Host: " ++ host ++ crlf ++
  lit "Connection: " ++ lit (if keep_alive then "keep-alive" else "close") ++ crlf.
Definition content_lines (ct : option cstr) (body_len : Z) : cstr :=
  match ct with
  | Some ct => if 0 <? body_len then lit "Content-Type: " ++ ct ++ crlf ++ lit "Content-Length: " ++ fmt_zu body_len ++ crlf else []
  | None => []
  end.

(** [body] is absent or has [body_len] bytes. *)
Definition build_request (method host pq : cstr) (ct : option cstr) (body : option cstr) (body_len : Z)
    (keep_alive : bool) (extra : option (list (option header))) : res cstr :=
  let b := mk_buf (request_cap method host pq ct body_len extra) 0 [] in
  b ← append (request_line method host pq keep_alive) b;
  b ← (match ct with Some _ => if 0 <? body_len then append (content_lines ct body_len) b else ok b | None => ok b end);
  b ← (match extra with Some hs => append_headers hs b | None => ok b end);
  b ← append crlf b;
  b ← (match body with Some body => if 0 <? body_len then append_raw body b else ok b | None => ok b end);
  ok (bytes b).

(** ** URLs *)

Fixpoint last_colon (i : nat) (l : cstr) (colon : option nat) : option nat :=
  match l with
  | [] => colon
  | c :: l => last_colon (S i) l (if bool_decide (c = ":"%char) then Some i else colon)
  end.

(** Host, port and path; [None] is the error code. *)
Definition parse_url (url : cstr) : res (option (cstr * Z * cstr)) :=
  match after_sub (lit "://") url with
  | None => ok None
  | Some p =>
      let '(auth, path) := match split_at "/" p with Some (a, r) => (a, "/"%char :: r) | None => (p, lit "/") end in
      match last_colon 0 auth None with
      | Some colon =>
          port ← atoi (drop (S colon) p);
          ok (Some (take colon auth, port mod 65536, path))
      | None => ok (Some (auth, 80, path))
      end
  end.

End Http.
