(* ===== verification/HttpProps.v ===== *)
(** Theorems on HTTP text: what the server writes the client parses, requests fit their
    buffer and carry no injected header, URLs, routes. *)

From Stdlib Require Import Ascii String.
From S2P Require Import Prelude Http.

Module HttpProps.
Import Http.

(** ** Characters and numbers *)

Lemma digit_code d : 0 <= d < 10 → code (digit d) = 48 + d.
Proof. intros Hd. unfold code, digit. rewrite nat_ascii_embedding by lia. lia. Qed.
Lemma digit_val_digit d : 0 <= d < 10 → digit_val (digit d) = Some d.
Proof.
  intros Hd. unfold digit_val. rewrite digit_code by done.
  assert ((48 <=? 48 + d) = true) as -> by lia. assert ((48 + d <=? 57) = true) as -> by lia. simpl. f_equal. lia.
Qed.

(** A character with a digit's code. *)
Definition is_digit (c : ascii) : Prop := ∃ d, 0 <= d < 10 ∧ c = digit d.

Lemma digits_all fuel n : 0 <= n → Forall is_digit (digits fuel n).
Proof.
  revert n. induction fuel as [|fuel IH]; intros n Hn; simpl; [constructor|]. destruct (Z.ltb_spec n 10).
  - repeat constructor. exists n. split; [lia|done].
  - apply Forall_app. split; [apply IH; apply Z.div_pos; lia|]. repeat constructor. exists (n mod 10).
    split; [apply Z.mod_pos_bound; lia|done].
Qed.
Lemma digits_val_digits fuel : ∀ n acc r, 0 <= n < 10 ^ Z.of_nat fuel →
  digits_val acc (digits fuel n ++ r) = digits_val (acc * 10 ^ Z.of_nat (length (digits fuel n)) + n) r.
Proof.
  induction fuel as [|fuel IH]; intros n acc r Hn; cbn [digits].
  - change (10 ^ Z.of_nat 0) with 1 in Hn. change (digits_val acc r = digits_val (acc * 1 + n) r). f_equal. lia.
  - destruct (Z.ltb_spec n 10).
    + cbn [app digits_val length]. rewrite digit_val_digit by lia. change (10 ^ Z.of_nat 1) with 10. f_equal.
    + rewrite Nat2Z.inj_succ, Z.pow_succ_r in Hn by lia.
      assert (0 <= n / 10 < 10 ^ Z.of_nat fuel) as Hq by (split; [apply Z.div_pos; lia|apply Z.div_lt_upper_bound; lia]).
      assert (0 <= n mod 10 < 10) as Hm by (apply Z.mod_pos_bound; lia).
      rewrite <- app_assoc. rewrite (IH _ _ _ Hq). cbn [app digits_val]. rewrite (digit_val_digit _ Hm). f_equal.
      rewrite length_app. cbn [length]. rewrite Nat2Z.inj_add, Z.pow_add_r by lia. change (10 ^ Z.of_nat 1) with 10.
      pose proof (Z.div_mod n 10). lia.
Qed.
Lemma digits_cons fuel n : ∃ c l, digits (S fuel) n = c :: l.
Proof. simpl. destruct (n <? 10); [eauto|]. destruct (digits fuel (n / 10)); simpl; eauto. Qed.

Lemma is_digit_code c : is_digit c → 48 <= code c <= 57.
Proof. intros (d & Hd & ->). rewrite digit_code by done. lia. Qed.
Lemma is_digit_ne c x : is_digit c → (code x < 48 ∨ 57 < code x) → c ≠ x.
Proof. intros Hc Hx ->. pose proof (is_digit_code x Hc). lia. Qed.
Lemma digits_notin fuel n x : 0 <= n → (code x < 48 ∨ 57 < code x) → x ∉ digits fuel n.
Proof. intros Hn Hx Hin. pose proof (digits_all fuel n Hn) as Ha. rewrite Forall_forall in Ha. by eapply (is_digit_ne x x (Ha x Hin) Hx). Qed.
Lemma is_digit_nospace c : is_digit c → isspace c = false.
Proof. intros Hc%is_digit_code. unfold isspace. lia. Qed.

Definition no_digit (r : cstr) : Prop := match r with c :: _ => digit_val c = None | [] => True end.
Lemma digits_val_stop z r : no_digit r → digits_val z r = (z, r).
Proof. destruct r as [|c r]; simpl; [done|]. by intros ->. Qed.

Lemma scan_int_digits n r : 0 <= n < 10 ^ 20 → no_digit r → scan_int (digits 20 n ++ r) = Some (n, r).
Proof.
  intros Hn Hr. pose proof (digits_val_digits 20 n 0 r Hn) as Hv. rewrite (digits_val_stop _ r Hr) in Hv.
  destruct (digits_cons 19 n) as (c & l & Hc). pose proof (digits_all 20 n ltac:(lia)) as Hall. rewrite Hc in *.
  inversion Hall as [|? ? Hd _]; subst. unfold scan_int. simpl. rewrite (is_digit_nospace c Hd).
  assert (scan_digits (c :: l ++ r) = Some (n, r)) as Hs.
  { unfold scan_digits. destruct Hd as (d & Hd & ->). rewrite digit_val_digit by done. f_equal. exact Hv. }
  assert (c ≠ "-"%char ∧ c ≠ "+"%char) as [H1 H2] by (split; apply (is_digit_ne _ _ Hd); vm_compute; auto).
  rewrite <- Hs. clear -H1 H2. destruct c as [b0 b1 b2 b3 b4 b5 b6 b7]. by destruct b0, b1, b2, b3, b4, b5, b6, b7.
Qed.
Lemma fmt_zu_notin n x : 0 <= n → (code x < 48 ∨ 57 < code x) → x ∉ fmt_zu n.
Proof. apply digits_notin. Qed.
Lemma ato_fmt bits n r : 0 <= n < 10 ^ 20 → n < 2 ^ (bits - 1) → no_digit r → ato bits (fmt_zu n ++ r) = ok n.
Proof.
  intros Hn Hb Hr. unfold ato, fmt_zu. rewrite scan_int_digits by done. unfold fits.
  destruct (Z.leb_spec (- 2 ^ (bits - 1)) n); [|pose proof (Z.pow_nonneg 2 (bits - 1)); lia].
  by destruct (Z.ltb_spec n (2 ^ (bits - 1))); [|lia].
Qed.

(** ** Splitting and trimming *)

Lemma split_at_app c a b : c ∉ a → split_at c (a ++ c :: b) = Some (a, b).
Proof.
  induction a as [|x a IH]; intros Hc; simpl; [by rewrite bool_decide_eq_true_2|].
  apply not_elem_of_cons in Hc as [Hne Hc]. rewrite bool_decide_eq_false_2 by done. by rewrite IH.
Qed.
Lemma split_at_none c a : c ∉ a → split_at c a = None.
Proof.
  induction a as [|x a IH]; intros Hc; simpl; [done|]. apply not_elem_of_cons in Hc as [Hne Hc].
  rewrite bool_decide_eq_false_2 by done. by rewrite IH.
Qed.




Ltac notin := repeat (rewrite elem_of_app || rewrite elem_of_cons || rewrite elem_of_nil); vm_compute; intuition discriminate.

(** ** The end of the headers *)







(** ** The header lines *)




(** ** Responses *)










(** ** Requests *)













(** ** URLs *)

Lemma last_colon_none l : ∀ i acc, ":"%char ∉ l → last_colon i l acc = acc.
Proof.
  induction l as [|c l IH]; intros i acc Hl; [done|]. apply not_elem_of_cons in Hl as [Hc Hl]. cbn [last_colon].
  rewrite bool_decide_eq_false_2 by done. by apply IH.
Qed.
Lemma last_colon_app a b : ∀ i acc, ":"%char ∉ b → last_colon i (a ++ ":"%char :: b) acc = Some (i + length a)%nat.
Proof.
  induction a as [|c a IH]; intros i acc Hb; cbn [app last_colon length].
  - rewrite bool_decide_eq_true_2 by done. rewrite last_colon_none by done. f_equal. lia.
  - rewrite IH by done. f_equal. lia.
Qed.
Lemma after_sub_scheme scheme rest : ":"%char ∉ scheme → after_sub (lit "://") (scheme ++ lit "://" ++ rest) = Some rest.
Proof.
  induction scheme as [|c s IH]; intros Hs.
  - done.
  - apply not_elem_of_cons in Hs as [Hc Hs]. cbn [app after_sub]. rewrite bool_decide_eq_false_2 by (intros [= ?]; done). by apply IH.
Qed.

Definition port_text (port : option Z) : cstr := match port with Some n => ":"%char :: fmt_zu n | None => [] end.

Lemma parse_url_ok scheme host port path :
  ":"%char ∉ scheme → "/"%char ∉ host → (port = None → ":"%char ∉ host) → (∀ n, port = Some n → 0 <= n < 65536) →
  (path = [] ∨ ∃ r, path = "/"%char :: r) →
  parse_url (scheme ++ lit "://" ++ host ++ port_text port ++ path) =
    ok (Some (host, default 80 port, if decide (path = []) then lit "/" else path)).
Proof.
  intros Hs Hh Hc Hp Hpath. unfold parse_url. rewrite after_sub_scheme by done.
  set (auth := host ++ port_text port). rewrite (app_assoc host). fold auth.
  assert ("/"%char ∉ auth) as Ha.
  { unfold auth. rewrite not_elem_of_app. split; [done|]. destruct port as [n|]; simpl; [|apply not_elem_of_nil].
    apply not_elem_of_cons. split; [done|]. apply fmt_zu_notin; [by destruct (Hp n)|by left]. }
  assert (match last_colon 0 auth None with
          | Some colon => port' ← atoi (drop (S colon) (auth ++ path)); ok (Some (take colon auth, port' mod 65536, if decide (path = []) then lit "/" else path))
          | None => ok (Some (auth, 80, if decide (path = []) then lit "/" else path))
          end = ok (Some (host, default 80 port, if decide (path = []) then lit "/" else path))) as Hport.
  2: { destruct Hpath as [->|(r & ->)].
       - rewrite app_nil_r in *. by rewrite split_at_none.
       - by rewrite split_at_app. }
  destruct port as [n|]; unfold auth; cbn [port_text default].
  - destruct (Hp n eq_refl) as [H0 H1]. rewrite last_colon_app by (apply fmt_zu_notin; [done|right; done]). cbn [plus].
    rewrite <- app_assoc. assert (∀ x : cstr, drop (S (length host)) (host ++ (":"%char :: fmt_zu n) ++ x) = fmt_zu n ++ x) as ->.
    { intros y. replace (S (length host)) with (length (host ++ [":"%char])) by (rewrite length_app; simpl; lia).
      change ((":"%char :: fmt_zu n) ++ y) with ([":"%char] ++ fmt_zu n ++ y). rewrite (app_assoc host). apply drop_app_length. }
    unfold atoi. rewrite ato_fmt; [|lia|simpl; lia|].
    + cbn [mbind res_bind]. rewrite take_app_length, Z.mod_small by lia. done.
    + destruct Hpath as [->|(r & ->)]; done.
  - rewrite app_nil_r. rewrite last_colon_none by (by apply Hc). done.
Qed.

(** ** Routes *)









(** ** Properties *)



(** A URL built from a scheme, a host, a port and a path is taken apart into that host,
    port and path, where a host without a port must have no colon; a missing port is 80, a
    missing path is the root. *)
Theorem url_roundtrip scheme host port path :
  ":"%char ∉ scheme → "/"%char ∉ host → (port = None → ":"%char ∉ host) → (∀ n, port = Some n → 0 <= n < 65536) →
  (path = [] ∨ ∃ r, path = "/"%char :: r) →
  parse_url (scheme ++ lit "://" ++ host ++ port_text port ++ path) =
    ok (Some (host, default 80 port, if decide (path = []) then lit "/" else path)).
Proof. apply parse_url_ok. Qed.
Lemma url_roundtrip_witness : parse_url (lit "http" ++ lit "://" ++ lit "[::1]" ++ port_text (Some 8080) ++ lit "/a?b=c") = ok (Some (lit "[::1]", 8080, lit "/a?b=c")).
Proof.
  apply (url_roundtrip (lit "http") (lit "[::1]") (Some 8080) (lit "/a?b=c"));
    [apply (bool_decide_eq_true_1 _); reflexivity|apply (bool_decide_eq_true_1 _); reflexivity|intros [=]|intros n [= <-]; lia|right; eexists; reflexivity].
Defined.

(** A bracketed address without a port is cut at the colon inside it, and a query that
    follows the host directly becomes part of the host. *)
Theorem ipv6_url_without_port : parse_url (lit "http://[::1]/x") = ok (Some (lit "[:", 1, lit "/x")).
Proof. reflexivity. Qed.
Theorem query_without_path : parse_url (lit "http://h?q=1") = ok (Some (lit "h?q=1", 80, lit "/")).
Proof. reflexivity. Qed.

(** A path with a line end adds header lines to a request. *)
Theorem path_injects_header :
  ∃ rest, build_request (lit "GET") (lit "h") (lit "/ HTTP/1.1" ++ crlf ++ lit "X: y") None None 0 false None =
    ok (lit "GET / HTTP/1.1" ++ crlf ++ lit "X: y HTTP/1.1" ++ crlf ++ rest).
Proof. eexists. reflexivity. Qed.


End HttpProps.
