(* ===== verification/HttpPool.v ===== *)
(** The connections of the HTTP client (goc_http.c 115-380, 2065-3590): the slots, the
    stacks of idle connections, their sweeps, the waiting for a slot, and the fiber that
    carries out a request.

    A request fiber runs from one wait to the next as one transition; what it waits for
    (name lookup, connect, write, read, a slot) is the event that resumes it.  The counters,
    the stacks and the registry are each used under their lock or by one atomic access, and
    an operation on them is part of the transition.  The links of an idle stack are a list.
    Handles are closed by the loop thread: [closes] records the closes in order.  Where the
    code frees a connection or a worker's pool, the model deletes it, and using it later is
    undefined. *)

From S2P Require Import Prelude Http.
Import Http.

Module HttpPool.

(** ** Data *)

Inductive http_conn_state_t := HTTP_CONN_CONNECTING | HTTP_CONN_IN_USE | HTTP_CONN_IDLE | HTTP_CONN_CLOSING | HTTP_CONN_CLOSED.
#[export] Instance http_conn_state_eq : EqDecision http_conn_state_t.
Proof. solve_decision. Defined.

Record http_conn_t := mk_conn {
  c_tcp : option positive; c_state : http_conn_state_t; timed_out : bool; c_host : cstr; c_port : Z; last_used_ms : Z }.
Definition set_c_tcp (t : option positive) (c : http_conn_t) : http_conn_t := mk_conn t (c_state c) (timed_out c) (c_host c) (c_port c) (last_used_ms c).
Definition set_c_state (st : http_conn_state_t) (c : http_conn_t) : http_conn_t := mk_conn (c_tcp c) st (timed_out c) (c_host c) (c_port c) (last_used_ms c).
Definition set_timed_out (c : http_conn_t) : http_conn_t := mk_conn (c_tcp c) (c_state c) true (c_host c) (c_port c) (last_used_ms c).
Definition set_last_used (now : Z) (c : http_conn_t) : http_conn_t := mk_conn (c_tcp c) (c_state c) (timed_out c) (c_host c) (c_port c) now.

(** The channel that waiters for a slot take from: one value fits, the takers are fibers. *)
Record wait_chan := mk_wait { buffered : bool; takers : list nat }.
Record http_worker_pool_t := mk_wp { wp_pool : Z; worker_id : Z; idle_stack : list positive; wait_ch : option wait_chan }.
Definition set_stack (l : list positive) (w : http_worker_pool_t) : http_worker_pool_t := mk_wp (wp_pool w) (worker_id w) l (wait_ch w).
Definition set_wait_ch (c : option wait_chan) (w : http_worker_pool_t) : http_worker_pool_t := mk_wp (wp_pool w) (worker_id w) (idle_stack w) c.

Definition GOC_HTTP_MAX_CONNECTIONS : Z := 64.
Definition GOC_HTTP_IDLE_TIMEOUT_MS : Z := 30000.

(** Where a request fiber is. *)
Inductive client_pc :=
| PStart          (** not started *)
| PRetry          (** at [retry_connect] *)
| PTry            (** at the head of the loop that waits for a slot *)
| PFull           (** after a failed attempt *)
| PObserve        (** about to compare the wake-up versions *)
| PWait (k : nat) (** about to wait on the channel of a worker *)
| PParked (k : nat) (** waiting there *)
| PDns | PInit | PConnect | PWrite | PRead
| PDone.
#[export] Instance client_pc_eq : EqDecision client_pc.
Proof. solve_decision. Defined.

(** The argument of a request, as far as the connections matter, and the locals of its
    fiber; [delivered] is what was put into the request's channel. *)
Record http_client_arg_t := mk_arg {
  a_host : cstr; a_port : Z; keep_alive : bool; slot_acquired : bool;
  a_tcp : option positive; a_tcp_initialized : bool; cancel_requested : bool }.
Record client_fiber := mk_fiber {
  arg : http_client_arg_t; pc : client_pc; tcp : option positive; tcp_initialized : bool; using_idle : bool;
  keepalive_retry : bool; connect_retry : bool; req_conn : option positive; version_seen : Z;
  delivered : option bool }.

Definition upd_arg (g : http_client_arg_t → http_client_arg_t) (f : client_fiber) : client_fiber :=
  mk_fiber (g (arg f)) (pc f) (tcp f) (tcp_initialized f) (using_idle f) (keepalive_retry f) (connect_retry f) (req_conn f) (version_seen f) (delivered f).
Definition goto (p : client_pc) (f : client_fiber) : client_fiber :=
  mk_fiber (arg f) p (tcp f) (tcp_initialized f) (using_idle f) (keepalive_retry f) (connect_retry f) (req_conn f) (version_seen f) (delivered f).
Definition set_tcp (t : option positive) (b : bool) (f : client_fiber) : client_fiber :=
  mk_fiber (arg f) (pc f) t b (using_idle f) (keepalive_retry f) (connect_retry f) (req_conn f) (version_seen f) (delivered f).
Definition set_using_idle (b : bool) (f : client_fiber) : client_fiber :=
  mk_fiber (arg f) (pc f) (tcp f) (tcp_initialized f) b (keepalive_retry f) (connect_retry f) (req_conn f) (version_seen f) (delivered f).
Definition set_keepalive_retry (f : client_fiber) : client_fiber :=
  mk_fiber (arg f) (pc f) (tcp f) (tcp_initialized f) (using_idle f) true (connect_retry f) (req_conn f) (version_seen f) (delivered f).
Definition set_connect_retry (f : client_fiber) : client_fiber :=
  mk_fiber (arg f) (pc f) (tcp f) (tcp_initialized f) (using_idle f) (keepalive_retry f) true (req_conn f) (version_seen f) (delivered f).
Definition set_req_conn (c : option positive) (f : client_fiber) : client_fiber :=
  mk_fiber (arg f) (pc f) (tcp f) (tcp_initialized f) (using_idle f) (keepalive_retry f) (connect_retry f) c (version_seen f) (delivered f).
Definition set_version (v : Z) (f : client_fiber) : client_fiber :=
  mk_fiber (arg f) (pc f) (tcp f) (tcp_initialized f) (using_idle f) (keepalive_retry f) (connect_retry f) (req_conn f) v (delivered f).
Definition set_delivered (b : bool) (f : client_fiber) : client_fiber :=
  mk_fiber (arg f) PDone (tcp f) (tcp_initialized f) (using_idle f) (keepalive_retry f) (connect_retry f) (req_conn f) (version_seen f) (Some b).

Definition set_slot (b : bool) (a : http_client_arg_t) : http_client_arg_t :=
  mk_arg (a_host a) (a_port a) (keep_alive a) b (a_tcp a) (a_tcp_initialized a) (cancel_requested a).
Definition set_a_tcp (t : option positive) (b : bool) (a : http_client_arg_t) : http_client_arg_t :=
  mk_arg (a_host a) (a_port a) (keep_alive a) (slot_acquired a) t b (cancel_requested a).
Definition set_cancel (a : http_client_arg_t) : http_client_arg_t :=
  mk_arg (a_host a) (a_port a) (keep_alive a) (slot_acquired a) (a_tcp a) (a_tcp_initialized a) true.

(** The globals; [wps] is [g_http_worker_pools], [tls] the [g_http_worker_pool] of each
    thread, [posted] the sweeps handed to workers (pool, worker, force). *)
Record client := mk_client {
  total : Z; idle : Z; inflight : Z; wakeup_version : Z; slot_waiters : Z; sweeper_started : bool;
  conns : gmap positive http_conn_t; wps : list (option http_worker_pool_t); tls : gmap Z nat;
  posted : list (Z * Z * bool); closes : list positive; next_conn : positive; next_tcp : positive }.

Definition set_total (n : Z) (s : client) := mk_client n (idle s) (inflight s) (wakeup_version s) (slot_waiters s) (sweeper_started s) (conns s) (wps s) (tls s) (posted s) (closes s) (next_conn s) (next_tcp s).
Definition set_idle (n : Z) (s : client) := mk_client (total s) n (inflight s) (wakeup_version s) (slot_waiters s) (sweeper_started s) (conns s) (wps s) (tls s) (posted s) (closes s) (next_conn s) (next_tcp s).
Definition set_inflight (n : Z) (s : client) := mk_client (total s) (idle s) n (wakeup_version s) (slot_waiters s) (sweeper_started s) (conns s) (wps s) (tls s) (posted s) (closes s) (next_conn s) (next_tcp s).
Definition set_wakeup_version (n : Z) (s : client) := mk_client (total s) (idle s) (inflight s) n (slot_waiters s) (sweeper_started s) (conns s) (wps s) (tls s) (posted s) (closes s) (next_conn s) (next_tcp s).
Definition set_slot_waiters (n : Z) (s : client) := mk_client (total s) (idle s) (inflight s) (wakeup_version s) n (sweeper_started s) (conns s) (wps s) (tls s) (posted s) (closes s) (next_conn s) (next_tcp s).
Definition set_sweeper (b : bool) (s : client) := mk_client (total s) (idle s) (inflight s) (wakeup_version s) (slot_waiters s) b (conns s) (wps s) (tls s) (posted s) (closes s) (next_conn s) (next_tcp s).
Definition set_conns (m : gmap positive http_conn_t) (s : client) := mk_client (total s) (idle s) (inflight s) (wakeup_version s) (slot_waiters s) (sweeper_started s) m (wps s) (tls s) (posted s) (closes s) (next_conn s) (next_tcp s).
Definition set_wps (l : list (option http_worker_pool_t)) (s : client) := mk_client (total s) (idle s) (inflight s) (wakeup_version s) (slot_waiters s) (sweeper_started s) (conns s) l (tls s) (posted s) (closes s) (next_conn s) (next_tcp s).
Definition set_tls (m : gmap Z nat) (s : client) := mk_client (total s) (idle s) (inflight s) (wakeup_version s) (slot_waiters s) (sweeper_started s) (conns s) (wps s) m (posted s) (closes s) (next_conn s) (next_tcp s).
Definition set_posted (l : list (Z * Z * bool)) (s : client) := mk_client (total s) (idle s) (inflight s) (wakeup_version s) (slot_waiters s) (sweeper_started s) (conns s) (wps s) (tls s) l (closes s) (next_conn s) (next_tcp s).
Definition set_closes (l : list positive) (s : client) := mk_client (total s) (idle s) (inflight s) (wakeup_version s) (slot_waiters s) (sweeper_started s) (conns s) (wps s) (tls s) (posted s) l (next_conn s) (next_tcp s).
Definition set_next_conn (n : positive) (s : client) := mk_client (total s) (idle s) (inflight s) (wakeup_version s) (slot_waiters s) (sweeper_started s) (conns s) (wps s) (tls s) (posted s) (closes s) n (next_tcp s).
Definition set_next_tcp (n : positive) (s : client) := mk_client (total s) (idle s) (inflight s) (wakeup_version s) (slot_waiters s) (sweeper_started s) (conns s) (wps s) (tls s) (posted s) (closes s) (next_conn s) n.

Definition get : prog client client := λ s, ok (s, s).
Definition upd (g : client → client) : prog client () := λ s, ok (tt, g s).
Definition get_conn (c : positive) : prog client http_conn_t := λ s, of_option (conns s !! c) s.
Definition put_conn (c : positive) (x : http_conn_t) : prog client () := upd (λ s, set_conns (<[c := x]> (conns s)) s).
Definition free_conn (c : positive) : prog client () := upd (λ s, set_conns (delete c (conns s)) s).
Definition get_wp (k : nat) : prog client http_worker_pool_t := λ s, of_option (mjoin (wps s !! k)) s.
Definition put_wp (k : nat) (w : http_worker_pool_t) : prog client () := upd (λ s, set_wps (<[k := Some w]> (wps s)) s).
Definition goc_io_handle_close (t : option positive) : prog client () :=
  match t with Some t => upd (λ s, set_closes (closes s ++ [t]) s) | None => mret tt end.

(** ** Counters and connections *)

Definition http_client_assert_totals : prog client () :=
  s ← get;
  if (total s <? 0) || (idle s <? 0) || (GOC_HTTP_MAX_CONNECTIONS <? total s) || (GOC_HTTP_MAX_CONNECTIONS <? idle s) || (total s <? idle s)
  then ABORT "http_client invariant violated" else mret tt.

Definition http_conn_assert_state (c : positive) (expected : http_conn_state_t) : prog client () :=
  x ← get_conn c; if decide (c_state x = expected) then mret tt else ABORT "http_conn bad state".
Definition http_conn_transition (c : positive) (from to : http_conn_state_t) : prog client () :=
  http_conn_assert_state c from;; x ← get_conn c; put_conn c (set_c_state to x).

(** [mem] says whether the allocator has memory. *)
Definition http_conn_make (mem : bool) (host : cstr) (port : Z) : prog client (option positive) :=
  if mem then
    s ← get;
    put_conn (next_conn s) (mk_conn None HTTP_CONN_CONNECTING false host port 0);;
    upd (set_next_conn (Pos.succ (next_conn s)));;
    mret (Some (next_conn s))
  else mret None.

(** A thread, the pool it works for and its number there. *)
Record thread := mk_thread { t_id : Z; t_pool : Z; t_worker : Z }.

Definition http_client_current_worker_pool (t : thread) : prog client nat :=
  s ← get;
  match tls s !! t_id t with
  | Some k => mret k
  | None =>
      let k := length (wps s) in
      upd (λ s, set_tls (<[t_id t := k]> (tls s)) (set_wps (wps s ++ [Some (mk_wp (t_pool t) (t_worker t) [] None)]) s));;
      mret k
  end.

(** ** Slots *)

Definition http_client_try_acquire_slot : prog client bool :=
  s ← get;
  if total s <? GOC_HTTP_MAX_CONNECTIONS then upd (set_total (total s + 1));; http_client_assert_totals;; mret true
  else mret false.

Definition http_client_wait_ch (t : thread) : prog client nat :=
  k ← http_client_current_worker_pool t;
  w ← get_wp k;
  (match wait_ch w with Some _ => mret tt | None => put_wp k (set_wait_ch (Some (mk_wait false [])) w) end);;
  mret k.

(** A put that does not wait: to the first taker, else into the buffer if it is empty. *)
Definition put_wait (c : wait_chan) : wait_chan :=
  match takers c with [] => mk_wait true [] | _ :: l => mk_wait (buffered c) l end.
Definition signal_wp (w : option http_worker_pool_t) : option http_worker_pool_t :=
  match w with
  | Some w => Some (match wait_ch w with Some c => set_wait_ch (Some (put_wait c)) w | None => w end)
  | None => None
  end.
Definition http_client_signal_waiters : prog client () :=
  upd (λ s, set_wakeup_version (wakeup_version s +% 1) s);;
  s ← get;
  if slot_waiters s =? 0 then mret tt else upd (λ s, set_wps (signal_wp <$> wps s) s).

Definition http_client_release_slot : prog client () :=
  s ← get;
  upd (set_total (total s - 1));;
  (if total s <=? 0 then upd (set_total 0) else mret tt);;
  http_client_assert_totals.

(** ** Idle connections *)

(** The first connection of a stack to that host and port, and the rest of the stack. *)
Fixpoint find_conn (host : cstr) (port : Z) (l : list positive) : prog client (option (positive * list positive)) :=
  match l with
  | [] => mret None
  | c :: l =>
      x ← get_conn c;
      if (c_port x =? port) && streq (c_host x) host then mret (Some (c, l))
      else r ← find_conn host port l; mret ('(c', l') ← r; Some (c', c :: l'))
  end.
Definition take_from (k : nat) (host : cstr) (port : Z) : prog client (option positive) :=
  w ← get_wp k;
  r ← find_conn host port (idle_stack w);
  match r with Some (c, l) => put_wp k (set_stack l w);; mret (Some c) | None => mret None end.

(** The other workers of the same pool, in the order of the registry. *)
Fixpoint steal_from (cur : nat) (pool : Z) (host : cstr) (port : Z) (ks : list nat) : prog client (option positive) :=
  match ks with
  | [] => mret None
  | k :: ks =>
      s ← get;
      match mjoin (wps s !! k) with
      | Some w =>
          if decide (k = cur) then steal_from cur pool host port ks
          else if wp_pool w =? pool then
            r ← take_from k host port;
            match r with Some c => mret (Some c) | None => steal_from cur pool host port ks end
          else steal_from cur pool host port ks
      | None => steal_from cur pool host port ks
      end
  end.

Definition http_client_take_idle_connection (cur : nat) (host : cstr) (port : Z) : prog client (option positive) :=
  r ← take_from cur host port;
  r ← (match r with
       | Some c => mret (Some c)
       | None => w ← get_wp cur; s ← get; steal_from cur (wp_pool w) host port (seq 0 (length (wps s)))
       end);
  match r with
  | Some c =>
      upd (λ s, set_idle (idle s - 1) s);;
      http_client_assert_totals;;
      http_conn_transition c HTTP_CONN_IDLE HTTP_CONN_IN_USE;;
      mret (Some c)
  | None => mret None
  end.

Definition http_client_idle_close (c : positive) : prog client () :=
  http_conn_transition c HTTP_CONN_CLOSING HTTP_CONN_CLOSED;;
  x ← get_conn c;
  goc_io_handle_close (c_tcp x);;
  free_conn c.

Definition http_client_destroy_connection (c : positive) : prog client () :=
  x ← get_conn c;
  (match c_state x with
   | HTTP_CONN_CONNECTING | HTTP_CONN_IN_USE | HTTP_CONN_IDLE => http_conn_transition c (c_state x) HTTP_CONN_CLOSING
   | HTTP_CONN_CLOSING => mret tt
   | HTTP_CONN_CLOSED => ABORT "http_conn bad state while destroying"
   end);;
  http_client_idle_close c.

Definition http_client_return_connection_local (t : thread) (now : Z) (c : positive) (healthy : bool) : prog client () :=
  k ← http_client_current_worker_pool t;
  s ← get;
  if healthy && (idle s <? GOC_HTTP_MAX_CONNECTIONS) then
    http_conn_transition c HTTP_CONN_IN_USE HTTP_CONN_IDLE;;
    x ← get_conn c;
    put_conn c (set_last_used now x);;
    w ← get_wp k;
    put_wp k (set_stack (c :: idle_stack w) w);;
    upd (λ s, set_idle (idle s + 1) s);;
    http_client_assert_totals;;
    http_client_signal_waiters
  else
    http_conn_transition c HTTP_CONN_IN_USE HTTP_CONN_CLOSING;;
    x ← get_conn c;
    goc_io_handle_close (c_tcp x);;
    free_conn c;;
    http_client_release_slot;;
    http_client_signal_waiters.

(** ** Sweeping *)

(** What is left of the stack, and the number of connections closed. *)
Fixpoint sweep_loop (now : Z) (force : bool) (l : list positive) : prog client (list positive * nat) :=
  match l with
  | [] => mret ([], O)
  | c :: l =>
      x ← get_conn c;
      if force || (GOC_HTTP_IDLE_TIMEOUT_MS <? now -% last_used_ms x) then
        http_conn_assert_state c HTTP_CONN_IDLE;;
        upd (λ s, set_idle (idle s - 1) s);;
        http_client_assert_totals;;
        http_conn_transition c HTTP_CONN_IDLE HTTP_CONN_CLOSING;;
        http_client_idle_close c;;
        http_client_release_slot;;
        '(l', n) ← sweep_loop now force l;
        mret (l', S n)
      else
        '(l', n) ← sweep_loop now force l;
        mret (c :: l', n)
  end.
Fixpoint signal_times (n : nat) : prog client () :=
  match n with O => mret tt | S n => http_client_signal_waiters;; signal_times n end.
Definition http_client_idle_sweep (t : thread) (now : Z) (force : bool) : prog client () :=
  k ← http_client_current_worker_pool t;
  w ← get_wp k;
  '(l, n) ← sweep_loop now force (idle_stack w);
  put_wp k (set_stack l w);;
  signal_times n.

(** The sweeps that are posted: for every worker, without the own one if all is closed. *)
Fixpoint posts (self : nat) (force : bool) (k : nat) (l : list (option http_worker_pool_t)) : list (Z * Z * bool) :=
  match l with
  | [] => []
  | Some w :: l => if force && (k =? self)%nat then posts self force (S k) l else (wp_pool w, Z.max 0 (worker_id w), force) :: posts self force (S k) l
  | None :: l => posts self force (S k) l
  end.
Definition http_client_sweep_all (t : thread) (now : Z) (force : bool) : prog client () :=
  s ← get;
  if decide (wps s = []) then mret tt
  else
    self ← http_client_current_worker_pool t;
    upd (λ s, set_posted (posted s ++ posts self force 0 (wps s)) s);;
    if force then http_client_idle_sweep t now true else mret tt.

(** The body of the sweeper's loop, up to its wait. *)
Definition http_client_idle_sweeper (t : thread) (now : Z) (shutting_down : bool) : prog client () :=
  if shutting_down then upd (set_sweeper false)
  else
    http_client_sweep_all t now false;;
    s ← get;
    if inflight s =? 0 then http_client_sweep_all t now true;; upd (set_sweeper false) else mret tt.

Definition http_client_ensure_sweeper (t : thread) : prog client () :=
  s ← get;
  if sweeper_started s then mret tt
  else upd (set_sweeper true);; _ ← http_client_current_worker_pool t; mret tt.

(** ** The request fiber *)

(** What the outside of a step provides: the thread that runs it, the time, whether the
    allocator has memory, whether the loop is shutting down, and what the fiber waited for. *)
Inductive outcome :=
| ONone
| OWoken (open : bool)                 (** the wait channel: a value, or closed *)
| OTimeout                             (** the timeout channel *)
| OName (found : bool)                 (** a numeric address or a successful lookup *)
| ORc (rc : Z)                         (** the result of a libuv call *)
| ORead (r : option (bool * bool)).    (** a response: is its length declared, does it say close *)
Record env := mk_env { thr : thread; now : Z; mem : bool; shutting_down : bool; out : outcome }.

Definition UV_EADDRINUSE : Z := -98.
Definition UV_EADDRNOTAVAIL : Z := -99.

Definition when {S} (b : bool) (m : prog S ()) : prog S () := if b then m else mret tt.
Definition on_conn (f : client_fiber) (m : positive → prog client ()) : prog client () :=
  match req_conn f with Some c => m c | None => mret tt end.
Definition close_tcp (f : client_fiber) : prog client () := when (tcp_initialized f) (goc_io_handle_close (tcp f)).
Definition no_tcp (f : client_fiber) : client_fiber := upd_arg (set_a_tcp None false) (set_tcp None false f).

Definition release_and_signal : prog client () := http_client_release_slot;; http_client_signal_waiters.
Definition finish (b : bool) (f : client_fiber) : prog client client_fiber :=
  s ← get; upd (set_inflight (inflight s - 1));; mret (set_delivered b f).

Definition deliver_error (f : client_fiber) : prog client client_fiber :=
  (match req_conn f with Some c => http_client_destroy_connection c | None => close_tcp f end);;
  when (slot_acquired (arg f)) release_and_signal;;
  finish false (set_tcp None false (set_req_conn None f)).

(** The dropping of a stale idle connection before the one retry. *)
Definition drop_idle (f : client_fiber) : prog client client_fiber :=
  on_conn f http_client_destroy_connection;;
  release_and_signal;;
  mret (goto PRetry (set_req_conn None (set_keepalive_retry (set_using_idle false (upd_arg (set_slot false) f))))).

Definition acquisition_complete (f : client_fiber) : prog client client_fiber :=
  if cancel_requested (arg f) then deliver_error f
  else match tcp f with None => mret (goto PDns f) | Some _ => mret (goto PWrite f) end.

Definition retry_connect (e : env) (f : client_fiber) : prog client client_fiber :=
  http_client_ensure_sweeper (thr e);;
  if cancel_requested (arg f) then deliver_error f
  else
    f ← (if keep_alive (arg f) then
           k ← http_client_current_worker_pool (thr e);
           r ← http_client_take_idle_connection k (a_host (arg f)) (a_port (arg f));
           match r with
           | Some c =>
               x ← get_conn c;
               mret (set_using_idle true (upd_arg (set_slot true ∘ set_a_tcp (c_tcp x) true) (set_tcp (c_tcp x) true (set_req_conn (Some c) f))))
           | None => mret f
           end
         else mret f);
    match tcp f with
    | None => s ← get; mret (goto PTry (set_version (wakeup_version s) f))
    | Some _ => acquisition_complete f
    end.

Definition slot_got (e : env) (f : client_fiber) : prog client client_fiber :=
  _ ← http_client_current_worker_pool (thr e);
  let f := upd_arg (set_slot true) f in
  match req_conn f with
  | Some _ => acquisition_complete f
  | None =>
      r ← http_conn_make (mem e) (a_host (arg f)) (a_port (arg f));
      match r with
      | Some c => acquisition_complete (set_req_conn (Some c) f)
      | None => release_and_signal;; deliver_error f
      end
  end.

Definition slot_try (e : env) (f : client_fiber) : prog client client_fiber :=
  b ← http_client_try_acquire_slot; if b : bool then slot_got e f else mret (goto PFull f).
Definition slot_full (e : env) (f : client_fiber) : prog client client_fiber :=
  s ← get;
  if 0 <? idle s then
    http_client_sweep_all (thr e) (now e) true;;
    b ← http_client_try_acquire_slot; if b : bool then slot_got e f else mret (goto PObserve f)
  else mret (goto PObserve f).
Definition try_again (f : client_fiber) : prog client client_fiber :=
  s ← get; mret (goto PTry (set_version (wakeup_version s) f)).
Definition slot_observe (e : env) (f : client_fiber) : prog client client_fiber :=
  k ← http_client_wait_ch (thr e);
  s ← get;
  if wakeup_version s =? version_seen f then mret (goto (PWait k) f) else try_again f.

Definition add_waiters (d : Z) : prog client () := s ← get; upd (set_slot_waiters (slot_waiters s + d)).
(** [goc_alts] on the wait channel of worker [k] and the timeout: it takes at once if it can. *)
Definition slot_wait (i : nat) (k : nat) (e : env) (f : client_fiber) : prog client client_fiber :=
  if shutting_down e then deliver_error f
  else
    add_waiters 1;;
    w ← get_wp k;
    match wait_ch w with
    | Some c =>
        if buffered c then put_wp k (set_wait_ch (Some (mk_wait false (takers c))) w);; add_waiters (-1);; try_again f
        else put_wp k (set_wait_ch (Some (mk_wait false (takers c ++ [i]))) w);; mret (goto (PParked k) f)
    | None => add_waiters (-1);; try_again f
    end.
(** The timeout withdraws the fiber from the wait channel. *)
Definition withdraw (i k : nat) : prog client () :=
  s ← get;
  match mjoin (wps s !! k) with
  | Some w =>
      match wait_ch w with
      | Some c => put_wp k (set_wait_ch (Some (mk_wait (buffered c) (filter (λ j, j ≠ i) (takers c)))) w)
      | None => mret tt
      end
  | None => mret tt
  end.
Definition slot_woken (i : nat) (k : nat) (e : env) (f : client_fiber) : prog client client_fiber :=
  match out e with
  | OTimeout => withdraw i k;; add_waiters (-1);; deliver_error f
  | OWoken open => add_waiters (-1);; if negb open && shutting_down e then deliver_error f else try_again f
  | _ => mret f
  end.

(** Name lookup; then the handle is allocated and its initialization requested. *)
Definition after_dns (found : bool) (f : client_fiber) : prog client client_fiber :=
  if found then
    s ← get;
    upd (set_next_tcp (Pos.succ (next_tcp s)));;
    mret (goto PInit (set_tcp (Some (next_tcp s)) (tcp_initialized f) f))
  else deliver_error f.
Definition after_init (rc : Z) (f : client_fiber) : prog client client_fiber :=
  if rc <? 0 then deliver_error (set_tcp None (tcp_initialized f) f)
  else
    on_conn f (λ c, x ← get_conn c; put_conn c (set_c_tcp (tcp f) x));;
    let f := upd_arg (set_a_tcp (tcp f) true) (set_tcp (tcp f) true f) in
    if cancel_requested (arg f) then deliver_error f else mret (goto PConnect f).

(** Closes the handle and forgets it. *)
Definition lose_tcp (f : client_fiber) : prog client client_fiber :=
  when (tcp_initialized f) (goc_io_handle_close (tcp f);; on_conn f (λ c, x ← get_conn c; put_conn c (set_c_tcp None x)));;
  mret (no_tcp f).
Definition after_connect (o : outcome) (f : client_fiber) : prog client client_fiber :=
  match o with
  | OTimeout =>
      on_conn f (λ c, x ← get_conn c; put_conn c (set_timed_out x);; http_conn_transition c HTTP_CONN_CONNECTING HTTP_CONN_CLOSING);;
      f ← lose_tcp f;
      if using_idle f && negb (keepalive_retry f) then drop_idle f else deliver_error f
  | ORc rc =>
      late ← (match req_conn f with Some c => x ← get_conn c; mret (timed_out x) | None => mret false end);
      if late : bool then
        f ← lose_tcp f; on_conn f http_client_destroy_connection;; deliver_error (set_req_conn None f)
      else
        when (rc =? 0) (on_conn f (λ c, http_conn_transition c HTTP_CONN_CONNECTING HTTP_CONN_IN_USE));;
        if rc <? 0 then
          f ← lose_tcp f;
          if using_idle f && negb (keepalive_retry f) then drop_idle f
          else if ((rc =? UV_EADDRINUSE) || (rc =? UV_EADDRNOTAVAIL)) && negb (connect_retry f) then mret (goto PRetry (set_connect_retry f))
          else deliver_error f
        else mret (goto PWrite f)
  | _ => mret f
  end.

Definition after_write (rc : Z) (f : client_fiber) : prog client client_fiber :=
  if cancel_requested (arg f) then deliver_error f
  else if rc <? 0 then
    if using_idle f && negb (keepalive_retry f) then drop_idle (no_tcp f)
    else close_tcp f;; deliver_error (no_tcp f)
  else mret (goto PRead f).

Definition after_read (e : env) (r : option (bool * bool)) (f : client_fiber) : prog client client_fiber :=
  match r with
  | None =>
      if using_idle f && negb (keepalive_retry f) then close_tcp f;; drop_idle (set_tcp None false f)
      else if using_idle f then
        close_tcp f;;
        on_conn f http_client_destroy_connection;;
        release_and_signal;;
        deliver_error (set_req_conn None (upd_arg (set_slot false) (set_tcp None false f)))
      else close_tcp f;; deliver_error (set_tcp None false f)
  | Some (declared, closes) =>
      (if keep_alive (arg f) && declared && negb closes then
         on_conn f (λ c, http_client_return_connection_local (thr e) (now e) c true)
       else match req_conn f with
            | Some c => http_client_return_connection_local (thr e) (now e) c false
            | None => close_tcp f;; when (slot_acquired (arg f)) release_and_signal
            end);;
      finish true (set_tcp None false (set_req_conn None f))
  end.

Definition http_client_fiber (i : nat) (e : env) (f : client_fiber) : prog client client_fiber :=
  match pc f with
  | PStart => s ← get; upd (set_inflight (inflight s + 1));; mret (goto PRetry f)
  | PRetry => retry_connect e f
  | PTry => slot_try e f
  | PFull => slot_full e f
  | PObserve => slot_observe e f
  | PWait k => slot_wait i k e f
  | PParked k => slot_woken i k e f
  | PDns => match out e with OName found => after_dns found f | _ => mret f end
  | PInit => match out e with ORc rc => after_init rc f | _ => mret f end
  | PConnect => after_connect (out e) f
  | PWrite => match out e with ORc rc => after_write rc f | _ => mret f end
  | PRead => match out e with ORead r => after_read e r f | _ => mret f end
  | PDone => mret f
  end.

(** A request that times out: its caller cancels it. *)
Definition http_client_cancel (f : client_fiber) : prog client client_fiber :=
  if cancel_requested (arg f) then
    match a_tcp (arg f) with
    | Some t => if a_tcp_initialized (arg f) then goc_io_handle_close (Some t);; mret (upd_arg (set_a_tcp None false) f) else mret f
    | None => mret f
    end
  else mret f.

(** [goc_http_request], after the URL is parsed. *)
Definition goc_http_request (host : cstr) (port : Z) (keep : bool) : client_fiber :=
  mk_fiber (mk_arg host port keep false None false false) PStart None false false false false None 0 None.
Definition goc_http_request_timeout (f : client_fiber) : prog client client_fiber := http_client_cancel (upd_arg set_cancel f).

(** ** The destruction of a pool *)

Fixpoint close_idle (l : list positive) : prog client () :=
  match l with
  | [] => mret tt
  | c :: l => x ← get_conn c; goc_io_handle_close (c_tcp x);; free_conn c;; close_idle l
  end.
Definition http_client_cleanup_worker_pool (t : thread) (k : nat) : prog client () :=
  w ← get_wp k;
  close_idle (idle_stack w);;
  put_wp k (set_wait_ch None (set_stack [] w));;
  s ← get;
  if decide (tls s !! t_id t = Some k) then upd (set_tls (delete (t_id t) (tls s))) else mret tt.
Definition http_client_close_wait_chs : prog client () :=
  upd (λ s, set_wps ((λ w : option http_worker_pool_t, set_wait_ch None <$> w) <$> wps s) s).
Fixpoint cleanup_entries (t : thread) (pool : Z) (ks : list nat) : prog client () :=
  match ks with
  | [] => mret tt
  | k :: ks =>
      s ← get;
      (match mjoin (wps s !! k) with
       | Some w =>
           if wp_pool w =? pool then
             http_client_cleanup_worker_pool t k;; upd (λ s, set_wps (<[k := None]> (wps s)) s)
           else mret tt
       | None => mret tt
       end);;
      cleanup_entries t pool ks
  end.
Definition http_client_cleanup_pool_entries (t : thread) (pool : Z) : prog client () :=
  s ← get; cleanup_entries t pool (seq 0 (length (wps s))).
Definition http_client_close_wait_chs_hook (t : thread) (pool : Z) : prog client () :=
  http_client_close_wait_chs;; http_client_cleanup_pool_entries t pool.

End HttpPool.
