(* ===== verification/HttpPoolProps.v ===== *)
(** The connections of the HTTP client never fail a check, are counted exactly, and are
    given back: the invariant of HttpPool.v over all interleavings of requests, cancellations
    and sweeps, and the leak after a failed bind. *)

From S2P Require Import Prelude Http HttpPool.
Import Http HttpPool.

Module HttpPoolProps.

(** ** Programs that return *)

Definition runs {A} (m : prog client A) (s : client) (Q : A → client → Prop) : Prop := ∃ a s', m s = ok (a, s') ∧ Q a s'.

Lemma runs_bind {A B} (m : prog client A) (g : A → prog client B) s Q :
  runs m s (λ a s', runs (g a) s' Q) → runs (m ≫= g) s Q.
Proof. intros (a & s' & Hm & b & s'' & Hg & HQ). exists b, s''. split; [|done]. by rewrite (prog_bind_ok _ _ _ _ _ Hm). Qed.
Lemma runs_ret {A} (a : A) s (Q : A → client → Prop) : Q a s → runs (mret a) s Q.
Proof. intros HQ. by exists a, s. Qed.
Lemma runs_get s (Q : client → client → Prop) : Q s s → runs get s Q.
Proof. intros HQ. by exists s, s. Qed.
Lemma runs_upd g s (Q : () → client → Prop) : Q tt (g s) → runs (upd g) s Q.
Proof. intros HQ. by exists tt, (g s). Qed.
Lemma runs_mono {A} (m : prog client A) s (P Q : A → client → Prop) : runs m s P → (∀ a s', P a s' → Q a s') → runs m s Q.
Proof. intros (a & s' & ? & ?) HPQ. exists a, s'. auto. Qed.
Lemma runs_get_conn c x s (Q : http_conn_t → client → Prop) : conns s !! c = Some x → Q x s → runs (get_conn c) s Q.
Proof. intros Hc HQ. exists x, s. split; [|done]. unfold get_conn. by rewrite Hc. Qed.
Lemma runs_get_wp k w s (Q : http_worker_pool_t → client → Prop) : wps s !! k = Some (Some w) → Q w s → runs (get_wp k) s Q.
Proof. intros Hk HQ. exists w, s. split; [|done]. unfold get_wp. by rewrite Hk. Qed.

Create HintDb runs.
#[export] Hint Resolve runs_ret runs_get runs_upd : runs.

(** ** The invariant of the shared state *)

Definition stack_of (w : option http_worker_pool_t) : list positive := match w with Some w => idle_stack w | None => [] end.
Definition stacked (s : client) : list positive := concat (stack_of <$> wps s).
Definition idle_conn (s : client) (c : positive) : Prop := ∃ x, conns s !! c = Some x ∧ c_state x = HTTP_CONN_IDLE ∧ is_Some (c_tcp x).
Definition wps_ok (s : client) : Prop :=
  (∀ k, (k < length (wps s))%nat → ∃ w, wps s !! k = Some (Some w)) ∧ (∀ t k, tls s !! t = Some k → (k < length (wps s))%nat).

(** [R] are the connections that fibers hold, [h] the slots they hold, [lk] how many slots
    may be lost. *)
Record sinv (R : list positive) (h lk n : Z) (s : client) : Prop := {
  i_nodup : NoDup (stacked s ++ R);
  i_idle : ∀ c, c ∈ stacked s → idle_conn s c;
  i_refs : ∀ c, c ∈ R → is_Some (conns s !! c);
  i_fresh : ∀ c, is_Some (conns s !! c) → (c < next_conn s)%positive;
  i_wps : wps_ok s;
  i_count : idle s = Z.of_nat (length (stacked s));
  i_lower : h + idle s <= total s;
  i_upper : total s <= h + idle s + lk;
  i_max : total s <= 64;
  i_inflight : inflight s = n }.

(** Steps that leave connections and counters alone. *)
Record quiet (s s' : client) : Prop := {
  q_stacked : stacked s' = stacked s; q_conns : conns s' = conns s; q_total : total s' = total s; q_idle : idle s' = idle s;
  q_inflight : inflight s' = inflight s; q_next : next_conn s' = next_conn s; q_wps : wps_ok s → wps_ok s';
  q_length : (length (wps s) <= length (wps s'))%nat }.

#[export] Instance quiet_preorder : PreOrder quiet.
Proof.
  split; [by intros s; split|]. intros s1 s2 s3 [] []. split; try congruence; [by auto|lia].
Qed.

Lemma sinv_quiet R h lk n s s' : quiet s s' → sinv R h lk n s → sinv R h lk n s'.
Proof.
  intros [Hst Hc Ht Hi Hf Hn Hw _] []. split; rewrite ?Hst, ?Ht, ?Hi, ?Hc, ?Hf, ?Hn; try done; [|by auto].
  unfold idle_conn. by rewrite Hc.
Qed.

Lemma sinv_perm R R' h lk n s : R ≡ₚ R' → sinv R h lk n s → sinv R' h lk n s.
Proof. intros HR []. split; try done; [by rewrite <- HR|]. intros c. rewrite <- HR. auto. Qed.

(** Forgetting connections, and slots. *)
Lemma sinv_forget R R' h lk n s : sinv (R' ++ R) h lk n s → sinv R h lk n s.
Proof.
  intros []. split; try done.
  - revert i_nodup0. rewrite (assoc app), (comm app (stacked s)), <- (assoc app). by intros (_ & _ & ?)%NoDup_app.
  - intros c Hc. apply i_refs0, elem_of_app. by right.
Qed.
Lemma sinv_leak R h lk n s : sinv R (h + 1) lk n s → sinv R h (lk + 1) n s.
Proof. intros []. split; try done; lia. Qed.
Lemma sinv_more R h lk lk' n s : lk <= lk' → sinv R h lk n s → sinv R h lk' n s.
Proof. intros ? []. split; try done; lia. Qed.

Lemma assert_totals_ok s : 0 <= idle s <= total s → total s <= 64 → http_client_assert_totals s = ok (tt, s).
Proof.
  intros ??. unfold http_client_assert_totals, mbind, prog_bind, get, GOC_HTTP_MAX_CONNECTIONS.
  by repeat match goal with |- context [?a <? ?b] => rewrite (proj2 (Z.ltb_ge a b)) by lia end.
Qed.
Lemma runs_assert_totals s (Q : () → client → Prop) : 0 <= idle s <= total s → total s <= 64 → Q tt s → runs http_client_assert_totals s Q.
Proof. intros ???. exists tt, s. split; [by apply assert_totals_ok|done]. Qed.

Lemma runs_transition c x from to s (Q : () → client → Prop) :
  conns s !! c = Some x → c_state x = from → Q tt (set_conns (<[c := set_c_state to x]> (conns s)) s) → runs (http_conn_transition c from to) s Q.
Proof.
  intros Hc Hst HQ. unfold http_conn_transition, http_conn_assert_state. apply runs_bind, runs_bind, (runs_get_conn _ x); [done|].
  rewrite decide_True by done. apply runs_ret, runs_bind, (runs_get_conn _ x); [done|]. by apply runs_upd.
Qed.

(** ** Stacks *)

Lemma stacked_insert s k w w' :
  wps s !! k = Some (Some w) →
  stacked (set_wps (<[k := Some w']> (wps s)) s) ++ idle_stack w ≡ₚ stacked s ++ idle_stack w'.
Proof.
  intros Hk. unfold stacked. cbn [wps set_wps]. rewrite <- (take_drop_middle _ _ _ Hk) at 2.
  rewrite insert_take_drop by by eapply lookup_lt_Some. rewrite !fmap_app, !concat_app. cbn [fmap list_fmap concat stack_of].
  rewrite <- !(assoc app). f_equiv. rewrite (comm app _ (idle_stack w)). rewrite !(assoc app), (comm app (idle_stack w') (idle_stack w)).
  rewrite <- !(assoc app). f_equiv. by rewrite (comm app).
Qed.

Lemma wps_ok_insert s k w : wps_ok s → wps_ok (set_wps (<[k := Some w]> (wps s)) s).
Proof.
  intros [H1 H2]. split; cbn [wps set_wps tls]; [|intros t k'; rewrite length_insert; apply H2].
  intros k'. rewrite length_insert. intros Hk'. destruct (decide (k' = k)) as [->|].
  - exists w. by apply list_lookup_insert_eq.
  - rewrite list_lookup_insert_ne by done. auto.
Qed.

(** ** Quiet operations *)

Lemma quiet_wps s l : stacked (set_wps l s) = stacked s → (wps_ok s → wps_ok (set_wps l s)) → (length (wps s) <= length l)%nat → quiet s (set_wps l s).
Proof. intros. by split. Qed.

Lemma quiet_put_wait s k w ch : wps s !! k = Some (Some w) → quiet s (set_wps (<[k := Some (set_wait_ch ch w)]> (wps s)) s).
Proof.
  intros Hk. apply quiet_wps; [|apply wps_ok_insert|by rewrite length_insert]. unfold stacked. cbn [wps set_wps].
  rewrite list_fmap_insert, list_insert_id; [done|]. by rewrite list_lookup_fmap, Hk.
Qed.

Lemma quiet_signal s : runs http_client_signal_waiters s (λ _, quiet s).
Proof.
  unfold http_client_signal_waiters. apply runs_bind, runs_upd, runs_bind, runs_get. destruct (_ =? 0); [apply runs_ret; by split|]. apply runs_upd.
  set (s1 := set_wakeup_version _ s). transitivity s1; [by split|]. apply quiet_wps.
  - unfold stacked. cbn [wps set_wps]. rewrite <- list_fmap_compose. f_equal. apply list_fmap_ext. intros _ [w|] _; [|done]. simpl. by destruct (wait_ch w).
  - intros [H1 H2]. split; cbn [wps set_wps]; intros k; [|intros k'; rewrite length_fmap; apply H2].
    rewrite length_fmap. intros [w Hw]%H1. rewrite list_lookup_fmap, Hw. simpl. eauto.
  - by rewrite length_fmap.
Qed.

Lemma quiet_handle_close t s : runs (goc_io_handle_close t) s (λ _, quiet s).
Proof. destruct t; [apply runs_upd|apply runs_ret]; by split. Qed.

Lemma quiet_add_waiters d s : runs (add_waiters d) s (λ _, quiet s).
Proof. apply runs_bind, runs_get, runs_upd. by split. Qed.

Lemma quiet_current t s : wps_ok s → runs (http_client_current_worker_pool t) s (λ k s', quiet s s' ∧ (k < length (wps s'))%nat).
Proof.
  intros Hok. unfold http_client_current_worker_pool. apply runs_bind, runs_get. destruct (tls s !! t_id t) as [k|] eqn:Hk.
  - apply runs_ret. split; [done|]. destruct Hok as [_ H2]. eauto.
  - apply runs_bind, runs_upd, runs_ret. cbn [wps set_tls set_wps]. split; [|rewrite length_app; simpl; lia]. split; try done.
    + unfold stacked. cbn [wps set_tls set_wps]. by rewrite fmap_app, concat_app, app_nil_r.
    + intros [H1 H2]. split; cbn [wps set_tls set_wps tls].
      * intros k. rewrite length_app. simpl. intros Hlt. destruct (decide (k = length (wps s))) as [->|].
        -- rewrite list_lookup_middle by done. eauto.
        -- rewrite lookup_app_l by lia. apply H1. lia.
      * intros t' k. rewrite length_app, lookup_insert. case_decide; simpl; [intros [= <-]; lia|]. intros ?%H2. lia.
    + cbn [wps set_tls set_wps]. rewrite length_app. lia.
Qed.

Lemma quiet_wait_ch t s : wps_ok s → runs (http_client_wait_ch t) s (λ k s', quiet s s' ∧ (k < length (wps s'))%nat).
Proof.
  intros Hok. apply runs_bind. eapply runs_mono; [by apply quiet_current|]. intros k s1 [Hq Hk].
  destruct (q_wps _ _ Hq Hok) as [H1 _]. destruct (H1 k Hk) as [w Hw]. apply runs_bind, (runs_get_wp _ w); [done|].
  apply runs_bind. destruct (wait_ch w); [apply runs_ret, runs_ret; done|]. apply runs_upd, runs_ret.
  pose proof (quiet_put_wait s1 k w (Some (mk_wait false [])) Hw) as Hq2. split; [by transitivity s1|]. cbn [wps set_wps]. by rewrite length_insert.
Qed.

Lemma quiet_withdraw i k s : runs (withdraw i k) s (λ _, quiet s).
Proof.
  unfold withdraw. apply runs_bind, runs_get. destruct (mjoin (wps s !! k)) as [w|] eqn:Hk; [|by apply runs_ret].
  destruct (wait_ch w); [|by apply runs_ret]. apply runs_upd. apply quiet_put_wait. destruct (wps s !! k) as [[w'|]|]; try done. simpl in Hk. by simplify_eq.
Qed.

(** ** Operations on connections *)

(** What frees connection [c] and nothing else. *)
Record gone (c : positive) (s s' : client) : Prop := {
  g_conns : conns s' = delete c (conns s); g_wps : wps s' = wps s; g_tls : tls s' = tls s; g_total : total s' = total s;
  g_idle : idle s' = idle s; g_inflight : inflight s' = inflight s; g_next : next_conn s' = next_conn s }.

Lemma runs_idle_close c x s : conns s !! c = Some x → c_state x = HTTP_CONN_CLOSING → runs (http_client_idle_close c) s (λ _, gone c s).
Proof.
  intros Hc Hst. apply runs_bind. eapply runs_transition; [done..|]. apply runs_bind. eapply runs_get_conn; [apply lookup_insert_eq|].
  apply runs_bind. cbn [c_tcp set_c_state]. destruct (c_tcp x); [apply runs_upd|apply runs_ret]; apply runs_upd; split; try done; apply delete_insert_eq.
Qed.

Lemma runs_destroy c x s : conns s !! c = Some x → c_state x ≠ HTTP_CONN_CLOSED → runs (http_client_destroy_connection c) s (λ _, gone c s).
Proof.
  intros Hc Hne. unfold http_client_destroy_connection. apply runs_bind, (runs_get_conn _ x); [done|]. apply runs_bind. destruct (c_state x) eqn:Hst; [| | | |done].
  4: { by eapply runs_ret, runs_idle_close. }
  all: eapply runs_transition; [done..|]; (eapply runs_mono; [eapply runs_idle_close; [apply lookup_insert_eq|done]|]);
    intros _ s' []; split; try done; by rewrite g_conns0; cbn [conns set_conns]; rewrite delete_insert_eq.
Qed.

Lemma runs_release_slot s : 0 <= idle s < total s → total s <= 65 → runs http_client_release_slot s (λ _ s', s' = set_total (total s - 1) s).
Proof.
  intros ??. apply runs_bind, runs_get, runs_bind, runs_upd. rewrite (proj2 (Z.leb_gt (total s) 0)) by lia.
  apply runs_bind, runs_ret, runs_assert_totals; [cbn [idle total set_total]; lia..|done].
Qed.

Definition keeps (R : list positive) (s s' : client) : Prop :=
  (∀ c, c ∈ R → conns s' !! c = conns s !! c) ∧ (length (wps s) <= length (wps s'))%nat.
#[export] Instance keeps_preorder R : PreOrder (keeps R).
Proof. split; [done|]. intros s1 s2 s3 [H1 ?] [H2 ?]. split; [|lia]. intros c Hc. by rewrite H2, H1. Qed.
Lemma quiet_keeps R s s' : quiet s s' → keeps R s s'.
Proof. intros []. split; [|done]. by rewrite q_conns0. Qed.
Lemma gone_stacked c s s' : gone c s s' → stacked s' = stacked s.
Proof. intros []. unfold stacked. by rewrite g_wps0. Qed.

Lemma sinv_gone c R h lk n s s' : gone c s s' → sinv (c :: R) h lk n s → sinv R h lk n s' ∧ keeps R s s'.
Proof.
  intros Hg [Hnd Hi Hr Hf Hw Hc Hl Hu Hm Hin]. pose proof (gone_stacked _ _ _ Hg) as Hst. destruct Hg.
  assert (c ∉ stacked s ++ R ∧ NoDup (stacked s ++ R)) as [Hnc Hnd'] by by rewrite <- NoDup_cons, Permutation_middle.
  assert (∀ c', c' ∈ stacked s ++ R → conns s' !! c' = conns s !! c') as Hsame.
  { intros c' Hc'. rewrite g_conns0, lookup_delete_ne; [done|]. by intros ->. }
  split; [split|].
  - by rewrite Hst.
  - rewrite Hst. intros c' Hc'. unfold idle_conn. rewrite Hsame by (apply elem_of_app; by left). by apply Hi.
  - intros c' Hc'. rewrite Hsame by (apply elem_of_app; by right). apply Hr. by right.
  - intros c'. rewrite g_conns0, g_next0. intros [x [_ Hx]%lookup_delete_Some]. apply Hf. by eexists.
  - unfold wps_ok. by rewrite g_wps0, g_tls0.
  - congruence.
  - congruence.
  - congruence.
  - congruence.
  - congruence.
  - split; [|by rewrite g_wps0]. intros c' Hc'. apply Hsame, elem_of_app. by right.
Qed.

Lemma stacked_remove s k w rem l :
  wps s !! k = Some (Some w) → idle_stack w ≡ₚ rem ++ l → stacked s ≡ₚ rem ++ stacked (set_wps (<[k := Some (set_stack l w)]> (wps s)) s).
Proof.
  intros Hk Hl. pose proof (stacked_insert s k w (set_stack l w) Hk) as Hs. cbn [idle_stack set_stack] in Hs.
  rewrite Hl in Hs. apply (Permutation_app_inv_r l). rewrite <- Hs. by rewrite !(assoc app), (comm app rem).
Qed.
Lemma stacked_push s k w c :
  wps s !! k = Some (Some w) → stacked (set_wps (<[k := Some (set_stack (c :: idle_stack w) w)]> (wps s)) s) ≡ₚ c :: stacked s.
Proof.
  intros Hk. pose proof (stacked_insert s k w (set_stack (c :: idle_stack w) w) Hk) as Hs. cbn [idle_stack set_stack] in Hs.
  apply (Permutation_app_inv_r (idle_stack w)). rewrite Hs. simpl. by rewrite Permutation_middle.
Qed.
Lemma stack_in_stacked s k w c : wps s !! k = Some (Some w) → c ∈ idle_stack w → c ∈ stacked s.
Proof. intros Hk Hc. rewrite (stacked_remove s k w (idle_stack w) []) by (try done; by rewrite app_nil_r). apply elem_of_app. by left. Qed.

(** ** Sweeping *)

Record swept (l l' : list positive) (n : nat) (s s' : client) : Prop := {
  s_conns : ∀ c, c ∉ l ∨ c ∈ l' → conns s' !! c = conns s !! c;
  s_dom : ∀ c, is_Some (conns s' !! c) → is_Some (conns s !! c);
  s_wps : wps s' = wps s; s_tls : tls s' = tls s; s_inflight : inflight s' = inflight s; s_next : next_conn s' = next_conn s;
  s_total : total s' = total s - Z.of_nat n; s_idle : idle s' = idle s - Z.of_nat n;
  s_sub : l' `sublist_of` l; s_len : (length l' + n)%nat = length l }.

Lemma runs_sweep_loop t force l s :
  NoDup l → (∀ c, c ∈ l → idle_conn s c) → Z.of_nat (length l) <= idle s <= total s → total s <= 64 →
  runs (sweep_loop t force l) s (λ r, swept l r.1 r.2 s).
Proof.
  revert s. induction l as [|c l IH]; intros s Hnd Hidle Hlen Hmax.
  { apply runs_ret. split; try done; simpl; lia. }
  apply NoDup_cons in Hnd as [Hc Hnd]. simpl in Hlen. destruct (Hidle c) as (x & Hx & Hst & _); [by left|]. cbn [sweep_loop].
  apply runs_bind, (runs_get_conn _ x); [done|]. destruct (force || _).
  - apply runs_bind, runs_bind, (runs_get_conn _ x); [done|]. rewrite decide_True by done. apply runs_ret, runs_bind, runs_upd.
    apply runs_bind, runs_assert_totals; [cbn [idle total set_idle]; lia..|]. apply runs_bind. eapply runs_transition; [done..|].
    apply runs_bind. eapply runs_mono; [eapply runs_idle_close; [apply lookup_insert_eq|done]|]. intros _ s1 [H1 H2 H3 H4 H5 H6 H7].
    cbn [conns wps tls total idle inflight next_conn set_conns set_idle] in *. rewrite delete_insert_eq in H1.
    apply runs_bind. eapply runs_mono; [apply runs_release_slot; lia|]. intros _ s2 ->. apply runs_bind.
    assert (∀ c', c' ≠ c → conns (set_total (total s1 - 1) s1) !! c' = conns s !! c') as Hsame.
    { intros c' Hne. cbn [conns set_total]. by rewrite H1, lookup_delete_ne. }
    eapply runs_mono; [apply IH; [done| |cbn [idle total set_total]; lia..]|].
    { intros c' Hc'. unfold idle_conn. rewrite Hsame by (by intros ->). apply Hidle. by right. }
    intros [l' n] s3 [G1 G2 G3 G4 G5 G6 G7 G8 G9 G10]. cbn [fst snd] in *. apply runs_ret. cbn [fst snd].
    cbn [conns wps tls total idle inflight next_conn set_total] in G2, G3, G4, G5, G6, G7, G8. split; try (simpl; congruence || lia).
    + intros c' Hc'. assert (c' ≠ c) as Hne.
      { intros ->. destruct Hc' as [Hc'|Hc']; [apply Hc'; by left|]. apply Hc. by eapply elem_of_sublist. }
      rewrite G1, Hsame; [done..|]. destruct Hc' as [Hc'|]; [left|by right]. intros ?. apply Hc'. by right.
    + intros c' Hc'%G2. rewrite H1 in Hc'. destruct Hc' as [y [_ Hy]%lookup_delete_Some]. by eexists.
    + by apply sublist_cons.
  - apply runs_bind. eapply runs_mono; [apply IH; [done| |lia..]|]. { intros c' Hc'. apply Hidle. by right. }
    intros [l' n] s3 [G1 G2 G3 G4 G5 G6 G7 G8 G9 G10]. cbn [fst snd] in *. apply runs_ret. cbn [fst snd]. split; try (simpl; congruence || lia); [|done|by apply sublist_skip].
    intros c' [Hc'|Hc']; [apply G1; left; intros ?; apply Hc'; by right|]. apply elem_of_cons in Hc' as [->|]; apply G1; auto.
Qed.

Lemma runs_signal_times k s : runs (signal_times k) s (λ _, quiet s).
Proof.
  revert s. induction k as [|k IH]; intros s; [by apply runs_ret|]. apply runs_bind. eapply runs_mono; [apply quiet_signal|].
  intros [] s1 ?. eapply runs_mono; [apply IH|]. intros [] s2 ?. by transitivity s1.
Qed.

Lemma runs_idle_sweep t time force R h lk n s :
  0 <= h → sinv R h lk n s → runs (http_client_idle_sweep t time force) s (λ _ s', sinv R h lk n s' ∧ keeps R s s').
Proof.
  intros Hh Hs. apply runs_bind. eapply runs_mono; [apply quiet_current, Hs|]. intros k s1 [Hq Hk].
  pose proof (sinv_quiet _ _ _ _ _ _ Hq Hs) as H1. destruct (i_wps _ _ _ _ _ H1) as [Hw1 Hw2]. destruct (Hw1 k Hk) as [w Hw].
  apply runs_bind, (runs_get_wp _ w); [done|].
  pose proof (stacked_remove s1 k w (idle_stack w) [] Hw ltac:(by rewrite app_nil_r)) as Hperm.
  assert (NoDup (idle_stack w)) as Hnd.
  { pose proof (i_nodup _ _ _ _ _ H1) as Hnd. rewrite Hperm, <- (assoc app) in Hnd. by apply NoDup_app in Hnd as [? _]. }
  assert (Z.of_nat (length (idle_stack w)) <= idle s1) as Hlen. { rewrite (i_count _ _ _ _ _ H1), Hperm, length_app. lia. }
  apply runs_bind. eapply runs_mono; [apply runs_sweep_loop; [done| |destruct H1; lia..]|].
  { intros c Hc. apply (i_idle _ _ _ _ _ H1). by eapply stack_in_stacked. }
  intros [l m] s2 [G1 G2 G3 G4 G5 G6 G7 G8 [rem Hrem]%sublist_submseteq%submseteq_Permutation G10]. cbn [fst snd] in *. apply runs_bind, runs_upd.
  assert (wps s2 !! k = Some (Some w)) as Hw'. { by rewrite G3. }
  rewrite (comm app) in Hrem. pose proof (stacked_remove s2 k w rem l Hw' Hrem) as Hst. set (s3 := set_wps _ s2) in *.
  assert (stacked s2 = stacked s1) as E by (unfold stacked; by rewrite G3). rewrite E in Hst.
  assert (length rem = m) as Hm. { pose proof (Permutation_length Hrem) as Hl. rewrite length_app in Hl. lia. }
  assert (∀ c, c ∈ stacked s3 ++ R → conns s3 !! c = conns s1 !! c) as Hsame.
  { intros c Hc. cbn [s3 conns set_wps]. apply G1. destruct (decide (c ∈ idle_stack w)) as [Hin|]; [right|by left].
    rewrite Hrem in Hin. apply elem_of_app in Hin as [Hin|]; [|done]. exfalso. pose proof (i_nodup _ _ _ _ _ H1) as Hnd'.
    rewrite Hst, <- (assoc app) in Hnd'. apply NoDup_app in Hnd' as (_ & Hdis & _). by apply (Hdis c). }
  eapply runs_mono; [apply runs_signal_times|]. intros [] s4 Hq4. assert (sinv R h lk n s3) as H3.
  { destruct H1 as [I1 I2 I3 I4 I5 I6 I7 I8 I9 I10]. split.
    - rewrite Hst, <- (assoc app) in I1. by apply NoDup_app in I1 as (_ & _ & ?).
    - intros c Hc. unfold idle_conn. rewrite Hsame by (apply elem_of_app; by left). apply I2. rewrite Hst. apply elem_of_app. by right.
    - intros c Hc. rewrite Hsame by (apply elem_of_app; by right). by apply I3.
    - intros c Hc%G2%I4. cbn [s3 next_conn set_wps]. by rewrite G6.
    - apply wps_ok_insert. unfold wps_ok. by rewrite G3, G4.
    - cbn [s3 idle set_wps]. rewrite G8, I6, Hst, length_app. lia.
    - cbn [s3 idle total set_wps]. lia.
    - cbn [s3 idle total set_wps]. lia.
    - cbn [s3 idle total set_wps]. lia.
    - cbn [s3 inflight set_wps]. congruence. }
  split; [by eapply sinv_quiet|]. transitivity s1; [by apply quiet_keeps|]. transitivity s3; [|by apply quiet_keeps]. split.
  - intros c Hc. apply Hsame, elem_of_app. by right.
  - cbn [s3 wps set_wps]. rewrite length_insert. by rewrite G3.
Qed.

Lemma runs_sweep_all t time force R h lk n s :
  0 <= h → sinv R h lk n s → runs (http_client_sweep_all t time force) s (λ _ s', sinv R h lk n s' ∧ keeps R s s').
Proof.
  intros Hh Hs. apply runs_bind, runs_get. case_decide; [by apply runs_ret|]. apply runs_bind. eapply runs_mono; [apply quiet_current, Hs|].
  intros k s1 [Hq1 _]. apply runs_bind, runs_upd. set (s2 := set_posted _ s1). assert (quiet s s2) as Hq2 by (transitivity s1; [done|by split]).
  pose proof (sinv_quiet _ _ _ _ _ _ Hq2 Hs) as H2. destruct force; [|apply runs_ret; split; [done|by apply quiet_keeps]].
  eapply runs_mono; [by apply runs_idle_sweep|]. intros _ s3 [??]. split; [done|]. transitivity s2; [by apply quiet_keeps|done].
Qed.

(** ** Taking and returning connections *)

Lemma runs_find_conn host port l s :
  (∀ c, c ∈ l → is_Some (conns s !! c)) →
  runs (find_conn host port l) s (λ r s', s' = s ∧ match r with Some (c, l') => l ≡ₚ c :: l' | None => True end).
Proof.
  induction l as [|c l IH]; intros Hl; [by apply runs_ret|]. destruct (Hl c) as [x Hx]; [by left|]. apply runs_bind, (runs_get_conn _ x); [done|].
  destruct (_ && _); [by apply runs_ret|]. apply runs_bind. eapply runs_mono; [apply IH; intros c' Hc'; apply Hl; by right|].
  intros r s' [-> Hr]. apply runs_ret. split; [done|]. destruct r as [[c' l']|]; [|done]. simpl. rewrite Hr. constructor.
Qed.

(** What a successful search leaves: connection [c] is off the stack of one worker. *)
Definition popped (s : client) (r : option positive) (s' : client) : Prop :=
  match r with
  | None => s' = s
  | Some c => ∃ k w l, wps s !! k = Some (Some w) ∧ idle_stack w ≡ₚ [c] ++ l ∧ s' = set_wps (<[k := Some (set_stack l w)]> (wps s)) s
  end.

Lemma runs_take_from k w host port s :
  wps s !! k = Some (Some w) → (∀ c, c ∈ stacked s → is_Some (conns s !! c)) → runs (take_from k host port) s (popped s).
Proof.
  intros Hw Hc. apply runs_bind, (runs_get_wp _ w); [done|]. apply runs_bind. eapply runs_mono; [apply runs_find_conn|].
  { intros c ?. apply Hc. by eapply stack_in_stacked. }
  intros r s' [-> Hr]. destruct r as [[c l]|]; [|by apply runs_ret]. apply runs_bind, runs_upd, runs_ret. by exists k, w, l.
Qed.

Lemma runs_steal_from cur pool host port ks s :
  (∀ c, c ∈ stacked s → is_Some (conns s !! c)) → runs (steal_from cur pool host port ks) s (popped s).
Proof.
  intros Hc. induction ks as [|k ks IH]; [by apply runs_ret|]. apply runs_bind, runs_get. destruct (wps s !! k) as [[w|]|] eqn:Hk; [|done..].
  simpl. case_decide; [done|]. destruct (_ =? _); [|done]. apply runs_bind. eapply runs_mono; [by eapply runs_take_from|].
  intros r s' Hr. destruct r as [c|]; [by apply runs_ret|]. simpl in Hr. by subst s'.
Qed.

Lemma idle_some R h lk n s c : sinv R h lk n s → c ∈ stacked s → is_Some (conns s !! c).
Proof. intros Hs Hc. destruct (i_idle _ _ _ _ _ Hs c Hc) as (x & ? & _). by exists x. Qed.

(** The taken connection is in use and has a handle. *)
Definition taken (R : list positive) (h lk n : Z) (s : client) (r : option positive) (s' : client) : Prop :=
  keeps R s s' ∧
  match r with
  | Some c => sinv (c :: R) (h + 1) lk n s' ∧ ∃ x, conns s' !! c = Some x ∧ c_state x = HTTP_CONN_IN_USE ∧ is_Some (c_tcp x)
  | None => sinv R h lk n s'
  end.

Lemma runs_take_idle cur host port R h lk n s :
  0 <= h → sinv R h lk n s → (cur < length (wps s))%nat →
  runs (http_client_take_idle_connection cur host port) s (taken R h lk n s).
Proof.
  intros Hh Hs Hk. destruct (i_wps _ _ _ _ _ Hs) as [Hw _]. destruct (Hw cur Hk) as [w Hcur].
  assert (∀ c, c ∈ stacked s → is_Some (conns s !! c)) as Hall by (intros c; by eapply idle_some).
  apply runs_bind. eapply runs_mono; [by eapply runs_take_from|]. intros r s1 Hr. apply runs_bind.
  apply (runs_mono _ _ (popped s)).
  { destruct r as [c|]; [by apply runs_ret|]. simpl in Hr. subst s1. apply runs_bind, (runs_get_wp _ w); [done|].
    apply runs_bind, runs_get. by apply runs_steal_from. }
  clear r s1 Hr. intros r s1 Hr. destruct r as [c|]; [|simpl in Hr; subst s1; by apply runs_ret].
  destruct Hr as (k & w' & l & Hw' & Hl & ->). pose proof (stacked_remove s k w' [c] l Hw' Hl) as Hst. set (s1 := set_wps _ s) in *.
  destruct (i_idle _ _ _ _ _ Hs c) as (x & Hx & Hxs & Hxt); [rewrite Hst; by left|]. destruct Hs as [I1 I2 I3 I4 I5 I6 I7 I8 I9 I10].
  rewrite Hst in I1. assert (idle s = 1 + Z.of_nat (length (stacked s1))) as Hcnt. { rewrite I6, Hst. simpl. lia. }
  apply runs_bind, runs_upd, runs_bind, runs_assert_totals; [cbn [s1 idle total set_wps set_idle]; lia..|].
  apply runs_bind. eapply runs_transition; [done..|]. apply runs_ret.
  cbn [app] in I1. apply NoDup_cons in I1 as [Hnc I1].
  assert (∀ c', c' ∈ stacked s1 ++ R → <[c := set_c_state HTTP_CONN_IN_USE x]> (conns s) !! c' = conns s !! c') as Hsame.
  { intros c' Hc'. rewrite lookup_insert_ne; [done|]. by intros ->. }
  split; [split; [intros c' Hc'; cbn [s1 conns set_wps set_idle set_conns]; apply Hsame, elem_of_app; by right|cbn [s1 wps set_wps set_idle set_conns]; by rewrite length_insert]|].
  split; [|exists (set_c_state HTTP_CONN_IN_USE x); split_and!; [apply lookup_insert_eq|done|done]].
  split; cbn [s1 idle total inflight next_conn set_wps set_idle set_conns]; [| | | |by apply wps_ok_insert| |lia..].
  - change (NoDup (stacked s1 ++ c :: R)). rewrite <- Permutation_middle. by apply NoDup_cons.
  - intros c' Hc'. unfold idle_conn. cbn [s1 conns set_wps set_idle set_conns]. rewrite Hsame by (apply elem_of_app; by left). apply I2. rewrite Hst. by right.
  - intros c' Hc'. cbn [s1 conns set_wps set_idle set_conns]. apply elem_of_cons in Hc' as [->|Hc']; [rewrite lookup_insert_eq; by eexists|].
    rewrite Hsame by (apply elem_of_app; by right). by apply I3.
  - intros c' Hc'. cbn [s1 conns set_wps set_idle set_conns] in Hc'. apply I4. destruct (decide (c' = c)) as [->|]; [by exists x|]. by rewrite lookup_insert_ne in Hc'.
  - change (idle s - 1 = Z.of_nat (length (stacked s1))). lia.
Qed.

(** Changing a connection that a fiber holds. *)
Lemma sinv_set c x R h lk n s : sinv (c :: R) h lk n s → sinv (c :: R) h lk n (set_conns (<[c := x]> (conns s)) s) ∧ keeps R s (set_conns (<[c := x]> (conns s)) s).
Proof.
  intros [I1 I2 I3 I4 I5 I6 I7 I8 I9 I10]. pose proof I1 as Hnc. rewrite <- Permutation_middle in Hnc. apply NoDup_cons in Hnc as [Hnc _].
  assert (∀ c', c' ∈ stacked s ++ R → <[c := x]> (conns s) !! c' = conns s !! c') as Hsame.
  { intros c' Hc'. rewrite lookup_insert_ne; [done|]. by intros ->. }
  split; [split; try done|split; [|done]].
  - intros c' Hc'. unfold idle_conn. cbn [conns set_conns]. rewrite Hsame by (apply elem_of_app; by left). by apply I2.
  - intros c' Hc'. cbn [conns set_conns]. apply elem_of_cons in Hc' as [->|Hc']; [rewrite lookup_insert_eq; by eexists|].
    rewrite Hsame by (apply elem_of_app; by right). apply I3. by right.
  - intros c' Hc'. cbn [conns set_conns] in Hc'. apply I4. destruct (decide (c' = c)) as [->|]; [apply I3; by left|]. by rewrite lookup_insert_ne in Hc'.
  - intros c' Hc'. apply Hsame, elem_of_app. by right.
Qed.

Lemma runs_return t time c x healthy R h lk n s :
  1 <= h → sinv (c :: R) h lk n s → conns s !! c = Some x → c_state x = HTTP_CONN_IN_USE → is_Some (c_tcp x) →
  runs (http_client_return_connection_local t time c healthy) s (λ _ s', sinv R (h - 1) lk n s' ∧ keeps R s s').
Proof.
  intros Hh Hs Hx Hst Htcp. apply runs_bind. eapply runs_mono; [apply quiet_current, Hs|]. intros k s1 [Hq Hk].
  pose proof (sinv_quiet _ _ _ _ _ _ Hq Hs) as H1. rewrite <- (q_conns _ _ Hq) in Hx. pose proof (quiet_keeps R _ _ Hq) as Hkeep. clear Hq Hs.
  apply runs_bind, runs_get. destruct (healthy && _).
  - apply runs_bind. eapply runs_transition; [done..|]. apply runs_bind. eapply runs_get_conn; [apply lookup_insert_eq|]. apply runs_bind, runs_upd.
    cbn [conns set_conns]. rewrite insert_insert_eq. set (x' := set_last_used time _).
    destruct (sinv_set c x' _ _ _ _ _ H1) as [H2 Hkeep2].
    assert (sinv (c :: R) h lk n (set_conns (<[c := x']> (conns s1)) (set_conns (<[c := set_c_state HTTP_CONN_IDLE x]> (conns s1)) s1))) as H2' by exact H2. clear H2.
    set (s2 := set_conns _ (set_conns _ s1)) in *. destruct (i_wps _ _ _ _ _ H1) as [Hw _]. destruct (Hw k Hk) as [w Hw'].
    apply runs_bind, (runs_get_wp _ w); [done|]. apply runs_bind, runs_upd. pose proof (stacked_push s2 k w c Hw') as Hps. set (s3 := set_wps _ s2) in *.
    apply runs_bind, runs_upd. destruct H2' as [I1 I2 I3 I4 I5 I6 I7 I8 I9 I10].
    apply runs_bind, runs_assert_totals; [change (idle s1) with (idle s2); cbn [s3 idle total set_wps set_idle]; lia..|].
    eapply runs_mono; [apply quiet_signal|]. intros [] s4 Hq4. set (s3' := set_idle _ s3) in *.
    assert (sinv R (h - 1) lk n s3') as H3.
    { split; cbn [s3' s3 idle total inflight next_conn set_wps set_idle]; change (idle s1) with (idle s2); [| | | |by apply wps_ok_insert| |lia..|done].
      - change (stacked s3') with (stacked s3). rewrite Hps, <- Permutation_middle in *. done.
      - intros c'. change (stacked s3') with (stacked s3). rewrite Hps. intros [->|Hc']%elem_of_cons; [|by apply I2].
        exists x'. split_and!; [apply lookup_insert_eq|done|done].
      - intros c' Hc'. apply I3. by right.
      - intros c' Hc'. by apply I4.
      - change (idle s1 + 1 = Z.of_nat (length (stacked s3))). change (idle s1) with (idle s2). rewrite Hps. cbn [length]. lia. }
    split; [by eapply sinv_quiet|]. transitivity s3'; [|by apply quiet_keeps]. transitivity s1; [done|]. destruct Hkeep2 as [Hk2 _].
    split; [exact Hk2|]. cbn [s3' s3 wps set_wps set_idle]. rewrite length_insert. done.
  - apply runs_bind. eapply runs_transition; [done..|]. apply runs_bind. eapply runs_get_conn; [apply lookup_insert_eq|]. cbn [c_tcp set_c_state].
    apply runs_bind. set (s2 := set_conns _ s1). apply (runs_mono _ _ (λ _ s', s' = set_closes (closes s') s2)).
    { destruct (c_tcp x); [by apply runs_upd|by apply runs_ret]. }
    intros [] s3 Hs3. apply runs_bind, runs_upd. set (s4 := set_conns _ s3).
    assert (gone c s1 s4) as Hg. { subst s4. rewrite Hs3. split; try done. cbn [s2 conns set_conns set_closes]. by rewrite delete_insert_eq. }
    destruct (sinv_gone _ _ _ _ _ _ _ Hg H1) as [H4 Hkeep4]. apply runs_bind. destruct H4 as [I1 I2 I3 I4 I5 I6 I7 I8 I9 I10].
    eapply runs_mono; [apply runs_release_slot; lia|]. intros [] s5 ->. eapply runs_mono; [apply quiet_signal|]. intros [] s6 Hq6.
    split; [eapply sinv_quiet; [done|]; split; try done; cbn [total idle set_total]; lia|].
    transitivity s1; [done|]. transitivity s4; [done|]. transitivity (set_total (total s4 - 1) s4); [done|by apply quiet_keeps].
Qed.

(** ** Slots *)

Lemma runs_acquire R h lk n s :
  0 <= h → sinv R h lk n s →
  runs http_client_try_acquire_slot s (λ b s', keeps R s s' ∧ sinv R (if b : bool then h + 1 else h) lk n s').
Proof.
  intros Hh Hs. apply runs_bind, runs_get. destruct Hs as [I1 I2 I3 I4 I5 I6 I7 I8 I9 I10].
  destruct (Z.ltb_spec (total s) GOC_HTTP_MAX_CONNECTIONS) as [Hlt|]; [|by apply runs_ret]. unfold GOC_HTTP_MAX_CONNECTIONS in Hlt.
  apply runs_bind, runs_upd, runs_bind, runs_assert_totals; [cbn [idle total set_total]; lia..|]. apply runs_ret.
  split; [done|]. split; try done; cbn [idle total set_total]; lia.
Qed.

Lemma runs_release_and_signal R h lk n s :
  1 <= h → sinv R h lk n s → runs release_and_signal s (λ _ s', sinv R (h - 1) lk n s' ∧ keeps R s s').
Proof.
  intros Hh [I1 I2 I3 I4 I5 I6 I7 I8 I9 I10]. apply runs_bind. eapply runs_mono; [apply runs_release_slot; lia|]. intros [] s1 ->.
  eapply runs_mono; [apply quiet_signal|]. intros [] s2 Hq. split; [|transitivity (set_total (total s - 1) s); [done|by apply quiet_keeps]].
  eapply sinv_quiet; [done|]. split; try done; cbn [total idle set_total]; lia.
Qed.

Lemma runs_conn_make host port R h lk n s :
  sinv R h lk n s →
  runs (http_conn_make true host port) s (λ r s', ∃ c, r = Some c ∧ sinv (c :: R) h lk n s' ∧ keeps R s s' ∧
    conns s' !! c = Some (mk_conn None HTTP_CONN_CONNECTING false host port 0)).
Proof.
  intros [I1 I2 I3 I4 I5 I6 I7 I8 I9 I10]. apply runs_bind, runs_get, runs_bind, runs_upd, runs_bind, runs_upd, runs_ret. exists (next_conn s). split; [done|].
  assert (conns s !! next_conn s = None) as Hnew. { apply eq_None_not_Some. intros ?%I4. lia. }
  assert (∀ c, is_Some (conns s !! c) → <[next_conn s := mk_conn None HTTP_CONN_CONNECTING false host port 0]> (conns s) !! c = conns s !! c) as Hsame.
  { intros c Hc. rewrite lookup_insert_ne; [done|]. intros <-. rewrite Hnew in Hc. by destruct Hc. }
  assert (∀ c, c ∈ stacked s ++ R → is_Some (conns s !! c)) as Hall.
  { intros c [Hc|?]%elem_of_app; [|by apply I3]. destruct (I2 c Hc) as (x & ? & _). by exists x. }
  split_and!; [split; try done|split; [|done]|apply lookup_insert_eq].
  - change (NoDup (stacked s ++ next_conn s :: R)). rewrite <- Permutation_middle. apply NoDup_cons. split; [|done]. intros Hc%Hall. rewrite Hnew in Hc. by destruct Hc.
  - intros c Hc. destruct (I2 c Hc) as (x & Hx & ?). exists x. split; [|done]. cbn [conns set_conns set_next_conn]. by rewrite Hsame.
  - intros c Hc. cbn [conns set_conns set_next_conn]. apply elem_of_cons in Hc as [->|Hc]; [rewrite lookup_insert_eq; by eexists|]. rewrite Hsame by auto. auto.
  - intros c Hc. cbn [conns set_conns set_next_conn next_conn] in *. destruct (decide (c = next_conn s)) as [->|]; [lia|].
    rewrite lookup_insert_ne in Hc by done. apply I4 in Hc. lia.
  - intros c Hc. cbn [conns set_conns set_next_conn]. apply Hsame. auto.
Qed.

(** ** A fiber among others *)

Definition waits_slot (p : client_pc) : bool :=
  match p with PRetry | PTry | PFull | PObserve | PWait _ | PParked _ => true | _ => false end.
Definition live (p : client_pc) : bool := match p with PStart | PDone => false | _ => true end.
(** The slot a fiber holds, and the slot it has lost: a failed bind is tried again with
    another slot. *)
Definition holds (f : client_fiber) : bool := slot_acquired (arg f) && live (pc f).
Definition lost (f : client_fiber) : bool := connect_retry f && negb (slot_acquired (arg f) && waits_slot (pc f)).

Definition has_conn (st : http_conn_state_t) (f : client_fiber) (s : client) : Prop :=
  ∃ c x, req_conn f = Some c ∧ conns s !! c = Some x ∧ c_state x = st ∧
    match st with HTTP_CONN_CONNECTING => timed_out x = false | _ => is_Some (c_tcp x) end.

Definition waiting_ok (f : client_fiber) (s : client) : Prop :=
  tcp f = None ∧ using_idle f = false ∧
  (req_conn f = None ∧ slot_acquired (arg f) = false ∨ has_conn HTTP_CONN_CONNECTING f s ∧ slot_acquired (arg f) = true ∧ connect_retry f = true).
Definition fiber_ok (f : client_fiber) (s : client) : Prop :=
  match pc f with
  | PStart => tcp f = None ∧ using_idle f = false ∧ req_conn f = None ∧ slot_acquired (arg f) = false
  | PRetry | PTry | PFull | PObserve => waiting_ok f s
  | PWait k | PParked k => waiting_ok f s ∧ (k < length (wps s))%nat
  | PDns => using_idle f = false ∧ slot_acquired (arg f) = true ∧ has_conn HTTP_CONN_CONNECTING f s
  | PInit => using_idle f = false ∧ slot_acquired (arg f) = true ∧ has_conn HTTP_CONN_CONNECTING f s ∧ is_Some (tcp f)
  | PConnect =>
      using_idle f = false ∧ slot_acquired (arg f) = true ∧ has_conn HTTP_CONN_CONNECTING f s ∧
      (∀ c x, req_conn f = Some c → conns s !! c = Some x → is_Some (c_tcp x))
  | PWrite | PRead => slot_acquired (arg f) = true ∧ has_conn HTTP_CONN_IN_USE f s
  | PDone => req_conn f = None
  end.

Lemma fiber_ok_keeps f s s' : fiber_ok f s → keeps (option_list (req_conn f)) s s' → fiber_ok f s'.
Proof.
  intros Hf [Hc Hl]. assert (∀ st, has_conn st f s → has_conn st f s') as Hconn.
  { intros st (c & x & Hr & Hx & ?). exists c, x. split_and!; [done| |naive_solver..]. rewrite Hc; [done|]. rewrite Hr. by left. }
  assert (waiting_ok f s → waiting_ok f s') as Hw by (intros (? & ? & Hr); split_and!; naive_solver).
  unfold fiber_ok in *. destruct (pc f); try naive_solver.
  - destruct Hf; split; [auto|lia].
  - destruct Hf; split; [auto|lia].
  - destruct Hf as (? & ? & ? & Ht). split_and!; [auto..|]. intros c x Hr Hx. eapply Ht; [done|]. rewrite <- Hc; [done|]. rewrite Hr. by left.
Qed.

Section Fiber.
Context (R : list positive) (H L N : Z) (HH : 0 <= H) (s0 : client).

(** The invariant as this fiber sees it: [R], [H], [L] and [N] are what all others hold,
    have lost and count; the connections of the others stay as they were in [s0]. *)
Definition sees (f : client_fiber) (s : client) : Prop :=
  sinv (option_list (req_conn f) ++ R) (H + Z.b2z (holds f)) (L + Z.b2z (lost f)) (N + Z.b2z (live (pc f))) s ∧ keeps R s0 s.
Definition good (f : client_fiber) (s : client) : Prop := sees f s ∧ fiber_ok f s.

Definition mid (own : list positive) (h lk : Z) (s : client) : Prop := sinv (own ++ R) (H + h) (L + lk) (N + 1) s ∧ keeps R s0 s.

Lemma mid_quiet own h lk s s' : quiet s s' → mid own h lk s → mid own h lk s'.
Proof. intros Hq [? ?]. split; [by eapply sinv_quiet|]. transitivity s; [done|by apply quiet_keeps]. Qed.
Lemma mid_gone c h lk s s' : gone c s s' → mid [c] h lk s → mid [] h lk s'.
Proof. intros Hg [Hs ?]. destruct (sinv_gone _ _ _ _ _ _ _ Hg Hs) as [? ?]. split; [done|]. by transitivity s. Qed.
Lemma mid_set c x h lk s : mid [c] h lk s → mid [c] h lk (set_conns (<[c := x]> (conns s)) s).
Proof. intros [Hs ?]. destruct (sinv_set c x _ _ _ _ _ Hs) as [? ?]. split; [done|]. by transitivity s. Qed.
Lemma mid_more own h lk lk' s : lk <= lk' → mid own h lk s → mid own h lk' s.
Proof. intros ? [Hs ?]. split; [|done]. eapply sinv_more; [|done]. lia. Qed.

Lemma runs_mid_destroy c x h lk s : mid [c] h lk s → conns s !! c = Some x → c_state x ≠ HTTP_CONN_CLOSED → runs (http_client_destroy_connection c) s (λ _ s', mid [] h lk s').
Proof. intros. eapply runs_mono; [by eapply runs_destroy|]. intros [] s' ?. by eapply mid_gone. Qed.
Lemma runs_mid_release own h lk s : 1 <= h → mid own h lk s → runs release_and_signal s (λ _ s', mid own (h - 1) lk s').
Proof.
  intros ? [Hs ?]. eapply runs_mono; [apply runs_release_and_signal; [|done]; lia|]. intros [] s' [Hs' [Hk ?]]. split; [by rewrite Z.add_sub_assoc|].
  transitivity s; [done|]. split; [|done]. intros c Hc. apply Hk, elem_of_app. by right.
Qed.

Lemma runs_finish b f lk s : req_conn f = None → lk <= Z.b2z (connect_retry f) → mid [] 0 lk s → runs (finish b f) s good.
Proof.
  intros Hr Hlk [[] ?]. apply runs_bind, runs_get, runs_bind, runs_upd, runs_ret. split; [split|done]; [|done].
  unfold holds, lost. cbn [set_delivered req_conn pc arg connect_retry waits_slot live]. rewrite Hr, !andb_false_r, andb_true_r.
  split; try done; cbn [idle total inflight set_inflight]; cbn [Z.b2z]; lia.
Qed.

Definition not_closed (f : client_fiber) (s : client) : Prop :=
  ∀ c, req_conn f = Some c → ∃ x, conns s !! c = Some x ∧ c_state x ≠ HTTP_CONN_CLOSED.

Lemma runs_deliver_error f lk s :
  mid (option_list (req_conn f)) (Z.b2z (slot_acquired (arg f))) lk s → not_closed f s → lk <= Z.b2z (connect_retry f) → runs (deliver_error f) s good.
Proof.
  intros Hm Hnc Hlk. apply runs_bind, (runs_mono _ _ (λ _ s', mid [] (Z.b2z (slot_acquired (arg f))) lk s')).
  { destruct (req_conn f) as [c|] eqn:Hr; cbn [option_list] in *.
    - destruct (Hnc c Hr) as (x & ? & ?). by eapply runs_mid_destroy.
    - unfold close_tcp, when. destruct (tcp_initialized f); [|by apply runs_ret]. eapply runs_mono; [apply quiet_handle_close|].
      intros [] s1 ?. by eapply mid_quiet. }
  intros [] s1 Hm1. apply runs_bind, (runs_mono _ _ (λ _ s', mid [] 0 lk s')).
  { destruct (slot_acquired (arg f)); cbn [when Z.b2z] in *; [|by apply runs_ret]. eapply runs_mono; [by apply runs_mid_release|]. done. }
  intros [] s2 Hm2. by eapply runs_finish.
Qed.

Lemma runs_drop_idle f c x lk s :
  req_conn f = Some c → conns s !! c = Some x → c_state x ≠ HTTP_CONN_CLOSED → tcp f = None → mid [c] 1 lk s → lk <= Z.b2z (connect_retry f) →
  runs (drop_idle f) s good.
Proof.
  intros Hr Hx Hst Ht Hm Hlk. apply runs_bind. unfold on_conn. rewrite Hr. eapply runs_mono; [by eapply runs_mid_destroy|]. intros [] s1 Hm1.
  apply runs_bind. eapply runs_mono; [by apply runs_mid_release|]. intros [] s2 Hm2. apply runs_ret. split; [|split_and!; [done..|by left]].
  destruct (mid_more _ _ _ _ _ Hlk Hm2) as [Hs ?]. split; [|done]. unfold holds, lost.
  cbn [goto set_req_conn set_keepalive_retry set_using_idle upd_arg set_slot req_conn pc arg slot_acquired connect_retry live andb negb]. by rewrite andb_true_r.
Qed.

Lemma sees_mid f s : live (pc f) = true → sees f s → mid (option_list (req_conn f)) (Z.b2z (slot_acquired (arg f))) (Z.b2z (lost f)) s.
Proof. intros Hl [Hs ?]. split; [|done]. unfold holds in Hs. by rewrite Hl, andb_true_r in Hs. Qed.
Lemma lost_le f : Z.b2z (lost f) <= Z.b2z (connect_retry f).
Proof. unfold lost. by destruct (connect_retry f), (slot_acquired _ && _). Qed.
Lemma mid_leak own h lk s : mid own (h + 1) lk s → mid own h (lk + 1) s.
Proof. intros [Hs ?]. split; [|done]. rewrite Z.add_assoc in *. by apply sinv_leak. Qed.
Lemma mid_keeps own s s' : keeps (own ++ R) s s' → keeps R s0 s → keeps R s0 s'.
Proof. intros [Hk ?] ?. transitivity s; [done|]. split; [|done]. intros c Hc. apply Hk, elem_of_app. by right. Qed.
Lemma has_conn_keeps st f s s' : keeps (option_list (req_conn f) ++ R) s s' → has_conn st f s → has_conn st f s'.
Proof.
  intros [Hk _] (c & x & Hr & Hx & ?). exists c, x. split_and!; [done| |naive_solver..]. rewrite Hk; [done|].
  rewrite Hr. by left.
Qed.
Lemma waiting_keeps f s s' : keeps (option_list (req_conn f) ++ R) s s' → waiting_ok f s → waiting_ok f s'.
Proof. intros Hk (? & ? & [?|(Hc & ? & ?)]); (split; [done|split; [done|]]); [by left|right]. split; [by eapply has_conn_keeps|done]. Qed.
Lemma waiting_not_closed f s : waiting_ok f s → not_closed f s.
Proof.
  intros (_ & _ & [[Hr _]|((c & x & Hr & Hx & Hst & _) & _)]) c' Hc'; rewrite Hr in Hc'; simplify_eq. exists x. split; [done|]. by rewrite Hst.
Qed.

(** A waiting fiber goes on waiting, or gives up. *)
Lemma waiting_good f p s :
  waits_slot p = true → waits_slot (pc f) = true → mid (option_list (req_conn f)) (Z.b2z (slot_acquired (arg f))) (Z.b2z (lost f)) s → waiting_ok f s →
  (match p with PWait k | PParked k => (k < length (wps s))%nat | _ => True end) → good (goto p f) s.
Proof.
  intros Hp Hpf [Hs ?] Hw Hk. unfold lost in Hs. rewrite Hpf in Hs. split; [split; [|done]|].
  - unfold holds, lost. cbn [goto pc arg req_conn connect_retry]. rewrite Hp. destruct p; try done; by rewrite andb_true_r.
  - destruct p; done.
Qed.
Lemma waiting_error f s :
  mid (option_list (req_conn f)) (Z.b2z (slot_acquired (arg f))) (Z.b2z (lost f)) s → waiting_ok f s → runs (deliver_error f) s good.
Proof. intros. eapply runs_deliver_error; [done|by apply waiting_not_closed|apply lost_le]. Qed.
Lemma waiting_try_again f s :
  waits_slot (pc f) = true → mid (option_list (req_conn f)) (Z.b2z (slot_acquired (arg f))) (Z.b2z (lost f)) s → waiting_ok f s → runs (try_again f) s good.
Proof. intros ? ? ?. apply runs_bind, runs_get, runs_ret. by apply (waiting_good (set_version (wakeup_version s) f)). Qed.

Lemma runs_acquired f c s :
  req_conn f = Some c → slot_acquired (arg f) = true → mid [c] 1 (Z.b2z (connect_retry f)) s →
  match tcp f with Some _ => has_conn HTTP_CONN_IN_USE f s | None => using_idle f = false ∧ has_conn HTTP_CONN_CONNECTING f s end → runs (acquisition_complete f) s good.
Proof.
  intros Hr Hsl Hm Hc. unfold acquisition_complete. assert (not_closed f s) as Hnc.
  { intros c' Hc'. destruct (tcp f); [destruct Hc as (c1 & x & ? & ? & Hst & _)|destruct Hc as [_ (c1 & x & ? & ? & Hst & _)]]; simplify_eq; exists x; by rewrite Hst. }
  destruct (cancel_requested (arg f)); [eapply runs_deliver_error; [by rewrite Hr, Hsl|done|done]|].
  destruct Hm as [Hs ?]. assert (∀ p, waits_slot p = false → live p = true → sees (goto p f) s) as Hsees.
  { intros p Hp Hl. split; [|done]. unfold holds, lost. cbn [goto pc arg req_conn connect_retry]. rewrite Hp, Hl, Hr, Hsl. cbn [andb negb]. by rewrite andb_true_r. }
  destruct (tcp f); apply runs_ret; (split; [by apply Hsees|]).
  - by split.
  - destruct Hc. by split_and!.
Qed.

(** A new slot: the fiber keeps its connection if it has one. *)
Lemma runs_slot_got e f s :
  mem e = true → waits_slot (pc f) = true →
  mid (option_list (req_conn f)) (Z.b2z (slot_acquired (arg f)) + 1) (Z.b2z (lost f)) s → waiting_ok f s → runs (slot_got e f) s good.
Proof.
  intros He Hpf Hm Hw. apply runs_bind. eapply runs_mono; [apply quiet_current, Hm|]. intros k s1 [Hq _].
  apply (mid_quiet _ _ _ _ _ Hq) in Hm. eapply waiting_keeps in Hw; [|by apply quiet_keeps]. clear Hq. unfold lost in Hm. rewrite Hpf in Hm.
  destruct Hw as (Ht & Hu & [[Hr Hsl]|(Hc & Hsl & Hcr)]); cbn [upd_arg req_conn].
  - rewrite Hr in *. rewrite Hsl, andb_true_r in Hm. cbn [option_list Z.b2z] in Hm. destruct Hm as [Hs Hk]. apply runs_bind. rewrite He.
    eapply runs_mono; [by eapply runs_conn_make|]. intros r s2 (c & -> & Hs2 & Hk2 & Hx).
    eapply runs_acquired; [done|done|split; [done|by transitivity s1]|]. cbn [set_req_conn upd_arg tcp]. rewrite Ht. split; [done|]. by exists c, (mk_conn None HTTP_CONN_CONNECTING false (a_host (arg f)) (a_port (arg f)) 0).
  - rewrite Hsl, Hcr in Hm. cbn [andb negb Z.b2z] in Hm. apply mid_leak in Hm. pose proof Hc as (c & x & Hr & _). rewrite Hr in *.
    eapply runs_acquired; [done|done|cbn [upd_arg connect_retry]; by rewrite Hcr|]. cbn [upd_arg tcp]. by rewrite Ht.
Qed.

Lemma runs_try_slot e f p s :
  mem e = true → waits_slot (pc f) = true → waits_slot p = true → match p with PWait k | PParked k => False | _ => True end →
  mid (option_list (req_conn f)) (Z.b2z (slot_acquired (arg f))) (Z.b2z (lost f)) s → waiting_ok f s →
  runs (b ← http_client_try_acquire_slot; if b : bool then slot_got e f else mret (goto p f)) s good.
Proof.
  intros He Hpf Hp Hk [Hs Hk0] Hw. apply runs_bind. eapply runs_mono; [apply runs_acquire; [|done]; destruct (slot_acquired _); simpl; lia|].
  intros b s1 [Hk1 Hs1]. eapply waiting_keeps in Hw; [|done]. assert (keeps R s0 s1) by by eapply mid_keeps. destruct b.
  - apply runs_slot_got; [done..| |done]. split; [|done]. by rewrite Z.add_assoc.
  - apply runs_ret, waiting_good; try done. by destruct p.
Qed.

(** ** The steps of a request *)

Lemma runs_retry e f s : pc f = PRetry → good f s → runs (retry_connect e f) s good.
Proof.
  intros Hpc [Hsee Hok]. assert (waits_slot (pc f) = true) as Hpf by by rewrite Hpc. unfold fiber_ok in Hok. rewrite Hpc in Hok.
  apply sees_mid in Hsee; [|by rewrite Hpc]. apply runs_bind.
  apply (runs_mono _ _ (λ _ s1, quiet s s1)).
  { apply runs_bind, runs_get. destruct (sweeper_started s); [by apply runs_ret|]. apply runs_bind, runs_upd, runs_bind.
    eapply runs_mono; [apply quiet_current; apply (i_wps _ _ _ _ _ (proj1 Hsee))|]. intros k s1 [Hq _]. apply runs_ret. transitivity (set_sweeper true s); [by split|done]. }
  intros [] s1 Hq1. apply (mid_quiet _ _ _ _ _ Hq1) in Hsee. eapply waiting_keeps in Hok; [|by apply quiet_keeps]. clear Hq1 s.
  destruct (cancel_requested (arg f)); [by apply waiting_error|].
  assert (∀ s, mid (option_list (req_conn f)) (Z.b2z (slot_acquired (arg f))) (Z.b2z (lost f)) s → waiting_ok f s →
    runs (match tcp f with None => s ← get; mret (goto PTry (set_version (wakeup_version s) f)) | Some _ => acquisition_complete f end) s good) as Htry.
  { intros s ? Hw. destruct Hw as (Ht & Hw). rewrite Ht. by apply waiting_try_again. }
  apply runs_bind. destruct (keep_alive (arg f)); [|by apply runs_ret, Htry].
  apply runs_bind. eapply runs_mono; [apply quiet_current, Hsee|]. intros k s2 [Hq2 Hk].
  apply (mid_quiet _ _ _ _ _ Hq2) in Hsee. eapply waiting_keeps in Hok; [|by apply quiet_keeps]. clear Hq2 s1.
  destruct Hsee as [Hs Hk0]. apply runs_bind. eapply runs_mono; [apply runs_take_idle; [|done..]; destruct (slot_acquired _); simpl; lia|].
  intros r s3 [Hk3 Hr]. assert (keeps R s0 s3) as Hk03 by by eapply mid_keeps. eapply waiting_keeps in Hok; [|done].
  destruct r as [c|]; [|by apply runs_ret, Htry]. destruct Hr as [Hs3 (x & Hx & Hst & [t Ht])].
  apply runs_bind, (runs_get_conn _ x); [done|]. apply runs_ret. rewrite Ht. cbn [set_using_idle upd_arg set_tcp tcp].
  eapply runs_acquired; [done..| |cbn [set_using_idle upd_arg set_tcp tcp]; exists c, x; split_and!; [done..|by rewrite Ht]].
  cbn [set_using_idle upd_arg set_tcp connect_retry set_req_conn]. unfold lost in Hs3. rewrite Hpf in Hs3.
  destruct Hok as (_ & _ & [[Hrc Hsl]|(Hc & Hsl & Hcr)]).
  - rewrite Hrc, Hsl, andb_true_r in Hs3. split; [|done]. cbn [option_list app Z.b2z] in *. by rewrite Z.add_0_r in Hs3.
  - pose proof Hc as (c0 & x0 & Hrc & _). rewrite Hrc, Hsl, Hcr in Hs3. cbn [option_list app Z.b2z andb negb] in Hs3. rewrite Hcr.
    apply (mid_leak [c] 1 0). split; [|done]. apply (sinv_forget _ [c0]). cbn [app]. rewrite Z.add_assoc. eapply sinv_perm; [|exact Hs3]. apply Permutation_swap.
Qed.

Lemma runs_full e f s : mem e = true → pc f = PFull → good f s → runs (slot_full e f) s good.
Proof.
  intros He Hpc [Hsee Hok]. assert (waits_slot (pc f) = true) as Hpf by by rewrite Hpc. unfold fiber_ok in Hok. rewrite Hpc in Hok.
  apply sees_mid in Hsee; [|by rewrite Hpc]. apply runs_bind, runs_get. destruct (_ <? _); [|by apply runs_ret, waiting_good].
  destruct Hsee as [Hs Hk]. apply runs_bind. eapply runs_mono; [apply runs_sweep_all; [|done]; destruct (slot_acquired _); simpl; lia|].
  intros [] s1 [Hs1 Hk1]. apply runs_try_slot; try done; [|by eapply waiting_keeps]. split; [done|by eapply mid_keeps].
Qed.

Lemma runs_observe e f s : pc f = PObserve → good f s → runs (slot_observe e f) s good.
Proof.
  intros Hpc [Hsee Hok]. assert (waits_slot (pc f) = true) as Hpf by by rewrite Hpc. unfold fiber_ok in Hok. rewrite Hpc in Hok.
  apply sees_mid in Hsee; [|by rewrite Hpc]. apply runs_bind. eapply runs_mono; [apply quiet_wait_ch, Hsee|]. intros k s1 [Hq Hk].
  apply (mid_quiet _ _ _ _ _ Hq) in Hsee. eapply waiting_keeps in Hok; [|by apply quiet_keeps]. apply runs_bind, runs_get.
  destruct (_ =? _); [by apply runs_ret, waiting_good|by apply waiting_try_again].
Qed.

Lemma runs_wait i k e f s : pc f = PWait k → good f s → runs (slot_wait i k e f) s good.
Proof.
  intros Hpc [Hsee Hok]. assert (waits_slot (pc f) = true) as Hpf by by rewrite Hpc. unfold fiber_ok in Hok. rewrite Hpc in Hok. destruct Hok as [Hok Hk].
  apply sees_mid in Hsee; [|by rewrite Hpc]. unfold slot_wait. destruct (shutting_down e); [by apply waiting_error|].
  apply runs_bind. eapply runs_mono; [apply quiet_add_waiters|]. intros [] s1 Hq. pose proof (q_length _ _ Hq).
  apply (mid_quiet _ _ _ _ _ Hq) in Hsee. eapply waiting_keeps in Hok; [|by apply quiet_keeps]. clear Hq.
  destruct (i_wps _ _ _ _ _ (proj1 Hsee)) as [Hw _]. destruct (Hw k) as [w Hwk]; [lia|]. apply runs_bind, (runs_get_wp _ w); [done|].
  assert (∀ s2, quiet s1 s2 → runs (add_waiters (-1);; try_again f) s2 good) as Hagain.
  { intros s2 Hq2. apply runs_bind. eapply runs_mono; [apply quiet_add_waiters|]. intros [] s3 Hq3. assert (quiet s1 s3) as Hq by by transitivity s2.
    apply waiting_try_again; [done|by eapply mid_quiet|]. eapply waiting_keeps; [by apply quiet_keeps|done]. }
  destruct (wait_ch w) as [ch|]; [|by apply Hagain]. destruct (buffered ch).
  - apply runs_bind, runs_upd, Hagain. by apply quiet_put_wait.
  - apply runs_bind, runs_upd, runs_ret. pose proof (quiet_put_wait s1 k w (Some (mk_wait false (takers ch ++ [i]))) Hwk) as Hq.
    apply waiting_good; try done; [by eapply mid_quiet|cbn [wps set_wps]; rewrite length_insert; lia].
Qed.

Lemma runs_woken i k e f s : pc f = PParked k → good f s → runs (slot_woken i k e f) s good.
Proof.
  intros Hpc [Hsee Hok]. assert (waits_slot (pc f) = true) as Hpf by by rewrite Hpc. pose proof Hok as Hok'. unfold fiber_ok in Hok. rewrite Hpc in Hok.
  destruct Hok as [Hok Hk]. pose proof Hsee as Hm. apply sees_mid in Hm; [|by rewrite Hpc].
  assert (∀ s2, quiet s s2 → mid (option_list (req_conn f)) (Z.b2z (slot_acquired (arg f))) (Z.b2z (lost f)) s2 ∧ waiting_ok f s2) as Hq.
  { intros s2 Hq. split; [by eapply mid_quiet|]. eapply waiting_keeps; [by apply quiet_keeps|done]. }
  unfold slot_woken. destruct (out e); try by apply runs_ret.
  - apply runs_bind. eapply runs_mono; [apply quiet_add_waiters|]. intros [] s1 [??]%Hq. destruct (_ && _); [by apply waiting_error|by apply waiting_try_again].
  - apply runs_bind. eapply runs_mono; [apply quiet_withdraw|]. intros [] s1 Hq1. apply runs_bind. eapply runs_mono; [apply quiet_add_waiters|].
    intros [] s2 Hq2. destruct (Hq s2) as [??]; [by transitivity s1|]. by apply waiting_error.
Qed.

(** A fiber with a slot and connection [c]. *)
Definition holding (c : positive) (f : client_fiber) (s : client) : Prop :=
  req_conn f = Some c ∧ slot_acquired (arg f) = true ∧ mid [c] 1 (Z.b2z (connect_retry f)) s.
Lemma sees_holding c f s :
  live (pc f) = true → waits_slot (pc f) = false → req_conn f = Some c → slot_acquired (arg f) = true → sees f s → holding c f s.
Proof.
  intros Hl Hw Hr Hsl Hs. split_and!; [done..|]. apply sees_mid in Hs; [|done]. unfold lost in Hs. by rewrite Hr, Hsl, Hw, andb_true_r in Hs.
Qed.
Lemma holding_sees p c f s : live p = true → waits_slot p = false → holding c f s → sees (goto p f) s.
Proof.
  intros Hl Hw (Hr & Hsl & Hs & ?). split; [|done]. unfold holds, lost. cbn [goto pc arg req_conn connect_retry].
  rewrite Hl, Hw, Hr, Hsl. cbn [andb negb]. by rewrite andb_true_r.
Qed.
Lemma holding_error c x f s : holding c f s → conns s !! c = Some x → c_state x ≠ HTTP_CONN_CLOSED → runs (deliver_error f) s good.
Proof.
  intros (Hr & Hsl & Hm) Hx Hst. eapply runs_deliver_error; [by rewrite Hr, Hsl| |done]. intros c' Hc'. exists x. by simplify_eq.
Qed.
Lemma holding_drop c x f s :
  holding c f s → conns s !! c = Some x → c_state x ≠ HTTP_CONN_CLOSED → tcp f = None → runs (drop_idle f) s good.
Proof. intros (Hr & Hsl & Hm) Hx Hst Ht. by eapply runs_drop_idle. Qed.
Lemma holding_quiet c f s s' : quiet s s' → holding c f s → holding c f s'.
Proof. intros ? (? & ? & ?). split_and!; [done..|]. by eapply mid_quiet. Qed.
Lemma holding_set c x f s : holding c f s → holding c f (set_conns (<[c := x]> (conns s)) s).
Proof. intros (? & ? & ?). split_and!; [done..|]. by apply mid_set. Qed.

Lemma quiet_close_tcp f s : runs (close_tcp f) s (λ _, quiet s).
Proof. unfold close_tcp, when. destruct (tcp_initialized f); [apply quiet_handle_close|by apply runs_ret]. Qed.

(** Forgetting the handle keeps the connection and its state. *)
Lemma runs_lose_tcp c x f s :
  holding c f s → conns s !! c = Some x →
  runs (lose_tcp f) s (λ f' s', f' = no_tcp f ∧ holding c f' s' ∧ ∃ x', conns s' !! c = Some x' ∧ c_state x' = c_state x ∧ timed_out x' = timed_out x).
Proof.
  intros Hh Hx. pose proof Hh as (Hr & _). apply runs_bind. unfold when. destruct (tcp_initialized f); [|apply runs_ret, runs_ret; eauto 6].
  apply runs_bind. eapply runs_mono; [apply quiet_handle_close|]. intros [] s1 Hq. unfold on_conn. rewrite Hr.
  apply runs_bind, (runs_get_conn _ x); [by rewrite (q_conns _ _ Hq)|]. apply runs_upd, runs_ret. split_and!; [done|by eapply holding_set, holding_quiet|].
  exists (set_c_tcp None x). split; [apply lookup_insert_eq|by split].
Qed.

Lemma runs_dns found f s : pc f = PDns → good f s → runs (after_dns found f) s good.
Proof.
  intros Hpc [Hs Hok]. unfold fiber_ok in Hok. rewrite Hpc in Hok. destruct Hok as (Hu & Hsl & Hc). pose proof Hc as (c & x & Hr & Hx & Hst & Hto).
  apply (sees_holding c) in Hs; [|by rewrite ?Hpc..]. unfold after_dns. destruct found; [|eapply holding_error; [done..|by rewrite Hst]].
  apply runs_bind, runs_get, runs_bind, runs_upd, runs_ret. set (s1 := set_next_tcp _ s). assert (quiet s s1) as Hq by by split.
  split; [|split_and!; [done..|by exists c, x|by eexists]]. change (sees (goto PInit f) s1). by eapply holding_sees, holding_quiet.
Qed.

Lemma runs_init rc f s : pc f = PInit → good f s → runs (after_init rc f) s good.
Proof.
  intros Hpc [Hs Hok]. unfold fiber_ok in Hok. rewrite Hpc in Hok. destruct Hok as (Hu & Hsl & Hc & [t Ht]). pose proof Hc as (c & x & Hr & Hx & Hst & Hto).
  apply (sees_holding c) in Hs; [|by rewrite ?Hpc..]. unfold after_init.
  destruct (rc <? 0); [eapply (holding_error c x); [done..|by rewrite Hst]|]. unfold on_conn. rewrite Hr.
  apply runs_bind, runs_bind, (runs_get_conn _ x); [done|]. apply runs_upd. set (s1 := set_conns _ s). apply (holding_set c (set_c_tcp (tcp f) x)) in Hs.
  assert (conns s1 !! c = Some (set_c_tcp (tcp f) x)) as Hx1 by apply lookup_insert_eq. cbn [upd_arg set_tcp arg set_a_tcp cancel_requested].
  destruct (cancel_requested (arg f)); [eapply (holding_error c); [done|exact Hx1|]; by rewrite <- Hst in *; cbn [set_c_tcp c_state]; rewrite Hst|].
  apply runs_ret. split; [exact (holding_sees PConnect c _ s1 eq_refl eq_refl Hs)|]. split_and!; [done..|by exists c, (set_c_tcp (tcp f) x)|].
  intros c' x' Hc' Hx'. assert (c' = c) as -> by (cbn in Hc'; congruence). rewrite Hx1 in Hx'. simplify_eq. rewrite Ht. by eexists.
Qed.

Lemma runs_connect o f s :
  (∀ rc, o = ORc rc → rc <= 0) → pc f = PConnect → good f s → runs (after_connect o f) s good.
Proof.
  intros Hrc Hpc [Hs Hok]. pose proof Hok as Hok'. unfold fiber_ok in Hok. rewrite Hpc in Hok. destruct Hok as (Hu & Hsl & Hc & Htc).
  destruct Hc as (c & x & Hr & Hx & Hst & Hto). pose proof Hs as Hs'. apply (sees_holding c) in Hs; [|by rewrite ?Hpc..].
  destruct o as [|open| |b|rc|r]; try (by apply runs_ret); cbn [after_connect]; unfold on_conn; rewrite Hr.
  - apply runs_bind, runs_bind, (runs_get_conn _ x); [done|]. apply runs_bind, runs_upd. set (s1 := set_conns _ s).
    assert (conns s1 !! c = Some (set_timed_out x)) as Hx1 by apply lookup_insert_eq. apply (holding_set c (set_timed_out x)) in Hs.
    eapply runs_transition; [done..|]. set (s2 := set_conns _ s1). apply (holding_set c (set_c_state HTTP_CONN_CLOSING (set_timed_out x))) in Hs.
    apply runs_bind. eapply runs_mono; [eapply runs_lose_tcp; [exact Hs|apply lookup_insert_eq]|]. intros f' s3 (-> & Hs3 & x' & Hx' & Hst' & _).
    cbn [no_tcp upd_arg set_tcp using_idle]. rewrite Hu. cbn [andb]. eapply holding_error; [done..|]. by rewrite Hst'; cbn.
  - apply runs_bind, runs_bind, (runs_get_conn _ x); [done|]. apply runs_ret. rewrite Hto. specialize (Hrc rc eq_refl). destruct (Z.eqb_spec rc 0) as [->|Hne]; cbn [when Z.ltb Z.compare].
    + apply runs_bind. eapply runs_transition; [done..|]. apply runs_ret. split; [by eapply holding_sees, holding_set|]. split; [done|].
      exists c, (set_c_state HTTP_CONN_IN_USE x). split_and!; [done|apply lookup_insert_eq|done|exact (Htc c x Hr Hx)].
    + apply runs_bind, runs_ret. rewrite (proj2 (Z.ltb_lt rc 0)) by lia. apply runs_bind. eapply runs_mono; [by eapply runs_lose_tcp|].
      intros f' s1 (-> & Hs1 & x' & Hx' & Hst' & Hto'). cbn [no_tcp upd_arg set_tcp using_idle connect_retry]. rewrite Hu. cbn [andb].
      destruct (_ && negb (connect_retry f)) eqn:Hretry; [|eapply holding_error; [done..|by rewrite Hst', Hst]].
      apply andb_true_iff in Hretry as [_ Hcr%negb_true_iff]. apply runs_ret. pose proof Hs1 as (_ & _ & Hm & Hk). cbn [no_tcp upd_arg set_tcp connect_retry] in Hm. rewrite Hcr in Hm.
      split; [split; [|done]|].
      * unfold holds, lost. cbn [goto set_connect_retry no_tcp upd_arg set_tcp set_a_tcp pc arg req_conn connect_retry slot_acquired waits_slot live]. by rewrite Hr, Hsl.
      * split_and!; [done..|]. right. split_and!; [|done..]. exists c, x'. split_and!; [done..|by rewrite Hst'|by rewrite Hto'].
Qed.

Lemma runs_write rc f s : pc f = PWrite → good f s → runs (after_write rc f) s good.
Proof.
  intros Hpc [Hs Hok]. unfold fiber_ok in Hok. rewrite Hpc in Hok. destruct Hok as (Hsl & Hc). pose proof Hc as (c & x & Hr & Hx & Hst & _).
  apply (sees_holding c) in Hs; [|by rewrite ?Hpc..]. unfold after_write. destruct (cancel_requested _); [eapply holding_error; [done..|by rewrite Hst]|].
  destruct (rc <? 0); [|apply runs_ret; by split; [eapply holding_sees|]]. destruct (_ && _); [eapply (holding_drop c x (no_tcp f)); [done..|by rewrite Hst|done]|].
  apply runs_bind. eapply runs_mono; [apply quiet_close_tcp|]. intros [] s1 Hq. eapply (holding_error c x (no_tcp f)); [by eapply holding_quiet|by rewrite (q_conns _ _ Hq)|by rewrite Hst].
Qed.

Lemma runs_read e r f s : pc f = PRead → good f s → runs (after_read e r f) s good.
Proof.
  intros Hpc [Hs Hok]. unfold fiber_ok in Hok. rewrite Hpc in Hok. destruct Hok as (Hsl & Hc). pose proof Hc as (c & x & Hr & Hx & Hst & Htc).
  apply (sees_holding c) in Hs; [|by rewrite ?Hpc..]. unfold after_read. destruct r as [[declared closes]|].
  - apply runs_bind, (runs_mono _ _ (λ _ s1, mid [] 0 (Z.b2z (connect_retry f)) s1)).
    { destruct Hs as (_ & _ & Hm & Hk). unfold on_conn. rewrite Hr.
      assert (∀ b, runs (http_client_return_connection_local (thr e) (now e) c b) s (λ _ s1, mid [] 0 (Z.b2z (connect_retry f)) s1)) as Hret.
      { intros b. eapply runs_mono; [eapply runs_return; [|done..]; lia|]. intros [] s1 [Hs1 ?]. split; [|by transitivity s]. by replace (H + 0) with (H + 1 - 1) by lia. }
      by destruct (_ && _). }
    intros [] s1 Hm1. by eapply runs_finish.
  - destruct (_ && _).
    + apply runs_bind. eapply runs_mono; [apply quiet_close_tcp|]. intros [] s1 Hq.
      eapply (holding_drop c x (set_tcp None false f)); [by eapply holding_quiet|by rewrite (q_conns _ _ Hq)|by rewrite Hst|done].
    + destruct (using_idle f).
      * apply runs_bind. eapply runs_mono; [apply quiet_close_tcp|]. intros [] s1 Hq. destruct Hs as (_ & _ & Hm). apply (mid_quiet _ _ _ _ _ Hq) in Hm.
        apply runs_bind. unfold on_conn. rewrite Hr. eapply runs_mono; [eapply runs_mid_destroy; [done|by rewrite (q_conns _ _ Hq)|by rewrite Hst]|]. intros [] s2 Hm2.
        apply runs_bind. eapply runs_mono; [by apply runs_mid_release|]. intros [] s3 Hm3. by eapply runs_deliver_error.
      * apply runs_bind. eapply runs_mono; [apply quiet_close_tcp|]. intros [] s1 Hq.
        eapply (holding_error c x (set_tcp None false f)); [by eapply holding_quiet|by rewrite (q_conns _ _ Hq)|by rewrite Hst].
Qed.

(** What a step may be given: no result above zero of a connect, and memory. *)
Definition env_ok (e : env) : Prop := mem e = true ∧ (∀ rc, out e = ORc rc → rc <= 0).

Lemma runs_fiber i e f s : env_ok e → good f s → runs (http_client_fiber i e f) s good.
Proof.
  intros [He Hrc] Hg. unfold http_client_fiber. destruct (pc f) eqn:Hpc.
  - apply runs_bind, runs_get, runs_bind, runs_upd, runs_ret. destruct Hg as [[Hs ?] Hok]. unfold fiber_ok in Hok. rewrite Hpc in Hok.
    destruct Hok as (Ht & Hu & Hr & Hsl). split; [split; [|done]|split_and!; [done..|by left]]. unfold holds, lost in *.
    cbn [goto pc arg req_conn connect_retry live]. rewrite Hpc, Hr, Hsl in *. cbn [andb negb waits_slot live Z.b2z option_list] in *.
    destruct Hs as [I1 I2 I3 I4 I5 I6 I7 I8 I9 I10]. split; try done; cbn [idle total inflight set_inflight]; lia.
  - by apply runs_retry.
  - destruct Hg as [Hs Hok]. unfold fiber_ok in Hok. rewrite Hpc in Hok. apply sees_mid in Hs; [|by rewrite Hpc]. by apply runs_try_slot; rewrite ?Hpc.
  - by apply runs_full.
  - by apply runs_observe.
  - by apply runs_wait.
  - by apply runs_woken.
  - destruct (out e); try (by apply runs_ret). by apply runs_dns.
  - destruct (out e); try (by apply runs_ret). by apply runs_init.
  - by apply runs_connect.
  - destruct (out e); try (by apply runs_ret). by apply runs_write.
  - destruct (out e); try (by apply runs_ret). by apply runs_read.
  - by apply runs_ret.
Qed.

End Fiber.

(** ** All requests *)

Record world := mk_world { cl : client; fibers : list client_fiber }.
Definition client0 : client := mk_client 0 0 0 0 0 false ∅ [] ∅ [] [] 1 1.
Definition world0 : world := mk_world client0 [].

Inductive event :=
| ERequest (host : cstr) (port : Z) (keep : bool)   (** a request is made *)
| ERun (i : nat) (e : env)                          (** its fiber runs up to its next wait *)
| ECancel (i : nat)                                 (** its caller gives up *)
| ESweep (n : nat) (t : thread) (time : Z)          (** a posted sweep runs *)
| ESweeper (t : thread) (time : Z) (shutting : bool). (** a round of the sweeper *)

Definition on_fiber (i : nat) (m : client_fiber → prog client client_fiber) (w : world) : res world :=
  match fibers w !! i with
  | Some f => '(f', s) ← m f (cl w); ok (mk_world s (<[i := f']> (fibers w)))
  | None => ok w
  end.
Definition on_client (m : prog client ()) (w : world) : res world := '(_, s) ← m (cl w); ok (mk_world s (fibers w)).

Definition run_event (ev : event) (w : world) : res world :=
  match ev with
  | ERequest host port keep => ok (mk_world (cl w) (fibers w ++ [goc_http_request host port keep]))
  | ERun i e => on_fiber i (http_client_fiber i e) w
  | ECancel i => on_fiber i goc_http_request_timeout w
  | ESweep n t time =>
      match posted (cl w) !! n with
      | Some (_, _, force) => on_client (upd (λ s, set_posted (delete n (posted s)) s);; http_client_idle_sweep t time force) w
      | None => ok w
      end
  | ESweeper t time shutting => on_client (http_client_idle_sweeper t time shutting) w
  end.

(** The takers of the wait channel of worker [k]. *)
Definition takers_of (s : client) (k : nat) : list nat :=
  match mjoin (wps s !! k) with Some w => match wait_ch w with Some c => takers c | None => [] end | None => [] end.
Definition env_okb (e : env) : bool := mem e && match out e with ORc rc => rc <=? 0 | _ => true end.
(** A parked fiber times out while it is a taker and is woken when it is none. *)
Definition wakes_okb (i : nat) (e : env) (f : client_fiber) (s : client) : bool :=
  match pc f, out e with
  | PParked k, OTimeout => bool_decide (i ∈ takers_of s k)
  | PParked k, OWoken _ => bool_decide (i ∉ takers_of s k)
  | _, _ => true
  end.
Definition can_happen (ev : event) (w : world) : bool :=
  match ev with
  | ERequest _ _ _ => true
  | ERun i e => match fibers w !! i with Some f => env_okb e && wakes_okb i e f (cl w) | None => false end
  | ECancel i => bool_decide (is_Some (fibers w !! i))
  | ESweep n t _ => match posted (cl w) !! n with Some (p, k, _) => (p =? t_pool t) && (k =? t_worker t) | None => false end
  | ESweeper _ _ _ => sweeper_started (cl w)
  end.

Inductive reachable : world → Prop :=
| reach_init : reachable world0
| reach_step w ev w' : reachable w → can_happen ev w = true → run_event ev w = ok w' → reachable w'.

(** ** The invariant of all requests *)

Definition sum_of (g : client_fiber → bool) (fs : list client_fiber) : Z := foldr (λ f n, Z.b2z (g f) + n) 0 fs.
Lemma sum_of_app g l1 l2 : sum_of g (l1 ++ l2) = sum_of g l1 + sum_of g l2.
Proof. induction l1 as [|f l1 IH]; simpl; lia. Qed.
Lemma sum_of_middle g l1 f l2 : sum_of g (l1 ++ f :: l2) = sum_of g (l1 ++ l2) + Z.b2z (g f).
Proof. rewrite !sum_of_app. simpl. lia. Qed.
Lemma sum_of_nonneg g l : 0 <= sum_of g l.
Proof. induction l as [|f l IH]; simpl; [lia|]. destruct (g f); simpl; lia. Qed.
Lemma refs_middle l1 f l2 : omap req_conn (l1 ++ f :: l2) ≡ₚ option_list (req_conn f) ++ omap req_conn (l1 ++ l2).
Proof. rewrite !omap_app. simpl. destruct (req_conn f); simpl; [|done]. by rewrite Permutation_middle. Qed.

Definition winv (w : world) : Prop :=
  sinv (omap req_conn (fibers w)) (sum_of holds (fibers w)) (sum_of lost (fibers w)) (sum_of (live ∘ pc) (fibers w)) (cl w) ∧
  Forall (λ f, fiber_ok f (cl w)) (fibers w).

Lemma fibers_keep fs s s' : Forall (λ f, fiber_ok f s) fs → keeps (omap req_conn fs) s s' → Forall (λ f, fiber_ok f s') fs.
Proof.
  rewrite !Forall_forall. intros Hf [Hk ?] f Hin. eapply fiber_ok_keeps; [by apply Hf|]. split; [|done]. intros c Hc. apply Hk, list_elem_of_omap.
  exists f. split; [done|]. destruct (req_conn f) as [c'|]; cbn in Hc; [|by apply not_elem_of_nil in Hc]. by apply list_elem_of_singleton in Hc as ->.
Qed.

Lemma winv_on_client (m : prog client ()) w :
  winv w →
  (∀ R h lk n s, 0 <= h → sinv R h lk n s → s = cl w → runs m s (λ _ s', sinv R h lk n s' ∧ keeps R s s')) →
  ∃ w', on_client m w = ok w' ∧ winv w' ∧ fibers w' = fibers w.
Proof.
  intros [Hs Hf] Hm. destruct (Hm _ _ _ _ _ (sum_of_nonneg _ _) Hs eq_refl) as ([] & s' & Hrun & Hs' & Hk). exists (mk_world s' (fibers w)).
  unfold on_client. rewrite Hrun. split_and!; [done| |done]. split; [done|]. by eapply fibers_keep.
Qed.

Lemma winv_on_fiber i m w f :
  winv w → fibers w !! i = Some f →
  (∀ R H L N s, 0 <= H → good R H L N (cl w) f s → s = cl w → runs (m f) s (good R H L N (cl w))) →
  ∃ f' s', m f (cl w) = ok (f', s') ∧ on_fiber i m w = ok (mk_world s' (<[i := f']> (fibers w))) ∧ winv (mk_world s' (<[i := f']> (fibers w))).
Proof.
  intros [Hs Hf] Hi Hm. set (l1 := take i (fibers w)). set (l2 := drop (S i) (fibers w)).
  assert (fibers w = l1 ++ f :: l2) as Hfs by (symmetry; by apply take_drop_middle).
  assert (∀ f', <[i := f']> (fibers w) = l1 ++ f' :: l2) as Hins. { intros f'. rewrite insert_take_drop; [done|]. by eapply lookup_lt_Some. }
  rewrite Hfs in Hs. rewrite !sum_of_middle in Hs. eapply sinv_perm in Hs; [|apply refs_middle].
  pose proof Hf as Hf'. rewrite Hfs in Hf'. apply Forall_app in Hf' as [Hf1 [Hf0 Hf2]%Forall_cons].
  destruct (Hm (omap req_conn (l1 ++ l2)) (sum_of holds (l1 ++ l2)) (sum_of lost (l1 ++ l2)) (sum_of (live ∘ pc) (l1 ++ l2)) (cl w)) as (f' & s' & Hrun & [[Hs' Hk] Hok]); [apply sum_of_nonneg|done|done|].
  exists f', s'. split; [done|]. unfold on_fiber. rewrite Hi, Hrun. split; [done|]. rewrite Hins. split; cbn [cl fibers].
  - rewrite !sum_of_middle. eapply sinv_perm; [symmetry; apply refs_middle|]. done.
  - assert (Forall (λ f, fiber_ok f s') (l1 ++ l2)) as [? ?]%Forall_app by (eapply fibers_keep; [by apply Forall_app_2|done]).
    by apply Forall_app_2, Forall_cons_2.
Qed.

Lemma init_winv : winv world0.
Proof.
  split; [|constructor]. split; try done; [constructor|by intros c ?%not_elem_of_nil|by intros c ?%not_elem_of_nil| | ].
  - intros c Hc. cbn in Hc. rewrite lookup_empty in Hc. by destruct Hc.
  - split; [intros k Hk; cbn in Hk; lia|]. intros t k Hk. cbn in Hk. by rewrite lookup_empty in Hk.
Qed.

Lemma cancel_good R H L N s0 f s : good R H L N s0 f s → runs (goc_http_request_timeout f) s (good R H L N s0).
Proof.
  intros [[Hs Hk] Hok]. assert (∀ f' s', quiet s s' → (∃ g, f' = upd_arg g f ∧ slot_acquired (g (arg f)) = slot_acquired (arg f)) → good R H L N s0 f' s') as Hgood.
  { intros f' s' Hq (g & -> & Hg). split; [split|].
    - unfold holds, lost in *. cbn [upd_arg arg pc connect_retry req_conn]. rewrite Hg. by eapply sinv_quiet.
    - transitivity s; [done|by apply quiet_keeps].
    - eapply fiber_ok_keeps in Hok; [|by apply quiet_keeps]. unfold fiber_ok, waiting_ok, has_conn in *. cbn [upd_arg arg pc tcp using_idle req_conn connect_retry] in *. by rewrite Hg. }
  unfold goc_http_request_timeout, http_client_cancel. cbn [upd_arg arg set_cancel cancel_requested a_tcp a_tcp_initialized].
  destruct (a_tcp (arg f)) as [t|]; [|apply runs_ret, Hgood; [done|by exists set_cancel]]. destruct (a_tcp_initialized (arg f)); [|apply runs_ret, Hgood; [done|by exists set_cancel]].
  apply runs_bind, runs_upd, runs_ret, Hgood; [by split|]. by exists (set_a_tcp None false ∘ set_cancel).
Qed.

Lemma runs_sweeper t time shutting R h lk n s :
  0 <= h → sinv R h lk n s → runs (http_client_idle_sweeper t time shutting) s (λ _ s', sinv R h lk n s' ∧ keeps R s s').
Proof.
  intros Hh Hs. assert (∀ s1 b, sinv R h lk n s1 → keeps R s s1 → sinv R h lk n (set_sweeper b s1) ∧ keeps R s (set_sweeper b s1)) as Hset.
  { intros s1 b ??. assert (quiet s1 (set_sweeper b s1)) as Hq by by split. split; [by eapply sinv_quiet|]. transitivity s1; [done|by apply quiet_keeps]. }
  unfold http_client_idle_sweeper. destruct shutting; [by apply runs_upd, Hset|]. apply runs_bind. eapply runs_mono; [by apply runs_sweep_all|]. intros [] s1 [??].
  apply runs_bind, runs_get. destruct (_ =? _); [|by apply runs_ret]. apply runs_bind. eapply runs_mono; [by apply runs_sweep_all|]. intros [] s2 [??].
  apply runs_upd, Hset; [done|by transitivity s1].
Qed.

Lemma env_okb_ok e : env_okb e = true → env_ok e.
Proof. intros [? Hrc]%andb_true_iff. split; [done|]. intros rc Ho. rewrite Ho in Hrc. by apply Z.leb_le. Qed.

(** What can happen runs to its end and keeps the invariant. *)
Lemma step_winv w ev : winv w → can_happen ev w = true → ∃ w', run_event ev w = ok w' ∧ winv w'.
Proof.
  intros Hw Hcan. destruct ev as [host port keep|i e|i|k t time|t time shutting]; cbn [run_event can_happen] in *.
  - eexists. split; [done|]. destruct Hw as [Hs Hf]. cbn [cl fibers]. split; cbn [cl fibers].
    + rewrite omap_app, !sum_of_app. cbn. by rewrite !Z.add_0_r, app_nil_r.
    + apply Forall_app_2; [done|]. by apply Forall_singleton.
  - destruct (fibers w !! i) as [f|] eqn:Hi; [|done]. apply andb_true_iff in Hcan as [He%env_okb_ok _].
    destruct (winv_on_fiber i (http_client_fiber i e) w f Hw Hi) as (f' & s' & _ & ? & ?); [|by eexists]. intros R H L N s HH Hg ->. by apply runs_fiber.
  - apply bool_decide_eq_true in Hcan as [f Hi]. destruct (winv_on_fiber i goc_http_request_timeout w f Hw Hi) as (f' & s' & _ & ? & ?); [|by eexists].
    intros R H L N s HH Hg ->. by apply cancel_good.
  - destruct (posted (cl w) !! k) as [[[p wk] force]|]; [|done]. destruct (winv_on_client (upd (λ s, set_posted (delete k (posted s)) s);; http_client_idle_sweep t time force) w) as (w' & ? & ? & _); [done| |by eexists].
    intros R h lk n s Hh Hs ->. apply runs_bind, runs_upd. set (s1 := set_posted _ (cl w)). assert (quiet (cl w) s1) as Hq by by split.
    eapply runs_mono; [apply runs_idle_sweep; [done|by eapply sinv_quiet]|]. intros [] s2 [??]. split; [done|]. transitivity s1; [by apply quiet_keeps|done].
  - destruct (winv_on_client (http_client_idle_sweeper t time shutting) w) as (w' & ? & ? & _); [done| |by eexists]. intros R h lk n s Hh Hs ->. by apply runs_sweeper.
Qed.

Lemma reachable_winv w : reachable w → winv w.
Proof.
  induction 1 as [|w ev w' _ IH Hcan Hrun]; [apply init_winv|]. destruct (step_winv w ev IH Hcan) as (w2 & Hrun2 & ?). congruence.
Qed.


(** ** How a request gets on *)

(** Whatever a program returns meets [P]. *)
Definition yields {A} (m : prog client A) (P : A → Prop) : Prop := ∀ s a s', m s = ok (a, s') → P a.
Lemma yields_ret {A} (a : A) (P : A → Prop) : P a → yields (mret a) P.
Proof. by intros HP s b s' [= <- _]. Qed.
Lemma yields_bind {A B} (m : prog client A) (g : A → prog client B) P : (∀ a, yields (g a) P) → yields (m ≫= g) P.
Proof. intros Hg s b s' (a & s1 & _ & Ha)%prog_bind_inv. by eapply Hg. Qed.
Lemma yields_then {A B} (m : prog client A) (g : A → prog client B) P Q : yields m Q → (∀ a, Q a → yields (g a) P) → yields (m ≫= g) P.
Proof. intros Hm Hg s b s' (a & s1 & Ha & Hb)%prog_bind_inv. eapply Hg; [by eapply Hm|done]. Qed.
Lemma yields_ABORT {A} msg (P : A → Prop) : yields (ABORT msg) P.
Proof. by intros s a s'. Qed.

(** The order of the places of a request, and the retries it has left. *)
Definition stage (p : client_pc) : Z :=
  match p with
  | PStart => 0 | PRetry => 1 | PTry | PFull | PObserve | PWait _ | PParked _ => 2 | PDns => 3 | PInit => 4 | PConnect => 5
  | PWrite => 6 | PRead => 7 | PDone => 8
  end.
Definition retries_left (f : client_fiber) : Z := Z.b2z (negb (keepalive_retry f)) + Z.b2z (negb (connect_retry f)).
Definition rank (f : client_fiber) : Z := 9 * retries_left f + (8 - stage (pc f)).

Definition delivered_ok (f : client_fiber) : Prop := is_Some (delivered f) ↔ pc f = PDone.
(** [f'] is further than [f], or looks for a slot like it. *)
Definition advances (f f' : client_fiber) : Prop :=
  delivered_ok f' ∧ pc f' ≠ pc f ∧ (rank f' < rank f ∨ stage (pc f) = 2 ∧ stage (pc f') = 2 ∧ rank f' = rank f).

(** At the same retries, a later place. *)
Lemma later f f' : keepalive_retry f' = keepalive_retry f → connect_retry f' = connect_retry f → stage (pc f) < stage (pc f') → delivered_ok f' → advances f f'.
Proof.
  intros Hk Hc Hs Hd. split_and!; [done|intros E; rewrite E in Hs; lia|]. left. unfold rank, retries_left. rewrite Hk, Hc. lia.
Qed.

Section Yields.
Context (f0 : client_fiber) (Hd : delivered f0 = None) (Hlt : stage (pc f0) < 8).

(** [f] has the retries of [f0] and nothing delivered. *)
Definition like (f : client_fiber) : Prop := keepalive_retry f = keepalive_retry f0 ∧ connect_retry f = connect_retry f0 ∧ delivered f = None.

Lemma yields_finish b f : like f → yields (finish b f) (advances f0).
Proof.
  intros (Hk & Hc & _). apply yields_bind; intros s. apply yields_bind; intros []. apply yields_ret, later; try done.
Qed.
Lemma yields_error f : like f → yields (deliver_error f) (advances f0).
Proof. intros Hl. apply yields_bind; intros []. apply yields_bind; intros []. by apply yields_finish. Qed.
Lemma rank_retry f : delivered f = None → pc f0 ≠ PRetry → pc f = PRetry → retries_left f < retries_left f0 → advances f0 f.
Proof.
  intros Hdf Hne Hpc Hlt'. split_and!; [split; [rewrite Hdf; by intros []|by rewrite Hpc]|congruence|].
  left. unfold rank. rewrite Hpc. cbn [stage]. lia.
Qed.
Lemma yields_drop f : like f → keepalive_retry f = false → pc f0 ≠ PRetry → yields (drop_idle f) (advances f0).
Proof.
  intros (Hk & Hc & Hdf) Hf Hne. apply yields_bind; intros []. apply yields_bind; intros []. apply yields_ret, rank_retry; try done.
  unfold retries_left. cbn [goto set_req_conn set_keepalive_retry set_using_idle upd_arg keepalive_retry connect_retry]. rewrite <- Hk, Hf, Hc. simpl. lia.
Qed.
Lemma yields_goto p f : like f → stage (pc f0) < stage p < 8 → yields (mret (goto p f)) (advances f0).
Proof.
  intros (Hk & Hc & Hdf) Hp. apply yields_ret, later; try done; [simpl; lia|]. split; cbn [goto delivered pc]; [rewrite Hdf; by intros []|].
  intros ->. simpl in Hp. lia.
Qed.
Lemma yields_queue p f : like f → stage (pc f0) = 2 → stage p = 2 → p ≠ pc f0 → yields (mret (goto p f)) (advances f0).
Proof.
  intros (Hk & Hc & Hdf) Hs Hp Hne. apply yields_ret. split_and!; [split; cbn [goto delivered pc]; [rewrite Hdf; by intros []|]|done|].
  - intros ->. by simpl in Hp.
  - right. split_and!; [done..|]. unfold rank, retries_left. cbn [goto keepalive_retry connect_retry pc]. by rewrite Hk, Hc, Hp, Hs.
Qed.
Lemma yields_try_again f : like f → stage (pc f0) = 2 → pc f0 ≠ PTry → yields (try_again f) (advances f0).
Proof. intros Hl Hs Hne. apply yields_bind; intros s. by apply yields_queue. Qed.
Lemma yields_acquired f : like f → stage (pc f0) < 3 → yields (acquisition_complete f) (advances f0).
Proof.
  intros Hl Hs. unfold acquisition_complete. destruct (cancel_requested _); [by apply yields_error|]. destruct (tcp f); apply yields_goto; simpl; lia || done.
Qed.
Lemma yields_slot_got e f : like f → stage (pc f0) < 3 → yields (slot_got e f) (advances f0).
Proof.
  intros Hl Hs. apply yields_bind; intros k. cbn [upd_arg req_conn]. destruct (req_conn f); [by apply yields_acquired|].
  apply yields_bind; intros [c|]; [by apply yields_acquired|]. apply yields_bind; intros []. by apply yields_error.
Qed.
Lemma yields_lose f : yields (lose_tcp f) (λ f', f' = no_tcp f).
Proof. apply yields_bind; intros []. by apply yields_ret. Qed.

Lemma yields_retry e f : like f → pc f0 = PRetry → yields (retry_connect e f) (advances f0).
Proof.
  intros Hl Hpc. apply yields_bind; intros []. destruct (cancel_requested _); [by apply yields_error|].
  apply (yields_then _ _ _ like).
  - destruct (keep_alive _); [|by apply yields_ret]. apply yields_bind; intros k. apply yields_bind; intros [c|]; [|by apply yields_ret].
    apply yields_bind; intros x. by apply yields_ret.
  - intros f' Hl'. destruct (tcp f'); [apply yields_acquired; [done|by rewrite Hpc]|]. apply yields_bind; intros s. apply yields_goto; [done|by rewrite Hpc].
Qed.
Lemma yields_connect o f : like f → pc f0 = PConnect → match o with OTimeout | ORc _ => true | _ => false end = true → yields (after_connect o f) (advances f0).
Proof.
  intros Hl Hpc Ho. pose proof Hl as (Hk & Hc & Hdf). destruct o; try done; cbn [after_connect].
  - apply yields_bind; intros []. eapply yields_then; [apply yields_lose|]. intros f' ->. cbn [no_tcp upd_arg set_tcp using_idle keepalive_retry].
    destruct (using_idle f && negb (keepalive_retry f)) eqn:E; [|by apply yields_error]. apply andb_true_iff in E as [_ E%negb_true_iff]. apply yields_drop; [done..|congruence].
  - apply yields_bind; intros late. destruct late.
    + eapply yields_then; [apply yields_lose|]. intros f' ->. apply yields_bind; intros []. by apply yields_error.
    + apply yields_bind; intros []. destruct (rc <? 0); [|apply yields_goto; [done|by rewrite Hpc]]. eapply yields_then; [apply yields_lose|]. intros f' ->.
      cbn [no_tcp upd_arg set_tcp using_idle keepalive_retry connect_retry].
      destruct (using_idle f && negb (keepalive_retry f)) eqn:E; [apply andb_true_iff in E as [_ E%negb_true_iff]; apply yields_drop; [done..|congruence]|].
      destruct (_ && negb (connect_retry f)) eqn:E2; [|by apply yields_error]. apply andb_true_iff in E2 as [_ E2%negb_true_iff].
      apply yields_ret, rank_retry; try done; [congruence|]. unfold retries_left. cbn [set_connect_retry goto no_tcp upd_arg set_tcp keepalive_retry connect_retry]. rewrite <- Hc, E2, Hk. simpl. lia.
Qed.
Lemma yields_write rc f : like f → pc f0 = PWrite → yields (after_write rc f) (advances f0).
Proof.
  intros Hl Hpc. unfold after_write. destruct (cancel_requested _); [by apply yields_error|]. destruct (rc <? 0); [|apply yields_goto; [done|by rewrite Hpc]].
  destruct (using_idle f && negb (keepalive_retry f)) eqn:E; [apply andb_true_iff in E as [_ E%negb_true_iff]; apply yields_drop; [done..|congruence]|].
  apply yields_bind; intros []. by apply yields_error.
Qed.
Lemma yields_read e r f : like f → pc f0 = PRead → yields (after_read e r f) (advances f0).
Proof.
  intros Hl Hpc. unfold after_read. destruct r as [[declared closes]|]; [apply yields_bind; intros []; by apply yields_finish|].
  destruct (using_idle f && negb (keepalive_retry f)) eqn:E; [apply andb_true_iff in E as [_ E%negb_true_iff]; apply yields_bind; intros []; apply yields_drop; [done..|congruence]|].
  destruct (using_idle f); [do 3 (apply yields_bind; intros [])|apply yields_bind; intros []]; by apply yields_error.
Qed.
End Yields.

(** What a fiber at a place waits for. *)
Definition awaited (p : client_pc) (o : outcome) : bool :=
  match p, o with
  | PParked _, (OWoken _ | OTimeout) | PDns, OName _ | PInit, ORc _ | PConnect, (ORc _ | OTimeout) | PWrite, ORc _ | PRead, ORead _ => true
  | (PStart | PRetry | PTry | PFull | PObserve | PWait _), _ => true
  | _, _ => false
  end.

Lemma yields_fiber i e f : delivered f = None → awaited (pc f) (out e) = true → yields (http_client_fiber i e f) (advances f).
Proof.
  intros Hd Haw. assert (pc f ≠ PDone) as Hne by (intros E; rewrite E in Haw; by destruct (out e)).
  assert (stage (pc f) < 8) as Hlt by by destruct (pc f). assert (like f f) as Hl by done.
  unfold http_client_fiber. destruct (pc f) eqn:Hpc; try done.
  - apply yields_bind; intros s. apply yields_bind; intros []. apply yields_goto; [done|by rewrite Hpc].
  - apply yields_retry; by rewrite ?Hpc.
  - apply yields_bind; intros []; [apply yields_slot_got|apply yields_queue]; by rewrite ?Hpc.
  - apply yields_bind; intros s. assert (yields (mret (goto PObserve f)) (advances f)) as Ho by (apply yields_queue; by rewrite ?Hpc).
    destruct (_ <? _); [|done]. apply yields_bind; intros []. apply yields_bind; intros []; [|done]. apply yields_slot_got; by rewrite ?Hpc.
  - apply yields_bind; intros k. apply yields_bind; intros s. destruct (_ =? _); [apply yields_queue|apply yields_try_again]; by rewrite ?Hpc.
  - unfold slot_wait. destruct (shutting_down e); [apply yields_error; by rewrite ?Hpc|]. apply yields_bind; intros []. apply yields_bind; intros w.
    destruct (wait_ch w) as [c|]; [destruct (buffered c)|].
    + do 2 (apply yields_bind; intros []). apply yields_try_again; by rewrite ?Hpc.
    + apply yields_bind; intros []. apply yields_queue; by rewrite ?Hpc.
    + apply yields_bind; intros []. apply yields_try_again; by rewrite ?Hpc.
  - unfold slot_woken. destruct (out e); try done.
    + apply yields_bind; intros []. destruct (_ && _); [apply yields_error|apply yields_try_again]; by rewrite ?Hpc.
    + apply yields_bind; intros []. apply yields_bind; intros []. apply yields_error; by rewrite ?Hpc.
  - destruct (out e); try done. unfold after_dns. destruct found; [|apply yields_error; by rewrite ?Hpc].
    apply yields_bind; intros s. apply yields_bind; intros []. apply (yields_goto f PInit); [done|by rewrite ?Hpc].
  - destruct (out e); try done. unfold after_init. destruct (rc <? 0); [apply yields_error; by rewrite ?Hpc|]. apply yields_bind; intros [].
    cbn [upd_arg arg set_tcp set_a_tcp cancel_requested]. destruct (cancel_requested _); [apply yields_error|apply yields_goto]; by rewrite ?Hpc.
  - by apply yields_connect; rewrite ?Hpc.
  - destruct (out e); try done. apply yields_write; by rewrite ?Hpc.
  - destruct (out e); try done. apply yields_read; by rewrite ?Hpc.
Qed.

Lemma fiber_ignores i e f s : awaited (pc f) (out e) = false → http_client_fiber i e f s = ok (f, s).
Proof. intros Haw. unfold http_client_fiber, slot_woken, after_connect. by destruct (pc f), (out e). Qed.

Lemma on_fiber_inv i m w w' f : on_fiber i m w = ok w' → fibers w !! i = Some f →
  ∃ f' s', m f (cl w) = ok (f', s') ∧ w' = mk_world s' (<[i := f']> (fibers w)).
Proof. intros Hrun Hi. unfold on_fiber in Hrun. rewrite Hi in Hrun. apply res_bind_inv in Hrun as ([f' s'] & Hm & [= <-]). eauto. Qed.

Lemma reachable_delivered w : reachable w → Forall delivered_ok (fibers w).
Proof.
  induction 1 as [|w ev w' _ IH _ Hrun]; [constructor|].
  assert (∀ i m, on_fiber i m w = ok w' → (∀ f, delivered_ok f → yields (m f) delivered_ok) → Forall delivered_ok (fibers w')) as Hon.
  { intros i m Hm Hy. destruct (fibers w !! i) as [f|] eqn:Hi; [|unfold on_fiber in Hm; rewrite Hi in Hm; by simplify_eq].
    destruct (on_fiber_inv _ _ _ _ _ Hm Hi) as (f' & s' & Hf & ->). apply Forall_insert; [done|]. eapply Hy; [|done]. by eapply Forall_lookup_1. }
  assert (∀ m, on_client m w = ok w' → Forall delivered_ok (fibers w')) as Hcl.
  { intros m Hm. unfold on_client in Hm. by apply res_bind_inv in Hm as ([[] s] & _ & [= <-]). }
  destruct ev as [host port keep|i e|i|k t time|t time shutting]; cbn [run_event] in Hrun.
  - simplify_eq. apply Forall_app_2; [done|]. apply Forall_singleton. split; [by intros []|done].
  - eapply Hon; [done|]. intros f Hf s f' s' Hstep. destruct (awaited (pc f) (out e)) eqn:Haw; [|rewrite fiber_ignores in Hstep by done; by simplify_eq].
    destruct (delivered f) as [d|] eqn:Hd; [|by destruct (yields_fiber i e f Hd Haw s f' s' Hstep)].
    assert (pc f = PDone) as E by (apply Hf; rewrite Hd; by eexists). rewrite E in Haw. by destruct (out e).
  - eapply Hon; [done|]. intros f Hf. unfold goc_http_request_timeout, http_client_cancel. cbn [upd_arg arg set_cancel cancel_requested a_tcp a_tcp_initialized].
    destruct (a_tcp (arg f)); [destruct (a_tcp_initialized (arg f)); [apply yields_bind; intros []|]|]; by apply yields_ret.
  - destruct (posted (cl w) !! k) as [[[p wk] force]|]; [by eapply Hcl|by simplify_eq].
  - by eapply Hcl.
Qed.

(** What the fiber at a place can wait for in the end. *)
Definition some_outcome (i : nat) (f : client_fiber) (s : client) : outcome :=
  match pc f with
  | PParked k => if decide (i ∈ takers_of s k) then OTimeout else OWoken true
  | PDns => OName true | PInit | PConnect | PWrite => ORc 0 | PRead => ORead None | _ => ONone
  end.

(** ** Properties *)


(** C22: Every request ends.  A request has delivered a result exactly if it is done; one
    that is not done can always go on; and each of its steps that is given what it waits
    for takes it further, where being further is measured by a number below 27: the places
    up to the next retry, of which there are at most two.  Only a request that looks for a
    slot may try again without getting further. *)
Theorem requests_end w i f :
  reachable w → fibers w !! i = Some f →
  (is_Some (delivered f) ↔ pc f = PDone) ∧ 0 <= rank f < 27 ∧
  (pc f ≠ PDone → ∃ e, can_happen (ERun i e) w = true ∧ awaited (pc f) (out e) = true) ∧
  (∀ e, can_happen (ERun i e) w = true → awaited (pc f) (out e) = true →
    ∃ w' f', run_event (ERun i e) w = ok w' ∧ fibers w' !! i = Some f' ∧ pc f' ≠ pc f ∧
      (rank f' < rank f ∨ stage (pc f) = 2 ∧ stage (pc f') = 2 ∧ rank f' = rank f)).
Proof.
  intros Hr Hi. pose proof (Forall_lookup_1 _ _ _ _ (reachable_delivered w Hr) Hi) as Hd. split_and!; [done|..].
  - unfold rank, retries_left. destruct (pc f), (keepalive_retry f), (connect_retry f); simpl; lia.
  - unfold rank, retries_left. destruct (pc f), (keepalive_retry f), (connect_retry f); simpl; lia.
  - intros Hne. exists (mk_env (mk_thread 0 0 0) 0 true false (some_outcome i f (cl w))). cbn [can_happen]. rewrite Hi. unfold env_okb, wakes_okb, some_outcome. cbn [mem out].
    destruct (pc f); try done; split; try done; case_decide; try done; by apply bool_decide_eq_true.
  - intros e Hcan Haw. destruct (step_winv w _ (reachable_winv w Hr) Hcan) as (w' & Hrun & _). pose proof Hrun as Hrun'. cbn [run_event] in Hrun'.
    destruct (on_fiber_inv _ _ _ _ _ Hrun' Hi) as (f' & s' & Hf & ->).
    assert (delivered f = None) as Hnone. { apply eq_None_not_Some. intros E%Hd. rewrite E in Haw. by destruct (out e). }
    destruct (yields_fiber i e f Hnone Haw _ _ _ Hf) as (_ & ? & ?). eexists _, f'. split_and!; [done| |done..].
    cbn [fibers]. apply list_lookup_insert_eq. by eapply lookup_lt_Some.
Qed.

(** ** Runs *)

Fixpoint run_all (evs : list event) (w : world) : option world :=
  match evs with
  | [] => Some w
  | ev :: evs => if can_happen ev w then match run_event ev w with ok w' => run_all evs w' | _ => None end else None
  end.
Lemma run_all_reachable evs w w' : reachable w → run_all evs w = Some w' → reachable w'.
Proof.
  revert w. induction evs as [|ev evs IH]; intros w Hr; simpl; [by intros [= <-]|]. destruct (can_happen ev w) eqn:Hc; [|done].
  destruct (run_event ev w) as [w2| | |] eqn:Hrun; try done. apply IH. by eapply reach_step.
Qed.

Definition th : thread := mk_thread 1 7 0.
Definition ev (i : nat) (o : outcome) : event := ERun i (mk_env th 0 true false o).
Definition run_ev (evs : list event) : world := default world0 (run_all evs world0).

Definition runs_through (evs : list event) : bool := match run_all evs world0 with Some _ => true | None => false end.
Lemma run_ev_reachable evs : runs_through evs = true → reachable (run_ev evs).
Proof.
  unfold runs_through, run_ev. destruct (run_all evs world0) as [w|] eqn:E; [|done]. intros _. by apply (run_all_reachable evs world0); [constructor|].
Qed.

(** A request on a new connection, up to its response, which lets the connection live. *)
Definition fresh_request (i : nat) : list event :=
  ERequest (lit "h") 80 true :: (ev i <$> [ONone; ONone; ONone; OName true; ORc 0; ORc 0; ORc 0; ORead (Some (true, false))]).
(** A request whose first connect finds no local address. *)
Definition retried_request (i : nat) : list event :=
  ERequest (lit "h") 80 false :: (ev i <$> [ONone; ONone; ONone; OName true; ORc 0; ORc UV_EADDRNOTAVAIL;
    ONone; ONone; OName true; ORc 0; ORc 0; ORc 0; ORead (Some (true, true))]).


Lemma requests_end_witness :
  let w := run_ev (take 7 (fresh_request 0)) in ∃ f, fibers w !! 0%nat = Some f ∧ pc f = PWrite ∧ delivered f = None.
Proof.
  intros w. assert (pc <$> fibers w !! 0%nat = Some PWrite) as Hp by (vm_compute; reflexivity).
  destruct (fibers w !! 0%nat) as [f|] eqn:Hf; [|discriminate Hp]. injection Hp as Hpc. exists f. split; [reflexivity|]. split; [exact Hpc|]. destruct (requests_end w 0 f) as (Hd & _); [|exact Hf|].
  - apply run_ev_reachable. vm_compute. reflexivity.
  - destruct (delivered f) as [d|]; [|reflexivity]. rewrite Hpc in Hd. destruct Hd as [Hd _]. discriminate (Hd (ex_intro _ d eq_refl)).
Defined.

(** Each connect that is tried again after a failed bind takes a second slot and gives back
    one.  After 63 such requests, all answered and their connections closed, one slot is
    left of 64. *)
Theorem retried_connects_lose_slots :
  ∃ w, reachable w ∧ total (cl w) = 63 ∧ idle (cl w) = 0 ∧ inflight (cl w) = 0 ∧ Forall (λ f, delivered f = Some true) (fibers w).
Proof.
  exists (run_ev (concat (retried_request <$> seq 0 63))). split; [apply run_ev_reachable; vm_compute; reflexivity|].
  split_and!; [by vm_compute..|]. apply (bool_decide_eq_true_1 _). by vm_compute.
Qed.

(** A waiter that has looked at the wake-up version and not yet registered misses the signal
    of a slot that is released in between: it sleeps while a slot is free. *)
Theorem slot_wakeup_lost :
  ∃ w, reachable w ∧ total (cl w) = 63 ∧ pc <$> fibers w !! 64%nat = Some (PParked 0) ∧ takers_of (cl w) 0 = [64%nat] ∧
    Forall (λ i, pc <$> fibers w !! i = Some PDns) (seq 1 63).
Proof.
  exists (run_ev (concat ((λ i, take 4 (fresh_request i)) <$> seq 0 64) ++
    ERequest (lit "h") 80 true :: (ev 64 <$> [ONone; ONone; ONone; ONone; ONone]) ++ [ev 0 (OName false); ev 64 ONone])).
  split; [apply run_ev_reachable; vm_compute; reflexivity|]. split_and!; [vm_compute; reflexivity..|]. apply (bool_decide_eq_true_1 _). vm_compute. reflexivity.
Qed.

(** The destruction of a pool frees the state of its workers before its fibers have ended:
    idle connections vanish while they stay counted, and a request that then gives its
    connection back uses the freed state. *)
Theorem destroyed_pool_dangles :
  let hook := http_client_close_wait_chs_hook (mk_thread 99 0 0) 7 in
  let w := run_ev (take 8 (fresh_request 0)) in
  match hook (cl (run_ev (fresh_request 0))) with ok (_, s) => total s = 1 ∧ idle s = 1 ∧ stacked s = [] | _ => False end ∧
  match hook (cl w) with ok (_, s) => run_event (ev 0 (ORead (Some (true, false)))) (mk_world s (fibers w)) = ub | _ => False end.
Proof. split; [vm_compute; by split_and!|by vm_compute]. Qed.

(** When a connection cannot be allocated its slot is released twice, and the connection of
    another request then fails the check of the counters. *)
Theorem failed_allocation_releases_twice :
  let w := run_ev (take 8 (fresh_request 0) ++ take 3 (fresh_request 1)) in
  total (cl w) = 1 ∧
  match run_event (ERun 1 (mk_env th 0 false false ONone)) w with
  | ok w' => total (cl w') = 0 ∧ run_event (ev 0 (ORead (Some (true, false)))) w' = abort "http_client invariant violated"
  | _ => False
  end.
Proof. split; [by vm_compute|]. vm_compute. by split. Qed.

End HttpPoolProps.
