(* ===== verification/Io.v ===== *)
(** File operations and name resolution (goc_io.c 181-620 and 4378-5360), and the registry
    of live requests of gc.c.

    An operation submits a request to libuv and gets its result in a callback on a loop
    thread, which delivers a value on the operation's channel or submits the next request.
    A step writes down what it does, in order, as a list of actions; a response is what
    libuv has left in the request: its result, and what the call puts into buffers.  What
    the calls do to files is libuv's and the operating system's and is left open. *)

From Stdlib Require Import Ascii String.
From S2P Require Import Prelude Http.
Import Http.

Module Io.

(** ** Requests, responses, values *)

(** The loop a request is submitted to: [goc_worker_or_default_loop()] or [g_loop]. *)
Inductive uv_loop := WorkerLoop | GLoop.

Inductive uv_call :=
| UvOpen (path : cstr) (flags mode : Z)
| UvClose (fd : Z)
| UvRead (fd len offset : Z)
| UvWrite (fd : Z) (data : cstr) (offset : Z)
| UvFtruncate (fd offset : Z)
| UvFsync (fd : Z) | UvFdatasync (fd : Z)
| UvUnlink (path : cstr) | UvRename (path new_path : cstr) | UvSendfile (out_fd in_fd in_offset length : Z)
| UvStat (path : cstr) | UvLstat (path : cstr) | UvFstat (fd : Z) | UvStatfs (path : cstr)
| UvAccess (path : cstr) (mode : Z) | UvChmod (path : cstr) (mode : Z) | UvFchmod (fd mode : Z)
| UvChown (path : cstr) (uid gid : Z) | UvFchown (fd uid gid : Z)
| UvUtime (path : cstr) (atime mtime : Z) | UvFutime (fd atime mtime : Z) | UvLutime (path : cstr) (atime mtime : Z)
| UvMkdir (path : cstr) (mode : Z) | UvRmdir (path : cstr) | UvCopyfile (src dst : cstr) (flags : Z)
| UvLink (path new_path : cstr) | UvSymlink (path new_path : cstr) (flags : Z)
| UvScandir (path : cstr) (flags : Z) | UvMkdtemp (tpl : cstr) | UvMkstemp (tpl : cstr) | UvReadlink (path : cstr) | UvRealpath (path : cstr)
| UvRandom (n flags : Z) | UvGetaddrinfo (node service : option cstr) | UvGetnameinfo (addr : Z) (flags : Z).

(** [into] is what the call wrote into the buffer it was given; [statbuf] and [addrs] stand
    for blocks that are passed on without being looked at. *)
Record response := mk_resp {
  result : Z; into : cstr; statbuf : Z; ptr : option cstr; req_path : option cstr; dirents : list (cstr * Z);
  addrs : option Z; hostname : option cstr; service : option cstr }.
Definition resp (z : Z) : response := mk_resp z [] 0 None None [] None None None.
Definition resp_data (d : cstr) : response := mk_resp (Z.of_nat (length d)) d 0 None None [] None None None.

(** What is put on a channel; [ok] is [GOC_IO_OK]. *)
Inductive io_value :=
| VScalar (v : Z)
| VRead (nread : Z) (buf : option cstr)
| VStat (ok : bool) (st : Z)
| VPath (ok : bool) (path : option cstr)
| VMkstemp (ok : bool) (fd : Z) (path : option cstr)
| VReaddir (ok : bool) (entries : list (cstr * Z))
| VStatfs (ok : bool) (st : Z)
| VReadFile (ok : bool) (data : option cstr)
| VChunk (status : Z) (data : option cstr)
| VWsOpen (ok : bool) (ws : option Z)
| VAddrinfo (ok : bool) (res : option Z)
| VNameinfo (ok : bool) (host srv : cstr)
| VRandom (ok : bool) (data : option (list Z)).

(** [goc_box(int, v)]: the conversion to [int] keeps the low 32 bits. *)
Definition to_int (z : Z) : Z := let r := z mod 2 ^ 32 in if r <? 2 ^ 31 then r else r - 2 ^ 32.
Definition SCALAR (z : Z) : io_value := VScalar (to_int z).
(** [(unsigned int)len] in a [uv_buf_t]. *)
Definition buf_len (len : Z) : Z := len mod 2 ^ 32.

(** ** Actions *)

Inductive action :=
| Submit (l : uv_loop) (c : uv_call)
| Register | Unregister           (** [gc_handle_register], [gc_handle_unregister] of the context *)
| Free                            (** [free] of a context that is not collected *)
| PutClose (v : io_value)         (** [goc_put_cb(ch, v, goc_close_cb, ch)] *)
| PutCb (v : io_value)            (** [goc_put_cb(ch, v, NULL, NULL)] *)
| CloseChan                       (** [close_chan_if_not_closing(ch)], which is [goc_close] *)
| CloseNow (fd : Z).              (** [uv_fs_close(NULL, ...)], which waits *)

Definition io (A : Type) : Type := prog (list action) A.
Definition emit (a : action) : io () := λ l, ok (tt, l ++ [a]).

(** The first request of an operation; [rc] is what libuv answers at once, [failed] the
    value delivered if it refuses. *)
Definition start {C} (rc : Z) (l : uv_loop) (c : uv_call) (failed : io_value) (ctx : C) : io (option C) :=
  emit (Submit l c);;
  if rc <? 0 then emit (PutClose failed);; mret None else emit Register;; mret (Some ctx).
(** The end of an operation with one request. *)
Definition deliver (v : io_value) : io () := emit Unregister;; emit (PutClose v).

(** ** Operations with one request *)

(** What their contexts hold besides the channel: how the callback turns the response into
    a value. *)
Definition on_fs_open (r : response) : io_value := SCALAR (to_int (result r)).
Definition on_fs_close (r : response) : io_value := SCALAR (to_int (result r)).
Definition on_fs_scalar (r : response) : io_value := SCALAR (to_int (result r)).
Definition on_fs_read (r : response) : io_value := VRead (result r) (if 0 <? result r then Some (into r) else None).
Definition on_fs_write (r : response) : io_value := SCALAR (result r).
Definition on_fs_unlink (r : response) : io_value := SCALAR (to_int (result r)).
Definition on_fs_rename (r : response) : io_value := SCALAR (to_int (result r)).
Definition on_fs_sendfile (r : response) : io_value := SCALAR (result r).
Definition on_fs_stat (r : response) : io_value := if result r =? 0 then VStat true (statbuf r) else VStat false 0.
Definition on_fs_lstat (r : response) : io_value := if result r =? 0 then VStat true (statbuf r) else VStat false 0.
Definition on_fs_fstat (r : response) : io_value := if result r =? 0 then VStat true (statbuf r) else VStat false 0.
Definition on_fs_readdir (r : response) : io_value := if result r <? 0 then VReaddir false [] else VReaddir true (dirents r).
Definition on_fs_mkdtemp (r : response) : io_value :=
  match req_path r with Some p => if result r =? 0 then VPath true (Some p) else VPath false None | None => VPath false None end.
Definition on_fs_mkstemp (r : response) : io_value :=
  if 0 <=? result r then VMkstemp true (to_int (result r)) (req_path r) else VMkstemp false (-1) None.
Definition on_fs_path (r : response) : io_value :=
  match ptr r with Some p => if result r =? 0 then VPath true (Some p) else VPath false None | None => VPath false None end.
Definition on_fs_statfs (r : response) : io_value :=
  match ptr r with Some _ => if result r =? 0 then VStatfs true (statbuf r) else VStatfs false 0 | None => VStatfs false 0 end.
Definition on_ws_open (r : response) : io_value := if result r <? 0 then VWsOpen false None else VWsOpen true (Some (to_int (result r))).
Definition on_ws_write (r : response) : io_value := SCALAR (result r).
Definition on_random (r : response) : io_value :=
  if result r =? 0 then VRandom true (Some (code <$> into r)) else VRandom false None.

Definition one_shot (rc : Z) (l : uv_loop) (c : uv_call) (failed : io_value) (cb : response → io_value) : io (option (response → io_value)) :=
  start rc l c failed cb.

Definition goc_io_fs_open (path : cstr) (flags mode rc : Z) := one_shot rc WorkerLoop (UvOpen path flags mode) (SCALAR rc) on_fs_open.
Definition goc_io_fs_close (fd rc : Z) := one_shot rc WorkerLoop (UvClose fd) (SCALAR rc) on_fs_close.
Definition goc_io_fs_read (fd len offset rc : Z) := one_shot rc WorkerLoop (UvRead fd (buf_len len) offset) (VRead rc None) on_fs_read.
Definition goc_io_fs_write (fd : Z) (data : cstr) (offset rc : Z) :=
  one_shot rc WorkerLoop (UvWrite fd (take (Z.to_nat (buf_len (Z.of_nat (length data)))) data) offset) (SCALAR rc) on_fs_write.
Definition goc_io_fs_unlink (path : cstr) (rc : Z) := one_shot rc WorkerLoop (UvUnlink path) (SCALAR rc) on_fs_unlink.
Definition goc_io_fs_rename (path new_path : cstr) (rc : Z) := one_shot rc WorkerLoop (UvRename path new_path) (SCALAR rc) on_fs_rename.
Definition goc_io_fs_sendfile (out_fd in_fd in_offset len rc : Z) := one_shot rc WorkerLoop (UvSendfile out_fd in_fd in_offset len) (SCALAR rc) on_fs_sendfile.
Definition goc_io_fs_stat (path : cstr) (rc : Z) := one_shot rc WorkerLoop (UvStat path) (VStat false 0) on_fs_stat.
Definition goc_io_fs_lstat (path : cstr) (rc : Z) := one_shot rc WorkerLoop (UvLstat path) (VStat false 0) on_fs_lstat.
Definition goc_io_fs_fstat (fd rc : Z) := one_shot rc WorkerLoop (UvFstat fd) (VStat false 0) on_fs_fstat.
(** [DEF_FS_SCALAR] *)
Definition fs_scalar (c : uv_call) (rc : Z) := one_shot rc WorkerLoop c (SCALAR rc) on_fs_scalar.
Definition goc_io_fs_ftruncate (fd offset : Z) := fs_scalar (UvFtruncate fd offset).
Definition goc_io_fs_access (path : cstr) (mode : Z) := fs_scalar (UvAccess path mode).
Definition goc_io_fs_chmod (path : cstr) (mode : Z) := fs_scalar (UvChmod path mode).
Definition goc_io_fs_fchmod (fd mode : Z) := fs_scalar (UvFchmod fd mode).
Definition goc_io_fs_chown (path : cstr) (uid gid : Z) := fs_scalar (UvChown path uid gid).
Definition goc_io_fs_fchown (fd uid gid : Z) := fs_scalar (UvFchown fd uid gid).
Definition goc_io_fs_utime (path : cstr) (atime mtime : Z) := fs_scalar (UvUtime path atime mtime).
Definition goc_io_fs_futime (fd atime mtime : Z) := fs_scalar (UvFutime fd atime mtime).
Definition goc_io_fs_lutime (path : cstr) (atime mtime : Z) := fs_scalar (UvLutime path atime mtime).
Definition goc_io_fs_mkdir (path : cstr) (mode : Z) := fs_scalar (UvMkdir path mode).
Definition goc_io_fs_rmdir (path : cstr) := fs_scalar (UvRmdir path).
Definition goc_io_fs_copyfile (src dst : cstr) (flags : Z) := fs_scalar (UvCopyfile src dst flags).
Definition goc_io_fs_link (path new_path : cstr) := fs_scalar (UvLink path new_path).
Definition goc_io_fs_symlink (path new_path : cstr) (flags : Z) := fs_scalar (UvSymlink path new_path flags).
Definition goc_io_fs_fsync (fd : Z) := fs_scalar (UvFsync fd).
Definition goc_io_fs_fdatasync (fd : Z) := fs_scalar (UvFdatasync fd).
Definition goc_io_fs_readdir (path : cstr) (rc : Z) := one_shot rc GLoop (UvScandir path 0) (VReaddir false []) on_fs_readdir.
Definition goc_io_fs_mkdtemp (tpl : cstr) (rc : Z) := one_shot rc GLoop (UvMkdtemp tpl) (VPath false None) on_fs_mkdtemp.
Definition goc_io_fs_mkstemp (tpl : cstr) (rc : Z) := one_shot rc GLoop (UvMkstemp tpl) (VMkstemp false (-1) None) on_fs_mkstemp.
Definition goc_io_fs_readlink (path : cstr) (rc : Z) := one_shot rc GLoop (UvReadlink path) (VPath false None) on_fs_path.
Definition goc_io_fs_realpath (path : cstr) (rc : Z) := one_shot rc GLoop (UvRealpath path) (VPath false None) on_fs_path.
Definition goc_io_fs_statfs (path : cstr) (rc : Z) := one_shot rc GLoop (UvStatfs path) (VStatfs false 0) on_fs_statfs.
Definition goc_io_fs_write_stream_make (path : cstr) (flags rc : Z) := one_shot rc GLoop (UvOpen path flags 420) (VWsOpen false None) on_ws_open.
Definition goc_io_fs_write_stream_write (fd : Z) (data : cstr) (rc : Z) :=
  one_shot rc GLoop (UvWrite fd (take (Z.to_nat (buf_len (Z.of_nat (length data)))) data) (-1)) (SCALAR rc) on_ws_write.
Definition goc_io_random (n flags rc : Z) := one_shot rc WorkerLoop (UvRandom n flags) (VRandom false None) on_random.

(** ** Name resolution

    These contexts come from [malloc] and are freed, not registered. *)

Definition on_getaddrinfo (status : Z) (r : response) : io () :=
  emit (PutClose (VAddrinfo (status =? 0) (addrs r)));; emit Free.
Definition goc_io_getaddrinfo (node srv : option cstr) (shutting_down mem : bool) (rc : Z) : io bool :=
  if shutting_down then emit (PutClose (VAddrinfo false None));; mret false
  else if negb mem then emit (PutClose (VAddrinfo false None));; mret false
  else
    emit (Submit WorkerLoop (UvGetaddrinfo node srv));;
    if rc <? 0 then emit Free;; emit (PutClose (VAddrinfo false None));; mret false else mret true.

(** [strncpy] into a block of [n] bytes that ends with a terminator. *)
Definition strncpy (n : nat) (s : option cstr) : cstr := match s with Some s => take (n - 1) s | None => [] end.
Definition on_getnameinfo (status : Z) (r : response) : io () :=
  emit (PutClose (VNameinfo (status =? 0) (strncpy 1025 (hostname r)) (strncpy 32 (service r))));; emit Free.
Definition goc_io_getnameinfo (addr flags : Z) (mem : bool) (rc : Z) : io bool :=
  if negb mem then emit (PutClose (VNameinfo false [] []));; mret false
  else
    emit (Submit WorkerLoop (UvGetnameinfo addr flags));;
    if rc <? 0 then emit Free;; emit (PutClose (VNameinfo false [] []));; mret false else mret true.

(** ** Truncation by path *)

Inductive goc_trunc_state_t := TRUNC_OPEN | TRUNC_FTRUNCATE | TRUNC_CLOSE.
Record goc_fs_truncate_ctx_t := mk_trunc { t_offset : Z; t_state : goc_trunc_state_t; t_fd : Z }.
Definition on_fs_truncate_step (c : goc_fs_truncate_ctx_t) (r : response) : io (option goc_fs_truncate_ctx_t) :=
  let result := to_int (result r) in
  match t_state c with
  | TRUNC_OPEN =>
      if result <? 0 then deliver (SCALAR result);; mret None
      else
        emit (Submit GLoop (UvFtruncate result (t_offset c)));;
        mret (Some (mk_trunc (t_offset c) TRUNC_FTRUNCATE result))
  | TRUNC_FTRUNCATE =>
      emit (Submit GLoop (UvClose (t_fd c)));;
      mret (Some (mk_trunc result TRUNC_CLOSE (t_fd c)))
  | TRUNC_CLOSE => deliver (SCALAR (to_int (t_offset c)));; mret None
  end.
Definition UV_FS_O_RDONLY : Z := 0.
Definition UV_FS_O_WRONLY : Z := 1.
Definition goc_io_fs_truncate (path : cstr) (offset rc : Z) : io (option goc_fs_truncate_ctx_t) :=
  start rc GLoop (UvOpen path UV_FS_O_WRONLY 0) (SCALAR rc) (mk_trunc offset TRUNC_OPEN (-1)).

(** ** Whole files *)

Definition READ_FILE_CHUNK : Z := 65536.
Inductive goc_read_file_state_t := RF_OPEN | RF_READ | RF_CLOSE.
Record goc_read_file_ctx_t := mk_rf { rf_state : goc_read_file_state_t; rf_fd : Z; data : cstr; rf_raw : cstr; rf_error : Z }.

(** The buffer after a call wrote into it; copying [n] bytes out of it. *)
Definition fill (raw written : cstr) : cstr := written ++ drop (length written) raw.
Definition copy_out {S} (n : Z) (raw : cstr) : prog S cstr :=
  if (0 <=? n) && (n <=? Z.of_nat (length raw)) then mret (take (Z.to_nat n) raw) else UB.

Definition on_read_file_step (c : goc_read_file_ctx_t) (r : response) : io (option goc_read_file_ctx_t) :=
  let raw := fill (rf_raw c) (into r) in
  match rf_state c with
  | RF_OPEN =>
      if result r <? 0 then deliver (VReadFile false None);; mret None
      else
        let fd := to_int (result r) in
        emit (Submit GLoop (UvRead fd READ_FILE_CHUNK (-1)));;
        mret (Some (mk_rf RF_READ fd (data c) raw (rf_error c)))
  | RF_READ =>
      if result r <? 0 then
        emit (Submit GLoop (UvClose (rf_fd c)));;
        mret (Some (mk_rf RF_CLOSE (rf_fd c) (data c) raw (to_int (result r))))
      else if result r =? 0 then
        emit (Submit GLoop (UvClose (rf_fd c)));;
        mret (Some (mk_rf RF_CLOSE (rf_fd c) (data c) raw (rf_error c)))
      else
        new ← copy_out (result r) raw;
        emit (Submit GLoop (UvRead (rf_fd c) READ_FILE_CHUNK (-1)));;
        mret (Some (mk_rf RF_READ (rf_fd c) (data c ++ new) raw (rf_error c)))
  | RF_CLOSE =>
      deliver (if rf_error c =? 0 then VReadFile true (Some (data c)) else VReadFile false None);;
      mret None
  end.
(** A fresh block of the collector is zero. *)
Definition zeros (n : Z) : cstr := replicate (Z.to_nat n) NUL.
Definition goc_io_fs_read_file (path : cstr) (rc : Z) : io (option goc_read_file_ctx_t) :=
  start rc GLoop (UvOpen path UV_FS_O_RDONLY 0) (VReadFile false None) (mk_rf RF_OPEN (-1) [] (zeros READ_FILE_CHUNK) 0).

Inductive goc_write_file_state_t := WF_OPEN | WF_WRITE | WF_CLOSE.
Record goc_write_file_ctx_t := mk_wf { wf_state : goc_write_file_state_t; wf_fd : Z; wf_raw : cstr; wf_error : Z }.
Definition on_write_file_step (c : goc_write_file_ctx_t) (r : response) : io (option goc_write_file_ctx_t) :=
  match wf_state c with
  | WF_OPEN =>
      if result r <? 0 then deliver (SCALAR (to_int (result r)));; mret None
      else
        let fd := to_int (result r) in
        emit (Submit GLoop (UvWrite fd (take (Z.to_nat (buf_len (Z.of_nat (length (wf_raw c))))) (wf_raw c)) (-1)));;
        mret (Some (mk_wf WF_WRITE fd (wf_raw c) (wf_error c)))
  | WF_WRITE =>
      emit (Submit GLoop (UvClose (wf_fd c)));;
      mret (Some (mk_wf WF_CLOSE (wf_fd c) (wf_raw c) (if result r <? 0 then to_int (result r) else 0)))
  | WF_CLOSE => deliver (SCALAR (wf_error c));; mret None
  end.
(** [data] is a string: what is up to its terminator is written. *)
Definition write_file_impl (path data : cstr) (open_flags rc : Z) : io (option goc_write_file_ctx_t) :=
  start rc GLoop (UvOpen path open_flags 420) (SCALAR rc) (mk_wf WF_OPEN (-1) (to_nul data) 0).
Definition goc_io_fs_write_file (path data : cstr) (flags rc : Z) := write_file_impl path data flags rc.
(** [O_WRONLY | O_CREAT | O_APPEND] *)
Definition goc_io_fs_append_file (path data : cstr) (rc : Z) := write_file_impl path data (Z.lor UV_FS_O_WRONLY (Z.lor 64 1024)) rc.

(** ** Streams *)

Inductive goc_read_stream_state_t := RS_OPEN | RS_READ | RS_DONE.
Record goc_read_stream_ctx_t := mk_rs { rs_state : goc_read_stream_state_t; rs_fd : Z; rs_raw : cstr; chunk_size : Z }.
Definition on_read_stream_step (c : goc_read_stream_ctx_t) (r : response) : io (option goc_read_stream_ctx_t) :=
  let raw := fill (rs_raw c) (into r) in
  match rs_state c with
  | RS_OPEN =>
      if result r <? 0 then deliver (VChunk (to_int (result r)) None);; mret None
      else
        let fd := to_int (result r) in
        emit (Submit GLoop (UvRead fd (buf_len (chunk_size c)) (-1)));;
        mret (Some (mk_rs RS_READ fd raw (chunk_size c)))
  | RS_READ =>
      if result r <? 0 then
        emit (CloseNow (rs_fd c));; deliver (VChunk (to_int (result r)) None);; mret None
      else if result r =? 0 then
        emit (CloseNow (rs_fd c));; emit Unregister;; emit CloseChan;; mret None
      else
        new ← copy_out (result r) raw;
        emit (PutCb (VChunk 0 (Some new)));;
        emit (Submit GLoop (UvRead (rs_fd c) (buf_len (chunk_size c)) (-1)));;
        mret (Some (mk_rs RS_READ (rs_fd c) raw (chunk_size c)))
  | RS_DONE => mret (Some c)
  end.
Definition goc_io_fs_read_stream_make (path : cstr) (size rc : Z) : io (option goc_read_stream_ctx_t) :=
  let size := if size =? 0 then 65536 else size in
  start rc GLoop (UvOpen path UV_FS_O_RDONLY 0) (VChunk rc None) (mk_rs RS_OPEN (-1) (zeros size) size).

Inductive goc_ws_end_state_t := WE_FSYNC | WE_CLOSE.
Record goc_ws_end_ctx_t := mk_we { we_fd : Z; we_state : goc_ws_end_state_t; we_error : Z }.
Definition on_ws_end_step (c : goc_ws_end_ctx_t) (r : response) : io (option goc_ws_end_ctx_t) :=
  match we_state c with
  | WE_FSYNC =>
      emit (Submit GLoop (UvClose (we_fd c)));;
      mret (Some (mk_we (we_fd c) WE_CLOSE (if result r <? 0 then to_int (result r) else 0)))
  | WE_CLOSE => deliver (SCALAR (we_error c));; mret None
  end.
Definition goc_io_fs_write_stream_end (fd rc : Z) : io (option goc_ws_end_ctx_t) :=
  start rc GLoop (UvFsync fd) (SCALAR rc) (mk_we fd WE_FSYNC 0).

(** ** The registry of live requests *)

(** [live_uv_handles] with its capacity; the entries past the length are not read. *)
Record live := mk_live { handles : list Z; handles_cap : Z }.
Definition live_uv_handles_init : live := mk_live [] 16.
Definition gc_handle_register (p : Z) (s : live) : res live :=
  let n := Z.of_nat (length (handles s)) in
  let cap := if n =? handles_cap s then handles_cap s * 2 else handles_cap s in
  if n <? cap then ok (mk_live (handles s ++ [p]) cap) else ub.
(** The last entry takes the place of the first one that is [p]. *)
Fixpoint find_handle (p : Z) (l : list Z) : option nat :=
  match l with [] => None | x :: l => if x =? p then Some O else S <$> find_handle p l end.
Definition gc_handle_unregister (p : Z) (s : live) : live :=
  match find_handle p (handles s), last (handles s) with
  | Some i, Some x => mk_live (take (length (handles s) - 1) (<[i := x]> (handles s))) (handles_cap s)
  | _, _ => s
  end.

End Io.
