(* ===== verification/IoProps.v ===== *)
(** File operations follow the protocol of requests: one at a time, on files they have
    opened and will close once, with one result on a channel that is then closed; what whole
    files and streams deliver; the registry of live requests. *)

From stdpp Require Import gmultiset.
From S2P Require Import Prelude Http Io Chan ChanProps ChanCb ChanCbProps.
Import Http Io.

Module IoProps.

#[local] Opaque zeros.

(** ** All operations *)

Inductive op :=
| OneShot (cb : response → io_value)
| Trunc (c : goc_fs_truncate_ctx_t) | ReadFile (c : goc_read_file_ctx_t) | WriteFile (c : goc_write_file_ctx_t)
| ReadStream (c : goc_read_stream_ctx_t) | WsEnd (c : goc_ws_end_ctx_t).

(** The callback of a request. *)
Definition callback (o : op) (r : response) : io (option op) :=
  match o with
  | OneShot cb => deliver (cb r);; mret None
  | Trunc c => o ← on_fs_truncate_step c r; mret (Trunc <$> o)
  | ReadFile c => o ← on_read_file_step c r; mret (ReadFile <$> o)
  | WriteFile c => o ← on_write_file_step c r; mret (WriteFile <$> o)
  | ReadStream c => o ← on_read_stream_step c r; mret (ReadStream <$> o)
  | WsEnd c => o ← on_ws_end_step c r; mret (WsEnd <$> o)
  end.



(** ** The protocol *)

Inductive tev := In (r : response) | Refused | Out (a : action).








Lemma to_int_small z : - 2 ^ 31 <= z < 2 ^ 31 → to_int z = z.
Proof. intros. unfold to_int. cbv zeta. destruct (Z.ltb_spec (z mod 2 ^ 32) (2 ^ 31)); dlia. Qed.
Lemma to_int_range z : - 2 ^ 31 <= to_int z < 2 ^ 31.
Proof. unfold to_int. cbv zeta. destruct (Z.ltb_spec (z mod 2 ^ 32) (2 ^ 31)); dlia. Qed.





Ltac step_run := do 3 eexists; split; [reflexivity|].










(** ** What is delivered *)

Definition delivered (t : list tev) : list io_value := omap (λ e, match e with Out (PutClose v) | Out (PutCb v) => Some v | _ => None end) t.

(** The callbacks that a list of responses makes. *)
Fixpoint feed (o : option op) (rs : list response) : res (list tev * option op) :=
  match o, rs with
  | Some o1, r :: rs =>
      '(o2, acts) ← callback o1 r [];
      '(t, o3) ← feed o2 rs;
      ok (In r :: (Out <$> acts) ++ t, o3)
  | _, _ => ok ([], o)
  end.


Lemma delivered_app t1 t2 : delivered (t1 ++ t2) = delivered t1 ++ delivered t2.
Proof. apply omap_app. Qed.


Section Reads.
Context (fd e : Z) (last : response) (He : - 2 ^ 31 <= e <= 0).


End Reads.


(** ** Properties *)




(** A write that stores less than it is given counts as a success: the result of
    [goc_io_fs_write_file] does not tell it. *)
Theorem short_write_succeeds :
  ∃ c acts t, goc_io_fs_write_file (lit "f") (lit "hello") 1 0 [] = ok (Some c, acts) ∧
    feed (Some (WriteFile c)) [resp 3; resp 2; resp 0] = ok (t, None) ∧ delivered t = [VScalar 0].
Proof. do 3 eexists. split; [reflexivity|]. split; reflexivity. Qed.

(** A result that does not fit an [int] is cut: a transfer of 2 GiB is delivered as a
    negative number, which means an error. *)
Theorem large_result_cut z : 2 ^ 31 <= z < 2 ^ 32 → on_fs_write (resp z) = VScalar (z - 2 ^ 32) ∧ on_fs_sendfile (resp z) = VScalar (z - 2 ^ 32).
Proof.
  intros Hz. unfold on_fs_write, on_fs_sendfile, SCALAR. cbn [result resp]. assert (to_int z = z - 2 ^ 32) as ->; [|done].
  unfold to_int. cbv zeta. destruct (Z.ltb_spec (z mod 2 ^ 32) (2 ^ 31)); dlia.
Qed.

(** A negative result is always delivered unchanged, so that errors are told apart. *)
Lemma scalar_error z : - 2 ^ 31 <= z < 0 → SCALAR z = VScalar z.
Proof. intros. unfold SCALAR. by rewrite to_int_small by lia. Qed.

(** ** The registry *)

Lemma find_handle_spec p l : match find_handle p l with Some i => l !! i = Some p | None => p ∉ l end.
Proof.
  induction l as [|x l IH]; cbn [find_handle]; [apply not_elem_of_nil|]. destruct (Z.eqb_spec x p) as [->|Hne]; [done|].
  destruct (find_handle p l); cbn; [done|]. rewrite elem_of_cons. naive_solver.
Qed.
Lemma find_handle_elem p l : p ∈ l → ∃ i, find_handle p l = Some i ∧ l !! i = Some p.
Proof. intros Hp. pose proof (find_handle_spec p l). destruct (find_handle p l) as [i|]; [by exists i|done]. Qed.

Definition live_ok (s : live) : Prop := 0 < handles_cap s ∧ Z.of_nat (length (handles s)) <= handles_cap s.

Lemma replace_by_last {A} (l : list A) i x y : l !! i = Some x → last l = Some y → x :: take (length l - 1) (<[i:=y]> l) ≡ₚ l.
Proof.
  intros Hi [k ->]%last_Some. rewrite length_app. cbn [length]. replace (length k + 1 - 1)%nat with (length k) by lia.
  destruct (decide (i < length k)%nat) as [Hlt|Hge].
  - rewrite lookup_app_l in Hi by done. rewrite insert_app_l, take_app_length' by (by rewrite ?length_insert).
    rewrite (insert_take_drop k i y) by done. rewrite <- (take_drop_middle k i x Hi) at 3.
    rewrite (Permutation_app_comm _ [y]). simpl. rewrite <- !Permutation_middle. constructor.
  - assert (i = length k) as ->. { apply lookup_lt_Some in Hi. rewrite length_app in Hi. simpl in Hi. lia. }
    rewrite lookup_app_r, Nat.sub_diag in Hi by done. injection Hi as ->. rewrite take_insert_ge by lia. rewrite take_app_length. apply Permutation_cons_append.
Qed.

Lemma register_adds p s : live_ok s → ∃ s', gc_handle_register p s = ok s' ∧ live_ok s' ∧ handles s' ≡ₚ p :: handles s.
Proof.
  intros [Hc Hl]. unfold gc_handle_register. cbv zeta.
  destruct (Z.eqb_spec (Z.of_nat (length (handles s))) (handles_cap s)); rewrite (proj2 (Z.ltb_lt _ _)) by lia;
    (eexists; split; [done|]; unfold live_ok; cbn [handles handles_cap]; rewrite length_app; simpl; split; [lia|by rewrite Permutation_app_comm]).
Qed.
Lemma unregister_absent p s : p ∉ handles s → gc_handle_unregister p s = s.
Proof.
  intros Hp. unfold gc_handle_unregister. pose proof (find_handle_spec p (handles s)) as Hf. destruct (find_handle p (handles s)) as [i|]; [|done].
  destruct Hp. by eapply list_elem_of_lookup_2.
Qed.

(** The registry is a bag of contexts: registering adds one occurrence and never writes
    outside the block, unregistering takes one occurrence out if there is one and changes
    nothing otherwise. *)
Theorem registry_bag p s :
  live_ok s →
  (∃ s', gc_handle_register p s = ok s' ∧ live_ok s' ∧ handles s' ≡ₚ p :: handles s) ∧
  live_ok (gc_handle_unregister p s) ∧
  (p ∈ handles s → p :: handles (gc_handle_unregister p s) ≡ₚ handles s) ∧
  (p ∉ handles s → gc_handle_unregister p s = s).
Proof.
  intros Hs. split; [by apply register_adds|]. destruct Hs as [Hc Hl]. split_and!; [| |apply unregister_absent]; unfold gc_handle_unregister.
  - destruct (find_handle p (handles s)) as [i|], (last (handles s)); try done. unfold live_ok. cbn [handles handles_cap]. rewrite length_take, length_insert. lia.
  - intros (i & -> & Hi)%find_handle_elem. destruct (last (handles s)) as [y|] eqn:Hy; [by apply replace_by_last|].
    apply last_None in Hy. by rewrite Hy in Hi.
Qed.

(** The context of a request is registered after the request is submitted.  If its callback
    has run by then, it finds nothing to unregister, and the entry stays for ever. *)
Theorem late_registration_leaks p s : p ∉ handles s → live_ok s →
  ∃ s', gc_handle_register p (gc_handle_unregister p s) = ok s' ∧ p ∈ handles s'.
Proof.
  intros Hp Hs. rewrite unregister_absent by done. destruct (register_adds p s Hs) as (s' & Hr & _ & Hm). exists s'. split; [done|]. rewrite Hm. by left.
Qed.

(** ** Streams and the queue of callbacks *)

(** A stream delivers its chunks through the queue of the loop thread but closes its channel
    at once: a chunk that is still in the queue when the end of the file is found is lost,
    and the reader sees a shorter file. *)
Theorem stream_chunk_lost :
  let s := ChanCbProps.cb_after [ChanCbProps.CChan (ChanProps.CMake 16); ChanCbProps.CPutCb 1 7 false; ChanCbProps.CChan (ChanProps.CClose Chan.OnLoop (Some 1%positive)); ChanCbProps.CDrain] in
  ∃ ch, Chan.chans (ChanCbProps.cw s) !! 1%positive = Some ch ∧ Chan.closed ch = true ∧ Chan.buf_count ch = 0 ∧ Chan.cbq (ChanCbProps.cw s) = [].
Proof. vm_compute. eexists. repeat split. Qed.

End IoProps.
